(* ===== verification/_CoqProject ===== *)
-Q . S2P
Prelude.v
Bits.v
UBits.v
Mpz.v
Ast.v
BvUtil.v
AstFacts.v
TermFacts.v
BvTerms.v
Gates.v
Blast.v
BlastFacts.v
BlastAdd.v
BlastSigned.v
BlastMul.v
BlastShift.v
BoolRewriter.v
BvRewriter.v
PolyRewriter.v
BvTrailing.v
BvEq.v
BvBitwise.v
BvApp.v
BvRewriterDiv.v
BvRewriterShift.v
BvRewriterExtract.v
BvRewriterBits.v
BvRewriterCmp.v
PolyRewriterSound.v
PolyRewriterAdd.v
BvTrailingSound.v
BvBitwiseSound.v
BvArithSound.v
BvEqSound.v
BoolRewriterSound.v
BoolRewriterOr.v
BoolRewriterApp.v
BlasterCfg.v
BlastRewriter.v
BlastRewriterFacts.v
BlastRewriterState.v
ActCache.v
Rewriter.v
RewriterSound.v
BoolRewriterStar.v
ThRewriter.v
ThRewriterSound.v
BlasterRun.v
SatTypes.v
SatSolver.v
SatConflict.v
SatInv.v
SatPropagate.v
SatClauses.v
SatAnalyze.v
SatBackjump.v
Goal.v
SimplifyTactic.v
BlasterModel.v
BitBlasterTactic.v
Goal2Sat.v
Goal2SatSound.v
Mpn.v
MpnFacts.v
MpnDiv.v
MpnString.v
Examples.v
MpnProps.v
ActCacheProps.v
AstProps.v
BlastProps.v
RewriterProps.v
TraversalProps.v
TacticProps.v
BoolRewriterProps.v
BvRewriterProps.v
BvEqProps.v
ThRewriterProps.v
SatProps.v
SatSearch.v
