(* ===== verification/Prelude.v ===== *)
(** * Bit-blasting in z3, as Corana uses it

    Corana executes ARM binaries symbolically and hands the path conditions, which
    are quantifier-free bit-vector formulas, to its copy of z3 under [libs/z3].
    There a goal is simplified, its bit-vector terms are replaced by circuits over
    Boolean terms, a SAT solver decides the result, and a model of it is turned
    into a model of the goal.  The development covers this way from the simplifier to
    the answer of the SAT solver and back from its models: the tactics that
    simplify and bit-blast with all they call down to the gates, the translation to
    clauses, and of the solver the clause database, unit propagation, conflict
    analysis and the steps of the search.  Paths below are relative to
    [src/libs/z3/src].

    ** How the program's parts interact

    [bit_blaster_tactic] takes the formulas of a [goal] one by one through
    [bit_blaster_rewriter].  This is an instance of the generic traversal
    [rewriter_tpl], which walks a term with explicit stacks, remembers results in
    an [act_cache], and asks its configuration to reduce each application.  The
    configuration [blaster_rewriter_cfg] keeps the bits it gave to bit-vector
    constants and builds, for each operator, a circuit of [bit_blaster_tpl].  The
    circuits are written over the gates of a configuration of their own, which
    builds them with [bool_rewriter].  In the end the tactic puts the bits of the
    constants in a [bit_blaster_model_converter].  Before that the goal is
    simplified by [th_rewriter], a second instance of the traversal, which sends
    each application to [bool_rewriter] or to [bv_rewriter]; the latter takes its
    sums and products from [poly_rewriter] and asks [bv_trailing] about trailing
    zeros.  After it [goal2sat] walks the Boolean formulas with explicit stacks and
    adds clauses to a [sat::solver], by the operations of [sat::solver_core] alone.
    The solver propagates, decides, and turns conflicts into lemmas until every
    variable has a value or the clauses are refuted;
    [sat_tactic] reads a model of the solver back through the map from atoms to
    variables.  Beside that pipeline stand [mpn_manager] and [mpz_manager], on which
    the numerals of the terms rest.

    ** The files

    Vocabulary.
    - [Prelude]: powers of two, list and loop lemmas, and the monad [M] of code
      that can be interrupted: the environment [Env] answers its checks for memory
      and cancellation as functions of a clock, an exception is a value of [exn].
      [spec] and [spec_exn] are its partial specifications (what holds of a result,
      which exceptions may escape), [spec_returns] turns them into total ones in an
      environment that is [quiet].
    - [Bits], [UBits]: lists of booleans as unsigned and two's complement integers,
      and the SMT-LIB operators.

    Terms ([ast/ast.h], [ast/ast.cpp], [ast/bv_decl_plugin.cpp]).
    - [Ast]: terms, sorts, recognizers, constructors, values, and the meaning
      [eval] of a term.  [AstFacts]: sort soundness, and the relation "may be
      replaced by".  [TermFacts]: sort and value of each constructed term.

    Circuits ([ast/rewriter/bit_blaster/bit_blaster_tpl_def.h]).
    - [Gates]: the class of the gates and their laws.  [Blast]: every circuit, by
      the name of the code.  [BlastFacts], [BlastAdd], [BlastSigned], [BlastMul],
      [BlastShift]: each circuit computes its
      operator, over any gates that keep their laws.

    Boolean simplifier ([ast/rewriter/bool_rewriter.cpp]).
    - [BoolRewriter]: its methods.  [BoolRewriterSound], [BoolRewriterOr],
      [BoolRewriterApp]: they keep sort and meaning, and return.
    - [BlasterCfg]: the two configurations of the circuits
      ([bit_blaster_rewriter.cpp], [bit_blaster.cpp]) meet [Gates].

    Bit-blasting rewriter ([ast/rewriter/bit_blaster/bit_blaster_rewriter.cpp]).
    - [BlastRewriter]: the state of [blaster_rewriter_cfg] and [reduce_app].
      [BlastRewriterFacts]: each reduction means its operator.
      [BlastRewriterState]: the invariant of the state, scopes, and that the bits
      can be chosen to agree with the constants.

    Traversal ([ast/rewriter/rewriter.h], [rewriter.cpp], [rewriter_def.h],
    [ast/act_cache.cpp]).
    - [ActCache]: the cache, the interface [Cache] with its laws, and the
      bookkeeping.  [Rewriter]: the machine.  [RewriterSound]: what a
      configuration promises ([ConfigOk], [OneShot]) and what the machine then
      guarantees.  [BoolRewriterStar], [BlasterRun] and [ThRewriter] are instances
      of the configuration.

    Bit-vector simplifier ([ast/rewriter/bv_rewriter.cpp]).
    - [BvUtil]: recognizers and constructors of [bv_util], and the few integer
      functions the rules call; the extended gcd ends, and odd numbers have inverses.
      [BvTerms]: sort and value of the terms the rules build.
    - [BvRewriter]: comparisons, extraction, shifts, division, concatenation,
      rotation, if-then-else and overflow tests.  [BvRewriterExtract],
      [BvRewriterShift], [BvRewriterDiv], [BvRewriterBits], [BvRewriterCmp]: each
      rule keeps sort and meaning.
    - [BvBitwise]: disjunction, exclusive or and what is defined by them.
      [BvBitwiseSound]: these rules keep sort and meaning.
    - [PolyRewriter] ([ast/rewriter/poly_rewriter_def.h]): sums, products and the
      cancellation of monomials.  [PolyRewriterSound], [PolyRewriterAdd]: sums and
      products modulo a power of two; the rules keep them.
    - [BvTrailing] ([ast/rewriter/bv_trailing.cpp]): bounds on trailing zeros and
      their removal.  [BvTrailingSound]: the bounds hold, with and without the
      cache; what is removed was zero, where no part of a concatenation is
      compound.
    - [BvEq], [BvEqSound]: equations.  [BvApp]: the rules of [bv_rewriter] for
      sums and products, and the dispatch to all these rules; [BvArithSound]: both
      keep sort and meaning.

    Simplifier ([ast/rewriter/th_rewriter.cpp]).
    - [ThRewriter]: the dispatch to the two rewriters, the exchange of if-then-else
      with other operators, and the configuration of the traversal.
      [ThRewriterSound]: it keeps the promises of [ConfigOk].

    Tactics ([tactic/goal.cpp], [tactic/core/simplify_tactic.cpp],
    [tactic/bv/bit_blaster_tactic.cpp],
    [tactic/bv/bit_blaster_model_converter.cpp]).
    - [Goal]: formulas are added, replaced, and removed where redundant.
    - [SimplifyTactic]: every formula is rewritten by [th_rewriter].
    - [BlasterModel], [BitBlasterTactic].

    SAT solver ([sat/sat_types.h], [sat/sat_solver.h], [sat/sat_solver.cpp]).
    - [SatTypes]: literals, assignments, and the class [SolverCore] of the
      operations by which a goal reaches a solver, with its laws [SolverCoreOk].
    - [SatSolver]: clauses, watch lists, values and trail, [mk_clause] and
      [propagate].  [SatConflict]: conflict analysis, minimization of the lemma,
      backtracking, learning, decisions.
    - [SatInv]: the invariant of values, levels, reasons, watch lists and clauses,
      and the models of a state.  [SatPropagate]: unit propagation keeps both and is
      complete.  [SatClauses]: adding a clause keeps the invariant; the solver is a
      [SolverCoreOk].
    - [SatAnalyze]: the analysis of a conflict ends with a lemma that follows from
      the clauses, and so does what minimization and subsumption leave of it.
      [SatBackjump]: [pop] leads back to a state of the search, where the lemma
      makes one literal true.  [SatSearch]: the steps of the search as a relation,
      what they keep, and the answers.

    Goals to clauses ([sat/tactic/goal2sat.cpp], [sat/tactic/atom2bool_var.cpp],
    [ast/expr2var.cpp], [sat/tactic/sat_tactic.cpp]).
    - [Goal2Sat]: the translation and the model of the goal.  [Goal2SatSound]: the
      clauses mean what the goal means, for any [SolverCoreOk].

    Numbers ([util/mpn.cpp], [util/mpz.cpp]).
    - [Mpn]: digit arrays with checked accesses.  [MpnFacts], [MpnDiv],
      [MpnString]: each operation stays in its arrays and computes its number.
    - [Mpz]: the bitwise operations, which work on words of 64 bits.

    The files whose names end in [Props] hold the properties, [Examples] the
    inputs of their instances.

    ** What the theorems show

    - Tactic ([TacticProps]): the goal it leaves is satisfiable exactly when the
      goal it got is; converted models satisfy the goal; it returns.
    - From bit-vectors to clauses ([SatProps]): the clauses of the blasted goal have
      a model where the goal has one, and a model of the clauses, read back and
      converted, satisfies the goal.  For goals alone the clauses hold exactly where
      the goal does; only a connective it refuses, or an interruption, stops the
      translation.
    - From bit-vectors to an answer ([SatSearch]): whatever the search does on the
      clauses of a blasted goal, a conflict it cannot resolve shows that the goal has
      no model, and a complete assignment, read back and converted, is one.
    - SAT solver ([SatProps], [SatSearch]): [mk_clause] keeps the invariant and restricts the
      models to those of the clause; [propagate] ends, only adds consequences, finds
      conflicts only where there are no models, and leaves no unit clause.  In every
      state the search reaches a conflict is resolved: the lemma follows from the
      clauses, its first literal becomes true at a lower level, and the models stay
      those of the clauses at the start.  Between two restarts the search ends with an
      answer.
    - Traversal ([TraversalProps]): under [ConfigOk] the result means the term; a
      configuration that asks for no second rewriting gets a result from fuel
      proportional to the tree of the term.
    - Cache ([ActCacheProps]): it refines a map that forgets, and its counters
      and its queue agree with the entries on runs that replace no used entry.
    - Rewriter ([RewriterProps]): soundness of [reduce_app], its refusals, the
      reachable states, [pop] after [push], conservativity of the fresh bits.
    - Circuits ([BlastProps]): every operator at every width, and the equivalence
      of the two array multipliers.
    - Boolean simplifier ([BoolRewriterProps]): soundness and totality.
    - Bit-vector simplifier ([BvRewriterProps], [BvEqProps]): the rules for
      comparison, bitwise operators, sums, products and equations are sound, for
      every option, every order of terms and every sorting function, with named
      exceptions where the code is wrong; cancellation keeps an equation
      equivalent; the cache of trailing zeros changes nothing; the bitwise
      operations on words are those on integers.
    - Simplifier ([ThRewriterProps]): [bv_rewriter::mk_app_core] is sound on every
      operator but the test for signed overflow, with conditions on two options;
      with four options off, as they are by default, the traversal by [th_rewriter]
      keeps sort and, unless it meets such a test, value of whole terms, and the
      goal [simplify_tactic] leaves has the same conjunction.
    - Terms ([AstProps]): sort soundness, disequality of values.
    - Naturals ([MpnProps]): values and bounds of the five operations and the
      decimal numeral.
    Some theorems record where the code departs from what it means to do; each
    says so in its comment.

    ** Fuel and bounds

    - Loops of the code over an index are folds over their range, without fuel.
    - Recursions of [bool_rewriter] have fuel the callers set from the size of the
      terms; running out is the exception [ExDiverge], which no specification
      of [spec] admits, so every theorem on them shows that it suffices.
    - The loop over the summands of a product runs until the bound on them stops
      it, which is its fuel; buffers of arguments are unfolded with the nodes of
      the term as fuel; the extended gcd halves a product in each step.
    - The main loop of the traversal takes fuel.  A configuration that may ask for
      rewriting without bound need not terminate, so the general theorem allows
      [ExDiverge]; for one that does not ask, the fuel [weight t] is enough.
      [process_const] may rewrite a constant to a constant: its retries are the
      parameter [retries], one suffices for the bit-blaster.
    - The loop of [goal::quick_process] has as fuel the nodes of the formula; that of
      [goal2sat] twice the nodes, as a node has one round of its own for each path
      to it and starts another for its parent.
    - Unit propagation takes a round for each variable at most, and one more.
      Conflict analysis goes down the trail once; a variable enters the stack of
      the minimization once; a round of conflict resolution leaves a level.
      The search is a relation, without fuel; a measure bounds its runs between
      restarts.
    - Digits, carries and borrows of [mpn_manager] and the counters of the cache
      are at machine width.  Widths of bit vectors and positions in stacks are
      [nat]; the field [m_i] of a frame has 26 bits in the code, which is an
      arity no term of these sorts comes near to.

    ** What is not modelled, and why

    - Proof generation and unsatisfiable cores: switched off for these queries.
    - Variables, quantifiers, and with them the binding stacks, the scopes of the
      cache and macros with arguments: the formulas are quantifier-free.
    - Reference counts: they decide only what is cached, so the traversal takes
      them as an arbitrary function of its state.  Memory is otherwise managed by
      the code and does not show.
    - The order of terms by which [bv_rewriter] sorts arguments, and [std::sort]:
      parameters, the second a permutation of its input.
    - The operators [bv2int] and [int2bv], which mix in the integers.
    - A rewriter is reset when an exception leaves it; since nothing is claimed of
      the state after one, the reset before a cancellation is not visible.
    - Termination of the traversal for [bool_rewriter_star] and [th_rewriter],
      which may rewrite their own results.
    - Four options of [bv_rewriter] are excluded where the traversal by
      [th_rewriter] is shown sound, all off by default: [udiv2mul], [mul2concat],
      [bv_urem_simpl] and [bv_trailing], as each has a rule that is wrong on some
      terms.  The rule for signed overflow, which is wrong too, has no option: a
      ghost flag records whether the traversal met it.
    - The constants [OP_BIT0] and [OP_BIT1], which the rules replace by numerals.
    - [mk_bit_blaster_tactic] wraps the tactic so that each goal meets a fresh
      rewriter: this is the hypothesis that no constant has bits yet.
    - The offsets of clauses are positions in a list of all clauses; literals and
      variables are not bounded by 32 bits, nor are counts of watches.
    - Of the SAT solver: the choice of variables, phases and restarts, for which the
      steps of the search take any, so that nothing is said of how often it restarts;
      the deletion of clauses, the simplifications between
      restarts with the elimination of variables and its model converter,
      assumptions and cores, extensions, proofs and threads.  Activities and the
      glue of clauses steer the search only.  The marks of variables, clear between
      conflicts, are local to the analysis.
    - Of [goal2sat]: pseudo-Boolean constraints, exclusive ors for the extension,
      and dependencies of formulas; of [sat_tactic] the way back from clauses to a
      goal.
    - Parsers, printers, statistics, the other theories and solvers, capstone
      (instruction tables in C), and Corana, which is written in Java.

    ** Plan

    Next would be the deletion of learned clauses in [sat/sat_solver.cpp], the model
    converter of the SAT preprocessing ([sat/sat_model_converter.cpp]), and the
    arithmetic of [util/mpz.cpp] on top of [Mpn]. *)
From Stdlib Require Import ZArith Lia.
From stdpp Require Import base list.

(** ** Tactics *)

(** Split conjunctions of the context. *)
Ltac split_ands :=
  repeat match goal with
         | H : _ /\ _ |- _ => destruct H
         | H : exists _, _ |- _ => destruct H
         end.

(** Case analysis on the scrutinee of some match or conditional of the goal. *)
Ltac case_goal :=
  match goal with
  | |- context [match ?x with _ => _ end] =>
      lazymatch x with
      | context [match _ with _ => _ end] => fail
      | _ => destruct x eqn:?
      end
  end.

(** ** Powers of two *)

(** [pow2 n] is 2^n for a bit count [n]. *)
Definition pow2 (n : nat) : Z := (2 ^ Z.of_nat n)%Z.

Section Pow2.
Local Open Scope Z_scope.

Lemma pow2_pos n : 0 < pow2 n.
Proof. unfold pow2. apply Z.pow_pos_nonneg; lia. Qed.

Lemma pow2_0 : pow2 0 = 1.
Proof. reflexivity. Qed.

Lemma pow2_S n : pow2 (S n) = 2 * pow2 n.
Proof. unfold pow2. rewrite Nat2Z.inj_succ, Z.pow_succ_r by lia. reflexivity. Qed.

Lemma pow2_add m n : pow2 (m + n) = pow2 m * pow2 n.
Proof. unfold pow2. rewrite Nat2Z.inj_add, Z.pow_add_r by lia. reflexivity. Qed.

Lemma pow2_le_mono m n : (m <= n)%nat -> pow2 m <= pow2 n.
Proof. intros. unfold pow2. apply Z.pow_le_mono_r; lia. Qed.

Lemma pow2_lt_mono m n : (m < n)%nat -> pow2 m < pow2 n.
Proof. intros. unfold pow2. apply Z.pow_lt_mono_r; lia. Qed.

Lemma pow2_gt_id n : Z.of_nat n < pow2 n.
Proof. unfold pow2. apply Z.pow_gt_lin_r; lia. Qed.

(** [2^n] splits at any smaller exponent. *)
Lemma pow2_split m n : (m <= n)%nat -> pow2 n = pow2 m * pow2 (n - m).
Proof. intros. rewrite <- pow2_add. f_equal. lia. Qed.
End Pow2.

Create HintDb pow2.
#[export] Hint Resolve pow2_pos : pow2.

(** ** Errors, effects and the monad of the rewriters

    The C++ classes modelled in this library mutate a few counters and may
    raise [rewriter_exception].  [st] is the mutable state they share: the
    field [bool_rewriter::m_local_ctx_cost] (a 32-bit unsigned counter) and
    the number of resource checkpoints passed so far. *)

Inductive exn :=
| ExMaxMemory                     (* Z3_MAX_MEMORY_MSG *)
| ExCanceled                      (* limit().get_cancel_msg() *)
| ExUnsupported                   (* "operator is not supported, ..." *)
| ExMaxSteps                      (* Z3_MAX_STEPS_MSG *)
| ExMaxFrames                     (* Z3_MAX_FRAMES_MSG *)
| ExSomBlowup                     (* "sum of monomials blowup" *)
| ExVerify                        (* a failed VERIFY, or the use of a null pointer *)
| ExStuck                         (* an access out of range *)
| ExDiverge.                      (* the fuel of a modelled loop ran out *)

Record st := mk_st { m_local_ctx_cost : Z; m_ticks : nat }.

Inductive res (A : Type) :=
| Ok (a : A) (s : st)
| Throw (e : exn).
Arguments Ok {A} a s.
Arguments Throw {A} e.

Definition M (A : Type) : Type := st -> res A.

Global Instance M_ret : MRet M := fun A a s => Ok a s.

Global Instance M_bind : MBind M := fun A B k m s =>
  match m s with
  | Ok a s' => k a s'
  | Throw e => Throw e
  end.

Definition throw {A} (e : exn) : M A := fun _ => Throw e.

(** The environment a checkpoint observes: the allocation size and the
    cancellation flag at each tick, and the configured memory bound. *)
Class Env := {
  alloc_size : nat -> Z;
  canceled : nat -> bool;
  max_memory : Z;
}.

(** The exceptions a run may raise because of its environment. *)
Definition env_raises `{Env} (e : exn) : Prop :=
  (e = ExMaxMemory /\ exists t, (max_memory < alloc_size t)%Z)
  \/ (e = ExCanceled /\ exists t, canceled t = true).

(** An environment that never interrupts the run. *)
Definition quiet `{Env} : Prop :=
  forall t, (alloc_size t <= max_memory)%Z /\ canceled t = false.

(** ** Specifications of effectful computations

    [spec m Q]: from every state, [m] returns a value in [Q], or the
    environment interrupted it.  It rules out every other exception, running
    out of fuel included. *)
Definition spec `{Env} {A} (m : M A) (Q : A -> Prop) : Prop :=
  forall s, match m s with
            | Ok a _ => Q a
            | Throw e => env_raises e
            end.

Section Spec.
Context `{Env}.

Lemma spec_ret {A} (a : A) (Q : A -> Prop) : Q a -> spec (mret a) Q.
Proof. intros HQ s. exact HQ. Qed.

Lemma spec_bind {A B} (m : M A) (k : A -> M B) (P : A -> Prop) (Q : B -> Prop) :
  spec m P -> (forall a, P a -> spec (k a) Q) -> spec (m ≫= k) Q.
Proof.
  intros Hm Hk s. specialize (Hm s). unfold mbind, M_bind.
  destruct (m s) as [a s'|e]; [|exact Hm]. exact (Hk a Hm s').
Qed.

Lemma spec_mono {A} (m : M A) (P Q : A -> Prop) :
  spec m P -> (forall a, P a -> Q a) -> spec m Q.
Proof.
  intros Hm HPQ s. specialize (Hm s). destruct (m s); [|exact Hm]. by apply HPQ.
Qed.

Lemma spec_and {A} (m : M A) (P Q : A -> Prop) :
  spec m P -> spec m Q -> spec m (fun a => P a /\ Q a).
Proof. intros HP HQ s. specialize (HP s); specialize (HQ s). by destruct (m s). Qed.

(** In a quiet environment the computation does return. *)
Lemma spec_returns {A} (m : M A) (Q : A -> Prop) :
  quiet -> spec m Q -> forall s, exists a s', m s = Ok a s' /\ Q a.
Proof.
  intros Hq Hm s. specialize (Hm s). destruct (m s) as [a s'|e]; [eauto|].
  exfalso. destruct Hm as [[_ [t Ht]]|[_ [t Ht]]]; destruct (Hq t) as [Hle Hc].
  - lia.
  - congruence.
Qed.

(** Total correctness: [spec], and an uninterrupted run returns. *)
Definition total {A} (m : M A) (Q : A -> Prop) : Prop :=
  spec m Q /\ (quiet -> forall s, exists a s', m s = Ok a s' /\ Q a).

Lemma spec_total {A} (m : M A) (Q : A -> Prop) : spec m Q -> total m Q.
Proof. intros Hm. split; [done|]. intros Hq. by apply spec_returns. Qed.

(** [spec_exn E m Q]: [m] may also raise an exception of [E]. *)
Definition spec_exn {A} (E : exn -> Prop) (m : M A) (Q : A -> Prop) : Prop :=
  forall s, match m s with
            | Ok a _ => Q a
            | Throw e => env_raises e \/ E e
            end.

Lemma spec_exn_ret {A} E (a : A) (Q : A -> Prop) : Q a -> spec_exn E (mret a) Q.
Proof. intros HQ s. exact HQ. Qed.

Lemma spec_exn_throw {A} E e (Q : A -> Prop) : E e -> spec_exn E (throw e) Q.
Proof. intros He s. by right. Qed.

Lemma spec_exn_bind {A B} E (m : M A) (k : A -> M B) (P : A -> Prop) (Q : B -> Prop) :
  spec_exn E m P -> (forall a, P a -> spec_exn E (k a) Q) -> spec_exn E (m ≫= k) Q.
Proof.
  intros Hm Hk s. specialize (Hm s). unfold mbind, M_bind.
  destruct (m s) as [a s'|e]; [|exact Hm]. exact (Hk a Hm s').
Qed.

Lemma spec_exn_mono {A} (E E' : exn -> Prop) (m : M A) (P Q : A -> Prop) :
  spec_exn E m P -> (forall e, E e -> E' e) -> (forall a, P a -> Q a) -> spec_exn E' m Q.
Proof.
  intros Hm HE HQ s. specialize (Hm s). destruct (m s); [by apply HQ|]. destruct Hm as [|He]; [by left|].
  right. by apply HE.
Qed.

Lemma spec_exn_and {A} E (m : M A) (P Q : A -> Prop) :
  spec_exn E m P -> spec_exn E m Q -> spec_exn E m (fun a => P a /\ Q a).
Proof. intros HP HQ s. specialize (HP s); specialize (HQ s). by destruct (m s). Qed.

Lemma spec_exn_of {A} E (m : M A) (Q : A -> Prop) : spec m Q -> spec_exn E m Q.
Proof. intros Hm s. specialize (Hm s). destruct (m s); [done|]. by left. Qed.

Lemma spec_exn_none {A} (m : M A) (Q : A -> Prop) : spec_exn (fun _ => False) m Q -> spec m Q.
Proof. intros Hm s. specialize (Hm s). destruct (m s); [done|]. by destruct Hm. Qed.
End Spec.

(** ** Machine words *)

(** An [unsigned] result. *)
Definition u32 (x : Z) : Z := (x mod 2 ^ 32)%Z.

Lemma u32_small x : (0 <= x < 2 ^ 32)%Z -> u32 x = x.
Proof. apply Z.mod_small. Qed.

(** ** Loops

    [for_up n i body x] is the C++ loop
    [for (unsigned k = i; k < i + n; k++) x = body(k, x)]. *)
Fixpoint for_up {X} (n i : nat) (body : nat -> X -> M X) (x : X) : M X :=
  match n with
  | O => mret x
  | S n' => x' ← body i x; for_up n' (S i) body x'
  end.

(** [for (unsigned k = lo; k < hi; k++)]. *)
Definition for_range {X} (lo hi : nat) (body : nat -> X -> M X) (x : X) : M X :=
  for_up (hi - lo) lo body x.

(** The same loop for a body without effects. *)
Fixpoint pure_for_up {X} (n i : nat) (body : nat -> X -> X) (x : X) : X :=
  match n with
  | O => x
  | S n' => pure_for_up n' (S i) body (body i x)
  end.

Definition pure_for {X} (lo hi : nat) (body : nat -> X -> X) (x : X) : X :=
  pure_for_up (hi - lo) lo body x.

Section Loops.
Context `{Env}.

Lemma spec_exn_for_up {X} E (Inv : nat -> X -> Prop) n i (body : nat -> X -> M X) x :
  Inv i x ->
  (forall k y, i <= k < i + n -> Inv k y -> spec_exn E (body k y) (Inv (S k))) ->
  spec_exn E (for_up n i body x) (Inv (i + n)).
Proof.
  revert i x. induction n as [|n IH]; intros i x H0 Hstep; simpl.
  - apply spec_exn_ret. by rewrite Nat.add_0_r.
  - eapply spec_exn_bind; [apply Hstep; [lia|exact H0]|].
    intros y Hy. replace (i + S n) with (S i + n) by lia.
    apply IH; [exact Hy|]. intros k z Hk. apply Hstep. lia.
Qed.

(** The loop rule: an invariant that holds on entry and is preserved by
    every iteration holds on exit. *)
Lemma spec_exn_for {X} E (Inv : nat -> X -> Prop) lo hi (body : nat -> X -> M X) x :
  lo <= hi ->
  Inv lo x ->
  (forall k y, lo <= k < hi -> Inv k y -> spec_exn E (body k y) (Inv (S k))) ->
  spec_exn E (for_range lo hi body x) (Inv hi).
Proof.
  intros Hle H0 Hstep. unfold for_range. replace hi with (lo + (hi - lo)) at 2 by lia.
  apply spec_exn_for_up; [exact H0|]. intros k y Hk. apply Hstep. lia.
Qed.

Lemma spec_for {X} (Inv : nat -> X -> Prop) lo hi (body : nat -> X -> M X) x :
  lo <= hi ->
  Inv lo x ->
  (forall k y, lo <= k < hi -> Inv k y -> spec (body k y) (Inv (S k))) ->
  spec (for_range lo hi body x) (Inv hi).
Proof. intros Hle H0 Hstep. apply spec_exn_none, spec_exn_for; auto using spec_exn_of. Qed.

Lemma pure_for_up_inv {X} (Inv : nat -> X -> Prop) n i (body : nat -> X -> X) x :
  Inv i x ->
  (forall k y, i <= k < i + n -> Inv k y -> Inv (S k) (body k y)) ->
  Inv (i + n) (pure_for_up n i body x).
Proof.
  revert i x. induction n as [|n IH]; intros i x H0 Hstep; simpl.
  - by rewrite Nat.add_0_r.
  - replace (i + S n) with (S i + n) by lia. apply IH.
    + apply Hstep; [lia|exact H0].
    + intros k z Hk. apply Hstep. lia.
Qed.

Lemma pure_for_inv {X} (Inv : nat -> X -> Prop) lo hi (body : nat -> X -> X) x :
  lo <= hi ->
  Inv lo x ->
  (forall k y, lo <= k < hi -> Inv k y -> Inv (S k) (body k y)) ->
  Inv hi (pure_for lo hi body x).
Proof.
  intros Hle H0 Hstep. unfold pure_for. replace hi with (lo + (hi - lo)) at 1 by lia.
  apply pure_for_up_inv; [exact H0|]. intros k y Hk. apply Hstep. lia.
Qed.
End Loops.

(** ** Lists *)

Lemma lookup_total_map_seq {B} `{Inhabited B} (f : nat -> B) first n i :
  i < n -> map f (seq first n) !!! i = f (first + i).
Proof.
  intros Hi. apply list_lookup_total_correct.
  change (map f (seq first n)) with (f <$> seq first n).
  by rewrite list_lookup_fmap, lookup_seq_lt.
Qed.

Lemma map_seq_shift {B} (f : nat -> B) i n : map f (seq i n) = map (fun j => f (i + j)) (seq 0 n).
Proof.
  revert f i. induction n as [|n IH]; intros f i; simpl; [done|]. rewrite Nat.add_0_r. f_equal.
  rewrite (IH f), (IH (fun j => f (i + j)) 1). apply map_ext. intros j. f_equal. lia.
Qed.

Lemma elem_of_concat {A} (x : A) (ls : list (list A)) :
  x ∈ concat ls <-> exists l, l ∈ ls /\ x ∈ l.
Proof.
  induction ls as [|k ls IH]; simpl.
  - split; [intros H; inversion H|]. intros (l & H & _). inversion H.
  - rewrite elem_of_app, IH. split.
    + intros [Hx|(l & Hl & Hx)]; [exists k; split; [left|done]|exists l; split; [by right|done]].
    + intros (l & [->|Hl]%elem_of_cons & Hx); [by left|right; by exists l].
Qed.

Lemma map_snd_zip {A B} (l : list A) (k : list B) : length l = length k -> map snd (zip l k) = k.
Proof. revert k. induction l as [|x l IH]; intros [|y k] [=]; simpl; [done|]. by rewrite IH. Qed.
