(* ===== verification/Bits.v ===== *)
(** * Bits: lists of booleans as machine integers

    Bit vectors are lists of booleans, least significant bit first, as in the
    arrays [a_bits] of the bit-blaster.  [b2z] is the unsigned value, [b2s] the
    two's complement value.  The file also fixes the reading of the SMT-LIB
    bit-vector operators over unsigned values. *)
From Stdlib Require Import ZArith Lia.
From stdpp Require Import base list.
From S2P Require Import Prelude.

Local Open Scope Z_scope.

(** ** The unsigned value of a bit list *)

Fixpoint b2z (l : list bool) : Z :=
  match l with
  | [] => 0
  | b :: l' => Z.b2z b + 2 * b2z l'
  end.

(** The [n] low bits of [z]. *)
Fixpoint z2b (n : nat) (z : Z) : list bool :=
  match n with
  | O => []
  | S n' => Z.odd z :: z2b n' (Z.div2 z)
  end.

Section B2Z.
Lemma b2z_bool b : 0 <= Z.b2z b <= 1.
Proof. destruct b; simpl; lia. Qed.

Lemma b2z_bounds l : 0 <= b2z l < pow2 (length l).
Proof.
  induction l as [|b l IH]; simpl length.
  - rewrite pow2_0. simpl. lia.
  - rewrite pow2_S. simpl. pose proof (b2z_bool b). lia.
Qed.

Lemma b2z_app l k : b2z (l ++ k) = b2z l + pow2 (length l) * b2z k.
Proof.
  induction l as [|b l IH]; simpl length; simpl app.
  - rewrite pow2_0. simpl. lia.
  - rewrite pow2_S. simpl. rewrite IH. lia.
Qed.

Lemma b2z_snoc l b : b2z (l ++ [b]) = b2z l + pow2 (length l) * Z.b2z b.
Proof. rewrite b2z_app. simpl. lia. Qed.

Lemma b2z_replicate_false n : b2z (replicate n false) = 0.
Proof. induction n as [|n IH]; simpl; lia. Qed.

Lemma b2z_replicate_true n : b2z (replicate n true) = pow2 n - 1.
Proof. induction n as [|n IH]; [reflexivity|]. rewrite pow2_S. simpl. lia. Qed.

(** Complementing every bit. *)
Lemma b2z_negb l : b2z (map negb l) = pow2 (length l) - 1 - b2z l.
Proof.
  induction l as [|b l IH]; simpl length; [reflexivity|].
  rewrite pow2_S. simpl. rewrite IH. destruct b; simpl; lia.
Qed.

Lemma b2z_inj l k : length l = length k -> b2z l = b2z k -> l = k.
Proof.
  revert k. induction l as [|b l IH]; intros [|c k]; simpl; try discriminate; [done|].
  intros Hlen Heq. injection Hlen as Hlen.
  assert (b = c /\ b2z l = b2z k) as [-> Hlk]
    by (destruct b, c; simpl in Heq; split; (reflexivity || lia)).
  f_equal. by apply IH.
Qed.

Lemma b2z_eqb_eq l k : length l = length k -> (b2z l =? b2z k) = bool_decide (l = k).
Proof.
  intros Hlen. destruct (Z.eqb_spec (b2z l) (b2z k)) as [E|E]; symmetry.
  - apply bool_decide_eq_true. by apply b2z_inj.
  - apply bool_decide_eq_false. congruence.
Qed.

Lemma b2z_take n l : b2z (take n l) = b2z l mod pow2 n.
Proof.
  destruct (decide (n <= length l)%nat) as [Hn|Hn].
  - rewrite <- (take_drop n l) at 2. rewrite b2z_app.
    rewrite length_take, Nat.min_l by lia.
    rewrite Z.mul_comm, Z.mod_add by (pose proof (pow2_pos n); lia).
    symmetry. apply Z.mod_small.
    pose proof (b2z_bounds (take n l)) as B. rewrite length_take, Nat.min_l in B by lia. lia.
  - rewrite take_ge by lia. symmetry. apply Z.mod_small.
    pose proof (b2z_bounds l). pose proof (pow2_le_mono (length l) n). lia.
Qed.

Lemma b2z_drop n l : b2z (drop n l) = b2z l / pow2 n.
Proof.
  destruct (decide (n <= length l)%nat) as [Hn|Hn].
  - rewrite <- (take_drop n l) at 2. rewrite b2z_app.
    rewrite length_take, Nat.min_l by lia.
    pose proof (b2z_bounds (take n l)) as B. rewrite length_take, Nat.min_l in B by lia.
    rewrite Z.mul_comm, Z.div_add by (pose proof (pow2_pos n); lia).
    rewrite Z.div_small by lia. lia.
  - rewrite drop_ge by lia. simpl. symmetry. apply Z.div_small.
    pose proof (b2z_bounds l). pose proof (pow2_le_mono (length l) n). lia.
Qed.

(** The [i]-th bit, read as [(value / 2^i) mod 2]. *)
Lemma b2z_lookup l i b : l !! i = Some b -> (b2z l / pow2 i) mod 2 = Z.b2z b.
Proof.
  intros Hi. rewrite <- b2z_drop. rewrite (drop_S l b i) by done. simpl.
  rewrite Z.mul_comm, Z.mod_add by lia. destruct b; reflexivity.
Qed.

Lemma b2z_take_S l i b :
  l !! i = Some b -> b2z (take (S i) l) = b2z (take i l) + pow2 i * Z.b2z b.
Proof.
  intros Hi. rewrite (take_S_r l i b) by done. rewrite b2z_snoc.
  rewrite length_take, Nat.min_l; [done|]. apply lookup_lt_Some in Hi. lia.
Qed.

Lemma length_z2b n z : length (z2b n z) = n.
Proof. revert z. induction n; intros z; simpl; auto. Qed.

Lemma b2z_z2b n z : b2z (z2b n z) = z mod pow2 n.
Proof.
  revert z. induction n as [|n IH]; intros z; simpl.
  - rewrite pow2_0, Z.mod_1_r. reflexivity.
  - rewrite IH, pow2_S, Z.div2_div. rewrite Z.rem_mul_r by (pose proof (pow2_pos n); lia).
    rewrite Zmod_odd. destruct (Z.odd z); reflexivity.
Qed.

Lemma z2b_b2z n l : length l = n -> z2b n (b2z l) = l.
Proof.
  intros <-. apply b2z_inj; [apply length_z2b|].
  rewrite b2z_z2b. apply Z.mod_small, b2z_bounds.
Qed.

(** A value below [2^n] has no bit set at or above [n]. *)
Lemma b2z_bit_bound l i : l !! i = Some true -> pow2 i <= b2z l.
Proof.
  intros Hi. rewrite <- (take_drop_middle l i true Hi), b2z_app.
  rewrite length_take, Nat.min_l by (apply lookup_lt_Some in Hi; lia).
  simpl. pose proof (b2z_bounds (take i l)). pose proof (b2z_bounds (drop (S i) l)).
  pose proof (pow2_pos i). nia.
Qed.

Lemma b2z_high_zero l n :
  (forall i, (n <= i)%nat -> l !! i = Some true -> False) -> b2z l < pow2 n.
Proof.
  intros Hz. rewrite <- (take_drop n l), b2z_app.
  replace (b2z (drop n l)) with 0.
  - pose proof (b2z_bounds (take n l)) as B. rewrite length_take in B.
    pose proof (pow2_le_mono (n `min` length l) n). lia.
  - symmetry. cut (forall k, (forall i, k !! i = Some true -> False) -> b2z k = 0).
    { intros C. apply C. intros i. rewrite lookup_drop. apply Hz. lia. }
    clear. induction k as [|b k IH]; intros Hk; [done|]. simpl.
    rewrite IH by (intros i; apply (Hk (S i))).
    destruct b; [exfalso; by apply (Hk O)|done].
Qed.

(** A positive value has a leading one. *)
Lemma b2z_leading l :
  0 < b2z l -> exists p, l !! p = Some true /\ pow2 p <= b2z l < pow2 (S p).
Proof.
  induction l as [|b l IH]; simpl; [lia|]. intros Hpos.
  destruct (Z.eq_dec (b2z l) 0) as [E|E].
  - exists O. rewrite E in *. destruct b; simpl in *; [|lia].
    rewrite pow2_S, pow2_0. split; [done|lia].
  - pose proof (b2z_bounds l). destruct IH as (p & Hp & B); [lia|].
    exists (S p). split; [done|]. rewrite !pow2_S in *. pose proof (b2z_bool b). lia.
Qed.
End B2Z.

(** ** Two's complement *)

(** The signed reading of an [n]-bit unsigned value. *)
Definition sgn (n : nat) (z : Z) : Z :=
  if z <? pow2 (n - 1) then z else z - pow2 n.

Definition b2s (l : list bool) : Z := sgn (length l) (b2z l).

Section Signed.
Lemma sgn_bounds n z :
  (0 < n)%nat -> 0 <= z < pow2 n -> - pow2 (n - 1) <= sgn n z < pow2 (n - 1).
Proof.
  intros Hn Hz. unfold sgn. destruct n as [|n]; [lia|].
  rewrite pow2_S in *. replace (S n - 1)%nat with n in * by lia.
  destruct (Z.ltb_spec z (pow2 n)); lia.
Qed.

Lemma sgn_mod n z : 0 <= z < pow2 n -> sgn n z mod pow2 n = z.
Proof.
  intros Hz. unfold sgn. destruct (z <? pow2 (n - 1)).
  - by apply Z.mod_small.
  - rewrite <- (Z.mod_add _ 1) by lia. rewrite Z.mod_small; lia.
Qed.

(** The signed value is the unique representative of its residue in range. *)
Lemma sgn_unique n z s :
  (0 < n)%nat -> 0 <= z < pow2 n -> - pow2 (n - 1) <= s < pow2 (n - 1) ->
  s mod pow2 n = z -> s = sgn n z.
Proof.
  intros Hn Hz Hs Hm. pose proof (sgn_bounds n z Hn Hz) as B.
  pose proof (sgn_mod n z Hz) as E.
  assert (pow2 n = 2 * pow2 (n - 1)) as P
    by (rewrite <- pow2_S; f_equal; lia).
  pose proof (Z.div_mod s (pow2 n)). pose proof (Z.div_mod (sgn n z) (pow2 n)).
  assert (s / pow2 n = sgn n z / pow2 n); [|lia].
  assert (-1 <= s / pow2 n) by (apply Z.div_le_lower_bound; lia).
  assert (-1 <= sgn n z / pow2 n) by (apply Z.div_le_lower_bound; lia).
  assert (s / pow2 n < 1) by (apply Z.div_lt_upper_bound; lia).
  assert (sgn n z / pow2 n < 1) by (apply Z.div_lt_upper_bound; lia).
  nia.
Qed.

Lemma b2s_bounds (l : list bool) : l <> [] -> - pow2 (length l - 1) <= b2s l < pow2 (length l - 1).
Proof.
  intros Hl. apply sgn_bounds; [destruct l; simpl; [done|lia]|apply b2z_bounds].
Qed.

(** The sign bit decides between the two readings. *)
Lemma b2z_msb (l : list bool) (b : bool) :
  l !! (length l - 1)%nat = Some b -> (b2z l <? pow2 (length l - 1)) = negb b.
Proof.
  intros Hb. destruct b; simpl.
  - apply Z.ltb_ge. by apply b2z_bit_bound.
  - apply Z.ltb_lt. apply b2z_high_zero. intros i Hi Hl.
    pose proof (lookup_lt_Some _ _ _ Hl). replace i with (length l - 1)%nat in Hl by lia.
    congruence.
Qed.

Lemma b2s_msb (l : list bool) (b : bool) :
  l !! (length l - 1)%nat = Some b ->
  b2s l = b2z l - (if b then pow2 (length l) else 0).
Proof.
  intros Hb. unfold b2s, sgn. rewrite (b2z_msb l b) by done. destruct b; simpl; lia.
Qed.
End Signed.

(** Disjoint bits add up. *)
Lemma lor_add a b n : 0 <= n -> 0 <= b < 2 ^ n -> a mod 2 ^ n = 0 -> Z.lor a b = a + b.
Proof.
  intros Hn Hb Ha. rewrite <- Z.lxor_lor, <- Z.add_nocarry_lxor; [done|..].
  all: apply Z.bits_inj'; intros i Hi; rewrite Z.land_spec, Z.bits_0;
    destruct (Z_lt_le_dec i n);
    [rewrite <- (Z.mod_pow2_bits_low a n i), Ha, Z.bits_0 by lia; done
    |rewrite <- (Z.mod_small b (2 ^ n)), Z.mod_pow2_bits_high, andb_false_r by lia; done].
Qed.

(** ** The operators of the theory of bit vectors, over unsigned values

    [n] is the width; the arguments are unsigned values below [2^n]. *)

Definition bv_neg (n : nat) (a : Z) : Z := (- a) mod pow2 n.
Definition bv_add (n : nat) (a b : Z) : Z := (a + b) mod pow2 n.
Definition bv_sub (n : nat) (a b : Z) : Z := (a - b) mod pow2 n.
Definition bv_mul (n : nat) (a b : Z) : Z := (a * b) mod pow2 n.

Definition bv_udiv (n : nat) (a b : Z) : Z := if b =? 0 then pow2 n - 1 else a / b.
Definition bv_urem (n : nat) (a b : Z) : Z := if b =? 0 then a else a mod b.

Definition bv_sdiv (n : nat) (a b : Z) : Z :=
  (if b =? 0 then (if 0 <=? sgn n a then -1 else 1)
   else Z.quot (sgn n a) (sgn n b)) mod pow2 n.
Definition bv_srem (n : nat) (a b : Z) : Z :=
  (if b =? 0 then sgn n a else Z.rem (sgn n a) (sgn n b)) mod pow2 n.
Definition bv_smod (n : nat) (a b : Z) : Z :=
  (if b =? 0 then sgn n a else (sgn n a) mod (sgn n b)) mod pow2 n.

Definition bv_not (n : nat) (a : Z) : Z := pow2 n - 1 - a.

Definition bv_ule (a b : Z) : bool := a <=? b.
Definition bv_sle (n : nat) (a b : Z) : bool := sgn n a <=? sgn n b.

Definition bv_shl (n : nat) (a b : Z) : Z :=
  if Z.of_nat n <=? b then 0 else (a * 2 ^ b) mod pow2 n.
Definition bv_lshr (n : nat) (a b : Z) : Z :=
  if Z.of_nat n <=? b then 0 else a / 2 ^ b.
Definition bv_ashr (n : nat) (a b : Z) : Z :=
  (if Z.of_nat n <=? b then (if 0 <=? sgn n a then 0 else -1)
   else sgn n a / 2 ^ b) mod pow2 n.

(** Rotation of the low [n] bits by [k] towards the most significant bit. *)
Definition bv_rotl (n : nat) (a : Z) (k : nat) : Z :=
  let k' := (k mod n)%nat in
  (a * pow2 k') mod pow2 n + a / pow2 (n - k').
Definition bv_rotr (n : nat) (a : Z) (k : nat) : Z := bv_rotl n a (n - k mod n).

Definition bv_umul_no_ovfl (n : nat) (a b : Z) : bool := a * b <? pow2 n.
Definition bv_smul_no_ovfl (n : nat) (a b : Z) : bool := sgn n a * sgn n b <? pow2 (n - 1).
Definition bv_smul_no_udfl (n : nat) (a b : Z) : bool := - pow2 (n - 1) <=? sgn n a * sgn n b.

Section OpBounds.
Context (n : nat) (a b : Z).
Hypothesis Ha : 0 <= a < pow2 n.
Hypothesis Hb : 0 <= b < pow2 n.

Lemma mod_pow2_bound z : 0 <= z mod pow2 n < pow2 n.
Proof. apply Z.mod_pos_bound, pow2_pos. Qed.

Lemma bv_udiv_bound : 0 <= bv_udiv n a b < pow2 n.
Proof.
  unfold bv_udiv. destruct (Z.eqb_spec b 0); [lia|]. split.
  - apply Z.div_pos; lia.
  - apply Z.le_lt_trans with a; [|lia]. apply Z.div_le_upper_bound; nia.
Qed.

Lemma bv_urem_bound : 0 <= bv_urem n a b < pow2 n.
Proof.
  unfold bv_urem. destruct (Z.eqb_spec b 0); [lia|].
  pose proof (Z.mod_pos_bound a b). lia.
Qed.

Lemma bv_shl_bound : 0 <= bv_shl n a b < pow2 n.
Proof. unfold bv_shl. destruct (_ <=? _); [lia|apply mod_pow2_bound]. Qed.

Lemma bv_lshr_bound : 0 <= bv_lshr n a b < pow2 n.
Proof.
  unfold bv_lshr. destruct (_ <=? _); [lia|].
  assert (0 < 2 ^ b) by (apply Z.pow_pos_nonneg; lia). split.
  - apply Z.div_pos; lia.
  - apply Z.le_lt_trans with a; [|lia]. apply Z.div_le_upper_bound; nia.
Qed.
End OpBounds.

(** Rotation permutes the bits: the low [n - k] bits move up. *)
Lemma bv_rotl_b2z l k :
  (0 < length l)%nat ->
  bv_rotl (length l) (b2z l) k
  = b2z (drop (length l - k mod length l) l ++ take (length l - k mod length l) l).
Proof.
  intros Hl. unfold bv_rotl. set (n := length l) in *.
  pose proof (Nat.mod_upper_bound k n ltac:(lia)) as Hk. set (k' := (k mod n)%nat) in *.
  rewrite b2z_app, length_drop. fold n. replace (n - (n - k'))%nat with k' by lia.
  rewrite b2z_drop, b2z_take. rewrite (pow2_split (n - k') n) by lia.
  replace (n - (n - k'))%nat with k' by lia.
  rewrite (Z.mul_comm (b2z l)), (Z.mul_comm (pow2 (n - k'))).
  rewrite Z.mul_mod_distr_l by (pose proof (pow2_pos k'); pose proof (pow2_pos (n - k')); lia).
  lia.
Qed.

Lemma bv_rotl_bound n a k :
  (0 < n)%nat -> 0 <= a < pow2 n -> 0 <= bv_rotl n a k < pow2 n.
Proof.
  intros Hn Ha. rewrite <- (Z.mod_small a (pow2 n)), <- (b2z_z2b n a) by lia.
  pose proof (bv_rotl_b2z (z2b n a) k) as E. rewrite length_z2b in E.
  rewrite E by lia.
  pose proof (b2z_bounds (drop (n - k mod n) (z2b n a) ++ take (n - k mod n) (z2b n a))) as B.
  rewrite length_app, length_drop, length_take, length_z2b in B.
  replace (n - (n - k mod n) + (n - k mod n) `min` n)%nat with n in B; [done|].
  pose proof (Nat.mod_upper_bound k n). lia.
Qed.
