(* ===== verification/UBits.v ===== *)
(** * UBits: machine integers given bit by bit, and signed ones

    [ubits f n] is the unsigned value of the [n] low bits [f 0], ...,
    [f (n - 1)].  The circuits of the bit-blaster are specified bit by bit, and
    this file carries such specifications to integers. *)
From Stdlib Require Import ZArith Lia.
From stdpp Require Import base list.
From S2P Require Import Prelude Bits.
Local Open Scope Z_scope.

Fixpoint ubits (f : nat -> bool) (n : nat) : Z :=
  match n with
  | O => 0
  | S k => ubits f k + pow2 k * Z.b2z (f k)
  end.

(** Two's complement reading. *)
Definition sbits (f : nat -> bool) (n : nat) : Z := sgn n (ubits f n).

Lemma ubits_bounds f n : 0 <= ubits f n < pow2 n.
Proof.
  induction n as [|n IH]; simpl; [rewrite pow2_0; lia|].
  rewrite pow2_S. pose proof (b2z_bool (f n)). nia.
Qed.

Lemma ubits_mod f n : ubits f n mod pow2 n = ubits f n.
Proof. apply Z.mod_small, ubits_bounds. Qed.

Lemma ubits_ext f g n : (forall i, (i < n)%nat -> f i = g i) -> ubits f n = ubits g n.
Proof.
  induction n as [|n IH]; intros H; simpl; [done|]. rewrite IH by auto. by rewrite H by lia.
Qed.

Lemma ubits_add f m n : ubits f (m + n) = ubits f m + pow2 m * ubits (fun i => f (m + i)%nat) n.
Proof.
  induction n as [|n IH]; simpl.
  - rewrite Nat.add_0_r. lia.
  - rewrite Nat.add_succ_r. simpl. rewrite IH, pow2_add. lia.
Qed.

Lemma ubits_low f n : ubits f (S n) = Z.b2z (f O) + 2 * ubits (fun i => f (S i)) n.
Proof.
  change (S n) with (1 + n)%nat. rewrite ubits_add. change (pow2 1) with 2.
  simpl ubits at 1. rewrite pow2_0. simpl. lia.
Qed.

Lemma ubits_split f m n : (m <= n)%nat ->
  ubits f n = ubits f m + pow2 m * ubits (fun i => f (m + i)%nat) (n - m).
Proof. intros H. replace n with (m + (n - m))%nat at 1 by lia. apply ubits_add. Qed.

Lemma ubits_false f n : (forall i, (i < n)%nat -> f i = false) -> ubits f n = 0.
Proof.
  induction n as [|n IH]; intros H; simpl; [done|]. rewrite IH by auto. rewrite H by lia. simpl. lia.
Qed.

Lemma ubits_true f n : (forall i, (i < n)%nat -> f i = true) -> ubits f n = pow2 n - 1.
Proof.
  induction n as [|n IH]; intros H; simpl; [done|]. rewrite IH by auto. rewrite H by lia.
  rewrite pow2_S. simpl. lia.
Qed.

Lemma ubits_negb f n : ubits (fun i => negb (f i)) n = pow2 n - 1 - ubits f n.
Proof.
  induction n as [|n IH]; simpl; [done|]. rewrite IH, pow2_S. destruct (f n); simpl; lia.
Qed.

Lemma ubits_zero f n i : ubits f n = 0 -> (i < n)%nat -> f i = false.
Proof.
  induction n as [|n IH]; simpl; [lia|]. intros H Hi. pose proof (ubits_bounds f n).
  pose proof (pow2_pos n). destruct (decide (i = n)) as [->|].
  - destruct (f n); simpl in *; [lia|done].
  - apply IH; [|lia]. destruct (f n); simpl in *; lia.
Qed.

Lemma ubits_low_mod f m n : (m <= n)%nat -> ubits f n mod pow2 m = ubits f m.
Proof.
  intros H. rewrite (ubits_split f m n H). rewrite Z.mul_comm, Z.mod_add by (pose proof (pow2_pos m); lia).
  apply ubits_mod.
Qed.

Lemma ubits_high_div f m n : (m <= n)%nat ->
  ubits f n / pow2 m = ubits (fun i => f (m + i)%nat) (n - m).
Proof.
  intros H. rewrite (ubits_split f m n H). rewrite Z.mul_comm, Z.div_add by (pose proof (pow2_pos m); lia).
  rewrite Z.div_small by apply ubits_bounds. lia.
Qed.

(** ** Bits as [Z.testbit] *)

Lemma ubits_testbit f n i : (i < n)%nat -> Z.testbit (ubits f n) (Z.of_nat i) = f i.
Proof.
  intros H. apply Z.b2z_inj. rewrite Z.testbit_spec' by lia.
  change (2 ^ Z.of_nat i) with (pow2 i). rewrite ubits_high_div by lia.
  destruct (n - i)%nat as [|k] eqn:E; [lia|]. rewrite ubits_low, Nat.add_0_r.
  rewrite Z.mul_comm, Z.mod_add by lia. destruct (f i); reflexivity.
Qed.

Lemma pow2_high_bit z n i : 0 <= z < pow2 n -> (n <= i)%nat -> Z.testbit z (Z.of_nat i) = false.
Proof.
  intros Hz Hi. destruct (Z.eq_dec z 0) as [->|]; [apply Z.testbit_0_l|].
  apply Z.bits_above_log2; [lia|]. apply Z.log2_lt_pow2; [lia|].
  apply Z.lt_le_trans with (pow2 n); [lia|]. unfold pow2. apply Z.pow_le_mono_r; lia.
Qed.

(** A set bit bounds the value from below. *)
Lemma ubits_ge_bit f n p : (p < n)%nat -> f p = true -> pow2 p <= ubits f n.
Proof.
  intros Hp Fp. rewrite (ubits_split f p n), (ubits_split _ 1 (n - p)) by lia.
  pose proof (ubits_bounds f p). pose proof (ubits_bounds (fun i => f (p + (1 + i))%nat) (n - p - 1)).
  simpl ubits at 2. rewrite Nat.add_0_r, Fp, pow2_0. pose proof (pow2_pos p). change (pow2 1) with 2.
  simpl Z.b2z. nia.
Qed.

Lemma ubits_testbit_high f n i : (n <= i)%nat -> Z.testbit (ubits f n) (Z.of_nat i) = false.
Proof. apply pow2_high_bit, ubits_bounds. Qed.

Lemma ubits_inj f g n : ubits f n = ubits g n -> forall i, (i < n)%nat -> f i = g i.
Proof. intros E i Hi. rewrite <- (ubits_testbit f n i), E by done. by apply ubits_testbit. Qed.

(** A value below [2^n] is its bits. *)
Lemma ubits_of_Z z n : ubits (fun i => Z.testbit z (Z.of_nat i)) n = z mod pow2 n.
Proof.
  apply Z.bits_inj'. intros k Hk. rewrite <- (Z2Nat.id k) by done. generalize (Z.to_nat k). intros i.
  destruct (decide (i < n)%nat).
  - rewrite ubits_testbit by done. unfold pow2. by rewrite Z.mod_pow2_bits_low by lia.
  - rewrite ubits_testbit_high by lia. unfold pow2. by rewrite Z.mod_pow2_bits_high by lia.
Qed.

(** How to recognise the value of given bits. *)
Lemma ubits_eq f n z :
  0 <= z < pow2 n -> (forall i, (i < n)%nat -> f i = Z.testbit z (Z.of_nat i)) -> ubits f n = z.
Proof. intros Hz H. rewrite (ubits_ext _ _ n H), ubits_of_Z. by apply Z.mod_small. Qed.

Lemma ubits_b2z l : ubits (fun i => l !!! i) (length l) = b2z l.
Proof.
  induction l as [|b l IH]; simpl length; [done|]. rewrite ubits_low. simpl. by rewrite <- IH.
Qed.

Lemma ubits_list f n : ubits f n = b2z (map f (seq 0 n)).
Proof.
  induction n as [|n IH]; [done|]. rewrite seq_S, map_app, b2z_app, length_map, length_seq. simpl.
  rewrite IH. lia.
Qed.

(** ** Shifts, rotations and extensions of the bits *)

Lemma ubits_shl f n k :
  ubits (fun i => if (k <=? i)%nat then f (i - k)%nat else false) n = (ubits f n * pow2 k) mod pow2 n.
Proof.
  apply ubits_eq; [apply mod_pow2_bound|]. intros i Hi.
  unfold pow2 at 2. rewrite Z.mod_pow2_bits_low by lia. unfold pow2.
  destruct (Nat.leb_spec k i).
  - rewrite Z.mul_pow2_bits by lia. replace (Z.of_nat i - Z.of_nat k) with (Z.of_nat (i - k)) by lia.
    symmetry. apply ubits_testbit. lia.
  - symmetry. apply Z.mul_pow2_bits_low. lia.
Qed.

Lemma ubits_shr f n k :
  ubits (fun i => if (i + k <? n)%nat then f (i + k)%nat else false) n = ubits f n / pow2 k.
Proof.
  apply ubits_eq.
  - pose proof (ubits_bounds f n). pose proof (pow2_pos k). split; [apply Z.div_pos; lia|].
    apply Z.le_lt_trans with (ubits f n); [|lia]. apply Z.div_le_upper_bound; nia.
  - intros i Hi. unfold pow2. rewrite Z.div_pow2_bits by lia.
    rewrite <- Nat2Z.inj_add. destruct (Nat.ltb_spec (i + k) n).
    + by rewrite ubits_testbit.
    + by rewrite ubits_testbit_high by lia.
Qed.

Lemma ubits_msb f n : (0 < n)%nat ->
  ubits f n = ubits f (n - 1) + pow2 (n - 1) * Z.b2z (f (n - 1)%nat).
Proof. intros H. destruct n as [|n]; [lia|]. replace (S n - 1)%nat with n by lia. done. Qed.

Lemma pow2_half n : (0 < n)%nat -> pow2 n = 2 * pow2 (n - 1).
Proof. intros H. rewrite <- pow2_S. f_equal. lia. Qed.

(** The sign bit weighs [- 2^(n-1)]. *)
Lemma sbits_msb f n : (0 < n)%nat ->
  sbits f n = ubits f (n - 1) - pow2 (n - 1) * Z.b2z (f (n - 1)%nat).
Proof.
  intros H. unfold sbits, sgn. rewrite (ubits_msb f n H), (pow2_half n H).
  pose proof (ubits_bounds f (n - 1)). destruct (f (n - 1)%nat); simpl.
  - destruct (Z.ltb_spec (ubits f (n - 1) + pow2 (n - 1) * 1) (pow2 (n - 1))); lia.
  - destruct (Z.ltb_spec (ubits f (n - 1) + pow2 (n - 1) * 0) (pow2 (n - 1))); lia.
Qed.

Lemma sbits_neg f n : (0 < n)%nat -> (sbits f n <? 0) = f (n - 1)%nat.
Proof.
  intros H. rewrite sbits_msb by done. pose proof (ubits_bounds f (n - 1)).
  destruct (f (n - 1)%nat); simpl; [apply Z.ltb_lt|apply Z.ltb_ge]; lia.
Qed.

Lemma sbits_bounds f n : (0 < n)%nat -> - pow2 (n - 1) <= sbits f n < pow2 (n - 1).
Proof. intros H. apply sgn_bounds; [done|apply ubits_bounds]. Qed.

Lemma sbits_mod f n : sbits f n mod pow2 n = ubits f n.
Proof. apply sgn_mod, ubits_bounds. Qed.

(** Arithmetic shift: the vacated positions take the sign bit. *)
Lemma ubits_ashr f n k : (0 < n)%nat -> (k <= n)%nat ->
  ubits (fun i => if (i + k <? n)%nat then f (i + k)%nat else f (n - 1)%nat) n
  = (sbits f n / pow2 k) mod pow2 n.
Proof.
  intros Hn Hk. apply ubits_eq; [apply mod_pow2_bound|]. intros i Hi.
  unfold pow2 at 2. rewrite Z.mod_pow2_bits_low by lia. unfold pow2. rewrite Z.div_pow2_bits by lia.
  rewrite <- Nat2Z.inj_add.
  assert (Hs : sbits f n = ubits f n - pow2 n * Z.b2z (f (n - 1)%nat)).
  { rewrite sbits_msb, (ubits_msb f n Hn), (pow2_half n Hn) by done. destruct (f (n - 1)%nat); simpl; lia. }
  destruct (Nat.ltb_spec (i + k) n).
  - rewrite <- (ubits_testbit f n (i + k)) by done. rewrite <- (sbits_mod f n). unfold pow2.
    by rewrite Z.mod_pow2_bits_low by lia.
  - pose proof (ubits_bounds f n). destruct (f (n - 1)%nat) eqn:E; simpl in Hs.
    + symmetry. rewrite <- (Z.lnot_involutive (sbits f n)). rewrite Z.lnot_spec by lia.
      rewrite (pow2_high_bit _ n); [done| |done]. unfold Z.lnot. lia.
    + symmetry. rewrite (pow2_high_bit _ n); [done|lia|done].
Qed.

Lemma ubits_sign_extend f n k : (0 < n)%nat ->
  ubits (fun i => if (i <? n)%nat then f i else f (n - 1)%nat) (n + k) = sbits f n mod pow2 (n + k).
Proof.
  intros Hn. rewrite ubits_add.
  rewrite (ubits_ext _ f n) by (intros i Hi; by rewrite (proj2 (Nat.ltb_lt _ _) Hi)).
  rewrite (ubits_ext _ (fun _ => f (n - 1)%nat) k)
    by (intros i Hi; rewrite (proj2 (Nat.ltb_ge _ _)); [done|lia]).
  pose proof (ubits_bounds f n). pose proof (pow2_pos k). rewrite pow2_add.
  assert (Hs : sbits f n = ubits f n - pow2 n * Z.b2z (f (n - 1)%nat)).
  { rewrite sbits_msb, (ubits_msb f n Hn), (pow2_half n Hn) by done. destruct (f (n - 1)%nat); simpl; lia. }
  destruct (f (n - 1)%nat); simpl in Hs.
  - rewrite (ubits_true (fun _ => true)) by done. rewrite <- (Z.mod_add _ 1) by nia. rewrite Z.mod_small by nia. lia.
  - rewrite (ubits_false (fun _ => false)) by done. rewrite Z.mod_small by nia. lia.
Qed.

Lemma ubits_zero_extend f n k :
  ubits (fun i => if (i <? n)%nat then f i else false) (n + k) = ubits f n.
Proof.
  rewrite ubits_add. rewrite (ubits_ext _ f n) by (intros i Hi; by rewrite (proj2 (Nat.ltb_lt _ _) Hi)).
  rewrite (ubits_false _ k) by (intros i Hi; rewrite (proj2 (Nat.ltb_ge _ _)); [done|lia]). lia.
Qed.

(** Rotation towards the most significant bit. *)
Lemma ubits_rotl f n k : (0 < n)%nat ->
  ubits (fun i => f ((n - k mod n + i) mod n)%nat) n = bv_rotl n (ubits f n) k.
Proof.
  intros Hn. unfold bv_rotl. pose proof (Nat.mod_upper_bound k n ltac:(lia)) as Hk.
  set (j := (k mod n)%nat) in *. rewrite ubits_high_div by lia. rewrite <- ubits_shl.
  replace (n - (n - j))%nat with j by lia.
  rewrite (ubits_split _ j n) by lia. rewrite (ubits_split (fun i => if (j <=? i)%nat then _ else _) j n) by lia.
  rewrite (ubits_false (fun i => if (j <=? i)%nat then _ else _) j)
    by (intros i Hi; rewrite (proj2 (Nat.leb_gt _ _) Hi); done).
  rewrite (ubits_ext (fun i => f ((n - j + i) mod n)%nat) (fun i => f (n - j + i)%nat) j)
    by (intros i Hi; f_equal; apply Nat.mod_small; lia).
  rewrite (ubits_ext (fun i => if (j <=? j + i)%nat then _ else _) (fun i => f i) (n - j)).
  2: { intros i Hi. rewrite (proj2 (Nat.leb_le _ _)) by lia. f_equal. lia. }
  rewrite (ubits_ext (fun i => f ((n - j + (j + i)) mod n)%nat) (fun i => f i) (n - j)).
  2: { intros i Hi. f_equal. replace (n - j + (j + i))%nat with (i + 1 * n)%nat by lia.
       rewrite Nat.Div0.mod_add. apply Nat.mod_small. lia. }
  lia.
Qed.

(** ** Signed operators on absolute values

    Signed division, remainder and modulo of SMT-LIB in terms of the unsigned
    operators on absolute values, as circuits and simplifier compute them. *)
Section SignedArith.
Context (sz : nat) (a b : Z).
Hypothesis Hsz : (0 < sz)%nat.
Hypothesis Ha : 0 <= a < pow2 sz.
Hypothesis Hb : 0 <= b < pow2 sz.
Local Abbreviation A := (sgn sz a).
Local Abbreviation B := (sgn sz b).

Lemma sgn_zero_iff z : 0 <= z < pow2 sz -> sgn sz z = 0 <-> z = 0.
Proof.
  intros Hz. pose proof (sgn_mod sz z Hz) as E. split; intros H.
  - by rewrite H, Zmod_0_l in E.
  - rewrite H. unfold sgn. pose proof (pow2_pos (sz - 1)). by rewrite (proj2 (Z.ltb_lt _ _)).
Qed.

Lemma abs_sgn_bounds z : 0 <= z < pow2 sz -> 0 <= Z.abs (sgn sz z) < pow2 sz.
Proof.
  intros Hz. pose proof (sgn_bounds sz z Hsz Hz). pose proof (pow2_half sz Hsz).
  pose proof (pow2_pos (sz - 1)). lia.
Qed.

Lemma bv_neg_mod z : bv_neg sz (z mod pow2 sz) = (- z) mod pow2 sz.
Proof.
  unfold bv_neg. pose proof (pow2_pos sz).
  rewrite <- (Z.sub_0_l (z mod _)), <- (Z.sub_0_l z). by rewrite Zminus_mod_idemp_r.
Qed.

Lemma bv_neg_of z : 0 <= z < pow2 sz -> bv_neg sz z = (- z) mod pow2 sz.
Proof. done. Qed.

Lemma abs_zero_b : (Z.abs B =? 0) = (b =? 0).
Proof.
  apply eq_true_iff_eq. rewrite !Z.eqb_eq. pose proof (sgn_zero_iff b Hb). split; intros; [|lia].
  apply H. lia.
Qed.

Lemma sdiv_abs :
  bv_sdiv sz a b = if eqb (A <? 0) (B <? 0) then bv_udiv sz (Z.abs A) (Z.abs B)
                   else bv_neg sz (bv_udiv sz (Z.abs A) (Z.abs B)).
Proof.
  pose proof (pow2_pos sz) as Hp.
  pose proof (bv_udiv_bound sz _ _ (abs_sgn_bounds a Ha) (abs_sgn_bounds b Hb)) as Bd. revert Bd.
  unfold bv_sdiv, bv_udiv, bv_neg. rewrite abs_zero_b. destruct (Z.eqb_spec b 0) as [E|E]; intros Bd.
  - apply (sgn_zero_iff b Hb) in E. rewrite E. change (0 <? 0) with false.
    destruct (Z.leb_spec 0 A).
    + rewrite (proj2 (Z.ltb_ge A 0)) by lia. simpl. symmetry. apply (Z.mod_unique_pos _ _ (-1)); lia.
    + rewrite (proj2 (Z.ltb_lt A 0)) by lia. simpl. rewrite <- (Z.mod_add (- _) 1) by lia. f_equal. lia.
  - assert (NB : B <> 0) by (rewrite sgn_zero_iff; done).
    rewrite Z.quot_div by done. set (q := Z.abs A / Z.abs B) in *.
    destruct (Z.eq_dec A 0) as [EA|EA].
    { unfold q. rewrite EA. simpl Z.abs. rewrite Z.div_0_l by lia. simpl. rewrite Zmod_0_l.
      by destruct (0 >? 0), (B <? 0). }
    destruct (Z.ltb_spec A 0), (Z.ltb_spec B 0); simpl;
      rewrite ?(Z.sgn_neg A), ?(Z.sgn_neg B), ?(Z.sgn_pos A), ?(Z.sgn_pos B) by lia;
      try (f_equal; lia); rewrite Z.mod_small; lia.
Qed.

Lemma srem_abs :
  bv_srem sz a b = if A <? 0 then bv_neg sz (bv_urem sz (Z.abs A) (Z.abs B))
                   else bv_urem sz (Z.abs A) (Z.abs B).
Proof.
  pose proof (bv_urem_bound sz _ _ (abs_sgn_bounds a Ha) (abs_sgn_bounds b Hb)) as Bd. revert Bd.
  unfold bv_srem, bv_urem, bv_neg. rewrite abs_zero_b. destruct (Z.eqb_spec b 0) as [E|E]; intros Bd.
  - destruct (Z.ltb_spec A 0); [f_equal; lia|]. rewrite Z.abs_eq in * by lia. by apply Z.mod_small.
  - assert (NB : B <> 0) by (rewrite sgn_zero_iff; done).
    rewrite Z.rem_mod by done.
    destruct (Z.ltb_spec A 0).
    + rewrite (Z.sgn_neg A) by lia. f_equal; lia.
    + destruct (Z.eq_dec A 0) as [EA|EA]; [by rewrite EA; simpl; rewrite ?Zmod_0_l|].
      rewrite (Z.sgn_pos A) by lia. rewrite Z.mul_1_l. by apply Z.mod_small.
Qed.

(** The selection of [mk_smod], from the remainder of the absolute values. *)
Definition smod_select (u : Z) : Z :=
  if u =? 0 then u
  else if A <? 0 then (if B <? 0 then bv_neg sz u else bv_add sz (bv_neg sz u) b)
  else if B <? 0 then bv_add sz u b else u.

Lemma add_b_mod u : bv_add sz u b = (u + B) mod pow2 sz.
Proof. unfold bv_add. rewrite <- (sgn_mod sz b Hb) at 1. apply Z.add_mod_idemp_r. pose proof (pow2_pos sz). lia. Qed.

Lemma neg_add_b_mod u : bv_add sz (bv_neg sz u) b = (- u + B) mod pow2 sz.
Proof. rewrite add_b_mod. unfold bv_neg. apply Z.add_mod_idemp_l. pose proof (pow2_pos sz). lia. Qed.

Lemma smod_abs : bv_smod sz a b = smod_select (bv_urem sz (Z.abs A) (Z.abs B)).
Proof.
  pose proof (pow2_pos sz) as Hp.
  pose proof (bv_urem_bound sz _ _ (abs_sgn_bounds a Ha) (abs_sgn_bounds b Hb)) as Bd. revert Bd.
  unfold smod_select. rewrite neg_add_b_mod, add_b_mod.
  unfold bv_smod, bv_urem, bv_neg. rewrite abs_zero_b. destruct (Z.eqb_spec b 0) as [E|E]; intros Bd.
  - apply (sgn_zero_iff b Hb) in E. rewrite E. change (0 <? 0) with false.
    destruct (Z.eqb_spec (Z.abs A) 0); [replace A with 0 by lia; by rewrite Zmod_0_l|].
    destruct (Z.ltb_spec A 0); [f_equal; lia|]. rewrite Z.abs_eq in * by lia. by apply Z.mod_small.
  - assert (NB : B <> 0) by (rewrite sgn_zero_iff; done).
    pose proof (Z.div_mod (Z.abs A) (Z.abs B) ltac:(lia)) as D.
    pose proof (Z.mod_pos_bound (Z.abs A) (Z.abs B) ltac:(lia)) as M.
    set (u := Z.abs A mod Z.abs B) in *. set (q := Z.abs A / Z.abs B) in *.
    destruct (Z.eqb_spec u 0) as [Eu|Eu].
    { rewrite Eu in *. replace (A mod B) with 0; [apply Zmod_0_l|]. symmetry. apply Z.mod_divide; [done|].
      apply Z.divide_abs_l, Z.divide_abs_r. exists q. lia. }
    destruct (Z.ltb_spec A 0), (Z.ltb_spec B 0).
    + f_equal. symmetry. apply (Z.mod_unique_neg A B q); lia.
    + f_equal. symmetry. apply (Z.mod_unique_pos A B (- q - 1)); lia.
    + f_equal. symmetry. apply (Z.mod_unique_neg A B (- q - 1)); lia.
    + replace (A mod B) with u; [by apply Z.mod_small|].
      apply (Z.mod_unique_pos A B q); lia.
Qed.
End SignedArith.
