(* ===== verification/Mpz.v ===== *)
(** * Mpz: bitwise operations on unbounded naturals

    Models [bitwise_or], [bitwise_and], [bitwise_xor] and [bitwise_not] of
    [util/mpz.cpp].  Numbers in the range of [int] are kept in a machine word,
    and the operations on them are those of the machine; others are taken apart
    into words of 64 bits.  The sums and products inside the loops are those of
    the integers.  The arguments are not negative. *)
From Stdlib Require Import ZArith Znumtheory Lia.
From stdpp Require Import base list.
From S2P Require Import Prelude Bits UBits.

Local Open Scope Z_scope.

Module mpz.

Definition m_two64 : Z := 2 ^ 64.

(** [mpz_small]: the values of [int]. *)
Definition is_small (a : Z) : bool := (- 2 ^ 31 <=? a) && (a <? 2 ^ 31).

(** Enough iterations for the words of a number. *)
Definition words (a : Z) : nat := S (Z.to_nat (Z.log2 a)).

(** The loop [while (!is_zero(a1) && !is_zero(b1))] with the word operation [op]:
    what is left of the operands, the weight [m] of the next word, the result. *)
Fixpoint word_loop (op : Z -> Z -> Z) (fuel : nat) (a1 b1 m c : Z) : Z * Z * Z * Z :=
  match fuel with
  | O => (a1, b1, m, c)
  | S fuel =>
      if (a1 =? 0) || (b1 =? 0) then (a1, b1, m, c)
      else
        let v := op (a1 mod m_two64) (b1 mod m_two64) in
        word_loop op fuel (a1 / m_two64) (b1 / m_two64) (m * m_two64) (c + v * m)
  end.

Definition bitwise_or (a b : Z) : Z :=
  if is_small a && is_small b then Z.lor a b
  else
    let '(a1, b1, m, c) := word_loop Z.lor (words a) a b 1 0 in
    let c := if a1 =? 0 then c else c + a1 * m in
    if b1 =? 0 then c else c + b1 * m.

Definition bitwise_and (a b : Z) : Z :=
  if is_small a && is_small b then Z.land a b
  else let '(_, _, _, c) := word_loop Z.land (words a) a b 1 0 in c.

Definition bitwise_xor (a b : Z) : Z :=
  if is_small a && is_small b then Z.lxor a b
  else
    let '(a1, b1, m, c) := word_loop Z.lxor (words a) a b 1 0 in
    let c := if a1 =? 0 then c else c + a1 * m in
    if b1 =? 0 then c else c + b1 * m.

(** The loop of [bitwise_not]: at most [fuel] words. *)
Fixpoint not_loop (fuel : nat) (sz : nat) (a1 m c : Z) : Z :=
  match fuel with
  | O => c
  | S fuel =>
      if (sz =? 0)%nat then c
      else
        let n := a1 mod m_two64 in
        let v := Z.lnot n mod m_two64 in
        let v := if (sz <? 64)%nat then Z.land (pow2 sz - 1) v else v in
        not_loop fuel (sz - (if (sz <? 64)%nat then sz else 64)) (a1 / m_two64) (m * m_two64) (c + v * m)
  end.

Definition bitwise_not (sz : nat) (a : Z) : Z :=
  if is_small a && (sz <=? 63)%nat then Z.land (Z.lnot a) (Z.shiftl 1 (Z.of_nat sz) - 1)
  else not_loop sz sz a 1 0.

End mpz.
Import mpz.

(** ** The loops compute the operations on integers *)

Section WordLoop.
Context (op : Z -> Z -> Z) (f : bool -> bool -> bool).
Hypothesis op_spec : forall a b i, Z.testbit (op a b) i = f (Z.testbit a i) (Z.testbit b i).
Hypothesis f_00 : f false false = false.

(** A bitwise operation works on the words. *)
Lemma op_words a b : op a b = op (a mod m_two64) (b mod m_two64) + op (a / m_two64) (b / m_two64) * m_two64.
Proof.
  unfold m_two64.
  assert (L : op (a mod 2 ^ 64) (b mod 2 ^ 64) = op a b mod 2 ^ 64).
  { apply Z.bits_inj'. intros i Hi. rewrite op_spec. destruct (Z.lt_ge_cases i 64).
    - by rewrite !Z.mod_pow2_bits_low, op_spec by lia.
    - by rewrite !Z.mod_pow2_bits_high by lia. }
  assert (H : op (a / 2 ^ 64) (b / 2 ^ 64) = op a b / 2 ^ 64).
  { apply Z.bits_inj'. intros i Hi. by rewrite op_spec, !Z.div_pow2_bits, op_spec by lia. }
  rewrite L, H, Z.add_comm, Z.mul_comm. apply Z.div_mod. lia.
Qed.

(** The loop stops at the end of the shorter operand, with the operation on what
    is left still to be added. *)
Lemma word_loop_spec fuel a b m c a1 b1 m1 c1 :
  0 <= a < pow2 fuel -> 0 <= b -> word_loop op fuel a b m c = (a1, b1, m1, c1) ->
  c + op a b * m = c1 + op a1 b1 * m1 /\ (a1 = 0 \/ b1 = 0) /\ 0 <= a1 /\ 0 <= b1.
Proof.
  revert a b m c. induction fuel as [|fuel IH]; intros a b m c Ha Hb H; cbn [word_loop] in H.
  - injection H as <- <- <- <-. rewrite pow2_0 in Ha. split; [done|]. lia.
  - destruct (_ || _) eqn:E.
    + injection H as <- <- <- <-. split; [done|]. apply orb_true_iff in E as [E%Z.eqb_eq|E%Z.eqb_eq]; lia.
    + apply IH in H as [H Hr].
      * split; [|done]. rewrite (op_words a b), <- H. lia.
      * rewrite pow2_S in Ha. unfold m_two64. split; [apply Z.div_pos; lia|]. apply Z.div_lt_upper_bound; lia.
      * apply Z.div_pos; [done|]. unfold m_two64. lia.
Qed.

Lemma words_enough a : 0 <= a -> a < pow2 (words a).
Proof.
  intros Ha. unfold words, pow2. rewrite Nat2Z.inj_succ, Z2Nat.id by apply Z.log2_nonneg.
  destruct (Z.eq_dec a 0) as [->|]; [done|]. apply Z.log2_spec. lia.
Qed.
End WordLoop.

Lemma bitwise_or_spec a b : 0 <= a -> 0 <= b -> bitwise_or a b = Z.lor a b.
Proof.
  intros Ha Hb. unfold bitwise_or. destruct (_ && _); [done|].
  destruct (word_loop Z.lor (words a) a b 1 0) as [[[a1 b1] m] c] eqn:E.
  apply (word_loop_spec Z.lor orb) in E as (E & H & _); [|apply Z.lor_spec|done|split; [done|by apply words_enough]|done].
  rewrite Z.mul_1_r, Z.add_0_l in E. rewrite E. destruct H as [-> | ->]; [rewrite Z.lor_0_l|rewrite Z.lor_0_r]; simpl.
  - destruct (Z.eqb_spec b1 0) as [->|]; lia.
  - destruct (Z.eqb_spec a1 0) as [->|]; lia.
Qed.

Lemma bitwise_xor_spec a b : 0 <= a -> 0 <= b -> bitwise_xor a b = Z.lxor a b.
Proof.
  intros Ha Hb. unfold bitwise_xor. destruct (_ && _); [done|].
  destruct (word_loop Z.lxor (words a) a b 1 0) as [[[a1 b1] m] c] eqn:E.
  apply (word_loop_spec Z.lxor xorb) in E as (E & H & _); [|apply Z.lxor_spec|done|split; [done|by apply words_enough]|done].
  rewrite Z.mul_1_r, Z.add_0_l in E. rewrite E. destruct H as [-> | ->]; [rewrite Z.lxor_0_l|rewrite Z.lxor_0_r]; simpl.
  - destruct (Z.eqb_spec b1 0) as [->|]; lia.
  - destruct (Z.eqb_spec a1 0) as [->|]; lia.
Qed.

Lemma bitwise_and_spec a b : 0 <= a -> 0 <= b -> bitwise_and a b = Z.land a b.
Proof.
  intros Ha Hb. unfold bitwise_and. destruct (_ && _); [done|].
  destruct (word_loop Z.land (words a) a b 1 0) as [[[a1 b1] m] c] eqn:E.
  apply (word_loop_spec Z.land andb) in E as (E & H & _); [|apply Z.land_spec|done|split; [done|by apply words_enough]|done].
  rewrite Z.mul_1_r, Z.add_0_l in E. rewrite E. destruct H as [-> | ->]; rewrite ?Z.land_0_l, ?Z.land_0_r; lia.
Qed.

(** ** Complement *)

Lemma lnot_mod z k : Z.lnot z mod pow2 k = pow2 k - 1 - z mod pow2 k.
Proof.
  pose proof (pow2_pos k). pose proof (mod_pow2_bound k z). unfold Z.lnot. symmetry.
  apply (Z.mod_unique_pos _ _ (- (z / pow2 k) - 1)); [lia|]. pose proof (Z.div_mod z (pow2 k) ltac:(lia)). lia.
Qed.

Lemma land_mask k z : Z.land z (pow2 k - 1) = z mod pow2 k.
Proof. unfold pow2. rewrite <- Z.land_ones by lia. f_equal. rewrite Z.ones_equiv. lia. Qed.

Lemma not_loop_spec fuel sz a m c :
  (sz <= 64 * fuel)%nat -> 0 <= a -> not_loop fuel sz a m c = c + (pow2 sz - 1 - a mod pow2 sz) * m.
Proof.
  revert sz a m c. induction fuel as [|fuel IH]; intros sz a m c Hf Ha; cbn [not_loop].
  - replace sz with 0%nat by lia. rewrite pow2_0, Z.mod_1_r. lia.
  - destruct (Nat.eqb_spec sz 0) as [->|Hsz]; [rewrite pow2_0, Z.mod_1_r; lia|].
    change m_two64 with (pow2 64). rewrite lnot_mod, Z.mod_mod by (pose proof (pow2_pos 64); lia).
    rewrite IH by (try (apply Z.div_pos; [done|apply pow2_pos]); destruct (Nat.ltb_spec sz 64); lia).
    destruct (Nat.ltb_spec sz 64) as [L|L].
    + assert (E : (pow2 64 - 1 - a mod pow2 64) mod pow2 sz = pow2 sz - 1 - a mod pow2 sz).
      { rewrite <- !lnot_mod. symmetry. apply Zmod_div_mod; [apply pow2_pos..|]. exists (pow2 (64 - sz)).
        rewrite Z.mul_comm. apply pow2_split. lia. }
      rewrite Nat.sub_diag, pow2_0, Z.mod_1_r, Z.land_comm, land_mask, E. lia.
    + rewrite (pow2_split 64 sz) by lia.
      rewrite Z.rem_mul_r by (pose proof (pow2_pos 64); pose proof (pow2_pos (sz - 64)); lia). nia.
Qed.

Lemma bitwise_not_spec sz a : 0 <= a < pow2 sz -> bitwise_not sz a = bv_not sz a.
Proof.
  intros Ha. unfold bitwise_not, bv_not. destruct (_ && _).
  - rewrite Z.shiftl_1_l. fold (pow2 sz). rewrite land_mask, lnot_mod. rewrite Z.mod_small by done. lia.
  - rewrite not_loop_spec by lia. rewrite Z.mod_small by done. lia.
Qed.
