(* ===== verification/Ast.v ===== *)
(** * Ast: hash-consed terms of the Boolean and bit-vector families

    Models the part of [ast/ast.h], [ast/ast.cpp] and [ast/bv_decl_plugin.cpp]
    the rewriters use: terms, their sorts, the recognizers and constructors of
    [ast_manager], value equality and disequality, and the meaning of a term
    under an interpretation of its uninterpreted symbols.  Division by zero,
    and the partial operators [bvudiv0] etc. that stand for it, have the values
    of SMT-LIB.

    [ast_manager] hash-conses, so the pointer comparison [a == b] of the code
    is structural equality of terms here.  Reference counts are not modelled. *)
From Stdlib Require Import ZArith Lia.
From stdpp Require Import base list.
From S2P Require Import Prelude Bits.

Local Open Scope Z_scope.
#[local] Set Warnings "-register-all,-clear-no-such-hyp".

(** ** Sorts, operators, terms *)

Inductive sort :=
| BOOL_SORT
| BV_SORT (sz : nat)
| USORT (id : nat).

Global Instance sort_eq_dec : EqDecision sort.
Proof. solve_decision. Defined.

(** The declaration kinds of [basic_decl_plugin] and [bv_decl_plugin], with
    their integer parameters; [OP_UNINTERP] is a declaration of the null
    family, identified by its name, domain and range. *)
Inductive op :=
(* basic family *)
| OP_TRUE | OP_FALSE | OP_EQ | OP_DISTINCT | OP_ITE | OP_AND | OP_OR | OP_XOR
| OP_NOT | OP_IMPLIES
(* bit-vector family *)
| OP_BV_NUM (v : Z) (sz : nat)
| OP_BNEG | OP_BADD | OP_BSUB | OP_BMUL
| OP_BSDIV | OP_BUDIV | OP_BSREM | OP_BUREM | OP_BSMOD
| OP_BSDIV_I | OP_BUDIV_I | OP_BSREM_I | OP_BUREM_I | OP_BSMOD_I
| OP_BSDIV0 | OP_BUDIV0 | OP_BSREM0 | OP_BUREM0 | OP_BSMOD0
| OP_ULEQ | OP_SLEQ | OP_UGEQ | OP_SGEQ | OP_ULT | OP_SLT | OP_UGT | OP_SGT
| OP_BAND | OP_BOR | OP_BNOT | OP_BXOR | OP_BNAND | OP_BNOR | OP_BXNOR
| OP_CONCAT | OP_SIGN_EXT (k : nat) | OP_ZERO_EXT (k : nat)
| OP_EXTRACT (hi lo : nat) | OP_REPEAT (k : nat)
| OP_BREDOR | OP_BREDAND | OP_BCOMP
| OP_BSHL | OP_BLSHR | OP_BASHR
| OP_ROTATE_LEFT (k : nat) | OP_ROTATE_RIGHT (k : nat)
| OP_EXT_ROTATE_LEFT | OP_EXT_ROTATE_RIGHT
| OP_BUMUL_NO_OVFL | OP_BSMUL_NO_OVFL | OP_BSMUL_NO_UDFL
| OP_BIT2BOOL (i : nat) | OP_MKBV | OP_XOR3 | OP_CARRY
(* null family *)
| OP_UNINTERP (f : nat) (dom : list sort) (rng : sort).

Global Instance op_eq_dec : EqDecision op.
Proof. solve_decision. Defined.

Inductive expr := App (o : op) (args : list expr).

(** The induction principle that reaches the arguments. *)
Section ExprInd.
Variable P : expr -> Prop.
Hypothesis HApp : forall o args, Forall P args -> P (App o args).

Fixpoint expr_rect' (e : expr) : P e :=
  match e with
  | App o args =>
      HApp o args
        ((fix go (l : list expr) : Forall P l :=
            match l with
            | [] => Forall_nil_2 P
            | x :: l' => Forall_cons_2 P x l' (expr_rect' x) (go l')
            end) args)
  end.
End ExprInd.

(** Structural equality, the meaning of pointer equality after hash-consing. *)
Fixpoint expr_eqb (e1 e2 : expr) {struct e1} : bool :=
  match e1, e2 with
  | App o1 l1, App o2 l2 =>
      bool_decide (o1 = o2) &&
      (fix go (l1 l2 : list expr) : bool :=
         match l1, l2 with
         | [], [] => true
         | x :: l1', y :: l2' => expr_eqb x y && go l1' l2'
         | _, _ => false
         end) l1 l2
  end.

Lemma expr_eqb_eq e1 e2 : expr_eqb e1 e2 = true <-> e1 = e2.
Proof.
  revert e2. induction e1 as [o l IH] using expr_rect'. intros [o2 l2]. simpl.
  rewrite andb_true_iff, bool_decide_eq_true.
  cut ((fix go (l1 l2 : list expr) : bool :=
          match l1, l2 with
          | [], [] => true
          | x :: l1', y :: l2' => expr_eqb x y && go l1' l2'
          | _, _ => false
          end) l l2 = true <-> l = l2).
  { intros ->. naive_solver. }
  revert l2. induction IH as [|x l Hx _ IHl]; intros [|y l2]; try naive_solver.
  rewrite andb_true_iff, Hx, IHl. naive_solver.
Qed.

Global Instance expr_eq_dec : EqDecision expr.
Proof.
  intros e1 e2. destruct (expr_eqb e1 e2) eqn:E.
  - left. by apply expr_eqb_eq.
  - right. intros H%expr_eqb_eq. congruence.
Defined.

Definition mk_const (f : nat) (s : sort) : expr := App (OP_UNINTERP f [] s) [].

Global Instance expr_inhabited : Inhabited expr := populate (App OP_FALSE []).

(** ** Sorts of terms

    [infer] gives the range [mk_func_decl] of the two plugins computes for an
    operator applied to arguments of the given sorts; [None] is the
    [ast_exception] they raise. *)

Definition sort_ok (s : sort) : bool :=
  match s with BV_SORT n => negb (n =? 0)%nat | _ => true end.

Definition bv_same (ss : list sort) : option nat :=
  match ss with
  | BV_SORT n :: rest =>
      if decide (Forall (fun s => s = BV_SORT n) rest) then Some n else None
  | _ => None
  end.

Definition bv_binary (ss : list sort) : option nat :=
  match ss with
  | [BV_SORT n; BV_SORT m] => if decide (n = m) then Some n else None
  | _ => None
  end.

Definition bv_unary (ss : list sort) : option nat :=
  match ss with [BV_SORT n] => Some n | _ => None end.

Fixpoint concat_size (ss : list sort) : option nat :=
  match ss with
  | [] => Some O
  | BV_SORT n :: rest => m ← concat_size rest; Some (n + m)%nat
  | _ => None
  end.

Definition all_bool (ss : list sort) : option sort :=
  if decide (Forall (fun s => s = BOOL_SORT) ss) then Some BOOL_SORT else None.

(** [mk_bool_op_decl] with [assoc]: any number of Boolean arguments.
    [get_extend_size], [get_extract_size], [mk_mkbv], [mk_bit2bool]: the
    parameter checks of the bit-vector declarations. *)
Definition get_extend_size (k : nat) (ss : list sort) : option nat :=
  (fun n => (n + k)%nat) <$> bv_unary ss.

Definition get_extract_size (hi lo : nat) (ss : list sort) : option nat :=
  n ← bv_unary ss;
  if decide (lo <= hi < n)%nat then Some (hi - lo + 1)%nat else None.

Definition mk_mkbv (ss : list sort) : option sort :=
  match ss with
  | [] => None
  | _ => (fun _ => BV_SORT (length ss)) <$> all_bool ss
  end.

Definition mk_bit2bool (i : nat) (ss : list sort) : option sort :=
  n ← bv_unary ss; if decide (i < n)%nat then Some BOOL_SORT else None.

(** [basic_decl_plugin::mk_func_decl] and the check of the arguments. *)
Definition basic_mk_func_decl (o : op) (ss : list sort) : option sort :=
  match o with
  | OP_TRUE | OP_FALSE => match ss with [] => Some BOOL_SORT | _ => None end
  | OP_EQ => match ss with
             | [s; t] => if decide (s = t) then Some BOOL_SORT else None
             | _ => None end
  | OP_DISTINCT =>
      match ss with
      | [] => Some BOOL_SORT
      | s :: rest => if decide (Forall (fun t => t = s) rest) then Some BOOL_SORT else None
      end
  | OP_ITE => match ss with
              | [BOOL_SORT; s; t] => if decide (s = t) then Some s else None
              | _ => None end
  | OP_AND | OP_OR | OP_XOR => all_bool ss
  | OP_NOT => match ss with [BOOL_SORT] => Some BOOL_SORT | _ => None end
  | OP_IMPLIES => match ss with [BOOL_SORT; BOOL_SORT] => Some BOOL_SORT | _ => None end
  | _ => None
  end.

(** [bv_decl_plugin::mk_func_decl(k, bv_size)]: the operators whose
    declaration depends on one size only. *)
Definition bv_mk_func_decl_size (o : op) (ss : list sort) : option sort :=
  match o with
  | OP_BNEG | OP_BNOT | OP_BSDIV0 | OP_BUDIV0 | OP_BSREM0 | OP_BUREM0 | OP_BSMOD0 =>
      BV_SORT <$> bv_unary ss
  | OP_BADD | OP_BMUL | OP_BAND | OP_BOR | OP_BXOR => BV_SORT <$> bv_same ss
  | OP_BSUB | OP_BSDIV | OP_BUDIV | OP_BSREM | OP_BUREM | OP_BSMOD
  | OP_BSDIV_I | OP_BUDIV_I | OP_BSREM_I | OP_BUREM_I | OP_BSMOD_I
  | OP_BNAND | OP_BNOR | OP_BXNOR | OP_BSHL | OP_BLSHR | OP_BASHR
  | OP_EXT_ROTATE_LEFT | OP_EXT_ROTATE_RIGHT => BV_SORT <$> bv_binary ss
  | OP_ULEQ | OP_SLEQ | OP_UGEQ | OP_SGEQ | OP_ULT | OP_SLT | OP_UGT | OP_SGT
  | OP_BUMUL_NO_OVFL | OP_BSMUL_NO_OVFL | OP_BSMUL_NO_UDFL =>
      (fun _ => BOOL_SORT) <$> bv_binary ss
  | OP_BREDOR | OP_BREDAND => (fun _ => BV_SORT 1) <$> bv_unary ss
  | OP_BCOMP => (fun _ => BV_SORT 1) <$> bv_binary ss
  | _ => None
  end.

(** [bv_decl_plugin::mk_func_decl]. *)
Definition bv_mk_func_decl (o : op) (ss : list sort) : option sort :=
  match o with
  | OP_BV_NUM v sz =>
      match ss with
      | [] => if decide ((0 < sz)%nat /\ 0 <= v < pow2 sz) then Some (BV_SORT sz) else None
      | _ => None
      end
  | OP_XOR3 | OP_CARRY =>
      match ss with [BOOL_SORT; BOOL_SORT; BOOL_SORT] => Some BOOL_SORT | _ => None end
  | OP_MKBV => mk_mkbv ss
  | OP_BIT2BOOL i => mk_bit2bool i ss
  | OP_CONCAT => match ss with [] => None | _ => BV_SORT <$> concat_size ss end
  | OP_SIGN_EXT k | OP_ZERO_EXT k => BV_SORT <$> get_extend_size k ss
  | OP_EXTRACT hi lo => BV_SORT <$> get_extract_size hi lo ss
  | OP_ROTATE_LEFT _ | OP_ROTATE_RIGHT _ => BV_SORT <$> bv_unary ss
  | OP_REPEAT k =>
      n ← bv_unary ss; if decide (0 < k)%nat then Some (BV_SORT (n * k)) else None
  | _ => bv_mk_func_decl_size o ss
  end.

Definition infer (o : op) (ss : list sort) : option sort :=
  match o with
  | OP_UNINTERP _ dom rng =>
      if decide (dom = ss /\ sort_ok rng = true) then Some rng else None
  | OP_TRUE | OP_FALSE | OP_EQ | OP_DISTINCT | OP_ITE | OP_AND | OP_OR | OP_XOR
  | OP_NOT | OP_IMPLIES => basic_mk_func_decl o ss
  | _ => bv_mk_func_decl o ss
  end.

(** [get_sort e] is the sort of a well-sorted term, [None] when some
    application in [e] is one [mk_app] refuses. *)
Fixpoint get_sort (e : expr) : option sort :=
  match e with
  | App o args =>
      ss ← (fix go (l : list expr) : option (list sort) :=
              match l with
              | [] => Some []
              | x :: l' => s ← get_sort x; ss ← go l'; Some (s :: ss)
              end) args;
      infer o ss
  end.

Fixpoint get_sorts (l : list expr) : option (list sort) :=
  match l with
  | [] => Some []
  | x :: l' => s ← get_sort x; ss ← get_sorts l'; Some (s :: ss)
  end.

Lemma get_sort_app o args : get_sort (App o args) = ss ← get_sorts args; infer o ss.
Proof. reflexivity. Qed.

Lemma get_sorts_Forall2 args ss :
  get_sorts args = Some ss <-> Forall2 (fun e s => get_sort e = Some s) args ss.
Proof.
  revert ss. induction args as [|e args IH]; intros ss; simpl.
  - split; [intros [= <-]; constructor|by inversion 1].
  - split.
    + destruct (get_sort e) eqn:E; simpl; [|done].
      destruct (get_sorts args) eqn:Es; simpl; [|done]. intros [= <-].
      constructor; [done|]. by apply IH.
    + intros H. inversion H as [|? s ? ss' He Hes]; subst. rewrite He. simpl.
      apply IH in Hes. by rewrite Hes.
Qed.

(** ** Values and interpretations *)

Inductive value :=
| VBool (b : bool)
| VBV (sz : nat) (z : Z)
| VU (id : nat) (k : Z).

Global Instance value_eq_dec : EqDecision value.
Proof. solve_decision. Defined.

Definition truth (v : value) : bool := match v with VBool b => b | _ => false end.
Definition vnum (v : value) : Z := match v with VBV _ z => z | VU _ k => k | _ => 0 end.

(** An interpretation gives every uninterpreted declaration a function. *)
Definition interp : Type := nat -> list sort -> sort -> list value -> value.

Definition has_sort (v : value) (s : sort) : Prop :=
  match s, v with
  | BOOL_SORT, VBool _ => True
  | BV_SORT n, VBV m z => m = n /\ 0 <= z < pow2 n
  | USORT i, VU j _ => i = j
  | _, _ => False
  end.

(** Values returned by an interpretation are read at the declared range. *)
Definition coerce (s : sort) (v : value) : value :=
  match s with
  | BOOL_SORT => VBool (truth v)
  | BV_SORT n => VBV n (vnum v mod pow2 n)
  | USORT i => VU i (vnum v)
  end.

Definition ill : value := VBool false.

Definition bvop1 (f : nat -> Z -> Z) (vs : list value) : value :=
  match vs with [VBV n a] => VBV n (f n a) | _ => ill end.
Definition bvop2 (f : nat -> Z -> Z -> Z) (vs : list value) : value :=
  match vs with [VBV n a; VBV _ b] => VBV n (f n a b) | _ => ill end.
Definition bvopn (f : nat -> Z -> Z -> Z) (vs : list value) : value :=
  match vs with
  | VBV n a :: rest => VBV n (fold_left (f n) (map vnum rest) a)
  | _ => ill
  end.
Definition bvpred (f : nat -> Z -> Z -> bool) (vs : list value) : value :=
  match vs with [VBV n a; VBV _ b] => VBool (f n a b) | _ => ill end.

Fixpoint vconcat (vs : list value) : nat * Z :=
  match vs with
  | VBV n a :: rest => let '(m, b) := vconcat rest in ((n + m)%nat, a * pow2 m + b)
  | _ => (O, 0)
  end.

Fixpoint vrepeat (k n : nat) (a : Z) : Z :=
  match k with O => 0 | S k' => vrepeat k' n a * pow2 n + a end.

Definition eval_op (o : op) (vs : list value) : value :=
  match o with
  | OP_TRUE => VBool true
  | OP_FALSE => VBool false
  | OP_EQ => match vs with [a; b] => VBool (bool_decide (a = b)) | _ => ill end
  | OP_DISTINCT => VBool (bool_decide (NoDup vs))
  | OP_ITE => match vs with [c; t; e] => if truth c then t else e | _ => ill end
  | OP_AND => VBool (forallb truth vs)
  | OP_OR => VBool (existsb truth vs)
  | OP_XOR => VBool (foldr (fun v b => xorb (truth v) b) false vs)
  | OP_NOT => match vs with [a] => VBool (negb (truth a)) | _ => ill end
  | OP_IMPLIES => match vs with [a; b] => VBool (implb (truth a) (truth b)) | _ => ill end
  | OP_BV_NUM v sz => VBV sz v
  | OP_BNEG => bvop1 bv_neg vs
  | OP_BNOT => bvop1 bv_not vs
  | OP_BADD => bvopn bv_add vs
  | OP_BMUL => bvopn bv_mul vs
  | OP_BSUB => bvop2 bv_sub vs
  | OP_BUDIV | OP_BUDIV_I => bvop2 bv_udiv vs
  | OP_BUREM | OP_BUREM_I => bvop2 bv_urem vs
  | OP_BSDIV | OP_BSDIV_I => bvop2 bv_sdiv vs
  | OP_BSREM | OP_BSREM_I => bvop2 bv_srem vs
  | OP_BSMOD | OP_BSMOD_I => bvop2 bv_smod vs
  | OP_BUDIV0 => bvop1 (fun n a => bv_udiv n a 0) vs
  | OP_BUREM0 => bvop1 (fun n a => bv_urem n a 0) vs
  | OP_BSDIV0 => bvop1 (fun n a => bv_sdiv n a 0) vs
  | OP_BSREM0 => bvop1 (fun n a => bv_srem n a 0) vs
  | OP_BSMOD0 => bvop1 (fun n a => bv_smod n a 0) vs
  | OP_ULEQ => bvpred (fun _ => bv_ule) vs
  | OP_SLEQ => bvpred bv_sle vs
  | OP_UGEQ => bvpred (fun _ a b => bv_ule b a) vs
  | OP_SGEQ => bvpred (fun n a b => bv_sle n b a) vs
  | OP_ULT => bvpred (fun _ a b => negb (bv_ule b a)) vs
  | OP_SLT => bvpred (fun n a b => negb (bv_sle n b a)) vs
  | OP_UGT => bvpred (fun _ a b => negb (bv_ule a b)) vs
  | OP_SGT => bvpred (fun n a b => negb (bv_sle n a b)) vs
  | OP_BAND => bvopn (fun _ => Z.land) vs
  | OP_BOR => bvopn (fun _ => Z.lor) vs
  | OP_BXOR => bvopn (fun _ => Z.lxor) vs
  | OP_BNAND => bvop2 (fun n a b => bv_not n (Z.land a b)) vs
  | OP_BNOR => bvop2 (fun n a b => bv_not n (Z.lor a b)) vs
  | OP_BXNOR => bvop2 (fun n a b => bv_not n (Z.lxor a b)) vs
  | OP_CONCAT => let '(n, a) := vconcat vs in VBV n a
  | OP_SIGN_EXT k =>
      match vs with [VBV n a] => VBV (n + k) (sgn n a mod pow2 (n + k)) | _ => ill end
  | OP_ZERO_EXT k => match vs with [VBV n a] => VBV (n + k) a | _ => ill end
  | OP_EXTRACT hi lo =>
      match vs with
      | [VBV n a] => VBV (hi - lo + 1) ((a / pow2 lo) mod pow2 (hi - lo + 1))
      | _ => ill end
  | OP_REPEAT k => match vs with [VBV n a] => VBV (n * k) (vrepeat k n a) | _ => ill end
  | OP_BREDOR => match vs with [VBV n a] => VBV 1 (Z.b2z (negb (a =? 0))) | _ => ill end
  | OP_BREDAND =>
      match vs with [VBV n a] => VBV 1 (Z.b2z (a =? pow2 n - 1)) | _ => ill end
  | OP_BCOMP => match vs with [VBV _ a; VBV _ b] => VBV 1 (Z.b2z (a =? b)) | _ => ill end
  | OP_BSHL => bvop2 bv_shl vs
  | OP_BLSHR => bvop2 bv_lshr vs
  | OP_BASHR => bvop2 bv_ashr vs
  | OP_ROTATE_LEFT k => bvop1 (fun n a => bv_rotl n a k) vs
  | OP_ROTATE_RIGHT k => bvop1 (fun n a => bv_rotr n a k) vs
  | OP_EXT_ROTATE_LEFT =>
      bvop2 (fun n a b => bv_rotl n a (Z.to_nat (b mod Z.of_nat n))) vs
  | OP_EXT_ROTATE_RIGHT =>
      bvop2 (fun n a b => bv_rotr n a (Z.to_nat (b mod Z.of_nat n))) vs
  | OP_BUMUL_NO_OVFL => bvpred bv_umul_no_ovfl vs
  | OP_BSMUL_NO_OVFL => bvpred bv_smul_no_ovfl vs
  | OP_BSMUL_NO_UDFL => bvpred bv_smul_no_udfl vs
  | OP_BIT2BOOL i =>
      match vs with [VBV _ a] => VBool (Z.testbit a (Z.of_nat i)) | _ => ill end
  | OP_MKBV => VBV (length vs) (b2z (map truth vs))
  | OP_XOR3 =>
      match vs with
      | [a; b; c] => VBool (xorb (truth a) (xorb (truth b) (truth c)))
      | _ => ill end
  | OP_CARRY =>
      match vs with
      | [a; b; c] =>
          VBool (truth a && truth b || truth a && truth c || truth b && truth c)
      | _ => ill end
  | OP_UNINTERP _ _ _ => ill
  end.

(** The value of a term. *)
Fixpoint eval (I : interp) (e : expr) : value :=
  match e with
  | App (OP_UNINTERP f dom rng) args => coerce rng (I f dom rng (map (eval I) args))
  | App o args => eval_op o (map (eval I) args)
  end.

(** The truth value of a Boolean term. *)
Definition bval (I : interp) (e : expr) : bool := truth (eval I e).

#[global] Arguments eval : simpl never.
#[global] Arguments get_sort : simpl never.

(** ** Recognizers and constructors of [ast_manager]

    Written [m.is_true e], [m.mk_not e], ... as [m().is_true(e)],
    [m().mk_not(e)] in the code.  The [is_f(n, a, b)] recognizers return the
    arguments; a well-sorted application has the arity they ask for. *)
Module m.
Inductive family := basic_family | bv_family | null_family.

Definition family_of (o : op) : family :=
  match o with
  | OP_TRUE | OP_FALSE | OP_EQ | OP_DISTINCT | OP_ITE | OP_AND | OP_OR | OP_XOR
  | OP_NOT | OP_IMPLIES => basic_family
  | OP_UNINTERP _ _ _ => null_family
  | _ => bv_family
  end.

Definition get_family_id (e : expr) : family := let 'App o _ := e in family_of o.

Definition mk_true : expr := App OP_TRUE [].
Definition mk_false : expr := App OP_FALSE [].
Definition mk_not (n : expr) : expr := App OP_NOT [n].
Definition mk_eq (lhs rhs : expr) : expr := App OP_EQ [lhs; rhs].
Definition mk_ite (c t e : expr) : expr := App OP_ITE [c; t; e].
Definition mk_and (args : list expr) : expr := App OP_AND args.
Definition mk_or (args : list expr) : expr := App OP_OR args.
Definition mk_distinct (args : list expr) : expr := App OP_DISTINCT args.

Definition is_true (n : expr) : bool := bool_decide (n = mk_true).
Definition is_false (n : expr) : bool := bool_decide (n = mk_false).
Definition is_not (n : expr) : option expr :=
  match n with App OP_NOT [a] => Some a | _ => None end.
Definition is_eq (n : expr) : option (expr * expr) :=
  match n with App OP_EQ [a; b] => Some (a, b) | _ => None end.
Definition is_ite (n : expr) : option (expr * expr * expr) :=
  match n with App OP_ITE [c; t; e] => Some (c, t, e) | _ => None end.
Definition is_and (n : expr) : option (list expr) :=
  match n with App OP_AND args => Some args | _ => None end.
Definition is_or (n : expr) : option (list expr) :=
  match n with App OP_OR args => Some args | _ => None end.
Definition is_bool (n : expr) : bool := bool_decide (get_sort n = Some BOOL_SORT).

Definition is_complement_core (n1 n2 : expr) : bool :=
  (is_true n1 && is_false n2)
  || match is_not n1 with Some a => bool_decide (a = n2) | None => false end.

Definition is_complement (n1 n2 : expr) : bool :=
  is_complement_core n1 n2 || is_complement_core n2 n1.

(** [basic_decl_plugin::is_value] and [bv_decl_plugin::is_value]; both
    plugins define [is_unique_value] as [is_value]. *)
Definition basic_is_value (e : expr) : bool := is_true e || is_false e.
Definition bv_is_value (e : expr) : bool :=
  match e with App (OP_BV_NUM _ _) _ => true | _ => false end.

Definition is_value (e : expr) : bool :=
  match get_family_id e with
  | basic_family => basic_is_value e
  | bv_family => bv_is_value e
  | null_family => false
  end.

Definition is_unique_value (e : expr) : bool := is_value e.

(** Both plugins keep [decl_plugin::are_equal], which compares pointers. *)
Definition are_equal (a b : expr) : bool := bool_decide (a = b).

(** [bv_decl_plugin::get_offset_term]: [k + t] for a numeral [k]. *)
Definition get_offset_term (a : expr) : expr * Z :=
  match a with
  | App OP_BADD [App (OP_BV_NUM v sz) _; t] => (t, v mod pow2 sz)
  | _ => (a, 0)
  end.

Definition bv_are_distinct (a b : expr) : bool :=
  let '(ta, oa) := get_offset_term a in
  let '(tb, ob) := get_offset_term b in
  (bool_decide (ta = tb) && negb (oa =? ob))
  || (negb (bool_decide (a = b)) && bv_is_value a && bv_is_value b).

Definition basic_are_distinct (a b : expr) : bool :=
  negb (bool_decide (a = b)) && basic_is_value a && basic_is_value b.

(** The plugin of [a]'s family decides, or that of [b]'s when [a] has none. *)
Definition are_distinct (a b : expr) : bool :=
  let fid := match get_family_id a with null_family => get_family_id b | f => f end in
  match fid with
  | basic_family => basic_are_distinct a b
  | bv_family => bv_are_distinct a b
  | null_family => false
  end.
End m.

(** ** Numerals

    [bv_util::mk_numeral] declares the constant [mk_num_decl] returns, which
    reduces the value modulo 2^size; [infer] rejects the size 0. *)
Definition mk_num_decl (val : Z) (bv_size : nat) : op := OP_BV_NUM (val mod pow2 bv_size) bv_size.

Definition mk_numeral (val : Z) (bv_size : nat) : expr := App (mk_num_decl val bv_size) [].

(** [bv_recognizers::is_numeral]. *)
Definition is_numeral (e : expr) : option (Z * nat) :=
  match e with
  | App (OP_BV_NUM v sz) _ => Some (v, sz)
  | _ => None
  end.
