(* ===== verification/BvUtil.v ===== *)
(** * BvUtil: constructors and numerals of the bit-vector family

    The part of [bv_recognizers] and [bv_util] ([ast/bv_decl_plugin.h] and
    [.cpp]) the bit-vector simplifier uses, over the terms of [Ast].  The code's
    [rational] numerals are integers. *)
From Stdlib Require Import ZArith Lia Znumtheory Zpow_facts.
From stdpp Require Import base list.
From S2P Require Import Prelude Ast.
Local Open Scope Z_scope.

(** The argument of [get_bv_size] is a bit vector. *)
Definition get_bv_size (t : expr) : nat :=
  match get_sort t with Some (BV_SORT n) => n | _ => O end.

Definition is_bv (t : expr) : bool :=
  match get_sort t with Some (BV_SORT _) => true | _ => false end.

(** ** 64-bit shifts ([util/util.h]) *)

Definition u64 (x : Z) : Z := x mod 2 ^ 64.
Definition shift_right (x y : Z) : Z := if y <? 64 then Z.shiftr x y else 0.
Definition shift_left (x y : Z) : Z := if y <? 64 then u64 (Z.shiftl x y) else 0.
Definition is_uint64 (v : Z) : bool := (0 <=? v) && (v <? 2 ^ 64).

(** ** Integers ([util/mpz.cpp]) *)

(** [mpz_manager::is_power_of_two]: the exponent. *)
Definition is_power_of_two (a : Z) : option nat :=
  if (0 <? a) && (a =? 2 ^ Z.log2 a) then Some (Z.to_nat (Z.log2 a)) else None.

(** The loop of the extended [mpz_manager::gcd]: [tmp1 >= tmp2], with the
    coefficients of both. *)
Fixpoint gcd_loop (fuel : nat) (tmp1 tmp2 a b nexta nextb : Z) : option (Z * Z * Z) :=
  match fuel with
  | O => None
  | S fuel =>
      if 0 <? tmp2 then
        let quot := Z.quot tmp1 tmp2 in
        gcd_loop fuel tmp2 (Z.rem tmp1 tmp2) nexta nextb (a - quot * nexta) (b - nextb * quot)
      else Some (tmp1, a, b)
  end.

Definition gcd (fuel : nat) (r1 r2 : Z) : option (Z * Z * Z) :=
  let '(tmp1, tmp2, a, b, nexta, nextb) :=
    if Z.abs r1 <? Z.abs r2 then (Z.abs r2, Z.abs r1, 0, 1, 1, 0)
    else (Z.abs r1, Z.abs r2, 1, 0, 0, 1) in
  '(r, a, b) ← gcd_loop fuel tmp1 tmp2 a b nexta nextb;
  Some (r, if r1 <? 0 then - a else a, if r2 <? 0 then - b else b).

Module bv_util.

Definition mk_ule (arg1 arg2 : expr) : expr := App OP_ULEQ [arg1; arg2].
Definition mk_sle (arg1 arg2 : expr) : expr := App OP_SLEQ [arg1; arg2].
Definition mk_extract (high low : nat) (n : expr) : expr := App (OP_EXTRACT high low) [n].
Definition mk_concat (args : list expr) : expr := App OP_CONCAT args.
Definition mk_bv_not (arg : expr) : expr := App OP_BNOT [arg].
Definition mk_bv_or (args : list expr) : expr := App OP_BOR args.
Definition mk_bv_xor (args : list expr) : expr := App OP_BXOR args.
Definition mk_bv_add (arg1 arg2 : expr) : expr := App OP_BADD [arg1; arg2].
Definition mk_bv_sub (arg1 arg2 : expr) : expr := App OP_BSUB [arg1; arg2].
Definition mk_bv_mul (arg1 arg2 : expr) : expr := App OP_BMUL [arg1; arg2].

Definition norm (val : Z) (bv_size : nat) (is_signed : bool) : Z :=
  let r := val mod pow2 bv_size in
  if is_signed then
    let r := if pow2 (bv_size - 1) <=? r then r - pow2 bv_size else r in
    if r <? - pow2 (bv_size - 1) then r + pow2 bv_size else r
  else r.

Definition has_sign_bit (n : Z) (bv_size : nat) : bool :=
  pow2 (bv_size - 1) <=? norm n bv_size false.

Definition is_allone (e : expr) : bool :=
  match is_numeral e with
  | Some (r, bv_size) => r =? pow2 bv_size - 1
  | None => false
  end.

Definition is_zero (n : expr) : bool :=
  match is_numeral n with Some (v, _) => v =? 0 | None => false end.

Definition is_concat (e : expr) : option (list expr) :=
  match e with App OP_CONCAT args => Some args | _ => None end.

Definition is_bv_add (e : expr) : option (list expr) :=
  match e with App OP_BADD args => Some args | _ => None end.

(** The recognizers that match two arguments. *)
Definition is_bv_add2 (e : expr) : option (expr * expr) :=
  match e with App OP_BADD [a; b] => Some (a, b) | _ => None end.

Definition is_bv_mul2 (e : expr) : option (expr * expr) :=
  match e with App OP_BMUL [a; b] => Some (a, b) | _ => None end.

Definition is_bv_not (e : expr) : option expr :=
  match e with App OP_BNOT (a :: _) => Some a | _ => None end.

(** The inverse modulo [2 ^ bv_size] of an odd number.  The number of
    divisions is bounded by twice the bits. *)
Definition mult_inverse (n : Z) (bv_size : nat) : option Z :=
  if n =? 1 then Some n
  else if negb (n mod 2 =? 1) then None
  else
    '(g, x, y) ← gcd (2 * S bv_size + 2) n (pow2 bv_size);
    Some (if x <? 0 then x mod pow2 bv_size else x).

End bv_util.

#[global] Arguments bv_util.norm : simpl never.

(** ** The extended gcd, and inverses of odd numbers

    The loop of [mpz_manager::gcd] ends within the fuel [mult_inverse] gives it,
    keeps Bezout's identity, and yields the gcd; an odd number has an inverse. *)
(** The product of the two numbers halves with each division. *)
Lemma gcd_step_small x y : 0 < y <= x -> 2 * (y * (x mod y)) <= x * y.
Proof.
  intros H. pose proof (Z.mod_pos_bound x y ltac:(lia)). pose proof (Z.div_mod x y ltac:(lia)).
  assert (1 <= x / y) by (apply Z.div_le_lower_bound; lia). nia.
Qed.

Lemma gcd_loop_ok fuel r1 r2 tmp1 tmp2 a b nexta nextb :
  0 < tmp1 -> 0 <= tmp2 <= tmp1 -> tmp1 * tmp2 < pow2 fuel ->
  tmp1 = a * r1 + b * r2 -> tmp2 = nexta * r1 + nextb * r2 ->
  exists g a' b', gcd_loop (S fuel) tmp1 tmp2 a b nexta nextb = Some (g, a', b')
    /\ g = Z.gcd tmp1 tmp2 /\ g = a' * r1 + b' * r2.
Proof.
  revert tmp1 tmp2 a b nexta nextb. induction fuel as [|fuel IH]; intros tmp1 tmp2 a b nexta nextb H1 H2 Hf Ha Hn; cbn [gcd_loop];
    destruct (Z.ltb_spec 0 tmp2) as [Hp|Hp].
  - rewrite pow2_0 in Hf. nia.
  - assert (tmp2 = 0) as -> by lia. exists tmp1, a, b. split_and!; [done| |done]. rewrite Z.gcd_0_r. lia.
  - pose proof (gcd_step_small tmp1 tmp2 ltac:(lia)) as Hs. rewrite pow2_S in Hf.
    rewrite Z.quot_div_nonneg, Z.rem_mod_nonneg by lia. pose proof (Z.mod_pos_bound tmp1 tmp2 ltac:(lia)).
    destruct (IH tmp2 (tmp1 mod tmp2) nexta nextb (a - tmp1 / tmp2 * nexta) (b - nextb * (tmp1 / tmp2))) as (g & a' & b' & E & Hg & Hb);
      [lia|lia|lia|done| |].
    + pose proof (Z.div_mod tmp1 tmp2 ltac:(lia)) as Hd. rewrite Z.mod_eq by lia. rewrite Hn, Ha at 1. nia.
    + exists g, a', b'. split_and!; [exact E| |done]. rewrite Hg, Z.gcd_comm, Z.gcd_mod by lia. by rewrite Z.gcd_comm.
  - assert (tmp2 = 0) as -> by lia. exists tmp1, a, b. split_and!; [done| |done]. rewrite Z.gcd_0_r. lia.
Qed.

Lemma odd_pow2_gcd n k : n mod 2 = 1 -> Z.gcd n (pow2 k) = 1.
Proof.
  intros Hn. apply Zgcd_1_rel_prime. unfold pow2. apply rel_prime_Zpower_r; [lia|]. apply Zgcd_1_rel_prime.
  rewrite Z.gcd_comm. rewrite <- Z.gcd_mod by lia. by rewrite Hn.
Qed.

(** [mult_inverse] finds the inverse of every odd number, and only of those. *)
Lemma mult_inverse_total n k :
  0 <= n < pow2 k ->
  match bv_util.mult_inverse n k with
  | Some x => n mod 2 = 1 /\ (x * n) mod pow2 k = 1 mod pow2 k
  | None => n mod 2 = 0
  end.
Proof.
  intros Hn. unfold bv_util.mult_inverse. destruct (Z.eqb_spec n 1) as [->|Hn1]; [done|].
  destruct (Z.eqb_spec (n mod 2) 1) as [Ho|He]; cbn [negb]; [|pose proof (Z.mod_pos_bound n 2); lia].
  assert (Hpos : 0 < n) by (destruct (Z.eq_dec n 0) as [->|]; [done|lia]). pose proof (pow2_pos k) as Pk.
  unfold gcd. rewrite !Z.abs_eq by lia. rewrite (proj2 (Z.ltb_lt n (pow2 k))) by lia.
  destruct (gcd_loop_ok (S (2 * S k)) n (pow2 k) (pow2 k) n 0 1 1 0) as (g & a & b & E & Hg & Hb); [lia|lia| |lia|lia|].
  { replace (S (2 * S k)) with (S (S (S (k + k)))) by lia. rewrite !pow2_S, pow2_add. nia. }
  replace (2 * S k + 2)%nat with (S (S (2 * S k))) by lia. rewrite E. cbn [mbind option_bind].
  rewrite (proj2 (Z.ltb_ge n 0)) by lia. split; [done|].
  rewrite Z.gcd_comm, odd_pow2_gcd in Hg by done. subst g.
  assert (Ha : (a * n) mod pow2 k = 1 mod pow2 k) by (rewrite Hb, Z.mod_add by lia; done).
  destruct (Z.ltb_spec a 0); [|exact Ha]. by rewrite Z.mul_mod_idemp_l by lia.
Qed.
