(* ===== verification/AstFacts.v ===== *)
(** * AstFacts: sort soundness of terms and the equivalence of terms

    Proves that a well-sorted term evaluates to a value of its sort, and
    defines the relation [e ~> e'] ("[e'] may replace [e]") that every rewrite
    of the development is proved to satisfy. *)
From Stdlib Require Import ZArith Lia.
From stdpp Require Import base list.
From S2P Require Import Prelude Bits Ast.

Local Open Scope Z_scope.

(** ** Bit-wise operators stay in range *)

Lemma testbit_bound n z : 0 <= z -> (forall i, Z.of_nat n <= i -> Z.testbit z i = false) -> z < pow2 n.
Proof.
  intros Hz Hb. destruct (Z.lt_ge_cases z (pow2 n)) as [|Hge]; [done|]. exfalso.
  assert (Hl : Z.of_nat n <= Z.log2 z).
  { rewrite <- (Z.log2_pow2 (Z.of_nat n)) by lia. by apply Z.log2_le_mono. }
  specialize (Hb _ Hl). rewrite Z.bit_log2 in Hb; [done|]. pose proof (pow2_pos n). lia.
Qed.

Lemma testbit_high n z i : 0 <= z < pow2 n -> Z.of_nat n <= i -> Z.testbit z i = false.
Proof.
  intros Hz Hi. destruct (Z.eq_dec z 0) as [->|]; [apply Z.testbit_0_l|].
  apply Z.bits_above_log2; [lia|].
  apply Z.lt_le_trans with (Z.of_nat n); [|done]. apply Z.log2_lt_pow2; [lia|]. apply Hz.
Qed.

Section BitwiseBounds.
Context (n : nat) (a b : Z).
Hypothesis Ha : 0 <= a < pow2 n.
Hypothesis Hb : 0 <= b < pow2 n.

Lemma land_bound : 0 <= Z.land a b < pow2 n.
Proof.
  assert (0 <= Z.land a b) by (apply Z.land_nonneg; lia). split; [done|].
  apply testbit_bound; [done|]. intros i Hi.
  by rewrite Z.land_spec, (testbit_high n a i), (testbit_high n b i).
Qed.

Lemma lor_bound : 0 <= Z.lor a b < pow2 n.
Proof.
  assert (0 <= Z.lor a b) by (apply Z.lor_nonneg; lia). split; [done|].
  apply testbit_bound; [done|]. intros i Hi.
  by rewrite Z.lor_spec, (testbit_high n a i), (testbit_high n b i).
Qed.

Lemma lxor_bound : 0 <= Z.lxor a b < pow2 n.
Proof.
  assert (0 <= Z.lxor a b) by (apply Z.lxor_nonneg; lia). split; [done|].
  apply testbit_bound; [done|]. intros i Hi.
  by rewrite Z.lxor_spec, (testbit_high n a i), (testbit_high n b i).
Qed.

Lemma bv_not_bound : 0 <= bv_not n a < pow2 n.
Proof. unfold bv_not. lia. Qed.
End BitwiseBounds.

(** ** Inversion of [infer] *)

Lemma bv_binary_inv ss n : bv_binary ss = Some n -> ss = [BV_SORT n; BV_SORT n].
Proof.
  destruct ss as [|[| |] [|[| |] [|]]]; simpl; try discriminate.
  destruct (decide _); [|discriminate]. by intros [= <-]; subst.
Qed.

Lemma bv_unary_inv ss n : bv_unary ss = Some n -> ss = [BV_SORT n].
Proof. destruct ss as [|[| |] [|]]; simpl; try discriminate. by intros [= <-]. Qed.

Lemma bv_same_inv ss n :
  bv_same ss = Some n -> exists rest, ss = BV_SORT n :: rest /\ Forall (fun s => s = BV_SORT n) rest.
Proof.
  destruct ss as [|[| |] rest]; simpl; try discriminate.
  destruct (decide _); [|discriminate]. intros [= <-]. eauto.
Qed.

Lemma all_bool_inv ss s : all_bool ss = Some s -> s = BOOL_SORT /\ Forall (fun s => s = BOOL_SORT) ss.
Proof. unfold all_bool. destruct (decide _); [|discriminate]. by intros [= <-]. Qed.

(** ** Sort soundness *)

Definition pos_sort (s : sort) : Prop := sort_ok s = true.

Lemma concat_size_pos ss n :
  ss <> [] -> Forall pos_sort ss -> concat_size ss = Some n -> (0 < n)%nat.
Proof.
  destruct ss as [|[|m|] ss]; simpl; try done. intros _ Hp.
  destruct (concat_size ss); simpl; [|discriminate]. intros [= <-].
  inversion Hp as [|? ? Hm]; subst. destruct m; [discriminate|lia].
Qed.

Lemma get_extend_size_inv k ss n :
  get_extend_size k ss = Some n -> exists m, ss = [BV_SORT m] /\ n = (m + k)%nat.
Proof.
  unfold get_extend_size. destruct (bv_unary ss) eqn:E; simpl; [|discriminate].
  apply bv_unary_inv in E. intros [= <-]. eauto.
Qed.

Lemma get_extract_size_inv hi lo ss n :
  get_extract_size hi lo ss = Some n ->
  exists m, ss = [BV_SORT m] /\ (lo <= hi < m)%nat /\ n = (hi - lo + 1)%nat.
Proof.
  unfold get_extract_size. destruct (bv_unary ss) eqn:E; simpl; [|discriminate].
  apply bv_unary_inv in E. destruct (decide _); [|discriminate]. intros [= <-]. eauto.
Qed.

Ltac unfold_infer H := unfold mk_mkbv, mk_bit2bool in H; simpl in H.

(** Destruct the option binds of an [infer] hypothesis. *)
Ltac infer_step H :=
  repeat match type of H with
  | _ <$> ?o = Some _ => destruct o eqn:?; simpl in H; [|discriminate]
  | ?o ≫= _ = Some _ => destruct o eqn:?; simpl in H; [|discriminate]
  | (if ?d then _ else _) = Some _ => destruct d; [|discriminate]
  | Some _ = Some _ => injection H as H; subst
  | context [match ?ss with [] => _ | _ :: _ => _ end] => destruct ss as [|[| |] ?]; try discriminate
  end;
  repeat match goal with
  | E : bv_binary _ = Some _ |- _ => apply bv_binary_inv in E; subst
  | E : bv_unary _ = Some _ |- _ => apply bv_unary_inv in E; subst
  | E : bv_same _ = Some _ |- _ => apply bv_same_inv in E as (? & -> & ?)
  | E : get_extend_size _ _ = Some _ |- _ => apply get_extend_size_inv in E as (? & -> & ?); subst
  | E : get_extract_size _ _ _ = Some _ |- _ =>
      apply get_extract_size_inv in E as (? & -> & ? & ?); subst
  | E : all_bool _ = Some _ |- _ => apply all_bool_inv in E as [? E]; subst
  end.

Ltac inv_Forall :=
  repeat match goal with
  | H : Forall _ (_ :: _) |- _ => inversion H; subst; clear H
  | H : Forall _ [] |- _ => clear H
  | H : Forall2 _ _ (_ :: _) |- _ => inversion H; subst; clear H
  | H : Forall2 _ (_ :: _) _ |- _ => inversion H; subst; clear H
  | H : Forall2 _ _ [] |- _ => inversion H; subst; clear H
  | H : Forall2 _ [] _ |- _ => inversion H; subst; clear H
  end.

Lemma infer_pos o ss s : infer o ss = Some s -> Forall pos_sort ss -> pos_sort s.
Proof.
  intros H Hp. unfold pos_sort, sort_ok in *.
  destruct o; simpl in H; unfold_infer H; infer_step H; inv_Forall; split_ands; simpl in *;
    try done; try (match goal with |- negb (?n =? 0)%nat = true => destruct n; simpl; (done || lia) end).
  all: apply negb_true_iff, Nat.eqb_neq.
  all: repeat match goal with E : negb (_ =? 0)%nat = true |- _ => apply negb_true_iff, Nat.eqb_neq in E end.
  all: try lia; try nia.
  match goal with E : concat_size ?l ≫= _ = Some _ |- _ =>
    destruct (concat_size l); simpl in E; [injection E as E; lia|discriminate] end.
Qed.

Lemma get_sort_pos e s : get_sort e = Some s -> pos_sort s.
Proof.
  revert s. induction e as [o args IH] using expr_rect'. intros s.
  rewrite get_sort_app. destruct (get_sorts args) as [ss|] eqn:E; simpl; [|discriminate].
  intros H. eapply infer_pos; [exact H|]. apply get_sorts_Forall2 in E.
  clear H. induction E as [|x t args ss Hx _ IHE]; [constructor|].
  inversion IH; subst. constructor; auto.
Qed.

Lemma get_sort_bv_pos e n : get_sort e = Some (BV_SORT n) -> (0 < n)%nat.
Proof. intros H%get_sort_pos. unfold pos_sort in H. destruct n; [discriminate|lia]. Qed.

(** *** Values of operators *)

Lemma coerce_sort s v : has_sort (coerce s v) s.
Proof. destruct s; simpl; [done| |done]. split; [done|]. apply Z.mod_pos_bound, pow2_pos. Qed.

Lemma has_sort_bv v n : has_sort v (BV_SORT n) -> exists z, v = VBV n z /\ 0 <= z < pow2 n.
Proof. destruct v; simpl; try done. intros [-> ?]. eauto. Qed.

Lemma has_sort_bool v : has_sort v BOOL_SORT -> exists b, v = VBool b.
Proof. destruct v; simpl; try done. eauto. Qed.

Lemma bvopn_sort f n vs :
  (forall a b, 0 <= a < pow2 n -> 0 <= b < pow2 n -> 0 <= f n a b < pow2 n) ->
  vs <> [] -> Forall (fun v => has_sort v (BV_SORT n)) vs -> has_sort (bvopn f vs) (BV_SORT n).
Proof.
  intros Hf. destruct vs as [|v vs]; [done|]. intros _ H.
  inversion H as [|? ? Hv Hvs]; subst. apply has_sort_bv in Hv as (a & -> & Ha).
  simpl. split; [done|]. clear H. revert a Ha.
  induction Hvs as [|w vs Hw _ IH]; intros a Ha; simpl; [done|].
  apply has_sort_bv in Hw as (b & -> & Hb). apply IH. by apply Hf.
Qed.

Lemma vconcat_sort vs ss n :
  Forall2 has_sort vs ss -> concat_size ss = Some n ->
  fst (vconcat vs) = n /\ 0 <= snd (vconcat vs) < pow2 n.
Proof.
  intros H. revert n. induction H as [|v s vs ss Hv _ IH]; simpl; intros n Hn.
  - injection Hn as <-. rewrite pow2_0. simpl. lia.
  - destruct s as [|k|]; try discriminate. destruct (concat_size ss) as [m|]; [|discriminate].
    injection Hn as <-. apply has_sort_bv in Hv as (a & -> & Ha).
    destruct (IH m eq_refl) as [Hw Hb]. destruct (vconcat vs) as [m' b]. simpl in *. subst m'.
    split; [done|]. rewrite pow2_add. nia.
Qed.

Lemma vrepeat_bound k n a : 0 <= a < pow2 n -> 0 <= vrepeat k n a < pow2 (n * k).
Proof.
  intros Ha. induction k as [|k IH]; simpl.
  - rewrite Nat.mul_0_r, pow2_0. lia.
  - replace (n * S k)%nat with (n * k + n)%nat by lia. rewrite pow2_add. nia.
Qed.

Lemma b2z_pow1 b : 0 <= Z.b2z b < pow2 1.
Proof. rewrite pow2_S, pow2_0. destruct b; simpl; lia. Qed.

(** Read the values of a list of bit-vector or Boolean sorts. *)
#[local] Arguments has_sort : simpl never.

Ltac read_values :=
  inv_Forall;
  repeat match goal with
  | H : has_sort ?v (BV_SORT _) |- _ => apply has_sort_bv in H as (? & -> & ?)
  | H : has_sort ?v BOOL_SORT |- _ => apply has_sort_bool in H as (? & ->)
  end.

Lemma Forall2_const_sort vs rest s :
  Forall2 has_sort vs rest -> Forall (fun t => t = s) rest ->
  Forall (fun v => has_sort v s) vs.
Proof. intros H. induction H; intros Hr; inversion Hr; subst; constructor; auto. Qed.

Lemma eval_bvopn_sort f n rest vs :
  (forall a b, 0 <= a < pow2 n -> 0 <= b < pow2 n -> 0 <= f n a b < pow2 n) ->
  Forall2 has_sort vs (BV_SORT n :: rest) -> Forall (fun s => s = BV_SORT n) rest ->
  has_sort (bvopn f vs) (BV_SORT n).
Proof.
  intros Hf H Hr. apply bvopn_sort; [done| |].
  - by inversion H.
  - eapply Forall2_const_sort; [exact H|]. by constructor.
Qed.

Lemma pos_sort_bv n : pos_sort (BV_SORT n) -> (0 < n)%nat.
Proof. unfold pos_sort. simpl. destruct n; [discriminate|lia]. Qed.

Lemma has_sort_intro_bv n z : 0 <= z < pow2 n -> has_sort (VBV n z) (BV_SORT n).
Proof. by split. Qed.

(** Close the range condition of one operator's result. *)
Ltac solve_range :=
  first [ apply mod_pow2_bound | apply b2z_pow1 | done
        | by apply land_bound | by apply lor_bound | by apply lxor_bound
        | by apply bv_udiv_bound | by apply bv_urem_bound | by apply bv_shl_bound
        | match goal with |- 0 <= pow2 ?n - 1 < pow2 ?n => pose proof (pow2_pos n); lia end
        | by apply bv_lshr_bound | by apply bv_not_bound
        | by apply bv_not_bound, land_bound | by apply bv_not_bound, lor_bound
        | by apply bv_not_bound, lxor_bound
        | by apply bv_rotl_bound; [apply pos_sort_bv|]
        | by apply vrepeat_bound ].

Lemma eval_op_sort o ss s vs :
  infer o ss = Some s -> (forall f dom rng, o <> OP_UNINTERP f dom rng) ->
  Forall pos_sort ss -> Forall2 has_sort vs ss -> has_sort (eval_op o vs) s.
Proof.
  intros Hi Hu Hpos Hvs.
  destruct o; simpl in Hi; try solve [exfalso; eapply Hu; reflexivity];
    unfold_infer Hi; infer_step Hi; split_ands; simplify_eq; cbn [eval_op];
    try (eapply eval_bvopn_sort; [|eassumption|eassumption]; intros; solve_range);
    inv_Forall; read_values; cbn -[bv_neg bv_sub has_sort pow2 Z.b2z Z.mul Z.sub Z.add];
    try (apply has_sort_intro_bv; solve_range); try exact I.
  all: try (match goal with |- has_sort (if ?b then _ else _) _ => destruct b end; done).
  - destruct (vconcat_sort (VBV sz x0 :: l) (BV_SORT sz :: ss) n) as [E B];
      [constructor; [by split|done]|done|].
    simpl in E, B. destruct (vconcat l) as [m b]. simpl in *. by subst.
  - split; [done|]. rewrite pow2_add. pose proof (pow2_pos k). nia.
  - match goal with H : Forall2 _ l ss |- _ => rewrite <- (Forall2_length _ _ _ H) end.
    split; [done|]. pose proof (b2z_bounds (x0 :: map truth l)) as B.
    simpl in B. by rewrite length_map in B.
Qed.

(** Evaluation of an application, interpreted or not. *)
Lemma eval_app I o args :
  (forall f dom rng, o <> OP_UNINTERP f dom rng) ->
  eval I (App o args) = eval_op o (map (eval I) args).
Proof. intros Ho. destruct o; try reflexivity. exfalso. by eapply Ho. Qed.

Lemma eval_uninterp I f dom rng args :
  eval I (App (OP_UNINTERP f dom rng) args) = coerce rng (I f dom rng (map (eval I) args)).
Proof. reflexivity. Qed.

Lemma op_uninterp_dec o :
  {'(f, dom, rng) | o = OP_UNINTERP f dom rng} + {forall f dom rng, o <> OP_UNINTERP f dom rng}.
Proof. destruct o; try (right; intros; discriminate). left. by exists (f, dom, rng). Qed.

(** Type soundness: a well-sorted term denotes a value of its sort. *)
Lemma eval_sort I e s : get_sort e = Some s -> has_sort (eval I e) s.
Proof.
  revert s. induction e as [o args IH] using expr_rect'. intros s.
  rewrite get_sort_app. destruct (get_sorts args) as [ss|] eqn:E; simpl; [|discriminate].
  intros Hi. apply get_sorts_Forall2 in E.
  destruct (op_uninterp_dec o) as [[[[f dom] rng] ->]|Ho].
  - simpl in Hi. infer_step Hi. rewrite eval_uninterp. apply coerce_sort.
  - rewrite eval_app by done. eapply eval_op_sort; [exact Hi|done| |].
    + clear Hi. induction E; constructor; eauto using get_sort_pos. inversion IH; auto.
    + clear Hi. induction E; simpl; constructor; inversion IH; auto.
Qed.

(** ** Boolean terms *)

(** [boolx e]: [e] is a well-sorted Boolean term. *)
Definition boolx (e : expr) : Prop := get_sort e = Some BOOL_SORT.

Lemma boolx_eval I e : boolx e -> eval I e = VBool (bval I e).
Proof. intros H. apply (eval_sort I) in H. by apply has_sort_bool in H as (b & E); unfold bval; rewrite E. Qed.

Lemma bvx_eval I e n :
  get_sort e = Some (BV_SORT n) -> exists z, eval I e = VBV n z /\ 0 <= z < pow2 n.
Proof. intros H. apply (eval_sort I) in H. by apply has_sort_bv in H. Qed.

(** ** Replacement of terms

    [e ~> e']: where [e] is well sorted, [e'] has the same sort and the same
    value under every interpretation. *)
Definition rewrites (e e' : expr) : Prop :=
  forall s, get_sort e = Some s -> get_sort e' = Some s /\ forall I, eval I e' = eval I e.

Declare Scope ast_scope.
Delimit Scope ast_scope with ast.
Notation "e ~> e'" := (rewrites e e') (at level 70) : ast_scope.
Open Scope ast_scope.

Global Instance rewrites_preorder : PreOrder rewrites.
Proof.
  split.
  - intros e s Hs. done.
  - intros e1 e2 e3 H12 H23 s Hs. destruct (H12 s Hs) as [H2 E2].
    destruct (H23 s H2) as [H3 E3]. split; [done|]. intros I. by rewrite E3.
Qed.

Lemma rewrites_bval e e' I : e ~> e' -> boolx e -> bval I e' = bval I e.
Proof. intros H Hs. destruct (H _ Hs) as [_ E]. unfold bval. by rewrite E. Qed.

Lemma rewrites_boolx e e' : e ~> e' -> boolx e -> boolx e'.
Proof. intros H Hs. by destruct (H _ Hs). Qed.

(** [agrees P e e']: the same under the interpretations [P]. *)
Definition agrees (P : interp -> Prop) (e e' : expr) : Prop :=
  forall s, get_sort e = Some s -> get_sort e' = Some s /\ forall I, P I -> eval I e' = eval I e.

Global Instance agrees_preorder P : PreOrder (agrees P).
Proof.
  split.
  - intros e s Hs. done.
  - intros e1 e2 e3 H12 H23 s Hs. destruct (H12 s Hs) as [H2 E2].
    destruct (H23 s H2) as [H3 E3]. split; [done|]. intros I HI. by rewrite E3, E2.
Qed.

Lemma rewrites_agrees e e' : e ~> e' <-> agrees (fun _ => True) e e'.
Proof. split; intros H s Hs; destruct (H s Hs) as [H1 H2]; split; auto. Qed.

(** Fewer interpretations, more agreement. *)
Lemma agrees_mono (P Q : interp -> Prop) e e' : (forall I, Q I -> P I) -> agrees P e e' -> agrees Q e e'.
Proof. intros HPQ H s Hs. destruct (H s Hs). split; auto. Qed.

(** Agreement is a congruence. *)
Lemma agrees_app P o args args' : Forall2 (agrees P) args args' -> agrees P (App o args) (App o args').
Proof.
  intros HF s. rewrite !get_sort_app.
  destruct (get_sorts args) as [ss|] eqn:E; simpl; [|discriminate]. intros Hi.
  assert (get_sorts args' = Some ss /\ forall I, P I -> map (eval I) args' = map (eval I) args) as [E' HE].
  { clear Hi. revert ss E. induction HF as [|x y l k Hxy _ IH]; simpl; intros ss E; [done|].
    destruct (get_sort x) as [sx|] eqn:Ex; simpl in E; [|discriminate].
    destruct (get_sorts l) as [sl|] eqn:El; simpl in E; [|discriminate].
    destruct (Hxy _ Ex) as [Ey Hv]. destruct (IH _ eq_refl) as [Ek Hk].
    rewrite Ey, Ek. split; [done|]. intros I HI. by rewrite Hv, Hk. }
  rewrite E'. split; [done|]. intros I HI.
  destruct (op_uninterp_dec o) as [[[[f dom] rng] ->]|Ho].
  - by rewrite !eval_uninterp, HE.
  - rewrite !eval_app by done. by rewrite HE.
Qed.

(** Replacement is a congruence: arguments may be replaced. *)
Lemma rewrites_app o args args' : Forall2 rewrites args args' -> App o args ~> App o args'.
Proof.
  intros HF. apply rewrites_agrees, agrees_app. eapply Forall2_impl; [exact HF|].
  intros x y. apply rewrites_agrees.
Qed.

Global Instance App_proper o : Proper (Forall2 rewrites ==> rewrites) (App o).
Proof. intros l k H. by apply rewrites_app. Qed.
