(* ===== verification/TermFacts.v ===== *)
(** * TermFacts: sorts and values of the terms [ast_manager] builds

    One pair of lemmas per constructor of [Ast.m]: when the term is well
    sorted, and what it evaluates to.  The rewriting database [bval] collects
    the second kind. *)
From Stdlib Require Import ZArith Lia.
From stdpp Require Import base list.
From S2P Require Import Prelude Bits Ast AstFacts.

Local Open Scope Z_scope.

Create HintDb boolx.
Create Rewrite HintDb boolx.
Create Rewrite HintDb bval.

(** ** Well-sortedness *)

Lemma get_sorts_bool args ss :
  get_sorts args = Some ss -> Forall (fun s => s = BOOL_SORT) ss -> Forall boolx args.
Proof.
  intros H%get_sorts_Forall2 Hs. induction H as [|e s args ss He _ IH]; [constructor|].
  inversion Hs; subst. constructor; auto.
Qed.

Lemma bool_get_sorts args :
  Forall boolx args -> get_sorts args = Some (replicate (length args) BOOL_SORT).
Proof. induction 1 as [|e args He _ IH]; simpl; [done|]. by rewrite He, IH. Qed.

Lemma all_bool_replicate n : all_bool (replicate n BOOL_SORT) = Some BOOL_SORT.
Proof. unfold all_bool. rewrite decide_True; [done|]. by apply Forall_replicate. Qed.

Lemma get_sort_all_bool o args s :
  (forall ss, infer o ss = all_bool ss) ->
  get_sort (App o args) = Some s <-> s = BOOL_SORT /\ Forall boolx args.
Proof.
  intros Ho. rewrite get_sort_app. split.
  - destruct (get_sorts args) as [ss|] eqn:E; simpl; [|discriminate].
    rewrite Ho. intros [-> Hs]%all_bool_inv. split; [done|]. by eapply get_sorts_bool.
  - intros [-> H]. rewrite (bool_get_sorts _ H). simpl. rewrite Ho. apply all_bool_replicate.
Qed.

Lemma get_sort_and args s :
  get_sort (m.mk_and args) = Some s <-> s = BOOL_SORT /\ Forall boolx args.
Proof. by apply get_sort_all_bool. Qed.

Lemma get_sort_or args s :
  get_sort (m.mk_or args) = Some s <-> s = BOOL_SORT /\ Forall boolx args.
Proof. by apply get_sort_all_bool. Qed.

Lemma boolx_true : boolx m.mk_true.
Proof. done. Qed.

Lemma boolx_false : boolx m.mk_false.
Proof. done. Qed.

Lemma get_sort_not e s : get_sort (m.mk_not e) = Some s <-> s = BOOL_SORT /\ boolx e.
Proof.
  unfold m.mk_not, boolx. rewrite get_sort_app. simpl.
  destruct (get_sort e) as [[| |]|]; simpl; naive_solver.
Qed.

Lemma get_sort_eq a b s :
  get_sort (m.mk_eq a b) = Some s <->
  s = BOOL_SORT /\ exists t, get_sort a = Some t /\ get_sort b = Some t.
Proof.
  unfold m.mk_eq. rewrite get_sort_app. simpl.
  destruct (get_sort a) as [x|]; simpl; [|naive_solver].
  destruct (get_sort b) as [y|]; simpl; [|naive_solver].
  destruct (decide (x = y)); naive_solver.
Qed.

Lemma get_sort_ite c t e s :
  get_sort (m.mk_ite c t e) = Some s <->
  boolx c /\ get_sort t = Some s /\ get_sort e = Some s.
Proof.
  unfold m.mk_ite, boolx. rewrite get_sort_app. simpl.
  destruct (get_sort c) as [x|]; simpl; [|naive_solver].
  destruct (get_sort t) as [y|]; simpl; [|naive_solver].
  destruct (get_sort e) as [z|]; simpl; [|naive_solver].
  destruct x; try naive_solver. destruct (decide (y = z)); naive_solver.
Qed.

Lemma get_sorts_same args ss s :
  get_sorts args = Some ss -> Forall (fun t => t = s) ss ->
  Forall (fun e => get_sort e = Some s) args.
Proof.
  intros H%get_sorts_Forall2 Hs. induction H as [|e t args ss He _ IH]; [constructor|].
  inversion Hs; subst. constructor; auto.
Qed.

Lemma get_sort_distinct_inv args s :
  get_sort (m.mk_distinct args) = Some s ->
  s = BOOL_SORT /\ (args = [] \/ exists t, Forall (fun e => get_sort e = Some t) args).
Proof.
  unfold m.mk_distinct. rewrite get_sort_app.
  destruct (get_sorts args) as [ss|] eqn:E; simpl; [|discriminate]. destruct ss as [|t ss].
  - intros [= <-]. split; [done|]. left. apply get_sorts_Forall2 in E. by inversion E.
  - destruct (decide _) as [Hs|]; [|discriminate]. intros [= <-]. split; [done|]. right.
    exists t. eapply get_sorts_same; [exact E|]. by constructor.
Qed.

Lemma boolx_not e : boolx (m.mk_not e) <-> boolx e.
Proof. unfold boolx at 1. rewrite get_sort_not. naive_solver. Qed.

Lemma boolx_and args : boolx (m.mk_and args) <-> Forall boolx args.
Proof. unfold boolx at 1. rewrite get_sort_and. naive_solver. Qed.

Lemma boolx_or args : boolx (m.mk_or args) <-> Forall boolx args.
Proof. unfold boolx at 1. rewrite get_sort_or. naive_solver. Qed.

Lemma boolx_eq a b : boolx (m.mk_eq a b) <-> exists t, get_sort a = Some t /\ get_sort b = Some t.
Proof. unfold boolx. rewrite get_sort_eq. naive_solver. Qed.

Lemma boolx_eq_bool a b : boolx a -> boolx b -> boolx (m.mk_eq a b).
Proof. intros Ha Hb. apply boolx_eq. by exists BOOL_SORT. Qed.

Lemma boolx_ite c t e : boolx (m.mk_ite c t e) <-> boolx c /\ boolx t /\ boolx e.
Proof. unfold boolx at 1. by rewrite get_sort_ite. Qed.

#[export] Hint Rewrite boolx_not boolx_and boolx_or boolx_eq boolx_ite : boolx.
#[export] Hint Resolve boolx_true boolx_false boolx_eq_bool : boolx.

(** ** Values *)

Lemma eval_true I : eval I m.mk_true = VBool true.
Proof. reflexivity. Qed.

Lemma eval_false I : eval I m.mk_false = VBool false.
Proof. reflexivity. Qed.

Lemma bval_true I : bval I m.mk_true = true.
Proof. reflexivity. Qed.

Lemma bval_false I : bval I m.mk_false = false.
Proof. reflexivity. Qed.

Lemma bval_not I e : bval I (m.mk_not e) = negb (bval I e).
Proof. reflexivity. Qed.

Lemma bval_and I args : bval I (m.mk_and args) = forallb (bval I) args.
Proof.
  change (forallb truth (map (eval I) args) = forallb (bval I) args).
  induction args as [|e args IH]; simpl; [done|]. by rewrite IH.
Qed.

Lemma bval_or I args : bval I (m.mk_or args) = existsb (bval I) args.
Proof.
  change (existsb truth (map (eval I) args) = existsb (bval I) args).
  induction args as [|e args IH]; simpl; [done|]. by rewrite IH.
Qed.

Lemma bval_eq I a b : bval I (m.mk_eq a b) = bool_decide (eval I a = eval I b).
Proof. reflexivity. Qed.

Lemma bval_eq_bool I a b :
  boolx a -> boolx b -> bval I (m.mk_eq a b) = eqb (bval I a) (bval I b).
Proof.
  intros Ha Hb. rewrite bval_eq, (boolx_eval I a Ha), (boolx_eval I b Hb).
  destruct (bval I a), (bval I b); reflexivity.
Qed.

Lemma eval_ite I c t e : eval I (m.mk_ite c t e) = if bval I c then eval I t else eval I e.
Proof. reflexivity. Qed.

Lemma bval_ite I c t e : bval I (m.mk_ite c t e) = if bval I c then bval I t else bval I e.
Proof. unfold bval at 1. rewrite eval_ite. by destruct (bval I c). Qed.

#[export] Hint Rewrite bval_true bval_false bval_not bval_and bval_or bval_ite : bval.

(** Two Boolean terms with the same truth value have the same value. *)
Lemma boolx_eval_eq I a b : boolx a -> boolx b -> bval I a = bval I b -> eval I a = eval I b.
Proof. intros Ha Hb E. by rewrite (boolx_eval I a Ha), (boolx_eval I b Hb), E. Qed.

(** How to prove a rewrite of a term whose head is a Boolean operator. *)
Lemma rewrites_bool e e' :
  (forall s, get_sort e = Some s -> s = BOOL_SORT) ->
  (boolx e -> boolx e' /\ forall I, bval I e' = bval I e) -> e ~> e'.
Proof.
  intros Hs H s He. pose proof (Hs s He). subst s. destruct (H He) as [He' Hv].
  split; [done|]. intros I. by apply boolx_eval_eq.
Qed.

(** A rewrite of a term of known sort, used at the Boolean level. *)
Lemma rewrites_boolE e e' : e ~> e' -> boolx e -> boolx e' /\ forall I, bval I e' = bval I e.
Proof. intros H He. destruct (H _ He) as [H1 H2]. split; [done|]. intros I. unfold bval. by rewrite H2. Qed.

(** [same_bool r v]: [r] is a Boolean term whose truth value is [v]. *)
Definition same_bool (r : expr) (v : interp -> bool) : Prop :=
  boolx r /\ forall I, bval I r = v I.

Lemma same_bool_ext r v v' : same_bool r v -> (forall I, v I = v' I) -> same_bool r v'.
Proof. intros [H1 H2] E. split; [done|]. intros I. by rewrite H2. Qed.

Lemma same_bool_refl e : boolx e -> same_bool e (fun I => bval I e).
Proof. by split. Qed.

(** ** Recognizers *)

Lemma is_true_spec e : m.is_true e = true <-> e = m.mk_true.
Proof. apply bool_decide_eq_true. Qed.

Lemma is_false_spec e : m.is_false e = true <-> e = m.mk_false.
Proof. apply bool_decide_eq_true. Qed.

Lemma is_not_Some e a : m.is_not e = Some a <-> e = m.mk_not a.
Proof.
  destruct e as [o args]. unfold m.mk_not. split.
  - destruct o; try discriminate. destruct args as [|x [|]]; simpl; try discriminate.
    by intros [= ->].
  - by intros [= -> ->].
Qed.

Lemma is_eq_Some e a b : m.is_eq e = Some (a, b) <-> e = m.mk_eq a b.
Proof.
  destruct e as [o args]. unfold m.mk_eq. split.
  - destruct o; try discriminate. destruct args as [|x [|y [|]]]; simpl; try discriminate.
    by intros [= -> ->].
  - by intros [= -> ->].
Qed.

Lemma is_ite_Some n c t e : m.is_ite n = Some (c, t, e) <-> n = m.mk_ite c t e.
Proof.
  destruct n as [o args]. unfold m.mk_ite. split.
  - destruct o; try discriminate. destruct args as [|x [|y [|z [|]]]]; simpl; try discriminate.
    by intros [= -> -> ->].
  - by intros [= -> ->].
Qed.

Lemma is_and_Some e l : m.is_and e = Some l <-> e = m.mk_and l.
Proof. destruct e as [[] args]; unfold m.mk_and; simpl; naive_solver. Qed.

Lemma is_or_Some e l : m.is_or e = Some l <-> e = m.mk_or l.
Proof. destruct e as [[] args]; unfold m.mk_or; simpl; naive_solver. Qed.

Lemma is_bool_spec e : m.is_bool e = true <-> boolx e.
Proof. apply bool_decide_eq_true. Qed.

(** Turn recognizer equations of the context into equations between terms. *)
Ltac recog :=
  repeat match goal with
  | H : m.is_true _ = true |- _ => apply is_true_spec in H; subst
  | H : m.is_false _ = true |- _ => apply is_false_spec in H; subst
  | H : m.is_not _ = Some _ |- _ => apply is_not_Some in H; subst
  | H : m.is_eq _ = Some _ |- _ => apply is_eq_Some in H; subst
  | H : m.is_ite _ = Some _ |- _ => apply is_ite_Some in H; subst
  | H : m.is_and _ = Some _ |- _ => apply is_and_Some in H; subst
  | H : m.is_or _ = Some _ |- _ => apply is_or_Some in H; subst
  | H : m.is_bool _ = true |- _ => apply is_bool_spec in H
  | H : bool_decide _ = true |- _ => apply bool_decide_eq_true in H; subst
  | H : andb _ _ = true |- _ => apply andb_true_iff in H as [? ?]
  | H : m.are_equal _ _ = true |- _ => unfold m.are_equal in H
  end.

Lemma is_complement_core_spec a b :
  m.is_complement_core a b = true -> (a = m.mk_true /\ b = m.mk_false) \/ a = m.mk_not b.
Proof.
  unfold m.is_complement_core. intros [H|H]%orb_true_iff; recog; [by left|].
  destruct (m.is_not a) eqn:E; [|discriminate]. recog. by right.
Qed.

(** Complementary terms have opposite values. *)
Lemma is_complement_bval I a b : m.is_complement a b = true -> bval I a = negb (bval I b).
Proof.
  unfold m.is_complement.
  intros [[[-> ->]| ->]%is_complement_core_spec|[[-> ->]| ->]%is_complement_core_spec]%orb_true_iff;
    autorewrite with bval; try done. by rewrite negb_involutive.
Qed.

Lemma is_complement_core_bval I a b : m.is_complement_core a b = true -> bval I a = negb (bval I b).
Proof. intros H. apply is_complement_bval. unfold m.is_complement. by rewrite H. Qed.

(** ** Distinct terms *)

Lemma basic_value_eval I e : m.basic_is_value e = true -> eval I e = VBool (bool_decide (e = m.mk_true)).
Proof. unfold m.basic_is_value. intros [H|H]%orb_true_iff; recog; reflexivity. Qed.

Lemma bv_value_inv e s :
  m.bv_is_value e = true -> get_sort e = Some s ->
  exists v n, e = App (OP_BV_NUM v n) [] /\ s = BV_SORT n /\ 0 <= v < pow2 n.
Proof.
  destruct e as [o args]. destruct o; try discriminate. intros _. rewrite get_sort_app.
  destruct (get_sorts args) as [ss|] eqn:E; simpl; [|discriminate].
  destruct ss; [|discriminate]. destruct (decide _) as [[Hn Hv]|]; [|discriminate].
  intros [= <-]. apply get_sorts_Forall2 in E. inversion E; subst. eauto.
Qed.

Lemma get_offset_term_spec a s :
  get_sort a = Some s -> forall t k, m.get_offset_term a = (t, k) ->
  (t = a /\ k = 0) \/
  (exists n, s = BV_SORT n /\ get_sort t = Some s /\ 0 <= k < pow2 n /\
     forall I z, eval I t = VBV n z -> eval I a = VBV n ((k + z) mod pow2 n)).
Proof.
  intros Hs t k. unfold m.get_offset_term.
  destruct a as [o args]. destruct o; try (intros [= <- <-]; by left).
  destruct args as [|[o1 l1] [|t1 [|]]]; try (intros [= <- <-]; by left).
  all: destruct o1; try (intros [= <- <-]; by left).
  intros [= <- <-]. right. rewrite get_sort_app in Hs. simpl in Hs.
  destruct (get_sort (App (OP_BV_NUM v sz) l1)) as [s1|] eqn:E1; simpl in Hs; [|discriminate].
  destruct (get_sort t1) as [s2|] eqn:E2; simpl in Hs; [|discriminate].
  destruct (bv_value_inv (App (OP_BV_NUM v sz) l1) s1 eq_refl E1) as (v' & n & [= <- <- ->] & -> & Hv).
  destruct (decide _) as [Hd|]; simpl in Hs; [|discriminate]. injection Hs as <-.
  inversion Hd; subst. exists sz. rewrite (Z.mod_small v) by done.
  repeat split; try done; try lia. intros I z Hz.
  rewrite eval_app by done. simpl. rewrite Hz. reflexivity.
Qed.

Lemma mod_add_cancel w z k k' :
  0 <= k < w -> 0 <= k' < w -> (k + z) mod w = (k' + z) mod w -> k = k'.
Proof.
  intros Hk Hk' E. apply (f_equal (fun x => (x - z) mod w)) in E.
  rewrite !Zminus_mod_idemp_l in E.
  replace (k + z - z) with k in E by lia. replace (k' + z - z) with k' in E by lia.
  by rewrite !Z.mod_small in E by lia.
Qed.

(** [are_distinct] is sound: the two terms differ under every interpretation. *)
Lemma are_distinct_sound a b s I :
  get_sort a = Some s -> get_sort b = Some s -> m.are_distinct a b = true ->
  eval I a <> eval I b.
Proof.
  intros Ha Hb. unfold m.are_distinct.
  assert (Hbasic : m.basic_are_distinct a b = true -> eval I a <> eval I b).
  { unfold m.basic_are_distinct. intros [[Hne Va]%andb_true_iff Vb]%andb_true_iff.
    rewrite (basic_value_eval I a Va), (basic_value_eval I b Vb).
    apply negb_true_iff, bool_decide_eq_false in Hne.
    unfold m.basic_is_value in *. apply orb_true_iff in Va as [Va|Va], Vb as [Vb|Vb];
      recog; naive_solver. }
  assert (Hbv : m.bv_are_distinct a b = true -> eval I a <> eval I b).
  { unfold m.bv_are_distinct.
    destruct (m.get_offset_term a) as [ta oa] eqn:Ea, (m.get_offset_term b) as [tb ob] eqn:Eb.
    intros [[Ht Ho]%andb_true_iff|[[Hne Va]%andb_true_iff Vb]%andb_true_iff]%orb_true_iff.
    - recog. apply negb_true_iff, Z.eqb_neq in Ho.
      destruct (get_offset_term_spec a s Ha _ _ Ea) as [[-> ->]|(n & -> & Hsa & Hka & Hva)],
               (get_offset_term_spec b _ Hb _ _ Eb) as [[E2 E3]|(n' & E & Hsb & Hkb & Hvb)].
      + lia.
      + subst s. destruct (bvx_eval I _ _ Ha) as (z & Hz & Bz).
        rewrite (Hvb I z Hz), Hz. intros [= E]. apply Ho, (mod_add_cancel (pow2 n') z); try lia.
        rewrite Z.add_0_l, Z.mod_small by lia. done.
      + subst. destruct (bvx_eval I _ _ Hb) as (z & Hz & Bz).
        rewrite (Hva I z Hz), Hz. intros [= E]. apply Ho, (mod_add_cancel (pow2 n) z); try lia.
        by rewrite Z.add_0_l, (Z.mod_small z) by lia.
      + injection E as <-. destruct (bvx_eval I _ _ Hsa) as (z & Hz & Bz).
        rewrite (Hva I z Hz), (Hvb I z Hz). intros [= E]. by apply Ho, (mod_add_cancel (pow2 n) z).
    - destruct (bv_value_inv a s Va Ha) as (v & n & -> & -> & Hv).
      destruct (bv_value_inv b _ Vb Hb) as (w & n' & -> & [= <-] & Hw).
      apply negb_true_iff, bool_decide_eq_false in Hne. intros [= ->]. done. }
  destruct (m.get_family_id a); [auto|auto|]. destruct (m.get_family_id b); auto.
Qed.
