(* ===== verification/BvTerms.v ===== *)
(** * BvTerms: widths and values of bit-vector terms

    [holds n z e] says that [e] is an [n]-bit term of value [z].  There is one
    such lemma for each way of building a term, and one lemma for each shape of
    operator that reduces a rewrite to it; the tactic [bv_term] applies the
    former by the head of the term. *)
From Stdlib Require Import ZArith Lia.
From stdpp Require Import base list.
From S2P Require Import Prelude Bits Ast BvUtil AstFacts TermFacts.

Local Open Scope Z_scope.

Definition bvx (n : nat) (e : expr) : Prop := get_sort e = Some (BV_SORT n).

(** The unsigned value of a bit-vector term. *)
Definition vn (I : interp) (e : expr) : Z := vnum (eval I e).

(** [e] is an [n]-bit term of value [z]. *)
Definition holds (n : nat) (z : interp -> Z) (e : expr) : Prop :=
  bvx n e /\ forall I, vn I e = z I.

Lemma bvx_pos n e : bvx n e -> (0 < n)%nat.
Proof. apply get_sort_bv_pos. Qed.

Lemma bvx_val I n e : bvx n e -> eval I e = VBV n (vn I e).
Proof. intros He. destruct (bvx_eval I e n He) as (z & E & _). unfold vn. by rewrite E. Qed.

Lemma vn_bounds I n e : bvx n e -> 0 <= vn I e < pow2 n.
Proof. intros He. destruct (bvx_eval I e n He) as (z & E & B). unfold vn. by rewrite E. Qed.

Lemma holds_ext n z z' e : holds n z e -> (forall I, z I = z' I) -> holds n z' e.
Proof. intros [B V] E. split; [done|]. intros I. by rewrite V. Qed.

Lemma holds_refl n e : bvx n e -> holds n (fun I => vn I e) e.
Proof. by split. Qed.

Lemma holds_bounds n z e I : holds n z e -> 0 <= z I < pow2 n.
Proof. intros [B V]. rewrite <- V. by apply vn_bounds. Qed.

Lemma holds_val n z e I : holds n z e -> eval I e = VBV n (z I).
Proof. intros [B V]. by rewrite (bvx_val I n e B), V. Qed.

Lemma holds_intro n z e : bvx n e -> (forall I, eval I e = VBV n (z I)) -> holds n z e.
Proof. intros B V. split; [done|]. intros I. unfold vn. by rewrite V. Qed.

Lemma bvx_inj n k e : bvx n e -> bvx k e -> n = k.
Proof. unfold bvx. congruence. Qed.

Lemma get_bv_size_eq n t : bvx n t -> get_bv_size t = n.
Proof. unfold bvx, get_bv_size. by intros ->. Qed.

(** ** Shapes of operators

    The operators are grouped by how they compute sort and value. *)

Class Op1 (o : op) (f : nat -> Z -> Z) : Prop := {
  op1_infer ss : infer o ss = BV_SORT <$> bv_unary ss;
  op1_eval I args : eval I (App o args) = bvop1 f (map (eval I) args);
}.

Class Op2 (o : op) (f : nat -> Z -> Z -> Z) : Prop := {
  op2_infer ss : infer o ss = BV_SORT <$> bv_binary ss;
  op2_eval I args : eval I (App o args) = bvop2 f (map (eval I) args);
}.

Class OpN (o : op) (f : nat -> Z -> Z -> Z) : Prop := {
  opn_infer ss : infer o ss = BV_SORT <$> bv_same ss;
  opn_eval I args : eval I (App o args) = bvopn f (map (eval I) args);
}.

Class Pred2 (o : op) (f : nat -> Z -> Z -> bool) : Prop := {
  pred_infer ss : infer o ss = (fun _ => BOOL_SORT) <$> bv_binary ss;
  pred_eval I args : eval I (App o args) = bvpred f (map (eval I) args);
}.

(** The operators of each shape. *)
Abbreviation by_table := (ltac:(constructor; intros; reflexivity)) (only parsing).

#[export] Instance neg_op1 : Op1 OP_BNEG bv_neg := by_table.
#[export] Instance not_op1 : Op1 OP_BNOT bv_not := by_table.
#[export] Instance sdiv0_op1 : Op1 OP_BSDIV0 (fun n a => bv_sdiv n a 0) := by_table.
#[export] Instance udiv0_op1 : Op1 OP_BUDIV0 (fun n a => bv_udiv n a 0) := by_table.
#[export] Instance srem0_op1 : Op1 OP_BSREM0 (fun n a => bv_srem n a 0) := by_table.
#[export] Instance urem0_op1 : Op1 OP_BUREM0 (fun n a => bv_urem n a 0) := by_table.
#[export] Instance smod0_op1 : Op1 OP_BSMOD0 (fun n a => bv_smod n a 0) := by_table.
#[export] Instance rotl_op1 k : Op1 (OP_ROTATE_LEFT k) (fun n a => bv_rotl n a k) := by_table.
#[export] Instance rotr_op1 k : Op1 (OP_ROTATE_RIGHT k) (fun n a => bv_rotr n a k) := by_table.

#[export] Instance sub_op2 : Op2 OP_BSUB bv_sub := by_table.
#[export] Instance sdiv_op2 : Op2 OP_BSDIV bv_sdiv := by_table.
#[export] Instance udiv_op2 : Op2 OP_BUDIV bv_udiv := by_table.
#[export] Instance srem_op2 : Op2 OP_BSREM bv_srem := by_table.
#[export] Instance urem_op2 : Op2 OP_BUREM bv_urem := by_table.
#[export] Instance smod_op2 : Op2 OP_BSMOD bv_smod := by_table.
#[export] Instance sdivi_op2 : Op2 OP_BSDIV_I bv_sdiv := by_table.
#[export] Instance udivi_op2 : Op2 OP_BUDIV_I bv_udiv := by_table.
#[export] Instance sremi_op2 : Op2 OP_BSREM_I bv_srem := by_table.
#[export] Instance uremi_op2 : Op2 OP_BUREM_I bv_urem := by_table.
#[export] Instance smodi_op2 : Op2 OP_BSMOD_I bv_smod := by_table.
#[export] Instance shl_op2 : Op2 OP_BSHL bv_shl := by_table.
#[export] Instance lshr_op2 : Op2 OP_BLSHR bv_lshr := by_table.
#[export] Instance ashr_op2 : Op2 OP_BASHR bv_ashr := by_table.
#[export] Instance nand_op2 : Op2 OP_BNAND (fun n a b => bv_not n (Z.land a b)) := by_table.
#[export] Instance nor_op2 : Op2 OP_BNOR (fun n a b => bv_not n (Z.lor a b)) := by_table.
#[export] Instance xnor_op2 : Op2 OP_BXNOR (fun n a b => bv_not n (Z.lxor a b)) := by_table.
#[export] Instance ext_rotl_op2 :
  Op2 OP_EXT_ROTATE_LEFT (fun n a b => bv_rotl n a (Z.to_nat (b mod Z.of_nat n))) := by_table.
#[export] Instance ext_rotr_op2 :
  Op2 OP_EXT_ROTATE_RIGHT (fun n a b => bv_rotr n a (Z.to_nat (b mod Z.of_nat n))) := by_table.

#[export] Instance add_opn : OpN OP_BADD bv_add := by_table.
#[export] Instance mul_opn : OpN OP_BMUL bv_mul := by_table.
#[export] Instance and_opn : OpN OP_BAND (fun _ => Z.land) := by_table.
#[export] Instance or_opn : OpN OP_BOR (fun _ => Z.lor) := by_table.
#[export] Instance xor_opn : OpN OP_BXOR (fun _ => Z.lxor) := by_table.

#[export] Instance ule_pred : Pred2 OP_ULEQ (fun _ => bv_ule) := by_table.
#[export] Instance sle_pred : Pred2 OP_SLEQ bv_sle := by_table.
#[export] Instance uge_pred : Pred2 OP_UGEQ (fun _ a b => bv_ule b a) := by_table.
#[export] Instance sge_pred : Pred2 OP_SGEQ (fun n a b => bv_sle n b a) := by_table.
#[export] Instance ult_pred : Pred2 OP_ULT (fun _ a b => negb (bv_ule b a)) := by_table.
#[export] Instance slt_pred : Pred2 OP_SLT (fun n a b => negb (bv_sle n b a)) := by_table.
#[export] Instance ugt_pred : Pred2 OP_UGT (fun _ a b => negb (bv_ule a b)) := by_table.
#[export] Instance sgt_pred : Pred2 OP_SGT (fun n a b => negb (bv_sle n a b)) := by_table.
#[export] Instance umul_pred : Pred2 OP_BUMUL_NO_OVFL bv_umul_no_ovfl := by_table.
#[export] Instance smul_pred : Pred2 OP_BSMUL_NO_OVFL bv_smul_no_ovfl := by_table.
#[export] Instance smul_udfl_pred : Pred2 OP_BSMUL_NO_UDFL bv_smul_no_udfl := by_table.

Lemma bind_sort args o s :
  get_sort (App o args) = Some s -> exists ss, get_sorts args = Some ss /\ infer o ss = Some s.
Proof. rewrite get_sort_app. destruct (get_sorts args) as [ss|]; [|done]. simpl. eauto. Qed.

Lemma get_sorts_1 args s : get_sorts args = Some [s] -> exists a, args = [a] /\ get_sort a = Some s.
Proof. intros H%get_sorts_Forall2. inv_Forall. eauto. Qed.

Lemma get_sorts_2 args s t :
  get_sorts args = Some [s; t] -> exists a b, args = [a; b] /\ get_sort a = Some s /\ get_sort b = Some t.
Proof. intros H%get_sorts_Forall2. inv_Forall. eauto. Qed.

Section Shapes.
Context (o : op).

Lemma op1_inv `{!Op1 o f} args s :
  get_sort (App o args) = Some s -> exists n a, args = [a] /\ s = BV_SORT n /\ bvx n a.
Proof.
  intros (ss & Hs & Hi)%bind_sort. rewrite op1_infer in Hi.
  destruct (bv_unary ss) as [n|] eqn:E; [|done]. apply bv_unary_inv in E as ->. injection Hi as <-.
  apply get_sorts_1 in Hs as (a & -> & Ha). by exists n, a.
Qed.

Lemma op2_inv `{!Op2 o f} args s :
  get_sort (App o args) = Some s -> exists n a b, args = [a; b] /\ s = BV_SORT n /\ bvx n a /\ bvx n b.
Proof.
  intros (ss & Hs & Hi)%bind_sort. rewrite op2_infer in Hi.
  destruct (bv_binary ss) as [n|] eqn:E; [|done]. apply bv_binary_inv in E as ->. injection Hi as <-.
  apply get_sorts_2 in Hs as (a & b & -> & Ha & Hb). by exists n, a, b.
Qed.

Lemma opn_inv `{!OpN o f} args s :
  get_sort (App o args) = Some s -> exists n, s = BV_SORT n /\ args <> [] /\ Forall (bvx n) args.
Proof.
  intros (ss & Hs & Hi)%bind_sort. rewrite opn_infer in Hi.
  destruct (bv_same ss) as [n|] eqn:E; [|done]. apply bv_same_inv in E as (rest & -> & Hr).
  injection Hi as <-. exists n. split; [done|]. split; [by destruct args|].
  apply (get_sorts_same _ _ _ Hs). by constructor.
Qed.

Lemma pred_inv `{!Pred2 o f} args s :
  get_sort (App o args) = Some s ->
  exists n a b, args = [a; b] /\ s = BOOL_SORT /\ bvx n a /\ bvx n b.
Proof.
  intros (ss & Hs & Hi)%bind_sort. rewrite pred_infer in Hi.
  destruct (bv_binary ss) as [n|] eqn:E; [|done]. apply bv_binary_inv in E as ->. injection Hi as <-.
  apply get_sorts_2 in Hs as (a & b & -> & Ha & Hb). by exists n, a, b.
Qed.

Lemma holds_op1 `{!Op1 o f} n z a : holds n z a -> holds n (fun I => f n (z I)) (App o [a]).
Proof.
  intros Ha. apply holds_intro.
  - unfold bvx. rewrite get_sort_app. simpl. rewrite (proj1 Ha). simpl. by rewrite op1_infer.
  - intros I. rewrite op1_eval. simpl. by rewrite (holds_val _ _ _ I Ha).
Qed.

Lemma holds_op2 `{!Op2 o f} n za zb a b :
  holds n za a -> holds n zb b -> holds n (fun I => f n (za I) (zb I)) (App o [a; b]).
Proof.
  intros Ha Hb. apply holds_intro.
  - unfold bvx. rewrite get_sort_app. simpl. rewrite (proj1 Ha), (proj1 Hb). simpl. rewrite op2_infer.
    simpl. by rewrite decide_True.
  - intros I. rewrite op2_eval. simpl. by rewrite (holds_val _ _ _ I Ha), (holds_val _ _ _ I Hb).
Qed.

(** The value of an operator on any number of arguments. *)
Definition opval (f : nat -> Z -> Z -> Z) (n : nat) (l : list Z) : Z :=
  match l with [] => 0 | a :: l => fold_left (f n) l a end.

Lemma all_bvx_sorts n l : Forall (bvx n) l -> get_sorts l = Some (replicate (length l) (BV_SORT n)).
Proof. intros H. apply get_sorts_Forall2. induction H; simpl; constructor; auto. Qed.

Lemma all_bvx_vnums n l I : Forall (bvx n) l -> map vnum (map (eval I) l) = map (vn I) l.
Proof. intros _. by rewrite map_map. Qed.

Lemma holds_opn `{!OpN o f} n args :
  args <> [] -> Forall (bvx n) args -> holds n (fun I => opval f n (map (vn I) args)) (App o args).
Proof.
  intros Hne HF. apply holds_intro.
  - unfold bvx. rewrite get_sort_app, (all_bvx_sorts n) by done. simpl. rewrite opn_infer.
    destruct args as [|a args]; [done|]. simpl. rewrite decide_True; [done|]. by apply Forall_replicate.
  - intros I. rewrite opn_eval. destruct HF as [|a args Ha HF]; [done|]. simpl.
    rewrite (bvx_val I n a Ha). simpl. by rewrite map_map.
Qed.

Lemma pred_same_bool `{!Pred2 o f} n za zb a b :
  holds n za a -> holds n zb b -> same_bool (App o [a; b]) (fun I => f n (za I) (zb I)).
Proof.
  intros Ha Hb. split.
  - unfold boolx. rewrite get_sort_app. simpl. rewrite (proj1 Ha), (proj1 Hb). simpl. rewrite pred_infer.
    simpl. by rewrite decide_True.
  - intros I. unfold bval. rewrite pred_eval. simpl. by rewrite (holds_val _ _ _ I Ha), (holds_val _ _ _ I Hb).
Qed.

(** How to prove the rewrite of an application. *)
Lemma rewrites_op1 `{!Op1 o f} a r :
  (forall n, bvx n a -> holds n (fun I => f n (vn I a)) r) -> App o [a] ~> r.
Proof.
  intros H s (n & a' & [= <-] & -> & Ha)%op1_inv. destruct (H n Ha) as [Hr Hv]. split; [done|]. intros I.
  rewrite (holds_val _ _ _ I (H n Ha)). by rewrite (holds_val _ _ _ I (holds_op1 n _ a (holds_refl n a Ha))).
Qed.

Lemma rewrites_op2 `{!Op2 o f} a b r :
  (forall n, bvx n a -> bvx n b -> holds n (fun I => f n (vn I a) (vn I b)) r) -> App o [a; b] ~> r.
Proof.
  intros H s (n & a' & b' & [= <- <-] & -> & Ha & Hb)%op2_inv. split; [apply (H n Ha Hb)|]. intros I.
  rewrite (holds_val _ _ _ I (H n Ha Hb)).
  by rewrite (holds_val _ _ _ I (holds_op2 n _ _ a b (holds_refl n a Ha) (holds_refl n b Hb))).
Qed.

Lemma op2_rewritten `{!Op2 o f} n a b r :
  bvx n a -> bvx n b -> App o [a; b] ~> r -> holds n (fun I => f n (vn I a) (vn I b)) r.
Proof.
  intros Ha Hb H. pose proof (holds_op2 n _ _ a b (holds_refl n a Ha) (holds_refl n b Hb)) as He.
  destruct (H _ (proj1 He)) as [Hr V]. apply holds_intro; [done|]. intros I. by rewrite V, (holds_val _ _ _ I He).
Qed.

Lemma rewrites_opn `{!OpN o f} args r :
  (forall n, args <> [] -> Forall (bvx n) args -> holds n (fun I => opval f n (map (vn I) args)) r) ->
  App o args ~> r.
Proof.
  intros H s (n & -> & Hne & HF)%opn_inv. split; [apply (H n Hne HF)|]. intros I.
  by rewrite (holds_val _ _ _ I (H n Hne HF)), (holds_val _ _ _ I (holds_opn n args Hne HF)).
Qed.

Lemma rewrites_pred `{!Pred2 o f} a b r :
  (forall n, bvx n a -> bvx n b -> same_bool r (fun I => f n (vn I a) (vn I b))) -> App o [a; b] ~> r.
Proof.
  intros H s (n & a' & b' & [= <- <-] & -> & Ha & Hb)%pred_inv. destruct (H n Ha Hb) as [Hr Hv].
  split; [done|]. intros I.
  destruct (pred_same_bool n _ _ a b (holds_refl n a Ha) (holds_refl n b Hb)) as [He Hv'].
  apply boolx_eval_eq; [done|done|]. by rewrite Hv, Hv'.
Qed.
End Shapes.

(** ** Numerals *)

Lemma holds_num n v : (0 < n)%nat -> holds n (fun _ => v mod pow2 n) (mk_numeral v n).
Proof.
  intros Hn. apply holds_intro; [|done]. unfold bvx, mk_numeral, mk_num_decl. rewrite get_sort_app. simpl.
  rewrite decide_True; [done|]. split; [done|]. apply Z.mod_pos_bound, pow2_pos.
Qed.

Lemma is_numeral_inv n a v sz :
  bvx n a -> is_numeral a = Some (v, sz) ->
  sz = n /\ 0 <= v < pow2 n /\ a = mk_numeral v n /\ forall I, vn I a = v.
Proof.
  destruct a as [o args]. destruct o; try discriminate. intros Ha [= <- <-].
  destruct (bv_value_inv (App (OP_BV_NUM v0 sz0) args) _ eq_refl Ha) as (v & k & [= <- <- ->] & [= <-] & Hv).
  split_and!; try done; try lia. unfold mk_numeral, mk_num_decl. by rewrite Z.mod_small.
Qed.

(** ** The operators with parameters *)

Lemma extract_inv hi lo args s :
  get_sort (App (OP_EXTRACT hi lo) args) = Some s ->
  exists n a, args = [a] /\ bvx n a /\ (lo <= hi < n)%nat /\ s = BV_SORT (hi - lo + 1).
Proof.
  intros (ss & Hs & Hi)%bind_sort. simpl in Hi.
  destruct (get_extract_size hi lo ss) as [k|] eqn:E; [|done]. injection Hi as <-.
  apply get_extract_size_inv in E as (n & -> & Hr & ->). apply get_sorts_1 in Hs as (a & -> & Ha).
  exists n, a. split_and!; done || lia.
Qed.

Lemma holds_extract n hi lo z a :
  (lo <= hi < n)%nat -> holds n z a ->
  holds (hi - lo + 1) (fun I => (z I / pow2 lo) mod pow2 (hi - lo + 1)) (App (OP_EXTRACT hi lo) [a]).
Proof.
  intros Hr Ha. apply holds_intro.
  - unfold bvx. rewrite get_sort_app. simpl. rewrite (proj1 Ha). simpl. unfold get_extract_size. simpl.
    by rewrite decide_True.
  - intros I. rewrite eval_app by done. simpl. by rewrite (holds_val _ _ _ I Ha).
Qed.

(** The same with the width that is expected. *)
Lemma holds_extract_w n w hi lo z a :
  (lo <= hi < n)%nat -> w = (hi - lo + 1)%nat -> holds n z a ->
  holds w (fun I => (z I / pow2 lo) mod pow2 w) (App (OP_EXTRACT hi lo) [a]).
Proof. intros Hr -> Ha. by apply holds_extract with n. Qed.

Lemma zero_ext_inv k args s :
  get_sort (App (OP_ZERO_EXT k) args) = Some s -> exists n a, args = [a] /\ bvx n a /\ s = BV_SORT (n + k).
Proof.
  intros (ss & Hs & Hi)%bind_sort. simpl in Hi.
  destruct (get_extend_size k ss) as [m|] eqn:E; [|done]. injection Hi as <-.
  apply get_extend_size_inv in E as (n & -> & ->). apply get_sorts_1 in Hs as (a & -> & Ha). eauto.
Qed.

Lemma sign_ext_inv k args s :
  get_sort (App (OP_SIGN_EXT k) args) = Some s -> exists n a, args = [a] /\ bvx n a /\ s = BV_SORT (n + k).
Proof. apply zero_ext_inv. Qed.

Lemma repeat_inv k args s :
  get_sort (App (OP_REPEAT k) args) = Some s ->
  exists n a, args = [a] /\ bvx n a /\ (0 < k)%nat /\ s = BV_SORT (n * k).
Proof.
  intros (ss & Hs & Hi)%bind_sort. simpl in Hi. destruct (bv_unary ss) as [n|] eqn:E; [|done]. simpl in Hi.
  apply bv_unary_inv in E as ->. destruct (decide _) as [Hk|]; [|done]. injection Hi as <-.
  apply get_sorts_1 in Hs as (a & -> & Ha). by exists n, a.
Qed.

Lemma bit2bool_inv i args s :
  get_sort (App (OP_BIT2BOOL i) args) = Some s ->
  exists n a, args = [a] /\ bvx n a /\ (i < n)%nat /\ s = BOOL_SORT.
Proof.
  intros (ss & Hs & Hi)%bind_sort. simpl in Hi. unfold mk_bit2bool in Hi.
  destruct (bv_unary ss) as [n|] eqn:E; [|done]. simpl in Hi. apply bv_unary_inv in E as ->.
  destruct (decide _) as [Hk|]; [|done]. injection Hi as <-.
  apply get_sorts_1 in Hs as (a & -> & Ha). by exists n, a.
Qed.

(** ** Concatenation

    [catz ns zs] is the number whose parts, the most significant first, have
    the widths [ns] and the values [zs]. *)
Fixpoint catz (ns : list nat) (zs : list Z) : Z :=
  match ns, zs with
  | n :: ns, z :: zs => z * pow2 (sum_list ns) + catz ns zs
  | _, _ => 0
  end.

Lemma catz_app ns zs ns' zs' :
  length ns = length zs -> catz (ns ++ ns') (zs ++ zs') = catz ns zs * pow2 (sum_list ns') + catz ns' zs'.
Proof.
  revert zs. induction ns as [|n ns IH]; intros [|z zs]; simpl; try done. intros [= L].
  rewrite IH by done. rewrite sum_list_with_app, pow2_add. lia.
Qed.

Definition bvxs (ns : list nat) (es : list expr) : Prop := Forall2 bvx ns es.

Lemma catz_bounds I ns es : bvxs ns es -> 0 <= catz ns (map (vn I) es) < pow2 (sum_list ns).
Proof.
  induction 1 as [|n e ns es He _ IH]; simpl; [rewrite pow2_0; lia|].
  pose proof (vn_bounds I n e He). rewrite pow2_add. nia.
Qed.

Lemma vconcat_catz I ns es :
  bvxs ns es -> vconcat (map (eval I) es) = (sum_list ns, catz ns (map (vn I) es)).
Proof.
  induction 1 as [|n e ns es He _ IH]; simpl; [done|]. rewrite (bvx_val I n e He). by rewrite IH.
Qed.

Lemma concat_inv args s :
  get_sort (App OP_CONCAT args) = Some s ->
  exists ns, args <> [] /\ bvxs ns args /\ s = BV_SORT (sum_list ns).
Proof.
  intros (ss & Hs & Hi)%bind_sort. simpl in Hi. destruct ss as [|s0 ss]; [done|].
  destruct (concat_size (s0 :: ss)) as [n|] eqn:E; [|done]. injection Hi as <-.
  assert (Hss : forall ss args n, get_sorts args = Some ss -> concat_size ss = Some n ->
    exists ns, bvxs ns args /\ n = sum_list ns).
  { clear. intros ss. induction ss as [|s ss IH]; intros args n Hs%get_sorts_Forall2 E.
    - inv_Forall. injection E as <-. exists []. split; [constructor|done].
    - inversion Hs as [|a ? args' ? Ha Hs']; subst. simpl in E. destruct s as [|k|]; try done.
      destruct (concat_size ss) as [m|] eqn:Em; [|done]. injection E as <-.
      destruct (IH args' m (proj2 (get_sorts_Forall2 _ _) Hs') eq_refl) as (ns & Hns & ->).
      exists (k :: ns). split; [by constructor|done]. }
  destruct (Hss _ _ _ Hs E) as (ns & Hns & ->). exists ns. split_and!; try done.
  intros ->. discriminate.
Qed.

Lemma concat_sizes ns es : bvxs ns es -> concat_size (map BV_SORT ns) = Some (sum_list ns).
Proof. induction 1 as [|n e ns es _ _ IH]; simpl; [done|]. by rewrite IH. Qed.

Lemma holds_concat ns es :
  es <> [] -> bvxs ns es -> holds (sum_list ns) (fun I => catz ns (map (vn I) es)) (App OP_CONCAT es).
Proof.
  intros Hne HF. apply holds_intro.
  - unfold bvx. rewrite get_sort_app.
    assert (get_sorts es = Some (map BV_SORT ns)) as ->.
    { apply get_sorts_Forall2. clear Hne. induction HF; simpl; constructor; auto. }
    simpl. destruct HF as [|n e ns es He HF]; [done|]. simpl. by rewrite (concat_sizes _ _ HF).
  - intros I. rewrite eval_app by done. cbn [eval_op]. by rewrite (vconcat_catz I ns es HF).
Qed.

Lemma holds_concat2 n k za zb a b :
  holds n za a -> holds k zb b -> holds (n + k) (fun I => za I * pow2 k + zb I) (App OP_CONCAT [a; b]).
Proof.
  intros Ha Hb. eapply holds_ext.
  - replace (n + k)%nat with (sum_list [n; k]) by (simpl; lia).
    apply (holds_concat [n; k] [a; b]); [done|]. repeat constructor; [apply Ha|apply Hb].
  - intros I. simpl. rewrite (proj2 Ha), (proj2 Hb), Nat.add_0_r, pow2_0. lia.
Qed.

(** Values of the operators that widen. *)
Lemma holds_zero_ext n k z a : holds n z a -> holds (n + k) z (App (OP_ZERO_EXT k) [a]).
Proof.
  intros Ha. apply holds_intro.
  - unfold bvx. rewrite get_sort_app. simpl. by rewrite (proj1 Ha).
  - intros I. rewrite eval_app by done. simpl. by rewrite (holds_val _ _ _ I Ha).
Qed.

Lemma holds_sign_ext n k z a :
  holds n z a -> holds (n + k) (fun I => sgn n (z I) mod pow2 (n + k)) (App (OP_SIGN_EXT k) [a]).
Proof.
  intros Ha. apply holds_intro.
  - unfold bvx. rewrite get_sort_app. simpl. by rewrite (proj1 Ha).
  - intros I. rewrite eval_app by done. simpl. by rewrite (holds_val _ _ _ I Ha).
Qed.

Lemma holds_repeat n k z a :
  (0 < k)%nat -> holds n z a -> holds (n * k) (fun I => vrepeat k n (z I)) (App (OP_REPEAT k) [a]).
Proof.
  intros Hk Ha. apply holds_intro.
  - unfold bvx. rewrite get_sort_app. simpl. rewrite (proj1 Ha). simpl. by rewrite decide_True.
  - intros I. rewrite eval_app by done. simpl. by rewrite (holds_val _ _ _ I Ha).
Qed.

(** ** Boolean operators over bit vectors *)

Lemma same_not e v : same_bool e v -> same_bool (m.mk_not e) (fun I => negb (v I)).
Proof. intros [B V]. split; [by apply boolx_not|]. intros I. by rewrite bval_not, V. Qed.

Lemma same_bv_eq n za zb a b : holds n za a -> holds n zb b -> same_bool (m.mk_eq a b) (fun I => za I =? zb I).
Proof.
  intros Ha Hb. split; [apply boolx_eq; exists (BV_SORT n); split; [apply Ha|apply Hb]|]. intros I.
  rewrite bval_eq, (holds_val _ _ _ I Ha), (holds_val _ _ _ I Hb).
  destruct (Z.eqb_spec (za I) (zb I)) as [->|Hne]; [by apply bool_decide_eq_true|].
  apply bool_decide_eq_false. intros [= E]. by apply Hne.
Qed.

Lemma same_true : same_bool m.mk_true (fun _ => true).
Proof. by split. Qed.

Lemma same_false : same_bool m.mk_false (fun _ => false).
Proof. by split. Qed.

Lemma same_and2 a b va vb :
  same_bool a va -> same_bool b vb -> same_bool (m.mk_and [a; b]) (fun I => va I && vb I).
Proof.
  intros [Ba Va] [Bb Vb]. split; [apply boolx_and; by repeat constructor|]. intros I.
  rewrite bval_and. simpl. by rewrite Va, Vb, andb_true_r.
Qed.

Lemma holds_ite n c vc za zb a b :
  same_bool c vc -> holds n za a -> holds n zb b ->
  holds n (fun I => if vc I then za I else zb I) (m.mk_ite c a b).
Proof.
  intros [Bc Vc] Ha Hb. apply holds_intro; [by apply get_sort_ite; split_and!; [|apply Ha|apply Hb]|].
  intros I. rewrite eval_ite, Vc, (holds_val _ _ _ I Ha), (holds_val _ _ _ I Hb). by destruct (vc I).
Qed.

Lemma same_ite c vc va vb a b :
  same_bool c vc -> same_bool a va -> same_bool b vb ->
  same_bool (m.mk_ite c a b) (fun I => if vc I then va I else vb I).
Proof.
  intros [Bc Vc] [Ba Va] [Bb Vb]. split; [by apply boolx_ite|]. intros I. by rewrite bval_ite, Vc, Va, Vb.
Qed.

Lemma same_bool_val b : same_bool (if b : bool then m.mk_true else m.mk_false) (fun _ => b).
Proof. destruct b; [apply same_true|apply same_false]. Qed.

Lemma same_rewrites e r v :
  (forall s, get_sort e = Some s -> s = BOOL_SORT) -> (boolx e -> same_bool e v) -> (boolx e -> same_bool r v) ->
  e ~> r.
Proof.
  intros Hs He Hr. apply rewrites_bool; [done|]. intros Hb. destruct (He Hb) as [_ V], (Hr Hb) as [B V'].
  split; [done|]. intros I. by rewrite V, V'.
Qed.

Lemma holds_rewrites e r :
  (forall s, get_sort e = Some s -> exists n z, s = BV_SORT n /\ holds n z e /\ holds n z r) -> e ~> r.
Proof.
  intros H s Hs. destruct (H s Hs) as (n & z & -> & He & Hr). split; [apply Hr|]. intros I.
  by rewrite (holds_val _ _ _ I He), (holds_val _ _ _ I Hr).
Qed.

(** ** Reading a term *)

Ltac bv_term :=
  lazymatch goal with
  | |- holds _ _ (bv_util.mk_concat _) => unfold bv_util.mk_concat; bv_term
  | |- holds _ _ (bv_util.mk_extract _ _ _) => unfold bv_util.mk_extract; bv_term
  | |- holds _ _ (bv_util.mk_bv_not _) => unfold bv_util.mk_bv_not; bv_term
  | |- same_bool (bv_util.mk_ule _ _) _ => unfold bv_util.mk_ule; bv_term
  | |- same_bool (bv_util.mk_sle _ _) _ => unfold bv_util.mk_sle; bv_term
  | |- holds _ _ (mk_numeral _ _) => apply holds_num; first [lia | eapply bvx_pos; eassumption | idtac]
  | |- holds _ _ (App OP_CONCAT [_; _]) => eapply holds_concat2; bv_term
  | |- holds _ _ (App (OP_EXTRACT _ _) [_]) => (eapply holds_extract_w; [| |bv_term]); try lia
  | |- holds _ _ (m.mk_ite _ _ _) => eapply holds_ite; bv_term
  | |- holds _ _ (App _ [_]) => eapply holds_op1; [apply _|bv_term]
  | |- holds _ _ (App _ [_; _]) => eapply holds_op2; [apply _|bv_term|bv_term]
  | |- holds _ _ ?e => first [eassumption | apply holds_refl; eassumption | idtac]
  | |- same_bool m.mk_true _ => apply same_true
  | |- same_bool m.mk_false _ => apply same_false
  | |- same_bool (if _ then m.mk_true else m.mk_false) _ => apply same_bool_val
  | |- same_bool (m.mk_not _) _ => eapply same_not; bv_term
  | |- same_bool (m.mk_eq _ _) _ => eapply same_bv_eq; bv_term
  | |- same_bool (m.mk_and [_; _]) _ => eapply same_and2; bv_term
  | |- same_bool (m.mk_ite _ _ _) _ => eapply same_ite; bv_term
  | |- same_bool (App _ [_; _]) _ => eapply pred_same_bool; [apply _|bv_term|bv_term]
  | |- same_bool ?e _ => first [eassumption | apply same_bool_refl; eassumption | idtac]
  end.

(** [e] has the value the goal asks for: read it, then compare. *)
Ltac bv_value := first [eapply holds_ext; [bv_term|intros I; cbn beta] | eapply same_bool_ext; [bv_term|intros I; cbn beta]].
