(* ===== verification/Gates.v ===== *)
(** * Gates: what the bit-blaster asks of its configuration

    [bit_blaster_tpl] is a template over a class [Cfg] that builds gates over
    Boolean terms (the "Cfg required API" of [bit_blaster_tpl.h]).  [Gates] is
    that interface, [GatesOk] what an implementation promises; the circuits are
    proved against the promise and each configuration discharges it. *)
From Stdlib Require Import ZArith Lia.
From stdpp Require Import base list.
From S2P Require Import Prelude Bits Ast AstFacts TermFacts.

(** The two- and three-argument forms of [mk_and] and [mk_or] are the n-ary
    ones on a list of that length, in both configurations. *)
Class Gates := {
  mk_xor : expr -> expr -> M expr;
  mk_xor3 : expr -> expr -> expr -> M expr;
  mk_carry : expr -> expr -> expr -> M expr;
  mk_iff : expr -> expr -> M expr;
  mk_and : list expr -> M expr;
  mk_or : list expr -> M expr;
  mk_not : expr -> M expr;
  mk_ite : expr -> expr -> expr -> M expr;
  mk_nand : expr -> expr -> M expr;
  mk_nor : expr -> expr -> M expr;
}.

Definition maj (a b c : bool) : bool := a && b || a && c || b && c.

(** [computes c v]: the gate [c] returns a Boolean term with the value [v]. *)
Definition computes `{Env} (c : M expr) (v : interp -> bool) : Prop :=
  spec c (fun r => same_bool r v).

Class GatesOk `{Env} (G : Gates) : Prop := {
  mk_xor_computes a b : boolx a -> boolx b ->
    computes (mk_xor a b) (fun I => xorb (bval I a) (bval I b));
  mk_xor3_computes a b c : boolx a -> boolx b -> boolx c ->
    computes (mk_xor3 a b c) (fun I => xorb (xorb (bval I a) (bval I b)) (bval I c));
  mk_carry_computes a b c : boolx a -> boolx b -> boolx c ->
    computes (mk_carry a b c) (fun I => maj (bval I a) (bval I b) (bval I c));
  mk_iff_computes a b : boolx a -> boolx b ->
    computes (mk_iff a b) (fun I => eqb (bval I a) (bval I b));
  mk_and_computes l : Forall boolx l ->
    computes (mk_and l) (fun I => forallb (bval I) l);
  mk_or_computes l : Forall boolx l ->
    computes (mk_or l) (fun I => existsb (bval I) l);
  mk_not_computes a : boolx a -> computes (mk_not a) (fun I => negb (bval I a));
  mk_ite_computes c t e : boolx c -> boolx t -> boolx e ->
    computes (mk_ite c t e) (fun I => if bval I c then bval I t else bval I e);
  mk_nand_computes a b : boolx a -> boolx b ->
    computes (mk_nand a b) (fun I => negb (bval I a && bval I b));
  mk_nor_computes a b : boolx a -> boolx b ->
    computes (mk_nor a b) (fun I => negb (bval I a || bval I b));
}.

Lemma computes_ext `{Env} c v v' : computes c v -> (forall I, v I = v' I) -> computes c v'.
Proof.
  intros Hc E. eapply spec_mono; [exact Hc|]. intros r Hr. exact (same_bool_ext _ _ _ Hr E).
Qed.

Section Binary.
Context `{Env} (G : Gates) {OK : GatesOk G}.

Lemma mk_and2_computes a b : boolx a -> boolx b ->
  computes (mk_and [a; b]) (fun I => bval I a && bval I b).
Proof.
  intros. eapply computes_ext; [apply mk_and_computes; auto|]. intros I. simpl. by rewrite andb_true_r.
Qed.

Lemma mk_or2_computes a b : boolx a -> boolx b ->
  computes (mk_or [a; b]) (fun I => bval I a || bval I b).
Proof.
  intros. eapply computes_ext; [apply mk_or_computes; auto|]. intros I. simpl. by rewrite orb_false_r.
Qed.

Lemma mk_or3_computes a b c : boolx a -> boolx b -> boolx c ->
  computes (mk_or [a; b; c]) (fun I => bval I a || bval I b || bval I c).
Proof.
  intros. eapply computes_ext; [apply mk_or_computes; auto|]. intros I. simpl.
  by rewrite orb_false_r, orb_assoc.
Qed.
End Binary.
