(* ===== verification/Blast.v ===== *)
(** * Blast: the circuits of the bit-blaster

    Models [ast/rewriter/bit_blaster/bit_blaster_tpl_def.h] over the gates of
    [Gates].  A bit vector is an array [expr * const *] with an explicit size
    [sz], here a list read with [!!!]; [expr_ref_vector] results the callers
    pass empty are returned.  Entries of a resized vector that the code leaves
    null until it sets them are [inhabitant].

    Functions on bit vectors whose name the code overloads carry the suffix
    [_v]. *)
From Stdlib Require Import ZArith Lia.
From stdpp Require Import base list.
From S2P Require Import Prelude Bits Ast Gates.

(** ** Constants *)

Definition is_bool_const (e : expr) : bool := m.is_true e || m.is_false e.

Definition all_bool_const (sz : nat) (bits : list expr) : bool :=
  forallb (fun i => is_bool_const (bits !!! i)) (seq 0 sz).

(** [is_numeral(sz, bits, r)]: [n] bits remain, [r] is the sum so far. *)
Fixpoint is_numeral_loop (n i : nat) (bits : list expr) (r : Z) : option Z :=
  match n with
  | O => Some r
  | S n' =>
      if m.is_true (bits !!! i) then is_numeral_loop n' (S i) bits (r + pow2 i)%Z
      else if m.is_false (bits !!! i) then is_numeral_loop n' (S i) bits r
      else None
  end.

Definition is_numeral_bits (sz : nat) (bits : list expr) : option Z := is_numeral_loop sz 0 bits 0.

Definition is_minus_one (sz : nat) (bits : list expr) : bool :=
  forallb (fun i => m.is_true (bits !!! i)) (seq 0 sz).

(** The 32 bits of the chunk [u]: [0 != (u & (1 << j))]. *)
Definition chunk_bits (u : Z) : list expr :=
  map (fun j => if negb (Z.land u (Z.shiftl 1 (Z.of_nat j)) =? 0)%Z then m.mk_true else m.mk_false)
    (seq 0 32).

(** [_num2bits]: 32 bits at a time while more than 32 remain, then one by one. *)
Fixpoint num2bits_loop (fuel i sz : nat) (aux : Z) (out : list expr) : list expr :=
  match fuel with
  | O => out
  | S n =>
      if (i <? sz)%nat then
        if (i + 32 <? sz)%nat then
          num2bits_loop n (i + 32) sz (aux / 2 ^ 32)%Z (out ++ chunk_bits (aux mod 2 ^ 32)%Z)
        else
          num2bits_loop n (S i) sz (aux / 2)%Z
            (out ++ [if (aux mod 2 =? 0)%Z then m.mk_false else m.mk_true])
      else out
  end.

Definition num2bits (v : Z) (sz : nat) : list expr := num2bits_loop (S sz) 0 sz v [].

(** Arguments read at [first], ..., [first + n - 1]. *)
Definition slice (first n : nat) (bits : list expr) : list expr :=
  map (fun i => bits !!! i) (seq first n).

(** [sz] gates, pushed in order. *)
Definition push_loop (sz : nat) (gate : nat -> M expr) : M (list expr) :=
  for_range 0 sz (fun i out => t ← gate i; mret (out ++ [t])) [].

(** ** Rotations and extensions, which need no gate *)

Definition mk_rotate_left (sz : nat) (a_bits : list expr) (n : nat) : list expr :=
  let n := (n mod sz)%nat in slice (sz - n) n a_bits ++ slice 0 (sz - n) a_bits.

Definition mk_rotate_right (sz : nat) (a_bits : list expr) (n : nat) : list expr :=
  mk_rotate_left sz a_bits (sz - n mod sz).

Definition mk_sign_extend (sz : nat) (a_bits : list expr) (n : nat) : list expr :=
  slice 0 sz a_bits ++ replicate n (a_bits !!! (sz - 1)%nat).

Definition mk_zero_extend (sz : nat) (a_bits : list expr) (n : nat) : list expr :=
  slice 0 sz a_bits ++ replicate n m.mk_false.

Section Blaster.
Context `{Env} {G : Gates}.
Context (m_use_wtm m_use_bcm : bool).

Definition checkpoint : M unit := fun s =>
  if (max_memory <? alloc_size (m_ticks s))%Z then Throw ExMaxMemory
  else if canceled (m_ticks s) then Throw ExCanceled
  else Ok tt (mk_st (m_local_ctx_cost s) (S (m_ticks s))).

(** ** Adders *)

Definition mk_half_adder (a b : expr) : M (expr * expr) :=
  out ← mk_xor a b; cout ← mk_and [a; b]; mret (out, cout).

Definition mk_full_adder (a b cin : expr) : M (expr * expr) :=
  out ← mk_xor3 a b cin; cout ← mk_carry a b cin; mret (out, cout).

Definition mk_neg (sz : nat) (a_bits : list expr) : M (list expr) :=
  '(out_bits, _) ← for_range 0 sz (fun idx '(out_bits, cin) =>
      not_a ← mk_not (a_bits !!! idx);
      if (idx <? sz - 1)%nat then
        '(out, cout) ← mk_half_adder not_a cin; mret (out_bits ++ [out], cout)
      else
        out ← mk_xor not_a cin; mret (out_bits ++ [out], cin))
    ([], m.mk_true);
  mret out_bits.

Definition mk_adder (sz : nat) (a_bits b_bits : list expr) : M (list expr) :=
  '(out_bits, _) ← for_range 0 sz (fun idx '(out_bits, cin) =>
      if (idx <? sz - 1)%nat then
        '(out, cout) ← mk_full_adder (a_bits !!! idx) (b_bits !!! idx) cin;
        mret (out_bits ++ [out], cout)
      else
        out ← mk_xor3 (a_bits !!! idx) (b_bits !!! idx) cin; mret (out_bits ++ [out], cin))
    ([], m.mk_false);
  mret out_bits.

Definition mk_subtracter (sz : nat) (a_bits b_bits : list expr) : M (list expr * expr) :=
  for_range 0 sz (fun j '(out_bits, cin) =>
      not_b ← mk_not (b_bits !!! j);
      '(out, cout) ← mk_full_adder (a_bits !!! j) not_b cin;
      mret (out_bits ++ [out], cout))
    ([], m.mk_true).

(** The sums and the carries are appended to the given vectors. *)
Definition mk_carry_save_adder (sz : nat) (a_bits b_bits c_bits sum_bits carry_bits : list expr)
    : M (list expr * list expr) :=
  for_range 0 sz (fun i '(sum_bits, carry_bits) =>
      t ← mk_xor3 (a_bits !!! i) (b_bits !!! i) (c_bits !!! i);
      t' ← mk_carry (a_bits !!! i) (b_bits !!! i) (c_bits !!! i);
      mret (sum_bits ++ [t], carry_bits ++ [t']))
    (sum_bits, carry_bits).

(** ** Comparisons *)

Definition mk_eq_v (sz : nat) (a_bits b_bits : list expr) : M expr :=
  out_bits ← push_loop sz (fun i => mk_iff (a_bits !!! i) (b_bits !!! i));
  mk_and out_bits.

Definition mk_is_eq (sz : nat) (a_bits : list expr) (n : nat) : M expr :=
  '(out_bits, _) ← for_range 0 sz (fun i '(out_bits, n) =>
      if (n mod 2 =? 0)%nat then
        not_a ← mk_not (a_bits !!! i); mret (out_bits ++ [not_a], (n / 2)%nat)
      else mret (out_bits ++ [a_bits !!! i], (n / 2)%nat))
    ([], n);
  mk_and out_bits.

Definition mk_eqs (sz : nat) (a_bits : list expr) : M (list expr) :=
  push_loop sz (fun i => mk_is_eq sz a_bits i).

(** One position of the comparison: [not x /\ y], [not x /\ out], [y /\ out]. *)
Definition le_gate (x y out : expr) : M expr :=
  not_x ← mk_not x;
  i1 ← mk_and [not_x; y];
  i2 ← mk_and [not_x; out];
  i3 ← mk_and [y; out];
  mk_or [i1; i2; i3].

Definition mk_le (Signed : bool) (sz : nat) (a_bits b_bits : list expr) : M expr :=
  not_a ← mk_not (a_bits !!! 0%nat);
  out ← mk_or [not_a; b_bits !!! 0%nat];
  out ← for_range 1 (if Signed then sz - 1 else sz) (fun idx out =>
      le_gate (a_bits !!! idx) (b_bits !!! idx) out) out;
  if Signed then le_gate (b_bits !!! (sz - 1)%nat) (a_bits !!! (sz - 1)%nat) out
  else mret out.

Definition mk_sle (sz : nat) (a_bits b_bits : list expr) : M expr := mk_le true sz a_bits b_bits.
Definition mk_ule (sz : nat) (a_bits b_bits : list expr) : M expr := mk_le false sz a_bits b_bits.

Definition mk_comp (sz : nat) (a_bits b_bits : list expr) : M (list expr) :=
  tmp ← mk_eq_v sz a_bits b_bits; mret [tmp].

(** ** Bitwise operators *)

Definition mk_not_v (sz : nat) (a_bits : list expr) : M (list expr) :=
  push_loop sz (fun i => mk_not (a_bits !!! i)).

(** [MK_BINARY(NAME, OP)]. *)
Definition mk_binary (OP : expr -> expr -> M expr) (sz : nat) (a_bits b_bits : list expr)
    : M (list expr) :=
  push_loop sz (fun i => OP (a_bits !!! i) (b_bits !!! i)).

Definition mk_and_v := mk_binary (fun a b => mk_and [a; b]).
Definition mk_or_v := mk_binary (fun a b => mk_or [a; b]).
Definition mk_xor_v := mk_binary mk_xor.
Definition mk_xnor_v := mk_binary mk_iff.
Definition mk_nand_v := mk_binary mk_nand.
Definition mk_nor_v := mk_binary mk_nor.

Definition mk_redand (sz : nat) (a_bits : list expr) : M (list expr) :=
  tmp ← mk_and (slice 0 sz a_bits); mret [tmp].
Definition mk_redor (sz : nat) (a_bits : list expr) : M (list expr) :=
  tmp ← mk_or (slice 0 sz a_bits); mret [tmp].

Definition mk_multiplexer (c : expr) (sz : nat) (t_bits e_bits : list expr) : M (list expr) :=
  push_loop sz (fun i => mk_ite c (t_bits !!! i) (e_bits !!! i)).

Definition mk_abs (sz : nat) (a_bits : list expr) : M (list expr) :=
  let a_msb := a_bits !!! (sz - 1)%nat in
  if m.is_false a_msb then mret (slice 0 sz a_bits)
  else if m.is_true a_msb then mk_neg sz a_bits
  else neg_a_bits ← mk_neg sz a_bits; mk_multiplexer a_msb sz neg_a_bits a_bits.

(** ** Multiplication *)

(** [while (i < sz && is_bool_const(bits[i])) ++i], at most [n] steps. *)
Fixpoint skip_consts (n i sz : nat) (bits : list expr) : nat :=
  match n with
  | O => i
  | S n' => if (i <? sz)%nat && is_bool_const (bits !!! i) then skip_consts n' (S i) sz bits else i
  end.

(** The next bit that is not constant, in [a_bits] first and then in [b_bits]. *)
Definition next_var (is_a : bool) (i sz : nat) (a_bits b_bits : list expr) : bool * nat :=
  let i := if is_a then skip_consts sz i sz a_bits else i in
  let '(is_a, i) := if is_a && (i =? sz)%nat then (false, 0%nat) else (is_a, i) in
  (is_a, if is_a then i else skip_consts sz i sz b_bits).

(** The case split over the bits that are not constant; [None] if a [VERIFY]
    fails or the fuel runs out. *)
Fixpoint case_multiplier (fuel : nat) (is_a : bool) (i sz : nat) (a_bits b_bits : list expr)
    : option (list expr) :=
  match fuel with
  | O => None
  | S n =>
      let '(is_a, i) := next_var is_a i sz a_bits b_bits in
      if (i <? sz)%nat then
        let a_with v := if is_a then <[i := v]> a_bits else a_bits in
        let b_with v := if is_a then b_bits else <[i := v]> b_bits in
        let x := if is_a then a_bits !!! i else b_bits !!! i in
        out1 ← case_multiplier n is_a (S i) sz (a_with m.mk_true) (b_with m.mk_true);
        out2 ← case_multiplier n is_a (S i) sz (a_with m.mk_false) (b_with m.mk_false);
        Some (map (fun j => m.mk_ite x (out1 !!! j) (out2 !!! j)) (seq 0 sz))
      else
        n_a ← is_numeral_bits sz a_bits; n_b ← is_numeral_bits sz b_bits;
        Some (num2bits (n_a * n_b) sz)
  end.

(** [case_size], an [unsigned], doubled for every bit that is not constant
    until it reaches [circuit_size]; [n] bits remain. *)
Fixpoint case_size_loop (n i : nat) (circuit_size case_size : Z) (a_bits b_bits : list expr) : Z :=
  match n with
  | O => case_size
  | S n' =>
      if (case_size <? circuit_size)%Z then
        let double c (e : expr) := if is_bool_const e then c else ((c * 2) mod 2 ^ 32)%Z in
        case_size_loop n' (S i) circuit_size
          (double (double case_size (a_bits !!! i)) (b_bits !!! i)) a_bits b_bits
      else case_size
  end.

(** The two-argument [mk_const_case_multiplier]: it always returns false, also
    when it has filled [out_bits]. *)
Definition mk_const_case_multiplier (sz : nat) (a_bits b_bits : list expr) : M (bool * list expr) :=
  let circuit_size := ((Z.of_nat sz * Z.of_nat sz * 5) mod 2 ^ 32)%Z in
  let case_size := case_size_loop sz 0 circuit_size 1 a_bits b_bits in
  if (circuit_size <=? case_size)%Z then mret (false, [])
  else match case_multiplier (2 * sz + 2) true 0 sz (slice 0 sz a_bits) (slice 0 sz b_bits) with
       | Some out_bits => mret (false, out_bits)
       | None => throw ExDiverge
       end.

(** Write [tmp] over [out_bits[i], ..., out_bits[sz - 1]]. *)
Definition set_from (i sz : nat) (tmp out_bits : list expr) : list expr :=
  pure_for 0 (sz - i) (fun j out => <[(i + j)%nat := tmp !!! j]> out) out_bits.

(** Booth recoding of a constant multiplier: subtract [b << i] where a run of
    ones starts, add it where the run has ended. *)
Definition booth_loop (sz : nat) (a_bits b_bits minus_b_bits : list expr) : M (list expr * bool) :=
  for_range 0 sz (fun i '(out_bits, last) =>
      let now := m.is_true (a_bits !!! i) in
      if now && negb last then
        tmp ← mk_adder (sz - i) (drop i out_bits) minus_b_bits;
        mret (set_from i sz tmp out_bits, now)
      else if negb now && last then
        tmp ← mk_adder (sz - i) (drop i out_bits) b_bits;
        mret (set_from i sz tmp out_bits, now)
      else mret (out_bits, now))
    (replicate sz m.mk_false, false).

(** [Some out_bits] when it returns true. *)
Definition mk_const_multiplier (sz : nat) (a_bits b_bits : list expr) : M (option (list expr)) :=
  match is_numeral_bits sz a_bits with
  | None => mret None
  | Some n_a =>
      '(done, out_bits) ← mk_const_case_multiplier sz a_bits b_bits;
      if (done : bool) then mret (Some out_bits)
      else if negb m_use_bcm then mret None
      else
        minus_b_bits ← mk_neg sz b_bits;
        '(out_bits, _) ← booth_loop sz a_bits b_bits minus_b_bits;
        mret (Some out_bits)
  end.

(** The array of half and full adders: the column [i] of the diagram. *)
Definition mul_column (i : nat) (a_bits b_bits cins : list expr) : M (expr * list expr) :=
  i1 ← mk_and [a_bits !!! 0%nat; b_bits !!! i];
  i2 ← mk_and [a_bits !!! 1%nat; b_bits !!! (i - 1)%nat];
  '(out, cout) ← mk_half_adder i1 i2;
  for_range 2 (S i) (fun j '(out, couts) =>
      i3 ← mk_and [a_bits !!! j; b_bits !!! (i - j)%nat];
      '(out, cout) ← mk_full_adder i3 out (cins !!! (j - 2)%nat);
      mret (out, couts ++ [cout]))
    (out, [cout]).

(** The last column needs no carries. *)
Definition mul_last_column (i : nat) (a_bits b_bits cins : list expr) : M expr :=
  i1 ← mk_and [a_bits !!! 0%nat; b_bits !!! i];
  i2 ← mk_and [a_bits !!! 1%nat; b_bits !!! (i - 1)%nat];
  out ← mk_xor i1 i2;
  for_range 2 (S i) (fun j out =>
      i3 ← mk_and [a_bits !!! j; b_bits !!! (i - j)%nat];
      mk_xor3 i3 out (cins !!! (j - 2)%nat))
    out.

Definition mk_array_multiplier (sz : nat) (a_bits b_bits : list expr) : M (list expr) :=
  out ← mk_and [a_bits !!! 0%nat; b_bits !!! 0%nat];
  '(out_bits, _) ← for_range 1 sz (fun i '(out_bits, cins) =>
      checkpoint;;
      if (i <? sz - 1)%nat then
        '(out, couts) ← mul_column i a_bits b_bits cins; mret (out_bits ++ [out], couts)
      else
        out ← mul_last_column i a_bits b_bits cins; mret (out_bits ++ [out], cins))
    ([out], []);
  mret out_bits.

(** The partial product [a_bits & b_bits[i]], shifted left by [i]. *)
Definition partial_product (sz i : nat) (a_bits b_bits : list expr) : M (list expr) :=
  t ← push_loop (sz - i) (fun j => mk_and [a_bits !!! j; b_bits !!! i]);
  mret (replicate i m.mk_false ++ t).

Definition partial_products (sz : nat) (a_bits b_bits : list expr) : M (list (list expr)) :=
  for_range 0 sz (fun i pps =>
      checkpoint;; pp ← partial_product sz i a_bits b_bits; mret (pps ++ [pp])) [].

(** One round of the Wallace tree: each group of three summands becomes a sum
    and a shifted carry, kept at [save_inx] in the same vector; the one or two
    summands left over are moved behind them. *)
Fixpoint wallace_round (pps : list (list expr)) : M (list (list expr)) :=
  match pps with
  | pp1 :: pp2 :: pp3 :: rest =>
      checkpoint;;
      '(sum_bits, carry_bits) ← mk_carry_save_adder (length pp1) pp1 pp2 pp3 [] [m.mk_false];
      rest' ← wallace_round rest;
      mret (sum_bits :: take (length carry_bits - 1) carry_bits :: rest')
  | _ => mret pps
  end.

(** [while (pps.size() != 2)]. *)
Fixpoint wallace_loop (fuel : nat) (pps : list (list expr)) : M (list (list expr)) :=
  if (length pps =? 2)%nat then mret pps
  else match fuel with
       | O => throw ExDiverge
       | S n => pps' ← wallace_round pps; wallace_loop n pps'
       end.

Definition mk_wallace_multiplier (sz : nat) (a_bits b_bits : list expr) : M (list expr) :=
  if (sz =? 1)%nat then t ← mk_and [a_bits !!! 0%nat; b_bits !!! 0%nat]; mret [t]
  else
    pps ← partial_products sz a_bits b_bits;
    pps ← wallace_loop sz pps;
    mk_adder sz (pps !!! 0%nat) (pps !!! 1%nat).

Definition mk_multiplier (sz : nat) (a0_bits b0_bits : list expr) : M (list expr) :=
  let '(a_bits, b_bits, n_b) :=
    match is_numeral_bits sz a0_bits with
    | Some n_b => (b0_bits, a0_bits, n_b)
    | None => (a0_bits, b0_bits, 0%Z)
    end in
  if is_minus_one sz b_bits then mk_neg sz a_bits
  else match is_numeral_bits sz a_bits with
       | Some n_a => mret (num2bits (n_a * n_b) sz)
       | None =>
           r ← mk_const_multiplier sz a_bits b_bits;
           match r with
           | Some out_bits => mret out_bits
           | None =>
               r ← mk_const_multiplier sz b_bits a_bits;
               match r with
               | Some out_bits => mret out_bits
               | None =>
                   if negb m_use_wtm then mk_array_multiplier sz a_bits b_bits
                   else mk_wallace_multiplier sz a_bits b_bits
               end
           end
       end.

(** ** Multiplication overflow *)

Definition mk_umul_no_overflow (sz : nat) (a_bits b_bits : list expr) : M expr :=
  let ext_a_bits := slice 0 sz a_bits ++ [m.mk_false] in
  let ext_b_bits := slice 0 sz b_bits ++ [m.mk_false] in
  mult_cout ← mk_multiplier (1 + sz) ext_a_bits ext_b_bits;
  let overflow1 := mult_cout !!! sz in
  '(_, overflow2) ← for_range 1 sz (fun i '(ovf, v) =>
      ovf ← mk_or [ovf; a_bits !!! (sz - i)%nat];
      tmp ← mk_and [ovf; b_bits !!! i];
      v ← mk_or [tmp; v];
      mret (ovf, v))
    (m.mk_false, m.mk_false);
  overflow ← mk_or [overflow1; overflow2];
  mk_not overflow.

Definition mk_smul_no_overflow_core (sz : nat) (a_bits b_bits : list expr) (is_overflow : bool)
    : M expr :=
  let a_msb := a_bits !!! (sz - 1)%nat in
  let b_msb := b_bits !!! (sz - 1)%nat in
  let ext_a_bits := slice 0 sz a_bits ++ [a_msb] in
  let ext_b_bits := slice 0 sz b_bits ++ [b_msb] in
  mult_cout ← mk_multiplier (1 + sz) ext_a_bits ext_b_bits;
  overflow1 ← mk_xor (mult_cout !!! sz) (mult_cout !!! (sz - 1)%nat);
  '(_, overflow2) ← for_range 1 (sz - 1) (fun i '(a_acc, v) =>
      b ← mk_xor b_msb (b_bits !!! i);
      a ← mk_xor a_msb (a_bits !!! (sz - 1 - i)%nat);
      a_acc ← mk_or [a; a_acc];
      tmp ← mk_and [a_acc; b];
      v ← mk_or [tmp; v];
      mret (a_acc, v))
    (m.mk_false, m.mk_false);
  overflow ← mk_or [overflow1; overflow2];
  sign ← (if is_overflow then mk_iff a_msb b_msb else mk_xor a_msb b_msb);
  overflow ← mk_and [sign; overflow];
  mk_not overflow.

Definition mk_smul_no_overflow (sz : nat) (a_bits b_bits : list expr) : M expr :=
  mk_smul_no_overflow_core sz a_bits b_bits true.
Definition mk_smul_no_underflow (sz : nat) (a_bits b_bits : list expr) : M expr :=
  mk_smul_no_overflow_core sz a_bits b_bits false.

(** ** Division *)

(** [for (j = sz - 1; j > 0; j--) p[j] = ite(q, t[j-1], p[j-1])], in place. *)
Definition div_shift (sz : nat) (q : expr) (t p : list expr) : M (list expr) :=
  for_range 1 sz (fun k p =>
      let j := (sz - k)%nat in
      ie ← mk_ite q (t !!! (j - 1)%nat) (p !!! (j - 1)%nat);
      mret (<[j := ie]> p)) p.

(** [for (j = 0; j < sz; j++) p[j] = ite(q, t[j], p[j])], in place. *)
Definition div_last (sz : nat) (q : expr) (t p : list expr) : M (list expr) :=
  for_range 0 sz (fun j p =>
      ie ← mk_ite q (t !!! j) (p !!! j);
      mret (<[j := ie]> p)) p.

(** Quotient and remainder; [p] is the residual, which ends as the remainder. *)
Definition mk_udiv_urem (sz : nat) (a_bits b_bits : list expr) : M (list expr * list expr) :=
  for_range 0 sz (fun i '(q_bits, p) =>
      checkpoint;;
      '(t, q) ← mk_subtracter sz p b_bits;
      let q_bits := <[(sz - i - 1)%nat := q]> q_bits in
      if (i <? sz - 1)%nat then
        p ← div_shift sz q t p;
        mret (q_bits, <[0%nat := a_bits !!! (sz - i - 2)%nat]> p)
      else
        p ← div_last sz q t p;
        mret (q_bits, p))
    (replicate sz inhabitant, a_bits !!! (sz - 1)%nat :: replicate (sz - 1) m.mk_false).

Definition mk_udiv (sz : nat) (a_bits b_bits : list expr) : M (list expr) :=
  '(q_bits, _) ← mk_udiv_urem sz a_bits b_bits; mret q_bits.

Definition mk_urem (sz : nat) (a_bits b_bits : list expr) : M (list expr) :=
  '(_, r_bits) ← mk_udiv_urem sz a_bits b_bits; mret r_bits.

Definition mk_sdiv (sz : nat) (a_bits b_bits : list expr) : M (list expr) :=
  let a_msb := a_bits !!! (sz - 1)%nat in
  let b_msb := b_bits !!! (sz - 1)%nat in
  if m.is_false a_msb && m.is_false b_msb then mk_udiv sz a_bits b_bits
  else if m.is_false a_msb && m.is_true b_msb then
    neg_b_bits ← mk_neg sz b_bits;
    tmp ← mk_udiv sz a_bits neg_b_bits;
    mk_neg sz tmp
  else if m.is_true a_msb && m.is_false b_msb then
    neg_a_bits ← mk_neg sz a_bits;
    tmp ← mk_udiv sz neg_a_bits b_bits;
    mk_neg sz tmp
  else if m.is_true a_msb && m.is_true b_msb then
    neg_a_bits ← mk_neg sz a_bits;
    neg_b_bits ← mk_neg sz b_bits;
    mk_udiv sz neg_a_bits neg_b_bits
  else
    abs_a_bits ← mk_abs sz a_bits;
    abs_b_bits ← mk_abs sz b_bits;
    udiv_bits ← mk_udiv sz abs_a_bits abs_b_bits;
    neg_udiv_bits ← mk_neg sz udiv_bits;
    c ← mk_iff a_msb b_msb;
    mk_multiplexer c sz udiv_bits neg_udiv_bits.

(** ** The four-way signed circuits

    The template [mk_sdiv_srem_smod<k>], whose calls are compiled out ([#if 0]):
    one divider for
    each combination of signs that the constant sign bits leave open. *)
Inductive div_kind := SDIV | SREM | SMOD.

(** [c ? m : a vector of sz times false]. *)
Definition or_false (sz : nat) (c : bool) (m : M (list expr)) : M (list expr) :=
  if c then m else mret (replicate sz m.mk_false).

Definition or_false2 (sz : nat) (c : bool) (m : M (list expr * list expr)) : M (list expr * list expr) :=
  if c then m else mret (replicate sz m.mk_false, replicate sz m.mk_false).

(** [MK_MULTIPLEXER]. *)
Definition mk_sign_multiplexer (sz : nat) (a_msb b_msb : expr) (pp_out np_out pn_out nn_out : list expr)
    : M (list expr) :=
  ite1 ← mk_multiplexer b_msb sz nn_out np_out;
  ite2 ← mk_multiplexer b_msb sz pn_out pp_out;
  mk_multiplexer a_msb sz ite1 ite2.

Definition mk_sdiv_srem_smod (k : div_kind) (sz : nat) (a_bits b_bits : list expr) : M (list expr) :=
  let a_msb := a_bits !!! (sz - 1)%nat in
  let b_msb := b_bits !!! (sz - 1)%nat in
  neg_a_bits ← mk_neg sz a_bits;
  neg_b_bits ← mk_neg sz b_bits;
  let pp := negb (m.is_true a_msb) && negb (m.is_true b_msb) in
  let np := negb (m.is_false a_msb) && negb (m.is_true b_msb) in
  let pn := negb (m.is_true a_msb) && negb (m.is_false b_msb) in
  let nn := negb (m.is_false a_msb) && negb (m.is_false b_msb) in
  '(pp_q, pp_r) ← or_false2 sz pp (mk_udiv_urem sz a_bits b_bits);
  '(np_q, np_r) ← or_false2 sz np (mk_udiv_urem sz neg_a_bits b_bits);
  '(pn_q, pn_r) ← or_false2 sz pn (mk_udiv_urem sz a_bits neg_b_bits);
  '(nn_q, nn_r) ← or_false2 sz nn (mk_udiv_urem sz neg_a_bits neg_b_bits);
  match k with
  | SDIV =>
      np_out ← or_false sz np (mk_neg sz np_q);
      pn_out ← or_false sz pn (mk_neg sz pn_q);
      mk_sign_multiplexer sz a_msb b_msb pp_q np_out pn_out nn_q
  | SREM =>
      np_out ← or_false sz np (mk_neg sz np_r);
      nn_out ← or_false sz nn (mk_neg sz nn_r);
      mk_sign_multiplexer sz a_msb b_msb pp_r np_out pn_r nn_out
  | SMOD =>
      np_out ← or_false sz np ('(out, _) ← mk_subtracter sz b_bits np_r; mret out);
      pn_out ← or_false sz pn (mk_adder sz b_bits pn_r);
      nn_out ← or_false sz nn (mk_neg sz nn_r);
      mk_sign_multiplexer sz a_msb b_msb pp_r np_out pn_out nn_out
  end.

(** [rational::is_power_of_two]. *)
Definition is_power_of_two (n : Z) : option nat :=
  if (0 <? n)%Z && (n =? 2 ^ Z.log2 n)%Z then Some (Z.to_nat (Z.log2 n)) else None.

Definition mk_srem (sz : nat) (a_bits b_bits : list expr) : M (list expr) :=
  let a_msb := a_bits !!! (sz - 1)%nat in
  let b_msb := b_bits !!! (sz - 1)%nat in
  if m.is_false a_msb && m.is_false b_msb then mk_urem sz a_bits b_bits
  else if m.is_false a_msb && m.is_true b_msb then
    neg_b_bits ← mk_neg sz b_bits;
    mk_urem sz a_bits neg_b_bits
  else if m.is_true a_msb && m.is_false b_msb then
    neg_a_bits ← mk_neg sz a_bits;
    tmp ← mk_urem sz neg_a_bits b_bits;
    mk_neg sz tmp
  else if m.is_true a_msb && m.is_true b_msb then
    neg_a_bits ← mk_neg sz a_bits;
    neg_b_bits ← mk_neg sz b_bits;
    tmp ← mk_urem sz neg_a_bits neg_b_bits;
    mk_neg sz tmp
  else
    abs_a_bits ← mk_abs sz a_bits;
    abs_b_bits ← mk_abs sz b_bits;
    urem_bits ← match n_b ← is_numeral_bits sz abs_b_bits; is_power_of_two n_b with
                | Some shift => mret (mk_zero_extend shift abs_a_bits (sz - shift))
                | None => mk_urem sz abs_a_bits abs_b_bits
                end;
    neg_urem_bits ← mk_neg sz urem_bits;
    mk_multiplexer a_msb sz neg_urem_bits urem_bits.

Definition mk_smod (sz : nat) (a_bits b_bits : list expr) : M (list expr) :=
  let a_msb := a_bits !!! (sz - 1)%nat in
  let b_msb := b_bits !!! (sz - 1)%nat in
  abs_a_bits ← mk_abs sz a_bits;
  abs_b_bits ← mk_abs sz b_bits;
  u_bits ← mk_urem sz abs_a_bits abs_b_bits;
  neg_u_bits ← mk_neg sz u_bits;
  neg_u_add_b ← mk_adder sz neg_u_bits b_bits;
  u_add_b ← mk_adder sz u_bits b_bits;
  let zero := num2bits 0 sz in
  u_eq_0 ← mk_eq_v sz u_bits zero;
  ite1 ← mk_multiplexer b_msb sz neg_u_bits neg_u_add_b;
  ite2 ← mk_multiplexer b_msb sz u_add_b u_bits;
  body ← mk_multiplexer a_msb sz ite1 ite2;
  mk_multiplexer u_eq_0 sz u_bits body.

(** ** Shifts by a variable amount *)

(** One stage of the barrel shifter moves by [1 << i]; [pick] gives the bit
    moved to position [j].  The loop stops at the first stage that would move
    by [sz] or more and returns its index; [n] stages remain. *)
Fixpoint shift_stages (pick : nat -> nat -> list expr -> expr) (sz : nat) (b_bits : list expr)
    (n i : nat) (out_bits : list expr) : M (nat * list expr) :=
  match n with
  | O => mret (i, out_bits)
  | S n' =>
      checkpoint;;
      let shift_i := (2 ^ i)%nat in
      if (sz <=? shift_i)%nat then mret (i, out_bits)
      else
        new_out_bits ← push_loop sz (fun j =>
          mk_ite (b_bits !!! i) (pick shift_i j out_bits) (out_bits !!! j));
        shift_stages pick sz b_bits n' (S i) new_out_bits
  end.

(** The stages, then [fill] everywhere if a remaining bit of the shift amount
    is set. *)
Definition barrel_shift (pick : nat -> nat -> list expr -> expr) (fill : expr) (sz : nat)
    (a_bits b_bits : list expr) : M (list expr) :=
  '(i, out_bits) ← shift_stages pick sz b_bits sz 0 (slice 0 sz a_bits);
  is_large ← for_range i sz (fun i is_large => mk_or [is_large; b_bits !!! i]) m.mk_false;
  for_range 0 sz (fun j out_bits =>
    new_out ← mk_ite is_large fill (out_bits !!! j);
    mret (<[j := new_out]> out_bits)) out_bits.

Definition mk_shl (sz : nat) (a_bits b_bits : list expr) : M (list expr) :=
  match is_numeral_bits sz b_bits with
  | Some k =>
      let n := Z.to_nat (Z.min k (Z.of_nat sz)) in
      mret (replicate n m.mk_false ++ slice 0 (sz - n) a_bits)
  | None =>
      barrel_shift (fun shift_i j out_bits =>
        if (shift_i <=? j)%nat then out_bits !!! (j - shift_i)%nat else m.mk_false)
        m.mk_false sz a_bits b_bits
  end.

Definition mk_lshr (sz : nat) (a_bits b_bits : list expr) : M (list expr) :=
  match is_numeral_bits sz b_bits with
  | Some k =>
      let n := Z.to_nat (Z.min k (Z.of_nat sz)) in
      mret (slice n (sz - n) a_bits ++ replicate n m.mk_false)
  | None =>
      barrel_shift (fun shift_i j out_bits =>
        if (shift_i + j <? sz)%nat then out_bits !!! (j + shift_i)%nat else m.mk_false)
        m.mk_false sz a_bits b_bits
  end.

Definition mk_ashr (sz : nat) (a_bits b_bits : list expr) : M (list expr) :=
  let a_msb := a_bits !!! (sz - 1)%nat in
  match is_numeral_bits sz b_bits with
  | Some k =>
      let n := Z.to_nat (Z.min k (Z.of_nat sz)) in
      mret (slice n (sz - n) a_bits ++ replicate n a_msb)
  | None =>
      barrel_shift (fun shift_i j out_bits =>
        if (shift_i + j <? sz)%nat then out_bits !!! (j + shift_i)%nat else a_msb)
        a_msb sz a_bits b_bits
  end.

Definition mk_ext_rotate_left_right (Left : bool) (sz : nat) (a_bits b_bits : list expr)
    : M (list expr) :=
  let variable :=
    let sz_bits := num2bits (Z.of_nat sz) sz in
    masked_b_bits ← mk_urem sz b_bits sz_bits;
    eqs ← mk_eqs sz masked_b_bits;
    for_range 0 sz (fun i out_bits =>
      checkpoint;;
      out ← for_range 1 sz (fun j out =>
          let src := ((if Left then sz + i - j else i + j) mod sz)%nat in
          mk_ite (eqs !!! j) (a_bits !!! src) out)
        (a_bits !!! i);
      mret (out_bits ++ [out])) [] in
  match is_numeral_bits sz b_bits with
  | Some k =>
      if (k <? 2 ^ 32)%Z then
        mret (if Left then mk_rotate_left sz a_bits (Z.to_nat k)
              else mk_rotate_right sz a_bits (Z.to_nat k))
      else variable
  | None => variable
  end.

Definition mk_ext_rotate_left := mk_ext_rotate_left_right true.
Definition mk_ext_rotate_right := mk_ext_rotate_left_right false.
End Blaster.
