(* ===== verification/BlastFacts.v ===== *)
(** * BlastFacts: values of bit arrays and the loops that build them

    [bit I a i] is the truth value of the [i]-th entry of the array [a],
    [uval I n a] and [sval I n a] the unsigned and signed values of its [n]
    low entries.  Entries past the end read as false. *)
From Stdlib Require Import ZArith Lia.
From stdpp Require Import base list.
From S2P Require Import Prelude Bits UBits Ast AstFacts TermFacts Gates Blast.

Local Open Scope Z_scope.

Definition bits (a : list expr) : Prop := Forall boolx a.

Definition bit (I : interp) (a : list expr) (i : nat) : bool := bval I (a !!! i).
Definition uval (I : interp) (n : nat) (a : list expr) : Z := ubits (bit I a) n.
Definition sval (I : interp) (n : nat) (a : list expr) : Z := sbits (bit I a) n.

(** ** Reading arrays *)

Lemma lookup_total_ge (a : list expr) i : (length a <= i)%nat -> a !!! i = m.mk_false.
Proof. intros H. rewrite list_lookup_total_alt, lookup_ge_None_2 by done. done. Qed.

Lemma bits_lookup a i : bits a -> boolx (a !!! i).
Proof.
  intros H. destruct (decide (i < length a)%nat) as [Hi|Hi].
  - apply list_lookup_lookup_total_lt in Hi. by apply (Forall_lookup_1 _ _ _ _ H Hi).
  - by rewrite lookup_total_ge by lia.
Qed.

Lemma bits_nil : bits [].
Proof. constructor. Qed.

Lemma bits_app a b : bits a -> bits b -> bits (a ++ b).
Proof. intros. by apply Forall_app. Qed.

Lemma bits_snoc a e : bits a -> boolx e -> bits (a ++ [e]).
Proof. intros. apply bits_app; [done|]. by constructor. Qed.

Lemma bits_replicate n e : boolx e -> bits (replicate n e).
Proof. intros. by apply Forall_replicate. Qed.

Lemma bits_take n a : bits a -> bits (take n a).
Proof. apply Forall_take. Qed.

Lemma bits_drop n a : bits a -> bits (drop n a).
Proof. apply Forall_drop. Qed.

Lemma bits_insert i e a : bits a -> boolx e -> bits (<[i := e]> a).
Proof. intros. by apply Forall_insert. Qed.

Lemma bits_slice first n a : bits a -> bits (slice first n a).
Proof. intros H. apply Forall_map, Forall_true. intros i. by apply bits_lookup. Qed.

Create HintDb bits.
#[export] Hint Resolve bits_nil bits_lookup bits_app bits_snoc bits_replicate bits_take bits_drop
  bits_insert bits_slice boolx_true boolx_false : bits.

(** ** Entries of the arrays the code builds *)

Lemma bit_app_l I a b i : (i < length a)%nat -> bit I (a ++ b) i = bit I a i.
Proof. intros H. unfold bit. by rewrite lookup_total_app_l. Qed.

Lemma bit_app_r I a b i : (length a <= i)%nat -> bit I (a ++ b) i = bit I b (i - length a).
Proof. intros H. unfold bit. by rewrite lookup_total_app_r. Qed.

Lemma bit_snoc I a e : bit I (a ++ [e]) (length a) = bval I e.
Proof. rewrite bit_app_r by lia. by rewrite Nat.sub_diag. Qed.

Lemma bit_replicate I n e i : (i < n)%nat -> bit I (replicate n e) i = bval I e.
Proof. intros H. unfold bit. by rewrite lookup_total_replicate_2. Qed.

Lemma bit_false_replicate I n i : bit I (replicate n m.mk_false) i = false.
Proof.
  destruct (decide (i < n)%nat); [by rewrite bit_replicate|].
  unfold bit. rewrite lookup_total_ge; [done|]. rewrite length_replicate. lia.
Qed.

Lemma bit_drop I n a i : bit I (drop n a) i = bit I a (n + i).
Proof. unfold bit. by rewrite lookup_total_drop. Qed.

Lemma bit_take I n a i : (i < n)%nat -> bit I (take n a) i = bit I a i.
Proof. intros H. unfold bit. by rewrite lookup_total_take_lt. Qed.

Lemma bit_insert I i e a : (i < length a)%nat -> bit I (<[i := e]> a) i = bval I e.
Proof. intros H. unfold bit. by rewrite list_lookup_total_insert_eq. Qed.

Lemma bit_insert_ne I i j e a : i <> j -> bit I (<[i := e]> a) j = bit I a j.
Proof. intros H. unfold bit. by rewrite list_lookup_total_insert_ne. Qed.

Lemma length_slice first n a : length (slice first n a) = n.
Proof. unfold slice. by rewrite length_map, length_seq. Qed.

Lemma bit_slice I first n a i : (i < n)%nat -> bit I (slice first n a) i = bit I a (first + i).
Proof.
  intros H. unfold bit, slice. by rewrite lookup_total_map_seq.
Qed.

(** ** Values *)

Lemma uval_bounds I n a : 0 <= uval I n a < pow2 n.
Proof. apply ubits_bounds. Qed.

Lemma uval_ext I n a b : (forall i, (i < n)%nat -> bit I a i = bit I b i) -> uval I n a = uval I n b.
Proof. apply ubits_ext. Qed.

Lemma uval_S I n a : uval I (S n) a = uval I n a + pow2 n * Z.b2z (bit I a n).
Proof. reflexivity. Qed.

Lemma uval_0 I a : uval I 0 a = 0.
Proof. reflexivity. Qed.

Lemma uval_snoc I n a e : length a = n -> uval I (S n) (a ++ [e]) = uval I n a + pow2 n * Z.b2z (bval I e).
Proof.
  intros <-. rewrite uval_S, bit_snoc. f_equal. apply uval_ext. intros i Hi. by apply bit_app_l.
Qed.

Lemma uval_slice I n a : uval I n (slice 0 n a) = uval I n a.
Proof. apply uval_ext. intros i Hi. by rewrite bit_slice. Qed.

Lemma uval_false I n k : uval I n (replicate k m.mk_false) = 0.
Proof. apply ubits_false. intros. apply bit_false_replicate. Qed.

Lemma uval_drop I n k a : uval I n (drop k a) = ubits (fun i => bit I a (k + i)) n.
Proof. apply ubits_ext. intros. apply bit_drop. Qed.

(** ** What a circuit makes *)

(** [makes sz f out]: [out] has [sz] Boolean entries, the [i]-th of value
    [f I i]. *)
Definition makes (sz : nat) (f : interp -> nat -> bool) (out : list expr) : Prop :=
  length out = sz /\ bits out /\ forall I i, (i < sz)%nat -> bit I out i = f I i.

(** [makes_num sz z out]: the same by the unsigned value. *)
Definition makes_num (sz : nat) (z : interp -> Z) (out : list expr) : Prop :=
  length out = sz /\ bits out /\ forall I, uval I sz out = z I.

Lemma makes_makes_num sz f out : makes sz f out -> makes_num sz (fun I => ubits (f I) sz) out.
Proof. intros (L & B & V). split; [done|]. split; [done|]. intros I. apply ubits_ext. auto. Qed.

Lemma makes_num_ext sz z z' out :
  makes_num sz z out -> (forall I, z I = z' I) -> makes_num sz z' out.
Proof. intros (L & B & V) E. split; [done|]. split; [done|]. intros I. by rewrite V. Qed.

Lemma makes_ext sz f f' out :
  makes sz f out -> (forall I i, (i < sz)%nat -> f I i = f' I i) -> makes sz f' out.
Proof. intros (L & B & V) E. split; [done|]. split; [done|]. intros I i Hi. by rewrite V, E. Qed.

Lemma makes_slice sz first a :
  bits a -> makes sz (fun I i => bit I a (first + i)) (slice first sz a).
Proof.
  intros. split; [apply length_slice|]. split; [by apply bits_slice|].
  intros I i Hi. by rewrite bit_slice.
Qed.

Section Loops.
Context `{Env}.

Lemma spec_checkpoint : spec checkpoint (fun _ => True).
Proof.
  intros s. unfold checkpoint. destruct (Z.ltb_spec max_memory (alloc_size (m_ticks s))).
  - left. eauto.
  - destruct (canceled (m_ticks s)) eqn:E; [|done]. right. eauto.
Qed.

(** Pushing one gate per index. *)
Lemma push_loop_makes sz (gate : nat -> M expr) f :
  (forall i, (i < sz)%nat -> computes (gate i) (fun I => f I i)) ->
  spec (push_loop sz gate) (makes sz f).
Proof.
  intros Hg. unfold push_loop.
  apply (spec_for (fun n out => makes n f out)); [lia| |].
  { split; [done|]. split; [apply bits_nil|]. intros I i Hi. lia. }
  intros n out Hn (L & B & V). eapply spec_bind; [by apply Hg; lia|].
  intros t [Bt Vt]. apply spec_ret. split; [rewrite length_app; simpl; lia|].
  split; [by apply bits_snoc|]. intros I i Hi. destruct (decide (i = n)) as [->|].
  - rewrite <- L at 1. by rewrite bit_snoc.
  - rewrite bit_app_l by lia. apply V. lia.
Qed.

End Loops.

(** ** Constants *)

Lemma is_bool_const_bval e :
  is_bool_const e = true -> forall I, bval I e = m.is_true e.
Proof.
  unfold is_bool_const. intros [H|H]%orb_true_iff; recog; done.
Qed.

Lemma is_numeral_loop_spec n i a r k :
  is_numeral_loop n i a r = Some k ->
  (forall j, (i <= j < i + n)%nat -> is_bool_const (a !!! j) = true)
  /\ forall I, k = r + pow2 i * ubits (fun j => bit I a (i + j)) n.
Proof.
  revert i r. induction n as [|n IH]; intros i r; cbn [is_numeral_loop].
  { intros [= <-]. split; [intros; lia|]. intros I. simpl. lia. }
  intros E.
  assert (Hs : exists b : bool, is_bool_const (a !!! i) = true /\ (forall I, bit I a i = b)
    /\ is_numeral_loop n (S i) a (r + pow2 i * Z.b2z b) = Some k).
  { unfold is_bool_const, bit. destruct (m.is_true (a !!! i)) eqn:Et.
    - apply is_true_spec in Et. exists true. rewrite Et. rewrite Z.mul_1_r. auto.
    - destruct (m.is_false (a !!! i)) eqn:Ef; [|discriminate].
      apply is_false_spec in Ef. exists false. rewrite Ef. rewrite Z.mul_0_r, Z.add_0_r. auto. }
  destruct Hs as (b & Hc & Hb & E'). destruct (IH _ _ E') as [Hall Hv]. split.
  - intros j Hj. destruct (decide (j = i)) as [->|]; [done|]. apply Hall. lia.
  - intros I. rewrite (Hv I). rewrite ubits_low, Nat.add_0_r, Hb, pow2_S.
    rewrite (ubits_ext (fun j => bit I a (i + S j)) (fun j => bit I a (S i + j)))
      by (intros; f_equal; lia). lia.
Qed.

(** A numeral is a constant array, of that value under every interpretation. *)
Lemma is_numeral_bits_spec sz a k :
  is_numeral_bits sz a = Some k ->
  (forall i, (i < sz)%nat -> is_bool_const (a !!! i) = true) /\ forall I, uval I sz a = k.
Proof.
  intros [Hc Hv]%is_numeral_loop_spec. split; [intros; apply Hc; lia|].
  intros I. rewrite (Hv I), pow2_0, Z.mul_1_l, Z.add_0_l. reflexivity.
Qed.

Lemma is_minus_one_spec sz a :
  is_minus_one sz a = true -> forall I, uval I sz a = pow2 sz - 1.
Proof.
  unfold is_minus_one. rewrite forallb_forall. intros Hm I. apply ubits_true. intros i Hi.
  unfold bit. rewrite (proj1 (is_true_spec _) (Hm i ltac:(apply in_seq; lia))). done.
Qed.

(** ** [num2bits] *)

Definition const_bit (b : bool) : expr := if b then m.mk_true else m.mk_false.

Lemma const_bit_boolx b : boolx (const_bit b).
Proof. by destruct b. Qed.

Lemma const_bit_bval I b : bval I (const_bit b) = b.
Proof. by destruct b. Qed.

Lemma chunk_bits_eq u : chunk_bits u = map (fun j => const_bit (Z.testbit u (Z.of_nat j))) (seq 0 32).
Proof.
  unfold chunk_bits. apply map_ext. intros j.
  assert (E : negb (Z.land u (Z.shiftl 1 (Z.of_nat j)) =? 0) = Z.testbit u (Z.of_nat j)); [|by rewrite E].
  rewrite Z.shiftl_1_l. destruct (Z.testbit u (Z.of_nat j)) eqn:E.
  - apply negb_true_iff, Z.eqb_neq. intros H.
    assert (C : Z.testbit (Z.land u (2 ^ Z.of_nat j)) (Z.of_nat j) = false) by (rewrite H; apply Z.testbit_0_l).
    rewrite Z.land_spec, E, Z.pow2_bits_true in C by lia. done.
  - apply negb_false_iff, Z.eqb_eq. apply Z.bits_inj'. intros k Hk.
    rewrite Z.land_spec, Z.testbit_0_l. destruct (Z.eq_dec k (Z.of_nat j)) as [->|Hne].
    + by rewrite E.
    + rewrite Z.pow2_bits_false by lia. apply andb_false_r.
Qed.

(** The bits of [v] at positions [i], ..., [i + n - 1], as constants. *)
Definition const_bits (v : Z) (i n : nat) : list expr :=
  map (fun j => const_bit (Z.testbit v (Z.of_nat j))) (seq i n).

Lemma const_bits_app v i n k : const_bits v i (n + k) = const_bits v i n ++ const_bits v (i + n) k.
Proof. unfold const_bits. by rewrite seq_app, map_app. Qed.

Lemma const_bits_shift v i n : 0 <= v ->
  const_bits v i n = map (fun j => const_bit (Z.testbit (v / pow2 i) (Z.of_nat j))) (seq 0 n).
Proof.
  intros Hv. unfold const_bits. rewrite map_seq_shift. apply map_ext. intros j.
  unfold pow2. rewrite Z.div_pow2_bits by lia. do 2 f_equal. lia.
Qed.

Lemma num2bits_loop_spec fuel i sz v out : 0 <= v ->
  (i <= sz)%nat -> (sz - i < fuel)%nat ->
  num2bits_loop fuel i sz (v / pow2 i) out = out ++ const_bits v i (sz - i).
Proof.
  revert i out. induction fuel as [|n IH]; intros i out Hv Hi Hf; [lia|]. simpl.
  destruct (Nat.ltb_spec i sz) as [Hlt|Hge].
  - destruct (Nat.ltb_spec (i + 32) sz).
    + change (2 ^ 32) with (pow2 32). rewrite Z.div_div by (pose proof (pow2_pos i); pose proof (pow2_pos 32); lia).
      rewrite <- pow2_add. rewrite IH by lia. rewrite <- app_assoc. f_equal.
      replace (sz - i)%nat with (32 + (sz - (i + 32)))%nat by lia. rewrite const_bits_app. f_equal.
      rewrite const_bits_shift, chunk_bits_eq by done. apply map_ext_in. intros j Hj.
      apply in_seq in Hj. unfold pow2 at 2. by rewrite Z.mod_pow2_bits_low by lia.
    + change 2 with (pow2 1). rewrite Z.div_div by (pose proof (pow2_pos i); pose proof (pow2_pos 1); lia).
      rewrite <- pow2_add. replace (i + 1)%nat with (S i) by lia. rewrite IH by lia.
      rewrite <- app_assoc. f_equal. replace (sz - i)%nat with (S (sz - S i)) by lia.
      unfold const_bits at 2. simpl. f_equal. unfold const_bit.
      change (pow2 1) with 2. unfold pow2. rewrite <- Z.shiftr_div_pow2 by lia.
      rewrite <- Z.bit0_mod, Z.shiftr_spec by lia. rewrite Z.add_0_l.
      by destruct (Z.testbit v (Z.of_nat i)).
  - replace (sz - i)%nat with 0%nat by lia. by rewrite app_nil_r.
Qed.

Lemma num2bits_eq v sz : 0 <= v -> num2bits v sz = const_bits v 0 sz.
Proof.
  intros Hv. unfold num2bits. pose proof (num2bits_loop_spec (S sz) 0 sz v [] Hv) as E.
  rewrite pow2_0, Z.div_1_r in E. rewrite E by lia. by rewrite Nat.sub_0_r.
Qed.

Lemma const_bits_makes v sz : makes sz (fun _ i => Z.testbit v (Z.of_nat i)) (const_bits v 0 sz).
Proof.
  unfold const_bits. split; [by rewrite length_map, length_seq|]. split.
  - apply Forall_map, Forall_true. intros. apply const_bit_boolx.
  - intros I i Hi. unfold bit. rewrite lookup_total_map_seq by done. apply const_bit_bval.
Qed.

(** [num2bits] writes the low [sz] bits of a natural number. *)
Lemma num2bits_makes v sz : 0 <= v -> makes_num sz (fun _ => v mod pow2 sz) (num2bits v sz).
Proof.
  intros Hv. rewrite num2bits_eq by done. eapply makes_num_ext; [apply makes_makes_num, const_bits_makes|].
  intros I. apply ubits_of_Z.
Qed.

Lemma is_numeral_const_bits v i n r :
  is_numeral_loop n i (const_bits v 0 (i + n)) r
  = Some (r + pow2 i * ubits (fun j => Z.testbit v (Z.of_nat (i + j))) n).
Proof.
  revert i r. induction n as [|n IH]; intros i r; cbn [is_numeral_loop]; [simpl; f_equal; lia|].
  assert (E : const_bits v 0 (i + S n) !!! i = const_bit (Z.testbit v (Z.of_nat i)))
    by (unfold const_bits; by rewrite lookup_total_map_seq by lia).
  rewrite E. replace (i + S n)%nat with (S i + n)%nat by lia.
  rewrite ubits_low, Nat.add_0_r.
  rewrite (ubits_ext (fun j => Z.testbit v (Z.of_nat (i + S j))) (fun j => Z.testbit v (Z.of_nat (S i + j))))
    by (intros j _; by replace (i + S j)%nat with (S i + j)%nat by lia).
  destruct (Z.testbit v (Z.of_nat i)); simpl; rewrite IH, pow2_S; f_equal; simpl; lia.
Qed.

Lemma num2bits_numeral v sz : 0 <= v ->
  length (num2bits v sz) = sz /\ is_numeral_bits sz (num2bits v sz) = Some (v mod pow2 sz).
Proof.
  intros Hv. split; [by apply num2bits_makes|]. unfold is_numeral_bits. rewrite num2bits_eq by done.
  pose proof (is_numeral_const_bits v 0 sz 0) as E. rewrite Nat.add_0_l in E. rewrite E. by rewrite pow2_0, Z.mul_1_l, Z.add_0_l, ubits_of_Z.
Qed.
