(* ===== verification/BlastAdd.v ===== *)
(** * BlastAdd: adders, comparisons and bitwise circuits

    Each circuit of [Blast] without multiplication, division or shifts is
    proved to compute its operator on the unsigned or signed values of its
    inputs, against the gate interface. *)
From Stdlib Require Import ZArith Lia.
From stdpp Require Import base list.
From S2P Require Import Prelude Bits UBits Ast AstFacts TermFacts Gates Blast BlastFacts.

Local Open Scope Z_scope.

(** Build one gate: bind it and name its result, its sort and its value. *)
Ltac gate L t B V :=
  eapply spec_bind; [apply L; auto with bits | intros t [B V]; cbv beta in V].

Lemma full_add (a b c : bool) :
  Z.b2z (xorb (xorb a b) c) + 2 * Z.b2z (maj a b c) = Z.b2z a + Z.b2z b + Z.b2z c.
Proof. destruct a, b, c; reflexivity. Qed.

Lemma half_add (a b : bool) : Z.b2z (xorb a b) + 2 * Z.b2z (a && b) = Z.b2z a + Z.b2z b.
Proof. destruct a, b; reflexivity. Qed.

Lemma b2z_negb_bool b : Z.b2z (negb b) = 1 - Z.b2z b.
Proof. by destruct b. Qed.

(** The low [n] bits of a sum, and its carry. *)
Lemma carry_mod n r c s : 0 <= r < pow2 n -> r + pow2 n * c = s -> r = s mod pow2 n.
Proof.
  intros Hr <-. rewrite Z.mul_comm, Z.mod_add by (pose proof (pow2_pos n); lia).
  symmetry. by apply Z.mod_small.
Qed.

Section Adders.
Context `{Env} (G : Gates) {OK : GatesOk G}.

(** The two results of an adder cell. *)
Definition cell (c : M (expr * expr)) (s k : interp -> bool) : Prop :=
  spec c (fun r => same_bool r.1 s /\ same_bool r.2 k).

Lemma mk_half_adder_ok a b : boolx a -> boolx b ->
  cell (mk_half_adder a b) (fun I => xorb (bval I a) (bval I b)) (fun I => bval I a && bval I b).
Proof.
  intros Ba Bb. unfold cell, mk_half_adder. gate mk_xor_computes t Bt Vt.
  gate (mk_and2_computes G) k Bk Vk. by apply spec_ret.
Qed.

Lemma mk_full_adder_ok a b c : boolx a -> boolx b -> boolx c ->
  cell (mk_full_adder a b c) (fun I => xorb (xorb (bval I a) (bval I b)) (bval I c))
    (fun I => maj (bval I a) (bval I b) (bval I c)).
Proof.
  intros Ba Bb Bc. unfold cell, mk_full_adder. gate mk_xor3_computes t Bt Vt.
  gate mk_carry_computes k Bk Vk. by apply spec_ret.
Qed.

(** ** Ripple-carry chains

    The invariant of the three carry chains: [n] bits are out, and the carry
    completes them to [s I n]; the last cell of [mk_neg] and [mk_adder] leaves
    the carry stale. *)
Definition chain (s : interp -> nat -> Z) (sz n : nat) (x : list expr * expr) : Prop :=
  let '(out, cin) := x in
  length out = n /\ bits out /\ boolx cin
  /\ (forall I, uval I n out = s I n mod pow2 n)
  /\ ((n < sz)%nat -> forall I, uval I n out + pow2 n * Z.b2z (bval I cin) = s I n).

Lemma chain_start s sz cin :
  boolx cin -> (forall I, s I 0%nat = Z.b2z (bval I cin)) -> chain s sz 0 ([], cin).
Proof.
  intros B E. split; [done|]. split; [apply bits_nil|]. split; [done|].
  split; [intros I; by rewrite pow2_0, Z.mod_1_r|]. intros _ I. rewrite E, pow2_0, uval_0. lia.
Qed.

(** Adding a cell whose sum bit and carry count [d]. *)
Lemma chain_cell s sz n out cin t cout (d : interp -> Z) :
  chain s sz n (out, cin) -> (n < sz)%nat -> boolx t -> boolx cout ->
  (forall I, s I (S n) = s I n + pow2 n * d I) ->
  (forall I, exists k, Z.b2z (bval I t) + 2 * k = Z.b2z (bval I cin) + d I
     /\ ((S n < sz)%nat -> k = Z.b2z (bval I cout))) ->
  chain s sz (S n) (out ++ [t], cout).
Proof.
  intros (L & B & Bc & _ & V) Hn Bt Bo Hs Hk. specialize (V Hn).
  assert (E : forall I, exists k, uval I (S n) (out ++ [t]) + pow2 (S n) * k = s I (S n)
            /\ ((S n < sz)%nat -> k = Z.b2z (bval I cout))).
  { intros I. destruct (Hk I) as (k & E & Ek). exists k. split; [|done].
    rewrite uval_snoc by done. rewrite Hs, <- (V I), pow2_S. nia. }
  split; [rewrite length_app; simpl; lia|]. split; [by apply bits_snoc|]. split; [done|]. split.
  - intros I. destruct (E I) as (k & E' & _). eapply carry_mod; [apply uval_bounds|exact E'].
  - intros Hlt I. destruct (E I) as (k & E' & Ek). by rewrite <- (Ek Hlt).
Qed.

Lemma mk_neg_ok sz a : bits a ->
  spec (mk_neg sz a) (makes_num sz (fun I => bv_neg sz (uval I sz a))).
Proof.
  intros Ba. unfold mk_neg.
  eapply (spec_bind _ _ (chain (fun I n => pow2 n - uval I n a) sz sz)).
  { apply (spec_for (chain (fun I n => pow2 n - uval I n a) sz)); [lia| |].
    { by apply chain_start. }
    intros n [out cin] Hn Hc. pose proof Hc as (_ & _ & Bc & _).
    gate mk_not_computes na Bna Vna.
    assert (Hs : forall I, pow2 (S n) - uval I (S n) a
              = pow2 n - uval I n a + pow2 n * (1 - Z.b2z (bit I a n)))
      by (intros I; rewrite pow2_S, uval_S; lia).
    destruct (Nat.ltb_spec n (sz - 1)).
    - eapply spec_bind; [by apply mk_half_adder_ok|]. intros [t k] [[Bt Vt] [Bk Vk]]. simpl in *.
      apply spec_ret. apply (chain_cell _ _ _ _ _ _ _ _ Hc ltac:(lia) Bt Bk Hs).
      intros I. exists (Z.b2z (bval I k)). split; [|done].
      rewrite Vt, Vk, half_add, Vna, b2z_negb_bool. unfold bit. lia.
    - gate mk_xor_computes t Bt Vt. apply spec_ret.
      apply (chain_cell _ _ _ _ _ _ _ _ Hc ltac:(lia) Bt Bc Hs).
      intros I. exists (Z.b2z (bval I na && bval I cin)). split; [|lia].
      rewrite Vt, half_add, Vna, b2z_negb_bool. unfold bit. lia. }
  intros [out cin] (L & B & _ & V & _). apply spec_ret. split; [done|]. split; [done|].
  intros I. rewrite V. unfold bv_neg. rewrite <- (Z.mod_add _ (-1)) by (pose proof (pow2_pos sz); lia).
  f_equal. lia.
Qed.

Lemma mk_adder_ok sz a b : bits a -> bits b ->
  spec (mk_adder sz a b) (makes_num sz (fun I => bv_add sz (uval I sz a) (uval I sz b))).
Proof.
  intros Ba Bb. unfold mk_adder.
  eapply (spec_bind _ _ (chain (fun I n => uval I n a + uval I n b) sz sz)).
  { apply (spec_for (chain (fun I n => uval I n a + uval I n b) sz)); [lia| |].
    { by apply chain_start. }
    intros n [out cin] Hn Hc. pose proof Hc as (_ & _ & Bc & _).
    assert (Hs : forall I, uval I (S n) a + uval I (S n) b
              = uval I n a + uval I n b + pow2 n * (Z.b2z (bit I a n) + Z.b2z (bit I b n)))
      by (intros I; rewrite !uval_S; lia).
    destruct (Nat.ltb_spec n (sz - 1)).
    - eapply spec_bind; [apply mk_full_adder_ok; auto with bits|].
      intros [t k] [[Bt Vt] [Bk Vk]]. simpl in *.
      apply spec_ret. apply (chain_cell _ _ _ _ _ _ _ _ Hc ltac:(lia) Bt Bk Hs).
      intros I. exists (Z.b2z (bval I k)). split; [|done].
      rewrite Vt, Vk, full_add. unfold bit. lia.
    - gate mk_xor3_computes t Bt Vt. apply spec_ret.
      apply (chain_cell _ _ _ _ _ _ _ _ Hc ltac:(lia) Bt Bc Hs).
      intros I. exists (Z.b2z (maj (bit I a n) (bit I b n) (bval I cin))). split; [|lia].
      rewrite Vt. unfold bit. rewrite full_add. lia. }
  intros [out cin] (L & B & _ & V & _). by apply spec_ret.
Qed.

(** The difference, and the carry that tells whether it is not negative. *)
Lemma mk_subtracter_ok sz a b : bits a -> bits b ->
  spec (mk_subtracter sz a b) (fun r =>
    makes_num sz (fun I => bv_sub sz (uval I sz a) (uval I sz b)) r.1
    /\ same_bool r.2 (fun I => uval I sz b <=? uval I sz a)).
Proof.
  intros Ba Bb. unfold mk_subtracter.
  eapply spec_mono.
  { apply (spec_for (chain (fun I n => uval I n a + (pow2 n - uval I n b)) (S sz))); [lia| |].
    { by apply chain_start. }
    intros n [out cin] Hn Hc. pose proof Hc as (_ & _ & Bc & _).
    gate mk_not_computes nb Bnb Vnb.
    eapply spec_bind; [apply mk_full_adder_ok; auto with bits|].
    intros [t k] [[Bt Vt] [Bk Vk]]. simpl in *. apply spec_ret.
    eapply (chain_cell _ _ _ _ _ _ _ (fun I => Z.b2z (bit I a n) + (1 - Z.b2z (bit I b n))));
      [exact Hc|lia|done|done| |].
    - intros I. rewrite !uval_S, pow2_S. lia.
    - intros I. exists (Z.b2z (bval I k)). split; [|done].
      rewrite Vt, Vk, full_add, Vnb, b2z_negb_bool. unfold bit. lia. }
  intros [out k] (L & B & Bk & V & C). simpl. specialize (C ltac:(lia)). split.
  - split; [done|]. split; [done|]. intros I. rewrite V. unfold bv_sub.
    rewrite <- (Z.mod_add (_ - _) 1) by (pose proof (pow2_pos sz); lia). f_equal. lia.
  - split; [done|]. intros I. specialize (C I). pose proof (uval_bounds I sz out).
    pose proof (uval_bounds I sz a). pose proof (uval_bounds I sz b).
    destruct (bval I k); simpl in C; symmetry; [apply Z.leb_le|apply Z.leb_gt]; lia.
Qed.

(** ** Carry-save addition *)

Lemma mk_carry_save_adder_ok sz a b c : bits a -> bits b -> bits c ->
  spec (mk_carry_save_adder sz a b c [] [m.mk_false]) (fun r =>
    length r.1 = sz /\ length r.2 = S sz /\ bits r.1 /\ bits r.2
    /\ forall I, uval I sz r.1 + uval I (S sz) r.2 = uval I sz a + uval I sz b + uval I sz c).
Proof.
  intros Ba Bb Bc. unfold mk_carry_save_adder.
  eapply spec_mono.
  { apply (spec_for (fun n x => length x.1 = n /\ length x.2 = S n /\ bits x.1 /\ bits x.2
      /\ forall I, uval I n x.1 + uval I (S n) x.2 = uval I n a + uval I n b + uval I n c)); [lia| |].
    { simpl. do 2 (split; [done|]). split; [apply bits_nil|]. split; [by apply (bits_replicate 1)|].
      intros I. rewrite uval_S, !uval_0. unfold bit. simpl. lia. }
    intros n [s k] Hn (L1 & L2 & B1 & B2 & V). simpl in *.
    gate mk_xor3_computes t Bt Vt. gate mk_carry_computes u Bu Vu. apply spec_ret. simpl.
    rewrite !length_app. simpl. split; [lia|]. split; [lia|]. split; [by apply bits_snoc|].
    split; [by apply bits_snoc|]. intros I.
    rewrite uval_snoc by done. rewrite (uval_snoc I (S n)) by done. rewrite Vt, Vu.
    specialize (V I). rewrite !(uval_S I n a), !(uval_S I n b), !(uval_S I n c), pow2_S.
    pose proof (full_add (bval I (a !!! n)) (bval I (b !!! n)) (bval I (c !!! n))). unfold bit. nia. }
  done.
Qed.

(** ** Bitwise circuits *)

Lemma mk_not_v_ok sz a : bits a ->
  spec (mk_not_v sz a) (makes sz (fun I i => negb (bit I a i))).
Proof. intros Ba. apply push_loop_makes. intros i Hi. apply mk_not_computes. by apply bits_lookup. Qed.

Lemma mk_binary_ok OP (f : bool -> bool -> bool) sz a b :
  (forall x y, boolx x -> boolx y -> computes (OP x y) (fun I => f (bval I x) (bval I y))) ->
  bits a -> bits b ->
  spec (mk_binary OP sz a b) (makes sz (fun I i => f (bit I a i) (bit I b i))).
Proof. intros HO Ba Bb. apply push_loop_makes. intros i Hi. apply HO; by apply bits_lookup. Qed.

Lemma mk_multiplexer_ok c sz t e : boolx c -> bits t -> bits e ->
  spec (mk_multiplexer c sz t e) (makes sz (fun I i => if bval I c then bit I t i else bit I e i)).
Proof. intros Bc Bt Be. apply push_loop_makes. intros i Hi. apply mk_ite_computes; auto with bits. Qed.

Lemma mk_multiplexer_num c sz t e : boolx c -> bits t -> bits e ->
  spec (mk_multiplexer c sz t e)
    (makes_num sz (fun I => if bval I c then uval I sz t else uval I sz e)).
Proof.
  intros Bc Bt Be. eapply spec_mono; [by apply mk_multiplexer_ok|]. intros out Ho.
  eapply makes_num_ext; [by apply makes_makes_num|]. intros I. cbv beta.
  destruct (bval I c); done.
Qed.

Lemma uval_shape I sz out z : makes_num sz z out -> uval I sz out = z I.
Proof. intros (_ & _ & V). apply V. Qed.

(** ** Equality *)

Lemma eqb_ubits f g sz : (ubits f sz =? ubits g sz) = forallb (fun i => eqb (f i) (g i)) (seq 0 sz).
Proof.
  apply eq_true_iff_eq. rewrite Z.eqb_eq, forallb_forall. split.
  - intros E i Hi%in_seq. rewrite (ubits_inj _ _ _ E i) by lia. apply eqb_reflx.
  - intros E. apply ubits_ext. intros i Hi. apply eqb_prop, E, in_seq. lia.
Qed.

Lemma forallb_map_seq {A} (f : A -> bool) (g : nat -> A) n :
  forallb f (map g (seq 0 n)) = forallb (fun i => f (g i)) (seq 0 n).
Proof. generalize 0%nat. induction n as [|n IH]; intros k; simpl; [done|]. by rewrite IH. Qed.

Lemma existsb_map_seq {A} (f : A -> bool) (g : nat -> A) n :
  existsb f (map g (seq 0 n)) = existsb (fun i => f (g i)) (seq 0 n).
Proof. generalize 0%nat. induction n as [|n IH]; intros k; simpl; [done|]. by rewrite IH. Qed.

Lemma list_as_seq (out : list expr) : out = map (fun i => out !!! i) (seq 0 (length out)).
Proof.
  apply list_eq_same_length with (length out); [by rewrite length_map, length_seq|done|].
  intros i x y Hi Hx Hy. change (map (fun i => out !!! i) (seq 0 (length out)))
    with ((fun i => out !!! i) <$> seq 0 (length out)) in Hy.
  rewrite list_lookup_fmap, lookup_seq_lt in Hy by done. injection Hy as <-.
  symmetry. by apply list_lookup_total_correct.
Qed.

(** All (some) of the bits of a made array. *)
Lemma forallb_makes I sz f out : makes sz f out -> forallb (bval I) out = forallb (f I) (seq 0 sz).
Proof.
  intros (L & _ & V). rewrite (list_as_seq out), L, forallb_map_seq.
  apply eq_true_iff_eq. rewrite !forallb_forall.
  split; intros Hf i Hi; specialize (Hf i Hi); apply in_seq in Hi; specialize (V I i ltac:(lia));
    unfold bit in V; congruence.
Qed.

Lemma existsb_makes I sz f out : makes sz f out -> existsb (bval I) out = existsb (f I) (seq 0 sz).
Proof.
  intros (L & _ & V). rewrite (list_as_seq out), L, existsb_map_seq.
  apply eq_true_iff_eq. rewrite !existsb_exists.
  split; intros (i & Hi & Hf); exists i; (split; [done|]); apply in_seq in Hi;
    specialize (V I i ltac:(lia)); unfold bit in V; congruence.
Qed.

Lemma mk_eq_v_ok sz a b : bits a -> bits b ->
  computes (mk_eq_v sz a b) (fun I => uval I sz a =? uval I sz b).
Proof.
  intros Ba Bb. unfold mk_eq_v.
  eapply spec_bind; [apply (push_loop_makes sz _ (fun I i => eqb (bit I a i) (bit I b i)))|].
  { intros i Hi. apply mk_iff_computes; by apply bits_lookup. }
  intros out Ho. eapply computes_ext; [apply mk_and_computes, Ho|].
  intros I. cbv beta. rewrite (forallb_makes I sz _ _ Ho). symmetry. apply eqb_ubits.
Qed.

Lemma mk_comp_ok sz a b : bits a -> bits b ->
  spec (mk_comp sz a b) (makes_num 1 (fun I => Z.b2z (uval I sz a =? uval I sz b))).
Proof.
  intros Ba Bb. unfold mk_comp. eapply spec_bind; [by apply mk_eq_v_ok|]. intros t [Bt Vt].
  apply spec_ret. split; [done|]. split; [by apply (bits_snoc []); [apply bits_nil|]|].
  intros I. rewrite uval_S, uval_0, pow2_0. unfold bit. simpl. rewrite Vt. destruct (_ =? _); done.
Qed.

(** The bits of a number, by repeated halving. *)
Lemma mk_is_eq_ok sz a n : bits a ->
  computes (mk_is_eq sz a n) (fun I => uval I sz a =? Z.of_nat n mod pow2 sz).
Proof.
  intros Ba. unfold mk_is_eq.
  eapply (spec_bind _ _ (fun x => makes sz (fun I i => eqb (bit I a i) (Z.testbit (Z.of_nat n) (Z.of_nat i))) x.1)).
  { eapply spec_mono.
    - apply (spec_for (fun k x => Z.of_nat x.2 = Z.of_nat n / pow2 k
        /\ makes k (fun I i => eqb (bit I a i) (Z.testbit (Z.of_nat n) (Z.of_nat i))) x.1)); [lia| |].
      { split; [simpl; by rewrite pow2_0, Z.div_1_r|]. split; [done|]. split; [apply bits_nil|].
        intros I i Hi. lia. }
      intros k [out r] Hk (Hr & L & B & V). cbn [fst snd] in *.
      assert (Hbit : (r mod 2 =? 0)%nat = negb (Z.testbit (Z.of_nat n) (Z.of_nat k))).
      { apply eq_true_iff_eq. rewrite Nat.eqb_eq, negb_true_iff.
        pose proof (Z.testbit_spec' (Z.of_nat n) (Z.of_nat k) ltac:(lia)) as Ht.
        change (2 ^ Z.of_nat k) with (pow2 k) in Ht. rewrite <- Hr in Ht.
        change 2 with (Z.of_nat 2) in Ht. rewrite <- Nat2Z.inj_mod in Ht.
        destruct (Z.testbit _ _); cbn [Z.b2z] in Ht; split; intros; first [done | lia | exfalso; lia]. }
      assert (Hr' : Z.of_nat (r / 2) = Z.of_nat n / pow2 (S k)).
      { rewrite Nat2Z.inj_div, Hr, pow2_S, Z.mul_comm.
        pose proof (pow2_pos k). rewrite <- Z.div_div by lia. done. }
      assert (Hpush : forall e, boolx e ->
        (forall I, bval I e = eqb (bit I a k) (Z.testbit (Z.of_nat n) (Z.of_nat k))) ->
        spec (mret (out ++ [e], (r / 2)%nat)) (fun x => Z.of_nat x.2 = Z.of_nat n / pow2 (S k)
          /\ makes (S k) (fun I i => eqb (bit I a i) (Z.testbit (Z.of_nat n) (Z.of_nat i))) x.1)).
      { intros e Be Ve. apply spec_ret. cbn [fst snd]. split; [done|]. split; [rewrite length_app; cbn [length]; lia|].
        split; [by apply bits_snoc|]. intros I i Hi. destruct (decide (i = k)) as [->|].
        - rewrite <- L at 1. by rewrite bit_snoc.
        - rewrite bit_app_l by lia. apply V. lia. }
      rewrite Hbit. destruct (Z.testbit (Z.of_nat n) (Z.of_nat k)) eqn:Et; cbn [negb].
      + apply Hpush; [by apply bits_lookup|]. intros I. unfold bit. by destruct (bval I _).
      + gate mk_not_computes na Bna Vna. apply Hpush; [done|]. intros I. rewrite Vna. unfold bit.
        by destruct (bval I _).
    - intros x [_ Hx]. exact Hx. }
  intros [out r] Ho. simpl in Ho. eapply computes_ext; [apply mk_and_computes, Ho|].
  intros I. cbv beta. rewrite (forallb_makes I sz _ _ Ho), <- ubits_of_Z. symmetry. apply eqb_ubits.
Qed.

Lemma mk_eqs_ok sz a : bits a ->
  spec (mk_eqs sz a) (makes sz (fun I i => uval I sz a =? Z.of_nat i)).
Proof.
  intros Ba. apply push_loop_makes. intros i Hi. eapply computes_ext; [by apply mk_is_eq_ok|].
  intros I. cbv beta. rewrite Z.mod_small; [done|]. pose proof (pow2_gt_id i).
  pose proof (pow2_le_mono i sz). lia.
Qed.

(** ** Order *)

(** One step of the comparison, from the least significant bit up. *)
Lemma le_step (x y o : bool) :
  negb x && y || negb x && o || y && o = (if eqb x y then o else y).
Proof. by destruct x, y, o. Qed.

Lemma ubits_le_step f g n :
  (ubits f (S n) <=? ubits g (S n)) = if eqb (f n) (g n) then ubits f n <=? ubits g n else g n.
Proof.
  simpl. pose proof (ubits_bounds f n). pose proof (ubits_bounds g n).
  destruct (f n), (g n); simpl; apply eq_true_iff_eq; rewrite !Z.leb_le; (split; intros; lia || done).
Qed.

Lemma le_gate_ok x y out : boolx x -> boolx y -> boolx out ->
  computes (le_gate x y out)
    (fun I => if eqb (bval I x) (bval I y) then bval I out else bval I y).
Proof.
  intros Bx By Bo. unfold le_gate. gate mk_not_computes nx Bn Vn.
  gate (mk_and2_computes G) i1 B1 V1. gate (mk_and2_computes G) i2 B2 V2.
  gate (mk_and2_computes G) i3 B3 V3.
  eapply computes_ext; [by apply (mk_or3_computes G)|]. intros I. cbv beta.
  rewrite V1, V2, V3, Vn. apply le_step.
Qed.

(** The unsigned comparison of the [n] low bits. *)
Definition le_low (a b : list expr) (n : nat) (out : expr) : Prop :=
  same_bool out (fun I => uval I n a <=? uval I n b).

Lemma le_low_step n a b out : bits a -> bits b -> le_low a b n out ->
  spec (le_gate (a !!! n) (b !!! n) out) (le_low a b (S n)).
Proof.
  intros Ba Bb [Bo Vo]. eapply computes_ext; [apply le_gate_ok; auto with bits|].
  intros I. cbv beta. unfold uval. rewrite ubits_le_step, Vo. done.
Qed.

(** The loop both comparisons share. *)
Lemma le_low_loop k a b out : bits a -> bits b -> (1 <= k)%nat -> le_low a b 1 out ->
  spec (for_range 1 k (fun idx out => le_gate (a !!! idx) (b !!! idx) out) out) (le_low a b k).
Proof.
  intros Ba Bb Hk Ho. apply (spec_for (le_low a b)); [done|done|].
  intros n o Hn Hl. by apply le_low_step.
Qed.

Lemma le_low_first a b na out : bits a -> bits b ->
  (forall I, bval I na = negb (bval I (a !!! 0%nat))) ->
  same_bool out (fun I => bval I na || bval I (b !!! 0%nat)) -> le_low a b 1 out.
Proof.
  intros Ba Bb Vn [Bo Vo]. split; [done|]. intros I. rewrite Vo, Vn. unfold uval.
  rewrite ubits_le_step. unfold bit. simpl. by destruct (bval I _), (bval I _).
Qed.

Lemma mk_ule_ok sz a b : (0 < sz)%nat -> bits a -> bits b ->
  computes (mk_ule sz a b) (fun I => bv_ule (uval I sz a) (uval I sz b)).
Proof.
  intros Hsz Ba Bb. unfold mk_ule, mk_le. gate mk_not_computes na Bn Vn.
  eapply spec_bind; [apply (mk_or2_computes G); auto with bits|]. intros out Ho.
  eapply spec_bind; [by apply le_low_loop; [..|eapply le_low_first]|].
  intros r Hr. by apply spec_ret.
Qed.

(** The sign bits decide, or the other bits do. *)
Lemma sbits_le f g n : (0 < n)%nat ->
  (sbits f n <=? sbits g n)
  = if eqb (g (n - 1)%nat) (f (n - 1)%nat) then ubits f (n - 1) <=? ubits g (n - 1) else f (n - 1)%nat.
Proof.
  intros Hn. rewrite !sbits_msb by done.
  pose proof (ubits_bounds f (n - 1)). pose proof (ubits_bounds g (n - 1)).
  destruct (f (n - 1)%nat), (g (n - 1)%nat); simpl; apply eq_true_iff_eq; rewrite !Z.leb_le;
    (split; intros; lia || done).
Qed.

Lemma mk_sle_ok sz a b : (0 < sz)%nat -> bits a -> bits b ->
  computes (mk_sle sz a b) (fun I => bv_sle sz (uval I sz a) (uval I sz b)).
Proof.
  intros Hsz Ba Bb. unfold mk_sle, mk_le. gate mk_not_computes na Bn Vn.
  eapply spec_bind; [apply (mk_or2_computes G); auto with bits|]. intros out Ho.
  apply (le_low_first a b na out Ba Bb) in Ho; [|exact Vn].
  apply spec_bind with (P := le_low a b (1 `max` (sz - 1))).
  { destruct (decide (sz = 1)%nat) as [->|]; [by apply spec_ret|].
    rewrite Nat.max_r by lia. apply le_low_loop; [done|done|lia|done]. }
  intros o [Bo Vo]. eapply computes_ext; [apply le_gate_ok; auto with bits|]. intros I. cbv beta.
  change (bv_sle sz (uval I sz a) (uval I sz b)) with (sbits (bit I a) sz <=? sbits (bit I b) sz).
  rewrite sbits_le by done.
  rewrite Vo. unfold bit. destruct (decide (sz = 1)%nat) as [->|].
  - change (1 `max` (1 - 1))%nat with 1%nat. unfold uval. rewrite ubits_le_step. unfold bit. simpl.
    by destruct (bval I (a !!! 0%nat)), (bval I (b !!! 0%nat)).
  - rewrite Nat.max_r by lia. done.
Qed.

(** ** Reductions and absolute value *)

Lemma mk_redand_ok sz a : bits a ->
  spec (mk_redand sz a) (makes_num 1 (fun I => Z.b2z (uval I sz a =? pow2 sz - 1))).
Proof.
  intros Ba. unfold mk_redand. pose proof (makes_slice sz 0 a Ba) as Hs.
  eapply spec_bind; [apply mk_and_computes, Hs|]. intros t [Bt Vt]. apply spec_ret. split; [done|].
  split; [by apply (bits_snoc []); [apply bits_nil|]|].
  intros I. rewrite uval_S, uval_0, pow2_0. unfold bit at 1. simpl. rewrite Vt.
  rewrite (forallb_makes I sz _ _ Hs).
  assert (E : forallb (fun i => bit I a (0 + i)) (seq 0 sz) = (uval I sz a =? pow2 sz - 1)); [|rewrite E; lia].
  rewrite <- (ubits_true (fun _ => true) sz) by done. unfold uval. rewrite eqb_ubits.
  apply eq_true_iff_eq. rewrite !forallb_forall. simpl.
  split; intros Hf i Hi; specialize (Hf i Hi); destruct (bit I a i); done.
Qed.

Lemma mk_redor_ok sz a : bits a ->
  spec (mk_redor sz a) (makes_num 1 (fun I => Z.b2z (negb (uval I sz a =? 0)))).
Proof.
  intros Ba. unfold mk_redor. pose proof (makes_slice sz 0 a Ba) as Hs.
  eapply spec_bind; [apply mk_or_computes, Hs|]. intros t [Bt Vt]. apply spec_ret. split; [done|].
  split; [by apply (bits_snoc []); [apply bits_nil|]|].
  intros I. rewrite uval_S, uval_0, pow2_0. unfold bit at 1. simpl. rewrite Vt.
  rewrite (existsb_makes I sz _ _ Hs).
  assert (E : existsb (fun i => bit I a (0 + i)) (seq 0 sz) = negb (uval I sz a =? 0)); [|rewrite E; lia].
  change (fun i => bit I a (0 + i)) with (bit I a).
  rewrite <- (ubits_false (fun _ => false) sz) by done. unfold uval. rewrite eqb_ubits.
  generalize (seq 0 sz). induction l as [|i l IH]; simpl; [done|]. rewrite IH. by destruct (bit I a i).
Qed.

Lemma sval_msb I sz a : (0 < sz)%nat -> sval I sz a = uval I sz a - pow2 sz * Z.b2z (bit I a (sz - 1)).
Proof.
  intros Hsz. unfold sval, uval. rewrite sbits_msb, (ubits_msb _ _ Hsz), (pow2_half sz Hsz) by done.
  destruct (bit I a (sz - 1)); simpl; lia.
Qed.

Lemma sval_sgn I sz a : sval I sz a = sgn sz (uval I sz a).
Proof. reflexivity. Qed.

Lemma abs_neg I sz a : (0 < sz)%nat -> bit I a (sz - 1) = true ->
  bv_neg sz (uval I sz a) = Z.abs (sval I sz a).
Proof.
  intros Hsz Hm. pose proof (uval_bounds I sz a) as B.
  pose proof (sbits_neg (bit I a) sz Hsz) as N. fold (sval I sz a) in N. rewrite Hm in N.
  apply Z.ltb_lt in N. rewrite Z.abs_neq by lia.
  pose proof (sbits_bounds (bit I a) sz Hsz) as S. fold (sval I sz a) in S.
  pose proof (pow2_half sz Hsz). pose proof (pow2_pos (sz - 1)).
  rewrite (sval_msb I sz a Hsz), Hm in *. cbn [Z.b2z] in *. unfold bv_neg.
  rewrite <- (Z.mod_add _ 1) by lia. rewrite Z.mod_small; lia.
Qed.

Lemma abs_nonneg I sz a : (0 < sz)%nat -> bit I a (sz - 1) = false ->
  uval I sz a = Z.abs (sval I sz a).
Proof.
  intros Hsz Hm. pose proof (uval_bounds I sz a) as B.
  rewrite (sval_msb I sz a Hsz), Hm. cbn [Z.b2z]. lia.
Qed.

Lemma bit_true_const I a i : m.is_true (a !!! i) = true -> bit I a i = true.
Proof. unfold bit. intros ->%is_true_spec. done. Qed.

Lemma bit_false_const I a i : m.is_false (a !!! i) = true -> bit I a i = false.
Proof. unfold bit. intros ->%is_false_spec. done. Qed.

Lemma mk_abs_ok sz a : (0 < sz)%nat -> bits a ->
  spec (mk_abs sz a) (makes_num sz (fun I => Z.abs (sval I sz a))).
Proof.
  intros Hsz Ba. unfold mk_abs.
  destruct (m.is_false (a !!! (sz - 1)%nat)) eqn:E0.
  { apply spec_ret. eapply makes_num_ext; [apply makes_makes_num; by apply makes_slice|].
    intros I. cbv beta. rewrite <- (abs_nonneg I sz a Hsz) by (by apply bit_false_const). done. }
  destruct (m.is_true (a !!! (sz - 1)%nat)) eqn:E1.
  { eapply spec_mono; [by apply mk_neg_ok|]. intros out Ho. eapply makes_num_ext; [exact Ho|].
    intros I. apply abs_neg; [done|]. by apply bit_true_const. }
  eapply spec_bind; [by apply mk_neg_ok|]. intros n (L & B & V).
  eapply spec_mono; [apply mk_multiplexer_num; auto with bits|]. intros out Ho.
  eapply makes_num_ext; [exact Ho|]. intros I. cbv beta. rewrite V. fold (bit I a (sz - 1)).
  destruct (bit I a (sz - 1)) eqn:Em; [by apply abs_neg|by apply abs_nonneg].
Qed.
End Adders.
