(* ===== verification/BlastSigned.v ===== *)
(** * BlastSigned: unsigned and signed division circuits

    [mk_sdiv], [mk_srem] and [mk_smod] reduce to the unsigned divider on the
    absolute values and fix the sign, each on the path its sign bits select;
    every path computes the SMT-LIB operator. *)
From Stdlib Require Import ZArith Lia.
From stdpp Require Import base list.
From S2P Require Import Prelude Bits UBits Ast AstFacts TermFacts Gates Blast BlastFacts BlastAdd.
(** ** Division circuits

    The restoring divider [mk_udiv_urem] computes quotient and remainder as
    SMT-LIB defines them, division by zero included, and so do the signed
    circuits built on it. *)
Local Open Scope Z_scope.

(** ** One step of long division *)

Section LongDivision.
Context (A B X P d : Z).
Hypothesis HB : 0 <= B.
Hypothesis HX : 0 <= X.
Hypothesis Hd : 0 <= d <= 1.
Hypothesis HA : A = 2 * X + d.
Hypothesis HP : P = 2 * (X mod B) + d.

Lemma long_div_rem : A mod B = if B <=? P then P - B else P.
Proof.
  destruct (Z.eq_dec B 0) as [E|E].
  - rewrite E in *. rewrite Z.mod_0_r in *. rewrite (proj2 (Z.leb_le 0 P)) by lia. lia.
  - pose proof (Z.div_mod X B E). pose proof (Z.mod_pos_bound X B ltac:(lia)).
    destruct (Z.leb_spec B P).
    + symmetry. apply (Z.mod_unique_pos A B (2 * (X / B) + 1)); lia.
    + symmetry. apply (Z.mod_unique_pos A B (2 * (X / B))); lia.
Qed.

Lemma long_div_quot : B <> 0 -> A / B = 2 * (X / B) + Z.b2z (B <=? P).
Proof.
  intros E. pose proof (Z.div_mod X B E). pose proof (Z.mod_pos_bound X B ltac:(lia)).
  destruct (Z.leb_spec B P); simpl.
  - symmetry. apply (Z.div_unique_pos A B _ (P - B)); lia.
  - symmetry. apply (Z.div_unique_pos A B _ P); lia.
Qed.
End LongDivision.

(** The quotient bit that position [k] receives. *)
Lemma udiv_bit n a b k : 0 <= a < pow2 n -> 0 <= b -> (k < n)%nat ->
  Z.testbit (bv_udiv n a b) (Z.of_nat k)
  = (b <=? 2 * ((a / pow2 (S k)) mod b) + (a / pow2 k) mod 2).
Proof.
  intros Ha Hb Hk. pose proof (pow2_pos k). pose proof (pow2_pos (S k)).
  assert (Hx : 0 <= a / pow2 (S k)) by (apply Z.div_pos; lia).
  pose proof (Z.mod_pos_bound (a / pow2 k) 2 ltac:(lia)) as Hd.
  assert (HA : a / pow2 k = 2 * (a / pow2 (S k)) + (a / pow2 k) mod 2).
  { rewrite pow2_S, (Z.mul_comm 2 (pow2 k)), <- Z.div_div by lia. apply Z.div_mod. lia. }
  unfold bv_udiv. destruct (Z.eqb_spec b 0) as [->|E].
  - rewrite Z.mod_0_r.
    assert (L : (0 <=? 2 * (a / pow2 (S k)) + (a / pow2 k) mod 2) = true) by (apply Z.leb_le; lia).
    rewrite L.
    rewrite <- (ubits_true (fun _ => true) n) by done. by rewrite ubits_testbit.
  - assert (Q : a / pow2 k / b = 2 * (a / pow2 (S k) / b)
              + Z.b2z (b <=? 2 * ((a / pow2 (S k)) mod b) + (a / pow2 k) mod 2))
      by (eapply long_div_quot; [done| |exact HA|done|done]; lia).
    apply Z.b2z_inj. rewrite Z.testbit_spec' by lia. change (2 ^ Z.of_nat k) with (pow2 k).
    rewrite Z.div_div, (Z.mul_comm b), <- Z.div_div, Q by lia.
    rewrite (Z.add_comm (2 * (_ / b))), (Z.mul_comm 2 (_ / b)), Z.mod_add by lia. by destruct (_ <=? _).
Qed.

Section Dividers.
Context `{Env} (G : Gates) {OK : GatesOk G}.

(** ** The in-place updates of the residual *)

Lemma div_shift_ok sz q t p :
  length p = sz -> boolx q -> bits t -> bits p ->
  spec (div_shift sz q t p) (fun r => length r = sz /\ bits r
    /\ forall I j, (1 <= j < sz)%nat ->
         bit I r j = if bval I q then bit I t (j - 1) else bit I p (j - 1)).
Proof.
  intros L Bq Bt Bp. unfold div_shift.
  destruct (decide (sz <= 1)%nat) as [Hsz|Hsz].
  { replace (for_range 1 sz _ p) with (for_range 0 0 (fun (_ : nat) (p : list expr) => mret (M:=M) p) p)
      by (unfold for_range; by replace (sz - 1)%nat with 0%nat by lia).
    apply spec_ret. split; [done|]. split; [done|]. intros. lia. }
  eapply spec_mono.
  { apply (spec_for (fun k r => length r = sz /\ bits r
      /\ (forall I j, (sz - k < j < sz)%nat ->
            bit I r j = if bval I q then bit I t (j - 1) else bit I p (j - 1))
      /\ (forall I j, (j <= sz - k)%nat -> bit I r j = bit I p j))); [lia| |].
    { split; [done|]. split; [done|]. split; [intros; lia|done]. }
    intros k r Hk (Lr & Br & V1 & V2). gate mk_ite_computes ie Bi Vi. apply spec_ret.
    split; [by rewrite length_insert|]. split; [by apply bits_insert|]. split.
    - intros I j Hj. destruct (decide (j = sz - k)%nat) as [->|].
      + rewrite bit_insert by lia. rewrite Vi. unfold bit in *. by rewrite <- (V2 I) by lia.
      + rewrite bit_insert_ne by lia. apply V1. lia.
    - intros I j Hj. rewrite bit_insert_ne by lia. apply V2. lia. }
  intros r (Lr & Br & V1 & _). split; [done|]. split; [done|]. intros I j Hj. apply V1. lia.
Qed.

Lemma div_last_ok sz q t p :
  length p = sz -> boolx q -> bits t -> bits p ->
  spec (div_last sz q t p) (makes_num sz (fun I => if bval I q then uval I sz t else uval I sz p)).
Proof.
  intros L Bq Bt Bp. unfold div_last.
  eapply spec_mono.
  { apply (spec_for (fun k r => length r = sz /\ bits r
      /\ (forall I j, (j < k)%nat -> bit I r j = if bval I q then bit I t j else bit I p j)
      /\ (forall I j, (k <= j)%nat -> bit I r j = bit I p j))); [lia| |].
    { split; [done|]. split; [done|]. split; [intros; lia|done]. }
    intros k r Hk (Lr & Br & V1 & V2). gate mk_ite_computes ie Bi Vi. apply spec_ret.
    split; [by rewrite length_insert|]. split; [by apply bits_insert|]. split.
    - intros I j Hj. destruct (decide (j = k)) as [->|].
      + rewrite bit_insert by lia. rewrite Vi. unfold bit in *. by rewrite <- (V2 I) by lia.
      + rewrite bit_insert_ne by lia. apply V1. lia.
    - intros I j Hj. rewrite bit_insert_ne by lia. apply V2. lia. }
  intros r (Lr & Br & V1 & _). split; [done|]. split; [done|]. intros I.
  destruct (bval I q) eqn:Eq; apply uval_ext; intros j Hj; rewrite V1, Eq by done; done.
Qed.

(** ** The divider *)

(** The residual before step [i], the next bit of [a] shifted in. *)
Definition residual (sz i : nat) (a b : Z) : Z :=
  2 * ((a / pow2 (sz - i)) mod b) + (a / pow2 (sz - i - 1)) mod 2.

Definition div_inv (sz : nat) (a b : list expr) (i : nat) (x : list expr * list expr) : Prop :=
  let '(q_bits, p) := x in
  length q_bits = sz /\ bits q_bits /\ length p = sz /\ bits p /\
  forall I,
    (forall j, (sz - i <= j < sz)%nat ->
       bit I q_bits j = Z.testbit (bv_udiv sz (uval I sz a) (uval I sz b)) (Z.of_nat j))
    /\ uval I sz p = if (i <? sz)%nat then residual sz i (uval I sz a) (uval I sz b)
                     else uval I sz a mod uval I sz b.

Lemma bit_div_mod2 I sz a k : (k < sz)%nat -> (uval I sz a / pow2 k) mod 2 = Z.b2z (bit I a k).
Proof.
  intros Hk. unfold uval. pose proof (ubits_testbit (bit I a) sz k Hk) as E.
  apply (f_equal Z.b2z) in E. by rewrite Z.testbit_spec' in E by lia.
Qed.

(** The subtraction of step [i] decides the quotient bit and leaves the
    remainder of the leading bits of [a]. *)
Lemma residual_step sz i a b : 0 <= a < pow2 sz -> 0 <= b -> (i < sz)%nat ->
  (b <=? residual sz i a b) = Z.testbit (bv_udiv sz a b) (Z.of_nat (sz - i - 1))
  /\ (a / pow2 (sz - i - 1)) mod b
     = if b <=? residual sz i a b then residual sz i a b - b else residual sz i a b.
Proof.
  intros Ha Hb Hi. set (k := (sz - i - 1)%nat). unfold residual. fold k.
  replace (sz - i)%nat with (S k) by lia. split.
  - symmetry. apply udiv_bit; [done|done|lia].
  - pose proof (pow2_pos k). pose proof (pow2_pos (S k)).
    apply (long_div_rem _ b (a / pow2 (S k)) _ ((a / pow2 k) mod 2)); [done| | | |done].
    + apply Z.div_pos; lia.
    + pose proof (Z.mod_pos_bound (a / pow2 k) 2 ltac:(lia)). lia.
    + rewrite pow2_S, (Z.mul_comm 2 (pow2 k)), <- Z.div_div by lia. apply Z.div_mod. lia.
Qed.

(** The remainder fits the bits it is kept in. *)
Lemma residual_fits sz i a b : 0 <= a < pow2 sz -> 0 <= b -> (i <= sz)%nat ->
  0 <= (a / pow2 (sz - i)) mod b < pow2 i.
Proof.
  intros Ha Hb Hi. pose proof (pow2_pos (sz - i)). pose proof (pow2_pos i).
  assert (Hq : 0 <= a / pow2 (sz - i) < pow2 i).
  { split; [apply Z.div_pos; lia|]. apply Z.div_lt_upper_bound; [lia|].
    rewrite <- pow2_add. replace (sz - i + i)%nat with sz by lia. lia. }
  destruct (Z.eq_dec b 0) as [->|]; [rewrite Z.mod_0_r; lia|].
  pose proof (Z.mod_pos_bound (a / pow2 (sz - i)) b ltac:(lia)).
  pose proof (Z.mod_le (a / pow2 (sz - i)) b ltac:(lia) ltac:(lia)). lia.
Qed.

(** The two selections of the code mean the conditional subtraction. *)
Lemma select_sub sz b p : 0 <= p < pow2 sz -> 0 <= b < pow2 sz ->
  (if b <=? p then bv_sub sz p b else p) = if b <=? p then p - b else p.
Proof.
  intros Hp Hb. destruct (Z.leb_spec b p); [|done]. unfold bv_sub. apply Z.mod_small. lia.
Qed.

Lemma mk_udiv_urem_ok sz a b : (0 < sz)%nat -> bits a -> bits b ->
  spec (mk_udiv_urem sz a b) (fun r =>
    makes_num sz (fun I => bv_udiv sz (uval I sz a) (uval I sz b)) r.1
    /\ makes_num sz (fun I => bv_urem sz (uval I sz a) (uval I sz b)) r.2).
Proof.
  intros Hsz Ba Bb. unfold mk_udiv_urem.
  eapply spec_mono; [apply (spec_for (div_inv sz a b)); [lia| |]|].
  - split; [by rewrite length_replicate|]. split; [by apply bits_replicate|].
    split; [simpl; rewrite length_replicate; lia|].
    split; [constructor; [by apply bits_lookup|by apply bits_replicate]|].
    intros I. split; [intros; lia|]. rewrite (proj2 (Nat.ltb_lt 0 sz)) by done.
    destruct sz as [|n]; [lia|]. unfold uval at 1. rewrite ubits_low.
    rewrite (ubits_false _ n); [|intros i Hi; unfold bit; simpl; apply (bit_false_replicate I)].
    unfold residual. rewrite Z.div_small by apply uval_bounds. rewrite Nat.sub_0_r.
    rewrite Zmod_0_l. rewrite bit_div_mod2 by lia. unfold bit. simpl. lia.
  - intros i [qb p] Hi (Lq & Bq & Lp & Bp & V).
    eapply spec_bind; [apply spec_checkpoint|]. intros _ _.
    eapply spec_bind; [by apply mk_subtracter_ok|]. intros [t q] [(Lt & Bt & Vt) [Bq' Vq]].
    cbn [fst snd] in *.
    assert (Vp : forall I, uval I sz p = residual sz i (uval I sz a) (uval I sz b)).
    { intros I. destruct (V I) as [_ Vp]. by rewrite (proj2 (Nat.ltb_lt i sz)) in Vp by lia. }
    assert (Hstep : forall I, bval I q = Z.testbit (bv_udiv sz (uval I sz a) (uval I sz b)) (Z.of_nat (sz - i - 1))
      /\ (uval I sz a / pow2 (sz - i - 1)) mod uval I sz b
         = if bval I q then uval I sz t else uval I sz p).
    { intros I. pose proof (uval_bounds I sz a). pose proof (uval_bounds I sz b).
      pose proof (uval_bounds I sz p).
      destruct (residual_step sz i (uval I sz a) (uval I sz b)) as [E1 E2]; [done|lia|lia|].
      rewrite Vt, Vq. rewrite select_sub by done. rewrite <- Vp in E1, E2. split; [exact E1|exact E2]. }
    assert (Hq : forall I j, (sz - S i <= j < sz)%nat ->
      bit I (<[(sz - i - 1)%nat := q]> qb) j
      = Z.testbit (bv_udiv sz (uval I sz a) (uval I sz b)) (Z.of_nat j)).
    { intros I j Hj. destruct (decide (j = sz - i - 1)%nat) as [->|].
      - rewrite bit_insert by lia. apply Hstep.
      - rewrite bit_insert_ne by lia. apply (V I). lia. }
    destruct (Nat.ltb_spec i (sz - 1)).
    + eapply spec_bind; [by apply div_shift_ok|]. intros r (Lr & Br & Vr). apply spec_ret.
      split; [by rewrite length_insert|]. split; [by apply bits_insert|].
      split; [by rewrite length_insert|]. split; [by apply bits_insert; [|apply bits_lookup]|].
      intros I. split; [apply Hq|]. rewrite (proj2 (Nat.ltb_lt (S i) sz)) by lia.
      destruct (Hstep I) as [_ Hrem].
      unfold uval at 1. destruct sz as [|n]; [lia|]. rewrite ubits_low, bit_insert by lia.
      rewrite (ubits_ext _ (fun j => if bval I q then bit I t j else bit I p j)).
      2: { intros j Hj. rewrite bit_insert_ne, Vr by lia. by replace (S j - 1)%nat with j by lia. }
      unfold residual. replace (S n - S i - 1)%nat with (S n - i - 2)%nat by lia.
      rewrite bit_div_mod2 by lia. fold (bit I a (S n - i - 2)).
      replace (S n - S i)%nat with (S n - i - 1)%nat by lia. rewrite Hrem.
      pose proof (residual_fits (S n) (S i) (uval I (S n) a) (uval I (S n) b)
        (uval_bounds _ _ _) ltac:(apply uval_bounds) ltac:(lia)) as F.
      replace (S n - S i)%nat with (S n - i - 1)%nat in F by lia. rewrite Hrem in F.
      pose proof (pow2_le_mono (S i) n ltac:(lia)).
      rewrite (Z.add_comm (2 * _)). f_equal. f_equal. unfold uval in *.
      destruct (bval I q); rewrite <- (ubits_low_mod _ n (S n)) by lia; apply Z.mod_small; lia.
    + eapply spec_bind; [by apply div_last_ok|]. intros r (Lr & Br & Vr). apply spec_ret.
      split; [by rewrite length_insert|]. split; [by apply bits_insert|]. split; [done|].
      split; [done|]. intros I. split; [apply Hq|]. rewrite (proj2 (Nat.ltb_ge (S i) sz)) by lia.
      destruct (Hstep I) as [_ Hrem]. replace (sz - i - 1)%nat with 0%nat in Hrem by lia.
      rewrite pow2_0, Z.div_1_r in Hrem. by rewrite Vr, Hrem.
  - intros [qb p] (Lq & Bq & Lp & Bp & V). cbn [fst snd]. split.
    + split; [done|]. split; [done|]. intros I. apply ubits_eq.
      * apply bv_udiv_bound; apply uval_bounds.
      * intros j Hj. apply (V I). lia.
    + split; [done|]. split; [done|]. intros I. destruct (V I) as [_ Vp].
      rewrite Nat.ltb_irrefl in Vp. rewrite Vp. unfold bv_urem.
      destruct (Z.eqb_spec (uval I sz b) 0) as [E|]; [|done]. rewrite E. apply Z.mod_0_r.
Qed.
End Dividers.

(** ** Signed circuits *)

Section SignedCircuits.
Context `{Env} (G : Gates) {OK : GatesOk G}.
Context (sz : nat).
Hypothesis Hsz : (0 < sz)%nat.

Lemma mk_udiv_ok a b : bits a -> bits b ->
  spec (mk_udiv sz a b) (makes_num sz (fun I => bv_udiv sz (uval I sz a) (uval I sz b))).
Proof.
  intros Ba Bb. unfold mk_udiv. eapply spec_bind; [by apply mk_udiv_urem_ok|].
  intros [q r] [Hq _]. by apply spec_ret.
Qed.

Lemma mk_urem_ok a b : bits a -> bits b ->
  spec (mk_urem sz a b) (makes_num sz (fun I => bv_urem sz (uval I sz a) (uval I sz b))).
Proof.
  intros Ba Bb. unfold mk_urem. eapply spec_bind; [by apply mk_udiv_urem_ok|].
  intros [q r] [_ Hr]. by apply spec_ret.
Qed.

(** [a_bits] holds an absolute value: [a] itself or its negation. *)
Definition holds_abs (a out : list expr) : Prop := makes_num sz (fun I => Z.abs (sval I sz a)) out.

Lemma abs_self a : length a = sz -> bits a -> m.is_false (a !!! (sz - 1)%nat) = true -> holds_abs a a.
Proof.
  intros L Ba Hf. split; [done|]. split; [done|]. intros I. apply abs_nonneg; [done|].
  by apply bit_false_const.
Qed.

Lemma abs_by_neg a : bits a -> m.is_true (a !!! (sz - 1)%nat) = true ->
  spec (mk_neg sz a) (holds_abs a).
Proof.
  intros Ba Ht. eapply spec_mono; [by apply mk_neg_ok|]. intros out Ho.
  eapply makes_num_ext; [exact Ho|]. intros I. apply abs_neg; [done|]. by apply bit_true_const.
Qed.

Lemma neg_of z out : makes_num sz z out -> spec (mk_neg sz out) (makes_num sz (fun I => bv_neg sz (z I))).
Proof.
  intros (L & B & V). eapply spec_mono; [by apply mk_neg_ok|]. intros r Hr.
  eapply makes_num_ext; [exact Hr|]. intros I. cbv beta. by rewrite V.
Qed.

(** The unsigned operators on two absolute values. *)
Lemma udiv_abs a b a' b' : holds_abs a a' -> holds_abs b b' ->
  spec (mk_udiv sz a' b') (makes_num sz (fun I => bv_udiv sz (Z.abs (sval I sz a)) (Z.abs (sval I sz b)))).
Proof.
  intros (La & Ba & Va) (Lb & Bb & Vb). eapply spec_mono; [by apply mk_udiv_ok|]. intros r Hr.
  eapply makes_num_ext; [exact Hr|]. intros I. cbv beta. by rewrite Va, Vb.
Qed.

Lemma urem_abs a b a' b' : holds_abs a a' -> holds_abs b b' ->
  spec (mk_urem sz a' b') (makes_num sz (fun I => bv_urem sz (Z.abs (sval I sz a)) (Z.abs (sval I sz b)))).
Proof.
  intros (La & Ba & Va) (Lb & Bb & Vb). eapply spec_mono; [by apply mk_urem_ok|]. intros r Hr.
  eapply makes_num_ext; [exact Hr|]. intros I. cbv beta. by rewrite Va, Vb.
Qed.

Lemma msb_neg I a : (sval I sz a <? 0) = bit I a (sz - 1).
Proof. by apply sbits_neg. Qed.

Lemma sdiv_value I a b :
  bv_sdiv sz (uval I sz a) (uval I sz b)
  = let q := bv_udiv sz (Z.abs (sval I sz a)) (Z.abs (sval I sz b)) in
    if eqb (bit I a (sz - 1)) (bit I b (sz - 1)) then q else bv_neg sz q.
Proof. rewrite <- !msb_neg. apply sdiv_abs; [done|apply uval_bounds..]. Qed.

Lemma srem_value I a b :
  bv_srem sz (uval I sz a) (uval I sz b)
  = let r := bv_urem sz (Z.abs (sval I sz a)) (Z.abs (sval I sz b)) in
    if bit I a (sz - 1) then bv_neg sz r else r.
Proof. rewrite <- !msb_neg. apply srem_abs; [done|apply uval_bounds..]. Qed.

(** Bind the next circuit and name its result. *)
Ltac circuit L r Hr := eapply spec_bind; [apply L; eauto|intros r Hr].

(** The sign bits that the path has found constant. *)
Ltac known_signs I :=
  repeat match goal with
    | H : m.is_true (_ !!! _) = true |- _ => apply (bit_true_const I) in H
    | H : m.is_false (_ !!! _) = true |- _ => apply (bit_false_const I) in H
    end.

(** The last circuit of a path; the value follows from the signs. *)
Ltac finish L E :=
  eapply spec_mono; [eapply L; eauto|];
  let r := fresh in let Hr := fresh in let I := fresh "I" in
  intros r Hr; eapply makes_num_ext; [exact Hr|]; intros I; cbv beta; rewrite E;
  known_signs I; cbv zeta;
  repeat match goal with H : bit _ _ _ = _ |- _ => rewrite H; clear H end; done.

Lemma mk_sdiv_ok a b : length a = sz -> length b = sz -> bits a -> bits b ->
  spec (mk_sdiv sz a b) (makes_num sz (fun I => bv_sdiv sz (uval I sz a) (uval I sz b))).
Proof.
  intros La Lb Ba Bb. unfold mk_sdiv.
  destruct (_ && _) eqn:E1; [apply andb_prop in E1 as [Ha Hb]|clear E1].
  { finish (udiv_abs a b a b (abs_self a La Ba Ha) (abs_self b Lb Bb Hb)) sdiv_value. }
  destruct (_ && _) eqn:E1; [apply andb_prop in E1 as [Ha Hb]|clear E1].
  { circuit (abs_by_neg b) nb Hnb. circuit (udiv_abs a b a nb (abs_self a La Ba Ha)) q Hq.
    finish neg_of sdiv_value. }
  destruct (_ && _) eqn:E1; [apply andb_prop in E1 as [Ha Hb]|clear E1].
  { circuit (abs_by_neg a) na Hna. circuit (udiv_abs a b na b) q Hq; [by apply abs_self|].
    finish neg_of sdiv_value. }
  destruct (_ && _) eqn:E1; [apply andb_prop in E1 as [Ha Hb]|clear E1].
  { circuit (abs_by_neg a) na Hna. circuit (abs_by_neg b) nb Hnb.
    finish (udiv_abs a b na nb) sdiv_value. }
  circuit (mk_abs_ok G sz a Hsz) aa Haa. circuit (mk_abs_ok G sz b Hsz) ab Hab.
  circuit (udiv_abs a b aa ab) q Hq. circuit (neg_of _ q Hq) nq Hnq.
  destruct Hq as (Lq & Bq & Vq), Hnq as (Lnq & Bnq & Vnq).
  eapply spec_bind; [apply mk_iff_computes; by apply bits_lookup|]. intros c [Bc Vc].
  eapply spec_mono; [by apply mk_multiplexer_num|]. intros r Hr.
  eapply makes_num_ext; [exact Hr|]. intros I. cbv beta. rewrite Vc, Vq, Vnq, sdiv_value.
  unfold bit. cbv zeta. by destruct (eqb _ _).
Qed.

Lemma is_power_of_two_spec n k : is_power_of_two n = Some k -> n = pow2 k.
Proof.
  unfold is_power_of_two. destruct (Z.ltb_spec 0 n); [|done]. cbn [andb].
  destruct (Z.eqb_spec n (2 ^ Z.log2 n)) as [E|]; [|done]. intros [= <-].
  unfold pow2. rewrite Z2Nat.id by apply Z.log2_nonneg. exact E.
Qed.

(** The remainder by a constant power of two keeps the low bits. *)
Lemma urem_pow2 a b a' b' n k : holds_abs a a' -> holds_abs b b' ->
  is_numeral_bits sz b' = Some n -> is_power_of_two n = Some k ->
  makes_num sz (fun I => bv_urem sz (Z.abs (sval I sz a)) (Z.abs (sval I sz b)))
    (mk_zero_extend k a' (sz - k)).
Proof.
  intros (La & Ba & Va) (Lb & Bb & Vb) [_ Hn]%is_numeral_bits_spec Hk%is_power_of_two_spec.
  assert (Hks : (k < sz)%nat).
  { pose proof (uval_bounds (fun _ _ _ _ => VBool false) sz b') as Bd. rewrite Hn, Hk in Bd.
    destruct (decide (k < sz)%nat); [done|]. pose proof (pow2_le_mono sz k ltac:(lia)). lia. }
  unfold mk_zero_extend. split; [rewrite length_app, length_slice, length_replicate; lia|].
  split; [auto with bits|]. intros I. rewrite <- Va, <- Vb, Hn, Hk. unfold bv_urem.
  pose proof (pow2_pos k). rewrite (proj2 (Z.eqb_neq _ 0)) by lia.
  unfold uval. rewrite ubits_low_mod by lia. rewrite (ubits_split _ k sz) by lia.
  rewrite (ubits_ext _ (bit I a') k).
  2: { intros i Hi. rewrite bit_app_l by (by rewrite length_slice). by rewrite bit_slice. }
  rewrite (ubits_false _ (sz - k)); [lia|]. intros i Hi.
  rewrite bit_app_r by (rewrite length_slice; lia). apply bit_false_replicate.
Qed.

Lemma mk_srem_ok a b : length a = sz -> length b = sz -> bits a -> bits b ->
  spec (mk_srem sz a b) (makes_num sz (fun I => bv_srem sz (uval I sz a) (uval I sz b))).
Proof.
  intros La Lb Ba Bb. unfold mk_srem.
  destruct (_ && _) eqn:E1; [apply andb_prop in E1 as [Ha Hb]|clear E1].
  { finish (urem_abs a b a b (abs_self a La Ba Ha) (abs_self b Lb Bb Hb)) srem_value. }
  destruct (_ && _) eqn:E1; [apply andb_prop in E1 as [Ha Hb]|clear E1].
  { circuit (abs_by_neg b) nb Hnb.
    finish (urem_abs a b a nb (abs_self a La Ba Ha)) srem_value. }
  destruct (_ && _) eqn:E1; [apply andb_prop in E1 as [Ha Hb]|clear E1].
  { circuit (abs_by_neg a) na Hna. circuit (urem_abs a b na b) q Hq; [by apply abs_self|].
    finish neg_of srem_value. }
  destruct (_ && _) eqn:E1; [apply andb_prop in E1 as [Ha Hb]|clear E1].
  { circuit (abs_by_neg a) na Hna. circuit (abs_by_neg b) nb Hnb.
    circuit (urem_abs a b na nb) q Hq. finish neg_of srem_value. }
  circuit (mk_abs_ok G sz a Hsz) aa Haa. circuit (mk_abs_ok G sz b Hsz) ab Hab.
  apply spec_bind with
    (P := makes_num sz (fun I => bv_urem sz (Z.abs (sval I sz a)) (Z.abs (sval I sz b)))).
  { destruct (is_numeral_bits sz ab) as [n|] eqn:En; cbn; [|by apply (urem_abs a b)].
    destruct (is_power_of_two n) as [k|] eqn:Ek; [|by apply (urem_abs a b)].
    apply spec_ret. by apply (urem_pow2 a b aa ab n k). }
  intros q Hq. circuit (neg_of _ q Hq) nq Hnq.
  destruct Hq as (Lq & Bq & Vq), Hnq as (Lnq & Bnq & Vnq).
  eapply spec_mono; [apply mk_multiplexer_num; auto with bits|]. intros r Hr.
  eapply makes_num_ext; [exact Hr|]. intros I. cbv beta. by rewrite Vq, Vnq, srem_value.
Qed.

Lemma smod_value I a b :
  bv_smod sz (uval I sz a) (uval I sz b)
  = let u := bv_urem sz (Z.abs (sval I sz a)) (Z.abs (sval I sz b)) in
    if u =? 0 then u
    else if bit I a (sz - 1) then
      (if bit I b (sz - 1) then bv_neg sz u else bv_add sz (bv_neg sz u) (uval I sz b))
    else if bit I b (sz - 1) then bv_add sz u (uval I sz b) else u.
Proof. rewrite <- !msb_neg. apply smod_abs; [done|apply uval_bounds..]. Qed.

Lemma mk_smod_ok a b : bits a -> bits b ->
  spec (mk_smod sz a b) (makes_num sz (fun I => bv_smod sz (uval I sz a) (uval I sz b))).
Proof.
  intros Ba Bb. unfold mk_smod.
  circuit (mk_abs_ok G sz a Hsz) aa Haa. circuit (mk_abs_ok G sz b Hsz) ab Hab.
  circuit (urem_abs a b aa ab) u Hu. circuit (neg_of _ u Hu) nu Hnu.
  destruct Hu as (Lu & Bu & Vu), Hnu as (Lnu & Bnu & Vnu).
  circuit (mk_adder_ok G sz nu b) nub Hnub. destruct Hnub as (Lnub & Bnub & Vnub).
  circuit (mk_adder_ok G sz u b) ub Hub. destruct Hub as (Lub & Bub & Vub).
  pose proof (num2bits_makes 0 sz ltac:(lia)) as (Lz & Bz & Vz).
  circuit (mk_eq_v_ok G sz u (num2bits 0 sz)) e He. destruct He as [Be Ve].
  circuit (mk_multiplexer_num G) i1 Hi1; [by apply bits_lookup|]. destruct Hi1 as (L1 & B1 & V1).
  circuit (mk_multiplexer_num G) i2 Hi2; [by apply bits_lookup|]. destruct Hi2 as (L2 & B2 & V2).
  circuit (mk_multiplexer_num G) bo Hbo; [by apply bits_lookup|]. destruct Hbo as (L3 & B3 & V3).
  eapply spec_mono; [by apply mk_multiplexer_num|]. intros r Hr.
  eapply makes_num_ext; [exact Hr|]. intros I. cbv beta.
  rewrite Ve, V3, V1, V2, Vnub, Vub, Vnu, Vz, Vu, Zmod_0_l, smod_value. done.
Qed.

(** ** The four-way circuits *)

(** A vector whose value is known when its guard held. *)
Definition guarded (c : bool) (z : interp -> Z) (out : list expr) : Prop :=
  length out = sz /\ bits out /\ (c = true -> forall I, uval I sz out = z I).

Lemma guarded_value c z out I : guarded c z out -> c = true -> uval I sz out = z I.
Proof. intros (_ & _ & V) Hc. by apply V. Qed.

Lemma guarded_false c z : c = false -> guarded c z (replicate sz m.mk_false).
Proof. intros ->. split; [apply length_replicate|]. split; [auto with bits|done]. Qed.

Lemma guarded_makes c z out : makes_num sz z out -> guarded c z out.
Proof. intros (L & B & V). by split; [|split]. Qed.

Lemma or_false_ok c z (m : M (list expr)) : (c = true -> spec m (makes_num sz z)) ->
  spec (or_false sz c m) (guarded c z).
Proof.
  unfold or_false. destruct c; intros Hm.
  - eapply spec_mono; [by apply Hm|]. intros r. apply guarded_makes.
  - by apply spec_ret, guarded_false.
Qed.

Lemma or_false2_ok c a b : bits a -> bits b ->
  spec (or_false2 sz c (mk_udiv_urem sz a b)) (fun r =>
    guarded c (fun I => bv_udiv sz (uval I sz a) (uval I sz b)) r.1
    /\ guarded c (fun I => bv_urem sz (uval I sz a) (uval I sz b)) r.2).
Proof.
  intros Ba Bb. unfold or_false2. destruct c.
  - eapply spec_mono; [by apply mk_udiv_urem_ok|]. intros [q r] [Hq Hr]. split; by apply guarded_makes.
  - apply spec_ret. split; by apply guarded_false.
Qed.

(** The guards of [mk_sdiv_srem_smod] are the sign combinations left open. *)
Definition open_signs (a b : list expr) (sa sb : bool) : bool :=
  negb (if sa then m.is_false (a !!! (sz - 1)%nat) else m.is_true (a !!! (sz - 1)%nat))
  && negb (if sb then m.is_false (b !!! (sz - 1)%nat) else m.is_true (b !!! (sz - 1)%nat)).

Lemma open_signs_bits I a b : open_signs a b (bit I a (sz - 1)) (bit I b (sz - 1)) = true.
Proof.
  assert (X : forall l, negb (if bit I l (sz - 1) then m.is_false (l !!! (sz - 1)%nat)
                              else m.is_true (l !!! (sz - 1)%nat)) = true).
  { intros l. destruct (bit I l (sz - 1)) eqn:E.
    - destruct (m.is_false _) eqn:F; [|done]. apply (bit_false_const I) in F. congruence.
    - destruct (m.is_true _) eqn:F; [|done]. apply (bit_true_const I) in F. congruence. }
  unfold open_signs. by rewrite !X.
Qed.

(** The multiplexers pick the vector of the actual signs. *)
Lemma mk_sign_multiplexer_ok a b (z : bool -> bool -> interp -> Z) pp np pn nn : bits a -> bits b ->
  guarded (open_signs a b false false) (z false false) pp ->
  guarded (open_signs a b true false) (z true false) np ->
  guarded (open_signs a b false true) (z false true) pn ->
  guarded (open_signs a b true true) (z true true) nn ->
  spec (mk_sign_multiplexer sz (a !!! (sz - 1)%nat) (b !!! (sz - 1)%nat) pp np pn nn)
    (makes_num sz (fun I => z (bit I a (sz - 1)) (bit I b (sz - 1)) I)).
Proof.
  intros Ba Bb G1 G2 G3 G4. unfold mk_sign_multiplexer.
  pose proof G1 as (_ & B1 & _). pose proof G2 as (_ & B2 & _).
  pose proof G3 as (_ & B3 & _). pose proof G4 as (_ & B4 & _).
  circuit (mk_multiplexer_num G) i1 Hi1; [by apply bits_lookup|]. destruct Hi1 as (_ & Bi1 & V1).
  circuit (mk_multiplexer_num G) i2 Hi2; [by apply bits_lookup|]. destruct Hi2 as (_ & Bi2 & V2).
  eapply spec_mono; [apply mk_multiplexer_num; auto with bits|]. intros r Hr.
  eapply makes_num_ext; [exact Hr|]. intros I. cbv beta. rewrite V1, V2.
  pose proof (open_signs_bits I a b) as O. fold (bit I a (sz - 1)) (bit I b (sz - 1)).
  destruct (bit I a (sz - 1)), (bit I b (sz - 1)); by eapply guarded_value.
Qed.

(** The magnitude a divider reads for the sign [s]. *)
Definition magnitude (s : bool) (a na : list expr) : list expr := if s then na else a.

Lemma magnitude_value I a na : makes_num sz (fun I => bv_neg sz (uval I sz a)) na ->
  uval I sz (magnitude (bit I a (sz - 1)) a na) = Z.abs (sval I sz a).
Proof.
  intros (_ & _ & V). unfold magnitude. destruct (bit I a (sz - 1)) eqn:E.
  - rewrite V. by apply abs_neg.
  - by apply abs_nonneg.
Qed.

Lemma four_way_value (f : Z -> Z -> Z) I a na b nb :
  makes_num sz (fun I => bv_neg sz (uval I sz a)) na ->
  makes_num sz (fun I => bv_neg sz (uval I sz b)) nb ->
  f (uval I sz (magnitude (bit I a (sz - 1)) a na)) (uval I sz (magnitude (bit I b (sz - 1)) b nb))
  = f (Z.abs (sval I sz a)) (Z.abs (sval I sz b)).
Proof. intros Ha Hb. by rewrite !magnitude_value. Qed.

Lemma or_neg_ok c z out : guarded c z out ->
  spec (or_false sz c (mk_neg sz out)) (guarded c (fun I => bv_neg sz (z I))).
Proof.
  intros (L & B & V). apply or_false_ok. intros Hc. apply neg_of. split; [done|]. split; [done|].
  intros I. by apply V.
Qed.

(** The operator the template computes: [SMOD] misses the case of a zero
    remainder, where the divisor [b] is added all the same. *)
Definition four_way (k : div_kind) (a b : Z) (A B : Z) : Z :=
  let q := bv_udiv sz (Z.abs A) (Z.abs B) in
  let r := bv_urem sz (Z.abs A) (Z.abs B) in
  match k with
  | SDIV => bv_sdiv sz a b
  | SREM => bv_srem sz a b
  | SMOD => if A <? 0 then (if B <? 0 then bv_neg sz r else bv_sub sz b r)
            else if B <? 0 then bv_add sz b r else r
  end.

Lemma mk_sdiv_srem_smod_ok k a b : bits a -> bits b ->
  spec (mk_sdiv_srem_smod k sz a b) (makes_num sz (fun I =>
    four_way k (uval I sz a) (uval I sz b) (sval I sz a) (sval I sz b))).
Proof.
  intros Ba Bb. unfold mk_sdiv_srem_smod. cbv zeta.
  circuit (mk_neg_ok G sz a) na Hna. circuit (mk_neg_ok G sz b) nb Hnb.
  pose proof Hna as (_ & Bna & _). pose proof Hnb as (_ & Bnb & _).
  fold (open_signs a b false false) (open_signs a b true false)
       (open_signs a b false true) (open_signs a b true true).
  circuit (or_false2_ok (open_signs a b false false) a b) pp Hpp. destruct pp as [ppq ppr].
  circuit (or_false2_ok (open_signs a b true false) na b) np Hnp. destruct np as [npq npr].
  circuit (or_false2_ok (open_signs a b false true) a nb) pn Hpn. destruct pn as [pnq pnr].
  circuit (or_false2_ok (open_signs a b true true) na nb) nn Hnn. destruct nn as [nnq nnr].
  destruct Hpp as [Hppq Hppr], Hnp as [Hnpq Hnpr], Hpn as [Hpnq Hpnr], Hnn as [Hnnq Hnnr].
  cbn [fst snd] in *.
  set (q := fun sa sb I => bv_udiv sz (uval I sz (magnitude sa a na)) (uval I sz (magnitude sb b nb))).
  set (r := fun sa sb I => bv_urem sz (uval I sz (magnitude sa a na)) (uval I sz (magnitude sb b nb))).
  destruct k.
  - circuit (or_neg_ok _ _ npq Hnpq) np Hnp. circuit (or_neg_ok _ _ pnq Hpnq) pn Hpn.
    eapply spec_mono; [by apply (mk_sign_multiplexer_ok a b (fun sa sb I =>
      if eqb sa sb then q sa sb I else bv_neg sz (q sa sb I)))|].
    intros out Ho. eapply makes_num_ext; [exact Ho|]. intros I. cbv beta. unfold q, four_way.
    rewrite (four_way_value (bv_udiv sz)) by done. symmetry. apply sdiv_value.
  - circuit (or_neg_ok _ _ npr Hnpr) np Hnp. circuit (or_neg_ok _ _ nnr Hnnr) nn Hnn.
    eapply spec_mono; [by apply (mk_sign_multiplexer_ok a b (fun sa sb I =>
      if sa : bool then bv_neg sz (r sa sb I) else r sa sb I))|].
    intros out Ho. eapply makes_num_ext; [exact Ho|]. intros I. cbv beta. unfold r, four_way.
    rewrite (four_way_value (bv_urem sz)) by done. symmetry. apply srem_value.
  - eapply spec_bind; [apply (or_false_ok _ (fun I => bv_sub sz (uval I sz b) (r true false I)))|].
    { intros Hc. eapply spec_bind; [apply (mk_subtracter_ok G); [done|exact (proj1 (proj2 Hnpr))]|]. intros [o c] [Ho _].
      apply spec_ret. eapply makes_num_ext; [exact Ho|]. intros I. cbv beta.
      by rewrite (guarded_value _ _ _ I Hnpr Hc). }
    intros np Hnp.
    eapply spec_bind; [apply (or_false_ok _ (fun I => bv_add sz (uval I sz b) (r false true I)))|].
    { intros Hc. eapply spec_mono; [apply (mk_adder_ok G); [done|exact (proj1 (proj2 Hpnr))]|]. intros o Ho.
      eapply makes_num_ext; [exact Ho|]. intros I. cbv beta. by rewrite (guarded_value _ _ _ I Hpnr Hc). }
    intros pn Hpn. circuit (or_neg_ok _ _ nnr Hnnr) nn Hnn.
    eapply spec_mono; [by apply (mk_sign_multiplexer_ok a b (fun sa sb I =>
      if sa : bool then (if sb : bool then bv_neg sz (r sa sb I) else bv_sub sz (uval I sz b) (r sa sb I))
      else if sb : bool then bv_add sz (uval I sz b) (r sa sb I) else r sa sb I))|].
    intros out Ho. eapply makes_num_ext; [exact Ho|]. intros I. cbv beta. unfold r, four_way.
    rewrite (four_way_value (bv_urem sz)), !msb_neg by done. done.
Qed.
End SignedCircuits.
