(* ===== verification/BlastMul.v ===== *)
(** * BlastMul: multiplication circuits and their tests for overflow

    Constant, Booth-recoded, array and Wallace-tree multipliers, and
    [mk_multiplier], which selects among them, compute the product modulo
    [2^sz].  *)
From Stdlib Require Import ZArith Lia.
From stdpp Require Import base list.
From S2P Require Import Prelude Bits UBits Ast AstFacts TermFacts Gates Blast BlastFacts BlastAdd.
Local Open Scope Z_scope.

(** ** Finite sums *)

Fixpoint zsum (f : nat -> Z) (n : nat) : Z :=
  match n with
  | O => 0
  | S n' => zsum f n' + f n'
  end.

Lemma zsum_ext f g n : (forall i, (i < n)%nat -> f i = g i) -> zsum f n = zsum g n.
Proof. induction n as [|n IH]; intros H; simpl; [done|]. rewrite IH by auto. by rewrite H by lia. Qed.

Lemma zsum_add f g n : zsum (fun i => f i + g i) n = zsum f n + zsum g n.
Proof. induction n as [|n IH]; simpl; [done|]. rewrite IH. lia. Qed.

Lemma zsum_mul c f n : zsum (fun i => c * f i) n = c * zsum f n.
Proof. induction n as [|n IH]; simpl; [lia|]. rewrite IH. lia. Qed.

Lemma zsum_divide c f n : (forall i, (i < n)%nat -> (c | f i)) -> (c | zsum f n).
Proof.
  induction n as [|n IH]; intros H; simpl; [apply Z.divide_0_r|].
  apply Z.divide_add_r; [apply IH; auto|]. apply H. lia.
Qed.

Lemma ubits_zsum f n : ubits f n = zsum (fun i => pow2 i * Z.b2z (f i)) n.
Proof. induction n as [|n IH]; simpl; [done|]. by rewrite IH. Qed.

(** ** The product by partial products *)

Section Products.
Context (f g : nat -> bool).

(** The partial products of the [n] low bits, each cut to [n] bits. *)
Definition partials (n : nat) : Z :=
  zsum (fun j => Z.b2z (f j) * pow2 j * ubits g (n - j)) n.

(** The diagonal [n]: the products of bits of total weight [2^n]. *)
Definition diagonal (n : nat) : Z :=
  zsum (fun j => Z.b2z (f j) * Z.b2z (g (n - j)%nat)) (S n).

Lemma partials_mod n : partials n mod pow2 n = (ubits f n * ubits g n) mod pow2 n.
Proof.
  assert (D : (pow2 n | ubits f n * ubits g n - partials n)).
  { rewrite (ubits_zsum f n), Z.mul_comm, <- zsum_mul. unfold partials.
    assert (E : forall u v, zsum u n - zsum v n = zsum (fun j => u j - v j) n).
    { intros u v. rewrite (zsum_ext (fun j => u j - v j) (fun j => u j + -1 * v j)) by (intros; lia).
      rewrite zsum_add, zsum_mul. lia. }
    rewrite E. apply zsum_divide. intros j Hj. rewrite (ubits_split g (n - j) n) by lia.
    set (rest := ubits _ (n - (n - j))). exists (rest * Z.b2z (f j)).
    replace (pow2 n) with (pow2 (n - j) * pow2 j) by (rewrite <- pow2_add; f_equal; lia). lia. }
  destruct D as [k Hk]. replace (ubits f n * ubits g n) with (partials n + k * pow2 n) by lia.
  rewrite Z.mod_add; [done|]. pose proof (pow2_pos n). lia.
Qed.

Lemma partials_S n : partials (S n) = partials n + pow2 n * diagonal n.
Proof.
  unfold partials, diagonal. cbn [zsum]. rewrite Nat.sub_diag.
  rewrite Z.mul_add_distr_l, <- zsum_mul. replace (S n - n)%nat with 1%nat by lia.
  rewrite (zsum_ext _ (fun j => Z.b2z (f j) * pow2 j * ubits g (n - j)
            + pow2 n * (Z.b2z (f j) * Z.b2z (g (n - j)%nat)))).
  - rewrite zsum_add. simpl ubits. rewrite pow2_0. lia.
  - intros j Hj. replace (S n - j)%nat with (S (n - j)) by lia. simpl ubits.
    replace (pow2 n) with (pow2 (n - j) * pow2 j) by (rewrite <- pow2_add; f_equal; lia). lia.
Qed.
End Products.

Lemma add_mod_congr n x x' y y' :
  x mod pow2 n = x' mod pow2 n -> y mod pow2 n = y' mod pow2 n ->
  (x + y) mod pow2 n = (x' + y') mod pow2 n.
Proof.
  pose proof (pow2_pos n). intros Ex Ey.
  by rewrite Z.add_mod, Ex, Ey, <- Z.add_mod by lia.
Qed.

Section Booth.
Context `{Env} (G : Gates) {OK : GatesOk G}.

(** ** Booth recoding *)

(** Adding [x << i] to the number [u + p * h] at its high part alone. *)
Lemma high_add p q u h x N : 0 < p -> 0 < q -> 0 <= u < p -> u + p * h = N mod (p * q) ->
  u + p * ((h + x) mod q) = (N + p * x) mod (p * q).
Proof.
  intros Hp Hq Hu E. pose proof (Z.mod_pos_bound (h + x) q Hq).
  pose proof (Z.div_mod (h + x) q ltac:(lia)). pose proof (Z.div_mod N (p * q) ltac:(nia)).
  apply Z.mod_unique_pos with (q := N / (p * q) + (h + x) / q); nia.
Qed.

(** The value after writing a shorter sum over the high bits. *)
Lemma set_from_ok i sz tmp out : (i <= sz)%nat -> length out = sz -> bits out ->
  length tmp = (sz - i)%nat -> bits tmp ->
  length (set_from i sz tmp out) = sz /\ bits (set_from i sz tmp out)
  /\ forall I, uval I sz (set_from i sz tmp out) = uval I i out + pow2 i * uval I (sz - i) tmp.
Proof.
  intros Hi Lo Bo Lt Bt. unfold set_from.
  pose proof (pure_for_inv (fun k r => length r = sz /\ bits r
    /\ (forall I j, (j < i)%nat -> bit I r j = bit I out j)
    /\ (forall I j, (j < k)%nat -> bit I r (i + j) = bit I tmp j)) 0 (sz - i)
    (fun j out => <[(i + j)%nat := tmp !!! j]> out) out) as P.
  destruct P as (L & B & V1 & V2); [lia| | |].
  - split; [done|]. split; [done|]. split; [done|]. intros; lia.
  - intros k r Hk (L & B & V1 & V2). split; [by rewrite length_insert|].
    split; [apply bits_insert; auto with bits|]. split.
    + intros I j Hj. rewrite bit_insert_ne by lia. auto.
    + intros I j Hj. destruct (decide (j = k)) as [->|].
      * by rewrite bit_insert by lia.
      * rewrite bit_insert_ne by lia. apply V2. lia.
  - split; [done|]. split; [done|]. intros I. unfold uval at 1. rewrite (ubits_split _ i sz Hi).
    f_equal; [by apply ubits_ext; auto|]. f_equal. apply ubits_ext. auto.
Qed.

(** The accumulator holds [(A - last * 2^i) * b] for the [i] bits [A] read. *)
Definition booth_inv (sz : nat) (a b : list expr) (i : nat) (x : list expr * bool) : Prop :=
  let '(out, last) := x in
  makes_num sz (fun I => ((uval I i a - pow2 i * Z.b2z last) * uval I sz b) mod pow2 sz) out.

Lemma booth_step sz a b i out last now m d :
  (i < sz)%nat -> (forall I, bit I a i = now) -> bits m ->
  booth_inv sz a b i (out, last) ->
  (forall I, uval I (sz - i) m mod pow2 (sz - i) = (d * uval I sz b) mod pow2 (sz - i)) ->
  d = Z.b2z last - Z.b2z now ->
  spec (tmp ← mk_adder (sz - i) (drop i out) m; mret (set_from i sz tmp out, now))
    (booth_inv sz a b (S i)).
Proof.
  intros Hi Hn Bm (L & B & V) Vm Hd.
  eapply spec_bind; [apply mk_adder_ok; auto with bits|]. intros tmp (Lt & Bt & Vt). apply spec_ret.
  destruct (set_from_ok i sz tmp out) as (L' & B' & V'); [lia|done..|].
  split; [done|]. split; [done|]. intros I. cbv beta. rewrite V', Vt, uval_drop, uval_S, Hn.
  unfold bv_add. pose proof (pow2_pos (sz - i)). pose proof (pow2_pos i).
  rewrite <- Z.add_mod_idemp_r, Vm, Z.add_mod_idemp_r by lia.
  rewrite (high_add _ _ _ _ _ ((uval I i a - pow2 i * Z.b2z last) * uval I sz b)); try done.
  - rewrite <- pow2_add. replace (i + (sz - i))%nat with sz by lia. f_equal. rewrite pow2_S. lia.
  - apply uval_bounds.
  - rewrite <- pow2_add. replace (i + (sz - i))%nat with sz by lia. rewrite <- V.
    symmetry. apply ubits_split. lia.
Qed.

Lemma low_mod_eq I n k b : (k <= n)%nat -> uval I k b mod pow2 k = uval I n b mod pow2 k.
Proof. intros Hk. unfold uval. rewrite (ubits_low_mod _ k n Hk). apply ubits_mod. Qed.

Lemma booth_loop_ok sz a b mb n :
  is_numeral_bits sz a = Some n -> bits b ->
  makes_num sz (fun I => bv_neg sz (uval I sz b)) mb ->
  spec (booth_loop sz a b mb)
    (fun r => makes_num sz (fun I => bv_mul sz (uval I sz a) (uval I sz b)) r.1).
Proof.
  intros [Hc _]%is_numeral_bits_spec Bb (Lm & Bm & Vm). unfold booth_loop.
  eapply spec_mono; [apply (spec_for (booth_inv sz a b)); [lia| |]|].
  - split; [apply length_replicate|]. split; [auto with bits|]. intros I. by rewrite uval_false.
  - intros i [out last] Hi Hinv. cbv zeta.
    assert (Hn : forall I, bit I a i = m.is_true (a !!! i)) by (intros I; apply is_bool_const_bval, Hc; lia).
    assert (Vb : forall I, uval I (sz - i) b mod pow2 (sz - i) = (1 * uval I sz b) mod pow2 (sz - i))
      by (intros I; rewrite Z.mul_1_l; apply low_mod_eq; lia).
    assert (Vn : forall I, uval I (sz - i) mb mod pow2 (sz - i) = (-1 * uval I sz b) mod pow2 (sz - i)).
    { intros I. rewrite (low_mod_eq I sz) by lia. rewrite Vm. unfold bv_neg.
      rewrite (pow2_split (sz - i) sz) by lia.
      rewrite Z.rem_mul_r by (pose proof (pow2_pos (sz - i)); pose proof (pow2_pos (sz - (sz - i))); lia).
      rewrite Z.mul_comm, Z.mod_add, Z.mod_mod by (pose proof (pow2_pos (sz - i)); lia). f_equal; lia. }
    destruct (m.is_true (a !!! i)) eqn:En, last; cbn [andb negb].
    + apply spec_ret. destruct Hinv as (L & B & V). split; [done|]. split; [done|]. intros I.
      rewrite V, uval_S, Hn, pow2_S. f_equal. simpl Z.b2z. lia.
    + by apply (booth_step sz a b i out false true mb (-1) ltac:(lia) Hn Bm Hinv Vn).
    + by apply (booth_step sz a b i out true false b 1 ltac:(lia) Hn Bb Hinv Vb).
    + apply spec_ret. destruct Hinv as (L & B & V). split; [done|]. split; [done|]. intros I.
      rewrite V, uval_S, Hn, pow2_S. f_equal. simpl Z.b2z. lia.
  - intros [out last] Hinv. eapply makes_num_ext; [exact Hinv|]. intros I. cbv beta. unfold bv_mul.
    rewrite <- (Z.mod_add (uval I sz a * uval I sz b) (- Z.b2z last * uval I sz b))
      by (pose proof (pow2_pos sz); lia). f_equal. lia.
Qed.
End Booth.

(** ** The case split on the bits that are not constant *)

Definition const_upto (n : nat) (a : list expr) : Prop :=
  forall j, (j < n)%nat -> is_bool_const (a !!! j) = true.

Lemma skip_consts_spec n i sz l : (i <= sz)%nat -> const_upto i l ->
  (i <= skip_consts n i sz l <= sz)%nat /\ const_upto (skip_consts n i sz l) l.
Proof.
  revert i. induction n as [|n IH]; intros i Hi Hc; simpl; [by split; [lia|]|].
  destruct (Nat.ltb_spec i sz); simpl; [|by split; [lia|]].
  destruct (is_bool_const (l !!! i)) eqn:E; [|by split; [lia|]].
  destruct (IH (S i)) as (B & C); [lia| |by split; [lia|]].
  intros j Hj. destruct (decide (j = i)) as [->|]; [done|apply Hc; lia].
Qed.

Lemma const_upto_insert i v l : (i < length l)%nat -> const_upto i l -> is_bool_const v = true ->
  const_upto (S i) (<[i := v]> l).
Proof.
  intros Hl Hc Hv j Hj. destruct (decide (j = i)) as [->|].
  - by rewrite list_lookup_total_insert_eq.
  - rewrite list_lookup_total_insert_ne by done. apply Hc. lia.
Qed.

Lemma const_upto_numeral sz l : const_upto sz l -> exists n, is_numeral_bits sz l = Some n.
Proof.
  unfold is_numeral_bits. intros Hc. assert (H : forall j, (0 <= j < 0 + sz)%nat ->
    is_bool_const (l !!! j) = true) by (intros; apply Hc; lia). clear Hc. revert H.
  generalize 0%nat as i. generalize 0 as r.
  induction sz as [|n IH]; intros r i H; simpl; [eauto|].
  pose proof (H i ltac:(lia)) as Hi. unfold is_bool_const in Hi.
  destruct (m.is_true (l !!! i)); [apply IH; intros; apply H; lia|].
  simpl in Hi. rewrite Hi. apply IH. intros. apply H. lia.
Qed.

(** Setting a bit to its value under an interpretation. *)
Lemma uval_insert I sz i x a : (i < length a)%nat -> bval I x = bit I a i ->
  uval I sz (<[i := x]> a) = uval I sz a.
Proof.
  intros Hi E. apply uval_ext. intros j Hj. destruct (decide (j = i)) as [->|].
  - by rewrite bit_insert.
  - by rewrite bit_insert_ne by lia.
Qed.

(** Selecting between two results bit by bit. *)
Lemma makes_num_ite sz x z1 z2 o1 o2 : boolx x -> makes_num sz z1 o1 -> makes_num sz z2 o2 ->
  makes_num sz (fun I => if bval I x then z1 I else z2 I)
    (map (fun j => m.mk_ite x (o1 !!! j) (o2 !!! j)) (seq 0 sz)).
Proof.
  intros Bx (L1 & B1 & V1) (L2 & B2 & V2). split; [by rewrite length_map, length_seq|]. split.
  - apply Forall_map, Forall_true. intros j. apply boolx_ite. auto with bits.
  - intros I. rewrite <- V1, <- V2. destruct (bval I x) eqn:E; apply uval_ext; intros i Hi;
      unfold bit; rewrite lookup_total_map_seq by done; by rewrite bval_ite, E.
Qed.

(** Where the case split stands: everything before it is constant. *)
Definition case_pos (is_a : bool) (i sz : nat) (a b : list expr) : Prop :=
  (i <= sz)%nat /\ const_upto (if is_a then i else sz) a /\ (is_a = false -> const_upto i b).

Definition case_measure (is_a : bool) (i sz : nat) : nat := (if is_a then S sz else 0) + (sz - i).

Lemma next_var_spec is_a i sz a b : case_pos is_a i sz a b ->
  let '(is_a', i') := next_var is_a i sz a b in
  case_pos is_a' i' sz a b /\ (case_measure is_a' i' sz <= case_measure is_a i sz)%nat
  /\ (is_a' = true -> (i' < sz)%nat).
Proof.
  intros (Hi & Ca & Cb). unfold next_var, case_pos, case_measure. destruct is_a; simpl.
  - destruct (skip_consts_spec sz i sz a Hi Ca) as [B C].
    destruct (Nat.eqb_spec (skip_consts sz i sz a) sz) as [E|E].
    + rewrite E in C. destruct (skip_consts_spec sz 0 sz b) as [B' C']; [lia|intros ?; lia|].
      split; [split; [lia|by split]|]. split; [lia|done].
    + split; [split; [lia|by split]|]. split; [lia|lia].
  - destruct (skip_consts_spec sz i sz b Hi (Cb eq_refl)) as [B C].
    split; [split; [lia|by split]|]. split; [lia|done].
Qed.

Lemma case_multiplier_ok fuel is_a i sz a b :
  (case_measure is_a i sz < fuel)%nat -> case_pos is_a i sz a b ->
  length a = sz -> length b = sz -> bits a -> bits b ->
  exists out, case_multiplier fuel is_a i sz a b = Some out
    /\ makes_num sz (fun I => bv_mul sz (uval I sz a) (uval I sz b)) out.
Proof.
  revert is_a i a b. induction fuel as [|n IH]; intros is_a i a b Hf Hp La Lb Ba Bb; [lia|].
  cbn [case_multiplier]. pose proof (next_var_spec is_a i sz a b Hp) as Hn.
  destruct (next_var is_a i sz a b) as [is_a' i']. destruct Hn as ((Hi & Ca & Cb) & Hm & Hlt).
  destruct (Nat.ltb_spec i' sz) as [Hi'|Hi'].
  - set (x := if is_a' then a !!! i' else b !!! i').
    set (aw v := if is_a' then <[i' := v]> a else a).
    set (bw v := if is_a' then b else <[i' := v]> b).
    assert (Hw : forall v, is_bool_const v = true -> boolx v ->
      exists out, case_multiplier n is_a' (S i') sz (aw v) (bw v) = Some out
        /\ makes_num sz (fun I => bv_mul sz (uval I sz (aw v)) (uval I sz (bw v))) out).
    { intros v Cv Bv. apply IH; unfold aw, bw.
      - unfold case_measure in *. lia.
      - split; [lia|]. destruct is_a'; split; try done; intros; by apply const_upto_insert; auto; lia.
      - destruct is_a'; [by rewrite length_insert|done].
      - destruct is_a'; [done|by rewrite length_insert].
      - destruct is_a'; auto with bits.
      - destruct is_a'; auto with bits. }
    assert (Hv : forall I v, bval I v = bval I x ->
      bv_mul sz (uval I sz (aw v)) (uval I sz (bw v)) = bv_mul sz (uval I sz a) (uval I sz b)).
    { intros I v Ev. unfold aw, bw, x in *. destruct is_a'; by rewrite uval_insert by (done || lia). }
    destruct (Hw m.mk_true) as (o1 & E1 & M1); [done|apply boolx_true|].
    destruct (Hw m.mk_false) as (o2 & E2 & M2); [done|apply boolx_false|].
    unfold aw, bw in E1, E2. rewrite E1. cbn [mbind option_bind]. rewrite E2. cbn [mbind option_bind].
    eexists. split; [reflexivity|].
    eapply makes_num_ext; [apply makes_num_ite; [by unfold x; destruct is_a'; auto with bits|done|done]|].
    intros I. cbv beta. destruct (bval I x) eqn:Ex; apply Hv; by rewrite Ex.
  - destruct is_a'; [by specialize (Hlt eq_refl); lia|]. replace i' with sz in * by lia.
    destruct (const_upto_numeral sz a Ca) as [na Ea]. destruct (const_upto_numeral sz b (Cb eq_refl)) as [nb Eb].
    rewrite Ea, Eb. cbn. eexists. split; [reflexivity|].
    pose proof (proj2 (is_numeral_bits_spec _ _ _ Ea)) as Va.
    pose proof (proj2 (is_numeral_bits_spec _ _ _ Eb)) as Vb.
    eapply makes_num_ext; [apply num2bits_makes|intros I; by rewrite Va, Vb].
    rewrite <- (Va (fun _ _ _ _ => VBool false)), <- (Vb (fun _ _ _ _ => VBool false)).
    apply Z.mul_nonneg_nonneg; apply uval_bounds.
Qed.

Section Multipliers.
Context `{Env} (G : Gates) {OK : GatesOk G} (m_use_wtm m_use_bcm : bool).

(** A vector that holds the product of the inputs. *)
Definition product (sz : nat) (a b : list expr) : list expr -> Prop :=
  makes_num sz (fun I => bv_mul sz (uval I sz a) (uval I sz b)).

Lemma product_comm sz a b out : product sz a b out -> product sz b a out.
Proof.
  intros Hp. eapply makes_num_ext; [exact Hp|]. intros I. cbv beta. unfold bv_mul. by rewrite Z.mul_comm.
Qed.

(** The case split computes the product, although its caller discards it. *)
Lemma mk_const_case_multiplier_ok sz a b : bits a -> bits b ->
  spec (mk_const_case_multiplier sz a b)
    (fun r => r.1 = false /\ (r.2 = [] \/ product sz a b r.2)).
Proof.
  intros Ba Bb. unfold mk_const_case_multiplier. cbv zeta. destruct (_ <=? _).
  { apply spec_ret. by split; [|left]. }
  destruct (case_multiplier_ok (2 * sz + 2) true 0 sz (slice 0 sz a) (slice 0 sz b)) as (out & -> & Ho);
    try apply length_slice; try (by apply bits_slice).
  - unfold case_measure. lia.
  - split; [lia|]. split; [intros j Hj; lia|done].
  - apply spec_ret. split; [done|]. right. eapply makes_num_ext; [exact Ho|]. intros I. cbv beta.
    by rewrite !uval_slice.
Qed.

Lemma mk_const_multiplier_ok sz a b : bits a -> bits b ->
  spec (mk_const_multiplier m_use_bcm sz a b)
    (fun r => forall out, r = Some out -> product sz a b out).
Proof.
  intros Ba Bb. unfold mk_const_multiplier.
  destruct (is_numeral_bits sz a) as [n|] eqn:En; [|by apply spec_ret].
  eapply spec_bind; [by apply mk_const_case_multiplier_ok|]. intros [d o] [E _]. simpl in E. subst d.
  destruct m_use_bcm; [|by apply spec_ret]. cbn [negb].
  eapply spec_bind; [by apply mk_neg_ok|]. intros mb Hmb.
  eapply spec_bind; [by apply (booth_loop_ok G sz a b mb n)|]. intros [out l] Ho. apply spec_ret.
  by intros ? [= <-].
Qed.

(** It accepts exactly when Booth recoding is enabled. *)
Lemma mk_const_multiplier_total sz a b k : bits a -> bits b -> is_numeral_bits sz a = Some k ->
  spec (mk_const_multiplier m_use_bcm sz a b) (fun r =>
    match r with
    | Some out => m_use_bcm = true /\ makes_num sz (fun I => bv_mul sz k (uval I sz b)) out
    | None => m_use_bcm = false
    end).
Proof.
  intros Ba Bb Hk. pose proof (mk_const_multiplier_ok sz a b Ba Bb) as Hp. revert Hp.
  unfold mk_const_multiplier. rewrite Hk. intros Hp.
  pose proof (mk_const_case_multiplier_ok sz a b Ba Bb) as Hc. intros s. specialize (Hp s). specialize (Hc s).
  revert Hp. unfold mbind, M_bind. destruct (mk_const_case_multiplier sz a b s) as [[d o] s1|e]; [|done].
  destruct Hc as [Hd _]. simpl in Hd. subst d. destruct m_use_bcm; [|done]. cbn [negb].
  destruct (mk_neg sz b s1) as [mb s2|e]; [|done]. destruct (booth_loop sz a b mb s2) as [[out l] s3|e]; [|done].
  simpl. intros Hp. split; [done|]. eapply makes_num_ext; [by apply Hp|]. intros I. cbv beta.
  by rewrite (proj2 (is_numeral_bits_spec _ _ _ Hk)).
Qed.

(** ** The array multiplier *)

(** The carries of a column, each of the weight of the next column. *)
Definition carries (I : interp) (cs : list expr) : Z := zsum (fun j => Z.b2z (bit I cs j)) (length cs).

Lemma carries_snoc I cs c : carries I (cs ++ [c]) = carries I cs + Z.b2z (bval I c).
Proof.
  unfold carries. rewrite length_app. simpl. rewrite Nat.add_1_r. simpl. rewrite bit_snoc. f_equal.
  apply zsum_ext. intros i Hi. by rewrite bit_app_l.
Qed.

Lemma b2z_and x y : Z.b2z (x && y) = Z.b2z x * Z.b2z y.
Proof. by destruct x, y. Qed.

Section Columns.
Context (a b : list expr).
Hypothesis Ba : bits a.
Hypothesis Bb : bits b.

(** The first [j] products and carries that enter the column [i]. *)
Definition column_sum (I : interp) (i : nat) (cins : list expr) (j : nat) : Z :=
  zsum (fun k => Z.b2z (bit I a k) * Z.b2z (bit I b (i - k))) j
  + zsum (fun k => Z.b2z (bit I cins k)) (j - 2).

Lemma column_sum_S I i cins j : (2 <= j)%nat ->
  column_sum I i cins (S j)
  = column_sum I i cins j + Z.b2z (bit I a j) * Z.b2z (bit I b (i - j)) + Z.b2z (bit I cins (j - 2)).
Proof.
  intros Hj. unfold column_sum. replace (S j - 2)%nat with (S (j - 2)) by lia. cbn [zsum]. lia.
Qed.

Lemma column_sum_2 I i cins : column_sum I i cins 2
  = Z.b2z (bit I a 0 && bit I b i) + Z.b2z (bit I a 1 && bit I b (i - 1)).
Proof. unfold column_sum. simpl. rewrite Nat.sub_0_r, !b2z_and. lia. Qed.

Lemma mul_column_ok i cins : (1 <= i)%nat -> length cins = (i - 1)%nat -> bits cins ->
  spec (mul_column i a b cins) (fun r => boolx r.1 /\ bits r.2 /\ length r.2 = i
    /\ forall I, Z.b2z (bval I r.1) + 2 * carries I r.2
                 = diagonal (bit I a) (bit I b) i + carries I cins).
Proof.
  intros Hi Lc Bc. unfold mul_column.
  gate (mk_and2_computes G) i1 B1 V1. gate (mk_and2_computes G) i2 B2 V2.
  eapply spec_bind; [by apply (mk_half_adder_ok G)|]. intros [o c] [[Bo Vo] [Bco Vco]]. cbn [fst snd] in *.
  eapply spec_mono.
  { apply (spec_for (fun j (x : expr * list expr) => boolx x.1 /\ bits x.2 /\ length x.2 = (j - 1)%nat
      /\ forall I, Z.b2z (bval I x.1) + 2 * carries I x.2 = column_sum I i cins j)); [lia| |].
    - split; [done|]. split; [by apply (bits_snoc []); [apply bits_nil|]|]. split; [done|]. intros I.
      cbn [fst snd]. change [c] with ([] ++ [c]). rewrite carries_snoc, column_sum_2, Vo, Vco.
      rewrite V1, V2. unfold carries. cbn [zsum length]. rewrite Z.add_0_l. apply half_add.
    - intros j [out cs] Hj (Bout & Bcs & Lcs & V). cbn [fst snd] in *.
      gate (mk_and2_computes G) i3 B3 V3.
      eapply spec_bind; [apply (mk_full_adder_ok G); auto with bits|].
      intros [o' c'] [[Bo' Vo'] [Bc' Vc']]. cbn [fst snd] in *. apply spec_ret. cbn [fst snd].
      split; [done|]. split; [by apply bits_snoc|]. split; [rewrite length_app; simpl; lia|].
      intros I. rewrite carries_snoc, column_sum_S, <- (V I), Vo', Vc' by lia.
      pose proof (full_add (bval I i3) (bval I out) (bval I (cins !!! (j - 2)%nat))) as F.
      rewrite V3, b2z_and in F. unfold bit. rewrite V3. lia. }
  intros [out cs] (Bout & Bcs & Lcs & V). cbn [fst snd] in *. split; [done|]. split; [done|].
  split; [lia|]. intros I. rewrite V. unfold column_sum, carries, diagonal. by rewrite Lc.
Qed.

Lemma mul_last_column_ok i cins : (1 <= i)%nat -> length cins = (i - 1)%nat -> bits cins ->
  spec (mul_last_column i a b cins) (fun r => boolx r
    /\ forall I, exists k, Z.b2z (bval I r) + 2 * k = diagonal (bit I a) (bit I b) i + carries I cins).
Proof.
  intros Hi Lc Bc. unfold mul_last_column.
  gate (mk_and2_computes G) i1 B1 V1. gate (mk_and2_computes G) i2 B2 V2. gate mk_xor_computes o Bo Vo.
  eapply spec_mono.
  { apply (spec_for (fun j x => boolx x
      /\ forall I, exists k, Z.b2z (bval I x) + 2 * k = column_sum I i cins j)); [lia| |].
    - split; [done|]. intros I. exists (Z.b2z (bval I i1 && bval I i2)).
      by rewrite column_sum_2, Vo, half_add, V1, V2.
    - intros j out Hj (Bout & V).
      gate (mk_and2_computes G) i3 B3 V3. eapply spec_mono; [apply mk_xor3_computes; auto with bits|].
      intros o' [Bo' Vo']. split; [done|]. intros I. destruct (V I) as [k Hk].
      exists (k + Z.b2z (maj (bval I i3) (bval I out) (bval I (cins !!! (j - 2)%nat)))).
      rewrite column_sum_S, <- Hk, Vo' by lia.
      pose proof (full_add (bval I i3) (bval I out) (bval I (cins !!! (j - 2)%nat))) as F.
      rewrite V3, b2z_and in F. unfold bit. rewrite V3. lia. }
  intros out (Bout & V). split; [done|]. intros I. destruct (V I) as [k Hk]. exists k. rewrite Hk.
  unfold column_sum, carries, diagonal. by rewrite Lc.
Qed.
End Columns.

Definition array_inv (sz : nat) (a b : list expr) (i : nat) (x : list expr * list expr) : Prop :=
  let '(out, cins) := x in
  length out = i /\ bits out
  /\ (forall I, uval I i out = partials (bit I a) (bit I b) i mod pow2 i)
  /\ ((i < sz)%nat -> length cins = (i - 1)%nat /\ bits cins
      /\ forall I, uval I i out + pow2 i * carries I cins = partials (bit I a) (bit I b) i).

Lemma array_step sz a b i out cins t cs :
  (i < sz)%nat -> array_inv sz a b i (out, cins) -> boolx t ->
  (forall I, exists k, Z.b2z (bval I t) + 2 * k = diagonal (bit I a) (bit I b) i + carries I cins
     /\ ((S i < sz)%nat -> k = carries I cs)) ->
  ((S i < sz)%nat -> length cs = i /\ bits cs) ->
  array_inv sz a b (S i) (out ++ [t], cs).
Proof.
  intros Hi (L & B & _ & V) Bt Hk Hcs. destruct (V Hi) as (_ & _ & VC). clear V.
  assert (E : forall I, exists k, uval I (S i) (out ++ [t]) + pow2 (S i) * k
                                  = partials (bit I a) (bit I b) (S i)
                       /\ ((S i < sz)%nat -> k = carries I cs)).
  { intros I. destruct (Hk I) as (k & Ek & Ck). exists k. split; [|done].
    rewrite uval_snoc, partials_S, <- (VC I), pow2_S by done. nia. }
  split; [rewrite length_app; simpl; lia|]. split; [by apply bits_snoc|]. split.
  - intros I. destruct (E I) as (k & E' & _). eapply carry_mod; [apply uval_bounds|exact E'].
  - intros Hlt. destruct (Hcs Hlt) as [Lc Bc]. split; [lia|]. split; [done|].
    intros I. destruct (E I) as (k & E' & Ck). by rewrite <- (Ck Hlt).
Qed.

Lemma mk_array_multiplier_ok sz a b : (0 < sz)%nat -> bits a -> bits b ->
  spec (mk_array_multiplier sz a b) (product sz a b).
Proof.
  intros Hsz Ba Bb. unfold mk_array_multiplier. gate (mk_and2_computes G) o Bo Vo.
  eapply (spec_bind _ _ (array_inv sz a b sz)).
  { apply (spec_for (array_inv sz a b)); [lia| |].
    - assert (P1 : forall I, uval I 1 [o] = partials (bit I a) (bit I b) 1).
      { intros I. unfold partials. cbn [zsum Nat.sub ubits]. rewrite uval_S, uval_0, pow2_0.
        unfold bit at 1. cbn. rewrite Vo, b2z_and. unfold bit. lia. }
      split; [done|]. split; [by apply (bits_snoc []); [apply bits_nil|]|]. split.
      + intros I. rewrite <- P1. symmetry. apply ubits_mod.
      + intros _. split; [done|]. split; [apply bits_nil|]. intros I. rewrite P1. unfold carries. simpl. lia.
    - intros i [out cins] Hi Hinv. eapply spec_bind; [apply spec_checkpoint|]. intros _ _.
      destruct (proj2 (proj2 (proj2 Hinv))) as (Lc & Bc & _); [lia|].
      destruct (Nat.ltb_spec i (sz - 1)).
      + eapply spec_bind; [by apply mul_column_ok; [| |lia|..]|].
        intros [t cs] (Bt & Bcs & Lcs & V). apply spec_ret. cbn [fst snd] in *.
        eapply array_step; [lia|exact Hinv|done| |done]. intros I. exists (carries I cs). done.
      + eapply spec_bind; [by apply mul_last_column_ok; [| |lia|..]|].
        intros t (Bt & V). apply spec_ret.
        eapply array_step; [lia|exact Hinv|done| |lia]. intros I. destruct (V I) as [k Hk].
        exists k. split; [done|lia]. }
  intros [out cins] (L & B & V & _). apply spec_ret. split; [done|]. split; [done|].
  intros I. rewrite V. apply partials_mod.
Qed.

(** ** The Wallace tree *)

(** [sz]-bit summands whose sum is [z] modulo [2^sz]. *)
Definition sum_of (I : interp) (sz : nat) (pps : list (list expr)) : Z :=
  foldr (fun p s => uval I sz p + s) 0 pps.

Definition summands (sz : nat) (z : interp -> Z) (pps : list (list expr)) : Prop :=
  Forall (fun p => length p = sz /\ bits p) pps /\ forall I, sum_of I sz pps mod pow2 sz = z I mod pow2 sz.

Lemma total_snoc I sz pps p : sum_of I sz (pps ++ [p]) = sum_of I sz pps + uval I sz p.
Proof. unfold sum_of. induction pps as [|q pps IH]; simpl; [lia|]. rewrite IH. lia. Qed.

Lemma partial_product_ok sz i a b : (i < sz)%nat -> bits a -> bits b ->
  spec (partial_product sz i a b)
    (makes_num sz (fun I => Z.b2z (bit I b i) * pow2 i * uval I (sz - i) a)).
Proof.
  intros Hi Ba Bb. unfold partial_product.
  eapply spec_bind; [apply (push_loop_makes _ _ (fun I j => bit I a j && bit I b i))|].
  { intros j Hj. apply (mk_and2_computes G); auto with bits. }
  intros t (L & B & V). apply spec_ret. split; [rewrite length_app, length_replicate; lia|].
  split; [auto with bits|]. intros I. unfold uval at 1. rewrite (ubits_split _ i sz) by lia.
  rewrite (ubits_false _ i).
  2: { intros j Hj. rewrite bit_app_l by (by rewrite length_replicate). apply bit_false_replicate. }
  rewrite (ubits_ext _ (fun j => bit I a j && bit I b i)).
  2: { intros j Hj. rewrite bit_app_r by (rewrite length_replicate; lia). rewrite length_replicate.
       replace (i + j - i)%nat with j by lia. by apply V. }
  destruct (bit I b i); simpl.
  - rewrite (ubits_ext _ (bit I a)) by (intros; apply andb_true_r). unfold uval. by destruct (pow2 i).
  - rewrite (ubits_false _ (sz - i)) by (intros; apply andb_false_r). lia.
Qed.

Lemma partial_products_ok sz a b : bits a -> bits b ->
  spec (partial_products sz a b) (fun pps => length pps = sz
    /\ summands sz (fun I => uval I sz a * uval I sz b) pps).
Proof.
  intros Ba Bb. unfold partial_products.
  eapply spec_mono.
  { apply (spec_for (fun i pps => length pps = i /\ Forall (fun p => length p = sz /\ bits p) pps
      /\ forall I, sum_of I sz pps = zsum (fun j => Z.b2z (bit I b j) * pow2 j * uval I (sz - j) a) i)); [lia| |].
    { split; [done|]. split; [constructor|done]. }
    intros i pps Hi (L & F & V). eapply spec_bind; [apply spec_checkpoint|]. intros _ _.
    eapply spec_bind; [by apply partial_product_ok; [lia|..]|]. intros p (Lp & Bp & Vp). apply spec_ret.
    split; [rewrite length_app; simpl; lia|]. split; [by apply Forall_app; split; [|constructor]|].
    intros I. rewrite total_snoc, V, Vp. done. }
  intros pps (L & F & V). split; [done|]. split; [done|]. intros I. rewrite V, Z.mul_comm.
  apply (partials_mod (bit I b) (bit I a) sz).
Qed.

(** A carry that leaves the width is dropped. *)
Lemma uval_take_carry I sz c : length c = S sz ->
  uval I sz (take (length c - 1) c) mod pow2 sz = uval I (S sz) c mod pow2 sz.
Proof.
  intros L. rewrite L. replace (S sz - 1)%nat with sz by lia.
  rewrite (uval_ext I sz (take sz c) c) by (intros; by apply bit_take).
  unfold uval. rewrite (ubits_low_mod _ sz (S sz)) by lia. apply ubits_mod.
Qed.

Lemma wallace_round_ok sz pps :
  Forall (fun p => length p = sz /\ bits p) pps ->
  spec (wallace_round pps) (fun r => Forall (fun p => length p = sz /\ bits p) r
    /\ (forall I, sum_of I sz r mod pow2 sz = sum_of I sz pps mod pow2 sz)
    /\ (length r <= length pps)%nat /\ ((2 <= length pps)%nat -> (2 <= length r)%nat)
    /\ ((3 <= length pps)%nat -> (length r < length pps)%nat)).
Proof.
  remember (length pps) as n eqn:Hn. revert pps Hn.
  induction n as [n IH] using lt_wf_ind. intros pps Hn F. subst n.
  destruct pps as [|p1 [|p2 [|p3 rest]]];
    try (apply spec_ret; split; [done|split; [done|simpl; lia]]).
  simpl wallace_round. eapply spec_bind; [apply spec_checkpoint|]. intros _ _.
  inversion F as [|? ? [L1 B1] F1]; subst. inversion F1 as [|? ? [L2 B2] F2]; subst.
  inversion F2 as [|? ? [L3 B3] F3]; subst.
  eapply spec_bind; [by apply (mk_carry_save_adder_ok G)|].
  intros [s c] (Ls & Lc & Bs & Bc & V). cbn [fst snd] in *.
  eapply spec_bind; [apply (IH (length rest)); [simpl; lia|done|done]|].
  intros r (Fr & Vr & Hle & H2 & H3). apply spec_ret. split.
  { constructor; [done|]. constructor; [|done]. split; [rewrite length_take; lia|by apply bits_take]. }
  split; [|simpl; lia]. intros I. simpl. specialize (V I). specialize (Vr I).
  pose proof (uval_take_carry I _ c Lc) as T. pose proof (pow2_pos (length p1)).
  rewrite !Z.add_assoc, <- V. apply add_mod_congr; [|done]. by apply add_mod_congr.
Qed.

Lemma wallace_loop_ok fuel sz z pps :
  (2 <= length pps <= fuel + 2)%nat -> summands sz z pps ->
  spec (wallace_loop fuel pps) (fun r => length r = 2%nat /\ summands sz z r).
Proof.
  revert pps. induction fuel as [|n IH]; intros pps Hl [F V]; simpl wallace_loop.
  { replace (length pps) with 2%nat by lia. simpl. apply spec_ret. split; [lia|done]. }
  destruct (Nat.eqb_spec (length pps) 2) as [E|E]; [by apply spec_ret|].
  eapply spec_bind; [by apply (wallace_round_ok sz)|]. intros r (Fr & Vr & Hle & H2 & H3).
  apply IH; [lia|]. split; [done|]. intros I. by rewrite Vr.
Qed.

Lemma mk_wallace_multiplier_ok sz a b : (0 < sz)%nat -> bits a -> bits b ->
  spec (mk_wallace_multiplier sz a b) (product sz a b).
Proof.
  intros Hsz Ba Bb. unfold mk_wallace_multiplier. destruct (Nat.eqb_spec sz 1) as [->|E].
  - gate (mk_and2_computes G) t Bt Vt. apply spec_ret. split; [done|].
    split; [by apply (bits_snoc []); [apply bits_nil|]|]. intros I.
    unfold bv_mul. rewrite !uval_S, !uval_0, pow2_0. unfold bit. simpl. rewrite Vt.
    by destruct (bval I (a !!! 0%nat)), (bval I (b !!! 0%nat)).
  - eapply spec_bind; [by apply partial_products_ok|]. intros pps [L S].
    eapply spec_bind; [apply (wallace_loop_ok sz sz (fun I => uval I sz a * uval I sz b)); [lia|exact S]|].
    intros r [Lr [F V]]. destruct r as [|p [|q [|? ?]]]; simpl in Lr; try lia.
    inversion F as [|? ? [L1 B1] F1]; subst. inversion F1 as [|? ? [L2 B2] _]; subst.
    eapply spec_mono; [by apply mk_adder_ok|]. intros out Ho.
    eapply makes_num_ext; [exact Ho|]. intros I. cbv beta. specialize (V I). simpl in V.
    rewrite Z.add_0_r in V. exact V.
Qed.

(** ** The dispatcher *)

Lemma mk_multiplier_core sz a b n : (0 < sz)%nat -> bits a -> bits b ->
  (forall k, is_numeral_bits sz a = Some k -> is_numeral_bits sz b = Some n) ->
  spec (if is_minus_one sz b then mk_neg sz a
        else match is_numeral_bits sz a with
             | Some n_a => mret (num2bits (n_a * n) sz)
             | None =>
                 r ← mk_const_multiplier m_use_bcm sz a b;
                 match r with
                 | Some out => mret out
                 | None =>
                     r ← mk_const_multiplier m_use_bcm sz b a;
                     match r with
                     | Some out => mret out
                     | None => if negb m_use_wtm then mk_array_multiplier sz a b
                               else mk_wallace_multiplier sz a b
                     end
                 end
             end) (product sz a b).
Proof.
  intros Hsz Ba Bb Hn. destruct (is_minus_one sz b) eqn:Em.
  { eapply spec_mono; [by apply mk_neg_ok|]. intros out Ho. eapply makes_num_ext; [exact Ho|].
    intros I. cbv beta. rewrite (is_minus_one_spec _ _ Em I). unfold bv_neg, bv_mul.
    rewrite <- (Z.mod_add (- _) (uval I sz a)) by (pose proof (pow2_pos sz); lia). f_equal. lia. }
  destruct (is_numeral_bits sz a) as [na|] eqn:Ea.
  { apply spec_ret. pose proof (proj2 (is_numeral_bits_spec _ _ _ Ea)) as Va.
    pose proof (proj2 (is_numeral_bits_spec _ _ _ (Hn na eq_refl))) as Vb.
    eapply makes_num_ext; [apply num2bits_makes|intros I; by rewrite Va, Vb].
    rewrite <- (Va (fun _ _ _ _ => VBool false)), <- (Vb (fun _ _ _ _ => VBool false)).
    apply Z.mul_nonneg_nonneg; apply uval_bounds. }
  eapply spec_bind; [by apply mk_const_multiplier_ok|]. intros [out|] Ho; [by apply spec_ret, Ho|].
  eapply spec_bind; [by apply mk_const_multiplier_ok|].
  intros [out'|] Ho'; [by apply spec_ret, product_comm, Ho'|].
  destruct m_use_wtm; [by apply mk_wallace_multiplier_ok|by apply mk_array_multiplier_ok].
Qed.

Lemma mk_multiplier_ok sz a b : (0 < sz)%nat -> bits a -> bits b ->
  spec (mk_multiplier m_use_wtm m_use_bcm sz a b) (product sz a b).
Proof.
  intros Hsz Ba Bb. unfold mk_multiplier. destruct (is_numeral_bits sz a) as [n|] eqn:En.
  - eapply spec_mono; [by apply (mk_multiplier_core sz b a n)|]. intros. by apply product_comm.
  - apply (mk_multiplier_core sz a b 0); [done..|]. intros k. by rewrite En.
Qed.
End Multipliers.

(** ** The tests for multiplication overflow

    The circuits multiply with one extra bit and look for two leading bits
    whose weights already exceed the width.  Together the two tests are exact:
    the circuit is true exactly when the product is in range. *)
(** ** Leading bits *)

Lemma ubits_top f n :
  ubits f n = 0 \/ exists p, (p < n)%nat /\ f p = true /\ pow2 p <= ubits f n < pow2 (S p).
Proof.
  induction n as [|n IH]; [by left|]. simpl. pose proof (ubits_bounds f n). pose proof (pow2_S n).
  destruct (f n) eqn:E; simpl.
  - right. exists n. split; [lia|]. split; [done|]. lia.
  - rewrite Z.mul_0_r, Z.add_0_r. destruct IH as [IH|(p & Hp & Fp & B)]; [by left|].
    right. exists p. split; [lia|done].
Qed.

(** Two set bits whose weights multiply to at least [2^n]. *)
Definition meets (f g : nat -> bool) (n : nat) : Prop :=
  exists p i, (p < n)%nat /\ (i < n)%nat /\ (n <= p + i)%nat /\ f p = true /\ g i = true.

Lemma meets_ge f g n : meets f g n -> pow2 n <= ubits f n * ubits g n.
Proof.
  intros (p & i & Hp & Hi & Hn & Fp & Gi). pose proof (ubits_ge_bit f n p Hp Fp).
  pose proof (ubits_ge_bit g n i Hi Gi). pose proof (pow2_le_mono n (p + i) Hn) as M.
  rewrite pow2_add in M. pose proof (pow2_pos p). pose proof (pow2_pos i). nia.
Qed.

Lemma not_meets f g n : ~ meets f g n ->
  ubits f n = 0 \/ ubits g n = 0
  \/ exists x y, ubits f n < x /\ ubits g n < y /\ 0 < x /\ 0 < y /\ x * y <= 2 * pow2 n.
Proof.
  intros N. destruct (ubits_top f n) as [?|(p & Hp & Fp & Bp)]; [by left|].
  destruct (ubits_top g n) as [?|(i & Hi & Gi & Bi)]; [by right; left|].
  right. right. exists (pow2 (S p)), (pow2 (S i)). split; [lia|]. split; [lia|].
  split; [apply pow2_pos|]. split; [apply pow2_pos|].
  assert (L : (p + i < n)%nat).
  { destruct (decide (n <= p + i)%nat); [|lia]. destruct N. by exists p, i. }
  rewrite <- pow2_add, <- pow2_S. apply pow2_le_mono. lia.
Qed.

(** What the loops accumulate up to [j]: a set bit among the [k] highest of
    [f] below [n], met by a bit [i] of [g]. *)
Definition seen (f : nat -> bool) (n i : nat) : Prop :=
  exists k, (1 <= k < i)%nat /\ f (n - k)%nat = true.
Definition met (f g : nat -> bool) (n j : nat) : Prop :=
  exists i, (1 <= i < j)%nat /\ g i = true /\ seen f n (S i).

Lemma seen_S f n i : (1 <= i)%nat -> seen f n (S i) <-> seen f n i \/ f (n - i)%nat = true.
Proof.
  intros Hi. split.
  - intros (k & Hk & Fk). destruct (decide (k = i)) as [->|]; [by right|]. left. exists k. by split; [lia|].
  - intros [(k & Hk & Fk)|F]; [exists k|exists i]; by split; [lia|].
Qed.

Lemma met_S f g n j : (1 <= j)%nat -> met f g n (S j) <-> met f g n j \/ (seen f n (S j) /\ g j = true).
Proof.
  intros Hj. split.
  - intros (i & Hi & Gi & Si). destruct (decide (i = j)) as [->|]; [by right|]. left. exists i. by split; [lia|].
  - intros [(i & Hi & Gi & Si)|[S Gj]]; [exists i|exists j]; by split; [lia|].
Qed.

Lemma seen_1 f n : ~ seen f n 1.
Proof. intros (k & ? & _). lia. Qed.

Lemma met_1 f g n : ~ met f g n 1.
Proof. intros (k & ? & _). lia. Qed.

Lemma met_meets f g n : met f g n n <-> meets f g n.
Proof.
  split.
  - intros (i & Hi & Gi & k & Hk & Fk). exists (n - k)%nat, i. repeat (split; [lia|]). done.
  - intros (p & i & Hp & Hi & Hn & Fp & Gi). exists i. split; [lia|]. split; [done|].
    exists (n - p)%nat. split; [lia|]. by replace (n - (n - p))%nat with p by lia.
Qed.

(** ** The extra bits of the signed product *)

Lemma signed_extra_bits n z : - (2 * pow2 n) <= z <= 2 * pow2 n ->
  xorb (Z.testbit z (Z.of_nat (S n))) (Z.testbit z (Z.of_nat n)) = (z <? - pow2 n) || (pow2 n <=? z).
Proof.
  intros Hz. pose proof (pow2_pos n). pose proof (Z.div_mod z (pow2 n) ltac:(lia)) as D.
  pose proof (Z.mod_pos_bound z (pow2 n) ltac:(lia)).
  rewrite !Z.testbit_odd, !Z.shiftr_div_pow2 by lia. fold (pow2 n). fold (pow2 (S n)).
  rewrite pow2_S, (Z.mul_comm 2), <- Z.div_div by lia. set (q := z / pow2 n) in *.
  assert (Q : q = -2 \/ q = -1 \/ q = 0 \/ q = 1 \/ q = 2) by nia.
  assert (E : (z <? - pow2 n) || (pow2 n <=? z) = (q <? -1) || (1 <=? q)).
  { apply eq_true_iff_eq. rewrite !orb_true_iff, !Z.ltb_lt, !Z.leb_le. split; intros [?|?]; nia. }
  rewrite E. destruct Q as [Q|[Q|[Q|[Q|Q]]]]; rewrite Q; reflexivity.
Qed.

(** The magnitude below the sign bit: [A] or [- A - 1]. *)
Definition flip_sign (f : nat -> bool) (n : nat) : nat -> bool := fun i => xorb (f n) (f i).

Lemma flip_sign_value f n :
  ubits (flip_sign f n) n = if f n then - sbits f (S n) - 1 else sbits f (S n).
Proof.
  rewrite sbits_msb by lia. rewrite Nat.sub_succ, Nat.sub_0_r. unfold flip_sign. destruct (f n); cbn [xorb Z.b2z].
  - rewrite (ubits_ext _ (fun i => negb (f i))) by (intros i _; by destruct (f i)).
    rewrite ubits_negb. lia.
  - rewrite Z.mul_0_r, Z.sub_0_r. apply ubits_ext. intros i _. by destruct (f i).
Qed.

Section Magnitudes.
Context (f g : nat -> bool) (n : nat).
Local Abbreviation A := (sbits f (S n)).
Local Abbreviation B := (sbits g (S n)).

(** Without a meeting pair the product fits the extra bits... *)
Lemma not_meets_fits : ~ meets (flip_sign f n) (flip_sign g n) n ->
  - (2 * pow2 n) <= A * B <= 2 * pow2 n.
Proof.
  intros Hm%not_meets. rewrite !flip_sign_value in Hm.
  pose proof (sbits_bounds f (S n) ltac:(lia)) as BA. pose proof (sbits_bounds g (S n) ltac:(lia)) as BB.
  rewrite Nat.sub_succ, Nat.sub_0_r in BA, BB.
  pose proof (sbits_neg f (S n) ltac:(lia)) as SA. pose proof (sbits_neg g (S n) ltac:(lia)) as SB.
  rewrite Nat.sub_succ, Nat.sub_0_r in SA, SB.
  destruct (f n), (g n); (apply Z.ltb_lt in SA || apply Z.ltb_ge in SA);
    (apply Z.ltb_lt in SB || apply Z.ltb_ge in SB);
    destruct Hm as [?|[?|(x & y & ? & ? & ? & ? & ?)]]; nia.
Qed.

(** ... and with one it is out of range. *)
Lemma meets_overflows : meets (flip_sign f n) (flip_sign g n) n ->
  if eqb (f n) (g n) then pow2 n <= A * B else A * B < - pow2 n.
Proof.
  intros Hm%meets_ge. rewrite !flip_sign_value in Hm. pose proof (pow2_pos n).
  pose proof (sbits_neg f (S n) ltac:(lia)) as SA. pose proof (sbits_neg g (S n) ltac:(lia)) as SB.
  rewrite Nat.sub_succ, Nat.sub_0_r in SA, SB.
  destruct (f n), (g n); (apply Z.ltb_lt in SA || apply Z.ltb_ge in SA);
    (apply Z.ltb_lt in SB || apply Z.ltb_ge in SB); cbn [eqb]; nia.
Qed.

Lemma product_sign : if eqb (f n) (g n) then 0 <= A * B else A * B <= 0.
Proof.
  pose proof (sbits_neg f (S n) ltac:(lia)) as SA. pose proof (sbits_neg g (S n) ltac:(lia)) as SB.
  rewrite Nat.sub_succ, Nat.sub_0_r in SA, SB.
  destruct (f n), (g n); (apply Z.ltb_lt in SA || apply Z.ltb_ge in SA);
    (apply Z.ltb_lt in SB || apply Z.ltb_ge in SB); cbn [eqb]; nia.
Qed.
End Magnitudes.

(** ** The circuits *)

Section Overflow.
Context `{Env} (G : Gates) {OK : GatesOk G} (m_use_wtm m_use_bcm : bool).

(** The accumulators of both loops before step [i]. *)
Definition watch (f g : interp -> nat -> bool) (n i : nat) (acc v : expr) : Prop :=
  boolx acc /\ boolx v /\ forall I,
    (bval I acc = true <-> seen (f I) n i) /\ (bval I v = true <-> met (f I) (g I) n i).

Lemma watch_start f g n : watch f g n 1 m.mk_false m.mk_false.
Proof.
  split; [apply boolx_false|]. split; [apply boolx_false|]. intros I.
  by split; split; intros Hx; [|apply seen_1 in Hx| |apply met_1 in Hx].
Qed.

Lemma watch_step f g n i acc v acc' v' : (1 <= i)%nat -> watch f g n i acc v ->
  same_bool acc' (fun I => bval I acc || f I (n - i)%nat) ->
  same_bool v' (fun I => bval I acc' && g I i || bval I v) ->
  watch f g n (S i) acc' v'.
Proof.
  intros Hi (_ & _ & W) [Ba Va] [Bv Vv]. split; [done|]. split; [done|]. intros I.
  destruct (W I) as [Wa Wv].
  assert (Sa : bval I acc' = true <-> seen (f I) n (S i)).
  { rewrite Va, orb_true_iff, Wa. symmetry. by apply seen_S. }
  split; [done|]. rewrite Vv, orb_true_iff, andb_true_iff, Sa, Wv, met_S by done. tauto.
Qed.

(** The bits of a product are those of the exact product, up to its width. *)
Lemma product_bit I n m z k : (k < n)%nat -> uval I n m = z mod pow2 n ->
  bit I m k = Z.testbit z (Z.of_nat k).
Proof.
  intros Hk Hm. rewrite <- (ubits_testbit (bit I m) n k Hk). fold (uval I n m). rewrite Hm.
  apply Z.mod_pow2_bits_low. lia.
Qed.

Lemma uval_ext_false I sz a : uval I (S sz) (slice 0 sz a ++ [m.mk_false]) = uval I sz a.
Proof. rewrite uval_snoc by apply length_slice. rewrite uval_slice, bval_false. simpl. lia. Qed.

Lemma mk_umul_no_overflow_ok sz a b : (0 < sz)%nat -> bits a -> bits b ->
  computes (mk_umul_no_overflow m_use_wtm m_use_bcm sz a b)
    (fun I => bv_umul_no_ovfl sz (uval I sz a) (uval I sz b)).
Proof.
  intros Hsz Ba Bb. unfold mk_umul_no_overflow.
  eapply spec_bind; [apply (mk_multiplier_ok G); [lia|auto with bits..]|]. intros m (Lm & Bm & Vm).
  eapply (spec_bind _ _ (fun x => watch (fun I => bit I a) (fun I => bit I b) sz sz x.1 x.2)).
  { apply (spec_for (fun i x => watch (fun I => bit I a) (fun I => bit I b) sz i x.1 x.2)); [lia| |].
    { apply watch_start. }
    intros i [acc v] Hi Hw. pose proof Hw as (Bacc & Bv & _). cbn [fst snd] in *.
    gate (mk_or2_computes G) acc' Bacc' Va. gate (mk_and2_computes G) t Bt Vt.
    gate (mk_or2_computes G) v' Bv' Vv. apply spec_ret. cbn [fst snd].
    eapply watch_step; [lia|exact Hw|by split|]. split; [done|]. intros I. by rewrite Vv, Vt. }
  intros [acc v] (_ & Bv & W). cbn [fst snd] in *.
  gate (mk_or2_computes G) o Bo Vo.
  eapply computes_ext; [by apply mk_not_computes|]. intros I. cbv beta. rewrite Vo.
  destruct (W I) as [_ Wv]. rewrite met_meets in Wv.
  specialize (Vm I). cbv beta in Vm. change (1 + sz)%nat with (S sz) in Vm.
  rewrite !uval_ext_false in Vm. unfold bv_mul in Vm. fold (bit I m sz).
  rewrite (product_bit I (S sz) m (uval I sz a * uval I sz b) sz ltac:(lia) Vm). unfold bv_umul_no_ovfl.
  destruct (bval I v) eqn:Ev.
  - rewrite orb_true_r. symmetry. apply Z.ltb_ge. apply meets_ge, Wv. done.
  - assert (Nm : ~ meets (bit I a) (bit I b) sz) by (intros Hx; apply Wv in Hx; done).
    assert (Bd : 0 <= uval I sz a * uval I sz b < 2 * pow2 sz).
    { pose proof (uval_bounds I sz a). pose proof (uval_bounds I sz b). pose proof (pow2_pos sz).
      apply not_meets in Nm. unfold uval in *. destruct Nm as [?|[?|(x & y & ? & ? & ? & ? & ?)]]; nia. }
    rewrite orb_false_r. pose proof (pow2_pos sz).
    rewrite Z.testbit_odd, Z.shiftr_div_pow2 by lia. fold (pow2 sz).
    destruct (Z.ltb_spec (uval I sz a * uval I sz b) (pow2 sz)).
    + by rewrite Z.div_small by lia.
    + by rewrite <- (Z.div_unique_pos _ (pow2 sz) 1 (uval I sz a * uval I sz b - pow2 sz)) by lia.
Qed.

Lemma uval_ext_sign I sz a : (0 < sz)%nat ->
  uval I (S sz) (slice 0 sz a ++ [a !!! (sz - 1)%nat]) = sval I sz a mod pow2 (S sz).
Proof.
  intros Hsz. unfold sval. replace (S sz) with (sz + 1)%nat by lia.
  rewrite <- ubits_sign_extend by done. apply ubits_ext. intros i Hi.
  destruct (Nat.ltb_spec i sz) as [Hlt|Hge].
  - rewrite bit_app_l by (by rewrite length_slice). by rewrite bit_slice.
  - rewrite bit_app_r by (by rewrite length_slice). rewrite length_slice.
    by replace (i - sz)%nat with 0%nat by lia.
Qed.

(** Both tests together find the products out of the signed range. *)
Lemma signed_tests f g n z v : z = sbits f (S n) * sbits g (S n) ->
  (v = true <-> meets (flip_sign f n) (flip_sign g n) n) ->
  eqb (f n) (g n) && (xorb (Z.testbit z (Z.of_nat (S n))) (Z.testbit z (Z.of_nat n)) || v)
    = (pow2 n <=? z)
  /\ xorb (f n) (g n) && (xorb (Z.testbit z (Z.of_nat (S n))) (Z.testbit z (Z.of_nat n)) || v)
    = (z <? - pow2 n).
Proof.
  intros Hz Hv. pose proof (product_sign f g n) as S. pose proof (pow2_pos n). rewrite <- Hz in S.
  assert (X : eqb (f n) (g n) = negb (xorb (f n) (g n))) by (by destruct (f n), (g n)).
  rewrite X in *. destruct v.
  - pose proof (meets_overflows f g n (proj1 Hv eq_refl)) as O. rewrite <- Hz, X in O.
    rewrite !orb_true_r. destruct (xorb (f n) (g n)); cbn [negb andb] in *; split; symmetry;
      (apply Z.leb_le || apply Z.leb_gt || apply Z.ltb_lt || apply Z.ltb_ge); lia.
  - assert (N : ~ meets (flip_sign f n) (flip_sign g n) n) by (intros Hx; apply Hv in Hx; done).
    apply not_meets_fits in N. rewrite <- Hz in N. rewrite orb_false_r, signed_extra_bits by done.
    destruct (Z.ltb_spec z (- pow2 n)), (Z.leb_spec (pow2 n) z), (xorb (f n) (g n));
      cbn [negb andb orb] in *; split; lia || done.
Qed.

Lemma mk_smul_core_ok sz a b is_overflow : (0 < sz)%nat -> bits a -> bits b ->
  computes (mk_smul_no_overflow_core m_use_wtm m_use_bcm sz a b is_overflow)
    (fun I => if is_overflow then bv_smul_no_ovfl sz (uval I sz a) (uval I sz b)
              else bv_smul_no_udfl sz (uval I sz a) (uval I sz b)).
Proof.
  intros Hsz Ba Bb. unfold mk_smul_no_overflow_core. set (n := (sz - 1)%nat).
  eapply spec_bind; [apply (mk_multiplier_ok G); [lia|auto with bits..]|]. intros m (Lm & Bm & Vm).
  gate mk_xor_computes o1 Bo1 Vo1.
  set (f I := flip_sign (bit I a) n). set (g I := flip_sign (bit I b) n).
  eapply (spec_bind _ _ (fun x => watch f g n n x.1 x.2)).
  { destruct (decide (n = 0)%nat) as [E|E].
    { rewrite E. apply spec_ret. split; [apply boolx_false|]. split; [apply boolx_false|].
      intros I. by split; split; intros Hx; [|destruct Hx as (? & ? & _); lia| |destruct Hx as (? & ? & _); lia]. }
    apply (spec_for (fun i x => watch f g n i x.1 x.2)); [lia| |].
    { apply watch_start. }
    intros i [acc v] Hi Hw. pose proof Hw as (Bacc & Bv & _). cbn [fst snd] in *.
    gate mk_xor_computes b' Bb' Vb'. gate mk_xor_computes a' Ba' Va'.
    gate (mk_or2_computes G) acc' Bacc' Va. gate (mk_and2_computes G) t Bt Vt.
    gate (mk_or2_computes G) v' Bv' Vv. apply spec_ret. cbn [fst snd].
    eapply watch_step; [lia|exact Hw| |].
    - split; [done|]. intros I. rewrite Va, Va'. apply orb_comm.
    - split; [done|]. intros I. by rewrite Vv, Vt, Vb'. }
  intros [acc v] (_ & Bv & W). cbn [fst snd] in *.
  gate (mk_or2_computes G) o Bo Vo.
  eapply spec_bind with (P := fun r => same_bool r (fun I =>
    if is_overflow then eqb (bit I a n) (bit I b n) else xorb (bit I a n) (bit I b n))).
  { destruct is_overflow; [apply mk_iff_computes|apply mk_xor_computes]; by apply bits_lookup. }
  intros s [Bs Vs]. gate (mk_and2_computes G) w Bw Vw.
  eapply computes_ext; [by apply mk_not_computes|]. intros I. cbv beta. rewrite Vw, Vo, Vs, Vo1.
  destruct (W I) as [_ Wv]. rewrite met_meets in Wv.
  specialize (Vm I). cbv beta in Vm. change (1 + sz)%nat with (S sz) in Vm.
  unfold n in Vm. rewrite !uval_ext_sign in Vm by done. unfold bv_mul in Vm.
  rewrite <- Z.mul_mod in Vm by (pose proof (pow2_pos (S sz)); lia).
  fold (bit I m sz) (bit I m n). rewrite (product_bit I (S sz) m _ sz ltac:(lia) Vm).
  rewrite (product_bit I (S sz) m _ n ltac:(lia) Vm).
  assert (E : sz = S n) by lia. unfold sval. rewrite E in *.
  destruct (signed_tests (bit I a) (bit I b) n _ (bval I v) eq_refl Wv) as [T1 T2].
  unfold bv_smul_no_ovfl, bv_smul_no_udfl. rewrite Nat.sub_succ, Nat.sub_0_r.
  destruct is_overflow; [rewrite T1; symmetry; apply Z.ltb_antisym|rewrite T2; symmetry; apply Z.leb_antisym].
Qed.
End Overflow.
