(* ===== verification/BlastShift.v ===== *)
(** * BlastShift: shifts, rotations and extensions

    Rotations and extensions by a constant only move bits.  Shifts by a
    variable amount are barrel shifters, whose stages stop before the first
    that would move by the whole width; rotations by a variable amount select
    among all the rotations. *)
From Stdlib Require Import ZArith Lia.
From stdpp Require Import base list.
From S2P Require Import Prelude Bits UBits Ast AstFacts TermFacts Gates Blast BlastFacts BlastAdd.
From S2P Require Import BlastSigned.

Local Open Scope Z_scope.

(** ** Shifted bits *)

Definition shift_left (f : nat -> bool) (k j : nat) : bool :=
  if (k <=? j)%nat then f (j - k)%nat else false.
Definition shift_right (n : nat) (fill : bool) (f : nat -> bool) (k j : nat) : bool :=
  if (j + k <? n)%nat then f (j + k)%nat else fill.

Section ShiftValues.
Context (f : nat -> bool) (n : nat) (k : Z).
Hypothesis Hk : 0 <= k.

Lemma pow2_to_nat : pow2 (Z.to_nat k) = 2 ^ k.
Proof. unfold pow2. by rewrite Z2Nat.id. Qed.

Lemma shl_value : ubits (shift_left f (Z.to_nat k)) n = bv_shl n (ubits f n) k.
Proof.
  unfold shift_left, bv_shl. rewrite ubits_shl. destruct (Z.leb_spec (Z.of_nat n) k).
  - rewrite (pow2_split n (Z.to_nat k)) by lia. rewrite Z.mul_assoc, (Z.mul_comm _ (pow2 n)), <- Z.mul_assoc.
    rewrite Z.mul_comm. apply Z.mod_mul. pose proof (pow2_pos n). lia.
  - by rewrite pow2_to_nat.
Qed.

Lemma lshr_value : ubits (shift_right n false f (Z.to_nat k)) n = bv_lshr n (ubits f n) k.
Proof.
  unfold shift_right, bv_lshr. rewrite ubits_shr. destruct (Z.leb_spec (Z.of_nat n) k).
  - apply Z.div_small. pose proof (ubits_bounds f n). pose proof (pow2_le_mono n (Z.to_nat k)). lia.
  - by rewrite pow2_to_nat.
Qed.

Lemma ashr_value : (0 < n)%nat ->
  ubits (shift_right n (f (n - 1)%nat) f (Z.to_nat k)) n = bv_ashr n (ubits f n) k.
Proof.
  intros Hn. unfold shift_right, bv_ashr. fold (sbits f n). destruct (Z.leb_spec (Z.of_nat n) k).
  - rewrite (ubits_ext _ (fun _ => f (n - 1)%nat))
      by (intros i Hi; rewrite (proj2 (Nat.ltb_ge _ _)); [done|lia]).
    rewrite Z.leb_antisym, sbits_neg by done. pose proof (pow2_pos n).
    destruct (f (n - 1)%nat).
    + rewrite ubits_true by done. simpl negb. cbv iota. apply (Z.mod_unique_pos _ _ (-1)); lia.
    + by rewrite ubits_false.
  - rewrite ubits_ashr by lia. by rewrite pow2_to_nat.
Qed.
End ShiftValues.

(** ** Constant rotations and extensions *)

Section Static.
Context (sz : nat) (a : list expr).
Hypothesis Hsz : (0 < sz)%nat.
Hypothesis Ba : bits a.

Lemma mk_rotate_left_makes k :
  makes sz (fun I i => bit I a ((sz - k mod sz + i) mod sz)) (mk_rotate_left sz a k).
Proof.
  pose proof (Nat.mod_upper_bound k sz ltac:(lia)) as Hk. unfold mk_rotate_left. cbv zeta.
  set (j := (k mod sz)%nat) in *. split; [rewrite length_app, !length_slice; lia|].
  split; [auto with bits|]. intros I i Hi. destruct (decide (i < j)%nat).
  - rewrite bit_app_l, bit_slice by (rewrite ?length_slice; lia). f_equal. symmetry. apply Nat.mod_small. lia.
  - rewrite bit_app_r, length_slice, bit_slice by (rewrite ?length_slice; lia). f_equal.
    replace (sz - j + i)%nat with (0 + (i - j) + 1 * sz)%nat by lia.
    rewrite Nat.Div0.mod_add. symmetry. apply Nat.mod_small. lia.
Qed.

Lemma mk_rotate_left_ok k :
  makes_num sz (fun I => bv_rotl sz (uval I sz a) k) (mk_rotate_left sz a k).
Proof.
  eapply makes_num_ext; [apply makes_makes_num, mk_rotate_left_makes|]. intros I. by apply ubits_rotl.
Qed.

Lemma mk_rotate_right_ok k :
  makes_num sz (fun I => bv_rotr sz (uval I sz a) k) (mk_rotate_right sz a k).
Proof. apply mk_rotate_left_ok. Qed.

Lemma mk_sign_extend_ok k :
  makes_num (sz + k) (fun I => sval I sz a mod pow2 (sz + k)) (mk_sign_extend sz a k).
Proof.
  unfold mk_sign_extend. split; [rewrite length_app, length_slice, length_replicate; done|].
  split; [auto with bits|]. intros I. unfold sval. rewrite <- ubits_sign_extend by done.
  apply ubits_ext. intros i Hi. destruct (Nat.ltb_spec i sz) as [Hlt|Hge].
  - rewrite bit_app_l by (by rewrite length_slice). by rewrite bit_slice.
  - rewrite bit_app_r by (by rewrite length_slice). rewrite length_slice.
    by rewrite bit_replicate by lia.
Qed.

Lemma mk_zero_extend_ok k : makes_num (sz + k) (fun I => uval I sz a) (mk_zero_extend sz a k).
Proof.
  unfold mk_zero_extend. split; [rewrite length_app, length_slice, length_replicate; done|].
  split; [auto with bits|]. intros I. unfold uval at 2. rewrite <- (ubits_zero_extend _ sz k).
  apply ubits_ext. intros i Hi. destruct (Nat.ltb_spec i sz) as [Hlt|Hge].
  - rewrite bit_app_l by (by rewrite length_slice). by rewrite bit_slice.
  - rewrite bit_app_r by (by rewrite length_slice). apply bit_false_replicate.
Qed.
End Static.

(** ** The barrel shifter *)

Section Barrel.
Context `{Env} (G : Gates) {OK : GatesOk G}.
Context (sz : nat) (a b : list expr) (fill : expr).
Context (pick : nat -> nat -> list expr -> expr) (sh : interp -> nat -> nat -> bool).
Hypothesis Ba : bits a.
Hypothesis Bb : bits b.
Hypothesis Bf : boolx fill.
(** [sh I k] are the bits of [a] shifted by [k]; one stage adds to the shift. *)
Hypothesis sh_0 : forall I j, (j < sz)%nat -> sh I 0 j = bit I a j.
Hypothesis sh_large : forall I k j, (sz <= k)%nat -> (j < sz)%nat -> sh I k j = bval I fill.
Hypothesis pick_boolx : forall s j out, bits out -> boolx (pick s j out).
Hypothesis pick_sh : forall I s j k out, (j < sz)%nat ->
  (forall i, (i < sz)%nat -> bit I out i = sh I k i) -> bval I (pick s j out) = sh I (k + s) j.

Lemma of_nat_pow2 i : Z.of_nat (2 ^ i) = pow2 i.
Proof. unfold pow2. by rewrite Nat2Z.inj_pow. Qed.

Lemma shift_stages_ok n i out : (i + n = sz)%nat ->
  makes sz (fun I j => sh I (Z.to_nat (uval I i b)) j) out ->
  spec (shift_stages pick sz b n i out) (fun r => (r.1 <= sz)%nat
    /\ (r.1 = sz \/ Z.of_nat sz <= pow2 r.1)
    /\ makes sz (fun I j => sh I (Z.to_nat (uval I r.1 b)) j) r.2).
Proof.
  revert i out. induction n as [|n IH]; intros i out Hi Ho; simpl shift_stages.
  { apply spec_ret. cbn [fst snd]. replace i with sz in * by lia. by split; [|split; [left|]]. }
  eapply spec_bind; [apply spec_checkpoint|]. intros _ _.
  destruct (Nat.leb_spec sz (2 ^ i)) as [Hle|Hlt].
  { apply spec_ret. cbn [fst snd]. split; [lia|]. split; [|done]. right. rewrite <- of_nat_pow2. lia. }
  destruct Ho as (L & B & V).
  eapply spec_bind; [apply (push_loop_makes _ _ (fun I j =>
    if bit I b i then bval I (pick (2 ^ i) j out) else bit I out j))|].
  { intros j Hj. apply mk_ite_computes; auto with bits. }
  intros out' Ho'. apply IH; [lia|]. eapply makes_ext; [exact Ho'|]. intros I j Hj. cbv beta.
  rewrite uval_S. pose proof (uval_bounds I i b) as Bd. pose proof (pow2_pos i).
  destruct (bit I b i); simpl Z.b2z.
  - rewrite (pick_sh I _ j (Z.to_nat (uval I i b))) by (done || by apply V).
    f_equal. rewrite Z.mul_1_r, Z2Nat.inj_add by lia. f_equal. by rewrite <- of_nat_pow2, Nat2Z.id.
  - rewrite Z.mul_0_r, Z.add_0_r. by apply V.
Qed.

(** A set bit at [i] or above, as accumulated by the last loop. *)
Lemma large_bits I i : (i <= sz)%nat ->
  (exists j, (i <= j < sz)%nat /\ bit I b j = true) \/ uval I sz b = uval I i b.
Proof.
  intros Hi. unfold uval. rewrite (ubits_split (bit I b) i sz Hi).
  destruct (ubits (fun j => bit I b (i + j)) (sz - i)) eqn:E.
  - right. lia.
  - left. destruct (decide (Exists (fun j => bit I b j = true) (seq i (sz - i)))) as [X|X].
    + apply Exists_exists in X as (j & Hj%elem_of_seq & Bj). exists j. split; [lia|done].
    + exfalso. rewrite (ubits_false _ (sz - i)) in E; [done|]. intros j Hj.
      destruct (bit I b (i + j)) eqn:Eb; [|done]. destruct X. apply Exists_exists.
      exists (i + j)%nat. split; [apply elem_of_seq; lia|done].
  - pose proof (ubits_bounds (fun j => bit I b (i + j)) (sz - i)). lia.
Qed.

Lemma is_large_ok i : (i <= sz)%nat ->
  spec (for_range i sz (fun i is_large => mk_or [is_large; b !!! i]) m.mk_false)
    (fun r => boolx r /\ forall I, bval I r = true <-> exists j, (i <= j < sz)%nat /\ bit I b j = true).
Proof.
  intros Hi. apply (spec_for (fun n r => boolx r
    /\ forall I, bval I r = true <-> exists j, (i <= j < n)%nat /\ bit I b j = true)); [done| |].
  - split; [apply boolx_false|]. intros I. split; [done|]. intros (j & Hj & _). lia.
  - intros n r Hn [Br Vr]. eapply spec_mono; [apply (mk_or2_computes G); auto with bits|].
    intros r' [Br' Vr']. split; [done|]. intros I. rewrite Vr', orb_true_iff, Vr. split.
    + intros [(j & Hj & Bj)|Hb]; [exists j; by split; [lia|]|exists n; by split; [lia|]].
    + intros (j & Hj & Bj). destruct (decide (j = n)) as [->|]; [by right|]. left. exists j.
      by split; [lia|].
Qed.

Lemma barrel_shift_ok :
  spec (barrel_shift pick fill sz a b) (makes sz (fun I j => sh I (Z.to_nat (uval I sz b)) j)).
Proof.
  unfold barrel_shift. eapply spec_bind; [apply shift_stages_ok; [done|]|].
  { eapply makes_ext; [by apply makes_slice|]. intros I j Hj. cbv beta. rewrite uval_0. symmetry. by apply sh_0. }
  intros [i out] (Hi & Hs & L & B & V). cbn [fst snd] in *.
  eapply spec_bind; [by apply is_large_ok|]. intros l [Bl Vl].
  eapply spec_mono; [apply (spec_for (fun n r => length r = sz /\ bits r
    /\ (forall I j, (j < n)%nat -> bit I r j = if bval I l then bval I fill else bit I out j)
    /\ (forall I j, (n <= j)%nat -> bit I r j = bit I out j))); [lia| |]|].
  - split; [done|]. split; [done|]. split; [intros; lia|done].
  - intros n r Hn (Lr & Br & V1 & V2). gate mk_ite_computes t Bt Vt. apply spec_ret.
    split; [by rewrite length_insert|]. split; [by apply bits_insert|]. split.
    + intros I j Hj. destruct (decide (j = n)) as [->|].
      * rewrite bit_insert by lia. rewrite Vt. fold (bit I r n). by rewrite V2.
      * rewrite bit_insert_ne by lia. apply V1. lia.
    + intros I j Hj. rewrite bit_insert_ne by lia. apply V2. lia.
  - intros r (Lr & Br & V1 & _). split; [done|]. split; [done|]. intros I j Hj. rewrite V1 by done.
    destruct (bval I l) eqn:El.
    + apply Vl in El as (j' & Hj' & Bj'). symmetry. apply sh_large; [|done].
      destruct Hs as [Hs|Hs]; [lia|]. pose proof (pow2_le_mono i j' ltac:(lia)).
      pose proof (ubits_ge_bit (bit I b) sz j' ltac:(lia) Bj'). unfold uval. lia.
    + rewrite V by done. destruct (large_bits I i Hi) as [X| ->]; [|done].
      apply Vl in X. congruence.
Qed.
End Barrel.

Section Shifts.
Context `{Env} (G : Gates) {OK : GatesOk G}.
Context (sz : nat) (a b : list expr).
Hypothesis Ba : bits a.
Hypothesis Bb : bits b.

Lemma to_nat_min k : 0 <= k -> Z.to_nat (Z.min k (Z.of_nat sz)) = (Z.to_nat k `min` sz)%nat.
Proof. lia. Qed.

(** A constant shift to the left, cut to the width. *)
Lemma shl_const k : makes sz (fun I j => shift_left (bit I a) k j)
  (replicate (k `min` sz) m.mk_false ++ slice 0 (sz - k `min` sz) a).
Proof.
  split; [rewrite length_app, length_replicate, length_slice; lia|]. split; [auto with bits|].
  intros I j Hj. unfold shift_left. destruct (Nat.leb_spec k j).
  - rewrite bit_app_r, length_replicate, bit_slice by (rewrite ?length_replicate; lia). f_equal. lia.
  - rewrite bit_app_l by (rewrite length_replicate; lia). apply bit_false_replicate.
Qed.

Lemma shr_const fill k : boolx fill -> makes sz (fun I j => shift_right sz (bval I fill) (bit I a) k j)
  (slice (k `min` sz) (sz - k `min` sz) a ++ replicate (k `min` sz) fill).
Proof.
  intros Bf. split; [rewrite length_app, length_replicate, length_slice; lia|]. split; [auto with bits|].
  intros I j Hj. unfold shift_right. destruct (Nat.ltb_spec (j + k) sz).
  - rewrite bit_app_l, bit_slice by (rewrite ?length_slice; lia). f_equal. lia.
  - rewrite bit_app_r, length_slice by (rewrite length_slice; lia). apply bit_replicate. lia.
Qed.

Lemma numeral_nonneg k : is_numeral_bits sz b = Some k -> 0 <= k.
Proof.
  intros [_ Hv]%is_numeral_bits_spec. rewrite <- (Hv (fun _ _ _ _ => VBool false)). apply uval_bounds.
Qed.

Lemma mk_shl_bits :
  spec (mk_shl sz a b) (makes sz (fun I j => shift_left (bit I a) (Z.to_nat (uval I sz b)) j)).
Proof.
  unfold mk_shl. destruct (is_numeral_bits sz b) as [k|] eqn:Ek.
  - apply spec_ret. rewrite to_nat_min by by apply numeral_nonneg.
    eapply makes_ext; [apply shl_const|]. intros I j Hj. cbv beta.
    by rewrite (proj2 (is_numeral_bits_spec _ _ _ Ek)).
  - apply (barrel_shift_ok G sz a b m.mk_false _ (fun I k j => shift_left (bit I a) k j)); auto with bits.
    + intros I j Hj. unfold shift_left. simpl. by rewrite Nat.sub_0_r.
    + intros I k j Hk Hj. unfold shift_left. by rewrite (proj2 (Nat.leb_gt _ _)) by lia.
    + intros s j out Bo. destruct (_ <=? _)%nat; auto with bits.
    + intros I s j k out Hj Vo. unfold shift_left in *. destruct (Nat.leb_spec s j).
      * change (bval I (out !!! (j - s)%nat)) with (bit I out (j - s)). rewrite Vo by lia.
        destruct (Nat.leb_spec k (j - s)), (Nat.leb_spec (k + s) j); (done || lia || (f_equal; lia)).
      * rewrite (proj2 (Nat.leb_gt (k + s) j)) by lia. apply bval_false.
Qed.

(** Both shifts to the right, by the bit that fills. *)
Lemma barrel_right_bits fill : boolx fill ->
  spec (barrel_shift (fun s j out => if (s + j <? sz)%nat then out !!! (j + s)%nat else fill) fill sz a b)
    (makes sz (fun I j => shift_right sz (bval I fill) (bit I a) (Z.to_nat (uval I sz b)) j)).
Proof.
  intros Bf.
  apply (barrel_shift_ok G sz a b fill _ (fun I k j => shift_right sz (bval I fill) (bit I a) k j)); auto.
  - intros I j Hj. unfold shift_right. by rewrite Nat.add_0_r, (proj2 (Nat.ltb_lt _ _)).
  - intros I k j Hk Hj. unfold shift_right. by rewrite (proj2 (Nat.ltb_ge _ _)) by lia.
  - intros s j out Bo. destruct (_ <? _)%nat; auto with bits.
  - intros I s j k out Hj Vo. unfold shift_right in *. destruct (Nat.ltb_spec (s + j) sz).
    + change (bval I (out !!! (j + s)%nat)) with (bit I out (j + s)). rewrite Vo by lia.
      destruct (Nat.ltb_spec (j + s + k) sz), (Nat.ltb_spec (j + (k + s)) sz); (done || lia || (f_equal; lia)).
    + by rewrite (proj2 (Nat.ltb_ge (j + (k + s)) sz)) by lia.
Qed.

Lemma mk_lshr_bits :
  spec (mk_lshr sz a b) (makes sz (fun I j => shift_right sz false (bit I a) (Z.to_nat (uval I sz b)) j)).
Proof.
  unfold mk_lshr. destruct (is_numeral_bits sz b) as [k|] eqn:Ek.
  - apply spec_ret. rewrite to_nat_min by by apply numeral_nonneg.
    eapply makes_ext; [by apply (shr_const m.mk_false), boolx_false|]. intros I j Hj. cbv beta.
    by rewrite (proj2 (is_numeral_bits_spec _ _ _ Ek)), bval_false.
  - eapply spec_mono; [apply (barrel_right_bits m.mk_false), boolx_false|]. intros r Hr.
    eapply makes_ext; [exact Hr|]. intros I j Hj. cbv beta. by rewrite bval_false.
Qed.

Lemma mk_ashr_bits :
  spec (mk_ashr sz a b)
    (makes sz (fun I j => shift_right sz (bit I a (sz - 1)) (bit I a) (Z.to_nat (uval I sz b)) j)).
Proof.
  unfold mk_ashr. destruct (is_numeral_bits sz b) as [k|] eqn:Ek.
  - apply spec_ret. rewrite to_nat_min by by apply numeral_nonneg.
    eapply makes_ext; [by apply (shr_const (a !!! (sz - 1)%nat)), bits_lookup|]. intros I j Hj. cbv beta.
    by rewrite (proj2 (is_numeral_bits_spec _ _ _ Ek)).
  - by apply (barrel_right_bits (a !!! (sz - 1)%nat)), bits_lookup.
Qed.

Lemma mk_shl_ok : spec (mk_shl sz a b) (makes_num sz (fun I => bv_shl sz (uval I sz a) (uval I sz b))).
Proof.
  eapply spec_mono; [apply mk_shl_bits|]. intros r Hr. eapply makes_num_ext; [by apply makes_makes_num|].
  intros I. apply shl_value, uval_bounds.
Qed.

Lemma mk_lshr_ok : spec (mk_lshr sz a b) (makes_num sz (fun I => bv_lshr sz (uval I sz a) (uval I sz b))).
Proof.
  eapply spec_mono; [apply mk_lshr_bits|]. intros r Hr. eapply makes_num_ext; [by apply makes_makes_num|].
  intros I. apply lshr_value, uval_bounds.
Qed.

Lemma mk_ashr_ok : (0 < sz)%nat ->
  spec (mk_ashr sz a b) (makes_num sz (fun I => bv_ashr sz (uval I sz a) (uval I sz b))).
Proof.
  intros Hsz. eapply spec_mono; [apply mk_ashr_bits|]. intros r Hr.
  eapply makes_num_ext; [by apply makes_makes_num|]. intros I. apply ashr_value; [apply uval_bounds|done].
Qed.

(** ** Rotations by a variable amount *)

Definition rotate_value (Left : bool) (x : Z) (k : nat) : Z :=
  if Left then bv_rotl sz x k else bv_rotr sz x k.

(** The source position of bit [i] for the rotation by [j]. *)
Definition rotate_src (Left : bool) (i j : nat) : nat := ((if Left then sz + i - j else i + j) mod sz)%nat.

Lemma rotate_src_value Left f k : (0 < sz)%nat ->
  ubits (fun i => f (rotate_src Left i (k mod sz))) sz = rotate_value Left (ubits f sz) k.
Proof.
  intros Hsz. pose proof (Nat.mod_upper_bound k sz ltac:(lia)) as Hk.
  unfold rotate_value, rotate_src, bv_rotr. destruct Left; rewrite <- ubits_rotl by done;
    apply ubits_ext; intros i Hi; f_equal.
  - f_equal. lia.
  - set (j := (k mod sz)%nat) in *. destruct (decide (j = 0)%nat) as [->|].
    + rewrite Nat.sub_0_r, Nat.Div0.mod_same, Nat.sub_0_r, Nat.add_0_r.
      replace (sz + i)%nat with (i + 1 * sz)%nat by lia. by rewrite Nat.Div0.mod_add.
    + rewrite (Nat.mod_small (sz - j)) by lia. f_equal. lia.
Qed.

(** The selection among the rotations, once the amount is below [sz]. *)
Lemma rotate_select_ok Left eqs k : (0 < sz)%nat -> (forall I, 0 <= k I < Z.of_nat sz) ->
  makes sz (fun I j => k I =? Z.of_nat j) eqs -> 
  spec (for_range 0 sz (fun i out_bits =>
      checkpoint;;
      out ← for_range 1 sz (fun j out => mk_ite (eqs !!! j) (a !!! rotate_src Left i j) out) (a !!! i);
      mret (out_bits ++ [out])) [])
    (makes sz (fun I i => bit I a (rotate_src Left i (Z.to_nat (k I))))).
Proof.
  intros Hsz Hk (Le & Be & Ve).
  apply (spec_for (fun n out => makes n (fun I i => bit I a (rotate_src Left i (Z.to_nat (k I)))) out)); [lia| |].
  { split; [done|]. split; [apply bits_nil|]. intros; lia. }
  intros i out Hi (L & B & V). eapply spec_bind; [apply spec_checkpoint|]. intros _ _.
  assert (S0 : rotate_src Left i 0 = i).
  { unfold rotate_src. destruct Left.
    - replace (sz + i - 0)%nat with (i + 1 * sz)%nat by lia. rewrite Nat.Div0.mod_add. apply Nat.mod_small. lia.
    - rewrite Nat.add_0_r. apply Nat.mod_small. lia. }
  eapply spec_bind.
  { apply (spec_for (fun n r => same_bool r (fun I =>
      if (Z.to_nat (k I) <? n)%nat then bit I a (rotate_src Left i (Z.to_nat (k I))) else bit I a i))); [lia| |].
    - split; [by apply bits_lookup|]. intros I. destruct (Nat.ltb_spec (Z.to_nat (k I)) 1); [|done].
      replace (Z.to_nat (k I)) with 0%nat by lia. by rewrite S0.
    - intros j r Hj [Br Vr]. eapply computes_ext; [apply mk_ite_computes; auto with bits|].
      intros I. cbv beta. rewrite Vr. fold (bit I eqs j). rewrite Ve by lia. specialize (Hk I).
      destruct (Z.eqb_spec (k I) (Z.of_nat j)) as [E|E].
      + rewrite E, Nat2Z.id. by rewrite (proj2 (Nat.ltb_lt j (S j))) by lia.
      + destruct (Nat.ltb_spec (Z.to_nat (k I)) j), (Nat.ltb_spec (Z.to_nat (k I)) (S j)); done || lia. }
  intros r [Br Vr]. apply spec_ret. split; [rewrite length_app; simpl; lia|]. split; [by apply bits_snoc|].
  intros I j Hj. destruct (decide (j = i)) as [->|].
  - rewrite <- L, bit_snoc, Vr, L. specialize (Hk I).
    by rewrite (proj2 (Nat.ltb_lt _ _)) by lia.
  - rewrite bit_app_l by lia. apply V. lia.
Qed.

Lemma mk_ext_rotate_left_right_ok Left : (0 < sz)%nat ->
  spec (mk_ext_rotate_left_right Left sz a b)
    (makes_num sz (fun I => rotate_value Left (uval I sz a) (Z.to_nat (uval I sz b)))).
Proof.
  intros Hsz. unfold mk_ext_rotate_left_right. cbv zeta. set (variable := _ ≫= _).
  assert (Hv : spec variable
    (makes_num sz (fun I => rotate_value Left (uval I sz a) (Z.to_nat (uval I sz b))))).
  { unfold variable. destruct (num2bits_makes (Z.of_nat sz) sz ltac:(lia)) as (Ls & Bs & Vs).
    pose proof (pow2_gt_id sz) as Hp.
    eapply spec_bind; [by apply (mk_urem_ok G)|]. intros mb (Lm & Bm & Vm).
    eapply spec_bind; [by apply (mk_eqs_ok G)|]. intros eqs He.
    assert (Vk : forall I, uval I sz mb = uval I sz b mod Z.of_nat sz).
    { intros I. rewrite Vm, Vs, Z.mod_small by lia. unfold bv_urem.
      by rewrite (proj2 (Z.eqb_neq _ 0)) by lia. }
    eapply spec_mono; [apply (rotate_select_ok Left eqs (fun I => uval I sz b mod Z.of_nat sz)); [done| |]|].
    - intros I. apply Z.mod_pos_bound. lia.
    - eapply makes_ext; [exact He|]. intros I j Hj. cbv beta. by rewrite Vk.
    - intros r Hr. eapply makes_num_ext; [by apply makes_makes_num|]. intros I. cbv beta.
      pose proof (uval_bounds I sz b).
      rewrite Z2Nat.inj_mod, Nat2Z.id by lia. by apply rotate_src_value. }
  destruct (is_numeral_bits sz b) as [k|] eqn:Ek; [|done]. destruct (_ <? _); [|done].
  apply spec_ret. pose proof (proj2 (is_numeral_bits_spec _ _ _ Ek)) as Vb. unfold rotate_value.
  destruct Left; eapply makes_num_ext;
    [by apply mk_rotate_left_ok|intros I; by rewrite Vb|by apply mk_rotate_right_ok|intros I; by rewrite Vb].
Qed.
End Shifts.
