(* ===== verification/BoolRewriter.v ===== *)
(** * BoolRewriter: the Boolean simplifier

    Models [ast/rewriter/bool_rewriter.cpp] and [bool_rewriter.h].  A core
    method returns [Some (status, result)], or [None] for [BR_FAILED].
    [mk_not], [mk_eq] and [try_ite_value] touch no state and are plain
    functions; [mk_or] may run the local-context simplifier, which updates
    [m_local_ctx_cost], so it and its callers live in the monad [M].

    [expr_fast_mark1] and [expr_fast_mark2] are the lists of marked terms. *)
From Stdlib Require Import ZArith Lia.
From stdpp Require Import base list.
From S2P Require Import Prelude Bits Ast.

(** [br_status] without [BR_FAILED], which is [None]. *)
Inductive br_status := BR_REWRITE1 | BR_REWRITE2 | BR_REWRITE3 | BR_REWRITE_FULL | BR_DONE.

Definition br_result : Type := option (br_status * expr).

(** The parameters of [bool_rewriter_params]. *)
Record bool_rewriter := {
  m_flat : bool;
  m_local_ctx : bool;
  m_elim_and : bool;
  m_blast_distinct : bool;
  m_blast_distinct_threshold : Z;
  m_ite_extra_rules : bool;
  m_local_ctx_limit : Z;
  m_elim_ite : bool;
}.

(** The defaults of [bool_rewriter_params.pyg]. *)
Definition default_params : bool_rewriter := {|
  m_flat := true; m_local_ctx := false; m_elim_and := false; m_blast_distinct := false;
  m_blast_distinct_threshold := 2 ^ 32 - 1; m_ite_extra_rules := false;
  m_local_ctx_limit := 2 ^ 32 - 1; m_elim_ite := true |}.

Definition set_flat (f : bool) (r : bool_rewriter) : bool_rewriter := {|
  m_flat := f; m_local_ctx := m_local_ctx r; m_elim_and := m_elim_and r;
  m_blast_distinct := m_blast_distinct r;
  m_blast_distinct_threshold := m_blast_distinct_threshold r;
  m_ite_extra_rules := m_ite_extra_rules r; m_local_ctx_limit := m_local_ctx_limit r;
  m_elim_ite := m_elim_ite r |}.

Definition set_elim_and (f : bool) (r : bool_rewriter) : bool_rewriter := {|
  m_flat := m_flat r; m_local_ctx := m_local_ctx r; m_elim_and := f;
  m_blast_distinct := m_blast_distinct r;
  m_blast_distinct_threshold := m_blast_distinct_threshold r;
  m_ite_extra_rules := m_ite_extra_rules r; m_local_ctx_limit := m_local_ctx_limit r;
  m_elim_ite := m_elim_ite r |}.

(** ** The cost counter, an [unsigned] that wraps *)

Definition add_cost (n : nat) : M unit := fun s =>
  Ok tt (mk_st ((m_local_ctx_cost s + Z.of_nat n) mod 2 ^ 32) (m_ticks s)).

Definition get_cost : M Z := fun s => Ok (m_local_ctx_cost s) s.

Definition reset_local_ctx_cost : M unit := fun s => Ok tt (mk_st 0 (m_ticks s)).

(** ** Marks *)

Definition is_marked (marks : list expr) (e : expr) : bool := bool_decide (e ∈ marks).

(** ** Sizes

    The measure under which the recursive calls of the simplifier decrease:
    an if-then-else weighs five, every other application one. *)
Fixpoint weight (e : expr) : nat :=
  match e with
  | App o args => (match o with OP_ITE => 5 | _ => 1 end) + sum_list (map weight args)
  end.

(** ** Equality of an if-then-else tree of values with a value *)

Fixpoint try_ite_value (ite val : expr) {struct ite} : br_result :=
  match ite with
  | App OP_ITE [cond; t; e] =>
      if m.are_distinct val e then
        Some (BR_REWRITE2, m.mk_and [m.mk_eq t val; cond])
      else if m.are_distinct val t then
        Some (BR_REWRITE2, m.mk_and [m.mk_eq e val; m.mk_not cond])
      else if m.are_equal val t then
        if m.are_equal val e then Some (BR_DONE, m.mk_true)
        else Some (BR_REWRITE2, m.mk_or [m.mk_eq e val; cond])
      else if m.are_equal val e then
        Some (BR_REWRITE2, m.mk_or [m.mk_eq t val; m.mk_not cond])
      else if match m.is_ite t with
              | Some (_, t2, e2) => m.is_value t2 && m.is_value e2 | None => false end then
        match try_ite_value t val with
        | Some (_, r) => Some (BR_REWRITE2, m.mk_ite cond r (m.mk_eq e val))
        | None => None
        end
      else if match m.is_ite e with
              | Some (_, t2, e2) => m.is_value t2 && m.is_value e2 | None => false end then
        match try_ite_value e val with
        | Some (_, r) => Some (BR_REWRITE2, m.mk_ite cond (m.mk_eq t val) r)
        | None => None
        end
      else None
  | _ => None
  end.

Section BoolRewriter.
Context (rw : bool_rewriter).

(** ** Equality and negation

    [mk_eq_core] calls [mk_not]; [mk_not_core] calls [mk_not] and [mk_eq].
    [mk_eq_core_with] is [mk_eq_core] over the negation it calls. *)

(** [fold (iff (iff a b) (iff (not a) b)) to false]. *)
Definition iff_opposed (lhs rhs : expr) : bool :=
  match m.is_eq lhs, m.is_eq rhs with
  | Some (la, lb), Some (ra, rb) =>
      (bool_decide (la = ra) &&
        (bool_decide (m.is_not rb = Some lb) || bool_decide (m.is_not lb = Some rb)))
      || (bool_decide (lb = rb) &&
        (bool_decide (m.is_not ra = Some la) || bool_decide (m.is_not la = Some ra)))
  | _, _ => false
  end.

Definition try_extra_rules (lhs rhs : expr) : br_result :=
  if m_ite_extra_rules rw then
    match m.is_ite lhs with
    | Some _ =>
        if m.is_value rhs then try_ite_value lhs rhs
        else match m.is_ite rhs with
             | Some _ => if m.is_value lhs then try_ite_value rhs lhs else None
             | None => None end
    | None =>
        match m.is_ite rhs with
        | Some _ => if m.is_value lhs then try_ite_value rhs lhs else None
        | None => None end
    end
  else None.

Definition mk_eq_bool_with (mk_not : expr -> expr) (lhs0 rhs0 : expr) : br_result :=
  let '(lhs, rhs, unfolded) :=
    match m.is_not lhs0, m.is_not rhs0 with
    | Some l, Some r => (l, r, true)
    | _, _ => (lhs0, rhs0, false)
    end in
  if m.is_true lhs then Some (BR_DONE, rhs)
  else if m.is_false lhs then Some (BR_DONE, mk_not rhs)
  else if m.is_true rhs then Some (BR_DONE, lhs)
  else if m.is_false rhs then Some (BR_DONE, mk_not lhs)
  else if m.is_complement lhs rhs then Some (BR_DONE, m.mk_false)
  else if unfolded then Some (BR_DONE, m.mk_eq lhs rhs)
  else if iff_opposed lhs rhs then Some (BR_DONE, m.mk_false)
  else None.

Definition mk_eq_core_with (mk_not : expr -> expr) (lhs rhs : expr) : br_result :=
  if m.are_equal lhs rhs then Some (BR_DONE, m.mk_true)
  else if m.are_distinct lhs rhs then Some (BR_DONE, m.mk_false)
  else match try_extra_rules lhs rhs with
       | Some r => Some r
       | None => if m.is_bool lhs then mk_eq_bool_with mk_not lhs rhs else None
       end.

Definition mk_eq_with (mk_not : expr -> expr) (lhs rhs : expr) : expr :=
  match mk_eq_core_with mk_not lhs rhs with
  | Some (_, r) => r
  | None => m.mk_eq lhs rhs
  end.

Definition mk_not_core_with (mk_not : expr -> expr) (t : expr) : br_result :=
  match m.is_not t with
  | Some a => Some (BR_DONE, a)
  | None =>
      if m.is_true t then Some (BR_DONE, m.mk_false)
      else if m.is_false t then Some (BR_DONE, m.mk_true)
      else match m.is_eq t with
           | Some (a, b) =>
               if m.is_bool a then Some (BR_DONE, mk_eq_with mk_not (mk_not a) b) else None
           | None => None
           end
  end.

Fixpoint mk_not_fuel (fuel : nat) (t : expr) : expr :=
  match fuel with
  | O => m.mk_not t
  | S n =>
      match mk_not_core_with (mk_not_fuel n) t with
      | Some (_, r) => r
      | None => m.mk_not t
      end
  end.

Definition mk_not (t : expr) : expr := mk_not_fuel (S (weight t)) t.
Definition mk_not_core (t : expr) : br_result := mk_not_core_with mk_not t.
Definition mk_eq_core (lhs rhs : expr) : br_result := mk_eq_core_with mk_not lhs rhs.
Definition mk_eq (lhs rhs : expr) : expr := mk_eq_with mk_not lhs rhs.
Definition mk_iff (lhs rhs : expr) : expr := mk_eq lhs rhs.
Definition mk_xor (lhs rhs : expr) : expr := mk_eq (mk_not lhs) rhs.

(** ** Conjunctions *)

(** One traversal of the arguments of an [and] ([or]): [unit] is the neutral
    constant, skipped; [zero] the absorbing one, which ends the traversal, as
    does a literal whose complement was met. *)
Inductive scan := Zero | Buffer (s : bool) (buffer : list expr).

Fixpoint nflat_scan (is_unit is_zero : expr -> bool) (args : list expr)
    (s : bool) (neg_lits pos_lits buffer : list expr) : scan :=
  match args with
  | [] => Buffer s buffer
  | arg :: rest =>
      if is_unit arg then nflat_scan is_unit is_zero rest true neg_lits pos_lits buffer
      else if is_zero arg then Zero
      else match m.is_not arg with
           | Some atom =>
               if is_marked neg_lits atom then
                 nflat_scan is_unit is_zero rest true neg_lits pos_lits buffer
               else if is_marked pos_lits atom then Zero
               else nflat_scan is_unit is_zero rest s (atom :: neg_lits) pos_lits
                      (buffer ++ [arg])
           | None =>
               if is_marked pos_lits arg then
                 nflat_scan is_unit is_zero rest true neg_lits pos_lits buffer
               else if is_marked neg_lits arg then Zero
               else nflat_scan is_unit is_zero rest s neg_lits (arg :: pos_lits)
                      (buffer ++ [arg])
           end
  end.

Definition mk_nflat_and_core (args : list expr) : br_result :=
  match nflat_scan m.is_true m.is_false args false [] [] [] with
  | Zero => Some (BR_DONE, m.mk_false)
  | Buffer s [] => Some (BR_DONE, m.mk_true)
  | Buffer s [b] => Some (BR_DONE, b)
  | Buffer s buffer => if s then Some (BR_DONE, m.mk_and buffer) else None
  end.

(** Replace the arguments that are themselves [and]s ([or]s) by theirs. *)
Definition flatten (is_op : expr -> option (list expr)) (args : list expr) : list expr :=
  concat (map (fun arg => match is_op arg with Some l => l | None => [arg] end) args).

Definition has_nested (is_op : expr -> option (list expr)) (args : list expr) : bool :=
  existsb (fun arg => match is_op arg with Some _ => true | None => false end) args.

Definition mk_flat_and_core (args : list expr) : br_result :=
  if has_nested m.is_and args then
    let flat_args := flatten m.is_and args in
    match mk_nflat_and_core flat_args with
    | Some (_, r) => Some (BR_DONE, r)
    | None => Some (BR_DONE, m.mk_and flat_args)
    end
  else mk_nflat_and_core args.

(** ** Local-context simplification of disjunctions *)

Definition mk_or_app (args : list expr) : expr :=
  match args with
  | [] => m.mk_false
  | [a] => a
  | _ => m.mk_or args
  end.

(** The traversal of [simp_nested_not_or]: [None] when the disjunction under
    the negation is true, else the remaining disjuncts and whether one was
    dropped. *)
Fixpoint not_or_scan (neg_lits pos_lits args : list expr) (simp : bool) (new_args : list expr)
    : option (bool * list expr) :=
  match args with
  | [] => Some (simp, new_args)
  | arg :: rest =>
      if is_marked neg_lits arg then None
      else if is_marked pos_lits arg then not_or_scan neg_lits pos_lits rest true new_args
      else match m.is_not arg with
           | Some atom =>
               if is_marked neg_lits atom then
                 not_or_scan neg_lits pos_lits rest true new_args
               else if is_marked pos_lits atom then None
               else not_or_scan neg_lits pos_lits rest simp (new_args ++ [arg])
           | None => not_or_scan neg_lits pos_lits rest simp (new_args ++ [arg])
           end
  end.

(** [simp_nested_not_or]: [Some r] when it returns true with result [r]. *)
Definition simp_nested_not_or (args neg_lits pos_lits : list expr) : M (option expr) :=
  add_cost (length args);;
  mret (match not_or_scan neg_lits pos_lits args false [] with
        | None => Some m.mk_false
        | Some (false, _) => None
        | Some (true, []) => Some m.mk_true
        | Some (true, [a]) => Some (mk_not a)
        | Some (true, new_args) => Some (m.mk_not (m.mk_or new_args))
        end).

(** [simp_arg]: the new argument and whether it was modified. *)
Definition simp_arg (arg : expr) (neg_lits pos_lits : list expr) : expr * bool :=
  match m.is_not arg with
  | Some atom =>
      if is_marked neg_lits atom then (m.mk_false, true)
      else if is_marked pos_lits atom then (m.mk_true, true)
      else (arg, false)
  | None =>
      if is_marked neg_lits arg then (m.mk_true, true)
      else if is_marked pos_lits arg then (m.mk_false, true)
      else (arg, false)
  end.

Definition mk_nested_ite (c t e : expr) : expr :=
  if m.is_true c then t
  else if m.is_false c then e
  else if bool_decide (t = e) then t
  else if m.is_bool t then
    if m.is_true t then (if m.is_false e then c else m.mk_or [c; e])
    else if m.is_false t then
      (if m.is_true e then mk_not c else m.mk_not (m.mk_or [c; mk_not e]))
    else if m.is_true e then m.mk_or [mk_not c; t]
    else if m.is_false e || bool_decide (c = e) then
      m.mk_not (m.mk_or [mk_not c; mk_not t])
    else if bool_decide (c = t) then m.mk_or [c; e]
    else if m.is_complement_core t e then mk_eq c t
    else if m.is_complement_core e t then mk_eq c t
    else m.mk_ite c t e
  else m.mk_ite c t e.

Definition simp_nested_eq_ite (t0 : expr) (neg_lits pos_lits : list expr) : M (option expr) :=
  add_cost 3;;
  let '(t, neg) := match m.is_not t0 with Some a => (a, true) | None => (t0, false) end in
  let finish r := Some (if neg then mk_not r else r) in
  mret (match m.is_eq t with
        | Some (lhs, rhs) =>
            let '(new_lhs, m1) := simp_arg lhs neg_lits pos_lits in
            let '(new_rhs, m2) := simp_arg rhs neg_lits pos_lits in
            if m1 || m2 then finish (mk_eq new_lhs new_rhs) else None
        | None =>
            match m.is_ite t with
            | Some (c, th, el) =>
                let '(new_c, m1) := simp_arg c neg_lits pos_lits in
                let '(new_t, m2) := simp_arg th neg_lits pos_lits in
                let '(new_e, m3) := simp_arg el neg_lits pos_lits in
                if m1 || m2 || m3 then finish (mk_nested_ite new_c new_t new_e) else None
            | None => None
            end
        end).

(** The local variables of [local_ctx_simp] that one [PROCESS_ARG] updates. *)
Record ctx := mk_ctx {
  new_args : list expr;
  neg_lits : list expr;
  pos_lits : list expr;
  modified : bool;
  simp : bool;
}.

Definition push_new_arg (arg : expr) (x : ctx) : ctx :=
  match m.is_not arg with
  | Some narg =>
      if is_marked (neg_lits x) narg then x
      else mk_ctx (new_args x ++ [arg]) (narg :: neg_lits x) (pos_lits x)
             (modified x) (simp x)
  | None =>
      if is_marked (pos_lits x) arg then x
      else mk_ctx (new_args x ++ [arg]) (neg_lits x) (arg :: pos_lits x)
             (modified x) (simp x)
  end.

Definition set_modified (x : ctx) : ctx :=
  mk_ctx (new_args x) (neg_lits x) (pos_lits x) true true.

(** The first half of [PROCESS_ARG]: simplify one argument. *)
Definition simplify_arg (arg : expr) (x : ctx) : M (expr * ctx) :=
  r1 ← match m.is_not arg with
       | Some narg =>
           match m.is_or narg with
           | Some l => simp_nested_not_or l (neg_lits x) (pos_lits x)
           | None => mret None
           end
       | None => mret None
       end;
  let '(arg1, x1) := match r1 with Some a => (a, set_modified x) | None => (arg, x) end in
  r2 ← simp_nested_eq_ite arg1 (neg_lits x1) (pos_lits x1);
  mret (match r2 with Some a => (a, set_modified x1) | None => (arg1, x1) end).

(** [PROCESS_ARG]: [None] when the whole disjunction is [true]. *)
Definition process_arg (arg : expr) (x : ctx) : M (option ctx) :=
  '(arg, x) ← simplify_arg arg x;
  mret (if m.is_false arg then Some x
        else if m.is_true arg then None
        else if m_flat rw then
          match m.is_or arg with
          | Some l => Some (foldl (fun x a => push_new_arg a x) x l)
          | None => Some (push_new_arg arg x)
          end
        else Some (push_new_arg arg x)).

Fixpoint process_args (args : list expr) (x : ctx) : M (option ctx) :=
  match args with
  | [] => mret (Some x)
  | arg :: rest =>
      r ← process_arg arg x;
      match r with Some x' => process_args rest x' | None => mret None end
  end.

(** The [while (true)] loop: a forward and a backward traversal in turn,
    until a pair of them changes nothing. *)
Fixpoint local_ctx_loop (fuel : nat) (forward mod0 simp0 : bool) (args : list expr)
    : M (option expr) :=
  match fuel with
  | O => throw ExDiverge
  | S n =>
      add_cost (2 * length args);;
      r ← process_args (if forward then args else reverse args)
            (mk_ctx [] [] [] mod0 simp0);
      match r with
      | None => mret (Some m.mk_true)
      | Some x =>
          if forward then local_ctx_loop n false (modified x) (simp x) (new_args x)
          else if negb (modified x) then
            mret (if simp x then Some (mk_or_app args) else None)
          else local_ctx_loop n true false (simp x) (reverse (new_args x))
      end
  end.

Definition local_ctx_fuel (args : list expr) : nat :=
  2 * sum_list (map weight args) + 2.

Definition local_ctx_simp (args : list expr) : M (option expr) :=
  local_ctx_loop (local_ctx_fuel args) true false false args.

(** ** Disjunctions *)

Definition mk_nflat_or_core (args : list expr) : M br_result :=
  match nflat_scan m.is_false m.is_true args false [] [] [] with
  | Zero => mret (Some (BR_DONE, m.mk_true))
  | Buffer s [] => mret (Some (BR_DONE, m.mk_false))
  | Buffer s [b] => mret (Some (BR_DONE, b))
  | Buffer s buffer =>
      cost ← get_cost;
      r ← (if m_local_ctx rw && (cost <=? m_local_ctx_limit rw)%Z
           then local_ctx_simp buffer else mret None);
      mret (match r with
            | Some e => Some (BR_DONE, e)
            | None => if s then Some (BR_DONE, m.mk_or buffer) else None
            end)
  end.

Definition mk_flat_or_core (args : list expr) : M br_result :=
  if has_nested m.is_or args then
    let flat_args := flatten m.is_or args in
    r ← mk_nflat_or_core flat_args;
    mret (match r with
          | Some (_, e) => Some (BR_DONE, e)
          | None => Some (BR_DONE, m.mk_or flat_args)
          end)
  else mk_nflat_or_core args.

Definition mk_or_core (args : list expr) : M br_result :=
  if m_flat rw then mk_flat_or_core args else mk_nflat_or_core args.

Definition mk_or (args : list expr) : M expr :=
  r ← mk_or_core args;
  mret (match r with Some (_, e) => e | None => m.mk_or args end).

Definition mk_and_as_or (args : list expr) : M expr :=
  tmp ← mk_or (map mk_not args);
  mret (mk_not tmp).

Definition mk_and_core (args : list expr) : M br_result :=
  if m_elim_and rw then r ← mk_and_as_or args; mret (Some (BR_DONE, r))
  else if m_flat rw then mret (mk_flat_and_core args)
  else mret (mk_nflat_and_core args).

Definition mk_and (args : list expr) : M expr :=
  r ← mk_and_core args;
  mret (match r with Some (_, e) => e | None => m.mk_and args end).

Definition mk_implies (lhs rhs : expr) : M expr := mk_or [mk_not lhs; rhs].

Definition mk_nand (args : list expr) : M expr := tmp ← mk_and args; mret (mk_not tmp).
Definition mk_nor (args : list expr) : M expr := tmp ← mk_or args; mret (mk_not tmp).

(** ** Pairwise disequality *)

Fixpoint has_duplicate (args visited : list expr) : bool :=
  match args with
  | [] => false
  | a :: rest => is_marked visited a || has_duplicate rest (a :: visited)
  end.

Fixpoint new_diseqs (args : list expr) : list expr :=
  match args with
  | [] => []
  | a :: rest => map (fun b => m.mk_not (m.mk_eq a b)) rest ++ new_diseqs rest
  end.

Definition mk_distinct_core (args : list expr) : br_result :=
  match args with
  | [] | [_] => Some (BR_DONE, m.mk_true)
  | [a; b] => Some (BR_REWRITE2, m.mk_not (m.mk_eq a b))
  | a0 :: _ =>
      if has_duplicate args [] then Some (BR_DONE, m.mk_false)
      else if forallb m.is_unique_value args then Some (BR_DONE, m.mk_true)
      else if m.is_bool a0 then Some (BR_DONE, m.mk_false)
      else if m_blast_distinct rw
              && (Z.of_nat (length args) <? m_blast_distinct_threshold rw)%Z then
        Some (BR_REWRITE3, m.mk_and (new_diseqs args))
      else None
  end.

Definition mk_distinct (args : list expr) : expr :=
  match mk_distinct_core args with Some (_, r) => r | None => m.mk_distinct args end.

(** ** If-then-else *)

(** The rules that strip a negated condition and repeated tests. *)
Definition ite_prepare (c t e : expr) : expr * expr * expr * bool :=
  let '(c, t, e, s) :=
    match m.is_not c with Some c' => (c', e, t, true) | None => (c, t, e, false) end in
  let '(t, s) :=
    match m.is_ite t with
    | Some (c', t1, _) => if bool_decide (c' = c) then (t1, true) else (t, s)
    | None => (t, s) end in
  let '(e, s) :=
    match m.is_ite e with
    | Some (c', _, e2) => if bool_decide (c' = c) then (e2, true) else (e, s)
    | None => (e, s) end in
  (c, t, e, s).

Definition done (e : M expr) : M br_result := r ← e; mret (Some (BR_DONE, r)).

(** The Boolean if-then-else; [None]: no rule of this group applies. *)
Definition mk_bool_ite (c t e : expr) : option (M br_result) :=
  if m.is_true t && m.is_false e then Some (mret (Some (BR_DONE, c)))
  else if m.is_true t && m_elim_ite rw then Some (done (mk_or [c; e]))
  else if m.is_false t && m.is_true e then Some (mret (Some (BR_DONE, mk_not c)))
  else if m.is_false t && m_elim_ite rw then Some (done (mk_and [mk_not c; e]))
  else if m.is_true e && m_elim_ite rw then Some (done (mk_or [mk_not c; t]))
  else if m.is_false e && m_elim_ite rw then Some (done (mk_and [c; t]))
  else if bool_decide (c = e) && m_elim_ite rw then Some (done (mk_and [c; t]))
  else if bool_decide (c = t) && m_elim_ite rw then Some (done (mk_or [c; e]))
  else if m.is_complement_core t e && m_elim_ite rw then Some (mret (Some (BR_DONE, mk_eq c t)))
  else if m.is_complement_core e t && m_elim_ite rw then Some (mret (Some (BR_DONE, mk_eq c t)))
  else None.

Definition rewrite1 (c : M expr) (t e : expr) : option (M br_result) :=
  Some (new_c ← c; mret (Some (BR_REWRITE1, m.mk_ite new_c t e))).

(** The rules for nested if-then-elses, under [m_ite_extra_rules]. *)
Definition ite_then_rules (c t e : expr) : option (M br_result) :=
  match m.is_ite t with
  | None => None
  | Some (c2, t1, t2) =>
      if bool_decide (e = t1) then rewrite1 (mk_and [c; mk_not c2]) t2 e
      else if bool_decide (e = t2) then rewrite1 (mk_and [c; c2]) t1 e
      else match m.is_ite e with
           | Some (c3, e1, e2) =>
               if bool_decide (t1 = e1) && bool_decide (t2 = e2) then
                 rewrite1 (and1 ← mk_and [c; c2]; and2 ← mk_and [mk_not c; c3];
                           mk_or [and1; and2]) t1 t2
               else if bool_decide (t1 = e2) && bool_decide (t2 = e1) then
                 rewrite1 (and1 ← mk_and [c; c2]; and2 ← mk_and [mk_not c; mk_not c3];
                           mk_or [and1; and2]) t1 t2
               else None
           | None => None
           end
  end.

Definition ite_else_rules (c t e : expr) : option (M br_result) :=
  match m.is_ite e with
  | None => None
  | Some (c2, e1, e2) =>
      if bool_decide (t = e1) then rewrite1 (mk_or [c; c2]) t e2
      else if bool_decide (t = e2) then rewrite1 (mk_or [c; mk_not c2]) t e1
      else None
  end.

(** The first rule of a list that applies. *)
Definition first_rule {A} (a b : option A) : option A :=
  match a with Some x => Some x | None => b end.

Definition mk_ite_core (c0 t0 e0 : expr) : M br_result :=
  let '(c, t, e, s) := ite_prepare c0 t0 e0 in
  if m.is_true c then mret (Some (BR_DONE, t))
  else if m.is_false c then mret (Some (BR_DONE, e))
  else if bool_decide (t = e) then mret (Some (BR_DONE, t))
  else
    let extra := m_ite_extra_rules rw && m_elim_ite rw in
    match first_rule (if m.is_bool t then mk_bool_ite c t e else None)
         (first_rule (if extra then ite_then_rules c t e else None)
                     (if extra then ite_else_rules c t e else None)) with
    | Some r => r
    | None => mret (if s then Some (BR_DONE, m.mk_ite c t e) else None)
    end.

Definition mk_ite (c t e : expr) : M expr :=
  r ← mk_ite_core c t e;
  mret (match r with Some (_, x) => x | None => m.mk_ite c t e end).

(** ** Dispatch on the declaration kind *)

Definition mk_app_core (o : op) (args : list expr) : M br_result :=
  match o, args with
  | OP_EQ, [a; b] => mret (mk_eq_core a b)
  | OP_DISTINCT, _ => mret (mk_distinct_core args)
  | OP_AND, _ => mk_and_core args
  | OP_OR, _ => mk_or_core args
  | OP_NOT, [a] => mret (mk_not_core a)
  | OP_ITE, [c; t; e] => mk_ite_core c t e
  | OP_IMPLIES, [a; b] => done (mk_implies a b)
  | OP_XOR, [a] => mret (Some (BR_DONE, a))
  | OP_XOR, [a; b] => mret (Some (BR_DONE, mk_xor a b))
  | _, _ => mret None
  end.

Definition mk_app (o : op) (args : list expr) : M expr :=
  r ← mk_app_core o args;
  mret (match r with Some (_, e) => e | None => App o args end).
End BoolRewriter.

(** Examples: the default configuration simplifies on sight. *)
Definition run {A} (c : M A) : option A :=
  match c (mk_st 0 0) with Ok a _ => Some a | Throw _ => None end.
