(* ===== verification/BvRewriter.v ===== *)
(** * BvRewriter: the bit-vector simplifier

    Models [ast/rewriter/bv_rewriter.cpp] and [bv_rewriter.h]: the rules for
    comparisons, extraction, shifts, division, concatenation, rotation,
    if-then-else and the overflow tests.  A method returns
    [Some (status, result)], or [None] for [BR_FAILED], as in [BoolRewriter].
    The rules look at reference counts of terms in one place only; the count is
    a parameter there.  [m_mk_extract] caches the declaration it used last,
    which does not show, so it is [bv_util.mk_extract]. *)
From Stdlib Require Import ZArith Lia.
From stdpp Require Import base list.
From S2P Require Import Prelude Ast BvUtil BoolRewriter.
Import bv_util.

Local Open Scope Z_scope.

Module bv_rewriter.

(** The options of [bv_rewriter_params] and [poly_rewriter_params]. *)
Record params := {
  m_hi_div0 : bool;
  m_elim_sign_ext : bool;
  m_mul2concat : bool;
  m_bit2bool : bool;
  m_blast_eq_value : bool;
  m_mkbv2num : bool;
  m_ite2id : bool;
  m_split_concat_eq : bool;
  m_udiv2mul : bool;
  m_bvnot2arith : bool;
  m_bv_sort_ac : bool;
  m_trailing : bool;
  m_extract_prop : bool;
  m_bvnot_simpl : bool;
  m_le_extra : bool;
  m_urem_simpl : bool;
  m_flat : bool;
  m_som : bool;
  m_som_blowup : nat;
  m_sort_sums : bool;
  m_hoist_mul : bool;
  m_hoist_cmul : bool;
  m_ast_order : bool;
}.

Definition mk_bool_val (b : bool) : expr := if b then m.mk_true else m.mk_false.

Definition is_num (e : expr) : bool := match is_numeral e with Some _ => true | None => false end.

Section Rules.
Variable cfg : params.
Variable get_ref_count : expr -> nat.

(** ** Comparison *)

(** [concat]: without an application for one argument. *)
Definition concat (args : list expr) : expr :=
  match args with [a] => a | _ => mk_concat args end.

(** The loop of [are_eq_upto_num] over the arguments after the numerals. *)
Fixpoint same_args (l k : list expr) : bool :=
  match l, k with
  | [], _ => true
  | a :: l, b :: k => bool_decide (a = b) && same_args l k
  | _ :: _, [] => false
  end.

(** The first argument of an addition, if it is a numeral. *)
Definition leading_num (args : list expr) : option Z :=
  match args with a :: _ => fst <$> is_numeral a | [] => None end.

Definition skip_num (num : option Z) : nat := match num with Some _ => 1 | None => 0 end.

(** [are_eq_upto_num]: the common part and the two numerals.  In the code, the
    two branches for one addition test the other operand for being an addition
    with a numeral, and so always fail.  A sum whose only argument is a numeral,
    where the code reads past the arguments, is excluded. *)
Definition are_eq_upto_num (_a _b : expr) : option (expr * Z * Z) :=
  match is_bv_add _a, is_bv_add _b with
  | None, None => if decide (_a = _b) then Some (_a, 0, 0) else None
  | None, Some _ => None
  | Some _, None => None
  | Some a, Some b =>
      let num_a := leading_num a in
      let num_b := leading_num b in
      let k_a := skip_num num_a in
      let k_b := skip_num num_b in
      if (length a <=? k_a)%nat || (length b =? 0)%nat then None
      else if negb (length a - k_a =? length b - k_b)%nat then None
      else if negb (same_args (drop k_a a) (drop k_b b)) then None
      else
        let common := match num_a with
                      | Some _ => if (2 <? length a)%nat then App OP_BADD (drop 1 a) else a !!! 1%nat
                      | None => _a
                      end in
        Some (common, default 0 num_a, default 0 num_b)
  end.

Definition rw_leq_overflow (is_signed : bool) (a b : expr) : br_result :=
  if is_signed then None else
  match are_eq_upto_num a b with
  | None => None
  | Some (common, a0_val, b0_val) =>
      let sz := get_bv_size a in
      if a0_val =? b0_val then Some (BR_DONE, m.mk_true)
      else if a0_val <? b0_val then
        Some (BR_REWRITE2, mk_ule (mk_numeral (b0_val - a0_val) sz) b)
      else
        let lower := pow2 sz - a0_val in
        let upper := pow2 sz - b0_val - 1 in
        Some (BR_REWRITE2,
          if lower =? upper then m.mk_eq common (mk_numeral lower sz)
          else if b0_val =? 0 then mk_ule (mk_numeral lower sz) common
          else m.mk_and [mk_ule (mk_numeral lower sz) common; mk_ule common (mk_numeral upper sz)])
  end.

(** The arguments of a concatenation whose first one, a numeral of [sz] bits,
    loses its [sz_min] high bits. *)
Definition chop_first (val : Z) (sz sz_min : nat) (args : list expr) : expr :=
  if (sz_min <? sz)%nat then concat (mk_numeral val (sz - sz_min) :: drop 1 args)
  else concat (drop 1 args).

(** First arguments are numerals: compare their common high bits. *)
Definition leq_numerals (is_signed : bool) (a b : list expr) : br_result :=
  match a, b with
  | a0 :: _, b0 :: _ =>
      match is_numeral a0, is_numeral b0 with
      | Some (af, af_sz), Some (bf, bf_sz) =>
          let sz_min := Nat.min af_sz bf_sz in
          let high f sz :=
            norm (if (sz_min <? sz)%nat then f / pow2 (sz - sz_min) else f) sz_min is_signed in
          let hi_af := high af af_sz in
          let hi_bf := high bf bf_sz in
          if negb (hi_af =? hi_bf) then Some (BR_DONE, mk_bool_val (hi_af <? hi_bf))
          else Some (BR_REWRITE2, mk_ule (chop_first af af_sz sz_min a) (chop_first bf bf_sz sz_min b))
      | _, _ => None
      end
  | _, _ => None
  end.

(** The length of the common prefix. *)
Fixpoint common_prefix (a b : list expr) : nat :=
  match a, b with
  | x :: a, y :: b => if m.are_equal x y then S (common_prefix a b) else 0
  | _, _ => 0
  end.

Definition leq_prefix (a b : list expr) : br_result :=
  let common := common_prefix a b in
  if (common =? length a)%nat then Some (BR_DONE, m.mk_true)
  else if (0 <? common)%nat then
    Some (BR_REWRITE2, mk_ule (concat (drop common a)) (concat (drop common b)))
  else None.

Definition leq_postfix (is_signed : bool) (a b : list expr) : br_result :=
  let common := common_prefix (rev a) (rev b) in
  let new_numa := (length a - common)%nat in
  let new_numb := (length b - common)%nat in
  if (new_numa =? 0)%nat then Some (BR_DONE, m.mk_true)
  else if negb (new_numa =? length a)%nat then
    Some (BR_REWRITE2,
      (if is_signed then mk_sle else mk_ule) (concat (take new_numa a)) (concat (take new_numb b)))
  else None.

(** A result, or the next attempt. *)
Definition orelse (r : br_result) (k : br_result) : br_result :=
  match r with Some _ => r | None => k end.

Definition rw_leq_concats (is_signed : bool) (_a _b : expr) : br_result :=
  match is_concat _a, is_concat _b with
  | Some a, Some b =>
      orelse (leq_numerals is_signed a b) (orelse (leq_prefix a b) (leq_postfix is_signed a b))
  | _, _ => None
  end.

(** Search a concatenation for the bit [idx] from its last argument: the answer
    of [f] for the argument it is in, or the index that is left. *)
Definition find_part (f : expr -> nat -> bool) (idx : nat) : list expr -> bool + nat :=
  fix go (l : list expr) : bool + nat :=
    match l with
    | [] => inr idx
    | y :: l =>
        match go l with
        | inl z => inl z
        | inr i => if (get_bv_size y <=? i)%nat then inr (i - get_bv_size y)%nat else inl (f y i)
        end
    end.

Fixpoint is_zero_bit (x : expr) (idx : nat) {struct x} : bool :=
  match x with
  | App (OP_BV_NUM val _) _ => if val =? 0 then true else Z.rem (val / pow2 idx) 2 =? 0
  | App OP_CONCAT args => match find_part is_zero_bit idx args with inl z => z | inr _ => false end
  | _ => false
  end.

(** The most significant bit below [i] that is not known to be zero. *)
Fixpoint first_non_zero (b : expr) (i : nat) : option nat :=
  match i with
  | O => None
  | S i => if is_zero_bit b i then first_non_zero b i else Some i
  end.

(** The rule for [x - (x srem c1) <= c2]; the guards in the order of the code. *)
Definition leq_srem (is_signed : bool) (a : expr) (is_num2 : option Z) : br_result :=
  match is_num2, a with
  | Some r2, App OP_BADD [a1; App OP_BMUL [a3; App OP_BSREM_I [a5; a6]]] =>
      match is_numeral a3, is_numeral a6 with
      | Some (m1, sz), Some (c1, sz') =>
          let r1 := norm c1 sz' is_signed in
          if is_signed && (norm m1 sz is_signed =? -1) && (0 <? r1) && (0 <? r2)
             && bool_decide (a1 = a5) && (Z.rem r2 r1 =? 0) && (r1 + r2 - 1 <? pow2 (sz' - 1))
          then Some (BR_REWRITE2, mk_sle a1 (mk_numeral (r1 + r2 - 1) sz'))
          else None
      | _, _ => None
      end
  | _, _ => None
  end.

(** The high zero bits of the right-hand side split the comparison. *)
Definition leq_zero_bits (is_signed : bool) (a b : expr) : br_result :=
  if is_signed then None else
  let bv_sz := get_bv_size b in
  match first_non_zero b bv_sz with
  | None => Some (BR_REWRITE1, m.mk_eq a (mk_numeral 0 bv_sz))
  | Some i =>
      if (i <? bv_sz - 1)%nat then
        Some (BR_REWRITE3,
          m.mk_and [m.mk_eq (mk_extract (bv_sz - 1) (i + 1) a) (mk_numeral 0 (bv_sz - i - 1));
                    mk_ule (mk_extract i 0 a) (mk_extract i 0 b)])
      else None
  end.

Definition mk_leq_core (is_signed : bool) (a b : expr) : br_result :=
  let num e := '(r, sz) ← is_numeral e; Some (norm r sz is_signed, sz) in
  let is_num1 := num a in
  let is_num2 := num b in
  let lower sz := if is_signed then - pow2 (sz - 1) else 0 in
  let upper sz := if is_signed then pow2 (sz - 1) - 1 else pow2 sz - 1 in
  if decide (a = b) then Some (BR_DONE, m.mk_true)
  else match is_num1, is_num2 with
  | Some (r1, _), Some (r2, _) => Some (BR_DONE, mk_bool_val (r1 <=? r2))
  | _, _ =>
  orelse (match is_num2 with
          | Some (r2, sz) =>
              if r2 =? lower sz then Some (BR_REWRITE1, m.mk_eq a b)
              else if r2 =? upper sz then Some (BR_DONE, m.mk_true) else None
          | None => None
          end)
 (orelse (match is_num1 with
          | Some (r1, sz) =>
              if r1 =? lower sz then Some (BR_DONE, m.mk_true)
              else if r1 =? upper sz then Some (BR_REWRITE1, m.mk_eq a b) else None
          | None => None
          end)
 (orelse (leq_srem is_signed a (fst <$> is_num2))
 (orelse (if m_le_extra cfg then rw_leq_concats is_signed a b else None)
 (orelse (if m_le_extra cfg then rw_leq_overflow is_signed a b else None)
         (leq_zero_bits is_signed a b)))))
  end.

Definition mk_ule := mk_leq_core false.
Definition mk_sle := mk_leq_core true.

Definition mk_uge (a b : expr) : br_result :=
  orelse (mk_ule b a) (Some (BR_DONE, bv_util.mk_ule b a)).

Definition mk_sge (a b : expr) : br_result :=
  orelse (mk_sle b a) (Some (BR_DONE, bv_util.mk_sle b a)).

Definition mk_ult (a b : expr) : br_result := Some (BR_REWRITE2, m.mk_not (bv_util.mk_ule b a)).
Definition mk_slt (a b : expr) : br_result := Some (BR_REWRITE2, m.mk_not (bv_util.mk_sle b a)).

(** ** Extraction *)

(** The first part of a concatenation, or the term itself. *)
Definition conc_first (curr : expr) : option expr :=
  match is_concat curr with Some l => head l | None => Some curr end.

(** [propagate_extract]: how many high bits all arguments can lose; [0] is none. *)
Fixpoint removable_bits (all_numerals : bool) (removable : nat) (args : list expr) : nat :=
  match args with
  | [] => removable
  | curr :: args =>
      match conc_first curr with
      | None => removable_bits all_numerals removable args
      | Some curr_first =>
          if negb all_numerals then
            if (removable =? get_bv_size curr_first)%nat then removable_bits false removable args else 0
          else match is_numeral curr_first with
          | Some (_, curr_first_sz) =>
              let removable := Nat.min removable curr_first_sz in
              if (removable =? 0)%nat then 0 else removable_bits true removable args
          | None =>
              let curr_first_sz := get_bv_size curr_first in
              if (removable <? curr_first_sz)%nat then 0
              else if (curr_first_sz =? 0)%nat then 0 else removable_bits false curr_first_sz args
          end
      end
  end.

(** An argument without its [removable] high bits. *)
Definition chop_arg (removable : nat) (curr : expr) : option expr :=
  curr_first ← conc_first curr;
  let new_first :=
    match is_numeral curr_first with
    | Some (val, sz) => if (sz - removable =? 0)%nat then None else Some (mk_numeral val (sz - removable))
    | None => None
    end in
  match is_concat curr, new_first with
  | Some conc, Some f => Some (mk_concat (f :: drop 1 conc))
  | Some [_], None => None
  | Some [_; y], None => Some y
  | Some conc, None => Some (mk_concat (drop 1 conc))
  | None, _ => new_first
  end.

Definition propagate_extract (high : nat) (arg : expr) : option (nat * expr) :=
  match arg with
  | App (OP_BADD as o) args | App (OP_BMUL as o) args =>
      let sz := get_bv_size arg in
      let to_remove := if (high + 1 <? sz)%nat then (sz - high - 1)%nat else 0%nat in
      if (to_remove =? 0)%nat then None
      else
        let removable := removable_bits true to_remove args in
        if (removable =? 0)%nat then None
        else Some (removable, App o (omap (chop_arg removable) args))
  | _ => None
  end.

(** The arguments after the first one the extraction reaches. *)
Fixpoint extract_rest (low idx : nat) (used_extract : bool) (new_args args : list expr) : br_result :=
  match args with
  | [] => None
  | curr :: args =>
      let curr_sz := get_bv_size curr in
      let idx := (idx - curr_sz)%nat in
      if (low <? idx)%nat then extract_rest low idx used_extract (new_args ++ [curr]) args
      else if (idx =? low)%nat then
        Some (if used_extract then BR_REWRITE2 else BR_DONE, mk_concat (new_args ++ [curr]))
      else Some (BR_REWRITE2, mk_concat (new_args ++ [mk_extract (curr_sz - 1) (low - idx) curr]))
  end.

(** Extraction from a concatenation; [idx] bits remain. *)
Fixpoint extract_concat (high low idx : nat) (args : list expr) : br_result :=
  match args with
  | [] => None
  | curr :: args =>
      let curr_sz := get_bv_size curr in
      let idx := (idx - curr_sz)%nat in
      if (high <? idx)%nat then extract_concat high low idx args
      else if (idx <=? low)%nat then
        if (low =? idx)%nat && (high - idx =? curr_sz - 1)%nat then Some (BR_DONE, curr)
        else Some (BR_REWRITE1, mk_extract (high - idx) (low - idx) curr)
      else if (high - idx =? curr_sz - 1)%nat then extract_rest low idx false [curr] args
      else extract_rest low idx true [mk_extract (high - idx) 0 curr] args
  end.

(** Extraction from a numeral. *)
Definition extract_num (high low : nat) (v : Z) : expr :=
  let sz := (high - low + 1)%nat in
  let v := if v <? 0 then v mod pow2 sz else v in
  if is_uint64 v then
    mk_numeral (Z.land (shift_right v (Z.of_nat low)) (u64 (shift_left 1 (Z.of_nat sz) - 1))) sz
  else mk_numeral (v / pow2 low) sz.

Definition is_ite (e : expr) : bool := match m.is_ite e with Some _ => true | None => false end.

Definition extract_ite (high low : nat) (arg : expr) : br_result :=
  match m.is_ite arg with
  | Some (c, t, e) =>
      if ((get_ref_count t =? 1)%nat || negb (is_ite t)) && ((get_ref_count e =? 1)%nat || negb (is_ite e))
      then Some (BR_REWRITE2, m.mk_ite c (mk_extract high low t) (mk_extract high low e))
      else None
  | None => None
  end.

(** Operators an extraction moves into; sums and products from bit 0 only. *)
Definition pushes_extract (o : op) (low : nat) : bool :=
  match o with
  | OP_BNOT | OP_BOR | OP_BXOR => true
  | OP_BADD | OP_BMUL => (low =? 0)%nat
  | _ => false
  end.

(** Extraction from an operator that is not a concatenation or extraction. *)
Definition extract_op (high low : nat) (arg : expr) : br_result :=
  let 'App o args := arg in
  if pushes_extract o low then Some (BR_REWRITE2, App o (map (bv_util.mk_extract high low) args))
  else match (if m_extract_prop cfg && (low <=? high)%nat then propagate_extract high arg else None) with
  | Some (_, ep_res) => Some (BR_REWRITE2, bv_util.mk_extract high low ep_res)
  | None => extract_ite high low arg
  end.

Definition mk_extract (high low : nat) (arg : expr) : br_result :=
  let sz := get_bv_size arg in
  if (low =? 0)%nat && (high =? sz - 1)%nat then Some (BR_DONE, arg)
  else match arg with
  | App (OP_BV_NUM v _) _ => Some (BR_DONE, extract_num high low v)
  | App (OP_EXTRACT _ low2) (a :: _) => Some (BR_DONE, bv_util.mk_extract (high + low2) (low + low2) a)
  | App OP_CONCAT args => extract_concat high low sz args
  | _ => extract_op high low arg
  end.

(** ** Shifts *)

Definition mk_bv_shl (arg1 arg2 : expr) : br_result :=
  let bv_size := get_bv_size arg1 in
  match is_numeral arg2 with
  | None => None
  | Some (r2, _) =>
      if r2 =? 0 then Some (BR_DONE, arg1)
      else if Z.of_nat bv_size <=? r2 then Some (BR_DONE, mk_numeral 0 bv_size)
      else match is_numeral arg1 with
      | Some (r1, _) =>
          if (bv_size <=? 64)%nat then
            Some (BR_DONE, mk_numeral (norm (shift_left r1 r2) bv_size false) bv_size)
          else Some (BR_DONE, mk_numeral (norm (r1 * pow2 (Z.to_nat r2)) bv_size false) bv_size)
      | None =>
          let k := Z.to_nat r2 in
          Some (BR_REWRITE2, mk_concat [bv_util.mk_extract (bv_size - k - 1) 0 arg1; mk_numeral 0 k])
      end
  end.

Definition mk_bv_lshr (arg1 arg2 : expr) : br_result :=
  let bv_size := get_bv_size arg1 in
  match is_numeral arg2 with
  | None => None
  | Some (r2, _) =>
      if r2 =? 0 then Some (BR_DONE, arg1)
      else if Z.of_nat bv_size <=? r2 then Some (BR_DONE, mk_numeral 0 bv_size)
      else match is_numeral arg1 with
      | Some (r1, _) =>
          if (bv_size <=? 64)%nat then
            Some (BR_DONE, mk_numeral (norm (shift_right r1 r2) bv_size false) bv_size)
          else Some (BR_DONE, mk_numeral (r1 / pow2 (Z.to_nat r2)) bv_size)
      | None =>
          let k := Z.to_nat r2 in
          Some (BR_REWRITE2, mk_concat [mk_numeral 0 k; bv_util.mk_extract (bv_size - 1) k arg1])
      end
  end.

(** [mk_bv_ashr] on two numerals of at most 64 bits. *)
Definition ashr_word (bv_size : nat) (n1 n2_orig : Z) : Z :=
  let n := Z.of_nat bv_size in
  let n2 := n2_orig mod n in
  let r := shift_right n1 n2 in
  let sign := negb (Z.land n1 (shift_left 1 (n - 1)) =? 0) in
  let allone := u64 (shift_left 1 n - 1) in
  if n2 <? n2_orig then (if sign then allone else 0)
  else if sign then Z.lor r (Z.land (u64 (Z.lnot (u64 (shift_left 1 (n - n2) - 1)))) allone)
  else r.

(** The loop that pads a shifted negative number with ones. *)
Fixpoint pad_ones (i : nat) (r1 p : Z) : Z :=
  match i with O => r1 | S i => pad_ones i (if r1 <? p then r1 + p else r1) (p * 2) end.

(** On two numerals of more bits. *)
Definition ashr_big (bv_size : nat) (r1 r2 : Z) : Z :=
  let sign := has_sign_bit r1 bv_size in
  if Z.of_nat bv_size <=? r2 then (if sign then pow2 bv_size - 1 else 0)
  else
    let r1 := r1 / pow2 (Z.to_nat r2) in
    if sign then pad_ones bv_size r1 1 else r1.

Definition mk_bv_ashr (arg1 arg2 : expr) : br_result :=
  let bv_size := get_bv_size arg1 in
  match is_numeral arg2 with
  | None => None
  | Some (r2, _) =>
      if r2 =? 0 then Some (BR_DONE, arg1)
      else match is_numeral arg1 with
      | Some (r1, _) =>
          Some (BR_DONE,
            mk_numeral (if (bv_size <=? 64)%nat then ashr_word bv_size r1 r2 else ashr_big bv_size r1 r2) bv_size)
      | None =>
          match arg1 with
          | App OP_BASHR [x; y] =>
              match is_numeral y with
              | Some (r1, _) =>
                  let r1 := r1 + r2 in
                  let r1 := if Z.of_nat bv_size <? r1 then Z.of_nat bv_size else r1 in
                  Some (BR_REWRITE1, App OP_BASHR [x; mk_numeral r1 bv_size])
              | None => None
              end
          | _ => None
          end
      end
  end.

(** ** Division

    [by_zero op0 op_i]: the operators by cases on a zero divisor, when the
    hardware interpretation is not used. *)
Definition by_zero (op0 op_i : op) (arg1 arg2 : expr) : br_result :=
  Some (BR_REWRITE2, m.mk_ite (m.mk_eq arg2 (mk_numeral 0 (get_bv_size arg2)))
                       (App op0 [arg1]) (App op_i [arg1; arg2])).

Definition mk_bv_sdiv_core (arg1 arg2 : expr) (hi_div0 : bool) : br_result :=
  match is_numeral arg2 with
  | Some (r2, bv_size) =>
      let r2 := norm r2 bv_size true in
      if r2 =? 0 then
        if negb hi_div0 then Some (BR_REWRITE1, App OP_BSDIV0 [arg1])
        else Some (BR_REWRITE2, m.mk_ite (App OP_SLT [arg1; mk_numeral 0 bv_size]) (mk_numeral 1 bv_size)
                                  (mk_numeral (pow2 bv_size - 1) bv_size))
      else if r2 =? 1 then Some (BR_DONE, arg1)
      else match is_numeral arg1 with
      | Some (r1, _) => Some (BR_DONE, mk_numeral (Z.quot (norm r1 bv_size true) r2) bv_size)
      | None => Some (BR_DONE, App OP_BSDIV_I [arg1; arg2])
      end
  | None =>
      if hi_div0 then Some (BR_DONE, App OP_BSDIV_I [arg1; arg2])
      else by_zero OP_BSDIV0 OP_BSDIV_I arg1 arg2
  end.

Definition mk_bv_udiv_core (arg1 arg2 : expr) (hi_div0 : bool) : br_result :=
  match is_numeral arg2 with
  | Some (r2, bv_size) =>
      let r2 := norm r2 bv_size false in
      if r2 =? 0 then
        if negb hi_div0 then Some (BR_REWRITE1, App OP_BUDIV0 [arg1])
        else Some (BR_DONE, mk_numeral (pow2 bv_size - 1) bv_size)
      else if r2 =? 1 then Some (BR_DONE, arg1)
      else match is_numeral arg1 with
      | Some (r1, _) => Some (BR_DONE, mk_numeral (Z.quot (norm r1 bv_size false) r2) bv_size)
      | None =>
          match is_power_of_two r2 with
          | Some shift => Some (BR_REWRITE1, App OP_BLSHR [arg1; mk_numeral (Z.of_nat shift) bv_size])
          | None =>
              match (if m_udiv2mul cfg then mult_inverse r2 bv_size else None) with
              | Some inv_r2 => Some (BR_REWRITE1, App OP_BMUL [mk_numeral inv_r2 bv_size; arg1])
              | None => Some (BR_DONE, App OP_BUDIV_I [arg1; arg2])
              end
          end
      end
  | None =>
      if hi_div0 then Some (BR_DONE, App OP_BUDIV_I [arg1; arg2])
      else by_zero OP_BUDIV0 OP_BUDIV_I arg1 arg2
  end.

Definition mk_bv_srem_core (arg1 arg2 : expr) (hi_div0 : bool) : br_result :=
  match is_numeral arg2 with
  | Some (r2, bv_size) =>
      let r2 := norm r2 bv_size true in
      if r2 =? 0 then
        if negb hi_div0 then Some (BR_REWRITE1, App OP_BSREM0 [arg1]) else Some (BR_DONE, arg1)
      else if r2 =? 1 then Some (BR_DONE, mk_numeral 0 bv_size)
      else match is_numeral arg1 with
      | Some (r1, _) => Some (BR_DONE, mk_numeral (Z.rem (norm r1 bv_size true) r2) bv_size)
      | None => Some (BR_DONE, App OP_BSREM_I [arg1; arg2])
      end
  | None =>
      if hi_div0 then Some (BR_DONE, App OP_BSREM_I [arg1; arg2])
      else by_zero OP_BSREM0 OP_BSREM_I arg1 arg2
  end.

Definition is_minus_one_core (arg : expr) : bool :=
  match is_numeral arg with Some (r, bv_size) => r =? pow2 bv_size - 1 | None => false end.

(** [x], when [arg] is [x - 1]. *)
Definition is_x_minus_one (arg : expr) : option expr :=
  match arg with
  | App OP_BADD [a; b] =>
      if is_minus_one_core a then Some b else if is_minus_one_core b then Some a else None
  | _ => None
  end.

(** [is_num1 && r1.is_zero()]. *)
Definition is_zero_num (e : expr) : bool :=
  match is_numeral e with Some (r1, _) => r1 =? 0 | None => false end.

(** The operands [0] and [x - 1] of [urem]. *)
Definition urem_special (arg1 arg2 : expr) (hi_div0 : bool) : br_result :=
  if is_zero_num arg1 then
    if hi_div0 then Some (BR_DONE, arg1)
    else Some (BR_REWRITE2, m.mk_ite (m.mk_eq arg2 arg1) (App OP_BUREM0 [arg1]) arg1)
  else if bool_decide (is_x_minus_one arg1 = Some arg2) then
    if hi_div0 then Some (BR_DONE, arg1)
    else
      let bv_size := get_bv_size arg1 in
      Some (BR_REWRITE2, m.mk_ite (m.mk_eq arg2 (mk_numeral 0 bv_size))
                           (App OP_BUREM0 [mk_numeral (pow2 bv_size - 1) bv_size]) arg1)
  else None.

Definition mk_bv_urem_core (arg1 arg2 : expr) (hi_div0 : bool) : br_result :=
  match is_numeral arg2 with
  | Some (r2, bv_size) =>
      let r2 := norm r2 bv_size false in
      if r2 =? 0 then
        if negb hi_div0 then Some (BR_REWRITE1, App OP_BUREM0 [arg1]) else Some (BR_DONE, arg1)
      else if r2 =? 1 then Some (BR_DONE, mk_numeral 0 bv_size)
      else match is_numeral arg1 with
      | Some (r1, _) => Some (BR_DONE, mk_numeral (Z.rem (norm r1 bv_size false) r2) bv_size)
      | None =>
          match is_power_of_two r2 with
          | Some shift =>
              Some (BR_REWRITE2, mk_concat [mk_numeral 0 (bv_size - shift); bv_util.mk_extract (shift - 1) 0 arg1])
          | None => Some (BR_DONE, App OP_BUREM_I [arg1; arg2])
          end
      end
  | None =>
      orelse (urem_special arg1 arg2 hi_div0)
        (if hi_div0 then Some (BR_DONE, App OP_BUREM_I [arg1; arg2])
         else by_zero OP_BUREM0 OP_BUREM_I arg1 arg2)
  end.

(** [smod] of two numerals; [r1] and [r2] are not zero. *)
Definition smod_num (bv_size : nat) (r1 r2 : Z) : Z :=
  let abs_r1 := norm (Z.abs r1) bv_size false in
  let abs_r2 := norm (Z.abs r2) bv_size false in
  let u := norm (Z.rem abs_r1 abs_r2) bv_size false in
  if u =? 0 then u
  else if (0 <? r1) && (0 <? r2) then u
  else if (r1 <? 0) && (0 <? r2) then norm (- u + r2) bv_size false
  else if (0 <? r1) && (r2 <? 0) then norm (u + r2) bv_size false
  else norm (- u) bv_size false.

Definition mk_bv_smod_core (arg1 arg2 : expr) (hi_div0 : bool) : br_result :=
  let num e := '(r, bv_size) ← is_numeral e; Some (norm r bv_size true, bv_size) in
  let is_num1 := num arg1 in
  if match is_num1 with Some (r1, _) => r1 =? 0 | None => false end then
    Some (BR_REWRITE1, App OP_BUREM [arg1; arg2])
  else
    let general :=
      if hi_div0 then Some (BR_DONE, App OP_BSMOD_I [arg1; arg2])
      else by_zero OP_BSMOD0 OP_BSMOD_I arg1 arg2 in
    match num arg2 with
    | Some (r2, bv_size) =>
        if r2 =? 0 then Some (BR_DONE, if negb hi_div0 then App OP_BSMOD0 [arg1] else arg1)
        else match is_num1 with
        | Some (r1, _) => Some (BR_DONE, mk_numeral (smod_num bv_size r1 r2) bv_size)
        | None => if r2 =? 1 then Some (BR_REWRITE2, mk_numeral 0 bv_size) else general
        end
    | None => general
    end.

(** ** Concatenation, extension, repetition *)

(** The state of the loop of [mk_concat]. *)
Record concat_state := mk_concat_state {
  new_args : list expr; fused_numeral : bool; expanded : bool; fused_extract : bool }.

(** One argument; [prev] is the last of [new_args]. *)
Definition concat_step (arg : expr) (st : concat_state) : concat_state :=
  let prev := last (new_args st) in
  let front := take (length (new_args st) - 1) (new_args st) in
  match is_numeral arg, (p ← prev; is_numeral p) with
  | Some (v1, sz1), Some (v2, sz2) =>
      mk_concat_state (front ++ [mk_numeral (v2 * pow2 sz1 + v1) (sz1 + sz2)])
        true (expanded st) (fused_extract st)
  | _, _ =>
      match arg with
      | App OP_CONCAT args2 =>
          if m_flat cfg then
            mk_concat_state (new_args st ++ args2) (fused_numeral st) true (fused_extract st)
          else mk_concat_state (new_args st ++ [arg]) (fused_numeral st) (expanded st) (fused_extract st)
      | App (OP_EXTRACT h2 l2) (a :: _) =>
          match prev with
          | Some (App (OP_EXTRACT h1 l1) (b :: _)) =>
              if bool_decide (a = b) && (l1 =? h2 + 1)%nat then
                mk_concat_state (front ++ [bv_util.mk_extract h1 l2 a]) (fused_numeral st) (expanded st) true
              else mk_concat_state (new_args st ++ [arg]) (fused_numeral st) (expanded st) (fused_extract st)
          | _ => mk_concat_state (new_args st ++ [arg]) (fused_numeral st) (expanded st) (fused_extract st)
          end
      | _ => mk_concat_state (new_args st ++ [arg]) (fused_numeral st) (expanded st) (fused_extract st)
      end
  end.

Definition mk_concat (args : list expr) : br_result :=
  let st := fold_left (fun st arg => concat_step arg st) args (mk_concat_state [] false false false) in
  if negb (fused_numeral st) && negb (expanded st) && negb (fused_extract st) then None
  else match new_args st with
  | [a] => Some (if fused_extract st then BR_REWRITE1 else BR_DONE, a)
  | l => Some (if fused_extract st then BR_REWRITE2 else if expanded st then BR_REWRITE1 else BR_DONE,
               bv_util.mk_concat l)
  end.

Definition mk_zero_extend (n : nat) (arg : expr) : br_result :=
  if (n =? 0)%nat then Some (BR_DONE, arg)
  else Some (BR_REWRITE1, bv_util.mk_concat [mk_numeral 0 n; arg]).

Definition mk_sign_extend (n : nat) (arg : expr) : br_result :=
  if (n =? 0)%nat then Some (BR_DONE, arg)
  else match is_numeral arg with
  | Some (r, bv_size) =>
      let result_bv_size := (bv_size + n)%nat in
      Some (BR_DONE, mk_numeral (norm r bv_size true mod pow2 result_bv_size) result_bv_size)
  | None =>
      if m_elim_sign_ext cfg then
        let sz := get_bv_size arg in
        let sign := bv_util.mk_extract (sz - 1) (sz - 1) arg in
        Some (BR_REWRITE2, bv_util.mk_concat (replicate n sign ++ [arg]))
      else None
  end.

Definition mk_repeat (n : nat) (arg : expr) : br_result :=
  if (n =? 1)%nat then Some (BR_DONE, arg) else Some (BR_REWRITE1, bv_util.mk_concat (replicate n arg)).

(** ** Rotation *)

Definition mk_bv_rotate_left (n : nat) (arg : expr) : br_result :=
  let sz := get_bv_size arg in
  let n := (n mod sz)%nat in
  if (n =? 0)%nat || (sz =? 1)%nat then Some (BR_DONE, arg)
  else Some (BR_REWRITE2, bv_util.mk_concat [bv_util.mk_extract (sz - n - 1) 0 arg;
                                             bv_util.mk_extract (sz - 1) (sz - n) arg]).

Definition mk_bv_rotate_right (n : nat) (arg : expr) : br_result :=
  let sz := get_bv_size arg in
  mk_bv_rotate_left (sz - n mod sz) arg.

(** The rotation by a numeral. *)
Definition rotate_by (r2 : Z) (bv_size : nat) : nat :=
  Z.to_nat (Z.rem r2 (Z.of_nat bv_size) mod Z.of_nat bv_size).

Definition mk_bv_ext_rotate_left (arg1 arg2 : expr) : br_result :=
  '(r2, bv_size) ← is_numeral arg2; mk_bv_rotate_left (rotate_by r2 bv_size) arg1.

Definition mk_bv_ext_rotate_right (arg1 arg2 : expr) : br_result :=
  '(r2, bv_size) ← is_numeral arg2; mk_bv_rotate_right (rotate_by r2 bv_size) arg1.

(** ** Reductions, comparison to a bit, bits *)

Definition mk_bv_redor (arg : expr) : br_result :=
  match is_numeral arg with
  | Some _ => Some (BR_DONE, if is_zero arg then mk_numeral 0 1 else mk_numeral 1 1)
  | None => None
  end.

Definition mk_bv_redand (arg : expr) : br_result :=
  match is_numeral arg with
  | Some (r, bv_size) =>
      Some (BR_DONE, if r =? pow2 bv_size - 1 then mk_numeral 1 1 else mk_numeral 0 1)
  | None => None
  end.

Definition mk_bv_comp (arg1 arg2 : expr) : br_result :=
  if decide (arg1 = arg2) then Some (BR_DONE, mk_numeral 1 1)
  else match is_numeral arg1, is_numeral arg2 with
  | Some _, Some _ => Some (BR_DONE, mk_numeral 0 1)
  | _, _ => Some (BR_REWRITE2, m.mk_ite (m.mk_eq arg1 arg2) (mk_numeral 1 1) (mk_numeral 0 1))
  end.

(** [mk_bit2bool(n, idx)]. *)
Definition mk_bit2bool (n : expr) (idx : nat) : br_result :=
  '(v, sz) ← is_numeral n;
  if (sz <=? idx)%nat then None
  else Some (BR_DONE, mk_bool_val ((v / pow2 idx) mod 2 =? 1)).

(** [mk_bit2bool(lhs, rhs)]: an equation between one-bit vectors. *)
Definition mk_bit2bool_eq (lhs rhs : expr) : br_result :=
  if negb (get_bv_size lhs =? 1)%nat then None
  else
    let '(lhs, rhs) := if is_num lhs then (rhs, lhs) else (lhs, rhs) in
    '(v, _) ← is_numeral rhs;
    if is_num lhs then Some (BR_DONE, mk_bool_val (bool_decide (lhs = rhs)))
    else
      let is_one := v =? 1 in
      let bit1 := if is_one then rhs else mk_numeral 1 1 in
      let signed f := if is_one then Some (BR_REWRITE2, f) else Some (BR_REWRITE3, m.mk_not f) in
      match lhs with
      | App OP_ITE [c; t; e] => Some (BR_REWRITE2, m.mk_ite c (m.mk_eq t rhs) (m.mk_eq e rhs))
      | App OP_BNOT (a :: _) => Some (BR_REWRITE1, m.mk_eq a (mk_numeral (1 - v) 1))
      | App OP_BOR args => signed (m.mk_or (map (fun a => m.mk_eq a bit1) args))
      | App OP_BXOR args => signed (App OP_XOR (map (fun a => m.mk_eq a bit1) args))
      | _ => None
      end.

(** The value of the constant bits, the first one the lowest. *)
Definition mkbv_value (args : list expr) : Z :=
  foldr (fun e val => val * 2 + (if m.is_true e then 1 else 0)) 0 args.

Definition mk_mkbv (args : list expr) : br_result :=
  if m_mkbv2num cfg && forallb (fun e => m.is_true e || m.is_false e) args
  then Some (BR_DONE, mk_numeral (mkbv_value args) (length args))
  else None.

(** ** If-then-else on equations ([m_ite2id]) *)

Definition ite2id (lhs rhs t e : expr) : br_result :=
  if negb (is_bv rhs) then None
  else
    let '(lhs, rhs) := if is_num lhs then (rhs, lhs) else (lhs, rhs) in
    if m.are_equal lhs t && m.are_equal rhs e || m.are_equal lhs e && m.are_equal rhs t then
      Some (BR_REWRITE1, e)
    else if negb (get_bv_size rhs =? 1)%nat then None
    else match is_numeral rhs, is_numeral t, is_numeral e with
    | Some _, Some (_, t_sz), Some _ =>
        if (t_sz =? 1)%nat then
          Some (BR_REWRITE1, if m.are_equal rhs t then lhs else mk_bv_not lhs)
        else None
    | _, _, _ => None
    end.

Definition mk_ite_core (c t e : expr) : br_result :=
  if m.are_equal t e then Some (BR_REWRITE1, e)
  else match m.is_not c with
  | Some c => Some (BR_REWRITE1, m.mk_ite c e t)
  | None =>
      match m.is_eq c with
      | Some (lhs, rhs) => if m_ite2id cfg && is_bv t && is_bv e then ite2id lhs rhs t e else None
      | None => None
      end
  end.

(** ** Overflow tests *)

(** An operand [0] or [1]. *)
Definition is_zero_or_one (e : expr) : bool :=
  match is_numeral e with Some (v, _) => (v =? 0) || (v =? 1) | None => false end.

(** The three tests differ in what they compute from two numerals. *)
Definition mk_mul_test (test : nat -> Z -> Z -> bool) (a b : expr) : br_result :=
  if is_zero_or_one a || is_zero_or_one b then Some (BR_DONE, m.mk_true)
  else match is_numeral a, is_numeral b with
  | Some (a0_val, _), Some (a1_val, bv_sz) => Some (BR_DONE, mk_bool_val (test bv_sz a0_val a1_val))
  | _, _ => None
  end.

Definition mk_bvsmul_no_overflow : expr -> expr -> br_result :=
  mk_mul_test (fun bv_sz a b => a * b <? pow2 (bv_sz - 1)).

Definition mk_bvumul_no_overflow : expr -> expr -> br_result :=
  mk_mul_test (fun bv_sz a b => a * b <? pow2 bv_sz).

Definition mk_bvsmul_no_underflow : expr -> expr -> br_result :=
  mk_mul_test (fun bv_sz a b =>
    let lim := pow2 (bv_sz - 1) in
    let low v := if lim <=? v then v - pow2 bv_sz else v in
    - lim <=? low a * low b).
End Rules.
End bv_rewriter.
