(* ===== verification/PolyRewriter.v ===== *)
(** * PolyRewriter: sums and products

    Models [ast/rewriter/poly_rewriter_def.h] and [poly_rewriter.h] for the
    configuration [bv_rewriter_core] of [bv_rewriter.h], which has no powers, so
    that the branches for them are left out.  A method returns
    [Some (status, result)] or [None] for [BR_FAILED]; products may raise the
    exception for sums of monomials that grow too large.  [m_curr_sort] is the
    width [sz] of the arguments.  The order of terms by [ast_lt.cpp], their
    numbers ([get_id]) and [std::sort] are parameters. *)
From Stdlib Require Import ZArith Lia.
From stdpp Require Import base list.
From S2P Require Import Prelude Ast BvUtil BoolRewriter BvRewriter.
Import bv_rewriter.

Local Open Scope Z_scope.

Module poly_rewriter.

(** [is_numeral(n, r)]. *)
Definition num (e : expr) : option Z := fst <$> is_numeral e.

Definition is_add (n : expr) : option (list expr) :=
  match n with App OP_BADD args => Some args | _ => None end.
Definition is_mul (n : expr) : option (list expr) :=
  match n with App OP_BMUL args => Some args | _ => None end.

Definition holds_of {A} (o : option A) : bool := match o with Some _ => true | None => false end.

(** The family of the term is the bit-vector family. *)
Definition in_family (t : expr) : bool :=
  match m.get_family_id t with m.bv_family => true | _ => false end.

(** [is_mul(t, c, pp)]: a numeral times a power product. *)
Definition is_mul_num (t : expr) : option (Z * expr) :=
  match t with App OP_BMUL [a; pp] => c ← num a; Some (c, pp) | _ => None end.

Definition get_power_product (t : expr) : Z * expr := default (1, t) (is_mul_num t).

(** The leaves of nested products, from left to right: the [todo] stack of
    [mk_flat_mul_core] holds the arguments that are left. *)
Fixpoint flat_mul (curr : expr) : list expr :=
  match curr with App OP_BMUL args => flat_map flat_mul args | _ => [curr] end.

(** The summands of a sum, or the term itself.  [mk_flat_add_core] opens one level. *)
Definition flat_add (arg : expr) : list expr := default [arg] (is_add arg).

(** [TO_BUFFER]: the buffer from the position [_i] on.  An argument the tester
    accepts is replaced by its first argument, the others go to the end. *)
Fixpoint to_buffer (tester : expr -> option (list expr)) (fuel : nat) (buffer : list expr) : list expr :=
  match fuel, buffer with
  | O, _ => buffer
  | _, [] => []
  | S fuel, e :: buffer =>
      match tester e with
      | Some (a :: args) => to_buffer tester fuel (a :: buffer ++ args)
      | _ => e :: to_buffer tester fuel buffer
      end
  end.

(** Each step removes a node. *)
Fixpoint nodes (t : expr) : nat := let 'App _ args := t in S (sum_list_with nodes args).

Definition buffer_of (tester : expr -> option (list expr)) (e : expr) : list expr :=
  to_buffer tester (nodes e) [e].

Definition swap (i j : nat) (l : list expr) : list expr :=
  match l !! i, l !! j with
  | Some a, Some b => <[i := b]> (<[j := a]> l)
  | _, _ => l
  end.

(** The position of [x] in [l] from [k] on. *)
Definition find_from (x : expr) (k : nat) (l : list expr) : option nat :=
  (fun '(j, _) => (k + j)%nat) <$> list_find (fun y => y = x) (drop k l).

(** [product_iterator_next] ([util/util.cpp]). *)
Fixpoint product_iterator_next (sz it : list nat) : bool * list nat :=
  match sz, it with
  | s :: sz, i :: it =>
      if (S i <? s)%nat then (true, S i :: it)
      else let '(b, it) := product_iterator_next sz it in (b, 0%nat :: it)
  | _, _ => (false, it)
  end.

Section Rules.
Variable cfg : params.
Variable lt : expr -> expr -> bool.
Variable get_id : expr -> Z.
Variable std_sort : (expr -> expr -> bool) -> list expr -> list expr.

(** ** Orders *)

(** [mon_lt::ordinal] *)
Definition ordinal (e : expr) : Z :=
  if negb (in_family e) then get_id e
  else match e with
  | App OP_BMUL (a :: b :: _) => if holds_of (num a) then get_id b else get_id e
  | _ => if holds_of (num e) then -1 else get_id e
  end.

Definition mon_lt (e1 e2 : expr) : bool :=
  if m_ast_order cfg then lt e1 e2 else ordinal e1 <? ordinal e2.

Definition hoist_cmul_lt (t1 t2 : expr) : bool :=
  match is_mul_num t1, is_mul_num t2 with
  | None, Some _ => true
  | Some _, None => false
  | None, None => get_id t1 <? get_id t2
  | Some (c1, pp1), Some (c2, pp2) =>
      if c1 <? c2 then true else if c2 <? c1 then false else get_id pp1 <? get_id pp2
  end.

Section Sort.
Variable sz : nat.

(** ** Constructors *)

Definition normalize (c : Z) : Z := bv_util.norm c sz false.
Definition mk_num (r : Z) : expr := mk_numeral r sz.

Definition mk_add_app (args : list expr) : expr :=
  match args with [] => mk_num 0 | [a] => a | _ => App OP_BADD args end.

Definition mk_mul_app (args : list expr) : expr :=
  match args with [] => mk_num 1 | [a] => a | _ => App OP_BMUL args end.

(** [mk_mul_app(c, arg)] *)
Definition mk_cmul_app (c : Z) (arg : expr) : expr :=
  if c =? 1 then arg else if bv_util.is_zero arg then arg else mk_mul_app [mk_num c; arg].

(** ** Products *)

Definition non_numerals (args : list expr) : list expr := filter (fun e => num e = None) args.

(** No argument is smaller than the one before it. *)
Fixpoint in_order (args : list expr) : bool :=
  match args with
  | prev :: (curr :: _) as args => negb (mon_lt curr prev) && in_order args
  | _ => true
  end.

(** The loop over the tuples of summands.  An iteration adds a product, and
    the bound on them stops the loop. *)
Fixpoint som_loop (sums : list (list expr)) (fuel : nat) (it : list nat) (sum : list expr) : M (list expr) :=
  match fuel with
  | O => throw ExDiverge
  | S fuel =>
      if (m_som_blowup cfg <? length sum)%nat then throw ExSomBlowup
      else
        let m_args := zip_with (fun v i => v !!! i) sums it in
        let sum := sum ++ [mk_mul_app m_args] in
        let '(more, it) := product_iterator_next (map length sums) it in
        if more then som_loop sums fuel it sum else mret sum
  end.

(** The sum of monomials of a product. *)
Definition som (args : list expr) : M br_result :=
  let sums := map flat_add args in
  sum ← som_loop sums (2 + m_som_blowup cfg) (map (fun _ => 0%nat) args) [];
  mret (Some (BR_REWRITE2, mk_add_app sum)).

(** One argument [var] besides the numerals, whose product is [c]. *)
Definition mul_one (args : list expr) (c : Z) (var : expr) : br_result :=
  if c =? 1 then Some (BR_DONE, var)
  else if holds_of (is_mul var) then
    match is_mul_num var with
    | Some (c_prime, pp) => Some (BR_REWRITE1, mk_cmul_app (normalize (c * c_prime)) pp)
    | None => None
    end
  else match is_add var, m_hoist_cmul cfg with
  | Some adds, false => Some (BR_REWRITE2, mk_add_app (map (mk_cmul_app c) adds))
  | _, _ =>
      if (length args =? 2)%nat && bool_decide (args !! 1%nat = Some var) then None
      else Some (BR_DONE, mk_cmul_app c var)
  end.

(** Two or more arguments besides the numerals. *)
Definition mul_sort (new_args : list expr) (num_coeffs : nat) (c : Z) : br_result :=
  let ordered := in_order new_args in
  if ordered && (num_coeffs =? 0)%nat then None
  else
    let new_args := if ordered then new_args else std_sort mon_lt new_args in
    Some (BR_DONE, mk_cmul_app c (mk_mul_app new_args)).

(** The cheap case: a coefficient and a term that is no bit-vector operation. *)
Definition is_monomial (args : list expr) : bool :=
  match args with
  | [a; b] =>
      match num a with
      | Some a => negb (a =? 1) && negb (a =? 0) && negb (in_family b)
      | None => false
      end
  | _ => false
  end.

Definition mk_nflat_mul_core (args : list expr) : M br_result :=
  if is_monomial args then mret None
  else
    let coeffs := omap num args in
    let rest := non_numerals args in
    let num_coeffs := length coeffs in
    let num_add := length (omap is_add args) in
    let c := normalize (fold_left Z.mul coeffs 1) in
    if (num_coeffs =? length args)%nat then mret (Some (BR_DONE, mk_num c))
    else if c =? 0 then mret (Some (BR_DONE, mk_num c))
    else match rest with
    | [var] => mret (mul_one args c var)
    | _ =>
        if negb (m_som cfg) || (num_add =? 0)%nat then mret (mul_sort rest num_coeffs c)
        else som args
    end.

Definition mk_flat_mul_core (args : list expr) : M br_result :=
  let flat_monomial :=
    match args with
    | [a; b] => holds_of (num a)
                && negb (match is_mul b with Some (x :: _) => holds_of (num x) | _ => false end)
    | _ => false
    end in
  if negb flat_monomial && existsb (fun a => holds_of (is_mul a)) args then
    let flat_args := flat_map flat_mul args in
    st ← mk_nflat_mul_core flat_args;
    mret (match st with
          | None => Some (BR_DONE, mk_mul_app flat_args)
          | Some _ => st
          end)
  else mk_nflat_mul_core args.

(** [mk_mul_core]; [sz] is the width of the first argument. *)
Definition mk_mul_core (args : list expr) : M br_result :=
  match args with
  | [a] => mret (Some (BR_DONE, a))
  | _ => if m_flat cfg then mk_flat_mul_core args else mk_nflat_mul_core args
  end.

(** ** Common coefficients and common factors *)

(** The monomials with coefficient [c] at the head: their power products, and
    what is left. *)
Fixpoint same_coeff (c : Z) (args : list expr) : list expr * list expr :=
  match args with
  | [] => ([], [])
  | mon :: rest =>
      match is_mul_num mon with
      | Some (c_prime, pp) =>
          if c =? c_prime then let '(pps, rest) := same_coeff c rest in (pp :: pps, rest) else ([], args)
      | None => ([], args)
      end
  end.

(** The first argument of a monomial. *)
Definition coeff_of (mon : expr) : expr := match mon with App _ (a :: _) => a | _ => mon end.

(** The loop of [hoist_cmul] over the sorted monomials. *)
Fixpoint cmul_groups (fuel : nat) (args : list expr) : list expr :=
  match fuel, args with
  | S fuel, mon :: rest =>
      match is_mul_num mon with
      | Some (c, pp) =>
          match same_coeff c rest with
          | ([], _) => mon :: cmul_groups fuel rest
          | (pps, rest) => mk_mul_app [coeff_of mon; mk_add_app (pp :: pps)] :: cmul_groups fuel rest
          end
      | None => mon :: cmul_groups fuel rest
      end
  | _, _ => []
  end.

Definition hoist_cmul (args : list expr) : list expr :=
  cmul_groups (length args) (std_sort hoist_cmul_lt args).

(** The loop of [merge_muls] over [m1]: common factors are moved to the front. *)
Fixpoint merge_loop (n i k : nat) (m1 m2 : list expr) : nat * list expr * list expr :=
  match n with
  | O => (k, m1, m2)
  | S n =>
      match find_from (m1 !!! i) k m2 with
      | Some j => merge_loop n (S i) (S k) (swap i k m1) (swap j k m2)
      | None => merge_loop n (S i) k m1 m2
      end
  end.

Definition merge_muls (x y : expr) : expr :=
  let m1 := buffer_of is_mul x in
  let m2 := buffer_of is_mul y in
  let '(k, m1, m2) := merge_loop (length m1) 0 0 m1 m2 in
  mk_mul_app (take k m1 ++ [mk_add_app [mk_mul_app (drop k m1); mk_mul_app (drop k m2)]]).

Record hoist_state := { adds : list expr; valid : list bool; mul_map : list (expr * nat); change : bool }.

Definition find_mul (e : expr) (mul_map : list (expr * nat)) : option nat :=
  snd <$> (snd <$> list_find (fun '(x, _) => x = e) mul_map).

(** The factors of [adds[k]]: the first one that is a factor of an earlier
    summand merges the two. *)
Fixpoint hoist_factors (k : nat) (muls : list expr) (s : hoist_state) : hoist_state :=
  match muls with
  | [] => s
  | e :: muls =>
      if is_num e then hoist_factors k muls s
      else
        let insert := {| adds := adds s; valid := valid s; mul_map := (e, k) :: mul_map s; change := change s |} in
        match find_mul e (mul_map s) with
        | Some j =>
            if valid s !!! j && negb (j =? k)%nat then
              {| adds := <[k := mk_num 0]> (<[j := merge_muls (adds s !!! j) (adds s !!! k)]> (adds s));
                 valid := <[k := false]> (<[j := false]> (valid s)); mul_map := mul_map s; change := true |}
            else hoist_factors k muls insert
        | None => hoist_factors k muls insert
        end
  end.

Fixpoint hoist_loop (ks : list nat) (s : hoist_state) : hoist_state :=
  match ks with
  | [] => s
  | k :: ks => hoist_loop ks (hoist_factors k (buffer_of is_mul (adds s !!! k)) s)
  end.

Definition hoist_multiplication (som : expr) : option expr :=
  if negb (m_hoist_mul cfg) then None
  else
    let l := buffer_of is_add som in
    let s := hoist_loop (seq 0 (length l))
               {| adds := l; valid := replicate (length l) true; mul_map := []; change := false |} in
    if change s then Some (mk_add_app (adds s)) else None.

(** ** Sums *)

(** Whether the summands are in order, as the first loop of
    [mk_nflat_add_core] finds it; a numeral overrides what was found before it. *)
Fixpoint sum_ordered (first : bool) (prev : option expr) (ordered : bool) (args : list expr) : bool :=
  match args with
  | [] => ordered
  | arg :: args =>
      if is_num arg then sum_ordered false prev (negb (m_sort_sums cfg) || first) args
      else if m_sort_sums cfg && ordered then
        sum_ordered false (Some arg) (match prev with Some p => negb (mon_lt arg p) | None => true end) args
      else sum_ordered false prev ordered args
  end.

(** The marks [visited] and [multiple] of the power products. *)
Fixpoint mark_multiple (visited multiple : list expr) (pps : list expr) : list expr :=
  match pps with
  | [] => multiple
  | pp :: pps =>
      if bool_decide (pp ∈ visited) then mark_multiple visited (pp :: multiple) pps
      else mark_multiple (pp :: visited) multiple pps
  end.

(** [m_expr2pos] and [coeffs] together: a coefficient for each power product. *)
Fixpoint add_coeff (pp : expr) (a : Z) (coeffs : list (expr * Z)) : list (expr * Z) :=
  match coeffs with
  | [] => [(pp, a)]
  | (x, c) :: coeffs => if decide (x = pp) then (x, c + a) :: coeffs else (x, c) :: add_coeff pp a coeffs
  end.

Fixpoint get_coeff (pp : expr) (coeffs : list (expr * Z)) : Z :=
  match coeffs with
  | [] => 0
  | (x, c) :: coeffs => if decide (x = pp) then c else get_coeff pp coeffs
  end.

(** The loop that adds up, or with [sign = -1] subtracts, the coefficients of
    the power products that occur more than once. *)
Fixpoint collect_coeffs (sign : Z) (multiple : list expr) (args : list expr) (coeffs : list (expr * Z)) : list (expr * Z) :=
  match args with
  | [] => coeffs
  | arg :: args =>
      let '(a, pp) := get_power_product arg in
      collect_coeffs sign multiple args
        (if is_num arg || negb (bool_decide (pp ∈ multiple)) then coeffs else add_coeff pp (sign * a) coeffs)
  end.

(** The loop that copies the power products with their coefficients, read by
    [reduce]; zero coefficients are left out. *)
Fixpoint copy_products (reduce : Z -> Z) (multiple : list expr) (coeffs : list (expr * Z))
    (visited : list expr) (args : list expr) : list expr :=
  match args with
  | [] => []
  | arg :: args =>
      let '(_, pp) := get_power_product arg in
      if is_num arg then copy_products reduce multiple coeffs visited args
      else if negb (bool_decide (pp ∈ multiple)) then arg :: copy_products reduce multiple coeffs visited args
      else if bool_decide (pp ∈ visited) then copy_products reduce multiple coeffs visited args
      else
        let a := reduce (get_coeff pp coeffs) in
        (if a =? 0 then [] else [mk_cmul_app a pp])
        ++ copy_products reduce multiple coeffs (pp :: visited) args
  end.

(** Sort the summands but the numeral [c] in front. *)
Definition sort_summands (c : Z) (args : list expr) : list expr :=
  if c =? 0 then std_sort mon_lt args else take 1 args ++ std_sort mon_lt (drop 1 args).

(** The end of both branches: sort, or collect what has the same coefficient. *)
Definition finish_sum (sort : bool) (c : Z) (new_args : list expr) : br_result :=
  let new_args :=
    if m_hoist_cmul cfg then hoist_cmul new_args
    else if sort then sort_summands c new_args else new_args in
  let result := mk_add_app new_args in
  match hoist_multiplication result with
  | Some r => Some (BR_REWRITE_FULL, r)
  | None => Some (BR_DONE, result)
  end.

Definition add_numerals (args : list expr) : Z := fold_left Z.add (omap num args) 0.

Definition mk_nflat_add_core (args : list expr) : br_result :=
  let num_coeffs := length (omap num args) in
  let c := normalize (add_numerals args) in
  let multiple := mark_multiple [] [] (map (fun arg => snd (get_power_product arg)) args) in
  let ordered := sum_ordered true None true args in
  let numeral := if c =? 0 then [] else [mk_num c] in
  if negb (bool_decide (multiple = [])) then
    let coeffs := collect_coeffs 1 multiple args [] in
    finish_sum (m_sort_sums cfg) c (numeral ++ copy_products normalize multiple coeffs [] args)
  else if ordered && negb (m_hoist_mul cfg) && negb (m_hoist_cmul cfg)
          && ((num_coeffs =? 0)%nat
              || ((num_coeffs =? 1)%nat
                  && match args with a :: _ => match num a with Some a => negb (a =? 0) | None => false end
                                   | [] => false end))
  then None
  else finish_sum (negb ordered) c (numeral ++ non_numerals args).

Definition mk_flat_add_core (args : list expr) : br_result :=
  if existsb (fun a => holds_of (is_add a)) args then
    let flat_args := flat_map flat_add args in
    match mk_nflat_add_core flat_args with
    | None => Some (BR_DONE, mk_add_app flat_args)
    | st => st
    end
  else mk_nflat_add_core args.

(** [mk_add_core]; [sz] is the width of the first argument. *)
Definition mk_add_core (args : list expr) : br_result :=
  match args with
  | [a] => Some (BR_DONE, a)
  | _ => if m_flat cfg then mk_flat_add_core args else mk_nflat_add_core args
  end.

(** ** Negation and difference *)

Definition mk_uminus (arg : expr) : br_result :=
  match num arg with
  | Some a => Some (BR_DONE, mk_num (normalize (- a)))
  | None => Some (BR_REWRITE1, mk_cmul_app (-1) arg)
  end.

Definition mk_sub (args : list expr) : br_result :=
  match args with
  | [] => None
  | [a] => Some (BR_DONE, a)
  | a :: rest =>
      Some (BR_REWRITE2,
        mk_add_app (a :: map (fun b => mk_mul_app [mk_num (-1); b])
                           (filter (fun b => bv_util.is_zero b = false) rest)))
  end.

(** ** Cancellation of monomials on both sides of a relation *)

Definition get_monomials (t : expr) : list expr := default [t] (is_add t).

Definition products_of (args : list expr) : list expr :=
  map (fun arg => snd (get_power_product arg)) (non_numerals args).

(** The monomials of the right-hand side that stay, or with [move] their
    negations, which go to the left. *)
Definition kept_monomials (multiple : list expr) (args : list expr) : list expr :=
  filter (fun arg => snd (get_power_product arg) ∉ multiple) (non_numerals args).

Definition negated_monomials (args : list expr) : list expr :=
  flat_map (fun arg =>
    let '(a, pp) := get_power_product arg in
    if a =? 0 then [] else if a =? -1 then [pp] else [mk_mul_app [mk_num (- a); pp]]) args.

(** Nothing to do. *)
Definition nothing_to_cancel (move has_multiple : bool) (num_coeffs lhs_coeffs : nat) (rhs : expr) : bool :=
  (move && (lhs_coeffs =? 0)%nat && is_num rhs)
  || (negb has_multiple && (num_coeffs <=? 1)%nat
      && (if move then is_num rhs else (num_coeffs =? 0)%nat || is_num rhs)).

Definition cancel_monomials (lhs rhs : expr) (move : bool) : option (expr * expr) :=
  let lhs_monomials := get_monomials lhs in
  let rhs_monomials := get_monomials rhs in
  let lhs_coeffs := length (omap num lhs_monomials) in
  let num_coeffs := (lhs_coeffs + length (omap num rhs_monomials))%nat in
  let visited := products_of lhs_monomials in
  let multiple := filter (fun pp => pp ∈ visited) (products_of rhs_monomials) in
  let c := normalize (add_numerals lhs_monomials - add_numerals rhs_monomials) in
  if nothing_to_cancel move (negb (bool_decide (multiple = []))) num_coeffs lhs_coeffs rhs then None
  else
    let coeffs := collect_coeffs (-1) multiple rhs_monomials (collect_coeffs 1 multiple lhs_monomials []) in
    let lhs_products := copy_products (fun a => a) multiple coeffs [] lhs_monomials in
    let kept := kept_monomials multiple rhs_monomials in
    let new_lhs := lhs_products ++ (if move then negated_monomials kept else []) in
    let new_lhs := if move && m_sort_sums cfg then std_sort mon_lt new_lhs else new_lhs in
    let new_rhs := if move then [] else kept in
    let c_at_rhs := move || bool_decide (new_rhs = []) || negb (bool_decide (new_lhs = [])) in
    let c := if c_at_rhs then normalize (- c) else c in
    let insert (here : bool) (monomials : list expr) :=
      if here && (bool_decide (monomials = []) || negb (c =? 0)) then mk_num c :: monomials else monomials in
    Some (mk_add_app (insert (negb c_at_rhs) new_lhs), mk_add_app (insert c_at_rhs new_rhs)).

End Sort.
End Rules.
End poly_rewriter.
