(* ===== verification/BvTrailing.v ===== *)
(** * BvTrailing: removing trailing zeros from both sides of an equation

    Models [ast/rewriter/bv_trailing.cpp].  The maps [m_count_cache] are one list
    of entries, which the code keeps by depth.  The result parameter of
    [remove_trailing] is passed in and out, since one branch leaves it as it is.
    The value [None] is a failed [VERIFY] or the use of a null pointer. *)
From Stdlib Require Import ZArith Lia.
From stdpp Require Import base list.
From S2P Require Import Prelude Ast BvUtil BoolRewriter BvRewriter PolyRewriter.
Import bv_rewriter poly_rewriter.

Local Open Scope Z_scope.

Module bv_trailing.

Definition TRAILING_DEPTH : nat := 5.

(** [remove_trailing(max_rm, a)]: the zeros removed, and what is left. *)
Fixpoint strip_zeros (max_rm : nat) (a : Z) : nat * Z :=
  match max_rm with
  | O => (0%nat, a)
  | S max_rm => if Z.even a then let '(k, r) := strip_zeros max_rm (a / 2) in (S k, r) else (0%nat, a)
  end.

(** ** The cache *)

Record entry := { depth_of : nat; key : expr; bounds : nat * nat }.
Definition cache : Type := list entry.

Definition find_core (depth : nat) (e : expr) (c : cache) : option (nat * nat) :=
  (fun '(_, x) => bounds x) <$> list_find (fun x => depth_of x = depth /\ key x = e) c.

Definition is_cached (depth : nat) (e : expr) (c : cache) : option (nat * nat) :=
  if (depth =? 0)%nat then Some (0%nat, get_bv_size e) else find_core depth e c.

Definition insert (depth : nat) (e : expr) (b : nat * nat) (c : cache) : cache :=
  if (depth =? 0)%nat then c else {| depth_of := depth; key := e; bounds := b |} :: c.

Definition size_at (depth : nat) (c : cache) : nat := length (filter (fun x => depth_of x = depth) c).

(** Only depths with at least [condition] entries are emptied, or all for zero. *)
Definition reset_cache (condition : nat) (c : cache) : cache :=
  filter (fun x => condition <> 0%nat /\ (size_at (depth_of x) c < condition)%nat) c.

(** ** Bounds on the trailing zeros

    [count] is the call for an argument, one level deeper. *)
Section Count.
Context {C : Type} (count : expr -> C -> (nat * nat) * C).

Fixpoint concat_loop (rargs : list expr) (update_min : bool) (min max : nat) (c : C) : (nat * nat) * C :=
  match rargs with
  | [] => ((min, max), c)
  | curr :: rargs =>
      let curr_sz := get_bv_size curr in
      let '((tmp_min, tmp_max), c) := count curr c in
      let max := (max + tmp_max)%nat in
      let min := if update_min then (min + tmp_min)%nat else min in
      if (curr_sz =? tmp_max)%nat then concat_loop rargs (update_min && (curr_sz =? tmp_min)%nat) min max c
      else ((min, max), c)
  end.

Fixpoint add_loop (args : list expr) (min : nat) (known_parity is_odd : bool) (c : C) : (nat * bool * bool) * C :=
  match args with
  | [] => ((min, known_parity, is_odd), c)
  | curr :: args =>
      let '((tmp_min, tmp_max), c) := count curr c in
      let min := Nat.min min tmp_min in
      let known_parity := known_parity && ((tmp_max =? 0)%nat || negb (tmp_min =? 0)%nat) in
      let is_odd := if known_parity && (tmp_max =? 0)%nat then negb is_odd else is_odd in
      if negb known_parity && (min =? 0)%nat then ((min, known_parity, is_odd), c)
      else add_loop args min known_parity is_odd c
  end.

(** [count_trailing_core] at a positive depth. *)
Definition count_trailing_core (e : expr) (c : C) : (nat * nat) * C :=
  match is_numeral e with
  | Some (e_val, sz) => let k := fst (strip_zeros sz e_val) in ((k, k), c)
  | None =>
      match e with
      | App OP_BMUL [] => ((0%nat, 0%nat), c)
      | App OP_BMUL (curr :: args) =>
          let '((min, tmp_max), c) := count curr c in
          ((min, match args with [] => tmp_max | _ => get_bv_size e end), c)
      | App OP_BADD args =>
          let sz := get_bv_size e in
          let '((min, known_parity, is_odd), c) := add_loop args sz true false c in
          ((min, if known_parity && is_odd then 0%nat else sz), c)
      | App OP_CONCAT args => concat_loop (rev args) true 0 0 c
      | _ => ((0%nat, get_bv_size e), c)
      end
  end.
End Count.

Fixpoint count_trailing (depth : nat) (e : expr) (c : cache) : (nat * nat) * cache :=
  match is_cached depth e c with
  | Some b => (b, c)
  | None =>
      match depth with
      | O => ((0%nat, get_bv_size e), c)
      | S d => let '(b, c) := count_trailing_core (count_trailing d) e c in (b, insert depth e b c)
      end
  end.

(** ** Removing them *)

Section Remove.
Context (remove : expr -> nat -> option expr -> cache -> option (nat * option expr * cache)).

(** The summands, each of which must lose [to_rm] zeros. *)
Fixpoint remove_summands (to_rm : nat) (args : list expr) (c : cache) : option (list expr * cache) :=
  match args with
  | [] => Some ([], c)
  | curr :: args =>
      '(k, tmp, c) ← remove curr to_rm None c;
      tmp ← tmp;
      if (k =? to_rm)%nat then '(new_args, c) ← remove_summands to_rm args c; Some (tmp :: new_args, c)
      else None
  end.

Definition remove_trailing_add (depth : nat) (a : expr) (args : list expr) (n : nat) (c : cache) : option (nat * option expr * cache) :=
  if (depth <=? 1)%nat then Some (0%nat, Some a, c)
  else
    let '((min, _), c) := count_trailing depth a c in
    let to_rm := Nat.min min n in
    if (to_rm =? 0)%nat then Some (0%nat, Some a, c)
    else if (to_rm =? get_bv_size a)%nat then Some (get_bv_size a, None, c)
    else '(new_args, c) ← remove_summands to_rm args c; Some (to_rm, Some (App OP_BADD new_args), c).

Definition remove_trailing_mul (depth : nat) (a : expr) (args : list expr) (n : nat) (c : cache) : option (nat * option expr * cache) :=
  match args with
  | [] => Some (0%nat, Some a, c)
  | coefficient :: args =>
      if (depth <=? 1)%nat then Some (0%nat, Some a, c)
      else
        '(retv, tmp, c) ← remove coefficient n None c;
        if (retv =? 0)%nat then Some (0%nat, Some a, c)
        else
          tmp ← tmp;
          let new_sz := (get_bv_size coefficient - retv)%nat in
          if (new_sz =? 0)%nat then Some (retv, None, c)
          else
            let first := if bool_decide (num tmp = Some 1) then [] else [tmp] in
            let new_args := first ++ map (bv_util.mk_extract (new_sz - 1) 0) args in
            Some (retv, Some (match new_args with
                              | [] => mk_numeral 1 new_sz
                              | [x] => x
                              | _ => App OP_BMUL new_args
                              end), c)
  end.

(** The loop over the arguments of a concatenation, from the last: the zeros
    removed, what is left of the argument it ended in, and the arguments before. *)
Fixpoint remove_parts (n : nat) (rargs : list expr) (retv : nat) (new_last : option expr) (c : cache)
    : option (nat * option expr * list expr * cache) :=
  match rargs with
  | [] => Some (retv, new_last, [], c)
  | curr :: rest =>
      if (retv <? n)%nat then
        '(cur_rm, new_last, c) ← remove curr n new_last c;
        if (cur_rm <? get_bv_size curr)%nat then Some ((retv + cur_rm)%nat, new_last, rest, c)
        else remove_parts n rest (retv + cur_rm) new_last c
      else Some (retv, new_last, rargs, c)
  end.

Definition remove_trailing_concat (depth : nat) (a : expr) (args : list expr) (n : nat) (c : cache) : option (nat * option expr * cache) :=
  if (depth <=? 1)%nat then Some (0%nat, Some a, c)
  else
    '(retv, new_last, rest, c) ← remove_parts n (rev args) 0 None c;
    if (retv =? 0)%nat then Some (0%nat, Some a, c)
    else match rest, new_last with
    | [], None => Some (retv, None, c)
    | _, _ =>
        let new_args := rev rest ++ option_list new_last in
        Some (retv, Some (match new_args with [x] => x | _ => bv_util.mk_concat new_args end), c)
    end.
End Remove.

Fixpoint remove_trailing (depth : nat) (e : expr) (n : nat) (result : option expr) (c : cache) : option (nat * option expr * cache) :=
  match depth with
  | O => Some (0%nat, result, c)
  | S d =>
      if (n =? 0)%nat then Some (0%nat, result, c)
      else match is_numeral e with
      | Some (e_val, sz) =>
          let '(retv, v) := strip_zeros (Nat.min n sz) e_val in
          let new_sz := (sz - retv)%nat in
          Some (retv, if (new_sz =? 0)%nat then None
                      else if (retv =? 0)%nat then Some e else Some (mk_numeral v new_sz), c)
      | None =>
          match e with
          | App OP_BMUL args => remove_trailing_mul (remove_trailing d) depth e args n c
          | App OP_BADD args => remove_trailing_add (remove_trailing d) depth e args n c
          | App OP_CONCAT args => remove_trailing_concat (remove_trailing d) depth e args n c
          | _ => Some (0%nat, result, c)
          end
      end
  end.

Definition eq_remove_trailing (e1 e2 : expr) (c : cache) : option (br_result * cache) :=
  let '((min1, max1), c) := count_trailing TRAILING_DEPTH e1 c in
  let '((min2, max2), c) := count_trailing TRAILING_DEPTH e2 c in
  if (max2 <? min1)%nat || (max1 <? min2)%nat then Some (Some (BR_DONE, m.mk_false), c)
  else
    let min := Nat.min min1 min2 in
    if (min =? 0)%nat then Some (None, c)
    else if (min =? get_bv_size e1)%nat then Some (Some (BR_DONE, m.mk_true), c)
    else
      '(k1, out1, c) ← remove_trailing TRAILING_DEPTH e1 min None c;
      if negb (k1 =? min)%nat then None
      else
        '(k2, out2, c) ← remove_trailing TRAILING_DEPTH e2 min None c;
        if negb (k2 =? min)%nat then None
        else
          out1 ← out1; out2 ← out2;
          Some (if m.are_equal out1 out2 then Some (BR_DONE, m.mk_true)
                else Some (BR_REWRITE2, m.mk_eq out1 out2), c).

End bv_trailing.
