(* ===== verification/BvEq.v ===== *)
(** * BvEq: equations of bit vectors

    Models [bv_rewriter::mk_eq_core] of [ast/rewriter/bv_rewriter.cpp] and the
    rules it tries: single bits, trailing zeros, odd coefficients, blasting
    against a value, remainders, cancellation, and concatenations.  The state is
    the cache of [bv_trailing]; the outer [None] is a failed [VERIFY] there. *)
From Stdlib Require Import ZArith Lia.
From stdpp Require Import base list.
From S2P Require Import Prelude Ast BvUtil BoolRewriter BvRewriter PolyRewriter BvTrailing.
Import bv_rewriter poly_rewriter.

Local Open Scope Z_scope.

Module eq.

Definition is_bv_or (e : expr) : bool := match e with App OP_BOR _ => true | _ => false end.
Definition is_bv_xor (e : expr) : bool := match e with App OP_BXOR _ => true | _ => false end.
Definition is_bv_not (e : expr) : bool := match e with App OP_BNOT _ => true | _ => false end.
Definition is_concat (e : expr) : bool := match e with App OP_CONCAT _ => true | _ => false end.

(** The arguments of a concatenation, or the term alone. *)
Definition concat_args (e : expr) : list expr := match e with App OP_CONCAT args => args | _ => [e] end.

(** ** A value, bit by bit *)

Fixpoint blast_bits (lhs : expr) (v : Z) (i n : nat) : list expr :=
  match n with
  | O => []
  | S n => m.mk_eq (bv_util.mk_extract i i lhs) (mk_numeral (if v mod 2 =? 0 then 0 else 1) 1)
           :: blast_bits lhs (v / 2) (S i) n
  end.

Definition mk_blast_eq_value (lhs rhs : expr) : br_result :=
  if (get_bv_size lhs =? 1)%nat then None
  else
    let '(lhs, rhs) := if is_num lhs then (rhs, lhs) else (lhs, rhs) in
    match is_numeral rhs with
    | Some (v, sz) =>
        if is_bv_or lhs || is_bv_xor lhs || is_bv_not lhs then
          Some (BR_REWRITE3, m.mk_and (blast_bits lhs v 0 sz))
        else None
    | None => None
    end.

(** ** Concatenations

    The loop of [mk_eq_concat] over the arguments from the last; each iteration
    leaves an argument of one side behind. *)
Fixpoint eq_parts (fuel : nat) (rargs1 rargs2 : list expr) (low1 low2 : nat) : list expr :=
  match fuel, rargs1, rargs2 with
  | S fuel, arg1 :: rest1, arg2 :: rest2 =>
      let sz1 := get_bv_size arg1 in
      let sz2 := get_bv_size arg2 in
      let rsz1 := (sz1 - low1)%nat in
      let rsz2 := (sz2 - low2)%nat in
      if (rsz1 =? rsz2)%nat then
        m.mk_eq (bv_util.mk_extract (sz1 - 1) low1 arg1) (bv_util.mk_extract (sz2 - 1) low2 arg2)
        :: eq_parts fuel rest1 rest2 0 0
      else if (rsz1 <? rsz2)%nat then
        m.mk_eq (bv_util.mk_extract (sz1 - 1) low1 arg1) (bv_util.mk_extract (rsz1 + low2 - 1) low2 arg2)
        :: eq_parts fuel rest1 rargs2 0 (low2 + rsz1)
      else
        m.mk_eq (bv_util.mk_extract (rsz2 + low1 - 1) low1 arg1) (bv_util.mk_extract (sz2 - 1) low2 arg2)
        :: eq_parts fuel rargs1 rest2 (low1 + rsz2) 0
  | _, _, _ => []
  end.

Definition mk_eq_concat (lhs rhs : expr) : br_result :=
  let args1 := concat_args lhs in
  let args2 := concat_args rhs in
  Some (BR_REWRITE3, m.mk_and (eq_parts (length args1 + length args2) (rev args1) (rev args2) 0 0)).

(** ** Linear equations *)

Definition is_minus_one_times_t (arg : expr) : bool :=
  match bv_util.is_bv_mul2 arg with Some (t1, _) => bv_util.is_allone t1 | None => false end.

Definition mk_t1_add_t2_eq_c (t1 t2 c : expr) : expr :=
  if is_minus_one_times_t t1 then m.mk_eq t2 (bv_util.mk_bv_sub c t1)
  else m.mk_eq t1 (bv_util.mk_bv_sub c t2).

(** A sum has at least two arguments here, as the code asserts. *)
Definition isolate_term (lhs rhs : expr) : option expr :=
  let '(lhs, rhs) := if negb (is_num lhs) || negb (holds_of (is_add rhs)) then (rhs, lhs) else (lhs, rhs) in
  if negb (is_num lhs) then None
  else match is_add rhs with
  | Some [t1; t2] => Some (mk_t1_add_t2_eq_c t1 t2 lhs)
  | Some (t1 :: (_ :: _ :: _) as rest) => Some (mk_t1_add_t2_eq_c t1 (App OP_BADD rest) lhs)
  | _ => None
  end.

(** A sum of numerals and of products with a numeral coefficient. *)
Definition is_add_mul_const (e : expr) : bool :=
  match is_add e with
  | Some args =>
      forallb (fun arg => is_num arg || match bv_util.is_bv_mul2 arg with Some (c2, _) => is_num c2 | None => false end) args
  | None => false
  end.

(** [is_bv_mul(e, c, x)] with an odd numeral [c]: its value, its width and its inverse. *)
Definition odd_coefficient (e : expr) : option (Z * nat * Z * expr) :=
  '(c, x) ← bv_util.is_bv_mul2 e;
  '(c_val, sz) ← is_numeral c;
  c_inv_val ← bv_util.mult_inverse c_val sz;
  Some (c_val, sz, c_inv_val, x).

Definition first_odd (args : list expr) : option (Z * nat) :=
  match omap odd_coefficient args with (_, sz, c2_inv_val, _) :: _ => Some (c2_inv_val, sz) | [] => None end.

(** [c * x = rhs] for an odd [c]. *)
Definition divide_odd (lhs rhs : expr) : br_result :=
  match odd_coefficient lhs with
  | None => None
  | Some (_, sz, c_inv_val, x) =>
      match is_numeral rhs with
      | Some (rhs_val, sz) => Some (BR_REWRITE1, m.mk_eq x (mk_numeral (c_inv_val * rhs_val) sz))
      | None =>
          match '(c2, x2) ← bv_util.is_bv_mul2 rhs; '(c2_val, sz) ← is_numeral c2; Some (c2_val, sz, x2) with
          | Some (c2_val, sz, x2) =>
              Some (BR_REWRITE1,
                if bv_util.norm (c_inv_val * c2_val) sz false =? 1 then m.mk_eq x x2
                else m.mk_eq x (bv_util.mk_bv_mul (mk_numeral (c_inv_val * c2_val) sz) x2))
          | None =>
              if is_add_mul_const rhs then
                Some (BR_REWRITE2, m.mk_eq x (bv_util.mk_bv_mul (mk_numeral c_inv_val sz) rhs))
              else None
          end
      end
  end.

Definition mk_mul_eq (lhs rhs : expr) : br_result :=
  orelse (divide_odd lhs rhs)
    (match is_numeral lhs, is_add rhs with
     | Some (c_val, _), Some args =>
         if is_add_mul_const rhs then
           match first_odd args with
           | Some (c2_inv_val, sz) =>
               Some (BR_REWRITE3, m.mk_eq (mk_numeral (c2_inv_val * c_val) sz)
                                          (bv_util.mk_bv_mul (mk_numeral c2_inv_val sz) rhs))
           | None => None
           end
         else None
     | _, _ => None
     end).

(** ** Remainders *)

Definition is_urem_any (e : expr) : option (expr * expr) :=
  match e with
  | App (OP_BUREM | OP_BUREM_I) [dividend; divisor] => Some (dividend, divisor)
  | _ => None
  end.

Definition urem_eq (lhs rhs : expr) : br_result :=
  match is_urem_any lhs, is_numeral rhs with
  | Some (dividend, divisor), Some (rhs_val, _) =>
      match is_numeral divisor with
      | Some (divisor_val, divisor_sz) =>
          if divisor_val <=? rhs_val then Some (BR_DONE, m.mk_false)
          else if pow2 divisor_sz <=? divisor_val + rhs_val then Some (BR_REWRITE2, m.mk_eq dividend rhs)
          else None
      | None => None
      end
  | _, _ => None
  end.

Section Rules.
Variable cfg : params.
Variable lt : expr -> expr -> bool.
Variable get_id : expr -> Z.
Variable std_sort : (expr -> expr -> bool) -> list expr -> list expr.

Definition is_concat_split_target (t : expr) : bool :=
  m_split_concat_eq cfg || is_concat t || is_num t || is_bv_or t.

Definition is_concat_target (lhs rhs : expr) : bool :=
  (is_concat lhs && is_concat_split_target rhs) || (is_concat rhs && is_concat_split_target lhs).

(** The end of [mk_eq_core]: cancellation, then concatenations. *)
Definition eq_linear (swapped : bool) (lhs rhs : expr) : br_result :=
  let plain :=
    if is_concat_target lhs rhs then mk_eq_concat lhs rhs
    else if swapped then Some (BR_DONE, m.mk_eq lhs rhs) else None in
  let linear (e : expr) := holds_of (is_add e) || holds_of (is_mul e) in
  if linear lhs || linear rhs then
    let isolated lhs rhs (otherwise : br_result) :=
      match isolate_term lhs rhs with
      | Some r => Some (BR_REWRITE2, r)
      | None => if is_concat_target lhs rhs then mk_eq_concat lhs rhs else otherwise
      end in
    match cancel_monomials cfg lt get_id std_sort (get_bv_size lhs) lhs rhs false with
    | Some (new_lhs, new_rhs) =>
        if is_num new_lhs && is_num new_rhs then Some (BR_DONE, mk_bool_val (bool_decide (new_lhs = new_rhs)))
        else isolated new_lhs new_rhs (Some (BR_DONE, m.mk_eq new_lhs new_rhs))
    | None => isolated lhs rhs plain
    end
  else plain.

(** The rules between the trailing zeros and the cancellation. *)
Definition eq_rules (swapped : bool) (lhs rhs : expr) : br_result :=
  orelse (mk_mul_eq lhs rhs)
 (orelse (mk_mul_eq rhs lhs)
 (orelse (if m_blast_eq_value cfg then mk_blast_eq_value lhs rhs else None)
 (orelse (if m_urem_simpl cfg then urem_eq lhs rhs else None)
         (eq_linear swapped lhs rhs)))).

Definition mk_eq_core (lhs rhs : expr) (c : bv_trailing.cache) : option (br_result * bv_trailing.cache) :=
  if decide (lhs = rhs) then Some (Some (BR_DONE, m.mk_true), c)
  else if is_num lhs && is_num rhs then Some (Some (BR_DONE, m.mk_false), c)
  else
    let swapped := is_num lhs in
    let '(lhs, rhs) := if swapped then (rhs, lhs) else (lhs, rhs) in
    match (if m_bit2bool cfg then mk_bit2bool_eq lhs rhs else None) with
    | Some r => Some (Some r, c)
    | None =>
        '(st, c) ← (if m_trailing cfg then
                      '(st, c) ← bv_trailing.eq_remove_trailing lhs rhs c;
                      Some (st, bv_trailing.reset_cache (2 ^ 12) c)
                    else Some (None, c));
        Some (orelse st (eq_rules swapped lhs rhs), c)
    end.

End Rules.
End eq.
