(* ===== verification/BvBitwise.v ===== *)
(** * BvBitwise: the bitwise rules of the bit-vector simplifier

    Models [mk_bv_or], [mk_bv_xor], [mk_bv_not], [mk_bv_and], [mk_bv_nand],
    [mk_bv_nor] and [mk_bv_xnor] of [ast/rewriter/bv_rewriter.cpp].  The marks on
    terms ([expr_fast_mark]) are lists.  The total order on terms of
    [ast/ast_lt.cpp] and [std::sort] are parameters. *)
From Stdlib Require Import ZArith Lia.
From stdpp Require Import base list.
From S2P Require Import Prelude Mpz Ast BvUtil BoolRewriter BvRewriter.
Import bv_util bv_rewriter.

Local Open Scope Z_scope.

Module bitwise.

Section Rules.
Variable cfg : params.
Variable lt : expr -> expr -> bool.
Variable std_sort : (expr -> expr -> bool) -> list expr -> list expr.

(** [is_sorted] of [ast_lt.cpp]. *)
Fixpoint is_sorted (ns : list expr) : bool :=
  match ns with
  | prev :: (curr :: _) as ns => negb (lt curr prev) && is_sorted ns
  | _ => true
  end.

Definition marked (arg : expr) (marks : list expr) : bool := bool_decide (arg ∈ marks).

(** The arguments, with those of nested applications of [o] in their place. *)
Definition flat_args (o : op) (args : list expr) : list expr :=
  flat_map (fun arg => let 'App o' l := arg in if bool_decide (o' = o) then l else [arg]) args.

(** ** Masks: the runs of equal bits of a numeral *)

(** The loop that shifts out the bits equal to [b] while [i < sz]; [n] is
    [sz - i]. *)
Fixpoint bit_run (b : Z) (n : nat) (v1 : Z) : nat * Z :=
  match n with
  | O => (0%nat, v1)
  | S n => if v1 mod 2 =? b then let '(k, v) := bit_run b n (v1 / 2) in (S k, v) else (0%nat, v1)
  end.

(** The loop [while (i < sz)]; a run of ones and a run of zeros give a term
    each.  Each iteration but the last shifts out a bit, so [sz] are enough. *)
Fixpoint mask_parts (on_ones on_zeros : nat -> nat -> expr) (fuel i sz : nat) (v1 : Z) : list expr :=
  match fuel with
  | O => []
  | S fuel =>
      if (i <? sz)%nat then
        let '(k, v1) := bit_run 1 (sz - i) v1 in
        let '(k', v1) := bit_run 0 (sz - (i + k)) v1 in
        (if (k =? 0)%nat then [] else [on_ones i k])
        ++ (if (k' =? 0)%nat then [] else [on_zeros (i + k)%nat k'])
        ++ mask_parts on_ones on_zeros fuel (i + k + k') sz v1
      else []
  end.

(** ** Disjunction *)

Record or_state := { pos_args : list expr; neg_args : list expr; new_args : list expr;
                     merged : bool; num_coeffs : nat; v1 : Z }.

(** One argument: a result, or the next state. *)
Definition or_step (sz : nat) (arg : expr) (s : or_state) : expr + or_state :=
  let allone := mk_numeral (pow2 sz - 1) sz in
  match is_numeral arg with
  | Some (v2, _) => inr {| pos_args := pos_args s; neg_args := neg_args s; new_args := new_args s;
                           merged := merged s; num_coeffs := S (num_coeffs s); v1 := mpz.bitwise_or (v1 s) v2 |}
  | None =>
      match is_bv_not arg with
      | Some atom =>
          if marked atom (pos_args s) then inl allone
          else if marked atom (neg_args s) then
            inr {| pos_args := pos_args s; neg_args := neg_args s; new_args := new_args s;
                   merged := true; num_coeffs := num_coeffs s; v1 := v1 s |}
          else inr {| pos_args := pos_args s; neg_args := atom :: neg_args s; new_args := new_args s ++ [arg];
                      merged := merged s; num_coeffs := num_coeffs s; v1 := v1 s |}
      | None =>
          if marked arg (pos_args s) then
            inr {| pos_args := pos_args s; neg_args := neg_args s; new_args := new_args s;
                   merged := true; num_coeffs := num_coeffs s; v1 := v1 s |}
          else if marked arg (neg_args s) then inl allone
          else inr {| pos_args := arg :: pos_args s; neg_args := neg_args s; new_args := new_args s ++ [arg];
                      merged := merged s; num_coeffs := num_coeffs s; v1 := v1 s |}
      end
  end.

Fixpoint or_scan (sz : nat) (args : list expr) (s : or_state) : expr + or_state :=
  match args with
  | [] => inr s
  | arg :: args => match or_step sz arg s with inl r => inl r | inr s => or_scan sz args s end
  end.

(** [while (j >= 0 && is_zero_bit(x, j)) --j] from [j = k - 1]; the value is [j + 1]. *)
Fixpoint skip_zeros (x : expr) (k : nat) : nat :=
  match k with
  | O => O
  | S j => if is_zero_bit x j then skip_zeros x j else k
  end.

(** The loop over the bits of two concatenations one of which is zero at each
    bit; [k] is [j + 1]. *)
Fixpoint non_zero_args (concat1 concat2 : expr) (fuel k : nat) : list expr :=
  match fuel with
  | O => []
  | S fuel =>
      if (k =? 0)%nat then [] else
      let k1 := skip_zeros concat1 k in
      let k2 := skip_zeros concat2 k1 in
      (if (k1 =? k)%nat then [] else [bv_util.mk_extract (k - 1) k1 concat2])
      ++ (if (k2 =? k1)%nat then [] else [bv_util.mk_extract (k1 - 1) k2 concat1])
      ++ non_zero_args concat1 concat2 fuel k2
  end.

Definition or_concats (sz : nat) (s : or_state) : br_result :=
  match new_args s with
  | [concat1; concat2] =>
      if (num_coeffs s =? 0)%nat && bool_decide (is_Some (is_concat concat1)) && bool_decide (is_Some (is_concat concat2))
         && forallb (fun i => is_zero_bit concat1 i || is_zero_bit concat2 i) (seq 0 sz)
      then Some (BR_REWRITE2, bv_util.mk_concat (non_zero_args concat1 concat2 sz sz))
      else None
  | _ => None
  end.

(** A disjunction of a term and a numeral. *)
Definition or_mask (sz : nat) (s : or_state) : br_result :=
  match new_args s with
  | [t] =>
      if v1 s =? 0 then None
      else
        let exs := mask_parts (fun low num_sz => mk_numeral (pow2 num_sz - 1) num_sz)
                              (fun low num_sz => bv_util.mk_extract (low + num_sz - 1) low t) sz 0 sz (bv_util.norm (v1 s) sz false) in
        Some (BR_REWRITE2, bv_util.mk_concat (rev exs))
  | _ => None
  end.

(** The result from the collected arguments. *)
Definition or_result (sz : nat) (s : or_state) : br_result :=
  let new_args := if v1 s =? 0 then new_args s else new_args s ++ [mk_numeral (v1 s) sz] in
  match new_args with
  | [] => Some (BR_DONE, mk_numeral 0 sz)
  | [a] => Some (BR_DONE, a)
  | _ => Some (BR_DONE, bv_util.mk_bv_or (if m_bv_sort_ac cfg then std_sort lt new_args else new_args))
  end.

Definition or_init : or_state :=
  {| pos_args := []; neg_args := []; new_args := []; merged := false; num_coeffs := 0; v1 := 0 |}.

Definition mk_bv_or (args0 : list expr) : br_result :=
  match args0 with
  | [] => None
  | [a] => Some (BR_DONE, a)
  | a0 :: _ =>
      let sz := get_bv_size a0 in
      let args := if m_flat cfg then flat_args OP_BOR args0 else args0 in
      let flattened := negb (length args =? length args0)%nat in
      let args := if flattened then args else args0 in
      match or_scan sz args or_init with
      | inl r => Some (BR_DONE, r)
      | inr s =>
          if v1 s =? pow2 sz - 1 then Some (BR_DONE, mk_numeral (v1 s) sz)
          else orelse (or_concats sz s) (orelse (or_mask sz s)
            (if negb flattened && negb (merged s)
                && ((num_coeffs s =? 0)%nat || ((num_coeffs s =? 1)%nat && negb (v1 s =? 0)))
                && (negb (m_bv_sort_ac cfg) || is_sorted args) then None
             else or_result sz s))
      end
  end.

(** ** Exclusive or *)

Record xor_state := { xpos_args : list expr; xneg_args : list expr; xmerged : bool; xnum_coeffs : nat; xv1 : Z }.

(** [mark(atom, false)]. *)
Definition unmark (arg : expr) (marks : list expr) : list expr := filter (fun a => a <> arg) marks.

Definition xor_step (sz : nat) (arg : expr) (s : xor_state) : xor_state :=
  let flip v := mpz.bitwise_xor v (pow2 sz - 1) in
  match is_numeral arg with
  | Some (v2, _) => {| xpos_args := xpos_args s; xneg_args := xneg_args s; xmerged := xmerged s;
                       xnum_coeffs := S (xnum_coeffs s); xv1 := mpz.bitwise_xor (xv1 s) v2 |}
  | None =>
      match is_bv_not arg with
      | Some atom =>
          if marked atom (xneg_args s) then
            {| xpos_args := xpos_args s; xneg_args := unmark atom (xneg_args s); xmerged := true;
               xnum_coeffs := xnum_coeffs s; xv1 := xv1 s |}
          else if marked atom (xpos_args s) then
            {| xpos_args := unmark atom (xpos_args s); xneg_args := xneg_args s; xmerged := true;
               xnum_coeffs := xnum_coeffs s; xv1 := flip (xv1 s) |}
          else {| xpos_args := xpos_args s; xneg_args := atom :: xneg_args s; xmerged := xmerged s;
                  xnum_coeffs := xnum_coeffs s; xv1 := xv1 s |}
      | None =>
          if marked arg (xpos_args s) then
            {| xpos_args := unmark arg (xpos_args s); xneg_args := xneg_args s; xmerged := true;
               xnum_coeffs := xnum_coeffs s; xv1 := xv1 s |}
          else if marked arg (xneg_args s) then
            {| xpos_args := xpos_args s; xneg_args := unmark arg (xneg_args s); xmerged := true;
               xnum_coeffs := xnum_coeffs s; xv1 := flip (xv1 s) |}
          else {| xpos_args := arg :: xpos_args s; xneg_args := xneg_args s; xmerged := xmerged s;
                  xnum_coeffs := xnum_coeffs s; xv1 := xv1 s |}
      end
  end.

Definition xor_init : xor_state :=
  {| xpos_args := []; xneg_args := []; xmerged := false; xnum_coeffs := 0; xv1 := 0 |}.

Definition xor_scan (sz : nat) (args : list expr) : xor_state :=
  fold_left (fun s arg => xor_step sz arg s) args xor_init.

(** The argument that is not a numeral. *)
Fixpoint non_numeral (args : list expr) : option expr :=
  match args with
  | [] => None
  | [t] => Some t
  | t :: args => if is_num t then non_numeral args else Some t
  end.

(** All arguments but one are numerals. *)
Definition xor_mask (sz : nat) (v1 : Z) (t : expr) : expr :=
  let not_t := bv_util.mk_bv_not t in
  let exs := rev (mask_parts (fun low num_sz => bv_util.mk_extract (low + num_sz - 1) low not_t)
                             (fun low num_sz => bv_util.mk_extract (low + num_sz - 1) low t) sz 0 sz v1) in
  match exs with [e] => e | _ => bv_util.mk_concat exs end.

(** The arguments that are still marked, each once. *)
Fixpoint xor_collect (args pos neg : list expr) : list expr :=
  match args with
  | [] => []
  | arg :: args =>
      if is_num arg then xor_collect args pos neg
      else match is_bv_not arg with
      | Some atom =>
          if marked atom neg then arg :: xor_collect args pos (unmark atom neg) else xor_collect args pos neg
      | None =>
          if marked arg pos then arg :: xor_collect args (unmark arg pos) neg else xor_collect args pos neg
      end
  end.

Definition xor_result (sz : nat) (new_args : list expr) : br_result :=
  let app := Some (BR_DONE, bv_util.mk_bv_xor (if m_bv_sort_ac cfg then std_sort lt new_args else new_args)) in
  match new_args with
  | [] => Some (BR_DONE, mk_numeral 0 sz)
  | [a] => Some (BR_DONE, a)
  | [a; b] => if is_allone a then Some (BR_DONE, bv_util.mk_bv_not b) else app
  | _ => app
  end.

Definition mk_bv_xor (args0 : list expr) : br_result :=
  match args0 with
  | [] => None
  | [a] => Some (BR_DONE, a)
  | a0 :: _ =>
      let sz := get_bv_size a0 in
      let args := if m_flat cfg then flat_args OP_BXOR args0 else args0 in
      let flattened := negb (length args =? length args0)%nat in
      let args := if flattened then args else args0 in
      let s := xor_scan sz args in
      let all_nums := (xnum_coeffs s =? length args - 1)%nat in
      match (if negb (xv1 s =? 0) && all_nums then non_numeral args else None) with
      | Some t => Some (BR_REWRITE3, xor_mask sz (xv1 s) t)
      | None =>
          if negb (xmerged s) && negb flattened
             && ((xnum_coeffs s =? 0)%nat
                 || ((xnum_coeffs s =? 1)%nat && negb (xv1 s =? 0) && negb (xv1 s =? pow2 sz - 1)))
             && (negb (m_bv_sort_ac cfg) || is_sorted args) then None
          else
            let c := if xv1 s =? 0 then [] else [mk_numeral (xv1 s) sz] in
            xor_result sz (c ++ xor_collect args (xpos_args s) (xneg_args s))
      end
  end.

(** ** Complement *)

(** Numerals and complements are easy to negate. *)
Definition is_negatable (arg : expr) : option expr :=
  match is_numeral arg with
  | Some (r, bv_size) => Some (mk_numeral (mpz.bitwise_not bv_size r) bv_size)
  | None => is_bv_not arg
  end.

(** The rules under [m_bvnot_simpl]. *)
Definition not_simpl (arg : expr) : br_result :=
  orelse (match is_bv_mul2 arg with
          | Some (s, t) =>
              let bv_size := get_bv_size s in
              if is_allone s then Some (BR_REWRITE1, mk_bv_add (mk_numeral (pow2 bv_size - 1) bv_size) t)
              else if is_allone t then Some (BR_REWRITE1, mk_bv_add (mk_numeral (pow2 bv_size - 1) bv_size) s)
              else None
          | None => None
          end)
         (match is_bv_add2 arg with
          | Some (s, t) =>
              match is_negatable t, is_negatable s with
              | Some nt, Some ns => Some (BR_REWRITE1, App OP_BADD [mk_numeral 1 (get_bv_size s); ns; nt])
              | _, _ => None
              end
          | None => None
          end).

Definition mk_bv_not (arg : expr) : br_result :=
  match is_bv_not arg with
  | Some a => Some (BR_DONE, a)
  | None =>
  match is_numeral arg with
  | Some (val, bv_size) => Some (BR_DONE, mk_numeral (mpz.bitwise_not bv_size val) bv_size)
  | None =>
  match is_concat arg with
  | Some args => Some (BR_REWRITE2, bv_util.mk_concat (map bv_util.mk_bv_not args))
  | None =>
      if m_bvnot2arith cfg then
        let bv_size := get_bv_size arg in
        Some (BR_REWRITE1, mk_bv_sub (mk_numeral (pow2 bv_size - 1) bv_size) arg)
      else if m_bvnot_simpl cfg then not_simpl arg else None
  end end end.

(** ** The other operators *)

Definition mk_bv_and (args : list expr) : br_result :=
  Some (BR_REWRITE3, bv_util.mk_bv_not (bv_util.mk_bv_or (map bv_util.mk_bv_not args))).

Definition mk_bv_nand (args : list expr) : br_result :=
  Some (BR_REWRITE2, bv_util.mk_bv_or (map bv_util.mk_bv_not args)).

Definition mk_bv_nor (args : list expr) : br_result :=
  Some (BR_REWRITE2, bv_util.mk_bv_not (bv_util.mk_bv_or args)).

Definition mk_bv_xnor (args : list expr) : br_result :=
  Some (BR_REWRITE2, bv_util.mk_bv_not (bv_util.mk_bv_xor args)).

End Rules.
End bitwise.
