(* ===== verification/BvApp.v ===== *)
(** * BvApp: sums, products, and the bit-vector simplifier as a whole

    Models [bv_rewriter::mk_app_core] of [ast/rewriter/bv_rewriter.cpp], which picks
    the rule for an operator, and [mk_app] of [bv_rewriter.h].  An application
    with a number of arguments the code asserts not to see is left alone.  The
    conversions to and from integers and the constants [OP_BIT0] and [OP_BIT1] are
    not operators of the model. *)
From Stdlib Require Import ZArith Lia.
From stdpp Require Import base list.
From S2P Require Import Prelude Ast BvUtil BoolRewriter BvRewriter PolyRewriter BvBitwise.

(** ** Sums and products of the bit-vector simplifier

    Models [mk_bv_add] and [mk_bv_mul] of [ast/rewriter/bv_rewriter.cpp] over the
    rules of [PolyRewriter]; the width is that of the first argument, to which
    [mk_add_core] and [mk_mul_core] set [m_curr_sort]. *)
Import bv_rewriter poly_rewriter.

Local Open Scope Z_scope.

Module arith.

Section Rules.
Variable cfg : params.
Variable lt : expr -> expr -> bool.
Variable get_id : expr -> Z.
Variable std_sort : (expr -> expr -> bool) -> list expr -> list expr.

Definition width (args : list expr) : nat := match args with a :: _ => get_bv_size a | [] => 0 end.

(** At most one of the arguments may have a one at the position [i]. *)
Definition one_at_most (args : list expr) (i : nat) : bool :=
  (length (filter (fun a => is_zero_bit a i = false) args) <=? 1)%nat.

(** A sum without carries is a disjunction. *)
Definition add_or (st : br_result) (args : list expr) : br_result :=
  if (length args <? 2)%nat then st
  else if forallb (one_at_most args) (seq 0 (width args)) then Some (BR_REWRITE1, App OP_BOR args)
  else st.

Definition mk_bv_add (args : list expr) : br_result :=
  let st := mk_add_core cfg lt get_id std_sort (width args) args in
  match st with
  | None => add_or st args
  | Some (BR_DONE, App OP_BADD _args) => add_or st _args
  | Some _ => st
  end.

(** A product with a power of two is a concatenation. *)
Definition mul_concat (st : br_result) (x y : expr) : br_result :=
  if m_mul2concat cfg then
    match is_numeral x with
    | Some (v, bv_size) =>
        match is_power_of_two v with
        | Some shift =>
            Some (BR_REWRITE2, bv_util.mk_concat [bv_util.mk_extract (bv_size - shift - 1) 0 y; mk_numeral 0 shift])
        | None => st
        end
    | None => st
    end
  else st.

Definition mk_bv_mul (args : list expr) : M br_result :=
  st ← mk_mul_core cfg lt get_id std_sort (width args) args;
  mret (match st with
        | None => match args with [x; y] => mul_concat st x y | _ => st end
        | Some (BR_DONE, App OP_BMUL [x; y]) => mul_concat st x y
        | Some _ => st
        end).

(** [mk_uminus] and [mk_sub] with the sort of their first argument. *)
Definition mk_uminus (arg : expr) : br_result := poly_rewriter.mk_uminus (get_bv_size arg) arg.
Definition mk_sub (args : list expr) : br_result := poly_rewriter.mk_sub (width args) args.

End Rules.
End arith.

Import bv_rewriter.

Module bv_app.

Section Rules.
Variable cfg : params.
Variable lt : expr -> expr -> bool.
Variable get_id : expr -> Z.
Variable get_ref_count : expr -> nat.
Variable std_sort : (expr -> expr -> bool) -> list expr -> list expr.

(** The operators on one and on two terms. *)
Definition mk_unary (o : op) (a : expr) : br_result :=
  match o with
  | OP_BNEG => arith.mk_uminus a
  | OP_EXTRACT high low => mk_extract cfg get_ref_count high low a
  | OP_REPEAT n => mk_repeat n a
  | OP_ZERO_EXT n => mk_zero_extend n a
  | OP_SIGN_EXT n => mk_sign_extend cfg n a
  | OP_BNOT => bitwise.mk_bv_not cfg a
  | OP_ROTATE_LEFT n => mk_bv_rotate_left n a
  | OP_ROTATE_RIGHT n => mk_bv_rotate_right n a
  | OP_BREDOR => mk_bv_redor a
  | OP_BREDAND => mk_bv_redand a
  | OP_BIT2BOOL i => mk_bit2bool a i
  | _ => None
  end.

Definition mk_binary (o : op) (a b : expr) : br_result :=
  match o with
  | OP_ULEQ => mk_ule cfg a b
  | OP_UGEQ => mk_uge cfg a b
  | OP_ULT => mk_ult a b
  | OP_UGT => mk_ult b a
  | OP_SLEQ => mk_sle cfg a b
  | OP_SGEQ => mk_sge cfg a b
  | OP_SLT => mk_slt a b
  | OP_SGT => mk_slt b a
  | OP_BSHL => mk_bv_shl a b
  | OP_BLSHR => mk_bv_lshr a b
  | OP_BASHR => mk_bv_ashr a b
  | OP_BSDIV => mk_bv_sdiv_core a b (m_hi_div0 cfg)
  | OP_BUDIV => mk_bv_udiv_core cfg a b (m_hi_div0 cfg)
  | OP_BSREM => mk_bv_srem_core a b (m_hi_div0 cfg)
  | OP_BUREM => mk_bv_urem_core a b (m_hi_div0 cfg)
  | OP_BSMOD => mk_bv_smod_core a b (m_hi_div0 cfg)
  | OP_BSDIV_I => mk_bv_sdiv_core a b true
  | OP_BUDIV_I => mk_bv_udiv_core cfg a b true
  | OP_BSREM_I => mk_bv_srem_core a b true
  | OP_BUREM_I => mk_bv_urem_core a b true
  | OP_BSMOD_I => mk_bv_smod_core a b true
  | OP_EXT_ROTATE_LEFT => mk_bv_ext_rotate_left a b
  | OP_EXT_ROTATE_RIGHT => mk_bv_ext_rotate_right a b
  | OP_BCOMP => mk_bv_comp a b
  | OP_BSMUL_NO_OVFL => mk_bvsmul_no_overflow a b
  | OP_BUMUL_NO_OVFL => mk_bvumul_no_overflow a b
  | OP_BSMUL_NO_UDFL => mk_bvsmul_no_underflow a b
  | _ => None
  end.

Definition mk_app_core (o : op) (args : list expr) : M br_result :=
  match o with
  | OP_BMUL => arith.mk_bv_mul cfg lt get_id std_sort args
  | OP_BADD => mret (arith.mk_bv_add cfg lt get_id std_sort args)
  | OP_BSUB => mret (arith.mk_sub args)
  | OP_CONCAT => mret (mk_concat cfg args)
  | OP_BOR => mret (bitwise.mk_bv_or cfg lt std_sort args)
  | OP_BXOR => mret (bitwise.mk_bv_xor cfg lt std_sort args)
  | OP_BAND => mret (bitwise.mk_bv_and args)
  | OP_BNAND => mret (bitwise.mk_bv_nand args)
  | OP_BNOR => mret (bitwise.mk_bv_nor args)
  | OP_BXNOR => mret (bitwise.mk_bv_xnor args)
  | OP_MKBV => mret (mk_mkbv cfg args)
  | _ =>
      match args with
      | [a] => mret (mk_unary o a)
      | [a; b] => mret (mk_binary o a b)
      | _ => mret None
      end
  end.

(** [mk_app]: the result, or the application itself. *)
Definition mk_app (o : op) (args : list expr) : M expr :=
  st ← mk_app_core o args;
  mret (match st with Some (_, r) => r | None => App o args end).

End Rules.
End bv_app.
