(* ===== verification/BvRewriterDiv.v ===== *)
(** * BvRewriterDiv: the rules for division are sound

    Each rule yields a term of the sort and the value of the application it
    replaces.  The option [m_udiv2mul] is excluded: its rule is not sound. *)
From Stdlib Require Import ZArith Lia.
From stdpp Require Import base list.
From S2P Require Import Prelude Bits UBits Ast BvUtil AstFacts TermFacts BvTerms BoolRewriter BvRewriter.
Import bv_rewriter.

Local Open Scope Z_scope.

(** ** Numerals of the code *)

Lemma norm_unsigned v n : bv_util.norm v n false = v mod pow2 n.
Proof. done. Qed.

Lemma norm_small v n : 0 <= v < pow2 n -> bv_util.norm v n false = v.
Proof. intros Hv. by rewrite norm_unsigned, Z.mod_small. Qed.

Lemma norm_signed v n : (0 < n)%nat -> 0 <= v < pow2 n -> bv_util.norm v n true = sgn n v.
Proof.
  intros Hn Hv. unfold bv_util.norm, sgn. rewrite Z.mod_small by done.
  pose proof (pow2_half n Hn). pose proof (pow2_pos (n - 1)).
  destruct (Z.leb_spec (pow2 (n - 1)) v), (Z.ltb_spec v (pow2 (n - 1))); try lia;
    match goal with |- (if ?c <? ?d then _ else _) = _ => destruct (Z.ltb_spec c d) end; lia.
Qed.

(** Read the numerals of the context. *)
Ltac read_num :=
  repeat match goal with
  | Ha : bvx ?n ?a, E : is_numeral ?a = Some (?v, ?sz) |- _ =>
      let B := fresh "B" in let V := fresh "V" in let F := fresh "F" in
      destruct (is_numeral_inv n a v sz Ha E) as (? & B & F & V); subst sz; clear E
  end.

(** Follow the tests of a rule that returned a result. *)
Ltac rule_cases H :=
  repeat match type of H with
  | None = Some _ => discriminate H
  | Some _ = Some _ => injection H as ? ?; subst
  | (match ?x with _ => _ end) = Some _ =>
      lazymatch x with
      | context [match _ with _ => _ end] => fail
      | _ => destruct x eqn:?; try discriminate H
      end
  end.

Lemma bv_udiv_0 n a : bv_udiv n a 0 = pow2 n - 1.
Proof. done. Qed.

Lemma bv_urem_0 n a : bv_urem n a 0 = a.
Proof. done. Qed.

Lemma sgn_0 n : sgn n 0 = 0.
Proof. unfold sgn. pose proof (pow2_pos (n - 1)). by rewrite (proj2 (Z.ltb_lt _ _)). Qed.

Lemma pow2_ones n : (0 < n)%nat -> (pow2 n - 1) mod pow2 n = pow2 n - 1.
Proof. intros _. apply Z.mod_small. pose proof (pow2_pos n). lia. Qed.

Lemma sgn_one n b : (0 < n)%nat -> 0 <= b < pow2 n -> sgn n b = 1 -> b = 1.
Proof. intros Hn Hb E. pose proof (sgn_mod n b Hb) as M. rewrite E in M. pose proof (pow2_half n Hn).
  pose proof (pow2_pos (n - 1)). rewrite Z.mod_small in M; lia.
Qed.

(** ** The rules *)

Section Rules.
Variable cfg : params.

(** The division by cases is the operator, whatever the divisor. *)
Lemma by_zero_ok o op0 op_i f a b st r :
  Op2 o f -> Op1 op0 (fun n a => f n a 0) -> Op2 op_i f ->
  by_zero op0 op_i a b = Some (st, r) -> App o [a; b] ~> r.
Proof.
  intros O O0 Oi [= <- <-]. apply (rewrites_op2 o). intros n Ha Hb. rewrite (get_bv_size_eq n b Hb).
  bv_value. rewrite Z.mod_0_l by (pose proof (pow2_pos n); lia).
  by destruct (Z.eqb_spec (vn I b) 0) as [->|].
Qed.

Lemma same_op2 o o' f a b : Op2 o f -> Op2 o' f -> App o [a; b] ~> App o' [a; b].
Proof. intros O O'. apply (rewrites_op2 o). intros n Ha Hb. bv_term. Qed.

Lemma mk_bv_sdiv_core_ok o a b hi_div0 st r :
  Op2 o bv_sdiv -> mk_bv_sdiv_core a b hi_div0 = Some (st, r) -> App o [a; b] ~> r.
Proof.
  intros O H. unfold mk_bv_sdiv_core in H. destruct (is_numeral b) as [[r2 w]|] eqn:Eb.
  2:{ destruct hi_div0; [injection H as <- <-; by apply (same_op2 o OP_BSDIV_I bv_sdiv)|].
      by apply (by_zero_ok o OP_BSDIV0 OP_BSDIV_I bv_sdiv a b st). }
  apply (rewrites_op2 o). intros n Ha Hb. read_num. pose proof (bvx_pos n a Ha) as Hn.
  pose proof (pow2_pos n). rewrite norm_signed in H by done.
  destruct (Z.eqb_spec (sgn n r2) 0) as [E|E].
  { apply sgn_zero_iff in E as ->; [|done]. destruct hi_div0; injection H as <- <-; bv_value; rewrite V.
    - unfold bv_sdiv, bv_sle. rewrite Z.mod_0_l, sgn_0 by lia. destruct (0 <=? _); simpl; [|done].
      rewrite pow2_ones by done. by apply (Z.mod_unique_pos _ _ (-1)); lia.
    - done. }
  assert (E' : r2 <> 0) by (intros ->; by rewrite sgn_0 in E).
  destruct (Z.eqb_spec (sgn n r2) 1) as [E1|E1].
  { injection H as <- <-. bv_value. rewrite V. unfold bv_sdiv. rewrite (proj2 (Z.eqb_neq _ _)), E1 by done.
    rewrite Z.quot_1_r. symmetry. by apply sgn_mod, vn_bounds. }
  destruct (is_numeral a) as [[r1 w]|] eqn:Ea; injection H as <- <-; [|bv_value; by rewrite V].
  read_num. rewrite norm_signed by done. bv_value. rewrite V, V0. unfold bv_sdiv.
  by rewrite (proj2 (Z.eqb_neq _ _)).
Qed.

Lemma is_power_of_two_ok n r shift :
  0 <= r < pow2 n -> is_power_of_two r = Some shift -> r = pow2 shift /\ (shift < n)%nat.
Proof.
  unfold is_power_of_two. intros Hr. destruct (Z.ltb_spec 0 r) as [Hp|]; [|done]. cbn [andb].
  destruct (Z.eqb_spec r (2 ^ Z.log2 r)) as [E|]; [|done]. intros [= <-].
  pose proof (Z.log2_nonneg r). assert (P : r = pow2 (Z.to_nat (Z.log2 r))).
  { unfold pow2. by rewrite Z2Nat.id. }
  split; [done|]. destruct (Nat.lt_ge_cases (Z.to_nat (Z.log2 r)) n) as [|Hge]; [done|].
  pose proof (pow2_le_mono _ _ Hge). lia.
Qed.

Lemma mk_bv_udiv_core_ok o a b hi_div0 st r :
  Op2 o bv_udiv -> m_udiv2mul cfg = false ->
  mk_bv_udiv_core cfg a b hi_div0 = Some (st, r) -> App o [a; b] ~> r.
Proof.
  intros O Hm H. unfold mk_bv_udiv_core in H. rewrite Hm in H. destruct (is_numeral b) as [[r2 w]|] eqn:Eb.
  2:{ destruct hi_div0; [injection H as <- <-; by apply (same_op2 o OP_BUDIV_I bv_udiv)|].
      by apply (by_zero_ok o OP_BUDIV0 OP_BUDIV_I bv_udiv a b st). }
  apply (rewrites_op2 o). intros n Ha Hb. read_num. pose proof (bvx_pos n a Ha) as Hn.
  pose proof (pow2_pos n). rewrite norm_small in H by done.
  destruct (Z.eqb_spec r2 0) as [->|E].
  { destruct hi_div0; injection H as <- <-; bv_value; rewrite V; [by apply pow2_ones|done]. }
  assert (Q : forall x, bv_udiv n x r2 = x / r2) by (intros; unfold bv_udiv; by rewrite (proj2 (Z.eqb_neq _ _))).
  destruct (Z.eqb_spec r2 1) as [->|E1]; [injection H as <- <-; bv_value; by rewrite V, Q, Z.div_1_r|].
  destruct (is_numeral a) as [[r1 w]|] eqn:Ea.
  { injection H as <- <-. read_num. bv_value. rewrite V, V0, Q, norm_small, Z.quot_div_nonneg by (done || lia).
    apply Z.mod_small. rewrite <- Q. by apply bv_udiv_bound. }
  destruct (is_power_of_two r2) as [shift|] eqn:Es; injection H as <- <-; bv_value; rewrite V; [|done].
  destruct (is_power_of_two_ok n r2 shift B Es) as [P Hs]. pose proof (pow2_gt_id n).
  rewrite Q, P, (Z.mod_small (Z.of_nat shift)) by lia. unfold bv_lshr.
  by rewrite (proj2 (Z.leb_gt _ _)) by lia.
Qed.

Lemma mk_bv_srem_core_ok o a b hi_div0 st r :
  Op2 o bv_srem -> mk_bv_srem_core a b hi_div0 = Some (st, r) -> App o [a; b] ~> r.
Proof.
  intros O H. unfold mk_bv_srem_core in H. destruct (is_numeral b) as [[r2 w]|] eqn:Eb.
  2:{ destruct hi_div0; [injection H as <- <-; by apply (same_op2 o OP_BSREM_I bv_srem)|].
      by apply (by_zero_ok o OP_BSREM0 OP_BSREM_I bv_srem a b st). }
  apply (rewrites_op2 o). intros n Ha Hb. read_num. pose proof (bvx_pos n a Ha) as Hn.
  pose proof (pow2_pos n). rewrite norm_signed in H by done.
  destruct (Z.eqb_spec (sgn n r2) 0) as [E|E].
  { apply sgn_zero_iff in E as ->; [|done]. destruct hi_div0; injection H as <- <-; bv_value; rewrite V; [|done].
    unfold bv_srem. symmetry. by apply sgn_mod, vn_bounds. }
  assert (E' : (r2 =? 0) = false) by (apply Z.eqb_neq; intros ->; by rewrite sgn_0 in E).
  destruct (Z.eqb_spec (sgn n r2) 1) as [E1|E1].
  { injection H as <- <-. bv_value. rewrite V. unfold bv_srem. by rewrite E', E1, Z.rem_1_r. }
  destruct (is_numeral a) as [[r1 w]|] eqn:Ea; injection H as <- <-; [|bv_value; by rewrite V].
  read_num. rewrite norm_signed by done. bv_value. rewrite V, V0. unfold bv_srem. by rewrite E'.
Qed.

(** The sum of two terms. *)
Lemma add2_ok n a b : bvx n (App OP_BADD [a; b]) ->
  bvx n a /\ bvx n b /\ forall I, vn I (App OP_BADD [a; b]) = bv_add n (vn I a) (vn I b).
Proof.
  intros H. destruct (opn_inv OP_BADD _ _ H) as (k & [= <-] & _ & HF). inv_Forall. split_and!; [done..|]. intros I.
  by rewrite (proj2 (holds_opn OP_BADD n [a; b] ltac:(done) ltac:(by repeat constructor))).
Qed.

Lemma is_x_minus_one_ok n a x :
  bvx n a -> is_x_minus_one a = Some x -> bvx n x /\ forall I, vn I a = (vn I x - 1) mod pow2 n.
Proof.
  unfold is_x_minus_one. destruct a as [o l]. destruct o; try done. destruct l as [|a [|b [|? ?]]]; try done.
  intros (Ha & Hb & Hv)%add2_ok.
  assert (Hone : forall e, bvx n e -> is_minus_one_core e = true -> forall I, vn I e = pow2 n - 1).
  { intros e He. unfold is_minus_one_core. destruct (is_numeral e) as [[r w]|] eqn:Er; [|done]. read_num. intros ->%Z.eqb_eq. done. }
  assert (Hmod : forall z, (z + (pow2 n - 1)) mod pow2 n = (z - 1) mod pow2 n).
  { intros z. rewrite <- (Z.mod_add (z - 1) 1) by (pose proof (pow2_pos n); lia). f_equal. lia. }
  destruct (is_minus_one_core a) eqn:E1; [|destruct (is_minus_one_core b) eqn:E2; [|done]];
    intros [= <-]; split; try done; intros I; rewrite Hv; unfold bv_add.
  - rewrite (Hone a) by done. by rewrite Z.add_comm, Hmod.
  - by rewrite (Hone b), Hmod by done.
Qed.

Lemma urem_special_ok o a b hi_div0 st r :
  Op2 o bv_urem -> urem_special a b hi_div0 = Some (st, r) -> App o [a; b] ~> r.
Proof.
  intros O H. apply (rewrites_op2 o). intros n Ha Hb. unfold urem_special in H.
  pose proof (bvx_pos n a Ha) as Hn. pose proof (pow2_pos n).
  destruct (is_zero_num a) eqn:Ez.
  { unfold is_zero_num in Ez. destruct (is_numeral a) as [[r1 w]|] eqn:Ea; [|done]. read_num. apply Z.eqb_eq in Ez as ->.
    assert (Q : forall x, 0 = bv_urem n 0 x) by (intros x; unfold bv_urem; by destruct (x =? 0)).
    destruct hi_div0; injection H as <- <-; bv_value; rewrite ?V; [apply Q|].
    destruct (_ =? 0); [done|apply Q]. }
  destruct (bool_decide _) eqn:Ex; [|done]. apply bool_decide_eq_true in Ex.
  destruct (is_x_minus_one_ok n a b Ha Ex) as [_ Hx].
  assert (Q : forall I, vn I b <> 0 -> vn I a = bv_urem n (vn I a) (vn I b)).
  { intros I Hne. pose proof (vn_bounds I n b Hb). unfold bv_urem. rewrite (proj2 (Z.eqb_neq _ _)) by done.
    rewrite Hx, Z.mod_small by lia. by rewrite Z.mod_small by lia. }
  destruct hi_div0; injection H as <- <-.
  - bv_value. destruct (Z.eq_dec (vn I b) 0) as [->|]; [done|by apply Q].
  - rewrite (get_bv_size_eq n a Ha). bv_value. rewrite Z.mod_0_l by lia.
    destruct (Z.eqb_spec (vn I b) 0) as [E|]; [|by apply Q]. rewrite E, bv_urem_0, bv_urem_0, Hx, E, pow2_ones by done.
    apply (Z.mod_unique_pos _ _ (-1)); lia.
Qed.

Lemma mk_bv_urem_core_ok o a b hi_div0 st r :
  Op2 o bv_urem -> mk_bv_urem_core a b hi_div0 = Some (st, r) -> App o [a; b] ~> r.
Proof.
  intros O H. unfold mk_bv_urem_core in H. destruct (is_numeral b) as [[r2 w]|] eqn:Eb.
  2:{ unfold orelse in H. destruct (urem_special a b hi_div0) as [[st' r']|] eqn:Es.
      { injection H as -> ->. by apply (urem_special_ok o a b hi_div0 st). }
      destruct hi_div0; [injection H as <- <-; by apply (same_op2 o OP_BUREM_I bv_urem)|].
      by apply (by_zero_ok o OP_BUREM0 OP_BUREM_I bv_urem a b st). }
  apply (rewrites_op2 o). intros n Ha Hb. read_num. pose proof (bvx_pos n a Ha) as Hn.
  pose proof (pow2_pos n). rewrite norm_small in H by done.
  destruct (Z.eqb_spec r2 0) as [->|E]; [destruct hi_div0; injection H as <- <-; bv_value; by rewrite V|].
  assert (Q : forall x, bv_urem n x r2 = x mod r2) by (intros; unfold bv_urem; by rewrite (proj2 (Z.eqb_neq _ _))).
  destruct (Z.eqb_spec r2 1) as [->|E1]; [injection H as <- <-; bv_value; by rewrite V, Q, Z.mod_1_r|].
  destruct (is_numeral a) as [[r1 w]|] eqn:Ea.
  { injection H as <- <-. read_num. bv_value. rewrite V, V0, Q, norm_small, Z.rem_mod_nonneg by (done || lia).
    apply Z.mod_small. rewrite <- Q. by apply bv_urem_bound. }
  destruct (is_power_of_two r2) as [shift|] eqn:Es; injection H as <- <-; [|bv_value; by rewrite V].
  destruct (is_power_of_two_ok n r2 shift B Es) as [P Hs].
  assert (0 < shift)%nat by (destruct shift; [by rewrite pow2_0 in P|lia]).
  replace n with (n - shift + shift)%nat at 1 by lia. bv_value.
  rewrite V, Q, P, Z.mod_0_l, pow2_0, Z.div_1_r by (pose proof (pow2_pos (n - shift)); lia). lia.
Qed.

Lemma smod_num_ok n a b :
  (0 < n)%nat -> 0 <= a < pow2 n -> 0 <= b < pow2 n -> sgn n a <> 0 -> sgn n b <> 0 ->
  smod_num n (sgn n a) (sgn n b) mod pow2 n = bv_smod n a b.
Proof.
  intros Hn Ha Hb NA NB. pose proof (abs_sgn_bounds n Hn a Ha) as BA. pose proof (abs_sgn_bounds n Hn b Hb) as BB.
  pose proof (bv_urem_bound n _ _ BA BB) as Bu. rewrite (smod_abs n a b Hn Ha Hb). unfold smod_num, smod_select.
  assert (U : bv_util.norm (Z.rem (bv_util.norm (Z.abs (sgn n a)) n false) (bv_util.norm (Z.abs (sgn n b)) n false)) n false
              = bv_urem n (Z.abs (sgn n a)) (Z.abs (sgn n b))).
  { rewrite (norm_small (Z.abs (sgn n a))), (norm_small (Z.abs (sgn n b))) by done. rewrite Z.rem_mod_nonneg by lia.
    unfold bv_urem in *. rewrite (proj2 (Z.eqb_neq (Z.abs (sgn n b)) 0)) in * by lia. by apply norm_small. }
  rewrite U. set (u := bv_urem _ _ _) in *. pose proof (pow2_pos n).
  destruct (u =? 0); [by apply Z.mod_small|]. rewrite (neg_add_b_mod n b Hn Hb), (add_b_mod n b Hn Hb).
  destruct (Z.ltb_spec (sgn n a) 0), (Z.ltb_spec (sgn n b) 0), (Z.ltb_spec 0 (sgn n a)), (Z.ltb_spec 0 (sgn n b));
    try lia; cbn [andb]; rewrite ?norm_unsigned; try by apply Z.mod_small.
  all: rewrite Z.mod_mod by lia; done.
Qed.

Lemma zero_smod n a b r1 :
  bvx n a -> bvx n b -> 0 <= r1 < pow2 n -> (forall I, vn I a = r1) -> sgn n r1 = 0 ->
  holds n (fun I => bv_smod n (vn I a) (vn I b)) (App OP_BUREM [a; b]).
Proof.
  intros Ha Hb B V E. apply sgn_zero_iff in E as ->; [|done]. bv_value. rewrite V.
  unfold bv_urem, bv_smod. rewrite sgn_0. by destruct (_ =? 0).
Qed.

Lemma smod_by_zero n a b hi_div0 st r :
  bvx n a -> (forall I, vn I b = 0) ->
  Some (BR_DONE, if negb hi_div0 then App OP_BSMOD0 [a] else a) = Some (st, r) ->
  holds n (fun I => bv_smod n (vn I a) (vn I b)) r.
Proof.
  intros Ha V [= _ <-]. destruct hi_div0; cbn [negb]; bv_value; rewrite V; [|done]. symmetry. by apply sgn_mod, vn_bounds.
Qed.

Lemma mk_bv_smod_core_ok o a b hi_div0 st r :
  Op2 o bv_smod -> mk_bv_smod_core a b hi_div0 = Some (st, r) -> App o [a; b] ~> r.
Proof.
  intros O H. unfold mk_bv_smod_core in H.
  assert (Hgen : (if hi_div0 then Some (BR_DONE, App OP_BSMOD_I [a; b]) else by_zero OP_BSMOD0 OP_BSMOD_I a b)
    = Some (st, r) -> App o [a; b] ~> r).
  { destruct hi_div0; [intros [= <- <-]; by apply (same_op2 o OP_BSMOD_I bv_smod)|].
    by apply (by_zero_ok o OP_BSMOD0 OP_BSMOD_I bv_smod a b st). }
  apply (rewrites_op2 o). intros n Ha Hb. pose proof (bvx_pos n a Ha) as Hn. pose proof (pow2_pos n).
  pose proof (fun E => op2_rewritten o n a b r Ha Hb (Hgen E)) as Hgen'. clear Hgen.
  destruct (is_numeral a) as [[r1 w]|] eqn:Ea, (is_numeral b) as [[r2 w']|] eqn:Eb; cbn in H; read_num;
    rewrite ?norm_signed in H by done.
  - destruct (Z.eqb_spec (sgn n r1) 0) as [E|E1]; [injection H as <- <-; by apply zero_smod with r1|].
    destruct (Z.eqb_spec (sgn n r2) 0) as [E|E2].
    { apply sgn_zero_iff in E as ->; [|done]. by apply (smod_by_zero n a b hi_div0 st). }
    injection H as <- <-. bv_value. rewrite V, V0. by apply smod_num_ok.
  - destruct (Z.eqb_spec (sgn n r1) 0) as [E|E1]; [injection H as <- <-; by apply zero_smod with r1|].
    by apply Hgen'.
  - destruct (Z.eqb_spec (sgn n r2) 0) as [E|E2].
    { apply sgn_zero_iff in E as ->; [|done]. by apply (smod_by_zero n a b hi_div0 st). }
    destruct (Z.eqb_spec (sgn n r2) 1) as [E|E3]; [|by apply Hgen'].
    injection H as <- <-. bv_value. rewrite V. unfold bv_smod. rewrite E, Z.mod_1_r.
    destruct (Z.eqb_spec r2 0) as [->|]; [by rewrite sgn_0 in E|done].
  - by apply Hgen'.
Qed.
End Rules.
