(* ===== verification/BvRewriterShift.v ===== *)
(** * BvRewriterShift: the rules for shifts, rotations and extensions are sound

    Numerals are shifted at machine width when they fit in 64 bits; the other
    cases move bits with concatenations and extractions. *)
From Stdlib Require Import ZArith Lia.
From stdpp Require Import base list.
From S2P Require Import Prelude Bits UBits Ast BvUtil AstFacts TermFacts BvTerms BoolRewriter BvRewriter.
From S2P Require Import BvRewriterDiv.
Import bv_rewriter.

Local Open Scope Z_scope.

(** ** Words of 64 bits *)

Lemma mod_mod_pow2 z m n : (n <= m)%nat -> (z mod pow2 m) mod pow2 n = z mod pow2 n.
Proof.
  intros Hn. apply Z.mod_mod_divide. exists (pow2 (m - n)). rewrite (pow2_split n m) by done. apply Z.mul_comm.
Qed.

Lemma u64_mod z n : (n <= 64)%nat -> u64 z mod pow2 n = z mod pow2 n.
Proof. intros Hn. unfold u64. change (2 ^ 64) with (pow2 64). by apply mod_mod_pow2. Qed.

Lemma shift_left_pow2 x k : (k < 64)%nat -> shift_left x (Z.of_nat k) = u64 (x * pow2 k).
Proof. intros Hk. unfold shift_left. rewrite (proj2 (Z.ltb_lt _ _)) by lia. by rewrite Z.shiftl_mul_pow2 by lia. Qed.

Lemma shift_right_pow2 x k : (k < 64)%nat -> shift_right x (Z.of_nat k) = x / pow2 k.
Proof. intros Hk. unfold shift_right. rewrite (proj2 (Z.ltb_lt _ _)) by lia. by rewrite Z.shiftr_div_pow2 by lia. Qed.

(** The word of [n] ones. *)
Lemma ones_word n : (n <= 64)%nat -> u64 (shift_left 1 (Z.of_nat n) - 1) = pow2 n - 1.
Proof.
  intros Hn. pose proof (pow2_pos n). destruct (decide (n = 64%nat)) as [->|].
  - reflexivity.
  - rewrite shift_left_pow2, Z.mul_1_l by lia. unfold u64. change (2 ^ 64) with (pow2 64).
    pose proof (pow2_lt_mono n 64 ltac:(lia)). by rewrite !Z.mod_small by (rewrite ?Z.mod_small; lia).
Qed.

Lemma land_ones_pow2 z n : Z.land z (pow2 n - 1) = z mod pow2 n.
Proof.
  replace (pow2 n - 1) with (Z.ones (Z.of_nat n)) by (rewrite Z.ones_equiv; unfold pow2; lia).
  by rewrite Z.land_ones by lia.
Qed.

(** A shift amount that is in range, as a natural. *)
Lemma amount n r2 : 0 <= r2 < Z.of_nat n -> exists k, r2 = Z.of_nat k /\ (k < n)%nat.
Proof. intros H. exists (Z.to_nat r2). lia. Qed.

Lemma bv_shl_pow2 n a k : (k < n)%nat -> bv_shl n a (Z.of_nat k) = (a * pow2 k) mod pow2 n.
Proof. intros Hk. unfold bv_shl. by rewrite (proj2 (Z.leb_gt _ _)) by lia. Qed.

Lemma bv_lshr_pow2 n a k : (k < n)%nat -> bv_lshr n a (Z.of_nat k) = a / pow2 k.
Proof. intros Hk. unfold bv_lshr. by rewrite (proj2 (Z.leb_gt _ _)) by lia. Qed.

(** The high bits of a number. *)
Lemma high_bits_small n k a : (k <= n)%nat -> 0 <= a < pow2 n -> 0 <= a / pow2 k < pow2 (n - k).
Proof.
  intros Hk Ha. pose proof (pow2_pos k). split; [apply Z.div_pos; lia|]. apply Z.div_lt_upper_bound; [done|].
  rewrite <- pow2_split by done. lia.
Qed.

Lemma shl_split n k a : (k <= n)%nat -> (a mod pow2 (n - k)) * pow2 k = (a * pow2 k) mod pow2 n.
Proof.
  intros Hk. rewrite (pow2_split k n), (Z.mul_comm (pow2 k)) by done.
  by rewrite Z.mul_mod_distr_r by (pose proof (pow2_pos k); pose proof (pow2_pos (n - k)); lia).
Qed.

(** ** Left and logical right shift *)

Lemma mk_bv_shl_ok a b st r : mk_bv_shl a b = Some (st, r) -> App OP_BSHL [a; b] ~> r.
Proof.
  intros H. apply (rewrites_op2 OP_BSHL). intros n Ha Hb. unfold mk_bv_shl in H.
  rewrite (get_bv_size_eq n a Ha) in H. destruct (is_numeral b) as [[r2 w]|] eqn:Eb; [|done]. read_num.
  pose proof (bvx_pos n a Ha). pose proof (pow2_pos n). pose proof (fun I => vn_bounds I n a Ha) as Ba.
  destruct (Z.eqb_spec r2 0) as [E|E].
  { injection H as <- <-. bv_value. rewrite V, E. change 0 with (Z.of_nat 0).
    rewrite bv_shl_pow2, pow2_0, Z.mul_1_r by done. symmetry. by apply Z.mod_small. }
  destruct (Z.leb_spec (Z.of_nat n) r2) as [Hle|Hlt].
  { injection H as <- <-. bv_value. rewrite V. unfold bv_shl. by rewrite (proj2 (Z.leb_le _ _)), Z.mod_0_l by lia. }
  destruct (amount n r2 ltac:(lia)) as (k & -> & Hk). destruct (is_numeral a) as [[r1 w]|] eqn:Ea.
  - read_num. destruct (Nat.leb_spec n 64); injection H as <- <-; bv_value; rewrite V, V0, bv_shl_pow2 by done.
    + rewrite shift_left_pow2, norm_unsigned, u64_mod by lia. by apply Z.mod_mod; lia.
    + rewrite Nat2Z.id, norm_unsigned. by apply Z.mod_mod; lia.
  - injection H as <- <-. rewrite Nat2Z.id. replace n with (n - k + k)%nat at 1 by lia. bv_value.
    rewrite V, bv_shl_pow2, pow2_0, Z.div_1_r, Z.mod_0_l, Z.add_0_r by (done || pose proof (pow2_pos k); lia).
    by apply shl_split; lia.
Qed.

Lemma mk_bv_lshr_ok a b st r : mk_bv_lshr a b = Some (st, r) -> App OP_BLSHR [a; b] ~> r.
Proof.
  intros H. apply (rewrites_op2 OP_BLSHR). intros n Ha Hb. unfold mk_bv_lshr in H.
  rewrite (get_bv_size_eq n a Ha) in H. destruct (is_numeral b) as [[r2 w]|] eqn:Eb; [|done]. read_num.
  pose proof (bvx_pos n a Ha). pose proof (pow2_pos n). pose proof (fun I => vn_bounds I n a Ha) as Ba.
  destruct (Z.eqb_spec r2 0) as [E|E].
  { injection H as <- <-. bv_value. rewrite V, E. change 0 with (Z.of_nat 0).
    by rewrite bv_lshr_pow2, pow2_0, Z.div_1_r. }
  destruct (Z.leb_spec (Z.of_nat n) r2) as [Hle|Hlt].
  { injection H as <- <-. bv_value. rewrite V. unfold bv_lshr. by rewrite (proj2 (Z.leb_le _ _)), Z.mod_0_l by lia. }
  destruct (amount n r2 ltac:(lia)) as (k & -> & Hk).
  assert (Hd : forall x, 0 <= x < pow2 n -> 0 <= x / pow2 k < pow2 n).
  { intros x Hx. pose proof (high_bits_small n k x ltac:(lia) Hx). pose proof (pow2_le_mono (n - k) n ltac:(lia)). lia. }
  destruct (is_numeral a) as [[r1 w]|] eqn:Ea.
  - read_num. destruct (Nat.leb_spec n 64); injection H as <- <-; bv_value; rewrite V, V0, bv_lshr_pow2 by done.
    + rewrite shift_right_pow2, norm_small by (lia || by apply Hd). by apply Z.mod_small, Hd.
    + rewrite Nat2Z.id. by apply Z.mod_small, Hd.
  - injection H as <- <-. rewrite Nat2Z.id. replace n with (k + (n - k))%nat at 1 by lia. bv_value.
    pose proof (pow2_pos k). rewrite V, bv_lshr_pow2, Z.mod_0_l, Z.mul_0_l, Z.add_0_l by (done || lia).
    apply Z.mod_small, high_bits_small; [lia|done].
Qed.

(** ** Arithmetic right shift

    By any amount, the shift is a division of the signed value. *)
Lemma shift_out n s k : (0 < n)%nat -> (n - 1 <= k)%nat -> - pow2 (n - 1) <= s < pow2 (n - 1) ->
  s / pow2 k = if 0 <=? s then 0 else -1.
Proof.
  intros Hn Hk Hs. pose proof (pow2_le_mono _ _ Hk). destruct (Z.leb_spec 0 s).
  - apply Z.div_small. lia.
  - symmetry. apply (Z.div_unique_pos s (pow2 k) (-1) (s + pow2 k)); lia.
Qed.

Lemma bv_ashr_pow2 n a k :
  (0 < n)%nat -> 0 <= a < pow2 n -> bv_ashr n a (Z.of_nat k) = (sgn n a / pow2 k) mod pow2 n.
Proof.
  intros Hn Ha. unfold bv_ashr. destruct (Z.leb_spec (Z.of_nat n) (Z.of_nat k)) as [Hle|]; [|done].
  by rewrite (shift_out n) by (try apply sgn_bounds; (done || lia)).
Qed.

Lemma sgn_ashr n a k :
  (0 < n)%nat -> 0 <= a < pow2 n -> sgn n (bv_ashr n a (Z.of_nat k)) = sgn n a / pow2 k.
Proof.
  intros Hn Ha. rewrite bv_ashr_pow2 by done. symmetry. pose proof (sgn_bounds n a Hn Ha). pose proof (pow2_pos k).
  apply sgn_unique; [done|apply mod_pow2_bound| |done]. pose proof (pow2_pos (n - 1)). split.
  - apply Z.div_le_lower_bound; nia.
  - apply Z.div_lt_upper_bound; nia.
Qed.

Lemma bv_ashr_ashr n a j k :
  (0 < n)%nat -> 0 <= a < pow2 n ->
  bv_ashr n (bv_ashr n a (Z.of_nat j)) (Z.of_nat k) = bv_ashr n a (Z.of_nat (j + k)).
Proof.
  intros Hn Ha. rewrite (bv_ashr_pow2 n (bv_ashr _ _ _)); [|done|rewrite bv_ashr_pow2 by done; apply mod_pow2_bound].
  rewrite sgn_ashr, (bv_ashr_pow2 n a (j + k)), pow2_add by done.
  by rewrite Z.div_div by (pose proof (pow2_pos j); pose proof (pow2_pos k); lia).
Qed.

(** Shifting further than the width changes nothing. *)
Lemma bv_ashr_over n a k :
  (0 < n)%nat -> 0 <= a < pow2 n -> (n <= k)%nat -> bv_ashr n a (Z.of_nat k) = bv_ashr n a (Z.of_nat n).
Proof.
  intros Hn Ha Hk. rewrite !bv_ashr_pow2 by done.
  by rewrite !(shift_out n) by (try apply sgn_bounds; (done || lia)).
Qed.

(** A negative number: the high bits are ones. *)
Lemma ashr_negative n a k :
  (k <= n)%nat -> pow2 (n - 1) <= a < pow2 n -> (0 < n)%nat ->
  bv_ashr n a (Z.of_nat k) = a / pow2 k + (pow2 n - pow2 (n - k)).
Proof.
  intros Hk Ha Hn. pose proof (pow2_pos (n - 1)). pose proof (pow2_pos k). pose proof (pow2_pos (n - k)).
  rewrite bv_ashr_pow2 by lia. unfold sgn. rewrite (proj2 (Z.ltb_ge _ _)) by lia.
  replace (a - pow2 n) with (a + - pow2 (n - k) * pow2 k) by (rewrite (pow2_split k n) by done; lia).
  rewrite Z.div_add by lia. pose proof (high_bits_small n k a Hk ltac:(lia)).
  symmetry. pose proof (pow2_le_mono (n - k) n ltac:(lia)). apply (Z.mod_unique_pos _ _ (-1)); lia.
Qed.

Lemma ashr_positive n a k :
  (0 < n)%nat -> 0 <= a < pow2 (n - 1) -> bv_ashr n a (Z.of_nat k) = a / pow2 k.
Proof.
  intros Hn Ha. pose proof (pow2_half n Hn). pose proof (pow2_pos k).
  rewrite bv_ashr_pow2 by lia. unfold sgn. rewrite (proj2 (Z.ltb_lt _ _)) by lia. apply Z.mod_small. split.
  - apply Z.div_pos; lia.
  - apply Z.div_lt_upper_bound; nia.
Qed.

(** All bits are the sign. *)
Lemma ashr_sign n a b :
  (0 < n)%nat -> 0 <= a < pow2 n -> Z.of_nat n <= b ->
  bv_ashr n a b = if pow2 (n - 1) <=? a then pow2 n - 1 else 0.
Proof.
  intros Hn Ha Hb. unfold bv_ashr. rewrite (proj2 (Z.leb_le (Z.of_nat n) b)) by done. unfold sgn. pose proof (pow2_pos n).
  destruct (Z.leb_spec (pow2 (n - 1)) a).
  - rewrite (proj2 (Z.ltb_ge _ _)), (proj2 (Z.leb_gt _ _)) by lia. symmetry. apply (Z.mod_unique_pos _ _ (-1)); lia.
  - rewrite (proj2 (Z.ltb_lt _ _)), (proj2 (Z.leb_le _ _)) by lia. by rewrite Z.mod_0_l by lia.
Qed.

(** The top bit. *)
Lemma testbit_top n a :
  (0 < n)%nat -> 0 <= a < pow2 n -> Z.testbit a (Z.of_nat (n - 1)) = (pow2 (n - 1) <=? a).
Proof.
  intros Hn Ha. pose proof (pow2_half n Hn). pose proof (pow2_pos (n - 1)).
  apply Z.b2z_inj. rewrite Z.testbit_spec' by lia. fold (pow2 (n - 1)).
  destruct (Z.leb_spec (pow2 (n - 1)) a).
  - by replace (a / pow2 (n - 1)) with 1 by (apply (Z.div_unique_pos _ _ _ (a - pow2 (n - 1))); lia).
  - by rewrite Z.div_small by lia.
Qed.

(** The sign bit of a word. *)
Lemma sign_bit_word n a :
  (0 < n <= 64)%nat -> 0 <= a < pow2 n ->
  negb (Z.land a (shift_left 1 (Z.of_nat n - 1)) =? 0) = (pow2 (n - 1) <=? a).
Proof.
  intros Hn Ha. replace (Z.of_nat n - 1) with (Z.of_nat (n - 1)) by lia. rewrite shift_left_pow2, Z.mul_1_l by lia.
  unfold u64. change (2 ^ 64) with (pow2 64). rewrite Z.mod_small
    by (pose proof (pow2_pos (n - 1)); pose proof (pow2_lt_mono (n - 1) 64 ltac:(lia)); lia).
  rewrite <- (testbit_top n a) by (done || lia). unfold pow2. rewrite Z.land_comm.
  destruct (Z.testbit a (Z.of_nat (n - 1))) eqn:Et.
  - apply negb_true_iff, Z.eqb_neq. intros E. apply (f_equal (fun z => Z.testbit z (Z.of_nat (n - 1)))) in E.
    rewrite Z.land_spec, Et, Z.pow2_bits_true, Z.bits_0 in E by lia. done.
  - apply negb_false_iff, Z.eqb_eq, Z.bits_inj'. intros i Hi. rewrite Z.land_spec, Z.bits_0.
    destruct (Z.eq_dec i (Z.of_nat (n - 1))) as [->|Hne]; [by rewrite Et, andb_false_r|].
    by rewrite Z.pow2_bits_false.
Qed.

(** The word of [k] ones above [n - k] zeros. *)
Lemma high_mask n k : (0 < k <= n)%nat -> (n <= 64)%nat ->
  Z.land (u64 (Z.lnot (u64 (shift_left 1 (Z.of_nat (n - k)) - 1)))) (u64 (shift_left 1 (Z.of_nat n) - 1))
  = pow2 n - pow2 (n - k).
Proof.
  intros Hk Hn. rewrite !ones_word, land_ones_pow2, u64_mod by lia.
  unfold Z.lnot. pose proof (pow2_pos (n - k)). pose proof (pow2_lt_mono (n - k) n ltac:(lia)).
  symmetry. apply (Z.mod_unique_pos _ _ (-1)); lia.
Qed.

Lemma ashr_word_ok n a b :
  (0 < n <= 64)%nat -> 0 <= a < pow2 n -> 0 < b < pow2 n -> ashr_word n a b = bv_ashr n a b.
Proof.
  intros Hn Ha Hb. unfold ashr_word. rewrite sign_bit_word by done. rewrite ones_word by lia.
  pose proof (pow2_pos n). destruct (Z.le_gt_cases (Z.of_nat n) b) as [Hle|Hlt].
  - pose proof (Z.mod_pos_bound b (Z.of_nat n) ltac:(lia)). rewrite (proj2 (Z.ltb_lt _ _)) by lia.
    by rewrite ashr_sign by lia.
  - destruct (amount n b ltac:(lia)) as (k & -> & Hk). rewrite (Z.mod_small (Z.of_nat k)), Z.ltb_irrefl by lia.
    rewrite shift_right_pow2 by lia. destruct (Z.leb_spec (pow2 (n - 1)) a).
    + rewrite ashr_negative by lia. replace (Z.of_nat n - Z.of_nat k) with (Z.of_nat (n - k)) by lia.
      rewrite <- (ones_word n), high_mask by lia. rewrite Z.lor_comm, Z.add_comm.
      pose proof (high_bits_small n k a ltac:(lia) Ha).
      apply (lor_add _ _ (Z.of_nat (n - k))); [lia|done|].
      rewrite (pow2_split (n - k) n) by lia. fold (pow2 (n - k)).
      replace (pow2 (n - k) * pow2 (n - (n - k)) - pow2 (n - k)) with ((pow2 (n - (n - k)) - 1) * pow2 (n - k)) by lia.
      apply Z_mod_mult.
    + symmetry. apply ashr_positive; lia.
Qed.

(** *** Padding with ones *)

Lemma pad_ones_low i j r p : p * pow2 i <= 2 * r -> 0 < p -> pad_ones (i + j) r p = pad_ones j r (p * pow2 i).
Proof.
  revert p. induction i as [|i IH]; intros p Hr Hp; simpl.
  - rewrite pow2_0. by rewrite Z.mul_1_r.
  - rewrite pow2_S in Hr. pose proof (pow2_pos i). rewrite (proj2 (Z.ltb_ge _ _)) by nia.
    rewrite IH by nia. f_equal. rewrite pow2_S. lia.
Qed.

Lemma pad_ones_high i c p : 0 < c <= p -> pad_ones i (p - c) p = p * pow2 i - c.
Proof.
  revert p. induction i as [|i IH]; intros p Hc; simpl; [rewrite pow2_0; lia|].
  rewrite (proj2 (Z.ltb_lt _ _)) by lia. replace (p - c + p) with (p * 2 - c) by lia.
  rewrite IH by lia. rewrite pow2_S. lia.
Qed.

Lemma ashr_big_ok n a b :
  (0 < n)%nat -> 0 <= a < pow2 n -> 0 < b < pow2 n -> ashr_big n a b = bv_ashr n a b.
Proof.
  intros Hn Ha Hb. unfold ashr_big, bv_util.has_sign_bit. rewrite norm_small by done. pose proof (pow2_pos n).
  destruct (Z.leb_spec (Z.of_nat n) b) as [Hle|Hlt].
  - by rewrite ashr_sign by lia.
  - destruct (amount n b ltac:(lia)) as (k & -> & Hk). rewrite Nat2Z.id.
    destruct (Z.leb_spec (pow2 (n - 1)) a); [|symmetry; apply ashr_positive; lia].
    rewrite ashr_negative by lia. pose proof (high_bits_small n k a ltac:(lia) Ha) as Hq. pose proof (pow2_pos k).
    assert (Hlow : pow2 (n - k) <= 2 * (a / pow2 k)).
    { replace (n - k)%nat with (S (n - k - 1)) by lia. rewrite pow2_S. apply Z.mul_le_mono_nonneg_l; [done|].
      apply Z.div_le_lower_bound; [done|]. rewrite <- pow2_add. by replace (k + (n - k - 1))%nat with (n - 1)%nat by lia. }
    replace n with (n - k + k)%nat at 1 by lia. rewrite pad_ones_low, Z.mul_1_l by lia.
    replace (a / pow2 k) with (pow2 (n - k) - (pow2 (n - k) - a / pow2 k)) at 1 by lia.
    rewrite pad_ones_high, (Z.mul_comm _ (pow2 k)), <- pow2_split by lia. lia.
Qed.

Lemma mk_bv_ashr_ok a b st r : mk_bv_ashr a b = Some (st, r) -> App OP_BASHR [a; b] ~> r.
Proof.
  intros H. apply (rewrites_op2 OP_BASHR). intros n Ha Hb. unfold mk_bv_ashr in H.
  rewrite (get_bv_size_eq n a Ha) in H. destruct (is_numeral b) as [[r2 w]|] eqn:Eb; [|done]. read_num.
  pose proof (bvx_pos n a Ha) as Hn. pose proof (pow2_pos n). pose proof (fun I => vn_bounds I n a Ha) as Ba.
  destruct (Z.eqb_spec r2 0) as [E|E].
  { injection H as <- <-. bv_value. rewrite V, E. change 0 with (Z.of_nat 0).
    by rewrite bv_ashr_pow2, pow2_0, Z.div_1_r, sgn_mod. }
  destruct (is_numeral a) as [[r1 w]|] eqn:Ea.
  { read_num. injection H as <- <-. bv_value. rewrite V, V0.
    assert (Hr : bv_ashr n r1 r2 mod pow2 n = bv_ashr n r1 r2) by (unfold bv_ashr; apply Z.mod_mod; lia).
    destruct (Nat.leb_spec n 64); [rewrite ashr_word_ok by lia|rewrite ashr_big_ok by lia]; done. }
  destruct a as [o l]. destruct o; try done. destruct l as [|x [|y [|? ?]]]; try done.
  destruct (is_numeral y) as [[r1 w]|] eqn:Ey; [|done].
  destruct (op2_inv OP_BASHR _ _ Ha) as (k & x' & y' & [= <- <-] & [= <-] & Hx & Hy). read_num.
  injection H as <- <-. bv_value. pose proof (vn_bounds I n x Hx) as Bx. pose proof (pow2_gt_id n).
  rewrite V, (proj2 (holds_op2 OP_BASHR n _ _ x y (holds_refl n x Hx) (holds_refl n y Hy))), V0.
  rewrite <- (Z2Nat.id r1), <- (Z2Nat.id r2), bv_ashr_ashr, <- Nat2Z.inj_add by lia.
  set (j := (Z.to_nat r1 + Z.to_nat r2)%nat). destruct (Z.ltb_spec (Z.of_nat n) (Z.of_nat j)).
  - rewrite (bv_ashr_over n _ j) by lia. by rewrite Z.mod_small by lia.
  - by rewrite Z.mod_small by lia.
Qed.

(** ** Rotation *)

Lemma rotate_left_value n k a :
  (k < n)%nat -> 0 <= a < pow2 n ->
  (a mod pow2 (n - k)) * pow2 k + (a / pow2 (n - k)) mod pow2 k = bv_rotl n a k.
Proof.
  intros Hk Ha. unfold bv_rotl. rewrite Nat.mod_small by done. rewrite shl_split by lia. f_equal.
  pose proof (high_bits_small n (n - k) a ltac:(lia) Ha) as B. replace (n - (n - k))%nat with k in B by lia.
  by apply Z.mod_small.
Qed.

(** Rotation depends on the amount modulo the width only. *)
Lemma bv_rotl_mod n a k : (0 < n)%nat -> bv_rotl n a (k mod n) = bv_rotl n a k.
Proof. intros Hn. unfold bv_rotl. by rewrite Nat.Div0.mod_mod. Qed.

Lemma bv_rotl_0 n a k : (0 < n)%nat -> 0 <= a < pow2 n -> (k mod n = 0)%nat -> bv_rotl n a k = a.
Proof.
  intros Hn Ha Hk. unfold bv_rotl. rewrite Hk, pow2_0, Nat.sub_0_r, Z.mul_1_r, Z.mod_small, Z.div_small by done. lia.
Qed.

Lemma rotate_left_ok n k a st r :
  bvx n a -> mk_bv_rotate_left k a = Some (st, r) -> holds n (fun I => bv_rotl n (vn I a) k) r.
Proof.
  intros Ha H. unfold mk_bv_rotate_left in H. rewrite (get_bv_size_eq n a Ha) in H.
  pose proof (bvx_pos n a Ha) as Hn. pose proof (fun I => vn_bounds I n a Ha) as Ba.
  pose proof (Nat.mod_upper_bound k n ltac:(lia)) as Hk.
  destruct (Nat.eqb_spec (k mod n) 0) as [E|E]; cbn [orb] in H.
  { injection H as <- <-. bv_value. by rewrite bv_rotl_0. }
  destruct (Nat.eqb_spec n 1) as [->|E1]; [lia|]. injection H as <- <-.
  replace n with (n - k mod n + k mod n)%nat at 1 by lia. bv_value.
  rewrite pow2_0, Z.div_1_r, rotate_left_value by (done || lia). by apply bv_rotl_mod.
Qed.

Lemma mk_bv_rotate_left_ok k a st r :
  mk_bv_rotate_left k a = Some (st, r) -> App (OP_ROTATE_LEFT k) [a] ~> r.
Proof. intros H. apply (rewrites_op1 (OP_ROTATE_LEFT k)). intros n Ha. by apply (rotate_left_ok n k a st). Qed.

Lemma rotate_right_ok n k a st r :
  bvx n a -> mk_bv_rotate_right k a = Some (st, r) -> holds n (fun I => bv_rotr n (vn I a) k) r.
Proof.
  unfold mk_bv_rotate_right. intros Ha. rewrite (get_bv_size_eq n a Ha). by apply rotate_left_ok.
Qed.

Lemma mk_bv_rotate_right_ok k a st r :
  mk_bv_rotate_right k a = Some (st, r) -> App (OP_ROTATE_RIGHT k) [a] ~> r.
Proof. intros H. apply (rewrites_op1 (OP_ROTATE_RIGHT k)). intros n Ha. by apply (rotate_right_ok n k a st). Qed.

Lemma rotate_by_eq n b : (0 < n)%nat -> 0 <= b -> rotate_by b n = Z.to_nat (b mod Z.of_nat n).
Proof. intros Hn Hb. unfold rotate_by. by rewrite Z.rem_mod_nonneg, Z.mod_mod by lia. Qed.

Lemma mk_bv_ext_rotate_left_ok a b st r :
  mk_bv_ext_rotate_left a b = Some (st, r) -> App OP_EXT_ROTATE_LEFT [a; b] ~> r.
Proof.
  intros H. apply (rewrites_op2 OP_EXT_ROTATE_LEFT). intros n Ha Hb. unfold mk_bv_ext_rotate_left in H.
  destruct (is_numeral b) as [[r2 w]|] eqn:Eb; [|done]. cbn in H. read_num.
  rewrite rotate_by_eq in H by (try lia; by apply (bvx_pos n a)).
  eapply holds_ext; [eapply rotate_left_ok; [exact Ha|exact H]|]. intros I. by rewrite V.
Qed.

Lemma mk_bv_ext_rotate_right_ok a b st r :
  mk_bv_ext_rotate_right a b = Some (st, r) -> App OP_EXT_ROTATE_RIGHT [a; b] ~> r.
Proof.
  intros H. apply (rewrites_op2 OP_EXT_ROTATE_RIGHT). intros n Ha Hb. unfold mk_bv_ext_rotate_right in H.
  destruct (is_numeral b) as [[r2 w]|] eqn:Eb; [|done]. cbn in H. read_num.
  rewrite rotate_by_eq in H by (try lia; by apply (bvx_pos n a)).
  eapply holds_ext; [eapply rotate_right_ok; [exact Ha|exact H]|]. intros I. by rewrite V.
Qed.

(** ** Extension and repetition *)

Section Extend.
Variable cfg : params.

Lemma bv_zero_extend_ok k a st r : mk_zero_extend k a = Some (st, r) -> App (OP_ZERO_EXT k) [a] ~> r.
Proof.
  intros H. apply holds_rewrites. intros s (n & ? & [= <-] & Ha & ->)%zero_ext_inv.
  exists (n + k)%nat, (fun I => vn I a). split; [done|]. split; [by apply holds_zero_ext, holds_refl|].
  unfold mk_zero_extend in H. destruct (Nat.eqb_spec k 0) as [->|Hk]; injection H as <- <-.
  - rewrite Nat.add_0_r. by apply holds_refl.
  - rewrite Nat.add_comm. bv_value. rewrite Z.mod_0_l by (pose proof (pow2_pos k); lia). lia.
Qed.

Lemma map_copies {A B} (f : A -> B) k x : map f (replicate k x) = replicate k (f x).
Proof. apply fmap_replicate. Qed.

(** Copies of the sign bit before a number. *)
Lemma sign_copies n k s a :
  catz (replicate k 1%nat ++ [n]) (replicate k s ++ [a]) = s * (pow2 k - 1) * pow2 n + a.
Proof.
  induction k as [|k IH]; cbn [replicate app catz].
  - simpl. rewrite pow2_0. lia.
  - rewrite IH, sum_list_with_app, sum_list_replicate. cbn [sum_list_with id].
    rewrite Nat.mul_1_r, Nat.add_0_r, pow2_add, pow2_S. lia.
Qed.

Lemma sign_extend_value n k a :
  (0 < n)%nat -> 0 <= a < pow2 n ->
  (a / pow2 (n - 1)) mod pow2 1 * (pow2 k - 1) * pow2 n + a = sgn n a mod pow2 (n + k).
Proof.
  intros Hn Ha. pose proof (pow2_half n Hn). pose proof (pow2_pos (n - 1)). pose proof (pow2_pos k).
  rewrite pow2_add. unfold sgn. change (pow2 1) with 2. destruct (Z.ltb_spec a (pow2 (n - 1))).
  - rewrite (Z.div_small a) by lia. rewrite Z.mod_0_l by lia. rewrite Z.mod_small by nia. lia.
  - replace (a / pow2 (n - 1)) with 1 by (apply (Z.div_unique_pos _ _ _ (a - pow2 (n - 1))); lia).
    change (1 mod 2) with 1. apply (Z.mod_unique_pos _ _ (-1)); nia.
Qed.

Lemma bv_sign_extend_ok k a st r : mk_sign_extend cfg k a = Some (st, r) -> App (OP_SIGN_EXT k) [a] ~> r.
Proof.
  intros H. apply holds_rewrites. intros s (n & ? & [= <-] & Ha & ->)%sign_ext_inv.
  exists (n + k)%nat, (fun I => sgn n (vn I a) mod pow2 (n + k)). split; [done|].
  split; [by apply holds_sign_ext, holds_refl|]. pose proof (bvx_pos n a Ha) as Hn.
  unfold mk_sign_extend in H. destruct (Nat.eqb_spec k 0) as [->|Hk].
  { injection H as <- <-. rewrite Nat.add_0_r. bv_value. symmetry. by apply sgn_mod, vn_bounds. }
  destruct (is_numeral a) as [[v w]|] eqn:Ea.
  { read_num. injection H as <- <-. rewrite norm_signed by done. bv_value. rewrite V. apply Z.mod_mod.
    pose proof (pow2_pos (n + k)). lia. }
  destruct (m_elim_sign_ext cfg); [|done]. injection H as <- <-. rewrite (get_bv_size_eq n a Ha).
  set (sign := bv_util.mk_extract (n - 1) (n - 1) a).
  assert (Hs : holds 1 (fun I => (vn I a / pow2 (n - 1)) mod pow2 1) sign).
  { unfold sign, bv_util.mk_extract. eapply holds_extract_w; [|lia|by apply holds_refl]. lia. }
  replace (n + k)%nat with (sum_list (replicate k 1%nat ++ [n])) at 1
    by (rewrite sum_list_with_app, sum_list_replicate; simpl; lia).
  eapply holds_ext.
  - apply holds_concat; [by destruct k|]. apply Forall2_app; [|by repeat constructor].
    apply Forall2_replicate, Hs.
  - intros I. cbn beta. rewrite map_app, map_copies. cbn [map]. rewrite sign_copies, (proj2 Hs).
    apply sign_extend_value; [done|by apply vn_bounds].
Qed.

Lemma mk_repeat_ok k a st r : mk_repeat k a = Some (st, r) -> App (OP_REPEAT k) [a] ~> r.
Proof.
  intros H. apply holds_rewrites. intros s (n & ? & [= <-] & Ha & Hk & ->)%repeat_inv.
  exists (n * k)%nat, (fun I => vrepeat k n (vn I a)). split; [done|].
  split; [by apply holds_repeat, holds_refl|]. unfold mk_repeat in H.
  assert (Hv : forall z, catz (replicate k n) (replicate k z) = vrepeat k n z).
  { intros z. clear. induction k as [|k IH]; cbn [replicate catz]; [done|].
    rewrite sum_list_replicate, IH. clear. induction k as [|k IH]; cbn [vrepeat Nat.mul]; [rewrite pow2_0; lia|].
    cbn [vrepeat] in IH. rewrite <- IH, pow2_add. lia. }
  destruct (Nat.eqb_spec k 1) as [->|Hk1]; injection H as <- <-.
  - rewrite Nat.mul_1_r. by bv_value.
  - replace (n * k)%nat with (sum_list (replicate k n)) at 1 by (rewrite sum_list_replicate; lia).
    eapply holds_ext; [apply holds_concat; [destruct k; [lia|done]|by apply Forall2_replicate]|].
    intros I. cbn beta. by rewrite map_copies.
Qed.
End Extend.
