(* ===== verification/BvRewriterExtract.v ===== *)
(** * BvRewriterExtract: the rules for extraction and concatenation are sound

    An extraction moves into its argument: through another extraction, the
    parts of a concatenation, the operators that work bit by bit, and sums and
    products, whose low bits depend on low bits only. *)
From Stdlib Require Import ZArith Lia.
From stdpp Require Import base list.
From S2P Require Import Prelude Bits UBits Ast BvUtil AstFacts TermFacts BvTerms BoolRewriter BvRewriter BvRewriterDiv.
From S2P Require Import BvRewriterShift.
Import bv_rewriter.

Local Open Scope Z_scope.

(** The [w] bits of [v] from bit [lo]. *)
Definition part (lo w : nat) (v : Z) : Z := (v / pow2 lo) mod pow2 w.

Lemma part_bounds lo w v : 0 <= part lo w v < pow2 w.
Proof. apply mod_pow2_bound. Qed.

Lemma part_0 w v : part 0 w v = v mod pow2 w.
Proof. unfold part. by rewrite pow2_0, Z.div_1_r. Qed.

(** Higher bits do not matter. *)
Lemma part_high lo w m v : (lo + w <= m)%nat -> part lo w (v mod pow2 m) = part lo w v.
Proof.
  intros Hm. unfold part. rewrite (pow2_split lo m) by lia. pose proof (pow2_pos lo). pose proof (pow2_pos (m - lo)).
  rewrite Z.rem_mul_r by lia. rewrite Z.mul_comm, Z.div_add by lia.
  rewrite (Z.div_small (v mod pow2 lo)) by (apply Z.mod_pos_bound; lia). rewrite Z.add_0_l. apply mod_mod_pow2. lia.
Qed.

Lemma part_part lo w lo2 w2 v : (lo + w <= w2)%nat -> part lo w (part lo2 w2 v) = part (lo2 + lo) w v.
Proof.
  intros Hw. unfold part at 2. rewrite part_high by done. unfold part. rewrite pow2_add.
  by rewrite Z.div_div by (pose proof (pow2_pos lo); pose proof (pow2_pos lo2); lia).
Qed.

(** Parts of a number with high part [v] and low part [c]. *)
Lemma part_low lo w k v c : (lo + w <= k)%nat -> part lo w (v * pow2 k + c) = part lo w c.
Proof.
  intros Hk. rewrite <- (part_high lo w k), (Z.add_comm _ c), Z.mod_add by (done || pose proof (pow2_pos k); lia).
  by apply part_high.
Qed.

Lemma div_shifted lo k v c :
  (lo <= k)%nat -> (v * pow2 k + c) / pow2 lo = v * pow2 (k - lo) + c / pow2 lo.
Proof.
  intros Hk. rewrite (pow2_split lo k) by done. rewrite (Z.mul_comm (pow2 lo)), Z.mul_assoc, Z.div_add_l; [done|].
  pose proof (pow2_pos lo). lia.
Qed.

Lemma div_above lo k v c : (k <= lo)%nat -> 0 <= c < pow2 k -> (v * pow2 k + c) / pow2 lo = v / pow2 (lo - k).
Proof.
  intros Hk Hc. rewrite (pow2_split k lo) by done. rewrite <- Z.div_div by (pose proof (pow2_pos k); pose proof (pow2_pos (lo - k)); lia).
  rewrite Z.div_add_l, (Z.div_small c) by (pose proof (pow2_pos k); lia). by rewrite Z.add_0_r.
Qed.

Lemma mod_join a b v c : 0 <= c < pow2 b -> (v * pow2 b + c) mod pow2 (a + b) = v mod pow2 a * pow2 b + c.
Proof.
  intros Hc. rewrite Nat.add_comm, pow2_add. pose proof (pow2_pos a). pose proof (pow2_pos b).
  rewrite Z.rem_mul_r by lia. rewrite (Z.add_comm (v * _)), Z.mod_add, Z.mod_small, Z.div_add, Z.div_small by lia.
  rewrite Z.add_0_l. lia.
Qed.

Lemma holds_part n lo hi z a :
  (lo <= hi < n)%nat -> holds n z a ->
  holds (hi - lo + 1) (fun I => part lo (hi - lo + 1) (z I)) (bv_util.mk_extract hi lo a).
Proof. apply holds_extract. Qed.

(** The same with the expected width. *)
Lemma holds_part_w n w lo hi z a :
  (lo <= hi < n)%nat -> w = (hi - lo + 1)%nat -> holds n z a ->
  holds w (fun I => part lo w (z I)) (bv_util.mk_extract hi lo a).
Proof. intros Hr -> Ha. by apply holds_part with n. Qed.

(** ** Numerals *)

Lemma extract_num_ok n hi lo v :
  (lo <= hi < n)%nat -> 0 <= v < pow2 n ->
  holds (hi - lo + 1) (fun _ => part lo (hi - lo + 1) v) (extract_num hi lo v).
Proof.
  intros Hr Hv. unfold extract_num. rewrite (proj2 (Z.ltb_ge _ _)) by lia.
  set (w := (hi - lo + 1)%nat). assert (0 < w)%nat by lia. destruct (is_uint64 v) eqn:E; [|by bv_value].
  unfold is_uint64 in E. apply andb_true_iff in E as [_ E%Z.ltb_lt]. bv_value. unfold part.
  assert (Hs : shift_right v (Z.of_nat lo) = v / pow2 lo).
  { destruct (Nat.lt_ge_cases lo 64); [by apply shift_right_pow2|]. unfold shift_right.
    rewrite (proj2 (Z.ltb_ge _ _)) by lia. symmetry. apply Z.div_small. pose proof (pow2_le_mono 64 lo ltac:(lia)).
    change (2 ^ 64) with (pow2 64) in E. lia. }
  rewrite Hs. destruct (Nat.le_gt_cases w 64) as [Hw|Hw].
  - rewrite ones_word, land_ones_pow2 by done. apply Z.mod_mod. pose proof (pow2_pos w). lia.
  - assert (u64 (shift_left 1 (Z.of_nat w) - 1) = pow2 64 - 1) as ->.
    { unfold shift_left. by rewrite (proj2 (Z.ltb_ge _ _)) by lia. }
    rewrite land_ones_pow2. f_equal. apply Z.mod_small. change (2 ^ 64) with (pow2 64) in E. pose proof (pow2_pos lo).
    split; [apply Z.div_pos; lia|]. apply Z.div_lt_upper_bound; nia.
Qed.

(** ** Concatenations *)

Lemma catz_snoc I ms es n e :
  bvxs ms es -> catz (ms ++ [n]) (map (vn I) (es ++ [e])) = catz ms (map (vn I) es) * pow2 n + vn I e.
Proof.
  intros HF. rewrite map_app, catz_app by (rewrite length_map; by eapply Forall2_length). cbn [map catz sum_list_with id].
  rewrite Nat.add_0_r, pow2_0. lia.
Qed.

Lemma holds_concat_snoc ms es n e z :
  bvxs ms es -> holds n z e ->
  holds (sum_list ms + n) (fun I => catz ms (map (vn I) es) * pow2 n + z I) (bv_util.mk_concat (es ++ [e])).
Proof.
  intros HF He. eapply holds_ext.
  - replace (sum_list ms + n)%nat with (sum_list (ms ++ [n])) by (rewrite sum_list_with_app; simpl; lia).
    apply holds_concat; [by destruct es|]. apply Forall2_app; [done|]. repeat constructor. apply He.
  - intros I. cbn beta. rewrite catz_snoc by done. by rewrite (proj2 He).
Qed.

Lemma extract_rest_ok lo used ms new_args ns args :
  bvxs ms new_args -> bvxs ns args -> (lo < sum_list ns)%nat ->
  exists st r, extract_rest lo (sum_list ns) used new_args args = Some (st, r)
    /\ holds (sum_list ms + (sum_list ns - lo))
         (fun I => catz ms (map (vn I) new_args) * pow2 (sum_list ns - lo) + catz ns (map (vn I) args) / pow2 lo) r.
Proof.
  intros Hm HF. revert ms new_args Hm. induction HF as [|n e ns args He HF IH]; intros ms new_args Hm Hlo; [simpl in Hlo; lia|].
  cbn [extract_rest sum_list_with id map]. rewrite (get_bv_size_eq n e He).
  replace (n + sum_list ns - n)%nat with (sum_list ns) by lia. cbn [sum_list_with id] in Hlo.
  pose proof (fun I => catz_bounds I ns args HF) as Bc. destruct (Nat.ltb_spec lo (sum_list ns)) as [Hlt|Hge].
  - destruct (IH (ms ++ [n]) (new_args ++ [e]) ltac:(apply Forall2_app; [done|by repeat constructor]) Hlt) as (st & r & -> & Hr).
    exists st, r. split; [done|]. rewrite sum_list_with_app in Hr. cbn [sum_list_with id] in Hr.
    replace (sum_list ms + (n + sum_list ns - lo))%nat with (sum_list ms + (n + 0) + (sum_list ns - lo))%nat by lia.
    eapply holds_ext; [exact Hr|]. intros I. cbn beta. rewrite catz_snoc by done. cbn [catz].
    rewrite div_shifted by lia. replace (n + sum_list ns - lo)%nat with (n + (sum_list ns - lo))%nat by lia.
    rewrite pow2_add. lia.
  - destruct (Nat.eqb_spec (sum_list ns) lo) as [E|Hne].
    + eexists _, _. split; [done|]. replace (n + sum_list ns - lo)%nat with n by lia.
      eapply holds_ext; [apply holds_concat_snoc; [done|by apply holds_refl]|]. intros I. cbn beta. cbn [catz].
      rewrite div_above, E, Nat.sub_diag, pow2_0, Z.div_1_r by (lia || done). done.
    + eexists _, _. split; [done|]. set (k := (n + sum_list ns - lo)%nat).
      eapply holds_ext; [apply holds_concat_snoc; [done|]; apply (holds_part_w n k); [lia|lia|by apply holds_refl]|].
      intros I. cbn beta. cbn [catz]. rewrite div_above by (lia || done). f_equal. unfold part. apply Z.mod_small.
      pose proof (high_bits_small n (lo - sum_list ns) (vn I e) ltac:(lia) (vn_bounds I n e He)) as B.
      by replace (n - (lo - sum_list ns))%nat with k in B by lia.
Qed.

Lemma extract_concat_ok hi lo ns args :
  bvxs ns args -> (lo <= hi < sum_list ns)%nat ->
  exists st r, extract_concat hi lo (sum_list ns) args = Some (st, r)
    /\ holds (hi - lo + 1) (fun I => part lo (hi - lo + 1) (catz ns (map (vn I) args))) r.
Proof.
  induction 1 as [|n e ns args He HF IH]; intros Hr; [simpl in Hr; lia|].
  cbn [extract_concat sum_list_with id map]. rewrite (get_bv_size_eq n e He).
  replace (n + sum_list ns - n)%nat with (sum_list ns) by lia. cbn [sum_list_with id] in Hr.
  pose proof (fun I => catz_bounds I ns args HF) as Bc. pose proof (bvx_pos n e He) as Hn.
  destruct (Nat.ltb_spec hi (sum_list ns)) as [Hlt|Hge].
  { destruct (IH ltac:(lia)) as (st & r & -> & H). exists st, r. split; [done|].
    eapply holds_ext; [exact H|]. intros I. cbn beta. cbn [catz]. symmetry. apply part_low. lia. }
  set (k := sum_list ns) in *. destruct (Nat.leb_spec k lo) as [Hle|Hgt].
  - assert (Hv : forall I, part (lo - k) (hi - lo + 1) (vn I e) = part lo (hi - lo + 1) (catz (n :: ns) (vn I e :: map (vn I) args))).
    { intros I. unfold part. cbn [catz]. fold k. by rewrite div_above by (lia || done). }
    destruct (andb _ _) eqn:Ef; eexists _, _; (split; [done|]).
    + apply andb_true_iff in Ef as [E1%Nat.eqb_eq E2%Nat.eqb_eq]. replace (hi - lo + 1)%nat with n at 1 by lia.
      eapply holds_ext; [by apply holds_refl|]. intros I. cbn beta. rewrite <- Hv. replace (lo - k)%nat with 0%nat by lia.
      replace (hi - lo + 1)%nat with n by lia. rewrite part_0. symmetry. apply Z.mod_small. by apply vn_bounds.
    + eapply holds_ext; [apply (holds_part_w n (hi - lo + 1)); [lia|lia|by apply holds_refl]|]. intros I. apply Hv.
  - (* the first part is a numeral of [hi - k + 1] bits *)
    assert (Hfirst : exists used f, (if (hi - k =? n - 1)%nat then extract_rest lo k false [e] args
        else extract_rest lo k true [bv_util.mk_extract (hi - k) 0 e] args) = extract_rest lo k used [f] args
        /\ holds (hi - k + 1) (fun I => vn I e mod pow2 (hi - k + 1)) f).
    { destruct (Nat.eqb_spec (hi - k) (n - 1)) as [E|E].
      - exists false, e. split; [done|]. replace (hi - k + 1)%nat with n by lia.
        eapply holds_ext; [by apply holds_refl|]. intros I. symmetry. apply Z.mod_small. by apply vn_bounds.
      - eexists true, _. split; [done|].
        eapply holds_ext; [apply (holds_part_w n (hi - k + 1)); [lia|lia|by apply holds_refl]|]. intros I. apply part_0. }
    destruct Hfirst as (used & f & -> & Hf).
    destruct (extract_rest_ok lo used [(hi - k + 1)%nat] [f] ns args) as (st & r & E & H);
      [repeat constructor; apply Hf|done|fold k; lia|].
    fold k in E, H. exists st, r. split; [done|]. cbn [sum_list_with id map catz] in H.
    replace (hi - lo + 1)%nat with (hi - k + 1 + 0 + (k - lo))%nat at 1 by lia.
    eapply holds_ext; [exact H|]. intros I. cbn beta. rewrite (proj2 Hf). cbn [catz]. unfold part. fold k.
    rewrite div_shifted by lia. replace (hi - lo + 1)%nat with (hi - k + 1 + (k - lo))%nat by lia.
    rewrite mod_join, pow2_0; [lia|]. apply high_bits_small; [lia|apply Bc].
Qed.

(** ** Operators *)

(** A function that commutes with an operator commutes with its iteration. *)
Lemma opval_map f f' n w (g : Z -> Z) (R : Z -> Prop) l :
  (forall a b, R a -> R b -> R (f n a b) /\ g (f n a b) = f' w (g a) (g b)) ->
  l <> [] -> Forall R l -> g (opval f n l) = opval f' w (map g l).
Proof.
  intros Hf. destruct l as [|a l]; [done|]. intros _ HF. inversion HF as [|? ? Ra Rl]; subst. simpl.
  clear HF. revert a Ra. induction Rl as [|b l Rb _ IH]; intros a Ra; simpl; [done|].
  destruct (Hf a b Ra Rb) as [Rab <-]. by apply IH.
Qed.

Definition fits (n : nat) (z : Z) : Prop := 0 <= z < pow2 n.

Lemma fits_all I n args : Forall (bvx n) args -> Forall (fits n) (map (vn I) args).
Proof. intros HF. apply Forall_map. eapply Forall_impl; [exact HF|]. intros e He. by apply vn_bounds. Qed.

(** Arguments replaced by terms of another width, one by one. *)
Lemma holds_opn_map o f `{!OpN o f} n w (g : Z -> Z) args args' :
  (forall a b, fits n a -> fits n b -> fits n (f n a b) /\ g (f n a b) = f w (g a) (g b)) ->
  args <> [] -> Forall (bvx n) args -> Forall2 (fun a a' => holds w (fun I => g (vn I a)) a') args args' ->
  holds w (fun I => g (opval f n (map (vn I) args))) (App o args').
Proof.
  intros Hf Hne HF H2. eapply holds_ext.
  - apply (holds_opn o w args'); [by intros ->; inversion H2; subst|].
    clear -H2. induction H2 as [|a a' args args' Ha _ IH]; constructor; [apply Ha|done].
  - intros I. cbn beta. symmetry. etransitivity; [apply (opval_map f f n w g (fits n))|].
    + exact Hf.
    + by destruct args.
    + by apply fits_all.
    + f_equal. clear -H2. induction H2 as [|a a' args args' Ha _ IH]; simpl; [done|]. by rewrite IH, (proj2 Ha).
Qed.

Lemma part_land lo w v : part lo w v = Z.land (Z.shiftr v (Z.of_nat lo)) (Z.ones (Z.of_nat w)).
Proof. unfold part. rewrite Z.land_ones, Z.shiftr_div_pow2 by lia. done. Qed.

Lemma part_lor lo w a b : part lo w (Z.lor a b) = Z.lor (part lo w a) (part lo w b).
Proof. by rewrite !part_land, Z.shiftr_lor, Z.land_lor_distr_l. Qed.

Lemma part_lxor lo w a b : part lo w (Z.lxor a b) = Z.lxor (part lo w a) (part lo w b).
Proof.
  rewrite !part_land, Z.shiftr_lxor. apply Z.bits_inj'. intros i _. rewrite Z.lxor_spec, !Z.land_spec, Z.lxor_spec.
  by destruct (Z.testbit (Z.shiftr a _) i), (Z.testbit (Z.shiftr b _) i), (Z.testbit (Z.ones _) i).
Qed.

Lemma part_not n lo w a : (lo + w <= n)%nat -> fits n a -> part lo w (bv_not n a) = bv_not w (part lo w a).
Proof.
  intros Hw Ha. unfold fits in Ha. unfold bv_not, part. pose proof (pow2_pos lo). pose proof (pow2_pos w).
  assert (E : (pow2 n - 1 - a) / pow2 lo = pow2 (n - lo) - 1 - a / pow2 lo).
  { pose proof (Z.div_mod a (pow2 lo) ltac:(lia)) as D. pose proof (Z.mod_pos_bound a (pow2 lo) ltac:(lia)).
    symmetry. apply (Z.div_unique_pos _ _ _ (pow2 lo - 1 - a mod pow2 lo)); [lia|].
    rewrite (pow2_split lo n) by lia. lia. }
  rewrite E. pose proof (Z.mod_pos_bound (a / pow2 lo) (pow2 w) ltac:(lia)).
  pose proof (Z.div_mod (a / pow2 lo) (pow2 w) ltac:(lia)).
  symmetry. apply (Z.mod_unique_pos _ _ (pow2 (n - lo - w) - 1 - a / pow2 lo / pow2 w)); [lia|].
  rewrite (pow2_split w (n - lo)) by lia. lia.
Qed.

Lemma add_low n w a b : (w <= n)%nat -> bv_add n a b mod pow2 w = bv_add w (a mod pow2 w) (b mod pow2 w).
Proof.
  intros Hw. unfold bv_add. rewrite mod_mod_pow2 by done. apply Z.add_mod. pose proof (pow2_pos w). lia.
Qed.

Lemma mul_low n w a b : (w <= n)%nat -> bv_mul n a b mod pow2 w = bv_mul w (a mod pow2 w) (b mod pow2 w).
Proof.
  intros Hw. unfold bv_mul. rewrite mod_mod_pow2 by done. apply Z.mul_mod. pose proof (pow2_pos w). lia.
Qed.

(** Extraction from the arguments. *)
Lemma extract_args_ok o f `{!OpN o f} n lo hi args :
  (forall a b, fits n a -> fits n b ->
     fits n (f n a b) /\ part lo (hi - lo + 1) (f n a b) = f (hi - lo + 1)%nat (part lo (hi - lo + 1) a) (part lo (hi - lo + 1) b)) ->
  (lo <= hi < n)%nat -> args <> [] -> Forall (bvx n) args ->
  holds (hi - lo + 1) (fun I => part lo (hi - lo + 1) (opval f n (map (vn I) args)))
    (App o (map (bv_util.mk_extract hi lo) args)).
Proof.
  intros Hf Hr Hne HF. apply (holds_opn_map o f n); [exact Hf|done|done|].
  clear Hne. induction HF as [|a args Ha _ IH]; simpl; constructor; [|done]. apply (holds_part n); [done|]. by apply holds_refl.
Qed.

(** ** Propagation

    [removable r curr]: the first part of [curr] is a numeral of at least [r]
    bits, or has [r] bits. *)
Definition removable (r : nat) (curr : expr) : Prop :=
  exists cf, conc_first curr = Some cf
    /\ ((exists v s, is_numeral cf = Some (v, s) /\ (r <= s)%nat) \/ get_bv_size cf = r).

Lemma conc_first_some n e : bvx n e -> exists cf, conc_first e = Some cf.
Proof.
  intros He. unfold conc_first. destruct (bv_util.is_concat e) as [l|] eqn:E; [|by eexists].
  destruct e as [o args]. destruct o; try done. injection E as ->.
  destruct (concat_inv _ _ He) as (ns & Hne & _). destruct l; [done|]. by eexists.
Qed.

Lemma removable_bits_ok n all r0 args r :
  Forall (bvx n) args -> removable_bits all r0 args = r -> r <> 0%nat ->
  (if all then r <= r0 else r = r0)%nat /\ Forall (removable r) args.
Proof.
  intros HF. revert all r0. induction HF as [|a args Ha _ IH]; intros all r0; cbn [removable_bits].
  - intros <- _. by destruct all.
  - destruct (conc_first_some n a Ha) as [cf Ec]. rewrite Ec. destruct all; cbn [negb].
    + destruct (is_numeral cf) as [[v s]|] eqn:En.
      * destruct (Nat.eqb_spec (Nat.min r0 s) 0) as [|Hm]; [congruence|]. intros E Hr.
        destruct (IH _ _ E Hr) as [Hle HF']. split; [lia|]. constructor; [|done]. exists cf. split; [done|]. left.
        exists v, s. split; [done|lia].
      * destruct (Nat.ltb_spec r0 (get_bv_size cf)); [congruence|]. destruct (get_bv_size cf =? 0)%nat; [congruence|].
        intros E Hr. destruct (IH _ _ E Hr) as [-> HF']. split; [done|]. constructor; [|done]. exists cf. eauto.
    + destruct (Nat.eqb_spec r0 (get_bv_size cf)) as [E0|]; [|congruence]. intros E Hr.
      destruct (IH _ _ E Hr) as [-> HF']. split; [done|]. constructor; [|done]. exists cf. eauto.
Qed.

(** Dropping the first part keeps the low bits. *)
Lemma holds_tail s ns f l :
  bvx s f -> bvxs ns l -> l <> [] ->
  holds (sum_list ns) (fun I => vn I (App OP_CONCAT (f :: l)) mod pow2 (sum_list ns))
    (match l with [y] => y | _ => bv_util.mk_concat l end).
Proof.
  intros Hf HF Hne. assert (V : forall I, vn I (App OP_CONCAT (f :: l)) mod pow2 (sum_list ns) = catz ns (map (vn I) l)).
  { intros I. rewrite (proj2 (holds_concat (s :: ns) (f :: l) ltac:(done) ltac:(by constructor))). cbn [catz map].
    rewrite Z.add_comm, Z.mod_add by (pose proof (pow2_pos (sum_list ns)); lia). apply Z.mod_small. by apply catz_bounds. }
  eapply holds_ext; [|intros I; symmetry; apply V]. destruct l as [|y [|z l]]; [done| |by apply holds_concat].
  inversion HF as [|k ? ns' ? Hy HF']; subst. inversion HF'; subst. cbn [sum_list_with id map catz]. rewrite Nat.add_0_r.
  eapply holds_ext; [by apply holds_refl|]. intros I. cbn beta. rewrite pow2_0. lia.
Qed.

Lemma chop_arg_ok n r curr :
  bvx n curr -> (r < n)%nat -> removable r curr ->
  exists t, chop_arg r curr = Some t /\ holds (n - r) (fun I => vn I curr mod pow2 (n - r)) t.
Proof.
  intros Hc Hr (cf & Ec & Hcf). unfold chop_arg. rewrite Ec. cbn [mbind option_bind].
  unfold conc_first in Ec. destruct (bv_util.is_concat curr) as [l|] eqn:El.
  2:{ injection Ec as ->. destruct (is_numeral cf) as [[v s]|] eqn:En.
      - read_num. destruct (Nat.eqb_spec (n - r) 0); [lia|]. eexists. split; [done|]. bv_value. by rewrite V.
      - destruct Hcf as [(v & s & E & _)|E]; [done|]. rewrite (get_bv_size_eq n cf Hc) in E. lia. }
  destruct curr as [o args]. destruct o; try done. injection El as ->.
  destruct (concat_inv _ _ Hc) as (ns & _ & HF & [= ->]). destruct HF as [|s f ns l Hf HF]; [done|].
  injection Ec as ->. cbn [sum_list_with id] in *.
  assert (Htail : s = r -> exists t, match l with [] => None | [y] => Some y | _ :: _ :: _ => Some (bv_util.mk_concat l) end = Some t
    /\ holds (s + sum_list ns - r) (fun I => vn I (App OP_CONCAT (cf :: l)) mod pow2 (s + sum_list ns - r)) t).
  { intros ->. replace (r + sum_list ns - r)%nat with (sum_list ns) by lia.
    assert (l <> []) by (intros ->; inversion HF; subst; simpl in Hr; lia).
    exists (match l with [y] => y | _ => bv_util.mk_concat l end). split; [by destruct l as [|? [|? ?]]|]. by apply (holds_tail r). }
  destruct (is_numeral cf) as [[v s']|] eqn:En.
  - read_num. rewrite (get_bv_size_eq s cf Hf) in Hcf.
    assert (Hsr : (r <= s)%nat) by (destruct Hcf as [(? & ? & [= _ <-] & ?)|]; lia).
    destruct (Nat.eqb_spec (s - r) 0) as [E|E].
    + destruct (Htail ltac:(lia)) as (t & Et & Ht). exists t. split; [|done]. by destruct l as [|? [|? ?]].
    + exists (bv_util.mk_concat (mk_numeral v (s - r) :: l)). split; [by destruct l as [|? [|? ?]]|].
      replace (s + sum_list ns - r)%nat with (s - r + sum_list ns)%nat by lia.
      eapply holds_ext; [apply (holds_concat ((s - r)%nat :: ns)); [done|]; constructor; [|exact HF]|].
      * apply (holds_num (s - r) v). lia.
      * intros I. cbn beta. rewrite (proj2 (holds_concat (s :: ns) (cf :: l) ltac:(done) ltac:(by constructor))).
        cbn [map catz drop]. rewrite V, mod_join by (by apply catz_bounds).
        by rewrite (proj2 (holds_num (s - r) v ltac:(lia))).
  - rewrite (get_bv_size_eq s cf Hf) in Hcf. destruct Hcf as [(? & ? & ? & _)|E]; [done|].
    destruct (Htail E) as (t & Et & Ht). exists t. split; [|done]. by destruct l as [|? [|? ?]].
Qed.

Lemma chop_args_ok n r args :
  Forall (bvx n) args -> (r < n)%nat -> Forall (removable r) args ->
  Forall2 (fun a a' => holds (n - r) (fun I => vn I a mod pow2 (n - r)) a') args (omap (chop_arg r) args).
Proof.
  intros HF Hr. induction HF as [|a args Ha _ IH]; intros Hrem; [constructor|].
  inversion Hrem as [|? ? Ra Rl]; subst. destruct (chop_arg_ok n r a Ha Hr Ra) as (t & E & Ht).
  cbn [omap list_omap]. rewrite E. constructor; [done|]. by apply IH.
Qed.

Lemma propagate_extract_ok n hi arg r t :
  bvx n arg -> (hi < n)%nat -> propagate_extract hi arg = Some (r, t) ->
  (hi < n - r)%nat /\ holds (n - r) (fun I => vn I arg mod pow2 (n - r)) t.
Proof.
  intros Ha Hh H. destruct arg as [o args].
  assert (Hgen : forall f, OpN o f ->
    (forall a b, fits n a -> fits n b -> forall w, (w <= n)%nat ->
       fits n (f n a b) /\ f n a b mod pow2 w = f w (a mod pow2 w) (b mod pow2 w)) ->
    (let to_remove := if (hi + 1 <? n)%nat then (n - hi - 1)%nat else 0%nat in
     if (to_remove =? 0)%nat then None
     else let rem := removable_bits true to_remove args in
          if (rem =? 0)%nat then None else Some (rem, App o (omap (chop_arg rem) args))) = Some (r, t) ->
    (hi < n - r)%nat /\ holds (n - r) (fun I => vn I (App o args) mod pow2 (n - r)) t).
  { intros f O Hf. cbv zeta. destruct (opn_inv o _ _ Ha) as (k & [= <-] & Hne & HF).
    destruct (Nat.ltb_spec (hi + 1) n) as [Hlt|]; [|done]. destruct (Nat.eqb_spec (n - hi - 1) 0); [lia|].
    destruct (Nat.eqb_spec (removable_bits true (n - hi - 1) args) 0) as [|Hr0]; [done|]. intros [= <- <-].
    set (rem := removable_bits true (n - hi - 1) args) in *.
    destruct (removable_bits_ok n true (n - hi - 1) args rem HF eq_refl Hr0) as [Hle Hrem]. split; [lia|].
    eapply holds_ext.
    - apply (holds_opn_map o f n (n - rem) (fun z => z mod pow2 (n - rem)) args); [|done|done|apply chop_args_ok; [done|lia|done]].
      intros a b Fa Fb. apply Hf; [done|done|lia].
    - intros I. cbn beta. by rewrite (proj2 (holds_opn o n args Hne HF)). }
  unfold propagate_extract in H. rewrite (get_bv_size_eq n _ Ha) in H.
  destruct o; try done; (eapply Hgen; [| |exact H]); try apply _.
  - intros a b _ _ w Hw. split; [apply mod_pow2_bound|by apply add_low].
  - intros a b _ _ w Hw. split; [apply mod_pow2_bound|by apply mul_low].
Qed.

(** ** The rule *)

Section Rule.
Variable cfg : params.
Variable get_ref_count : expr -> nat.

Definition extracts (n hi lo : nat) (arg r : expr) : Prop :=
  holds (hi - lo + 1) (fun I => part lo (hi - lo + 1) (vn I arg)) r.

Lemma pushed_ok n hi lo o args :
  bvx n (App o args) -> (lo <= hi < n)%nat -> pushes_extract o lo = true ->
  extracts n hi lo (App o args) (App o (map (bv_util.mk_extract hi lo) args)).
Proof.
  intros Ha Hr Hp. set (w := (hi - lo + 1)%nat).
  assert (Hgen : forall f, OpN o f -> (forall a b, fits n a -> fits n b ->
    fits n (f n a b) /\ part lo w (f n a b) = f w (part lo w a) (part lo w b)) ->
    extracts n hi lo (App o args) (App o (map (bv_util.mk_extract hi lo) args))).
  { intros f O Hf. destruct (opn_inv o _ _ Ha) as (k & [= <-] & Hne & HF).
    eapply holds_ext; [apply (extract_args_ok o f n lo hi args Hf Hr Hne HF)|].
    intros I. cbn beta. by rewrite (proj2 (holds_opn o n args Hne HF)). }
  destruct o; try discriminate; cbn in Hp.
  - apply Nat.eqb_eq in Hp as ->. apply (Hgen bv_add _). intros a b _ _. rewrite !part_0.
    split; [apply mod_pow2_bound|apply add_low]. unfold w. lia.
  - apply Nat.eqb_eq in Hp as ->. apply (Hgen bv_mul _). intros a b _ _. rewrite !part_0.
    split; [apply mod_pow2_bound|apply mul_low]. unfold w. lia.
  - apply (Hgen _ or_opn). intros a b Fa Fb. split; [by apply lor_bound|apply part_lor].
  - destruct (op1_inv OP_BNOT _ _ Ha) as (k & a & -> & [= <-] & Hx). cbn [map].
    eapply holds_ext; [apply (holds_op1 OP_BNOT w), (holds_part n); [done|by apply holds_refl]|].
    intros I. cbn beta. rewrite (proj2 (holds_op1 OP_BNOT n _ a (holds_refl n a Hx))). symmetry.
    apply part_not; [unfold w; lia|by apply vn_bounds].
  - apply (Hgen _ xor_opn). intros a b Fa Fb. split; [by apply lxor_bound|apply part_lxor].
Qed.

Lemma extract_ite_ok n hi lo arg st r :
  bvx n arg -> (lo <= hi < n)%nat -> extract_ite get_ref_count hi lo arg = Some (st, r) -> extracts n hi lo arg r.
Proof.
  intros Ha Hr H. unfold extract_ite in H. destruct (m.is_ite arg) as [[[c t] e]|] eqn:E; [|done]. recog.
  destruct (_ && _); [|done]. injection H as <- <-. unfold bvx in Ha. apply get_sort_ite in Ha as (Hc & Ht & He).
  eapply holds_ext.
  - eapply holds_ite; [by apply same_bool_refl|apply (holds_part n); [done|by apply holds_refl]..].
  - intros I. cbn beta. unfold vn at 3. rewrite eval_ite. by destruct (bval I c).
Qed.

Lemma extract_op_ok n hi lo arg st r :
  bvx n arg -> (lo <= hi < n)%nat -> extract_op cfg get_ref_count hi lo arg = Some (st, r) -> extracts n hi lo arg r.
Proof.
  intros Ha Hr H. destruct arg as [o args]. unfold extract_op in H. destruct (pushes_extract o lo) eqn:Ep.
  { injection H as <- <-. by apply pushed_ok. }
  destruct (if m_extract_prop cfg && _ then _ else None) as [[rem t]|] eqn:Ex; [|by apply (extract_ite_ok n hi lo _ st)].
  destruct (_ && _); [|done]. injection H as <- <-. destruct (propagate_extract_ok n hi _ rem t Ha ltac:(lia) Ex) as [Hh Ht].
  eapply holds_ext; [apply (holds_part (n - rem)); [lia|exact Ht]|]. intros I. cbn beta. apply part_high. lia.
Qed.

Lemma extract_ok n hi lo arg st r :
  bvx n arg -> (lo <= hi < n)%nat -> mk_extract cfg get_ref_count hi lo arg = Some (st, r) -> extracts n hi lo arg r.
Proof.
  intros Ha Hr H. unfold mk_extract in H. rewrite (get_bv_size_eq n arg Ha) in H.
  destruct (_ && _) eqn:Ef.
  { apply andb_true_iff in Ef as [->%Nat.eqb_eq E%Nat.eqb_eq]. injection H as <- <-. unfold extracts.
    replace (hi - 0 + 1)%nat with n by lia. eapply holds_ext; [by apply holds_refl|]. intros I. cbn beta.
    rewrite part_0. symmetry. apply Z.mod_small. by apply vn_bounds. }
  destruct arg as [o args]. destruct o; try by apply (extract_op_ok n hi lo _ st).
  - injection H as <- <-. pose proof (eq_refl : is_numeral (App (OP_BV_NUM v sz) args) = Some (v, sz)) as En.
    destruct (is_numeral_inv n _ v sz Ha En) as (-> & B & F & V).
    eapply holds_ext; [by apply (extract_num_ok n)|]. intros I. cbn beta. by rewrite V.
  - destruct (concat_inv _ _ Ha) as (ns & Hne & HF & [= ->]).
    destruct (extract_concat_ok hi lo ns args HF Hr) as (st' & r' & E & Hh). rewrite E in H. injection H as <- <-.
    eapply holds_ext; [exact Hh|]. intros I. cbn beta. by rewrite (proj2 (holds_concat ns args Hne HF)).
  - destruct (extract_inv _ _ _ _ Ha) as (k & a & -> & Hx & Hr2 & [= ->]). injection H as <- <-.
    eapply holds_ext; [apply (holds_part_w k (hi - lo + 1)); [lia|lia|by apply holds_refl]|]. intros I. cbn beta.
    rewrite (proj2 (holds_part k lo0 hi0 _ a Hr2 (holds_refl k a Hx))). rewrite part_part by lia. f_equal. lia.
Qed.

Lemma mk_extract_ok hi lo arg st r :
  mk_extract cfg get_ref_count hi lo arg = Some (st, r) -> App (OP_EXTRACT hi lo) [arg] ~> r.
Proof.
  intros H. apply holds_rewrites. intros s (n & ? & [= <-] & Ha & Hr & ->)%extract_inv.
  eexists _, _. split; [done|]. split; [by apply (holds_part n); [done|apply holds_refl]|].
  by apply (extract_ok n hi lo arg st).
Qed.
End Rule.

(** ** The rules for concatenation and single bits are sound

    [mk_concat] fuses neighbouring numerals and neighbouring extractions; the
    remaining rules compute on numerals, or trade one-bit vectors for
    Booleans. *)
Import bv_rewriter.

(** ** Concatenation *)

(** [l] has the width and the value of a concatenation of [k] bits. *)
Definition concats (k : nat) (z : interp -> Z) (l : list expr) : Prop :=
  exists ms, bvxs ms l /\ sum_list ms = k /\ forall I, catz ms (map (vn I) l) = z I.

Lemma concats_app k z l k' z' l' :
  concats k z l -> concats k' z' l' -> concats (k + k') (fun I => z I * pow2 k' + z' I) (l ++ l').
Proof.
  intros (ms & F & <- & V) (ms' & F' & <- & V'). exists (ms ++ ms'). split; [by apply Forall2_app|].
  split; [by rewrite sum_list_with_app|]. intros I.
  rewrite map_app, catz_app by (rewrite length_map; by eapply Forall2_length). by rewrite V, V'.
Qed.

Lemma concats_1 k z e : holds k z e -> concats k z [e].
Proof.
  intros H. exists [k]. split; [repeat constructor; apply H|]. split; [simpl; lia|]. intros I. simpl.
  rewrite (proj2 H), pow2_0. lia.
Qed.

Lemma concats_snoc_inv k z l e :
  concats k z (l ++ [e]) ->
  exists n k' z', bvx n e /\ k = (k' + n)%nat /\ concats k' z' l /\ forall I, z I = z' I * pow2 n + vn I e.
Proof.
  intros (ms & (ms1 & ms2 & F1 & F2 & ->)%Forall2_app_inv_r & <- & V). inv_Forall.
  match goal with H : bvx ?n e |- _ => exists n end. exists (sum_list ms1), (fun I => catz ms1 (map (vn I) l)).
  split; [done|]. split; [rewrite sum_list_with_app; simpl; lia|]. split; [by exists ms1|]. intros I.
  rewrite <- V. by rewrite catz_snoc.
Qed.

Lemma concats_ext k z z' l : concats k z l -> (forall I, z I = z' I) -> concats k z' l.
Proof. intros (ms & F & E & V) H. exists ms. split_and!; [done..|]. intros I. by rewrite V. Qed.

Lemma concats_bounds k z l I : concats k z l -> 0 <= z I < pow2 k.
Proof. intros (ms & F & <- & V). rewrite <- V. by apply catz_bounds. Qed.

(** The front of a list, given its last element. *)
Lemma front_last {A} (l : list A) x : last l = Some x -> l = take (length l - 1) l ++ [x].
Proof.
  intros (l' & ->)%last_Some. rewrite length_app. cbn [length].
  by rewrite take_app_length' by lia.
Qed.

Lemma join_parts l2 w2 w1 v :
  part (l2 + w2) w1 v * pow2 w2 + part l2 w2 v = part l2 (w1 + w2) v.
Proof.
  unfold part. rewrite (Nat.add_comm w1), !pow2_add. pose proof (pow2_pos l2). pose proof (pow2_pos w2). pose proof (pow2_pos w1).
  rewrite <- Z.div_div, Z.rem_mul_r by lia. lia.
Qed.

Section Concat.
Variable cfg : params.

Lemma concat_step_ok k z n arg st :
  concats k z (new_args st) -> bvx n arg ->
  concats (k + n) (fun I => z I * pow2 n + vn I arg) (new_args (concat_step cfg arg st)).
Proof.
  intros Hc Ha. pose proof (bvx_pos n arg Ha) as Hn.
  assert (Hpush : concats (k + n) (fun I => z I * pow2 n + vn I arg) (new_args st ++ [arg])).
  { apply concats_app; [done|]. by apply concats_1, holds_refl. }
  unfold concat_step. destruct (is_numeral arg) as [[v1 sz1]|] eqn:E1.
  - destruct (last (new_args st)) as [p|] eqn:El; cbn [mbind option_bind].
    + pose proof (front_last _ _ El) as Hl. destruct (is_numeral p) as [[v2 sz2]|] eqn:E2.
      * rewrite Hl in Hc. destruct (concats_snoc_inv k z _ p Hc) as (np & k' & z' & Hp & -> & Hc' & Hz). read_num.
        cbn [new_args]. replace (k' + np + n)%nat with (k' + (n + np))%nat by lia.
        eapply concats_ext; [apply concats_app; [exact Hc'|apply concats_1, (holds_num (n + np)); lia]|].
        intros I. cbn beta. rewrite Hz, V, V0, Z.mod_small by (rewrite pow2_add; nia). rewrite pow2_add. lia.
      * by destruct arg as [[] ?].
    + by destruct arg as [[] ?].
  - destruct arg as [o l]. destruct o; try exact Hpush.
    + destruct (m_flat cfg); [|exact Hpush]. cbn [new_args]. destruct (concat_inv _ _ Ha) as (ns & Hne & HF & [= ->]).
      eapply concats_ext; [apply concats_app; [done|]; by exists ns|]. intros I. cbn beta.
      by rewrite (proj2 (holds_concat ns l Hne HF)).
    + destruct l as [|a l]; [exact Hpush|].
      destruct (last (new_args st)) as [[o2 l2]|] eqn:El; [|exact Hpush].
      destruct o2; try exact Hpush. destruct l2 as [|b l2]; [exact Hpush|].
      destruct (bool_decide _ && _) eqn:Ef; [|exact Hpush]. apply andb_true_iff in Ef as [->%bool_decide_eq_true El2%Nat.eqb_eq].
      pose proof (front_last _ _ El) as Hl. rewrite Hl in Hc.
      destruct (concats_snoc_inv k z _ _ Hc) as (np & k' & z' & Hp & -> & Hc' & Hz).
      destruct (extract_inv _ _ _ _ Hp) as (m & b' & [= <- ->] & Hb & Hr1 & [= ->]).
      destruct (extract_inv _ _ _ _ Ha) as (m' & b'' & [= <- ->] & Hb' & Hr2 & [= ->]).
      pose proof (bvx_inj _ _ _ Hb Hb') as <-. cbn [new_args].
      replace (k' + (hi0 - lo0 + 1) + (hi - lo + 1))%nat with (k' + (hi0 - lo + 1))%nat by lia.
      eapply concats_ext; [apply concats_app; [exact Hc'|apply concats_1, (holds_part m); [lia|by apply holds_refl]]|].
      intros I. cbn beta. rewrite Hz. rewrite (proj2 (holds_part m lo hi _ b Hr2 (holds_refl m b Hb))).
      rewrite (proj2 (holds_part m lo0 hi0 _ b Hr1 (holds_refl m b Hb))).
      replace (hi0 - lo + 1)%nat with (hi0 - lo0 + 1 + (hi - lo + 1))%nat by lia.
      rewrite <- join_parts. replace (lo + (hi - lo + 1))%nat with lo0 by lia. rewrite pow2_add. lia.
Qed.

Lemma concat_loop_ok ns args k z st :
  bvxs ns args -> concats k z (new_args st) ->
  concats (k + sum_list ns) (fun I => z I * pow2 (sum_list ns) + catz ns (map (vn I) args))
    (new_args (fold_left (fun st arg => concat_step cfg arg st) args st)).
Proof.
  intros HF. revert k z st. induction HF as [|n arg ns args Ha HF IH]; intros k z st Hc; cbn [fold_left sum_list_with id].
  - rewrite Nat.add_0_r. eapply concats_ext; [exact Hc|]. intros I. simpl. rewrite pow2_0. lia.
  - replace (k + (n + sum_list ns))%nat with (k + n + sum_list ns)%nat by lia.
    eapply concats_ext; [by apply IH, concat_step_ok|]. intros I. cbn beta. cbn [map catz]. rewrite pow2_add. lia.
Qed.

Lemma mk_concat_ok args st r : mk_concat cfg args = Some (st, r) -> App OP_CONCAT args ~> r.
Proof.
  intros H. apply holds_rewrites. intros s (ns & Hne & HF & ->)%concat_inv.
  exists (sum_list ns), (fun I => catz ns (map (vn I) args)). split; [done|]. split; [by apply holds_concat|].
  assert (Hc : concats 0 (fun _ => 0) []) by (exists []; split_and!; [constructor|done|done]).
  pose proof (concat_loop_ok ns args 0 (fun _ => 0) (mk_concat_state [] false false false) HF Hc) as Hl.
  unfold mk_concat in H. set (fin := fold_left _ args _) in *. destruct (negb _ && _ && _); [done|].
  cbn [Nat.add] in Hl. destruct Hl as (ms & F & E & V). rewrite <- E.
  assert (Hsum : (0 < sum_list ns)%nat).
  { destruct HF as [|n e ns' args' He _]; [done|]. pose proof (bvx_pos n e He). simpl. lia. }
  destruct (new_args fin) as [|a [|b l]]; [inversion F; subst; simpl in E; lia| |]; injection H as <- <-.
  - inversion F as [|n ? ms' ? Ha F']; subst. inversion F'; subst. cbn [sum_list_with id map catz] in *.
    rewrite Nat.add_0_r. eapply holds_ext; [by apply holds_refl|]. intros I. cbn beta. rewrite <- (V I), pow2_0 at 1. lia.
  - eapply holds_ext; [by apply holds_concat|]. intros I. cbn beta. rewrite V. lia.
Qed.
End Concat.
