(* ===== verification/BvRewriterBits.v ===== *)
(** * BvRewriterBits: the rules for single bits, if-then-else and overflow tests

    Reductions and comparisons to a bit, equations between one-bit vectors,
    vectors of constant bits, if-then-else on equations, and the tests for
    multiplication overflow.  The signed overflow test is not sound. *)
From Stdlib Require Import ZArith Lia.
From stdpp Require Import base list.
From S2P Require Import Prelude Bits UBits Ast BvUtil AstFacts TermFacts BvTerms BoolRewriter BvRewriter.
From S2P Require Import BvRewriterDiv BvRewriterShift BvRewriterExtract.
Import bv_rewriter.

Local Open Scope Z_scope.

(** ** One-bit results *)

Lemma redor_inv args s :
  get_sort (App OP_BREDOR args) = Some s -> exists n a, args = [a] /\ bvx n a /\ s = BV_SORT 1.
Proof.
  intros (ss & Hs & Hi)%bind_sort. simpl in Hi. destruct (bv_unary ss) as [n|] eqn:E; [|done].
  apply bv_unary_inv in E as ->. injection Hi as <-. apply get_sorts_1 in Hs as (a & -> & Ha). by exists n, a.
Qed.

Lemma redand_inv args s :
  get_sort (App OP_BREDAND args) = Some s -> exists n a, args = [a] /\ bvx n a /\ s = BV_SORT 1.
Proof. apply redor_inv. Qed.

Lemma comp_inv args s :
  get_sort (App OP_BCOMP args) = Some s -> exists n a b, args = [a; b] /\ bvx n a /\ bvx n b /\ s = BV_SORT 1.
Proof.
  intros (ss & Hs & Hi)%bind_sort. simpl in Hi. destruct (bv_binary ss) as [n|] eqn:E; [|done].
  apply bv_binary_inv in E as ->. injection Hi as <-. apply get_sorts_2 in Hs as (a & b & -> & Ha & Hb).
  by exists n, a, b.
Qed.

Lemma holds_redor n a : bvx n a -> holds 1 (fun I => Z.b2z (negb (vn I a =? 0))) (App OP_BREDOR [a]).
Proof.
  intros Ha. apply holds_intro.
  - unfold bvx. rewrite get_sort_app. simpl. by rewrite Ha.
  - intros I. rewrite eval_app by done. simpl. by rewrite (bvx_val I n a Ha).
Qed.

Lemma holds_redand n a : bvx n a -> holds 1 (fun I => Z.b2z (vn I a =? pow2 n - 1)) (App OP_BREDAND [a]).
Proof.
  intros Ha. apply holds_intro.
  - unfold bvx. rewrite get_sort_app. simpl. by rewrite Ha.
  - intros I. rewrite eval_app by done. simpl. by rewrite (bvx_val I n a Ha).
Qed.

Lemma holds_comp n a b : bvx n a -> bvx n b -> holds 1 (fun I => Z.b2z (vn I a =? vn I b)) (App OP_BCOMP [a; b]).
Proof.
  intros Ha Hb. apply holds_intro.
  - unfold bvx. rewrite get_sort_app. simpl. rewrite Ha, Hb. simpl. by rewrite decide_True.
  - intros I. rewrite eval_app by done. simpl. by rewrite (bvx_val I n a Ha), (bvx_val I n b Hb).
Qed.

Lemma mk_bv_redor_ok a st r : mk_bv_redor a = Some (st, r) -> App OP_BREDOR [a] ~> r.
Proof.
  intros H. apply holds_rewrites. intros s (n & ? & [= <-] & Ha & ->)%redor_inv.
  eexists _, _. split; [done|]. split; [by apply (holds_redor n)|].
  unfold mk_bv_redor, bv_util.is_zero in H. destruct (is_numeral a) as [[v w]|] eqn:Ea; [|done]. read_num.
  injection H as <- <-. destruct (Z.eqb_spec v 0) as [->|Hv]; bv_value; rewrite V; [done|].
  by rewrite (proj2 (Z.eqb_neq _ _)).
Qed.

Lemma mk_bv_redand_ok a st r : mk_bv_redand a = Some (st, r) -> App OP_BREDAND [a] ~> r.
Proof.
  intros H. apply holds_rewrites. intros s (n & ? & [= <-] & Ha & ->)%redand_inv.
  eexists _, _. split; [done|]. split; [by apply (holds_redand n)|].
  unfold mk_bv_redand in H. destruct (is_numeral a) as [[v w]|] eqn:Ea; [|done]. read_num.
  injection H as <- <-. destruct (v =? pow2 n - 1) eqn:Ev; bv_value; by rewrite V, Ev.
Qed.

Lemma mk_bv_comp_ok a b st r : mk_bv_comp a b = Some (st, r) -> App OP_BCOMP [a; b] ~> r.
Proof.
  intros H. apply holds_rewrites. intros s (n & ? & ? & [= <- <-] & Ha & Hb & ->)%comp_inv.
  eexists _, _. split; [done|]. split; [by apply (holds_comp n)|].
  unfold mk_bv_comp in H. destruct (decide (a = b)) as [<-|Hne].
  { injection H as <- <-. bv_value. by rewrite Z.eqb_refl. }
  assert (Hite : holds 1 (fun I => Z.b2z (vn I a =? vn I b)) (m.mk_ite (m.mk_eq a b) (mk_numeral 1 1) (mk_numeral 0 1))).
  { bv_value. by destruct (_ =? _). }
  destruct (is_numeral a) as [[v w]|] eqn:Ea; [|injection H as <- <-; exact Hite].
  destruct (is_numeral b) as [[v' w']|] eqn:Eb; injection H as <- <-; [|exact Hite]. read_num.
  bv_value. rewrite V, V0, (proj2 (Z.eqb_neq _ _)); [done|]. congruence.
Qed.

(** ** Bits *)

Lemma testbit_div v i : 0 <= v -> Z.testbit v (Z.of_nat i) = ((v / pow2 i) mod 2 =? 1).
Proof.
  intros Hv. apply Z.b2z_inj. rewrite Z.testbit_spec' by lia. fold (pow2 i).
  pose proof (Z.mod_pos_bound (v / pow2 i) 2 ltac:(lia)). destruct (Z.eqb_spec ((v / pow2 i) mod 2) 1); simpl; lia.
Qed.

Lemma mk_bit2bool_ok i a st r : mk_bit2bool a i = Some (st, r) -> App (OP_BIT2BOOL i) [a] ~> r.
Proof.
  intros H s (n & ? & [= <-] & Ha & Hi & ->)%bit2bool_inv. unfold mk_bit2bool in H.
  destruct (is_numeral a) as [[v w]|] eqn:Ea; [|done]. cbn in H. read_num.
  destruct (Nat.leb_spec n i); [lia|]. injection H as <- <-. split; [by destruct (_ =? 1)|]. intros I.
  rewrite (eval_app I (OP_BIT2BOOL i)) by done. simpl. rewrite (bvx_val I n a Ha), V, testbit_div by lia.
  by destruct (_ =? 1).
Qed.

Definition bit (z : Z) : Prop := z = 0 \/ z = 1.

Lemma fits_bit I e : bvx 1 e -> bit (vn I e).
Proof. intros He. pose proof (vn_bounds I 1 e He) as B. change (pow2 1) with 2 in B. unfold bit. lia. Qed.

Lemma bits_or l a : Forall bit l -> bit a ->
  fold_left Z.lor l a = Z.b2z ((a =? 1) || existsb (fun z => z =? 1) l).
Proof.
  intros Hl. revert a. induction Hl as [|b l Hb _ IH]; intros a Ha; simpl.
  - by destruct Ha as [->| ->].
  - rewrite IH by (destruct Ha as [->| ->], Hb as [->| ->]; first [by left|by right]).
    by destruct Ha as [->| ->], Hb as [->| ->].
Qed.

Lemma bits_xor l a : Forall bit l -> bit a ->
  fold_left Z.lxor l a = Z.b2z (xorb (a =? 1) (foldr (fun z b => xorb (z =? 1) b) false l)).
Proof.
  intros Hl. revert a. induction Hl as [|b l Hb _ IH]; intros a Ha; simpl.
  - by destruct Ha as [->| ->].
  - rewrite IH by (destruct Ha as [->| ->], Hb as [->| ->]; first [by left|by right]).
    destruct Ha as [->| ->], Hb as [->| ->]; simpl; by destruct (foldr _ _ l).
Qed.

Lemma get_sort_xor args s : get_sort (App OP_XOR args) = Some s <-> s = BOOL_SORT /\ Forall boolx args.
Proof. by apply get_sort_all_bool. Qed.

Lemma bval_xor I args : bval I (App OP_XOR args) = foldr (fun e b => xorb (bval I e) b) false args.
Proof.
  unfold bval at 1. rewrite eval_app by done. simpl. induction args as [|e args IH]; simpl; [done|]. by rewrite IH.
Qed.

(** Equations of all arguments with the bit one. *)
Lemma bit_equations args bit1 :
  Forall (bvx 1) args -> holds 1 (fun _ => 1) bit1 ->
  Forall boolx (map (fun a => m.mk_eq a bit1) args)
  /\ forall I, map (bval I) (map (fun a => m.mk_eq a bit1) args) = map (fun a => vn I a =? 1) args.
Proof.
  intros HF H1. split.
  - apply Forall_map. eapply Forall_impl; [exact HF|]. intros a Ha. apply (same_bv_eq 1 _ _ a bit1 (holds_refl 1 a Ha) H1).
  - intros I. rewrite map_map. apply map_ext_Forall. eapply Forall_impl; [exact HF|]. intros a Ha.
    by rewrite (proj2 (same_bv_eq 1 _ _ a bit1 (holds_refl 1 a Ha) H1)).
Qed.

Lemma bit_eq_or args bit1 :
  bvx 1 (App OP_BOR args) -> holds 1 (fun _ => 1) bit1 ->
  same_bool (m.mk_or (map (fun a => m.mk_eq a bit1) args)) (fun I => vn I (App OP_BOR args) =? 1).
Proof.
  intros Ha H1. destruct (opn_inv OP_BOR _ _ Ha) as (k & [= <-] & Hne & HF).
  destruct (bit_equations args bit1 HF H1) as [Hb Hv]. split; [by apply boolx_or|]. intros I.
  rewrite bval_or, (proj2 (holds_opn OP_BOR 1 args Hne HF)).
  assert (existsb (bval I) (map (fun a => m.mk_eq a bit1) args) = existsb id (map (fun a => vn I a =? 1) args)) as ->.
  { rewrite <- Hv. generalize (map (fun a => m.mk_eq a bit1) args). intros l. induction l as [|e l IH]; simpl; [done|]. by rewrite IH. }
  destruct HF as [|a args Ha1 HF]; [done|]. simpl. rewrite bits_or; [|by apply Forall_map; eapply Forall_impl; [exact HF|intros; by apply fits_bit]|by apply fits_bit].
  assert (existsb id (map (fun a => vn I a =? 1) args) = existsb (fun z => z =? 1) (map (vn I) args)) as ->.
  { clear. induction args as [|e l IH]; simpl; [done|]. by rewrite IH. }
  by destruct (_ || _).
Qed.

Lemma bit_eq_xor args bit1 :
  bvx 1 (App OP_BXOR args) -> holds 1 (fun _ => 1) bit1 ->
  same_bool (App OP_XOR (map (fun a => m.mk_eq a bit1) args)) (fun I => vn I (App OP_BXOR args) =? 1).
Proof.
  intros Ha H1. destruct (opn_inv OP_BXOR _ _ Ha) as (k & [= <-] & Hne & HF).
  destruct (bit_equations args bit1 HF H1) as [Hb Hv]. split; [by apply get_sort_xor|]. intros I.
  rewrite bval_xor, (proj2 (holds_opn OP_BXOR 1 args Hne HF)).
  assert (foldr (fun e b => xorb (bval I e) b) false (map (fun a => m.mk_eq a bit1) args)
          = foldr xorb false (map (fun a => vn I a =? 1) args)) as ->.
  { rewrite <- Hv. generalize (map (fun a => m.mk_eq a bit1) args). intros l. induction l as [|e l IH]; simpl; [done|]. by rewrite IH. }
  destruct HF as [|a args Ha1 HF]; [done|]. simpl. rewrite bits_xor; [|by apply Forall_map; eapply Forall_impl; [exact HF|intros; by apply fits_bit]|by apply fits_bit].
  assert (foldr xorb false (map (fun a => vn I a =? 1) args) = foldr (fun z b => xorb (z =? 1) b) false (map (vn I) args)) as ->.
  { clear. induction args as [|e l IH]; simpl; [done|]. by rewrite IH. }
  by destruct (xorb _ _).
Qed.

(** An equation between one-bit vectors. *)
Lemma bit_eq_num I v a : bvx 1 a -> (v = 0 \/ v = 1) ->
  (vn I a =? v) = if v =? 1 then vn I a =? 1 else negb (vn I a =? 1).
Proof. intros Ha Hv. destruct (fits_bit I a Ha) as [->| ->], Hv as [->| ->]; done. Qed.

Lemma eq_sym_rewrites a b : m.mk_eq a b ~> m.mk_eq b a.
Proof.
  intros s (-> & t & Ha & Hb)%get_sort_eq. split; [apply get_sort_eq; eauto|]. intros I.
  apply boolx_eval_eq; [apply boolx_eq; eauto..|]. rewrite !bval_eq. apply bool_decide_ext. naive_solver.
Qed.

Lemma bit2bool_num_ok lhs rhs v st r :
  bvx 1 lhs -> bvx 1 rhs -> is_numeral rhs = Some (v, 1%nat) -> is_numeral lhs = None ->
  match lhs with
  | App OP_ITE [c; t; e] => Some (BR_REWRITE2, m.mk_ite c (m.mk_eq t rhs) (m.mk_eq e rhs))
  | App OP_BNOT (a :: _) => Some (BR_REWRITE1, m.mk_eq a (mk_numeral (1 - v) 1))
  | App OP_BOR args =>
      let f := m.mk_or (map (fun a => m.mk_eq a (if v =? 1 then rhs else mk_numeral 1 1)) args) in
      if v =? 1 then Some (BR_REWRITE2, f) else Some (BR_REWRITE3, m.mk_not f)
  | App OP_BXOR args =>
      let f := App OP_XOR (map (fun a => m.mk_eq a (if v =? 1 then rhs else mk_numeral 1 1)) args) in
      if v =? 1 then Some (BR_REWRITE2, f) else Some (BR_REWRITE3, m.mk_not f)
  | _ => None
  end = Some (st, r) ->
  same_bool r (fun I => vn I lhs =? v).
Proof.
  intros Hl Hr En _ H. destruct (is_numeral_inv 1 rhs v 1 Hr En) as (_ & B & F & V). assert (Hv : v = 0 \/ v = 1) by (change (pow2 1) with 2 in B; lia).
  assert (H1 : holds 1 (fun _ => 1) (if v =? 1 then rhs else mk_numeral 1 1)).
  { destruct (Z.eqb_spec v 1) as [->|]; bv_value; [apply V|done]. }
  assert (Hsigned : forall f, same_bool f (fun I => vn I lhs =? 1) ->
    (if v =? 1 then Some (BR_REWRITE2, f) else Some (BR_REWRITE3, m.mk_not f)) = Some (st, r) ->
    same_bool r (fun I => vn I lhs =? v)).
  { intros f Hf Hs. destruct (v =? 1) eqn:E; injection Hs as <- <-.
    - eapply same_bool_ext; [exact Hf|]. intros I. by rewrite (bit_eq_num I v lhs Hl Hv), E.
    - eapply same_bool_ext; [by apply same_not|]. intros I. by rewrite (bit_eq_num I v lhs Hl Hv), E. }
  destruct lhs as [o args]. destruct o; try done.
  - destruct args as [|c [|t [|e [|? ?]]]]; try done. injection H as <- <-.
    unfold bvx in Hl. apply (get_sort_ite c t e) in Hl as (Hc & Ht & He).
    eapply same_bool_ext; [eapply same_ite; [by apply same_bool_refl|..]; eapply (same_bv_eq 1); by apply holds_refl|].
    intros I. cbn beta. rewrite V. unfold vn at 3. change (App OP_ITE [c; t; e]) with (m.mk_ite c t e). rewrite eval_ite.
    by destruct (bval I c).
  - by eapply Hsigned; [apply bit_eq_or|].
  - destruct (op1_inv OP_BNOT _ _ Hl) as (k & a & -> & [= <-] & Ha). injection H as <- <-. bv_value.
    rewrite (proj2 (holds_op1 OP_BNOT 1 _ a (holds_refl 1 a Ha))). unfold bv_not. change (pow2 1) with 2.
    destruct (fits_bit I a Ha) as [->| ->], Hv as [->| ->]; done.
  - by eapply Hsigned; [apply bit_eq_xor|].
Qed.

Lemma mk_bit2bool_eq_ok lhs rhs st r :
  get_sort lhs = Some (BV_SORT (get_bv_size lhs)) -> mk_bit2bool_eq lhs rhs = Some (st, r) -> m.mk_eq lhs rhs ~> r.
Proof.
  intros Hs H. unfold mk_bit2bool_eq in H. destruct (Nat.eqb_spec (get_bv_size lhs) 1) as [E|]; [|done]. cbn [negb] in H.
  rewrite E in Hs.
  assert (Hmain : forall l r', bvx 1 l -> bvx 1 r' ->
    ('(v, _) ← is_numeral r';
     if is_num l then Some (BR_DONE, mk_bool_val (bool_decide (l = r')))
     else
       let is_one := v =? 1 in
       let bit1 := if is_one then r' else mk_numeral 1 1 in
       let signed f := if is_one then Some (BR_REWRITE2, f) else Some (BR_REWRITE3, m.mk_not f) in
       match l with
       | App OP_ITE [c; t; e] => Some (BR_REWRITE2, m.mk_ite c (m.mk_eq t r') (m.mk_eq e r'))
       | App OP_BNOT (a :: _) => Some (BR_REWRITE1, m.mk_eq a (mk_numeral (1 - v) 1))
       | App OP_BOR args => signed (m.mk_or (map (fun a => m.mk_eq a bit1) args))
       | App OP_BXOR args => signed (App OP_XOR (map (fun a => m.mk_eq a bit1) args))
       | _ => None
       end) = Some (st, r) -> same_bool r (fun I => vn I l =? vn I r')).
  { intros l r' Hl Hr Hm. destruct (is_numeral r') as [[v w]|] eqn:Er; [|done]. cbn [mbind option_bind] in Hm.
    destruct (is_numeral_inv 1 r' v w Hr Er) as (-> & B & F & V). unfold is_num in Hm.
    destruct (is_numeral l) as [[v' w']|] eqn:El.
    - read_num. injection Hm as <- <-. unfold mk_bool_val. bv_value. rewrite V, V0.
      destruct (Z.eqb_spec v' v) as [->|Hne]; [apply bool_decide_eq_true; congruence|].
      apply bool_decide_eq_false. rewrite F, F0. intros [= Em]. rewrite !Z.mod_small in Em by done. done.
    - eapply same_bool_ext; [eapply bit2bool_num_ok; [exact Hl|exact Hr|exact Er|exact El|exact Hm]|].
      intros I. cbn beta. by rewrite V. }
  intros s Hse. pose proof Hse as (-> & t & Ha & Hb)%get_sort_eq. rewrite Hs in Ha. injection Ha as <-.
  assert (Hsame : same_bool r (fun I => vn I lhs =? vn I rhs)).
  { destruct (is_num lhs); [|by apply Hmain].
    eapply same_bool_ext; [by apply (Hmain rhs lhs)|]. intros I. apply Z.eqb_sym. }
  destruct Hsame as [Br Vr]. split; [done|]. intros I.
  destruct (same_bv_eq 1 _ _ lhs rhs (holds_refl 1 _ Hs) (holds_refl 1 _ Hb)) as [Be Ve].
  apply boolx_eval_eq; [done|done|]. by rewrite Vr, Ve.
Qed.

(** ** Vectors of constant bits *)

Lemma mk_mkbv_ok cfg args st r : mk_mkbv cfg args = Some (st, r) -> App OP_MKBV args ~> r.
Proof.
  intros H. apply holds_rewrites. intros s (ss & Hs & Hi)%bind_sort. simpl in Hi.
  assert (Hn : s = BV_SORT (length args) /\ (0 < length args)%nat).
  { apply get_sorts_Forall2, Forall2_length in Hs. rewrite Hs. unfold Ast.mk_mkbv in Hi. destruct ss; [done|].
    destruct (all_bool _); [|done]. injection Hi as <-. simpl. split; [done|lia]. }
  destruct Hn as [-> Hn]. exists (length args), (fun I => b2z (map truth (map (eval I) args))). split; [done|].
  split.
  - apply holds_intro; [unfold bvx; rewrite get_sort_app, Hs; exact Hi|]. intros I. rewrite eval_app by done.
    cbn [eval_op]. by rewrite length_map.
  - unfold mk_mkbv in H. destruct (m_mkbv2num cfg); [|done]. cbn [andb] in H.
    destruct (forallb _ args) eqn:Ef; [|done]. injection H as <- <-. bv_value.
    assert (E : mkbv_value args = b2z (map truth (map (eval I) args))).
    { clear -Ef. induction args as [|e args IH]; [done|]. cbn [forallb] in Ef. apply andb_true_iff in Ef as [He Hl].
      cbn [mkbv_value foldr map b2z]. fold (mkbv_value args). rewrite IH by done.
      destruct (m.is_true e) eqn:Et.
      - recog. change (truth (eval I m.mk_true)) with true. simpl Z.b2z. lia.
      - cbn [orb] in He. recog. change (truth (eval I m.mk_false)) with false. simpl Z.b2z. lia. }
    rewrite E. apply Z.mod_small. pose proof (b2z_bounds (map truth (map (eval I) args))) as B.
    by rewrite !length_map in B.
Qed.

(** ** If-then-else *)

Lemma rewrites_bv_ite c t e r :
  (forall s, boolx c -> get_sort t = Some s -> get_sort e = Some s ->
     get_sort r = Some s /\ forall I, eval I r = if bval I c then eval I t else eval I e) ->
  m.mk_ite c t e ~> r.
Proof.
  intros H s Hs. apply get_sort_ite in Hs as (Hc & Ht & He). destruct (H s Hc Ht He) as [Hr Hv].
  split; [done|]. intros I. by rewrite eval_ite.
Qed.

Lemma is_bv_sort t : is_bv t = true -> exists n, get_sort t = Some (BV_SORT n).
Proof. unfold is_bv. destruct (get_sort t) as [[| |]|]; try done. eauto. Qed.

(** [ite2id] on an equation whose right-hand side is a numeral if one is. *)
Lemma ite2id_ok lhs rhs t e s st r :
  (exists k, get_sort lhs = Some k /\ get_sort rhs = Some k) -> is_bv rhs = true ->
  get_sort t = Some s -> get_sort e = Some s -> m.are_equal t e = false ->
  (if m.are_equal lhs t && m.are_equal rhs e || m.are_equal lhs e && m.are_equal rhs t then Some (BR_REWRITE1, e)
   else if negb (get_bv_size rhs =? 1)%nat then None
   else match is_numeral rhs, is_numeral t, is_numeral e with
   | Some _, Some (_, t_sz), Some _ =>
       if (t_sz =? 1)%nat then Some (BR_REWRITE1, if m.are_equal rhs t then lhs else bv_util.mk_bv_not lhs) else None
   | _, _, _ => None
   end) = Some (st, r) ->
  get_sort r = Some s /\ forall I, eval I r = if bval I (m.mk_eq lhs rhs) then eval I t else eval I e.
Proof.
  intros (k & Hl & Hr) Hbv Ht He Hte H. destruct (_ || _) eqn:Eid.
  { injection H as <- <-. split; [done|]. intros I. rewrite bval_eq.
    destruct (bool_decide _) eqn:Eb; [|done]. apply bool_decide_eq_true in Eb.
    apply orb_true_iff in Eid as [[E1 E2]%andb_true_iff|[E1 E2]%andb_true_iff]; unfold m.are_equal in *; recog; congruence. }
  destruct (is_bv_sort rhs Hbv) as [n Hn]. assert (k = BV_SORT n) as -> by congruence.
  rewrite (get_bv_size_eq n rhs Hn) in H. destruct (Nat.eqb_spec n 1) as [->|]; [|done]. cbn [negb] in H.
  destruct (is_numeral rhs) as [[vr wr]|] eqn:Er; [|done]. destruct (is_numeral t) as [[vt wt]|] eqn:Et; [|done].
  destruct (is_numeral e) as [[ve we]|] eqn:Ee; [|done]. destruct (Nat.eqb_spec wt 1) as [->|]; [|done].
  assert (s = BV_SORT 1) as ->.
  { destruct t as [o l]. destruct o; try done. injection Et as -> ->.
    by destruct (bv_value_inv (App (OP_BV_NUM vt 1) l) s eq_refl Ht) as (? & ? & [= <- <- _] & -> & _). }
  destruct (is_numeral_inv 1 rhs vr wr Hr Er) as (_ & Br & Fr & Vr).
  destruct (is_numeral_inv 1 t vt 1 Ht Et) as (_ & Bt & Ft & Vt).
  destruct (is_numeral_inv 1 e ve we He Ee) as (_ & Be & Fe & Ve). change (pow2 1) with 2 in *.
  assert (Hne : vt <> ve) by (intros ->; unfold m.are_equal in Hte; apply bool_decide_eq_false in Hte; congruence).
  assert (Hite : forall z, holds 1 z r -> (forall I, z I = if vn I lhs =? vr then vt else ve) ->
    get_sort r = Some (BV_SORT 1) /\ forall I, eval I r = if bval I (m.mk_eq lhs rhs) then eval I t else eval I e).
  { intros z Hz Ez. split; [apply Hz|]. intros I.
    rewrite (holds_val 1 z r I Hz), Ez, (proj2 (same_bv_eq 1 _ _ lhs rhs (holds_refl 1 _ Hl) (holds_refl 1 _ Hr))).
    rewrite Vr, (bvx_val I 1 t Ht), (bvx_val I 1 e He), Vt, Ve. by destruct (_ =? _). }
  injection H as <- <-. destruct (m.are_equal rhs t) eqn:Ert.
  - assert (vr = vt) as -> by (unfold m.are_equal in Ert; recog; rewrite <- Vr with (I := fun _ _ _ _ => VBool false); apply Vt).
    eapply Hite; [by apply holds_refl|]. intros I. cbn beta. pose proof (fits_bit I lhs Hl) as Hb. unfold bit in Hb.
    destruct (Z.eqb_spec (vn I lhs) vt); lia.
  - assert (vr <> vt).
    { intros ->. unfold m.are_equal in Ert. apply bool_decide_eq_false in Ert. congruence. }
    eapply Hite; [by apply (holds_op1 OP_BNOT), holds_refl|]. intros I. cbn beta. pose proof (fits_bit I lhs Hl) as Hb.
    unfold bit in Hb. unfold bv_not. change (pow2 1) with 2. destruct (Z.eqb_spec (vn I lhs) vr); lia.
Qed.

Lemma bv_ite_core_ok cfg c t e st r : mk_ite_core cfg c t e = Some (st, r) -> m.mk_ite c t e ~> r.
Proof.
  intros H. apply rewrites_bv_ite. intros s Hc Ht He. unfold mk_ite_core in H.
  destruct (m.are_equal t e) eqn:Ete.
  { injection H as <- <-. unfold m.are_equal in Ete. recog. split; [done|]. intros I. by destruct (bval I c). }
  destruct (m.is_not c) as [c'|] eqn:Ec.
  { injection H as <- <-. recog. rewrite boolx_not in Hc. split; [by apply get_sort_ite|]. intros I.
    rewrite eval_ite, bval_not. by destruct (bval I c'). }
  destruct (m.is_eq c) as [[lhs rhs]|] eqn:Eq; [|done]. recog.
  destruct (_ && _ && _) eqn:Eg; [|done]. unfold ite2id in H. destruct (is_bv rhs) eqn:Ebv; [|done]. cbn [negb] in H.
  pose proof Hc as (k & Hl & Hr)%boolx_eq. destruct (is_num lhs).
  - assert (Hswap : forall I, bval I (m.mk_eq lhs rhs) = bval I (m.mk_eq rhs lhs)).
    { intros I. rewrite !bval_eq. apply bool_decide_ext. naive_solver. }
    setoid_rewrite Hswap. eapply (ite2id_ok rhs lhs); try done; [eauto|].
    unfold is_bv in *. rewrite Hr in Ebv. by rewrite Hl.
  - eapply (ite2id_ok lhs rhs); try done. eauto.
Qed.

(** ** Overflow tests *)

Lemma is_zero_or_one_ok n a : bvx n a -> is_zero_or_one a = true ->
  exists v, (v = 0 \/ v = 1) /\ forall I, vn I a = v.
Proof.
  intros Ha H. unfold is_zero_or_one in H. destruct (is_numeral a) as [[v w]|] eqn:E; [|done]. read_num.
  exists v. split; [|done]. apply orb_true_iff in H as [H%Z.eqb_eq|H%Z.eqb_eq]; auto.
Qed.

(** A test of two numerals is sound if it is the operator, and the operator
    holds when one operand is 0 or 1. *)
Lemma mk_mul_test_ok o f test a b st r :
  Pred2 o f ->
  (forall n x y, (0 < n)%nat -> fits n x -> fits n y -> test n x y = f n x y) ->
  (forall n v y, (0 < n)%nat -> v = 0 \/ v = 1 -> fits n v -> fits n y -> f n v y = true /\ f n y v = true) ->
  mk_mul_test test a b = Some (st, r) -> App o [a; b] ~> r.
Proof.
  intros O Htest Htriv H. apply (rewrites_pred o). intros n Ha Hb. pose proof (bvx_pos n a Ha) as Hn.
  pose proof (fun I => vn_bounds I n a Ha) as Ba. pose proof (fun I => vn_bounds I n b Hb) as Bb.
  unfold mk_mul_test in H. destruct (is_zero_or_one a) eqn:Ea.
  { injection H as <- <-. destruct (is_zero_or_one_ok n a Ha Ea) as (v & Hv & V). bv_value. symmetry.
    apply (Htriv n (vn I a) (vn I b)); [done|by rewrite V|apply Ba|apply Bb]. }
  destruct (is_zero_or_one b) eqn:Eb.
  { injection H as <- <-. destruct (is_zero_or_one_ok n b Hb Eb) as (v & Hv & V). bv_value. symmetry.
    apply (Htriv n (vn I b) (vn I a)); [done|by rewrite V|apply Bb|apply Ba]. }
  cbn [orb] in H. destruct (is_numeral a) as [[v w]|] eqn:E1; [|done]. destruct (is_numeral b) as [[v' w']|] eqn:E2; [|done].
  read_num. injection H as <- <-. unfold mk_bool_val. bv_value. rewrite V, V0. by apply Htest.
Qed.

Lemma mk_bvumul_no_overflow_ok a b st r :
  mk_bvumul_no_overflow a b = Some (st, r) -> App OP_BUMUL_NO_OVFL [a; b] ~> r.
Proof.
  apply (mk_mul_test_ok OP_BUMUL_NO_OVFL bv_umul_no_ovfl); [apply _|done|]. unfold fits, bv_umul_no_ovfl.
  intros n v y Hn Hv Fv Fy. split; apply Z.ltb_lt; destruct Hv as [->| ->]; lia.
Qed.

Lemma mk_bvsmul_no_underflow_ok a b st r :
  mk_bvsmul_no_underflow a b = Some (st, r) -> App OP_BSMUL_NO_UDFL [a; b] ~> r.
Proof.
  apply (mk_mul_test_ok OP_BSMUL_NO_UDFL bv_smul_no_udfl); [apply _| |]; unfold fits, bv_smul_no_udfl.
  - intros n x y Hn Fx Fy. unfold sgn.
    destruct (Z.leb_spec (pow2 (n - 1)) x), (Z.ltb_spec x (pow2 (n - 1))); try lia;
      destruct (Z.leb_spec (pow2 (n - 1)) y), (Z.ltb_spec y (pow2 (n - 1))); (done || lia).
  - intros n v y Hn Hv Fv Fy. pose proof (sgn_bounds n y Hn Fy) as By. pose proof (pow2_pos (n - 1)).
    destruct Hv as [->| ->].
    + rewrite sgn_0. split; apply Z.leb_le; lia.
    + destruct n as [|[|n]]; [lia| |].
      * change (pow2 1) with 2 in *. assert (y = 0 \/ y = 1) as [->| ->] by lia; done.
      * assert (sgn (S (S n)) 1 = 1) as ->.
        { unfold sgn. rewrite (proj2 (Z.ltb_lt _ _)); [done|]. cbn [Nat.sub]. rewrite pow2_S. pose proof (pow2_pos n). lia. }
        split; apply Z.leb_le; lia.
Qed.

(** The signed test reads its numerals as unsigned numbers: on -1 and -1 it is
    wrong at every width. *)
Lemma smul_test_unsigned n I :
  (0 < n)%nat ->
  mk_bvsmul_no_overflow (mk_numeral (-1) n) (mk_numeral (-1) n) = Some (BR_DONE, mk_bool_val (n =? 1)%nat)
  /\ bval I (App OP_BSMUL_NO_OVFL [mk_numeral (-1) n; mk_numeral (-1) n]) = negb (n =? 1)%nat.
Proof.
  intros Hn. destruct (Nat.eqb_spec n 1) as [->|Hn1]; [done|].
  pose proof (pow2_half n ltac:(lia)) as Hh. pose proof (pow2_le_mono 1 (n - 1) ltac:(lia)) as Hp.
  change (pow2 1) with 2 in Hp. assert (E : (-1) mod pow2 n = pow2 n - 1) by (symmetry; apply (Z.mod_unique_pos _ _ (-1)); lia).
  split.
  - unfold mk_bvsmul_no_overflow, mk_mul_test, is_zero_or_one, mk_numeral, mk_num_decl. cbn [is_numeral]. rewrite E.
    rewrite (proj2 (Z.eqb_neq _ _)), (proj2 (Z.eqb_neq _ 1)) by lia. cbn [orb].
    by rewrite (proj2 (Z.ltb_ge _ _)) by nia.
  - rewrite (proj2 (pred_same_bool OP_BSMUL_NO_OVFL n _ _ _ _ (holds_num n (-1) ltac:(lia)) (holds_num n (-1) ltac:(lia)))).
    unfold bv_smul_no_ovfl. rewrite E.
    replace (sgn n (pow2 n - 1)) with (-1) by (unfold sgn; rewrite (proj2 (Z.ltb_ge _ _)); lia).
    apply Z.ltb_lt. lia.
Qed.
