(* ===== verification/BvRewriterCmp.v ===== *)
(** * BvRewriterCmp: the rules for comparisons are sound

    Signed and unsigned comparison are treated together: [sv] is the value a
    comparison reads, and a comparison of two joined numbers is one of their
    high parts, or of their low parts if those are equal. *)
From Stdlib Require Import ZArith Lia.
From stdpp Require Import base list.
From S2P Require Import Prelude Bits UBits Ast BvUtil AstFacts TermFacts BvTerms BoolRewriter BvRewriter BvRewriterDiv.
From S2P Require Import BvRewriterShift BvRewriterExtract.
Import bv_rewriter.

Local Open Scope Z_scope.

(** The value a comparison reads. *)
Definition sv (s : bool) (n : nat) (z : Z) : Z := if s then sgn n z else z.

Definition leq (s : bool) (n : nat) (x y : Z) : bool := sv s n x <=? sv s n y.

Lemma leq_sle n x y : leq true n x y = bv_sle n x y.
Proof. done. Qed.

Lemma leq_ule n x y : leq false n x y = bv_ule x y.
Proof. done. Qed.

Definition lower (s : bool) (n : nat) : Z := if s then - pow2 (n - 1) else 0.
Definition upper (s : bool) (n : nat) : Z := if s then pow2 (n - 1) - 1 else pow2 n - 1.

Lemma sv_bounds s n z : (0 < n)%nat -> fits n z -> lower s n <= sv s n z <= upper s n.
Proof.
  intros Hn Hz. unfold fits in Hz. destruct s; simpl; [|lia]. pose proof (sgn_bounds n z Hn Hz). lia.
Qed.

Lemma sv_mod s n z : fits n z -> sv s n z mod pow2 n = z.
Proof. intros Hz. destruct s; simpl; [by apply sgn_mod|by apply Z.mod_small]. Qed.

Lemma sv_inj s n x y : fits n x -> fits n y -> sv s n x = sv s n y -> x = y.
Proof. intros Hx Hy E. by rewrite <- (sv_mod s n x Hx), <- (sv_mod s n y Hy), E. Qed.

Lemma norm_sv s n v : (0 < n)%nat -> fits n v -> bv_util.norm v n s = sv s n v.
Proof. intros Hn Hv. destruct s; [by apply norm_signed|by apply norm_small]. Qed.

Lemma fits_vn I n e : bvx n e -> fits n (vn I e).
Proof. apply vn_bounds. Qed.

(** *** Comparison with the least and the greatest number *)

Lemma leq_lower s n x y : (0 < n)%nat -> fits n x -> fits n y -> sv s n y = lower s n -> leq s n x y = (x =? y).
Proof.
  intros Hn Hx Hy E. unfold leq. pose proof (sv_bounds s n x Hn Hx). apply eq_true_iff_eq. rewrite Z.leb_le, Z.eqb_eq. split.
  - intros H1. apply (sv_inj s n); [done|done|lia].
  - intros ->. lia.
Qed.

Lemma leq_upper s n x y : (0 < n)%nat -> fits n x -> fits n y -> sv s n x = upper s n -> leq s n x y = (x =? y).
Proof.
  intros Hn Hx Hy E. unfold leq. pose proof (sv_bounds s n y Hn Hy). apply eq_true_iff_eq. rewrite Z.leb_le, Z.eqb_eq. split.
  - intros H1. apply (sv_inj s n); [done|done|lia].
  - intros ->. lia.
Qed.

Lemma leq_to_upper s n x y : (0 < n)%nat -> fits n x -> sv s n y = upper s n -> leq s n x y = true.
Proof. intros Hn Hx E. unfold leq. pose proof (sv_bounds s n x Hn Hx). apply Z.leb_le. lia. Qed.

Lemma leq_from_lower s n x y : (0 < n)%nat -> fits n y -> sv s n x = lower s n -> leq s n x y = true.
Proof. intros Hn Hy E. unfold leq. pose proof (sv_bounds s n y Hn Hy). apply Z.leb_le. lia. Qed.

(** *** Joined numbers *)

Lemma sgn_join w k x l : (0 < w)%nat -> fits w x -> fits k l -> sgn (w + k) (x * pow2 k + l) = sgn w x * pow2 k + l.
Proof.
  unfold fits. intros Hw Hx Hl. unfold sgn. rewrite pow2_add. replace (w + k - 1)%nat with (w - 1 + k)%nat by lia. rewrite pow2_add.
  pose proof (pow2_pos k). destruct (Z.ltb_spec x (pow2 (w - 1))).
  - rewrite (proj2 (Z.ltb_lt _ _)) by nia. done.
  - rewrite (proj2 (Z.ltb_ge _ _)) by nia. lia.
Qed.

Lemma sv_join s w k x l : (0 < w)%nat -> fits w x -> fits k l -> sv s (w + k) (x * pow2 k + l) = sv s w x * pow2 k + l.
Proof. intros Hw Hx Hl. destruct s; [by apply sgn_join|done]. Qed.

(** High parts decide unless they are equal. *)
Lemma leq_join s w k x l y m :
  (0 < w)%nat -> fits w x -> fits w y -> fits k l -> fits k m ->
  leq s (w + k) (x * pow2 k + l) (y * pow2 k + m) = if x =? y then bv_ule l m else leq s w x y.
Proof.
  intros Hw Hx Hy Hl Hm. unfold leq, bv_ule. rewrite !sv_join by done. unfold fits in *.
  pose proof (pow2_pos k). destruct (Z.eqb_spec x y) as [->|Hne].
  - apply eq_true_iff_eq. rewrite !Z.leb_le. lia.
  - assert (sv s w x <> sv s w y) by (intros E; apply Hne; by apply (sv_inj s w)).
    apply eq_true_iff_eq. rewrite !Z.leb_le. split; nia.
Qed.

(** Equal low parts do not matter. *)
Lemma leq_join_low s w k x l y :
  (0 < w)%nat -> fits w x -> fits w y -> fits k l ->
  leq s (w + k) (x * pow2 k + l) (y * pow2 k + l) = leq s w x y.
Proof.
  intros Hw Hx Hy Hl. rewrite leq_join by done. destruct (Z.eqb_spec x y) as [->|]; [|done].
  unfold leq, bv_ule. by rewrite !Z.leb_refl.
Qed.

(** ** High zero bits *)

Lemma zero_top_value v i : 0 <= v < pow2 (S i) -> Z.testbit v (Z.of_nat i) = false -> v < pow2 i.
Proof.
  intros Hv Ht. pose proof (testbit_top (S i) v ltac:(lia) Hv) as E. replace (S i - 1)%nat with i in E by lia.
  rewrite Ht in E. symmetry in E. apply Z.leb_gt in E. done.
Qed.

Lemma testbit_num v i : 0 <= v -> Z.testbit v (Z.of_nat i) = negb (Z.rem (v / pow2 i) 2 =? 0).
Proof.
  intros Hv. pose proof (pow2_pos i). rewrite Z.rem_mod_nonneg by (try apply Z.div_pos; lia).
  apply Z.b2z_inj. rewrite Z.testbit_spec' by lia. fold (pow2 i).
  pose proof (Z.mod_pos_bound (v / pow2 i) 2 ltac:(lia)). destruct (Z.eqb_spec ((v / pow2 i) mod 2) 0); simpl; lia.
Qed.

Lemma testbit_join x k l i :
  fits k l -> Z.testbit (x * pow2 k + l) (Z.of_nat i)
  = if (i <? k)%nat then Z.testbit l (Z.of_nat i) else Z.testbit x (Z.of_nat (i - k)).
Proof.
  intros Hl. unfold fits in Hl. destruct (Nat.ltb_spec i k).
  - rewrite <- (Z.mod_small l (pow2 k) Hl) at 2. rewrite <- (Z.mod_pow2_bits_low (x * pow2 k + l) (Z.of_nat k)) by lia.
    fold (pow2 k). by rewrite Z.add_comm, Z.mod_add by (pose proof (pow2_pos k); lia).
  - replace (Z.of_nat i) with (Z.of_nat (i - k) + Z.of_nat k) by lia. rewrite <- Z.div_pow2_bits by lia. fold (pow2 k).
    by rewrite Z.div_add_l, Z.div_small, Z.add_0_r by (pose proof (pow2_pos k); lia).
Qed.

Lemma find_part_ok (f : expr -> nat -> bool) ns args idx :
  bvxs ns args ->
  Forall (fun y => forall n i, bvx n y -> (i < n)%nat -> f y i = true ->
    forall I, Z.testbit (vn I y) (Z.of_nat i) = false) args ->
  match find_part f idx args with
  | inl z => (idx < sum_list ns)%nat
      /\ (z = true -> forall I, Z.testbit (catz ns (map (vn I) args)) (Z.of_nat idx) = false)
  | inr i => (sum_list ns <= idx)%nat /\ i = (idx - sum_list ns)%nat
  end.
Proof.
  induction 1 as [|n y ns args Hy HF IH]; intros Hf; [simpl; lia|].
  inversion Hf as [|? ? Hfy Hfl]; subst. specialize (IH Hfl). cbn [find_part sum_list_with id map catz] in *.
  pose proof (fun I => catz_bounds I ns args HF) as Bc. fold (find_part f idx). destruct (find_part f idx args) as [z|i].
  - destruct IH as [Hlt IH]. split; [lia|]. intros Hz I. rewrite testbit_join by apply Bc.
    rewrite (proj2 (Nat.ltb_lt _ _)) by lia. by apply IH.
  - destruct IH as [Hle ->]. rewrite (get_bv_size_eq n y Hy). destruct (Nat.leb_spec n (idx - sum_list ns)); [split; lia|].
    split; [lia|]. intros Hz I. rewrite testbit_join by apply Bc. rewrite (proj2 (Nat.ltb_ge _ _)) by lia.
    by apply (Hfy n).
Qed.

Lemma is_zero_bit_ok x : forall n idx, bvx n x -> (idx < n)%nat -> is_zero_bit x idx = true ->
  forall I, Z.testbit (vn I x) (Z.of_nat idx) = false.
Proof.
  induction x as [o args IH] using expr_rect'. intros n idx Hx Hi H I. destruct o; try done.
  - destruct (is_numeral_inv n _ v sz Hx eq_refl) as (-> & B & _ & V). rewrite V. cbn in H.
    destruct (Z.eqb_spec v 0) as [->|]; [apply Z.testbit_0_l|]. rewrite testbit_num by lia. by rewrite H.
  - destruct (concat_inv _ _ Hx) as (ns & Hne & HF & [= ->]). cbn [is_zero_bit] in H.
    pose proof (find_part_ok is_zero_bit ns args idx HF) as Hf. destruct (find_part is_zero_bit idx args) as [z|i]; [|done].
    destruct Hf as [_ Hf].
    { eapply Forall_impl; [exact IH|]. intros y Hy n i Hny Hin Hz. by apply (Hy n i). }
    rewrite (proj2 (holds_concat ns args Hne HF)). by apply Hf.
Qed.

Lemma first_non_zero_ok n b i :
  bvx n b -> (i <= n)%nat ->
  (forall I, vn I b < pow2 i) ->
  match first_non_zero b i with
  | None => forall I, vn I b = 0
  | Some j => (j < i)%nat /\ forall I, vn I b < pow2 (S j)
  end.
Proof.
  intros Hb. induction i as [|i IH]; intros Hi Hv; cbn [first_non_zero].
  - intros I. specialize (Hv I). rewrite pow2_0 in Hv. pose proof (vn_bounds I n b Hb). lia.
  - destruct (is_zero_bit b i) eqn:Ez; [|split; [lia|done]].
    specialize (IH ltac:(lia)). destruct (first_non_zero b i) as [j|].
    + destruct IH as [Hj IH]; [|split; [lia|done]]. intros I. apply zero_top_value; [pose proof (vn_bounds I n b Hb); specialize (Hv I); lia|]. by apply (is_zero_bit_ok b n).
    + apply IH. intros I. apply zero_top_value; [pose proof (vn_bounds I n b Hb); specialize (Hv I); lia|]. by apply (is_zero_bit_ok b n).
Qed.

Lemma leq_zero_bits_ok n s a b st r :
  bvx n a -> bvx n b -> leq_zero_bits s a b = Some (st, r) ->
  same_bool r (fun I => leq s n (vn I a) (vn I b)).
Proof.
  intros Ha Hb H. unfold leq_zero_bits in H. destruct s; [done|]. rewrite (get_bv_size_eq n b Hb) in H.
  pose proof (bvx_pos n a Ha) as Hn. pose proof (pow2_pos n).
  pose proof (first_non_zero_ok n b n Hb ltac:(lia) (fun I => proj2 (vn_bounds I n b Hb))) as Hz.
  destruct (first_non_zero b n) as [i|].
  - destruct Hz as [Hi Hz]. destruct (Nat.ltb_spec i (n - 1)); [|done]. injection H as <- <-.
    eapply same_bool_ext.
    { apply same_and2.
      - apply (same_bv_eq (n - i - 1)); [|apply holds_num; lia].
        apply (holds_part_w n); [lia|lia|by apply holds_refl].
      - eapply (pred_same_bool OP_ULEQ (S i)); (apply (holds_part_w n); [lia|lia|by apply holds_refl]). }
    intros I. cbn beta. rewrite leq_ule. unfold bv_ule. replace (i + 1)%nat with (S i) by lia. rewrite !part_0.
    pose proof (vn_bounds I n a Ha) as Ba. pose proof (vn_bounds I n b Hb) as Bb. specialize (Hz I).
    pose proof (pow2_pos (S i)). pose proof (high_bits_small n (S i) (vn I a) ltac:(lia) Ba) as Bh.
    rewrite (Z.mod_small (vn I b)) by lia. unfold part. replace (n - i - 1)%nat with (n - S i)%nat by lia.
    rewrite Z.mod_0_l, (Z.mod_small (vn I a / _)) by (try lia; pose proof (pow2_pos (n - S i)); lia).
    pose proof (Z.div_mod (vn I a) (pow2 (S i)) ltac:(lia)) as D.
    pose proof (Z.mod_pos_bound (vn I a) (pow2 (S i)) ltac:(lia)).
    destruct (Z.eqb_spec (vn I a / pow2 (S i)) 0) as [E|E]; cbn [andb].
    + rewrite E in D. f_equal. lia.
    + symmetry. apply Z.leb_gt. nia.
  - injection H as <- <-. bv_value. rewrite leq_ule, Hz, Z.mod_0_l by lia. unfold bv_ule.
    pose proof (vn_bounds I n a Ha). destruct (Z.eqb_spec (vn I a) 0); symmetry; [apply Z.leb_le|apply Z.leb_gt]; lia.
Qed.

(** ** The rule for [srem] *)

Lemma srem_step n x c r2 :
  (0 < n)%nat -> fits n x -> 0 < c -> 0 < r2 -> Z.rem r2 c = 0 -> c + r2 - 1 < pow2 (n - 1) ->
  leq true n (bv_add n x (bv_mul n (pow2 n - 1) (Z.rem (sgn n x) c mod pow2 n))) (r2 mod pow2 n)
  = leq true n x (c + r2 - 1).
Proof.
  intros Hn Hx Hc Hr Hrem Hmax. unfold leq. cbn [sv]. pose proof (pow2_half n Hn). pose proof (pow2_pos n).
  pose proof (sgn_bounds n x Hn Hx) as Bx. set (S := sgn n x) in *.
  pose proof (Z.quot_rem S c ltac:(lia)) as Q.
  assert (Hq : - pow2 (n - 1) <= c * Z.quot S c < pow2 (n - 1)).
  { destruct (Z.le_gt_cases 0 S).
    - pose proof (Z.rem_bound_pos S c ltac:(lia) ltac:(lia)). pose proof (Z.quot_pos S c ltac:(lia) ltac:(lia)). nia.
    - pose proof (Z.rem_bound_pos_neg S c ltac:(lia) ltac:(lia)). lia. }
  assert (E : bv_add n x (bv_mul n (pow2 n - 1) (Z.rem S c mod pow2 n)) = (c * Z.quot S c) mod pow2 n).
  { unfold bv_add, bv_mul. rewrite Z.mul_mod_idemp_r by lia. rewrite Z.add_mod_idemp_r by lia.
    rewrite <- (sgn_mod n x Hx) at 1. fold S. rewrite Z.add_mod_idemp_l by lia.
    replace (S + (pow2 n - 1) * Z.rem S c) with (c * Z.quot S c + Z.rem S c * pow2 n) by lia. apply Z.mod_add. lia. }
  rewrite E. rewrite <- (sgn_unique n ((c * Z.quot S c) mod pow2 n) (c * Z.quot S c))
    by (done || apply mod_pow2_bound).
  assert (Hs : forall z, 0 <= z < pow2 (n - 1) -> sgn n z = z).
  { intros z Hz. unfold sgn. by rewrite (proj2 (Z.ltb_lt _ _)) by lia. }
  rewrite (Z.mod_small r2) by lia. rewrite !Hs by lia. pose proof (Z.quot_rem r2 c ltac:(lia)) as Qr. rewrite Hrem in Qr.
  apply eq_true_iff_eq. rewrite !Z.leb_le. split.
  - intros Hle. destruct (Z.le_gt_cases 0 S); [|lia]. pose proof (Z.rem_bound_pos S c ltac:(lia) ltac:(lia)). lia.
  - intros Hle. assert (Hlt : c * Z.quot S c < c * (Z.quot r2 c + 1)).
    { destruct (Z.le_gt_cases 0 S).
      - pose proof (Z.rem_bound_pos S c ltac:(lia) ltac:(lia)). lia.
      - pose proof (Z.rem_bound_pos_neg S c ltac:(lia) ltac:(lia)). lia. }
    apply (Z.mul_lt_mono_pos_l c) in Hlt; [|done]. assert (Z.quot S c <= Z.quot r2 c) as Hm by lia.
    apply (Z.mul_le_mono_nonneg_l _ _ c) in Hm; lia.
Qed.

Lemma mul2_ok n a b : bvx n (App OP_BMUL [a; b]) ->
  bvx n a /\ bvx n b /\ forall I, vn I (App OP_BMUL [a; b]) = bv_mul n (vn I a) (vn I b).
Proof.
  intros H. destruct (opn_inv OP_BMUL _ _ H) as (k & [= <-] & _ & HF). inv_Forall. split_and!; [done..|]. intros I.
  by rewrite (proj2 (holds_opn OP_BMUL n [a; b] ltac:(done) ltac:(by repeat constructor))).
Qed.

Lemma leq_srem_ok n s a b r2 w st r :
  bvx n a -> bvx n b -> is_numeral b = Some (r2, w) ->
  leq_srem s a (Some (bv_util.norm r2 w s)) = Some (st, r) ->
  same_bool r (fun I => leq s n (vn I a) (vn I b)).
Proof.
  intros Ha Hb Eb H. read_num. pose proof (bvx_pos n a Ha) as Hn. rewrite norm_sv in H by done.
  unfold leq_srem in H. destruct a as [o l]. destruct o; try done. destruct l as [|a1 [|[o2 l2] t]]; try done.
  destruct o2; try done. destruct l2 as [|a3 [|[o4 l4] t2]]; try done. destruct o4; try done.
  destruct l4 as [|a5 [|a6 [|? ?]]]; try done. destruct t2; [|done]. destruct t; [|done].
  destruct (is_numeral a3) as [[m1 w3]|] eqn:E3; [|done]. destruct (is_numeral a6) as [[c1 w6]|] eqn:E6; [|done].
  destruct (add2_ok n _ _ Ha) as (H1 & H2 & Va). destruct (mul2_ok n _ _ H2) as (H3 & H4 & Vm).
  destruct (op2_inv OP_BSREM_I _ _ H4) as (k & x5 & x6 & [= <- <-] & [= <-] & H5 & H6). read_num.
  destruct (_ && _) eqn:Eg; [|done]. injection H as <- <-. destruct s; [|done].
  repeat match goal with E : andb _ _ = true |- _ => apply andb_true_iff in E as [E ?] end. recog.
  rewrite !norm_sv in * by done. cbn [sv] in *.
  repeat match goal with E : (_ =? _) = true |- _ => apply Z.eqb_eq in E | E : (_ <? _) = true |- _ => apply Z.ltb_lt in E end.
  assert (m1 = pow2 n - 1) as ->.
  { match goal with E : sgn n m1 = -1, M : fits n m1 |- _ => rewrite <- (sgn_mod n m1 M), E
    | E : sgn n m1 = -1 |- _ => rewrite <- (sgn_mod n m1) by done; rewrite E end.
    symmetry. apply (Z.mod_unique_pos _ _ (-1)); pose proof (pow2_pos n); lia. }
  unfold bv_util.mk_sle. eapply same_bool_ext.
  { eapply (pred_same_bool OP_SLEQ n); [by apply holds_refl|by apply holds_num]. }
  intros I. cbn beta. rewrite <- leq_sle, Va, Vm, V.
  rewrite (proj2 (holds_op2 OP_BSREM_I n _ _ a5 _ (holds_refl n _ H5) (holds_refl n _ H6))).
  pose proof (pow2_half n Hn). pose proof (pow2_pos (n - 1)).
  assert (Hpos : forall z, fits n z -> 0 < sgn n z -> sgn n z = z).
  { intros z Fz Hz. rewrite <- (sgn_mod n z Fz) at 2. symmetry. apply Z.mod_small. pose proof (sgn_bounds n z Hn Fz). lia. }
  repeat match goal with V' : forall I, vn I _ = _ |- _ => rewrite V' end.
  pose proof (Hpos c1 ltac:(done) ltac:(done)) as Ec. pose proof (Hpos r2 ltac:(done) ltac:(done)) as Er. rewrite Ec, Er in *.
  rewrite (Z.mod_small (c1 + r2 - 1)) by lia. rewrite <- (srem_step n _ c1 r2) by (done || by apply fits_vn).
  unfold bv_srem. rewrite (proj2 (Z.eqb_neq c1 0)), Ec by lia. by rewrite (Z.mod_small r2) by lia.
Qed.

(** ** Comparisons of sums and of concatenations, and the whole rule

    Sums that differ in their numeral, concatenations with numerals in front
    or with a common beginning or end, and then [mk_leq_core] and the six
    comparison operators. *)
Import bv_rewriter.

(** ** Sums *)

Definition sumz (l : list Z) : Z := foldr Z.add 0 l.

Lemma fold_add n l a : fits n a -> fold_left (bv_add n) l a = (a + sumz l) mod pow2 n.
Proof.
  revert a. induction l as [|b l IH]; intros a Ha; simpl.
  - rewrite Z.add_0_r. symmetry. by apply Z.mod_small.
  - rewrite IH by (apply Z.mod_pos_bound, pow2_pos). unfold bv_add.
    rewrite Z.add_mod_idemp_l by (pose proof (pow2_pos n); lia). f_equal. lia.
Qed.

Lemma holds_sum n args :
  args <> [] -> Forall (bvx n) args ->
  holds n (fun I => sumz (map (vn I) args) mod pow2 n) (App OP_BADD args).
Proof.
  intros Hne HF. eapply holds_ext; [by apply (holds_opn OP_BADD)|]. intros I. cbn beta.
  destruct HF as [|a args Ha HF]; [done|]. simpl. by rewrite fold_add by (by apply fits_vn).
Qed.

Lemma same_args_eq l k : length l = length k -> same_args l k = true -> l = k.
Proof.
  revert k. induction l as [|a l IH]; intros [|b k]; simpl; try done.
  intros [= L] [E H]%andb_true_iff. apply bool_decide_eq_true in E as ->. by rewrite (IH k L H).
Qed.

(** A sum is its leading numeral plus the rest. *)
Lemma sum_parts n args :
  Forall (bvx n) args ->
  fits n (default 0 (leading_num args)) /\
  forall I, sumz (map (vn I) args)
    = default 0 (leading_num args) + sumz (map (vn I) (drop (skip_num (leading_num args)) args)).
Proof.
  pose proof (pow2_pos n) as P. intros HF. destruct HF as [|a args Ha HF]; simpl; [split; [unfold fits; lia|done]|].
  destruct (is_numeral a) as [[v w]|] eqn:E; simpl.
  - read_num. split; [done|]. intros I. by rewrite V, drop_0.
  - split; [unfold fits; lia|done].
Qed.

Lemma are_eq_upto_num_ok n a b c x y :
  bvx n a -> bvx n b -> a <> b -> are_eq_upto_num a b = Some (c, x, y) ->
  exists X, holds n X c /\ fits n x /\ fits n y /\
    forall I, vn I a = (x + X I) mod pow2 n /\ vn I b = (y + X I) mod pow2 n.
Proof.
  intros Ha Hb Hne H. unfold are_eq_upto_num in H. destruct (bv_util.is_bv_add a) as [la|] eqn:Ea.
  2:{ destruct (bv_util.is_bv_add b); [done|]. by destruct (decide (a = b)). }
  destruct (bv_util.is_bv_add b) as [lb|] eqn:Eb; [|done].
  destruct a as [oa a], b as [ob b]. destruct oa; try done. destruct ob; try done. injection Ea as ->. injection Eb as ->.
  destruct (opn_inv OP_BADD _ _ Ha) as (k & [= <-] & Na & Fa). destruct (opn_inv OP_BADD _ _ Hb) as (k & [= <-] & Nb & Fb).
  destruct (sum_parts n la Fa) as [Bx Sx]. destruct (sum_parts n lb Fb) as [By Sy].
  set (ka := skip_num (leading_num la)) in *. set (kb := skip_num (leading_num lb)) in *.
  destruct (_ || _) eqn:E1; [done|]. apply orb_false_iff in E1 as [E1 _]. apply Nat.leb_gt in E1.
  destruct (Nat.eqb_spec (length la - ka) (length lb - kb)) as [E2|]; [|done]. cbn [negb] in H.
  destruct (same_args _ _) eqn:E3; [|done]. cbn [negb] in H. injection H as <- <- <-.
  apply same_args_eq in E3; [|by rewrite !length_drop].
  set (rest := drop ka la) in *.
  assert (Nr : rest <> []) by (intros E; apply (f_equal length) in E; unfold rest in E; rewrite length_drop in E; simpl in E; lia).
  assert (Fr : Forall (bvx n) rest) by (by apply Forall_drop).
  exists (fun I => sumz (map (vn I) rest) mod pow2 n). split_and!; [|done|done|].
  - pose proof (holds_sum n rest Nr Fr) as Hs. unfold rest, ka in *. destruct (leading_num la); cbn [skip_num] in *.
    + destruct (Nat.ltb_spec 2 (length la)); [exact Hs|]. destruct la as [|z0 [|t [|? ?]]]; simpl in *; try lia.
      eapply holds_ext; [apply holds_refl; by inv_Forall|]. intros I. simpl. rewrite Z.add_0_r. symmetry. apply Z.mod_small.
      apply (vn_bounds I n). by inv_Forall.
    + rewrite drop_0 in Hs |- *. exact Hs.
  - intros I. rewrite !Z.add_mod_idemp_r by (pose proof (pow2_pos n); lia).
    rewrite (proj2 (holds_sum n la Na Fa)), (proj2 (holds_sum n lb Nb Fb)), Sx, Sy. by rewrite <- E3.
Qed.

(** *** Comparing two sums of the same number *)

Lemma mod_sum n x X : fits n x -> fits n X -> (x + X) mod pow2 n = if x + X <? pow2 n then x + X else x + X - pow2 n.
Proof.
  unfold fits. intros Hx HX. destruct (Z.ltb_spec (x + X) (pow2 n)).
  - apply Z.mod_small. lia.
  - symmetry. apply (Z.mod_unique_pos _ _ 1); lia.
Qed.

Lemma ule_sums_lt n x y X : fits n x -> fits n y -> fits n X -> x < y ->
  bv_ule ((x + X) mod pow2 n) ((y + X) mod pow2 n) = bv_ule (y - x) ((y + X) mod pow2 n).
Proof.
  intros Hx Hy HX L. rewrite !mod_sum by done. unfold fits, bv_ule in *. apply eq_true_iff_eq. rewrite !Z.leb_le.
  repeat case_match; rewrite ?Z.ltb_lt, ?Z.ltb_ge in *; lia.
Qed.

Lemma ule_sums_gt n x y X : fits n x -> fits n y -> fits n X -> y < x ->
  bv_ule ((x + X) mod pow2 n) ((y + X) mod pow2 n) = bv_ule (pow2 n - x) X && bv_ule X (pow2 n - y - 1).
Proof.
  intros Hx Hy HX L. rewrite !mod_sum by done. unfold fits, bv_ule in *. apply eq_true_iff_eq. rewrite andb_true_iff, !Z.leb_le.
  repeat case_match; rewrite ?Z.ltb_lt, ?Z.ltb_ge in *; lia.
Qed.

Lemma rw_leq_overflow_ok n s a b st r :
  bvx n a -> bvx n b -> a <> b -> rw_leq_overflow s a b = Some (st, r) ->
  same_bool r (fun I => leq s n (vn I a) (vn I b)).
Proof.
  intros Ha Hb Hne H. unfold rw_leq_overflow in H. destruct s; [done|]. rewrite (get_bv_size_eq n a Ha) in H.
  destruct (are_eq_upto_num a b) as [[[c x] y]|] eqn:E; [|done].
  destruct (are_eq_upto_num_ok n a b c x y Ha Hb Hne E) as (X & Hc & Bx & By & V).
  pose proof (bvx_pos n a Ha) as Hn. pose proof (fun I => holds_bounds n X c I Hc) as BX.
  assert (Hnum : forall v, fits n v -> holds n (fun _ => v) (mk_numeral v n)).
  { intros v Bv. eapply holds_ext; [by apply holds_num|]. intros I. by apply Z.mod_small. }
  apply (same_bool_ext _ (fun I => bv_ule ((x + X I) mod pow2 n) ((y + X I) mod pow2 n))).
  2:{ intros I. destruct (V I) as [-> ->]. by rewrite leq_ule. }
  destruct (Z.eqb_spec x y) as [->|Nxy].
  { injection H as <- <-. eapply same_bool_ext; [apply same_true|]. intros I. unfold bv_ule. by rewrite Z.leb_refl. }
  destruct (Z.ltb_spec x y) as [L|L]; injection H as <- <-.
  - eapply same_bool_ext.
    + apply (pred_same_bool OP_ULEQ n); [apply Hnum; unfold fits in *; lia|apply (holds_refl n b Hb)].
    + intros I. cbn beta. destruct (V I) as [_ ->]. by rewrite ule_sums_lt by (done || apply BX).
  - assert (Bl : fits n (pow2 n - x)) by (unfold fits in *; lia). assert (Bu : fits n (pow2 n - y - 1)) by (unfold fits in *; lia).
    eapply same_bool_ext; [|intros I; symmetry; apply ule_sums_gt; [done..|apply BX|lia]].
    destruct (Z.eqb_spec (pow2 n - x) (pow2 n - y - 1)) as [El|_]; [|destruct (Z.eqb_spec y 0) as [->|]].
    + eapply same_bool_ext; [apply (same_bv_eq n); [exact Hc|by apply Hnum]|]. intros I. cbn beta. rewrite <- El.
      unfold bv_ule. apply eq_true_iff_eq. rewrite andb_true_iff, Z.eqb_eq, !Z.leb_le. lia.
    + eapply same_bool_ext; [apply (pred_same_bool OP_ULEQ n); [by apply Hnum|exact Hc]|]. intros I. cbn beta. specialize (BX I).
      unfold bv_ule. apply eq_true_iff_eq. rewrite andb_true_iff, !Z.leb_le. lia.
    + apply same_and2; [apply (pred_same_bool OP_ULEQ n (fun _ => pow2 n - x) X)|apply (pred_same_bool OP_ULEQ n X (fun _ => pow2 n - y - 1))];
        done || by apply Hnum.
Qed.

(** ** Concatenations *)

Lemma bvxs_app ns l1 l2 : bvxs ns (l1 ++ l2) -> exists ns1 ns2, ns = ns1 ++ ns2 /\ bvxs ns1 l1 /\ bvxs ns2 l2.
Proof. intros H. apply Forall2_app_inv_r in H as (ns1 & ns2 & H1 & H2 & ->). by exists ns1, ns2. Qed.

Lemma bvxs_inj ns ms l : bvxs ns l -> bvxs ms l -> ns = ms.
Proof.
  intros H. revert ms. induction H as [|n e ns l He _ IH]; intros ms H2; inversion H2 as [|m ? ms' ? Hm H2']; subst; [done|].
  f_equal; [by apply (bvx_inj n m e)|by apply IH].
Qed.

Lemma bvxs_pos ns l : bvxs ns l -> l <> [] -> (0 < sum_list ns)%nat.
Proof. intros [|n e ns' l' He _] Hne; [done|]. simpl. pose proof (bvx_pos n e He). lia. Qed.

Lemma concat_ok ns l : l <> [] -> bvxs ns l -> holds (sum_list ns) (fun I => catz ns (map (vn I) l)) (concat l).
Proof.
  intros Hne HF. destruct HF as [|n e ns l He HF]; [done|]. destruct HF as [|k f ns l Hf HF].
  - cbn [sum_list_with id concat]. rewrite Nat.add_0_r. eapply holds_ext; [by apply holds_refl|].
    intros I. simpl. rewrite pow2_0. lia.
  - apply (holds_concat (n :: k :: ns)); [done|]. by repeat constructor.
Qed.

Lemma catz_split I ns1 ns2 l1 l2 :
  bvxs ns1 l1 -> catz (ns1 ++ ns2) (map (vn I) (l1 ++ l2))
  = catz ns1 (map (vn I) l1) * pow2 (sum_list ns2) + catz ns2 (map (vn I) l2).
Proof. intros H1. rewrite map_app. apply catz_app. rewrite length_map. by apply (Forall2_length _ _ _ H1). Qed.

Lemma sum_list_split ns ms : sum_list (ns ++ ms) = (sum_list ns + sum_list ms)%nat.
Proof. induction ns as [|n ns IH]; simpl; lia. Qed.

(** *** Numerals in front *)

Lemma split_first v d S c : v * pow2 S + c = v / pow2 d * pow2 (d + S) + (v mod pow2 d * pow2 S + c).
Proof. rewrite pow2_add. pose proof (pow2_pos d). pose proof (Z.div_mod v (pow2 d) ltac:(lia)). nia. Qed.

(** What is left of a concatenation with the numeral [v] of [n0] bits in front. *)
Definition rest_value (v : Z) (d : nat) (ns : list nat) (l : list expr) (I : interp) : Z :=
  v mod pow2 d * pow2 (sum_list ns) + catz ns (map (vn I) l).

Lemma rest_fits v d ns l I : bvxs ns l -> fits (d + sum_list ns) (rest_value v d ns l I).
Proof.
  intros HF. unfold fits, rest_value. rewrite pow2_add. pose proof (catz_bounds I ns l HF).
  pose proof (Z.mod_pos_bound v (pow2 d) (pow2_pos d)). pose proof (pow2_pos (sum_list ns)). nia.
Qed.

Lemma chop_first_ok v n0 w ns e l :
  (w <= n0)%nat -> bvxs ns l -> (w < n0)%nat \/ l <> [] ->
  holds (n0 - w + sum_list ns) (rest_value v (n0 - w) ns l) (chop_first v n0 w (e :: l)).
Proof.
  intros Hw HF Hne. unfold chop_first. destruct (Nat.ltb_spec w n0) as [L|L]; cbn [drop].
  - eapply holds_ext; [apply (concat_ok ((n0 - w)%nat :: ns)); [done|]; constructor; [apply (holds_num (n0 - w) v); lia|exact HF]|].
    intros I. cbn [map catz]. by rewrite (proj2 (holds_num (n0 - w) v ltac:(lia))).
  - destruct Hne as [|Hne]; [lia|]. replace (n0 - w)%nat with 0%nat by lia.
    eapply holds_ext; [by apply concat_ok|]. intros I. unfold rest_value. rewrite drop_0, pow2_0, Z.mod_1_r. lia.
Qed.

Lemma high_part s v n0 w :
  (0 < w <= n0)%nat -> fits n0 v ->
  fits w (v / pow2 (n0 - w)) /\
  bv_util.norm (if (w <? n0)%nat then v / pow2 (n0 - w) else v) w s = sv s w (v / pow2 (n0 - w)).
Proof.
  intros Hw Hv. unfold fits in Hv. assert (B : fits w (v / pow2 (n0 - w))).
  { unfold fits. pose proof (pow2_pos (n0 - w)). split; [apply Z.div_pos; lia|]. apply Z.div_lt_upper_bound; [done|].
    rewrite <- pow2_add. replace (n0 - w + w)%nat with n0 by lia; lia. }
  split; [done|]. rewrite <- norm_sv by (lia || done). f_equal. destruct (Nat.ltb_spec w n0); [done|].
  replace (n0 - w)%nat with 0%nat by lia. by rewrite pow2_0, Z.div_1_r.
Qed.

Lemma leq_numerals_ok s ns ms a b st r :
  bvxs ns a -> bvxs ms b -> sum_list ns = sum_list ms -> a <> b -> leq_numerals s a b = Some (st, r) ->
  same_bool r (fun I => leq s (sum_list ns) (catz ns (map (vn I) a)) (catz ms (map (vn I) b))).
Proof.
  intros Fa Fb Es Hne H. destruct Fa as [|n0 a0 ns a Ha0 Fa]; [done|]. destruct Fb as [|m0 b0 ms b Hb0 Fb]; [done|].
  unfold leq_numerals in H. destruct (is_numeral a0) as [[af af_sz]|] eqn:Ea; [|done].
  destruct (is_numeral b0) as [[bf bf_sz]|] eqn:Eb; [|done]. read_num.
  pose proof (bvx_pos _ _ Ha0) as Pn. pose proof (bvx_pos _ _ Hb0) as Pm. set (w := Nat.min n0 m0) in *.
  destruct (high_part s af n0 w ltac:(lia) ltac:(done)) as [Ba Na].
  destruct (high_part s bf m0 w ltac:(lia) ltac:(done)) as [Bb Nb]. rewrite Na, Nb in H.
  simpl in Es. assert (Ek : (m0 - w + sum_list ms = n0 - w + sum_list ns)%nat) by lia.
  apply (same_bool_ext _ (fun I => leq s (w + (n0 - w + sum_list ns))
    (af / pow2 (n0 - w) * pow2 (n0 - w + sum_list ns) + rest_value af (n0 - w) ns a I)
    (bf / pow2 (m0 - w) * pow2 (n0 - w + sum_list ns) + rest_value bf (m0 - w) ms b I))).
  2:{ intros I. cbn [sum_list_with id map catz]. rewrite V, V0. unfold rest_value. rewrite <- split_first, <- Ek, <- split_first.
      f_equal. lia. }
  assert (J : forall I, leq s (w + (n0 - w + sum_list ns))
    (af / pow2 (n0 - w) * pow2 (n0 - w + sum_list ns) + rest_value af (n0 - w) ns a I)
    (bf / pow2 (m0 - w) * pow2 (n0 - w + sum_list ns) + rest_value bf (m0 - w) ms b I)
    = if af / pow2 (n0 - w) =? bf / pow2 (m0 - w)
      then bv_ule (rest_value af (n0 - w) ns a I) (rest_value bf (m0 - w) ms b I)
      else leq s w (af / pow2 (n0 - w)) (bf / pow2 (m0 - w))).
  { intros I. apply leq_join; [lia|done|done|by apply rest_fits|]. rewrite <- Ek. by apply rest_fits. }
  eapply same_bool_ext; [|intros I; symmetry; apply J]. clear J.
  destruct (Z.eqb_spec (sv s w (af / pow2 (n0 - w))) (sv s w (bf / pow2 (m0 - w)))) as [E|E]; injection H as <- <-.
  - apply (sv_inj s w) in E; [|done..]. rewrite E, Z.eqb_refl.
    assert (Hs : n0 = m0 -> a = [] -> b = [] -> False).
    { intros <- -> ->. assert (Ew : w = n0) by (unfold w; lia). rewrite Ew, Nat.sub_diag, pow2_0, !Z.div_1_r in E. congruence. }
    assert (Hl : ((w < n0)%nat \/ a <> []) /\ ((w < m0)%nat \/ b <> [])).
    { destruct a as [|a1 a], b as [|b1 b]; inversion Fa; inversion Fb; subst; simpl in *.
      - exfalso. apply Hs; done || lia.
      - pose proof (bvxs_pos _ _ Fb ltac:(done)). simpl in *. split; [left; lia|by right].
      - pose proof (bvxs_pos _ _ Fa ltac:(done)). simpl in *. split; [by right|left; lia].
      - split; by right. }
    eapply same_bool_ext; [apply (pred_same_bool OP_ULEQ (n0 - w + sum_list ns))|done].
    + apply chop_first_ok; [lia|done|apply Hl].
    + rewrite <- Ek. apply chop_first_ok; [lia|done|apply Hl].
  - rewrite (proj2 (Z.eqb_neq _ _)) by congruence. eapply same_bool_ext; [apply same_bool_val|]. intros I. cbn beta. unfold leq.
    apply eq_true_iff_eq. rewrite Z.ltb_lt, Z.leb_le. lia.
Qed.

(** *** A common beginning or end *)

Lemma common_prefix_spec a b :
  exists p a' b', a = p ++ a' /\ b = p ++ b' /\ length p = common_prefix a b.
Proof.
  revert b. induction a as [|x a IH]; intros [|y b]; simpl; [by exists [], [], []|by exists [], [], (y :: b)|by exists [], (x :: a), []|].
  destruct (m.are_equal x y) eqn:E; [|by exists [], (x :: a), (y :: b)]. apply bool_decide_eq_true in E as <-.
  destruct (IH b) as (p & a' & b' & -> & -> & L). exists (x :: p), a', b'. simpl. by rewrite L.
Qed.

Lemma common_postfix_spec a b :
  exists a' b' p, a = a' ++ p /\ b = b' ++ p /\ length p = common_prefix (rev a) (rev b).
Proof.
  destruct (common_prefix_spec (rev a) (rev b)) as (p & a' & b' & Ea & Eb & L). exists (rev a'), (rev b'), (rev p).
  rewrite <- !rev_app_distr, <- Ea, <- Eb, !rev_involutive, length_rev. done.
Qed.

(** Concatenations of one width that share a part have other parts of one width. *)
Lemma same_parts ns ms a b :
  bvxs ns a -> bvxs ms b -> sum_list ns = sum_list ms -> a <> b -> (a = [] \/ b = []) -> False.
Proof.
  intros Fa Fb Es Hne Hemp. destruct a as [|x a], b as [|y b]; try done; [| |by destruct Hemp].
  - pose proof (bvxs_pos _ _ Fb ltac:(done)). inversion Fa; subst. simpl in *. lia.
  - pose proof (bvxs_pos _ _ Fa ltac:(done)). inversion Fb; subst. simpl in *. lia.
Qed.

Lemma leq_prefix_ok s ns ms a b st r :
  bvxs ns a -> bvxs ms b -> sum_list ns = sum_list ms -> a <> b -> leq_prefix a b = Some (st, r) ->
  same_bool r (fun I => leq s (sum_list ns) (catz ns (map (vn I) a)) (catz ms (map (vn I) b))).
Proof.
  intros Fa Fb Es Hne H. unfold leq_prefix in H. destruct (common_prefix_spec a b) as (p & a' & b' & -> & -> & L).
  rewrite <- L in H. apply bvxs_app in Fa as (k & ka & -> & Fp & Fa). apply bvxs_app in Fb as (k' & kb & -> & Fp' & Fb).
  pose proof (bvxs_inj _ _ _ Fp Fp') as <-. rewrite !sum_list_split in Es.
  assert (Hne' : a' <> b') by congruence. pose proof (same_parts ka kb a' b' Fa Fb ltac:(lia) Hne') as Hpart.
  destruct (Nat.eqb_spec (length p) (length (p ++ a'))) as [E|_].
  { exfalso. apply Hpart. left. rewrite length_app in E. destruct a'; simpl in *; [done|lia]. }
  destruct (Nat.ltb_spec 0 (length p)) as [Hp|]; [|done]. injection H as <- <-. rewrite !drop_app_length.
  assert (Pk : (0 < sum_list k)%nat) by (apply (bvxs_pos _ _ Fp); by destruct p; simpl in *; [lia|]).
  assert (Ek : sum_list kb = sum_list ka) by lia.
  eapply same_bool_ext.
  - apply (pred_same_bool OP_ULEQ (sum_list ka)); [|rewrite <- Ek]; (apply concat_ok; [|done]); intros ->; apply Hpart; auto.
  - intros I. cbn beta. rewrite sum_list_split, !catz_split, Ek by done.
    pose proof (catz_bounds I _ _ Fp). pose proof (catz_bounds I _ _ Fa). pose proof (catz_bounds I _ _ Fb) as Bb. rewrite Ek in Bb.
    by rewrite leq_join, Z.eqb_refl by done.
Qed.

Lemma leq_postfix_ok s ns ms a b st r :
  bvxs ns a -> bvxs ms b -> sum_list ns = sum_list ms -> a <> b -> leq_postfix s a b = Some (st, r) ->
  same_bool r (fun I => leq s (sum_list ns) (catz ns (map (vn I) a)) (catz ms (map (vn I) b))).
Proof.
  intros Fa Fb Es Hne H. unfold leq_postfix in H. destruct (common_postfix_spec a b) as (a' & b' & p & -> & -> & L).
  rewrite <- L in H. apply bvxs_app in Fa as (ka & k & -> & Fa & Fp). apply bvxs_app in Fb as (kb & k' & -> & Fb & Fp').
  pose proof (bvxs_inj _ _ _ Fp Fp') as <-. rewrite !sum_list_split in Es.
  assert (Hne' : a' <> b') by congruence. pose proof (same_parts ka kb a' b' Fa Fb ltac:(lia) Hne') as Hpart.
  rewrite !length_app in H. replace (length a' + length p - length p)%nat with (length a') in H by lia.
  replace (length b' + length p - length p)%nat with (length b') in H by lia. rewrite !take_app_length in H.
  destruct (Nat.eqb_spec (length a') 0) as [E|Ea].
  { exfalso. apply Hpart. left. by destruct a'. }
  destruct (negb _); [|done]. injection H as <- <-.
  assert (Pa : (0 < sum_list ka)%nat) by (apply (bvxs_pos _ _ Fa); by intros ->).
  assert (Ek : sum_list kb = sum_list ka) by lia.
  assert (Ha : holds (sum_list ka) (fun I => catz ka (map (vn I) a')) (concat a')) by (apply concat_ok; [by intros ->|done]).
  assert (Hb : holds (sum_list ka) (fun I => catz kb (map (vn I) b')) (concat b')).
  { rewrite <- Ek. apply concat_ok; [|done]. intros ->. apply Hpart. auto. }
  apply (same_bool_ext _ (fun I => leq s (sum_list ka) (catz ka (map (vn I) a')) (catz kb (map (vn I) b')))).
  - destruct s; [by apply (pred_same_bool OP_SLEQ (sum_list ka))|by apply (pred_same_bool OP_ULEQ (sum_list ka))].
  - intros I. rewrite sum_list_split, !catz_split by done.
    pose proof (catz_bounds I _ _ Fp). pose proof (catz_bounds I _ _ Fa). pose proof (catz_bounds I _ _ Fb) as Bb. rewrite Ek in Bb.
    by rewrite leq_join_low.
Qed.

Lemma orelse_Some r1 r2 x : orelse r1 r2 = Some x -> r1 = Some x \/ r2 = Some x.
Proof. destruct r1; simpl; auto. Qed.

Lemma rw_leq_concats_ok n s a b st r :
  bvx n a -> bvx n b -> a <> b -> rw_leq_concats s a b = Some (st, r) ->
  same_bool r (fun I => leq s n (vn I a) (vn I b)).
Proof.
  intros Ha Hb Hne H. unfold rw_leq_concats in H. destruct a as [oa a]. destruct oa; try done.
  destruct b as [ob b]. destruct ob; try done. cbn [bv_util.is_concat] in H.
  destruct (concat_inv _ _ Ha) as (ns & Na & Fa & [= ->]). destruct (concat_inv _ _ Hb) as (ms & Nb & Fb & [= Es]).
  assert (Hne' : a <> b) by congruence.
  apply (same_bool_ext _ (fun I => leq s (sum_list ns) (catz ns (map (vn I) a)) (catz ms (map (vn I) b)))).
  - apply orelse_Some in H as [H|[H|H]%orelse_Some].
    + by apply (leq_numerals_ok s ns ms a b st).
    + by apply (leq_prefix_ok s ns ms a b st).
    + by apply (leq_postfix_ok s ns ms a b st).
  - intros I. rewrite (proj2 (holds_concat ns a Na Fa)), (proj2 (holds_concat ms b Nb Fb)). done.
Qed.

(** ** The whole rule *)

Lemma leq_right_num_ok n s a b r2 w st r :
  bvx n a -> bvx n b -> is_numeral b = Some (r2, w) ->
  (if bv_util.norm r2 w s =? (if s then - pow2 (w - 1) else 0) then Some (BR_REWRITE1, m.mk_eq a b)
   else if bv_util.norm r2 w s =? (if s then pow2 (w - 1) - 1 else pow2 w - 1) then Some (BR_DONE, m.mk_true) else None)
  = Some (st, r) -> same_bool r (fun I => leq s n (vn I a) (vn I b)).
Proof.
  intros Ha Hb Eb H. read_num. pose proof (bvx_pos n a Ha) as Hn. rewrite norm_sv in H by done.
  change (if s then _ else 0) with (lower s n) in H. change (if s then _ else pow2 n - 1) with (upper s n) in H.
  destruct (Z.eqb_spec (sv s n r2) (lower s n)) as [E|_]; [|destruct (Z.eqb_spec (sv s n r2) (upper s n)) as [E|_]; [|done]];
    injection H as <- <-.
  - eapply same_bool_ext; [apply (same_bv_eq n); by apply holds_refl|]. intros I. cbn beta. symmetry.
    apply leq_lower; [done|by apply fits_vn..|by rewrite V].
  - eapply same_bool_ext; [apply same_true|]. intros I. cbn beta. symmetry.
    apply leq_to_upper; [done|by apply fits_vn|by rewrite V].
Qed.

Lemma leq_left_num_ok n s a b r1 w st r :
  bvx n a -> bvx n b -> is_numeral a = Some (r1, w) ->
  (if bv_util.norm r1 w s =? (if s then - pow2 (w - 1) else 0) then Some (BR_DONE, m.mk_true)
   else if bv_util.norm r1 w s =? (if s then pow2 (w - 1) - 1 else pow2 w - 1) then Some (BR_REWRITE1, m.mk_eq a b) else None)
  = Some (st, r) -> same_bool r (fun I => leq s n (vn I a) (vn I b)).
Proof.
  intros Ha Hb Eb H. read_num. pose proof (bvx_pos n b Hb) as Hn. rewrite norm_sv in H by done.
  change (if s then _ else 0) with (lower s n) in H. change (if s then _ else pow2 n - 1) with (upper s n) in H.
  destruct (Z.eqb_spec (sv s n r1) (lower s n)) as [E|_]; [|destruct (Z.eqb_spec (sv s n r1) (upper s n)) as [E|_]; [|done]];
    injection H as <- <-.
  - eapply same_bool_ext; [apply same_true|]. intros I. cbn beta. symmetry.
    apply leq_from_lower; [done|by apply fits_vn|by rewrite V].
  - eapply same_bool_ext; [apply (same_bv_eq n); by apply holds_refl|]. intros I. cbn beta. symmetry.
    apply leq_upper; [done|by apply fits_vn..|by rewrite V].
Qed.

Section Core.
Context (cfg : params).

Lemma mk_leq_core_ok n s a b st r :
  bvx n a -> bvx n b -> mk_leq_core cfg s a b = Some (st, r) ->
  same_bool r (fun I => leq s n (vn I a) (vn I b)).
Proof.
  intros Ha Hb H. unfold mk_leq_core in H. pose proof (bvx_pos n a Ha) as Hn.
  destruct (decide (a = b)) as [<-|Hne].
  { injection H as <- <-. eapply same_bool_ext; [apply same_true|]. intros I. unfold leq. by rewrite Z.leb_refl. }
  assert (Hrest : forall num, (forall x, num = Some x -> exists r2 w, is_numeral b = Some (r2, w) /\ x = bv_util.norm r2 w s) ->
    orelse (leq_srem s a num)
      (orelse (if m_le_extra cfg then rw_leq_concats s a b else None)
      (orelse (if m_le_extra cfg then rw_leq_overflow s a b else None) (leq_zero_bits s a b))) = Some (st, r) ->
    same_bool r (fun I => leq s n (vn I a) (vn I b))).
  { intros num Hnum [E|[E|[E|E]%orelse_Some]%orelse_Some]%orelse_Some.
    - destruct num as [x|]; [|done]. destruct (Hnum x eq_refl) as (r2 & w & Eb & ->). by apply (leq_srem_ok n s a b r2 w st).
    - destruct (m_le_extra cfg); [|done]. by apply (rw_leq_concats_ok n s a b st).
    - destruct (m_le_extra cfg); [|done]. by apply (rw_leq_overflow_ok n s a b st).
    - by apply (leq_zero_bits_ok n s a b st). }
  destruct (is_numeral a) as [[ra za]|] eqn:Ea; destruct (is_numeral b) as [[rb zb]|] eqn:Eb; cbn [mbind option_bind] in H; cbv zeta in H.
  - read_num. injection H as <- <-. rewrite !norm_sv by done. eapply same_bool_ext; [apply same_bool_val|].
    intros I. cbn beta. by rewrite V, V0.
  - apply orelse_Some in H as [H|[H|H]%orelse_Some]; [done|by apply (leq_left_num_ok n s a b ra za st)|].
    by apply (Hrest None).
  - apply orelse_Some in H as [H|[H|H]%orelse_Some]; [by apply (leq_right_num_ok n s a b rb zb st)|done|].
    apply (Hrest _) in H; [done|]. intros x [= <-]. eauto.
  - apply orelse_Some in H as [H|[H|H]%orelse_Some]; [done..|]. by apply (Hrest None).
Qed.

(** *** The operators *)

Lemma bv_ule_ok a b st r : mk_ule cfg a b = Some (st, r) -> bv_util.mk_ule a b ~> r.
Proof. intros H. apply (rewrites_pred OP_ULEQ). intros n Ha Hb. by apply (mk_leq_core_ok n false a b st). Qed.

Lemma bv_sle_ok a b st r : mk_sle cfg a b = Some (st, r) -> bv_util.mk_sle a b ~> r.
Proof. intros H. apply (rewrites_pred OP_SLEQ). intros n Ha Hb. by apply (mk_leq_core_ok n true a b st). Qed.

Lemma mk_uge_ok a b st r : mk_uge cfg a b = Some (st, r) -> App OP_UGEQ [a; b] ~> r.
Proof.
  intros H. apply (rewrites_pred OP_UGEQ). intros n Ha Hb. apply orelse_Some in H as [H|[= <- <-]].
  - by apply (mk_leq_core_ok n false b a st).
  - by apply (pred_same_bool OP_ULEQ n); apply holds_refl.
Qed.

Lemma mk_sge_ok a b st r : mk_sge cfg a b = Some (st, r) -> App OP_SGEQ [a; b] ~> r.
Proof.
  intros H. apply (rewrites_pred OP_SGEQ). intros n Ha Hb. apply orelse_Some in H as [H|[= <- <-]].
  - by apply (mk_leq_core_ok n true b a st).
  - by apply (pred_same_bool OP_SLEQ n); apply holds_refl.
Qed.
End Core.

Lemma mk_ult_ok a b st r : mk_ult a b = Some (st, r) -> App OP_ULT [a; b] ~> r.
Proof.
  intros [= <- <-]. apply (rewrites_pred OP_ULT). intros n Ha Hb. apply same_not.
  by apply (pred_same_bool OP_ULEQ n); apply holds_refl.
Qed.

Lemma mk_slt_ok a b st r : mk_slt a b = Some (st, r) -> App OP_SLT [a; b] ~> r.
Proof.
  intros [= <- <-]. apply (rewrites_pred OP_SLT). intros n Ha Hb. apply same_not.
  by apply (pred_same_bool OP_SLEQ n); apply holds_refl.
Qed.
