(* ===== verification/PolyRewriterSound.v ===== *)
(** * PolyRewriterSound: the rules for sums and products are sound

    Each rule keeps the sum, or the product, of its arguments modulo the power
    of two: flattening, products, sums of monomials, common coefficients and
    common factors.  The sorting functions need only permute. *)
From Stdlib Require Import ZArith Lia Morphisms Setoid.
From stdpp Require Import base list.
From S2P Require Import Prelude Bits UBits Ast BvUtil AstFacts TermFacts BvTerms BoolRewriter BvRewriter PolyRewriter.
From S2P Require Import BvRewriterDiv BvRewriterExtract BvRewriterCmp.
(** ** Sums and products modulo a power of two

    Congruence modulo [2 ^ n] as a setoid, and terms that denote an integer
    modulo their width.  A sum or a product of terms denotes that of the values,
    so that rules for sums need not say where the reductions happen. *)
Local Open Scope Z_scope.

(** ** Congruence *)

Definition eqm (n : nat) (x y : Z) : Prop := x mod pow2 n = y mod pow2 n.

#[export] Instance eqm_equivalence n : Equivalence (eqm n).
Proof. split; unfold eqm; [by intros x|by intros x y|by intros x y z -> ->]. Qed.

#[export] Instance add_eqm n : Proper (eqm n ==> eqm n ==> eqm n) Z.add.
Proof. intros a b H c d K. unfold eqm in *. by rewrite Zplus_mod, H, K, <- Zplus_mod. Qed.

#[export] Instance mul_eqm n : Proper (eqm n ==> eqm n ==> eqm n) Z.mul.
Proof. intros a b H c d K. unfold eqm in *. by rewrite Zmult_mod, H, K, <- Zmult_mod. Qed.

#[export] Instance sub_eqm n : Proper (eqm n ==> eqm n ==> eqm n) Z.sub.
Proof. intros a b H c d K. unfold eqm in *. by rewrite Zminus_mod, H, K, <- Zminus_mod. Qed.

#[export] Instance opp_eqm n : Proper (eqm n ==> eqm n) Z.opp.
Proof. intros a b H. rewrite <- !Z.sub_0_l. by rewrite H. Qed.

Lemma eqm_mod n x : eqm n (x mod pow2 n) x.
Proof. unfold eqm. apply Z.mod_mod. pose proof (pow2_pos n). lia. Qed.

Lemma eqm_eq n x y : x = y -> eqm n x y.
Proof. by intros ->. Qed.

Lemma eqm_small n x y : fits n x -> fits n y -> eqm n x y -> x = y.
Proof. unfold eqm, fits. intros Hx Hy. by rewrite !Z.mod_small. Qed.

(** ** Sums and products of lists *)

Definition prodz (l : list Z) : Z := foldr Z.mul 1 l.
#[global] Arguments prodz : simpl never.

Lemma prodz_cons a l : prodz (a :: l) = a * prodz l.
Proof. done. Qed.

Lemma sumz_app l k : sumz (l ++ k) = sumz l + sumz k.
Proof. induction l as [|a l IH]; simpl; [done|]. rewrite IH. lia. Qed.

Lemma prodz_app l k : prodz (l ++ k) = prodz l * prodz k.
Proof. induction l as [|a l IH]; [unfold prodz at 2; simpl; lia|]. rewrite <- app_comm_cons, !prodz_cons, IH. lia. Qed.

#[export] Instance sumz_perm : Proper ((≡ₚ) ==> (=)) sumz.
Proof. induction 1; simpl; lia. Qed.

#[export] Instance prodz_perm : Proper ((≡ₚ) ==> (=)) prodz.
Proof. induction 1; rewrite ?prodz_cons; lia. Qed.

Lemma fold_left_add l a : fold_left Z.add l a = a + sumz l.
Proof. revert a. induction l as [|b l IH]; intros a; simpl; [lia|]. rewrite IH. lia. Qed.

Lemma fold_left_mul l a : fold_left Z.mul l a = a * prodz l.
Proof. revert a. induction l as [|b l IH]; intros a; simpl; [unfold prodz; simpl; lia|]. rewrite IH, prodz_cons. lia. Qed.

Lemma fold_bv_mul n l a : eqm n (fold_left (bv_mul n) l a) (a * prodz l).
Proof.
  revert a. induction l as [|b l IH]; intros a; simpl; [apply eqm_eq; unfold prodz; simpl; lia|]. rewrite IH, prodz_cons.
  unfold bv_mul. rewrite eqm_mod. apply eqm_eq. lia.
Qed.

Lemma sumz_mul c l : sumz (map (Z.mul c) l) = c * sumz l.
Proof. induction l as [|a l IH]; simpl; lia. Qed.

(** ** Terms that denote an integer *)

Definition den (n : nat) (F : interp -> Z) (e : expr) : Prop := bvx n e /\ forall I, eqm n (vn I e) (F I).

Lemma den_ext n F G e : den n F e -> (forall I, eqm n (F I) (G I)) -> den n G e.
Proof. intros [B H] E. split; [done|]. intros I. by rewrite H. Qed.

Lemma den_refl n e : bvx n e -> den n (fun I => vn I e) e.
Proof. by split. Qed.

Lemma den_holds n F e : den n F e -> holds n (fun I => F I mod pow2 n) e.
Proof.
  intros [B H]. split; [done|]. intros I. rewrite <- H. symmetry. by apply Z.mod_small, vn_bounds.
Qed.

Lemma holds_den n F e : holds n F e -> den n F e.
Proof. intros [B H]. split; [done|]. intros I. by rewrite H. Qed.

Lemma holds_den_mod n F e : holds n (fun I => F I mod pow2 n) e -> den n F e.
Proof. intros H%holds_den. eapply den_ext; [done|]. intros I. apply eqm_mod. Qed.

Lemma den_num n v : (0 < n)%nat -> den n (fun _ => v) (mk_numeral v n).
Proof. intros Hn. by apply holds_den_mod, holds_num. Qed.

Lemma den_sum n args : args <> [] -> Forall (bvx n) args -> den n (fun I => sumz (map (vn I) args)) (App OP_BADD args).
Proof. intros Hne HF. by apply holds_den_mod, holds_sum. Qed.

Lemma den_prod n args : args <> [] -> Forall (bvx n) args -> den n (fun I => prodz (map (vn I) args)) (App OP_BMUL args).
Proof.
  intros Hne HF. destruct (holds_opn OP_BMUL n args Hne HF) as [B V]. split; [done|]. intros I. rewrite V.
  destruct args as [|a args]; [done|]. simpl. by rewrite fold_bv_mul.
Qed.

(** Lists of terms that add up, or multiply, to a value. *)
Definition sums (n : nat) (F : interp -> Z) (l : list expr) : Prop :=
  Forall (bvx n) l /\ forall I, eqm n (sumz (map (vn I) l)) (F I).

Definition prods (n : nat) (F : interp -> Z) (l : list expr) : Prop :=
  Forall (bvx n) l /\ forall I, eqm n (prodz (map (vn I) l)) (F I).

Lemma sums_ext n F G l : sums n F l -> (forall I, eqm n (F I) (G I)) -> sums n G l.
Proof. intros [B H] E. split; [done|]. intros I. by rewrite H. Qed.

Lemma prods_ext n F G l : prods n F l -> (forall I, eqm n (F I) (G I)) -> prods n G l.
Proof. intros [B H] E. split; [done|]. intros I. by rewrite H. Qed.

Lemma sums_refl n l : Forall (bvx n) l -> sums n (fun I => sumz (map (vn I) l)) l.
Proof. by split. Qed.

Lemma prods_refl n l : Forall (bvx n) l -> prods n (fun I => prodz (map (vn I) l)) l.
Proof. by split. Qed.

Lemma sums_nil n : sums n (fun _ => 0) [].
Proof. by split. Qed.

Lemma prods_nil n : prods n (fun _ => 1) [].
Proof. by split. Qed.

Lemma sums_cons n F G e l : den n F e -> sums n G l -> sums n (fun I => F I + G I) (e :: l).
Proof. intros [Be He] [Bl Hl]. split; [by constructor|]. intros I. simpl. by rewrite He, Hl. Qed.

Lemma prods_cons n F G e l : den n F e -> prods n G l -> prods n (fun I => F I * G I) (e :: l).
Proof.
  intros [Be He] [Bl Hl]. split; [by constructor|]. intros I. simpl. by rewrite prodz_cons, He, Hl.
Qed.

Lemma sums_app n F G l k : sums n F l -> sums n G k -> sums n (fun I => F I + G I) (l ++ k).
Proof.
  intros [Bl Hl] [Bk Hk]. split; [by apply Forall_app|]. intros I. by rewrite map_app, sumz_app, Hl, Hk.
Qed.

Lemma prods_app n F G l k : prods n F l -> prods n G k -> prods n (fun I => F I * G I) (l ++ k).
Proof.
  intros [Bl Hl] [Bk Hk]. split; [by apply Forall_app|]. intros I. by rewrite map_app, prodz_app, Hl, Hk.
Qed.

Lemma sums_perm n F l k : l ≡ₚ k -> sums n F k -> sums n F l.
Proof. intros P [Bk Hk]. split; [by rewrite P|]. intros I. by rewrite P. Qed.

Lemma prods_perm n F l k : l ≡ₚ k -> prods n F k -> prods n F l.
Proof. intros P [Bk Hk]. split; [by rewrite P|]. intros I. by rewrite P. Qed.

Lemma den_of_sums n F l : l <> [] -> sums n F l -> den n F (App OP_BADD l).
Proof. intros Hne [B H]. eapply den_ext; [by apply den_sum|]. exact H. Qed.

Lemma den_of_prods n F l : l <> [] -> prods n F l -> den n F (App OP_BMUL l).
Proof. intros Hne [B H]. eapply den_ext; [by apply den_prod|]. exact H. Qed.

(** How a rule for sums or products is shown sound. *)
Lemma rewrites_sum args r :
  (forall n, args <> [] -> Forall (bvx n) args -> den n (fun I => sumz (map (vn I) args)) r) -> App OP_BADD args ~> r.
Proof.
  intros H. apply (rewrites_opn OP_BADD). intros n Hne HF. destruct (den_holds _ _ _ (H n Hne HF)) as [B V].
  eapply holds_ext; [split; [exact B|exact V]|]. intros I. cbn beta. destruct HF as [|a l Ha HF]; [done|]. simpl.
  by rewrite fold_add by (by apply fits_vn).
Qed.

Lemma rewrites_prod args r :
  (forall n, args <> [] -> Forall (bvx n) args -> den n (fun I => prodz (map (vn I) args)) r) -> App OP_BMUL args ~> r.
Proof.
  intros H. apply (rewrites_opn OP_BMUL). intros n Hne HF. destruct (H n Hne HF) as [B V]. split; [done|]. intros I.
  destruct (den_prod n args Hne HF) as [Bp Vp]. destruct (holds_opn OP_BMUL n args Hne HF) as [_ Vo]. rewrite <- Vo.
  eapply eqm_small; [by apply fits_vn..|]. by rewrite V, Vp.
Qed.

Import bv_rewriter poly_rewriter.

(** ** Recognizers *)

Lemma num_val n e v : bvx n e -> num e = Some v -> fits n v /\ forall I, vn I e = v.
Proof.
  intros He H. unfold num in H. destruct (is_numeral e) as [[u w]|] eqn:E; [|done]. read_num. by injection H as ->.
Qed.

Lemma is_num_num e : is_num e = holds_of (num e).
Proof. unfold is_num, num. by destruct (is_numeral e) as [[? ?]|]. Qed.

Lemma is_add_Some e l : is_add e = Some l -> e = App OP_BADD l.
Proof. destruct e as [o k]. by destruct o; try done; intros [= ->]. Qed.

Lemma is_mul_Some e l : is_mul e = Some l -> e = App OP_BMUL l.
Proof. destruct e as [o k]. by destruct o; try done; intros [= ->]. Qed.

Lemma is_add_sums n e l : bvx n e -> is_add e = Some l -> sums n (fun I => vn I e) l /\ l <> [].
Proof.
  intros He ->%is_add_Some. destruct (opn_inv OP_BADD _ _ He) as (k & [= <-] & Hne & HF). split; [|done].
  split; [done|]. intros I. by rewrite (proj2 (den_sum n l Hne HF)).
Qed.

Lemma is_mul_prods n e l : bvx n e -> is_mul e = Some l -> prods n (fun I => vn I e) l /\ l <> [].
Proof.
  intros He ->%is_mul_Some. destruct (opn_inv OP_BMUL _ _ He) as (k & [= <-] & Hne & HF). split; [|done].
  split; [done|]. intros I. by rewrite (proj2 (den_prod n l Hne HF)).
Qed.

Lemma is_mul_num_ok n t c pp :
  bvx n t -> is_mul_num t = Some (c, pp) -> bvx n pp /\ fits n c /\ forall I, eqm n (vn I t) (c * vn I pp).
Proof.
  intros Ht H. destruct t as [o l]. destruct o; try done. destruct l as [|a [|b [|? ?]]]; try done. simpl in H.
  destruct (num a) as [v|] eqn:E; [|done]. injection H as <- <-.
  destruct (is_mul_prods n _ _ Ht eq_refl) as [[HF Hv] _]. inv_Forall. destruct (num_val n a v) as [Fv Va]; [done..|].
  split_and!; [done..|]. intros I. rewrite <- Hv. simpl. rewrite !prodz_cons, Va. apply eqm_eq. unfold prodz. simpl. lia.
Qed.

Lemma power_product_ok n t a pp :
  bvx n t -> get_power_product t = (a, pp) -> bvx n pp /\ forall I, eqm n (vn I t) (a * vn I pp).
Proof.
  intros Ht H. unfold get_power_product in H. destruct (is_mul_num t) as [[c x]|] eqn:E; simpl in H; injection H as <- <-.
  - by destruct (is_mul_num_ok n t c x Ht E) as (? & _ & ?).
  - split; [done|]. intros I. apply eqm_eq. lia.
Qed.

(** ** Constructors *)

Section Constructors.
Context (n : nat) (Hn : (0 < n)%nat).

Lemma mk_add_app_ok F l : sums n F l -> den n F (mk_add_app n l).
Proof.
  intros Hs. destruct l as [|a [|b l]]; [| |by apply den_of_sums].
  - eapply den_ext; [by apply den_num|]. apply Hs.
  - destruct Hs as [HF V]. inv_Forall. split; [done|]. intros I. rewrite <- V. apply eqm_eq. simpl. lia.
Qed.

Lemma mk_mul_app_ok F l : prods n F l -> den n F (mk_mul_app n l).
Proof.
  intros Hs. destruct l as [|a [|b l]]; [| |by apply den_of_prods].
  - eapply den_ext; [by apply den_num|]. apply Hs.
  - destruct Hs as [HF V]. inv_Forall. split; [done|]. intros I. rewrite <- V. apply eqm_eq. simpl.
    rewrite prodz_cons. unfold prodz. simpl. lia.
Qed.

Lemma normalize_ok c : eqm n (normalize n c) c.
Proof. apply eqm_mod. Qed.

Lemma mk_cmul_app_ok F c e : den n F e -> den n (fun I => c * F I) (mk_cmul_app n c e).
Proof.
  intros He. unfold mk_cmul_app. destruct (Z.eqb_spec c 1) as [->|]; [eapply den_ext; [done|]; intros I; apply eqm_eq; lia|].
  destruct (bv_util.is_zero e) eqn:Ez.
  - eapply den_ext; [done|]. intros I. destruct He as [Be Ve]. rewrite <- Ve. unfold bv_util.is_zero in Ez.
    destruct (is_numeral e) as [[v w]|] eqn:E; [|done]. read_num. apply Z.eqb_eq in Ez as ->. rewrite V. apply eqm_eq. lia.
  - eapply den_ext; [apply mk_mul_app_ok, prods_cons; [by apply den_num|]|].
    + apply prods_cons; [done|apply prods_nil].
    + intros I. apply eqm_eq. simpl. lia.
Qed.
End Constructors.

#[local] Arguments mk_mul_app : simpl never.
#[local] Arguments mk_add_app : simpl never.

(** ** Buffers *)

Section Buffer.
Context (tester : expr -> option (list expr)).

(** Induction on the run of [TO_BUFFER]. *)
Lemma to_buffer_ind (P : list expr -> list expr -> Prop) :
  (forall l, P l l) ->
  (forall e a args l r, tester e = Some (a :: args) -> P (a :: l ++ args) r -> P (e :: l) r) ->
  (forall e l r, P l r -> P (e :: l) (e :: r)) ->
  forall fuel l, P l (to_buffer tester fuel l).
Proof.
  intros H0 Hstep Hskip fuel. induction fuel as [|fuel IH]; intros l; [apply H0|].
  destruct l as [|e l]; [apply H0|]. simpl. destruct (tester e) as [[|a args]|] eqn:E; eauto.
Qed.

Definition node_sum (l : list expr) : nat := sum_list_with nodes l.

Lemma node_sum_app l k : node_sum (l ++ k) = (node_sum l + node_sum k)%nat.
Proof. apply sum_list_with_app. Qed.

Hypothesis tester_args : forall e l, tester e = Some l -> nodes e = S (node_sum l).

(** With the fuel of [buffer_of], the loop of the code has ended: no element of
    the buffer can be opened. *)
Lemma to_buffer_done fuel l :
  (node_sum l <= fuel)%nat -> Forall (fun e => tester e = None \/ tester e = Some []) (to_buffer tester fuel l).
Proof.
  assert (Hpos : forall e, (0 < nodes e)%nat) by (intros [o k]; simpl; lia).
  revert l. induction fuel as [|fuel IH]; intros [|e l] Hf; simpl in *; [constructor| |constructor|].
  - specialize (Hpos e). lia.
  - destruct (tester e) as [[|a args]|] eqn:E; simpl.
    + constructor; [by right|]. apply IH. specialize (Hpos e). unfold node_sum in *. lia.
    + apply IH. pose proof (tester_args e _ E) as Hs. unfold node_sum in *. simpl in *. rewrite sum_list_with_app. lia.
    + constructor; [by left|]. apply IH. specialize (Hpos e). unfold node_sum in *. lia.
Qed.
End Buffer.

Lemma buffer_sums n F e : den n F e -> sums n F (buffer_of is_add e).
Proof.
  intros [Be Ve]. unfold buffer_of. generalize (nodes e). intros fuel.
  cut (forall l, Forall (bvx n) l -> sums n (fun I => sumz (map (vn I) l)) (to_buffer is_add fuel l)).
  { intros H. eapply sums_ext; [apply H; by constructor|]. intros I. rewrite <- Ve. apply eqm_eq. simpl. lia. }
  intros l. apply to_buffer_ind.
  - intros k Hk. by apply sums_refl.
  - intros x a args k r E IH HF. inv_Forall. destruct (is_add_sums n x _ ltac:(done) E) as [[HFa Va] _]. inv_Forall.
    eapply sums_ext; [apply IH; constructor; [done|]; by apply Forall_app|]. intros I. simpl. rewrite map_app, sumz_app, <- Va.
    apply eqm_eq. simpl. lia.
  - intros x k r IH HF. inv_Forall. apply (sums_cons n (fun I => vn I x)); [by apply den_refl|by apply IH].
Qed.

Lemma buffer_prods n F e : den n F e -> prods n F (buffer_of is_mul e).
Proof.
  intros [Be Ve]. unfold buffer_of. generalize (nodes e). intros fuel.
  cut (forall l, Forall (bvx n) l -> prods n (fun I => prodz (map (vn I) l)) (to_buffer is_mul fuel l)).
  { intros H. eapply prods_ext; [apply H; by constructor|]. intros I. rewrite <- Ve. apply eqm_eq. simpl.
    rewrite prodz_cons. unfold prodz. simpl. lia. }
  intros l. apply to_buffer_ind.
  - intros k Hk. by apply prods_refl.
  - intros x a args k r E IH HF. inv_Forall. destruct (is_mul_prods n x _ ltac:(done) E) as [[HFa Va] _]. inv_Forall.
    eapply prods_ext; [apply IH; constructor; [done|]; by apply Forall_app|]. intros I. simpl.
    rewrite map_app, !prodz_cons, prodz_app, <- Va. simpl. rewrite prodz_cons. apply eqm_eq. lia.
  - intros x k r IH HF. inv_Forall. eapply prods_ext; [apply prods_cons; [by apply den_refl|by apply IH]|]. intros I. by simpl.
Qed.

(** ** Flattening *)

Lemma flat_mul_ok n e : bvx n e -> prods n (fun I => vn I e) (flat_mul e).
Proof.
  assert (Hone : forall e, bvx n e -> prods n (fun I => vn I e) [e]).
  { intros x Hx. eapply prods_ext; [apply prods_cons; [by apply den_refl|apply prods_nil]|]. intros I. apply eqm_eq. lia. }
  induction e as [o l IH] using expr_rect'. intros He. destruct (decide (o = OP_BMUL)) as [->|Hne].
  2:{ replace (flat_mul (App o l)) with [App o l] by (by destruct o). by apply Hone. }
  destruct (is_mul_prods n _ l He eq_refl) as [[HF Hv] _].
  cut (prods n (fun I => prodz (map (vn I) l)) (flat_map flat_mul l)); [by intros H; eapply prods_ext|]. clear He Hv Hone.
  revert HF. induction IH as [|a l Ha _ IHl]; intros HF; [apply prods_nil|]. inv_Forall. simpl.
  apply prods_app; auto.
Qed.

Lemma flat_muls_ok n l : Forall (bvx n) l -> prods n (fun I => prodz (map (vn I) l)) (flat_map flat_mul l).
Proof.
  induction 1 as [|a l Ha HF IH]; [apply prods_nil|]. simpl. apply prods_app; [by apply flat_mul_ok|done].
Qed.

Lemma flat_add_ok n a : bvx n a -> sums n (fun I => vn I a) (flat_add a) /\ flat_add a <> [].
Proof.
  intros Ha. unfold flat_add. destruct (is_add a) as [k|] eqn:E; simpl; [by apply (is_add_sums n a k)|]. split; [|done].
  eapply sums_ext; [apply sums_cons; [by apply den_refl|apply sums_nil]|]. intros I. apply eqm_eq. lia.
Qed.

Lemma flat_adds_ok n l : Forall (bvx n) l -> sums n (fun I => sumz (map (vn I) l)) (flat_map flat_add l).
Proof.
  induction 1 as [|a l Ha HF IH]; [apply sums_nil|]. simpl. apply sums_app; [by apply flat_add_ok|done].
Qed.

(** ** Numerals apart from the other arguments *)

Lemma non_numerals_cons e l :
  non_numerals (e :: l) = match num e with Some _ => non_numerals l | None => e :: non_numerals l end.
Proof. unfold non_numerals. rewrite filter_cons. destruct (num e) eqn:E; by case_decide. Qed.

Lemma num_cases e : (exists v, num e = Some v /\ is_num e = true) \/ (num e = None /\ is_num e = false).
Proof. rewrite is_num_num. destruct (num e) as [v|]; [left; by exists v|by right]. Qed.

Lemma split_numerals n l I :
  Forall (bvx n) l ->
  Forall (bvx n) (non_numerals l)
  /\ sumz (map (vn I) l) = sumz (omap num l) + sumz (map (vn I) (non_numerals l))
  /\ prodz (map (vn I) l) = prodz (omap num l) * prodz (map (vn I) (non_numerals l)).
Proof.
  induction 1 as [|e l He HF (IH1 & IH2 & IH3)]; [done|]. rewrite non_numerals_cons. simpl.
  destruct (num e) as [v|] eqn:E; simpl.
  - destruct (num_val n e v He E) as [_ V]. rewrite !prodz_cons, V, IH2, IH3.
    change (list_omap expr Z num l) with (omap num l). split_and!; [done|lia|lia].
  - change (list_omap expr Z num l) with (omap num l). rewrite !prodz_cons, IH2, IH3. split_and!; [by constructor|lia|lia].
Qed.

Lemma no_numerals l : omap num l = [] -> non_numerals l = l.
Proof.
  induction l as [|e l IH]; [done|]. rewrite non_numerals_cons. simpl. destruct (num e); [done|]. intros H.
  f_equal. by apply IH.
Qed.

Lemma count_numerals l : (length l = length (omap num l) + length (non_numerals l))%nat.
Proof.
  induction l as [|e l IH]; [done|]. rewrite non_numerals_cons. simpl. destruct (num e); simpl;
    change (list_omap expr Z num l) with (omap num l); lia.
Qed.

Lemma add_numerals_eq l : add_numerals l = sumz (omap num l).
Proof. unfold add_numerals. by rewrite fold_left_add. Qed.

(** ** The tuples of summands *)

(** The product a tuple of positions picks, and the sum of those from this
    tuple on. *)
Fixpoint pick (vs : list (list Z)) (it : list nat) : Z :=
  match vs, it with v :: vs, i :: it => v !!! i * pick vs it | _, _ => 1 end.

Fixpoint rest (vs : list (list Z)) (it : list nat) : Z :=
  match vs, it with
  | v :: vs, i :: it => sumz (drop i v) * pick vs it + sumz v * (rest vs it - pick vs it)
  | _, _ => 1
  end.

Definition in_range {A} (vs : list (list A)) (it : list nat) : Prop := Forall2 (fun v i => (i < length v)%nat) vs it.

Lemma rest_start vs : rest vs (map (fun _ => 0%nat) vs) = prodz (map sumz vs).
Proof. induction vs as [|v vs IH]; simpl; [done|]. rewrite prodz_cons, drop_0, IH. lia. Qed.

Lemma drop_next (v : list Z) i : (i < length v)%nat -> drop i v = v !!! i :: drop (S i) v.
Proof. intros Hi. apply drop_S. by apply list_lookup_lookup_total_lt. Qed.

Lemma rest_next vs it b it' :
  in_range vs it -> product_iterator_next (map length vs) it = (b, it') ->
  in_range vs it' /\ rest vs it = pick vs it + (if b then rest vs it' else 0).
Proof.
  intros HR. revert b it'. induction HR as [|v i vs it Hi HR IH]; intros b it' H; simpl in H;
    [injection H as <- <-; split; [constructor|done]|].
  destruct (Nat.ltb_spec (S i) (length v)).
  - injection H as <- <-. split; [by constructor|]. simpl. rewrite (drop_next v i Hi). simpl. lia.
  - destruct (product_iterator_next (map length vs) it) as [b' k] eqn:E. injection H as <- <-.
    destruct (IH b' k eq_refl) as [HRk Hk]. split; [constructor; [lia|done]|]. simpl. rewrite Hk.
    rewrite (drop_next v i Hi), (drop_ge v (S i)) by lia. simpl. destruct b'; rewrite ?drop_0; lia.
Qed.

Lemma lengths_map {A B} (f : A -> B) vs : map length (map (map f) vs) = map length vs.
Proof. rewrite map_map. apply map_ext. intros v. apply length_map. Qed.

Lemma in_range_map {A B} (f : A -> B) vs it : in_range vs it <-> in_range (map (map f) vs) it.
Proof.
  unfold in_range. revert it. induction vs as [|v vs IH]; intros [|i it]; simpl; try (split; by inversion 1).
  split; intros HR; inv_Forall; (constructor; [by rewrite ?length_map in *|by apply IH]).
Qed.

Lemma pick_args I (vs : list (list expr)) it :
  in_range vs it -> prodz (map (vn I) (zip_with (fun v i => v !!! i) vs it)) = pick (map (map (vn I)) vs) it.
Proof.
  intros HR. induction HR as [|v i vs it Hi HR IH]; simpl; [done|]. rewrite prodz_cons, IH. f_equal.
  symmetry. apply list_lookup_total_correct. rewrite (list_lookup_fmap (vn I) v). by rewrite list_lookup_lookup_total_lt.
Qed.

Lemma picked_args n (vs : list (list expr)) it :
  Forall (Forall (bvx n)) vs -> in_range vs it -> Forall (bvx n) (zip_with (fun v i => v !!! i) vs it).
Proof.
  intros HF HR. induction HR as [|v i vs it Hi HR IH]; simpl; [constructor|]. inv_Forall. constructor; [|by apply IH].
  by eapply Forall_lookup_1; [|apply list_lookup_lookup_total_lt].
Qed.

(** ** Products *)

Section Products.
Context (cfg : params) (lt : expr -> expr -> bool) (get_id : expr -> Z).
Context (std_sort : (expr -> expr -> bool) -> list expr -> list expr).
Hypothesis sort_perm : forall r l, std_sort r l ≡ₚ l.
Context (n : nat) (Hn : (0 < n)%nat).

(** A result denotes [F]. *)
Definition result_ok (F : interp -> Z) (r : br_result) : Prop :=
  match r with Some (_, e) => den n F e | None => True end.

Lemma mul_one_ok F args c var :
  (forall I, eqm n (c * vn I var) (F I)) -> bvx n var -> result_ok F (mul_one cfg n args c var).
Proof.
  intros HF Hv. assert (Hc : forall e, den n (fun I => vn I var) e -> den n F (mk_cmul_app n c e)).
  { intros e He. eapply den_ext; [by apply mk_cmul_app_ok|]. exact HF. }
  unfold mul_one. destruct (Z.eqb_spec c 1) as [->|]; [split; [done|]; intros I; rewrite <- HF; apply eqm_eq; lia|].
  destruct (is_mul var) as [l|] eqn:Em; simpl.
  - destruct (is_mul_num var) as [[c' pp]|] eqn:E; [|done]. destruct (is_mul_num_ok n var c' pp Hv E) as (Hp & _ & V).
    simpl. eapply den_ext; [apply mk_cmul_app_ok; [done|by apply den_refl]|]. intros I. cbn beta.
    rewrite normalize_ok, <- HF, V. apply eqm_eq. lia.
  - destruct (is_add var) as [adds|] eqn:Ea.
    2:{ case_goal; [done|]. simpl. by apply Hc, den_refl. }
    destruct (m_hoist_cmul cfg); [case_goal; [done|]; simpl; by apply Hc, den_refl|]. simpl.
    destruct (is_add_sums n var adds Hv Ea) as [[HFa Va] _]. apply mk_add_app_ok; [done|].
    apply (sums_ext n (fun I => c * sumz (map (vn I) adds))); [|intros I; by rewrite Va].
    clear -HFa Hn. induction HFa as [|a l Ha _ IH]; simpl.
    + eapply sums_ext; [apply sums_nil|]. intros I. apply eqm_eq. lia.
    + eapply sums_ext; [apply sums_cons; [apply mk_cmul_app_ok; [done|by apply den_refl]|exact IH]|]. intros I. apply eqm_eq. lia.
Qed.

Lemma mul_sort_ok F args k c :
  (forall I, eqm n (c * prodz (map (vn I) args)) (F I)) -> Forall (bvx n) args ->
  result_ok F (mul_sort cfg lt get_id std_sort n args k c).
Proof.
  intros HF Ha. unfold mul_sort. case_goal; [done|]. simpl. eapply den_ext; [|exact HF]. apply mk_cmul_app_ok; [done|].
  apply mk_mul_app_ok; [done|]. case_goal; [by apply prods_refl|]. eapply prods_perm; [apply sort_perm|by apply prods_refl].
Qed.

Context `{Env}.

(** The only exception is the bound on the number of monomials. *)
Definition blowup (e : exn) : Prop := e = ExSomBlowup.

Lemma som_loop_ok F G vs fuel it sum :
  Forall (Forall (bvx n)) vs -> in_range vs it -> sums n G sum ->
  (length sum + fuel = 2 + m_som_blowup cfg)%nat -> (length sum <= 1 + m_som_blowup cfg)%nat ->
  (forall I, eqm n (G I + rest (map (map (vn I)) vs) it) (F I)) ->
  spec_exn blowup (som_loop cfg n vs fuel it sum) (sums n F).
Proof.
  revert G it sum. induction fuel as [|fuel IH]; intros G it sum HF HR Hs Hf Hl HG; [lia|]. simpl.
  destruct (Nat.ltb_spec (m_som_blowup cfg) (length sum)); [by apply spec_exn_throw|].
  set (args := zip_with _ vs it). destruct (product_iterator_next (map length vs) it) as [b it'] eqn:E.
  assert (Hsum : sums n (fun I => G I + (pick (map (map (vn I)) vs) it + 0)) (sum ++ [mk_mul_app n args])).
  { apply sums_app; [done|]. apply sums_cons; [|apply sums_nil]. apply mk_mul_app_ok; [done|].
    split; [by apply picked_args|]. intros I. by rewrite <- pick_args. }
  assert (Hnext : forall I, in_range vs it' /\ rest (map (map (vn I)) vs) it
            = pick (map (map (vn I)) vs) it + (if b then rest (map (map (vn I)) vs) it' else 0)).
  { intros I. rewrite (in_range_map (vn I) vs it'). apply rest_next; [by apply in_range_map|by rewrite lengths_map]. }
  destruct b.
  - eapply IH; [done|by apply (Hnext (fun _ _ _ _ => VBool false))|exact Hsum|rewrite length_app; simpl; lia..|].
    intros I. rewrite <- HG, (proj2 (Hnext I)). apply eqm_eq. lia.
  - apply spec_exn_ret. eapply sums_ext; [exact Hsum|]. intros I. by rewrite <- HG, (proj2 (Hnext I)).
Qed.

Lemma som_ok args :
  Forall (bvx n) args -> spec_exn blowup (som cfg n args) (result_ok (fun I => prodz (map (vn I) args))).
Proof.
  intros HF. assert (Hparts : Forall (Forall (bvx n)) (map flat_add args) /\ in_range (map flat_add args) (map (fun _ => 0%nat) args)
    /\ forall I, eqm n (prodz (map sumz (map (map (vn I)) (map flat_add args)))) (prodz (map (vn I) args))).
  { induction HF as [|a l Ha HF (IH1 & IH2 & IH3)]; simpl;
      [split_and!; [done|constructor|done]|]. destruct (flat_add_ok n a Ha) as [[HFa Va] Hne].
    split_and!; [by constructor|constructor; [destruct (flat_add a); [done|simpl; lia]|done]|].
    intros I. by rewrite !prodz_cons, IH3, Va. }
  destruct Hparts as (Hvs & HR & Hv). eapply spec_exn_bind.
  - apply (som_loop_ok (fun I => prodz (map (vn I) args)) (fun _ => 0)); [done|done|apply sums_nil|simpl; lia|simpl; lia|].
    intros I. rewrite <- Hv, <- rest_start, Z.add_0_l, !map_map. reflexivity.
  - intros sum Hs. apply spec_exn_ret. simpl. by apply mk_add_app_ok.
Qed.

Lemma mk_nflat_mul_core_ok args :
  Forall (bvx n) args ->
  spec_exn blowup (mk_nflat_mul_core cfg lt get_id std_sort n args) (result_ok (fun I => prodz (map (vn I) args))).
Proof.
  intros HF. unfold mk_nflat_mul_core. destruct (is_monomial args); [by apply spec_exn_ret|].
  set (c := normalize n _).
  assert (Hc : forall I, eqm n (c * prodz (map (vn I) (non_numerals args))) (prodz (map (vn I) args))).
  { intros I. unfold c. rewrite normalize_ok, fold_left_mul. apply eqm_eq.
    rewrite (proj2 (proj2 (split_numerals n args I HF))). lia. }
  pose proof (proj1 (split_numerals n args (fun _ _ _ _ => VBool false) HF)) as HFr.
  destruct (Nat.eqb_spec (length (omap num args)) (length args)) as [E|_].
  { apply spec_exn_ret. simpl. eapply den_ext; [by apply den_num|]. intros I. cbn beta. rewrite <- Hc.
    pose proof (count_numerals args) as L. destruct (non_numerals args); [|simpl in L; lia]. apply eqm_eq. unfold prodz. simpl. lia. }
  destruct (Z.eqb_spec c 0) as [E0|_].
  { apply spec_exn_ret. simpl. eapply den_ext; [by apply den_num|]. intros I. cbn beta. rewrite <- Hc. apply eqm_eq.
    rewrite E0. lia. }
  assert (Hsort : spec_exn blowup (mret (mul_sort cfg lt get_id std_sort n (non_numerals args) (length (omap num args)) c))
    (result_ok (fun I => prodz (map (vn I) args)))) by (apply spec_exn_ret; by apply mul_sort_ok).
  pose proof (som_ok args HF) as Hsom. destruct (non_numerals args) as [|var [|x l]] eqn:El.
  - case_goal; [exact Hsort|exact Hsom].
  - apply spec_exn_ret. inv_Forall. apply mul_one_ok; [|done]. intros I. rewrite <- Hc. apply eqm_eq. unfold prodz. simpl. lia.
  - case_goal; [exact Hsort|exact Hsom].
Qed.

Lemma mk_flat_mul_core_ok args :
  Forall (bvx n) args ->
  spec_exn blowup (mk_flat_mul_core cfg lt get_id std_sort n args) (result_ok (fun I => prodz (map (vn I) args))).
Proof.
  intros HF. unfold mk_flat_mul_core. destruct (negb _ && existsb _ _); [|by apply mk_nflat_mul_core_ok].
  pose proof (flat_muls_ok n args HF) as Hfl.
  eapply spec_exn_bind; [apply mk_nflat_mul_core_ok, Hfl|]. intros r Hr. apply spec_exn_ret.
  destruct r as [[st e]|]; simpl in *; [|by apply mk_mul_app_ok]. eapply den_ext; [exact Hr|]. intros I. apply Hfl.
Qed.

Lemma mk_mul_core_ok args :
  Forall (bvx n) args ->
  spec_exn blowup (mk_mul_core cfg lt get_id std_sort n args) (result_ok (fun I => prodz (map (vn I) args))).
Proof.
  intros HF. unfold mk_mul_core. destruct args as [|a [|b l]].
  - case_goal; [by apply mk_flat_mul_core_ok|by apply mk_nflat_mul_core_ok].
  - apply spec_exn_ret. simpl. inv_Forall. split; [done|]. intros I. apply eqm_eq. unfold prodz. simpl. lia.
  - case_goal; [by apply mk_flat_mul_core_ok|by apply mk_nflat_mul_core_ok].
Qed.
End Products.

(** ** Common coefficients *)

Lemma coeff_of_ok n t c pp : bvx n t -> is_mul_num t = Some (c, pp) -> den n (fun _ => c) (coeff_of t).
Proof.
  intros Ht H. destruct t as [o l]. destruct o; try done. destruct l as [|a [|b [|? ?]]]; try done. simpl in H.
  destruct (num a) as [v|] eqn:E; [|done]. injection H as <- <-.
  destruct (is_mul_prods n _ _ Ht eq_refl) as [[HF _] _]. inv_Forall. split; [done|]. intros I. simpl.
  by rewrite (proj2 (num_val n a v ltac:(done) E)).
Qed.

Lemma same_coeff_ok n c l pps r :
  Forall (bvx n) l -> same_coeff c l = (pps, r) ->
  (length r <= length l)%nat /\ Forall (bvx n) pps /\ Forall (bvx n) r
  /\ forall I, eqm n (sumz (map (vn I) l)) (c * sumz (map (vn I) pps) + sumz (map (vn I) r)).
Proof.
  intros HF. revert pps r. induction HF as [|e l He HF IH]; intros pps r H; simpl in H.
  { injection H as <- <-. split_and!; [done..|]. intros I. apply eqm_eq. simpl. lia. }
  assert (Hstop : (pps, r) = ([], e :: l) -> (length r <= length (e :: l))%nat /\ Forall (bvx n) pps /\ Forall (bvx n) r
    /\ forall I, eqm n (sumz (map (vn I) (e :: l))) (c * sumz (map (vn I) pps) + sumz (map (vn I) r))).
  { intros [= -> ->]. split_and!; [done|done|by constructor|]. intros I. apply eqm_eq. simpl. lia. }
  destruct (is_mul_num e) as [[c' pp]|] eqn:E; [|by apply Hstop]. destruct (Z.eqb_spec c c') as [<-|]; [|by apply Hstop].
  destruct (same_coeff c l) as [ps r'] eqn:Es. injection H as <- <-. destruct (IH ps r' eq_refl) as (L & Hps & Hr & V).
  destruct (is_mul_num_ok n e c pp He E) as (Hp & _ & Vp). split_and!; [simpl; lia|by constructor|done|]. intros I. simpl.
  rewrite V, Vp. apply eqm_eq. lia.
Qed.

Section Sums.
Context (cfg : params) (lt : expr -> expr -> bool) (get_id : expr -> Z).
Context (std_sort : (expr -> expr -> bool) -> list expr -> list expr).
Hypothesis sort_perm : forall r l, std_sort r l ≡ₚ l.
Context (n : nat) (Hn : (0 < n)%nat).

Lemma cmul_groups_ok fuel l :
  (length l <= fuel)%nat -> Forall (bvx n) l -> sums n (fun I => sumz (map (vn I) l)) (cmul_groups n fuel l).
Proof.
  revert l. induction fuel as [|fuel IH]; intros [|e l] Hf HF; simpl in *; [apply sums_nil|lia|apply sums_nil|]. inv_Forall.
  assert (Hkeep : sums n (fun I => sumz (vn I e :: map (vn I) l)) (e :: cmul_groups n fuel l)).
  { apply sums_cons; [by apply den_refl|]. apply IH; [lia|done]. }
  destruct (is_mul_num e) as [[c pp]|] eqn:E; [|done]. destruct (same_coeff c l) as [[|p ps] r] eqn:Es; [done|].
  destruct (same_coeff_ok n c l _ r ltac:(done) Es) as (L & Hps & Hr & V).
  destruct (is_mul_num_ok n e c pp ltac:(done) E) as (Hp & _ & Vp).
  eapply sums_ext; [apply sums_cons; [|apply (IH r); [lia|done]]|].
  - apply mk_mul_app_ok; [done|]. apply prods_cons; [by eapply coeff_of_ok|]. apply prods_cons; [|apply prods_nil].
    apply mk_add_app_ok; [done|]. apply (sums_refl n (pp :: p :: ps)). by constructor.
  - intros I. cbn beta. simpl in *. rewrite V, Vp. apply eqm_eq. simpl. lia.
Qed.

Lemma hoist_cmul_ok F l : sums n F l -> sums n F (hoist_cmul get_id std_sort n l).
Proof.
  intros Hs. pose proof (sort_perm (hoist_cmul_lt get_id) l) as P. unfold hoist_cmul.
  destruct (sums_perm n F _ l P Hs) as [HF V].
  eapply sums_ext; [apply cmul_groups_ok; [by rewrite P|exact HF]|exact V].
Qed.

(** ** Common factors *)

Lemma swap_perm i j (l : list expr) : swap i j l ≡ₚ l.
Proof.
  unfold swap. destruct (l !! i) as [a|] eqn:Ei; [|done]. destruct (l !! j) as [b|] eqn:Ej; [|done].
  by apply Permutation_insert_swap.
Qed.

Lemma take_swap k i (l : list expr) x : (k <= i)%nat -> l !! i = Some x -> take (S k) (swap i k l) = take k l ++ [x].
Proof.
  intros Hk Hi. pose proof (lookup_lt_Some _ _ _ Hi) as Li. unfold swap. rewrite Hi.
  destruct (lookup_lt_is_Some_2 l k ltac:(lia)) as [y Hy]. rewrite Hy.
  assert (E : <[i:=y]> (<[k:=x]> l) !! k = Some x).
  { destruct (decide (i = k)) as [->|Hne].
    - rewrite list_lookup_insert_eq by (rewrite length_insert; lia). congruence.
    - by rewrite list_lookup_insert_ne, list_lookup_insert_eq by lia. }
  rewrite (take_S_r _ _ _ E). f_equal. by rewrite !take_insert_ge by lia.
Qed.

Lemma find_from_Some x k l j : find_from x k l = Some j -> (k <= j)%nat /\ l !! j = Some x.
Proof.
  unfold find_from. destruct (list_find _ _) as [[i y]|] eqn:E; [|done]. intros [= <-].
  apply list_find_Some in E as (Hl & -> & _). rewrite lookup_drop in Hl. split; [lia|done].
Qed.

Lemma merge_loop_ok m i k m1 m2 k' m1' m2' :
  merge_loop m i k m1 m2 = (k', m1', m2') -> (i + m = length m1)%nat -> (k <= i)%nat -> take k m1 = take k m2 ->
  m1' ≡ₚ m1 /\ m2' ≡ₚ m2 /\ take k' m1' = take k' m2'.
Proof.
  revert i k m1 m2. induction m as [|m IH]; intros i k m1 m2 H Hl Hk Ht; simpl in H; [by injection H as <- <- <-|].
  destruct (find_from (m1 !!! i) k m2) as [j|] eqn:E; [|by apply (IH (S i) k); [|lia|lia|]].
  apply find_from_Some in E as [Hj Ej].
  assert (Ei : m1 !! i = Some (m1 !!! i)) by (apply list_lookup_lookup_total_lt; lia).
  destruct (IH (S i) (S k) (swap i k m1) (swap j k m2) H) as (P1 & P2 & Ht').
  - rewrite (swap_perm i k m1). lia.
  - lia.
  - by rewrite (take_swap k i m1 _ Hk Ei), (take_swap k j m2 _ Hj Ej), Ht.
  - by rewrite <- (swap_perm i k m1), <- (swap_perm j k m2).
Qed.

Lemma merge_muls_ok F G x y :
  den n F x -> den n G y -> den n (fun I => F I + G I) (merge_muls n x y).
Proof.
  intros Hx Hy. unfold merge_muls. destruct (merge_loop _ _ _ _ _) as [[k m1] m2] eqn:E.
  apply merge_loop_ok in E as (P1 & P2 & Ht); [|lia|lia|done].
  destruct (prods_perm n F m1 _ P1 (buffer_prods n F x Hx)) as [HF1 V1].
  destruct (prods_perm n G m2 _ P2 (buffer_prods n G y Hy)) as [HF2 V2].
  assert (Hd : forall m, Forall (bvx n) m -> prods n (fun I => prodz (map (vn I) (drop k m))) (drop k m)).
  { intros m Hm. by apply prods_refl, Forall_drop. }
  eapply den_ext.
  - apply mk_mul_app_ok, prods_app; [done|apply prods_refl; by apply Forall_take|]. apply prods_cons; [|apply prods_nil].
    apply mk_add_app_ok, sums_cons; [done|apply mk_mul_app_ok; [done|by apply Hd, HF1]|].
    apply sums_cons; [apply mk_mul_app_ok; [done|by apply Hd, HF2]|apply sums_nil].
  - intros I. cbn beta. rewrite <- V1, <- V2. rewrite <- (take_drop k m1) at 3. rewrite <- (take_drop k m2) at 2.
    rewrite !map_app, !prodz_app, <- Ht. apply eqm_eq. lia.
Qed.

Lemma sumz_insert (f : expr -> Z) l j x z :
  l !! j = Some x -> sumz (map f (<[j:=z]> l)) = sumz (map f l) - f x + f z.
Proof.
  revert j. induction l as [|a l IH]; intros [|j]; try done; simpl; [intros [= ->]; lia|]. intros Hj. rewrite IH by done. lia.
Qed.

Lemma sums_merge F l j k x y z :
  sums n F l -> l !! j = Some x -> l !! k = Some y -> j <> k -> den n (fun I => vn I x + vn I y) z ->
  sums n F (<[k:=mk_num n 0]> (<[j:=z]> l)).
Proof.
  intros [HF V] Hj Hk Hne [Bz Vz]. destruct (den_num n 0 Hn) as [B0 V0]. split.
  - apply Forall_insert; [by apply Forall_insert|done].
  - intros I. rewrite (sumz_insert _ _ k y) by (by rewrite list_lookup_insert_ne). rewrite (sumz_insert _ _ j x) by done.
    rewrite Vz. unfold mk_num. rewrite V0, <- V. apply eqm_eq. lia.
Qed.

Definition hoist_inv (F : interp -> Z) (s : hoist_state) : Prop :=
  sums n F (adds s) /\ Forall (fun '(_, j) => (j < length (adds s))%nat) (mul_map s).

Lemma find_mul_bound e mm j m : Forall (fun '(_, j) => (j < m)%nat) mm -> find_mul e mm = Some j -> (j < m)%nat.
Proof.
  intros HF H. unfold find_mul in H. destruct (list_find _ mm) as [[i [x i']]|] eqn:E; [|done]. injection H as <-.
  apply list_find_Some in E as (Hl & _). by apply (Forall_lookup_1 _ _ _ _ HF) in Hl.
Qed.

Lemma hoist_factors_ok F k muls s :
  hoist_inv F s -> (k < length (adds s))%nat ->
  hoist_inv F (hoist_factors n k muls s) /\ length (adds (hoist_factors n k muls s)) = length (adds s).
Proof.
  revert s. induction muls as [|e muls IH]; intros s Hs Hk; simpl; [done|]. destruct (is_num e); [by apply IH|].
  assert (Hi : hoist_inv F {| adds := adds s; valid := valid s; mul_map := (e, k) :: mul_map s; change := change s |}).
  { destruct Hs as [Hs Hm]. split; [done|]. simpl. by constructor. }
  destruct (find_mul e (mul_map s)) as [j|] eqn:E; [|by apply (IH _ Hi)].
  destruct (_ && _) eqn:Ec; [|by apply (IH _ Hi)]. destruct Hs as [Hs Hm].
  apply andb_true_iff in Ec as [_ Ec]. apply negb_true_iff, Nat.eqb_neq in Ec.
  pose proof (find_mul_bound e _ j _ Hm E) as Hj. simpl. rewrite !length_insert. split; [|done]. unfold hoist_inv. simpl.
  rewrite !length_insert. split; [|done].
  pose proof (list_lookup_lookup_total_lt _ _ Hj) as Ej. pose proof (list_lookup_lookup_total_lt _ _ Hk) as Ek.
  eapply sums_merge; [done|done|done|done|].
  apply merge_muls_ok; apply den_refl; [by apply (Forall_lookup_1 _ _ _ _ (proj1 Hs) Ej)|by apply (Forall_lookup_1 _ _ _ _ (proj1 Hs) Ek)].
Qed.

Lemma hoist_loop_ok F ks s :
  hoist_inv F s -> Forall (fun k => k < length (adds s))%nat ks -> hoist_inv F (hoist_loop n ks s).
Proof.
  revert s. induction ks as [|k ks IH]; intros s Hs HF; simpl; [done|]. inv_Forall.
  destruct (hoist_factors_ok F k (buffer_of is_mul (adds s !!! k)) s Hs ltac:(done)) as [Hs' L]. apply IH; [done|]. by rewrite L.
Qed.

Lemma hoist_multiplication_ok F e r : den n F e -> hoist_multiplication cfg n e = Some r -> den n F r.
Proof.
  intros He H. unfold hoist_multiplication in H. destruct (negb _); [done|]. set (l := buffer_of is_add e) in *.
  destruct (change _); [|done]. injection H as <-. apply mk_add_app_ok; [done|].
  apply (hoist_loop_ok F (seq 0 (length l))).
  - split; [by apply buffer_sums|by constructor].
  - simpl. apply Forall_forall. intros k Hk%elem_of_seq. lia.
Qed.

(** The end of a sum. *)
Lemma finish_sum_ok F sort c l : sums n F l -> result_ok n F (finish_sum cfg lt get_id std_sort n sort c l).
Proof.
  intros Hs. unfold finish_sum. set (l' := if m_hoist_cmul cfg then _ else _).
  assert (Hl : sums n F l').
  { unfold l'. destruct (m_hoist_cmul cfg); [by apply hoist_cmul_ok|]. destruct sort; [|done].
    unfold sort_summands. case_goal; [eapply sums_perm; [apply sort_perm|done]|].
    eapply sums_perm; [|exact Hs]. rewrite sort_perm. by rewrite take_drop. }
  pose proof (mk_add_app_ok n Hn F l' Hl) as Ha. destruct (hoist_multiplication cfg n (mk_add_app n l')) as [r|] eqn:E; [|exact Ha].
  by eapply hoist_multiplication_ok.
Qed.
End Sums.
