(* ===== verification/PolyRewriterAdd.v ===== *)
(** * PolyRewriterAdd: sums with repeated power products, and cancellation

    The coefficient of a power product is collected over the whole sum and put
    where the power product occurs first; [cancel_monomials] does so over both
    sides of an equation. *)
From Stdlib Require Import ZArith Lia Morphisms.
From stdpp Require Import base list.
From S2P Require Import Prelude Bits UBits Ast BvUtil AstFacts TermFacts BvTerms BoolRewriter BvRewriter PolyRewriter.
From S2P Require Import BvRewriterDiv BvRewriterExtract BvRewriterCmp PolyRewriterSound.
Import bv_rewriter poly_rewriter.

Local Open Scope Z_scope.
#[local] Arguments mk_mul_app : simpl never.
#[local] Arguments mk_add_app : simpl never.

(** ** Coefficients of power products *)

(** The coefficient of [pp] in a sum. *)
Fixpoint coef_of (pp : expr) (args : list expr) : Z :=
  match args with
  | [] => 0
  | arg :: args =>
      (if is_num arg then 0
       else let '(a, p) := get_power_product arg in if decide (p = pp) then a else 0) + coef_of pp args
  end.

(** The part of a sum whose power products are in [multiple]. *)
Definition shared (I : interp) (multiple args : list expr) : Z :=
  sumz (map (fun arg => if is_num arg then 0
                        else let '(a, p) := get_power_product arg in
                          if bool_decide (p ∈ multiple) then a * vn I p else 0) args).

Lemma get_coeff_add pp p a cs : get_coeff pp (add_coeff p a cs) = get_coeff pp cs + (if decide (p = pp) then a else 0).
Proof.
  induction cs as [|[x c] cs IH]; simpl; [by destruct (decide (p = pp)); lia|].
  destruct (decide (x = p)) as [->|Hne]; simpl.
  - destruct (decide (p = pp)); lia.
  - destruct (decide (x = pp)) as [->|]; [|exact IH]. rewrite decide_False by congruence. lia.
Qed.

Lemma collect_coeffs_ok sign multiple args cs pp :
  pp ∈ multiple -> get_coeff pp (collect_coeffs sign multiple args cs) = get_coeff pp cs + sign * coef_of pp args.
Proof.
  intros Hpp. revert cs. induction args as [|arg args IH]; intros cs; simpl; [lia|].
  destruct (get_power_product arg) as [a p] eqn:E. rewrite IH. destruct (is_num arg); simpl; [lia|].
  destruct (bool_decide_reflect (p ∈ multiple)) as [|Hp]; simpl.
  - rewrite get_coeff_add. destruct (decide (p = pp)); lia.
  - rewrite decide_False by congruence. lia.
Qed.

(** The power products [copy_products] gives a coefficient. *)
Fixpoint first_seen (multiple visited args : list expr) : list expr :=
  match args with
  | [] => []
  | arg :: args =>
      let '(_, pp) := get_power_product arg in
      if is_num arg || negb (bool_decide (pp ∈ multiple)) || bool_decide (pp ∈ visited)
      then first_seen multiple visited args
      else pp :: first_seen multiple (pp :: visited) args
  end.

Lemma first_seen_spec multiple visited args :
  NoDup (first_seen multiple visited args)
  /\ Forall (fun pp => pp ∈ multiple /\ pp ∉ visited) (first_seen multiple visited args)
  /\ forall arg, arg ∈ args -> is_num arg = false -> snd (get_power_product arg) ∈ multiple ->
       snd (get_power_product arg) ∈ visited \/ snd (get_power_product arg) ∈ first_seen multiple visited args.
Proof.
  revert visited. induction args as [|arg args IH]; intros visited; simpl.
  { split_and!; [constructor|constructor|]. intros x Hx. by apply elem_of_nil in Hx. }
  destruct (get_power_product arg) as [a pp] eqn:E. destruct (_ || _) eqn:Ec.
  - destruct (IH visited) as (H1 & H2 & H3). split_and!; [done..|]. intros x [->|Hx]%elem_of_cons Hn Hm; [|by apply H3].
    rewrite Hn, E in *. simpl in *. rewrite bool_decide_eq_true_2 in Ec by done. simpl in Ec.
    left. by apply bool_decide_eq_true in Ec.
  - apply orb_false_iff in Ec as [[En Em]%orb_false_iff Ev]. apply negb_false_iff, bool_decide_eq_true in Em.
    apply bool_decide_eq_false in Ev. destruct (IH (pp :: visited)) as (H1 & H2 & H3). split_and!.
    + constructor; [|done]. intros Hin. rewrite Forall_forall in H2. apply (proj2 (H2 pp Hin)). by left.
    + constructor; [done|]. eapply Forall_impl; [exact H2|]. intros x [Hx Hv]. split; [done|]. intros Hin. apply Hv. by right.
    + intros x [->|Hx]%elem_of_cons Hn Hm; [rewrite E; right; by left|].
      destruct (H3 x Hx Hn Hm) as [[->|Hv]%elem_of_cons|Hf]; [right; by left|by left|right; by right].
Qed.

(** Multiplying out: the coefficients times their power products. *)
Lemma sumz_single (f : expr -> Z) p D :
  NoDup D -> sumz (map (fun pp => if decide (p = pp) then f pp else 0) D) = if bool_decide (p ∈ D) then f p else 0.
Proof.
  induction 1 as [|x D Hx HD IH]; simpl; [done|]. rewrite IH. destruct (decide (p = x)) as [->|Hne].
  - rewrite (bool_decide_eq_false_2 (x ∈ D)), bool_decide_eq_true_2 by (done || by left). lia.
  - rewrite Z.add_0_l. rewrite (bool_decide_ext (p ∈ x :: D) (p ∈ D)); [done|]. rewrite elem_of_cons. naive_solver.
Qed.

Lemma sumz_plus {A} (f g : A -> Z) l : sumz (map (fun x => f x + g x) l) = sumz (map f l) + sumz (map g l).
Proof. induction l as [|x l IH]; simpl; lia. Qed.

Lemma shared_coefs I multiple args D :
  NoDup D -> Forall (fun pp => pp ∈ multiple) D ->
  (forall arg, arg ∈ args -> is_num arg = false -> snd (get_power_product arg) ∈ multiple -> snd (get_power_product arg) ∈ D) ->
  sumz (map (fun pp => coef_of pp args * vn I pp) D) = shared I multiple args.
Proof.
  intros HD HM. induction args as [|arg args IH]; intros Hc; simpl.
  { clear. induction D as [|pp D IH]; simpl; [done|]. rewrite IH. lia. }
  unfold shared. simpl. fold (shared I multiple args). rewrite <- IH by (intros x Hx; apply Hc; by right).
  rewrite (map_ext _ (fun pp => (if is_num arg then 0 else let '(a, p) := get_power_product arg in
                                  if decide (p = pp) then a * vn I pp else 0) + coef_of pp args * vn I pp)).
  2:{ intros pp. destruct (is_num arg); [lia|]. destruct (get_power_product arg) as [a p]. destruct (decide _); lia. }
  rewrite sumz_plus. f_equal. specialize (Hc arg ltac:(by left)). destruct (is_num arg); [clear; induction D; simpl; lia|].
  destruct (get_power_product arg) as [a p]. simpl in Hc. rewrite (sumz_single (fun pp => a * vn I pp)) by done.
  assert (E : p ∈ D <-> p ∈ multiple) by (split; [intros Hin; by apply (proj1 (Forall_forall _ _) HM p Hin)|auto]).
  by rewrite (bool_decide_ext _ _ E).
Qed.

Lemma kept_cons multiple e l :
  kept_monomials multiple (e :: l) =
  if is_num e || bool_decide (snd (get_power_product e) ∈ multiple) then kept_monomials multiple l
  else e :: kept_monomials multiple l.
Proof.
  unfold kept_monomials. rewrite non_numerals_cons, is_num_num. destruct (num e); simpl; [done|]. rewrite filter_cons.
  case_bool_decide; by case_decide.
Qed.

Lemma split_shared n I multiple args :
  Forall (bvx n) args ->
  eqm n (sumz (map (vn I) (non_numerals args))) (sumz (map (vn I) (kept_monomials multiple args)) + shared I multiple args).
Proof.
  induction 1 as [|e l He HF IH]; [done|]. rewrite kept_cons, non_numerals_cons. unfold shared. simpl. fold (shared I multiple l).
  rewrite is_num_num. destruct (num e) as [v|]; simpl; [rewrite IH; apply eqm_eq; lia|].
  destruct (get_power_product e) as [a p] eqn:E. destruct (power_product_ok n e a p He E) as [_ Vp]. simpl. rewrite IH.
  destruct (bool_decide (p ∈ multiple)); simpl; [rewrite Vp|]; apply eqm_eq; lia.
Qed.

Lemma kept_bvx n multiple args : Forall (bvx n) args -> Forall (bvx n) (kept_monomials multiple args).
Proof.
  rewrite !Forall_forall. unfold kept_monomials, non_numerals. intros HF x [_ [_ Hx]%list_elem_of_filter]%list_elem_of_filter. by apply HF.
Qed.

Section Copy.
Context (n : nat) (Hn : (0 < n)%nat).

Lemma copy_products_ok reduce multiple cs visited args :
  (forall a, eqm n (reduce a) a) -> Forall (bvx n) args ->
  sums n (fun I => sumz (map (vn I) (kept_monomials multiple args))
                   + sumz (map (fun pp => get_coeff pp cs * vn I pp) (first_seen multiple visited args)))
    (copy_products n reduce multiple cs visited args).
Proof.
  intros Hred HF. revert visited. induction HF as [|e l He HF IH]; intros visited; [apply sums_nil|].
  rewrite kept_cons. simpl. destruct (get_power_product e) as [a p] eqn:E. destruct (power_product_ok n e a p He E) as [Bp _].
  simpl. destruct (is_num e); simpl; [apply IH|]. destruct (bool_decide (p ∈ multiple)); simpl.
  - destruct (bool_decide (p ∈ visited)); [apply IH|].
    eapply sums_ext; [apply (sums_app n (fun I => get_coeff p cs * vn I p)); [|apply IH]|intros I; apply eqm_eq; simpl; lia].
    destruct (Z.eqb_spec (reduce (get_coeff p cs)) 0) as [E0|_].
    + eapply sums_ext; [apply sums_nil|]. intros I. rewrite <- (Hred (get_coeff p cs)), E0. apply eqm_eq. lia.
    + eapply sums_ext; [apply sums_cons; [apply mk_cmul_app_ok; [done|by apply den_refl]|apply sums_nil]|].
      intros I. cbn beta. rewrite Hred. apply eqm_eq. lia.
  - eapply sums_ext; [apply sums_cons; [by apply den_refl|apply IH]|]. intros I. apply eqm_eq. simpl. lia.
Qed.

(** The numeral in front, where it is not zero. *)
Lemma numeral_ok F G c l :
  sums n F l -> (forall I, eqm n (c + F I) (G I)) -> sums n G ((if c =? 0 then [] else [mk_num n c]) ++ l).
Proof.
  intros Hs HG. eapply sums_ext; [apply (sums_app n (fun _ => c)); [|exact Hs]|exact HG].
  destruct (Z.eqb_spec c 0) as [->|]; [apply sums_nil|].
  eapply sums_ext; [apply sums_cons; [by apply den_num|apply sums_nil]|]. intros I. apply eqm_eq. lia.
Qed.
End Copy.

Section Additions.
Context (cfg : params) (lt : expr -> expr -> bool) (get_id : expr -> Z).
Context (std_sort : (expr -> expr -> bool) -> list expr -> list expr).
Hypothesis sort_perm : forall r l, std_sort r l ≡ₚ l.
Context (n : nat) (Hn : (0 < n)%nat).

Lemma mk_nflat_add_core_ok args :
  Forall (bvx n) args ->
  result_ok n (fun I => sumz (map (vn I) args)) (mk_nflat_add_core cfg lt get_id std_sort n args).
Proof.
  intros HF. unfold mk_nflat_add_core. set (c := normalize n _). set (multiple := mark_multiple _ _ _).
  assert (Hc : forall I, eqm n (c + sumz (map (vn I) (non_numerals args))) (sumz (map (vn I) args))).
  { intros I. unfold c. rewrite normalize_ok, add_numerals_eq. apply eqm_eq.
    by rewrite (proj1 (proj2 (split_numerals n args I HF))). }
  destruct (negb (bool_decide (multiple = []))).
  - apply finish_sum_ok; [done..|]. eapply numeral_ok; [done|by apply copy_products_ok; [done|apply normalize_ok|]|].
    intros I. cbn beta. rewrite <- Hc, (split_shared n I multiple args HF).
    destruct (first_seen_spec multiple [] args) as (HD & HM & Hcov).
    rewrite <- (shared_coefs I multiple args (first_seen multiple [] args)).
    + apply eqm_eq. do 2 f_equal. f_equal. apply map_ext_in. intros pp Hin%list_elem_of_In. rewrite Forall_forall in HM.
      rewrite collect_coeffs_ok by (by apply HM). simpl. lia.
    + done.
    + eapply Forall_impl; [exact HM|]. by intros x [? _].
    + intros arg Harg Hnum Hin. destruct (Hcov arg Harg Hnum Hin) as [Hnil|]; [|done]. by apply elem_of_nil in Hnil.
  - destruct (_ && negb (m_hoist_cmul cfg) && _); [done|]. apply finish_sum_ok; [done..|]. eapply numeral_ok; [done| |exact Hc].
    apply sums_refl. apply (proj1 (split_numerals n args (fun _ _ _ _ => VBool false) HF)).
Qed.

Lemma mk_flat_add_core_ok args :
  Forall (bvx n) args ->
  result_ok n (fun I => sumz (map (vn I) args)) (mk_flat_add_core cfg lt get_id std_sort n args).
Proof.
  intros HF. unfold mk_flat_add_core. destruct (existsb _ _); [|by apply mk_nflat_add_core_ok].
  pose proof (flat_adds_ok n args HF) as Hfl.
  pose proof (mk_nflat_add_core_ok (flat_map flat_add args) (proj1 Hfl)) as H.
  destruct (mk_nflat_add_core _ _ _ _ _ _) as [[st e]|]; simpl in *; [|by apply mk_add_app_ok].
  eapply den_ext; [exact H|]. intros I. apply Hfl.
Qed.

Lemma mk_add_core_ok args :
  Forall (bvx n) args -> result_ok n (fun I => sumz (map (vn I) args)) (mk_add_core cfg lt get_id std_sort n args).
Proof.
  intros HF. unfold mk_add_core. destruct args as [|a [|b l]].
  - case_goal; [by apply mk_flat_add_core_ok|by apply mk_nflat_add_core_ok].
  - simpl. inv_Forall. split; [done|]. intros I. apply eqm_eq. simpl. lia.
  - case_goal; [by apply mk_flat_add_core_ok|by apply mk_nflat_add_core_ok].
Qed.
End Additions.

Section Cancel.
Context (n : nat) (Hn : (0 < n)%nat).

Lemma mk_uminus_ok arg : bvx n arg -> result_ok n (fun I => - vn I arg) (mk_uminus n arg).
Proof.
  intros Ha. unfold mk_uminus. destruct (num arg) as [a|] eqn:E; simpl.
  - eapply den_ext; [by apply den_num|]. intros I. cbn beta. by rewrite normalize_ok, (proj2 (num_val n arg a Ha E)).
  - eapply den_ext; [apply mk_cmul_app_ok; [done|by apply den_refl]|]. intros I. apply eqm_eq. lia.
Qed.

Lemma is_zero_val e : bvx n e -> bv_util.is_zero e = true -> forall I, vn I e = 0.
Proof.
  intros He H. unfold bv_util.is_zero in H. destruct (is_numeral e) as [[v w]|] eqn:E; [|done]. read_num.
  by apply Z.eqb_eq in H as ->.
Qed.

Lemma times_num F v e : den n F e -> den n (fun I => v * F I) (mk_mul_app n [mk_num n v; e]).
Proof.
  intros He. eapply den_ext; [apply mk_mul_app_ok; [done|]; apply prods_cons; [by apply den_num|];
    apply prods_cons; [exact He|apply prods_nil]|]. intros I. apply eqm_eq. lia.
Qed.

Lemma times_minus_one F e : den n F e -> den n (fun I => - F I) (mk_mul_app n [mk_num n (-1); e]).
Proof. intros He. eapply den_ext; [by apply (times_num F)|]. intros I. apply eqm_eq. lia. Qed.

Lemma mk_sub_ok a l :
  Forall (bvx n) (a :: l) -> result_ok n (fun I => vn I a - sumz (map (vn I) l)) (mk_sub n (a :: l)).
Proof.
  intros HF. inv_Forall. simpl. destruct l as [|b l]; simpl; [split; [done|]; intros I; apply eqm_eq; lia|].
  apply mk_add_app_ok, (sums_cons n (fun I => vn I a) (fun I => - sumz (map (vn I) (b :: l)))); [done|by apply den_refl|].
  generalize dependent (b :: l). clear b l. intros l HF. induction HF as [|e l He HF IH]; [apply sums_nil|]. rewrite filter_cons.
  assert (Hmul : den n (fun I => - vn I e) (mk_mul_app n [mk_num n (-1); e])) by (by apply times_minus_one, den_refl).
  case_decide as Hz; simpl.
  - eapply sums_ext; [apply (sums_cons n _ _ _ _ Hmul IH)|]. intros I. apply eqm_eq. lia.
  - apply not_false_iff_true in Hz. eapply sums_ext; [exact IH|]. intros I. rewrite (is_zero_val e He Hz). apply eqm_eq. lia.
Qed.

Lemma negated_ok l : Forall (bvx n) l -> sums n (fun I => - sumz (map (vn I) l)) (negated_monomials n l).
Proof.
  induction 1 as [|e l He HF IH]; [apply sums_nil|]. simpl. destruct (get_power_product e) as [a p] eqn:E.
  destruct (power_product_ok n e a p He E) as [Bp Vp].
  eapply sums_ext; [apply (sums_app n (fun I => - (a * vn I p))); [|exact IH]|intros I; cbn beta; rewrite <- Vp; apply eqm_eq; lia].
  destruct (Z.eqb_spec a 0) as [->|_]; [eapply sums_ext; [apply sums_nil|]; intros I; apply eqm_eq; lia|].
  destruct (Z.eqb_spec a (-1)) as [->|_].
  - eapply sums_ext; [apply sums_cons; [by apply den_refl|apply sums_nil]|]. intros I. apply eqm_eq. lia.
  - eapply sums_ext; [apply sums_cons; [by apply times_num, den_refl|apply sums_nil]|]. intros I. apply eqm_eq. lia.
Qed.

(** A numeral on one side, or nothing if it is zero and the side is not empty. *)
Lemma insert_ok F (here : bool) c l :
  sums n F l ->
  sums n (fun I => (if here then c else 0) + F I)
    (if here && (bool_decide (l = []) || negb (c =? 0)) then mk_num n c :: l else l).
Proof.
  intros Hs. destruct here; simpl; [|eapply sums_ext; [done|]; intros I; apply eqm_eq; lia].
  destruct (bool_decide (l = [])); simpl; [by apply (sums_cons n (fun _ => c)); [apply den_num|]|].
  destruct (Z.eqb_spec c 0) as [->|]; simpl; [|by apply (sums_cons n (fun _ => c)); [apply den_num|]].
  eapply sums_ext; [done|]. intros I. apply eqm_eq. lia.
Qed.

Lemma get_monomials_ok e : bvx n e -> sums n (fun I => vn I e) (get_monomials e).
Proof. intros He. by apply flat_add_ok. Qed.

(** The coefficients of the power products of both sides. *)
Lemma common_coeffs I multiple l r :
  (forall pp, pp ∈ multiple -> exists arg, arg ∈ non_numerals l /\ snd (get_power_product arg) = pp) ->
  sumz (map (fun pp => get_coeff pp (collect_coeffs (-1) multiple r (collect_coeffs 1 multiple l [])) * vn I pp)
         (first_seen multiple [] l)) = shared I multiple l - shared I multiple r.
Proof.
  intros Hm. destruct (first_seen_spec multiple [] l) as (HD & HM & Hcov).
  assert (HM' : Forall (fun pp => pp ∈ multiple) (first_seen multiple [] l)) by (eapply Forall_impl; [exact HM|]; by intros x [? _]).
  assert (Hin : forall pp, pp ∈ multiple -> pp ∈ first_seen multiple [] l).
  { intros pp Hpp. destruct (Hm pp Hpp) as (arg & Harg & <-). unfold non_numerals in Harg.
    apply list_elem_of_filter in Harg as [Hnum Harg].
    destruct (Hcov arg Harg) as [Hnil|]; [by rewrite is_num_num, Hnum|done|by apply elem_of_nil in Hnil|done]. }
  rewrite <- (shared_coefs I multiple l (first_seen multiple [] l)), <- (shared_coefs I multiple r (first_seen multiple [] l)) by auto.
  rewrite (map_ext_in _ (fun pp => coef_of pp l * vn I pp + (-1) * (coef_of pp r * vn I pp))).
  - rewrite sumz_plus. replace (map (fun x => -1 * (coef_of x r * vn I x)) (first_seen multiple [] l))
      with (map (Z.mul (-1)) (map (fun x => coef_of x r * vn I x) (first_seen multiple [] l))) by (by rewrite map_map).
    rewrite sumz_mul. lia.
  - intros pp Hpp%list_elem_of_In. rewrite Forall_forall in HM'. rewrite !collect_coeffs_ok by (by apply HM'). simpl. lia.
Qed.
End Cancel.

Section CancelOk.
Context (cfg : params) (lt : expr -> expr -> bool) (get_id : expr -> Z).
Context (std_sort : (expr -> expr -> bool) -> list expr -> list expr).
Hypothesis sort_perm : forall r l, std_sort r l ≡ₚ l.
Context (n : nat) (Hn : (0 < n)%nat).

(** The difference of the two sides is kept. *)
Lemma cancel_monomials_ok lhs rhs move l r :
  bvx n lhs -> bvx n rhs -> cancel_monomials cfg lt get_id std_sort n lhs rhs move = Some (l, r) ->
  bvx n l /\ bvx n r /\ forall I, eqm n (vn I l - vn I r) (vn I lhs - vn I rhs).
Proof.
  intros Hl Hr H. unfold cancel_monomials in H. destruct (nothing_to_cancel _ _ _ _ _); [done|].
  destruct (get_monomials_ok n lhs Hl) as [HFl Vl]. destruct (get_monomials_ok n rhs Hr) as [HFr Vr].
  set (ls := get_monomials lhs) in *. set (rs := get_monomials rhs) in *.
  set (multiple := filter _ _) in *. set (c := normalize n (_ - _)) in *.
  set (products := copy_products _ _ _ _ _ _) in *. set (kept := kept_monomials multiple rs) in *.
  assert (Hm : forall pp, pp ∈ multiple -> exists arg, arg ∈ non_numerals ls /\ snd (get_power_product arg) = pp).
  { intros pp [Hpp _]%list_elem_of_filter. apply list_elem_of_fmap in Hpp as (arg & -> & Harg). by exists arg. }
  assert (Hp : sums n (fun I => sumz (map (vn I) (kept_monomials multiple ls)) + (shared I multiple ls - shared I multiple rs)) products).
  { eapply sums_ext; [by apply (copy_products_ok n Hn)|]. intros I. cbn beta. by rewrite (common_coeffs n). }
  assert (Hk : sums n (fun I => sumz (map (vn I) kept)) kept) by (apply sums_refl; by apply kept_bvx).
  assert (Hc : forall I, eqm n (c + (sumz (map (vn I) (kept_monomials multiple ls)) + (shared I multiple ls - shared I multiple rs))
                                - sumz (map (vn I) kept)) (vn I lhs - vn I rhs)).
  { intros I. unfold c. rewrite normalize_ok, !add_numerals_eq, <- Vl, <- Vr.
    rewrite (proj1 (proj2 (split_numerals n ls I HFl))), (proj1 (proj2 (split_numerals n rs I HFr))).
    rewrite (split_shared n I multiple ls HFl), (split_shared n I multiple rs HFr). apply eqm_eq. fold kept. lia. }
  set (new_lhs := if move && _ then _ else _) in H. set (new_rhs := if move then [] else kept) in H.
  assert (Hnl : sums n (fun I => (sumz (map (vn I) (kept_monomials multiple ls)) + (shared I multiple ls - shared I multiple rs))
      - (if move then sumz (map (vn I) kept) else 0)) new_lhs).
  { assert (Happ : sums n (fun I => (sumz (map (vn I) (kept_monomials multiple ls)) + (shared I multiple ls - shared I multiple rs))
      - (if move then sumz (map (vn I) kept) else 0)) (products ++ (if move then negated_monomials n kept else []))).
    { eapply sums_ext; [apply (sums_app n _ (fun I => - (if move then sumz (map (vn I) kept) else 0)) _ _ Hp)|].
      - destruct move; [apply (negated_ok n Hn), Hk|apply sums_nil].
      - intros I. apply eqm_eq. lia. }
    unfold new_lhs. destruct (move && _); [|exact Happ]. eapply sums_perm; [apply sort_perm|exact Happ]. }
  assert (Hnr : sums n (fun I => if move then 0 else sumz (map (vn I) kept)) new_rhs).
  { unfold new_rhs. destruct move; [apply sums_nil|done]. }
  clearbody new_lhs new_rhs c. injection H as <- <-.
  destruct (move || _ || _); cbn [negb].
  - pose proof (mk_add_app_ok n Hn _ _ (insert_ok n Hn _ false (normalize n (- c)) _ Hnl)) as [Bl Wl].
    pose proof (mk_add_app_ok n Hn _ _ (insert_ok n Hn _ true (normalize n (- c)) _ Hnr)) as [Br Wr].
    split_and!; [exact Bl|exact Br|]. intros I. simpl in *. rewrite Wl, Wr, normalize_ok, <- Hc. apply eqm_eq. destruct move; lia.
  - pose proof (mk_add_app_ok n Hn _ _ (insert_ok n Hn _ true c _ Hnl)) as [Bl Wl].
    pose proof (mk_add_app_ok n Hn _ _ (insert_ok n Hn _ false c _ Hnr)) as [Br Wr].
    split_and!; [exact Bl|exact Br|]. intros I. simpl in *. rewrite Wl, Wr, <- Hc. apply eqm_eq. destruct move; lia.
Qed.

(** Both sides are equal exactly when they were. *)
Lemma cancel_monomials_iff lhs rhs move l r I :
  bvx n lhs -> bvx n rhs -> cancel_monomials cfg lt get_id std_sort n lhs rhs move = Some (l, r) ->
  vn I l = vn I r <-> vn I lhs = vn I rhs.
Proof.
  intros Hl Hr H. destruct (cancel_monomials_ok lhs rhs move l r Hl Hr H) as (Bl & Br & V). specialize (V I).
  assert (Hd : forall x y, fits n x -> fits n y -> eqm n (x - y) 0 <-> x = y).
  { intros x y Hx Hy. split; [|intros ->; apply eqm_eq; lia]. intros E. apply (eqm_small n); [done..|].
    replace x with ((x - y) + y) by lia. rewrite E. apply eqm_eq. lia. }
  rewrite <- (Hd (vn I l)), <- (Hd (vn I lhs)) by (by apply fits_vn). by rewrite V.
Qed.
End CancelOk.
