(* ===== verification/BvTrailingSound.v ===== *)
(** * BvTrailingSound: bounds on trailing zeros, and their removal

    The cache returns what the analysis would compute; the bounds it computes
    hold of every value; and where concatenations have only numerals and terms
    that are not opened as arguments, the equation that is left is equivalent. *)
From Stdlib Require Import ZArith Lia Morphisms.
From stdpp Require Import base list.
From S2P Require Import Prelude Bits UBits Ast BvUtil AstFacts TermFacts BvTerms BoolRewriter BvRewriter.
From S2P Require Import PolyRewriter BvTrailing.
From S2P Require Import BvRewriterDiv BvRewriterExtract BvRewriterCmp PolyRewriterSound.
Import bv_rewriter poly_rewriter bv_trailing.

Local Open Scope Z_scope.

(** ** The analysis without a cache *)

Fixpoint trailing (depth : nat) (e : expr) : nat * nat :=
  match depth with
  | O => (0%nat, get_bv_size e)
  | S d => fst (count_trailing_core (fun a (_ : unit) => (trailing d a, tt)) e tt)
  end.

Section Agree.
Context {C : Type} (count : expr -> C -> (nat * nat) * C) (f : expr -> nat * nat) (P : C -> Prop).
Hypothesis count_ok : forall e c, P c -> fst (count e c) = f e /\ P (snd (count e c)).

Let pure (a : expr) (_ : unit) : (nat * nat) * unit := (f a, tt).

Lemma concat_loop_agree l u mn mx c :
  P c -> fst (concat_loop count l u mn mx c) = fst (concat_loop pure l u mn mx tt) /\ P (snd (concat_loop count l u mn mx c)).
Proof.
  revert u mn mx c. induction l as [|a l IH]; intros u mn mx c Hc; simpl; [done|].
  destruct (count_ok a c Hc) as [E H]. destruct (count a c) as [[tn tx] c']. simpl in E, H. rewrite <- E.
  destruct (get_bv_size a =? tx)%nat; [by apply IH|done].
Qed.

Lemma add_loop_agree l mn k o c :
  P c -> fst (add_loop count l mn k o c) = fst (add_loop pure l mn k o tt) /\ P (snd (add_loop count l mn k o c)).
Proof.
  revert mn k o c. induction l as [|a l IH]; intros mn k o c Hc; simpl; [done|].
  destruct (count_ok a c Hc) as [E H]. destruct (count a c) as [[tn tx] c']. simpl in E, H. rewrite <- E.
  destruct (_ && (Nat.min mn tn =? 0)%nat); [done|by apply IH].
Qed.

Lemma core_agree e c :
  P c -> fst (count_trailing_core count e c) = fst (count_trailing_core pure e tt) /\ P (snd (count_trailing_core count e c)).
Proof.
  intros Hc. unfold count_trailing_core. destruct (is_numeral e) as [[v w]|]; [done|]. destruct e as [o l]. destruct o; try done.
  - destruct (add_loop_agree l (get_bv_size (App OP_BADD l)) true false c Hc) as [E H].
    destruct (add_loop count _ _ _ _ _) as [[[mn k] od] c']. destruct (add_loop pure _ _ _ _ _) as [[[mn' k'] od'] []].
    simpl in *. by injection E as -> -> ->.
  - destruct l as [|a l]; [done|]. destruct (count_ok a c Hc) as [E H]. unfold pure. destruct (count a c) as [[tn tx] c'].
    simpl in *. by rewrite <- E.
  - by apply concat_loop_agree.
Qed.
End Agree.

Definition cache_ok (c : cache) : Prop := Forall (fun x => bounds x = trailing (depth_of x) (key x)) c.

Lemma find_core_ok d e c b : cache_ok c -> find_core d e c = Some b -> b = trailing d e.
Proof.
  intros Hc H. unfold find_core in H. destruct (list_find _ c) as [[i x]|] eqn:E; [|done]. injection H as <-.
  apply list_find_Some in E as (Hx & [<- <-] & _). by apply (Forall_lookup_1 _ _ _ _ Hc) in Hx.
Qed.

(** The cache does not show. *)
Lemma count_trailing_ok d e c :
  cache_ok c -> fst (count_trailing d e c) = trailing d e /\ cache_ok (snd (count_trailing d e c)).
Proof.
  revert e c. induction d as [|d IH]; intros e c Hc; [done|]. cbn [count_trailing]. unfold is_cached.
  cbn [Nat.eqb]. destruct (find_core (S d) e c) as [b|] eqn:E.
  { split; [|done]. by apply find_core_ok in E. }
  destruct (core_agree (count_trailing d) (trailing d) cache_ok IH e c Hc) as [Ef Hf].
  destruct (count_trailing_core (count_trailing d) e c) as [b c']. simpl in *. split; [done|]. by constructor.
Qed.

Lemma reset_cache_ok k c : cache_ok c -> cache_ok (reset_cache k c).
Proof.
  intros Hc. unfold cache_ok, reset_cache in *. rewrite Forall_forall in *. intros x [_ Hx]%list_elem_of_filter. by apply Hc.
Qed.

(** ** Counting the zeros of a number *)

Lemma strip_zeros_ok k v r w :
  0 <= v -> strip_zeros k v = (r, w) -> (r <= k)%nat /\ v = w * pow2 r /\ 0 <= w /\ ((r < k)%nat -> Z.odd w = true).
Proof.
  revert v r w. induction k as [|k IH]; intros v r w Hv H; simpl in H.
  - injection H as <- <-. rewrite pow2_0. split_and!; [lia|lia|done|lia].
  - destruct (Z.even v) eqn:E.
    + destruct (strip_zeros k (v / 2)) as [r' w'] eqn:Es. injection H as <- <-.
      destruct (IH (v / 2) r' w' ltac:(apply Z.div_pos; lia) Es) as (L & Hv' & Hw & Ho). rewrite pow2_S.
      split_and!; [lia| |done|intros; apply Ho; lia].
      apply Z.even_spec in E as [q ->]. rewrite (Z.mul_comm 2 q), Z.div_mul in Hv' by lia. lia.
    + injection H as <- <-. rewrite pow2_0. split_and!; [lia|lia|done|]. intros _. by rewrite <- Z.negb_even, E.
Qed.

Lemma strip_zeros_0 k : fst (strip_zeros k 0) = k.
Proof. induction k as [|k IH]; simpl; [done|]. change (0 / 2) with 0. destruct (strip_zeros k 0). simpl in *. by rewrite IH. Qed.

(** [v], of [n] bits, ends in at least [mn] and at most [mx] zeros. *)
Definition zeros_between (n : nat) (v : Z) (b : nat * nat) : Prop :=
  (b.1 <= b.2)%nat /\ (b.2 <= n)%nat /\ (pow2 b.1 | v) /\ ((b.2 < n)%nat -> ~ (pow2 (S b.2) | v)).

Lemma pow2_divide a b : (a <= b)%nat -> (pow2 a | pow2 b).
Proof. intros H. exists (pow2 (b - a)). rewrite <- pow2_add. f_equal. lia. Qed.

Lemma divide_eqm n x y k : eqm n x y -> (k <= n)%nat -> (pow2 k | x) <-> (pow2 k | y).
Proof.
  intros E Hk. assert (H : forall u v, eqm n u v -> (pow2 k | u) -> (pow2 k | v)); [|split; apply H; [done|by symmetry]].
  intros u v Euv Hu. pose proof (pow2_pos n). unfold eqm in Euv. pose proof (Z.div_mod u (pow2 n) ltac:(lia)) as Du.
  pose proof (Z.div_mod v (pow2 n) ltac:(lia)) as Dv. replace v with (u + pow2 n * (v / pow2 n - u / pow2 n)) by lia.
  apply Z.divide_add_r; [done|]. by apply Z.divide_mul_l, pow2_divide.
Qed.

Lemma odd_not_divide w r : Z.odd w = true -> ~ (pow2 (S r) | w * pow2 r).
Proof.
  intros Hw [q Hq]. rewrite pow2_S in Hq. pose proof (pow2_pos r). assert (w = 2 * q) by nia. subst w.
  by rewrite Z.odd_mul in Hw.
Qed.

Lemma zeros_trivial n v : zeros_between n v (0%nat, n).
Proof. split_and!; simpl; [lia|lia|apply Z.divide_1_l|lia]. Qed.

Lemma zeros_num n v : fits n v -> zeros_between n v (fst (strip_zeros n v), fst (strip_zeros n v)).
Proof.
  intros [Hv _]. destruct (strip_zeros n v) as [r w] eqn:E. destruct (strip_zeros_ok n v r w Hv E) as (L & -> & Hw & Ho).
  split_and!; simpl; [lia|done|by exists w|]. intros Hr. by apply odd_not_divide, Ho.
Qed.

(** ** Concatenations from their last argument *)

Fixpoint rcat (I : interp) (ss : list nat) (l : list expr) : Z :=
  match ss, l with
  | s :: ss, a :: l => rcat I ss l * pow2 s + vn I a
  | _, _ => 0
  end.

Lemma rcat_catz I ss l : bvxs ss l -> catz (rev ss) (map (vn I) (rev l)) = rcat I ss l.
Proof.
  induction 1 as [|s a ss l Ha HF IH]; simpl; [done|]. rewrite map_app, catz_app.
  - rewrite IH. simpl. rewrite pow2_0, Nat.add_0_r. lia.
  - rewrite length_map, !length_rev. by apply (Forall2_length _ _ _ HF).
Qed.

Lemma bvxs_rev ss l : bvxs ss l -> bvxs (rev ss) (rev l).
Proof. induction 1 as [|s a ss l Ha HF IH]; simpl; [constructor|]. apply Forall2_app; [done|by repeat constructor]. Qed.

Lemma sum_list_rev ss : sum_list (rev ss) = sum_list ss.
Proof. induction ss as [|s ss IH]; simpl; [done|]. rewrite sum_list_split. simpl. lia. Qed.

(** A concatenation and its arguments in the order in which they are opened. *)
Lemma concat_rev_inv n args :
  bvx n (App OP_CONCAT args) ->
  exists ss, args <> [] /\ bvxs ss (rev args) /\ n = sum_list ss /\ forall I, vn I (App OP_CONCAT args) = rcat I ss (rev args).
Proof.
  intros Ha. destruct (concat_inv args _ Ha) as (ns & Hne & HF & [= ->]). exists (rev ns).
  pose proof (bvxs_rev ns args HF) as HR. split_and!; [done|done|by rewrite sum_list_rev|]. intros I.
  rewrite (proj2 (holds_concat ns args Hne HF)), <- (rcat_catz I _ _ HR). by rewrite !rev_involutive.
Qed.

(** Low zeros do not see what is above them. *)
Lemma zeros_below k W y V mn mx :
  (mx < W)%nat -> zeros_between W V (mn, mx) -> zeros_between (k + W) (y * pow2 W + V) (mn, mx).
Proof.
  intros Hm (H1 & H2 & H3 & H4). simpl in *. split_and!; simpl; [done|lia| |].
  - apply Z.divide_add_r; [|done]. apply Z.divide_mul_r, pow2_divide. lia.
  - intros _ Hd. apply H4; [done|]. apply (Z.divide_add_cancel_r _ (y * pow2 W)); [|done]. apply Z.divide_mul_r, pow2_divide. lia.
Qed.

Section Bounds.
Context (f : expr -> nat * nat) (I : interp).
Hypothesis f_ok : forall n e, bvx n e -> zeros_between n (vn I e) (f e).

Let pure (a : expr) (_ : unit) : (nat * nat) * unit := (f a, tt).

Lemma concat_step s W x V (u : bool) mn tn tx :
  fits W V -> zeros_between W V (mn, W) -> (u = true -> mn = W) -> zeros_between s x (tn, tx) ->
  zeros_between (s + W) (x * pow2 W + V) (if u then (mn + tn)%nat else mn, (W + tx)%nat).
Proof.
  intros FV (A1 & A2 & A3 & A4) Hu (B1 & B2 & B3 & B4). simpl in *.
  assert (Hz : mn = W -> V = 0).
  { intros ->. destruct A3 as [q ->]. pose proof (pow2_pos W). unfold fits in FV. destruct (Z.eq_dec q 0) as [->|]; [done|nia]. }
  split_and!; simpl; [destruct u; lia|lia| |].
  - destruct u.
    + rewrite (Hu eq_refl), (Hz (Hu eq_refl)), Z.add_0_r, pow2_add, Z.mul_comm. by apply Z.mul_divide_mono_r.
    + apply Z.divide_add_r; [|done]. by apply Z.divide_mul_r, pow2_divide.
  - intros Hlt [q Hq]. apply B4; [lia|]. replace (S (W + tx)) with (S tx + W)%nat in Hq by lia. rewrite pow2_add in Hq.
    pose proof (pow2_pos W). exists q. unfold fits in FV. assert (pow2 W * (q * pow2 (S tx) - x) = V) by nia.
    assert (q * pow2 (S tx) - x = 0) by nia. lia.
Qed.

Lemma trailing_concat_loop_ok ss l u W V mn :
  bvxs ss l -> fits W V -> zeros_between W V (mn, W) -> (u = true -> mn = W) ->
  zeros_between (sum_list ss + W) (rcat I ss l * pow2 W + V) (fst (concat_loop pure l u mn W tt)).
Proof.
  intros HF. revert u W V mn. induction HF as [|s a ss l Ha HF IH]; intros u W V mn FV Hz Hu; simpl; [done|].
  pose proof (f_ok s a Ha) as Hs. destruct (f a) as [tn tx] eqn:E. rewrite (get_bv_size_eq s a Ha).
  pose proof (concat_step s W (vn I a) V u mn tn tx FV Hz Hu Hs) as Hst.
  assert (FV' : fits (s + W) (vn I a * pow2 W + V)).
  { unfold fits in *. pose proof (vn_bounds I s a Ha). rewrite pow2_add. nia. }
  replace ((rcat I ss l * pow2 s + vn I a) * pow2 W + V) with (rcat I ss l * pow2 (s + W) + (vn I a * pow2 W + V))
    by (rewrite pow2_add; lia).
  replace (s + sum_list ss + W)%nat with (sum_list ss + (s + W))%nat by lia.
  destruct (Nat.eqb_spec s tx) as [<-|Hne].
  - replace (W + s)%nat with (s + W)%nat in * by lia. apply IH; [done|exact Hst|].
    intros [-> Htn]%andb_true_iff. apply Nat.eqb_eq in Htn as <-. rewrite (Hu eq_refl). lia.
  - destruct Hs as (_ & Htx & _). simpl in Htx. simpl. apply zeros_below; [lia|exact Hst].
Qed.

Lemma parity_step S x k o tn tx :
  (k = true -> Z.odd S = o) -> (pow2 tn | x) -> (tx = 0%nat -> ~ (pow2 1 | x)) ->
  let k' := k && ((tx =? 0)%nat || negb (tn =? 0)%nat) in
  k' = true -> Z.odd (S + x) = if k' && (tx =? 0)%nat then negb o else o.
Proof.
  intros Hk Hn Hx k' Hk'. unfold k' in *. rewrite Hk'. apply andb_true_iff in Hk' as [-> Hb]. rewrite Z.odd_add, (Hk eq_refl).
  destruct (Nat.eqb_spec tx 0) as [->|Htx]; simpl in *.
  - replace (Z.odd x) with true; [by destruct o|]. symmetry. apply Z.odd_spec. specialize (Hx eq_refl).
    destruct (Z.Even_or_Odd x) as [[q ->]|]; [|done]. destruct Hx. exists q. rewrite pow2_S, pow2_0. lia.
  - replace (Z.odd x) with false; [by destruct o|]. symmetry. destruct tn as [|tn]; [done|]. destruct Hn as [q ->].
    rewrite pow2_S. replace (q * (2 * pow2 tn)) with (2 * (q * pow2 tn)) by lia. apply Z.odd_mul.
Qed.

Lemma add_loop_ok n l S mn k o r :
  Forall (bvx n) l -> (mn <= n)%nat -> (pow2 mn | S) -> (k = true -> Z.odd S = o) ->
  fst (add_loop pure l mn k o tt) = r ->
  (r.1.1 <= n)%nat /\ (pow2 r.1.1 | S + sumz (map (vn I) l)) /\ (r.1.2 = true -> Z.odd (S + sumz (map (vn I) l)) = r.2).
Proof.
  intros HF. revert S mn k o. induction HF as [|a l Ha HF IH]; intros S mn k o Hmn HS Hk H.
  - simpl in *. subst r. simpl. rewrite Z.add_0_r. done.
  - simpl in H. pose proof (f_ok n a Ha) as (B1 & B2 & B3 & B4). destruct (f a) as [tn tx] eqn:E. simpl in *.
    rewrite Z.add_assoc. pose proof (parity_step S (vn I a) k o tn tx Hk B3) as Hp. cbv zeta in Hp.
    assert (Hd : (pow2 (Nat.min mn tn) | S + vn I a)).
    { apply Z.divide_add_r; [transitivity (pow2 mn)|transitivity (pow2 tn)]; try done; apply pow2_divide; lia. }
    set (k' := k && _) in *. destruct (negb k' && _) eqn:Eb.
    + apply andb_true_iff in Eb as [Ek Em%Nat.eqb_eq]. apply negb_true_iff in Ek. subst r. simpl. rewrite Em, Ek, pow2_0.
      split_and!; [lia|apply Z.divide_1_l|done].
    + refine (IH _ _ _ _ _ Hd _ H); [lia|]. apply Hp. intros ->. apply B4. by eapply bvx_pos.
Qed.
End Bounds.

(** The analysis is right. *)
Lemma trailing_ok d n e I : bvx n e -> zeros_between n (vn I e) (trailing d e).
Proof.
  revert n e. induction d as [|d IH]; intros n e He; cbn [trailing]; [rewrite (get_bv_size_eq n e He); apply zeros_trivial|].
  unfold count_trailing_core. destruct (is_numeral e) as [[v w]|] eqn:En.
  { read_num. rewrite V. by apply zeros_num. }
  destruct e as [o l]. destruct o; try (rewrite (get_bv_size_eq n _ He); apply zeros_trivial).
  - destruct (is_add_sums n _ l He eq_refl) as [[HF Vs] _]. rewrite (get_bv_size_eq n _ He).
    destruct (add_loop _ _ _ _ _ _) as [[[mn k] o] []] eqn:E.
    destruct (add_loop_ok (trailing d) I IH n l 0 n true false (mn, k, o) HF) as (H1 & H2 & H3);
      [done|by exists 0|done|by rewrite E|]. simpl in H1, H2, H3. rewrite Z.add_0_l in H2, H3.
    specialize (Vs I).
    assert (Hdiv : forall j, (j <= n)%nat -> (pow2 j | sumz (map (vn I) l)) <-> (pow2 j | vn I (App OP_BADD l))) by (intros; by apply divide_eqm with n).
    simpl. destruct (k && o) eqn:Ek.
    + apply andb_true_iff in Ek as [-> ->]. specialize (H3 eq_refl). assert (mn = 0%nat) as ->.
      { destruct mn as [|mn]; [done|]. exfalso. destruct H2 as [q Hq]. rewrite pow2_S in Hq.
        replace (q * (2 * pow2 mn)) with (2 * (q * pow2 mn)) in Hq by lia. rewrite Hq, Z.odd_mul in H3. done. }
      split_and!; simpl; [done|lia|apply Z.divide_1_l|]. intros Hn Hd. apply Hdiv in Hd; [|lia].
      rewrite <- (Z.mul_1_r (sumz _)), <- pow2_0 in Hd. by apply (odd_not_divide _ 0 H3).
    + split_and!; simpl; [done|done|by apply Hdiv|lia].
  - destruct l as [|a l]; [by destruct (is_mul_prods n _ _ He eq_refl) as [_ ?]|].
    destruct (is_mul_prods n _ (a :: l) He eq_refl) as [[HF Vp] _]. inv_Forall.
    destruct (IH n a ltac:(done)) as (B1 & B2 & B3 & B4). destruct (trailing d a) as [tn tx]. simpl in *. specialize (Vp I).
    assert (Hdiv : (pow2 tn | vn I (App OP_BMUL (a :: l)))).
    { apply (divide_eqm n _ _ tn Vp); [lia|]. rewrite prodz_cons. by apply Z.divide_mul_l. }
    destruct l as [|b l].
    + split_and!; simpl; [done|done|exact Hdiv|]. intros Hx Hd. apply B4; [done|].
      apply (divide_eqm n _ _ (S tx) Vp) in Hd; [|lia]. rewrite prodz_cons in Hd. unfold prodz in Hd. simpl in Hd. by rewrite Z.mul_1_r in Hd.
    + rewrite (get_bv_size_eq n _ He). split_and!; simpl; [lia|done|exact Hdiv|lia].
  - destruct (concat_rev_inv n l He) as (ss & Hne & HF & -> & V). rewrite V.
    replace (rcat I ss (rev l)) with (rcat I ss (rev l) * pow2 0 + 0) by (rewrite pow2_0; lia).
    rewrite <- (Nat.add_0_r (sum_list ss)). apply trailing_concat_loop_ok; [exact IH|done|unfold fits; rewrite pow2_0; lia|apply zeros_trivial|done].
Qed.

(** ** Removal *)

Definition opened (e : expr) : bool := match e with App (OP_BADD | OP_BMUL | OP_CONCAT) _ => true | _ => false end.

(** The arguments of concatenations are numerals or terms that are not opened. *)
Fixpoint plain (e : expr) : bool :=
  match e with
  | App OP_CONCAT args => forallb (fun a => is_num a || negb (opened a)) args
  | App (OP_BADD | OP_BMUL) args => forallb plain args
  | _ => true
  end.

(** [res] is [e], of [n] bits, without its [k] low bits, which are zero. *)
Definition without (n : nat) (e : expr) (k : nat) (res : option expr) : Prop :=
  match res with
  | None => k = n /\ forall I, vn I e = 0
  | Some r => (k < n)%nat /\ bvx (n - k) r /\ forall I, vn I e = vn I r * pow2 k
  end.

Lemma scale_ok n k v F : (k <= n)%nat -> fits n v -> eqm n v (F * pow2 k) -> v = F mod pow2 (n - k) * pow2 k.
Proof.
  intros Hk Hv E. rewrite <- (Z.mod_small v (pow2 n) Hv). unfold eqm in E. rewrite E.
  pose proof (pow2_pos k). pose proof (pow2_pos (n - k)).
  rewrite <- Z.mul_mod_distr_r by lia. f_equal. rewrite <- pow2_add. f_equal. lia.
Qed.

(** A rule for a result that denotes [F] at the smaller width. *)
Lemma without_den n e k F r :
  (k < n)%nat -> bvx n e -> den (n - k) F r -> (forall I, eqm n (vn I e) (F I * pow2 k)) -> without n e k (Some r).
Proof.
  intros Hk He [Br Vr] HF. split_and!; [done|done|]. intros I.
  rewrite (scale_ok n k (vn I e) (F I) ltac:(lia) ltac:(by apply fits_vn) (HF I)). f_equal.
  rewrite <- Vr. apply Z.mod_small. by apply vn_bounds.
Qed.

Lemma zeros_all n e mn : bvx n e -> (forall I, (pow2 mn | vn I e)) -> mn = n -> forall I, vn I e = 0.
Proof.
  intros He Hd -> I. destruct (Hd I) as [q Hq]. pose proof (vn_bounds I n e He). destruct (Z.eq_dec q 0) as [->|]; [done|].
  pose proof (pow2_pos n). nia.
Qed.

Lemma trailing_divides d n e I : bvx n e -> (pow2 (trailing d e).1 | vn I e).
Proof. intros He. by apply (trailing_ok d n e I He). Qed.

Lemma remove_num d n e v k c m old :
  bvx n e -> is_numeral e = Some (v, n) -> (0 < m)%nat ->
  exists res, remove_trailing (S d) e m old c = Some (fst (strip_zeros (Nat.min m n) v), res, c)
    /\ (k = fst (strip_zeros (Nat.min m n) v) -> (k <= n)%nat /\ without n e k res).
Proof.
  intros He En Hm. cbn [remove_trailing]. rewrite (proj2 (Nat.eqb_neq m 0)) by lia. rewrite En.
  assert (Hv : fits n v /\ forall I, vn I e = v).
  { destruct (is_numeral_inv n e v n He En) as (_ & B & _ & V). done. }
  destruct Hv as [Fv Vv]. destruct (strip_zeros (Nat.min m n) v) as [r w] eqn:E. simpl.
  destruct (strip_zeros_ok _ v r w ltac:(by destruct Fv) E) as (L & Hvw & Hw & _). eexists. split; [reflexivity|]. intros ->.
  split; [lia|]. destruct (Nat.eqb_spec (n - r) 0).
  - assert (r = n) as -> by lia. split; [done|]. intros I. rewrite Vv. unfold fits in Fv. pose proof (pow2_pos n).
    destruct (Z.eq_dec w 0) as [->|]; [lia|nia].
  - destruct (Nat.eqb_spec r 0) as [->|Hr].
    + unfold without. rewrite Nat.sub_0_r. split_and!; [lia|done|]. intros I. rewrite pow2_0. lia.
    + apply (without_den n e r (fun _ => w)); [lia|done|apply den_num; lia|]. intros I. apply eqm_eq. by rewrite Vv.
Qed.

Lemma concat_loop_stop (f : expr -> nat * nat) l mn mx :
  (fst (concat_loop (fun a (_ : unit) => (f a, tt)) l false mn mx tt)).1 = mn.
Proof.
  revert mx. induction l as [|a l IH]; intros mx; simpl; [done|]. destruct (f a) as [tn tx]. by destruct (_ =? _)%nat.
Qed.

Lemma opaque_trailing d e : is_num e = false -> opened e = false -> trailing (S d) e = (0%nat, get_bv_size e).
Proof.
  intros Hn Ho. cbn [trailing]. unfold count_trailing_core. rewrite is_num_num in Hn. unfold num in Hn.
  destruct (is_numeral e); [done|]. destruct e as [o l]. by destruct o.
Qed.

Lemma opaque_remove d e m old c : is_num e = false -> opened e = false -> (0 < m)%nat ->
  remove_trailing (S d) e m old c = Some (0%nat, old, c).
Proof.
  intros Hn Ho Hm. cbn [remove_trailing]. rewrite (proj2 (Nat.eqb_neq m 0)) by lia. rewrite is_num_num in Hn. unfold num in Hn.
  destruct (is_numeral e); [done|]. destruct e as [o l]. by destruct o.
Qed.

(** What the loop over the arguments of a concatenation leaves: [w] bits of an
    argument, with the value [F], and the arguments before it. *)
Definition parts_left (ss : list nat) (rargs : list expr) (retv k : nat) (nl : option expr) (rest : list expr) : Prop :=
  exists ss2 w F, bvxs ss2 rest
    /\ match nl with None => w = 0%nat /\ (forall I, F I = 0) | Some r => bvx w r /\ forall I, F I = vn I r end
    /\ (sum_list ss + retv = sum_list ss2 + w + k)%nat /\ (retv <= k)%nat
    /\ forall I, rcat I ss rargs = (rcat I ss2 rest * pow2 w + F I) * pow2 (k - retv).

Lemma remove_parts_ok d n ss rargs retv c k nl rest c' :
  bvxs ss rargs -> forallb (fun a => is_num a || negb (opened a)) rargs = true ->
  (n <= (fst (concat_loop (fun a (_ : unit) => (trailing (S d) a, tt)) rargs true retv retv tt)).1)%nat ->
  remove_parts (remove_trailing (S d)) n rargs retv None c = Some (k, nl, rest, c') ->
  c' = c /\ parts_left ss rargs retv k nl rest.
Proof.
  intros HF. revert retv. induction HF as [|s a ss l Ha HF IH]; intros retv Hp Hn H.
  { injection H as <- <- <- <-. split; [done|]. exists [], 0%nat, (fun _ => 0).
    split_and!; [constructor|done|done|simpl; lia|done|]. intros I. done. }
  cbn [remove_parts] in H. simpl in Hp. apply andb_true_iff in Hp as [Hpa Hpl]. destruct (Nat.ltb_spec retv n) as [Hlt|Hge].
  2:{ injection H as <- <- <- <-. split; [done|]. exists (s :: ss), 0%nat, (fun _ => 0).
      split_and!; [by constructor|done|done|lia|done|]. intros I. rewrite Nat.sub_diag, pow2_0. lia. }
  destruct (is_num a) eqn:Ea.
  - rewrite is_num_num in Ea. unfold num in Ea. destruct (is_numeral a) as [[v w]|] eqn:En; [|done].
    assert (w = s) as -> by (destruct (is_numeral_inv s a v w Ha En) as (-> & _); done).
    destruct (remove_num d s a v (fst (strip_zeros (Nat.min n s) v)) c n None Ha En ltac:(lia)) as (res & Hr & Hw).
    specialize (Hw eq_refl). destruct Hw as [Hks Hw]. rewrite Hr in H. set (k1 := fst (strip_zeros (Nat.min n s) v)) in *. unfold mbind, option_bind in H. cbv beta iota in H.
    rewrite (get_bv_size_eq s a Ha) in H. destruct (Nat.ltb_spec k1 s) as [Hk1|Hk1].
    + injection H as <- <- <- <-. split; [done|]. destruct res as [r|]; [|destruct Hw; lia]. destruct Hw as (_ & Br & Vr).
      exists ss, (s - k1)%nat, (fun I => vn I r). split_and!; [done|done|done|simpl; lia|lia|]. intros I. simpl. rewrite Vr.
      replace (retv + k1 - retv)%nat with k1 by lia. replace (pow2 s) with (pow2 (s - k1) * pow2 k1) by (rewrite <- pow2_add; f_equal; lia).
      lia.
    + assert (k1 = s) as E1 by lia. rewrite E1 in *. destruct res as [r|]; [destruct Hw; lia|]. destruct Hw as [_ Hz].
      assert (Ht : trailing (S d) a = (s, s)).
      { cbn [trailing]. unfold count_trailing_core. rewrite En. cbn. assert (v = 0) as ->.
        { pose proof (Hz (fun _ _ _ _ => VBool false)) as Hv0. destruct (is_numeral_inv s a v s Ha En) as (_ & _ & _ & V). by rewrite V in Hv0. }
        by rewrite strip_zeros_0. }
      simpl in Hn. cbn [trailing] in Ht. rewrite Ht, (get_bv_size_eq s a Ha), Nat.eqb_refl in Hn. simpl in Hn.
      destruct (IH (retv + s)%nat Hpl Hn H) as (-> & ss2 & w & F & H1 & H2 & H3 & H4 & H5). split; [done|].
      exists ss2, w, F. split_and!; [done|done|simpl; lia|lia|]. intros I. simpl. rewrite Hz, H5.
      replace (k - retv)%nat with (k - (retv + s) + s)%nat by lia. rewrite (pow2_add (k - (retv + s)) s). lia.
  - simpl in Hpa. apply negb_true_iff in Hpa. exfalso. cbn [concat_loop] in Hn.
    rewrite (opaque_trailing d a Ea Hpa), Nat.eqb_refl, (get_bv_size_eq s a Ha) in Hn. pose proof (bvx_pos s a Ha).
    rewrite (proj2 (Nat.eqb_neq s 0)) in Hn by lia. simpl in Hn. rewrite concat_loop_stop in Hn. lia.
Qed.

Lemma remove_concat_ok d n args m c k res c' :
  bvx n (App OP_CONCAT args) -> plain (App OP_CONCAT args) = true ->
  (m <= (trailing (S (S d)) (App OP_CONCAT args)).1)%nat ->
  remove_trailing_concat (remove_trailing (S d)) (S (S d)) (App OP_CONCAT args) args m c = Some (k, res, c') ->
  c' = c /\ (k <= n)%nat /\ ((0 < k)%nat -> without n (App OP_CONCAT args) k res).
Proof.
  intros He Hp Hm H. unfold remove_trailing_concat in H. cbn [Nat.leb] in H.
  destruct (concat_rev_inv n args He) as (ss & Hne & HF & Hns & V). assert (Hpr : forallb (fun a => is_num a || negb (opened a)) (rev args) = true).
  { cbn [plain] in Hp. rewrite forallb_forall in Hp |- *. intros x Hx. apply Hp. by apply in_rev. }
  destruct (remove_parts _ m (rev args) 0 None c) as [[[[k0 nl] rest] c0]|] eqn:E; [|done]. cbn in H.
  destruct (remove_parts_ok d m ss (rev args) 0 c k0 nl rest c0 HF Hpr Hm E) as (-> & ss2 & w & F & Hrest & Hnl & Hsum & _ & Hv).
  rewrite Nat.sub_0_r in Hv. destruct (Nat.eqb_spec k0 0) as [->|Hk0]; [injection H as <- <- <-; split_and!; [done|lia|lia]|].
  assert (Hwn : (sum_list ss2 + w = n - k0)%nat /\ (k0 <= n)%nat) by lia. destruct Hwn as [Hwn Hkn].
  destruct (decide (rest = [] /\ nl = None)) as [[-> ->]|Hno].
  { injection H as <- <- <-. split_and!; [done|done|]. intros _. apply Forall2_nil_inv_r in Hrest as ->. simpl in *.
    destruct Hnl as [-> HFz]. split; [lia|]. intros I. rewrite V, Hv, HFz. lia. }
  assert (Hres : Some (k0, Some (match rev rest ++ option_list nl with [x] => x | _ => bv_util.mk_concat (rev rest ++ option_list nl) end), c) = Some (k, res, c')).
  { destruct rest; [|exact H]. destruct nl; [exact H|]. by destruct Hno. }
  injection Hres as <- <- <-. split_and!; [done|done|]. intros _.
  assert (HF2 : bvxs (rev ss2 ++ (match nl with None => [] | Some _ => [w] end)) (rev rest ++ option_list nl)).
  { apply Forall2_app; [by apply bvxs_rev|]. destruct nl; [by destruct Hnl; repeat constructor|constructor]. }
  assert (Hlne : rev rest ++ option_list nl <> []).
  { destruct rest as [|a rest]; [destruct nl; [done|by destruct Hno]|]. simpl. by intros [[_ ?]%app_nil _]%app_nil. }
  assert (Hw : sum_list (rev ss2 ++ (match nl with None => [] | Some _ => [w] end)) = (n - k0)%nat).
  { rewrite sum_list_split, sum_list_rev. destruct nl; simpl; [lia|]. destruct Hnl as [-> _]. lia. }
  pose proof (concat_ok _ _ Hlne HF2) as Hc. rewrite Hw in Hc.
  assert (Hpos : (0 < n - k0)%nat) by (rewrite <- Hw; by apply (bvxs_pos _ _ HF2)).
  apply holds_den in Hc. apply (without_den n _ k0 _ _ ltac:(lia) He Hc). intros I. rewrite V, Hv. apply eqm_eq. f_equal.
  rewrite catz_split by (by apply bvxs_rev). rewrite (rcat_catz I _ _ Hrest).
  destruct nl as [r|]; simpl; [destruct Hnl as [_ ->]|destruct Hnl as [-> ->]; simpl; rewrite pow2_0; lia].
  rewrite pow2_0, Nat.add_0_r. lia.
Qed.

Lemma add_loop_min (f : expr -> nat * nat) l mn k o :
  ((fst (add_loop (fun a (_ : unit) => (f a, tt)) l mn k o tt)).1.1 <= mn)%nat
  /\ Forall (fun a => (fst (add_loop (fun a (_ : unit) => (f a, tt)) l mn k o tt)).1.1 <= (f a).1)%nat l.
Proof.
  revert mn k o. induction l as [|a l IH]; intros mn k o; simpl; [split; [lia|constructor]|].
  destruct (f a) as [tn tx] eqn:E. destruct (_ && _) eqn:Eb; simpl.
  - apply andb_true_iff in Eb as [_ Eb%Nat.eqb_eq]. rewrite Eb. split; [lia|]. constructor; [rewrite E; simpl; lia|].
    apply Forall_forall. lia.
  - set (k' := k && _). set (o' := if k' && _ then _ else _). destruct (IH (Nat.min mn tn) k' o') as [H1 H2]. split; [lia|].
    constructor; [rewrite E; simpl; lia|done].
Qed.

Lemma trailing_add d args a : a ∈ args -> ((trailing (S d) (App OP_BADD args)).1 <= (trailing d a).1)%nat.
Proof.
  intros Ha. cbn [trailing]. unfold count_trailing_core. simpl.
  destruct (add_loop_min (trailing d) args (get_bv_size (App OP_BADD args)) true false) as [_ H].
  destruct (add_loop _ _ _ _ _ _) as [[[mn k] o] []]. simpl in *. by apply (proj1 (Forall_forall _ _) H).
Qed.

Definition remove_spec (d : nat) : Prop := forall n e m old c k res c',
  bvx n e -> plain e = true -> cache_ok c -> (m <= (trailing d e).1)%nat ->
  remove_trailing d e m old c = Some (k, res, c') ->
  cache_ok c' /\ (k <= n)%nat /\ ((0 < k)%nat -> without n e k res).

Lemma remove_summands_ok d n k args new_args c c' :
  remove_spec d -> (0 < k < n)%nat -> Forall (bvx n) args -> forallb plain args = true ->
  Forall (fun a => k <= (trailing d a).1)%nat args -> cache_ok c ->
  remove_summands (remove_trailing d) k args c = Some (new_args, c') ->
  cache_ok c' /\ Forall (bvx (n - k)) new_args
  /\ (args <> [] -> new_args <> []) /\ forall I, sumz (map (vn I) args) = sumz (map (vn I) new_args) * pow2 k.
Proof.
  intros IH Hk HF. revert new_args c. induction HF as [|a l Ha HF IHl]; intros new_args c Hp Ht Hc H.
  { injection H as <- <-. split_and!; [done|constructor|done|done]. }
  cbn [remove_summands] in H. simpl in Hp. apply andb_true_iff in Hp as [Hpa Hpl]. inv_Forall.
  destruct (remove_trailing d a k None c) as [[[k1 tmp] c1]|] eqn:E; [|done]. cbn in H. destruct tmp as [t|]; [|done]. cbn in H.
  destruct (Nat.eqb_spec k1 k) as [->|]; [|done]. destruct (remove_summands _ k l c1) as [[ts c2]|] eqn:El; [|done]. injection H as <- <-.
  destruct (IH n a k None c k (Some t) c1) as (Hc1 & _ & Hw); [done..|]. destruct (Hw ltac:(lia)) as (_ & Bt & Vt).
  destruct (IHl ts c1) as (Hc2 & Bts & _ & Vts); [done..|]. split_and!; [done|by constructor|done|]. intros I. simpl.
  rewrite Vt, Vts. lia.
Qed.

Lemma remove_add_ok d n args m c k res c' :
  remove_spec d -> bvx n (App OP_BADD args) -> plain (App OP_BADD args) = true -> cache_ok c ->
  remove_trailing_add (remove_trailing d) (S d) (App OP_BADD args) args m c = Some (k, res, c') ->
  cache_ok c' /\ (k <= n)%nat /\ ((0 < k)%nat -> without n (App OP_BADD args) k res).
Proof.
  intros IH He Hp Hc H. unfold remove_trailing_add in H. destruct (S d <=? 1)%nat; [injection H as <- <- <-; split_and!; [done|lia|lia]|].
  destruct (count_trailing_ok (S d) (App OP_BADD args) c Hc) as [E Hc']. destruct (count_trailing (S d) _ c) as [[mn mx] c1].
  cbn [fst snd] in E, Hc'. assert (Hmn : mn = (trailing (S d) (App OP_BADD args)).1) by (by rewrite <- E). clear E.
  destruct (Nat.eqb_spec (Nat.min mn m) 0) as [|Hk0]; [injection H as <- <- <-; split_and!; [done|lia|lia]|].
  destruct (trailing_ok (S d) n _ (fun _ _ _ _ => VBool false) He) as (T1 & T2 & _ & _). rewrite (get_bv_size_eq n _ He) in H.
  destruct (Nat.eqb_spec (Nat.min mn m) n) as [En|Hkn].
  { injection H as <- <- <-. split_and!; [done|done|]. intros _. split; [done|]. apply (zeros_all n _ mn He); [|lia].
    intros I. rewrite Hmn. by apply trailing_divides with n. }
  set (j := Nat.min mn m) in *. destruct (remove_summands _ _ _ _) as [[ts c2]|] eqn:Er; [|done]. injection H as <- <- <-.
  destruct (is_add_sums n _ args He eq_refl) as [[HF Vs] Hne].
  destruct (remove_summands_ok d n j args ts c1 c2 IH ltac:(lia) HF Hp) as (Hc2 & Bts & Hne' & Vts); [|done..|].
  { apply Forall_forall. intros a Ha. pose proof (trailing_add d args a Ha). lia. }
  split_and!; [done|lia|]. intros _. apply (without_den n _ j _ _ ltac:(lia) He (den_sum (n - j) ts (Hne' Hne) Bts)).
  intros I. by rewrite <- Vs, Vts.
Qed.

Lemma low_extracts n w l :
  (0 < w <= n)%nat -> Forall (bvx n) l ->
  prods w (fun I => prodz (map (vn I) l)) (map (bv_util.mk_extract (w - 1) 0) l).
Proof.
  intros Hw. induction 1 as [|b l Hb HF IH]; [apply prods_nil|]. simpl.
  eapply prods_ext; [apply prods_cons; [|exact IH]|intros I; rewrite prodz_cons; reflexivity]. cbn beta.
  pose proof (holds_extract_w n w (w - 1) 0 _ b ltac:(lia) ltac:(lia) (holds_refl n b Hb)) as He.
  eapply den_ext; [by apply holds_den|]. intros I. cbn beta. by rewrite pow2_0, Z.div_1_r, eqm_mod.
Qed.

Lemma remove_mul_ok d n args m c k res c' :
  remove_spec d -> bvx n (App OP_BMUL args) -> plain (App OP_BMUL args) = true -> cache_ok c ->
  (m <= (trailing (S d) (App OP_BMUL args)).1)%nat ->
  remove_trailing_mul (remove_trailing d) (S d) (App OP_BMUL args) args m c = Some (k, res, c') ->
  cache_ok c' /\ (k <= n)%nat /\ ((0 < k)%nat -> without n (App OP_BMUL args) k res).
Proof.
  intros IH He Hp Hc Hm H. destruct (is_mul_prods n _ args He eq_refl) as [[HF Vp] Hne]. destruct args as [|a l]; [done|].
  inv_Forall. simpl in Hp. apply andb_true_iff in Hp as [Hpa _]. cbn [remove_trailing_mul] in H.
  destruct (S d <=? 1)%nat; [injection H as <- <- <-; split_and!; [done|lia|lia]|].
  assert (Hma : (m <= (trailing d a).1)%nat).
  { cbn [trailing] in Hm. unfold count_trailing_core in Hm. simpl in Hm. by destruct (trailing d a). }
  destruct (remove_trailing d a m None c) as [[[k1 tmp] c1]|] eqn:E; [|done]. unfold mbind at 1, option_bind at 1 in H.
  destruct (IH n a m None c k1 tmp c1) as (Hc1 & Hk1 & Hw); [done..|].
  destruct (Nat.eqb_spec k1 0) as [|Hk0]; [injection H as <- <- <-; split_and!; [done|lia|lia]|].
  destruct tmp as [t|]; [|done]. destruct (Hw ltac:(lia)) as (Hlt & Bt & Vt). cbn [mbind option_bind] in H.
  rewrite (get_bv_size_eq n a) in H by done. rewrite (proj2 (Nat.eqb_neq (n - k1) 0)) in H by lia.
  set (w := (n - k1)%nat) in *. set (first := if bool_decide _ then [] else [t]) in H.
  change (match first ++ map (bv_util.mk_extract (w - 1) 0) l with [] => mk_numeral 1 w | [x] => x
          | _ => App OP_BMUL (first ++ map (bv_util.mk_extract (w - 1) 0) l) end)
    with (mk_mul_app w (first ++ map (bv_util.mk_extract (w - 1) 0) l)) in H.
  assert (Hf : prods w (fun I => vn I t) first).
  { unfold first. destruct (bool_decide_reflect (num t = Some 1)) as [E1|].
    - eapply prods_ext; [apply prods_nil|]. intros I. destruct (num_val w t 1 Bt E1) as [_ ->]. done.
    - eapply prods_ext; [apply prods_cons; [by apply den_refl|apply prods_nil]|]. intros I. apply eqm_eq. lia. }
  injection H as <- <- <-. split_and!; [done|done|]. intros _.
  apply (without_den n _ k1 (fun I => vn I t * prodz (map (vn I) l)) _ Hlt He).
  - apply mk_mul_app_ok; [lia|]. apply prods_app; [done|]. apply (low_extracts n); [lia|done].
  - intros I. rewrite <- Vp. simpl. rewrite prodz_cons, Vt. apply eqm_eq. lia.
Qed.

(** Removal keeps the value, and the cache its meaning. *)
Lemma remove_trailing_ok d : remove_spec d.
Proof.
  induction d as [|d IH]; intros n e m old c k res c' He Hp Hc Hm H; cbn [remove_trailing] in H.
  { injection H as <- <- <-. split_and!; [done|lia|lia]. }
  destruct (Nat.eqb_spec m 0) as [|Hm0]; [injection H as <- <- <-; split_and!; [done|lia|lia]|].
  destruct (is_numeral e) as [[v w]|] eqn:En.
  { assert (w = n) as -> by (destruct (is_numeral_inv n e v w He En) as (-> & _); done).
    destruct (remove_num d n e v k c m old He En ltac:(lia)) as (r & Hr & Hw). cbn [remove_trailing] in Hr.
    rewrite (proj2 (Nat.eqb_neq m 0)), En in Hr by done. rewrite Hr in H. injection H as <- <- <-. split; [done|].
    destruct (Hw eq_refl) as [? ?]. done. }
  assert (Hkeep : Some (0%nat, old, c) = Some (k, res, c') -> cache_ok c' /\ (k <= n)%nat /\ ((0 < k)%nat -> without n e k res)).
  { intros [= <- <- <-]. split_and!; [done|lia|lia]. }
  destruct e as [o l]. destruct o; try (by apply Hkeep).
  - by apply (remove_add_ok d n l m c).
  - by apply (remove_mul_ok d n l m c).
  - destruct d as [|d].
    { unfold remove_trailing_concat in H. cbn in H. injection H as <- <- <-. split_and!; [done|lia|lia]. }
    destruct (remove_concat_ok d n l m c k res c' He Hp Hm H) as (-> & ? & ?). done.
Qed.

(** ** The equation *)

Lemma zeros_differ n u v b1 b2 :
  zeros_between n u b1 -> zeros_between n v b2 -> (b2.2 < b1.1)%nat -> u <> v.
Proof.
  intros (A1 & A2 & A3 & A4) (B1 & B2 & B3 & B4) H ->. apply B4; [lia|]. transitivity (pow2 b1.1); [apply pow2_divide; lia|done].
Qed.

Lemma eq_remove_trailing_ok n e1 e2 c r c' :
  bvx n e1 -> bvx n e2 -> plain e1 = true -> plain e2 = true -> cache_ok c ->
  eq_remove_trailing e1 e2 c = Some (r, c') ->
  cache_ok c' /\ match r with Some (_, x) => same_bool x (fun I => vn I e1 =? vn I e2) | None => True end.
Proof.
  intros H1 H2 P1 P2 Hc H. unfold eq_remove_trailing in H.
  destruct (count_trailing_ok TRAILING_DEPTH e1 c Hc) as [E1 Hc1]. destruct (count_trailing TRAILING_DEPTH e1 c) as [[min1 max1] c1].
  destruct (count_trailing_ok TRAILING_DEPTH e2 c1 Hc1) as [E2 Hc2]. destruct (count_trailing TRAILING_DEPTH e2 c1) as [[min2 max2] c2].
  cbn [fst snd] in E1, E2, Hc2.
  assert (T1 : forall I, zeros_between n (vn I e1) (min1, max1)) by (intros I; rewrite E1; by apply trailing_ok).
  assert (T2 : forall I, zeros_between n (vn I e2) (min2, max2)) by (intros I; rewrite E2; by apply trailing_ok).
  destruct ((max2 <? min1)%nat || (max1 <? min2)%nat) eqn:Eb.
  { injection H as <- <-. split; [done|]. destruct same_false as [Hb Hv]. split; [done|]. intros I. rewrite Hv. symmetry. apply Z.eqb_neq.
    apply orb_true_iff in Eb as [Eb%Nat.ltb_lt|Eb%Nat.ltb_lt]; [by eapply zeros_differ|].
    intros Heq. symmetry in Heq. revert Heq. by eapply zeros_differ. }
  destruct (Nat.eqb_spec (Nat.min min1 min2) 0); [injection H as <- <-; done|].
  assert (L1 : (min1 <= n)%nat) by (destruct (T1 (fun _ _ _ _ => VBool false)) as (? & ? & _); simpl in *; lia).
  assert (L2 : (min2 <= n)%nat) by (destruct (T2 (fun _ _ _ _ => VBool false)) as (? & ? & _); simpl in *; lia).
  assert (Htrue : (forall I, vn I e1 = vn I e2) -> same_bool m.mk_true (fun I => vn I e1 =? vn I e2)).
  { intros He. destruct same_true as [Hb Hv]. split; [done|]. intros I. rewrite Hv. symmetry. by apply Z.eqb_eq. }
  rewrite (get_bv_size_eq n e1 H1) in H. destruct (Nat.eqb_spec (Nat.min min1 min2) n).
  { injection H as <- <-. split; [done|]. apply Htrue. intros I.
    rewrite (zeros_all n e1 min1 H1), (zeros_all n e2 min2 H2); [done|intros J; apply T2|lia|intros J; apply T1|lia]. }
  set (k := Nat.min min1 min2) in *.
  destruct (remove_trailing _ e1 k None c2) as [[[k1 o1] c3]|] eqn:R1; [|done]. unfold mbind at 1, option_bind at 1 in H.
  destruct (remove_trailing_ok TRAILING_DEPTH n e1 k None c2 k1 o1 c3 H1 P1 Hc2) as (Hc3 & _ & W1); [by rewrite <- E1; simpl; lia|done|].
  destruct (Nat.eqb_spec k1 k) as [->|]; [|done]. cbn [negb] in H.
  destruct (remove_trailing _ e2 k None c3) as [[[k2 o2] c4]|] eqn:R2; [|done]. unfold mbind at 1, option_bind at 1 in H.
  destruct (remove_trailing_ok TRAILING_DEPTH n e2 k None c3 k2 o2 c4 H2 P2 Hc3) as (Hc4 & _ & W2); [by rewrite <- E2; simpl; lia|done|].
  destruct (Nat.eqb_spec k2 k) as [->|]; [|done]. cbn [negb] in H.
  destruct o1 as [o1|]; [|done]. destruct o2 as [o2|]; [|done]. cbn [mbind option_bind] in H.
  destruct (W1 ltac:(lia)) as (_ & B1 & V1). destruct (W2 ltac:(lia)) as (_ & B2 & V2).
  destruct (m.are_equal o1 o2) eqn:Eq; injection H as <- <-; (split; [done|]).
  - apply bool_decide_eq_true in Eq as ->. apply Htrue. intros I. by rewrite V1, V2.
  - destruct (same_bv_eq (n - k) _ _ o1 o2 (holds_refl _ _ B1) (holds_refl _ _ B2)) as [Hb Hv]. split; [done|]. intros I. rewrite Hv, V1, V2.
    pose proof (pow2_pos k). destruct (Z.eqb_spec (vn I o1) (vn I o2)) as [->|Hne]; [by rewrite Z.eqb_refl|].
    symmetry. apply Z.eqb_neq. intros Hm. apply Hne. nia.
Qed.
