(* ===== verification/BvBitwiseSound.v ===== *)
(** * BvBitwiseSound: the bitwise rules are sound

    Disjunction and exclusive or are folds of a commutative monoid, so that
    nested applications and the order of the arguments do not matter; masks and
    concatenations that do not overlap are compared part by part. *)
From Stdlib Require Import ZArith Lia.
From stdpp Require Import base list.
From S2P Require Import Prelude Bits UBits Mpz Ast BvUtil AstFacts TermFacts BvTerms BoolRewriter BvRewriter BvBitwise.
From S2P Require Import BvRewriterDiv BvRewriterExtract BvRewriterCmp.
Import bv_rewriter bitwise.

Local Open Scope Z_scope.

(** ** Iterated operators *)

Section Fold.
Context (o : op) (f : Z -> Z -> Z) `{!OpN o (fun _ => f)}.
Hypothesis f_assoc : forall a b c, f a (f b c) = f (f a b) c.
Hypothesis f_comm : forall a b, f a b = f b a.
Hypothesis f_0 : forall a, f 0 a = a.

Definition folds (l : list Z) : Z := foldr f 0 l.

Lemma folds_app l k : folds (l ++ k) = f (folds l) (folds k).
Proof. induction l as [|a l IH]; simpl; [by rewrite f_0|]. by rewrite IH, f_assoc. Qed.

Lemma folds_perm l k : l ≡ₚ k -> folds l = folds k.
Proof.
  induction 1 as [|x l k _ IH|x y l|l k m _ IH1 _ IH2]; simpl; [done|by rewrite IH| |by rewrite IH1].
  by rewrite !f_assoc, (f_comm y x).
Qed.

Lemma fold_folds l a : fold_left f l a = f a (folds l).
Proof.
  revert a. induction l as [|b l IH]; intros a; simpl; [by rewrite f_comm, f_0|]. by rewrite IH, f_assoc.
Qed.

Lemma holds_folds n args :
  args <> [] -> Forall (bvx n) args -> holds n (fun I => folds (map (vn I) args)) (App o args).
Proof.
  intros Hne HF. eapply holds_ext; [by apply (holds_opn o)|]. intros I. cbn beta.
  destruct args as [|a args]; [done|]. simpl. by rewrite fold_folds.
Qed.

Lemma flat_args_ok n args :
  Forall (bvx n) args ->
  Forall (bvx n) (flat_args o args) /\ forall I, folds (map (vn I) (flat_args o args)) = folds (map (vn I) args).
Proof.
  intros HF. induction HF as [|a args Ha HF [IH1 IH2]]; [done|]. simpl. destruct a as [o' l].
  destruct (bool_decide_reflect (o' = o)) as [->|].
  - destruct (opn_inv o _ _ Ha) as (k & [= <-] & Hne & Hl). split; [by apply Forall_app|]. intros I.
    by rewrite map_app, folds_app, IH2, (proj2 (holds_folds n l Hne Hl)).
  - split; [by constructor|]. intros I. simpl. by rewrite IH2.
Qed.
End Fold.

Abbreviation lors := (folds Z.lor).
Abbreviation xors := (folds Z.lxor).

#[export] Instance lor_opn : OpN OP_BOR (fun _ => Z.lor) := or_opn.

Lemma lxor_assoc a b c : Z.lxor a (Z.lxor b c) = Z.lxor (Z.lxor a b) c.
Proof. by rewrite Z.lxor_assoc. Qed.

Definition holds_lors n args := holds_folds OP_BOR Z.lor Z.lor_assoc Z.lor_comm Z.lor_0_l n args.
Definition holds_xors n args := holds_folds OP_BXOR Z.lxor lxor_assoc Z.lxor_comm Z.lxor_0_l n args.

Lemma lors_in x l : x ∈ l -> Z.lor (lors l) x = lors l.
Proof.
  induction 1 as [x l|x y l _ IH]; simpl; [by rewrite Z.lor_comm, Z.lor_assoc, Z.lor_diag|].
  by rewrite <- Z.lor_assoc, IH.
Qed.

(** *** All ones *)

Lemma bit_above n a i : fits n a -> Z.of_nat n <= i -> Z.testbit a i = false.
Proof. intros Ha Hi. rewrite <- (Z.mod_small a (pow2 n)) by done. apply Z.mod_pow2_bits_high. lia. Qed.

Lemma ones_bit n i : 0 <= i -> Z.testbit (pow2 n - 1) i = (i <? Z.of_nat n).
Proof.
  intros Hi. unfold pow2. replace (2 ^ Z.of_nat n - 1) with (Z.ones (Z.of_nat n)) by (rewrite Z.ones_equiv; lia).
  destruct (Z.ltb_spec i (Z.of_nat n)); [apply Z.ones_spec_low|apply Z.ones_spec_high]; lia.
Qed.

Lemma lor_ones n a : fits n a -> Z.lor (pow2 n - 1) a = pow2 n - 1.
Proof.
  intros Ha. apply Z.bits_inj'. intros i Hi. rewrite Z.lor_spec, ones_bit by done.
  destruct (Z.ltb_spec i (Z.of_nat n)); [done|]. by apply (bit_above n).
Qed.

Lemma not_bit n a i : fits n a -> 0 <= i < Z.of_nat n -> Z.testbit (bv_not n a) i = negb (Z.testbit a i).
Proof.
  intros Ha Hi. replace (bv_not n a) with (Z.lnot a mod pow2 n).
  - unfold pow2. rewrite Z.mod_pow2_bits_low by lia. apply Z.lnot_spec. lia.
  - by rewrite lnot_mod, Z.mod_small.
Qed.

Lemma not_fits n a : fits n a -> fits n (bv_not n a).
Proof. unfold fits, bv_not. lia. Qed.

Lemma lor_not n a : fits n a -> Z.lor a (bv_not n a) = pow2 n - 1.
Proof.
  intros Ha. apply Z.bits_inj'. intros i Hi. rewrite Z.lor_spec, ones_bit by done.
  destruct (Z.ltb_spec i (Z.of_nat n)); [rewrite not_bit by done; apply orb_negb_r|].
  by rewrite !(bit_above n) by (done || by apply not_fits).
Qed.

Lemma lxor_ones n a : fits n a -> Z.lxor a (pow2 n - 1) = bv_not n a.
Proof.
  intros Ha. apply Z.bits_inj'. intros i Hi. rewrite Z.lxor_spec, ones_bit by done.
  destruct (Z.ltb_spec i (Z.of_nat n)); [rewrite not_bit by done; apply xorb_true_r|].
  by rewrite !(bit_above n) by (done || by apply not_fits).
Qed.

Lemma lor_fits n a b : fits n a -> fits n b -> fits n (Z.lor a b).
Proof. apply lor_bound. Qed.

Lemma lxor_fits n a b : fits n a -> fits n b -> fits n (Z.lxor a b).
Proof. apply lxor_bound. Qed.

Lemma num_holds n v : (0 < n)%nat -> fits n v -> holds n (fun _ => v) (mk_numeral v n).
Proof. intros Hn Hv. eapply holds_ext; [by apply holds_num|]. intros I. by apply Z.mod_small. Qed.

Lemma ones_fits n : fits n (pow2 n - 1).
Proof. unfold fits. pose proof (pow2_pos n). lia. Qed.

(** ** Masks *)

Lemma bit_run_ok b n v :
  0 <= v < pow2 n -> (b = 0 \/ b = 1) ->
  let '(k, v') := bit_run b n v in
  (k <= n)%nat /\ v' = v / pow2 k /\ v mod pow2 k = b * (pow2 k - 1) /\ ((k < n)%nat -> v' mod 2 <> b).
Proof.
  intros Hv Hb. revert v Hv. induction n as [|n IH]; intros v Hv; cbn [bit_run].
  - rewrite pow2_0, Z.div_1_r, Z.mod_1_r. repeat split; lia.
  - destruct (Z.eqb_spec (v mod 2) b) as [E|E].
    + specialize (IH (v / 2)). rewrite pow2_S in Hv. destruct (bit_run b n (v / 2)) as [k v'].
      destruct IH as (Hk & -> & Hm & Hn); [split; [apply Z.div_pos; lia|apply Z.div_lt_upper_bound; lia]|].
      pose proof (pow2_pos k). rewrite pow2_S. split; [lia|]. split; [by rewrite Z.div_div by lia|].
      split; [|intros; apply Hn; lia]. rewrite Z.rem_mul_r, Hm, E by lia. lia.
    + rewrite pow2_0, Z.div_1_r, Z.mod_1_r. repeat split; [lia..|done].
Qed.

Lemma shift_fits V i sz : (i <= sz)%nat -> fits sz V -> fits (sz - i) (V / pow2 i).
Proof.
  unfold fits. intros Hi HV. pose proof (pow2_pos i). split; [apply Z.div_pos; lia|]. apply Z.div_lt_upper_bound; [lia|].
  rewrite <- pow2_split by done. lia.
Qed.

Lemma part_all n z : fits n z -> part 0 n z = z.
Proof. intros Hz. rewrite part_0. by apply Z.mod_small. Qed.

Lemma concats_part_0 n z l : (forall I, fits n (z I)) -> concats (n - 0) (fun I => part 0 (n - 0) (z I)) l -> concats n z l.
Proof. intros Hz Hl. rewrite Nat.sub_0_r in Hl. eapply concats_ext; [exact Hl|]. intros I. by apply part_all. Qed.

Section Masks.
Context (sz : nat) (V : Z) (F : interp -> Z) (on_ones on_zeros : nat -> nat -> expr).
Hypothesis Hones : forall low k, (0 < k)%nat -> (low + k <= sz)%nat -> part low k V = pow2 k - 1 ->
  holds k (fun I => part low k (F I)) (on_ones low k).
Hypothesis Hzeros : forall low k, (0 < k)%nat -> (low + k <= sz)%nat -> part low k V = 0 ->
  holds k (fun I => part low k (F I)) (on_zeros low k).

Lemma concats_nil z : (forall I, z I = 0) -> concats 0 z [].
Proof. intros Hz. exists []. split; [constructor|]. by split. Qed.

(** One run, put below what follows. *)
Lemma run_concats (e : nat -> nat -> expr) low k w l :
  (0 < k -> holds k (fun I => part low k (F I)) (e low k))%nat ->
  concats w (fun I => part (low + k) w (F I)) l ->
  concats (w + k) (fun I => part low (w + k) (F I)) (l ++ (if (k =? 0)%nat then [] else [e low k])).
Proof.
  intros He Hl. destruct (Nat.eqb_spec k 0) as [->|Hk].
  - rewrite app_nil_r, Nat.add_0_r. by rewrite Nat.add_0_r in Hl.
  - eapply concats_ext; [apply concats_app; [exact Hl|apply concats_1, He; lia]|]. intros I. apply join_parts.
Qed.

Lemma mask_parts_ok fuel i :
  (i <= sz)%nat -> (sz - i <= fuel)%nat -> fits sz V ->
  concats (sz - i) (fun I => part i (sz - i) (F I)) (rev (mask_parts on_ones on_zeros fuel i sz (V / pow2 i))).
Proof.
  revert i. induction fuel as [|fuel IH]; intros i Hi Hf HV; cbn [mask_parts].
  - replace (sz - i)%nat with 0%nat by lia. apply concats_nil. intros I. unfold part. by rewrite pow2_0, Z.mod_1_r.
  - destruct (Nat.ltb_spec i sz) as [L|L].
    2:{ replace (sz - i)%nat with 0%nat by lia. apply concats_nil. intros I. unfold part. by rewrite pow2_0, Z.mod_1_r. }
    pose proof (bit_run_ok 1 (sz - i) (V / pow2 i)) as R1. destruct (bit_run 1 (sz - i) (V / pow2 i)) as [k v1].
    destruct R1 as (Hk & -> & M1 & N1); [by apply shift_fits|by right|].
    rewrite Z.div_div, <- pow2_add by (pose proof (pow2_pos i); pose proof (pow2_pos k); lia).
    pose proof (bit_run_ok 0 (sz - (i + k)) (V / pow2 (i + k))) as R0.
    destruct (bit_run 0 (sz - (i + k)) (V / pow2 (i + k))) as [k' v0].
    destruct R0 as (Hk' & -> & M0 & N0); [apply shift_fits; [lia|done]|by left|].
    rewrite Z.div_div, <- pow2_add by (pose proof (pow2_pos (i + k)); pose proof (pow2_pos k'); lia).
    rewrite !rev_app_distr, <- app_assoc.
    assert (Hprog : (0 < k + k')%nat).
    { destruct (Nat.eq_dec k 0%nat) as [->|]; [|lia]. destruct (Nat.eq_dec k' 0%nat) as [->|]; [|lia]. exfalso.
      rewrite !Nat.add_0_r, pow2_0, !Z.div_1_r in *. specialize (N1 ltac:(lia)). specialize (N0 ltac:(lia)).
      pose proof (Z.mod_pos_bound (V / pow2 i) 2 ltac:(lia)). lia. }
    specialize (IH (i + k + k')%nat ltac:(lia) ltac:(lia) HV).
    replace (sz - i)%nat with (sz - (i + k + k') + k' + k)%nat by lia.
    replace (rev (if (k =? 0)%nat then [] else [on_ones i k])) with (if (k =? 0)%nat then [] else [on_ones i k]) by (by destruct (k =? 0)%nat).
    replace (rev (if (k' =? 0)%nat then [] else [on_zeros (i + k)%nat k'])) with (if (k' =? 0)%nat then [] else [on_zeros (i + k)%nat k']) by (by destruct (k' =? 0)%nat).
    rewrite app_assoc. apply run_concats; [intros; apply Hones; [done|lia|unfold part; lia]|].
    apply run_concats; [intros; apply Hzeros; [done|lia|unfold part; lia]|]. exact IH.
Qed.

Lemma mask_all_ok : fits sz V -> (forall I, fits sz (F I)) -> concats sz F (rev (mask_parts on_ones on_zeros sz 0 sz V)).
Proof.
  intros HV HF. apply concats_part_0; [done|]. pose proof (mask_parts_ok sz 0 ltac:(lia) ltac:(lia) HV) as H.
  by rewrite pow2_0, Z.div_1_r in H.
Qed.
End Masks.

(** ** Disjunction *)

Lemma bv_not_inv n arg atom :
  bvx n arg -> bv_util.is_bv_not arg = Some atom ->
  arg = App OP_BNOT [atom] /\ bvx n atom /\ forall I, vn I arg = bv_not n (vn I atom).
Proof.
  intros Ha E. destruct arg as [o l]. destruct o; try done. destruct l as [|a l]; [done|]. injection E as ->.
  destruct (op1_inv OP_BNOT _ _ Ha) as (k & a' & [= <- ->] & [= <-] & Hx). split; [done|]. split; [done|]. intros I.
  by rewrite (proj2 (holds_op1 OP_BNOT n _ atom (holds_refl n atom Hx))).
Qed.

Lemma marked_true a l : marked a l = true -> a ∈ l.
Proof. apply bool_decide_eq_true. Qed.

(** What the scan has seen is the numeral and the collected arguments. *)
Record or_inv (n : nat) (s : or_state) (V : interp -> Z) : Prop := {
  or_new : Forall (bvx n) (new_args s);
  or_pos : Forall (fun a => a ∈ new_args s) (pos_args s);
  or_neg : Forall (fun a => App OP_BNOT [a] ∈ new_args s) (neg_args s);
  or_num : fits n (v1 s);
  or_zero : num_coeffs s = 0%nat -> v1 s = 0;
  or_val : forall I, V I = Z.lor (v1 s) (lors (map (vn I) (new_args s)));
}.

Lemma or_absorb n s V a I : or_inv n s V -> a ∈ new_args s -> Z.lor (V I) (vn I a) = V I.
Proof.
  intros [_ _ _ _ _ HV] Ha. rewrite HV, <- Z.lor_assoc, lors_in; [done|]. by apply list_elem_of_fmap_2.
Qed.

Lemma lors_fits n l : Forall (fits n) l -> fits n (lors l).
Proof. induction 1; simpl; [|by apply lor_fits]. unfold fits. pose proof (pow2_pos n). lia. Qed.

Lemma or_inv_fits n s V I : or_inv n s V -> fits n (V I).
Proof. intros [Hn _ _ Hv _ HV]. rewrite HV. apply lor_fits; [done|]. apply lors_fits. by apply fits_all. Qed.

Lemma forall_mark (P Q : expr -> Prop) l : (forall a, P a -> Q a) -> Forall P l -> Forall Q l.
Proof. intros H HF. eapply Forall_impl; [exact HF|exact H]. Qed.

Lemma or_step_ok n arg s V :
  bvx n arg -> or_inv n s V ->
  match or_step n arg s with
  | inl r => r = mk_numeral (pow2 n - 1) n /\ forall I, Z.lor (V I) (vn I arg) = pow2 n - 1
  | inr s' => or_inv n s' (fun I => Z.lor (V I) (vn I arg))
  end.
Proof.
  intros Ha Hs. pose proof (fun I => or_inv_fits n s V I Hs) as HVf.
  assert (Hskip : forall b, (forall I, Z.lor (V I) (vn I arg) = V I) ->
    or_inv n {| pos_args := pos_args s; neg_args := neg_args s; new_args := new_args s; merged := b;
                num_coeffs := num_coeffs s; v1 := v1 s |} (fun I => Z.lor (V I) (vn I arg))).
  { intros b H. destruct Hs as [H1 H2 H3 H4 H0 H5]. split; simpl; try done. intros I. by rewrite H, H5. }
  assert (Hones : forall x, (forall I, Z.lor (V I) (vn I x) = V I) -> bvx n x ->
    (forall I, vn I arg = bv_not n (vn I x)) \/ (forall I, vn I x = bv_not n (vn I arg)) ->
    forall I, Z.lor (V I) (vn I arg) = pow2 n - 1).
  { intros x Hx Bx Hn I. rewrite <- Hx, <- Z.lor_assoc.
    replace (Z.lor (vn I x) (vn I arg)) with (pow2 n - 1); [by rewrite Z.lor_comm, lor_ones|].
    destruct Hn as [Hn|Hn]; rewrite Hn; [|rewrite Z.lor_comm]; symmetry; apply lor_not; by apply fits_vn. }
  assert (Hpush : forall pos neg, Forall (fun a => a ∈ new_args s ++ [arg]) pos ->
    Forall (fun a => App OP_BNOT [a] ∈ new_args s ++ [arg]) neg ->
    or_inv n {| pos_args := pos; neg_args := neg; new_args := new_args s ++ [arg]; merged := merged s;
                num_coeffs := num_coeffs s; v1 := v1 s |} (fun I => Z.lor (V I) (vn I arg))).
  { intros pos neg Hp Hn. destruct Hs as [H1 _ _ H4 H0 H5]. split; simpl; try done.
    - apply Forall_app. by repeat constructor.
    - intros I. rewrite H5, map_app, (folds_app Z.lor Z.lor_assoc Z.lor_0_l). simpl. by rewrite Z.lor_0_r, Z.lor_assoc. }
  assert (Happ : forall a, a ∈ new_args s -> a ∈ new_args s ++ [arg]) by (intros a Hin; apply elem_of_app; by left).
  assert (Hlast : arg ∈ new_args s ++ [arg]) by (apply elem_of_app; right; by apply list_elem_of_singleton).
  pose proof (forall_mark _ _ _ Happ (or_pos _ _ _ Hs)) as Hpos.
  pose proof (forall_mark _ (fun a => App OP_BNOT [a] ∈ new_args s ++ [arg]) _ (fun a => Happ _) (or_neg _ _ _ Hs)) as Hneg.
  unfold or_step. destruct (is_numeral arg) as [[v2 w]|] eqn:En.
  { read_num. destruct Hs as [H1 H2 H3 H4 H0 H5]. unfold fits in *. rewrite bitwise_or_spec by lia.
    split; simpl; try done; [by apply lor_fits|]. intros I. rewrite H5, V0.
    rewrite <- !Z.lor_assoc. f_equal. apply Z.lor_comm. }
  destruct (bv_util.is_bv_not arg) as [atom|] eqn:Ea.
  - destruct (bv_not_inv n arg atom Ha Ea) as (-> & Bx & Vn).
    destruct (marked atom (pos_args s)) eqn:Ep; [|destruct (marked atom (neg_args s)) eqn:Eg].
    + split; [done|]. apply (Hones atom); [|done|by left]. intros I. apply (or_absorb n s V); [done|].
      apply marked_true in Ep. by apply (proj1 (Forall_forall _ _) (or_pos _ _ _ Hs)).
    + apply Hskip. intros I. apply (or_absorb n s V); [done|]. apply marked_true in Eg.
      apply (proj1 (Forall_forall _ _) (or_neg _ _ _ Hs) _ Eg).
    + apply Hpush; [done|]. by constructor.
  - destruct (marked arg (pos_args s)) eqn:Ep; [|destruct (marked arg (neg_args s)) eqn:Eg].
    + apply Hskip. intros I. apply (or_absorb n s V); [done|]. apply marked_true in Ep.
      by apply (proj1 (Forall_forall _ _) (or_pos _ _ _ Hs)).
    + split; [done|]. apply marked_true in Eg. pose proof (proj1 (Forall_forall _ _) (or_neg _ _ _ Hs) _ Eg) as Hin. simpl in Hin.
      apply (Hones (App OP_BNOT [arg])).
      * intros I. by apply (or_absorb n s V).
      * by apply (proj1 (Forall_forall _ _) (or_new _ _ _ Hs)).
      * right. intros I. by rewrite (proj2 (holds_op1 OP_BNOT n _ arg (holds_refl n arg Ha))).
    + apply Hpush; [|done]. by constructor.
Qed.

Lemma or_scan_ok n args s V :
  Forall (bvx n) args -> or_inv n s V ->
  match or_scan n args s with
  | inl r => r = mk_numeral (pow2 n - 1) n /\ forall I, Z.lor (V I) (lors (map (vn I) args)) = pow2 n - 1
  | inr s' => or_inv n s' (fun I => Z.lor (V I) (lors (map (vn I) args)))
  end.
Proof.
  intros HF. revert s V. induction HF as [|arg args Ha HF IH]; intros s V Hs; simpl.
  - destruct Hs as [H1 H2 H3 H4 H0 H5]. split; try done. intros I. by rewrite Z.lor_0_r, H5.
  - pose proof (or_step_ok n arg s V Ha Hs) as H. destruct (or_step n arg s) as [r|s'].
    + destruct H as [-> H]. split; [done|]. intros I. rewrite Z.lor_assoc, H. apply lor_ones.
      apply lors_fits. by apply fits_all.
    + specialize (IH s' _ H). destruct (or_scan n args s') as [r|s''].
      * destruct IH as [-> IH]. split; [done|]. intros I. by rewrite Z.lor_assoc, IH.
      * destruct IH as [H1 H2 H3 H4 H0 H5]. split; try done. intros I. by rewrite Z.lor_assoc, H5.
Qed.

Lemma or_init_ok n : or_inv n or_init (fun _ => 0).
Proof. split; simpl; try done. unfold fits. pose proof (pow2_pos n). lia. Qed.

(** *** Concatenations without common bits *)

Lemma skip_zeros_ok x n k :
  bvx n x -> (k <= n)%nat ->
  (skip_zeros x k <= k)%nat /\ (forall I, part (skip_zeros x k) (k - skip_zeros x k) (vn I x) = 0) /\
  (skip_zeros x k = 0%nat \/ is_zero_bit x (skip_zeros x k - 1) = false).
Proof.
  intros Hx. induction k as [|j IH]; intros Hk; cbn [skip_zeros].
  - split; [done|]. split; [|by left]. intros I. unfold part. by rewrite Nat.sub_diag, pow2_0, Z.mod_1_r.
  - destruct (is_zero_bit x j) eqn:E.
    + destruct (IH ltac:(lia)) as (H1 & H2 & H3). split; [lia|]. split; [|done]. intros I.
      replace (S j - skip_zeros x j)%nat with (1 + (j - skip_zeros x j))%nat by lia. rewrite <- join_parts, H2.
      replace (skip_zeros x j + (j - skip_zeros x j))%nat with j by lia. rewrite Z.add_0_r.
      replace (part j 1 (vn I x)) with 0; [done|]. pose proof (is_zero_bit_ok x n j Hx ltac:(lia) E I) as Hz.
      rewrite testbit_num in Hz by (apply (vn_bounds I n x Hx)). apply negb_false_iff, Z.eqb_eq in Hz.
      rewrite Z.rem_mod_nonneg in Hz by (try apply Z.div_pos; try apply (vn_bounds I n x Hx); try apply pow2_pos; lia).
      unfold part. by rewrite <- Hz.
    + split; [done|]. split; [|right; by replace (S j - 1)%nat with j by lia]. intros I. unfold part.
      by rewrite Nat.sub_diag, pow2_0, Z.mod_1_r.
Qed.

Lemma extract_run n x lo hi : bvx n x -> (lo < hi <= n)%nat ->
  holds (hi - lo) (fun I => part lo (hi - lo) (vn I x)) (bv_util.mk_extract (hi - 1) lo x).
Proof. intros Hx H. apply (holds_part_w n); [lia|lia|by apply holds_refl]. Qed.

(** A run of zeros of one term gives the bits of the other. *)
Lemma zero_run n a b lo hi l F :
  bvx n b -> (lo <= hi <= n)%nat -> (forall I, part lo (hi - lo) (vn I a) = 0) ->
  (forall I, F I = Z.lor (vn I a) (vn I b)) -> concats lo (fun I => part 0 lo (F I)) l ->
  concats hi (fun I => part 0 hi (F I)) ((if (lo =? hi)%nat then [] else [bv_util.mk_extract (hi - 1) lo b]) ++ l).
Proof.
  intros Hb Hh Hz HF Hl. destruct (Nat.eqb_spec lo hi) as [->|Hne]; [done|].
  replace hi with (hi - lo + lo)%nat at 1 by lia. eapply concats_ext.
  - apply concats_app; [apply concats_1, (extract_run n); [done|lia]|exact Hl].
  - intros I. cbn beta. replace (part lo (hi - lo) (vn I b)) with (part lo (hi - lo) (F I)).
    + pose proof (join_parts 0 lo (hi - lo) (F I)) as J. simpl in J. rewrite J. f_equal. lia.
    + by rewrite HF, part_lor, Hz, Z.lor_0_l.
Qed.

Lemma non_zero_args_ok n a b fuel k :
  bvx n a -> bvx n b -> (k <= n)%nat -> (k <= fuel)%nat ->
  (forall i, (i < n)%nat -> is_zero_bit a i = true \/ is_zero_bit b i = true) ->
  concats k (fun I => part 0 k (Z.lor (vn I a) (vn I b))) (non_zero_args a b fuel k).
Proof.
  intros Ha Hb. revert k. induction fuel as [|fuel IH]; intros k Hk Hf Hz; cbn [non_zero_args].
  - replace k with 0%nat by lia. apply concats_nil. intros I. unfold part. by rewrite pow2_0, Z.mod_1_r.
  - destruct (Nat.eqb_spec k 0) as [->|Hk0].
    { apply concats_nil. intros I. unfold part. by rewrite pow2_0, Z.mod_1_r. }
    destruct (skip_zeros_ok a n k Ha Hk) as (L1 & Z1 & N1). set (k1 := skip_zeros a k) in *.
    destruct (skip_zeros_ok b n k1 Hb ltac:(lia)) as (L2 & Z2 & N2). set (k2 := skip_zeros b k1) in *.
    assert (Hprog : (k2 < k)%nat).
    { destruct (Nat.eq_dec k2 k) as [E|]; [|lia]. exfalso. assert (k1 = k) as E1 by lia. rewrite E1 in N1. rewrite E in N2.
      destruct N1 as [|N1]; [lia|]. destruct N2 as [|N2]; [lia|]. destruct (Hz (k - 1)%nat ltac:(lia)); congruence. }
    apply (zero_run n a b); [done|lia|done|done|]. apply (zero_run n b a); [done|lia|done|intros I; apply Z.lor_comm|].
    apply IH; [lia|lia|done].
Qed.

Lemma concats_concat n z l : (0 < n)%nat -> concats n z l -> holds n z (bv_util.mk_concat l).
Proof.
  intros Hn (ms & F & <- & V). eapply holds_ext; [apply (holds_concat ms)|exact V]; [|done].
  intros ->. inversion F; subst. simpl in Hn. lia.
Qed.

Lemma or_concats_ok n s V st r : (0 < n)%nat -> or_inv n s V -> or_concats n s = Some (st, r) -> holds n V r.
Proof.
  intros Hn [H1 _ _ _ H0 HV] H. unfold or_concats in H. destruct (new_args s) as [|a [|b [|? ?]]] eqn:E; try done.
  destruct (_ && _) eqn:Eg; [|done]. injection H as <- <-.
  apply andb_true_iff in Eg as [Eg Hz]. apply andb_true_iff in Eg as [Eg _]. apply andb_true_iff in Eg as [Ec _].
  apply Nat.eqb_eq in Ec. inv_Forall. apply concats_concat; [done|].
  eapply concats_ext; [apply (non_zero_args_ok n a b n n); try done|].
  - intros i Hi. rewrite forallb_forall in Hz. apply orb_true_iff, Hz, in_seq. lia.
  - intros I. cbn beta. rewrite HV, (H0 Ec), part_0, Z.lor_0_l. simpl. rewrite Z.lor_0_r. apply Z.mod_small.
    by apply (lor_fits n); apply fits_vn.
Qed.

(** *** Masks and results *)

Lemma or_mask_ok n s V st r : (0 < n)%nat -> or_inv n s V -> or_mask n s = Some (st, r) -> holds n V r.
Proof.
  intros Hn Hs H. pose proof (fun I => or_inv_fits n s V I Hs) as HVf. destruct Hs as [H1 _ _ Hv _ HV].
  unfold or_mask in H. destruct (new_args s) as [|t [|? ?]]; try done. destruct (v1 s =? 0); [done|]. injection H as <- <-.
  inv_Forall. rewrite norm_small by done. apply concats_concat; [done|].
  apply mask_all_ok; [| |done|done]; intros low k Hk Hl E.
  - eapply holds_ext; [apply num_holds; [done|apply ones_fits]|]. intros I. cbn beta.
    rewrite HV, part_lor, E. symmetry. apply lor_ones, part_bounds.
  - eapply holds_ext; [apply (holds_part_w n); [lia|lia|by apply holds_refl]|]. intros I. cbn beta.
    rewrite HV, part_lor, E, Z.lor_0_l. simpl. by rewrite Z.lor_0_r.
Qed.

(** ** Exclusive or *)

Ltac xor_solve :=
  apply Z.bits_inj'; intros ? _; rewrite ?Z.lxor_spec;
  repeat match goal with |- context [Z.testbit ?a ?i] => destruct (Z.testbit a i) end; reflexivity.

(** The value of the marks. *)
Definition marks_value (n : nat) (pos neg : list expr) (I : interp) : Z :=
  Z.lxor (xors (map (vn I) pos)) (xors (map (fun a => bv_not n (vn I a)) neg)).

Lemma unmark_in a b l : b ∈ unmark a l <-> b <> a /\ b ∈ l.
Proof. unfold unmark. by rewrite list_elem_of_filter. Qed.

Lemma unmark_perm a l : NoDup l -> a ∈ l -> l ≡ₚ a :: unmark a l.
Proof.
  intros HN Ha. apply NoDup_Permutation; [done| |].
  - constructor; [rewrite unmark_in; tauto|]. by apply NoDup_filter.
  - intros b. rewrite elem_of_cons, unmark_in. destruct (decide (b = a)) as [->|]; naive_solver.
Qed.

Lemma unmark_NoDup a l : NoDup l -> NoDup (unmark a l).
Proof. apply NoDup_filter. Qed.

Lemma xors_perm l k : l ≡ₚ k -> xors l = xors k.
Proof. apply (folds_perm Z.lxor lxor_assoc Z.lxor_comm). Qed.

Lemma xors_app l k : xors (l ++ k) = Z.lxor (xors l) (xors k).
Proof. apply (folds_app Z.lxor lxor_assoc Z.lxor_0_l). Qed.

Lemma xors_unmark (f : expr -> Z) a l : NoDup l -> a ∈ l -> xors (map f l) = Z.lxor (f a) (xors (map f (unmark a l))).
Proof. intros HN Ha. pose proof (unmark_perm a l HN Ha) as P. apply (xors_perm _ (map f (a :: unmark a l))). by rewrite <- P. Qed.

(** An argument that is not a numeral, as the marks see it. *)
Definition plain (a : expr) : Prop := is_num a = false /\ bv_util.is_bv_not a = None.
Definition negated (a b : expr) : Prop := is_num b = false /\ bv_util.is_bv_not b = Some a.

(** The marks against the arguments seen. *)
Record marks_ok (args pos neg : list expr) : Prop := {
  pos_nodup : NoDup pos;
  neg_nodup : NoDup neg;
  pos_in : forall a, a ∈ pos -> a ∈ args /\ plain a;
  neg_in : forall a, a ∈ neg -> exists b, b ∈ args /\ negated a b;
}.

Lemma negated_eq n a b c : bvx n b -> bvx n c -> negated a b -> negated a c -> b = c.
Proof.
  intros Hb Hc [_ E1] [_ E2]. destruct (bv_not_inv n b a Hb E1) as (-> & _). by destruct (bv_not_inv n c a Hc E2) as (-> & _).
Qed.

(** Collecting the marked arguments keeps their value. *)
Lemma xor_collect_ok n args pos neg :
  Forall (bvx n) args -> marks_ok args pos neg ->
  Forall (bvx n) (xor_collect args pos neg) /\
  forall I, xors (map (vn I) (xor_collect args pos neg)) = marks_value n pos neg I.
Proof.
  intros HF. revert pos neg. induction HF as [|arg args Ha HF IH]; intros pos neg [Np Nn Hp Hn]; cbn [xor_collect].
  - assert (pos = []) as -> by (destruct pos as [|p pos]; [done|]; destruct (Hp p ltac:(left)) as [H _]; by apply not_elem_of_nil in H).
    assert (neg = []) as -> by (destruct neg as [|p neg]; [done|]; destruct (Hn p ltac:(left)) as (b & H & _); by apply not_elem_of_nil in H).
    done.
  - assert (Hskip : (forall a, a ∈ pos -> a <> arg) -> (forall a b, a ∈ neg -> negated a b -> b <> arg) -> marks_ok args pos neg).
    { intros H1 H2. split; [done..| |].
      - intros a Hi. destruct (Hp a Hi) as [Hin Hpl]. apply elem_of_cons in Hin as [->|Hin]; [|done]. by destruct (H1 arg Hi).
      - intros a Hi. destruct (Hn a Hi) as (b & Hin & Hng). apply elem_of_cons in Hin as [->|Hin]; [|by exists b].
        by destruct (H2 a arg Hi Hng). }
    destruct (is_num arg) eqn:En.
    { apply IH, Hskip; [intros a Hi ->; destruct (Hp arg Hi) as [_ [E _]]; congruence|].
      intros a b _ [E _] ->. congruence. }
    destruct (bv_util.is_bv_not arg) as [atom|] eqn:Eb.
    + destruct (bv_not_inv n arg atom Ha Eb) as (Earg & _ & Vn).
      assert (Hpos : forall a, a ∈ pos -> a <> arg) by (intros a Hi ->; destruct (Hp arg Hi) as [_ [_ E]]; congruence).
      destruct (marked atom neg) eqn:Em.
      * apply marked_true in Em. destruct (IH pos (unmark atom neg)) as [F V].
        { split; [done|by apply unmark_NoDup| |].
          - intros a Hi. destruct (Hp a Hi) as [Hin Hpl]. apply elem_of_cons in Hin as [->|Hin]; [|done]. by destruct (Hpos arg Hi).
          - intros a [Hne Hi]%unmark_in. destruct (Hn a Hi) as (b & Hin & Hng). apply elem_of_cons in Hin as [->|Hin]; [|by exists b].
            destruct Hng as [_ E]. congruence. }
        split; [by constructor|]. intros I. simpl. rewrite V, Vn. unfold marks_value.
        rewrite (xors_unmark _ atom neg) by done. xor_solve.
      * apply IH, Hskip; [done|]. intros a b Hi [_ E] ->. assert (a = atom) as -> by congruence.
        unfold marked in Em. by apply bool_decide_eq_false in Em.
    + assert (Hneg : forall a b, a ∈ neg -> negated a b -> b <> arg) by (intros a b _ [_ E] ->; congruence).
      destruct (marked arg pos) eqn:Em.
      * apply marked_true in Em. destruct (IH (unmark arg pos) neg) as [F V].
        { split; [by apply unmark_NoDup|done| |].
          - intros a [Hne Hi]%unmark_in. destruct (Hp a Hi) as [Hin Hpl]. by apply elem_of_cons in Hin as [->|Hin].
          - intros a Hi. destruct (Hn a Hi) as (b & Hin & Hng). apply elem_of_cons in Hin as [->|Hin]; [|by exists b].
            by destruct (Hneg a arg Hi Hng). }
        split; [by constructor|]. intros I. simpl. rewrite V. unfold marks_value.
        rewrite (xors_unmark _ arg pos) by done. xor_solve.
      * apply IH, Hskip; [|done]. intros a Hi ->. unfold marked in Em. by apply bool_decide_eq_false in Em.
Qed.

(** What the scan has seen is the numeral and the marks. *)
Record xor_inv (n : nat) (args : list expr) (s : xor_state) : Prop := {
  xi_marks : marks_ok args (xpos_args s) (xneg_args s);
  xi_num : fits n (xv1 s);
  xi_val : forall I, xors (map (vn I) args) = Z.lxor (xv1 s) (marks_value n (xpos_args s) (xneg_args s) I);
}.

Lemma marks_ok_more args pos neg arg :
  marks_ok args pos neg -> marks_ok (args ++ [arg]) pos neg.
Proof.
  intros [Np Nn Hp Hn]. split; [done..| |].
  - intros a Hi. destruct (Hp a Hi). split; [apply elem_of_app; by left|done].
  - intros a Hi. destruct (Hn a Hi) as (b & Hb & H). exists b. split; [apply elem_of_app; by left|done].
Qed.

Lemma marks_ok_unmark args pos neg a : marks_ok args pos neg -> marks_ok args (unmark a pos) neg /\ marks_ok args pos (unmark a neg).
Proof.
  intros [Np Nn Hp Hn]. split; split; try done; try by apply unmark_NoDup.
  - intros b [_ Hi]%unmark_in. by apply Hp.
  - intros b [_ Hi]%unmark_in. by apply Hn.
Qed.

Lemma marks_ok_pos args pos neg arg :
  marks_ok args pos neg -> arg ∉ pos -> plain arg -> marks_ok (args ++ [arg]) (arg :: pos) neg.
Proof.
  intros H Hni Hpl. destruct (marks_ok_more args pos neg arg H) as [Np Nn Hp Hn]. split; [by constructor|done| |done].
  intros a [->|Hi]%elem_of_cons; [|by apply Hp]. split; [|done]. apply elem_of_app. right. by apply list_elem_of_singleton.
Qed.

Lemma marks_ok_neg args pos neg arg atom :
  marks_ok args pos neg -> atom ∉ neg -> negated atom arg -> marks_ok (args ++ [arg]) pos (atom :: neg).
Proof.
  intros H Hni Hng. destruct (marks_ok_more args pos neg arg H) as [Np Nn Hp Hn]. split; [done|by constructor|done|].
  intros a [->|Hi]%elem_of_cons; [|by apply Hn]. exists arg. split; [|done].
  apply elem_of_app. right. by apply list_elem_of_singleton.
Qed.

Lemma marked_false a l : marked a l = false -> a ∉ l.
Proof. apply bool_decide_eq_false. Qed.

(** Both signs of a term make all ones. *)
Lemma flip_spec n v a : fits n v -> fits n a -> mpz.bitwise_xor v (pow2 n - 1) = Z.lxor v (Z.lxor a (bv_not n a)).
Proof.
  intros Hv Ha. rewrite bitwise_xor_spec by (unfold fits in *; pose proof (pow2_pos n); lia). f_equal.
  rewrite <- (lxor_ones n a Ha). xor_solve.
Qed.

Lemma xor_step_ok n args arg s :
  bvx n arg -> xor_inv n args s -> xor_inv n (args ++ [arg]) (xor_step n arg s).
Proof.
  intros Ha [Hm Hv HV].
  assert (Hx : forall I, xors (map (vn I) (args ++ [arg])) = Z.lxor (xors (map (vn I) args)) (vn I arg)).
  { intros I. rewrite map_app, xors_app. simpl. by rewrite Z.lxor_0_r. }
  assert (Hflip : fits n (mpz.bitwise_xor (xv1 s) (pow2 n - 1))).
  { rewrite bitwise_xor_spec by (unfold fits in *; pose proof (pow2_pos n); lia). by apply lxor_fits, ones_fits. }
  assert (Hmore := marks_ok_more _ _ _ arg Hm). unfold xor_step. destruct (is_numeral arg) as [[v2 w]|] eqn:En.
  { read_num. unfold fits in *. split; simpl; [done|rewrite bitwise_xor_spec by lia; by apply lxor_fits|]. intros I.
    rewrite Hx, HV, V, bitwise_xor_spec by lia. xor_solve. }
  assert (En' : is_num arg = false) by (unfold is_num; by rewrite En).
  destruct (bv_util.is_bv_not arg) as [atom|] eqn:Eb.
  - destruct (bv_not_inv n arg atom Ha Eb) as (_ & Bx & Vn).
    destruct (marked atom (xneg_args s)) eqn:Eg; [|destruct (marked atom (xpos_args s)) eqn:Ep]; split; simpl; try done.
    + apply (marks_ok_unmark _ _ _ atom Hmore).
    + intros I. rewrite Hx, HV, Vn. unfold marks_value. rewrite (xors_unmark _ atom (xneg_args s)) by (apply Hm || by apply marked_true).
      xor_solve.
    + apply (marks_ok_unmark _ _ _ atom Hmore).
    + intros I. rewrite Hx, HV, Vn, (flip_spec n _ (vn I atom)) by (done || by apply fits_vn). unfold marks_value.
      rewrite (xors_unmark _ atom (xpos_args s)) by (apply Hm || by apply marked_true). xor_solve.
    + apply marks_ok_neg; [done|by apply marked_false|done].
    + intros I. rewrite Hx, HV, Vn. unfold marks_value. simpl. xor_solve.
  - destruct (marked arg (xpos_args s)) eqn:Ep; [|destruct (marked arg (xneg_args s)) eqn:Eg]; split; simpl; try done.
    + apply (marks_ok_unmark _ _ _ arg Hmore).
    + intros I. rewrite Hx, HV. unfold marks_value. rewrite (xors_unmark _ arg (xpos_args s)) by (apply Hm || by apply marked_true).
      xor_solve.
    + apply (marks_ok_unmark _ _ _ arg Hmore).
    + intros I. rewrite Hx, HV, (flip_spec n _ (vn I arg)) by (done || by apply fits_vn). unfold marks_value.
      rewrite (xors_unmark _ arg (xneg_args s)) by (apply Hm || by apply marked_true). xor_solve.
    + apply marks_ok_pos; [done|by apply marked_false|done].
    + intros I. rewrite Hx, HV. unfold marks_value. simpl. xor_solve.
Qed.

Lemma xor_scan_ok n args : Forall (bvx n) args -> xor_inv n args (xor_scan n args).
Proof.
  intros HF. unfold xor_scan. assert (H0 : xor_inv n [] xor_init).
  { split; simpl; [|unfold fits; pose proof (pow2_pos n); lia|done].
    split; [constructor|constructor|intros a Hi; by apply not_elem_of_nil in Hi..]. }
  change args with ([] ++ args) at 1. revert H0. generalize ([] : list expr), xor_init.
  induction HF as [|arg args Ha HF IH]; intros l s Hs; simpl; [by rewrite app_nil_r|].
  replace (l ++ arg :: args) with ((l ++ [arg]) ++ args) by (by rewrite <- app_assoc). apply IH. by apply xor_step_ok.
Qed.

(** *** One argument that is not a numeral *)

Lemma count_nums n l s :
  xnum_coeffs (fold_left (fun s arg => xor_step n arg s) l s) = (xnum_coeffs s + length (filter (fun a => is_num a = true) l))%nat.
Proof.
  revert s. induction l as [|a l IH]; intros s; simpl; [lia|]. rewrite IH, filter_cons. unfold xor_step at 1, is_num.
  destruct (is_numeral a) as [[v w]|]; simpl; [lia|].
  destruct (bv_util.is_bv_not a); repeat (destruct (marked _ _)); simpl; lia.
Qed.

Lemma one_non_numeral l :
  l <> [] -> length (filter (fun a => is_num a = true) l) = (length l - 1)%nat ->
  exists l1 t l2, l = l1 ++ t :: l2 /\ Forall (fun a => is_num a = true) (l1 ++ l2) /\ is_num t = false /\ non_numeral l = Some t.
Proof.
  induction l as [|a l IH]; intros Hne; [done|]. rewrite filter_cons. destruct (is_num a) eqn:E; cbn [length].
  - rewrite decide_True by done. cbn [length]. intros H. destruct l as [|b l]; [done|].
    destruct IH as (l1 & t & l2 & El & HF & Ht & Hn); [done|simpl in *; lia|]. exists (a :: l1), t, l2. rewrite El. split; [done|].
    split; [by constructor|]. split; [done|]. rewrite <- El. cbn [non_numeral]. by rewrite E.
  - rewrite decide_False by done. intros H. exists [], a, l. split; [done|]. split; [|split; [done|]].
    + simpl. clear -H. assert (Hl : length (filter (fun a => is_num a = true) l) = length l) by lia. clear H.
      induction l as [|b l IH]; [done|]. rewrite filter_cons in Hl. destruct (decide (is_num b = true)).
      * constructor; [done|]. apply IH. simpl in Hl. lia.
      * pose proof (length_filter (fun a => is_num a = true) l). simpl in Hl. lia.
    + destruct l; [done|]. cbn [non_numeral]. by rewrite E.
Qed.

Lemma nums_keep_marks n l s :
  Forall (fun a => is_num a = true) l ->
  let s' := fold_left (fun s arg => xor_step n arg s) l s in
  xpos_args s' = xpos_args s /\ xneg_args s' = xneg_args s.
Proof.
  revert s. induction l as [|a l IH]; intros s HF; [done|]. inversion HF as [|? ? Ha Hl]; subst. simpl.
  destruct (IH (xor_step n a s) Hl) as [-> ->]. unfold xor_step, is_num in *. by destruct (is_numeral a) as [[v w]|].
Qed.

(** The numeral then is the rest of the exclusive or. *)
Lemma xor_one n args t :
  args <> [] -> Forall (bvx n) args -> xnum_coeffs (xor_scan n args) = (length args - 1)%nat -> non_numeral args = Some t ->
  bvx n t /\ forall I, xors (map (vn I) args) = Z.lxor (xv1 (xor_scan n args)) (vn I t).
Proof.
  intros Hne HF Hc Ht. unfold xor_scan in Hc. rewrite count_nums in Hc. cbn [xor_init xnum_coeffs] in Hc.
  destruct (one_non_numeral args Hne Hc) as (l1 & t' & l2 & E & Hn & En & Ht'). rewrite Ht in Ht'. injection Ht' as <-.
  assert (Bt : bvx n t) by (rewrite E in HF; apply Forall_app in HF as [_ HF]; by inv_Forall). split; [done|]. intros I.
  destruct (xor_scan_ok n args HF) as [_ _ HV]. rewrite HV. f_equal. apply Forall_app in Hn as [Hn1 Hn2].
  unfold xor_scan. rewrite E, fold_left_app. cbn [fold_left].
  set (s1 := fold_left _ l1 xor_init). destruct (nums_keep_marks n l1 xor_init Hn1) as [Ep Eg]. fold s1 in Ep, Eg.
  destruct (nums_keep_marks n l2 (xor_step n t s1) Hn2) as [-> ->].
  unfold xor_step. unfold is_num in En. destruct (is_numeral t); [done|].
  destruct (bv_util.is_bv_not t) as [atom|] eqn:Eb; rewrite Ep, Eg; unfold marks_value; simpl; rewrite !Z.lxor_0_r; [|done].
  by destruct (bv_not_inv n t atom Bt Eb) as (_ & _ & ->).
Qed.

(** *** Masks and results *)

Lemma concats_unwrap n z l : (0 < n)%nat -> concats n z l -> holds n z (match l with [e] => e | _ => bv_util.mk_concat l end).
Proof.
  intros Hn Hl. pose proof (concats_concat n z l Hn Hl) as Hc. destruct l as [|e [|? ?]]; [done| |done].
  destruct Hl as (ms & F & E & V). inversion F as [|k ? ms' ? He F']; subst. inversion F'; subst.
  simpl. rewrite Nat.add_0_r. eapply holds_ext; [by apply holds_refl|]. intros I. rewrite <- V. simpl. rewrite pow2_0. lia.
Qed.

Lemma xor_mask_ok n v t : fits n v -> bvx n t -> holds n (fun I => Z.lxor v (vn I t)) (xor_mask n v t).
Proof.
  intros Hv Ht. pose proof (bvx_pos n t Ht) as Hn. unfold xor_mask. apply concats_unwrap; [done|].
  assert (Hf : forall I, fits n (Z.lxor v (vn I t))) by (intros I; apply lxor_fits; [done|by apply fits_vn]).
  apply (mask_all_ok n v); [| |done|done]; intros low k Hk Hl E.
  - eapply holds_ext; [apply (holds_part_w n); [lia|lia|apply (holds_op1 OP_BNOT), holds_refl, Ht]|]. intros I. cbn beta.
    rewrite part_lxor, E, part_not by (lia || by apply fits_vn). rewrite Z.lxor_comm. symmetry. apply lxor_ones, part_bounds.
  - eapply holds_ext; [apply (holds_part_w n); [lia|lia|by apply holds_refl]|]. intros I. cbn beta.
    by rewrite part_lxor, E, Z.lxor_0_l.
Qed.

Lemma is_allone_ok n a I : bvx n a -> bv_util.is_allone a = true -> vn I a = pow2 n - 1.
Proof.
  intros Ha H. unfold bv_util.is_allone in H. destruct (is_numeral a) as [[v w]|] eqn:E; [|done]. read_num.
  apply Z.eqb_eq in H. by rewrite V.
Qed.

Section Bitwise.
Context (cfg : params) (lt : expr -> expr -> bool) (std_sort : (expr -> expr -> bool) -> list expr -> list expr).
Hypothesis sort_perm : forall l, std_sort lt l ≡ₚ l.

(** An operator applied to arguments in sorted or the given order. *)
Lemma sorted_or n l :
  l <> [] -> Forall (bvx n) l ->
  holds n (fun I => lors (map (vn I) l)) (bv_util.mk_bv_or (if m_bv_sort_ac cfg then std_sort lt l else l)).
Proof.
  intros Hne HF. destruct (m_bv_sort_ac cfg); [|by apply holds_lors]. pose proof (sort_perm l) as P.
  eapply holds_ext; [apply holds_lors|].
  - intros E. rewrite E in P. by apply Permutation_nil_l in P.
  - by rewrite P.
  - intros I. apply (folds_perm Z.lor Z.lor_assoc Z.lor_comm). by rewrite P.
Qed.

Lemma or_result_ok n s V st r :
  (0 < n)%nat -> or_inv n s V -> or_result cfg lt std_sort n s = Some (st, r) -> holds n V r.
Proof.
  intros Hn [H1 _ _ Hv _ HV] H. unfold or_result in H.
  set (l := if v1 s =? 0 then _ else _) in H.
  assert (Hl : Forall (bvx n) l /\ forall I, V I = lors (map (vn I) l)).
  { unfold l. destruct (Z.eqb_spec (v1 s) 0) as [E|_].
    - split; [done|]. intros I. by rewrite HV, E, Z.lor_0_l.
    - pose proof (num_holds n (v1 s) Hn Hv) as [Hb Hx]. split; [apply Forall_app; by repeat constructor|]. intros I.
      rewrite HV, map_app, (folds_app Z.lor Z.lor_assoc Z.lor_0_l). simpl. rewrite Hx, Z.lor_0_r. apply Z.lor_comm. }
  destruct Hl as [Fl Vl]. clearbody l. destruct l as [|a [|b l]]; injection H as <- <-.
  - eapply holds_ext; [apply (num_holds n 0); [done|unfold fits; pose proof (pow2_pos n); lia]|]. intros I. by rewrite Vl.
  - eapply holds_ext; [apply holds_refl; by inv_Forall|]. intros I. rewrite Vl. simpl. by rewrite Z.lor_0_r.
  - eapply holds_ext; [by apply sorted_or|]. intros I. by rewrite Vl.
Qed.

Lemma mk_bv_or_ok args st r :
  mk_bv_or cfg lt std_sort args = Some (st, r) -> App OP_BOR args ~> r.
Proof.
  intros H. apply (rewrites_opn OP_BOR). intros n Hne HF. unfold mk_bv_or in H.
  apply (holds_ext n (fun I => lors (map (vn I) args))).
  2:{ intros I. by rewrite <- (proj2 (holds_opn OP_BOR n args Hne HF)), (proj2 (holds_lors n args Hne HF)). }
  destruct args as [|a [|b args]]; [done| |].
  { injection H as <- <-. eapply holds_ext; [apply holds_refl; by inv_Forall|]. intros I. simpl. by rewrite Z.lor_0_r. }
  assert (Ha : bvx n a) by (by inv_Forall). set (args0 := a :: b :: args) in *. rewrite (get_bv_size_eq n a Ha) in H.
  pose proof (bvx_pos n a Ha) as Hn.
  set (l := if negb _ then _ else args0) in H.
  assert (Hl : Forall (bvx n) l /\ forall I, lors (map (vn I) l) = lors (map (vn I) args0)).
  { unfold l. destruct (negb _); [|done]. destruct (m_flat cfg); [|done].
    apply (flat_args_ok OP_BOR Z.lor Z.lor_assoc Z.lor_comm Z.lor_0_l n args0 HF). }
  destruct Hl as [Fl Vl]. pose proof (or_scan_ok n l or_init _ Fl (or_init_ok n)) as Hs.
  destruct (or_scan n l or_init) as [r'|s].
  { injection H as <- <-. destruct Hs as [-> Hs]. eapply holds_ext; [apply num_holds; [done|apply ones_fits]|].
    intros I. cbn beta. by rewrite <- Vl, <- (Hs I). }
  eapply holds_ext; [|intros I; exact (Vl I)].
  assert (Hs' : or_inv n s (fun I => lors (map (vn I) l))) by exact Hs. clear Hs.
  destruct (Z.eqb_spec (v1 s) (pow2 n - 1)) as [E|_].
  { injection H as <- <-. destruct Hs' as [H1 _ _ Hv _ HV]. eapply holds_ext; [by apply num_holds|]. intros I. cbn beta.
    rewrite HV, E. symmetry. apply lor_ones, lors_fits. by apply fits_all. }
  apply orelse_Some in H as [H|[H|H]%orelse_Some].
  - by apply (or_concats_ok n s _ st).
  - by apply (or_mask_ok n s _ st).
  - destruct (_ && _); [done|]. by apply (or_result_ok n s _ st).
Qed.

Lemma sorted_xor n l :
  l <> [] -> Forall (bvx n) l ->
  holds n (fun I => xors (map (vn I) l)) (bv_util.mk_bv_xor (if m_bv_sort_ac cfg then std_sort lt l else l)).
Proof.
  intros Hne HF. destruct (m_bv_sort_ac cfg); [|by apply holds_xors]. pose proof (sort_perm l) as P.
  eapply holds_ext; [apply holds_xors|].
  - intros E. rewrite E in P. by apply Permutation_nil_l in P.
  - by rewrite P.
  - intros I. apply xors_perm. by rewrite P.
Qed.

Lemma xor_result_ok n l st r :
  (0 < n)%nat -> Forall (bvx n) l -> xor_result cfg lt std_sort n l = Some (st, r) ->
  holds n (fun I => xors (map (vn I) l)) r.
Proof.
  intros Hn HF H. unfold xor_result in H. destruct l as [|a [|b l]].
  - injection H as <- <-. apply (num_holds n 0); [done|]. unfold fits. pose proof (pow2_pos n). lia.
  - injection H as <- <-. eapply holds_ext; [apply holds_refl; by inv_Forall|]. intros I. simpl. by rewrite Z.lxor_0_r.
  - pose proof (sorted_xor n (a :: b :: l) ltac:(done) HF) as Hs.
    destruct l as [|c l]; [destruct (bv_util.is_allone a) eqn:E|]; injection H as <- <-; [|exact Hs..].
    assert (bvx n a /\ bvx n b) as [Ha Hb] by (by inv_Forall).
    eapply holds_ext; [apply (holds_op1 OP_BNOT), holds_refl, Hb|]. intros I. simpl.
    rewrite (is_allone_ok n a I Ha E), Z.lxor_0_r, Z.lxor_comm. symmetry. apply lxor_ones. by apply fits_vn.
Qed.

Lemma mk_bv_xor_ok args st r :
  mk_bv_xor cfg lt std_sort args = Some (st, r) -> App OP_BXOR args ~> r.
Proof.
  intros H. apply (rewrites_opn OP_BXOR). intros n Hne HF. unfold mk_bv_xor in H.
  apply (holds_ext n (fun I => xors (map (vn I) args))).
  2:{ intros I. by rewrite <- (proj2 (holds_opn OP_BXOR n args Hne HF)), (proj2 (holds_xors n args Hne HF)). }
  destruct args as [|a [|b args]]; [done| |].
  { injection H as <- <-. eapply holds_ext; [apply holds_refl; by inv_Forall|]. intros I. simpl. by rewrite Z.lxor_0_r. }
  assert (Ha : bvx n a) by (by inv_Forall). set (args0 := a :: b :: args) in *. rewrite (get_bv_size_eq n a Ha) in H.
  pose proof (bvx_pos n a Ha) as Hn.
  set (l := if negb _ then _ else args0) in H.
  assert (Hl : Forall (bvx n) l /\ forall I, xors (map (vn I) l) = xors (map (vn I) args0)).
  { unfold l. destruct (negb _); [|done]. destruct (m_flat cfg); [|done].
    apply (flat_args_ok OP_BXOR Z.lxor lxor_assoc Z.lxor_comm Z.lxor_0_l n args0 HF). }
  destruct Hl as [Fl Vl]. eapply holds_ext; [|exact Vl].
  destruct (xor_scan_ok n l Fl) as [Hm Hv HV].
  destruct (if negb (xv1 (xor_scan n l) =? 0) && _ then _ else None) as [t|] eqn:Et.
  - injection H as <- <-. destruct (negb _ && _) eqn:Eg; [|done]. apply andb_true_iff in Eg as [E0 Ec]. apply Nat.eqb_eq in Ec.
    assert (Hne' : l <> []) by (intros E; rewrite E in E0; done).
    destruct (xor_one n l t Hne' Fl Ec Et) as [Bt Vt]. eapply holds_ext; [by apply xor_mask_ok|]. intros I. by rewrite Vt.
  - destruct (_ && _) in H; [done|]. destruct (xor_collect_ok n l _ _ Fl Hm) as [Fc Vc].
    eapply holds_ext; [apply (xor_result_ok n _ st r Hn) in H; [exact H|]|].
    + destruct (xv1 _ =? 0); [done|]. constructor; [apply (num_holds n); done|done].
    + intros I. cbn beta. rewrite HV, map_app, xors_app, Vc. f_equal.
      destruct (Z.eqb_spec (xv1 (xor_scan n l)) 0) as [->|]; [done|]. simpl. rewrite Z.lxor_0_r.
      by apply (proj2 (num_holds n _ Hn Hv)).
Qed.

(** ** Complement *)

End Bitwise.

(** ** Complement *)

Lemma holds_not n z a : holds n z a -> holds n (fun I => bv_not n (z I)) (bv_util.mk_bv_not a).
Proof. intros H. by apply (holds_op1 OP_BNOT). Qed.

Lemma bvxs_not ns args : bvxs ns args -> bvxs ns (map bv_util.mk_bv_not args).
Proof.
  induction 1 as [|n e ns args He _ IH]; [constructor|]. constructor; [|exact IH].
  apply (holds_not n _ e (holds_refl n e He)).
Qed.

Lemma catz_not I ns args :
  bvxs ns args -> catz ns (map (vn I) (map bv_util.mk_bv_not args)) = bv_not (sum_list ns) (catz ns (map (vn I) args)).
Proof.
  induction 1 as [|n e ns args He _ IH]; [done|]. destruct (holds_not n _ e (holds_refl n e He)) as [_ Ve].
  cbn [map catz sum_list_with id]. rewrite IH, Ve. unfold bv_not. rewrite pow2_add. lia.
Qed.

Lemma is_negatable_ok n a r : bvx n a -> is_negatable a = Some r -> holds n (fun I => bv_not n (vn I a)) r.
Proof.
  intros Ha H. pose proof (bvx_pos n a Ha) as Hn. unfold is_negatable in H. destruct (is_numeral a) as [[v w]|] eqn:E.
  - read_num. injection H as <-. rewrite bitwise_not_spec by done.
    eapply holds_ext; [apply num_holds; [done|by apply not_fits]|]. intros I. by rewrite V.
  - destruct (bv_not_inv n a r Ha H) as (_ & Br & V). eapply holds_ext; [by apply holds_refl|]. intros I. cbn beta. rewrite V.
    unfold bv_not. lia.
Qed.

Lemma add_holds n za zb a b :
  holds n za a -> holds n zb b -> holds n (fun I => (za I + zb I) mod pow2 n) (bv_util.mk_bv_add a b).
Proof.
  intros [Ba Va] [Bb Vb]. eapply holds_ext; [apply holds_sum; [done|by repeat constructor]|]. intros I. simpl.
  by rewrite Va, Vb, Z.add_0_r.
Qed.

(** [~ (- x) = x - 1] *)
Lemma not_minus n a b x I :
  bvx n a -> bvx n b -> vn I a = pow2 n - 1 \/ vn I b = pow2 n - 1 ->
  x = (if vn I a =? pow2 n - 1 then vn I b else vn I a) ->
  (pow2 n - 1 + x) mod pow2 n = bv_not n (bv_mul n (vn I a) (vn I b)).
Proof.
  intros Ha Hb H Hx. assert (E : bv_mul n (vn I a) (vn I b) = (- x) mod pow2 n).
  { unfold bv_mul. assert (Hab : vn I a * vn I b = x * (pow2 n - 1)).
    { rewrite Hx. destruct (Z.eqb_spec (vn I a) (pow2 n - 1)) as [->|]; [lia|]. destruct H as [|H]; [done|]. rewrite H. lia. }
    rewrite Hab. replace (x * (pow2 n - 1)) with (- x + x * pow2 n) by lia. apply Z.mod_add. pose proof (pow2_pos n). lia. }
  rewrite E. unfold bv_not. rewrite <- lnot_mod. unfold Z.lnot. rewrite Z.opp_involutive.
  replace (pow2 n - 1 + x) with (Z.pred x + 1 * pow2 n) by lia. apply Z.mod_add. pose proof (pow2_pos n). lia.
Qed.

Lemma is_bv_mul2_Some e s t : bv_util.is_bv_mul2 e = Some (s, t) -> e = App OP_BMUL [s; t].
Proof. destruct e as [o l]. destruct o; try done. by destruct l as [|? [|? [|? ?]]]; try done; intros [= -> ->]. Qed.

Lemma is_bv_add2_Some e s t : bv_util.is_bv_add2 e = Some (s, t) -> e = App OP_BADD [s; t].
Proof. destruct e as [o l]. destruct o; try done. by destruct l as [|? [|? [|? ?]]]; try done; intros [= -> ->]. Qed.

Lemma add2_inv n s t : bvx n (App OP_BADD [s; t]) ->
  bvx n s /\ bvx n t /\ forall I, vn I (App OP_BADD [s; t]) = (vn I s + vn I t) mod pow2 n.
Proof.
  intros H. destruct (opn_inv OP_BADD _ _ H) as (k & [= <-] & _ & HF). inv_Forall. split_and!; [done..|]. intros I.
  by rewrite (proj2 (add_holds n _ _ s t (holds_refl n s ltac:(done)) (holds_refl n t ltac:(done)))).
Qed.

Lemma not_simpl_ok n arg st r :
  bvx n arg -> not_simpl arg = Some (st, r) -> holds n (fun I => bv_not n (vn I arg)) r.
Proof.
  intros Ha H. pose proof (bvx_pos n arg Ha) as Hn. unfold not_simpl in H. apply orelse_Some in H as [H|H].
  - destruct (bv_util.is_bv_mul2 arg) as [[s t]|] eqn:E; [|done]. apply is_bv_mul2_Some in E as ->.
    destruct (mul2_ok n s t Ha) as (Hs & Ht & V). rewrite (get_bv_size_eq n s Hs) in H.
    assert (Hres : forall x, bvx n x -> (forall I, (pow2 n - 1 + vn I x) mod pow2 n = bv_not n (bv_mul n (vn I s) (vn I t))) ->
      holds n (fun I => bv_not n (vn I (App OP_BMUL [s; t]))) (bv_util.mk_bv_add (mk_numeral (pow2 n - 1) n) x)).
    { intros x Bx Hx. eapply holds_ext; [apply add_holds; [by apply num_holds, ones_fits|by apply holds_refl]|].
      intros I. cbn beta. by rewrite V, <- Hx. }
    destruct (bv_util.is_allone s) eqn:E1; [|destruct (bv_util.is_allone t) eqn:E2; [|done]]; injection H as <- <-.
    + apply Hres; [done|]. intros I. pose proof (is_allone_ok n s I Hs E1) as Es. apply not_minus; [done..|by left|].
      by rewrite Es, Z.eqb_refl.
    + apply Hres; [done|]. intros I. pose proof (is_allone_ok n t I Ht E2) as Et. apply not_minus; [done..|by right|].
      destruct (Z.eqb_spec (vn I s) (pow2 n - 1)) as [Es|]; [by rewrite Es, Et|done].
  - destruct (bv_util.is_bv_add2 arg) as [[s t]|] eqn:E; [|done]. apply is_bv_add2_Some in E as ->.
    destruct (add2_inv n s t Ha) as (Hs & Ht & V). rewrite (get_bv_size_eq n s Hs) in H.
    destruct (is_negatable t) as [nt|] eqn:Et; [|done]. destruct (is_negatable s) as [ns|] eqn:Es; [|done]. injection H as <- <-.
    destruct (is_negatable_ok n t nt Ht Et) as [Bt Vt]. destruct (is_negatable_ok n s ns Hs Es) as [Bs Vs].
    destruct (num_holds n 1 Hn) as [B1 V1]; [unfold fits; pose proof (pow2_lt_mono 0 n Hn) as P; rewrite pow2_0 in P; lia|].
    eapply holds_ext; [apply holds_sum; [done|by repeat constructor]|]. intros I. simpl. rewrite V, V1, Vt, Vs.
    unfold bv_not. rewrite <- (lnot_mod (vn I s + vn I t) n). unfold Z.lnot.
    replace (1 + _) with (Z.pred (- (vn I s + vn I t)) + 2 * pow2 n) by lia. apply Z.mod_add. pose proof (pow2_pos n). lia.
Qed.

Lemma mk_bv_not_ok cfg arg st r : mk_bv_not cfg arg = Some (st, r) -> App OP_BNOT [arg] ~> r.
Proof.
  intros H. apply (rewrites_op1 OP_BNOT). intros n Ha. pose proof (bvx_pos n arg Ha) as Hn. unfold mk_bv_not in H.
  destruct (bv_util.is_bv_not arg) as [a|] eqn:E1.
  { injection H as <- <-. destruct (bv_not_inv n arg a Ha E1) as (_ & Bx & V). eapply holds_ext; [by apply holds_refl|].
    intros I. cbn beta. rewrite V. unfold bv_not. lia. }
  destruct (is_numeral arg) as [[v w]|] eqn:E2.
  { injection H as <- <-. apply (is_negatable_ok n arg); [done|]. unfold is_negatable. by rewrite E2. }
  destruct (bv_util.is_concat arg) as [args|] eqn:E3.
  { injection H as <- <-. destruct arg as [o l]. destruct o; try done. injection E3 as ->.
    destruct (concat_inv _ _ Ha) as (ns & Hne & HF & [= ->]).
    eapply holds_ext; [apply (holds_concat ns); [by destruct args|by apply bvxs_not]|].
    intros I. cbn beta. rewrite (catz_not I ns args HF). by rewrite (proj2 (holds_concat ns args Hne HF)). }
  destruct (m_bvnot2arith cfg).
  { injection H as <- <-. rewrite (get_bv_size_eq n arg Ha).
    eapply holds_ext; [apply (holds_op2 OP_BSUB); [by apply num_holds, ones_fits|by apply holds_refl]|].
    intros I. cbn beta. unfold bv_sub, bv_not. apply Z.mod_small. pose proof (vn_bounds I n arg Ha). lia. }
  destruct (m_bvnot_simpl cfg); [|done]. by apply (not_simpl_ok n arg st).
Qed.

(** ** The other operators *)

Lemma not_land n a b : fits n a -> fits n b -> bv_not n (Z.land a b) = Z.lor (bv_not n a) (bv_not n b).
Proof.
  intros Ha Hb. assert (Hl : fits n (Z.land a b)) by (by apply land_bound). apply Z.bits_inj'. intros i Hi.
  rewrite Z.lor_spec. destruct (Z.lt_ge_cases i (Z.of_nat n)).
  - rewrite !not_bit, Z.land_spec by done. apply negb_andb.
  - by rewrite !(bit_above n) by (done || by apply not_fits).
Qed.

Lemma not_not n a : bv_not n (bv_not n a) = a.
Proof. unfold bv_not. lia. Qed.

(** De Morgan's law on any number of arguments. *)
Lemma fold_land n l a :
  fits n a -> Forall (fits n) l ->
  fold_left Z.land l a = bv_not n (Z.lor (bv_not n a) (lors (map (bv_not n) l))).
Proof.
  intros Ha HF. revert a Ha. induction HF as [|b l Hb _ IH]; intros a Ha; simpl; [by rewrite Z.lor_0_r, not_not|].
  rewrite IH by (by apply land_bound). by rewrite not_land, Z.lor_assoc.
Qed.

Lemma holds_nots n args :
  args <> [] -> Forall (bvx n) args ->
  holds n (fun I => lors (map (bv_not n) (map (vn I) args))) (bv_util.mk_bv_or (map bv_util.mk_bv_not args)).
Proof.
  intros Hne HF. eapply holds_ext; [apply holds_lors; [by destruct args|]|].
  - apply Forall_map. eapply Forall_impl; [exact HF|]. intros a Ha. apply (holds_not n _ a (holds_refl n a Ha)).
  - intros I. cbn beta. f_equal. rewrite !map_map. apply map_ext_Forall. eapply Forall_impl; [exact HF|]. intros a Ha.
    apply (holds_not n _ a (holds_refl n a Ha)).
Qed.

Lemma mk_bv_and_ok args st r : mk_bv_and args = Some (st, r) -> App OP_BAND args ~> r.
Proof.
  intros [= <- <-]. apply (rewrites_opn OP_BAND). intros n Hne HF.
  eapply holds_ext; [apply holds_not, holds_nots; done|]. intros I. cbn beta.
  pose proof (fits_all I n args HF) as Fv. destruct args as [|a args]; [done|]. inversion Fv; subst. simpl. symmetry. by apply fold_land.
Qed.

Lemma mk_bv_nand_ok a b st r : mk_bv_nand [a; b] = Some (st, r) -> App OP_BNAND [a; b] ~> r.
Proof.
  intros [= <- <-]. apply (rewrites_op2 OP_BNAND). intros n Ha Hb.
  eapply holds_ext; [apply (holds_nots n [a; b]); [done|by repeat constructor]|]. intros I. simpl.
  rewrite Z.lor_0_r. symmetry. apply not_land; by apply fits_vn.
Qed.

Lemma mk_bv_nor_ok a b st r : mk_bv_nor [a; b] = Some (st, r) -> App OP_BNOR [a; b] ~> r.
Proof.
  intros [= <- <-]. apply (rewrites_op2 OP_BNOR). intros n Ha Hb.
  eapply holds_ext; [apply holds_not, (holds_lors n [a; b]); [done|by repeat constructor]|]. intros I. simpl. by rewrite Z.lor_0_r.
Qed.

Lemma mk_bv_xnor_ok a b st r : mk_bv_xnor [a; b] = Some (st, r) -> App OP_BXNOR [a; b] ~> r.
Proof.
  intros [= <- <-]. apply (rewrites_op2 OP_BXNOR). intros n Ha Hb.
  eapply holds_ext; [apply holds_not, (holds_xors n [a; b]); [done|by repeat constructor]|]. intros I. simpl. by rewrite Z.lxor_0_r.
Qed.
