(* ===== verification/BvArithSound.v ===== *)
(** * BvArithSound: sums, products, and every rule of the simplifier are sound

    On top of the rules for polynomials: a sum without carries is a disjunction,
    and a product with a power of two a concatenation.  The latter needs that
    the coefficient of the product is not one, which holds of flat products. *)
From Stdlib Require Import ZArith Lia.
From stdpp Require Import base list.
From S2P Require Import Prelude Bits UBits Ast BvUtil AstFacts TermFacts BvTerms BoolRewriter BvRewriter PolyRewriter.
From S2P Require Import BvBitwise BvApp BvRewriterDiv BvRewriterShift BvRewriterExtract.
From S2P Require Import BvRewriterBits BvRewriterCmp PolyRewriterSound PolyRewriterAdd.
From S2P Require Import BvBitwiseSound.
Import bv_rewriter poly_rewriter arith.

Local Open Scope Z_scope.

(** ** Sums without carries *)

Lemma add_lor a b : Z.land a b = 0 -> a + b = Z.lor a b.
Proof. intros H. by rewrite Z.add_nocarry_lxor, Z.lxor_lor. Qed.

Lemma land_lors a l : Forall (fun b => Z.land a b = 0) l -> Z.land a (lors l) = 0.
Proof. induction 1 as [|b l Hb _ IH]; simpl; [apply Z.land_0_r|]. by rewrite Z.land_lor_distr_r, Hb, IH. Qed.

Lemma one_at_most_cons a l i :
  one_at_most (a :: l) i = true -> (is_zero_bit a i = true \/ Forall (fun b => is_zero_bit b i = true) l) /\ one_at_most l i = true.
Proof.
  unfold one_at_most. rewrite filter_cons, !Nat.leb_le. case_decide as Hz; simpl; intros H.
  - split; [right|lia]. apply Forall_forall. intros b Hb. apply not_false_iff_true. intros E.
    assert (Hin : b ∈ filter (fun a => is_zero_bit a i = false) l) by (by apply list_elem_of_filter).
    destruct (filter _ l); [by apply elem_of_nil in Hin|simpl in H; lia].
  - split; [left; by apply not_false_iff_true|done].
Qed.

Lemma no_carry n l I :
  Forall (bvx n) l -> (forall i, (i < n)%nat -> one_at_most l i = true) -> sumz (map (vn I) l) = lors (map (vn I) l).
Proof.
  induction 1 as [|a l Ha HF IH]; intros H; simpl; [done|].
  rewrite IH by (intros i Hi; by apply (one_at_most_cons a), H). apply add_lor, land_lors, Forall_map, Forall_forall.
  intros b Hb. rewrite Forall_forall in HF. specialize (HF b Hb). apply Z.bits_inj'. intros i Hi. rewrite Z.land_spec, Z.bits_0.
  destruct (Z.ltb_spec i (Z.of_nat n)) as [Hl|Hl].
  2:{ by rewrite (bit_above n (vn I a)) by (by apply fits_vn || lia). }
  replace i with (Z.of_nat (Z.to_nat i)) by lia. destruct (one_at_most_cons a l (Z.to_nat i)) as [[Hz|Hz] _]; [apply H; lia|..].
  - by rewrite (is_zero_bit_ok a n (Z.to_nat i) Ha ltac:(lia) Hz).
  - rewrite Forall_forall in Hz. rewrite (is_zero_bit_ok b n (Z.to_nat i) HF ltac:(lia) (Hz b Hb)). by rewrite andb_false_r.
Qed.

Lemma width_eq n args : args <> [] -> Forall (bvx n) args -> width args = n.
Proof. intros Hne HF. destruct HF as [|a l Ha HF]; [done|]. simpl. by apply get_bv_size_eq. Qed.

Lemma add_or_ok n F st args :
  result_ok n F st -> sums n F args -> result_ok n F (add_or st args).
Proof.
  intros Hst [HF V]. unfold add_or. destruct (Nat.ltb_spec (length args) 2); [done|].
  destruct (forallb _ _) eqn:E; [|done]. assert (Hne : args <> []) by (by intros ->; simpl in *; lia).
  rewrite (width_eq n args Hne HF), forallb_forall in E. simpl. eapply den_ext; [apply holds_den, holds_lors; done|].
  intros I. cbn beta. rewrite <- V. apply eqm_eq. symmetry. apply (no_carry n); [done|]. intros i Hi. apply E, in_seq. lia.
Qed.

Section Rules.
Context (cfg : params) (lt : expr -> expr -> bool) (get_id : expr -> Z).
Context (std_sort : (expr -> expr -> bool) -> list expr -> list expr).
Hypothesis sort_perm : forall r l, std_sort r l ≡ₚ l.

Lemma mk_bv_add_ok args st r :
  mk_bv_add cfg lt get_id std_sort args = Some (st, r) -> App OP_BADD args ~> r.
Proof.
  intros H. apply rewrites_sum. intros n Hne HF.
  assert (Hn : (0 < n)%nat) by (destruct HF as [|a l Ha _]; [done|by eapply bvx_pos]).
  pose proof (mk_add_core_ok cfg lt get_id std_sort sort_perm n Hn args HF) as Hc.
  unfold mk_bv_add in H. rewrite (width_eq n args Hne HF) in H.
  set (res := mk_add_core _ _ _ _ _ _) in *. clearbody res.
  cut (result_ok n (fun I => sumz (map (vn I) args)) (Some (st, r))); [done|]. rewrite <- H. clear H.
  destruct res as [[[] [o l]]|]; simpl in Hc; [exact Hc..| |apply add_or_ok; [done|by apply sums_refl]].
  destruct o; try exact Hc. apply add_or_ok; [exact Hc|]. destruct Hc as [B V].
  eapply sums_ext; [by apply (is_add_sums n (App OP_BADD l))|]. intros I. apply V.
Qed.

Lemma mk_uminus_rewrites arg st r : arith.mk_uminus arg = Some (st, r) -> App OP_BNEG [arg] ~> r.
Proof.
  intros H. apply (rewrites_op1 OP_BNEG). intros n Ha. unfold arith.mk_uminus in H. rewrite (get_bv_size_eq n arg Ha) in H.
  pose proof (mk_uminus_ok n (bvx_pos n arg Ha) arg Ha) as Hr. rewrite H in Hr. apply den_holds in Hr.
  eapply holds_ext; [exact Hr|]. intros I. unfold bv_neg. done.
Qed.

Lemma mk_sub_rewrites a b st r : arith.mk_sub [a; b] = Some (st, r) -> App OP_BSUB [a; b] ~> r.
Proof.
  intros H. apply (rewrites_op2 OP_BSUB). intros n Ha Hb. unfold arith.mk_sub in H.
  rewrite (width_eq n [a; b]) in H by (by repeat constructor).
  pose proof (mk_sub_ok n (bvx_pos n a Ha) a [b] ltac:(by repeat constructor)) as Hr. rewrite H in Hr. apply den_holds in Hr.
  eapply holds_ext; [exact Hr|]. intros I. unfold bv_sub. simpl. by rewrite Z.add_0_r.
Qed.

(** ** Products with a power of two *)

(** No product of two arguments the first of which is one. *)
Definition unit_free (args : list expr) : bool :=
  match args with [a; _] => negb (bool_decide (num a = Some 1)) | _ => true end.

Definition unit_free_term (e : expr) : bool := match is_mul e with Some args => unit_free args | None => true end.

Definition unit_free_result (args : list expr) (r : br_result) : Prop :=
  match r with
  | None => unit_free args = true
  | Some (BR_DONE, e) => unit_free_term e = true
  | Some _ => True
  end.

Section Flat.
Context (n : nat) (Hn : (0 < n)%nat).

Lemma num_mk_num v : num (mk_num n v) = Some (v mod pow2 n).
Proof. done. Qed.

Lemma cmul_unit_free c e :
  fits n c -> c <> 1 \/ unit_free_term e = true -> unit_free_term (mk_cmul_app n c e) = true.
Proof.
  intros Fc H. unfold mk_cmul_app. destruct (Z.eqb_spec c 1); [by destruct H|].
  destruct (bv_util.is_zero e) eqn:Ez; [by destruct e as [[] l]|]. unfold unit_free_term, mk_mul_app. cbn -[num].
  rewrite num_mk_num, Z.mod_small by done. apply negb_true_iff, bool_decide_eq_false. congruence.
Qed.

Lemma non_numerals_unit_free l : Forall (fun a => num a = None) l -> unit_free l = true.
Proof.
  intros HF. destruct l as [|a [|b [|c l]]]; try done. simpl. inv_Forall.
  apply negb_true_iff, bool_decide_eq_false. congruence.
Qed.

Lemma normalize_fits c : fits n (normalize n c).
Proof. unfold fits. apply Z.mod_pos_bound, pow2_pos. Qed.

(** A numeral one in front of the only other argument makes the product of the
    numerals one. *)
Lemma leading_one args var :
  non_numerals args = [var] -> normalize n (fold_left Z.mul (omap num args) 1) <> 1 -> unit_free args = true.
Proof.
  intros Hr Hc. destruct args as [|a [|b [|? ?]]]; try done. simpl. apply negb_true_iff, bool_decide_eq_false. intros Ha.
  apply Hc. rewrite !non_numerals_cons, Ha in Hr. destruct (num b) eqn:Eb; [done|]. cbn. rewrite Ha. cbn. rewrite Eb.
  unfold normalize, bv_util.norm. apply Z.mod_small. pose proof (pow2_lt_mono 0 n Hn) as P. rewrite pow2_0 in P. lia.
Qed.

Lemma mul_one_unit_free args c var :
  fits n c -> (c <> 1 -> unit_free args = true) -> unit_free_term var = true ->
  unit_free_result args (mul_one cfg n args c var).
Proof.
  intros Fc Hargs Hu. unfold mul_one. destruct (Z.eqb_spec c 1) as [|Hc1]; [done|]. specialize (Hargs Hc1).
  destruct (holds_of (is_mul var)); [by destruct (is_mul_num var) as [[]|]|].
  destruct (is_add var), (m_hoist_cmul cfg); simpl; try done; case_goal; try done; simpl; apply cmul_unit_free; auto.
Qed.

Context `{Env}.

Lemma som_rewrites args :
  Forall (bvx n) args -> spec_exn blowup (som cfg n args) (fun r => exists e, r = Some (BR_REWRITE2, e)).
Proof.
  intros HF s. pose proof (som_ok cfg n Hn args HF s) as Hs. unfold som, mbind, M_bind in *.
  destruct (som_loop _ _ _ _ _ _ s); [by eexists|done].
Qed.

Lemma nflat_unit_free args :
  Forall (bvx n) args -> Forall (fun a => unit_free_term a = true) args ->
  spec_exn blowup (mk_nflat_mul_core cfg lt get_id std_sort n args) (unit_free_result args).
Proof.
  intros HF HU. unfold mk_nflat_mul_core. destruct (is_monomial args) eqn:Em.
  { apply spec_exn_ret. simpl. destruct args as [|a [|b [|? ?]]]; try done. simpl in *. destruct (num a) as [v|]; [|done].
    apply negb_true_iff, bool_decide_eq_false. intros [= ->]. done. }
  set (c := normalize n _). assert (Fc : fits n c) by apply normalize_fits.
  destruct (length (omap num args) =? length args)%nat; [by apply spec_exn_ret|].
  destruct (Z.eqb_spec c 0); [by apply spec_exn_ret|].
  assert (HN : Forall (fun a => num a = None) (non_numerals args)).
  { apply Forall_forall. by intros x [Hx _]%list_elem_of_filter. }
  assert (Hsort : (1 < length (non_numerals args))%nat \/ non_numerals args = [] ->
    spec_exn blowup (mret (mul_sort cfg lt get_id std_sort n (non_numerals args) (length (omap num args)) c)) (unit_free_result args)).
  { intros Hl. apply spec_exn_ret. unfold mul_sort.
    destruct (in_order _ _ _ (non_numerals args) && _) eqn:Eo.
    - apply andb_true_iff in Eo as [_ Eo%Nat.eqb_eq]. apply length_zero_iff_nil, no_numerals in Eo. simpl. apply non_numerals_unit_free.
      by rewrite <- Eo.
    - simpl. apply cmul_unit_free; [done|]. right. set (l := if in_order _ _ _ _ then _ else _).
      assert (P : l ≡ₚ non_numerals args) by (unfold l; destruct (in_order _ _ _ _); [done|apply sort_perm]).
      assert (HNl : Forall (fun a => num a = None) l) by (by rewrite P). assert (Hll : length l = length (non_numerals args)) by (by rewrite P).
      destruct l as [|a [|b l]]; [done|simpl in Hll; destruct Hl as [|Hl]; [lia|by rewrite Hl in Hll]|].
      unfold unit_free_term, mk_mul_app. cbn -[num unit_free]. by apply non_numerals_unit_free. }
  assert (Hsom : spec_exn blowup (som cfg n args) (unit_free_result args)).
  { eapply spec_exn_mono; [by apply som_rewrites|done|]. by intros r [e ->]. }
  destruct (non_numerals args) as [|var [|x l]] eqn:El.
  - case_goal; [apply Hsort; by right|exact Hsom].
  - apply spec_exn_ret. apply mul_one_unit_free; [done|by apply leading_one with var|].
    assert (Hin : var ∈ non_numerals args) by (rewrite El; by left). apply list_elem_of_filter in Hin as [_ Hin].
    by apply (proj1 (Forall_forall _ _) HU).
  - case_goal; [apply Hsort; left; simpl; lia|exact Hsom].
Qed.

Lemma flat_mul_leaves e : Forall (fun a => is_mul a = None) (flat_mul e).
Proof.
  induction e as [o l IH] using expr_rect'. destruct (decide (o = OP_BMUL)) as [->|Hne].
  - simpl. induction IH as [|a l Ha _ IHl]; simpl; [constructor|by apply Forall_app].
  - replace (flat_mul (App o l)) with [App o l] by (by destruct o). constructor; [by destruct o|constructor].
Qed.

Lemma flat_muls_leaves l : Forall (fun a => is_mul a = None) (flat_map flat_mul l).
Proof. induction l as [|a l IH]; simpl; [constructor|]. apply Forall_app. split; [apply flat_mul_leaves|done]. Qed.

Lemma no_mul_unit_free l : Forall (fun a => is_mul a = None) l -> Forall (fun a => unit_free_term a = true) l.
Proof. intros HF. eapply Forall_impl; [exact HF|]. intros a Ha. unfold unit_free_term. by rewrite Ha. Qed.

Lemma mul_app_unit_free l : Forall (fun a => is_mul a = None) l -> unit_free l = true -> unit_free_term (mk_mul_app n l) = true.
Proof.
  intros HF Hu. destruct l as [|a [|b l]]; [done| |exact Hu]. inv_Forall. unfold unit_free_term, mk_mul_app. by case_match.
Qed.

Lemma flat_unit_free args :
  Forall (bvx n) args ->
  spec_exn blowup (mk_flat_mul_core cfg lt get_id std_sort n args) (unit_free_result args).
Proof.
  intros HF. unfold mk_flat_mul_core. destruct (negb _ && existsb _ _) eqn:E.
  - pose proof (flat_muls_leaves args) as HL. pose proof (flat_muls_ok n args HF) as [HFl _].
    eapply spec_exn_bind; [apply nflat_unit_free; [done|by apply no_mul_unit_free]|]. intros r Hr. apply spec_exn_ret.
    destruct r as [[[] e]|]; [exact Hr..|]. by apply mul_app_unit_free.
  - apply nflat_unit_free; [done|]. apply andb_false_iff in E as [E|E].
    + apply negb_false_iff in E. destruct args as [|a [|b [|? ?]]]; try done. apply andb_true_iff in E as [Ea Eb].
      apply negb_true_iff in Eb. repeat constructor.
      * unfold unit_free_term. by destruct a as [[] l].
      * unfold unit_free_term. destruct (is_mul b) as [[|x [|y [|? ?]]]|]; try done. simpl. destruct (num x); [done|].
        by apply negb_true_iff, bool_decide_eq_false.
    + apply no_mul_unit_free, Forall_forall. intros a Ha. destruct (is_mul a) as [l|] eqn:Em; [|done].
      assert (Hex : existsb (fun a => holds_of (is_mul a)) args = true).
      { apply existsb_exists. exists a. split; [by apply list_elem_of_In|by rewrite Em]. }
      congruence.
Qed.

(** The concatenation is the product. *)
Lemma mul_concat_ok F st x y :
  result_ok n F st -> den n F (App OP_BMUL [x; y]) -> m_mul2concat cfg = false \/ num x <> Some 1 ->
  result_ok n F (mul_concat cfg st x y).
Proof.
  intros Hst [B V] Hx. unfold mul_concat. destruct (m_mul2concat cfg); [|done]. destruct Hx as [|Hx]; [done|].
  destruct (is_mul_prods n (App OP_BMUL [x; y]) [x; y] B eq_refl) as [[HF Vp] _]. inv_Forall.
  destruct (is_numeral x) as [[v w]|] eqn:E; [|done]. assert (Hv : num x = Some v) by (unfold num; by rewrite E). read_num.
  destruct (is_power_of_two v) as [k|] eqn:Ek; [|done]. apply (is_power_of_two_ok n) in Ek as [-> Hk]; [|done]. simpl.
  assert (Hk0 : (0 < k)%nat) by (destruct k; [by rewrite pow2_0 in Hv|lia]).
  pose proof (holds_extract_w n (n - k) (n - k - 1) 0 _ y ltac:(lia) ltac:(lia) (holds_refl n y ltac:(done))) as He.
  pose proof (holds_concat2 (n - k) k _ _ _ _ He (holds_num k 0 Hk0)) as Hc.
  replace (n - k + k)%nat with n in Hc by lia. apply holds_den in Hc. eapply den_ext; [exact Hc|]. intros I. cbn beta.
  rewrite <- V, <- Vp. simpl. rewrite !prodz_cons, V0, pow2_0, Z.div_1_r, Z.mod_0_l by (pose proof (pow2_pos k); lia).
  rewrite <- (eqm_mod n (_ + 0)), <- (eqm_mod n (pow2 k * _)). apply eqm_eq. unfold prodz. simpl.
  replace (pow2 n) with (pow2 (n - k) * pow2 k) by (rewrite <- pow2_add; f_equal; lia).
  rewrite Z.add_0_r, Z.mul_1_r, (Z.mul_comm (pow2 k)), !Z.mul_mod_distr_r by (pose proof (pow2_pos k); pose proof (pow2_pos (n - k)); lia).
  by rewrite Z.mod_mod by (pose proof (pow2_pos (n - k)); lia).
Qed.
End Flat.

Context `{Env}.

(** A concatenation is made of flat products only. *)
Lemma mk_bv_mul_ok n args :
  args <> [] -> Forall (bvx n) args ->
  m_mul2concat cfg = false \/ (m_flat cfg = true /\ (2 <= length args)%nat) ->
  spec_exn blowup (mk_bv_mul cfg lt get_id std_sort args) (result_ok n (fun I => prodz (map (vn I) args))).
Proof.
  intros Hne HF Hcfg. assert (Hn : (0 < n)%nat) by (destruct HF as [|a l Ha _]; [done|by eapply bvx_pos]).
  unfold mk_bv_mul. rewrite (width_eq n args Hne HF).
  eapply (spec_exn_bind blowup _ _ (fun r => result_ok n (fun I => prodz (map (vn I) args)) r
                                        /\ (m_mul2concat cfg = false \/ unit_free_result args r))).
  { destruct Hcfg as [Hm|[Hf Hl]].
    - eapply (spec_exn_mono blowup blowup); [by apply mk_mul_core_ok|auto|auto].
    - apply spec_exn_and; [by apply mk_mul_core_ok|]. apply (spec_exn_mono blowup blowup _ (unit_free_result args)); [|auto|auto].
      unfold mk_mul_core. rewrite Hf. destruct args as [|a [|b l]]; [done|simpl in Hl; lia|by apply (flat_unit_free n Hn)]. }
  intros r [Hr Hu]. apply spec_exn_ret. destruct r as [[[] e]|]; try exact Hr.
  - destruct e as [[] l]; try exact Hr. destruct l as [|x [|y [|? ?]]]; try exact Hr. apply mul_concat_ok; [done|done|exact Hr|].
    destruct Hu as [|Hu]; [by left|right]. simpl in Hu. by apply negb_true_iff, bool_decide_eq_false in Hu.
  - destruct args as [|x [|y [|? ?]]]; try exact Hr. apply mul_concat_ok; [done|done|by apply den_prod|].
    destruct Hu as [|Hu]; [by left|right]. simpl in Hu. by apply negb_true_iff, bool_decide_eq_false in Hu.
Qed.
End Rules.

(** ** Every rule of the simplifier keeps the value

    The lemmas of the components put together along the dispatch of
    [mk_app_core]. *)
Import bv_rewriter bv_app.

(** A rule keeps sort and value of the application [e], if it fires. *)
Definition keeps (e : expr) (r : br_result) : Prop := match r with Some (_, r) => e ~> r | None => True end.

Lemma mk_ugt_ok a b st r : mk_ult b a = Some (st, r) -> App OP_UGT [a; b] ~> r.
Proof.
  intros [= <- <-]. apply (rewrites_pred OP_UGT). intros n Ha Hb. apply same_not.
  by apply (pred_same_bool OP_ULEQ n); apply holds_refl.
Qed.

Lemma mk_sgt_ok a b st r : mk_slt b a = Some (st, r) -> App OP_SGT [a; b] ~> r.
Proof.
  intros [= <- <-]. apply (rewrites_pred OP_SGT). intros n Ha Hb. apply same_not.
  by apply (pred_same_bool OP_SLEQ n); apply holds_refl.
Qed.

#[export] Hint Resolve mk_ult_ok mk_ugt_ok mk_slt_ok mk_sgt_ok mk_uge_ok mk_sge_ok
  mk_bv_shl_ok mk_bv_lshr_ok mk_bv_ashr_ok mk_bv_ext_rotate_left_ok mk_bv_ext_rotate_right_ok
  mk_bv_comp_ok mk_bvumul_no_overflow_ok mk_bvsmul_no_underflow_ok : bv_rules.
#[export] Hint Extern 2 (App _ [_; _] ~> _) =>
  first [ eapply mk_bv_sdiv_core_ok; [apply _|eassumption] | eapply mk_bv_udiv_core_ok; [apply _|eassumption|eassumption]
        | eapply mk_bv_srem_core_ok; [apply _|eassumption] | eapply mk_bv_urem_core_ok; [apply _|eassumption]
        | eapply mk_bv_smod_core_ok; [apply _|eassumption] ] : bv_rules.
#[export] Hint Extern 1 (App OP_ULEQ _ ~> _) => eapply bv_ule_ok; eassumption : bv_rules.
#[export] Hint Extern 1 (App OP_SLEQ _ ~> _) => eapply bv_sle_ok; eassumption : bv_rules.
#[export] Hint Resolve mk_uminus_rewrites mk_extract_ok mk_repeat_ok bv_zero_extend_ok bv_sign_extend_ok mk_bv_not_ok
  mk_bv_rotate_left_ok mk_bv_rotate_right_ok mk_bv_redor_ok mk_bv_redand_ok mk_bit2bool_ok
  mk_bv_add_ok mk_concat_ok mk_bv_or_ok mk_bv_xor_ok mk_bv_and_ok mk_mkbv_ok : bv_rules.

Section Rules.
Context `{Env}.
Context (cfg : params) (lt : expr -> expr -> bool) (get_id : expr -> Z) (get_ref_count : expr -> nat).
Context (std_sort : (expr -> expr -> bool) -> list expr -> list expr).
Hypothesis sort_perm : forall r l, std_sort r l ≡ₚ l.

Lemma mk_unary_keeps o a : keeps (App o [a]) (mk_unary cfg get_ref_count o a).
Proof.
  destruct (mk_unary cfg get_ref_count o a) as [[st r]|] eqn:E; [|done]. simpl.
  destruct o; try discriminate E; simpl in E; eauto with bv_rules.
Qed.

Lemma mk_binary_keeps o a b :
  m_udiv2mul cfg = false -> o <> OP_BSMUL_NO_OVFL -> keeps (App o [a; b]) (mk_binary cfg o a b).
Proof.
  intros Hd Ho. destruct (mk_binary cfg o a b) as [[st r]|] eqn:E; [|done]. simpl.
  destruct o; try discriminate E; simpl in E; try done; eauto with bv_rules.
Qed.

(** The guard of the rule for products. *)
Definition mul_guard (o : op) (args : list expr) : Prop :=
  o = OP_BMUL -> m_mul2concat cfg = false \/ (m_flat cfg = true /\ (2 <= length args)%nat).

Lemma mk_bv_mul_keeps args s :
  mul_guard OP_BMUL args -> get_sort (App OP_BMUL args) = Some s ->
  spec_exn blowup (arith.mk_bv_mul cfg lt get_id std_sort args) (keeps (App OP_BMUL args)).
Proof.
  intros Hg Hs. pose proof (opn_inv OP_BMUL args s Hs) as (n & -> & Hne & HF).
  eapply spec_exn_mono; [by apply (mk_bv_mul_ok cfg lt get_id std_sort sort_perm n args Hne HF), Hg|done|].
  intros [[st r]|] Hr; [|done]. apply rewrites_prod. intros k _ HFk. assert (k = n) as ->; [|exact Hr].
  destruct HF as [|a l Ha _]; [done|]. inversion HFk; subst. by eapply bvx_inj.
Qed.

Lemma mk_app_core_keeps o args s :
  get_sort (App o args) = Some s -> m_udiv2mul cfg = false -> o <> OP_BSMUL_NO_OVFL -> mul_guard o args ->
  spec_exn blowup (mk_app_core cfg lt get_id get_ref_count std_sort o args) (keeps (App o args)).
Proof.
  intros Hs Hd Ho Hg. assert (K : forall r, (forall st e, r = Some (st, e) -> App o args ~> e) ->
    spec_exn blowup (mret r) (keeps (App o args))).
  { intros r Hr. apply spec_exn_ret. destruct r as [[st e]|]; [by eapply Hr|done]. }
  assert (Hu : spec_exn blowup (match args with [a] => mret (mk_unary cfg get_ref_count o a)
                 | [a; b] => mret (mk_binary cfg o a b) | _ => mret None end) (keeps (App o args))).
  { destruct args as [|a [|b [|? ?]]]; apply spec_exn_ret; try done; [apply mk_unary_keeps|by apply mk_binary_keeps]. }
  destruct o; try exact Hu; unfold mk_app_core.
  all: try by eapply mk_bv_mul_keeps.
  all: apply K; intros st e E; try solve [eauto with bv_rules].
  all: match type of Hs with get_sort (App ?o _) = _ => pose proof (op2_inv o args s Hs) as (n & a & b & -> & _) end.
  all: eauto using mk_sub_rewrites, mk_bv_nand_ok, mk_bv_nor_ok, mk_bv_xnor_ok.
Qed.

End Rules.
