(* ===== verification/BvEqSound.v ===== *)
(** * BvEqSound: the rules for equations are sound

    Each rule replaces an equation by a formula that holds of the same values.
    Two rules are not sound on all terms: the removal of trailing zeros needs
    plain concatenations ([BvTrailingSound]), and the one for remainders a
    divisor that is not the numeral zero. *)
From Stdlib Require Import ZArith Lia Morphisms.
From stdpp Require Import base list.
From S2P Require Import Prelude Bits UBits Ast BvUtil AstFacts TermFacts BvTerms BoolRewriter BvRewriter.
From S2P Require Import PolyRewriter BvTrailing BvEq.
From S2P Require Import BvRewriterDiv BvRewriterExtract BvRewriterBits BvRewriterCmp PolyRewriterSound PolyRewriterAdd.
From S2P Require Import BvBitwiseSound BvTrailingSound.
Import bv_rewriter poly_rewriter eq.

Local Open Scope Z_scope.

(** ** Conjunctions and equations *)

Lemma same_ands l v :
  Forall boolx l -> (forall I, forallb (bval I) l = v I) -> same_bool (m.mk_and l) v.
Proof. intros Hb Hv. split; [by apply boolx_and|]. intros I. by rewrite bval_and. Qed.

Lemma eqm_eqb n x y u v : (eqm n x y <-> u = v) -> (x mod pow2 n =? y mod pow2 n) = (u =? v).
Proof.
  intros H. destruct (Z.eqb_spec u v) as [E|E].
  - apply Z.eqb_eq. by apply H.
  - apply Z.eqb_neq. intros E2. by apply E, H.
Qed.

(** An equation between terms that denote [F] and [G]. *)
Lemma same_den_eq n F G a b u v :
  den n F a -> den n G b -> (forall I, eqm n (F I) (G I) <-> u I = v I) -> same_bool (m.mk_eq a b) (fun I => u I =? v I).
Proof.
  intros Ha%den_holds Hb%den_holds H. eapply same_bool_ext; [by apply (same_bv_eq n)|]. intros I. by apply eqm_eqb.
Qed.

Lemma eqm_vn n a b I : bvx n a -> bvx n b -> eqm n (vn I a) (vn I b) <-> vn I a = vn I b.
Proof.
  intros Ha Hb. split; [|by intros ->]. apply eqm_small; by apply fits_vn.
Qed.

(** ** A value, bit by bit *)

Lemma div_pow2_S x i : x / pow2 i = 2 * (x / pow2 (S i)) + (x / pow2 i) mod 2.
Proof.
  pose proof (pow2_pos i). replace (x / pow2 (S i)) with (x / pow2 i / 2) by (rewrite Z.div_div, pow2_S by lia; f_equal; lia).
  pose proof (Z.div_mod (x / pow2 i) 2 ltac:(lia)). lia.
Qed.

Lemma blast_bits_ok n lhs v i k :
  bvx n lhs -> (i + k = n)%nat -> fits k v ->
  Forall boolx (blast_bits lhs v i k) /\ forall I, forallb (bval I) (blast_bits lhs v i k) = (vn I lhs / pow2 i =? v).
Proof.
  intros Hl. revert i v. induction k as [|k IH]; intros i v Hi Fv; simpl.
  - split; [constructor|]. intros I. unfold fits in Fv. rewrite pow2_0 in Fv. assert (i = n) as -> by lia.
    rewrite Z.div_small by (by apply vn_bounds). symmetry. apply Z.eqb_eq. lia.
  - assert (Fv' : fits k (v / 2)).
    { unfold fits in *. rewrite pow2_S in Fv. split; [apply Z.div_pos; lia|apply Z.div_lt_upper_bound; lia]. }
    destruct (IH (S i) (v / 2) ltac:(lia) Fv') as [HB HV].
    pose proof (holds_extract_w n 1 i i _ lhs ltac:(lia) ltac:(lia) (holds_refl n lhs Hl)) as He.
    pose proof (holds_num 1 (if v mod 2 =? 0 then 0 else 1) ltac:(lia)) as Hb.
    destruct (same_bv_eq 1 _ _ _ _ He Hb) as [Bq Vq]. split; [by constructor|]. intros I. rewrite Vq, HV.
    change (pow2 1) with 2. pose proof (Z.mod_pos_bound v 2 ltac:(lia)). pose proof (Z.div_mod v 2 ltac:(lia)).
    replace ((if v mod 2 =? 0 then 0 else 1) mod 2) with (v mod 2) by (destruct (Z.eqb_spec (v mod 2) 0); [rewrite e|]; [done|];
      replace (v mod 2) with 1 by lia; done).
    rewrite (div_pow2_S (vn I lhs) i). pose proof (Z.mod_pos_bound (vn I lhs / pow2 i) 2 ltac:(lia)).
    rewrite Z.add_comm, (Z.mul_comm 2 (vn I lhs / pow2 (S i))), Z.mod_add, Z.mod_mod by lia.
    destruct (Z.eqb_spec ((vn I lhs / pow2 i) mod 2) (v mod 2)), (Z.eqb_spec (vn I lhs / pow2 (S i)) (v / 2)); simpl; symmetry;
      rewrite ?Z.eqb_eq, ?Z.eqb_neq; lia.
Qed.

Lemma mk_blast_eq_value_ok n lhs rhs st r :
  bvx n lhs -> bvx n rhs -> mk_blast_eq_value lhs rhs = Some (st, r) -> same_bool r (fun I => vn I lhs =? vn I rhs).
Proof.
  intros Hl Hr H. unfold mk_blast_eq_value in H. destruct (_ =? 1)%nat; [done|].
  cut (forall a b, bvx n a -> bvx n b ->
    match is_numeral b with
    | Some (v, sz) => if is_bv_or a || is_bv_xor a || is_bv_not a then Some (BR_REWRITE3, m.mk_and (blast_bits a v 0 sz)) else None
    | None => None end = Some (st, r) -> same_bool r (fun I => vn I a =? vn I b)).
  { intros Hc. destruct (is_num lhs); [|by apply Hc]. eapply same_bool_ext; [by apply (Hc rhs lhs)|]. intros I. apply Z.eqb_sym. }
  clear H. intros a b Ha Hb H. destruct (is_numeral b) as [[v w]|] eqn:E; [|done]. read_num. destruct (_ || _); [|done].
  injection H as <- <-. destruct (blast_bits_ok n a v 0 n Ha eq_refl) as [HB HV]; [done|]. apply same_ands; [done|].
  intros I. by rewrite HV, pow2_0, Z.div_1_r, V.
Qed.

(** ** Concatenations *)

(** The position inside the argument that is next. *)
Definition low_ok (ss : list nat) (low : nat) : Prop := match ss with s :: _ => (low < s)%nat | [] => low = 0%nat end.

Lemma rcat_low I s ss a l low w :
  bvx s a -> (low + w <= s)%nat -> part low w (rcat I (s :: ss) (a :: l)) = part low w (vn I a).
Proof. intros Ha Hw. simpl. by apply part_low. Qed.

Lemma rcat_next I s ss a l low : bvx s a -> (low <= s)%nat ->
  rcat I (s :: ss) (a :: l) / pow2 low / pow2 (s - low) = rcat I ss l.
Proof.
  intros Ha Hl. rewrite Z.div_div by (pose proof (pow2_pos low); pose proof (pow2_pos (s - low)); lia).
  rewrite <- pow2_add. replace (low + (s - low))%nat with s by lia. simpl. pose proof (pow2_pos s).
  rewrite Z.div_add_l by lia. rewrite Z.div_small by (by apply vn_bounds). lia.
Qed.

(** Comparing [w] low bits and what is above them. *)
Lemma eqb_split x y w : (x =? y) = (x mod pow2 w =? y mod pow2 w) && (x / pow2 w =? y / pow2 w).
Proof.
  pose proof (pow2_pos w). pose proof (Z.div_mod x (pow2 w) ltac:(lia)) as Dx. pose proof (Z.div_mod y (pow2 w) ltac:(lia)) as Dy.
  destruct (Z.eqb_spec (x mod pow2 w) (y mod pow2 w)) as [Em|Em], (Z.eqb_spec (x / pow2 w) (y / pow2 w)) as [Eq|Eq]; simpl;
    rewrite ?Z.eqb_eq, ?Z.eqb_neq; [|by intros ->..]. rewrite Dx, Dy. by rewrite Em, Eq.
Qed.

Lemma div_add_pow2 x a b : x / pow2 a / pow2 b = x / pow2 (a + b).
Proof. pose proof (pow2_pos a). pose proof (pow2_pos b). rewrite Z.div_div by lia. by rewrite pow2_add. Qed.

Lemma part_eq n1 n2 lo1 lo2 w hi1 hi2 a b :
  bvx n1 a -> bvx n2 b -> (0 < w)%nat -> (lo1 + w <= n1)%nat -> (lo2 + w <= n2)%nat ->
  hi1 = (lo1 + w - 1)%nat -> hi2 = (lo2 + w - 1)%nat ->
  same_bool (m.mk_eq (bv_util.mk_extract hi1 lo1 a) (bv_util.mk_extract hi2 lo2 b))
    (fun I => part lo1 w (vn I a) =? part lo2 w (vn I b)).
Proof.
  intros Ha Hb Hw L1 L2 -> ->. apply (same_bv_eq w).
  - by apply (holds_extract_w n1); [lia|lia|apply holds_refl].
  - by apply (holds_extract_w n2); [lia|lia|apply holds_refl].
Qed.

(** The equations of the loop hold exactly when what is left of both sides is
    equal. *)
Lemma eq_parts_ok fuel ss1 ss2 l1 l2 low1 low2 :
  bvxs ss1 l1 -> bvxs ss2 l2 -> low_ok ss1 low1 -> low_ok ss2 low2 ->
  (sum_list ss1 + low2 = sum_list ss2 + low1)%nat -> (length l1 + length l2 <= fuel)%nat ->
  Forall boolx (eq_parts fuel l1 l2 low1 low2)
  /\ forall I, forallb (bval I) (eq_parts fuel l1 l2 low1 low2)
       = (rcat I ss1 l1 / pow2 low1 =? rcat I ss2 l2 / pow2 low2).
Proof.
  revert ss1 ss2 l1 l2 low1 low2. induction fuel as [|fuel IH]; intros ss1 ss2 l1 l2 low1 low2 H1 H2 O1 O2 Hs Hf.
  { destruct l1, l2; simpl in Hf; try lia. inv_Forall. inversion H1; inversion H2; subst. simpl in O1, O2. subst.
    split; [constructor|]. intros I. by rewrite Z.eqb_refl. }
  destruct H1 as [|s1 a1 ss1 l1 Ha1 H1]; [|destruct H2 as [|s2 a2 ss2 l2 Ha2 H2]].
  - destruct H2 as [|s2 a2 ss2 l2 Ha2 H2]; simpl in *; subst; [|lia].
    split; [apply Forall_nil_2|done].
  - simpl in *. subst. lia.
  - cbn [eq_parts low_ok] in *. rewrite (get_bv_size_eq s1 a1 Ha1), (get_bv_size_eq s2 a2 Ha2). simpl in Hs, Hf.
    assert (Hgo : forall w hi1 hi2 l1' l2' ss1' ss2' low1' low2',
      bvxs ss1' l1' -> bvxs ss2' l2' -> low_ok ss1' low1' -> low_ok ss2' low2' ->
      (sum_list ss1' + low2' = sum_list ss2' + low1')%nat -> (length l1' + length l2' <= fuel)%nat ->
      (0 < w)%nat -> (low1 + w <= s1)%nat -> (low2 + w <= s2)%nat -> hi1 = (low1 + w - 1)%nat -> hi2 = (low2 + w - 1)%nat ->
      (forall I, rcat I (s1 :: ss1) (a1 :: l1) / pow2 low1 / pow2 w = rcat I ss1' l1' / pow2 low1') ->
      (forall I, rcat I (s2 :: ss2) (a2 :: l2) / pow2 low2 / pow2 w = rcat I ss2' l2' / pow2 low2') ->
      let eqs := m.mk_eq (bv_util.mk_extract hi1 low1 a1) (bv_util.mk_extract hi2 low2 a2) :: eq_parts fuel l1' l2' low1' low2' in
      Forall boolx eqs /\ forall I, forallb (bval I) eqs
        = (rcat I (s1 :: ss1) (a1 :: l1) / pow2 low1 =? rcat I (s2 :: ss2) (a2 :: l2) / pow2 low2)).
    { intros w hi1 hi2 l1' l2' ss1' ss2' low1' low2' B1 B2 O1' O2' Hs' Hf' Hw L1 L2 E1 E2 V1 V2 eqs. unfold eqs.
      destruct (IH ss1' ss2' l1' l2' low1' low2' B1 B2 O1' O2' Hs' Hf') as [HB HV].
      destruct (part_eq s1 s2 low1 low2 w hi1 hi2 a1 a2) as [Bq Vq]; [done..|]. split; [by constructor|]. intros I. cbn [forallb].
      rewrite Vq, HV, (eqb_split (_ / pow2 low1) _ w), V1, V2. f_equal.
      by rewrite <- (rcat_low I s1 ss1 a1 l1 low1 w Ha1 L1), <- (rcat_low I s2 ss2 a2 l2 low2 w Ha2 L2). }
    assert (P1 : forall ss l, bvxs ss l -> low_ok ss 0) by (intros ? ? [|? ? ? ? Hx _]; simpl; [done|by eapply bvx_pos]).
    destruct (Nat.eqb_spec (s1 - low1) (s2 - low2)) as [Er|Er]; [|destruct (Nat.ltb_spec (s1 - low1) (s2 - low2)) as [Hlt|Hge]].
    + apply (Hgo (s1 - low1)%nat _ _ l1 l2 ss1 ss2 0%nat 0%nat); try done; try lia; eauto.
      * intros I. by rewrite (rcat_next I s1 ss1 a1 l1 low1 Ha1), pow2_0, Z.div_1_r by lia.
      * intros I. rewrite Er. by rewrite (rcat_next I s2 ss2 a2 l2 low2 Ha2), pow2_0, Z.div_1_r by lia.
    + apply (Hgo (s1 - low1)%nat _ _ l1 (a2 :: l2) ss1 (s2 :: ss2) 0%nat (low2 + (s1 - low1))%nat); try done; try (simpl; lia); eauto.
      * by constructor.
      * intros I. by rewrite (rcat_next I s1 ss1 a1 l1 low1 Ha1), pow2_0, Z.div_1_r by lia.
      * intros I. apply div_add_pow2.
    + apply (Hgo (s2 - low2)%nat _ _ (a1 :: l1) l2 (s1 :: ss1) ss2 (low1 + (s2 - low2))%nat 0%nat); try done; try (simpl; lia); eauto.
      * by constructor.
      * intros I. apply div_add_pow2.
      * intros I. by rewrite (rcat_next I s2 ss2 a2 l2 low2 Ha2), pow2_0, Z.div_1_r by lia.
Qed.

Lemma concat_args_inv n e :
  bvx n e -> exists ss, bvxs ss (rev (concat_args e)) /\ n = sum_list ss /\ forall I, vn I e = rcat I ss (rev (concat_args e)).
Proof.
  intros He. destruct (eq.is_concat e) eqn:E.
  - destruct e as [o l]. destruct o; try done. destruct (concat_rev_inv n l He) as (ss & _ & ?). by exists ss.
  - assert (concat_args e = [e]) as -> by (destruct e as [o l]; by destruct o). exists [n].
    split_and!; [by repeat constructor|simpl; lia|]. intros I. simpl. lia.
Qed.

Lemma mk_eq_concat_ok n lhs rhs st r :
  bvx n lhs -> bvx n rhs -> mk_eq_concat lhs rhs = Some (st, r) -> same_bool r (fun I => vn I lhs =? vn I rhs).
Proof.
  intros Hl Hr [= <- <-]. destruct (concat_args_inv n lhs Hl) as (ss1 & B1 & N1 & V1).
  destruct (concat_args_inv n rhs Hr) as (ss2 & B2 & N2 & V2).
  assert (P1 : forall ss l, bvxs ss l -> low_ok ss 0) by (intros ? ? [|? ? ? ? Hx _]; simpl; [done|by eapply bvx_pos]).
  destruct (eq_parts_ok (length (concat_args lhs) + length (concat_args rhs)) ss1 ss2 _ _ 0 0 B1 B2) as [HB HV];
    [by eapply P1..|lia|by rewrite !length_rev|]. apply same_ands; [done|]. intros I. rewrite HV, V1, V2.
  by rewrite pow2_0, !Z.div_1_r.
Qed.

(** ** Linear equations *)

Lemma sub_den n F G a b : den n F a -> den n G b -> den n (fun I => F I - G I) (bv_util.mk_bv_sub a b).
Proof.
  intros Ha Hb. eapply den_ext; [apply holds_den, (holds_op2 OP_BSUB); [apply den_holds, Ha|apply den_holds, Hb]|].
  intros I. cbn beta. unfold bv_sub. by rewrite !eqm_mod.
Qed.

Lemma mul_den n F G a b : den n F a -> den n G b -> den n (fun I => F I * G I) (bv_util.mk_bv_mul a b).
Proof.
  intros Ha Hb. eapply den_ext; [apply den_of_prods, prods_cons; [done|exact Ha|apply prods_cons; [exact Hb|apply prods_nil]]|].
  intros I. apply eqm_eq. lia.
Qed.

(** Moving a summand to the other side. *)
Lemma eqm_move n a b c : eqm n a (c - b) <-> eqm n c (a + b).
Proof.
  split; intros H; [rewrite H|rewrite H]; apply eqm_eq; lia.
Qed.

Lemma isolate_term_ok n lhs rhs r :
  bvx n lhs -> bvx n rhs -> isolate_term lhs rhs = Some r -> same_bool r (fun I => vn I lhs =? vn I rhs).
Proof.
  intros Hl Hr H.
  cut (forall c s, bvx n c -> bvx n s ->
    match is_add s with
    | Some [t1; t2] => Some (mk_t1_add_t2_eq_c t1 t2 c)
    | Some (t1 :: (_ :: _ :: _) as rest) => Some (mk_t1_add_t2_eq_c t1 (App OP_BADD rest) c)
    | _ => None end = Some r -> same_bool r (fun I => vn I c =? vn I s)).
  { intros Hc. unfold isolate_term in H. destruct (negb (is_num lhs) || _).
    - destruct (negb (is_num rhs)); [done|]. eapply same_bool_ext; [by apply (Hc rhs lhs)|]. intros I. apply Z.eqb_sym.
    - destruct (negb (is_num lhs)); [done|]. by apply Hc. }
  clear lhs rhs Hl Hr H. intros c s Hc Hs H. destruct (is_add s) as [l|] eqn:Ea; [|done].
  destruct (is_add_sums n s l Hs Ea) as [[HF Vs] _].
  assert (Hgo : forall t1 t2 G, bvx n t1 -> den n G t2 -> (forall I, eqm n (vn I t1 + G I) (vn I s)) ->
    same_bool (mk_t1_add_t2_eq_c t1 t2 c) (fun I => vn I c =? vn I s)).
  { intros t1 t2 G Ht1 Ht2 HG. unfold mk_t1_add_t2_eq_c. destruct (is_minus_one_times_t t1).
    - apply (same_den_eq n G (fun I => vn I c - vn I t1)); [done|by apply sub_den; [apply den_refl|apply den_refl]|]. intros I.
      rewrite eqm_move, <- (eqm_vn n c s I Hc Hs), <- HG, Z.add_comm. done.
    - apply (same_den_eq n (fun I => vn I t1) (fun I => vn I c - G I)); [by apply den_refl|by apply sub_den; [apply den_refl|]|].
      intros I. rewrite eqm_move, <- (eqm_vn n c s I Hc Hs), <- HG. done. }
  destruct l as [|t1 [|t2 [|t3 l]]]; try done; inv_Forall; injection H as <-.
  - apply (Hgo t1 t2 (fun I => vn I t2)); [done|by apply den_refl|]. intros I. rewrite <- Vs. apply eqm_eq. simpl. lia.
  - apply (Hgo t1 _ (fun I => sumz (map (vn I) (t2 :: t3 :: l)))); [done|apply den_sum; [done|by repeat constructor]|].
    intros I. rewrite <- Vs. apply eqm_eq. done.
Qed.

(** ** Odd coefficients *)

Lemma odd_coefficient_ok n e c sz c_inv x :
  bvx n e -> odd_coefficient e = Some (c, sz, c_inv, x) ->
  sz = n /\ bvx n x /\ (forall I, eqm n (vn I e) (c * vn I x)) /\ eqm n (c_inv * c) 1.
Proof.
  intros He H. unfold odd_coefficient in H. destruct (bv_util.is_bv_mul2 e) as [[a y]|] eqn:Em; [|done]. cbn in H.
  destruct (is_numeral a) as [[v w]|] eqn:En; [|done]. cbn in H. destruct (bv_util.mult_inverse v w) as [i|] eqn:Ei; [|done].
  injection H as <- <- <- <-. apply is_bv_mul2_Some in Em as ->.
  destruct (is_mul_prods n _ _ He eq_refl) as [[HF V] _]. inv_Forall. destruct (is_numeral_inv n a v w) as (-> & B & _ & Va); [done..|].
  pose proof (mult_inverse_total v n B) as Hi. rewrite Ei in Hi. split_and!; [done|done| |apply Hi].
  intros I. rewrite <- V. simpl. rewrite !prodz_cons, Va. apply eqm_eq. unfold prodz. simpl. lia.
Qed.

(** Multiplying by an inverse can be undone. *)
Lemma eqm_cancel n c i x y : eqm n (i * c) 1 -> eqm n x (i * y) <-> eqm n (c * x) y.
Proof.
  intros Hi. split; intros H.
  - rewrite H. replace (c * (i * y)) with (i * c * y) by lia. rewrite Hi. apply eqm_eq. lia.
  - rewrite <- H. replace (i * (c * x)) with (i * c * x) by lia. rewrite Hi. apply eqm_eq. lia.
Qed.

Lemma divide_odd_ok n lhs rhs st r :
  bvx n lhs -> bvx n rhs -> divide_odd lhs rhs = Some (st, r) -> same_bool r (fun I => vn I lhs =? vn I rhs).
Proof.
  intros Hl Hr H. pose proof (bvx_pos n lhs Hl) as Hn. unfold divide_odd in H.
  destruct (odd_coefficient lhs) as [[[[c sz] i] x]|] eqn:E; [|done].
  destruct (odd_coefficient_ok n lhs c sz i x Hl E) as (-> & Hx & Vl & Hi). clear E.
  assert (Hgo : forall G e, den n G e -> (forall I, eqm n (G I) (i * vn I rhs)) -> same_bool (m.mk_eq x e) (fun I => vn I lhs =? vn I rhs)).
  { intros G e He HG. apply (same_den_eq n (fun I => vn I x) G); [by apply den_refl|done|]. intros I.
    by rewrite HG, (eqm_cancel n c i), <- Vl, (eqm_vn n lhs rhs). }
  destruct (is_numeral rhs) as [[v w]|] eqn:Er.
  { injection H as <- <-. read_num. apply (Hgo (fun _ => i * v)); [by apply den_num|]. intros I. rewrite V. by apply eqm_eq. }
  destruct (bv_util.is_bv_mul2 rhs) as [[a y]|] eqn:Em; [destruct (is_numeral a) as [[v w]|] eqn:Ea|];
    cbn [mbind option_bind] in H; try rewrite Ea in H; cbn [mbind option_bind] in H.
  2,3: destruct (is_add_mul_const rhs); [|done]; injection H as <- <-; apply (Hgo (fun I => i * vn I rhs)); [|by intros I];
       apply mul_den; [by apply den_num|by apply den_refl].
  apply is_bv_mul2_Some in Em as ->. destruct (is_mul_prods n _ _ Hr eq_refl) as [[HF V] _]. inv_Forall.
  destruct (is_numeral_inv n a v w) as (-> & B & _ & Va); [done..|].
  assert (Vr : forall I, eqm n (i * v * vn I y) (i * vn I (App OP_BMUL [a; y]))).
  { intros I. rewrite <- V. simpl. rewrite !prodz_cons, Va. apply eqm_eq. unfold prodz. simpl. lia. }
  injection H as <- <-. destruct (Z.eqb_spec (bv_util.norm (i * v) n false) 1) as [E1|].
  - apply (Hgo (fun I => vn I y)); [by apply den_refl|]. intros I. rewrite <- Vr. rewrite <- (eqm_mod n (i * v)).
    change ((i * v) mod pow2 n) with (bv_util.norm (i * v) n false). rewrite E1. apply eqm_eq. lia.
  - apply (Hgo (fun I => i * v * vn I y)); [|exact Vr]. apply mul_den; [by apply den_num|by apply den_refl].
Qed.

Lemma first_odd_ok n l i sz :
  Forall (bvx n) l -> first_odd l = Some (i, sz) -> sz = n /\ exists c, eqm n (i * c) 1.
Proof.
  intros HF H. unfold first_odd in H. induction HF as [|a l Ha HF IH]; simpl in H; [done|].
  destruct (odd_coefficient a) as [[[[c w] j] x]|] eqn:E; [|by apply IH]. injection H as <- <-.
  destruct (odd_coefficient_ok n a c w j x Ha E) as (-> & _ & _ & Hi). eauto.
Qed.

Lemma mk_mul_eq_ok n lhs rhs st r :
  bvx n lhs -> bvx n rhs -> mk_mul_eq lhs rhs = Some (st, r) -> same_bool r (fun I => vn I lhs =? vn I rhs).
Proof.
  intros Hl Hr H. unfold mk_mul_eq in H. apply orelse_Some in H as [H|H]; [by eapply divide_odd_ok|].
  destruct (is_numeral lhs) as [[c w]|] eqn:En; [|done]. destruct (is_add rhs) as [l|] eqn:Ea; [|done].
  destruct (is_add_mul_const rhs); [|done]. destruct (first_odd l) as [[i sz]|] eqn:Ef; [|done]. injection H as <- <-.
  destruct (is_add_sums n rhs l Hr Ea) as [[HF _] _]. destruct (first_odd_ok n l i sz HF Ef) as (-> & d & Hi).
  pose proof (bvx_pos n lhs Hl). read_num.
  apply (same_den_eq n (fun _ => i * c) (fun I => i * vn I rhs)); [by apply den_num|apply mul_den; [by apply den_num|by apply den_refl]|].
  intros I. rewrite (eqm_cancel n d i), <- (eqm_vn n lhs rhs I Hl Hr), V by done.
  split; intros E; [rewrite <- E|rewrite <- E]; [|]; replace (d * (i * c)) with (i * d * c) by lia; rewrite Hi; apply eqm_eq; lia.
Qed.

(** ** Remainders *)

(** No remainder by the numeral zero. *)
Definition divisor_ok (e : expr) : bool :=
  match is_urem_any e with Some (_, divisor) => negb (bool_decide (num divisor = Some 0)) | None => true end.

Lemma is_urem_any_ok n e x d I :
  bvx n e -> is_urem_any e = Some (x, d) -> bvx n x /\ bvx n d /\ vn I e = bv_urem n (vn I x) (vn I d).
Proof.
  intros He H. destruct e as [o l]. destruct o; try done; destruct l as [|a [|b [|? ?]]]; try done; injection H as <- <-.
  - destruct (op2_inv OP_BUREM _ _ He) as (k & ? & ? & [= <- <-] & [= <-] & Ha & Hb). split_and!; [done|done|].
    by rewrite (proj2 (holds_op2 OP_BUREM n _ _ a b (holds_refl n a Ha) (holds_refl n b Hb))).
  - destruct (op2_inv OP_BUREM_I _ _ He) as (k & ? & ? & [= <- <-] & [= <-] & Ha & Hb). split_and!; [done|done|].
    by rewrite (proj2 (holds_op2 OP_BUREM_I n _ _ a b (holds_refl n a Ha) (holds_refl n b Hb))).
Qed.

Lemma urem_eq_ok n lhs rhs st r :
  bvx n lhs -> bvx n rhs -> divisor_ok lhs = true -> urem_eq lhs rhs = Some (st, r) -> same_bool r (fun I => vn I lhs =? vn I rhs).
Proof.
  intros Hl Hr Hd H. unfold urem_eq in H. unfold divisor_ok in Hd. destruct (is_urem_any lhs) as [[x d]|] eqn:Eu; [|done].
  destruct (is_numeral rhs) as [[v w]|] eqn:En; [|done]. destruct (is_numeral d) as [[c cs]|] eqn:Ed; [|done].
  assert (Hlhs : forall I, bvx n x /\ bvx n d /\ vn I lhs = bv_urem n (vn I x) (vn I d)) by (intros I; by apply is_urem_any_ok).
  destruct (Hlhs (fun _ _ _ _ => VBool false)) as (Hx & Hdb & _).
  assert (Hc0 : c <> 0).
  { intros ->. unfold num in Hd. by rewrite Ed in Hd. }
  read_num. assert (Vl : forall I, vn I lhs = vn I x mod c).
  { intros I. rewrite (proj2 (proj2 (Hlhs I))), V. unfold bv_urem. by rewrite (proj2 (Z.eqb_neq c 0)). }
  destruct (Z.leb_spec c v).
  - injection H as <- <-. eapply same_bool_ext; [apply same_false|]. intros I. symmetry. apply Z.eqb_neq.
    rewrite Vl, V0. pose proof (Z.mod_pos_bound (vn I x) c ltac:(lia)). lia.
  - destruct (Z.leb_spec (pow2 n) (c + v)); [|done]. injection H as <- <-.
    eapply same_bool_ext; [by apply (same_bv_eq n _ _ x rhs (holds_refl n x Hx) (holds_refl n rhs Hr))|].
    intros I. cbn beta. rewrite Vl, V0. pose proof (vn_bounds I n x Hx) as Bx. pose proof (Z.div_mod (vn I x) c ltac:(lia)) as Dx.
    pose proof (Z.mod_pos_bound (vn I x) c ltac:(lia)). assert (0 <= vn I x / c) by (apply Z.div_pos; lia).
    destruct (Z.eqb_spec (vn I x) v) as [->|Hne]; symmetry; [apply Z.eqb_eq, Z.mod_small; lia|]. apply Z.eqb_neq. intros Em.
    rewrite Em in Dx. destruct (Z.eq_dec (vn I x / c) 0) as [Eq|Hq]; [rewrite Eq in Dx; lia|].
    assert (c * 1 <= c * (vn I x / c)) by (apply Z.mul_le_mono_nonneg_l; lia). lia.
Qed.

(** ** The whole rule *)

Section Rules.
Context (cfg : params) (lt : expr -> expr -> bool) (get_id : expr -> Z).
Context (std_sort : (expr -> expr -> bool) -> list expr -> list expr).
Hypothesis sort_perm : forall r l, std_sort r l ≡ₚ l.
Context (n : nat).

(** A result that says the same as the equation of [lhs] and [rhs]. *)
Definition says_eq (lhs rhs : expr) (r : br_result) : Prop :=
  match r with Some (_, e) => same_bool e (fun I => vn I lhs =? vn I rhs) | None => True end.

Lemma says_eq_orelse lhs rhs r1 r2 : says_eq lhs rhs r1 -> says_eq lhs rhs r2 -> says_eq lhs rhs (orelse r1 r2).
Proof. by destruct r1. Qed.

Lemma says_eq_sym lhs rhs r : says_eq rhs lhs r -> says_eq lhs rhs r.
Proof.
  destruct r as [[st e]|]; [|done]. simpl. intros H. eapply same_bool_ext; [exact H|]. intros I. apply Z.eqb_sym.
Qed.

Lemma eq_linear_ok swapped lhs rhs :
  bvx n lhs -> bvx n rhs -> says_eq lhs rhs (eq_linear cfg lt get_id std_sort swapped lhs rhs).
Proof.
  intros Hl Hr. unfold eq_linear. assert (Heq : forall a b, bvx n a -> bvx n b -> says_eq a b (Some (BR_DONE, m.mk_eq a b))).
  { intros a b Ha Hb. by apply (same_bv_eq n); apply holds_refl. }
  assert (Hcat : forall a b, bvx n a -> bvx n b -> says_eq a b (mk_eq_concat a b)) by (intros a b Ha Hb; by eapply mk_eq_concat_ok).
  set (last := if is_concat_target cfg lhs rhs then mk_eq_concat lhs rhs
               else if swapped then Some (BR_DONE, m.mk_eq lhs rhs) else None).
  assert (Hp : says_eq lhs rhs last) by (unfold last; destruct (is_concat_target _ _ _); [by apply Hcat|]; destruct swapped; [by apply Heq|done]).
  destruct (_ || _); [|exact Hp].
  assert (Hiso : forall a b otherwise, bvx n a -> bvx n b -> says_eq a b otherwise ->
    says_eq a b match isolate_term a b with Some r => Some (BR_REWRITE2, r)
                | None => if is_concat_target cfg a b then mk_eq_concat a b else otherwise end).
  { intros a b o Ha Hb Ho. destruct (isolate_term a b) as [r|] eqn:E; [by eapply isolate_term_ok|].
    destruct (is_concat_target cfg a b); [by apply Hcat|done]. }
  rewrite (get_bv_size_eq n lhs Hl).
  destruct (cancel_monomials _ _ _ _ _ _ _ _) as [[a b]|] eqn:E; [|by apply Hiso].
  destruct (cancel_monomials_ok cfg lt get_id std_sort sort_perm n (bvx_pos n lhs Hl) lhs rhs false a b Hl Hr E) as (Ba & Bb & _).
  assert (Hiff : forall I, vn I a = vn I b <-> vn I lhs = vn I rhs).
  { intros I. by apply (cancel_monomials_iff cfg lt get_id std_sort sort_perm n (bvx_pos n lhs Hl) lhs rhs false). }
  assert (Hab : forall r, says_eq a b r -> says_eq lhs rhs r).
  { intros [[st e]|]; [|done]. simpl. intros H. eapply same_bool_ext; [exact H|]. intros I.
    destruct (Z.eqb_spec (vn I lhs) (vn I rhs)); [by apply Z.eqb_eq, Hiff|]. apply Z.eqb_neq. by rewrite Hiff. }
  apply Hab. destruct (is_num a && is_num b) eqn:En; [|by apply Hiso; [..|apply Heq]].
  apply andb_true_iff in En as [Ea Eb]. unfold is_num in *. destruct (is_numeral a) as [[v w]|] eqn:Na; [|done].
  destruct (is_numeral b) as [[v' w']|] eqn:Nb; [|done]. read_num. simpl. eapply same_bool_ext; [apply same_bool_val|]. intros I.
  rewrite V, V0. destruct (Z.eqb_spec v v') as [->|Hne].
  - apply bool_decide_eq_true. congruence.
  - apply bool_decide_eq_false. intros ->. apply Hne. by rewrite <- (V I), <- (V0 I).
Qed.

Lemma eq_rules_ok swapped lhs rhs :
  bvx n lhs -> bvx n rhs -> m_urem_simpl cfg = false \/ divisor_ok lhs = true ->
  says_eq lhs rhs (eq_rules cfg lt get_id std_sort swapped lhs rhs).
Proof.
  intros Hl Hr Hu. unfold eq_rules.
  apply says_eq_orelse; [|apply says_eq_orelse; [|apply says_eq_orelse; [|apply says_eq_orelse]]].
  - destruct (mk_mul_eq lhs rhs) as [[st r]|] eqn:E; [|done]. by eapply mk_mul_eq_ok.
  - apply says_eq_sym. destruct (mk_mul_eq rhs lhs) as [[st r]|] eqn:E; [|done]. by eapply mk_mul_eq_ok.
  - destruct (m_blast_eq_value cfg); [|done]. destruct (mk_blast_eq_value lhs rhs) as [[st r]|] eqn:E; [|done].
    by eapply mk_blast_eq_value_ok.
  - destruct Hu as [->|Hu]; [done|]. destruct (m_urem_simpl cfg); [|done]. destruct (urem_eq lhs rhs) as [[st r]|] eqn:E; [|done].
    by eapply urem_eq_ok.
  - by apply eq_linear_ok.
Qed.

Lemma bv_eq_core_ok lhs rhs c r c' :
  bvx n lhs -> bvx n rhs -> cache_ok c ->
  m_urem_simpl cfg = false \/ (divisor_ok lhs && divisor_ok rhs = true) ->
  m_trailing cfg = false \/ (plain lhs && plain rhs = true) ->
  mk_eq_core cfg lt get_id std_sort lhs rhs c = Some (r, c') ->
  cache_ok c' /\ says_eq lhs rhs r.
Proof.
  intros Hl Hr Hc Hu Ht H. unfold mk_eq_core in H. destruct (decide (lhs = rhs)) as [->|Hne].
  { injection H as <- <-. split; [done|]. simpl. eapply same_bool_ext; [apply same_true|]. intros I. by rewrite Z.eqb_refl. }
  destruct (is_num lhs && is_num rhs) eqn:En.
  { injection H as <- <-. split; [done|]. simpl. apply andb_true_iff in En as [Ea Eb]. unfold is_num in *.
    destruct (is_numeral lhs) as [[v w]|] eqn:Na; [|done]. destruct (is_numeral rhs) as [[v' w']|] eqn:Nb; [|done]. read_num.
    eapply same_bool_ext; [apply same_false|]. intros I. symmetry. apply Z.eqb_neq. rewrite V, V0. congruence. }
  set (swapped := is_num lhs) in H. clearbody swapped. clear En.
  cut (forall a b, bvx n a -> bvx n b -> m_urem_simpl cfg = false \/ divisor_ok a = true ->
         m_trailing cfg = false \/ (plain a = true /\ plain b = true) ->
    match (if m_bit2bool cfg then mk_bit2bool_eq a b else None) with
    | Some r => Some (Some r, c)
    | None =>
        '(st, c) ← (if m_trailing cfg then
                      '(st, c) ← bv_trailing.eq_remove_trailing a b c; Some (st, bv_trailing.reset_cache (2 ^ 12) c)
                    else Some (None, c));
        Some (orelse st (eq_rules cfg lt get_id std_sort swapped a b), c)
    end = Some (r, c') -> cache_ok c' /\ says_eq a b r).
  { rewrite !andb_true_iff in Hu, Ht. intros Hcut. destruct swapped; [|by apply Hcut; naive_solver].
    destruct (Hcut rhs lhs) as [? Hs]; [naive_solver..|]. split; [done|by apply says_eq_sym]. }
  clear H Hu Ht. intros a b Ha Hb Hu Ht H. destruct (if m_bit2bool cfg then _ else _) as [[st e]|] eqn:Em.
  { injection H as <- <-. split; [done|]. destruct (m_bit2bool cfg); [|done]. simpl.
    apply mk_bit2bool_eq_ok in Em; [|by rewrite (get_bv_size_eq n a Ha)].
    destruct (same_bv_eq n _ _ a b (holds_refl n a Ha) (holds_refl n b Hb)) as [Bq Vq].
    destruct (Em _ Bq) as [Be Ve]. split; [exact Be|]. intros I. rewrite <- Vq. unfold bval. by rewrite Ve. }
  destruct (m_trailing cfg).
  - destruct Ht as [|[Pa Pb]]; [done|]. destruct (bv_trailing.eq_remove_trailing a b c) as [[st c1]|] eqn:E; [|done].
    cbn [mbind option_bind] in H. injection H as <- <-. destruct (eq_remove_trailing_ok n a b c st c1 Ha Hb Pa Pb Hc E) as [Hc1 Hst].
    split; [by apply reset_cache_ok|]. apply says_eq_orelse; [by destruct st as [[]|]|by apply eq_rules_ok].
  - cbn [mbind option_bind] in H. injection H as <- <-. split; [done|]. by apply eq_rules_ok.
Qed.
End Rules.
