(* ===== verification/BoolRewriterSound.v ===== *)
(** * BoolRewriterSound: negation and equality preserve meaning

    [mk_not], [mk_eq] and [try_ite_value] are proved to return a term that may
    replace the operator they simplify (same sort, same value under every
    interpretation), to add at most one to its size, and to have enough fuel. *)
From Stdlib Require Import ZArith Lia.
From stdpp Require Import base list.
From S2P Require Import Prelude Bits Ast AstFacts TermFacts BoolRewriter.

(** ** Small facts about the measure *)

Lemma weight_pos e : 1 <= weight e.
Proof. destruct e as [[] args]; simpl; lia. Qed.

Lemma weight_not e : weight (m.mk_not e) = 1 + weight e.
Proof. simpl. lia. Qed.

Lemma weight_eq a b : weight (m.mk_eq a b) = 1 + weight a + weight b.
Proof. simpl. lia. Qed.

Lemma weight_ite c t e : weight (m.mk_ite c t e) = 5 + weight c + weight t + weight e.
Proof. simpl. lia. Qed.

Lemma weight_or args : weight (m.mk_or args) = 1 + sum_list (map weight args).
Proof. reflexivity. Qed.

Lemma weight_and args : weight (m.mk_and args) = 1 + sum_list (map weight args).
Proof. reflexivity. Qed.

Lemma value_weight e s : m.is_value e = true -> get_sort e = Some s -> weight e = 1.
Proof.
  unfold m.is_value. destruct (m.get_family_id e); intros H Hs; [| |discriminate].
  - unfold m.basic_is_value in H. apply orb_true_iff in H as [H|H]; recog; reflexivity.
  - destruct (bv_value_inv e s H Hs) as (v & n & -> & _). reflexivity.
Qed.

(** ** [try_ite_value] *)

Definition value_of (e : expr) (s : sort) : Prop := m.is_value e = true /\ get_sort e = Some s.

(** Comparing an if-then-else with [v] compares the selected branch. *)
Lemma bval_ite_eq I c t e v :
  bval I (m.mk_eq (m.mk_ite c t e) v)
  = if bval I c then bval I (m.mk_eq t v) else bval I (m.mk_eq e v).
Proof. rewrite !bval_eq, eval_ite. by destruct (bval I c). Qed.

Lemma distinct_bval_eq a b s I :
  get_sort a = Some s -> get_sort b = Some s -> m.are_distinct a b = true ->
  bval I (m.mk_eq b a) = false.
Proof.
  intros Ha Hb Hd. rewrite bval_eq. apply bool_decide_eq_false. intros E.
  by eapply (are_distinct_sound a b s I).
Qed.

Lemma bval_eq_refl I a : bval I (m.mk_eq a a) = true.
Proof. rewrite bval_eq. by apply bool_decide_eq_true. Qed.

(** Close a goal between Boolean combinations of atoms by cases. *)
Ltac bool_cases I :=
  autorewrite with bval; simpl; autorewrite with bval; simpl;
  repeat match goal with |- context [bval I ?e] => destruct (bval I e); simpl; try done end.

Lemma try_ite_value_sound ite val s st r :
  get_sort ite = Some s -> get_sort val = Some s ->
  try_ite_value ite val = Some (st, r) ->
  boolx r /\ forall I, bval I r = bval I (m.mk_eq ite val).
Proof.
  revert s st r. induction ite as [o args IH] using expr_rect'. intros s st r Hs Hv.
  destruct o; try discriminate. destruct args as [|cond [|t [|e [|]]]]; try discriminate.
  change (App OP_ITE [cond; t; e]) with (m.mk_ite cond t e) in *.
  apply get_sort_ite in Hs as (Hc & Ht & He).
  inv_Forall.
  assert (Beq : forall x, get_sort x = Some s -> boolx (m.mk_eq x val))
    by (intros x Hx; apply boolx_eq; eauto).
  assert (Beq_t := Beq t Ht). assert (Beq_e := Beq e He). clear Beq.
  assert (Bnc : boolx (m.mk_not cond)) by by apply boolx_not.
  simpl try_ite_value.
  destruct (m.are_distinct val e) eqn:D1.
  { intros [= <- <-]. split; [apply boolx_and; auto|]. intros I.
    rewrite bval_ite_eq, (distinct_bval_eq val e s I Hv He D1). bool_cases I. }
  destruct (m.are_distinct val t) eqn:D2.
  { intros [= <- <-]. split; [apply boolx_and; auto|]. intros I.
    rewrite bval_ite_eq, (distinct_bval_eq val t s I Hv Ht D2). bool_cases I. }
  destruct (m.are_equal val t) eqn:E1; recog.
  { destruct (m.are_equal t e) eqn:E2; recog; intros [= <- <-].
    - split; [done|]. intros I. rewrite bval_ite_eq, bval_eq_refl. bool_cases I.
    - split; [apply boolx_or; auto|]. intros I. rewrite bval_ite_eq, bval_eq_refl. bool_cases I. }
  destruct (m.are_equal val e) eqn:E2; recog.
  { intros [= <- <-]. split; [apply boolx_or; auto|]. intros I.
    rewrite bval_ite_eq, bval_eq_refl. bool_cases I. }
  destruct (match m.is_ite t with Some _ => _ | None => _ end).
  { destruct (try_ite_value t val) as [[st' r']|] eqn:Et; [|discriminate]. intros [= <- <-].
    edestruct H3 as [Hb Hr]; [exact Ht|exact Hv|reflexivity|].
    split; [by apply boolx_ite|]. intros I. by rewrite bval_ite, bval_ite_eq, Hr. }
  destruct (match m.is_ite e with Some _ => _ | None => _ end); [|discriminate].
  destruct (try_ite_value e val) as [[st' r']|] eqn:Ee; [|discriminate]. intros [= <- <-].
  edestruct H2 as [Hb Hr]; [exact He|exact Hv|reflexivity|].
  split; [by apply boolx_ite|]. intros I. by rewrite bval_ite, bval_ite_eq, Hr.
Qed.

(** On a tree whose two branches are values the rewrite always applies: the
    [VERIFY]s of the code hold. *)
Lemma value_eq_or_distinct a b s :
  value_of a s -> value_of b s -> m.are_equal a b = true \/ m.are_distinct a b = true.
Proof.
  intros [Va Sa] [Vb Sb]. destruct (m.are_equal a b) eqn:E; [by left|right].
  unfold m.are_equal in E. apply bool_decide_eq_false in E.
  unfold m.is_value in *. unfold m.are_distinct.
  destruct (m.get_family_id a) eqn:Fa; [| |discriminate].
  - destruct (m.get_family_id b) eqn:Fb; [| |discriminate].
    + unfold m.basic_are_distinct. rewrite Va, Vb, bool_decide_eq_false_2 by done. done.
    + destruct (bv_value_inv b s Vb Sb) as (v & n & -> & -> & _).
      unfold m.basic_is_value in Va. apply orb_true_iff in Va as [Va|Va]; recog; discriminate.
  - destruct (m.get_family_id b) eqn:Fb; [| |discriminate].
    + destruct (bv_value_inv a s Va Sa) as (v & n & -> & -> & _).
      unfold m.basic_is_value in Vb. apply orb_true_iff in Vb as [Vb|Vb]; recog; discriminate.
    + unfold m.bv_are_distinct.
      destruct (m.get_offset_term a), (m.get_offset_term b).
      rewrite Va, Vb, (bool_decide_eq_false_2 (a = b)) by done. by rewrite orb_true_r.
Qed.

Lemma try_ite_value_values c t e val s :
  value_of t s -> value_of e s -> value_of val s ->
  exists st r, try_ite_value (m.mk_ite c t e) val = Some (st, r).
Proof.
  intros Ht He Hv. simpl try_ite_value.
  destruct (m.are_distinct val e) eqn:D1; [eauto|].
  destruct (m.are_distinct val t) eqn:D2; [eauto|].
  destruct (value_eq_or_distinct _ _ _ Hv Ht) as [->|]; [|congruence].
  destruct (m.are_equal val e); eauto.
Qed.

(** ** Negation and equality *)

(** A function that negates: what [mk_not] promises to its callers. *)
Definition negates (f : expr -> expr) : Prop :=
  forall t, boolx t -> same_bool (f t) (fun I => negb (bval I t)).

Lemma negates_mk_not : negates m.mk_not.
Proof. intros t Ht. split; [by apply boolx_not|done]. Qed.

Lemma eqb_negb_l a b : eqb (negb a) b = negb (eqb a b).
Proof. by destruct a, b. Qed.

Lemma iff_opposed_sound lhs rhs s s' I :
  get_sort lhs = Some s -> get_sort rhs = Some s' -> iff_opposed lhs rhs = true ->
  bval I lhs = negb (bval I rhs).
Proof.
  unfold iff_opposed. intros Hl Hr.
  destruct (m.is_eq lhs) as [[la lb]|] eqn:E1; [|discriminate].
  destruct (m.is_eq rhs) as [[ra rb]|] eqn:E2; [|discriminate]. recog.
  apply get_sort_eq in Hl as (_ & t & Ha & Hb), Hr as (_ & t' & Ha' & Hb').
  assert (Hn : forall x y u u', x = m.mk_not y -> get_sort x = Some u -> get_sort y = Some u' ->
            boolx x /\ boolx y).
  { intros x y u u' -> Hx _. apply get_sort_not in Hx as [-> Hy]. split; [by apply boolx_not|done]. }
  rewrite orb_true_iff, !andb_true_iff, !orb_true_iff.
  intros [[Heq [Hc|Hc]]|[Heq [Hc|Hc]]]; recog; rewrite Ha' in Ha || rewrite Hb' in Hb; simplify_eq;
    edestruct Hn as [Bx By]; try reflexivity; eauto;
    first [rewrite By in * | idtac]; simplify_eq;
    rewrite !bval_eq_bool by (done || by apply boolx_not);
    rewrite bval_not; destruct (bval I _), (bval I _); done.
Qed.

Section Equality.
Context (rw : bool_rewriter).

Lemma bval_eq_sym I a b : bval I (m.mk_eq a b) = bval I (m.mk_eq b a).
Proof. rewrite !bval_eq. apply bool_decide_ext. naive_solver. Qed.

Lemma try_extra_rules_sound a b s st r :
  get_sort a = Some s -> get_sort b = Some s -> try_extra_rules rw a b = Some (st, r) ->
  same_bool r (fun I => bval I (m.mk_eq a b)).
Proof.
  intros Ha Hb. unfold try_extra_rules. destruct (m_ite_extra_rules rw); [|discriminate].
  assert (F := try_ite_value_sound a b s st r Ha Hb).
  assert (G := try_ite_value_sound b a s st r Hb Ha).
  assert (G' : try_ite_value b a = Some (st, r) -> same_bool r (fun I => bval I (m.mk_eq a b))).
  { intros [Br Hr]%G. split; [done|]. intros I. by rewrite Hr, bval_eq_sym. }
  destruct (m.is_ite a), (m.is_value b), (m.is_ite b), (m.is_value a);
    solve [discriminate | exact F | exact G'].
Qed.

Lemma mk_eq_bool_with_sound f a b st r :
  negates f -> boolx a -> boolx b -> mk_eq_bool_with f a b = Some (st, r) ->
  same_bool r (fun I => bval I (m.mk_eq a b)).
Proof.
  intros Hf Ha Hb. unfold mk_eq_bool_with.
  set (p := match m.is_not a with Some _ => _ | None => _ end).
  assert (Hp : boolx p.1.1 /\ boolx p.1.2 /\
    forall I, bval I (m.mk_eq p.1.1 p.1.2) = bval I (m.mk_eq a b)).
  { subst p. destruct (m.is_not a) eqn:Ea; [destruct (m.is_not b) eqn:Eb|]; simpl; auto.
    recog. rewrite boolx_not in Ha, Hb. do 2 (split; [done|]). intros I.
    rewrite !bval_eq_bool by (done || by apply boolx_not). rewrite !bval_not.
    by destruct (bval I _), (bval I _). }
  destruct p as [[l r0] u]. simpl in Hp. destruct Hp as (Bl & Br & Hv).
  assert (Hlr : forall I, eqb (bval I l) (bval I r0) = bval I (m.mk_eq a b)).
  { intros I. rewrite <- Hv. by rewrite bval_eq_bool. } clear Hv.
  destruct (m.is_true l) eqn:E1; recog.
  { intros [= <- <-]. split; [done|]. intros I. rewrite <- Hlr. by destruct (bval I r0). }
  destruct (m.is_false l) eqn:E2; recog.
  { intros [= <- <-]. eapply same_bool_ext; [by apply Hf|]. intros I. rewrite <- Hlr.
    by destruct (bval I r0). }
  destruct (m.is_true r0) eqn:E3; recog.
  { intros [= <- <-]. split; [done|]. intros I. rewrite <- Hlr. by destruct (bval I l). }
  destruct (m.is_false r0) eqn:E4; recog.
  { intros [= <- <-]. eapply same_bool_ext; [by apply Hf|]. intros I. rewrite <- Hlr.
    by destruct (bval I l). }
  destruct (m.is_complement l r0) eqn:E5.
  { intros [= <- <-]. split; [done|]. intros I. rewrite <- Hlr.
    rewrite (is_complement_bval I _ _ E5). by destruct (bval I r0). }
  destruct u.
  { intros [= <- <-]. split; [by apply boolx_eq_bool|]. intros I.
    by rewrite bval_eq_bool. }
  destruct (iff_opposed l r0) eqn:E6; [|discriminate]. intros [= <- <-].
  split; [done|]. intros I. rewrite <- Hlr, (iff_opposed_sound l r0 _ _ I Bl Br E6).
  by destruct (bval I r0).
Qed.

Lemma mk_eq_core_with_sound f a b s st r :
  negates f -> get_sort a = Some s -> get_sort b = Some s ->
  mk_eq_core_with rw f a b = Some (st, r) ->
  same_bool r (fun I => bval I (m.mk_eq a b)).
Proof.
  intros Hf Ha Hb. unfold mk_eq_core_with.
  destruct (m.are_equal a b) eqn:E1; recog.
  { intros [= <- <-]. split; [done|]. intros I. by rewrite bval_eq_refl. }
  destruct (m.are_distinct a b) eqn:E2.
  { intros [= <- <-]. split; [done|]. intros I.
    by rewrite bval_eq_sym, (distinct_bval_eq a b s I Ha Hb E2). }
  destruct (try_extra_rules rw a b) as [[st' r']|] eqn:E3.
  { intros [= <- <-]. by eapply try_extra_rules_sound. }
  destruct (m.is_bool a) eqn:E4; [|discriminate]. recog.
  unfold boolx in E4. rewrite E4 in Ha. injection Ha as <-. by apply mk_eq_bool_with_sound.
Qed.

Lemma mk_eq_with_sound f a b s :
  negates f -> get_sort a = Some s -> get_sort b = Some s ->
  same_bool (mk_eq_with rw f a b) (fun I => bval I (m.mk_eq a b)).
Proof.
  intros Hf Ha Hb. unfold mk_eq_with.
  destruct (mk_eq_core_with rw f a b) as [[st r]|] eqn:E.
  - by eapply mk_eq_core_with_sound.
  - apply same_bool_refl, boolx_eq. eauto.
Qed.

Lemma mk_not_core_with_sound f t st r :
  negates f -> boolx t -> mk_not_core_with rw f t = Some (st, r) ->
  same_bool r (fun I => negb (bval I t)).
Proof.
  intros Hf Ht. unfold mk_not_core_with.
  destruct (m.is_not t) eqn:E1; recog.
  { intros [= <- <-]. rewrite boolx_not in Ht. split; [done|]. intros I.
    by rewrite bval_not, negb_involutive. }
  destruct (m.is_true t) eqn:E2; recog. { intros [= <- <-]. by split. }
  destruct (m.is_false t) eqn:E3; recog. { intros [= <- <-]. by split. }
  destruct (m.is_eq t) as [[a b]|] eqn:E4; [|discriminate]. recog.
  destruct (m.is_bool a) eqn:E5; [|discriminate]. recog. intros [= <- <-].
  apply boolx_eq in Ht as (s & Ha & Hb). unfold boolx in E5. rewrite E5 in Ha.
  injection Ha as <-. destruct (Hf a E5) as [Bn Hn].
  destruct (mk_eq_with_sound f (f a) b BOOL_SORT Hf Bn Hb) as [Br Hr].
  split; [done|]. intros I. rewrite Hr, !bval_eq_bool, Hn by done. apply eqb_negb_l.
Qed.

Lemma mk_not_fuel_sound n : negates (mk_not_fuel rw n).
Proof.
  induction n as [|n IH]; intros t Ht; simpl.
  - by apply negates_mk_not.
  - destruct (mk_not_core_with rw (mk_not_fuel rw n) t) as [[st r]|] eqn:E.
    + by eapply mk_not_core_with_sound.
    + by apply negates_mk_not.
Qed.

Lemma mk_not_ok : negates (mk_not rw).
Proof. intros t. apply mk_not_fuel_sound. Qed.

Lemma mk_eq_ok a b s :
  get_sort a = Some s -> get_sort b = Some s ->
  same_bool (mk_eq rw a b) (fun I => bval I (m.mk_eq a b)).
Proof. apply mk_eq_with_sound, mk_not_ok. Qed.

Lemma mk_eq_bool_ok a b :
  boolx a -> boolx b -> same_bool (mk_eq rw a b) (fun I => eqb (bval I a) (bval I b)).
Proof.
  intros Ha Hb. eapply same_bool_ext; [by eapply mk_eq_ok|]. intros I. by apply bval_eq_bool.
Qed.

Lemma mk_xor_ok a b :
  boolx a -> boolx b -> same_bool (mk_xor rw a b) (fun I => xorb (bval I a) (bval I b)).
Proof.
  intros Ha Hb. destruct (mk_not_ok a Ha) as [Bn Hn].
  eapply same_bool_ext; [by apply mk_eq_bool_ok|]. intros I. simpl. rewrite Hn.
  by destruct (bval I a), (bval I b).
Qed.

Lemma mk_not_core_ok t st r :
  boolx t -> mk_not_core rw t = Some (st, r) -> same_bool r (fun I => negb (bval I t)).
Proof. apply mk_not_core_with_sound, mk_not_ok. Qed.

Lemma mk_eq_core_ok a b s st r :
  get_sort a = Some s -> get_sort b = Some s -> mk_eq_core rw a b = Some (st, r) ->
  same_bool r (fun I => bval I (m.mk_eq a b)).
Proof. apply mk_eq_core_with_sound, mk_not_ok. Qed.
End Equality.

(** ** Sizes of the results *)

Lemma is_value_not_ite e : m.is_value e = true -> m.is_ite e = None.
Proof. destruct e as [o args]. destruct o; try done. Qed.

Lemma match_ite_value (t : expr) :
  match m.is_ite t with Some (_, t2, e2) => m.is_value t2 && m.is_value e2 | None => false end
  = true ->
  exists c t2 e2, t = m.mk_ite c t2 e2 /\ m.is_value t2 = true /\ m.is_value e2 = true.
Proof.
  destruct (m.is_ite t) as [[[c t2] e2]|] eqn:E; [|discriminate]. intros [? ?]%andb_true_iff.
  recog. eauto 6.
Qed.

(** On an if-then-else of values one of the first four cases applies. *)
Lemma try_ite_value_small c t e val st r :
  m.is_ite t = None -> m.is_ite e = None -> weight val = 1 ->
  try_ite_value (m.mk_ite c t e) val = Some (st, r) ->
  weight r + 2 <= weight (m.mk_ite c t e).
Proof.
  intros Ht He Hv. pose proof (weight_pos t). pose proof (weight_pos e).
  simpl try_ite_value. rewrite Ht, He, weight_ite. unfold m.mk_true, m.mk_and, m.mk_or, m.mk_eq, m.mk_not.
  repeat case_match; intros; simplify_eq; simpl; lia.
Qed.

Lemma try_ite_value_weight ite val st r :
  weight val = 1 -> try_ite_value ite val = Some (st, r) -> weight r <= weight ite.
Proof.
  intros Hv. destruct ite as [o args].
  destruct o; try discriminate. destruct args as [|c [|t [|e [|]]]]; try discriminate.
  change (App OP_ITE [c; t; e]) with (m.mk_ite c t e).
  simpl try_ite_value. rewrite weight_ite. pose proof (weight_pos t). pose proof (weight_pos e).
  do 4 (case_match; [try (case_match); intros [= <- <-]; simpl; lia|]).
  assert (Hin : forall x r', match m.is_ite x with
      | Some (_, t2, e2) => m.is_value t2 && m.is_value e2 | None => false end = true ->
      forall st', try_ite_value x val = Some (st', r') -> weight r' + 2 <= weight x).
  { intros x r' (c2 & t2 & e2 & -> & V1 & V2)%match_ite_value st' Hr.
    eapply try_ite_value_small; eauto using is_value_not_ite. }
  destruct (match m.is_ite t with Some _ => _ | None => _ end) eqn:Et.
  { destruct (try_ite_value t val) as [[st' r']|] eqn:E; [|discriminate]. intros [= <- <-].
    specialize (Hin _ _ Et _ E). simpl. lia. }
  destruct (match m.is_ite e with Some _ => _ | None => _ end) eqn:Ee; [|discriminate].
  destruct (try_ite_value e val) as [[st' r']|] eqn:E; [|discriminate]. intros [= <- <-].
  specialize (Hin _ _ Ee _ E). simpl. lia.
Qed.

Section Size.
Context (rw : bool_rewriter).

Definition grows_by_one (f : expr -> expr) : Prop :=
  forall t, boolx t -> weight (f t) <= 1 + weight t.

Lemma mk_eq_core_with_weight f a b s st r :
  grows_by_one f ->
  get_sort a = Some s -> get_sort b = Some s ->
  mk_eq_core_with rw f a b = Some (st, r) -> weight r <= 1 + weight a + weight b.
Proof.
  intros Hf Ha Hb. pose proof (weight_pos a). pose proof (weight_pos b).
  unfold mk_eq_core_with.
  case_match; [intros [= <- <-]; simpl; lia|].
  case_match; [intros [= <- <-]; simpl; lia|].
  destruct (try_extra_rules rw a b) as [[st' r']|] eqn:E.
  { intros [= <- <-]. unfold try_extra_rules in E.
    pose proof (try_ite_value_weight a b st' r') as P1.
    pose proof (try_ite_value_weight b a st' r') as P2.
    repeat case_match; simplify_eq;
      first [apply P1 in E; [lia|by eapply value_weight] | apply P2 in E; [lia|by eapply value_weight]]. }
  case_match eqn:Bb; [|discriminate]. recog. unfold boolx in Bb. rewrite Bb in Ha.
  injection Ha as <-. unfold mk_eq_bool_with.
  set (p := match m.is_not a with Some _ => _ | None => _ end).
  assert (Hp : boolx p.1.1 /\ boolx p.1.2 /\ weight p.1.1 <= weight a /\ weight p.1.2 <= weight b).
  { subst p. destruct (m.is_not a) eqn:Ea; [destruct (m.is_not b) eqn:Eb|]; simpl; auto.
    recog. apply get_sort_not in Bb as [_ ?], Hb as [_ ?].
    rewrite !weight_not. auto with lia. }
  destruct p as [[l r0] u]. simpl in Hp. destruct Hp as (Bl & Br & Wl & Wr).
  pose proof (weight_pos l). pose proof (weight_pos r0).
  repeat case_match; intros; simplify_eq; try (simpl; lia).
  - specialize (Hf r0 Br). lia.
  - specialize (Hf l Bl). lia.
Qed.

Lemma mk_eq_with_weight f a b s :
  grows_by_one f -> get_sort a = Some s -> get_sort b = Some s ->
  weight (mk_eq_with rw f a b) <= 1 + weight a + weight b.
Proof.
  intros Hf Ha Hb. unfold mk_eq_with.
  destruct (mk_eq_core_with rw f a b) as [[st r]|] eqn:E.
  - by eapply mk_eq_core_with_weight.
  - by rewrite weight_eq.
Qed.

Lemma mk_not_fuel_weight n : grows_by_one (mk_not_fuel rw n).
Proof.
  induction n as [|n IH]; intros t Ht; [by rewrite <- weight_not|].
  simpl mk_not_fuel. destruct (mk_not_core_with _ _ t) as [[st r]|] eqn:E;
    [|by rewrite weight_not].
  unfold mk_not_core_with in E. pose proof (weight_pos t).
  destruct (m.is_not t) eqn:E1; [recog; simplify_eq; rewrite weight_not; lia|].
  destruct (m.is_true t); [simplify_eq; simpl; lia|].
  destruct (m.is_false t); [simplify_eq; simpl; lia|].
  destruct (m.is_eq t) as [[a b]|] eqn:E4; [|discriminate]. recog.
  destruct (m.is_bool a) eqn:E5; [|discriminate]. recog. simplify_eq.
  apply boolx_eq in Ht as (s & Ha & Hb). unfold boolx in E5. rewrite E5 in Ha.
  injection Ha as <-. rewrite weight_eq. pose proof (IH a E5).
  destruct (mk_not_fuel_sound rw n a E5) as [Bn _].
  pose proof (mk_eq_with_weight _ _ b BOOL_SORT IH Bn Hb). lia.
Qed.

Lemma mk_not_weight t : boolx t -> weight (mk_not rw t) <= 1 + weight t.
Proof. apply (mk_not_fuel_weight (S (weight t))). Qed.

Lemma mk_eq_weight a b s :
  get_sort a = Some s -> get_sort b = Some s ->
  weight (mk_eq rw a b) <= 1 + weight a + weight b.
Proof. apply mk_eq_with_weight. exact mk_not_weight. Qed.

(** ** The fuel of [mk_not] is enough *)

Lemma mk_eq_with_ext f g a b :
  boolx a -> boolx b ->
  (forall t, boolx t -> weight t <= weight a `max` weight b -> f t = g t) ->
  mk_eq_with rw f a b = mk_eq_with rw g a b.
Proof.
  intros Ha Hb Hfg. unfold mk_eq_with.
  enough (E : mk_eq_core_with rw f a b = mk_eq_core_with rw g a b) by by rewrite E.
  unfold mk_eq_core_with. do 2 (case_match; [done|]).
  destruct (try_extra_rules rw a b); [done|]. case_match; [|done]. unfold mk_eq_bool_with.
  set (p := match m.is_not a with Some _ => _ | None => _ end).
  assert (Hp : boolx p.1.1 /\ boolx p.1.2 /\ weight p.1.1 <= weight a /\ weight p.1.2 <= weight b).
  { subst p. destruct (m.is_not a) eqn:Ea; [destruct (m.is_not b) eqn:Eb|]; simpl; auto.
    recog. rewrite boolx_not in Ha, Hb. rewrite !weight_not. auto with lia. }
  destruct p as [[l r0] u]. simpl in Hp. destruct Hp as (Bl & Br & Wl & Wr).
  rewrite (Hfg l), (Hfg r0) by (done || lia). done.
Qed.

Lemma mk_not_fuel_stable n k t :
  boolx t -> weight t < n -> weight t < k -> mk_not_fuel rw n t = mk_not_fuel rw k t.
Proof.
  revert k t. induction n as [|n IH]; intros k t Ht Hn Hk; [lia|].
  destruct k as [|k]; [lia|]. simpl.
  enough (E : mk_not_core_with rw (mk_not_fuel rw n) t = mk_not_core_with rw (mk_not_fuel rw k) t)
    by by rewrite E.
  unfold mk_not_core_with. destruct (m.is_not t); [done|].
  do 2 (case_match; [done|]).
  destruct (m.is_eq t) as [[a b]|] eqn:E4; [|done]. recog.
  destruct (m.is_bool a) eqn:E5; [|done]. recog.
  apply boolx_eq in Ht as (s & Ha & Hb). unfold boolx in E5. rewrite E5 in Ha.
  injection Ha as <-. rewrite weight_eq in *. pose proof (weight_pos b).
  rewrite (IH k a E5) by lia.
  do 2 f_equal. pose proof (mk_not_fuel_weight k a E5).
  apply mk_eq_with_ext; [by apply mk_not_fuel_sound|done|].
  intros u Bu Wu. apply IH; [done|lia|lia].
Qed.

(** The recursion equation of the code. *)
Lemma mk_not_unfold t :
  boolx t ->
  mk_not rw t = match mk_not_core rw t with Some (_, r) => r | None => m.mk_not t end.
Proof.
  intros Ht. unfold mk_not, mk_not_core. simpl.
  enough (E : mk_not_core_with rw (mk_not_fuel rw (weight t)) t
              = mk_not_core_with rw (mk_not rw) t) by by rewrite E.
  unfold mk_not_core_with. destruct (m.is_not t); [done|].
  do 2 (case_match; [done|]).
  destruct (m.is_eq t) as [[a b]|] eqn:E4; [|done]. recog.
  destruct (m.is_bool a) eqn:E5; [|done]. recog.
  apply boolx_eq in Ht as (s & Ha & Hb). unfold boolx in E5. rewrite E5 in Ha.
  injection Ha as <-. rewrite weight_eq in *. pose proof (weight_pos b).
  assert (Hs : forall u, boolx u -> weight u <= weight a + weight b ->
            mk_not_fuel rw (1 + weight a + weight b) u = mk_not rw u).
  { intros u Bu Wu. unfold mk_not. apply mk_not_fuel_stable; [done|lia|lia]. }
  rewrite (Hs a E5) by lia. do 2 f_equal. pose proof (mk_not_weight a E5).
  apply mk_eq_with_ext; [by apply mk_not_ok|done|].
  intros u Bu Wu. apply Hs; [done|lia].
Qed.
End Size.
