(* ===== verification/BoolRewriterOr.v ===== *)
(** * BoolRewriterOr: conjunctions, disjunctions and the local context

    [mk_or], [mk_and] and what they call preserve the meaning of the term they
    simplify, and the local-context loop terminates. *)
From Stdlib Require Import ZArith Lia.
From stdpp Require Import base list sets.
From S2P Require Import Prelude Bits Ast AstFacts TermFacts BoolRewriter BoolRewriterSound.

(** ** One traversal of the arguments *)

(** Some argument has the truth value [z], the absorbing one. *)
Definition hits (z : bool) (I : interp) (l : list expr) : bool :=
  existsb (fun e => eqb (bval I e) z) l.

Lemma hits_app z I l l' : hits z I (l ++ l') = hits z I l || hits z I l'.
Proof. apply existsb_app. Qed.

Lemma hits_cons z I e l : hits z I (e :: l) = eqb (bval I e) z || hits z I l.
Proof. reflexivity. Qed.

Lemma hits_elem z I l e : e ∈ l -> bval I e = z -> hits z I l = true.
Proof.
  intros Hin E. apply existsb_exists. exists e. split; [by apply list_elem_of_In|].
  by rewrite E, eqb_reflx.
Qed.

Lemma hits_true I l : hits true I l = existsb (bval I) l.
Proof. unfold hits. induction l as [|e l IH]; simpl; [done|]. rewrite IH. by destruct (bval I e). Qed.

Lemma hits_false I l : hits false I l = negb (forallb (bval I) l).
Proof. unfold hits. induction l as [|e l IH]; simpl; [done|]. rewrite IH. by destruct (bval I e). Qed.

(** Every marked literal stands in the buffer. *)
Definition marks_in (neg pos buffer : list expr) : Prop :=
  (forall a, a ∈ neg -> m.mk_not a ∈ buffer) /\ (forall a, a ∈ pos -> a ∈ buffer).

Lemma marks_in_nil : marks_in [] [] [].
Proof. split; intros a Ha; by apply elem_of_nil in Ha. Qed.

Lemma marks_in_neg neg pos buffer a :
  marks_in neg pos buffer -> marks_in (a :: neg) pos (buffer ++ [m.mk_not a]).
Proof. intros [H1 H2]. split; set_solver. Qed.

Lemma marks_in_pos neg pos buffer a :
  marks_in neg pos buffer -> marks_in neg (a :: pos) (buffer ++ [a]).
Proof. intros [H1 H2]. split; set_solver. Qed.

Lemma is_marked_spec l e : is_marked l e = true <-> e ∈ l.
Proof. apply bool_decide_eq_true. Qed.

(** A literal that repeats or contradicts a marked one. *)
Lemma hits_skip z I buffer e : e ∈ buffer -> eqb (bval I e) z || hits z I buffer = hits z I buffer.
Proof.
  intros Hin. destruct (eqb (bval I e) z) eqn:E; [|done]. apply eqb_prop in E. simpl.
  symmetry. by eapply hits_elem.
Qed.

Lemma hits_clash z I buffer e e' :
  e' ∈ buffer -> bval I e' = negb (bval I e) -> eqb (bval I e) z || hits z I buffer = true.
Proof.
  intros Hin E. destruct (eqb (bval I e) z) eqn:Ez; [done|]. simpl.
  eapply hits_elem; [done|]. rewrite E. by destruct (bval I e), z.
Qed.

Section Scan.
Context (z : bool) (is_unit is_zero : expr -> bool).
Context (unit_ok : forall e, is_unit e = true -> forall I, bval I e = negb z).
Context (zero_ok : forall e, is_zero e = true -> forall I, bval I e = z).

Lemma nflat_scan_sound args s neg pos buffer :
  marks_in neg pos buffer -> Forall boolx buffer -> Forall boolx args ->
  match nflat_scan is_unit is_zero args s neg pos buffer with
  | Zero => forall I, hits z I (buffer ++ args) = true
  | Buffer _ b => Forall boolx b /\ forall I, hits z I b = hits z I (buffer ++ args)
  end.
Proof.
  revert s neg pos buffer. induction args as [|e args IH]; intros s neg pos buffer Hm Hb Ha; simpl.
  { by rewrite app_nil_r. }
  apply Forall_cons in Ha as [He Ha]. pose proof Hm as [Hneg Hpos].
  assert (Hskip : forall s', (forall I, eqb (bval I e) z || hits z I buffer = hits z I buffer) ->
    match nflat_scan is_unit is_zero args s' neg pos buffer with
    | Zero => forall I, hits z I (buffer ++ e :: args) = true
    | Buffer _ b => Forall boolx b /\ forall I, hits z I b = hits z I (buffer ++ e :: args)
    end).
  { intros s' Hs. specialize (IH s' neg pos buffer Hm Hb Ha).
    assert (E : forall I, hits z I (buffer ++ e :: args) = hits z I (buffer ++ args)).
    { intros I. rewrite !hits_app, hits_cons, (orb_assoc (hits z I buffer)).
      by rewrite (orb_comm (hits z I buffer)), Hs. }
    destruct (nflat_scan _ _ _ _ _ _ _) as [|sb b].
    - intros I. by rewrite E.
    - destruct IH as [Bb Hv]. split; [done|]. intros I. by rewrite E. }
  assert (Hclash : (forall I, eqb (bval I e) z || hits z I buffer = true) ->
    forall I, hits z I (buffer ++ e :: args) = true).
  { intros Hc I. rewrite hits_app, hits_cons, orb_assoc, (orb_comm (hits z I buffer)), Hc. done. }
  assert (Hpush : forall s' neg' pos', marks_in neg' pos' (buffer ++ [e]) ->
    match nflat_scan is_unit is_zero args s' neg' pos' (buffer ++ [e]) with
    | Zero => forall I, hits z I (buffer ++ e :: args) = true
    | Buffer _ b => Forall boolx b /\ forall I, hits z I b = hits z I (buffer ++ e :: args)
    end).
  { intros s' neg' pos' Hm'. specialize (IH s' neg' pos' (buffer ++ [e]) Hm').
    rewrite <- app_assoc in IH. apply IH; [|done]. apply Forall_app. auto. }
  destruct (is_unit e) eqn:Eu.
  { apply Hskip. intros I. rewrite (unit_ok e Eu). by destruct z. }
  destruct (is_zero e) eqn:Ez.
  { apply Hclash. intros I. by rewrite (zero_ok e Ez), eqb_reflx. }
  destruct (m.is_not e) as [atom|] eqn:En; recog.
  - destruct (is_marked neg atom) eqn:M1.
    { apply is_marked_spec in M1. apply Hskip. intros I. eapply hits_skip. auto. }
    destruct (is_marked pos atom) eqn:M2.
    { apply is_marked_spec in M2. apply Hclash. intros I.
      eapply hits_clash; [by apply Hpos|]. by rewrite bval_not, negb_involutive. }
    by apply Hpush, marks_in_neg.
  - destruct (is_marked pos e) eqn:M1.
    { apply is_marked_spec in M1. apply Hskip. intros I. eapply hits_skip. auto. }
    destruct (is_marked neg e) eqn:M2.
    { apply is_marked_spec in M2. apply Hclash. intros I. eapply hits_clash; [by apply Hneg|done]. }
    by apply Hpush, marks_in_pos.
Qed.
End Scan.

(** ** Conjunctions without the local context *)

Lemma is_true_val e : m.is_true e = true -> forall I, bval I e = true.
Proof. intros ->%is_true_spec. done. Qed.

Lemma is_false_val e : m.is_false e = true -> forall I, bval I e = false.
Proof. intros ->%is_false_spec. done. Qed.

Lemma mk_nflat_and_core_ok args st r :
  Forall boolx args -> mk_nflat_and_core args = Some (st, r) ->
  same_bool r (fun I => bval I (m.mk_and args)).
Proof.
  intros Ha. unfold mk_nflat_and_core.
  pose proof (nflat_scan_sound false m.is_true m.is_false is_true_val is_false_val
    args false [] [] [] marks_in_nil (Forall_nil_2 _) Ha) as H.
  destruct (nflat_scan _ _ _ _ _ _ _) as [|s b]; simpl in H.
  { intros [= <- <-]. split; [done|]. intros I. specialize (H I).
    rewrite bval_and. rewrite hits_false in H. by destruct (forallb _ _). }
  destruct H as [Hb Hv].
  assert (E : forall I, forallb (bval I) b = bval I (m.mk_and args)).
  { intros I. specialize (Hv I). rewrite !hits_false in Hv. rewrite bval_and.
    by destruct (forallb _ b), (forallb _ args). }
  destruct b as [|b0 [|b1 b]].
  - intros [= <- <-]. split; [done|]. intros I. by rewrite <- E.
  - intros [= <- <-]. split; [by inversion Hb|]. intros I. rewrite <- E. simpl. by rewrite andb_true_r.
  - destruct s; [|discriminate]. intros [= <- <-]. split; [by apply boolx_and|].
    intros I. by rewrite <- E, bval_and.
Qed.

(** Flattening keeps the absorbing value where it was. *)
Lemma flatten_and_ok args :
  Forall boolx args ->
  Forall boolx (flatten m.is_and args) /\
  forall I, forallb (bval I) (flatten m.is_and args) = forallb (bval I) args.
Proof.
  unfold flatten. induction 1 as [|e args He _ [IH1 IH2]]; simpl; [done|].
  split.
  - apply Forall_app. split; [|done]. destruct (m.is_and e) eqn:E; recog; [|by constructor].
    by apply boolx_and.
  - intros I. rewrite forallb_app, IH2. f_equal.
    destruct (m.is_and e) eqn:E; recog; [by rewrite bval_and|]. simpl. apply andb_true_r.
Qed.

Lemma flatten_or_ok args :
  Forall boolx args ->
  Forall boolx (flatten m.is_or args) /\
  forall I, existsb (bval I) (flatten m.is_or args) = existsb (bval I) args.
Proof.
  unfold flatten. induction 1 as [|e args He _ [IH1 IH2]]; simpl; [done|].
  split.
  - apply Forall_app. split; [|done]. destruct (m.is_or e) eqn:E; recog; [|by constructor].
    by apply boolx_or.
  - intros I. rewrite existsb_app, IH2. f_equal.
    destruct (m.is_or e) eqn:E; recog; [by rewrite bval_or|]. simpl. apply orb_false_r.
Qed.

Lemma mk_flat_and_core_ok args st r :
  Forall boolx args -> mk_flat_and_core args = Some (st, r) ->
  same_bool r (fun I => bval I (m.mk_and args)).
Proof.
  intros Ha. unfold mk_flat_and_core.
  destruct (has_nested m.is_and args); [|by apply mk_nflat_and_core_ok].
  destruct (flatten_and_ok args Ha) as [Hf Hv].
  assert (E : forall I, bval I (m.mk_and (flatten m.is_and args)) = bval I (m.mk_and args))
    by (intros I; by rewrite !bval_and).
  destruct (mk_nflat_and_core _) as [[st' r']|] eqn:En; intros [= <- <-].
  - eapply same_bool_ext; [by eapply mk_nflat_and_core_ok|exact E].
  - split; [by apply boolx_and|exact E].
Qed.

(** ** Local-context simplification *)

Definition total (l : list expr) : nat := sum_list (map weight l).

Lemma total_app l l' : total (l ++ l') = total l + total l'.
Proof. unfold total. induction l as [|e l IH]; simpl; lia. Qed.

Lemma total_cons e l : total (e :: l) = weight e + total l.
Proof. reflexivity. Qed.

Lemma total_reverse l : total (reverse l) = total l.
Proof.
  induction l as [|e l IH]; [done|]. rewrite reverse_cons, total_app, total_cons, IH.
  rewrite total_cons. unfold total at 2. simpl. lia.
Qed.

Lemma existsb_reverse (f : expr -> bool) l : existsb f (reverse l) = existsb f l.
Proof.
  induction l as [|e l IH]; [done|]. rewrite reverse_cons, existsb_app, IH. simpl.
  rewrite orb_false_r. apply orb_comm.
Qed.

Section LocalContext.
Context (rw : bool_rewriter).

(** [assumed neg pos I]: the marks hold their assumed values under [I],
    those of a disjunction whose earlier disjuncts are all false. *)
Definition assumed (neg pos : list expr) (I : interp) : Prop :=
  (forall a, a ∈ neg -> bval I a = true) /\ (forall a, a ∈ pos -> bval I a = false).

Lemma marks_assumed neg pos buffer I :
  marks_in neg pos buffer -> existsb (bval I) buffer = false -> assumed neg pos I.
Proof.
  intros [Hn Hp] Hf.
  assert (H : forall a, a ∈ buffer -> bval I a = false).
  { intros a Ha. destruct (bval I a) eqn:E; [|done].
    rewrite <- hits_true in Hf. by erewrite hits_elem in Hf. }
  split; intros a Ha; [|by apply H, Hp].
  specialize (H _ (Hn a Ha)). rewrite bval_not in H. by destruct (bval I a).
Qed.

Lemma not_or_scan_ok neg pos args s acc :
  Forall boolx acc -> Forall boolx args ->
  match not_or_scan neg pos args s acc with
  | None => forall I, assumed neg pos I -> existsb (bval I) args = true
  | Some (s', l) =>
      Forall boolx l
      /\ (forall I, assumed neg pos I ->
            existsb (bval I) l = existsb (bval I) acc || existsb (bval I) args)
      /\ total l + Nat.b2n s' <= total acc + total args + Nat.b2n s
  end.
Proof.
  revert s acc. induction args as [|e args IH]; intros s acc Hacc Ha; simpl.
  { split; [done|]. split; [intros; by rewrite orb_false_r|]. unfold total; simpl. lia. }
  apply Forall_cons in Ha as [He Ha]. pose proof (weight_pos e) as We.
  assert (Hyes : (forall I, assumed neg pos I -> bval I e = true) ->
    forall I, assumed neg pos I -> bval I e || existsb (bval I) args = true).
  { intros H I HI. by rewrite (H I HI). }
  assert (Hdrop : (forall I, assumed neg pos I -> bval I e = false) ->
    match not_or_scan neg pos args true acc with
    | None => forall I, assumed neg pos I -> bval I e || existsb (bval I) args = true
    | Some (s', l) =>
        Forall boolx l
        /\ (forall I, assumed neg pos I -> existsb (bval I) l =
              existsb (bval I) acc || (bval I e || existsb (bval I) args))
        /\ total l + Nat.b2n s' <= total acc + total (e :: args) + Nat.b2n s
    end).
  { intros H. specialize (IH true acc Hacc Ha).
    destruct (not_or_scan _ _ _ _ _) as [[s' l]|].
    - destruct IH as (B & V & W). split; [done|]. split.
      + intros I HI. by rewrite (H I HI), V.
      + rewrite total_cons. simpl in W. lia.
    - intros I HI. by rewrite (H I HI), IH. }
  assert (Hkeep :
    match not_or_scan neg pos args s (acc ++ [e]) with
    | None => forall I, assumed neg pos I -> bval I e || existsb (bval I) args = true
    | Some (s', l) =>
        Forall boolx l
        /\ (forall I, assumed neg pos I -> existsb (bval I) l =
              existsb (bval I) acc || (bval I e || existsb (bval I) args))
        /\ total l + Nat.b2n s' <= total acc + total (e :: args) + Nat.b2n s
    end).
  { assert (Hacc' : Forall boolx (acc ++ [e])) by (apply Forall_app; auto).
    specialize (IH s (acc ++ [e]) Hacc' Ha).
    destruct (not_or_scan _ _ _ _ _) as [[s' l]|].
    - destruct IH as (B & V & W). split; [done|]. split.
      + intros I HI. rewrite (V I HI), existsb_app. simpl. by rewrite orb_false_r, orb_assoc.
      + rewrite total_app in W. rewrite total_cons in W |- *. unfold total at 3 in W. simpl in W. lia.
    - intros I HI. rewrite IH by done. apply orb_true_r. }
  destruct (is_marked neg e) eqn:M1.
  { apply is_marked_spec in M1. apply Hyes. intros I [Hn _]. auto. }
  destruct (is_marked pos e) eqn:M2.
  { apply is_marked_spec in M2. apply Hdrop. intros I [_ Hp]. auto. }
  destruct (m.is_not e) as [atom|] eqn:En; [|exact Hkeep]. recog.
  destruct (is_marked neg atom) eqn:M3.
  { apply is_marked_spec in M3. apply Hdrop. intros I [Hn _]. by rewrite bval_not, Hn. }
  destruct (is_marked pos atom) eqn:M4; [|exact Hkeep].
  apply is_marked_spec in M4. apply Hyes. intros I [_ Hp]. by rewrite bval_not, Hp.
Qed.

(** [simplifies e neg pos r]: in the context of the marks, [r] is a smaller
    term for [e]. *)
Definition simplifies (e : expr) (neg pos : list expr) (r : expr) : Prop :=
  boolx r /\ weight r < weight e
  /\ forall I, assumed neg pos I -> bval I r = bval I e.

Lemma simp_nested_not_or_ok `{Env} l neg pos :
  Forall boolx l ->
  spec (simp_nested_not_or rw l neg pos) (fun o =>
    match o with
    | Some r => simplifies (m.mk_not (m.mk_or l)) neg pos r
    | None => True
    end).
Proof.
  intros Hl. unfold simp_nested_not_or.
  eapply (spec_bind _ _ (fun _ => True)); [intros s; exact I|]. intros _ _. apply spec_ret.
  pose proof (not_or_scan_ok neg pos l false [] (Forall_nil_2 _) Hl) as Hs.
  destruct (not_or_scan neg pos l false []) as [[s' l']|].
  - destruct s'; [|done]. destruct Hs as (B & V & W). simpl in W.
    unfold simplifies. rewrite weight_not, weight_or. fold (total l).
    destruct l' as [|a [|a' l']].
    + split; [done|]. split; [simpl; lia|]. intros I HI.
      specialize (V I HI). simpl in V. by rewrite bval_not, bval_or, <- V.
    + inversion B as [|? ? Ba]; subst. destruct (mk_not_ok rw a Ba) as [Bn Vn].
      pose proof (mk_not_weight rw a Ba). unfold total at 1 in W. simpl in W.
      split; [done|]. split; [lia|]. intros I HI.
      rewrite Vn, bval_not, bval_or. specialize (V I HI). simpl in V. by rewrite <- V, orb_false_r.
    + split; [by apply boolx_not, boolx_or|]. split.
      * rewrite weight_not, weight_or. fold (total (a :: a' :: l')). lia.
      * intros I HI. by rewrite !bval_not, !bval_or, (V I HI).
  - split; [done|]. split; [simpl; lia|]. intros I HI.
    by rewrite bval_not, bval_or, (Hs I HI).
Qed.

Definition constant (e : expr) : Prop := e = m.mk_true \/ e = m.mk_false.

(** [simp_arg]: unchanged, or a Boolean term replaced by its value. *)
Lemma simp_arg_ok neg pos e s :
  Forall boolx neg -> Forall boolx pos -> get_sort e = Some s ->
  match simp_arg e neg pos with
  | (r, false) => r = e
  | (r, true) => s = BOOL_SORT /\ constant r /\ forall I, assumed neg pos I -> bval I r = bval I e
  end.
Proof.
  intros Bn Bp Hs. unfold simp_arg.
  destruct (m.is_not e) as [atom|] eqn:En; recog.
  - apply get_sort_not in Hs as [-> Ba].
    destruct (is_marked neg atom) eqn:M1; [|destruct (is_marked pos atom) eqn:M2; [|done]].
    + apply is_marked_spec in M1. split; [done|]. split; [by right|].
      intros I [Hn _]. by rewrite bval_not, (Hn atom).
    + apply is_marked_spec in M2. split; [done|]. split; [by left|].
      intros I [_ Hp]. by rewrite bval_not, (Hp atom).
  - assert (Hb : forall l, Forall boolx l -> e ∈ l -> s = BOOL_SORT).
    { intros l Bl Hin. rewrite Forall_forall in Bl. apply Bl in Hin. unfold boolx in Hin. congruence. }
    destruct (is_marked neg e) eqn:M1; [|destruct (is_marked pos e) eqn:M2; [|done]].
    + apply is_marked_spec in M1. split; [eauto|]. split; [by left|]. intros I [Hn _]. by rewrite (Hn e).
    + apply is_marked_spec in M2. split; [eauto|]. split; [by right|]. intros I [_ Hp]. by rewrite (Hp e).
Qed.

Lemma constant_boolx e : constant e -> boolx e.
Proof. by intros [-> | ->]. Qed.

Lemma constant_weight e : constant e -> weight e = 1.
Proof. by intros [-> | ->]. Qed.

(** An equality with a constant side gets smaller. *)
Lemma mk_eq_constant_weight a b :
  boolx a -> boolx b -> constant a \/ constant b ->
  weight (mk_eq rw a b) < 1 + weight a + weight b.
Proof.
  intros Ba Bb Hc. pose proof (weight_pos a). pose proof (weight_pos b).
  unfold mk_eq, mk_eq_with, mk_eq_core_with.
  case_match eqn:E.
  - destruct p as [st r]. revert E. case_match; [intros [= <- <-]; simpl; lia|].
    case_match; [intros [= <- <-]; simpl; lia|].
    destruct (try_extra_rules rw a b) as [[st' r']|] eqn:Ex.
    { intros [= <- <-]. unfold try_extra_rules in Ex.
      pose proof (try_ite_value_weight a b st' r') as P1.
      pose proof (try_ite_value_weight b a st' r') as P2.
      repeat case_match; simplify_eq;
        first [apply P1 in Ex; [lia|by eapply value_weight] | apply P2 in Ex; [lia|by eapply value_weight]]. }
    pose proof (mk_not_weight rw a Ba). pose proof (mk_not_weight rw b Bb).
    unfold mk_eq_bool_with. destruct Hc as [[-> | ->]|[-> | ->]].
    all: try (replace (match m.is_not _ with Some _ => _ | None => _ end)
                with (a, m.mk_true, false) by (by destruct (m.is_not a)));
         try (replace (match m.is_not _ with Some _ => _ | None => _ end)
                with (a, m.mk_false, false) by (by destruct (m.is_not a))).
    all: simpl in *; repeat case_match; intros; simplify_eq; simpl in *; lia.
  - exfalso. revert E. do 2 (case_match; [done|]). case_match; [done|].
    rewrite (proj2 (is_bool_spec a) Ba). unfold mk_eq_bool_with.
    destruct Hc as [[-> | ->]|[-> | ->]]; simpl; try done.
    all: destruct (m.is_not a); simpl; repeat case_match; done.
Qed.

Lemma mk_nested_ite_ok c t e :
  boolx c -> boolx t -> boolx e ->
  same_bool (mk_nested_ite rw c t e) (fun I => if bval I c then bval I t else bval I e).
Proof.
  intros Bc Bt Be. unfold mk_nested_ite. rewrite (proj2 (is_bool_spec t) Bt).
  destruct (mk_not_ok rw c Bc) as [Bnc Vnc]. destruct (mk_not_ok rw t Bt) as [Bnt Vnt].
  destruct (mk_not_ok rw e Be) as [Bne Vne].
  pose proof (mk_eq_bool_ok rw c t Bc Bt) as [Beq Veq].
  assert (Bor : forall x y, boolx x -> boolx y -> boolx (m.mk_or [x; y]))
    by (intros; apply boolx_or; auto).
  repeat (case_match; recog).
  all: first [apply boolx_not, Bor; done | idtac].
  all: split; [first [done | by apply Bor | by apply boolx_not, Bor | by apply boolx_ite]|].
  all: intros I; autorewrite with bval; simpl; autorewrite with bval;
    rewrite ?Vnc, ?Vnt, ?Vne, ?Veq; simpl; try done.
  all: try (match goal with H : m.is_complement_core _ _ = true |- _ =>
              rewrite (is_complement_core_bval I _ _ H) end).
  all: try (match goal with H : _ || _ = true |- _ => apply orb_true_iff in H as [H|H]; recog end).
  all: autorewrite with bval.
  all: repeat match goal with |- context [bval ?J ?x] => destruct (bval J x) end; done.
Qed.

Lemma mk_nested_ite_weight c t e :
  boolx c -> boolx t -> boolx e -> constant c \/ constant t \/ constant e ->
  weight (mk_nested_ite rw c t e) < 5 + weight c + weight t + weight e.
Proof.
  intros Bc Bt Be Hc. unfold mk_nested_ite. rewrite (proj2 (is_bool_spec t) Bt).
  pose proof (mk_not_weight rw c Bc). pose proof (mk_not_weight rw t Bt).
  pose proof (mk_not_weight rw e Be). pose proof (mk_eq_weight rw c t BOOL_SORT Bc Bt).
  pose proof (weight_pos c). pose proof (weight_pos t). pose proof (weight_pos e).
  repeat case_match; simpl; try lia.
  exfalso. destruct Hc as [[-> | ->]|[[-> | ->]|[-> | ->]]]; done.
Qed.

(** The three ways [simp_arg] leaves a Boolean term. *)
Lemma simp_arg_bool neg pos e :
  Forall boolx neg -> Forall boolx pos -> boolx e ->
  let '(r, b) := simp_arg e neg pos in
  boolx r /\ weight r <= weight e /\ (b = true -> constant r)
  /\ forall I, assumed neg pos I -> bval I r = bval I e.
Proof.
  intros Bn Bp Be. pose proof (simp_arg_ok neg pos e _ Bn Bp Be) as H. pose proof (weight_pos e).
  destruct (simp_arg e neg pos) as [r []]; [|by subst].
  destruct H as (_ & Hc & V). pose proof (constant_boolx r Hc). pose proof (constant_weight r Hc).
  split; [done|]. split; [lia|]. done.
Qed.

Lemma simp_eq_ok neg pos lhs rhs s r :
  Forall boolx neg -> Forall boolx pos -> get_sort lhs = Some s -> get_sort rhs = Some s ->
  (let '(new_lhs, m1) := simp_arg lhs neg pos in
   let '(new_rhs, m2) := simp_arg rhs neg pos in
   if m1 || m2 then Some (mk_eq rw new_lhs new_rhs) else None) = Some r ->
  simplifies (m.mk_eq lhs rhs) neg pos r.
Proof.
  intros Bn Bp Hl Hr.
  assert (Hs : (simp_arg lhs neg pos).2 || (simp_arg rhs neg pos).2 = true -> s = BOOL_SORT).
  { pose proof (simp_arg_ok neg pos lhs s Bn Bp Hl) as A.
    pose proof (simp_arg_ok neg pos rhs s Bn Bp Hr) as B.
    destruct (simp_arg lhs neg pos) as [? []], (simp_arg rhs neg pos) as [? []]; simpl; naive_solver. }
  destruct ((simp_arg lhs neg pos).2 || (simp_arg rhs neg pos).2) eqn:Em.
  - specialize (Hs eq_refl). subst s.
    pose proof (simp_arg_bool neg pos lhs Bn Bp Hl) as A.
    pose proof (simp_arg_bool neg pos rhs Bn Bp Hr) as B.
    destruct (simp_arg lhs neg pos) as [nl m1], (simp_arg rhs neg pos) as [nr m2].
    simpl in Em. rewrite Em. intros [= <-].
    destruct A as (Bl & Wl & Cl & Vl), B as (Br & Wr & Cr & Vr).
    destruct (mk_eq_bool_ok rw nl nr Bl Br) as [Be Ve].
    assert (constant nl \/ constant nr) by (apply orb_true_iff in Em as [->| ->]; auto).
    pose proof (mk_eq_constant_weight nl nr Bl Br ltac:(done)).
    split; [done|]. split; [rewrite weight_eq; lia|].
    intros I HI. by rewrite Ve, bval_eq_bool, Vl, Vr.
  - destruct (simp_arg lhs neg pos) as [nl m1], (simp_arg rhs neg pos) as [nr m2].
    simpl in Em. by rewrite Em.
Qed.

Lemma simp_ite_ok neg pos c th el r :
  Forall boolx neg -> Forall boolx pos -> boolx c -> boolx th -> boolx el ->
  (let '(new_c, m1) := simp_arg c neg pos in
   let '(new_t, m2) := simp_arg th neg pos in
   let '(new_e, m3) := simp_arg el neg pos in
   if m1 || m2 || m3 then Some (mk_nested_ite rw new_c new_t new_e) else None) = Some r ->
  simplifies (m.mk_ite c th el) neg pos r.
Proof.
  intros Bn Bp Bc Bt Be.
  pose proof (simp_arg_bool neg pos c Bn Bp Bc) as A.
  pose proof (simp_arg_bool neg pos th Bn Bp Bt) as B.
  pose proof (simp_arg_bool neg pos el Bn Bp Be) as C.
  destruct (simp_arg c neg pos) as [nc m1], (simp_arg th neg pos) as [nt m2],
    (simp_arg el neg pos) as [ne m3].
  destruct A as (Bc' & Wc & Cc & Vc), B as (Bt' & Wt & Ct & Vt), C as (Be' & We & Ce & Ve).
  destruct (m1 || m2 || m3) eqn:Em; [|done]. intros [= <-].
  destruct (mk_nested_ite_ok nc nt ne Bc' Bt' Be') as [Bi Vi].
  assert (constant nc \/ constant nt \/ constant ne)
    by (destruct m1, m2, m3; simpl in Em; try discriminate; auto).
  pose proof (mk_nested_ite_weight nc nt ne Bc' Bt' Be' ltac:(done)).
  split; [done|]. split; [rewrite weight_ite; lia|].
  intros I HI. by rewrite Vi, bval_ite, Vc, Vt, Ve.
Qed.

Lemma simp_nested_eq_ite_ok `{Env} t0 neg pos :
  Forall boolx neg -> Forall boolx pos -> boolx t0 ->
  spec (simp_nested_eq_ite rw t0 neg pos) (fun o =>
    match o with Some r => simplifies t0 neg pos r | None => True end).
Proof.
  intros Bn Bp B0. unfold simp_nested_eq_ite.
  eapply (spec_bind _ _ (fun _ => True)); [intros s; exact I|]. intros _ _.
  set (p := match m.is_not t0 with Some _ => _ | None => _ end).
  assert (Hp : boolx p.1 /\ t0 = if p.2 then m.mk_not p.1 else p.1).
  { subst p. destruct (m.is_not t0) eqn:E; recog; [|done]. by rewrite boolx_not in B0. }
  destruct p as [t neg0]. simpl in Hp. destruct Hp as [Bt ->]. clear B0. apply spec_ret.
  assert (Hf : forall r, simplifies t neg pos r ->
    simplifies (if neg0 then m.mk_not t else t) neg pos (if neg0 then mk_not rw r else r)).
  { intros r (Br & Wr & Vr). destruct neg0; [|done].
    destruct (mk_not_ok rw r Br) as [Bn' Vn]. pose proof (mk_not_weight rw r Br).
    split; [done|]. split; [rewrite weight_not; lia|]. intros I HI. by rewrite Vn, bval_not, Vr. }
  destruct (m.is_eq t) as [[lhs rhs]|] eqn:E1.
  - recog. apply boolx_eq in Bt as (s & Hl & Hr).
    pose proof (fun r => simp_eq_ok neg pos lhs rhs s r Bn Bp Hl Hr) as Hs.
    destruct (simp_arg lhs neg pos) as [nl m1], (simp_arg rhs neg pos) as [nr m2].
    destruct (m1 || m2); [|done]. by apply Hf, Hs.
  - destruct (m.is_ite t) as [[[c th] el]|] eqn:E2; [|done]. recog.
    apply boolx_ite in Bt as (Bc & Bth & Bel).
    pose proof (fun r => simp_ite_ok neg pos c th el r Bn Bp Bc Bth Bel) as Hs.
    destruct (simp_arg c neg pos) as [nc m1], (simp_arg th neg pos) as [nt m2],
      (simp_arg el neg pos) as [ne m3].
    destruct (m1 || m2 || m3); [|done]. by apply Hf, Hs.
Qed.

(** *** The traversals *)

Definition ctx_ok (x : ctx) : Prop :=
  Forall boolx (new_args x) /\ marks_in (neg_lits x) (pos_lits x) (new_args x).

Lemma ctx_ok_marks x : ctx_ok x -> Forall boolx (neg_lits x) /\ Forall boolx (pos_lits x).
Proof.
  intros [B [Hn Hp]]. rewrite !Forall_forall. rewrite Forall_forall in B.
  split; intros a Ha; [|by apply B, Hp]. apply boolx_not. by apply B, Hn.
Qed.

(** [extends x l b y]: [y] is [x] after the disjuncts [l], at most [b] of
    the size budget being left over. *)
Definition extends (x : ctx) (l : list expr) (y : ctx) : Prop :=
  ctx_ok y
  /\ (forall I, existsb (bval I) (new_args y) = existsb (bval I) (new_args x) || existsb (bval I) l)
  /\ total (new_args y) + Nat.b2n (modified y)
      <= total (new_args x) + Nat.b2n (modified x) + total l.

Lemma extends_refl x : ctx_ok x -> extends x [] x.
Proof.
  intros Hx. split; [done|]. split; [intros I; by rewrite orb_false_r|]. unfold total at 3. simpl. lia.
Qed.

Lemma extends_trans x l y l' w : extends x l y -> extends y l' w -> extends x (l ++ l') w.
Proof.
  intros (_ & V1 & W1) (B & V2 & W2). split; [done|]. split.
  - intros I. by rewrite V2, V1, existsb_app, orb_assoc.
  - rewrite total_app. lia.
Qed.

Lemma push_new_arg_ok arg x : ctx_ok x -> boolx arg -> extends x [arg] (push_new_arg arg x).
Proof.
  intros Hx Ba. pose proof Hx as [B Hm]. pose proof Hm as [Hn Hp].
  assert (Hdup : arg ∈ new_args x -> extends x [arg] x).
  { intros Hin. split; [done|]. split; [|rewrite total_cons; lia].
    intros I. simpl. rewrite orb_false_r. destruct (bval I arg) eqn:E; [|by rewrite orb_false_r].
    rewrite orb_true_r, <- hits_true. by eapply hits_elem. }
  assert (Hpush : forall y, ctx_ok y -> new_args y = new_args x ++ [arg] ->
            modified y = modified x -> extends x [arg] y).
  { intros y Hy En Em. split; [done|]. rewrite En, Em, total_app. split; [|lia].
    intros I. apply existsb_app. }
  assert (Bapp : Forall boolx (new_args x ++ [arg])) by (apply Forall_app; auto).
  unfold push_new_arg. destruct (m.is_not arg) as [narg|] eqn:E; recog.
  - destruct (is_marked (neg_lits x) narg) eqn:M; [apply is_marked_spec in M; auto|].
    apply Hpush; [|done|done]. split; [done|]. by apply marks_in_neg.
  - destruct (is_marked (pos_lits x) arg) eqn:M; [apply is_marked_spec in M; auto|].
    apply Hpush; [|done|done]. split; [done|]. by apply marks_in_pos.
Qed.

Lemma push_args_ok l x :
  ctx_ok x -> Forall boolx l -> extends x l (foldl (fun x a => push_new_arg a x) x l).
Proof.
  revert x. induction l as [|a l IH]; intros x Hx Hl; simpl; [by apply extends_refl|].
  apply Forall_cons in Hl as [Ba Bl]. pose proof (push_new_arg_ok a x Hx Ba) as Ha.
  apply (extends_trans x [a] (push_new_arg a x) l); [done|]. apply IH; [apply Ha|done].
Qed.

Section Traversal.
Context `{Env}.

(** What simplifying one argument leaves: the same lists, a term that may
    stand for the argument next to the disjuncts kept so far. *)
Definition simplified (arg : expr) (x : ctx) (r : expr * ctx) : Prop :=
  let '(arg', y) := r in
  new_args y = new_args x /\ neg_lits y = neg_lits x /\ pos_lits y = pos_lits x
  /\ boolx arg' /\ weight arg' + Nat.b2n (modified y) <= weight arg + Nat.b2n (modified x)
  /\ forall I, assumed (neg_lits x) (pos_lits x) I -> bval I arg' = bval I arg.

Lemma simplified_trans arg x arg1 y r :
  simplified arg x (arg1, y) -> simplified arg1 y r -> simplified arg x r.
Proof.
  destruct r as [arg2 w]. simpl. intros (E1 & E2 & E3 & B1 & W1 & V1) (F1 & F2 & F3 & B2 & W2 & V2).
  rewrite E1, E2, E3 in *. do 4 (split; [congruence|]). split; [lia|].
  intros I HI. by rewrite V2, V1.
Qed.

Lemma simplified_option arg x (o : option expr) :
  boolx arg ->
  match o with Some r => simplifies arg (neg_lits x) (pos_lits x) r | None => True end ->
  simplified arg x (match o with Some a => (a, set_modified x) | None => (arg, x) end).
Proof.
  intros Ba. destruct o as [r|]; simpl; [|done]. intros (B & W & V).
  do 4 (split; [done|]). split; [lia|done].
Qed.

Lemma simplify_arg_ok arg x :
  ctx_ok x -> boolx arg -> spec (simplify_arg rw arg x) (simplified arg x).
Proof.
  intros Hx Ba. unfold simplify_arg.
  apply spec_bind with (P := fun o => match o with
    | Some r => simplifies arg (neg_lits x) (pos_lits x) r | None => True end).
  { destruct (m.is_not arg) as [narg|] eqn:E; [|by apply spec_ret].
    destruct (m.is_or narg) as [l|] eqn:E'; [|by apply spec_ret]. recog.
    apply simp_nested_not_or_ok. by rewrite boolx_not, boolx_or in Ba. }
  intros o Ho. pose proof (simplified_option arg x o Ba Ho) as H1.
  destruct (match o with Some a => (a, set_modified x) | None => (arg, x) end) as [arg1 y].
  pose proof H1 as (E1 & E2 & E3 & B1 & _ & _).
  destruct (ctx_ok_marks x Hx) as [Bn Bp].
  apply spec_bind with (P := fun o => match o with
    | Some r => simplifies arg1 (neg_lits y) (pos_lits y) r | None => True end).
  { apply simp_nested_eq_ite_ok; [by rewrite E2|by rewrite E3|done]. }
  intros o' Ho'. apply spec_ret. eapply simplified_trans; [exact H1|].
  by apply simplified_option.
Qed.

(** [PROCESS_ARG] and the traversals: [None] when the disjunction is true. *)
Definition processed (x : ctx) (l : list expr) (o : option ctx) : Prop :=
  match o with
  | Some y => extends x l y
  | None => forall I, existsb (bval I) (new_args x) || existsb (bval I) l = true
  end.

Lemma process_arg_ok arg x :
  ctx_ok x -> boolx arg -> spec (process_arg rw arg x) (processed x [arg]).
Proof.
  intros Hx Ba. unfold process_arg.
  eapply spec_bind; [by apply simplify_arg_ok|].
  intros [a y] (E1 & E2 & E3 & B1 & W1 & V1). apply spec_ret.
  assert (Hy : ctx_ok y) by (unfold ctx_ok; by rewrite E1, E2, E3).
  assert (V : forall I, existsb (bval I) (new_args x) || bval I a
            = existsb (bval I) (new_args x) || existsb (bval I) [arg]).
  { intros I. simpl. rewrite orb_false_r. destruct (existsb (bval I) (new_args x)) eqn:E; [done|].
    simpl. apply V1. by apply (marks_assumed _ _ (new_args x)); [apply Hx|]. }
  assert (Hext : forall l w, (forall I, existsb (bval I) l = bval I a) -> total l <= weight a ->
            extends y l w -> extends x [arg] w).
  { intros l w El Wl (Hw & Vw & Ww). split; [done|]. split.
    - intros I. by rewrite <- V, <- El, Vw, E1.
    - rewrite E1 in Ww. rewrite total_cons. lia. }
  destruct (m.is_false a) eqn:Ef; recog.
  { apply (Hext [] y); [done|unfold total; simpl; lia|by apply extends_refl]. }
  destruct (m.is_true a) eqn:Et; recog.
  { intros I. by rewrite <- V, orb_true_r. }
  assert (Hpush : processed x [arg] (Some (push_new_arg a y))).
  { apply (Hext [a]); [|rewrite total_cons; unfold total; simpl; lia|by apply push_new_arg_ok].
    intros I. apply orb_false_r. }
  destruct (m_flat rw); [|exact Hpush]. destruct (m.is_or a) as [l|] eqn:Eo; [|exact Hpush].
  recog. apply (Hext l).
  - intros I. by rewrite bval_or.
  - rewrite weight_or. unfold total. lia.
  - apply push_args_ok; [done|]. by apply boolx_or.
Qed.

Lemma process_args_ok l x :
  ctx_ok x -> Forall boolx l -> spec (process_args rw l x) (processed x l).
Proof.
  revert x. induction l as [|a l IH]; intros x Hx Hl; simpl.
  { apply spec_ret. by apply extends_refl. }
  apply Forall_cons in Hl as [Ba Bl].
  eapply spec_bind; [by apply process_arg_ok|]. intros [y|] Hy.
  - eapply spec_mono; [apply IH; [apply Hy|done]|]. intros [w|] Hw; simpl in *.
    + by apply (extends_trans x [a] y l w).
    + destruct Hy as (_ & V & _). intros I. rewrite orb_assoc. specialize (Hw I).
      rewrite V in Hw. simpl in Hw. by rewrite orb_false_r in Hw.
  - apply spec_ret. intros I. simpl in *. rewrite orb_assoc. specialize (Hy I).
    rewrite orb_false_r in Hy. by rewrite Hy.
Qed.

(** The loop terminates: a pair of traversals that asks for another one
    has made the disjuncts smaller. *)
Lemma local_ctx_loop_ok fuel (forward mod0 simp0 : bool) args :
  Forall boolx args ->
  2 * (total args + Nat.b2n mod0) + (if forward then 2 else 1) <= fuel ->
  (forward = true -> mod0 = false) ->
  spec (local_ctx_loop rw fuel forward mod0 simp0 args) (fun o =>
    match o with
    | Some r => same_bool r (fun I => existsb (bval I) args)
    | None => True
    end).
Proof.
  revert forward mod0 simp0 args.
  induction fuel as [|n IH]; intros forward mod0 simp0 args Ba Hf Hm; [destruct forward; lia|].
  simpl. eapply (spec_bind _ _ (fun _ => True)); [intros s; exact I|]. intros _ _.
  set (x0 := mk_ctx [] [] [] mod0 simp0).
  assert (Hx0 : ctx_ok x0) by (split; [constructor|apply marks_in_nil]).
  set (l := if forward then args else reverse args).
  assert (Hl : Forall boolx l) by (subst l; destruct forward; [done|by apply Forall_reverse]).
  assert (El : forall I, existsb (bval I) l = existsb (bval I) args)
    by (intros I; subst l; destruct forward; [done|apply existsb_reverse]).
  assert (Tl : total l = total args) by (subst l; destruct forward; [done|apply total_reverse]).
  eapply spec_bind; [by apply process_args_ok|]. intros [y|] Hy; simpl in Hy.
  - destruct Hy as ([By _] & Vy & Wy). simpl in Vy, Wy.
    assert (Wy' : total (new_args y) + Nat.b2n (modified y) <= total args + Nat.b2n mod0)
      by (change (total []) with 0 in Wy; lia).
    assert (Hs : forall o : option expr, match o with
        | Some r => same_bool r (fun I => existsb (bval I) (new_args y)) | None => True end ->
      match o with Some r => same_bool r (fun I => existsb (bval I) args) | None => True end).
    { intros [r|]; [|done]. intros Hr. eapply same_bool_ext; [exact Hr|].
      intros I. cbv beta. by rewrite Vy, El. }
    destruct forward.
    + eapply spec_mono; [|exact Hs]. apply IH; [done|lia|done].
    + destruct (modified y) eqn:Em; simpl.
      * assert (Hs' : forall o : option expr, match o with
          | Some r => same_bool r (fun I => existsb (bval I) (reverse (new_args y)))
          | None => True end ->
        match o with Some r => same_bool r (fun I => existsb (bval I) args) | None => True end).
        { intros [r|]; [|done]. intros Hr. eapply same_bool_ext; [exact Hr|].
          intros I. cbv beta. by rewrite existsb_reverse, Vy, El. }
        eapply spec_mono; [|exact Hs']. apply IH; [by apply Forall_reverse| |done].
        rewrite total_reverse. simpl in *. lia.
      * apply spec_ret. destruct (simp y); [|done].
        destruct args as [|a [|a' args]]; simpl mk_or_app.
        -- by split.
        -- split; [by inversion Ba|]. intros I. simpl. by rewrite orb_false_r.
        -- split; [by apply boolx_or|]. intros I. by rewrite bval_or.
  - apply spec_ret. split; [done|]. intros I. rewrite <- El. by rewrite Hy.
Qed.

Lemma local_ctx_simp_ok args :
  Forall boolx args ->
  spec (local_ctx_simp rw args) (fun o =>
    match o with
    | Some r => same_bool r (fun I => existsb (bval I) args)
    | None => True
    end).
Proof.
  intros Ba. apply local_ctx_loop_ok; [done| |done]. unfold local_ctx_fuel. fold (total args).
  simpl. lia.
Qed.
End Traversal.
End LocalContext.
