(* ===== verification/BoolRewriterApp.v ===== *)
(** * BoolRewriterApp: the Boolean simplifier as a whole

    Disjunction, conjunction, if-then-else and pairwise disequality preserve
    meaning, hence so does [mk_app] on every Boolean operator; it returns
    unless the environment interrupts it. *)
From Stdlib Require Import ZArith Lia.
From stdpp Require Import base list sets.
From S2P Require Import Prelude Bits Ast AstFacts TermFacts.
From S2P Require Import BoolRewriter BoolRewriterSound BoolRewriterOr.

(** A core method's result, when it gives one, means [v]. *)
Definition core_bool (v : interp -> bool) (r : br_result) : Prop :=
  match r with Some (_, e) => same_bool e v | None => True end.

Section Simplifier.
Context (rw : bool_rewriter) `{Env}.

(** ** Disjunctions and conjunctions *)

Lemma mk_nflat_or_core_ok args :
  Forall boolx args ->
  spec (mk_nflat_or_core rw args) (core_bool (fun I => existsb (bval I) args)).
Proof.
  intros Ha. unfold mk_nflat_or_core.
  pose proof (nflat_scan_sound true m.is_false m.is_true is_false_val is_true_val
    args false [] [] [] marks_in_nil (Forall_nil_2 _) Ha) as Hs.
  destruct (nflat_scan _ _ _ _ _ _ _) as [|s b]; simpl in Hs.
  { apply spec_ret. split; [done|]. intros I. by rewrite <- hits_true, Hs. }
  destruct Hs as [Hb Hv].
  assert (E : forall I, existsb (bval I) b = existsb (bval I) args)
    by (intros I; rewrite <- !hits_true; apply Hv).
  destruct b as [|b0 [|b1 b]].
  - apply spec_ret. split; [done|]. intros I. by rewrite <- E.
  - apply spec_ret. split; [by inversion Hb|]. intros I. rewrite <- E. simpl. by rewrite orb_false_r.
  - eapply (spec_bind _ _ (fun _ => True)); [intros st; exact I|]. intros cost _.
    eapply (spec_bind _ _ (fun o => match o with
      | Some r => same_bool r (fun I => existsb (bval I) (b0 :: b1 :: b)) | None => True end)).
    { case_match; [by apply local_ctx_simp_ok|by apply spec_ret]. }
    intros [r|] Hr; apply spec_ret; simpl.
    + eapply same_bool_ext; [exact Hr|exact E].
    + destruct s; [|done]. split; [by apply boolx_or|]. intros I. by rewrite bval_or.
Qed.

Lemma mk_or_core_ok args :
  Forall boolx args ->
  spec (mk_or_core rw args) (core_bool (fun I => existsb (bval I) args)).
Proof.
  intros Ha. unfold mk_or_core. destruct (m_flat rw); [|by apply mk_nflat_or_core_ok].
  unfold mk_flat_or_core. destruct (has_nested m.is_or args); [|by apply mk_nflat_or_core_ok].
  destruct (flatten_or_ok args Ha) as [Hf Hv].
  eapply spec_bind; [by apply mk_nflat_or_core_ok|].
  intros [[st r]|] Hr; apply spec_ret; simpl in *.
  - eapply same_bool_ext; [exact Hr|exact Hv].
  - split; [by apply boolx_or|]. intros I. by rewrite bval_or.
Qed.

Lemma mk_or_ok args :
  Forall boolx args ->
  spec (mk_or rw args) (fun r => same_bool r (fun I => existsb (bval I) args)).
Proof.
  intros Ha. eapply spec_bind; [by apply mk_or_core_ok|].
  intros [[st r]|] Hr; apply spec_ret; [done|].
  split; [by apply boolx_or|]. intros I. by rewrite bval_or.
Qed.

Lemma map_not_ok args :
  Forall boolx args ->
  Forall boolx (map (mk_not rw) args) /\
  forall I, existsb (bval I) (map (mk_not rw) args) = negb (forallb (bval I) args).
Proof.
  induction 1 as [|e args He _ [IH1 IH2]]; simpl; [done|].
  destruct (mk_not_ok rw e He) as [Bn Vn]. split; [by constructor|].
  intros I. rewrite Vn, IH2. by destruct (bval I e).
Qed.

Lemma spec_not (c : M expr) v :
  spec c (fun r => same_bool r v) ->
  spec (tmp ← c; mret (mk_not rw tmp)) (fun r => same_bool r (fun I => negb (v I))).
Proof.
  intros Hc. eapply spec_bind; [exact Hc|]. intros r [Br Vr]. apply spec_ret.
  destruct (mk_not_ok rw r Br) as [Bn Vn]. split; [done|]. intros I. by rewrite Vn, Vr.
Qed.

Lemma mk_and_core_ok args :
  Forall boolx args ->
  spec (mk_and_core rw args) (core_bool (fun I => forallb (bval I) args)).
Proof.
  intros Ha. unfold mk_and_core. destruct (m_elim_and rw).
  - destruct (map_not_ok args Ha) as [Bm Vm].
    eapply spec_bind; [apply spec_not; by apply mk_or_ok|].
    intros r Hr. apply spec_ret. eapply same_bool_ext; [exact Hr|].
    intros I. cbv beta. by rewrite Vm, negb_involutive.
  - assert (Hc : forall o, (forall st r, o = Some (st, r) ->
        same_bool r (fun I => bval I (m.mk_and args))) ->
        core_bool (fun I => forallb (bval I) args) o).
    { intros [[st r]|] Ho; [|done]. eapply same_bool_ext; [by eapply Ho|].
      intros I. apply bval_and. }
    destruct (m_flat rw); apply spec_ret; apply Hc; intros st r.
    + by apply mk_flat_and_core_ok.
    + by apply mk_nflat_and_core_ok.
Qed.

Lemma mk_and_ok args :
  Forall boolx args ->
  spec (mk_and rw args) (fun r => same_bool r (fun I => forallb (bval I) args)).
Proof.
  intros Ha. eapply spec_bind; [by apply mk_and_core_ok|].
  intros [[st r]|] Hr; apply spec_ret; [done|].
  split; [by apply boolx_and|]. intros I. by rewrite bval_and.
Qed.

Lemma mk_nand_ok args :
  Forall boolx args ->
  spec (mk_nand rw args) (fun r => same_bool r (fun I => negb (forallb (bval I) args))).
Proof. intros Ha. by apply spec_not, mk_and_ok. Qed.

Lemma mk_nor_ok args :
  Forall boolx args ->
  spec (mk_nor rw args) (fun r => same_bool r (fun I => negb (existsb (bval I) args))).
Proof. intros Ha. by apply spec_not, mk_or_ok. Qed.

(** The binary forms. *)
Lemma mk_or2_ok a b :
  boolx a -> boolx b ->
  spec (mk_or rw [a; b]) (fun r => same_bool r (fun I => bval I a || bval I b)).
Proof.
  intros Ha Hb. eapply spec_mono; [apply mk_or_ok; auto|]. intros r Hr.
  eapply same_bool_ext; [exact Hr|]. intros I. simpl. by rewrite orb_false_r.
Qed.

Lemma mk_and2_ok a b :
  boolx a -> boolx b ->
  spec (mk_and rw [a; b]) (fun r => same_bool r (fun I => bval I a && bval I b)).
Proof.
  intros Ha Hb. eapply spec_mono; [apply mk_and_ok; auto|]. intros r Hr.
  eapply same_bool_ext; [exact Hr|]. intros I. simpl. by rewrite andb_true_r.
Qed.
End Simplifier.

(** [core_ok e r]: the result, when there is one, may replace [e]. *)
Definition core_ok (e : expr) (r : br_result) : Prop :=
  match r with Some (_, e') => e ~> e' | None => True end.

(** A rewrite of a term whose sort [get_sort_..] says is Boolean. *)
Lemma rewrites_same_bool e r v :
  (forall s, get_sort e = Some s -> s = BOOL_SORT) ->
  (boolx e -> same_bool r v /\ forall I, v I = bval I e) -> e ~> r.
Proof.
  intros Hs Hr. apply rewrites_bool; [done|]. intros [[Br Vr] E]%Hr.
  split; [done|]. intros I. by rewrite Vr.
Qed.

(** ** Pairwise disequality *)

Lemma bval_distinct I args : bval I (m.mk_distinct args) = bool_decide (NoDup (map (eval I) args)).
Proof. reflexivity. Qed.

Lemma has_duplicate_spec args visited :
  has_duplicate args visited = false <-> NoDup args /\ forall a, a ∈ args -> a ∉ visited.
Proof.
  revert visited. induction args as [|a args IH]; intros visited; simpl.
  { split; [|done]. intros _. split; [constructor|]. set_solver. }
  rewrite orb_false_iff, IH, NoDup_cons. unfold is_marked.
  rewrite bool_decide_eq_false. set_solver.
Qed.

Lemma NoDup_map_inv {A B} (f : A -> B) (l : list A) : NoDup (map f l) -> NoDup l.
Proof.
  induction l as [|a l IH]; simpl; [constructor|]. rewrite !NoDup_cons. intros [Hn Hl].
  split; [|auto]. intros Hin. apply Hn. by apply list_elem_of_fmap_2.
Qed.

Lemma NoDup_map_on {A B} (f : A -> B) (l : list A) :
  (forall x y, x ∈ l -> y ∈ l -> f x = f y -> x = y) -> NoDup l -> NoDup (map f l).
Proof.
  intros Hinj. induction 1 as [|a l Hn Hl IH]; simpl; [constructor|]. apply NoDup_cons. split.
  - intros (y & E & Hy)%list_elem_of_fmap. apply Hn.
    rewrite (Hinj a y); [done|by left|by right|done].
  - apply IH. intros x y Hx Hy. apply Hinj; by right.
Qed.

(** Values that differ as terms differ under every interpretation. *)
Lemma values_differ a b s I :
  value_of a s -> value_of b s -> eval I a = eval I b -> a = b.
Proof.
  intros Ha Hb E. destruct (value_eq_or_distinct a b s Ha Hb) as [Heq|Hd].
  - by recog.
  - exfalso. by eapply (are_distinct_sound a b s I); [apply Ha|apply Hb|..].
Qed.

Lemma new_diseqs_ok args s :
  Forall (fun e => get_sort e = Some s) args ->
  Forall boolx (new_diseqs args) /\
  forall I, forallb (bval I) (new_diseqs args) = bool_decide (NoDup (map (eval I) args)).
Proof.
  induction 1 as [|a args Ha Hs [IH1 IH2]]; cbn [new_diseqs map].
  { split; [constructor|]. intros I. rewrite bool_decide_eq_true_2; [done|constructor]. }
  split.
  - apply Forall_app. split; [|done]. apply Forall_map, (Forall_impl _ _ _ Hs).
    intros b Hb. apply boolx_not, boolx_eq. eauto.
  - intros I. rewrite forallb_app, IH2. clear IH1 IH2 Hs.
    rewrite (bool_decide_ext (NoDup (eval I a :: map (eval I) args))
      ((eval I a ∉ map (eval I) args) /\ NoDup (map (eval I) args))) by apply NoDup_cons.
    rewrite bool_decide_and. f_equal.
    induction args as [|b args IH]; cbn [map forallb].
    + rewrite bool_decide_eq_true_2; [done|apply not_elem_of_nil].
    + rewrite IH, bval_not, bval_eq.
      rewrite (bool_decide_ext (eval I a ∉ (eval I b :: map (eval I) args))
        (eval I a <> eval I b /\ (eval I a ∉ map (eval I) args))) by apply not_elem_of_cons.
      by rewrite bool_decide_and, (bool_decide_not (eval I a = eval I b)).
Qed.

(** Three Boolean values are never pairwise distinct. *)
Lemma three_bools I a b c l :
  boolx a -> boolx b -> boolx c -> ~ NoDup (map (eval I) (a :: b :: c :: l)).
Proof.
  intros Ba Bb Bc. simpl. rewrite !NoDup_cons, !not_elem_of_cons.
  rewrite (boolx_eval I a Ba), (boolx_eval I b Bb), (boolx_eval I c Bc).
  destruct (bval I a), (bval I b), (bval I c); tauto.
Qed.

Lemma mk_distinct_core_ok rw args : core_ok (m.mk_distinct args) (mk_distinct_core rw args).
Proof.
  assert (Hsort : forall s, get_sort (m.mk_distinct args) = Some s -> s = BOOL_SORT)
    by (intros s [Hs _]%get_sort_distinct_inv; exact Hs).
  destruct args as [|a [|b [|c l]]]; unfold mk_distinct_core; cbv iota; cbn [core_ok].
  - by apply (rewrites_same_bool _ _ (fun _ => true)).
  - apply (rewrites_same_bool _ _ (fun _ => true)); [done|]. intros _. split; [done|].
    intros I. rewrite bval_distinct, bool_decide_eq_true_2; [done|]. apply NoDup_singleton.
  - apply rewrites_bool; [done|]. intros Hd.
    apply get_sort_distinct_inv in Hd as [_ [|[s Hs]]]; [done|]. inv_Forall.
    split; [apply boolx_not, boolx_eq; eauto|]. intros I.
    rewrite bval_distinct, bval_not, bval_eq, <- bool_decide_not. apply bool_decide_ext. simpl.
    rewrite !NoDup_cons, not_elem_of_cons. split; [|tauto]. intros Hne.
    split; [|split]; [split; [done|]| |constructor]; apply not_elem_of_nil.
  - set (args := a :: b :: c :: l) in *.
    destruct (has_duplicate args []) eqn:Ed.
    { apply (rewrites_same_bool _ _ (fun _ => false)); [done|]. intros _. split; [done|].
      intros I. rewrite bval_distinct, bool_decide_eq_false_2; [done|]. intros Hn%NoDup_map_inv.
      rewrite (proj2 (has_duplicate_spec args [])) in Ed; [done|]. split; [done|].
      intros. apply not_elem_of_nil. }
    apply has_duplicate_spec in Ed as [Hnd _].
    destruct (forallb m.is_unique_value args) eqn:Ev.
    { apply (rewrites_same_bool _ _ (fun _ => true)); [done|]. intros Hd. split; [done|].
      apply get_sort_distinct_inv in Hd as [_ [|[s Hs]]]; [done|].
      intros I. rewrite bval_distinct, bool_decide_eq_true_2; [done|].
      apply NoDup_map_on; [|done]. rewrite forallb_forall in Ev. rewrite Forall_forall in Hs.
      intros x y Hx Hy. apply (values_differ x y s I); split; auto; apply Ev; by apply list_elem_of_In. }
    destruct (m.is_bool a) eqn:Eb; recog.
    { apply (rewrites_same_bool _ _ (fun _ => false)); [done|]. intros Hd. split; [done|].
      apply get_sort_distinct_inv in Hd as [_ [|[s Hs]]]; [done|]. subst args. inv_Forall.
      assert (s = BOOL_SORT) by (unfold boolx in *; congruence). subst s.
      intros I. rewrite bval_distinct, bool_decide_eq_false_2; [done|]. by apply three_bools. }
    destruct (_ && _); [|done]. apply rewrites_bool; [done|]. intros Hd.
    apply get_sort_distinct_inv in Hd as [_ [|[s Hs]]]; [done|].
    destruct (new_diseqs_ok args s Hs) as [B V]. split; [by apply boolx_and|].
    intros I. rewrite bval_and, bval_distinct. apply V.
Qed.

(** ** If-then-else *)

(** How to replace an if-then-else: by a term of its sort with its value. *)
Lemma rewrites_ite c t e r :
  (forall s, boolx c -> get_sort t = Some s -> get_sort e = Some s ->
     get_sort r = Some s /\ forall I, eval I r = if bval I c then eval I t else eval I e) ->
  m.mk_ite c t e ~> r.
Proof.
  intros Hr s (Bc & Ht & He)%get_sort_ite. destruct (Hr s Bc Ht He) as [Hs V]. split; [done|].
  intros I. by rewrite eval_ite.
Qed.

Lemma strip_not c t e :
  let '(c', t', e', _) :=
    match m.is_not c with Some c' => (c', e, t, true) | None => (c, t, e, false) end in
  m.mk_ite c t e ~> m.mk_ite c' t' e'.
Proof.
  destruct (m.is_not c) as [c'|] eqn:E; [|reflexivity]. recog. apply rewrites_ite.
  intros s Bc Ht He. split.
  - apply get_sort_ite. by rewrite boolx_not in Bc.
  - intros I. rewrite eval_ite, bval_not. by destruct (bval I c').
Qed.

Lemma strip_then c t e s0 :
  let '(t', _) := match m.is_ite t with
      | Some (c', t1, _) => if bool_decide (c' = c) then (t1, true) else (t, s0)
      | None => (t, s0) end in
  m.mk_ite c t e ~> m.mk_ite c t' e.
Proof.
  destruct (m.is_ite t) as [[[c' t1] t2]|] eqn:E; [|reflexivity].
  case_bool_decide; [|reflexivity]. recog. apply rewrites_ite.
  intros s Bc Ht He. apply get_sort_ite in Ht as (_ & Ht1 & _). split.
  - by apply get_sort_ite.
  - intros I. rewrite !eval_ite. by destruct (bval I c).
Qed.

Lemma strip_else c t e s0 :
  let '(e', _) := match m.is_ite e with
      | Some (c', _, e2) => if bool_decide (c' = c) then (e2, true) else (e, s0)
      | None => (e, s0) end in
  m.mk_ite c t e ~> m.mk_ite c t e'.
Proof.
  destruct (m.is_ite e) as [[[c' e1] e2]|] eqn:E; [|reflexivity].
  case_bool_decide; [|reflexivity]. recog. apply rewrites_ite.
  intros s Bc Ht He. apply get_sort_ite in He as (_ & _ & He2). split.
  - by apply get_sort_ite.
  - intros I. rewrite !eval_ite. by destruct (bval I c).
Qed.

Lemma ite_prepare_ok c t e :
  let '(c', t', e', _) := ite_prepare c t e in m.mk_ite c t e ~> m.mk_ite c' t' e'.
Proof.
  unfold ite_prepare. pose proof (strip_not c t e) as H1.
  destruct (match m.is_not c with Some _ => _ | None => _ end) as [[[c' t'] e'] s].
  pose proof (strip_then c' t' e' s) as H2.
  destruct (match m.is_ite t' with Some _ => _ | None => _ end) as [t'' s'].
  pose proof (strip_else c' t'' e' s') as H3.
  destruct (match m.is_ite e' with Some _ => _ | None => _ end) as [e'' s''].
  etransitivity; [exact H1|]. by etransitivity.
Qed.

Section Ite.
Context (rw : bool_rewriter) `{Env}.

Lemma done_ok (c : M expr) v :
  spec c (fun r => same_bool r v) -> spec (done c) (core_bool v).
Proof. intros Hc. eapply spec_bind; [exact Hc|]. intros r Hr. by apply spec_ret. Qed.

(** The possible rule [o], if it applies, gives a result in [Q]. *)
Definition rule_ok {A} (o : option (M A)) (Q : A -> Prop) : Prop :=
  match o with Some c => spec c Q | None => True end.

Lemma first_rule_ok {A} (o o' : option (M A)) Q :
  rule_ok o Q -> rule_ok o' Q -> rule_ok (first_rule o o') Q.
Proof. by destruct o. Qed.

Lemma done_bool (c : M expr) v v' :
  spec c (fun r => same_bool r v) -> (forall I, v I = v' I) -> spec (done c) (core_bool v').
Proof.
  intros Hc E. apply done_ok. eapply spec_mono; [exact Hc|]. intros r Hr.
  exact (same_bool_ext _ _ _ Hr E).
Qed.

Lemma ret_bool e v : same_bool e v -> spec (mret (Some (BR_DONE, e))) (core_bool v).
Proof. intros He. by apply spec_ret. Qed.

Lemma mk_bool_ite_ok c t e :
  boolx c -> boolx t -> boolx e ->
  rule_ok (mk_bool_ite rw c t e) (core_bool (fun I => if bval I c then bval I t else bval I e)).
Proof.
  intros Bc Bt Be. unfold mk_bool_ite.
  destruct (mk_not_ok rw c Bc) as [Bn Vn].
  pose proof (mk_eq_bool_ok rw c t Bc Bt) as [Beq Veq].
  repeat (case_match; recog; simpl rule_ok); try done.
  all: first
    [ eapply done_bool; [by apply mk_or2_ok|]
    | eapply done_bool; [by apply mk_and2_ok|]
    | apply ret_bool; split; [done|] ].
  all: intros J; cbv beta; autorewrite with bval; rewrite ?Vn, ?Veq; autorewrite with bval.
  all: try (match goal with Hc : m.is_complement_core _ _ = true |- _ =>
         rewrite (fun J => is_complement_core_bval J _ _ Hc) end).
  all: repeat match goal with |- context [bval ?J ?x] => destruct (bval J x) end; done.
Qed.

(** A core method's result, when it gives one, has sort [s] and value [w]. *)
Definition core_means (s : sort) (w : interp -> value) (r : br_result) : Prop :=
  match r with
  | Some (_, e) => get_sort e = Some s /\ forall I, eval I e = w I
  | None => True
  end.

Lemma rewrite1_ok (c : M expr) t e s v w :
  spec c (fun r => same_bool r v) -> get_sort t = Some s -> get_sort e = Some s ->
  (forall I, (if v I then eval I t else eval I e) = w I) ->
  rule_ok (rewrite1 c t e) (core_means s w).
Proof.
  intros Hc Ht He Hw. simpl. eapply spec_bind; [exact Hc|]. intros r [Br Vr].
  apply spec_ret. split; [by apply get_sort_ite|]. intros I. by rewrite eval_ite, Vr.
Qed.

(** [(c1 /\ c2) \/ (c3 /\ c4)] as the rules for two nested tests build it. *)
Lemma or_of_ands_ok c1 c2 c3 c4 :
  boolx c1 -> boolx c2 -> boolx c3 -> boolx c4 ->
  spec (and1 ← mk_and rw [c1; c2]; and2 ← mk_and rw [c3; c4]; mk_or rw [and1; and2])
    (fun r => same_bool r (fun I => bval I c1 && bval I c2 || bval I c3 && bval I c4)).
Proof.
  intros B1 B2 B3 B4. eapply spec_bind; [by apply mk_and2_ok|]. intros a1 [Ba1 Va1].
  eapply spec_bind; [by apply mk_and2_ok|]. intros a2 [Ba2 Va2].
  eapply spec_mono; [by apply mk_or2_ok|]. intros r Hr. eapply same_bool_ext; [exact Hr|].
  intros I. cbv beta. by rewrite Va1, Va2.
Qed.

Lemma ite_then_rules_ok c t e s :
  boolx c -> get_sort t = Some s -> get_sort e = Some s ->
  rule_ok (ite_then_rules rw c t e) (core_means s (fun I => eval I (m.mk_ite c t e))).
Proof.
  intros Bc Ht He. unfold ite_then_rules.
  destruct (m.is_ite t) as [[[c2 t1] t2]|] eqn:E; [|done]. recog.
  apply get_sort_ite in Ht as (Bc2 & Ht1 & Ht2).
  destruct (mk_not_ok rw c Bc) as [Bn Vn]. destruct (mk_not_ok rw c2 Bc2) as [Bn2 Vn2].
  case_bool_decide; [subst; eapply rewrite1_ok; [by apply mk_and2_ok|done|done|]|].
  { intros I. rewrite !eval_ite, Vn2. by destruct (bval I c), (bval I c2). }
  case_bool_decide; [subst; eapply rewrite1_ok; [by apply mk_and2_ok|done|done|]|].
  { intros I. rewrite !eval_ite. by destruct (bval I c), (bval I c2). }
  destruct (m.is_ite e) as [[[c3 e1] e2]|] eqn:E'; [|done]. recog.
  apply get_sort_ite in He as (Bc3 & He1 & He2). destruct (mk_not_ok rw c3 Bc3) as [Bn3 Vn3].
  destruct (bool_decide (t1 = e1) && bool_decide (t2 = e2)) eqn:E1.
  { recog. eapply rewrite1_ok; [by apply or_of_ands_ok|done|done|].
    intros I. rewrite !eval_ite, Vn. by destruct (bval I c), (bval I c2), (bval I c3). }
  destruct (bool_decide (t1 = e2) && bool_decide (t2 = e1)) eqn:E2; [|done].
  recog. eapply rewrite1_ok; [by apply or_of_ands_ok|done|done|].
  intros I. rewrite !eval_ite, Vn, Vn3. by destruct (bval I c), (bval I c2), (bval I c3).
Qed.

Lemma ite_else_rules_ok c t e s :
  boolx c -> get_sort t = Some s -> get_sort e = Some s ->
  rule_ok (ite_else_rules rw c t e) (core_means s (fun I => eval I (m.mk_ite c t e))).
Proof.
  intros Bc Ht He. unfold ite_else_rules.
  destruct (m.is_ite e) as [[[c2 e1] e2]|] eqn:E; [|done]. recog.
  apply get_sort_ite in He as (Bc2 & He1 & He2). destruct (mk_not_ok rw c2 Bc2) as [Bn2 Vn2].
  case_bool_decide; [subst; eapply rewrite1_ok; [by apply mk_or2_ok|done|done|]|].
  { intros I. rewrite !eval_ite. by destruct (bval I c), (bval I c2). }
  case_bool_decide; [subst; eapply rewrite1_ok; [by apply mk_or2_ok|done|done|]|done].
  intros I. rewrite !eval_ite, Vn2. by destruct (bval I c), (bval I c2).
Qed.

Lemma core_bool_means v w r :
  (forall I, VBool (v I) = w I) -> core_bool v r -> core_means BOOL_SORT w r.
Proof.
  intros E. destruct r as [[st r]|]; [|done]. intros [Br Vr]. split; [done|].
  intros I. by rewrite (boolx_eval I r Br), Vr.
Qed.

Lemma mk_ite_core_ok c0 t0 e0 s :
  get_sort (m.mk_ite c0 t0 e0) = Some s ->
  spec (mk_ite_core rw c0 t0 e0) (core_means s (fun I => eval I (m.mk_ite c0 t0 e0))).
Proof.
  intros Hs0. unfold mk_ite_core. pose proof (ite_prepare_ok c0 t0 e0) as H0.
  destruct (ite_prepare c0 t0 e0) as [[[c t] e] s0].
  destruct (H0 s Hs0) as [Hs V0]. pose proof Hs as (Bc & Ht & He)%get_sort_ite.
  assert (Hext : forall r, core_means s (fun I => eval I (m.mk_ite c t e)) r ->
            core_means s (fun I => eval I (m.mk_ite c0 t0 e0)) r).
  { intros [[st r]|]; [|done]. intros [Sr Vr]. split; [done|]. intros I. by rewrite Vr. }
  assert (Hret : forall st r, get_sort r = Some s -> (forall I, eval I r = eval I (m.mk_ite c t e)) ->
            spec (mret (Some (st, r))) (core_means s (fun I => eval I (m.mk_ite c0 t0 e0)))).
  { intros st r Hr Vr. apply spec_ret, Hext. by split. }
  destruct (m.is_true c) eqn:E1; recog; [by apply Hret|].
  destruct (m.is_false c) eqn:E2; recog; [by apply Hret|].
  case_bool_decide.
  { subst. apply Hret; [done|]. intros I. rewrite eval_ite. by destruct (bval I c). }
  assert (Hr : rule_ok (first_rule (if m.is_bool t then mk_bool_ite rw c t e else None)
       (first_rule (if m_ite_extra_rules rw && m_elim_ite rw then ite_then_rules rw c t e else None)
          (if m_ite_extra_rules rw && m_elim_ite rw then ite_else_rules rw c t e else None)))
       (core_means s (fun I => eval I (m.mk_ite c t e)))).
  { apply first_rule_ok; [|apply first_rule_ok].
    - destruct (m.is_bool t) eqn:Bt; [|done]. recog. unfold boolx in Bt. rewrite Bt in Ht.
      injection Ht as <-. pose proof (mk_bool_ite_ok c t e Bc Bt He) as Hb.
      destruct (mk_bool_ite rw c t e) as [k|]; [|done]. eapply spec_mono; [exact Hb|].
      intros r. apply core_bool_means. intros I.
      rewrite eval_ite, (boolx_eval I t Bt), (boolx_eval I e He). by destruct (bval I c).
    - destruct (_ && _); [|done]. by apply ite_then_rules_ok.
    - destruct (_ && _); [|done]. by apply ite_else_rules_ok. }
  destruct (first_rule _ _) as [k|].
  - eapply spec_mono; [exact Hr|exact Hext].
  - destruct s0; [by apply Hret|by apply spec_ret].
Qed.

Lemma mk_ite_ok c t e s :
  get_sort (m.mk_ite c t e) = Some s ->
  spec (mk_ite rw c t e)
    (fun r => get_sort r = Some s /\ forall I, eval I r = eval I (m.mk_ite c t e)).
Proof.
  intros Hs. eapply spec_bind; [by apply mk_ite_core_ok|].
  intros [[st r]|] Hr; by apply spec_ret.
Qed.

Lemma mk_ite_bool_ok c t e :
  boolx c -> boolx t -> boolx e ->
  spec (mk_ite rw c t e) (fun r => same_bool r (fun I => if bval I c then bval I t else bval I e)).
Proof.
  intros Bc Bt Be. eapply spec_mono; [apply (mk_ite_ok c t e BOOL_SORT), get_sort_ite; auto|].
  intros r [Sr Vr]. split; [done|]. intros I. unfold bval at 1. rewrite Vr. apply bval_ite.
Qed.

(** ** [mk_app] *)

Lemma core_means_same o args s v r :
  s = BOOL_SORT -> (forall I, VBool (v I) = eval I (App o args)) -> core_bool v r ->
  core_means s (fun I => eval I (App o args)) r.
Proof. intros -> E. by apply core_bool_means. Qed.

Lemma mk_app_core_ok o args s :
  get_sort (App o args) = Some s ->
  spec (mk_app_core rw o args) (core_means s (fun I => eval I (App o args))).
Proof.
  intros Hs.
  assert (Hfail : spec (mret None) (core_means s (fun I => eval I (App o args)))) by by apply spec_ret.
  destruct o; try exact Hfail; simpl.
  - (* OP_EQ *)
    destruct args as [|a [|b [|]]]; try exact Hfail.
    pose proof Hs as (-> & u & Ha & Hb)%get_sort_eq. apply spec_ret.
    apply (core_means_same _ _ _ (fun I => bval I (m.mk_eq a b))); [done..|].
    destruct (mk_eq_core rw a b) as [[st r]|] eqn:E; [|done]. by eapply mk_eq_core_ok.
  - (* OP_DISTINCT *)
    apply spec_ret. pose proof (mk_distinct_core_ok rw args) as Hd.
    destruct (mk_distinct_core rw args) as [[st r]|]; [|done]. by apply Hd.
  - (* OP_ITE *)
    destruct args as [|c [|t [|e [|]]]]; try exact Hfail. by apply mk_ite_core_ok.
  - (* OP_AND *)
    pose proof Hs as [-> Ha]%get_sort_and. eapply spec_mono; [by apply mk_and_core_ok|].
    intros r. apply core_means_same; [done|]. intros I. by rewrite <- bval_and.
  - (* OP_OR *)
    pose proof Hs as [-> Ha]%get_sort_or. eapply spec_mono; [by apply mk_or_core_ok|].
    intros r. apply core_means_same; [done|]. intros I. by rewrite <- bval_or.
  - (* OP_XOR *)
    pose proof Hs as [-> Ha]%(get_sort_all_bool OP_XOR args s); [|done].
    destruct args as [|a [|b [|]]]; try exact Hfail; inv_Forall.
    + apply spec_ret. split; [done|]. intros I. rewrite eval_app by done. simpl.
      rewrite xorb_false_r. by apply boolx_eval.
    + apply spec_ret. apply (core_means_same _ _ _ (fun I => xorb (bval I a) (bval I b))); [done| |].
      * intros I. rewrite eval_app by done. simpl. by rewrite xorb_false_r.
      * by apply mk_xor_ok.
  - (* OP_NOT *)
    destruct args as [|a [|]]; try exact Hfail.
    pose proof Hs as [-> Ha]%get_sort_not. apply spec_ret.
    apply (core_means_same _ _ _ (fun I => negb (bval I a))); [done..|].
    destruct (mk_not_core rw a) as [[st r]|] eqn:E; [|done]. by eapply mk_not_core_ok.
  - (* OP_IMPLIES *)
    destruct args as [|a [|b [|]]]; try exact Hfail.
    assert (Hb : s = BOOL_SORT /\ boolx a /\ boolx b).
    { revert Hs. rewrite get_sort_app. unfold boolx. simpl.
      destruct (get_sort a) as [[| |]|]; simpl; try done;
        destruct (get_sort b) as [[| |]|]; simpl; naive_solver. }
    destruct Hb as (-> & Ba & Bb). destruct (mk_not_ok rw a Ba) as [Bn Vn].
    eapply spec_mono; [apply done_ok; by apply mk_or2_ok|].
    intros r. apply core_means_same; [done|]. intros I. rewrite eval_app by done. simpl.
    rewrite Vn. f_equal. unfold bval. by destruct (truth (eval I a)).
Qed.

Lemma mk_app_ok o args s :
  get_sort (App o args) = Some s ->
  spec (mk_app rw o args)
    (fun r => get_sort r = Some s /\ forall I, eval I r = eval I (App o args)).
Proof.
  intros Hs. eapply spec_bind; [by apply mk_app_core_ok|].
  intros [[st r]|] Hr; by apply spec_ret.
Qed.
End Ite.
