(* ===== verification/BlasterCfg.v ===== *)
(** * BlasterCfg: the two configurations of the bit-blaster

    [blaster_cfg] of [ast/rewriter/bit_blaster/bit_blaster_rewriter.cpp] and
    [bit_blaster_cfg] of [ast/rewriter/bit_blaster/bit_blaster.cpp] build the
    gates with [bool_rewriter].  Both meet the interface [GatesOk]. *)
From Stdlib Require Import ZArith Lia.
From stdpp Require Import base list.
From S2P Require Import Prelude Bits Ast AstFacts TermFacts Gates Blast BlastFacts.
From S2P Require Import BoolRewriter BoolRewriterSound BoolRewriterOr BoolRewriterApp.

(** The ternary gates of the bit-vector family. *)
Lemma boolx_xor3 a b c : boolx a -> boolx b -> boolx c -> boolx (App OP_XOR3 [a; b; c]).
Proof. unfold boolx. intros Ha Hb Hc. rewrite get_sort_app. simpl. by rewrite Ha, Hb, Hc. Qed.

Lemma boolx_carry a b c : boolx a -> boolx b -> boolx c -> boolx (App OP_CARRY [a; b; c]).
Proof. unfold boolx. intros Ha Hb Hc. rewrite get_sort_app. simpl. by rewrite Ha, Hb, Hc. Qed.

Lemma bval_xor3 I a b c :
  bval I (App OP_XOR3 [a; b; c]) = xorb (bval I a) (xorb (bval I b) (bval I c)).
Proof. reflexivity. Qed.

Lemma bval_carry I a b c : bval I (App OP_CARRY [a; b; c]) = maj (bval I a) (bval I b) (bval I c).
Proof. reflexivity. Qed.

(** The constructors that both classes forward to [bool_rewriter] with the
    same arguments. *)
Section Forwarded.
Context `{Env} (rw : bool_rewriter).

Lemma spec_pure (r : expr) v : same_bool r v -> computes (mret r) v.
Proof. intros Hr. by apply spec_ret. Qed.

Lemma forward_and a b : boolx a -> boolx b ->
  computes (BoolRewriter.mk_and rw [a; b]) (fun I => bval I a && bval I b).
Proof. apply mk_and2_ok. Qed.

Lemma forward_or3 a b c : boolx a -> boolx b -> boolx c ->
  computes (BoolRewriter.mk_or rw [a; b; c]) (fun I => bval I a || bval I b || bval I c).
Proof.
  intros. eapply computes_ext; [apply mk_or_ok; auto|]. intros I. simpl.
  by rewrite orb_false_r, orb_assoc.
Qed.

Lemma forward_nand a b : boolx a -> boolx b ->
  computes (BoolRewriter.mk_nand rw [a; b]) (fun I => negb (bval I a && bval I b)).
Proof.
  intros. eapply computes_ext; [apply mk_nand_ok; auto|]. intros I. simpl. by rewrite andb_true_r.
Qed.

Lemma forward_nor a b : boolx a -> boolx b ->
  computes (BoolRewriter.mk_nor rw [a; b]) (fun I => negb (bval I a || bval I b)).
Proof.
  intros. eapply computes_ext; [apply mk_nor_ok; auto|]. intros I. simpl. by rewrite orb_false_r.
Qed.

(** A carry from three conjunctions. *)
Lemma carry_from_ands a b c : boolx a -> boolx b -> boolx c ->
  computes
    (t1 ← BoolRewriter.mk_and rw [a; b];
     t2 ← BoolRewriter.mk_and rw [a; c];
     t3 ← BoolRewriter.mk_and rw [b; c];
     BoolRewriter.mk_or rw [t1; t2; t3])
    (fun I => maj (bval I a) (bval I b) (bval I c)).
Proof.
  intros Ba Bb Bc. eapply spec_bind; [by apply forward_and|]. intros t1 [B1 V1].
  eapply spec_bind; [by apply forward_and|]. intros t2 [B2 V2].
  eapply spec_bind; [by apply forward_and|]. intros t3 [B3 V3].
  eapply computes_ext; [by apply forward_or3|]. intros I. cbv beta. by rewrite V1, V2, V3.
Qed.

Lemma same_xor a b va vb : same_bool a va -> same_bool b vb ->
  same_bool (BoolRewriter.mk_xor rw a b) (fun I => xorb (va I) (vb I)).
Proof.
  intros [Ba Va] [Bb Vb]. eapply same_bool_ext; [by apply mk_xor_ok|]. intros I. cbv beta.
  by rewrite Va, Vb.
Qed.
End Forwarded.

(** ** [struct blaster_cfg] *)

Module blaster_cfg.
Section Cfg.
Context (m_rewriter : bool_rewriter).

Definition mk_xor (a b : expr) : M expr := mret (BoolRewriter.mk_xor m_rewriter a b).

Definition mk_xor3 (a b c : expr) : M expr := tmp ← mk_xor b c; mk_xor a tmp.

Definition mk_carry (a b c : expr) : M expr :=
  t1 ← BoolRewriter.mk_and m_rewriter [a; b];
  t2 ← BoolRewriter.mk_and m_rewriter [a; c];
  t3 ← BoolRewriter.mk_and m_rewriter [b; c];
  BoolRewriter.mk_or m_rewriter [t1; t2; t3].

Definition gates : Gates := {|
  Gates.mk_xor := mk_xor;
  Gates.mk_xor3 := mk_xor3;
  Gates.mk_carry := mk_carry;
  Gates.mk_iff a b := mret (BoolRewriter.mk_iff m_rewriter a b);
  Gates.mk_and := BoolRewriter.mk_and m_rewriter;
  Gates.mk_or := BoolRewriter.mk_or m_rewriter;
  Gates.mk_not a := mret (BoolRewriter.mk_not m_rewriter a);
  Gates.mk_ite := BoolRewriter.mk_ite m_rewriter;
  Gates.mk_nand a b := BoolRewriter.mk_nand m_rewriter [a; b];
  Gates.mk_nor a b := BoolRewriter.mk_nor m_rewriter [a; b];
|}.

Lemma xor_xor_ok `{Env} a b c : boolx a -> boolx b -> boolx c ->
  computes (mk_xor3 a b c) (fun I => xorb (xorb (bval I a) (bval I b)) (bval I c)).
Proof.
  intros Ba Bb Bc. apply spec_pure. eapply same_bool_ext.
  { apply same_xor; [by apply same_bool_refl|]. by apply same_xor; apply same_bool_refl. }
  intros I. by rewrite xorb_assoc.
Qed.

Global Instance gates_ok `{Env} : GatesOk gates.
Proof.
  split; intros; cbn.
  - apply spec_pure. by apply mk_xor_ok.
  - by apply xor_xor_ok.
  - by apply carry_from_ands.
  - apply spec_pure. by apply mk_eq_bool_ok.
  - by apply mk_and_ok.
  - by apply mk_or_ok.
  - apply spec_pure. by apply mk_not_ok.
  - by apply mk_ite_bool_ok.
  - by apply forward_nand.
  - by apply forward_nor.
Qed.
End Cfg.

(** The constructor of [class blaster]. *)
Definition blaster : bool_rewriter := set_elim_and true (set_flat false default_params).
End blaster_cfg.

(** ** [class bit_blaster_cfg] *)

Module bit_blaster_cfg.
Section Cfg.
Context (m_rw : bool_rewriter) (m_bb_ext_gates : bool).
(** [ast::get_id]: the manager numbers the nodes as it creates them. *)
Context (get_id : expr -> nat).

Definition ast_lt (a b : expr) : bool := (get_id a <? get_id b)%nat.

(** [std::sort] of three nodes; nodes with the same id are the same. *)
Definition sort_args (l1 l2 l3 : expr) : expr * expr * expr :=
  let '(l1, l2) := if ast_lt l2 l1 then (l2, l1) else (l1, l2) in
  if ast_lt l3 l1 then (l3, l1, l2)
  else if ast_lt l3 l2 then (l1, l3, l2)
  else (l1, l2, l3).

Definition mk_xor3_ext (l1 l2 l3 : expr) : expr :=
  if bool_decide (l1 = l2) then l3
  else if bool_decide (l1 = l3) then l2
  else if bool_decide (l2 = l3) then l1
  else if m.is_complement l1 l2 then BoolRewriter.mk_not m_rw l3
  else if m.is_complement l1 l3 then BoolRewriter.mk_not m_rw l2
  else if m.is_complement l2 l3 then BoolRewriter.mk_not m_rw l1
  else if m.is_true l1 then BoolRewriter.mk_iff m_rw l2 l3
  else if m.is_false l1 then BoolRewriter.mk_xor m_rw l2 l3
  else if m.is_true l2 then BoolRewriter.mk_iff m_rw l1 l3
  else if m.is_false l2 then BoolRewriter.mk_xor m_rw l1 l3
  else if m.is_true l3 then BoolRewriter.mk_iff m_rw l1 l2
  else if m.is_false l3 then BoolRewriter.mk_xor m_rw l1 l2
  else App OP_XOR3 [l1; l2; l3].

Definition mk_xor3 (l1 l2 l3 : expr) : M expr :=
  let '(l1, l2, l3) := sort_args l1 l2 l3 in
  if m_bb_ext_gates then mret (mk_xor3_ext l1 l2 l3)
  else
    let t := BoolRewriter.mk_xor m_rw l1 l2 in
    mret (BoolRewriter.mk_xor m_rw t l3).

Definition mk_carry_ext (l1 l2 l3 : expr) : M expr :=
  if (m.is_false l1 && m.is_false l2) || (m.is_false l1 && m.is_false l3)
     || (m.is_false l2 && m.is_false l3) then mret m.mk_false
  else if (m.is_true l1 && m.is_true l2) || (m.is_true l1 && m.is_true l3)
     || (m.is_true l2 && m.is_true l3) then mret m.mk_true
  else if bool_decide (l1 = l2) && bool_decide (l1 = l3) then mret l1
  else if m.is_false l1 then BoolRewriter.mk_and m_rw [l2; l3]
  else if m.is_false l2 then BoolRewriter.mk_and m_rw [l1; l3]
  else if m.is_false l3 then BoolRewriter.mk_and m_rw [l1; l2]
  else if m.is_true l1 then BoolRewriter.mk_or m_rw [l2; l3]
  else if m.is_true l2 then BoolRewriter.mk_or m_rw [l1; l3]
  else if m.is_true l3 then BoolRewriter.mk_or m_rw [l1; l2]
  else if m.is_complement l1 l2 then mret l3
  else if m.is_complement l1 l3 then mret l2
  else if m.is_complement l2 l3 then mret l1
  else mret (App OP_CARRY [l1; l2; l3]).

Definition mk_carry (l1 l2 l3 : expr) : M expr :=
  let '(l1, l2, l3) := sort_args l1 l2 l3 in
  if m_bb_ext_gates then mk_carry_ext l1 l2 l3
  else
    t1 ← BoolRewriter.mk_and m_rw [l1; l2];
    t2 ← BoolRewriter.mk_and m_rw [l1; l3];
    t3 ← BoolRewriter.mk_and m_rw [l2; l3];
    BoolRewriter.mk_or m_rw [t1; t2; t3].

Definition gates : Gates := {|
  Gates.mk_xor a b := mret (BoolRewriter.mk_xor m_rw a b);
  Gates.mk_xor3 := mk_xor3;
  Gates.mk_carry := mk_carry;
  Gates.mk_iff a b := mret (BoolRewriter.mk_iff m_rw a b);
  Gates.mk_and := BoolRewriter.mk_and m_rw;
  Gates.mk_or := BoolRewriter.mk_or m_rw;
  Gates.mk_not a := mret (BoolRewriter.mk_not m_rw a);
  Gates.mk_ite := BoolRewriter.mk_ite m_rw;
  Gates.mk_nand a b := BoolRewriter.mk_nand m_rw [a; b];
  Gates.mk_nor a b := BoolRewriter.mk_nor m_rw [a; b];
|}.

(** ** Correctness *)

(** Sorting permutes the arguments. *)
Lemma sort_args_perm l1 l2 l3 :
  let '(a, b, c) := sort_args l1 l2 l3 in [a; b; c] ≡ₚ [l1; l2; l3].
Proof.
  unfold sort_args. destruct (ast_lt l2 l1), (ast_lt l3 _); try destruct (ast_lt l3 _); solve_Permutation.
Qed.

(** A gate that is right on any order and symmetric is right after sorting. *)
Lemma sorted_gate `{Env} (gate : expr -> expr -> expr -> M expr) (f : bool -> bool -> bool -> bool) :
  (forall a b c, boolx a -> boolx b -> boolx c ->
    computes (gate a b c) (fun I => f (bval I a) (bval I b) (bval I c))) ->
  (forall x y z, f y x z = f x y z /\ f x z y = f x y z) ->
  forall a b c, boolx a -> boolx b -> boolx c ->
    computes (let '(a, b, c) := sort_args a b c in gate a b c)
      (fun I => f (bval I a) (bval I b) (bval I c)).
Proof.
  intros Hg Hf a b c Ba Bb Bc.
  assert (S1 : forall x y z, f y x z = f x y z) by apply Hf.
  assert (S2 : forall x y z, f x z y = f x y z) by apply Hf.
  unfold sort_args. destruct (ast_lt b a), (ast_lt c _); try destruct (ast_lt c _);
    (eapply computes_ext; [by apply Hg|]); intros I; cbv beta;
    generalize (bval I a) (bval I b) (bval I c); intros x y z;
    first [reflexivity | apply S1 | apply S2 | etransitivity; [apply S1|apply S2]
          | etransitivity; [apply S2|apply S1]
          | etransitivity; [apply S1|etransitivity; [apply S2|apply S1]]].
Qed.

(** The next test of a chain of conditionals, with what it tells. *)
Ltac next_test :=
  match goal with |- context [if ?d then _ else _] => destruct d eqn:? end;
  [ repeat match goal with Hc : _ || _ = true |- _ => apply orb_true_iff in Hc as [Hc|Hc] end;
    repeat match goal with Hc : m.is_complement ?x ?y = true |- _ =>
      pose proof (fun J => is_complement_bval J x y Hc); clear Hc end;
    recog
  | match goal with Hc : _ = false |- _ => clear Hc end ].

(** The truth table of a branch. *)
Ltac table :=
  let I := fresh "I" in intros I; cbv beta; rewrite ?bval_true, ?bval_false;
  repeat match goal with Hc : forall J, bval J ?x = _ |- _ => rewrite (Hc I); clear Hc end;
  repeat match goal with |- context [bval I ?x] => destruct (bval I x) end; reflexivity.

Lemma mk_xor3_ext_ok a b c : boolx a -> boolx b -> boolx c ->
  same_bool (mk_xor3_ext a b c) (fun I => xorb (xorb (bval I a) (bval I b)) (bval I c)).
Proof.
  intros Ba Bb Bc. unfold mk_xor3_ext.
  do 3 (next_test; [eapply same_bool_ext; [apply same_bool_refl; assumption|table]|]).
  do 3 (next_test; [eapply same_bool_ext; [apply mk_not_ok; assumption|table]|]).
  do 3 (next_test; [eapply same_bool_ext; [apply mk_eq_bool_ok; assumption|table]|];
        next_test; [eapply same_bool_ext; [apply mk_xor_ok; assumption|table]|]).
  split; [by apply boolx_xor3|]. intros I. by rewrite bval_xor3, xorb_assoc.
Qed.

Lemma mk_carry_ext_ok `{Env} a b c : boolx a -> boolx b -> boolx c ->
  computes (mk_carry_ext a b c) (fun I => maj (bval I a) (bval I b) (bval I c)).
Proof.
  intros Ba Bb Bc. unfold mk_carry_ext.
  next_test; [apply spec_pure; split; [apply boolx_false|table]..|].
  next_test; [apply spec_pure; split; [apply boolx_true|table]..|].
  next_test; [apply spec_pure; eapply same_bool_ext; [apply same_bool_refl; assumption|table]|].
  do 3 (next_test; [eapply computes_ext; [apply forward_and; assumption|table]|]).
  do 3 (next_test; [eapply computes_ext; [apply mk_or2_ok; assumption|table]|]).
  do 3 (next_test; [apply spec_pure; eapply same_bool_ext; [apply same_bool_refl; assumption|table]|]).
  apply spec_pure. split; [by apply boolx_carry|]. intros I. apply bval_carry.
Qed.

Lemma mk_xor3_ok `{Env} a b c : boolx a -> boolx b -> boolx c ->
  computes (mk_xor3 a b c) (fun I => xorb (xorb (bval I a) (bval I b)) (bval I c)).
Proof.
  apply (sorted_gate (fun a b c => if m_bb_ext_gates then mret (mk_xor3_ext a b c)
    else mret (BoolRewriter.mk_xor m_rw (BoolRewriter.mk_xor m_rw a b) c)) (fun x y z => xorb (xorb x y) z)).
  - clear a b c. intros a b c Ba Bb Bc. destruct m_bb_ext_gates; apply spec_pure; [by apply mk_xor3_ext_ok|].
    apply same_xor; [|by apply same_bool_refl]. by apply mk_xor_ok.
  - intros [] [] []; done.
Qed.

Lemma mk_carry_ok `{Env} a b c : boolx a -> boolx b -> boolx c ->
  computes (mk_carry a b c) (fun I => maj (bval I a) (bval I b) (bval I c)).
Proof.
  apply (sorted_gate (fun a b c => if m_bb_ext_gates then mk_carry_ext a b c
    else t1 ← BoolRewriter.mk_and m_rw [a; b]; t2 ← BoolRewriter.mk_and m_rw [a; c];
         t3 ← BoolRewriter.mk_and m_rw [b; c]; BoolRewriter.mk_or m_rw [t1; t2; t3]) maj).
  - clear a b c. intros a b c Ba Bb Bc.
    destruct m_bb_ext_gates; [by apply mk_carry_ext_ok|by apply carry_from_ands].
  - intros [] [] []; done.
Qed.

Global Instance gates_ok `{Env} : GatesOk gates.
Proof.
  split; intros; cbn.
  - apply spec_pure. by apply mk_xor_ok.
  - by apply mk_xor3_ok.
  - by apply mk_carry_ok.
  - apply spec_pure. by apply mk_eq_bool_ok.
  - by apply mk_and_ok.
  - by apply mk_or_ok.
  - apply spec_pure. by apply mk_not_ok.
  - by apply mk_ite_bool_ok.
  - by apply forward_nand.
  - by apply forward_nor.
Qed.
End Cfg.
End bit_blaster_cfg.
