(* ===== verification/BlastRewriter.v ===== *)
(** * BlastRewriter: the bit-blasting rewriter

    Models [blaster_rewriter_cfg] of
    [ast/rewriter/bit_blaster/bit_blaster_rewriter.cpp]: the map from
    bit-vector constants to their bits with its scopes, and [reduce_app], which
    replaces one application of a bit-vector operator by a circuit.

    Vectors used as stacks are lists with the top at the end.  A function
    declaration of arity 0 is its name and its range.  The cases of the code
    over operators that [Ast.op] lacks ([bv2int], [int2bv]) are absent. *)
From Stdlib Require Import ZArith Lia.
From stdpp Require Import base list countable fin_maps gmap.
From S2P Require Import Prelude Bits UBits Ast BvUtil AstFacts TermFacts Gates Blast.

(** ** Declarations as map keys *)

Global Instance sort_countable : Countable sort.
Proof.
  refine (inj_countable'
    (fun s => match s with
              | BOOL_SORT => inl (inl tt) | BV_SORT n => inl (inr n) | USORT i => inr i
              end)
    (fun x => match x with
              | inl (inl _) => BOOL_SORT | inl (inr n) => BV_SORT n | inr i => USORT i
              end) _).
  by intros [].
Defined.

Global Instance sort_inhabited : Inhabited sort := populate BOOL_SORT.

Module blaster_rewriter_cfg.
(** A declaration of arity 0. *)
Definition decl : Type := nat * sort.

Definition decl_const (f : decl) : expr := Ast.mk_const f.1 f.2.

(** [m_fresh_id] belongs to the [ast_manager]. *)
Record state := mk_state {
  m_const2bits : gmap decl expr;
  m_keys : list decl;
  m_values : list expr;
  m_keyval_lim : list nat;
  m_newbits : list decl;
  m_newbits_lim : list nat;
  m_keypos : nat;
  m_fresh_id : nat;
}.

Record params := {
  m_blast_mul : bool;
  m_blast_add : bool;
  m_blast_full : bool;
  m_max_steps : Z;        (* unsigned *)
}.

(** ** Scopes *)

Definition push (s : state) : state :=
  mk_state (m_const2bits s) (m_keys s) (m_values s) (m_keyval_lim s ++ [length (m_keys s)])
    (m_newbits s) (m_newbits_lim s ++ [length (m_newbits s)]) (m_keypos s) (m_fresh_id s).

Definition get_num_scopes (s : state) : nat := length (m_keyval_lim s).

(** [for (i = keys.size(); i > lim; ) { --i; map.remove(keys[i]); }]. *)
Definition remove_keys (lim : nat) (keys : list decl) (map : gmap decl expr) : gmap decl expr :=
  pure_for 0 (length keys - lim) (fun k map => delete (keys !!! (length keys - 1 - k)%nat) map) map.

Definition pop (num_scopes : nat) (s : state) : state :=
  if (0 <? num_scopes)%nat then
    let new_sz := (length (m_keyval_lim s) - num_scopes)%nat in
    let lim := m_keyval_lim s !!! new_sz in
    let nlim := m_newbits_lim s !!! new_sz in
    mk_state (remove_keys lim (m_keys s) (m_const2bits s)) (take lim (m_keys s)) (take lim (m_values s))
      (take new_sz (m_keyval_lim s)) (take nlim (m_newbits s)) (take new_sz (m_newbits_lim s))
      (m_keypos s) (m_fresh_id s)
  else s.

Definition start_rewrite (s : state) : state :=
  mk_state (m_const2bits s) (m_keys s) (m_values s) (m_keyval_lim s)
    (m_newbits s) (m_newbits_lim s) (length (m_keys s)) (m_fresh_id s).

(** The entries made since [start_rewrite], added to the caller's map, and all
    the new bits, appended to the caller's vector. *)
Definition end_rewrite (s : state) (const2bits : gmap decl expr) (newbits : list decl)
    : gmap decl expr * list decl :=
  (pure_for (m_keypos s) (length (m_keys s))
     (fun i map => <[m_keys s !!! i := m_values s !!! i]> map) const2bits,
   newbits ++ m_newbits s).

(** ** Bits of terms *)

Definition mk_mkbv (bits : list expr) : expr := App OP_MKBV bits.

Definition bit2bool (i : nat) (t : expr) : expr := App (OP_BIT2BOOL i) [t].

Definition get_bits (t : expr) : list expr :=
  match t with
  | App OP_MKBV args => args
  | _ => map (fun i => bit2bool i t) (seq 0 (get_bv_size t))
  end.

Definition blast_bv_term (t : expr) : expr :=
  mk_mkbv (map (fun i => bit2bool i t) (seq 0 (get_bv_size t))).

(** [ast_manager::mk_fresh_const(nullptr, b)]. *)
Definition mk_fresh_bit (s : state) : decl * state :=
  ((m_fresh_id s, BOOL_SORT),
   mk_state (m_const2bits s) (m_keys s) (m_values s) (m_keyval_lim s)
     (m_newbits s ++ [(m_fresh_id s, BOOL_SORT)]) (m_newbits_lim s) (m_keypos s) (S (m_fresh_id s))).

Definition mk_const (f : decl) (s : state) : expr * state :=
  match m_const2bits s !! f with
  | Some r => (r, s)
  | None =>
      let bv_size := match f.2 with BV_SORT n => n | _ => O end in
      let '(m_out, s) := pure_for 0 bv_size (fun _ '(m_out, s) =>
        let '(d, s) := mk_fresh_bit s in (m_out ++ [decl_const d], s)) ([], s) in
      let r := mk_mkbv m_out in
      (r, mk_state (<[f := r]> (m_const2bits s)) (m_keys s ++ [f]) (m_values s ++ [r])
            (m_keyval_lim s) (m_newbits s) (m_newbits_lim s) (m_keypos s) (m_fresh_id s))
  end.

(** ** One application *)

Section Reduce.
Context `{Env} {G : Gates} (m_use_wtm m_use_bcm : bool) (cfg : params).

(** [MK_UNARY_REDUCE], [MK_BIN_REDUCE], [MK_BIN_PRED_REDUCE]. *)
Definition mk_unary_reduce (BB_OP : nat -> list expr -> M (list expr)) (arg : expr) : M expr :=
  let m_in1 := get_bits arg in
  m_out ← BB_OP (length m_in1) m_in1;
  mret (mk_mkbv m_out).

Definition mk_bin_reduce (BB_OP : nat -> list expr -> list expr -> M (list expr)) (arg1 arg2 : expr)
    : M expr :=
  let m_in1 := get_bits arg1 in
  let m_in2 := get_bits arg2 in
  m_out ← BB_OP (length m_in1) m_in1 m_in2;
  mret (mk_mkbv m_out).

Definition mk_bin_pred_reduce (BB_OP : nat -> list expr -> list expr -> M expr) (arg1 arg2 : expr)
    : M expr :=
  let m_in1 := get_bits arg1 in
  let m_in2 := get_bits arg2 in
  BB_OP (length m_in1) m_in1 m_in2.

(** [MK_BIN_AC_REDUCE]: from the left. *)
Definition mk_bin_ac_reduce (BB_OP : nat -> list expr -> list expr -> M (list expr)) (args : list expr)
    : M expr :=
  for_range 1 (length args) (fun i result => mk_bin_reduce BB_OP result (args !!! i)) (args !!! 0%nat).

Definition reduce_add := mk_bin_ac_reduce mk_adder.
Definition reduce_mul := mk_bin_ac_reduce (mk_multiplier m_use_wtm m_use_bcm).
Definition reduce_or := mk_bin_ac_reduce mk_or_v.
Definition reduce_xor := mk_bin_ac_reduce mk_xor_v.

Definition reduce_sign_extend (arg : expr) (n : nat) : expr :=
  let m_in1 := get_bits arg in mk_mkbv (mk_sign_extend (length m_in1) m_in1 n).

Definition reduce_ite (arg1 arg2 arg3 : expr) : M expr :=
  let m_in1 := get_bits arg2 in
  let m_in2 := get_bits arg3 in
  m_out ← mk_multiplexer arg1 (length m_in1) m_in1 m_in2;
  mret (mk_mkbv m_out).

(** The last argument holds the low bits. *)
Definition reduce_concat (args : list expr) : expr :=
  mk_mkbv (pure_for 0 (length args)
    (fun k m_out => m_out ++ get_bits (args !!! (length args - 1 - k)%nat)) []).

Definition reduce_extract (start end_ : nat) (arg : expr) : expr :=
  let m_in1 := get_bits arg in mk_mkbv (slice start (S end_ - start) m_in1).

Definition reduce_num (v : Z) (bv_sz : nat) : expr := mk_mkbv (num2bits v bv_sz).

(** The operators of the bit-vector family; [None] is [BR_FAILED]. *)
Definition reduce_bv_app (o : op) (args : list expr) : M (option expr) :=
  let done (c : M expr) : M (option expr) := r ← c; mret (Some r) in
  let if_mul (c : M expr) : M (option expr) :=
    if negb (m_blast_mul cfg) then mret None else done c in
  let a := args !!! 0%nat in
  let b := args !!! 1%nat in
  match o with
  | OP_BV_NUM v sz => done (mret (reduce_num v sz))
  | OP_BADD => if negb (m_blast_add cfg) then mret None else done (reduce_add args)
  | OP_BMUL => if_mul (reduce_mul args)
  | OP_BSDIV | OP_BUDIV | OP_BSREM | OP_BUREM | OP_BSMOD =>
      if m_blast_mul cfg then throw ExUnsupported else mret None
  | OP_BSDIV0 | OP_BUDIV0 | OP_BSREM0 | OP_BUREM0 | OP_BSMOD0 => mret None
  | OP_BSDIV_I => if_mul (mk_bin_reduce mk_sdiv a b)
  | OP_BUDIV_I => if_mul (mk_bin_reduce mk_udiv a b)
  | OP_BSREM_I => if_mul (mk_bin_reduce mk_srem a b)
  | OP_BUREM_I => if_mul (mk_bin_reduce mk_urem a b)
  | OP_BSMOD_I => if_mul (mk_bin_reduce mk_smod a b)
  | OP_ULEQ => done (mk_bin_pred_reduce mk_ule a b)
  | OP_SLEQ => done (mk_bin_pred_reduce mk_sle a b)
  | OP_BOR => done (reduce_or args)
  | OP_BNOT => done (mk_unary_reduce mk_not_v a)
  | OP_BXOR => done (reduce_xor args)
  | OP_CONCAT => done (mret (reduce_concat args))
  | OP_SIGN_EXT k => done (mret (reduce_sign_extend a k))
  | OP_EXTRACT hi lo => done (mret (reduce_extract lo hi a))
  | OP_BREDOR => done (mk_unary_reduce mk_redor a)
  | OP_BREDAND => done (mk_unary_reduce mk_redand a)
  | OP_BSHL => done (mk_bin_reduce mk_shl a b)
  | OP_BLSHR => done (mk_bin_reduce mk_lshr a b)
  | OP_BASHR => done (mk_bin_reduce mk_ashr a b)
  | OP_EXT_ROTATE_LEFT => done (mk_bin_reduce mk_ext_rotate_left a b)
  | OP_EXT_ROTATE_RIGHT => done (mk_bin_reduce mk_ext_rotate_right a b)
  | OP_BUMUL_NO_OVFL => done (mk_bin_pred_reduce (mk_umul_no_overflow m_use_wtm m_use_bcm) a b)
  | OP_BSMUL_NO_OVFL => done (mk_bin_pred_reduce (mk_smul_no_overflow m_use_wtm m_use_bcm) a b)
  | OP_BSMUL_NO_UDFL => done (mk_bin_pred_reduce (mk_smul_no_underflow m_use_wtm m_use_bcm) a b)
  | OP_BIT2BOOL _ | OP_MKBV => mret None
  | _ => throw ExUnsupported
  end.

(** The end of [reduce_app], for what is not of the bit-vector family. *)
Definition reduce_other (o : op) (args : list expr) : option expr :=
  let t := App o args in
  if m_blast_full cfg && is_bv t then Some (blast_bv_term t) else None.

Definition reduce_app (o : op) (args : list expr) (s : state) : M (option expr * state) :=
  match o with
  | OP_UNINTERP f [] (BV_SORT n) =>
      let '(r, s) := mk_const (f, BV_SORT n) s in mret (Some r, s)
  | OP_EQ =>
      if is_bv (args !!! 0%nat) then
        r ← mk_bin_pred_reduce mk_eq_v (args !!! 0%nat) (args !!! 1%nat); mret (Some r, s)
      else mret (None, s)
  | OP_ITE =>
      if is_bv (args !!! 1%nat) then
        r ← reduce_ite (args !!! 0%nat) (args !!! 1%nat) (args !!! 2%nat); mret (Some r, s)
      else mret (None, s)
  | _ =>
      match m.family_of o with
      | m.bv_family => r ← reduce_bv_app o args; mret (r, s)
      | _ => mret (reduce_other o args, s)
      end
  end.
End Reduce.
End blaster_rewriter_cfg.
