(* ===== verification/BlastRewriterFacts.v ===== *)
(** * BlastRewriterFacts: each reduction means its operator

    The circuit that [reduce_app] builds for an application has its sort and
    its value, for every operator it supports. *)
From Stdlib Require Import ZArith Lia.
From stdpp Require Import base list fin_maps gmap.
From S2P Require Import Prelude Bits UBits Ast BvUtil AstFacts TermFacts BvTerms Gates Blast BlastFacts BlastAdd.
From S2P Require Import BlastSigned BlastMul BlastShift BlastRewriter.
Import blaster_rewriter_cfg.

Local Open Scope Z_scope.

(** ** Terms of bit-vector sort and their bits *)

Lemma get_sorts_bits l : bits l -> get_sorts l = Some (replicate (length l) BOOL_SORT).
Proof.
  intros Hb. apply get_sorts_Forall2. induction Hb; simpl; constructor; auto.
Qed.

Lemma mkbv_sort n l : (0 < n)%nat -> length l = n -> bits l -> bvx n (mk_mkbv l).
Proof.
  intros Hn L B. unfold bvx, mk_mkbv. rewrite get_sort_app, get_sorts_bits by done. simpl.
  rewrite L. destruct n as [|n]; [lia|]. unfold mk_mkbv. simpl. unfold all_bool.
  rewrite decide_True by (constructor; [done|]; by apply Forall_replicate). simpl.
  by rewrite length_replicate.
Qed.

Lemma mkbv_vn I l : vn I (mk_mkbv l) = uval I (length l) l.
Proof.
  unfold vn, mk_mkbv. rewrite eval_app by done. simpl. unfold uval.
  rewrite ubits_list. f_equal. rewrite map_map. apply list_eq. intros i. rewrite !list_lookup_fmap.
  destruct (decide (i < length l)%nat) as [Hi|Hi].
  - rewrite lookup_seq_lt by done. simpl. destruct (lookup_lt_is_Some_2 l i Hi) as [x Hx].
    rewrite Hx. simpl. unfold bit, bval. by rewrite (list_lookup_total_correct l i x Hx).
  - rewrite lookup_ge_None_2 by lia. by rewrite lookup_seq_ge by lia.
Qed.

(** A circuit's result, as a term. *)
Lemma mkbv_holds n z out : (0 < n)%nat -> makes_num n z out -> holds n z (mk_mkbv out).
Proof.
  intros Hn (L & B & V). split; [by apply mkbv_sort|]. intros I. by rewrite mkbv_vn, L.
Qed.

Lemma bit2bool_boolx n i t : bvx n t -> (i < n)%nat -> boolx (bit2bool i t).
Proof.
  unfold bvx, boolx, bit2bool. intros Ht Hi. rewrite get_sort_app. simpl. rewrite Ht. simpl.
  unfold mk_bit2bool. simpl. by rewrite decide_True.
Qed.

Lemma bit2bool_bval I n i t : bvx n t -> bval I (bit2bool i t) = Z.testbit (vn I t) (Z.of_nat i).
Proof.
  intros Ht. unfold bval, bit2bool. rewrite eval_app by done. simpl. by rewrite (bvx_val I n t Ht).
Qed.

Lemma bit2bools_make n t : bvx n t ->
  makes_num n (fun I => vn I t) (map (fun i => bit2bool i t) (seq 0 n)).
Proof.
  intros Ht. split; [by rewrite length_map, length_seq|]. split.
  - apply Forall_map, Forall_forall. intros i Hi%elem_of_seq. apply (bit2bool_boolx n); [done|lia].
  - intros I. apply ubits_eq; [by apply vn_bounds|]. intros i Hi. unfold bit.
    rewrite lookup_total_map_seq by done. by apply (bit2bool_bval I n).
Qed.


Lemma mkbv_inv n l : bvx n (mk_mkbv l) -> length l = n /\ bits l.
Proof.
  unfold bvx, mk_mkbv. rewrite get_sort_app. destruct (get_sorts l) as [ss|] eqn:E; [|done]. simpl.
  destruct ss as [|s0 ss]; [done|]. unfold Ast.mk_mkbv.
  destruct (all_bool (s0 :: ss)) eqn:Ea; [|done]. cbn [fmap option_fmap option_map]. intros [= <-].
  apply all_bool_inv in Ea as [_ Ha]. split; [|by eapply get_sorts_bool].
  apply get_sorts_Forall2 in E. by apply Forall2_length in E.
Qed.

Lemma get_bits_ok n t : bvx n t -> makes_num n (fun I => vn I t) (get_bits t).
Proof.
  intros Ht. assert (Hd : makes_num n (fun I => vn I t) (map (fun i => bit2bool i t) (seq 0 (get_bv_size t)))).
  { rewrite (get_bv_size_eq n t Ht). by apply bit2bools_make. }
  destruct t as [o args]. destruct o; try exact Hd. clear Hd. simpl.
  destruct (mkbv_inv n args Ht) as [L B]. split; [done|]. split; [done|]. intros I.
  by rewrite <- L, <- mkbv_vn.
Qed.

Lemma blast_bv_term_ok n t : bvx n t -> holds n (fun I => vn I t) (blast_bv_term t).
Proof.
  intros Ht. unfold blast_bv_term. rewrite (get_bv_size_eq n t Ht). apply mkbv_holds; [by apply (bvx_pos n t)|].
  by apply bit2bools_make.
Qed.

(** ** Bitwise operators on values *)

Lemma ubits_bitwise (op : Z -> Z -> Z) (fb : bool -> bool -> bool) f g n :
  (forall a b i, 0 <= i -> Z.testbit (op a b) i = fb (Z.testbit a i) (Z.testbit b i)) ->
  (forall a b, 0 <= a < pow2 n -> 0 <= b < pow2 n -> 0 <= op a b < pow2 n) ->
  ubits (fun i => fb (f i) (g i)) n = op (ubits f n) (ubits g n).
Proof.
  intros Hs Hb. apply ubits_eq; [apply Hb; apply ubits_bounds|]. intros i Hi.
  by rewrite Hs, !ubits_testbit by lia.
Qed.

(** ** The reductions *)

Section Reductions.
Context `{Env} (G : Gates) {OK : GatesOk G} (m_use_wtm m_use_bcm : bool) (cfg : params).

(** A binary circuit that computes [f]. *)
Definition circuit2 (BB_OP : nat -> list expr -> list expr -> M (list expr)) (f : nat -> Z -> Z -> Z) : Prop :=
  forall sz a b, (0 < sz)%nat -> length a = sz -> length b = sz -> bits a -> bits b ->
  spec (BB_OP sz a b) (makes_num sz (fun I => f sz (uval I sz a) (uval I sz b))).

Definition pred2 (BB_OP : nat -> list expr -> list expr -> M expr) (f : nat -> Z -> Z -> bool) : Prop :=
  forall sz a b, (0 < sz)%nat -> bits a -> bits b ->
  computes (BB_OP sz a b) (fun I => f sz (uval I sz a) (uval I sz b)).

Lemma mk_bin_reduce_ok BB_OP f n a b : circuit2 BB_OP f -> bvx n a -> bvx n b ->
  spec (mk_bin_reduce BB_OP a b) (holds n (fun I => f n (vn I a) (vn I b))).
Proof.
  intros Hc Ha Hb. unfold mk_bin_reduce. pose proof (bvx_pos n a Ha) as Hn.
  destruct (get_bits_ok n a Ha) as (La & Ba & Va). destruct (get_bits_ok n b Hb) as (Lb & Bb & Vb).
  rewrite La. eapply spec_bind; [by apply Hc|]. intros out Ho. apply spec_ret.
  eapply holds_ext; [by apply mkbv_holds|]. intros I. cbv beta. by rewrite Va, Vb.
Qed.

Lemma mk_bin_pred_reduce_ok BB_OP f n a b : pred2 BB_OP f -> bvx n a -> bvx n b ->
  computes (mk_bin_pred_reduce BB_OP a b) (fun I => f n (vn I a) (vn I b)).
Proof.
  intros Hc Ha Hb. unfold mk_bin_pred_reduce. pose proof (bvx_pos n a Ha) as Hn.
  destruct (get_bits_ok n a Ha) as (La & Ba & Va). destruct (get_bits_ok n b Hb) as (Lb & Bb & Vb).
  rewrite La. eapply computes_ext; [by apply Hc|]. intros I. cbv beta. by rewrite Va, Vb.
Qed.

Lemma mk_unary_reduce_ok BB_OP f n m a : (0 < m)%nat ->
  (forall a, bits a -> spec (BB_OP n a) (makes_num m (fun I => f (uval I n a)))) -> bvx n a ->
  spec (mk_unary_reduce BB_OP a) (holds m (fun I => f (vn I a))).
Proof.
  intros Hm Hc Ha. unfold mk_unary_reduce. destruct (get_bits_ok n a Ha) as (La & Ba & Va).
  rewrite La. eapply spec_bind; [by apply Hc|]. intros out Ho. apply spec_ret.
  eapply holds_ext; [by apply mkbv_holds|]. intros I. cbv beta. by rewrite Va.
Qed.

(** From the left, one argument at a time. *)
Lemma mk_bin_ac_reduce_ok BB_OP f n a rest : circuit2 BB_OP f -> bvx n a -> Forall (bvx n) rest ->
  spec (mk_bin_ac_reduce BB_OP (a :: rest))
    (holds n (fun I => fold_left (f n) (map (vn I) rest) (vn I a))).
Proof.
  intros Hc Ha Hr. unfold mk_bin_ac_reduce.
  eapply spec_mono.
  { apply (spec_for (fun k r => holds n (fun I => fold_left (f n) (map (vn I) (take (k - 1) rest)) (vn I a)) r));
      [simpl; lia| |].
    - by split.
    - intros k r Hk [Br Vr]. simpl in Hk.
      destruct (lookup_lt_is_Some_2 rest (k - 1)) as [x Hx]; [lia|].
      assert (Ex : (a :: rest) !!! k = x).
      { destruct k as [|k]; [lia|]. simpl in Hx. rewrite Nat.sub_0_r in Hx. simpl.
        by apply list_lookup_total_correct. }
      rewrite Ex. pose proof (Forall_lookup_1 _ _ _ _ Hr Hx) as Hbx.
      eapply spec_mono; [by apply (mk_bin_reduce_ok _ f n)|]. intros r' Hr'.
      eapply holds_ext; [exact Hr'|]. intros I. cbv beta. rewrite Vr.
      replace (S k - 1)%nat with (S (k - 1)) by lia. rewrite (take_S_r _ _ _ Hx), map_app, fold_left_app. done. }
  intros r Hr'. cbn [length] in Hr'. by rewrite take_ge in Hr' by lia.
Qed.

(** ** The circuits of the operators *)

Lemma circuit_add : circuit2 mk_adder bv_add.
Proof. intros sz a b Hs La Lb Ba Bb. by apply mk_adder_ok. Qed.

Lemma circuit_mul : circuit2 (mk_multiplier m_use_wtm m_use_bcm) bv_mul.
Proof. intros sz a b Hs La Lb Ba Bb. by apply mk_multiplier_ok. Qed.

Lemma circuit_bitwise OP opz fb :
  (forall x y, boolx x -> boolx y -> computes (OP x y) (fun I => fb (bval I x) (bval I y))) ->
  (forall a b i, 0 <= i -> Z.testbit (opz a b) i = fb (Z.testbit a i) (Z.testbit b i)) ->
  (forall n a b, 0 <= a < pow2 n -> 0 <= b < pow2 n -> 0 <= opz a b < pow2 n) ->
  circuit2 (mk_binary OP) (fun _ => opz).
Proof.
  intros HO Hs Hb sz a b Hsz La Lb Ba Bb. eapply spec_mono; [by apply (mk_binary_ok OP fb)|].
  intros out Ho. eapply makes_num_ext; [by apply makes_makes_num|]. intros I. by apply ubits_bitwise; [|apply Hb].
Qed.

Lemma circuit_or : circuit2 mk_or_v (fun _ => Z.lor).
Proof.
  apply (circuit_bitwise _ Z.lor orb); [by apply (mk_or2_computes G)|intros; apply Z.lor_spec|].
  intros n a b. apply lor_bound.
Qed.

Lemma circuit_xor : circuit2 mk_xor_v (fun _ => Z.lxor).
Proof.
  apply (circuit_bitwise _ Z.lxor xorb); [apply mk_xor_computes|intros; apply Z.lxor_spec|].
  intros n a b. apply lxor_bound.
Qed.

Lemma rotate_value_mod Left n x b : (0 < n)%nat -> 0 <= b ->
  rotate_value n Left x (Z.to_nat (b mod Z.of_nat n)) = rotate_value n Left x (Z.to_nat b).
Proof.
  intros Hn Hb. rewrite Z2Nat.inj_mod, Nat2Z.id by lia.
  unfold rotate_value, bv_rotr, bv_rotl. by rewrite Nat.Div0.mod_mod.
Qed.

Lemma circuit_ext_rotate Left : circuit2 (mk_ext_rotate_left_right Left)
  (fun n a b => rotate_value n Left a (Z.to_nat (b mod Z.of_nat n))).
Proof.
  intros sz a b Hs La Lb Ba Bb. eapply spec_mono; [by apply (mk_ext_rotate_left_right_ok G)|].
  intros out Ho. eapply makes_num_ext; [exact Ho|]. intros I. symmetry.
  apply rotate_value_mod; [done|apply uval_bounds].
Qed.

(** ** Reductions of applications *)

(** [c] builds a term with the sort and the value of the application. *)
Definition reduces (o : op) (args : list expr) (c : M expr) : Prop :=
  forall s, get_sort (App o args) = Some s ->
  spec c (fun r => get_sort r = Some s /\ forall I, eval I r = eval I (App o args)).

Lemma args_inv o args s : get_sort (App o args) = Some s ->
  exists ss, get_sorts args = Some ss /\ infer o ss = Some s.
Proof. rewrite get_sort_app. destruct (get_sorts args); simpl; [eauto|done]. Qed.

Lemma args_binary args ss n : get_sorts args = Some ss -> bv_binary ss = Some n ->
  exists a b, args = [a; b] /\ bvx n a /\ bvx n b.
Proof.
  intros Hs%get_sorts_Forall2 ->%bv_binary_inv.
  inversion Hs as [|a ? ? ? Ha Hr]; subst. inversion Hr as [|b ? ? ? Hb Hn]; subst.
  inversion Hn; subst. eauto.
Qed.

Lemma args_unary args ss n : get_sorts args = Some ss -> bv_unary ss = Some n ->
  exists a, args = [a] /\ bvx n a.
Proof.
  intros Hs%get_sorts_Forall2 ->%bv_unary_inv.
  inversion Hs as [|a ? ? ? Ha Hr]; subst. inversion Hr; subst. eauto.
Qed.

Lemma args_same args ss n : get_sorts args = Some ss -> bv_same ss = Some n ->
  exists a rest, args = a :: rest /\ bvx n a /\ Forall (bvx n) rest.
Proof.
  intros Hs (rest & -> & Hr)%bv_same_inv. apply get_sorts_Forall2 in Hs.
  inversion Hs as [|a ? l ? Ha Hl]; subst. exists a, l. split; [done|]. split; [done|].
  apply get_sorts_Forall2 in Hl. by eapply get_sorts_same.
Qed.

(** A term of the right sort and unsigned value has the right value. *)
Lemma holds_eval n e z t : holds n z e -> (forall I, eval I t = VBV n (z I)) ->
  get_sort e = Some (BV_SORT n) /\ forall I, eval I e = eval I t.
Proof. intros [B V] E. split; [done|]. intros I. by rewrite (bvx_val I n e B), V, E. Qed.

Lemma bool_eval e v t : same_bool e v -> (forall I, eval I t = VBool (v I)) ->
  get_sort e = Some BOOL_SORT /\ forall I, eval I e = eval I t.
Proof. intros [B V] E. split; [done|]. intros I. by rewrite (boolx_eval I e B), V, E. Qed.

Lemma reduce_bin o args BB f :
  (forall ss, infer o ss = BV_SORT <$> bv_binary ss) -> (forall vs, eval_op o vs = bvop2 f vs) ->
  (forall g dom rng, o <> OP_UNINTERP g dom rng) -> circuit2 BB f ->
  reduces o args (mk_bin_reduce BB (args !!! 0%nat) (args !!! 1%nat)).
Proof.
  intros Hi He Hu Hc s (ss & Hss & Hs)%args_inv. rewrite Hi in Hs.
  destruct (bv_binary ss) as [n|] eqn:En; [|done]. injection Hs as <-.
  destruct (args_binary _ _ _ Hss En) as (a & b & -> & Ha & Hb).
  eapply spec_mono; [by apply (mk_bin_reduce_ok _ f n)|]. intros r Hr.
  eapply holds_eval; [exact Hr|]. intros I. rewrite eval_app, He by done. simpl.
  by rewrite (bvx_val I n a Ha), (bvx_val I n b Hb).
Qed.

Lemma reduce_pred o args BB f :
  (forall ss, infer o ss = (fun _ => BOOL_SORT) <$> bv_binary ss) -> (forall vs, eval_op o vs = bvpred f vs) ->
  (forall g dom rng, o <> OP_UNINTERP g dom rng) -> pred2 BB f ->
  reduces o args (mk_bin_pred_reduce BB (args !!! 0%nat) (args !!! 1%nat)).
Proof.
  intros Hi He Hu Hc s (ss & Hss & Hs)%args_inv. rewrite Hi in Hs.
  destruct (bv_binary ss) as [n|] eqn:En; [|done]. injection Hs as <-.
  destruct (args_binary _ _ _ Hss En) as (a & b & -> & Ha & Hb).
  eapply spec_mono; [by apply (mk_bin_pred_reduce_ok _ f n)|]. intros r Hr.
  eapply bool_eval; [exact Hr|]. intros I. rewrite eval_app, He by done. simpl.
  by rewrite (bvx_val I n a Ha), (bvx_val I n b Hb).
Qed.

Lemma reduce_ac o args BB f :
  (forall ss, infer o ss = BV_SORT <$> bv_same ss) -> (forall vs, eval_op o vs = bvopn f vs) ->
  (forall g dom rng, o <> OP_UNINTERP g dom rng) -> circuit2 BB f ->
  reduces o args (mk_bin_ac_reduce BB args).
Proof.
  intros Hi He Hu Hc s (ss & Hss & Hs)%args_inv. rewrite Hi in Hs.
  destruct (bv_same ss) as [n|] eqn:En; [|done]. injection Hs as <-.
  destruct (args_same _ _ _ Hss En) as (a & rest & -> & Ha & Hr).
  eapply spec_mono; [by apply (mk_bin_ac_reduce_ok _ f n)|]. intros r Hrr.
  eapply holds_eval; [exact Hrr|]. intros I. rewrite eval_app, He by done. simpl.
  by rewrite (bvx_val I n a Ha), map_map.
Qed.

(** One argument; the width may change from [n] to [m n]. *)
Lemma reduce_un o args BB f m :
  (forall ss, infer o ss = (fun n => BV_SORT (m n)) <$> bv_unary ss) ->
  (forall n a, eval_op o [VBV n a] = VBV (m n) (f n a)) ->
  (forall g dom rng, o <> OP_UNINTERP g dom rng) ->
  (forall n, (0 < n)%nat -> (0 < m n)%nat) ->
  (forall n a, bits a -> spec (BB n a) (makes_num (m n) (fun I => f n (uval I n a)))) ->
  reduces o args (mk_unary_reduce BB (args !!! 0%nat)).
Proof.
  intros Hi He Hu Hm Hc s (ss & Hss & Hs)%args_inv. rewrite Hi in Hs.
  destruct (bv_unary ss) as [n|] eqn:En; [|done]. injection Hs as <-.
  destruct (args_unary _ _ _ Hss En) as (a & -> & Ha).
  eapply spec_mono; [apply (mk_unary_reduce_ok _ (f n) n (m n)); [by apply Hm, (bvx_pos n a)|auto|done]|].
  intros r Hr. eapply holds_eval; [exact Hr|]. intros I. rewrite eval_app by done. simpl map.
  by rewrite (bvx_val I n a Ha), He.
Qed.

Lemma reduce_sign_extend_ok k args :
  reduces (OP_SIGN_EXT k) args (mret (reduce_sign_extend (args !!! 0%nat) k)).
Proof.
  intros s (ss & Hss & Hs)%args_inv. simpl in Hs. unfold get_extend_size in Hs.
  destruct (bv_unary ss) as [n|] eqn:En; [|done]. injection Hs as <-.
  destruct (args_unary _ _ _ Hss En) as (a & -> & Ha). apply spec_ret.
  pose proof (bvx_pos n a Ha) as Hn. destruct (get_bits_ok n a Ha) as (La & Ba & Va).
  unfold reduce_sign_extend. simpl. rewrite La. eapply holds_eval.
  - apply mkbv_holds; [lia|]. by apply mk_sign_extend_ok.
  - intros I. rewrite eval_app by done. simpl. rewrite (bvx_val I n a Ha). by rewrite sval_sgn, Va.
Qed.

Lemma reduce_extract_ok hi lo args :
  reduces (OP_EXTRACT hi lo) args (mret (reduce_extract lo hi (args !!! 0%nat))).
Proof.
  intros s (ss & Hss & Hs)%args_inv. simpl in Hs.
  destruct (get_extract_size hi lo ss) as [k|] eqn:En; [|done]. injection Hs as <-.
  unfold get_extract_size in En. destruct (bv_unary ss) as [n|] eqn:E1; [|done]. simpl in En.
  destruct (decide _) as [Hr|]; [|done]. injection En as <-.
  destruct (args_unary _ _ _ Hss E1) as (a & -> & Ha). apply spec_ret.
  destruct (get_bits_ok n a Ha) as (La & Ba & Va).
  unfold reduce_extract. simpl. replace (S hi - lo)%nat with (hi - lo + 1)%nat by lia.
  eapply holds_eval.
  - apply mkbv_holds; [lia|]. apply makes_makes_num, makes_slice. exact Ba.
  - intros I. rewrite eval_app by done. simpl. rewrite (bvx_val I n a Ha). f_equal.
    rewrite <- Va. unfold uval. rewrite ubits_high_div by lia. rewrite ubits_low_mod by lia. done.
Qed.

Lemma reduce_num_ok v sz args :
  reduces (OP_BV_NUM v sz) args (mret (reduce_num v sz)).
Proof.
  intros s (ss & Hss & Hs)%args_inv. simpl in Hs. destruct ss; [|done].
  destruct (decide _) as [[Hp Hv]|]; [|done]. injection Hs as <-. apply spec_ret.
  eapply holds_eval; [apply mkbv_holds; [done|apply num2bits_makes; lia]|].
  intros I. rewrite eval_app by done. simpl. f_equal. symmetry. by apply Z.mod_small.
Qed.

(** Concatenation, from the last argument. *)
Lemma reduce_concat_bits args ss n : get_sorts args = Some ss -> concat_size ss = Some n ->
  makes_num n (fun I => (vconcat (map (eval I) args)).2)
    (foldr (fun t out => out ++ get_bits t) [] args)
  /\ forall I, (vconcat (map (eval I) args)).1 = n.
Proof.
  revert ss n. induction args as [|a args IH]; intros ss n; simpl.
  { intros [= <-] [= <-]. split; [|done]. split; [done|]. split; [apply bits_nil|]. intros I. apply uval_0. }
  destruct (get_sort a) as [sa|] eqn:Ea; [|done]. simpl.
  destruct (get_sorts args) as [ss'|] eqn:Es; [|done]. simpl. intros [= <-]. simpl.
  destruct sa as [|k|]; try done. destruct (concat_size ss') as [m|] eqn:Em; [|done].
  intros [= <-]. destruct (IH ss' m eq_refl Em) as [(L & B & V) W]. clear IH.
  destruct (get_bits_ok k a Ea) as (La & Ba & Va). split.
  - split; [rewrite length_app; lia|]. split; [by apply bits_app|]. intros I.
    rewrite (bvx_val I k a Ea). simpl. specialize (V I). specialize (W I). specialize (Va I). cbv beta in *.
    destruct (vconcat _) as [m' b] eqn:Ev. simpl in *. subst m'.
    unfold uval. rewrite (ubits_split _ m (k + m)) by lia. replace (k + m - m)%nat with k by lia.
    rewrite (ubits_ext _ (bit I (foldr (fun t out => out ++ get_bits t) [] args)) m)
      by (intros i Hi; apply bit_app_l; lia).
    rewrite (ubits_ext _ (bit I (get_bits a)) k).
    + unfold uval in *. rewrite V, Va. lia.
    + intros i Hi. rewrite bit_app_r by lia. f_equal. lia.
  - intros I. rewrite (bvx_val I k a Ea). simpl. specialize (W I). destruct (vconcat _) as [m' b]. simpl in *. lia.
Qed.

(** The loop of [reduce_concat] runs over the arguments backwards. *)
Lemma concat_loop (g : expr -> list expr) args :
  pure_for 0 (length args) (fun k m_out => m_out ++ g (args !!! (length args - 1 - k)%nat)) []
  = foldr (fun t out => out ++ g t) [] args.
Proof.
  pose proof (pure_for_inv (fun k out => out = foldr (fun t out => out ++ g t) [] (drop (length args - k) args))
    0 (length args) (fun k m_out => m_out ++ g (args !!! (length args - 1 - k)%nat)) []) as P.
  rewrite P; [by rewrite Nat.sub_diag|lia| |].
  - by rewrite Nat.sub_0_r, drop_ge by lia.
  - intros k out Hk ->. destruct (lookup_lt_is_Some_2 args (length args - 1 - k)) as [x Hx]; [lia|].
    replace (length args - S k)%nat with (length args - 1 - k)%nat by lia.
    rewrite (drop_S _ _ _ Hx). simpl. replace (S (length args - 1 - k)) with (length args - k)%nat by lia.
    by rewrite (list_lookup_total_correct _ _ _ Hx).
Qed.

Lemma reduce_concat_ok args : reduces OP_CONCAT args (mret (reduce_concat args)).
Proof.
  intros s Hs0. pose proof Hs0 as (ss & Hss & Hs)%args_inv. simpl in Hs. destruct ss as [|s1 ss]; [done|].
  destruct (concat_size (s1 :: ss)) as [n|] eqn:En; [|done]. injection Hs as <-. apply spec_ret.
  destruct (reduce_concat_bits args _ n Hss En) as [Hm W].
  pose proof (get_sort_bv_pos _ _ Hs0) as Hn. unfold reduce_concat. rewrite concat_loop.
  eapply holds_eval; [by apply mkbv_holds|]. intros I. rewrite eval_app by done. simpl. specialize (W I).
  destruct (vconcat _) as [m b]. simpl in *. by rewrite W.
Qed.

Lemma reduce_ite_ok args s : (exists n, get_sort (args !!! 1%nat) = Some (BV_SORT n)) ->
  get_sort (App OP_ITE args) = Some s ->
  spec (reduce_ite (args !!! 0%nat) (args !!! 1%nat) (args !!! 2%nat))
    (fun r => get_sort r = Some s /\ forall I, eval I r = eval I (App OP_ITE args)).
Proof.
  intros [n Hn] (ss & Hss & Hs)%args_inv. simpl in Hs.
  destruct ss as [|[| |] [|s1 [|s2 [|]]]]; try done. destruct (decide (s1 = s2)) as [<-|]; [|done].
  injection Hs as <-. apply get_sorts_Forall2 in Hss.
  inversion Hss as [|c ? ? ? Hc H1]; subst. inversion H1 as [|t ? ? ? Ht H2]; subst.
  inversion H2 as [|e ? ? ? He H3]; subst. inversion H3; subst. simpl in *.
  rewrite Ht in Hn. injection Hn as ->. unfold reduce_ite.
  destruct (get_bits_ok n t Ht) as (Lt & Bt & Vt). destruct (get_bits_ok n e He) as (Le & Be & Ve).
  rewrite Lt. eapply spec_bind; [by apply (mk_multiplexer_num G)|]. intros out Ho. apply spec_ret.
  eapply holds_eval; [apply mkbv_holds; [by apply (bvx_pos n t)|exact Ho]|].
  intros I. rewrite eval_app by done. simpl. rewrite Vt, Ve. unfold bval.
  destruct (truth (eval I c)); by apply bvx_val.
Qed.

Lemma reduce_eq_ok args s n : get_sort (args !!! 0%nat) = Some (BV_SORT n) ->
  get_sort (App OP_EQ args) = Some s ->
  spec (mk_bin_pred_reduce mk_eq_v (args !!! 0%nat) (args !!! 1%nat))
    (fun r => get_sort r = Some s /\ forall I, eval I r = eval I (App OP_EQ args)).
Proof.
  intros Hn (ss & Hss & Hs)%args_inv. simpl in Hs.
  destruct ss as [|s1 [|s2 [|]]]; try done. destruct (decide (s1 = s2)) as [<-|]; [|done].
  injection Hs as <-. apply get_sorts_Forall2 in Hss.
  inversion Hss as [|a ? ? ? Ha H1]; subst. inversion H1 as [|b ? ? ? Hb H2]; subst.
  inversion H2; subst. simpl in *. rewrite Ha in Hn. injection Hn as ->.
  eapply spec_mono; [apply (mk_bin_pred_reduce_ok _ (fun _ => Z.eqb) n); [|done..]|].
  - intros sz x y _ Bx By. by apply mk_eq_v_ok.
  - intros r Hr. eapply bool_eval; [exact Hr|]. intros I. rewrite eval_app by done. simpl. f_equal.
    rewrite (bvx_val I n a Ha), (bvx_val I n b Hb). apply eq_true_iff_eq.
    rewrite bool_decide_eq_true, Z.eqb_eq. split; [by intros [= ->]|by intros ->].
Qed.

(** ** [reduce_app] *)

(** The operators that raise [throw_unsupported]. *)
Definition unsupported (o : op) : bool :=
  match o with
  | OP_BSDIV | OP_BUDIV | OP_BSREM | OP_BUREM | OP_BSMOD => m_blast_mul cfg
  | OP_BNEG | OP_BSUB | OP_UGEQ | OP_SGEQ | OP_ULT | OP_SLT | OP_UGT | OP_SGT
  | OP_BAND | OP_BNAND | OP_BNOR | OP_BXNOR | OP_ZERO_EXT _ | OP_REPEAT _ | OP_BCOMP
  | OP_ROTATE_LEFT _ | OP_ROTATE_RIGHT _ | OP_XOR3 | OP_CARRY => true
  | _ => false
  end.

(** The result of a reduction, when it is not [BR_FAILED]. *)
Definition reduct (o : op) (args : list expr) (s : sort) (r : option expr) : Prop :=
  forall e, r = Some e -> get_sort e = Some s /\ forall I, eval I e = eval I (App o args).

Lemma reduct_none o args s : spec (mret None) (reduct o args s).
Proof. by apply spec_ret. Qed.

Lemma reduct_done o args s (c : M expr) : reduces o args c -> get_sort (App o args) = Some s ->
  spec (r ← c; mret (Some r)) (reduct o args s).
Proof.
  intros Hc Hs. eapply spec_bind; [by apply Hc|]. intros r Hr. apply spec_ret. by intros ? [= <-].
Qed.

Lemma pred_ule : pred2 mk_ule (fun _ => bv_ule).
Proof. intros sz a b Hs Ba Bb. by apply mk_ule_ok. Qed.

Lemma pred_sle : pred2 mk_sle bv_sle.
Proof. intros sz a b Hs Ba Bb. by apply mk_sle_ok. Qed.

Lemma circuit_signed_div : circuit2 mk_sdiv bv_sdiv.
Proof. intros sz a b Hs La Lb Ba Bb. by apply mk_sdiv_ok. Qed.

Lemma circuit_signed_rem : circuit2 mk_srem bv_srem.
Proof. intros sz a b Hs La Lb Ba Bb. by apply mk_srem_ok. Qed.

Lemma not_values I n a : ubits (fun i => negb (bit I a i)) n = bv_not n (uval I n a).
Proof. unfold bv_not. apply ubits_negb. Qed.

Lemma circuit_not n a : bits a -> spec (mk_not_v n a) (makes_num n (fun I => bv_not n (uval I n a))).
Proof.
  intros Ba. eapply spec_mono; [by apply mk_not_v_ok|]. intros r Hr.
  eapply makes_num_ext; [by apply makes_makes_num|]. intros I. apply not_values.
Qed.

(** The conditions of the configuration select between a reduction and
    [BR_FAILED]. *)
Lemma reduce_bv_app_ok o args s : m.family_of o = m.bv_family -> unsupported o = false ->
  get_sort (App o args) = Some s ->
  spec (reduce_bv_app m_use_wtm m_use_bcm cfg o args) (reduct o args s).
Proof.
  intros Hf Hu Hs. unfold reduce_bv_app. cbv zeta.
  destruct o; try discriminate Hf; try discriminate Hu; try apply reduct_none;
    try (simpl in Hu; rewrite Hu; apply reduct_none);
    try (destruct (negb _); [apply reduct_none|]);
    (apply reduct_done; [|exact Hs]); clear s Hs Hf Hu.
  - apply reduce_num_ok.
  - by apply (reduce_ac _ _ _ bv_add), circuit_add.
  - by apply (reduce_ac _ _ _ bv_mul), circuit_mul.
  - by apply (reduce_bin _ _ _ bv_sdiv), circuit_signed_div.
  - apply (reduce_bin _ _ _ bv_udiv); try done. intros ? ? ? ? ? ? ? ?. by apply mk_udiv_ok.
  - by apply (reduce_bin _ _ _ bv_srem), circuit_signed_rem.
  - apply (reduce_bin _ _ _ bv_urem); try done. intros ? ? ? ? ? ? ? ?. by apply mk_urem_ok.
  - apply (reduce_bin _ _ _ bv_smod); try done. intros ? ? ? ? ? ? ? ?. by apply mk_smod_ok.
  - by apply (reduce_pred _ _ _ (fun _ => bv_ule)), pred_ule.
  - by apply (reduce_pred _ _ _ bv_sle), pred_sle.
  - by apply (reduce_ac _ _ _ (fun _ => Z.lor)), circuit_or.
  - apply (reduce_un _ _ _ bv_not (fun n => n)); try done. apply circuit_not.
  - by apply (reduce_ac _ _ _ (fun _ => Z.lxor)), circuit_xor.
  - apply reduce_concat_ok.
  - apply reduce_sign_extend_ok.
  - apply reduce_extract_ok.
  - apply (reduce_un _ _ _ (fun _ a => Z.b2z (negb (a =? 0))) (fun _ => 1%nat)); try done; [lia|].
    intros n a Ba. by apply mk_redor_ok.
  - apply (reduce_un _ _ _ (fun n a => Z.b2z (a =? pow2 n - 1)) (fun _ => 1%nat)); try done; [lia|].
    intros n a Ba. by apply mk_redand_ok.
  - apply (reduce_bin _ _ _ bv_shl); try done. intros ? ? ? ? ? ? ? ?. by apply mk_shl_ok.
  - apply (reduce_bin _ _ _ bv_lshr); try done. intros ? ? ? ? ? ? ? ?. by apply mk_lshr_ok.
  - apply (reduce_bin _ _ _ bv_ashr); try done. intros ? ? ? ? ? ? ? ?. by apply mk_ashr_ok.
  - apply (reduce_bin _ _ _ _) with (4 := circuit_ext_rotate true); done.
  - apply (reduce_bin _ _ _ _) with (4 := circuit_ext_rotate false); done.
  - apply (reduce_pred _ _ _ bv_umul_no_ovfl); try done. intros ? ? ? ? ? ?. by apply mk_umul_no_overflow_ok.
  - apply (reduce_pred _ _ _ bv_smul_no_ovfl); try done. intros ? ? ? ? ? ?. by apply (mk_smul_core_ok G).
  - apply (reduce_pred _ _ _ bv_smul_no_udfl); try done. intros ? ? ? ? ? ?. by apply (mk_smul_core_ok G).
Qed.

(** The other operators are refused, whatever the arguments. *)
Lemma reduce_bv_app_unsupported o args st0 : unsupported o = true ->
  reduce_bv_app m_use_wtm m_use_bcm cfg o args st0 = Throw ExUnsupported.
Proof. unfold reduce_bv_app, unsupported. destruct o; try discriminate; intros Hu; rewrite ?Hu; reflexivity. Qed.

Lemma reduce_other_ok o args s : get_sort (App o args) = Some s -> reduct o args s (reduce_other cfg o args).
Proof.
  intros Hs e. unfold reduce_other, is_bv. rewrite Hs. destruct (m_blast_full cfg); [|done]. cbn [andb].
  destruct s as [|n|]; try done. intros [= <-].
  eapply holds_eval; [by apply blast_bv_term_ok|]. intros I. by apply bvx_val.
Qed.
End Reductions.
