(* ===== verification/BlastRewriterState.v ===== *)
(** * BlastRewriterState: the constants' bits and their scopes

    The state of [blaster_rewriter_cfg] as a transition system over [mk_const],
    [push], [pop] and [start_rewrite]: its invariant, that [pop] undoes every
    change since the matching [push], and that the fresh bits can always be
    chosen to agree with the constants they stand for. *)
From Stdlib Require Import ZArith Lia.
From stdpp Require Import base list fin_maps gmap relations.
From S2P Require Import Prelude Bits UBits Ast BvUtil AstFacts TermFacts BvTerms Gates Blast BlastFacts.
From S2P Require Import BlastRewriter BlastRewriterFacts.
Import blaster_rewriter_cfg.

(** ** The invariant

    A key's value is [mkbv] of a group of fresh bits, one per position; the new
    bits are the groups in order, and the scope limits of both stacks match. *)

Definition bits_term (ds : list decl) : expr := mk_mkbv (map decl_const ds).

Definition group_ok (f : decl) (ds : list decl) : Prop :=
  exists n, f.2 = BV_SORT n /\ (0 < n)%nat /\ length ds = n.

(** The newest limits are the largest. *)
Definition lims_ok (groups : list (list decl)) (lims nlims : list nat) : Prop :=
  nlims = map (fun l => length (concat (take l groups))) lims
  /\ (forall i l, lims !! i = Some l -> (l <= length groups)%nat)
  /\ (forall i j li lj, (i <= j)%nat -> lims !! i = Some li -> lims !! j = Some lj -> (li <= lj)%nat).

Record wf_with (groups : list (list decl)) (s : state) : Prop := {
  wf_values : m_values s = map bits_term groups;
  wf_groups : Forall2 group_ok (m_keys s) groups;
  wf_keys : NoDup (m_keys s);
  wf_map : m_const2bits s = list_to_map (zip (m_keys s) (m_values s));
  wf_newbits : m_newbits s = concat groups;
  wf_nodup : NoDup (m_newbits s);
  wf_fresh : Forall (fun d => d.2 = BOOL_SORT /\ (d.1 < m_fresh_id s)%nat) (m_newbits s);
  wf_lims : lims_ok groups (m_keyval_lim s) (m_newbits_lim s);
}.

Definition wf (s : state) : Prop := exists groups, wf_with groups s.

(** The state of a new rewriter. *)
Definition init (fresh : nat) : state := mk_state ∅ [] [] [] [] [] 0 fresh.

Inductive step : state -> state -> Prop :=
| step_const (f : decl) n s : f.2 = BV_SORT n -> (0 < n)%nat -> step s (mk_const f s).2
| step_push s : step s (push s)
| step_pop k s : (k <= get_num_scopes s)%nat -> step s (pop k s)
| step_start s : step s (start_rewrite s).

Lemma init_wf fresh : wf (init fresh).
Proof.
  exists []. split; simpl; try done; try constructor.
Qed.

(** ** [mk_const] *)

Definition fresh_group (k n : nat) : list decl := map (fun j => (j, BOOL_SORT)) (seq k n).

Lemma fresh_loop n s :
  pure_for 0 n (fun _ '(m_out, s) =>
    let '(d, s) := mk_fresh_bit s in (m_out ++ [decl_const d], s)) ([], s)
  = (map decl_const (fresh_group (m_fresh_id s) n),
     mk_state (m_const2bits s) (m_keys s) (m_values s) (m_keyval_lim s)
       (m_newbits s ++ fresh_group (m_fresh_id s) n) (m_newbits_lim s) (m_keypos s) (m_fresh_id s + n)).
Proof.
  apply (pure_for_inv (fun k x => x = (map decl_const (fresh_group (m_fresh_id s) k),
     mk_state (m_const2bits s) (m_keys s) (m_values s) (m_keyval_lim s)
       (m_newbits s ++ fresh_group (m_fresh_id s) k) (m_newbits_lim s) (m_keypos s) (m_fresh_id s + k))));
    [lia| |].
  - simpl. rewrite app_nil_r, Nat.add_0_r. by destruct s.
  - intros k y Hk ->. unfold mk_fresh_bit, fresh_group. rewrite seq_S, !map_app, app_assoc. simpl.
    by rewrite Nat.add_succ_r.
Qed.

(** The state after a constant gets its bits. *)
Definition add_const (f : decl) (n : nat) (s : state) : state :=
  let ds := fresh_group (m_fresh_id s) n in
  mk_state (<[f := bits_term ds]> (m_const2bits s)) (m_keys s ++ [f]) (m_values s ++ [bits_term ds])
    (m_keyval_lim s) (m_newbits s ++ ds) (m_newbits_lim s) (m_keypos s) (m_fresh_id s + n).

Lemma mk_const_eq (f : decl) n s : f.2 = BV_SORT n ->
  mk_const f s = match m_const2bits s !! f with
                 | Some r => (r, s)
                 | None => (bits_term (fresh_group (m_fresh_id s) n), add_const f n s)
                 end.
Proof.
  intros Hf. unfold mk_const. destruct (m_const2bits s !! f); [done|]. rewrite Hf, fresh_loop. simpl. unfold add_const, bits_term. reflexivity.
Qed.

Lemma fresh_group_spec k n (d : decl) : d ∈ fresh_group k n <-> d.2 = BOOL_SORT /\ (k <= d.1 < k + n)%nat.
Proof.
  unfold fresh_group. rewrite list_elem_of_fmap. setoid_rewrite elem_of_seq. split.
  - by intros (j & -> & Hj).
  - destruct d as [j srt]. simpl. intros [-> Hj]. by exists j.
Qed.

Lemma wf_dom s (f : decl) : wf s -> m_const2bits s !! f = None -> f ∉ m_keys s.
Proof.
  intros [gs W] Hn. rewrite (wf_map _ _ W) in Hn. apply not_elem_of_list_to_map in Hn.
  rewrite fst_zip in Hn; [done|].
  rewrite (wf_values _ _ W), length_map. by rewrite (Forall2_length _ _ _ (wf_groups _ _ W)).
Qed.

Lemma wf_lengths gs s : wf_with gs s -> length (m_keys s) = length gs /\ length (m_values s) = length gs.
Proof.
  intros W. split; [by apply (Forall2_length _ _ _ (wf_groups _ _ W))|].
  by rewrite (wf_values _ _ W), length_map.
Qed.

Lemma add_const_wf (f : decl) n s : wf s -> f.2 = BV_SORT n -> (0 < n)%nat -> m_const2bits s !! f = None ->
  wf (add_const f n s).
Proof.
  intros Hw Hf Hn Hnone. pose proof (wf_dom s f Hw Hnone) as Hk. destruct Hw as [gs W].
  destruct (wf_lengths gs s W) as [Lk Lv]. exists (gs ++ [fresh_group (m_fresh_id s) n]).
  split; simpl.
  - by rewrite (wf_values _ _ W), map_app.
  - apply Forall2_app; [apply W|]. constructor; [|constructor]. exists n. split; [done|]. split; [done|].
    unfold fresh_group. by rewrite length_map, length_seq.
  - apply NoDup_app. split; [apply W|]. split; [|apply NoDup_singleton].
    intros x Hx ->%list_elem_of_singleton. done.
  - rewrite zip_with_app by lia. simpl. rewrite list_to_map_snoc.
    + by rewrite (wf_map _ _ W).
    + rewrite fst_zip by lia. done.
  - rewrite concat_app. simpl. by rewrite app_nil_r, (wf_newbits _ _ W).
  - apply NoDup_app. split; [apply W|]. split.
    + intros d Hd Hd'. apply fresh_group_spec in Hd' as [_ Hd'].
      pose proof (proj1 (Forall_forall _ _) (wf_fresh _ _ W) d Hd) as [_ Hb]. lia.
    + unfold fresh_group. apply NoDup_fmap_2; [|apply NoDup_seq]. by intros x y [= ->].
  - apply Forall_app. split.
    + eapply Forall_impl; [apply W|]. intros d [? ?]. split; [done|]. lia.
    + apply Forall_forall. intros d Hd%fresh_group_spec. split; [apply Hd|lia].
  - destruct (wf_lims _ _ W) as (E & B & O). split; [|split; [|done]].
    + rewrite E. apply map_ext_in. intros l Hl%list_elem_of_In.
      apply list_elem_of_lookup in Hl as [i Hi]. rewrite take_app_le; [done|]. by eapply B.
    + intros i l Hi. rewrite length_app. simpl. pose proof (B i l Hi). lia.
Qed.

Lemma mk_const_wf (f : decl) n s : wf s -> f.2 = BV_SORT n -> (0 < n)%nat -> wf (mk_const f s).2.
Proof.
  intros Hw Hf Hn. rewrite (mk_const_eq f n s Hf). destruct (m_const2bits s !! f) eqn:E; [done|].
  by apply add_const_wf.
Qed.

(** ** [push] and [pop] *)

Lemma push_wf s : wf s -> wf (push s).
Proof.
  intros [gs W]. destruct (wf_lengths gs s W) as [Lk Lv]. exists gs. split; try apply W.
  simpl. destruct (wf_lims _ _ W) as (E & B & O). split; [|split].
  - rewrite map_app. simpl. by rewrite E, (wf_newbits _ _ W), Lk, take_ge.
  - intros i l Hi. apply lookup_app_Some in Hi as [Hi|[_ Hi]]; [by eapply B|].
    apply list_lookup_singleton_Some in Hi as [_ <-]. lia.
  - intros i j li lj Hij Hi Hj.
    apply lookup_app_Some in Hj as [Hj|[Hjl Hj]].
    + rewrite lookup_app_l in Hi by (apply lookup_lt_Some in Hj; lia). by eapply O.
    + apply list_lookup_singleton_Some in Hj as [_ <-].
      apply lookup_app_Some in Hi as [Hi|[_ Hi]]; [pose proof (B _ _ Hi); lia|].
      apply list_lookup_singleton_Some in Hi as [_ <-]. lia.
Qed.

(** Removing the keys from the end leaves the map of the others. *)
Lemma remove_keys_eq lim (keys : list decl) (values : list expr) : NoDup keys -> length values = length keys ->
  remove_keys lim keys (list_to_map (zip keys values)) = list_to_map (zip (take lim keys) (take lim values)).
Proof.
  intros Hnd Hl. unfold remove_keys.
  pose proof (pure_for_inv (fun k m => m = list_to_map (M := gmap decl expr)
      (zip (take (length keys - k) keys) (take (length keys - k) values))) 0 (length keys - lim)
    (fun k map => delete (keys !!! (length keys - 1 - k)%nat) map) (list_to_map (zip keys values))) as P.
  rewrite P; [|lia| |].
  - destruct (decide (lim <= length keys)%nat).
    + by replace (length keys - (length keys - lim))%nat with lim by lia.
    + rewrite !take_ge by lia. done.
  - by rewrite Nat.sub_0_r, !take_ge by lia.
  - intros k m Hk ->. set (j := (length keys - 1 - k)%nat).
    replace (length keys - k)%nat with (S j) by lia. replace (length keys - S k)%nat with j by lia.
    destruct (lookup_lt_is_Some_2 keys j) as [x Hx]; [lia|].
    destruct (lookup_lt_is_Some_2 values j) as [v Hv]; [lia|].
    rewrite (take_S_r _ _ _ Hx), (take_S_r _ _ _ Hv), zip_with_app by (rewrite !length_take; lia).
    assert (Hnin : x ∉ take j keys).
    { intros (i & Hi)%list_elem_of_lookup. apply lookup_take_Some in Hi as [Hi Hij].
      pose proof (NoDup_lookup _ _ _ _ Hnd Hi Hx). lia. }
    simpl. rewrite (list_lookup_total_correct _ _ _ Hx), list_to_map_snoc.
    + apply delete_insert_id. apply not_elem_of_list_to_map. rewrite fst_zip; [done|].
      rewrite !length_take. lia.
    + rewrite fst_zip; [done|]. rewrite !length_take. lia.
Qed.

Lemma take_concat (gs : list (list decl)) l : take (length (concat (take l gs))) (concat gs) = concat (take l gs).
Proof.
  rewrite <- (take_drop l gs) at 2. rewrite concat_app. by rewrite take_app_length.
Qed.

Lemma pop_wf k s : (k <= get_num_scopes s)%nat -> wf s -> wf (pop k s).
Proof.
  unfold get_num_scopes. intros Hk [gs W]. unfold pop. destruct (Nat.ltb_spec 0 k); [|by exists gs].
  destruct (wf_lengths gs s W) as [Lk Lv]. destruct (wf_lims _ _ W) as (E & B & O).
  set (n := (length (m_keyval_lim s) - k)%nat) in *.
  destruct (lookup_lt_is_Some_2 (m_keyval_lim s) n) as [lim Hlim]; [lia|].
  assert (Hnl : m_newbits_lim s !!! n = length (concat (take lim gs))).
  { apply list_lookup_total_correct. by rewrite E, list_lookup_fmap, Hlim. }
  rewrite Hnl, (list_lookup_total_correct _ _ _ Hlim). pose proof (B n lim Hlim) as Blim.
  exists (take lim gs). split; simpl.
  - by rewrite (wf_values _ _ W), <- firstn_map.
  - apply Forall2_take, W.
  - eapply sublist_NoDup; [apply (wf_keys _ _ W)|apply sublist_take].
  - rewrite (wf_map _ _ W). apply remove_keys_eq; [apply W|lia].
  - rewrite (wf_newbits _ _ W). apply take_concat.
  - eapply sublist_NoDup; [apply (wf_nodup _ _ W)|apply sublist_take].
  - apply Forall_take, W.
  - split; [|split].
    + rewrite E, firstn_map. apply map_ext_in. intros l Hl%list_elem_of_In.
      apply list_elem_of_lookup in Hl as [i Hi]. apply lookup_take_Some in Hi as [Hi Hin].
      rewrite take_take, Nat.min_l; [done|]. by eapply (O i n); [lia|..].
    + intros i l [Hi Hin]%lookup_take_Some. rewrite length_take, Nat.min_l by done.
      by eapply (O i n); [lia|..].
    + intros i j li lj Hij [Hi _]%lookup_take_Some [Hj _]%lookup_take_Some. by eapply O.
Qed.

Lemma start_wf s : wf s -> wf (start_rewrite s).
Proof. intros [gs W]. exists gs. split; apply W. Qed.

Lemma step_wf s s' : step s s' -> wf s -> wf s'.
Proof.
  intros [] Hw; [by eapply mk_const_wf|by apply push_wf|by apply pop_wf|by apply start_wf].
Qed.

Lemma steps_wf s s' : rtc step s s' -> wf s -> wf s'.
Proof. induction 1; eauto using step_wf. Qed.

(** ** What [pop] restores *)

(** Steps that stay inside at least [k] scopes. *)
Definition step_above (k : nat) (s s' : state) : Prop := step s s' /\ (k <= get_num_scopes s')%nat.

(** [s2] keeps, below its newer entries, those [s] had when the scope opened. *)
Record above (s s2 : state) : Prop := {
  above_keys : take (length (m_keys s)) (m_keys s2) = m_keys s;
  above_values : take (length (m_values s)) (m_values s2) = m_values s;
  above_newbits : take (length (m_newbits s)) (m_newbits s2) = m_newbits s;
  above_lims : take (S (get_num_scopes s)) (m_keyval_lim s2) = m_keyval_lim s ++ [length (m_keys s)];
  above_nlims : take (S (get_num_scopes s)) (m_newbits_lim s2) = m_newbits_lim s ++ [length (m_newbits s)];
}.

Lemma take_app_keep {A} (l l2 k : list A) : take (length l) l2 = l -> take (length l) (l2 ++ k) = l.
Proof.
  intros E. rewrite take_app_le; [done|]. apply (f_equal length) in E. rewrite length_take in E. lia.
Qed.

Lemma take_app_keep' {A} n (l l2 k : list A) : (n <= length l2)%nat -> take n l2 = l -> take n (l2 ++ k) = l.
Proof. intros Hn E. by rewrite take_app_le. Qed.

Lemma lims_lengths gs s : wf_with gs s -> length (m_newbits_lim s) = length (m_keyval_lim s).
Proof. intros W. destruct (wf_lims _ _ W) as (E & _). by rewrite E, length_map. Qed.

Lemma above_push s : wf s -> above s (push s).
Proof.
  intros [gs W]. pose proof (lims_lengths gs s W) as L. unfold get_num_scopes.
  split; simpl; rewrite ?take_ge by lia; try done; unfold get_num_scopes;
    (rewrite take_ge; [done|rewrite length_app; simpl; lia]).
Qed.

Lemma above_const s s2 (f : decl) n : f.2 = BV_SORT n -> above s s2 -> above s (mk_const f s2).2.
Proof.
  intros Hf A. rewrite (mk_const_eq f n s2 Hf). destruct (m_const2bits s2 !! f); [done|].
  split; simpl; try apply A; apply take_app_keep, A.
Qed.

Lemma above_push_more s s2 : wf s2 -> (S (get_num_scopes s) <= get_num_scopes s2)%nat -> above s s2 ->
  above s (push s2).
Proof.
  intros [gs W] Hk A. pose proof (lims_lengths gs s2 W) as L. unfold get_num_scopes in *.
  split; simpl; try apply A; apply take_app_keep'; try apply A; unfold get_num_scopes; lia.
Qed.

(** The limit that closed at the opening of the scope. *)
Lemma above_lim s s2 : above s s2 -> m_keyval_lim s2 !! get_num_scopes s = Some (length (m_keys s)).
Proof.
  intros A. rewrite <- (lookup_take_lt _ (S (get_num_scopes s))) by lia. rewrite (above_lims _ _ A).
  unfold get_num_scopes. by rewrite lookup_app_r, Nat.sub_diag by lia.
Qed.

Lemma above_nlim s s2 : wf s -> above s s2 -> m_newbits_lim s2 !! get_num_scopes s = Some (length (m_newbits s)).
Proof.
  intros [gs W] A. rewrite <- (lookup_take_lt _ (S (get_num_scopes s))) by lia. rewrite (above_nlims _ _ A).
  unfold get_num_scopes. rewrite <- (lims_lengths gs s W). by rewrite lookup_app_r, Nat.sub_diag by lia.
Qed.

Lemma concat_take_mono (gs : list (list decl)) l l' : (l <= l')%nat ->
  (length (concat (take l gs)) <= length (concat (take l' gs)))%nat.
Proof.
  intros Hl. replace (take l gs) with (take l (take l' gs)) by (rewrite take_take; f_equal; lia).
  rewrite <- (take_drop l (take l' gs)) at 2. rewrite concat_app, length_app. lia.
Qed.

Lemma above_pop k s s2 : wf s -> wf s2 -> (k <= get_num_scopes s2)%nat ->
  (S (get_num_scopes s) <= get_num_scopes (pop k s2))%nat -> above s s2 -> above s (pop k s2).
Proof.
  intros Hws [gs W] Hk Hs A. unfold pop in *. destruct (Nat.ltb_spec 0 k); [|done].
  unfold get_num_scopes in Hs at 2. simpl in Hs. rewrite length_take in Hs.
  set (n := (length (m_keyval_lim s2) - k)%nat) in *.
  destruct (wf_lims _ _ W) as (E & B & O). destruct (wf_lengths gs s2 W) as [Lk Lv].
  destruct (lookup_lt_is_Some_2 (m_keyval_lim s2) n) as [lim Hlim]; [unfold get_num_scopes in *; lia|].
  assert (Hnl : m_newbits_lim s2 !!! n = length (concat (take lim gs))).
  { apply list_lookup_total_correct. by rewrite E, list_lookup_fmap, Hlim. }
  pose proof (O (get_num_scopes s) n _ _ ltac:(lia) (above_lim s s2 A) Hlim) as Hle.
  assert (Hnle : (length (m_newbits s) <= length (concat (take lim gs)))%nat).
  { pose proof (above_nlim s s2 Hws A) as Hn0. rewrite E, list_lookup_fmap, (above_lim s s2 A) in Hn0.
    simpl in Hn0. injection Hn0 as <-. by apply concat_take_mono. }
  assert (Hv : length (m_values s) = length (m_keys s)).
  { destruct Hws as [gs0 W0]. destruct (wf_lengths gs0 s W0). lia. }
  split; simpl; rewrite ?Hnl, ?(list_lookup_total_correct _ _ _ Hlim), take_take, Nat.min_l by lia; apply A.
Qed.

Lemma above_steps s s1 s2 : wf s -> wf s1 -> (S (get_num_scopes s) <= get_num_scopes s1)%nat ->
  rtc (step_above (S (get_num_scopes s))) s1 s2 -> above s s1 ->
  above s s2 /\ wf s2 /\ (S (get_num_scopes s) <= get_num_scopes s2)%nat.
Proof.
  intros Hw Hw1 Hk Hr. induction Hr as [|x y z [Hst Hky] _ IH]; [done|]. intros A.
  apply IH; [by eapply step_wf|done|].
  destruct Hst; [by eapply above_const|by apply above_push_more|by apply above_pop|].
  split; apply A.
Qed.

(** Equality of everything but the position of [start_rewrite] and the counter
    of fresh names. *)
Definition same_scope (s s' : state) : Prop :=
  m_const2bits s = m_const2bits s' /\ m_keys s = m_keys s' /\ m_values s = m_values s'
  /\ m_keyval_lim s = m_keyval_lim s' /\ m_newbits s = m_newbits s' /\ m_newbits_lim s = m_newbits_lim s'.

Lemma pop_restores_ok s s2 : wf s -> rtc (step_above (S (get_num_scopes s))) (push s) s2 ->
  same_scope (pop (get_num_scopes s2 - get_num_scopes s) s2) s.
Proof.
  intros Hw Hr. assert (Hp : get_num_scopes (push s) = S (get_num_scopes s)).
  { unfold get_num_scopes. simpl. rewrite length_app. simpl. lia. }
  destruct (above_steps s (push s) s2 Hw (push_wf s Hw) ltac:(lia) Hr (above_push s Hw)) as (A & Hw2 & Hk).
  pose proof (pop_wf (get_num_scopes s2 - get_num_scopes s) s2 ltac:(lia) Hw2) as Hwp.
  assert (Hpk : forall p, p = pop (get_num_scopes s2 - get_num_scopes s) s2 ->
    m_keys p = m_keys s /\ m_values p = m_values s /\ m_keyval_lim p = m_keyval_lim s
    /\ m_newbits p = m_newbits s /\ m_newbits_lim p = m_newbits_lim s).
  { intros p ->. unfold pop. rewrite (proj2 (Nat.ltb_lt _ _)) by lia. simpl. fold (get_num_scopes s2).
    replace (get_num_scopes s2 - (get_num_scopes s2 - get_num_scopes s))%nat with (get_num_scopes s) by lia.
    rewrite (list_lookup_total_correct _ _ _ (above_lim s s2 A)).
    rewrite (list_lookup_total_correct _ _ _ (above_nlim s s2 Hw A)).
    destruct Hw as [gs W]. pose proof (lims_lengths gs s W) as Ll. destruct (wf_lengths gs s W) as [Lk Lv].
    split; [apply A|]. split; [transitivity (take (length (m_values s)) (m_values s2)); [f_equal; lia|apply A]|].
    split; [|split; [apply A|]].
    - rewrite <- (Nat.min_l (get_num_scopes s) (S (get_num_scopes s))) by lia.
      rewrite <- take_take, (above_lims _ _ A). by apply take_app_length'.
    - rewrite <- (Nat.min_l (get_num_scopes s) (S (get_num_scopes s))) by lia.
      rewrite <- take_take, (above_nlims _ _ A). by apply take_app_length'. }
  destruct (Hpk _ eq_refl) as (E1 & E2 & E3 & E4 & E5). split; [|done].
  destruct Hwp as [g1 W1], Hw as [g2 W2]. by rewrite (wf_map _ _ W1), (wf_map _ _ W2), E1, E2.
Qed.

(** ** Interpretations of the fresh bits *)

Local Open Scope Z_scope.

(** Every constant has the value its bits spell. *)
Definition consistent (I : interp) (s : state) : Prop :=
  forall (f : decl) r, m_const2bits s !! f = Some r -> eval I (decl_const f) = eval I r.

Definition keeps (s s' : state) : Prop :=
  forall (f : decl) r, m_const2bits s !! f = Some r -> m_const2bits s' !! f = Some r.

Lemma consistent_keeps I s s' : keeps s s' -> consistent I s' -> consistent I s.
Proof. intros Hk Hc f r Hr. by apply Hc, Hk. Qed.

Lemma mk_const_keeps (f : decl) n s : f.2 = BV_SORT n -> keeps s (mk_const f s).2.
Proof.
  intros Hf g r Hg. rewrite (mk_const_eq f n s Hf). destruct (m_const2bits s !! f) eqn:E; [done|].
  simpl. rewrite lookup_insert_ne; [done|]. intros ->. congruence.
Qed.

Lemma mk_const_lookup (f : decl) n s : f.2 = BV_SORT n ->
  m_const2bits (mk_const f s).2 !! f = Some (mk_const f s).1.
Proof.
  intros Hf. rewrite (mk_const_eq f n s Hf). destruct (m_const2bits s !! f) eqn:E; [done|].
  simpl. apply lookup_insert_eq.
Qed.

Lemma decl_const_sort (d : decl) : sort_ok d.2 = true -> get_sort (decl_const d) = Some d.2.
Proof.
  intros Hd. unfold decl_const, Ast.mk_const. rewrite get_sort_app. simpl. by rewrite decide_True.
Qed.

Lemma decl_const_boolx (d : decl) : d.2 = BOOL_SORT -> boolx (decl_const d).
Proof. intros Hd. unfold boolx. rewrite <- Hd. apply decl_const_sort. by rewrite Hd. Qed.

Lemma wf_entry gs s (f : decl) r : wf_with gs s -> m_const2bits s !! f = Some r ->
  exists i ds, m_keys s !! i = Some f /\ gs !! i = Some ds /\ r = bits_term ds /\ group_ok f ds.
Proof.
  intros W Hr. rewrite (wf_map _ _ W) in Hr. apply elem_of_list_to_map_2 in Hr.
  apply list_elem_of_lookup in Hr as [i Hi]. apply lookup_zip_with_Some in Hi as (f' & v & [= <- <-] & Hf & Hv).
  rewrite (wf_values _ _ W), list_lookup_fmap in Hv.
  destruct (gs !! i) as [ds|] eqn:Ed; [|done]. injection Hv as <-. exists i, ds.
  split; [done|]. split; [done|]. split; [done|].
  by apply (Forall2_lookup_lr _ _ _ _ _ _ (wf_groups _ _ W) Hf Ed).
Qed.

(** The bits of a constant are a term of its sort. *)
Lemma wf_entry_sort s (f : decl) r : wf s -> m_const2bits s !! f = Some r -> get_sort r = Some f.2.
Proof.
  intros [gs W] Hr. destruct (wf_entry gs s f r W Hr) as (i & ds & Hf & Hd & -> & n & -> & Hn & Hl).
  apply mkbv_sort; [done|by rewrite length_map|]. apply Forall_map, Forall_forall. intros d Hd'.
  apply decl_const_boolx. apply (proj1 (Forall_forall _ _) (wf_fresh _ _ W) d).
  rewrite (wf_newbits _ _ W). apply elem_of_concat. exists ds.
  split; [by eapply list_elem_of_lookup_2|done].
Qed.

(** The key and the position a fresh bit belongs to. *)
Fixpoint source (kgs : list (decl * list decl)) (d : decl) : option (decl * nat) :=
  match kgs with
  | [] => None
  | (f, ds) :: rest =>
      match list_find (fun d' => d' = d) ds with
      | Some (i, _) => Some (f, i)
      | None => source rest d
      end
  end.

Lemma source_spec kgs (f : decl) ds i d : NoDup (concat (map snd kgs)) ->
  (f, ds) ∈ kgs -> ds !! i = Some d -> source kgs d = Some (f, i).
Proof.
  induction kgs as [|[g gd] kgs IH]; intros Hnd Hin Hd; [by inversion Hin|]. simpl in *.
  apply NoDup_app in Hnd as (N1 & N2 & N3). apply elem_of_cons in Hin as [[= -> ->]|Hin].
  - assert (F : list_find (fun d' => d' = d) gd = Some (i, d)).
    { apply list_find_Some. split; [done|]. split; [done|]. intros j y Hj Hji ->.
      pose proof (NoDup_lookup _ _ _ _ N1 Hj Hd). lia. }
    by rewrite F.
  - assert (F : list_find (fun d' => d' = d) gd = None).
    { apply list_find_None, Forall_forall. intros y Hy ->. apply (N2 d Hy).
      apply elem_of_concat. exists ds. split; [|by eapply list_elem_of_lookup_2].
      apply list_elem_of_fmap. by exists (f, ds). }
    rewrite F. by apply IH.
Qed.

Lemma source_in kgs d x : source kgs d = Some x -> d ∈ concat (map snd kgs).
Proof.
  induction kgs as [|[g gd] kgs IH]; simpl; [done|].
  destruct (list_find _ gd) as [[i y]|] eqn:E.
  - apply list_find_Some in E as (Hy & -> & _). intros _. apply elem_of_app. left. by eapply list_elem_of_lookup_2.
  - intros Hs. apply elem_of_app. right. by apply IH.
Qed.

(** [I] with the fresh bits read off the constants. *)
Definition spelled (I : interp) (kgs : list (decl * list decl)) : interp := fun f dom rng vs =>
  match source kgs (f, rng) with
  | Some (g, i) => VBool (Z.testbit (vn I (decl_const g)) (Z.of_nat i))
  | None => I f dom rng vs
  end.

Lemma extension s (I : interp) : wf s ->
  exists I', consistent I' s
    /\ forall (d : decl) dom vs, d ∉ m_newbits s -> I' d.1 dom d.2 vs = I d.1 dom d.2 vs.
Proof.
  intros [gs W]. destruct (wf_lengths gs s W) as [Lk _]. set (kgs := zip (m_keys s) gs).
  assert (Hsnd : concat (map snd kgs) = m_newbits s)
    by (unfold kgs; rewrite map_snd_zip by done; symmetry; apply W).
  exists (spelled I kgs). split.
  - intros f r Hr. destruct (wf_entry gs s f r W Hr) as (i & ds & Hf & Hd & -> & n & Hn & Hn0 & Hl).
    assert (Sf : bvx n (decl_const f)) by (unfold bvx; rewrite <- Hn; apply decl_const_sort; rewrite Hn; destruct n; [lia|done]).
    pose proof (wf_entry_sort s f _ (ex_intro _ gs W) Hr) as Sr. rewrite Hn in Sr.
    rewrite (bvx_val _ n _ Sf), (bvx_val _ n _ Sr). f_equal. unfold bits_term. rewrite mkbv_vn, length_map, Hl.
    assert (E : vn (spelled I kgs) (decl_const f) = vn I (decl_const f)).
    { unfold vn, decl_const, Ast.mk_const. rewrite !eval_uninterp. simpl. unfold spelled.
      destruct (source kgs (f.1, f.2)) as [[g j]|] eqn:Es; [|done]. exfalso.
      apply source_in in Es. rewrite Hsnd in Es.
      pose proof (proj1 (Forall_forall _ _) (wf_fresh _ _ W) _ Es) as [Hb _]. simpl in Hb. congruence. }
    rewrite E. symmetry. apply ubits_eq; [by apply vn_bounds|]. intros j Hj. unfold bit.
    destruct (lookup_lt_is_Some_2 ds j) as [d Hdj]; [lia|].
    erewrite list_lookup_total_correct by (rewrite list_lookup_fmap, Hdj; reflexivity).
    unfold bval, decl_const, Ast.mk_const. rewrite eval_uninterp. unfold spelled.
    assert (Hdb : d.2 = BOOL_SORT).
    { apply (proj1 (Forall_forall _ _) (wf_fresh _ _ W) d). rewrite (wf_newbits _ _ W).
      apply elem_of_concat. exists ds. split; by eapply list_elem_of_lookup_2. }
    rewrite (source_spec kgs f ds j (d.1, d.2)); [by rewrite Hdb| | |by destruct d].
    + rewrite Hsnd. apply W.
    + apply (list_elem_of_lookup_2 _ i). apply lookup_zip_with_Some. by exists f, ds.
  - intros d dom vs Hd. unfold spelled. destruct (source kgs (d.1, d.2)) as [[g j]|] eqn:Es; [|done].
    apply source_in in Es. rewrite Hsnd in Es. destruct d. done.
Qed.

(** *** One operation after the other

    An interpretation that agrees with the constants so far is extended to the bits
    that are made next, and stays as it is elsewhere. *)

(** The names of the bits made between two states. *)
Definition made (s s' : state) (d : decl) : Prop := d.2 = BOOL_SORT /\ (m_fresh_id s <= d.1 < m_fresh_id s')%nat.

Definition same_but (P : decl -> Prop) (I I' : interp) : Prop :=
  forall (d : decl) dom vs, ~ P d -> I' d.1 dom d.2 vs = I d.1 dom d.2 vs.

Lemma decl_const_eval I I' (d : decl) : I' d.1 [] d.2 [] = I d.1 [] d.2 [] -> eval I' (decl_const d) = eval I (decl_const d).
Proof. intros E. unfold decl_const, Ast.mk_const. rewrite !eval_uninterp. simpl. by rewrite E. Qed.

Lemma bits_term_eval I I' ds : (forall d : decl, d ∈ ds -> I' d.1 [] d.2 [] = I d.1 [] d.2 []) ->
  eval I' (bits_term ds) = eval I (bits_term ds).
Proof.
  intros H. unfold bits_term, mk_mkbv. rewrite !eval_app by done. f_equal. rewrite !map_map. apply map_ext_in.
  intros d Hd%list_elem_of_In. by apply decl_const_eval, H.
Qed.

Lemma mk_const_extension (f : decl) n s I : wf s -> consistent I s -> f.2 = BV_SORT n -> (0 < n)%nat ->
  exists I', consistent I' (mk_const f s).2 /\ same_but (made s (mk_const f s).2) I I'.
Proof.
  intros Hw HI Hf Hn. pose proof (mk_const_wf f n s Hw Hf Hn) as Hw'. destruct (m_const2bits s !! f) as [r|] eqn:E.
  { exists I. split; [|done]. rewrite (mk_const_eq f n s Hf), E. exact HI. }
  destruct (extension _ I Hw') as (J & HJ & Hsame). set (ds := fresh_group (m_fresh_id s) n).
  assert (Hold : forall (g : decl) x, m_const2bits s !! g = Some x -> exists bs, x = bits_term bs /\ forall d, d ∈ bs -> d ∉ ds).
  { intros g x Hx. destruct Hw as [gs W]. destruct (wf_entry gs s g x W Hx) as (i & bs & _ & Hb & -> & _).
    exists bs. split; [done|]. intros d Hd [_ Hd']%fresh_group_spec.
    assert (Hin : d ∈ m_newbits s) by (rewrite (wf_newbits _ _ W); apply elem_of_concat; exists bs; split; [by eapply list_elem_of_lookup_2|done]).
    pose proof (proj1 (Forall_forall _ _) (wf_fresh _ _ W) d Hin) as [_ ?]. lia. }
  assert (Hkey : forall (g : decl) (x : nat), g.2 = BV_SORT x -> g ∉ ds) by (intros g x Hg [Hb _]%fresh_group_spec; congruence).
  exists (fun g dom rng vs => if decide ((g, rng) ∈ ds) then J g dom rng vs else I g dom rng vs).
  assert (Es : (mk_const f s).2 = add_const f n s) by by rewrite (mk_const_eq f n s Hf), E.
  rewrite Es in *. split.
  - intros g x Hx. simpl in Hx. destruct (decide (g = f)) as [->|Hne].
    + rewrite lookup_insert_eq in Hx. injection Hx as <-. pose proof (HJ f _ (lookup_insert_eq _ _ _)) as Hv.
      rewrite (bits_term_eval J); [|intros d Hd; rewrite decide_True; [done|by destruct d]]. rewrite <- Hv. apply decl_const_eval.
      rewrite decide_False by (destruct f; by apply (Hkey _ n)). symmetry. apply Hsame.
      intros Hin. destruct Hw' as [gs W]. pose proof (proj1 (Forall_forall _ _) (wf_fresh _ _ W) f Hin) as [Hb _]. congruence.
    + rewrite lookup_insert_ne in Hx by done. destruct (Hold g x Hx) as (bs & -> & Hbs). pose proof (HI g _ Hx) as Hv.
      rewrite (bits_term_eval I); [|intros d Hd; rewrite decide_False; [done|destruct d; by apply Hbs]]. rewrite <- Hv. apply decl_const_eval.
      destruct Hw as [gs W]. destruct (wf_entry gs s g _ W Hx) as (i & ? & _ & _ & _ & m & Hg & _).
      by rewrite decide_False by (destruct g; by apply (Hkey _ m)).
  - intros d dom vs Hd. rewrite decide_False; [done|]. intros Hin%fresh_group_spec. apply Hd. destruct d. exact Hin.
Qed.

Lemma pop_sub k s (f : decl) r : m_const2bits (pop k s) !! f = Some r -> m_const2bits s !! f = Some r.
Proof.
  unfold pop. destruct (0 <? k)%nat; [|done]. cbn [m_const2bits]. unfold remove_keys.
  apply (pure_for_inv (fun _ m => m !! f = Some r -> m_const2bits s !! f = Some r)); [lia|done|].
  intros j m _ IH [_ H]%lookup_delete_Some. by apply IH.
Qed.

Lemma step_fresh s s' : step s s' -> (m_fresh_id s <= m_fresh_id s')%nat.
Proof.
  intros [f n s0 Hf _|s0|k s0 _|s0]; [|done| |done].
  - rewrite (mk_const_eq f n s0 Hf). destruct (m_const2bits s0 !! f); simpl; lia.
  - unfold pop. by destruct (0 <? k)%nat.
Qed.

Lemma step_extension s s' I : wf s -> consistent I s -> step s s' -> exists I', consistent I' s' /\ same_but (made s s') I I'.
Proof.
  intros Hw HI St. destruct St as [f n s Hf Hn|s|k s _|s]; [by apply (mk_const_extension f n)|by exists I| |by exists I].
  exists I. split; [|done]. intros g x Hx%pop_sub. by apply HI.
Qed.

Lemma steps_extension s s' I : rtc step s s' -> wf s -> consistent I s ->
  (m_fresh_id s <= m_fresh_id s')%nat /\ exists I', consistent I' s' /\ same_but (made s s') I I'.
Proof.
  intros Hr. revert I. induction Hr as [s|s s1 s' St Hr IH]; intros I Hw HI; [split; [done|by exists I]|].
  destruct (step_extension s s1 I Hw HI St) as (J & HJ & H1). pose proof (step_fresh _ _ St) as F1.
  destruct (IH J (step_wf _ _ St Hw) HJ) as (F2 & K & HK & H2). split; [lia|]. exists K. split; [done|].
  intros d dom vs Hd. unfold same_but, made in *. rewrite H2, H1; [done| |]; intros [? ?]; apply Hd; split; [done|lia|done|lia].
Qed.

(** ** [end_rewrite] *)

Lemma end_rewrite_ok s c2b nb : wf s ->
  end_rewrite s c2b nb
  = (list_to_map (zip (drop (m_keypos s) (m_keys s)) (drop (m_keypos s) (m_values s))) ∪ c2b,
     nb ++ m_newbits s).
Proof.
  intros [gs W]. destruct (wf_lengths gs s W) as [Lk Lv]. unfold end_rewrite. f_equal.
  set (p := m_keypos s). destruct (decide (p <= length (m_keys s))%nat) as [Hp|Hp].
  2: { rewrite !drop_ge by lia. simpl. rewrite (left_id_L ∅ (∪)).
       unfold pure_for. by replace (length (m_keys s) - p)%nat with 0%nat by lia. }
  pose proof (pure_for_inv (fun i m => m = list_to_map (M := gmap decl expr)
    (zip (drop p (take i (m_keys s))) (drop p (take i (m_values s)))) ∪ c2b) p (length (m_keys s))
    (fun i map => <[m_keys s !!! i := m_values s !!! i]> map) c2b) as P.
  rewrite P; [by rewrite !take_ge by lia|done| |].
  - rewrite !drop_ge by (rewrite length_take; lia). simpl. by rewrite (left_id_L ∅ (∪)).
  - intros i m Hi ->.
    destruct (lookup_lt_is_Some_2 (m_keys s) i) as [x Hx]; [lia|].
    destruct (lookup_lt_is_Some_2 (m_values s) i) as [v Hv]; [lia|].
    rewrite (take_S_r _ _ _ Hx), (take_S_r _ _ _ Hv), !drop_app_le by (rewrite length_take; lia).
    rewrite zip_with_app by (rewrite !length_drop, !length_take; lia). simpl.
    rewrite (list_lookup_total_correct _ _ _ Hx), (list_lookup_total_correct _ _ _ Hv).
    rewrite list_to_map_snoc, insert_union_l; [done|].
    rewrite fst_zip by (rewrite !length_drop, !length_take; lia).
    intros (j & Hj)%list_elem_of_lookup. rewrite lookup_drop in Hj.
    apply lookup_take_Some in Hj as [Hj Hji].
    pose proof (NoDup_lookup _ _ _ _ (wf_keys _ _ W) Hj Hx). lia.
Qed.

(** ** [reduce_app] *)

Section ReduceApp.
Context `{Env} (G : Gates) {OK : GatesOk G} (m_use_wtm m_use_bcm : bool) (cfg : params).

(** The application means what its reduction means, when the constants have
    the values their bits spell. *)
Definition reduced (o : op) (args : list expr) (srt : sort) (s : state) (x : option expr * state) : Prop :=
  let '(r, s') := x in
  wf s' /\ keeps s s'
  /\ forall e, r = Some e -> get_sort e = Some srt
       /\ forall I, consistent I s' -> eval I e = eval I (App o args).

Lemma reduced_pure o args srt s r : wf s -> reduct o args srt r -> reduced o args srt s (r, s).
Proof. intros Hw Hr. split; [done|]. split; [by intros f x|]. intros e He. by destruct (Hr e He). Qed.

Lemma reduce_const_ok f n srt s : wf s -> get_sort (App (OP_UNINTERP f [] (BV_SORT n)) []) = Some srt ->
  reduced (OP_UNINTERP f [] (BV_SORT n)) [] srt s
    (Some (mk_const (f, BV_SORT n) s).1, (mk_const (f, BV_SORT n) s).2).
Proof.
  intros Hw Hs. rewrite get_sort_app in Hs. simpl in Hs. destruct (decide _) as [[_ Hok]|]; [|done].
  injection Hs as <-. assert (Hn : (0 < n)%nat) by (destruct n; [done|lia]).
  pose proof (mk_const_wf (f, BV_SORT n) n s Hw eq_refl Hn) as Hw'.
  pose proof (mk_const_lookup (f, BV_SORT n) n s eq_refl) as Hl.
  split; [done|]. split; [by apply (mk_const_keeps _ n)|]. intros e [= <-].
  split; [by apply (wf_entry_sort _ _ _ Hw' Hl)|]. intros I Hc. symmetry. exact (Hc _ _ Hl).
Qed.

Lemma is_bv_spec t : is_bv t = true -> exists n, get_sort t = Some (BV_SORT n).
Proof. unfold is_bv. destruct (get_sort t) as [[| |]|]; try done. eauto. Qed.

Lemma uninterp_args f srt0 args srt : get_sort (App (OP_UNINTERP f [] srt0) args) = Some srt -> args = [].
Proof.
  intros (ss & Hss & Hs)%args_inv. simpl in Hs. destruct (decide _) as [[<- _]|]; [|done].
  apply get_sorts_Forall2 in Hss. by inversion Hss.
Qed.

Definition bv_const (o : op) : Prop := exists f n, o = OP_UNINTERP f [] (BV_SORT n).

Lemma bv_const_dec o : bv_const o \/ ~ bv_const o.
Proof.
  destruct (op_uninterp_dec o) as [[[[f dom] rng] ->]|Hn].
  - destruct dom; [destruct rng as [|n|]|]; [| |right; by intros (? & ? & [=])..]; [|left; by exists f, n].
    right; by intros (? & ? & [=]).
  - right. intros (f & n & ->). by destruct (Hn f [] (BV_SORT n)).
Qed.

(** Every other application leaves the state alone, and its reduction means the
    same under all interpretations. *)
Lemma reduce_app_pure_ok o args srt s :
  get_sort (App o args) = Some srt -> unsupported cfg o = false -> ~ bv_const o ->
  spec (reduce_app m_use_wtm m_use_bcm cfg o args s) (fun x => x.2 = s /\ reduct o args srt x.1).
Proof.
  intros Hs Hu Hc.
  assert (Hret : forall r, reduct o args srt r -> spec (mret (r, s)) (fun x => x.2 = s /\ reduct o args srt x.1)).
  { intros r Hr. by apply spec_ret. }
  assert (Hbind : forall c : M expr, spec c (fun e => reduct o args srt (Some e)) ->
    spec (r ← c; mret (Some r, s)) (fun x => x.2 = s /\ reduct o args srt x.1)).
  { intros c Hr. eapply spec_bind; [exact Hr|]. intros r Hr'. by apply Hret. }
  pose proof (Hret _ (reduce_other_ok cfg o args srt Hs)) as Hother.
  destruct (m.family_of o) eqn:Hf.
  - (* basic family *)
    destruct o; try discriminate Hf; try exact Hother; unfold reduce_app.
    + destruct (is_bv (args !!! 0%nat)) eqn:Eb; [|by apply Hret].
      apply is_bv_spec in Eb as [n Hn]. apply Hbind. eapply spec_mono; [by apply (reduce_eq_ok G args srt n)|].
      by intros r Hr ? [= <-].
    + destruct (is_bv (args !!! 1%nat)) eqn:Eb; [|by apply Hret].
      apply is_bv_spec in Eb. apply Hbind. eapply spec_mono; [by apply (reduce_ite_ok G args srt)|].
      by intros r Hr ? [= <-].
  - (* bit-vector family *)
    assert (E : reduce_app m_use_wtm m_use_bcm cfg o args s
              = (r ← reduce_bv_app m_use_wtm m_use_bcm cfg o args; mret (r, s))).
    { unfold reduce_app. rewrite Hf. destruct o; try discriminate Hf; reflexivity. }
    rewrite E. eapply spec_bind; [by apply reduce_bv_app_ok|]. exact Hret.
  - (* null family *)
    destruct (op_uninterp_dec o) as [[[[f dom] rng] ->]|Hn].
    2: { destruct o; try discriminate Hf. by destruct (Hn f dom rng). }
    destruct dom as [|d dom], rng as [|n|]; try exact Hother. destruct Hc. by exists f, n.
Qed.

Lemma reduce_app_ok o args srt s : wf s -> get_sort (App o args) = Some srt -> unsupported cfg o = false ->
  spec (reduce_app m_use_wtm m_use_bcm cfg o args s) (reduced o args srt s).
Proof.
  intros Hw Hs Hu.
  destruct (bv_const_dec o) as [(f & n & ->)|Hc].
  - pose proof (uninterp_args _ _ _ _ Hs) as ->. unfold reduce_app.
    pose proof (reduce_const_ok f n srt s Hw Hs) as Hc. destruct (mk_const (f, BV_SORT n) s) as [r s']. by apply spec_ret.
  - eapply spec_mono; [by apply (reduce_app_pure_ok o args srt)|]. intros [r s'] [E Hr]. simpl in E. subst s'. by apply reduced_pure.
Qed.

(** An operator the rewriter refuses stops the run with its exception. *)
Lemma reduce_app_unsupported o args s st0 : m.family_of o = m.bv_family -> unsupported cfg o = true ->
  reduce_app m_use_wtm m_use_bcm cfg o args s st0 = Throw ExUnsupported.
Proof.
  intros Hf Hu. assert (E : reduce_app m_use_wtm m_use_bcm cfg o args s
            = (r ← reduce_bv_app m_use_wtm m_use_bcm cfg o args; mret (r, s))).
  { unfold reduce_app. rewrite Hf. destruct o; try discriminate Hf; reflexivity. }
  rewrite E. unfold mbind, M_bind. by rewrite reduce_bv_app_unsupported.
Qed.
End ReduceApp.
