(* ===== verification/ActCache.v ===== *)
(** * ActCache: the cache of the rewriters

    [act_cache] of [ast/act_cache.cpp]: a map from expressions, each with an
    offset, to tagged expressions.  An entry that was never looked up is
    unused; when there are too many, the oldest unused entry is deleted, which
    the queue of recently added keys finds.  Reference counts are left out.  The
    class [Cache] is what a rewriter asks of a cache. *)
From Stdlib Require Import ZArith Lia.
From stdpp Require Import base list sets.
From S2P Require Import Prelude Ast.
Module act_cache.

(** [entry_t] *)
Definition key : Type := expr * nat.

(** A value and its tag, [true] once the key was looked up. *)
Definition tagged : Type := expr * bool.

(** The table, [cmap]: each key is there at most once. *)
Definition table : Type := list (key * tagged).

Fixpoint find_core (e : key) (t : table) : option tagged :=
  match t with
  | [] => None
  | (e', v) :: t' => if decide (e' = e) then Some v else find_core e t'
  end.

Fixpoint erase (e : key) (t : table) : table :=
  match t with
  | [] => []
  | (e', v) :: t' => if decide (e' = e) then erase e t' else (e', v) :: erase e t'
  end.

(** Store at a key that is there, or is added. *)
Definition store (e : key) (v : tagged) (t : table) : table := (e, v) :: erase e t.

Record act_cache := mk_cache {
  m_table : table;
  m_queue : list key;
  m_qhead : nat;
  m_unused : Z;          (* unsigned *)
  m_max_unused : Z;
}.

Definition MIN_MAX_UNUSED : Z := 1024.

Definition init (max_unused : Z) : act_cache :=
  mk_cache [] [] 0 0 (if (max_unused <? MIN_MAX_UNUSED)%Z then MIN_MAX_UNUSED else max_unused).

Definition compress_queue (c : act_cache) : act_cache :=
  let sz := length (m_queue c) in
  let '(queue, j) := pure_for (m_qhead c) sz
    (fun i '(queue, j) => (<[j := queue !!! i]> queue, S j)) (m_queue c, O) in
  mk_cache (m_table c) (take j queue) 0 (m_unused c) (m_max_unused c).

(** [while (m_qhead < sz)]: [n] keys are left. *)
Fixpoint del_loop (n : nat) (c : act_cache) : act_cache :=
  match n with
  | O => c
  | S n' =>
      let e := m_queue c !!! m_qhead c in
      let qhead := S (m_qhead c) in
      match find_core e (m_table c) with
      | Some (_, false) =>
          mk_cache (erase e (m_table c)) (m_queue c) qhead (u32 (m_unused c - 1)) (m_max_unused c)
      | _ => del_loop n' (mk_cache (m_table c) (m_queue c) qhead (m_unused c) (m_max_unused c))
      end
  end.

Definition del_unused (c : act_cache) : act_cache :=
  let sz := length (m_queue c) in
  let c := del_loop (sz - m_qhead c) c in
  if (m_qhead c =? sz)%nat then mk_cache (m_table c) [] 0 (m_unused c) (m_max_unused c)
  else if (m_max_unused c <? Z.of_nat (m_qhead c))%Z then compress_queue c
  else c.

Definition insert (k : expr) (offset : nat) (v : expr) (c : act_cache) : act_cache :=
  let e := (k, offset) in
  let c := if (m_max_unused c <=? m_unused c)%Z then del_unused c else c in
  match find_core e (m_table c) with
  | None =>
      mk_cache (store e (v, false) (m_table c)) (m_queue c ++ [e]) (m_qhead c)
        (u32 (m_unused c + 1)) (m_max_unused c)
  | Some (v', tag) =>
      if decide (v' = v) then c
      else mk_cache (store e (v, false) (m_table c)) (m_queue c) (m_qhead c) (m_unused c) (m_max_unused c)
  end.

Definition find (k : expr) (offset : nat) (c : act_cache) : option expr * act_cache :=
  let e := (k, offset) in
  match find_core e (m_table c) with
  | None => (None, c)
  | Some (v, true) => (Some v, c)
  | Some (v, false) =>
      (Some v, mk_cache (store e (v, true) (m_table c)) (m_queue c) (m_qhead c)
                 (u32 (m_unused c - 1)) (m_max_unused c))
  end.

Definition reset (c : act_cache) : act_cache := mk_cache [] [] 0 0 (m_max_unused c).

End act_cache.

(** ** What the cache promises, and its invariant

    [Cache] is what a rewriter needs from a cache: a lookup yields what was
    stored last at the key, or nothing; [act_cache] provides it.  [wf] is the
    bookkeeping of the unused entries. *)
(** ** The interface *)

Class Cache (C : Type) := {
  cache_new : Z -> C;          (* for a manager of that many terms *)
  cache_empty : C -> C;
  cache_find : expr -> C -> option expr * C;
  cache_insert : expr -> expr -> C -> C;
}.

(** [cache_maps c k v]: a lookup of [k] may yield [v]. *)
Class CacheOk (C : Type) `{Cache C} := {
  cache_maps : C -> expr -> expr -> Prop;
  maps_new n k v : ~ cache_maps (cache_new n) k v;
  maps_empty c k v : ~ cache_maps (cache_empty c) k v;
  maps_insert c k v k' v' :
    cache_maps (cache_insert k v c) k' v' -> k' = k /\ v' = v \/ cache_maps c k' v';
  maps_find c k v : (cache_find k c).1 = Some v -> cache_maps c k v;
  maps_find_keep c k k' v' : cache_maps (cache_find k c).2 k' v' -> cache_maps c k' v';
}.

Import act_cache.

(** ** Tables *)

Lemma find_core_erase e e' t : find_core e' (erase e t) = if decide (e = e') then None else find_core e' t.
Proof.
  induction t as [|[x v] t IH]; simpl; [by destruct (decide _)|].
  destruct (decide (x = e)) as [->|]; simpl.
  - rewrite IH. by destruct (decide (e = e')).
  - rewrite IH. destruct (decide (x = e')), (decide (e = e')); congruence.
Qed.

Lemma find_core_store e v e' t : find_core e' (store e v t) = if decide (e = e') then Some v else find_core e' t.
Proof. simpl. rewrite find_core_erase. by destruct (decide (e = e')). Qed.

Lemma erase_absent e t : find_core e t = None -> erase e t = t.
Proof.
  induction t as [|[x v] t IH]; simpl; [done|]. destruct (decide (x = e)); [done|]. intros. by rewrite IH.
Qed.

Lemma elem_of_erase x e t : x ∈ (erase e t).*1 <-> x <> e /\ x ∈ t.*1.
Proof.
  induction t as [|[y v] t IH]; simpl; [set_solver|]. destruct (decide (y = e)) as [->|]; simpl; set_solver.
Qed.

Lemma NoDup_erase e t : NoDup t.*1 -> NoDup (erase e t).*1.
Proof.
  induction t as [|[y v] t IH]; simpl; [done|]. rewrite NoDup_cons. intros [Hy Ht].
  destruct (decide (y = e)); simpl; [auto|]. apply NoDup_cons. split; [|auto]. rewrite elem_of_erase. tauto.
Qed.

Lemma NoDup_store e v t : NoDup t.*1 -> NoDup (store e v t).*1.
Proof. intros. simpl. apply NoDup_cons. split; [|by apply NoDup_erase]. rewrite elem_of_erase. tauto. Qed.

Lemma find_core_In e v t : NoDup t.*1 -> (e, v) ∈ t -> find_core e t = Some v.
Proof.
  induction t as [|[y w] t IH]; simpl; [set_solver|]. rewrite NoDup_cons. intros [Hy Ht] [[= -> ->]|Hin]%elem_of_cons.
  - by rewrite decide_True.
  - rewrite decide_False; [auto|]. intros ->. apply Hy. by apply (list_elem_of_fmap_2 fst) in Hin.
Qed.

(** The number of unused entries. *)
Fixpoint unused (t : table) : nat :=
  match t with [] => O | (_, (_, tag)) :: t' => if tag then unused t' else S (unused t') end.

Definition is_unused (o : option tagged) : nat := match o with Some (_, false) => 1%nat | _ => O end.

Lemma unused_erase e t : NoDup t.*1 -> unused t = (is_unused (find_core e t) + unused (erase e t))%nat.
Proof.
  induction t as [|[y [w tag]] t IH]; simpl; [done|]. rewrite NoDup_cons. intros [Hy Ht].
  destruct (decide (y = e)) as [->|]; simpl.
  - rewrite erase_absent; [by destruct tag|]. destruct (find_core e t) as [v|] eqn:E; [|done].
    exfalso. apply Hy. clear -E. induction t as [|[z u] t IH]; simpl in *; [done|].
    destruct (decide (z = e)) as [->|]; [left|right; auto].
  - rewrite IH by done. destruct tag; lia.
Qed.

Lemma unused_store e v tag t : NoDup t.*1 ->
  (unused (store e (v, tag) t) + is_unused (find_core e t) = (if tag then 0 else 1) + unused t)%nat.
Proof. intros Ht. rewrite (unused_erase e t) by done. simpl. destruct tag; lia. Qed.

Lemma unused_find t : (0 < unused t)%nat -> exists e v, (e, (v, false)) ∈ t.
Proof.
  induction t as [|[y [w tag]] t IH]; simpl; [lia|]. destruct tag.
  - intros H. destruct (IH H) as (e & v & Hin). exists e, v. by right.
  - intros _. exists y, w. by left.
Qed.

(** ** The interface is provided *)

Definition maps (c : act_cache) (k v : expr) : Prop :=
  exists tag, find_core (k, 0%nat) (m_table c) = Some (v, tag).

Lemma del_loop_table n c e v : find_core e (m_table (del_loop n c)) = Some v -> find_core e (m_table c) = Some v.
Proof.
  revert c. induction n as [|n IH]; intros c; simpl; [done|].
  destruct (find_core (m_queue c !!! _) _) as [[w []]|]; try (intros H; by apply IH in H).
  simpl. rewrite find_core_erase. by destruct (decide _).
Qed.

Lemma del_unused_table c e v : find_core e (m_table (del_unused c)) = Some v -> find_core e (m_table c) = Some v.
Proof.
  unfold del_unused. destruct (_ =? _)%nat; [apply del_loop_table|].
  destruct (_ <? _)%Z; [|apply del_loop_table]. unfold compress_queue. destruct (pure_for _ _ _ _). apply del_loop_table.
Qed.

Lemma insert_table k o v c e w : find_core e (m_table (insert k o v c)) = Some w ->
  e = (k, o) /\ w.1 = v \/ find_core e (m_table c) = Some w.
Proof.
  unfold insert. set (c1 := if (m_max_unused c <=? m_unused c)%Z then del_unused c else c).
  assert (Hc : forall x, find_core e (m_table c1) = Some x -> find_core e (m_table c) = Some x).
  { intros x. unfold c1. destruct (_ <=? _)%Z; [apply del_unused_table|done]. }
  destruct (find_core (k, o) (m_table c1)) as [[v' tag]|] eqn:E.
  - destruct (decide (v' = v)) as [->|]; [intros H; right; auto|]. simpl m_table.
    rewrite find_core_store. destruct (decide _) as [<-|]; [|right; auto].
    intros Hw. left. by simplify_eq.
  - simpl m_table. rewrite find_core_store. destruct (decide _) as [<-|]; [|right; auto].
    intros Hw. left. by simplify_eq.
Qed.

(** What was stored is there. *)
Lemma insert_hit k o v c : exists tag, find_core (k, o) (m_table (insert k o v c)) = Some (v, tag).
Proof.
  unfold insert. set (c1 := if (m_max_unused c <=? m_unused c)%Z then del_unused c else c).
  destruct (find_core (k, o) (m_table c1)) as [[v' tag]|] eqn:E.
  - destruct (decide (v' = v)) as [->|]; [by exists tag|]. exists false. simpl. by rewrite decide_True.
  - exists false. simpl. by rewrite decide_True.
Qed.

(** A lookup changes tags only. *)
Lemma find_table k o c e : fst <$> find_core e (m_table (find k o c).2) = fst <$> find_core e (m_table c).
Proof.
  unfold find. destruct (find_core (k, o) (m_table c)) as [[v []]|] eqn:E; [done| |done]. simpl m_table.
  rewrite find_core_store. destruct (decide _) as [<-|]; [by rewrite E|done].
Qed.

Lemma find_result k o c : (find k o c).1 = fst <$> find_core (k, o) (m_table c).
Proof. unfold find. by destruct (find_core (k, o) (m_table c)) as [[v []]|]. Qed.

Lemma maps_fst c k v : maps c k v <-> fst <$> find_core (k, 0%nat) (m_table c) = Some v.
Proof.
  unfold maps. destruct (find_core _ _) as [[w t]|]; simpl; split; intros H.
  - destruct H as [t' [= <- _]]. done.
  - injection H as ->. by exists t.
  - by destruct H.
  - done.
Qed.

#[export] Instance act_cache_Cache : Cache act_cache := {
  cache_new := init;
  cache_empty := reset;
  cache_find := fun k => find k 0;
  cache_insert := fun k v => insert k 0 v;
}.

#[export] Program Instance act_cache_CacheOk : CacheOk act_cache := {| cache_maps := maps |}.
Next Obligation. intros n k v [tag H]. done. Qed.
Next Obligation. intros c k v [tag H]. done. Qed.
Next Obligation.
  intros c k v k' v' [tag H]. apply insert_table in H as [[[= ->] Hv]|H]; [by left|right; by exists tag].
Qed.
Next Obligation. intros c k v H. apply maps_fst. simpl in H. by rewrite find_result in H. Qed.
Next Obligation. intros c k k' v' H. apply maps_fst. apply maps_fst in H. simpl in H. by rewrite find_table in H. Qed.

(** ** The bookkeeping *)

Definition active (c : act_cache) : list key := drop (m_qhead c) (m_queue c).

Record wf (c : act_cache) : Prop := {
  wf_keys : NoDup (m_table c).*1;
  wf_head : (m_qhead c <= length (m_queue c))%nat;
  wf_active : NoDup (active c);
  wf_queued e : e ∈ active c -> exists v, find_core e (m_table c) = Some v;
  wf_unused e v : find_core e (m_table c) = Some (v, false) -> e ∈ active c;
  wf_count : m_unused c = Z.of_nat (unused (m_table c));
  wf_max : (0 < m_max_unused c < 2 ^ 32)%Z;
  wf_small : (m_unused c <= m_max_unused c)%Z;
}.

Lemma empty_cache_wf n : (n < 2 ^ 32)%Z -> wf (init n).
Proof.
  intros. split; simpl; try done; try (by constructor); try set_solver; unfold MIN_MAX_UNUSED;
    destruct (Z.ltb_spec n 1024); lia.
Qed.

Lemma reset_wf c : wf c -> wf (reset c).
Proof. intros []. split; simpl; try done; try (by constructor); try set_solver; lia. Qed.

Lemma active_head c : (m_qhead c < length (m_queue c))%nat ->
  active c = (m_queue c !!! m_qhead c) :: drop (S (m_qhead c)) (m_queue c).
Proof.
  intros H. destruct (lookup_lt_is_Some_2 (m_queue c) (m_qhead c) H) as [e He]. unfold active.
  rewrite (list_lookup_total_correct _ _ _ He). by apply drop_S.
Qed.

(** The loop deletes the oldest unused entry, if there is one. *)
Lemma del_loop_ok n c : wf c -> n = (length (m_queue c) - m_qhead c)%nat ->
  let c' := del_loop n c in
  wf c' /\ m_max_unused c' = m_max_unused c /\ length (m_queue c') = length (m_queue c)
  /\ ((0 < m_unused c)%Z -> m_unused c' = (m_unused c - 1)%Z).
Proof.
  revert c. induction n as [|n IH]; intros c Hw Hn; simpl; destruct Hw as [W1 W2 W3 W4 W5 W6 W7 W8].
  - split; [by split|]. split_and!; try done. intros Hu. exfalso.
    destruct (unused_find (m_table c)) as (e & v & Hin); [lia|]. apply find_core_In in Hin; [|done].
    apply W5 in Hin. unfold active in Hin. rewrite drop_ge in Hin by lia. set_solver.
  - rewrite active_head in W3, W4, W5 by lia. set (e := m_queue c !!! m_qhead c) in *.
    apply NoDup_cons in W3 as [He W3].
    destruct (find_core e (m_table c)) as [[w [|]]|] eqn:E.
    + (* used: skipped *)
      edestruct (IH (mk_cache (m_table c) (m_queue c) (S (m_qhead c)) (m_unused c) (m_max_unused c))) as (H1 & H2 & H3 & H4).
      * split; simpl; try done; [lia| |]; unfold active; simpl.
        -- intros x Hx. apply W4. by right.
        -- intros x v Hx. apply W5 in Hx as Hx'. apply elem_of_cons in Hx' as [->|]; [congruence|done].
      * simpl. lia.
      * done.
    + (* unused: deleted *)
      pose proof (unused_erase e (m_table c) W1) as Hc. rewrite E in Hc. simpl in Hc.
      rewrite u32_small by lia. split; [|done]. split; simpl; try done; [by apply NoDup_erase|lia| | |lia|lia];
        unfold active; simpl; intros x.
      * intros Hx. rewrite find_core_erase. rewrite decide_False by (intros <-; done). apply W4. by right.
      * intros v. rewrite find_core_erase. destruct (decide (e = x)) as [<-|Hne]; [done|].
        intros Hx%W5. apply elem_of_cons in Hx as [->|]; [done|done].
    + destruct (W4 e) as [v Hv]; [by left|congruence].
Qed.

Lemma compress_queue_active c : (m_qhead c <= length (m_queue c))%nat ->
  m_queue (compress_queue c) = active c.
Proof.
  intros Hh. unfold compress_queue, active.
  pose proof (pure_for_inv (fun i '(q, j) => length q = length (m_queue c) /\ j = (i - m_qhead c)%nat
      /\ (forall k, (k < j)%nat -> q !! k = m_queue c !! (m_qhead c + k))
      /\ (forall k, (j <= k)%nat -> q !! k = m_queue c !! k))
    (m_qhead c) (length (m_queue c)) (fun i '(queue, j) => (<[j := queue !!! i]> queue, S j))
    (m_queue c, O)) as H.
  destruct (pure_for _ _ _ _) as [q j]. simpl.
  destruct H as (Hl & Hj & Hlow & _); [done| | |].
  - split_and!; [done|lia|lia|done].
  - intros i [q' j'] Hi (Hl & -> & Hlow & Hhigh). split_and!; [by rewrite length_insert|lia| |].
    + intros k Hk. destruct (decide (k = i - m_qhead c)%nat) as [->|].
      * rewrite list_lookup_insert_eq by lia. replace (m_qhead c + (i - m_qhead c))%nat with i by lia.
        destruct (lookup_lt_is_Some_2 (m_queue c) i ltac:(lia)) as [e He].
        rewrite He. f_equal. apply list_lookup_total_correct. rewrite Hhigh by lia. done.
      * rewrite list_lookup_insert_ne by lia. apply Hlow. lia.
    + intros k Hk. rewrite list_lookup_insert_ne by lia. apply Hhigh. lia.
  - apply list_eq. intros k. rewrite lookup_drop. destruct (decide (k < j)%nat).
    + rewrite lookup_take_lt by done. by apply Hlow.
    + rewrite lookup_take_ge by lia. symmetry. apply lookup_ge_None. lia.
Qed.

(** The same entries, with the queue changed in its inactive part only. *)
Lemma requeue_wf c q h : wf c -> drop h q = active c -> (h <= length q)%nat ->
  wf (mk_cache (m_table c) q h (m_unused c) (m_max_unused c)).
Proof. intros [] Hq Hh. split; simpl; unfold active in *; simpl; rewrite ?Hq; try done. Qed.

Lemma del_unused_ok c : wf c -> (0 < m_unused c)%Z ->
  wf (del_unused c) /\ m_max_unused (del_unused c) = m_max_unused c
  /\ m_unused (del_unused c) = (m_unused c - 1)%Z.
Proof.
  intros Hw Hu. unfold del_unused.
  destruct (del_loop_ok (length (m_queue c) - m_qhead c) c Hw eq_refl) as (H1 & H2 & H3 & H4).
  specialize (H4 Hu). set (c' := del_loop _ c) in *. rewrite <- H3.
  destruct (Nat.eqb_spec (m_qhead c') (length (m_queue c'))) as [E|E].
  - split; [|done]. apply requeue_wf; [done| |simpl; lia]. unfold active. by rewrite (drop_ge (m_queue c')) by lia.
  - destruct (m_max_unused c' <? Z.of_nat (m_qhead c'))%Z; [|done].
    pose proof (compress_queue_active c' (wf_head _ H1)) as Ha.
    unfold compress_queue in *. destruct (pure_for _ _ _ _) as [q j]. simpl in *.
    split; [|done]. apply requeue_wf; [done|by rewrite Ha|lia].
Qed.

(** An insertion that does not change the value of an entry already looked up. *)
Definition fresh_value (k : expr) (o : nat) (v : expr) (c : act_cache) : Prop :=
  forall v', find_core (k, o) (m_table c) = Some (v', true) -> v' = v.

Lemma insert_wf k o v c : wf c -> fresh_value k o v c -> wf (insert k o v c).
Proof.
  intros Hw Hf. unfold insert. set (c1 := if (m_max_unused c <=? m_unused c)%Z then del_unused c else c).
  assert (H1 : wf c1 /\ (m_unused c1 < m_max_unused c1)%Z /\ fresh_value k o v c1).
  { unfold c1. pose proof (wf_max _ Hw). pose proof (wf_small _ Hw). destruct (Z.leb_spec (m_max_unused c) (m_unused c)).
    - destruct (del_unused_ok c Hw) as (D1 & D2 & D3); [lia|]. split; [done|]. split; [lia|].
      intros v' Hv. apply Hf. by apply del_unused_table.
    - done. }
  clearbody c1. clear Hw Hf c. destruct H1 as (Hw & Hlt & Hf). pose proof Hw as [W1 W2 W3 W4 W5 W6 W7 W8].
  destruct (find_core (k, o) (m_table c1)) as [[v' tag]|] eqn:E.
  - destruct (decide (v' = v)) as [->|Hne]; [done|].
    destruct tag; [exfalso; by apply Hne, Hf|].
    pose proof (unused_store (k, o) v false (m_table c1) W1) as Hc. rewrite E in Hc. simpl in Hc.
    split; cbn [m_table m_queue m_qhead m_unused m_max_unused]; unfold active in *;
      cbn [m_table m_queue m_qhead]; try done.
    + by apply NoDup_store.
    + intros e He. rewrite find_core_store. destruct (decide _); eauto.
    + intros e w. rewrite find_core_store. destruct (decide _) as [<-|]; [|apply W5]. intros _. by eapply W5.
    + simpl. lia.
  - pose proof (unused_store (k, o) v false (m_table c1) W1) as Hc. rewrite E in Hc. simpl in Hc.
    assert (Hk : (k, o) ∉ active c1).
    { intros Hin. destruct (W4 _ Hin) as [w Hv]. congruence. }
    rewrite u32_small by lia.
    split; cbn [m_table m_queue m_qhead m_unused m_max_unused]; unfold active in *;
      cbn [m_table m_queue m_qhead]; rewrite ?drop_app_le by done; try done.
    + by apply NoDup_store.
    + rewrite length_app. lia.
    + apply NoDup_app. split_and!; [done| |by apply NoDup_singleton].
      intros x Hx ->%list_elem_of_singleton. done.
    + intros e He. rewrite find_core_store. destruct (decide _) as [|Hne]; [eauto|].
      apply elem_of_app in He as [He| ->%list_elem_of_singleton]; [eauto|done].
    + intros e w. rewrite find_core_store. rewrite elem_of_app, list_elem_of_singleton.
      destruct (decide _) as [<-|]; [by right|]. intros H. left. by eapply W5.
    + simpl. lia.
    + lia.
Qed.

Lemma find_wf k o c : wf c -> wf (find k o c).2.
Proof.
  intros Hw. unfold find. destruct (find_core (k, o) (m_table c)) as [[v []]|] eqn:E; [done| |done].
  pose proof Hw as [W1 W2 W3 W4 W5 W6 W7 W8].
  pose proof (unused_store (k, o) v true (m_table c) W1) as Hc. rewrite E in Hc. simpl in Hc.
  cbn [snd]. rewrite u32_small by lia.
  split; cbn [m_table m_queue m_qhead m_unused m_max_unused]; unfold active in *;
    cbn [m_table m_queue m_qhead]; try done.
  - by apply NoDup_store.
  - intros e He. rewrite find_core_store. destruct (decide _); eauto.
  - intros e w. rewrite find_core_store. destruct (decide _) as [<-|]; [done|apply W5].
  - simpl. lia.
  - lia.
Qed.
