(* ===== verification/Rewriter.v ===== *)
(** * Rewriter: the traversal of the rewriters

    [rewriter_core] and [rewriter_tpl] of [ast/rewriter/rewriter.h] and
    [ast/rewriter/rewriter_def.h], without proofs ([ProofGen = false]), over
    terms without variables and quantifiers.  A rewriter is a machine with a
    stack of frames, one for each term being rewritten, and a stack of
    results; what it does at an application is a parameter, the configuration.

    The frame stack is a list with the top first; the result stack is a list
    with the top last, since frames refer to its positions.  [visit] and the
    methods that call it use that the frame a C++ reference names is the top of
    the stack.  An access that the code's assertions exclude throws [ExStuck]. *)
From Stdlib Require Import ZArith Lia.
From stdpp Require Import base list.
From S2P Require Import Prelude Ast BoolRewriter ActCache.

Module rewriter_tpl.

(** [RW_UNBOUNDED_DEPTH] *)
Definition RW_UNBOUNDED_DEPTH : nat := 3.

(** [func_decl::is_associative] of the declarations the plugins make. *)
Definition is_associative (f : op) : bool :=
  match f with
  | OP_AND | OP_OR | OP_XOR | OP_BADD | OP_BMUL | OP_BAND | OP_BOR | OP_BXOR => true
  | _ => false
  end.

(** ** The configuration

    The template parameter [Config]: [S] is the state of [m_cfg]. *)
Class Config (S : Type) := {
  cache_results : bool;
  cache_all_results : bool;
  flat_assoc : op -> bool;
  max_frames_exceeded : nat -> bool;
  max_steps_exceeded : Z -> M bool;
  pre_visit : expr -> bool;
  get_subst : expr -> option expr;
  get_macro : op -> option expr;
  reduce_app : op -> list expr -> S -> M (br_result * S);
}.

(** ** The machine *)

Inductive state := PROCESS_CHILDREN | REWRITE_BUILTIN.

Global Instance state_eq_dec : EqDecision state.
Proof. solve_decision. Defined.

Record frame := mk_frame {
  m_curr : expr;
  m_cache_result : bool;
  m_new_child : bool;
  m_state : state;
  m_max_depth : nat;
  m_i : nat;
  m_spos : nat;
}.

Record machine (S C : Type) := mk_machine {
  m_cfg : S;
  m_frame_stack : list frame;
  m_result_stack : list expr;
  m_cache : C;
  m_root : option expr;
  m_num_steps : Z;      (* unsigned *)
}.
Global Arguments mk_machine {S C} _ _ _ _ _ _.
Global Arguments m_cfg {S C} _.
Global Arguments m_frame_stack {S C} _.
Global Arguments m_result_stack {S C} _.
Global Arguments m_cache {S C} _.
Global Arguments m_root {S C} _.
Global Arguments m_num_steps {S C} _.

Definition with_new_child (fr : frame) : frame :=
  mk_frame (m_curr fr) (m_cache_result fr) true (m_state fr) (m_max_depth fr) (m_i fr) (m_spos fr).

Definition with_state (st : state) (fr : frame) : frame :=
  mk_frame (m_curr fr) (m_cache_result fr) (m_new_child fr) st (m_max_depth fr) (m_i fr) (m_spos fr).

Definition with_next_i (fr : frame) : frame :=
  mk_frame (m_curr fr) (m_cache_result fr) (m_new_child fr) (m_state fr) (m_max_depth fr)
    (S (m_i fr)) (m_spos fr).

Definition num_args (t : expr) : nat := let 'App _ args := t in length args.

(** What a configuration returns when it asks for another rewrite, as a number:
    [static_cast<unsigned>(st)]. *)
Definition rewrite_depth (st : br_status) : option nat :=
  match st with
  | BR_REWRITE1 => Some 0%nat
  | BR_REWRITE2 => Some 1%nat
  | BR_REWRITE3 => Some 2%nat
  | BR_REWRITE_FULL => Some 3%nat
  | BR_DONE => None
  end.

Section Machine.
Context {S C : Type} `{Config S} `{Cache C} `{Env}.
Abbreviation machine := (machine S C).

(** The reference count of a term while the machine is in some state. *)
Variable ref_count : machine -> expr -> nat.

(** How often [process_const] may retry. *)
Variable retries : nat.

Definition with_cfg (s : S) (rw : machine) : machine :=
  mk_machine s (m_frame_stack rw) (m_result_stack rw) (m_cache rw) (m_root rw) (m_num_steps rw).
Definition with_frames (fs : list frame) (rw : machine) : machine :=
  mk_machine (m_cfg rw) fs (m_result_stack rw) (m_cache rw) (m_root rw) (m_num_steps rw).
Definition with_results (rs : list expr) (rw : machine) : machine :=
  mk_machine (m_cfg rw) (m_frame_stack rw) rs (m_cache rw) (m_root rw) (m_num_steps rw).
Definition with_cache (c : C) (rw : machine) : machine :=
  mk_machine (m_cfg rw) (m_frame_stack rw) (m_result_stack rw) c (m_root rw) (m_num_steps rw).
Definition with_steps (n : Z) (rw : machine) : machine :=
  mk_machine (m_cfg rw) (m_frame_stack rw) (m_result_stack rw) (m_cache rw) (m_root rw) n.

(** Change the frame at the top. *)
Definition on_top (f : frame -> frame) (rw : machine) : machine :=
  with_frames (match m_frame_stack rw with [] => [] | fr :: fs => f fr :: fs end) rw.

Definition push_result (r : expr) (rw : machine) : machine :=
  with_results (m_result_stack rw ++ [r]) rw.

(** [rewriter_core::must_cache], and the one of [rewriter_tpl]. *)
Definition core_must_cache (t : expr) (rw : machine) : bool :=
  (1 <? ref_count rw t)%nat && negb (bool_decide (Some t = m_root rw)) && (0 <? num_args t)%nat.

Definition must_cache (t : expr) (rw : machine) : bool :=
  if cache_all_results then negb (bool_decide (Some t = m_root rw)) && (0 <? num_args t)%nat
  else if cache_results then core_must_cache t rw
  else false.

(** [set_new_child_flag(old_t)] and [set_new_child_flag(old_t, new_t)]. *)
Definition set_new_child_flag (rw : machine) : machine := on_top with_new_child rw.

Definition set_new_child_flag2 (old_t new_t : expr) (rw : machine) : machine :=
  if decide (old_t = new_t) then rw else set_new_child_flag rw.

Definition get_cached (t : expr) (rw : machine) : option expr * machine :=
  let '(r, c) := cache_find t (m_cache rw) in (r, with_cache c rw).

Definition cache_result (t new_t : expr) (c : bool) (rw : machine) : machine :=
  if c then with_cache (cache_insert t new_t (m_cache rw)) rw else rw.

Definition push_frame (t : expr) (mcache : bool) (max_depth : nat) (rw : machine) : M machine :=
  if max_frames_exceeded (length (m_frame_stack rw)) then throw ExMaxFrames
  else mret (with_frames
    (mk_frame t mcache false PROCESS_CHILDREN max_depth 0 (length (m_result_stack rw))
       :: m_frame_stack rw) rw).

(** [frame_stack().back()], and leaving it. *)
Definition top_frame (rw : machine) : M frame :=
  match m_frame_stack rw with fr :: _ => mret fr | [] => throw ExStuck end.

Definition pop_frame (rw : machine) : machine := with_frames (tail (m_frame_stack rw)) rw.

(** ** One term *)

(** The outcome of [process_const]: a result, with whether the parent's flag is
    set, or a term to rewrite. *)
Inductive const_result := CPush (r : expr) (flag : bool) | CVisit (r : expr).

(** [retry:], with [retried]. *)
Fixpoint process_const_loop (n : nat) (retried : bool) (t : expr) (s : S) : M (const_result * S) :=
  match n with
  | O => throw ExDiverge
  | Datatypes.S n' =>
      let 'App f _ := t in
      '(st, s) ← reduce_app f [] s;
      match st with
      | None => mret (CPush t retried, s)
      | Some (BR_DONE, r) => mret (CPush r true, s)
      | Some (_, r) =>
          if (num_args r =? 0)%nat then process_const_loop n' true r s else mret (CVisit r, s)
      end
  end.

Definition process_const (t0 : expr) (s : S) : M (const_result * S) := process_const_loop retries false t0 s.

Definition visit (t : expr) (max_depth : nat) (rw : machine) : M (bool * machine) :=
  match get_subst t with
  | Some new_t => mret (true, set_new_child_flag2 t new_t (push_result new_t rw))
  | None =>
      if (max_depth =? 0)%nat then mret (true, push_result t rw)
      else
        let c := must_cache t rw in
        let '(r, rw) := if c then get_cached t rw else (None, rw) in
        match r with
        | Some r => mret (true, set_new_child_flag2 t r (push_result r rw))
        | None =>
            if negb (pre_visit t) then mret (true, push_result t rw)
            else
              let depth := if (max_depth =? RW_UNBOUNDED_DEPTH)%nat then max_depth else (max_depth - 1)%nat in
              if (num_args t =? 0)%nat then
                '(x, s) ← process_const t (m_cfg rw);
                let rw := with_cfg s rw in
                match x with
                | CPush r flag =>
                    let rw := push_result r rw in
                    mret (true, if flag then set_new_child_flag rw else rw)
                | CVisit r => rw ← push_frame r c depth rw; mret (false, rw)
                end
              else rw ← push_frame t c depth rw; mret (false, rw)
        end
  end.

(** The result on top replaces the term below it, and is the result of the
    frame, which ends. *)
Definition finish_builtin (t : expr) (rw : machine) : M machine :=
  fr ← top_frame rw;
  match rev (m_result_stack rw) with
  | m_r :: _ :: below =>
      mret (set_new_child_flag (pop_frame (cache_result t m_r (m_cache_result fr)
              (with_results (rev below ++ [m_r]) rw))))
  | _ => throw ExStuck
  end.

(** Rewrite [arg] in the place of [t], whose frame is at the top. *)
Definition rewrite_in_place (t arg : expr) (max_depth : nat) (rw : machine) : M machine :=
  fr ← top_frame rw;
  let rw := with_results (take (m_spos fr) (m_result_stack rw) ++ [arg]) rw in
  let rw := on_top (with_state REWRITE_BUILTIN) rw in
  '(b, rw) ← visit arg max_depth rw;
  if (b : bool) then finish_builtin t rw else mret rw.

(** [None] is [false]. *)
Definition constant_fold (t : expr) (fr : frame) (rw : machine) : M (option machine) :=
  match t with
  | App OP_ITE args =>
      if (m_i fr =? 1)%nat then
        match m_result_stack rw !! m_spos fr with
        | None => throw ExStuck
        | Some cond =>
            let arg := if m.is_true cond then args !! 1%nat
                       else if m.is_false cond then args !! 2%nat else None in
            match arg with
            | Some arg => rw ← rewrite_in_place t arg (m_max_depth fr) rw; mret (Some rw)
            | None => mret None
            end
        end
      else mret None
  | _ => mret None
  end.

(** [while (fr.m_i < num_args)]: [n] arguments are left.  [false] is [return]. *)
Fixpoint process_children (n : nat) (t : expr) (rw : machine) : M (bool * machine) :=
  match n with
  | O => mret (true, rw)
  | Datatypes.S n' =>
      fr ← top_frame rw;
      folded ← constant_fold t fr rw;
      match folded with
      | Some rw => mret (false, rw)
      | None =>
          let 'App _ args := t in
          match args !! m_i fr with
          | None => throw ExStuck
          | Some arg =>
              '(b, rw) ← visit arg (m_max_depth fr) (on_top with_next_i rw);
              if (b : bool) then process_children n' t rw else mret (false, rw)
          end
      end
  end.

(** The arguments of [t] become arguments of the application around it. *)
Definition flattens (f : op) (t : expr) (rw : machine) : bool :=
  is_associative f && (ref_count rw t <=? 1)%nat
  && match m_frame_stack rw with
     | _ :: prev_fr :: _ =>
         let 'App g _ := m_curr prev_fr in
         bool_decide (g = f) && bool_decide (m_state prev_fr = PROCESS_CHILDREN) && flat_assoc f
     | _ => false
     end.

(** The frame ends with the result [m_r], in place of those of the arguments. *)
Definition finish_app (t m_r : expr) (rw : machine) : M machine :=
  fr ← top_frame rw;
  mret (pop_frame (cache_result t m_r (m_cache_result fr)
          (with_results (take (m_spos fr) (m_result_stack rw) ++ [m_r]) rw))).

(** All arguments have their results. *)
Definition reduce_children (t : expr) (rw : machine) : M machine :=
  let 'App f _ := t in
  if flattens f t rw then mret (set_new_child_flag (pop_frame rw))
  else
    fr ← top_frame rw;
    let new_args := drop (m_spos fr) (m_result_stack rw) in
    '(st, s) ← reduce_app f new_args (m_cfg rw);
    let rw := with_cfg s rw in
    match st with
    | Some (st, m_r) =>
        match rewrite_depth st with
        | None => rw ← finish_app t m_r rw; mret (set_new_child_flag rw)
        | Some d =>
            rewrite_in_place t m_r (if (d =? RW_UNBOUNDED_DEPTH)%nat then d else (d + 1)%nat) rw
        end
    | None =>
        let m_r := match get_macro f with
                   | Some def => def
                   | None => if m_new_child fr then App f new_args else t
                   end in
        rw ← finish_app t m_r rw; mret (set_new_child_flag2 t m_r rw)
    end.

Definition process_app (t : expr) (rw : machine) : M machine :=
  fr ← top_frame rw;
  match m_state fr with
  | PROCESS_CHILDREN =>
      '(b, rw) ← process_children (num_args t - m_i fr) t rw;
      if (b : bool) then reduce_children t rw else mret rw
  | REWRITE_BUILTIN => finish_builtin t rw
  end.

(** ** The loop *)

Definition first_visit (fr : frame) : bool :=
  bool_decide (m_state fr = PROCESS_CHILDREN) && (m_i fr =? 0)%nat.

(** [if (m_cancel_check && m().canceled()) { reset(); throw ... }] *)
Definition check_cancel : M unit := fun s =>
  if canceled (m_ticks s) then Throw ExCanceled else Ok tt (mk_st (m_local_ctx_cost s) (Datatypes.S (m_ticks s))).

Definition check_max_steps (rw : machine) : M unit :=
  b ← max_steps_exceeded (m_num_steps rw);
  if (b : bool) then throw ExMaxSteps else mret tt.

(** One iteration of the loop of [resume_core]. *)
Definition step (rw : machine) : M machine :=
  check_cancel;;
  fr ← top_frame rw;
  let t := m_curr fr in
  let rw := with_steps (u32 (m_num_steps rw + 1)) rw in
  check_max_steps rw;;
  let '(r, rw) := if first_visit fr && m_cache_result fr then get_cached t rw else (None, rw) in
  match r with
  | Some r => mret (set_new_child_flag2 t r (pop_frame (push_result r rw)))
  | None => process_app t rw
  end.

(** [while (!frame_stack().empty())] *)
Fixpoint loop (fuel : nat) (rw : machine) : M machine :=
  match m_frame_stack rw with
  | [] => mret rw
  | _ :: _ =>
      match fuel with
      | O => throw ExDiverge
      | Datatypes.S fuel' => rw ← step rw; loop fuel' rw
      end
  end.

(** [result = result_stack().back(); result_stack().pop_back();] *)
Definition pop_result (rw : machine) : M (expr * machine) :=
  match rev (m_result_stack rw) with
  | r :: below => mret (r, with_results (rev below) rw)
  | [] => throw ExStuck
  end.

Definition resume_core (fuel : nat) (rw : machine) : M (expr * machine) :=
  rw ← loop fuel rw; pop_result rw.

Definition main_loop (fuel : nat) (t : expr) (rw : machine) : M (expr * machine) :=
  check_cancel;;
  let rw := mk_machine (m_cfg rw) (m_frame_stack rw) (m_result_stack rw) (m_cache rw) (Some t) 0 in
  '(b, rw) ← visit t RW_UNBOUNDED_DEPTH rw;
  if (b : bool) then pop_result rw else resume_core fuel rw.

(** ** Between runs *)

Definition reset (rw : machine) : machine :=
  mk_machine (m_cfg rw) [] [] (cache_empty (m_cache rw)) None (m_num_steps rw).

(** [num_asts]: the number of terms of the manager, which bounds the new cache. *)
Definition cleanup (num_asts : Z) (rw : machine) : machine :=
  mk_machine (m_cfg rw) [] [] (cache_new num_asts) None (m_num_steps rw).

(** The machine of a new rewriter. *)
Definition new_rewriter (num_asts : Z) (s : S) : machine :=
  mk_machine s [] [] (cache_new num_asts) None 0.
End Machine.
End rewriter_tpl.
