(* ===== verification/RewriterSound.v ===== *)
(** * RewriterSound: what the traversal guarantees

    [ConfigOk] is what a configuration promises: each reduction keeps the sort
    and the value of the application under the interpretations its state
    admits.  From it follows the invariant of the machine: every result agrees
    with the term it stands for, in every frame, and the cache holds such
    results only. *)
From Stdlib Require Import ZArith Lia.
From stdpp Require Import base list.
From S2P Require Import Prelude Ast AstFacts TermFacts BoolRewriter ActCache Rewriter.
Import rewriter_tpl.

(** ** Terms all of whose applications are well sorted and accepted *)

Inductive good (ok : op -> Prop) : expr -> Prop :=
| good_app o args : ok o -> Forall (good ok) args -> is_Some (get_sort (App o args)) -> good ok (App o args).

Lemma good_sort ok t : good ok t -> is_Some (get_sort t).
Proof. by intros []. Qed.

Lemma sorted_args o args : is_Some (get_sort (App o args)) -> Forall (fun a => is_Some (get_sort a)) args.
Proof.
  intros [s Hs]. rewrite get_sort_app in Hs. destruct (get_sorts args) as [ss|] eqn:E; [|done].
  apply get_sorts_Forall2 in E. clear Hs. induction E; constructor; eauto.
Qed.

(** When every operator is accepted, a good term is a well-sorted one. *)
Lemma good_all (ok : op -> Prop) t : (forall o, ok o) -> is_Some (get_sort t) -> good ok t.
Proof.
  intros Hok. induction t as [o args IH] using expr_rect'. intros Hs. constructor; [done| |done].
  apply sorted_args in Hs. clear -IH Hs. induction IH; inversion Hs; subst; constructor; auto.
Qed.

(** ** What a configuration promises *)

Class ConfigOk (S : Type) `{Config S} `{Env} := {
  inv : S -> Prop;
  ext : S -> S -> Prop;
  models : S -> interp -> Prop;
  ok_op : op -> Prop;
  out : expr -> Prop;           (* what else is known of the results *)
  raises : exn -> Prop;
  ext_preorder :: PreOrder ext;
  models_ext s s' I : ext s s' -> models s' I -> models s I;
  reduce_ok s o args : inv s -> ok_op o -> is_Some (get_sort (App o args)) -> Forall out args ->
    spec_exn raises (reduce_app o args s) (fun '(st, s') =>
      inv s' /\ ext s s'
      /\ match st with
         | None => out (App o args)
         | Some (BR_DONE, r) => agrees (models s') (App o args) r /\ out r
         | Some (_, r) => agrees (models s') (App o args) r /\ good ok_op r /\ forall e, out e
         end);
  subst_ok s t t' : get_subst t = Some t' -> agrees (models s) t t' /\ out t';
  pre_visit_ok t : pre_visit t = false -> out t;
  macro_ok s o args d : get_macro o = Some d -> agrees (models s) (App o args) d /\ out d;
  flat_ok o xs sub ys I : flat_assoc o = true -> is_associative o = true ->
    agrees I (App o (xs ++ App o sub :: ys)) (App o (xs ++ sub ++ ys));
  frames_ok n : max_frames_exceeded n = true -> raises ExMaxFrames;
  steps_ok n : (0 <= n < 2 ^ 32)%Z -> spec_exn raises (max_steps_exceeded n) (fun b => b = true -> raises ExMaxSteps);
}.

(** The configuration asks for no further rewriting. *)
Class OneShot (S : Type) `{Config S} `{Env} := {
  one_shot o args s :
    forall st0, match reduce_app o args s st0 with
                | Ok (Some (st, _), _) _ => st = BR_DONE
                | _ => True
                end;
}.

Section Sound.
Context {S C : Type} `{CfgOk : ConfigOk S} `{CacheOk C}.
Variable ref_count : machine S C -> expr -> nat.
Variable retries : nat.

(** The exceptions of a run; [process_const] does not run out of retries when
    the configuration never asks for one. *)
Variable E : exn -> Prop.
Hypothesis E_raises : forall e, raises e -> E e.
Hypothesis E_diverge : E ExDiverge \/ (OneShot S /\ (0 < retries)%nat).

(** ** Results *)

Definition res_ok (s : S) (t r : expr) : Prop := agrees (models s) t r /\ out r.

Definition full : Prop := forall e, out e.

Lemma agrees_ext s s' t r : ext s s' -> agrees (models s) t r -> agrees (models s') t r.
Proof. intros He. apply agrees_mono. intros I. by apply models_ext. Qed.

Lemma res_ok_ext s s' t r : ext s s' -> res_ok s t r -> res_ok s' t r.
Proof. intros He [Ha Ho]. split; [by eapply agrees_ext|done]. Qed.

Lemma res_ok_trans s t u r : agrees (models s) t u -> res_ok s u r -> res_ok s t r.
Proof. intros Ha [Hb Ho]. split; [by transitivity u|done]. Qed.

(** The results [rs] of the arguments [ts] of an application of [o], those of
    nested applications of [o] in their place. *)
Inductive covers (s : S) (o : op) : list expr -> list expr -> Prop :=
| cov_nil : covers s o [] []
| cov_one ts rs t r : covers s o ts rs -> res_ok s t r -> covers s o (ts ++ [t]) (rs ++ [r])
| cov_flat ts rs t sub rs' :
    covers s o ts rs -> flat_assoc o = true -> is_associative o = true ->
    agrees (models s) t (App o sub) -> covers s o sub rs' -> covers s o (ts ++ [t]) (rs ++ rs').

Lemma covers_ext s s' o ts rs : ext s s' -> covers s o ts rs -> covers s' o ts rs.
Proof.
  intros He. induction 1.
  - constructor.
  - constructor; [done|by eapply res_ok_ext].
  - eapply cov_flat; eauto using agrees_ext.
Qed.

Lemma covers_out s o ts rs : covers s o ts rs -> Forall out rs.
Proof.
  induction 1 as [|ts rs t r _ IH [_ Ho]|ts rs t sub rs' _ IH _ _ _ _ IH']; [constructor| |].
  - apply Forall_app. split; [done|]. by constructor.
  - by apply Forall_app.
Qed.

(** Replacing one argument. *)
Lemma agrees_arg P o xs t u ys : agrees P t u -> agrees P (App o (xs ++ t :: ys)) (App o (xs ++ u :: ys)).
Proof.
  intros Ht. apply agrees_app. apply Forall2_app; [|constructor; [done|]]; reflexivity.
Qed.

Lemma covers_agrees s o ts rs : covers s o ts rs ->
  forall pre post, agrees (models s) (App o (pre ++ ts ++ post)) (App o (pre ++ rs ++ post)).
Proof.
  induction 1 as [|ts rs t r _ IH [Ha _]|ts rs t sub rs' _ IH Hf Ha Ht _ IH']; intros pre post; [done| |].
  - rewrite <- !app_assoc. etransitivity; [apply IH|]. simpl. rewrite !(app_assoc pre). by apply agrees_arg.
  - rewrite <- !app_assoc. etransitivity; [apply IH|]. simpl. rewrite !(app_assoc pre).
    etransitivity; [by apply agrees_arg|]. etransitivity; [by apply flat_ok|]. apply IH'.
Qed.

Lemma covers_app s o ts rs : covers s o ts rs -> agrees (models s) (App o ts) (App o rs).
Proof. intros Hc. pose proof (covers_agrees s o ts rs Hc [] []) as Ha. by rewrite !app_nil_r in Ha. Qed.

(** ** The stacks

    [child] is the term whose result the frame waits for. *)
Definition pending (s : S) (o : op) (args seg : list expr) (fr : frame) (child : option expr) : Prop :=
  match child with
  | None =>
      covers s o (take (m_i fr) args) seg
      /\ (m_new_child fr = false -> seg = take (m_i fr) args \/ full)
  | Some c =>
      exists j a, m_i fr = Datatypes.S j /\ args !! j = Some a /\ covers s o (take j args) seg
        /\ agrees (models s) a c
        /\ (m_new_child fr = false -> seg = take j args /\ c = a \/ full)
  end.

Definition frame_ok (s : S) (fr : frame) (child : option expr) (seg : list expr) : Prop :=
  let 'App o args := m_curr fr in
  match m_state fr with
  | PROCESS_CHILDREN =>
      good ok_op (m_curr fr) /\ (m_max_depth fr = 3%nat \/ full) /\ (m_i fr <= length args)%nat
      /\ (0 < length args)%nat
      /\ pending s o args seg fr child
  | REWRITE_BUILTIN =>
      match child with
      | None => exists x r, seg = [x; r] /\ res_ok s (m_curr fr) r
      | Some c => exists x, seg = [x] /\ agrees (models s) (m_curr fr) c
      end
  end.

(** The frames from the top, over their segments of the result stack; the last
    one waited for computes the result of [root]. *)
Inductive stack_ok (s : S) (root : expr) : list frame -> option expr -> list expr -> Prop :=
| stack_done r : res_ok s root r -> stack_ok s root [] None [r]
| stack_root c : agrees (models s) root c -> stack_ok s root [] (Some c) []
| stack_frame fr fs child below seg :
    stack_ok s root fs (Some (m_curr fr)) below ->
    m_spos fr = length below ->
    frame_ok s fr child seg ->
    stack_ok s root (fr :: fs) child (below ++ seg).

Lemma frame_ok_ext s s' fr child seg : ext s s' -> frame_ok s fr child seg -> frame_ok s' fr child seg.
Proof.
  intros He. unfold frame_ok, pending. destruct (m_curr fr) as [o args]. destruct (m_state fr), child as [c|].
  - intros (? & ? & ? & ? & j & a & ? & ? & ? & ? & ?). repeat (split; [done|]).
    exists j, a. split_and!; eauto using covers_ext, agrees_ext.
  - intros (? & ? & ? & ? & ? & ?). repeat (split; [done|]). eauto using covers_ext.
  - intros (x & -> & ?). eauto using agrees_ext.
  - intros (x & r & -> & ?). eauto using res_ok_ext.
Qed.

Lemma stack_ok_ext s s' root fs child rs : ext s s' -> stack_ok s root fs child rs -> stack_ok s' root fs child rs.
Proof.
  intros He. induction 1; constructor; eauto using res_ok_ext, agrees_ext, frame_ok_ext.
Qed.

(** [set_new_child_flag] where the flag is [b]. *)
Definition flagged (b : bool) (fs : list frame) : list frame :=
  match fs with [] => [] | fr :: fs' => (if b then with_new_child fr else fr) :: fs' end.

Lemma flagged_false fs : flagged false fs = fs.
Proof. by destruct fs. Qed.

Lemma take_S_arg {A} j (l : list A) a : l !! j = Some a -> take (Datatypes.S j) l = take j l ++ [a].
Proof. apply take_S_r. Qed.

(** The result of the term waited for is pushed; the flag of the frame below is
    set, unless the result is the term. *)
Lemma stack_fill s root fs c rs r b :
  stack_ok s root fs (Some c) rs -> res_ok s c r -> (b = false -> r = c) ->
  stack_ok s root (flagged b fs) None (rs ++ [r]).
Proof.
  intros Hst Hr Hb. inversion Hst as [|c' Hc|fr fs' ch below seg Hbelow Hpos Hfr]; subst.
  - apply stack_done. by eapply res_ok_trans.
  - rewrite <- app_assoc. apply stack_frame; [by destruct b|by destruct b|].
    clear Hbelow Hpos Hst. destruct fr as [t cr nc st d i p]. unfold frame_ok, pending in *.
    destruct b; cbn [with_new_child m_curr m_state m_max_depth m_i m_new_child] in *; destruct t as [o args], st.
    all: try (destruct Hfr as (x & -> & Hag); exists x, r; split; [done|]; by eapply res_ok_trans).
    all: destruct Hfr as (? & ? & ? & ? & j & a & Hj & Ha & Hcov & Hag & Hnew); repeat (split; [done|]).
    all: rewrite Hj, (take_S_arg _ _ _ Ha); (split; [apply cov_one; [done|by eapply res_ok_trans]|intros Hn]).
    { done. }
    destruct (Hnew Hn) as [[-> ->]|?]; [left|by right]. by rewrite Hb.
Qed.

(** Another term in the place of the one waited for. *)
Lemma stack_child s root fs t u rs : agrees (models s) t u -> u = t \/ full ->
  stack_ok s root fs (Some t) rs -> stack_ok s root fs (Some u) rs.
Proof.
  intros Ha Hu Hs. inversion Hs as [|c' Hc|fr fs' ch below seg Hbelow Hpos Hfr]; subst.
  { constructor. by transitivity t. }
  constructor; [done|done|]. clear -Ha Hu Hfr. unfold frame_ok, pending in *.
  destruct (m_curr fr) as [o args], (m_state fr).
  - destruct Hfr as (? & ? & ? & ? & j & a & ? & ? & ? & ? & Hnew). repeat (split; [done|]). exists j, a.
    repeat (split; [done|]). split; [by transitivity t|]. intros Hn.
    destruct (Hnew Hn) as [[? <-]|]; [|by right]. destruct Hu as [->|]; [by left|by right].
  - destruct Hfr as (x & -> & ?). exists x. split; [done|]. by transitivity t.
Qed.

(** ** The machine *)

Definition cache_ok (s : S) (c : C) : Prop := forall k v, cache_maps c k v -> res_ok s k v.

Definition machine_ok (root : expr) (child : option expr) (rw : machine S C) : Prop :=
  inv (m_cfg rw) /\ cache_ok (m_cfg rw) (m_cache rw)
  /\ stack_ok (m_cfg rw) root (m_frame_stack rw) child (m_result_stack rw).

Lemma cache_ok_ext s s' c : ext s s' -> cache_ok s c -> cache_ok s' c.
Proof. intros He Hc k v Hk. eapply res_ok_ext; [done|by apply Hc]. Qed.

Lemma machine_ok_cfg root child rw s : inv s -> ext (m_cfg rw) s -> machine_ok root child rw ->
  machine_ok root child (with_cfg s rw).
Proof.
  intros Hi He (_ & Hc & Hs). split; [done|]. split; [by eapply cache_ok_ext|by eapply stack_ok_ext].
Qed.

(** A weight that every step of a one-shot rewriter decreases. *)
Fixpoint weight (t : expr) : nat := let 'App _ args := t in (2 + sum_list_with weight args)%nat.

Definition frame_weight (fr : frame) : nat :=
  match m_state fr with
  | PROCESS_CHILDREN => let 'App _ args := m_curr fr in (1 + sum_list_with weight (drop (m_i fr) args))%nat
  | REWRITE_BUILTIN => 1%nat
  end.

Definition stack_weight (rw : machine S C) : nat := sum_list_with frame_weight (m_frame_stack rw).

Lemma flagged_weight b fs : sum_list_with frame_weight (flagged b fs) = sum_list_with frame_weight fs.
Proof. by destruct fs as [|[] fs], b. Qed.

(** A one-shot reduction is done. *)
Lemma reduced_shape s o args Q : spec_exn raises (reduce_app o args s) Q ->
  spec_exn raises (reduce_app o args s) (fun x : br_result * S =>
    Q x /\ match x.1 with Some (st, _) => OneShot S -> st = BR_DONE | None => True end).
Proof.
  intros HQ st0. specialize (HQ st0). destruct (reduce_app o args s st0) as [[[[st r]|] s'] st1|e] eqn:Er; [|done|done].
  split; [done|]. intros Ho. pose proof (one_shot o args s st0) as Hos. by rewrite Er in Hos.
Qed.

(** *** One constant *)

Definition const_post (s : S) (t0 : expr) (x : const_result * S) : Prop :=
  inv x.2 /\ ext s x.2
  /\ match x.1 with
     | CPush r flag => res_ok x.2 t0 r /\ (flag = false -> r = t0)
     | CVisit r => agrees (models x.2) t0 r /\ good ok_op r /\ (0 < num_args r)%nat /\ full /\ ~ OneShot S
     end.

Lemma process_const_ok n (retried : bool) t0 t s :
  (E ExDiverge \/ (OneShot S /\ (0 < n)%nat)) ->
  inv s -> good ok_op t -> num_args t = 0%nat -> agrees (models s) t0 t ->
  (if retried then full else t = t0) ->
  spec_exn E (process_const_loop n retried t s) (const_post s t0).
Proof.
  revert retried t s. induction n as [|n IH]; intros retried t s HE Hi Hg Hn Ha Hr.
  { destruct HE as [HE|[_ ?]]; [by apply spec_exn_throw|lia]. }
  cbn [process_const_loop]. pose proof Hg as Hg'. destruct Hg as [f args Hf _ Hs]. destruct args; [|done].
  assert (Hred := reduce_ok s f [] Hi Hf Hs ltac:(constructor)).
  eapply spec_exn_bind.
  { eapply spec_exn_mono; [apply (reduced_shape _ _ _ _ Hred)|exact E_raises|]. intros x Hx. exact Hx. }
  intros [[[st r]|] s'] [(Hi' & He & Hst) Hos].
  - assert (Hrew : agrees (models s') (App f []) r /\ good ok_op r /\ full -> ~ OneShot S ->
      spec_exn E (if (num_args r =? 0)%nat then process_const_loop n true r s' else mret (CVisit r, s'))
        (const_post s t0)).
    { intros (Hag & Hgr & Hfull) Hno. assert (Ha' : agrees (models s') t0 r).
      { etransitivity; [by eapply agrees_ext|done]. }
      destruct (Nat.eqb_spec (num_args r) 0).
      - eapply spec_exn_mono; [apply IH; try done|done|].
        { destruct HE as [|[? _]]; [by left|done]. }
        intros [x s''] (Hi'' & He'' & Hx). split; [done|]. split; [by transitivity s'|done].
      - apply spec_exn_ret. split; [done|]. split; [done|]. split_and!; try done. lia. }
    destruct st; try (apply Hrew; [done|]; intros Ho; by specialize (Hos Ho)).
    apply spec_exn_ret. split; [done|]. split; [done|]. split; [|done].
    destruct Hst as [Hag Ho]. split; [|done]. etransitivity; [by eapply agrees_ext|done].
  - apply spec_exn_ret. split; [done|]. split; [done|]. split.
    + split; [by eapply agrees_ext|]. destruct retried; [by apply Hr|]. by subst.
    + destruct retried; [done|]. by intros _.
Qed.

(** *** One term *)

Definition flag_if (b : bool) (rw : machine S C) : machine S C := if b then set_new_child_flag rw else rw.

Lemma flag2_if t r rw : set_new_child_flag2 t r rw = flag_if (negb (bool_decide (t = r))) rw.
Proof. unfold set_new_child_flag2. case_decide; [by rewrite bool_decide_true|by rewrite bool_decide_false]. Qed.

Lemma flag_if_frames b rw : m_frame_stack (flag_if b rw) = flagged b (m_frame_stack rw).
Proof. destruct b; [by destruct rw as [? [] ? ? ? ?]|by rewrite flagged_false]. Qed.

Lemma flag_if_other b rw :
  m_cfg (flag_if b rw) = m_cfg rw /\ m_result_stack (flag_if b rw) = m_result_stack rw
  /\ m_cache (flag_if b rw) = m_cache rw.
Proof. by destruct b. Qed.

(** The result of the term waited for arrives. *)
Lemma fill_ok root t rw r b :
  machine_ok root (Some t) rw -> res_ok (m_cfg rw) t r -> (b = false -> r = t) ->
  machine_ok root None (flag_if b (push_result r rw)).
Proof.
  intros (Hi & Hc & Hs) Hr Hb. unfold machine_ok. rewrite flag_if_frames.
  destruct (flag_if_other b (push_result r rw)) as (-> & -> & ->). split; [done|]. split; [done|].
  by eapply stack_fill.
Qed.

Definition visit_post (root t : expr) (rw : machine S C) (x : bool * machine S C) : Prop :=
  ext (m_cfg rw) (m_cfg x.2) /\ machine_ok root None x.2
  /\ if x.1 then exists b r, m_frame_stack x.2 = flagged b (m_frame_stack rw)
                            /\ m_result_stack x.2 = m_result_stack rw ++ [r]
     else exists fr, m_frame_stack x.2 = fr :: m_frame_stack rw
                     /\ (OneShot S -> (frame_weight fr < weight t)%nat).

(** A visit that ends at once. *)
Lemma visit_push root t rw rw' r b :
  ext (m_cfg rw) (m_cfg rw') -> machine_ok root (Some t) rw' ->
  m_frame_stack rw' = m_frame_stack rw -> m_result_stack rw' = m_result_stack rw ->
  res_ok (m_cfg rw') t r -> (b = false -> r = t) ->
  visit_post root t rw (true, flag_if b (push_result r rw')).
Proof.
  intros He Hm Hf Hrs Hr Hb. split; [|split; [by eapply fill_ok|]]; cbn [fst snd].
  - by destruct (flag_if_other b (push_result r rw')) as (-> & _).
  - exists b, r. rewrite flag_if_frames. destruct (flag_if_other b (push_result r rw')) as (_ & -> & _). simpl.
    by rewrite Hf, Hrs.
Qed.

(** A visit that opens a frame. *)
Lemma visit_frame root t u c d rw rw' :
  ext (m_cfg rw) (m_cfg rw') -> machine_ok root (Some t) rw' -> m_frame_stack rw' = m_frame_stack rw ->
  agrees (models (m_cfg rw')) t u -> good ok_op u -> (0 < num_args u)%nat -> (d = 3%nat \/ full) ->
  u = t \/ (full /\ ~ OneShot S) ->
  spec_exn E (rw'' ← push_frame u c d rw'; mret (false, rw'')) (visit_post root t rw).
Proof.
  intros He (Hi & Hc & Hs) Hf Ha Hg Hn Hd Hu. unfold push_frame.
  destruct (max_frames_exceeded _) eqn:Hx.
  { apply spec_exn_bind with (P := fun _ => False); [|done]. apply spec_exn_throw, E_raises. by eapply frames_ok. }
  apply (spec_exn_ret E (false, _)). split; [done|]. split; cbn [fst snd].
  - split; [done|]. split; [done|]. cbn [with_frames m_frame_stack m_result_stack m_cfg].
    rewrite <- (app_nil_r (m_result_stack rw')) at 2. apply stack_frame; [|done|].
    + eapply stack_child; [done| |done]. destruct Hu as [?|[? _]]; [by left|by right].
    + unfold frame_ok, pending. cbn [m_curr m_state m_max_depth m_i m_new_child]. destruct u as [o args].
      split; [done|]. split; [done|]. split; [lia|]. split; [exact Hn|]. split; [constructor|by left].
  - eexists. cbn [with_frames m_frame_stack]. rewrite Hf. split; [done|]. intros Hos.
    destruct Hu as [->|[_ ?]]; [|done]. unfold frame_weight. cbn [m_state m_curr m_i]. destruct t as [o args].
    rewrite drop_0. simpl. lia.
Qed.

Lemma get_cached_ok root child t rw : machine_ok root child rw ->
  machine_ok root child (get_cached t rw).2
  /\ m_cfg (get_cached t rw).2 = m_cfg rw
  /\ m_frame_stack (get_cached t rw).2 = m_frame_stack rw
  /\ m_result_stack (get_cached t rw).2 = m_result_stack rw
  /\ forall r, (get_cached t rw).1 = Some r -> res_ok (m_cfg rw) t r.
Proof.
  intros (Hi & Hc & Hs). unfold get_cached. pose proof (maps_find (m_cache rw) t) as Hf.
  pose proof (maps_find_keep (m_cache rw) t) as Hk. destruct (cache_find t (m_cache rw)) as [r c]. simpl in *.
  split; [|split_and!; try done; intros r' ->; by apply Hc, Hf].
  split; [done|]. split; [|done]. intros k v Hkv. by apply Hc, Hk.
Qed.

Lemma visit_ok root t d rw :
  machine_ok root (Some t) rw -> good ok_op t -> (d = 3%nat \/ full) ->
  spec_exn E (visit ref_count retries t d rw) (visit_post root t rw).
Proof.
  intros Hm Hg Hd. unfold visit. destruct (get_subst t) as [new_t|] eqn:Hsub.
  { apply spec_exn_ret. rewrite flag2_if. apply visit_push; try done.
    - by apply subst_ok.
    - intros Hb. by apply negb_false_iff, bool_decide_eq_true in Hb. }
  destruct (Nat.eqb_spec d 0) as [->|Hd0].
  { apply spec_exn_ret. apply (visit_push root t rw rw t false); try done. split; [done|].
    destruct Hd as [|Hfull]; [done|by apply Hfull]. }
  set (x := if must_cache ref_count t rw then get_cached t rw else (None, rw)).
  assert (Hx : machine_ok root (Some t) x.2 /\ m_cfg x.2 = m_cfg rw /\ m_frame_stack x.2 = m_frame_stack rw
    /\ m_result_stack x.2 = m_result_stack rw /\ forall r, x.1 = Some r -> res_ok (m_cfg rw) t r).
  { unfold x. destruct (must_cache _ _ _); [by apply get_cached_ok|]. split_and!; try done. }
  destruct x as [o rw']. cbn [fst snd] in Hx. destruct Hx as (Hm' & Hcfg & Hf & Hrs & Hr).
  assert (He : ext (m_cfg rw) (m_cfg rw')) by by rewrite Hcfg.
  destruct o as [r|].
  { apply spec_exn_ret. rewrite flag2_if. apply visit_push; try done.
    - rewrite Hcfg. by apply Hr.
    - intros Hb. by apply negb_false_iff, bool_decide_eq_true in Hb. }
  destruct (negb (pre_visit t)) eqn:Hp.
  { apply spec_exn_ret. apply (visit_push root t rw rw' t false); try done. split; [done|].
    apply pre_visit_ok. by apply negb_true_iff. }
  set (depth := if (d =? RW_UNBOUNDED_DEPTH)%nat then d else (d - 1)%nat).
  assert (Hdepth : depth = 3%nat \/ full).
  { unfold depth. destruct Hd as [->|]; [by left|by right]. }
  destruct (Nat.eqb_spec (num_args t) 0) as [Hn|Hn].
  2: { apply visit_frame; try done; [lia|by left]. }
  eapply spec_exn_bind.
  { apply (process_const_ok retries false t); try done. apply Hm'. }
  intros [y s'] (Hi' & He' & Hy). cbn [fst snd] in *.
  assert (Hms : machine_ok root (Some t) (with_cfg s' rw')) by by apply machine_ok_cfg.
  destruct y as [r flag|r].
  - apply spec_exn_ret. apply (visit_push root t rw (with_cfg s' rw') r flag); try done; try apply Hy.
    simpl. by transitivity (m_cfg rw').
  - destruct Hy as (Hag & Hgr & Hnr & Hfull & Hos). apply visit_frame; try done; [|by right].
    simpl. by transitivity (m_cfg rw').
Qed.

(** *** The frame at the top *)

Lemma spec_top {A} (rw : machine S C) fr fs (k : frame -> M A) Q : m_frame_stack rw = fr :: fs ->
  spec_exn E (k fr) Q -> spec_exn E (fr ← top_frame rw; k fr) Q.
Proof. intros Hf Hk. unfold top_frame. by rewrite Hf. Qed.

Definition fs_weight (fs : list frame) : nat := sum_list_with frame_weight fs.

Lemma machine_top root rw fr fs : machine_ok root None rw -> m_frame_stack rw = fr :: fs ->
  exists below seg, m_result_stack rw = below ++ seg /\ m_spos fr = length below
    /\ stack_ok (m_cfg rw) root fs (Some (m_curr fr)) below /\ frame_ok (m_cfg rw) fr None seg.
Proof.
  intros (_ & _ & Hs) Hf. rewrite Hf in Hs. remember (m_result_stack rw) as rs. inversion Hs; subst. eauto 10.
Qed.

(** The result [r] of the top frame replaces its segment, and the frame ends. *)
Lemma finish_ok root rw fr fs below r b :
  inv (m_cfg rw) -> cache_ok (m_cfg rw) (m_cache rw) ->
  m_frame_stack rw = fr :: fs -> stack_ok (m_cfg rw) root fs (Some (m_curr fr)) below ->
  res_ok (m_cfg rw) (m_curr fr) r -> (b = false -> r = m_curr fr) ->
  let rw' := flag_if b (pop_frame (cache_result (m_curr fr) r (m_cache_result fr)
               (with_results (below ++ [r]) rw))) in
  m_cfg rw' = m_cfg rw /\ machine_ok root None rw' /\ stack_weight rw' = fs_weight fs.
Proof.
  intros Hi Hc Hf Hs Hr Hb rw'.
  set (rw1 := with_results below (pop_frame (cache_result (m_curr fr) r (m_cache_result fr) rw))).
  assert (Hrw' : rw' = flag_if b (push_result r rw1)) by (unfold rw', rw1; by destruct (m_cache_result fr)).
  assert (Hrw1 : m_cfg rw1 = m_cfg rw /\ m_frame_stack rw1 = fs /\ m_result_stack rw1 = below
            /\ cache_ok (m_cfg rw) (m_cache rw1)).
  { unfold rw1, pop_frame, cache_result. destruct (m_cache_result fr); simpl; rewrite Hf; split_and!; try done.
    intros k v Hkv. apply maps_insert in Hkv as [[-> ->]|Hkv]; [done|by apply Hc]. }
  destruct Hrw1 as (E1 & E2 & E3 & E4). rewrite Hrw'.
  destruct (flag_if_other b (push_result r rw1)) as (Ec & _ & _). split_and!.
  - by rewrite Ec.
  - eapply (fill_ok _ (m_curr fr)); [|by rewrite E1|done]. unfold machine_ok. by rewrite E1, E2, E3.
  - unfold stack_weight. rewrite flag_if_frames, flagged_weight. change (m_frame_stack (push_result r rw1)) with (m_frame_stack rw1). by rewrite E2.
Qed.

Definition step_post (root : expr) (bound : nat) (rw rw' : machine S C) : Prop :=
  ext (m_cfg rw) (m_cfg rw') /\ machine_ok root None rw' /\ (OneShot S -> (stack_weight rw' < bound)%nat).

Lemma finish_builtin_ok root rw fr fs bound :
  machine_ok root None rw -> m_frame_stack rw = fr :: fs -> m_state fr = REWRITE_BUILTIN ->
  (fs_weight fs < bound)%nat ->
  spec_exn E (finish_builtin (m_curr fr) rw) (step_post root bound rw).
Proof.
  intros Hm Hf Hst Hb. destruct (machine_top _ _ _ _ Hm Hf) as (below & seg & Hrs & Hpos & Hs & Hfr).
  unfold frame_ok in Hfr. rewrite Hst in Hfr. destruct (m_curr fr) as [o args] eqn:Ht.
  destruct Hfr as (x & r & -> & Hr). unfold finish_builtin. apply (spec_top _ fr fs); [done|].
  rewrite Hrs, rev_app_distr. cbn [rev app]. apply spec_exn_ret. rewrite rev_involutive.
  destruct Hm as (Hi & Hc & _). rewrite <- Ht in *.
  destruct (finish_ok root rw fr fs below r true Hi Hc Hf Hs Hr) as (E1 & E2 & E3); [done|].
  cbn [flag_if] in *. split; [by rewrite E1|]. split; [done|]. intros _. by rewrite E3.
Qed.

Lemma rewrite_in_place_ok root rw fr fs below seg arg d :
  inv (m_cfg rw) -> cache_ok (m_cfg rw) (m_cache rw) -> m_frame_stack rw = fr :: fs ->
  m_result_stack rw = below ++ seg -> m_spos fr = length below ->
  stack_ok (m_cfg rw) root fs (Some (m_curr fr)) below ->
  agrees (models (m_cfg rw)) (m_curr fr) arg -> good ok_op arg -> (d = 3%nat \/ full) ->
  spec_exn E (rewrite_in_place ref_count retries (m_curr fr) arg d rw)
    (step_post root (1 + fs_weight fs + weight arg) rw).
Proof.
  intros Hi Hc Hf Hrs Hpos Hs Ha Hg Hd. unfold rewrite_in_place. apply (spec_top _ fr fs); [done|].
  rewrite Hrs, Hpos, take_app_length.
  set (fr1 := with_state REWRITE_BUILTIN fr). set (rw1 := on_top _ _).
  assert (Hrw1 : m_cfg rw1 = m_cfg rw /\ m_frame_stack rw1 = fr1 :: fs /\ m_result_stack rw1 = below ++ [arg]
            /\ m_cache rw1 = m_cache rw) by (unfold rw1, on_top; simpl; by rewrite Hf).
  destruct Hrw1 as (E1 & E2 & E3 & E4).
  eapply spec_exn_bind.
  { apply (visit_ok root arg d rw1); [|done|done]. unfold machine_ok. rewrite E1, E2, E3, E4.
    split; [done|]. split; [done|]. apply stack_frame; [done|done|].
    unfold frame_ok. cbn. destruct (m_curr fr) eqn:Ht. exists arg. done. }
  intros [b rw2] (He & Hm2 & Hb). cbn [fst snd] in *. rewrite E1 in He. destruct b.
  - destruct Hb as (b & r & Hfr2 & _). rewrite E2 in Hfr2. cbn [flagged] in Hfr2.
    replace (m_curr fr) with (m_curr (if b then with_new_child fr1 else fr1)) by by destruct b.
    eapply spec_exn_mono; [eapply (finish_builtin_ok root rw2); [done|done|by destruct b|]|done|].
    2: { intros rw' (? & ? & Hw). split; [by etransitivity|]. split; [done|exact Hw]. }
    lia.
  - destruct Hb as (fr2 & Hfr2 & Hw). apply spec_exn_ret. split; [done|]. split; [done|]. intros Ho.
    unfold stack_weight. rewrite Hfr2, E2. specialize (Hw Ho). unfold fs_weight. cbn [sum_list_with].
    change (frame_weight fr1) with 1%nat. lia.
Qed.

(** *** The arguments *)

(** The frame at the top is that of [t], whose arguments are being visited. *)
Definition visiting (t : expr) (i : nat) (fs : list frame) (rw : machine S C) : Prop :=
  exists fr, m_frame_stack rw = fr :: fs /\ m_curr fr = t /\ m_state fr = PROCESS_CHILDREN /\ m_i fr = i.

Lemma step_post_mono root b b' rw rw' : (b <= b')%nat -> step_post root b rw rw' -> step_post root b' rw rw'.
Proof. intros Hb (He & Hm & Hw). split; [done|]. split; [done|]. intros Ho. specialize (Hw Ho). lia. Qed.

(** Without flattening every argument has one result. *)
Lemma covers_each s o ts rs : is_associative o = false -> covers s o ts rs -> Forall2 (res_ok s) ts rs.
Proof.
  intros Ho. induction 1; [constructor| |congruence]. apply Forall2_app; [done|]. by constructor.
Qed.

(** A decided condition selects a branch. *)
Lemma ite_select P c t e r (b : bool) : agrees P c r -> r = (if b then m.mk_true else m.mk_false) ->
  is_Some (get_sort (m.mk_ite c t e)) -> agrees P (m.mk_ite c t e) (if b then t else e).
Proof.
  intros Hc -> _ s Hs. pose proof Hs as (Bc & Ht & He)%get_sort_ite. split; [by destruct b|].
  intros I HI. rewrite eval_ite. destruct (Hc _ Bc) as [_ Hv]. unfold bval. rewrite <- (Hv I HI). by destruct b.
Qed.

Lemma ite_args args : is_Some (get_sort (App OP_ITE args)) -> exists c t e, args = [c; t; e].
Proof.
  intros [s Hs]. rewrite get_sort_app in Hs. destruct (get_sorts args) as [ss|] eqn:Hss; [|done].
  apply get_sorts_Forall2, Forall2_length in Hss. simpl in Hs.
  destruct ss as [|s1 [|s2 [|s3 [|]]]]; try (by destruct s1); try done.
  destruct args as [|c [|t [|e [|]]]]; try done. by exists c, t, e.
Qed.

Lemma constant_fold_ok root o args fr fs rw :
  machine_ok root None rw -> m_frame_stack rw = fr :: fs -> m_curr fr = App o args ->
  m_state fr = PROCESS_CHILDREN ->
  spec_exn E (constant_fold ref_count retries (App o args) fr rw) (fun x =>
    match x with Some rw' => step_post root (stack_weight rw) rw rw' | None => True end).
Proof.
  intros Hm Hf Ht Hst. pose proof (machine_top _ _ _ _ Hm Hf) as (below & seg & Hrs & Hpos & Hs & Hfr).
  unfold constant_fold. destruct (decide (o = OP_ITE)) as [->|Ho].
  2: { destruct o; by apply spec_exn_ret. }
  destruct (Nat.eqb_spec (m_i fr) 1) as [Hi|]; [|by apply spec_exn_ret].
  unfold frame_ok, pending in Hfr. rewrite Ht, Hst, Hi in Hfr.
  destruct Hfr as (Hg & Hd & _ & _ & Hcov & _). inversion Hg as [? ? _ Hga Hsort]; subst.
  destruct (ite_args args Hsort) as (c & t & e & ->). cbn [take] in Hcov.
  apply covers_each in Hcov; [|done]. inversion Hcov as [|? r ? ? [Hr _] Hnil]; subst. inversion Hnil; subst.
  rewrite Hrs, Hpos, lookup_app_r, Nat.sub_diag by lia. cbn [lookup list_lookup].
  apply Forall_cons in Hga as [_ Hga]. apply Forall_cons in Hga as [Hgt Hga]. apply Forall_cons in Hga as [Hge _].
  assert (Hw : stack_weight rw = (1 + fs_weight fs + weight t + weight e)%nat).
  { unfold stack_weight. rewrite Hf. cbn [sum_list_with]. unfold frame_weight at 1. rewrite Hst, Ht, Hi. simpl.
    unfold fs_weight. lia. }
  assert (Hgo : forall b : bool, r = (if b then m.mk_true else m.mk_false) ->
    spec_exn E (rw' ← rewrite_in_place ref_count retries (App OP_ITE [c; t; e]) (if b then t else e) (m_max_depth fr) rw;
                mret (Some rw'))
      (fun x => match x with Some rw' => step_post root (stack_weight rw) rw rw' | None => True end)).
  { intros b Hb. eapply spec_exn_bind.
    - rewrite <- Ht. eapply rewrite_in_place_ok; [apply Hm|apply Hm|done|done|done|done| | |done].
      + rewrite Ht. by eapply ite_select.
      + by destruct b.
    - intros rw' Hp. apply spec_exn_ret. eapply step_post_mono; [|exact Hp]. rewrite Hw. destruct b; lia. }
  destruct (m.is_true r) eqn:E1; [apply bool_decide_eq_true in E1; by apply (Hgo true)|].
  destruct (m.is_false r) eqn:E2; [apply bool_decide_eq_true in E2; by apply (Hgo false)|].
  by apply spec_exn_ret.
Qed.

Definition children_post (root t : expr) (fs : list frame) (rw : machine S C) (x : bool * machine S C) : Prop :=
  if x.1 then ext (m_cfg rw) (m_cfg x.2) /\ machine_ok root None x.2 /\ visiting t (num_args t) fs x.2
              /\ (stack_weight x.2 <= stack_weight rw)%nat
  else step_post root (stack_weight rw) rw x.2.

Lemma next_child root o args fr fs rw arg :
  machine_ok root None rw -> m_frame_stack rw = fr :: fs -> m_curr fr = App o args ->
  m_state fr = PROCESS_CHILDREN -> args !! m_i fr = Some arg ->
  machine_ok root (Some arg) (on_top with_next_i rw) /\ good ok_op arg /\ (m_max_depth fr = 3%nat \/ full)
  /\ m_frame_stack (on_top with_next_i rw) = with_next_i fr :: fs
  /\ (stack_weight (on_top with_next_i rw) + weight arg = stack_weight rw)%nat.
Proof.
  intros Hm Hf Ht Hst Ha. pose proof (machine_top _ _ _ _ Hm Hf) as (below & seg & Hrs & Hpos & Hs & Hfr).
  assert (E1 : m_frame_stack (on_top with_next_i rw) = with_next_i fr :: fs) by (simpl; by rewrite Hf).
  assert (Hlt : (m_i fr < length args)%nat) by by eapply lookup_lt_Some.
  unfold frame_ok, pending in Hfr. rewrite Ht, Hst in Hfr. destruct Hfr as (Hg & Hd & Hi & Hn & Hcov & Hnew).
  split; [|split; [|split; [done|split; [done|]]]].
  - destruct Hm as (Hinv & Hc & _). split; [done|]. split; [done|]. rewrite E1.
    change (m_result_stack (on_top with_next_i rw)) with (m_result_stack rw). rewrite Hrs.
    apply stack_frame; [done|done|]. unfold frame_ok, pending. cbn. rewrite Ht, Hst.
    split; [done|]. split; [done|]. split; [lia|]. split; [done|]. exists (m_i fr), arg.
    split; [done|]. split; [done|]. split; [done|]. split; [done|]. intros H3. destruct (Hnew H3); auto.
  - inversion Hg as [? ? _ Hga _]; subst. by eapply Forall_lookup_1.
  - unfold stack_weight. rewrite E1, Hf. cbn [sum_list_with]. unfold frame_weight at 1 3. cbn. rewrite Ht, Hst.
    rewrite (drop_S _ _ _ Ha). simpl. lia.
Qed.

Lemma process_children_ok root o args n fs rw :
  (n <= length args)%nat ->
  machine_ok root None rw -> visiting (App o args) (length args - n) fs rw ->
  spec_exn E (process_children ref_count retries n (App o args) rw) (children_post root (App o args) fs rw).
Proof.
  revert rw. induction n as [|n IH]; intros rw Hn Hm (fr & Hf & Ht & Hst & Hi).
  { apply (spec_exn_ret E (true, rw)). split; [done|]. split; [done|]. split; [|cbn; lia]. exists fr.
    split_and!; try done. simpl. lia. }
  cbn [process_children]. apply (spec_top _ fr fs); [done|].
  eapply spec_exn_bind; [by eapply constant_fold_ok|]. intros [rw'|] Hfold; [by apply (spec_exn_ret E (false, rw'))|].
  destruct (lookup_lt_is_Some_2 args (m_i fr)) as [arg Harg]; [lia|]. rewrite Harg.
  destruct (next_child root o args fr fs rw arg) as (Hm1 & Hg & Hd & Hf1 & Hw); try done.
  eapply spec_exn_bind; [by apply (visit_ok root arg)|]. intros [b rw2] (He & Hm2 & Hb). cbn [fst snd] in *. destruct b.
  - destruct Hb as (b & r & Hf2 & _). rewrite Hf1 in Hf2. eapply spec_exn_mono; [apply (IH rw2)|done|].
    + lia.
    + done.
    + eexists. split; [exact Hf2|]. destruct b; cbn; split_and!; try done; lia.
    + assert (Hw2 : (stack_weight rw2 + weight arg = stack_weight rw)%nat).
      { rewrite <- Hw. unfold stack_weight at 1. rewrite Hf2.
        change (stack_weight (on_top with_next_i rw)) with (sum_list_with frame_weight (m_frame_stack (on_top with_next_i rw))).
        rewrite Hf1. by destruct b. }
      intros [b' rw3] H3. unfold children_post in *. cbn [fst snd] in *. destruct b'.
      * destruct H3 as (He3 & Hm3 & Hv & Hw3). split; [by etransitivity|]. split_and!; try done. lia.
      * destruct H3 as (He3 & Hm3 & Hw3). split; [by etransitivity|]. split_and!; try done.
        intros Ho. specialize (Hw3 Ho). lia.
  - destruct Hb as (fr2 & Hf2 & Hw2). apply (spec_exn_ret E (false, rw2)). split; [done|]. split; [done|]. cbn [snd].
    intros Ho. specialize (Hw2 Ho). unfold stack_weight in *. rewrite Hf2. cbn [sum_list_with] in *. lia.
Qed.

(** *** The application *)

(** The results of a flattened frame become those of the frame below. *)
Lemma stack_flatten s root pf fs o pargs args below seg :
  stack_ok s root (pf :: fs) (Some (App o args)) below -> m_curr pf = App o pargs ->
  m_state pf = PROCESS_CHILDREN -> flat_assoc o = true -> is_associative o = true ->
  covers s o args seg -> stack_ok s root (with_new_child pf :: fs) None (below ++ seg).
Proof.
  intros Hs Ht Hst Hfl Has Hcov. inversion Hs as [| |? ? ? below' segp Hb Hpos Hfr]; subst. rewrite <- app_assoc.
  apply stack_frame; [done|done|]. unfold frame_ok, pending in *. cbn. rewrite Ht, Hst in *.
  destruct Hfr as (? & ? & ? & ? & j & a & Hj & Ha & Hc & Hag & _). repeat (split; [done|]). split; [|done].
  rewrite Hj, (take_S_arg _ _ _ Ha). by eapply cov_flat.
Qed.

Lemma visiting_weight t fs rw : visiting t (num_args t) fs rw -> stack_weight rw = (1 + fs_weight fs)%nat.
Proof.
  intros (fr & Hf & Ht & Hst & Hi). unfold stack_weight. rewrite Hf. cbn [sum_list_with].
  unfold frame_weight at 1. rewrite Hst, Ht, Hi. destruct t as [o args]. cbn [num_args]. by rewrite drop_all.
Qed.

Lemma finish_app_ok root rw fr fs r b (k : machine S C -> machine S C) :
  machine_ok root None rw -> m_frame_stack rw = fr :: fs -> res_ok (m_cfg rw) (m_curr fr) r ->
  (b = false -> r = m_curr fr) -> (forall rw, k rw = flag_if b rw) ->
  spec_exn E (rw' ← finish_app (m_curr fr) r rw; mret (k rw')) (step_post root (1 + fs_weight fs) rw).
Proof.
  intros Hm Hf Hr Hb Hk. destruct (machine_top _ _ _ _ Hm Hf) as (below & seg & Hrs & Hpos & Hs & Hfr).
  destruct Hm as (Hi & Hc & _). destruct (finish_ok root rw fr fs below r b Hi Hc Hf Hs Hr Hb) as (E1 & E2 & E3).
  unfold finish_app, top_frame. rewrite Hf, Hrs. apply (spec_exn_ret E (k _)). rewrite Hpos, take_app_length, Hk.
  split; [by rewrite E1|]. split; [done|]. intros _. rewrite E3. lia.
Qed.

Lemma flattens_ok root o args fs rw :
  machine_ok root None rw -> visiting (App o args) (length args) fs rw ->
  flattens ref_count o (App o args) rw = true ->
  step_post root (1 + fs_weight fs) rw (set_new_child_flag (pop_frame rw)).
Proof.
  intros Hm (fr & Hf & Ht & Hst & Hi) Hfl. destruct (machine_top _ _ _ _ Hm Hf) as (below & seg & Hrs & Hpos & Hs & Hfr).
  unfold flattens in Hfl. rewrite Hf in Hfl. apply andb_true_iff in Hfl as [Hfl Hpf]. apply andb_true_iff in Hfl as [Has _].
  destruct fs as [|pf fs]; [done|]. destruct (m_curr pf) as [g pargs] eqn:Hg.
  apply andb_true_iff in Hpf as [Hpf Hfa]. apply andb_true_iff in Hpf as [Hgo Hps].
  apply bool_decide_eq_true in Hgo as ->. apply bool_decide_eq_true in Hps.
  unfold frame_ok, pending in Hfr. rewrite Ht, Hst, Hi, firstn_all in Hfr. destruct Hfr as (_ & _ & _ & _ & Hcov & _).
  destruct Hm as (Hinv & Hc & _). rewrite Ht in Hs. split; [done|]. split; [split; [done|]; split; [done|]|].
  - unfold set_new_child_flag, on_top, pop_frame. simpl. rewrite Hf, Hrs. cbn [tail]. by eapply stack_flatten.
  - intros _. unfold stack_weight, set_new_child_flag, on_top, pop_frame. simpl. rewrite Hf. cbn [tail]. unfold fs_weight.
    cbn [sum_list_with]. change (frame_weight (with_new_child pf)) with (frame_weight pf). lia.
Qed.

Lemma reduce_children_ok root o args fs rw :
  machine_ok root None rw -> visiting (App o args) (length args) fs rw ->
  spec_exn E (reduce_children ref_count retries (App o args) rw) (step_post root (stack_weight rw) rw).
Proof.
  intros Hm Hv. rewrite (visiting_weight _ _ _ Hv). unfold reduce_children.
  destruct (flattens _ _ _ _) eqn:Hfl; [by apply spec_exn_ret, (flattens_ok root o args)|].
  destruct Hv as (fr & Hf & Ht & Hst & Hi). apply (spec_top _ fr fs); [done|].
  destruct (machine_top _ _ _ _ Hm Hf) as (below & seg & Hrs & Hpos & Hs & Hfr).
  unfold frame_ok, pending in Hfr. rewrite Ht, Hst, Hi, firstn_all in Hfr. destruct Hfr as (Hg & _ & _ & _ & Hcov & Hnew).
  rewrite Hrs, Hpos, drop_app_length. inversion Hg as [? ? Hop Hga [srt Hsrt]]; subst.
  pose proof (covers_app _ _ _ _ Hcov) as Hag. destruct (Hag _ Hsrt) as [Hsseg _].
  pose proof (reduce_ok (m_cfg rw) o seg (proj1 Hm) Hop (ex_intro _ srt Hsseg) (covers_out _ _ _ _ Hcov)) as Hred.
  eapply spec_exn_bind.
  { eapply spec_exn_mono; [apply (reduced_shape _ _ _ _ Hred)|exact E_raises|]. intros x Hx. exact Hx. }
  intros [st s'] [(Hi' & He & Hst') Hos].
  assert (Hm' : machine_ok root None (with_cfg s' rw)) by by apply machine_ok_cfg.
  assert (Hf' : m_frame_stack (with_cfg s' rw) = fr :: fs) by done.
  assert (Hag' : forall r, res_ok s' (App o seg) r -> res_ok s' (m_curr fr) r).
  { intros r Hr. rewrite Ht. eapply res_ok_trans; [by eapply agrees_ext|done]. }
  assert (Hpost : forall b rw', step_post root b (with_cfg s' rw) rw' -> step_post root b rw rw').
  { intros b rw' (He2 & ? & ?). split; [|done]. by transitivity s'. }
  rewrite <- Ht. destruct st as [[st r]|].
  - destruct (rewrite_depth st) as [d|] eqn:Hd.
    + assert (Hno : st <> BR_DONE) by by intros ->.
      assert (Hrew : agrees (models s') (App o seg) r /\ good ok_op r /\ full) by by destruct st.
      destruct Hrew as (Hagr & Hgr & Hfull). destruct Hm' as (Hi2 & Hc2 & Hs2).
      eapply spec_exn_mono; [eapply (rewrite_in_place_ok root (with_cfg s' rw) fr fs below seg)|done|];
        try done; [| |by right|].
      * eapply stack_ok_ext; [exact He|done].
      * rewrite Ht. etransitivity; [by eapply agrees_ext|done].
      * intros rw' (He2 & Hm2 & _). apply Hpost. split; [done|]. split; [done|]. intros Ho. by destruct Hno, Hos.
    + assert (st = BR_DONE) as -> by by destruct st.
      eapply spec_exn_mono; [eapply (finish_app_ok root (with_cfg s' rw) fr fs r true)|done|]; try done; [by apply Hag'|].
      apply Hpost.
  - set (m_r := match get_macro o with Some def => def | None => if m_new_child fr then App o seg else m_curr fr end).
    eapply spec_exn_mono; [eapply (finish_app_ok root (with_cfg s' rw) fr fs m_r (negb (bool_decide (m_curr fr = m_r))))|done|];
      try done; [| | |apply Hpost].
    + unfold m_r. destruct (get_macro o) as [d|] eqn:Hmac; [rewrite Ht; by apply macro_ok|].
      destruct (m_new_child fr); [apply Hag'; by split|]. split; [done|].
      destruct (Hnew eq_refl) as [->|Hfull]; [by rewrite Ht|apply Hfull].
    + intros Hb. by apply negb_false_iff, bool_decide_eq_true in Hb.
    + intros rw0. apply flag2_if.
Qed.

(** *** The loop *)

Lemma process_app_ok root rw fr fs :
  machine_ok root None rw -> m_frame_stack rw = fr :: fs ->
  spec_exn E (process_app ref_count retries (m_curr fr) rw) (step_post root (stack_weight rw) rw).
Proof.
  intros Hm Hf. unfold process_app. apply (spec_top _ fr fs); [done|].
  destruct (m_state fr) eqn:Hst.
  - destruct (machine_top _ _ _ _ Hm Hf) as (below & seg & _ & _ & _ & Hfr). unfold frame_ok in Hfr. rewrite Hst in Hfr.
    destruct (m_curr fr) as [o args] eqn:Ht. destruct Hfr as (_ & _ & Hi & _). cbn [num_args].
    eapply spec_exn_bind.
    { apply (process_children_ok root o args _ fs); [lia|done|]. exists fr. split_and!; try done. lia. }
    intros [b rw'] Hb. unfold children_post in Hb. cbn [fst snd] in Hb. destruct b; [|by apply spec_exn_ret].
    destruct Hb as (He & Hm' & Hv & Hw). eapply spec_exn_mono; [by apply (reduce_children_ok root o args fs)|done|].
    intros rw'' (He' & Hm'' & Hw'). split; [by transitivity (m_cfg rw')|]. split; [done|].
    intros Ho. specialize (Hw' Ho). lia.
  - eapply finish_builtin_ok; [done|done|done|]. unfold stack_weight. rewrite Hf. cbn [sum_list_with].
    unfold frame_weight at 1. rewrite Hst. unfold fs_weight. lia.
Qed.

Lemma check_cancel_ok : spec_exn E check_cancel (fun _ => True).
Proof. intros s. unfold check_cancel. destruct (canceled _) eqn:Hc; [|done]. left. right. eauto. Qed.

Lemma check_max_steps_ok (rw : machine S C) :
  (0 <= m_num_steps rw < 2 ^ 32)%Z -> spec_exn E (check_max_steps rw) (fun _ => True).
Proof.
  intros Hn. unfold check_max_steps. eapply spec_exn_bind.
  { eapply spec_exn_mono; [by apply steps_ok|exact E_raises|]. intros x Hx. exact Hx. }
  intros [] Hb; [by apply spec_exn_throw, E_raises, Hb|by apply spec_exn_ret].
Qed.

(** A cached result ends a frame at its first visit. *)
Lemma cached_ok root rw fr fs r :
  machine_ok root None rw -> m_frame_stack rw = fr :: fs -> first_visit fr = true ->
  res_ok (m_cfg rw) (m_curr fr) r ->
  step_post root (stack_weight rw) rw (set_new_child_flag2 (m_curr fr) r (pop_frame (push_result r rw))).
Proof.
  intros Hm Hf Hv Hr. destruct (machine_top _ _ _ _ Hm Hf) as (below & seg & Hrs & Hpos & Hs & Hfr).
  apply andb_true_iff in Hv as [Hst Hi]. apply bool_decide_eq_true in Hst. apply Nat.eqb_eq in Hi.
  unfold frame_ok, pending in Hfr. rewrite Hst, Hi in Hfr. destruct (m_curr fr) as [o args] eqn:Ht.
  destruct Hfr as (_ & _ & _ & _ & Hcov & _). cbn [take] in Hcov.
  assert (seg = []) as ->.
  { inversion Hcov as [| ? ? ? ? ? ? Ex |? ? ? ? ? ? ? ? ? ? Ex]; [done|..]; by apply app_nil in Ex as [_ ?]. }
  rewrite app_nil_r in Hrs. destruct Hm as (Hinv & Hc & _). rewrite <- Ht in *. rewrite flag2_if.
  change (pop_frame (push_result r rw)) with (push_result r (pop_frame rw)).
  set (b := negb (bool_decide (m_curr fr = r))).
  destruct (flag_if_other b (push_result r (pop_frame rw))) as (Ec & _ & _). split; [by rewrite Ec|]. split.
  - apply (fill_ok root (m_curr fr)).
    + split; [done|]. split; [done|]. cbn. by rewrite Hf, Hrs.
    + done.
    + intros Hb. by apply negb_false_iff, bool_decide_eq_true in Hb.
  - intros _. unfold stack_weight. rewrite flag_if_frames, flagged_weight.
    change (m_frame_stack (push_result r (pop_frame rw))) with (tail (m_frame_stack rw)). rewrite Hf. cbn [tail sum_list_with].
    unfold frame_weight at 2. rewrite Hst. destruct (m_curr fr). lia.
Qed.

Lemma step_ok root rw :
  machine_ok root None rw -> m_frame_stack rw <> [] ->
  spec_exn E (step ref_count retries rw) (step_post root (stack_weight rw) rw).
Proof.
  intros Hm Hne. destruct (m_frame_stack rw) as [|fr fs] eqn:Hf; [done|]. unfold step.
  eapply spec_exn_bind; [apply check_cancel_ok|]. intros _ _. apply (spec_top _ fr fs); [done|]. cbv zeta.
  set (rw1 := with_steps _ rw). assert (Hm1 : machine_ok root None rw1) by exact Hm.
  eapply spec_exn_bind; [apply check_max_steps_ok; by apply Z.mod_pos_bound|]. intros _ _.
  set (x := if first_visit fr && m_cache_result fr then get_cached (m_curr fr) rw1 else (None, rw1)).
  assert (Hx : machine_ok root None x.2 /\ m_cfg x.2 = m_cfg rw /\ m_frame_stack x.2 = fr :: fs
    /\ forall r, x.1 = Some r -> first_visit fr = true /\ res_ok (m_cfg rw) (m_curr fr) r).
  { unfold x. destruct (first_visit fr && m_cache_result fr) eqn:Hb; [|by split_and!].
    apply andb_true_iff in Hb as [Hb _].
    destruct (get_cached_ok root None (m_curr fr) rw1 Hm1) as (H1' & H2' & H3' & _ & H5').
    split_and!; try done; [by rewrite H3'|]. intros r Hr'. split; [done|by apply H5']. }
  destruct x as [o rw2]. cbn [fst snd] in Hx. destruct Hx as (Hm2 & Hc2 & Hf2 & Hr).
  assert (Hw : stack_weight rw2 = stack_weight rw) by (unfold stack_weight; by rewrite Hf2, Hf).
  assert (Hpost : forall rw', step_post root (stack_weight rw2) rw2 rw' -> step_post root (stack_weight rw) rw rw').
  { intros rw'. unfold step_post. by rewrite Hw, Hc2. }
  destruct o as [r|].
  - destruct (Hr r eq_refl) as [Hv Hres]. apply spec_exn_ret, Hpost. eapply cached_ok; try done. by rewrite Hc2.
  - eapply spec_exn_mono; [by eapply process_app_ok|done|]. exact Hpost.
Qed.

Lemma loop_ok root fuel rw :
  machine_ok root None rw -> E ExDiverge \/ (OneShot S /\ (stack_weight rw <= fuel)%nat) ->
  spec_exn E (loop ref_count retries fuel rw) (fun rw' =>
    ext (m_cfg rw) (m_cfg rw') /\ machine_ok root None rw' /\ m_frame_stack rw' = []).
Proof.
  revert rw. induction fuel as [|fuel IH]; intros rw Hm HE; cbn [loop]; destruct (m_frame_stack rw) as [|fr fs] eqn:Hf.
  - by apply spec_exn_ret.
  - destruct HE as [HE|[_ Hw]]; [by apply spec_exn_throw|]. exfalso. unfold stack_weight in Hw. rewrite Hf in Hw.
    cbn [sum_list_with] in Hw. unfold frame_weight at 1 in Hw. destruct (m_state fr), (m_curr fr); lia.
  - by apply spec_exn_ret.
  - eapply spec_exn_bind; [apply (step_ok root rw Hm); by rewrite Hf|]. intros rw1 (He1 & Hm1 & Hw1).
    eapply spec_exn_mono; [apply (IH rw1 Hm1)|done|].
    + destruct HE as [|[Ho Hw]]; [by left|right]. split; [done|]. specialize (Hw1 Ho). lia.
    + intros rw' (He' & ?). split; [by transitivity (m_cfg rw1)|done].
Qed.

(** [not_rewriting()], and the invariants of the configuration and the cache. *)
Definition ready (rw : machine S C) : Prop :=
  inv (m_cfg rw) /\ cache_ok (m_cfg rw) (m_cache rw) /\ m_frame_stack rw = [] /\ m_result_stack rw = [].

Definition run_post (t : expr) (rw : machine S C) (x : expr * machine S C) : Prop :=
  ext (m_cfg rw) (m_cfg x.2) /\ ready x.2 /\ res_ok (m_cfg x.2) t x.1.

Lemma pop_result_ok root rw :
  machine_ok root None rw -> m_frame_stack rw = [] -> spec_exn E (pop_result rw) (run_post root rw).
Proof.
  intros (Hi & Hc & Hs) Hf. rewrite Hf in Hs. unfold pop_result. remember (m_result_stack rw) as rs.
  inversion Hs; subst. apply (spec_exn_ret E (_, _)). split; [reflexivity|]. by split.
Qed.

Lemma main_loop_ok fuel t rw :
  ready rw -> good ok_op t -> E ExDiverge \/ (OneShot S /\ (weight t <= fuel)%nat) ->
  spec_exn E (main_loop ref_count retries fuel t rw) (run_post t rw).
Proof.
  intros (Hi & Hc & Hf & Hrs) Hg HE. unfold main_loop. eapply spec_exn_bind; [apply check_cancel_ok|]. intros _ _. cbv zeta.
  set (rw0 := mk_machine _ _ _ _ _ _).
  eapply spec_exn_bind.
  { apply (visit_ok t t 3 rw0); [|done|by left]. split; [done|]. split; [done|]. unfold rw0. cbn. rewrite Hf, Hrs.
    by constructor. }
  intros [b rw1] (He1 & Hm1 & Hb). cbn [fst snd] in *.
  assert (Hpost : forall x, run_post t rw1 x -> run_post t rw x).
  { intros x (He2 & Hx). split; [|done]. by transitivity (m_cfg rw1). }
  destruct b.
  - destruct Hb as (b & r & Hf1 & _). cbn in Hf1. rewrite Hf in Hf1.
    eapply spec_exn_mono; [by apply pop_result_ok|done|exact Hpost].
  - destruct Hb as (fr & Hf1 & Hw). cbn in Hf1. rewrite Hf in Hf1. unfold resume_core. eapply spec_exn_bind.
    { apply (loop_ok t fuel rw1 Hm1). destruct HE as [|[Ho Hle]]; [by left|right]. split; [done|].
      unfold stack_weight. rewrite Hf1. cbn [sum_list_with]. specialize (Hw Ho). lia. }
    intros rw2 (He2 & Hm2 & Hf2). eapply spec_exn_mono; [by apply pop_result_ok|done|].
    intros x (He3 & Hx). apply Hpost. split; [|done]. by transitivity (m_cfg rw2).
Qed.

End Sound.

(** ** The two contracts *)

Section Contracts.
Context {S C : Type} `{CfgOk : ConfigOk S} `{CacheOk C}.
Variable ref_count : machine S C -> expr -> nat.

(** A run that returns is right, whatever the fuel; nothing else than the
    exceptions of the configuration and of the environment is raised, unless
    the fuel runs out. *)
Lemma main_loop_spec retries fuel t rw :
  ready rw -> good ok_op t ->
  spec_exn (fun e => raises e \/ e = ExDiverge) (main_loop ref_count retries fuel t rw) (run_post t rw).
Proof. intros Hr Hg. apply main_loop_ok; auto. Qed.

(** A one-shot rewriter takes at most [weight t] steps. *)
Lemma main_loop_total `{!OneShot S} retries fuel t rw :
  (0 < retries)%nat -> (weight t <= fuel)%nat -> ready rw -> good ok_op t ->
  spec_exn raises (main_loop ref_count retries fuel t rw) (run_post t rw).
Proof. intros Hn Hw Hr Hg. apply main_loop_ok; auto. Qed.

Lemma new_rewriter_ready n s : inv s -> ready (new_rewriter (C := C) n s).
Proof. intros Hi. split; [done|]. split; [|done]. intros k v Hk. by apply maps_new in Hk. Qed.

Lemma cleanup_ready n rw : inv (m_cfg rw) -> ready (cleanup (C := C) n rw).
Proof. intros Hi. split; [done|]. split; [|done]. intros k v Hk. by apply maps_new in Hk. Qed.

Lemma reset_ready rw : inv (m_cfg rw) -> ready (reset (C := C) rw).
Proof. intros Hi. split; [done|]. split; [|done]. intros k v Hk. by apply maps_empty in Hk. Qed.
End Contracts.
