(* ===== verification/BoolRewriterStar.v ===== *)
(** * BoolRewriterStar: the Boolean rewriter on whole terms

    [bool_rewriter_star] of [ast/rewriter/bool_rewriter.h]: [rewriter_tpl] over
    [bool_rewriter_cfg], with its flattening of nested conjunctions and
    disjunctions.  It keeps the promises of [ConfigOk] under every
    configuration of [bool_rewriter]. *)
From Stdlib Require Import ZArith Lia.
From stdpp Require Import base list.
From S2P Require Import Prelude Ast AstFacts TermFacts Gates Blast BlastFacts BoolRewriter BoolRewriterSound.
From S2P Require Import BoolRewriterOr BoolRewriterApp ActCache Rewriter RewriterSound.

Module bool_rewriter_star.
Section Cfg.
Context `{Env} (m_r : bool_rewriter).

(** [bool_rewriter_cfg::flat_assoc] *)
Definition flat_assoc (f : op) : bool :=
  m_flat m_r && match f with OP_AND | OP_OR => true | _ => false end.

(** [bool_rewriter_cfg::reduce_app]; the configuration has no state. *)
Definition reduce_app (f : op) (args : list expr) (s : unit) : M (br_result * unit) :=
  match m.family_of f with
  | m.basic_family => r ← mk_app_core m_r f args; mret (r, s)
  | _ => mret (None, s)
  end.

Definition Config : rewriter_tpl.Config unit := {|
  rewriter_tpl.cache_results := true;
  rewriter_tpl.cache_all_results := false;
  rewriter_tpl.flat_assoc := flat_assoc;
  rewriter_tpl.max_frames_exceeded := fun _ => false;
  rewriter_tpl.max_steps_exceeded := fun _ => mret false;
  rewriter_tpl.pre_visit := fun _ => true;
  rewriter_tpl.get_subst := fun _ => None;
  rewriter_tpl.get_macro := fun _ => None;
  rewriter_tpl.reduce_app := reduce_app;
|}.
End Cfg.
End bool_rewriter_star.

(** ** Flattening *)

Lemma all_bool_sorts o args s : (o = OP_AND \/ o = OP_OR) ->
  get_sort (App o args) = Some s <-> s = BOOL_SORT /\ Forall boolx args.
Proof.
  intros Ho. rewrite get_sort_app. assert (E : forall ss, infer o ss = all_bool ss) by (by destruct Ho as [-> | ->]).
  split.
  - intros Hs. destruct (get_sorts args) as [ss|] eqn:Hss; [|done]. simpl in Hs. rewrite E in Hs.
    apply all_bool_inv in Hs as [-> Hb]. split; [done|]. apply get_sorts_Forall2 in Hss. clear E.
    induction Hss; constructor; inversion Hb; subst; auto.
  - intros [-> Hb]. assert (Hss : get_sorts args = Some (replicate (length args) BOOL_SORT)).
    { apply get_sorts_Forall2. clear E. induction Hb; constructor; auto. }
    rewrite Hss. simpl. rewrite E. unfold all_bool. rewrite decide_True; [done|]. by apply Forall_replicate.
Qed.

Lemma flatten_agrees P o xs sub ys : (o = OP_AND \/ o = OP_OR) ->
  agrees P (App o (xs ++ App o sub :: ys)) (App o (xs ++ sub ++ ys)).
Proof.
  intros Ho s Hs. apply all_bool_sorts in Hs as [-> Hb]; [|done]. apply Forall_app in Hb as [Hx Hb].
  apply Forall_cons in Hb as [Hsub Hy].
  assert (Hsub' : Forall boolx sub) by (by apply (all_bool_sorts o sub BOOL_SORT) in Hsub as [_ ?]).
  assert (Hs1 : boolx (App o (xs ++ sub ++ ys))).
  { apply all_bool_sorts; [done|]. split; [done|]. by rewrite !Forall_app. }
  assert (Hs2 : boolx (App o (xs ++ App o sub :: ys))).
  { apply all_bool_sorts; [done|]. split; [done|]. apply Forall_app. by split; [|constructor]. }
  split; [done|]. intros I _. apply boolx_eval_eq; [done|done|].
  destruct Ho as [-> | ->].
  - change (bval I (m.mk_and (xs ++ sub ++ ys)) = bval I (m.mk_and (xs ++ m.mk_and sub :: ys))).
    rewrite !bval_and, !forallb_app. simpl. by rewrite bval_and.
  - change (bval I (m.mk_or (xs ++ sub ++ ys)) = bval I (m.mk_or (xs ++ m.mk_or sub :: ys))).
    rewrite !bval_or, !existsb_app. simpl. by rewrite bval_or.
Qed.

(** ** The promises *)

Section Promises.
Context `{Env} (m_r : bool_rewriter).

#[local] Instance star_config : rewriter_tpl.Config unit := bool_rewriter_star.Config m_r.

#[local] Program Instance star_config_ok : ConfigOk unit := {|
  inv := fun _ => True;
  ext := fun _ _ => True;
  models := fun _ _ => True;
  ok_op := fun _ => True;
  out := fun _ => True;
  raises := fun _ => False;
|}.
Next Obligation. by split. Qed.
Next Obligation.
  intros s o args _ _ [srt Hs] _. apply spec_exn_of. simpl. unfold bool_rewriter_star.reduce_app.
  destruct (m.family_of o); [|by apply spec_ret..].
  eapply spec_bind; [by apply mk_app_core_ok|]. intros r Hr. apply spec_ret. split; [done|]. split; [done|].
  destruct r as [[st r]|]; [|done]. destruct Hr as [Sr Vr].
  assert (Ha : agrees (fun _ => True) (App o args) r).
  { intros s0 Hs0. rewrite Hs in Hs0. injection Hs0 as <-. auto. }
  assert (Hg : good (fun _ => True) r) by (apply good_all; [done|by exists srt]).
  by destruct st.
Qed.
Next Obligation. done. Qed.
Next Obligation. done. Qed.
Next Obligation. done. Qed.
Next Obligation.
  intros o xs sub ys P Hf _. apply flatten_agrees. simpl in Hf. apply andb_true_iff in Hf as [_ Hf]. destruct o; auto; done.
Qed.
Next Obligation. done. Qed.
Next Obligation. intros n _. by apply spec_exn_ret. Qed.
End Promises.
