(* ===== verification/ThRewriter.v ===== *)
(** * ThRewriter: the simplifier over the Boolean and bit-vector rewriters

    Models [th_rewriter_cfg] of [ast/rewriter/th_rewriter.cpp] for terms of the
    Boolean, bit-vector and null families: the dispatch of [reduce_app_core], the
    exchange of if-then-else with other operators, and [rewriter_tpl] over this
    configuration.  The state is the cache of [bv_trailing].  A ghost flag beside
    it, which the code does not keep and no definition reads, records whether the
    simplifier has seen no test for signed overflow, the rule for which is wrong.
    There is no substitution. *)
From Stdlib Require Import ZArith Lia.
From stdpp Require Import base list.
From S2P Require Import Prelude Ast BvUtil BoolRewriter BvRewriter PolyRewriter BvTrailing BvEq BvApp Rewriter.

Local Open Scope Z_scope.

Module th_rewriter.

Record th_rewriter_cfg := {
  m_b_rw : bool_rewriter;
  m_bv_rw : bv_rewriter.params;
  m_max_steps : Z;
  m_pull_cheap_ite : bool;
  m_flat : bool;
  m_cache_all : bool;
  m_push_ite_arith : bool;
  m_push_ite_bv : bool;
}.

Record state := mk_state {
  m_rm_trailing : bv_trailing.cache;
  smul_free : bool;      (* ghost *)
}.

(** [is_commutative] of the declarations of the bit-vector plugin. *)
Definition is_commutative (o : op) : bool :=
  match o with OP_BADD | OP_BMUL | OP_BAND | OP_BOR | OP_BXOR | OP_BCOMP => true | _ => false end.

Definition is_ite (t : expr) : bool := match m.is_ite t with Some _ => true | None => false end.

(** ** Equations of Booleans one of which compares a bit *)

(** The term [x] and the bit it is compared with. *)
Definition is_eq_bit (t : expr) : option (expr * Z) :=
  '(lhs, rhs) ← m.is_eq t;
  if negb (is_bv lhs) || negb (get_bv_size lhs =? 1)%nat then None
  else match is_numeral lhs, is_numeral rhs with
  | Some (v, _), _ => Some (rhs, v)
  | None, Some (v, _) => Some (lhs, v)
  | None, None => None
  end.

Definition apply_tamagotchi (lhs rhs : expr) : br_result :=
  let compare (x : expr) (val : Z) (a : expr) : br_result :=
    Some (BR_REWRITE2, m.mk_eq x (m.mk_ite a (mk_numeral val 1) (mk_numeral (1 - val) 1))) in
  match is_eq_bit lhs, is_eq_bit rhs with
  | Some (x, val), _ => compare x val rhs
  | None, Some (x, val) => compare x val lhs
  | None, None => None
  end.

(** ** Pulling if-then-else out of an application *)

Definition mk_eq_value (lhs value : expr) : expr :=
  if m.are_equal lhs value then m.mk_true
  else if m.are_distinct lhs value then m.mk_false
  else m.mk_eq lhs value.

(** [p] applied to an if-then-else and a value, or with [swap] to them in the
    other order. *)
Definition pull_ite_core (swap : bool) (p : op) (ite : expr * expr * expr) (value : expr) : br_result :=
  let '(c, t, e) := ite in
  let branch (x : expr) :=
    if decide (p = OP_EQ) then mk_eq_value x value
    else if swap then App p [value; x] else App p [x; value] in
  Some (BR_REWRITE2, m.mk_ite c (branch t) (branch e)).

Section Cfg.
Context `{Env}.
Variable cfg : th_rewriter_cfg.
Variable lt : expr -> expr -> bool.
Variable get_id : expr -> Z.
Variable get_ref_count : expr -> nat.
Variable std_sort : (expr -> expr -> bool) -> list expr -> list expr.

(** The leaves of nested if-then-else are values, and no inner one is shared. *)
Fixpoint is_ite_value_tree (t : expr) : bool :=
  match t with
  | App OP_ITE [c; arg1; arg2] =>
      (if is_ite arg1 && (get_ref_count arg1 =? 1)%nat then is_ite_value_tree arg1 else m.is_value arg1)
      && (if is_ite arg2 && (get_ref_count arg2 =? 1)%nat then is_ite_value_tree arg2 else m.is_value arg2)
  | _ => false
  end.

(** The first part of [pull_ite], for predicates. *)
Definition pull_ite_pred (f : op) (a b : expr) : br_result :=
  match m.is_ite a, m.is_ite b with
  | Some ite, None => if m.is_value b then pull_ite_core false f ite b else None
  | Some (c1, a1, b1), Some (c2, a2, b2) =>
      if decide (c1 = c2) then Some (BR_REWRITE2, m.mk_ite c1 (App f [a1; a2]) (App f [b1; b2])) else None
  | None, Some ite => if m.is_value a then pull_ite_core true f ite a else None
  | None, None => None
  end.

(** The second part, for the operators of the theories. *)
Definition pull_ite_tree (f : op) (a b : expr) : br_result :=
  match m.family_of f with
  | m.null_family => None
  | _ =>
      if m.is_value a && is_ite_value_tree b then ite ← m.is_ite b; pull_ite_core true f ite a
      else if m.is_value b && is_ite_value_tree a then ite ← m.is_ite a; pull_ite_core false f ite b
      else None
  end.

Definition pull_ite (f : op) (args : list expr) : br_result :=
  match args with
  | [a; b] =>
      bv_rewriter.orelse
        (if bool_decide (get_sort (App f args) = Some BOOL_SORT) && negb (m.is_bool a) then pull_ite_pred f a b else None)
        (pull_ite_tree f a b)
  | _ => None
  end.

(** ** Pushing if-then-else into a common operator *)

Definition is_arith_bv_app (t : expr) : bool :=
  match m.get_family_id t with m.bv_family => m_push_ite_bv cfg | _ => false end.

Definition get_neutral_elem (t : expr) : option expr :=
  match t with
  | App OP_BADD _ => Some (mk_numeral 0 (get_bv_size t))
  | App OP_BMUL _ => Some (mk_numeral 1 (get_bv_size t))
  | _ => None
  end.

(** The same declaration: operator, and sorts of the arguments. *)
Definition same_decl (t1 t2 : expr) : bool :=
  let 'App f1 args1 := t1 in let 'App f2 args2 := t2 in
  bool_decide (f1 = f2) && bool_decide (get_sorts args1 = get_sorts args2).

(** The differing arguments, the common one, and whether that is the first. *)
Definition unify_core (t1 t2 : expr) : option (expr * expr * expr * bool) :=
  match t1 with
  | App f [a1; b1] =>
      if decide (t2 = b1) then n ← get_neutral_elem t1; Some (a1, n, b1, false)
      else if decide (t2 = a1) then n ← get_neutral_elem t1; Some (b1, n, a1, true)
      else if same_decl t1 t2 then
        match t2 with
        | App _ [a2; b2] =>
            if decide (b1 = b2) then Some (a1, a2, b2, false)
            else if decide (a1 = a2) then Some (b1, b2, a1, true)
            else if is_commutative f then
              if decide (a1 = b2) then Some (b1, a2, a1, true)
              else if decide (b1 = a2) then Some (a1, b2, b1, false)
              else None
            else None
        | _ => None
        end
      else None
  | _ => None
  end.

Definition unify (t1 t2 : expr) : option (op * expr * expr * expr * bool) :=
  let 'App f1 _ := t1 in let 'App f2 _ := t2 in
  if is_arith_bv_app t1 then
    '(new_t1, new_t2, c, first) ← unify_core t1 t2; Some (f1, new_t1, new_t2, c, first)
  else if is_arith_bv_app t2 then
    '(new_t2, new_t1, c, first) ← unify_core t2 t1; Some (f2, new_t1, new_t2, c, first)
  else None.

Definition push_ite (f : op) (args : list expr) : br_result :=
  match f, args with
  | OP_ITE, [c; t; e] =>
      match unify t e with
      | Some (f_prime, new_t, new_e, common, first) =>
          Some (BR_DONE, App f_prime (if first then [common; m.mk_ite c new_t new_e] else [m.mk_ite c new_t new_e; common]))
      | None => None
      end
  | _, _ => None
  end.

(** [push_ite(result)] and [pull_ite(result)]: the step on a result. *)
Definition on_result (step : op -> list expr -> br_result) (t : expr) : br_result :=
  let 'App f args := t in bv_rewriter.orelse (step f args) (Some (BR_DONE, t)).

(** A step on the application, or on the result so far. *)
Definition then_try (enabled : bool) (step : op -> list expr -> br_result) (f : op) (args : list expr) (st : br_result) : br_result :=
  if enabled then
    match st with
    | None => step f args
    | Some (_, t) => on_result step t
    end
  else st.

(** ** The reduction *)

Definition mk_eq_core (f : op) (args : list expr) (c : bv_trailing.cache) : M (br_result * bv_trailing.cache) :=
  match f, args with
  | OP_EQ, [a; b] =>
      '(st, c) ← (if is_bv a then
                    match eq.mk_eq_core (m_bv_rw cfg) lt get_id std_sort a b c with
                    | Some r => mret r
                    | None => throw ExVerify
                    end
                  else mret (None, c));
      mret (bv_rewriter.orelse st (apply_tamagotchi a b), c)
  | _, _ => mret (None, c)
  end.

Definition mk_ite_core (f : op) (args : list expr) : br_result :=
  match f, args with
  | OP_ITE, [c; t; e] => if is_bv t then bv_rewriter.mk_ite_core (m_bv_rw cfg) c t e else None
  | _, _ => None
  end.

Definition reduce_app_core (f : op) (args : list expr) (c : bv_trailing.cache) : M (br_result * bv_trailing.cache) :=
  match m.family_of f with
  | m.null_family => mret (None, c)
  | m.basic_family =>
      '(st, c) ← mk_eq_core f args c;
      match bv_rewriter.orelse st (mk_ite_core f args) with
      | Some r => mret (Some r, c)
      | None => st ← mk_app_core (m_b_rw cfg) f args; mret (st, c)
      end
  | m.bv_family => st ← bv_app.mk_app_core (m_bv_rw cfg) lt get_id get_ref_count std_sort f args; mret (st, c)
  end.

(** The rules for if-then-else come after results that are done, and failures. *)
Definition exchange_ite (f : op) (args : list expr) (st : br_result) : br_result :=
  match st with
  | Some (BR_DONE, _) | None =>
      then_try (m_pull_cheap_ite cfg) pull_ite f args
        (then_try (m_push_ite_bv cfg || m_push_ite_arith cfg) push_ite f args st)
  | _ => st
  end.

Definition reduce_app (f : op) (args : list expr) (s : state) : M (br_result * state) :=
  '(st, c) ← reduce_app_core f args (m_rm_trailing s);
  mret (exchange_ite f args st, mk_state c (smul_free s && negb (bool_decide (f = OP_BSMUL_NO_OVFL)))).

(** ** The rest of the configuration *)

Definition flat_assoc (f : op) : bool :=
  m_flat cfg && match f with OP_AND | OP_OR | OP_BADD | OP_BOR | OP_BAND | OP_BXOR => true | _ => false end.

Definition max_steps_exceeded (num_steps : Z) : M bool := fun s =>
  if max_memory <? alloc_size (m_ticks s) then Throw ExMaxMemory
  else Ok (m_max_steps cfg <? num_steps) (mk_st (m_local_ctx_cost s) (S (m_ticks s))).

Definition Config : rewriter_tpl.Config state := {|
  rewriter_tpl.cache_results := true;
  rewriter_tpl.cache_all_results := m_cache_all cfg;
  rewriter_tpl.flat_assoc := flat_assoc;
  rewriter_tpl.max_frames_exceeded := fun _ => false;
  rewriter_tpl.max_steps_exceeded := max_steps_exceeded;
  rewriter_tpl.pre_visit := fun _ => true;
  rewriter_tpl.get_subst := fun _ => None;
  rewriter_tpl.get_macro := fun _ => None;
  rewriter_tpl.reduce_app := reduce_app;
|}.

End Cfg.
End th_rewriter.
