(* ===== verification/ThRewriterSound.v ===== *)
(** * ThRewriterSound: the simplifier keeps sorts and values

    The rules that exchange if-then-else with other operators, the dispatch to
    the Boolean and the bit-vector rewriter, and the promises of [ConfigOk] for the
    traversal of whole terms. *)
From Stdlib Require Import ZArith Lia.
From stdpp Require Import base list.
From S2P Require Import Prelude Bits UBits Ast BvUtil AstFacts TermFacts BvTerms BoolRewriter BoolRewriterSound BoolRewriterApp.
From S2P Require Import BvRewriter BvBitwise PolyRewriter BvApp BvTrailing BvEq BvRewriterDiv BvRewriterExtract BvRewriterBits BvRewriterCmp PolyRewriterSound.
From S2P Require Import BvTrailingSound BvEqSound BvArithSound ActCache Rewriter RewriterSound BoolRewriterStar ThRewriter.
Import th_rewriter.

Local Open Scope Z_scope.

(** ** Contexts

    A context with one hole that depends on the sort and the value of what is
    put there. *)
Record context (F : expr -> expr) : Prop := {
  context_sort x y : get_sort x = get_sort y -> get_sort (F x) = get_sort (F y);
  context_eval I x y : eval I x = eval I y -> eval I (F x) = eval I (F y);
}.

Lemma eval_args I o args args' : map (eval I) args = map (eval I) args' -> eval I (App o args) = eval I (App o args').
Proof. intros E. destruct o; first [by rewrite !eval_uninterp, E|by rewrite !eval_app, E by done]. Qed.

Lemma sort_args o args args' : get_sorts args = get_sorts args' -> get_sort (App o args) = get_sort (App o args').
Proof. intros E. by rewrite !get_sort_app, E. Qed.

Lemma context_left o b : context (fun x => App o [x; b]).
Proof. split; [intros x y E; apply sort_args|intros I x y E; apply eval_args]; simpl; by rewrite E. Qed.

Lemma context_right o a : context (fun x => App o [a; x]).
Proof. split; [intros x y E; apply sort_args|intros I x y E; apply eval_args]; simpl; by rewrite E. Qed.

(** If-then-else goes out of and into a context. *)
Lemma context_ite F c t e I : context F -> eval I (F (m.mk_ite c t e)) = eval I (m.mk_ite c (F t) (F e)).
Proof.
  intros HF. rewrite eval_ite. destruct (bval I c) eqn:E; apply (context_eval F HF); rewrite eval_ite; by rewrite E.
Qed.

Lemma pull_context F c t e u :
  context F -> get_sort (m.mk_ite c t e) = Some u -> F (m.mk_ite c t e) ~> m.mk_ite c (F t) (F e).
Proof.
  intros HF Hu s Hs. pose proof Hu as (Hc & Ht & He)%get_sort_ite. split; [|intros I; symmetry; by apply context_ite].
  apply get_sort_ite. split; [done|]. rewrite <- Hs. split; apply (context_sort F HF); congruence.
Qed.

Lemma push_context F c t e :
  context F -> get_sort t = get_sort e -> m.mk_ite c (F t) (F e) ~> F (m.mk_ite c t e).
Proof.
  intros HF Hte s (Hc & Ht & He)%get_sort_ite. split; [|intros I; by apply context_ite].
  destruct (get_sort t) as [u|] eqn:Eu.
  - rewrite <- Ht. apply (context_sort F HF). rewrite Eu. by apply get_sort_ite.
  - rewrite <- Ht. apply (context_sort F HF). rewrite Eu.
    destruct (get_sort (m.mk_ite c t e)) as [w|] eqn:Ew; [|done]. apply get_sort_ite in Ew as (_ & ? & _). congruence.
Qed.

Lemma rewrites_ite2 c t t' e e' : t ~> t' -> e ~> e' -> m.mk_ite c t e ~> m.mk_ite c t' e'.
Proof.
  intros Ht He s (Hc & St & Se)%get_sort_ite. destruct (Ht s St) as [St' Vt]. destruct (He s Se) as [Se' Ve].
  split; [by apply get_sort_ite|]. intros I. by rewrite !eval_ite, Vt, Ve.
Qed.

(** ** Equations with a bit *)

Lemma is_eq_bit_ok lhs x v s :
  get_sort lhs = Some s -> is_eq_bit lhs = Some (x, v) ->
  s = BOOL_SORT /\ bvx 1 x /\ (v = 0 \/ v = 1) /\ forall I, bval I lhs = (vn I x =? v).
Proof.
  intros Hs H. unfold is_eq_bit in H. destruct (m.is_eq lhs) as [[l r]|] eqn:E; [|done]. recog.
  cbn [mbind option_bind] in H. pose proof Hs as (-> & u & Hl & Hr)%get_sort_eq.
  destruct (is_bv l) eqn:Bl; [|done]. unfold is_bv in Bl. rewrite Hl in Bl. destruct u as [|n|]; try done.
  rewrite (get_bv_size_eq n l Hl) in H. destruct (Nat.eqb_spec n 1) as [->|]; [|done]. simpl in H.
  split; [done|]. destruct (same_bv_eq 1 _ _ l r (holds_refl 1 l Hl) (holds_refl 1 r Hr)) as [_ Hv].
  change (bvx 1 l) in Hl; change (bvx 1 r) in Hr.
  assert (Hbit : forall z, 0 <= z < pow2 1 -> z = 0 \/ z = 1) by (intros z; change (pow2 1) with 2; lia).
  destruct (is_numeral l) as [[v' w]|] eqn:Nl.
  - injection H as <- <-. read_num. split_and!; [done|by apply Hbit|]. intros I. by rewrite Hv, V, Z.eqb_sym.
  - destruct (is_numeral r) as [[v' w]|] eqn:Nr; [|done]. injection H as <- <-. read_num. split_and!; [done|by apply Hbit|].
    intros I. by rewrite Hv, V.
Qed.

Lemma compare_bit_ok x v a :
  bvx 1 x -> boolx a -> v = 0 \/ v = 1 ->
  same_bool (m.mk_eq x (m.mk_ite a (mk_numeral v 1) (mk_numeral (1 - v) 1))) (fun I => eqb (vn I x =? v) (bval I a)).
Proof.
  intros Hx Ha Hv.
  assert (Hn : forall w, w = 0 \/ w = 1 -> holds 1 (fun _ => w) (mk_numeral w 1)).
  { intros w Hw. eapply holds_ext; [apply holds_num; lia|]. intros I. simpl. by destruct Hw as [-> | ->]. }
  pose proof (holds_ite 1 a (fun I => bval I a) _ _ _ _ (conj Ha (fun _ => eq_refl)) (Hn v Hv) (Hn (1 - v) ltac:(lia))) as Hi.
  destruct (same_bv_eq 1 _ _ x _ (holds_refl 1 x Hx) Hi) as [B V]. split; [done|]. intros I. rewrite V.
  pose proof (vn_bounds I 1 x Hx) as Bx. change (pow2 1) with 2 in Bx.
  destruct (bval I a); simpl.
  - by destruct (vn I x =? v).
  - destruct (Z.eqb_spec (vn I x) (1 - v)), (Z.eqb_spec (vn I x) v); simpl; lia.
Qed.

Lemma apply_tamagotchi_ok lhs rhs st r : apply_tamagotchi lhs rhs = Some (st, r) -> m.mk_eq lhs rhs ~> r.
Proof.
  intros H s (-> & u & Hl & Hr)%get_sort_eq. unfold apply_tamagotchi in H.
  assert (K : forall x v a b, bvx 1 x -> v = 0 \/ v = 1 -> (forall I, bval I b = (vn I x =? v)) -> boolx b -> boolx a ->
    (forall I, bval I (m.mk_eq lhs rhs) = eqb (bval I b) (bval I a)) ->
    r = m.mk_eq x (m.mk_ite a (mk_numeral v 1) (mk_numeral (1 - v) 1)) ->
    get_sort r = Some BOOL_SORT /\ forall I, eval I r = eval I (m.mk_eq lhs rhs)).
  { intros x v a b Hx Hv Hb Sb Sa He ->. destruct (compare_bit_ok x v a Hx Sa Hv) as [B V]. split; [exact B|].
    intros I. apply boolx_eval_eq; [done| |by rewrite V, He, Hb]. apply get_sort_eq. eauto. }
  destruct (is_eq_bit lhs) as [[x v]|] eqn:El.
  - injection H as <- <-. destruct (is_eq_bit_ok lhs x v u Hl El) as (-> & Hx & Hv & Vl).
    eapply (K x v rhs lhs); try done. intros I. by apply bval_eq_bool.
  - destruct (is_eq_bit rhs) as [[x v]|] eqn:Er; [|done]. injection H as <- <-.
    destruct (is_eq_bit_ok rhs x v u Hr Er) as (-> & Hx & Hv & Vr).
    eapply (K x v lhs rhs); try done. intros I. rewrite bval_eq_bool by done. by destruct (bval I lhs), (bval I rhs).
Qed.

(** ** Pulling *)

Lemma mk_eq_value_ok lhs value : m.mk_eq lhs value ~> mk_eq_value lhs value.
Proof.
  intros s Hs. pose proof Hs as (-> & u & Hl & Hv)%get_sort_eq. unfold mk_eq_value.
  destruct (m.are_equal lhs value) eqn:E.
  { unfold m.are_equal in E. recog. split; [done|]. intros I. apply boolx_eval_eq; [done|exact Hs|]. by rewrite bval_eq_refl. }
  destruct (m.are_distinct lhs value) eqn:D; [|done]. split; [done|]. intros I.
  apply boolx_eval_eq; [done|exact Hs|]. by rewrite bval_eq_sym, (distinct_bval_eq lhs value u I Hl Hv D).
Qed.

Lemma eq_comm_rewrites a b : m.mk_eq a b ~> m.mk_eq b a.
Proof.
  intros s Hs. pose proof Hs as (-> & u & Ha & Hb)%get_sort_eq.
  assert (Hs' : get_sort (m.mk_eq b a) = Some BOOL_SORT) by (apply get_sort_eq; eauto).
  split; [done|]. intros I. apply boolx_eval_eq; [done|done|]. apply bval_eq_sym.
Qed.

(** The arguments of a well-sorted application are well sorted. *)
Lemma arg_sorted o args s a : get_sort (App o args) = Some s -> a ∈ args -> is_Some (get_sort a).
Proof.
  intros Hs Ha. assert (HF : Forall (fun a => is_Some (get_sort a)) args) by (apply (sorted_args o); eauto).
  rewrite Forall_forall in HF. by apply HF.
Qed.

Lemma pull_rewrites F b c t e :
  context F -> (forall x s, get_sort (F x) = Some s -> is_Some (get_sort x)) -> (forall x, F x ~> b x) ->
  F (m.mk_ite c t e) ~> m.mk_ite c (b t) (b e).
Proof.
  intros HF Hx Hb s Hs. destruct (Hx _ _ Hs) as [u Hu]. revert s Hs.
  change (F (m.mk_ite c t e) ~> m.mk_ite c (b t) (b e)).
  transitivity (m.mk_ite c (F t) (F e)); [by eapply pull_context|by apply rewrites_ite2].
Qed.

Lemma pull_ite_core_ok swap p c t e value st r :
  pull_ite_core swap p (c, t, e) value = Some (st, r) ->
  App p (if swap then [value; m.mk_ite c t e] else [m.mk_ite c t e; value]) ~> r.
Proof.
  intros [= <- <-].
  set (b x := if decide (p = OP_EQ) then mk_eq_value x value else if swap then App p [value; x] else App p [x; value]).
  change (App p (if swap then [value; m.mk_ite c t e] else [m.mk_ite c t e; value]) ~> m.mk_ite c (b t) (b e)).
  destruct swap.
  - apply (pull_rewrites (fun x => App p [value; x]) b); [apply context_right| |].
    + intros x s Hs. apply (arg_sorted _ _ _ x Hs). right. left.
    + intros x. unfold b. destruct (decide (p = OP_EQ)) as [->|]; [|done].
      etransitivity; [apply (eq_comm_rewrites value x)|apply mk_eq_value_ok].
  - apply (pull_rewrites (fun x => App p [x; value]) b); [apply context_left| |].
    + intros x s Hs. apply (arg_sorted _ _ _ x Hs). left.
    + intros x. unfold b. destruct (decide (p = OP_EQ)) as [->|]; [apply mk_eq_value_ok|done].
Qed.

(** Two with the same condition. *)
Lemma pull_both f c a1 b1 a2 b2 :
  App f [m.mk_ite c a1 b1; m.mk_ite c a2 b2] ~> m.mk_ite c (App f [a1; a2]) (App f [b1; b2]).
Proof.
  intros s Hs. destruct (arg_sorted _ _ _ (m.mk_ite c a1 b1) Hs ltac:(left)) as [u Hu].
  destruct (arg_sorted _ _ _ (m.mk_ite c a2 b2) Hs ltac:(right; left)) as [w Hw].
  pose proof Hu as (Hc & Ha1 & Hb1)%get_sort_ite. pose proof Hw as (_ & Ha2 & Hb2)%get_sort_ite. split.
  - apply get_sort_ite. split; [done|]. rewrite <- Hs. split; apply sort_args; simpl; by rewrite Hu, Hw, ?Ha1, ?Ha2, ?Hb1, ?Hb2.
  - intros I. rewrite eval_ite. destruct (bval I c) eqn:E; apply eval_args; simpl; by rewrite !eval_ite, E.
Qed.

(** ** Pushing *)

Lemma opn_commutes `{!OpN o f} a b : (forall n x y, f n x y = f n y x) -> App o [a; b] ~> App o [b; a].
Proof.
  intros Hf. apply (rewrites_opn o). intros n _ HF. inv_Forall.
  eapply holds_ext; [by apply (holds_opn o n [b; a]); [done|repeat constructor]|]. intros I. apply Hf.
Qed.

Lemma commutes f a b : is_commutative f = true -> App f [a; b] ~> App f [b; a].
Proof.
  intros Hc. destruct f; try done.
  - apply opn_commutes. intros. unfold bv_add. f_equal. lia.
  - apply opn_commutes. intros. unfold bv_mul. f_equal. lia.
  - apply opn_commutes. intros. apply Z.land_comm.
  - apply opn_commutes. intros. apply Z.lor_comm.
  - apply opn_commutes. intros. apply Z.lxor_comm.
  - apply holds_rewrites. intros s (n & ? & ? & [= <- <-] & Ha & Hb & ->)%comp_inv.
    eexists _, _. split; [done|]. split; [by apply (holds_comp n)|].
    eapply holds_ext; [by apply (holds_comp n)|]. intros I. simpl. by rewrite Z.eqb_sym.
Qed.

(** A left neutral element of an operator on bit vectors. *)
Lemma opn_neutral `{!OpN o f} w v b :
  bvx w b -> (forall y, fits w y -> f w (v mod pow2 w) y = y) -> b ~> App o [mk_numeral v w; b].
Proof.
  intros Hb Hf. pose proof (bvx_pos w b Hb) as Hw. destruct (holds_num w v Hw) as [B V].
  apply holds_rewrites. intros s Hs. rewrite Hb in Hs. injection Hs as <-. eexists _, _. split; [done|].
  split; [by apply holds_refl|].
  eapply holds_ext; [apply (holds_opn o w [_; b]); [done|by repeat constructor]|]. intros I. simpl. rewrite V.
  apply Hf. by apply fits_vn.
Qed.

Lemma neutral_ok f args n b s :
  get_neutral_elem (App f args) = Some n -> get_sort (App f args) = Some s -> get_sort b = Some s ->
  get_sort n = Some s /\ b ~> App f [n; b] /\ is_commutative f = true /\ Forall (fun a => get_sort a = Some s) args.
Proof.
  intros Hn Hs Hb. destruct f; try done; simpl in Hn.
  - pose proof (opn_inv OP_BADD args s Hs) as (w & -> & _ & HF). rewrite (get_bv_size_eq w _ Hs) in Hn. injection Hn as <-.
    pose proof (bvx_pos w b Hb) as Hw. split; [by apply (holds_num w 0)|]. split; [|by split]. apply opn_neutral; [done|].
    intros y Hy. unfold bv_add. rewrite Z.mod_0_l by (pose proof (pow2_pos w); lia). by apply Z.mod_small.
  - pose proof (opn_inv OP_BMUL args s Hs) as (w & -> & _ & HF). rewrite (get_bv_size_eq w _ Hs) in Hn. injection Hn as <-.
    pose proof (bvx_pos w b Hb) as Hw. split; [by apply (holds_num w 1)|]. split; [|by split]. apply opn_neutral; [done|].
    intros y Hy. unfold bv_mul. rewrite Z.mul_mod_idemp_l, Z.mul_1_l by (pose proof (pow2_pos w); lia). by apply Z.mod_small.
Qed.

(** What [unify_core] finds: both terms are an application of the operator to the
    common argument and one that differs. *)
Definition put (f : op) (c : expr) (first : bool) (x : expr) : expr := App f (if first then [c; x] else [x; c]).

Lemma put_context f c first : context (put f c first).
Proof. destruct first; [apply context_right|apply context_left]. Qed.

Lemma same_decl_inv f a1 b1 g a2 b2 s :
  same_decl (App f [a1; b1]) (App g [a2; b2]) = true -> get_sort (App f [a1; b1]) = Some s ->
  f = g /\ get_sort a1 = get_sort a2 /\ get_sort b1 = get_sort b2.
Proof.
  intros [Hf Hs]%andb_true_iff H. apply bool_decide_eq_true in Hf as ->, Hs. split; [done|].
  destruct (arg_sorted _ _ _ a1 H ltac:(left)) as [u Hu]. destruct (arg_sorted _ _ _ b1 H ltac:(right; left)) as [w Hw].
  revert Hs. simpl. rewrite Hu, Hw. simpl. destruct (get_sort a2), (get_sort b2); simpl; naive_solver.
Qed.

Lemma put_swap f a b (first : bool) : is_commutative f = true -> App f [a; b] ~> put f (if first then b else a) first (if first then a else b).
Proof. intros Hc. destruct first; by apply commutes. Qed.

Lemma unify_core_ok t1 t2 f args n1 n2 c first s :
  t1 = App f args -> get_sort t1 = Some s -> get_sort t2 = Some s -> unify_core t1 t2 = Some (n1, n2, c, first) ->
  get_sort n1 = get_sort n2 /\ t1 ~> put f c first n1 /\ t2 ~> put f c first n2.
Proof.
  intros -> H1 H2 H. destruct args as [|a1 [|b1 [|? ?]]]; try done. unfold unify_core in H.
  destruct (decide (t2 = b1)) as [->|_].
  { destruct (get_neutral_elem _) as [n|] eqn:En; [|done]. injection H as <- <- <- <-.
    destruct (neutral_ok f _ n b1 s En H1 H2) as (Hn & Hb & _ & HF). inv_Forall. split; [congruence|]. by split. }
  destruct (decide (t2 = a1)) as [->|_].
  { destruct (get_neutral_elem _) as [n|] eqn:En; [|done]. injection H as <- <- <- <-.
    destruct (neutral_ok f _ n a1 s En H1 H2) as (Hn & Ha & Hc & HF). inv_Forall. split; [congruence|]. split; [done|].
    etransitivity; [exact Ha|]. by apply commutes. }
  destruct (same_decl _ t2) eqn:Ed; [|done]. destruct t2 as [g [|a2 [|b2 [|? ?]]]]; try done.
  destruct (same_decl_inv _ _ _ _ _ _ s Ed H1) as (<- & Ea & Eb).
  destruct (decide (b1 = b2)) as [->|_]; [injection H as <- <- <- <-; by split_and!|].
  destruct (decide (a1 = a2)) as [->|_]; [injection H as <- <- <- <-; by split_and!|].
  destruct (is_commutative f) eqn:Ec; [|done].
  destruct (decide (a1 = b2)) as [->|_]; [injection H as <- <- <- <-|destruct (decide (b1 = a2)) as [->|_]; [injection H as <- <- <- <-|done]].
  - split_and!; [congruence|done|by apply commutes].
  - split_and!; [congruence|done|by apply commutes].
Qed.

Section Exchange.
Context (cfg : th_rewriter_cfg) (get_ref_count : expr -> nat).

Lemma is_ite_inv t c a b : m.is_ite t = Some (c, a, b) -> t = m.mk_ite c a b.
Proof. intros H. by recog. Qed.

Lemma pull_ite_ok f args st r : pull_ite get_ref_count f args = Some (st, r) -> App f args ~> r.
Proof.
  intros H. destruct args as [|a [|b [|? ?]]]; try done. unfold pull_ite in H. apply orelse_Some in H as [H|H].
  - destruct (_ && _); [|done]. unfold pull_ite_pred in H.
    destruct (m.is_ite a) as [[[c1 a1] b1]|] eqn:Ea, (m.is_ite b) as [[[c2 a2] b2]|] eqn:Eb; try done.
    + destruct (decide (c1 = c2)) as [->|]; [|done]. injection H as <- <-.
      apply is_ite_inv in Ea as ->, Eb as ->. apply pull_both.
    + destruct (m.is_value b); [|done]. apply is_ite_inv in Ea as ->. by apply (pull_ite_core_ok false) in H.
    + destruct (m.is_value a); [|done]. apply is_ite_inv in Eb as ->. by apply (pull_ite_core_ok true) in H.
  - unfold pull_ite_tree in H. destruct (m.family_of f); [| |done].
    all: destruct (m.is_value a && _).
    1,3: destruct (m.is_ite b) as [[[c t] e]|] eqn:Eb; [|done]; apply is_ite_inv in Eb as ->; by apply (pull_ite_core_ok true) in H.
    all: destruct (m.is_value b && _); [|done].
    all: destruct (m.is_ite a) as [[[c t] e]|] eqn:Ea; [|done]; apply is_ite_inv in Ea as ->; by apply (pull_ite_core_ok false) in H.
Qed.

Lemma unify_ok t1 t2 f n1 n2 c first s :
  get_sort t1 = Some s -> get_sort t2 = Some s -> unify cfg t1 t2 = Some (f, n1, n2, c, first) ->
  get_sort n1 = get_sort n2 /\ t1 ~> put f c first n1 /\ t2 ~> put f c first n2.
Proof.
  intros H1 H2 H. destruct t1 as [f1 args1] eqn:E1, t2 as [f2 args2] eqn:E2. rewrite <- E1, <- E2 in *. unfold unify in H.
  rewrite E1, E2 in H. rewrite <- E1, <- E2 in H. destruct (is_arith_bv_app cfg t1).
  - destruct (unify_core t1 t2) as [[[[m1 m2] k] b]|] eqn:E; [|done]. injection H as <- <- <- <- <-.
    by apply (unify_core_ok t1 t2 f1 args1 m1 m2 k b s).
  - destruct (is_arith_bv_app cfg t2); [|done].
    destruct (unify_core t2 t1) as [[[[m2 m1] k] b]|] eqn:E; [|done]. injection H as <- <- <- <- <-.
    destruct (unify_core_ok t2 t1 f2 args2 m2 m1 k b s E2 H2 H1 E) as (Hs & ? & ?). by split_and!.
Qed.

Lemma push_ite_ok f args st r : push_ite cfg f args = Some (st, r) -> App f args ~> r.
Proof.
  intros H. destruct f; try done. destruct args as [|c [|t [|e [|? ?]]]]; try done. unfold push_ite in H.
  destruct (unify cfg t e) as [[[[[f n1] n2] k] b]|] eqn:E; [|done].
  assert (r = put f k b (m.mk_ite c n1 n2)) as -> by (destruct b; by injection H).
  intros s Hs. pose proof Hs as (_ & Ht & He)%get_sort_ite. destruct (unify_ok t e f n1 n2 k b s Ht He E) as (Hn & R1 & R2).
  revert s Hs Ht He. cut (m.mk_ite c t e ~> put f k b (m.mk_ite c n1 n2)); [intros R s Hs _ _; by apply R|].
  transitivity (m.mk_ite c (put f k b n1) (put f k b n2)); [by apply rewrites_ite2|]. by apply push_context; [apply put_context|].
Qed.

Lemma exchange_ite_keeps f args st :
  keeps (App f args) st -> keeps (App f args) (exchange_ite cfg get_ref_count f args st).
Proof.
  assert (K : forall (b : bool) step st, (forall f args st r, step f args = Some (st, r) -> App f args ~> r) ->
    keeps (App f args) st -> keeps (App f args) (then_try b step f args st)).
  { intros b step st0 Hstep Hst. unfold then_try. destruct b; [|done]. destruct st0 as [[s t]|].
    - destruct t as [g l]. simpl. destruct (step g l) as [[s' r]|] eqn:E; simpl; [|done].
      etransitivity; [exact Hst|by eapply Hstep].
    - destruct (step f args) as [[s' r]|] eqn:E; simpl; [by eapply Hstep|done]. }
  intros Hst. assert (Ht : keeps (App f args) (then_try (m_pull_cheap_ite cfg) (pull_ite get_ref_count) f args
    (then_try (m_push_ite_bv cfg || m_push_ite_arith cfg) (push_ite cfg) f args st))).
  { apply K; [exact pull_ite_ok|]. apply K; [exact push_ite_ok|done]. }
  unfold exchange_ite. destruct st as [[[] ?]|]; done.
Qed.
End Exchange.

(** ** The dispatch *)

(** The options under which the rules keep values: without those of which a rule
    is wrong, or meets terms it is wrong for. *)
Definition safe_options (cfg : bv_rewriter.params) : Prop :=
  bv_rewriter.m_udiv2mul cfg = false /\ bv_rewriter.m_mul2concat cfg = false /\
  bv_rewriter.m_urem_simpl cfg = false /\ bv_rewriter.m_trailing cfg = false.

(** The wrong test for overflow still yields a truth value, which the exchange of
    if-then-else leaves alone. *)
Lemma smul_is_value cfg get_ref_count a b st r :
  bv_app.mk_binary (m_bv_rw cfg) OP_BSMUL_NO_OVFL a b = Some (st, r) ->
  exchange_ite cfg get_ref_count OP_BSMUL_NO_OVFL [a; b] (Some (st, r)) = Some (BR_DONE, r) /\ boolx r.
Proof.
  intros E. assert (Hr : st = BR_DONE /\ (r = m.mk_true \/ r = m.mk_false)).
  { simpl in E. unfold bv_rewriter.mk_bvsmul_no_overflow, bv_rewriter.mk_mul_test in E. rule_cases E; simplify_eq; auto.
    all: unfold bv_rewriter.mk_bool_val; case_match; auto. }
  destruct Hr as [-> Hr]. unfold exchange_ite, then_try, on_result.
  destruct Hr as [-> | ->]; (split; [|done]); by destruct (_ || _), (m_pull_cheap_ite cfg).
Qed.

Section Reduce.
Context `{Env} (cfg : th_rewriter_cfg) (lt : expr -> expr -> bool) (get_id : expr -> Z) (get_ref_count : expr -> nat).
Context (std_sort : (expr -> expr -> bool) -> list expr -> list expr).
Hypothesis sort_perm : forall r l, std_sort r l ≡ₚ l.
Hypothesis safe : safe_options (m_bv_rw cfg).

Lemma th_mk_eq_keeps f args c s :
  get_sort (App f args) = Some s -> BvTrailingSound.cache_ok c ->
  spec_exn blowup (th_rewriter.mk_eq_core cfg lt get_id std_sort f args c) (fun '(st, c') => BvTrailingSound.cache_ok c' /\ keeps (App f args) st).
Proof.
  intros Hs Hc. destruct safe as (_ & _ & Hu & Ht).
  assert (Hn : spec_exn blowup (mret (None, c)) (fun '(st, c') => BvTrailingSound.cache_ok c' /\ keeps (App f args) st)) by by apply spec_exn_ret.
  destruct f; try exact Hn. destruct args as [|a [|b [|? ?]]]; try exact Hn. unfold th_rewriter.mk_eq_core.
  pose proof Hs as (-> & u & Ha & Hb)%get_sort_eq.
  apply (spec_exn_bind _ _ _ (fun '(st, c') => BvTrailingSound.cache_ok c' /\ keeps (m.mk_eq a b) st)).
  - destruct (is_bv a) eqn:Eb; [|by apply spec_exn_ret]. unfold is_bv in Eb. rewrite Ha in Eb. destruct u as [|n|]; try done.
    destruct (eq.mk_eq_core _ _ _ _ a b c) as [[st c']|] eqn:E.
    + apply spec_exn_ret. destruct (bv_eq_core_ok (m_bv_rw cfg) lt get_id std_sort sort_perm n a b c st c' Ha Hb Hc) as [Hc' Hst];
        [by left|by left|exact E|]. split; [done|]. destruct st as [[st r]|]; [|done]. simpl in Hst. destruct Hst as [Br Vr].
      intros s0 Hs0. change (get_sort (m.mk_eq a b) = Some BOOL_SORT) in Hs. rewrite Hs in Hs0.
      injection Hs0 as <-. split; [done|]. intros I.
      destruct (same_bv_eq n _ _ a b (holds_refl n a Ha) (holds_refl n b Hb)) as [_ Ve].
      apply boolx_eval_eq; [done|done|]. by rewrite Vr, Ve.
    + exfalso. revert E. unfold eq.mk_eq_core. rewrite Ht. repeat case_match; try done.
  - intros [st c'] [Hc' Hst]. apply spec_exn_ret. split; [done|]. destruct st as [[st r]|]; [exact Hst|].
    simpl. destruct (apply_tamagotchi a b) as [[st r]|] eqn:E; [|done]. by eapply apply_tamagotchi_ok.
Qed.

Lemma th_mk_ite_keeps f args : keeps (App f args) (th_rewriter.mk_ite_core cfg f args).
Proof.
  destruct f; try done. destruct args as [|c [|t [|e [|? ?]]]]; try done. simpl. destruct (is_bv t); [|done].
  destruct (bv_rewriter.mk_ite_core _ c t e) as [[st r]|] eqn:E; [|done]. by eapply bv_ite_core_ok.
Qed.

Lemma reduce_app_core_keeps f args c s :
  get_sort (App f args) = Some s -> BvTrailingSound.cache_ok c -> f <> OP_BSMUL_NO_OVFL ->
  spec_exn blowup (reduce_app_core cfg lt get_id get_ref_count std_sort f args c)
    (fun '(st, c') => BvTrailingSound.cache_ok c' /\ keeps (App f args) st).
Proof.
  intros Hs Hc Hf. unfold reduce_app_core. destruct (m.family_of f).
  - eapply spec_exn_bind; [by eapply th_mk_eq_keeps|]. intros [st c'] [Hc' Hst].
    assert (Ho : keeps (App f args) (bv_rewriter.orelse st (th_rewriter.mk_ite_core cfg f args))).
    { destruct st as [[st r]|]; [exact Hst|]. apply th_mk_ite_keeps. }
    destruct (bv_rewriter.orelse st _) as [r|]; [by apply spec_exn_ret|].
    eapply spec_exn_bind; [apply spec_exn_of; by apply (mk_app_core_ok (m_b_rw cfg) f args s)|].
    intros r Hr. apply spec_exn_ret. split; [done|]. destruct r as [[st' r]|]; [|done]. destruct Hr as [Sr Vr].
    intros s0 Hs0. rewrite Hs in Hs0. injection Hs0 as <-. by split.
  - destruct safe as (Hd & Hm & _). eapply spec_exn_bind; [eapply mk_app_core_keeps; try done; by left|].
    intros r Hr. by apply spec_exn_ret.
  - by apply spec_exn_ret.
Qed.
End Reduce.

(** ** Flattening *)

Lemma opval_flatten (g : nat -> Z -> Z -> Z) n xs sub ys :
  (forall x y z, g n (g n x y) z = g n x (g n y z)) -> sub <> [] ->
  opval g n (xs ++ opval g n sub :: ys) = opval g n (xs ++ sub ++ ys).
Proof.
  intros Hg Hsub. destruct sub as [|b sub]; [done|]. clear Hsub. simpl.
  assert (K : forall l x, fold_left (g n) l (g n x b) = g n x (fold_left (g n) l b)).
  { intros l x. revert b. induction l as [|y l IH]; intros b; simpl; [done|]. by rewrite Hg, IH. }
  destruct xs as [|a xs]; simpl; rewrite !fold_left_app; [done|]. simpl. by rewrite fold_left_app, K.
Qed.

Lemma opn_flatten `{!OpN o g} P xs sub ys :
  (forall n x y z, g n (g n x y) z = g n x (g n y z)) ->
  agrees P (App o (xs ++ App o sub :: ys)) (App o (xs ++ sub ++ ys)).
Proof.
  intros Hg s Hs. pose proof (opn_inv o _ s Hs) as (n & -> & _ & HF). apply Forall_app in HF as [Hx HF].
  apply Forall_cons in HF as [Hsub Hy]. pose proof (opn_inv o sub _ Hsub) as (k & [= <-] & Hne & HFs).
  assert (HF : Forall (bvx n) (xs ++ sub ++ ys)) by (by rewrite !Forall_app).
  assert (Hn : xs ++ sub ++ ys <> []) by (destruct xs, sub; done).
  destruct (holds_opn o n _ Hn HF) as [B V]. split; [exact B|]. intros I _.
  rewrite (bvx_val I n _ B), (bvx_val I n _ Hs), V. f_equal.
  destruct (holds_opn o n (xs ++ App o sub :: ys)) as [_ V']; [by destruct xs|by apply Forall_app; split; [|constructor]|].
  destruct (holds_opn o n sub Hne HFs) as [_ Vs]. rewrite V', !map_app, map_cons, Vs. symmetry. by apply opval_flatten; [|by destruct sub].
Qed.

Lemma th_flat_ok cfg P f xs sub ys :
  flat_assoc cfg f = true -> agrees P (App f (xs ++ App f sub :: ys)) (App f (xs ++ sub ++ ys)).
Proof.
  intros [_ Hf]%andb_true_iff. destruct f; try done; first [apply flatten_agrees; by auto|apply opn_flatten].
  - intros. unfold bv_add. rewrite Z.add_mod_idemp_l, Z.add_mod_idemp_r by (pose proof (pow2_pos n); lia). f_equal. lia.
  - intros. symmetry. apply Z.land_assoc.
  - intros. symmetry. apply Z.lor_assoc.
  - intros. apply Z.lxor_assoc.
Qed.

(** ** The promises *)

Lemma keeps_agrees P e st r : keeps e (Some (st, r)) -> agrees P e r.
Proof. intros Hk s Hs. destruct (Hk s Hs) as [Hr V]. by split; [|intros I _]. Qed.

(** What the traversal asks of a reduction, for a configuration all of whose terms are accepted. *)
Lemma keeps_promise P e st :
  is_Some (get_sort e) -> keeps e st ->
  match st with
  | None => True
  | Some (BR_DONE, r) => agrees P e r /\ True
  | Some (_, r) => agrees P e r /\ good (fun _ => True) r /\ forall e : expr, True
  end.
Proof.
  intros [s Hs] Hk. destruct st as [[st r]|]; [|done]. pose proof (keeps_agrees P e st r Hk) as Ha.
  assert (Hg : good (fun _ => True) r) by (apply good_all; [done|]; exists s; by apply (Hk s Hs)).
  by destruct st.
Qed.

Section Promises.
Context `{Env} (cfg : th_rewriter_cfg) (lt : expr -> expr -> bool) (get_id : expr -> Z) (get_ref_count : expr -> nat).
Context (std_sort : (expr -> expr -> bool) -> list expr -> list expr).
Hypothesis sort_perm : forall r l, std_sort r l ≡ₚ l.
Hypothesis safe : safe_options (m_bv_rw cfg).

#[local] Instance th_config : rewriter_tpl.Config state := Config cfg lt get_id get_ref_count std_sort.

Lemma smul_promise P args c s :
  get_sort (App OP_BSMUL_NO_OVFL args) = Some s -> BvTrailingSound.cache_ok c -> (forall I, ~ P I) ->
  spec_exn blowup (reduce_app_core cfg lt get_id get_ref_count std_sort OP_BSMUL_NO_OVFL args c) (fun '(st, c') =>
    BvTrailingSound.cache_ok c' /\
    match exchange_ite cfg get_ref_count OP_BSMUL_NO_OVFL args st with
    | None => True
    | Some (BR_DONE, r) => agrees P (App OP_BSMUL_NO_OVFL args) r /\ True
    | Some (_, r) => agrees P (App OP_BSMUL_NO_OVFL args) r /\ good (fun _ => True) r /\ forall e : expr, True
    end).
Proof.
  intros Hs Hc HP. pose proof (pred_inv OP_BSMUL_NO_OVFL args s Hs) as (n & a & b & -> & -> & Ha & Hb).
  unfold reduce_app_core. simpl. eapply spec_exn_bind; [by apply (spec_exn_ret blowup _ (fun r => r = bv_app.mk_binary (m_bv_rw cfg) OP_BSMUL_NO_OVFL a b))|].
  intros r ->. apply spec_exn_ret. split; [done|].
  destruct (bv_app.mk_binary _ _ a b) as [[st r]|] eqn:E.
  - destruct (smul_is_value cfg get_ref_count a b st r E) as [-> Hr]. split; [|done].
    intros s0 Hs0. rewrite Hs in Hs0. injection Hs0 as <-. split; [done|]. intros I HI. by destruct (HP I).
  - apply keeps_promise; [by eexists|]. by apply exchange_ite_keeps.
Qed.

#[local] Program Instance th_config_ok : ConfigOk state := {|
  inv := fun s => BvTrailingSound.cache_ok (m_rm_trailing s);
  ext := fun s s' => smul_free s' = true -> smul_free s = true;
  models := fun s _ => smul_free s = true;
  ok_op := fun _ => True;
  out := fun _ => True;
  raises := fun e => blowup e \/ e = ExMaxSteps;
|}.
Next Obligation. split; [by intros ?|intros ???; auto]. Qed.
Next Obligation. auto. Qed.
Next Obligation.
  intros s o args Hi _ Hs _. simpl. unfold reduce_app.
  eapply (spec_exn_mono blowup); [|by left|intros ? HQ; exact HQ].
  destruct (decide (o = OP_BSMUL_NO_OVFL)) as [->|Ho]; destruct Hs as [srt Hs].
  - eapply spec_exn_bind; [apply (smul_promise (fun _ => false = true) args (m_rm_trailing s) srt Hs Hi)|]; [by intros I|].
    intros [st c'] [Hc' Hst]. apply spec_exn_ret. simpl. rewrite andb_false_r. split; [done|]. split; [done|]. exact Hst.
  - eapply spec_exn_bind; [by eapply reduce_app_core_keeps|]. intros [st c'] [Hc' Hst]. apply spec_exn_ret. simpl.
    rewrite bool_decide_false, andb_true_r by done. split; [done|]. split; [done|].
    apply keeps_promise; [by exists srt|]. by apply exchange_ite_keeps.
Qed.
Next Obligation. done. Qed.
Next Obligation. done. Qed.
Next Obligation. done. Qed.
Next Obligation. intros o xs sub ys P Hf _. exact (th_flat_ok cfg P o xs sub ys Hf). Qed.
Next Obligation. done. Qed.
Next Obligation.
  intros n Hn s. simpl. unfold max_steps_exceeded.
  destruct (Z.ltb_spec max_memory (alloc_size (m_ticks s))); [left; left; eauto|]. intros _. by right.
Qed.
End Promises.
