(* ===== verification/BlasterRun.v ===== *)
(** * BlasterRun: the bit-blasting rewriter as a machine

    [bit_blaster_rewriter::imp] of [bit_blaster_rewriter.cpp]: [rewriter_tpl]
    over [blaster_rewriter_cfg].  The configuration keeps the promises of
    [ConfigOk], asks for no second rewriting, and its results do not depend on
    the bit-vector constants. *)
From Stdlib Require Import ZArith Lia.
From stdpp Require Import base list fin_maps gmap.
From S2P Require Import Prelude Bits UBits Ast AstFacts TermFacts BvTerms Gates Blast BlastFacts BoolRewriter.
From S2P Require Import ActCache Rewriter RewriterSound.
From S2P Require Import BlastRewriter BlastRewriterFacts BlastRewriterState.
Import blaster_rewriter_cfg.

Module bit_blaster_rewriter.
Section Imp.
Context `{Env} {G : Gates} (m_use_wtm m_use_bcm : bool) (cfg : params).

(** [blaster_rewriter_cfg::max_steps_exceeded]; [max_memory] is [m_max_memory]. *)
Definition max_steps_exceeded (num_steps : Z) : M bool := fun s =>
  if (max_memory <? alloc_size (m_ticks s))%Z then Throw ExMaxMemory
  else Ok (m_max_steps cfg <? num_steps)%Z (mk_st (m_local_ctx_cost s) (S (m_ticks s))).

(** The template argument; what it inherits from [default_rewriter_cfg] is the
    default. *)
Definition Config : rewriter_tpl.Config state := {|
  rewriter_tpl.cache_results := true;
  rewriter_tpl.cache_all_results := false;
  rewriter_tpl.flat_assoc := fun _ => false;
  rewriter_tpl.max_frames_exceeded := fun _ => false;
  rewriter_tpl.max_steps_exceeded := max_steps_exceeded;
  rewriter_tpl.pre_visit := fun _ => true;
  rewriter_tpl.get_subst := fun _ => None;
  rewriter_tpl.get_macro := fun _ => None;
  rewriter_tpl.reduce_app := fun o args s =>
    '(r, s) ← reduce_app m_use_wtm m_use_bcm cfg o args s;
    mret (pair BR_DONE <$> r, s);
|}.
End Imp.
End bit_blaster_rewriter.

(** ** Terms that do not depend on the bit-vector constants *)

(** The same but for the values of bit-vector constants. *)
Definition same_but_bv (I I' : interp) : Prop :=
  forall f dom rng vs, (dom = [] -> forall n, rng <> BV_SORT n) -> I f dom rng vs = I' f dom rng vs.

Definition blind (e : expr) : Prop := forall I I', same_but_bv I I' -> eval I e = eval I' e.

Lemma blind_app o args : ~ bv_const o -> Forall blind args -> blind (App o args).
Proof.
  intros Ho Hb I I' HI. assert (E : map (eval I) args = map (eval I') args).
  { apply map_ext_in. intros a Ha%list_elem_of_In. by apply (proj1 (Forall_forall _ _) Hb a Ha). }
  destruct (op_uninterp_dec o) as [[[[f dom] rng] ->]|Hn].
  - rewrite !eval_uninterp, E. f_equal. apply HI. intros -> n ->. apply Ho. by exists f, n.
  - by rewrite !eval_app, E by done.
Qed.

Lemma blind_const (d : decl) : d.2 = BOOL_SORT -> blind (decl_const d).
Proof.
  intros Hd. apply blind_app; [|constructor]. rewrite Hd. by intros (f & n & [=]).
Qed.

Lemma blind_entry s (f : decl) r : wf s -> m_const2bits s !! f = Some r -> blind r.
Proof.
  intros [gs W] Hr. destruct (wf_entry gs s f r W Hr) as (i & ds & _ & Hd & -> & _).
  apply blind_app; [by intros (? & ? & [=])|]. apply Forall_map, Forall_forall. intros d Hd'. apply blind_const.
  apply (proj1 (Forall_forall _ _) (wf_fresh _ _ W) d). rewrite (wf_newbits _ _ W). apply elem_of_concat.
  exists ds. split; [by eapply list_elem_of_lookup_2|done].
Qed.

(** ** The promises *)

Section Promises.
Context `{Env} (G : Gates) {OK : GatesOk G} (m_use_wtm m_use_bcm : bool) (cfg : params).

(** Fresh names start at [k]. *)
Variable k : nat.

#[local] Instance the_config : rewriter_tpl.Config state := bit_blaster_rewriter.Config m_use_wtm m_use_bcm cfg.

Definition fresh_from (s : state) : Prop :=
  (k <= m_fresh_id s)%nat /\ Forall (fun d : decl => (k <= d.1)%nat) (m_newbits s).

Definition blaster_inv (s : state) : Prop := wf s /\ fresh_from s.

(** The bits only grow. *)
Definition blaster_ext (s s' : state) : Prop :=
  keeps s s' /\ (forall d, d ∈ m_newbits s -> d ∈ m_newbits s') /\ m_keypos s' = m_keypos s.

#[local] Instance blaster_ext_preorder : PreOrder blaster_ext.
Proof.
  split; [intros s; split; [by intros f r|by split]|]. intros a b c (H1 & H2 & H3) (H4 & H5 & H6). split; [|split; [auto|congruence]].
  intros f r Hr. by apply H4, H1.
Qed.

Lemma mk_const_inv (f : decl) n s : f.2 = BV_SORT n -> (0 < n)%nat -> blaster_inv s ->
  blaster_inv (mk_const f s).2 /\ blaster_ext s (mk_const f s).2.
Proof.
  intros Hf Hn [Hw [Hk Hb]]. pose proof (mk_const_wf f n s Hw Hf Hn) as Hw'. pose proof (mk_const_keeps f n s Hf) as Hks.
  rewrite (mk_const_eq f n s Hf) in *. destruct (m_const2bits s !! f); [by split|]. cbn [snd] in *.
  split; [split; [done|]|]; [split|split; [done|split; [|done]]]; simpl.
  - lia.
  - apply Forall_app. split; [done|]. apply Forall_forall. intros d Hd%fresh_group_spec. lia.
  - intros d Hd. apply elem_of_app. by left.
Qed.

Lemma blaster_reduce_ok s o args :
  blaster_inv s -> unsupported cfg o = false -> is_Some (get_sort (App o args)) -> Forall blind args ->
  spec (rewriter_tpl.reduce_app o args s) (fun '(st, s') =>
    blaster_inv s' /\ blaster_ext s s'
    /\ match st with
       | None => blind (App o args)
       | Some (st, r) => st = BR_DONE /\ agrees (fun I => consistent I s') (App o args) r /\ blind r
       end).
Proof.
  intros [Hw Hfr] Hu [srt Hs] Hb. simpl.
  destruct (bv_const_dec o) as [(f & n & ->)|Hc].
  - pose proof (uninterp_args _ _ _ _ Hs) as ->. unfold reduce_app.
    rewrite get_sort_app in Hs. simpl in Hs. destruct (decide _) as [[_ Hok]|]; [|done]. injection Hs as <-.
    assert (Hn : (0 < n)%nat) by (destruct n; [done|lia]).
    destruct (mk_const_inv (f, BV_SORT n) n s eq_refl Hn (conj Hw Hfr)) as [Hi He].
    pose proof (mk_const_lookup (f, BV_SORT n) n s eq_refl) as Hl.
    destruct (mk_const (f, BV_SORT n) s) as [r s']. simpl in *. apply spec_ret. split; [done|]. split; [done|].
    split; [done|]. split; [|by eapply blind_entry; [apply Hi|]].
    intros s0 Hs0. rewrite get_sort_app in Hs0. simpl in Hs0. rewrite decide_True in Hs0 by done. injection Hs0 as <-.
    split; [by apply (wf_entry_sort _ _ _ (proj1 Hi) Hl)|]. intros I Hc. symmetry. exact (Hc _ _ Hl).
  - eapply spec_bind; [by apply (reduce_app_pure_ok G m_use_wtm m_use_bcm cfg o args srt)|].
    intros [r s'] [E Hr]. simpl in *. subst s'. apply spec_ret. split; [done|]. split; [reflexivity|].
    destruct r as [r|]; simpl; [|by apply blind_app]. destruct (Hr r eq_refl) as [Sr Vr]. split; [done|]. split.
    + intros s0 Hs0. rewrite Hs in Hs0. injection Hs0 as <-. split; [done|]. auto.
    + intros I I' HI. rewrite !Vr. by apply blind_app.
Qed.

(** The step bound is exceeded only when there is one. *)
Definition blaster_raises (e : exn) : Prop := e = ExMaxSteps /\ (m_max_steps cfg < 2 ^ 32 - 1)%Z.

#[local] Program Instance the_config_ok : ConfigOk state := {|
  inv := blaster_inv;
  ext := blaster_ext;
  models := fun s I => consistent I s;
  ok_op := fun o => unsupported cfg o = false;
  out := blind;
  raises := blaster_raises;
|}.
Next Obligation. intros s s' I (Hk & _) Hc. by eapply consistent_keeps. Qed.
Next Obligation.
  intros s o args Hi Hu Hs Hb. apply spec_exn_of. eapply spec_mono; [by apply blaster_reduce_ok|].
  intros [[[st r]|] s'] (Hi' & He & Hr); [|done]. by destruct Hr as (-> & Ha & Hbl).
Qed.
Next Obligation. done. Qed.
Next Obligation. done. Qed.
Next Obligation. done. Qed.
Next Obligation. done. Qed.
Next Obligation. done. Qed.
Next Obligation.
  intros n Hn s. simpl. unfold bit_blaster_rewriter.max_steps_exceeded.
  destruct (Z.ltb_spec max_memory (alloc_size (m_ticks s))); [left; left; eauto|]. intros Hlt%Z.ltb_lt.
  split; [done|lia].
Qed.

#[local] Instance the_config_one_shot : OneShot state.
Proof.
  split. intros o args s st0. simpl. unfold mbind, M_bind.
  destruct (reduce_app _ _ _ _ _ _ _) as [[[r|] s'] st1|e]; done.
Qed.
End Promises.
