(* ===== verification/SatTypes.v ===== *)
(** * SatTypes: literals, truth values and clauses of the SAT solver

    [sat::literal] and [lbool] of [sat/sat_types.h] and [util/lbool.h].  A
    literal is twice its variable, plus one when it is negated.  The code gives
    it 32 bits; the variables of a formula stay far below that.  The literal
    [null_literal] is [None] here.

    An assignment gives every variable a truth value; it is what the clauses of
    the solver speak about. *)
From Stdlib Require Import ZArith Lia.
From stdpp Require Import base list.
From S2P Require Import Prelude.

Inductive lbool := l_false | l_undef | l_true.

Global Instance lbool_eq_dec : EqDecision lbool.
Proof. solve_decision. Defined.
Global Instance lbool_inhabited : Inhabited lbool := populate l_undef.

(** [operator~] on [lbool]. *)
Definition lbool_neg (b : lbool) : lbool :=
  match b with l_false => l_true | l_undef => l_undef | l_true => l_false end.

Abbreviation bool_var := nat (only parsing).

(** [literal(bool_var v, bool _sign)] and its accessors. *)
Record literal := to_literal { index : nat }.

Global Instance literal_eq_dec : EqDecision literal.
Proof. solve_decision. Defined.
Global Instance literal_inhabited : Inhabited literal := populate (to_literal 0).

Definition mk_literal (v : bool_var) (sign : bool) : literal := to_literal (2 * v + Nat.b2n sign).
Definition var (l : literal) : bool_var := Nat.shiftr (index l) 1.
Definition sign (l : literal) : bool := Nat.testbit (index l) 0.
Definition neg (l : literal) : literal := to_literal (Nat.lxor (index l) 1).

Declare Scope literal_scope.
Delimit Scope literal_scope with lit.
Bind Scope literal_scope with literal.
Notation "~ l" := (neg l) (at level 75, right associativity) : literal_scope.

(** [value_at(bool_var, model)] and [value_at(literal, model)]. *)
Definition value_at_var (v : bool_var) (m : list lbool) : lbool := m !!! v.
Definition value_at (l : literal) (m : list lbool) : lbool :=
  let r := value_at_var (var l) m in if sign l then lbool_neg r else r.

(** ** Facts *)

Lemma literal_eta l : l = mk_literal (var l) (sign l).
Proof.
  destruct l as [n]. unfold mk_literal, var, sign. f_equal. cbn [index].
  rewrite Nat.shiftr_div_pow2, Nat.bit0_odd. change (2 ^ 1) with 2.
  rewrite (Nat.div_mod_eq n 2) at 1. f_equal. rewrite <- Nat.bit0_mod, Nat.bit0_odd. done.
Qed.

Lemma var_mk v b : var (mk_literal v b) = v.
Proof.
  unfold var, mk_literal. cbn [index]. rewrite Nat.shiftr_div_pow2, Nat.mul_comm. change (2 ^ 1) with 2.
  rewrite Nat.div_add_l by done. destruct b; cbn; lia.
Qed.

Lemma sign_mk v b : sign (mk_literal v b) = b.
Proof.
  unfold sign, mk_literal. cbn [index]. rewrite Nat.bit0_odd, Nat.odd_add, Nat.odd_mul. by destruct b.
Qed.

Lemma index_eta l : index l = 2 * var l + Nat.b2n (sign l).
Proof. exact (f_equal index (literal_eta l)). Qed.

Lemma neg_mk v b : neg (mk_literal v b) = mk_literal v (negb b).
Proof.
  unfold neg, mk_literal. f_equal. cbn [index]. apply Nat.bits_inj. intros i. rewrite Nat.lxor_spec.
  change (Nat.testbit 1) with (Nat.testbit (2 * 0 + 1)).
  destruct b, i as [|i]; cbn [negb Nat.b2n]; rewrite ?Nat.add_0_r, ?Nat.testbit_odd_0, ?Nat.testbit_even_0,
    ?Nat.testbit_odd_succ, ?Nat.testbit_even_succ, ?Nat.bits_0, ?xorb_false_r by lia; done.
Qed.

Lemma neg_involutive l : neg (neg l) = l.
Proof. rewrite (literal_eta l). by rewrite !neg_mk, negb_involutive. Qed.

Lemma var_neg l : var (neg l) = var l.
Proof. rewrite (literal_eta l). by rewrite neg_mk, !var_mk. Qed.

Lemma sign_neg l : sign (neg l) = negb (sign l).
Proof. rewrite (literal_eta l). by rewrite neg_mk, !sign_mk. Qed.

Lemma neg_neq l : neg l <> l.
Proof. intros E. pose proof (sign_neg l) as H. rewrite E in H. by destruct (sign l). Qed.

Lemma neg_eq l l' : neg l = l' <-> l = neg l'.
Proof. split; [intros <-|intros ->]; by rewrite neg_involutive. Qed.

Global Instance neg_inj : Inj (=) (=) neg.
Proof. intros l l' E. rewrite <- (neg_involutive l), E. apply neg_involutive. Qed.

(** Two literals of one variable. *)
Lemma same_var l l' : var l = var l' -> l' = l \/ l' = neg l.
Proof.
  intros E. rewrite (literal_eta l), (literal_eta l'), neg_mk, E. destruct (sign l), (sign l'); auto.
Qed.

Lemma lbool_neg_involutive b : lbool_neg (lbool_neg b) = b.
Proof. by destruct b. Qed.

(** ** Assignments *)

Abbreviation assignment := (nat -> bool) (only parsing).

Definition lit_val (a : assignment) (l : literal) : bool := xorb (sign l) (a (var l)).
Definition clause_val (a : assignment) (c : list literal) : bool := existsb (lit_val a) c.
Arguments clause_val : simpl never.

Lemma lit_val_neg a l : lit_val a (neg l) = negb (lit_val a l).
Proof. unfold lit_val. rewrite var_neg, sign_neg. by destruct (sign l), (a (var l)). Qed.

Lemma lit_val_mk a v b : lit_val a (mk_literal v b) = xorb b (a v).
Proof. unfold lit_val. by rewrite sign_mk, var_mk. Qed.

Lemma clause_val_true a c : clause_val a c = true <-> exists l, l ∈ c /\ lit_val a l = true.
Proof.
  unfold clause_val. rewrite existsb_exists. split; intros (l & Hl & H); exists l; (split; [|done]); by apply list_elem_of_In.
Qed.

Lemma clause_val_cons a l c : clause_val a (l :: c) = lit_val a l || clause_val a c.
Proof. done. Qed.

Lemma clause_val_app a c c' : clause_val a (c ++ c') = clause_val a c || clause_val a c'.
Proof. apply existsb_app. Qed.

Global Instance clause_val_perm a : Proper ((≡ₚ) ==> (=)) (clause_val a).
Proof.
  intros c c' H. apply Bool.eq_iff_eq_true. rewrite !clause_val_true. by setoid_rewrite H.
Qed.

(** Assignments that agree on the variables of a clause. *)
Lemma lit_val_ext a a' l : a (var l) = a' (var l) -> lit_val a l = lit_val a' l.
Proof. unfold lit_val. by intros ->. Qed.

Lemma clause_val_ext a a' c : Forall (fun l => a (var l) = a' (var l)) c -> clause_val a c = clause_val a' c.
Proof.
  intros H. induction H as [|l c Hl _ IH]; [done|]. rewrite !clause_val_cons, IH. f_equal. by apply lit_val_ext.
Qed.

(** Changing one variable. *)
Definition assign_var (a : assignment) (v : bool_var) (b : bool) : assignment := fun x => if decide (x = v) then b else a x.

Lemma assign_var_eq a v b : assign_var a v b v = b.
Proof. unfold assign_var. by rewrite decide_True. Qed.

Lemma assign_var_ne a v b x : x <> v -> assign_var a v b x = a x.
Proof. intros H. unfold assign_var. by rewrite decide_False. Qed.

Create HintDb sat.
#[export] Hint Rewrite neg_involutive var_neg sign_neg var_mk sign_mk neg_mk lit_val_neg lit_val_mk : sat.

(** ** The interface of a solver

    The operations of [sat::solver_core] ([sat/sat_solver_core.h]) by which a goal
    is handed to a solver, and what a solver promises: a new variable changes
    nothing, and a clause restricts the assignments that satisfy the solver to
    those that satisfy the clause. *)
Class SolverCore (T : Type) := {
  add_var : bool -> T -> bool_var * T;
  add_clause : list literal -> bool -> T -> M T;
  set_eliminated : bool_var -> bool -> T -> T;
}.

Class SolverCoreOk (T : Type) `{Env} `{SolverCore T} := {
  usable_solver : T -> Prop;
  vars : T -> nat;
  sats : T -> assignment -> Prop;
  add_var_spec ext s : usable_solver s ->
    let '(v, s') := add_var ext s in
    v = vars s /\ vars s' = S (vars s) /\ usable_solver s' /\ forall a, sats s' a <-> sats s a;
  add_clause_spec c s : usable_solver s -> Forall (fun l => var l < vars s) c ->
    spec (add_clause c false s) (fun s' =>
      usable_solver s' /\ vars s' = vars s /\ forall a, sats s' a <-> sats s a /\ clause_val a c = true);
  set_eliminated_spec v b s : usable_solver s ->
    usable_solver (set_eliminated v b s) /\ vars (set_eliminated v b s) = vars s
    /\ forall a, sats (set_eliminated v b s) a <-> sats s a;
  sats_vars s a a' : usable_solver s -> (forall v, v < vars s -> a v = a' v) -> sats s a -> sats s a';
}.
