(* ===== verification/SatSolver.v ===== *)
(** * SatSolver: the clauses of the SAT solver, and unit propagation

    [sat::solver] of [sat/sat_solver.cpp] as far as it stores clauses, assigns
    literals and propagates: [mk_var], [add_clause], [propagate], [push], [pop].
    There is no extension, no other thread and no proof log.  Left out are the
    statistics and the vectors that steer the search only: activities, marks,
    the queue of case splits, the glue of clauses.

    Clauses of two literals live in the watch lists alone; longer ones are
    objects, which [propagate] permutes.  [std::sort] on literals has one
    possible result, which is that of any sort. *)
From Stdlib Require Import ZArith Lia.
From stdpp Require Import base list sorting.
From S2P Require Import Prelude SatTypes.

(** ** State *)

(** [sat::watched] of [sat/sat_watched.h] *)
Inductive watched :=
| BINARY (l : literal) (learned : bool)
| TERNARY (l1 l2 : literal)
| CLAUSE (blocked_lit : literal) (cls_off : nat).

Global Instance watched_eq_dec : EqDecision watched.
Proof. solve_decision. Defined.

Definition mk_ternary (l1 l2 : literal) : watched :=
  if index l2 <? index l1 then TERNARY l2 l1 else TERNARY l1 l2.

(** [sat::justification] of [sat/sat_justification.h] *)
Inductive justification :=
| J_NONE
| J_BINARY (l : literal)
| J_TERNARY (l1 l2 : literal)
| J_CLAUSE (cls_off : nat).

Global Instance justification_inhabited : Inhabited justification := populate J_NONE.

Inductive phase := POS_PHASE | NEG_PHASE | PHASE_NOT_AVAILABLE.

(** [sat::clause] of [sat/sat_clause.h] *)
Record clause := mk_clause_obj {
  m_lits : list literal;
  m_removed : bool;
  is_learned : bool;
  m_used : bool;
  m_reinit_stack : bool;
}.

Global Instance clause_inhabited : Inhabited clause := populate (mk_clause_obj [] false false false false).

Inductive clause_wrapper :=
| W_BINARY (l1 l2 : literal)
| W_CLAUSE (cls_off : nat).

Record scope := mk_scope {
  m_trail_lim : nat;
  m_clauses_to_reinit_lim : nat;
  s_inconsistent : bool;
}.

Global Instance scope_inhabited : Inhabited scope := populate (mk_scope 0 0 false).

Record solver := mk_solver {
  m_model_is_current : bool;
  m_inconsistent : bool;
  m_conflict : justification;
  m_not_l : option literal;
  m_cls : list clause;  (* the clause allocator; an offset is a position *)
  m_clauses : list nat;
  m_learned : list nat;  (* offsets of clauses *)
  m_watches : list (list watched);
  m_assignment : list lbool;  (* by the index of a literal *)
  m_justification : list justification;
  m_decision : list bool;
  m_eliminated : list bool;
  m_external : list bool;
  m_level : list Z;
  m_phase : list phase;
  m_qhead : nat;
  m_scope_lvl : nat;
  m_search_lvl : nat;
  m_trail : list literal;  (* the last assigned literal is the last *)
  m_clauses_to_reinit : list clause_wrapper;
  m_scopes : list scope;
  m_user_scope_literals : list literal;
  m_num_checkpoints : nat;
}.

Definition set_model_is_current (x : bool) (s : solver) : solver :=
  mk_solver x (m_inconsistent s) (m_conflict s) (m_not_l s) (m_cls s) (m_clauses s) (m_learned s) (m_watches
    s) (m_assignment s) (m_justification s) (m_decision s) (m_eliminated s) (m_external s) (m_level s)
    (m_phase s) (m_qhead s) (m_scope_lvl s) (m_search_lvl s) (m_trail s) (m_clauses_to_reinit s) (m_scopes s)
    (m_user_scope_literals s) (m_num_checkpoints s).
Definition set_inconsistent (x : bool) (s : solver) : solver :=
  mk_solver (m_model_is_current s) x (m_conflict s) (m_not_l s) (m_cls s) (m_clauses s) (m_learned s)
    (m_watches s) (m_assignment s) (m_justification s) (m_decision s) (m_eliminated s) (m_external s) (m_level
    s) (m_phase s) (m_qhead s) (m_scope_lvl s) (m_search_lvl s) (m_trail s) (m_clauses_to_reinit s) (m_scopes
    s) (m_user_scope_literals s) (m_num_checkpoints s).
Definition set_conflict_reason (x : justification) (s : solver) : solver :=
  mk_solver (m_model_is_current s) (m_inconsistent s) x (m_not_l s) (m_cls s) (m_clauses s) (m_learned s)
    (m_watches s) (m_assignment s) (m_justification s) (m_decision s) (m_eliminated s) (m_external s) (m_level
    s) (m_phase s) (m_qhead s) (m_scope_lvl s) (m_search_lvl s) (m_trail s) (m_clauses_to_reinit s) (m_scopes
    s) (m_user_scope_literals s) (m_num_checkpoints s).
Definition set_not_l (x : option literal) (s : solver) : solver :=
  mk_solver (m_model_is_current s) (m_inconsistent s) (m_conflict s) x (m_cls s) (m_clauses s) (m_learned s)
    (m_watches s) (m_assignment s) (m_justification s) (m_decision s) (m_eliminated s) (m_external s) (m_level
    s) (m_phase s) (m_qhead s) (m_scope_lvl s) (m_search_lvl s) (m_trail s) (m_clauses_to_reinit s) (m_scopes
    s) (m_user_scope_literals s) (m_num_checkpoints s).
Definition set_cls (x : list clause) (s : solver) : solver :=
  mk_solver (m_model_is_current s) (m_inconsistent s) (m_conflict s) (m_not_l s) x (m_clauses s) (m_learned s)
    (m_watches s) (m_assignment s) (m_justification s) (m_decision s) (m_eliminated s) (m_external s) (m_level
    s) (m_phase s) (m_qhead s) (m_scope_lvl s) (m_search_lvl s) (m_trail s) (m_clauses_to_reinit s) (m_scopes
    s) (m_user_scope_literals s) (m_num_checkpoints s).
Definition set_clauses (x : list nat) (s : solver) : solver :=
  mk_solver (m_model_is_current s) (m_inconsistent s) (m_conflict s) (m_not_l s) (m_cls s) x (m_learned s)
    (m_watches s) (m_assignment s) (m_justification s) (m_decision s) (m_eliminated s) (m_external s) (m_level
    s) (m_phase s) (m_qhead s) (m_scope_lvl s) (m_search_lvl s) (m_trail s) (m_clauses_to_reinit s) (m_scopes
    s) (m_user_scope_literals s) (m_num_checkpoints s).
Definition set_learned (x : list nat) (s : solver) : solver :=
  mk_solver (m_model_is_current s) (m_inconsistent s) (m_conflict s) (m_not_l s) (m_cls s) (m_clauses s) x
    (m_watches s) (m_assignment s) (m_justification s) (m_decision s) (m_eliminated s) (m_external s) (m_level
    s) (m_phase s) (m_qhead s) (m_scope_lvl s) (m_search_lvl s) (m_trail s) (m_clauses_to_reinit s) (m_scopes
    s) (m_user_scope_literals s) (m_num_checkpoints s).
Definition set_watches (x : list (list watched)) (s : solver) : solver :=
  mk_solver (m_model_is_current s) (m_inconsistent s) (m_conflict s) (m_not_l s) (m_cls s) (m_clauses s)
    (m_learned s) x (m_assignment s) (m_justification s) (m_decision s) (m_eliminated s) (m_external s)
    (m_level s) (m_phase s) (m_qhead s) (m_scope_lvl s) (m_search_lvl s) (m_trail s) (m_clauses_to_reinit s)
    (m_scopes s) (m_user_scope_literals s) (m_num_checkpoints s).
Definition set_assignment (x : list lbool) (s : solver) : solver :=
  mk_solver (m_model_is_current s) (m_inconsistent s) (m_conflict s) (m_not_l s) (m_cls s) (m_clauses s)
    (m_learned s) (m_watches s) x (m_justification s) (m_decision s) (m_eliminated s) (m_external s) (m_level
    s) (m_phase s) (m_qhead s) (m_scope_lvl s) (m_search_lvl s) (m_trail s) (m_clauses_to_reinit s) (m_scopes
    s) (m_user_scope_literals s) (m_num_checkpoints s).
Definition set_justification (x : list justification) (s : solver) : solver :=
  mk_solver (m_model_is_current s) (m_inconsistent s) (m_conflict s) (m_not_l s) (m_cls s) (m_clauses s)
    (m_learned s) (m_watches s) (m_assignment s) x (m_decision s) (m_eliminated s) (m_external s) (m_level s)
    (m_phase s) (m_qhead s) (m_scope_lvl s) (m_search_lvl s) (m_trail s) (m_clauses_to_reinit s) (m_scopes s)
    (m_user_scope_literals s) (m_num_checkpoints s).
Definition set_m_eliminated (x : list bool) (s : solver) : solver :=
  mk_solver (m_model_is_current s) (m_inconsistent s) (m_conflict s) (m_not_l s) (m_cls s) (m_clauses s)
    (m_learned s) (m_watches s) (m_assignment s) (m_justification s) (m_decision s) x (m_external s) (m_level
    s) (m_phase s) (m_qhead s) (m_scope_lvl s) (m_search_lvl s) (m_trail s) (m_clauses_to_reinit s) (m_scopes
    s) (m_user_scope_literals s) (m_num_checkpoints s).
Definition set_level (x : list Z) (s : solver) : solver :=
  mk_solver (m_model_is_current s) (m_inconsistent s) (m_conflict s) (m_not_l s) (m_cls s) (m_clauses s)
    (m_learned s) (m_watches s) (m_assignment s) (m_justification s) (m_decision s) (m_eliminated s)
    (m_external s) x (m_phase s) (m_qhead s) (m_scope_lvl s) (m_search_lvl s) (m_trail s) (m_clauses_to_reinit
    s) (m_scopes s) (m_user_scope_literals s) (m_num_checkpoints s).
Definition set_phase (x : list phase) (s : solver) : solver :=
  mk_solver (m_model_is_current s) (m_inconsistent s) (m_conflict s) (m_not_l s) (m_cls s) (m_clauses s)
    (m_learned s) (m_watches s) (m_assignment s) (m_justification s) (m_decision s) (m_eliminated s)
    (m_external s) (m_level s) x (m_qhead s) (m_scope_lvl s) (m_search_lvl s) (m_trail s) (m_clauses_to_reinit
    s) (m_scopes s) (m_user_scope_literals s) (m_num_checkpoints s).
Definition set_qhead (x : nat) (s : solver) : solver :=
  mk_solver (m_model_is_current s) (m_inconsistent s) (m_conflict s) (m_not_l s) (m_cls s) (m_clauses s)
    (m_learned s) (m_watches s) (m_assignment s) (m_justification s) (m_decision s) (m_eliminated s)
    (m_external s) (m_level s) (m_phase s) x (m_scope_lvl s) (m_search_lvl s) (m_trail s) (m_clauses_to_reinit
    s) (m_scopes s) (m_user_scope_literals s) (m_num_checkpoints s).
Definition set_scope_lvl (x : nat) (s : solver) : solver :=
  mk_solver (m_model_is_current s) (m_inconsistent s) (m_conflict s) (m_not_l s) (m_cls s) (m_clauses s)
    (m_learned s) (m_watches s) (m_assignment s) (m_justification s) (m_decision s) (m_eliminated s)
    (m_external s) (m_level s) (m_phase s) (m_qhead s) x (m_search_lvl s) (m_trail s) (m_clauses_to_reinit s)
    (m_scopes s) (m_user_scope_literals s) (m_num_checkpoints s).
Definition set_trail (x : list literal) (s : solver) : solver :=
  mk_solver (m_model_is_current s) (m_inconsistent s) (m_conflict s) (m_not_l s) (m_cls s) (m_clauses s)
    (m_learned s) (m_watches s) (m_assignment s) (m_justification s) (m_decision s) (m_eliminated s)
    (m_external s) (m_level s) (m_phase s) (m_qhead s) (m_scope_lvl s) (m_search_lvl s) x (m_clauses_to_reinit
    s) (m_scopes s) (m_user_scope_literals s) (m_num_checkpoints s).
Definition set_clauses_to_reinit (x : list clause_wrapper) (s : solver) : solver :=
  mk_solver (m_model_is_current s) (m_inconsistent s) (m_conflict s) (m_not_l s) (m_cls s) (m_clauses s)
    (m_learned s) (m_watches s) (m_assignment s) (m_justification s) (m_decision s) (m_eliminated s)
    (m_external s) (m_level s) (m_phase s) (m_qhead s) (m_scope_lvl s) (m_search_lvl s) (m_trail s) x
    (m_scopes s) (m_user_scope_literals s) (m_num_checkpoints s).
Definition set_scopes (x : list scope) (s : solver) : solver :=
  mk_solver (m_model_is_current s) (m_inconsistent s) (m_conflict s) (m_not_l s) (m_cls s) (m_clauses s)
    (m_learned s) (m_watches s) (m_assignment s) (m_justification s) (m_decision s) (m_eliminated s)
    (m_external s) (m_level s) (m_phase s) (m_qhead s) (m_scope_lvl s) (m_search_lvl s) (m_trail s)
    (m_clauses_to_reinit s) x (m_user_scope_literals s) (m_num_checkpoints s).
Definition set_num_checkpoints (x : nat) (s : solver) : solver :=
  mk_solver (m_model_is_current s) (m_inconsistent s) (m_conflict s) (m_not_l s) (m_cls s) (m_clauses s)
    (m_learned s) (m_watches s) (m_assignment s) (m_justification s) (m_decision s) (m_eliminated s)
    (m_external s) (m_level s) (m_phase s) (m_qhead s) (m_scope_lvl s) (m_search_lvl s) (m_trail s)
    (m_clauses_to_reinit s) (m_scopes s) (m_user_scope_literals s) x.

Module solver.

(** ** Access *)

Definition num_vars (s : solver) : nat := length (m_level s).
Definition at_base_lvl (s : solver) : bool := m_scope_lvl s =? 0.
Definition at_search_lvl (s : solver) : bool := m_scope_lvl s =? m_search_lvl s.
Definition value (l : literal) (s : solver) : lbool := m_assignment s !!! index l.
Definition lvl (l : literal) (s : solver) : Z := m_level s !!! var l.
Definition get_wlist (l : literal) (s : solver) : list watched := m_watches s !!! index l.
Definition set_wlist (l : literal) (wl : list watched) (s : solver) : solver :=
  set_watches (<[index l := wl]> (m_watches s)) s.
Definition push_watch (l : literal) (w : watched) (s : solver) : solver := set_wlist l (get_wlist l s ++ [w]) s.
Definition get_clause (off : nat) (s : solver) : clause := m_cls s !!! off.
Definition upd_clause (off : nat) (f : clause -> clause) (s : solver) : solver := set_cls (alter f off (m_cls s)) s.

Definition set_lits (lits : list literal) (c : clause) : clause :=
  mk_clause_obj lits (m_removed c) (is_learned c) (m_used c) (m_reinit_stack c).
Definition mark_used (c : clause) : clause :=
  mk_clause_obj (m_lits c) (m_removed c) (is_learned c) true (m_reinit_stack c).
Definition set_reinit_stack (b : bool) (c : clause) : clause :=
  mk_clause_obj (m_lits c) (m_removed c) (is_learned c) (m_used c) b.

(** [std::swap(c[i], c[j])] *)
Definition swap (i j : nat) (lits : list literal) : list literal := <[j := lits !!! i]> (<[i := lits !!! j]> lits).

Definition UINT_MAX : Z := (2 ^ 32 - 1)%Z.

(** The state the constructor leaves. *)
Definition new_solver : solver :=
  mk_solver false false J_NONE None [] [] [] [] [] [] [] [] [] [] [] 0 0 0 [] [] [] [] 0.

(** ** Variables *)

Definition mk_var (ext dvar : bool) (s : solver) : bool_var * solver :=
  let v := num_vars s in
  (v, mk_solver false (m_inconsistent s) (m_conflict s) (m_not_l s) (m_cls s) (m_clauses s) (m_learned s)
        (m_watches s ++ [[]; []]) (m_assignment s ++ [l_undef; l_undef]) (m_justification s ++ [J_NONE])
        (m_decision s ++ [dvar]) (m_eliminated s ++ [false]) (m_external s ++ [ext]) (m_level s ++ [UINT_MAX])
        (m_phase s ++ [PHASE_NOT_AVAILABLE]) (m_qhead s) (m_scope_lvl s) (m_search_lvl s) (m_trail s)
        (m_clauses_to_reinit s) (m_scopes s) (m_user_scope_literals s) (m_num_checkpoints s)).

(** ** Assignments and conflicts *)

Definition set_conflict (c : justification) (not_l : option literal) (s : solver) : solver :=
  if m_inconsistent s then s
  else set_not_l not_l (set_conflict_reason c (set_inconsistent true s)).

(** The level [_lvl] is for the proof log only. *)
Definition assign_core (l : literal) (j : justification) (s : solver) : solver :=
  let j := if at_base_lvl s then J_NONE else j in
  let v := var l in
  let s := set_assignment (<[index (neg l) := l_false]> (<[index l := l_true]> (m_assignment s))) s in
  let s := set_level (<[v := Z.of_nat (m_scope_lvl s)]> (m_level s)) s in
  let s := set_justification (<[v := j]> (m_justification s)) s in
  let s := set_phase (<[v := if sign l then NEG_PHASE else POS_PHASE]> (m_phase s)) s in
  set_trail (m_trail s ++ [l]) s.

Definition assign (l : literal) (j : justification) (s : solver) : solver :=
  match value l s with
  | l_false => set_conflict j (Some (neg l)) s
  | l_undef => assign_core l j s
  | l_true => s
  end.

Definition assign_unit (l : literal) (s : solver) : solver := assign l J_NONE s.

(** ** Simplifying a new clause *)

(** The literals that stay; [None] for a clause that is true.  [prev] is the last
    literal kept. *)
Fixpoint simplify_loop (lvl0 : bool) (s : solver) (prev : option literal) (lits : list literal) : option (list literal) :=
  match lits with
  | [] => Some []
  | curr :: lits =>
      let val := if negb lvl0 && (0 <? lvl curr s)%Z then l_undef else value curr s in
      match val with
      | l_false => simplify_loop lvl0 s prev lits
      | l_undef =>
          if decide (Some curr = (neg <$> prev)) then None
          else if decide (Some curr = prev) then simplify_loop lvl0 s prev lits
          else cons curr <$> simplify_loop lvl0 s (Some curr) lits
      | l_true => None
      end
  end.

Definition lit_le (l l' : literal) : Prop := index l <= index l'.

Global Instance lit_le_dec : RelDecision lit_le := fun l l' => le_dec (index l) (index l').

Definition simplify_clause_core (lvl0 : bool) (s : solver) (lits : list literal) : option (list literal) :=
  simplify_loop lvl0 s None (merge_sort lit_le lits).

Definition simplify_clause (s : solver) (lits : list literal) : option (list literal) :=
  if at_base_lvl s then simplify_clause_core true s lits else simplify_clause_core false s lits.

(** ** Two literals *)

Definition find_binary_watch (wl : list watched) (l : literal) : option bool :=
  head (omap (fun w => match w with BINARY l' learned => if decide (l' = l) then Some learned else None | _ => None end) wl).

(** [w0->set_learned(learned)] on the watch [find_binary_watch] finds. *)
Fixpoint set_binary_learned (wl : list watched) (l : literal) (learned : bool) : list watched :=
  match wl with
  | [] => []
  | BINARY l' b :: wl =>
      if decide (l' = l) then BINARY l' learned :: wl else BINARY l' b :: set_binary_learned wl l learned
  | w :: wl => w :: set_binary_learned wl l learned
  end.

Definition propagate_bin_clause (l1 l2 : literal) (s : solver) : bool * solver :=
  match value l2 s with
  | l_false => (true, assign l1 (J_BINARY l2) s)
  | _ => match value l1 s with
         | l_false => (true, assign l2 (J_BINARY l1) s)
         | _ => (false, s)
         end
  end.

Definition mk_bin_clause (l1 l2 : literal) (learned : bool) (s : solver) : M solver :=
  if bool_decide (is_Some (find_binary_watch (get_wlist (neg l1) s) (neg l2))) && bool_decide (value l1 s = l_undef) then
    mret (assign_core l1 (J_BINARY l2) s)
  else if bool_decide (is_Some (find_binary_watch (get_wlist (neg l2) s) (neg l1))) && bool_decide (value l2 s = l_undef) then
    mret (assign_core l2 (J_BINARY l1) s)
  else match find_binary_watch (get_wlist (neg l1) s) l2 with
  | Some w0_learned =>
      if w0_learned && negb learned then
        let s := set_wlist (neg l1) (set_binary_learned (get_wlist (neg l1) s) l2 false) s in
        match find_binary_watch (get_wlist (neg l2) s) l1 with
        | None => throw ExVerify
        | Some _ => mret (set_wlist (neg l2) (set_binary_learned (get_wlist (neg l2) s) l1 false) s)
        end
      else mret s
  | None =>
      let '(propagated, s) := propagate_bin_clause l1 l2 s in
      if propagated && at_base_lvl s then mret s
      else
        let s := if propagated && negb learned && negb (at_search_lvl s)
                 then set_clauses_to_reinit (m_clauses_to_reinit s ++ [W_BINARY l1 l2]) s else s in
        let s := push_watch (neg l1) (BINARY l2 learned) s in
        mret (push_watch (neg l2) (BINARY l1 learned) s)
  end.

(** ** Three literals *)

Definition attach_ter_clause (off : nat) (s : solver) : bool * solver :=
  let c := m_lits (get_clause off s) in
  let c0 := c !!! 0 in let c1 := c !!! 1 in let c2 := c !!! 2 in
  let s := push_watch (neg c0) (mk_ternary c1 c2) s in
  let s := push_watch (neg c1) (mk_ternary c0 c2) s in
  let s := push_watch (neg c2) (mk_ternary c0 c1) s in
  let is_false l := bool_decide (value l s = l_false) in
  if at_base_lvl s then (false, s)
  else if is_false c1 && is_false c2 then (true, assign c0 (J_TERNARY c1 c2) s)
  else if is_false c0 && is_false c2 then (true, assign c1 (J_TERNARY c0 c2) s)
  else if is_false c0 && is_false c1 then (true, assign c2 (J_TERNARY c0 c1) s)
  else (false, s).

Definition alloc_clause (lits : list literal) (learned : bool) (s : solver) : nat * solver :=
  (length (m_cls s), set_cls (m_cls s ++ [mk_clause_obj lits false learned false false]) s).

Definition push_reinit_stack (off : nat) (s : solver) : solver :=
  upd_clause off (set_reinit_stack true) (set_clauses_to_reinit (m_clauses_to_reinit s ++ [W_CLAUSE off]) s).

(** [m_learned.push_back(r)] or [m_clauses.push_back(r)] *)
Definition register_clause (off : nat) (learned : bool) (s : solver) : solver :=
  if learned then set_learned (m_learned s ++ [off]) s else set_clauses (m_clauses s ++ [off]) s.

Definition mk_ter_clause (lits : list literal) (learned : bool) (s : solver) : solver :=
  let '(r, s) := alloc_clause lits learned s in
  let '(reinit, s) := attach_ter_clause r s in
  let s := if reinit && negb learned then push_reinit_stack r s else s in
  register_clause r learned s.

(** ** More literals *)

(** The literal to watch, from position [starting_at] on: a true one of least
    level, an open one, a false one of greatest level. *)
Definition select_watch_lit (c : list literal) (starting_at : nat) (s : solver) : nat :=
  let '(min_true_idx, max_false_idx, unknown_idx) :=
    pure_for starting_at (length c) (fun i '(min_true_idx, max_false_idx, unknown_idx) =>
      let l := c !!! i in
      match value l s with
      | l_false =>
          (min_true_idx,
           match max_false_idx with
           | None => Some i
           | Some j => if (lvl (c !!! j) s <? lvl l s)%Z then Some i else Some j
           end, unknown_idx)
      | l_undef => (min_true_idx, max_false_idx, Some i)
      | l_true =>
          (match min_true_idx with
           | None => Some i
           | Some j => if (lvl l s <? lvl (c !!! j) s)%Z then Some i else Some j
           end, max_false_idx, unknown_idx)
      end) (None, None, None) in
  match min_true_idx, unknown_idx with
  | Some i, _ => i
  | None, Some i => i
  | None, None => default 0 max_false_idx
  end.

(** The second literal to watch of a learned clause, whose literals from the
    second on are false. *)
Definition select_learned_watch_lit (c : list literal) (s : solver) : nat :=
  default 0 (pure_for 1 (length c) (fun i max_false_idx =>
    match max_false_idx with
    | None => Some i
    | Some j => if (lvl (c !!! j) s <? lvl (c !!! i) s)%Z then Some i else Some j
    end) None).

Definition attach_nary_clause (off : nat) (s : solver) : bool * solver :=
  let lits s := m_lits (get_clause off s) in
  let permute s i j := upd_clause off (fun c => set_lits (swap i j (m_lits c)) c) s in
  let '(reinit, s) :=
    if at_base_lvl s then (false, s)
    else
      let s :=
        if is_learned (get_clause off s) then permute s 1 (select_learned_watch_lit (lits s) s)
        else
          let s := permute s 0 (select_watch_lit (lits s) 0 s) in
          permute s 1 (select_watch_lit (lits s) 1 s) in
      match value (lits s !!! 0) s with
      | l_false => (true, assign (lits s !!! 1) (J_CLAUSE off) s)
      | _ => match value (lits s !!! 1) s with
             | l_false => (true, assign (lits s !!! 0) (J_CLAUSE off) s)
             | _ => (false, s)
             end
      end in
  let c := lits s in
  let block_lit := c !!! Nat.shiftr (length c) 1 in
  let s := push_watch (neg (c !!! 0)) (CLAUSE block_lit off) s in
  (reinit, push_watch (neg (c !!! 1)) (CLAUSE block_lit off) s).

Definition mk_nary_clause (lits : list literal) (learned : bool) (s : solver) : solver :=
  let '(r, s) := alloc_clause lits learned s in
  let '(reinit, s) := attach_nary_clause r s in
  let s := if reinit && negb learned then push_reinit_stack r s else s in
  register_clause r learned s.

(** ** Adding a clause *)

Definition mk_clause_core (lits : list literal) (learned : bool) (s : solver) : M solver :=
  match (if learned then Some lits else simplify_clause s lits) with
  | None => mret s
  | Some lits =>
      match lits with
      | [] => mret (set_conflict J_NONE None s)
      | [l] => mret (assign_unit l s)
      | [l1; l2] => mk_bin_clause l1 l2 learned s
      | [_; _; _] => mret (mk_ter_clause lits learned s)
      | _ => mret (mk_nary_clause lits learned s)
      end
  end.

Definition mk_clause (lits : list literal) (learned : bool) (s : solver) : M solver :=
  let s := set_model_is_current false s in
  match m_user_scope_literals s with
  | [] => mk_clause_core lits learned s
  | user => mk_clause_core (lits ++ user) learned s
  end.

(** ** Propagation *)

Section Propagate.
Context `{Env}.

Definition checkpoint (s : solver) : M solver := fun st =>
  let next := mk_st (m_local_ctx_cost st) (S (m_ticks st)) in
  if canceled (m_ticks st) then Throw ExCanceled
  else if S (m_num_checkpoints s) <? 10 then Ok (set_num_checkpoints (S (m_num_checkpoints s)) s) next
  else if (max_memory <? alloc_size (m_ticks st))%Z then Throw ExMaxMemory
  else Ok (set_num_checkpoints 0 s) next.

(** What becomes of a watch: it stays, perhaps with another blocked literal, or
    its clause watches another literal, or there is a conflict. *)
Inductive outcome :=
| Keep (w : watched)
| Moved
| Conflict.

(** The first position from [i] on of a literal that is not false. *)
Fixpoint find_non_false (i : nat) (lits : list literal) (s : solver) : option nat :=
  match lits with
  | [] => None
  | l :: lits => if decide (value l s = l_false) then find_non_false (S i) lits s else Some i
  end.

Definition propagate_nary (not_l : literal) (w : watched) (cls_off : nat) (s : solver) : outcome * solver :=
  let s := if decide (m_lits (get_clause cls_off s) !!! 0 = not_l)
           then upd_clause cls_off (fun c => set_lits (swap 0 1 (m_lits c)) c) s else s in
  let c := get_clause cls_off s in
  let lits := m_lits c in
  if m_removed c || (length lits =? 1) || bool_decide (lits !!! 1 <> not_l) then (Keep w, s)
  else if decide (value (lits !!! 0) s = l_true) then (Keep (CLAUSE (lits !!! 0) cls_off), s)
  else match find_non_false 2 (drop 2 lits) s with
  | Some i =>
      let l := lits !!! i in
      let s := upd_clause cls_off (set_lits (<[i := not_l]> (<[1 := l]> lits))) s in
      (Moved, push_watch (neg l) (CLAUSE (lits !!! 0) cls_off) s)
  | None =>
      let s := upd_clause cls_off mark_used s in
      if decide (value (lits !!! 0) s = l_false) then (Conflict, set_conflict (J_CLAUSE cls_off) None s)
      else (Keep w, assign_core (lits !!! 0) (J_CLAUSE cls_off) s)
  end.

(** One watch of the literal that became true; [not_l] is its negation. *)
Definition propagate_watch (not_l : literal) (w : watched) (s : solver) : outcome * solver :=
  match w with
  | BINARY l1 _ =>
      match value l1 s with
      | l_false => (Conflict, set_conflict (J_BINARY not_l) (Some (neg l1)) s)
      | l_undef => (Keep w, assign_core l1 (J_BINARY not_l) s)
      | l_true => (Keep w, s)
      end
  | TERNARY l1 l2 =>
      match value l1 s, value l2 s with
      | l_false, l_undef => (Keep w, assign_core l2 (J_TERNARY l1 not_l) s)
      | l_undef, l_false => (Keep w, assign_core l1 (J_TERNARY l2 not_l) s)
      | l_false, l_false => (Conflict, set_conflict (J_TERNARY l1 not_l) (Some (neg l2)) s)
      | _, _ => (Keep w, s)
      end
  | CLAUSE blocked_lit cls_off =>
      if decide (value blocked_lit s = l_true) then (Keep w, s)
      else propagate_nary not_l w cls_off s
  end.

(** The watches of a literal in turn: the list as it is afterwards, and whether
    there was no conflict.  New watches go to other lists, since the literals
    they watch are not false. *)
Fixpoint propagate_wlist (not_l : literal) (wl : list watched) (s : solver) : bool * list watched * solver :=
  match wl with
  | [] => (true, [], s)
  | w :: wl =>
      match propagate_watch not_l w s with
      | (Keep w, s) => let '(ok, kept, s) := propagate_wlist not_l wl s in (ok, w :: kept, s)
      | (Moved, s) => propagate_wlist not_l wl s
      | (Conflict, s) => (false, w :: wl, s)
      end
  end.

Definition propagate_literal (l : literal) (s : solver) : bool * solver :=
  let '(ok, wl, s) := propagate_wlist (neg l) (get_wlist l s) s in
  (ok, set_wlist l wl s).

Fixpoint propagate_loop (fuel : nat) (s : solver) : M (bool * solver) :=
  match fuel with
  | O => throw ExDiverge
  | S fuel =>
      if m_qhead s <? length (m_trail s) then
        s ← checkpoint s;
        if m_inconsistent s then mret (false, s)
        else
          let l := m_trail s !!! m_qhead s in
          let s := set_qhead (S (m_qhead s)) s in
          let '(ok, s) := propagate_literal l s in
          if ok then propagate_loop fuel s else mret (false, s)
      else mret (true, s)
  end.

(** Every variable is propagated once at most. *)
Definition propagate_core (s : solver) : M (bool * solver) :=
  if m_inconsistent s then mret (false, s) else propagate_loop (S (num_vars s)) s.

Definition propagate (s : solver) : M (bool * solver) := propagate_core s.
End Propagate.

(** ** Scopes *)

Definition push (s : solver) : solver :=
  let s := set_scopes (m_scopes s ++ [mk_scope (length (m_trail s)) (length (m_clauses_to_reinit s)) (m_inconsistent s)]) s in
  set_scope_lvl (S (m_scope_lvl s)) s.

(** From the last literal of the trail back to position [old_sz]. *)
Definition unassign_vars (old_sz : nat) (s : solver) : solver :=
  let s := foldr (fun l s =>
    set_assignment (<[index (neg l) := l_undef]> (<[index l := l_undef]> (m_assignment s))) s) s (drop old_sz (m_trail s)) in
  set_qhead old_sz (set_trail (take old_sz (m_trail s)) s).
End solver.

(** [add_var] and [add_clause] of [sat_solver.h]. *)
Global Instance solver_SolverCore : SolverCore solver := {
  add_var ext s := solver.mk_var ext true s;
  add_clause := solver.mk_clause;
  set_eliminated v f s := set_m_eliminated (<[v := f]> (m_eliminated s)) s;
}.
