(* ===== verification/SatConflict.v ===== *)
(** * SatConflict: learning from a conflict, and going back

    The part of [sat/sat_solver.cpp] that turns a conflict into a lemma
    ([resolve_conflict_core], [minimize_lemma], [dyn_sub_res]), leaves levels
    ([pop], [reinit_clauses]) and learns the lemma
    ([learn_lemma_and_backjump]), and the decisions.

    The marks of variables and literals are clear between two conflicts, so they
    are local to the analysis here.  The first literal of [m_lemma] is known only
    at the end; before that, lemmas are what follows it.  Nothing probes, so the
    cache of implied literals is empty.  There are no assumptions but the literals
    of the user's scopes. *)
From Stdlib Require Import ZArith Lia.
From stdpp Require Import base list.
From S2P Require Import Prelude SatTypes SatSolver.
Import solver.

Definition tracking_assumptions (s : solver) : bool :=
  match m_user_scope_literals s with [] => false | _ => true end.

(** ** The literals that made another one true

    The true literals that force [consequent], or the conflict where there is
    none; [is_consequent] recognizes it in its clause. *)
Definition antecedents (is_consequent : option (literal -> bool)) (js : justification) (s : solver) : list literal :=
  match js with
  | J_NONE => []
  | J_BINARY l => [neg l]
  | J_TERNARY l1 l2 => [neg l1; neg l2]
  | J_CLAUSE off =>
      let c := m_lits (get_clause off s) in
      match is_consequent with
      | None => neg <$> c
      | Some is_consequent =>
          if is_consequent (c !!! 0) then neg <$> drop 1 c else neg (c !!! 0) :: (neg <$> drop 2 c)
      end
  end.

Definition is_literal (x : literal) (l : literal) : bool := bool_decide (l = x).
Definition has_var (v : bool_var) (l : literal) : bool := var l =? v.

(** ** The analysis *)

Record analysis := mk_analysis {
  m_mark : list bool;
  m_lemma : list literal;
  num_marks : Z;
}.

Definition is_marked (v : bool_var) (marks : list bool) : bool := default false (marks !! v).

Definition process_antecedent (conflict_lvl : Z) (s : solver) (antecedent : literal) (a : analysis) : analysis :=
  let v := var antecedent in
  let var_lvl := lvl antecedent s in
  if negb (is_marked v (m_mark a)) && (0 <? var_lvl)%Z then
    let marks := <[v := true]> (m_mark a) in
    if (var_lvl =? conflict_lvl)%Z then mk_analysis marks (m_lemma a) (num_marks a + 1)
    else mk_analysis marks (m_lemma a ++ [neg antecedent]) (num_marks a)
  else a.

Definition process_antecedents (conflict_lvl : Z) (s : solver) (ls : list literal) (a : analysis) : analysis :=
  foldl (fun a l => process_antecedent conflict_lvl s l a) a ls.

(** Without an extension every conflict is one of the current level. *)
Definition get_max_lvl (s : solver) : Z := Z.of_nat (m_scope_lvl s).

(** The positions of the trail that are left: one more than the index the code
    keeps. *)
Fixpoint skip_above (n : nat) (conflict_lvl : Z) (s : solver) : nat :=
  match n with
  | O => O
  | S i => if (conflict_lvl <? lvl (m_trail s !!! i) s)%Z then skip_above i conflict_lvl s else n
  end.

Definition skip_literals_above_conflict_level (conflict_lvl : Z) (s : solver) : nat :=
  skip_above (length (m_trail s)) conflict_lvl s.

(** The last of the first [n] literals of the trail that is marked. *)
Fixpoint last_marked (n : nat) (marks : list bool) (s : solver) : option nat :=
  match n with
  | O => None
  | S i => if is_marked (var (m_trail s !!! i)) marks then Some i else last_marked i marks s
  end.

Definition forget_phase_of_vars (from_lvl : nat) (s : solver) : solver :=
  let head := match from_lvl with O => 0 | S i => m_trail_lim (m_scopes s !!! i) end in
  set_phase (foldl (fun ph l => <[var l := PHASE_NOT_AVAILABLE]> ph) (m_phase s) (drop head (m_trail s))) s.

(** The loop stops at the first literal of the conflict level that is alone. *)
Fixpoint resolve_loop (fuel : nat) (conflict_lvl : Z) (s : solver) (n : nat) (consequent : option literal)
    (js : justification) (a : analysis) : M (literal * analysis) :=
  match fuel with
  | O => throw ExDiverge
  | S fuel =>
      let a := process_antecedents conflict_lvl s (antecedents (is_literal <$> consequent) js s) a in
      match last_marked n (m_mark a) s with
      | None => throw ExStuck
      | Some idx =>
          let consequent := m_trail s !!! idx in
          let js := m_justification s !!! var consequent in
          let a := mk_analysis (<[var consequent := false]> (m_mark a)) (m_lemma a) (num_marks a - 1) in
          if (num_marks a =? 0)%Z then mret (consequent, a)
          else resolve_loop fuel conflict_lvl s idx (Some consequent) js a
      end
  end.

(** The lemma and the marks of a conflict above the base level. *)
Definition analyze (s : solver) : M (list literal * list bool) :=
  let conflict_lvl := get_max_lvl s in
  let n := skip_literals_above_conflict_level conflict_lvl s in
  let a := mk_analysis (replicate (num_vars s) false) [] 0 in
  let a := match m_not_l s with None => a | Some l => process_antecedent conflict_lvl s l a end in
  '(consequent, a) ← resolve_loop (S (length (m_trail s))) conflict_lvl s n (neg <$> m_not_l s) (m_conflict s) a;
  mret (neg consequent :: m_lemma a, m_mark a).

(** ** Minimizing a lemma *)

(** [level_approx_set], the set of [util/approx_set.h] in a word of 32 bits, one for
    each residue. *)
Definition e2s (e : Z) : Z := Z.shiftl 1 (Z.land e 31).
Definition approx_insert (e : Z) (set : Z) : Z := Z.lor set (e2s e).
Definition may_contain (e : Z) (set : Z) : bool := negb (Z.land set (e2s e) =? 0)%Z.

Record minimizer := mk_minimizer {
  mm_mark : list bool;
  m_unmark : list bool_var;
  m_lemma_min_stack : list literal;  (* the top comes first *)
}.

Definition process_antecedent_for_minimization (lvl_set : Z) (s : solver) (antecedent : literal) (m : minimizer) : bool * minimizer :=
  let v := var antecedent in
  let var_lvl := lvl antecedent s in
  if negb (is_marked v (mm_mark m)) && (0 <? var_lvl)%Z then
    if may_contain var_lvl lvl_set
    then (true, mk_minimizer (<[v := true]> (mm_mark m)) (m_unmark m ++ [v]) (antecedent :: m_lemma_min_stack m))
    else (false, m)
  else (true, m).

Fixpoint process_all_for_minimization (lvl_set : Z) (s : solver) (ls : list literal) (m : minimizer) : bool * minimizer :=
  match ls with
  | [] => (true, m)
  | l :: ls =>
      let '(ok, m) := process_antecedent_for_minimization lvl_set s l m in
      if ok then process_all_for_minimization lvl_set s ls m else (false, m)
  end.

Definition reset_unmark (old_size : nat) (m : minimizer) : minimizer :=
  mk_minimizer (foldl (fun marks v => <[v := false]> marks) (mm_mark m) (drop old_size (m_unmark m)))
    (take old_size (m_unmark m)) (m_lemma_min_stack m).

Fixpoint implied_loop (fuel : nat) (lvl_set : Z) (s : solver) (old_size : nat) (m : minimizer) : M (bool * minimizer) :=
  match fuel with
  | O => throw ExDiverge
  | S fuel =>
      match m_lemma_min_stack m with
      | [] => mret (true, m)
      | lit :: stack =>
          let m := mk_minimizer (mm_mark m) (m_unmark m) stack in
          let js := m_justification s !!! var lit in
          match js with
          | J_NONE => if (0 <? lvl lit s)%Z then mret (false, reset_unmark old_size m) else implied_loop fuel lvl_set s old_size m
          | _ =>
              let '(ok, m) := process_all_for_minimization lvl_set s (antecedents (Some (has_var (var lit))) js s) m in
              if ok then implied_loop fuel lvl_set s old_size m else mret (false, reset_unmark old_size m)
          end
      end
  end.

(** A variable enters the stack once at most. *)
Definition implied_by_marked (lvl_set : Z) (s : solver) (lit : literal) (m : minimizer) : M (bool * minimizer) :=
  implied_loop (S (S (num_vars s))) lvl_set s (length (m_unmark m)) (mk_minimizer (mm_mark m) (m_unmark m) [lit]).

Definition updt_lemma_lvl_set (s : solver) (lemma : list literal) : Z :=
  foldl (fun set l => approx_insert (lvl l s) set) 0%Z lemma.

(** The literals after the first; those that stay. *)
Fixpoint minimize_loop (lvl_set : Z) (s : solver) (lits : list literal) (m : minimizer) : M (list literal * minimizer) :=
  match lits with
  | [] => mret ([], m)
  | l :: lits =>
      '(r, m) ← implied_by_marked lvl_set s l m;
      if (r : bool) then minimize_loop lvl_set s lits (mk_minimizer (mm_mark m) (m_unmark m ++ [var l]) (m_lemma_min_stack m))
      else '(kept, m) ← minimize_loop lvl_set s lits m; mret (l :: kept, m)
  end.

Definition minimize_lemma (s : solver) (lemma : list literal) (marks : list bool) : M (list literal * list bool) :=
  let lvl_set := updt_lemma_lvl_set s lemma in
  '(kept, m) ← minimize_loop lvl_set s (drop 1 lemma) (mk_minimizer marks [] []);
  mret (take 1 lemma ++ kept, mm_mark (reset_unmark 0 m)).

Definition reset_lemma_var_marks (lemma : list literal) (marks : list bool) : list bool :=
  foldl (fun marks l => <[var l := false]> marks) marks (drop 1 lemma).

(** ** Subsumption by clauses of two and three literals *)

Definition is_marked_lit (l : literal) (marks : list bool) : bool := default false (marks !! index l).
Definition unmark_lit (l : literal) (marks : list bool) : list bool := <[index l := false]> marks.

Fixpoint dyn_sub_watches (l0 : literal) (wl : list watched) (marks : list bool) : list bool :=
  match wl with
  | BINARY l2 _ :: wl =>
      dyn_sub_watches l0 wl
        (if is_marked_lit (neg l2) marks && bool_decide (l0 <> neg l2) then unmark_lit (neg l2) marks else marks)
  | TERNARY l2 l3 :: wl =>
      dyn_sub_watches l0 wl
        (if is_marked_lit l2 marks && is_marked_lit (neg l3) marks && bool_decide (l0 <> neg l3) then unmark_lit (neg l3) marks
         else if is_marked_lit (neg l2) marks && is_marked_lit l3 marks && bool_decide (l0 <> neg l2) then unmark_lit (neg l2) marks
         else marks)
  | _ => marks
  end.

Definition dyn_sub_res (s : solver) (lemma : list literal) : list literal :=
  let marks := foldl (fun marks l => <[index l := true]> marks) (replicate (2 * num_vars s) false) lemma in
  let l0 := lemma !!! 0 in
  let marks := foldl (fun marks l =>
    if is_marked_lit l marks then dyn_sub_watches l0 (get_wlist (neg l) s) marks else marks) marks lemma in
  filter (fun l => is_marked_lit l marks = true) lemma.

(** ** Leaving levels *)

(** The first watch with a property goes. *)
Fixpoint erase_first (f : watched -> bool) (wl : list watched) : list watched :=
  match wl with
  | [] => []
  | w :: wl => if f w then wl else w :: erase_first f wl
  end.

Definition erase_clause_watch (wl : list watched) (cls_off : nat) : list watched :=
  erase_first (fun w => match w with CLAUSE _ off => off =? cls_off | _ => false end) wl.

Definition erase_ternary_watch (wl : list watched) (l1 l2 : literal) : list watched :=
  erase_first (fun w => bool_decide (w = mk_ternary l1 l2)) wl.

Definition detach_nary_clause (off : nat) (s : solver) : solver :=
  let c := m_lits (get_clause off s) in
  let s := set_wlist (neg (c !!! 0)) (erase_clause_watch (get_wlist (neg (c !!! 0)) s) off) s in
  set_wlist (neg (c !!! 1)) (erase_clause_watch (get_wlist (neg (c !!! 1)) s) off) s.

Definition detach_ter_clause (off : nat) (s : solver) : solver :=
  let c := m_lits (get_clause off s) in
  let erase l l1 l2 s := set_wlist (neg l) (erase_ternary_watch (get_wlist (neg l) s) l1 l2) s in
  let s := erase (c !!! 0) (c !!! 1) (c !!! 2) s in
  let s := erase (c !!! 1) (c !!! 0) (c !!! 2) s in
  erase (c !!! 2) (c !!! 0) (c !!! 1) s.

Definition detach_clause (off : nat) (s : solver) : solver :=
  if length (m_lits (get_clause off s)) =? 3 then detach_ter_clause off s else detach_nary_clause off s.

Definition attach_clause (off : nat) (s : solver) : bool * solver :=
  if length (m_lits (get_clause off s)) =? 3 then attach_ter_clause off s else attach_nary_clause off s.

(** The clauses that were added above the base level are attached again; those
    that still propagate stay in the list. *)
Fixpoint reinit_loop (cws : list clause_wrapper) (s : solver) : list clause_wrapper * solver :=
  match cws with
  | [] => ([], s)
  | cw :: cws =>
      let '(keep, s) :=
        match cw with
        | W_BINARY l1 l2 => let '(propagated, s) := propagate_bin_clause l1 l2 s in (propagated && negb (at_base_lvl s), s)
        | W_CLAUSE off =>
            let '(reinit, s) := attach_clause off (detach_clause off s) in
            if negb (at_base_lvl s) && reinit then (true, s) else (false, upd_clause off (set_reinit_stack false) s)
        end in
      let '(kept, s) := reinit_loop cws s in
      (if keep then cw :: kept else kept, s)
  end.

Definition reinit_clauses (old_sz : nat) (s : solver) : solver :=
  let '(kept, s') := reinit_loop (drop old_sz (m_clauses_to_reinit s)) s in
  set_clauses_to_reinit (take old_sz (m_clauses_to_reinit s) ++ kept) s'.

Definition pop (num_scopes : nat) (s : solver) : solver :=
  if num_scopes =? 0 then s
  else
    let new_lvl := m_scope_lvl s - num_scopes in
    let sc := m_scopes s !!! new_lvl in
    let s := unassign_vars (m_trail_lim sc) (set_inconsistent false s) in
    let s := set_scopes (take new_lvl (m_scopes s)) (set_scope_lvl new_lvl s) in
    reinit_clauses (m_clauses_to_reinit_lim sc) s.

Section Search.
Context `{Env} (m_minimize_lemmas m_dyn_sub_res : bool).

Definition reinit_assumptions (s : solver) : M solver :=
  if tracking_assumptions s && at_base_lvl s && negb (m_inconsistent s) then
    '(ok, s) ← propagate s;
    if negb (ok : bool) then mret s
    else
      let s := foldl (fun s lit => if m_inconsistent s then s else assign_unit (neg lit) s) (push s) (m_user_scope_literals s) in
      '(_, s) ← propagate s;
      mret s
  else mret s.

(** One thread: no literals are exchanged with others. *)
Definition pop_reinit (num_scopes : nat) (s : solver) : M solver := reinit_assumptions (pop num_scopes s).

(** The lemma that is learned, the level to go back to, and the marks, which are
    clear again. *)
Definition learn_lemma (s : solver) (lemma : list literal) (marks : list bool) : M (list literal * Z * list bool) :=
  '(lemma, marks) ← (if m_minimize_lemmas then minimize_lemma s lemma marks else mret (lemma, marks));
  let marks := reset_lemma_var_marks lemma marks in
  let lemma := if m_minimize_lemmas && m_dyn_sub_res then dyn_sub_res s lemma else lemma in
  mret (lemma, foldl (fun new_scope_lvl l => Z.max new_scope_lvl (lvl l s)) 0%Z (drop 1 lemma), marks).

Definition learn_lemma_and_backjump (lemma : list literal) (marks : list bool) (s : solver) : M solver :=
  '(lemma, new_scope_lvl, _) ← learn_lemma s lemma marks;
  s ← pop_reinit (m_scope_lvl s - Z.to_nat new_scope_lvl) s;
  mk_clause_core lemma true s.

(** [false] when the conflict needs no decision. *)
Definition resolve_conflict_core (s : solver) : M (bool * solver) :=
  let conflict_lvl := get_max_lvl s in
  if (conflict_lvl <=? 1)%Z && tracking_assumptions s then mret (false, s)
  else if (conflict_lvl =? 0)%Z then mret (false, s)
  else
    let s := forget_phase_of_vars (m_scope_lvl s) s in
    '(lemma, marks) ← analyze s;
    s ← learn_lemma_and_backjump lemma marks s;
    mret (true, s).
(** After the lemma is learned the clauses that were attached again may be in
    conflict; each round leaves a level. *)
Fixpoint resolve_conflict_loop (fuel : nat) (s : solver) : M (bool * solver) :=
  match fuel with
  | O => throw ExDiverge
  | S fuel =>
      '(r, s) ← resolve_conflict_core s;
      if negb r then mret (false, s)
      else if negb (m_inconsistent s) then mret (true, s)
      else resolve_conflict_loop fuel s
  end.

Definition resolve_conflict (s : solver) : M (bool * solver) := resolve_conflict_loop (S (m_scope_lvl s)) s.
End Search.

(** ** Decisions *)

(** [decide], for the variable and the phase it selects. *)
Definition decide_var (next : bool_var) (phase : bool) (s : solver) : solver :=
  assign_unit (mk_literal next (negb phase)) (push s).

(** [mk_model], as far as the values go. *)
Definition mk_model (s : solver) : list lbool :=
  imap (fun v eliminated => if eliminated : bool then l_undef else value (mk_literal v false) s) (m_eliminated s).
