(* ===== verification/SatInv.v ===== *)
(** * SatInv: what the SAT solver keeps true

    The invariant of a solver state: values and trail agree, watch lists and
    clauses belong together, and the literals of the trail that have been
    propagated leave no clause behind.  The watch lists are a parameter [W] of
    the definitions, so that they apply in the middle of a pass over one list. *)
From Stdlib Require Import ZArith Lia.
From stdpp Require Import base list sets.
From S2P Require Import Prelude SatTypes SatSolver.
Import solver.

Abbreviation watches := (literal -> list watched) (only parsing).

Definition in_vars (s : solver) (l : literal) : Prop := var l < num_vars s.

Global Instance in_vars_dec s l : Decision (in_vars s l) := lt_dec _ _.

Record sized (s : solver) : Prop := {
  sz_watches : length (m_watches s) = 2 * num_vars s;
  sz_assignment : length (m_assignment s) = 2 * num_vars s;
  sz_justification : length (m_justification s) = num_vars s;
}.

(** Values and trail. *)
Record assigned (s : solver) : Prop := {
  as_neg l : in_vars s l -> value (neg l) s = lbool_neg (value l s);
  as_trail l : l ∈ m_trail s <-> in_vars s l /\ value l s = l_true;
  as_nodup : NoDup (m_trail s);
}.

Definition lits_of (off : nat) (s : solver) : list literal := m_lits (get_clause off s).

(** A watch refers to a clause that has the watched literal. *)
Definition watch_ok (s : solver) (l : literal) (w : watched) : Prop :=
  match w with
  | BINARY l2 _ => in_vars s l2 /\ l2 <> l
  | TERNARY l1 l2 => exists off, off < length (m_cls s) /\ lits_of off s ≡ₚ [neg l; l1; l2]
  | CLAUSE b off => off < length (m_cls s) /\ b ∈ lits_of off s /\ 3 < length (lits_of off s)
  end.

(** A clause is in the watch lists it should be in. *)
Definition attached (W : watches) (s : solver) (off : nat) : Prop :=
  let c := lits_of off s in
  if decide (length c = 3)
  then forall x y z, c ≡ₚ [x; y; z] -> exists l1 l2, TERNARY l1 l2 ∈ W (neg x) /\ [l1; l2] ≡ₚ [y; z]
  else (exists b, CLAUSE b off ∈ W (neg (c !!! 0))) /\ (exists b, CLAUSE b off ∈ W (neg (c !!! 1))).

Record clause_ok (s : solver) (c : clause) : Prop := {
  co_size : 3 <= length (m_lits c);
  co_nodup : NoDup (m_lits c);
  co_vars : Forall (in_vars s) (m_lits c);
  co_there : m_removed c = false;
  co_proper x : x ∈ m_lits c -> neg x ∉ m_lits c;
}.

Record linked (W : watches) (s : solver) : Prop := {
  li_vars l w : w ∈ W l -> in_vars s l;
  li_watch l w : w ∈ W l -> watch_ok s l w;
  li_sym l l2 b : BINARY l2 b ∈ W l -> exists b', BINARY (neg l) b' ∈ W (neg l2);
  li_clause : Forall (clause_ok s) (m_cls s);
  li_attached off : off < length (m_cls s) -> attached W s off;
}.

(** The literal [x] is true, and stays so as long as [l] does. *)
Definition settles (s : solver) (l x : literal) : Prop := value x s = l_true /\ (lvl x s <= lvl l s)%Z.

(** What the watch [w] of [l] promises once [l], at position [p] of the trail, has
    been propagated. *)
Definition good (s : solver) (p : nat) (l : literal) (w : watched) : Prop :=
  match w with
  | BINARY l2 _ => settles s l l2
  | TERNARY l1 l2 =>
      (neg l1 ∈ take p (m_trail s) -> settles s l l2) /\ (neg l2 ∈ take p (m_trail s) -> settles s l l1)
  | CLAUSE _ off =>
      lits_of off s !!! 0 = neg l \/ lits_of off s !!! 1 = neg l -> exists x, x ∈ lits_of off s /\ settles s l x
  end.

Definition processed (W : watches) (s : solver) (q : nat) : Prop :=
  forall p l w, p < q -> m_trail s !! p = Some l -> w ∈ W l -> good s p l w.

(** The assignment satisfies the clauses; and the literals of the trail. *)
Definition holds (W : watches) (s : solver) (a : assignment) : Prop :=
  (forall l l2 b, BINARY l2 b ∈ W l -> lit_val a l = true -> lit_val a l2 = true)
  /\ Forall (fun c => clause_val a (m_lits c) = true) (m_cls s).

Definition trail_holds (s : solver) (a : assignment) : Prop := Forall (fun l => lit_val a l = true) (m_trail s).

Definition wlists (s : solver) : watches := fun l => get_wlist l s.

(** The clauses and the literals of the base level: what holds whatever is decided. *)
Definition base_holds (s : solver) (a : assignment) : Prop := forall l, l ∈ m_trail s -> lvl l s = 0%Z -> lit_val a l = true.

Definition says (s : solver) (a : assignment) : Prop := holds (wlists s) s a /\ base_holds s a.

(** Levels rise along the trail; what has not been propagated is of the current one. *)
Record levels (s : solver) : Prop := {
  lv_range l : l ∈ m_trail s -> (0 <= lvl l s <= Z.of_nat (m_scope_lvl s))%Z;
  lv_sorted p q x y : p <= q -> m_trail s !! p = Some x -> m_trail s !! q = Some y -> (lvl x s <= lvl y s)%Z;
  lv_head p x : m_qhead s <= p -> m_trail s !! p = Some x -> lvl x s = Z.of_nat (m_scope_lvl s);
}.

(** What was assigned below the current level has been propagated. *)
Definition lower_processed (s : solver) : Prop :=
  forall p l w, m_trail s !! p = Some l -> (lvl l s < Z.of_nat (m_scope_lvl s))%Z -> w ∈ wlists s l -> good s p l w.

(** The literals but for [c] of the clause a justification stands for are false,
    their negations among [before]; the clause follows from [Φ].  Clauses of the
    solver have [c] in front. *)
Definition in_front (s : solver) (off : nat) (x : literal) : Prop := lits_of off s !!! 0 = x \/ lits_of off s !!! 1 = x.

Definition explains (Φ : assignment -> Prop) (s : solver) (before : list literal) (c : option literal) (j : justification) : Prop :=
  match j with
  | J_NONE => False
  | J_BINARY l => neg l ∈ before /\ forall a, Φ a -> clause_val a (option_list c ++ [l]) = true
  | J_TERNARY l1 l2 => neg l1 ∈ before /\ neg l2 ∈ before /\ forall a, Φ a -> clause_val a (option_list c ++ [l1; l2]) = true
  | J_CLAUSE off => off < length (m_cls s) /\ (forall x, c = Some x -> in_front s off x)
      /\ forall y, y ∈ lits_of off s -> c <> Some y -> neg y ∈ before
  end.

(** A literal above the base level is the first of its level, or it has a reason
    among the literals before it. *)
Definition reason (Φ : assignment -> Prop) (s : solver) (p : nat) (x : literal) : Prop :=
  match m_justification s !!! var x with
  | J_NONE => forall q y, q < p -> m_trail s !! q = Some y -> (lvl y s < lvl x s)%Z
  | j => explains Φ s (take p (m_trail s)) (Some x) j
  end.

Definition reasons (Φ : assignment -> Prop) (s : solver) : Prop :=
  forall p x, m_trail s !! p = Some x -> (0 < lvl x s)%Z -> reason Φ s p x.

(** A conflict: [n], where it is given, is true, and the clause makes it false; one
    of the literals is of the current level. *)
Definition reason_lits (s : solver) (j : justification) : list literal :=
  match j with J_NONE => [] | J_BINARY l => [l] | J_TERNARY l1 l2 => [l1; l2] | J_CLAUSE off => lits_of off s end.

Record refutes (Φ : assignment -> Prop) (s : solver) (c : justification) (n : option literal) : Prop := {
  rf_true x : n = Some x -> x ∈ m_trail s;
  rf_explains : explains Φ s (m_trail s) (neg <$> n) c;
  rf_current : exists y, y ∈ m_trail s /\ lvl y s = Z.of_nat (m_scope_lvl s) /\ (n = Some y \/ neg y ∈ reason_lits s c);
}.

Record inv (s : solver) : Prop := {
  inv_sized : sized s;
  inv_assigned : assigned s;
  inv_linked : linked (wlists s) s;
  inv_qhead : m_qhead s <= length (m_trail s);
  inv_processed : processed (wlists s) s (m_qhead s);
  inv_levels : levels s;
  inv_reasons : reasons (says s) s;
}.

(** An assignment satisfies what the solver was given. *)
Definition models (s : solver) (a : assignment) : Prop :=
  m_inconsistent s = false /\ holds (wlists s) s a /\ trail_holds s a.

(** ** Values *)

Lemma index_lt s l : sized s -> in_vars s l -> index l < length (m_assignment s).
Proof.
  intros Hs Hl. rewrite (sz_assignment _ Hs), index_eta. unfold in_vars in Hl.
  destruct (sign l); cbn [Nat.b2n]; lia.
Qed.

Lemma index_inj l l' : index l = index l' -> l = l'.
Proof. destruct l, l'. simpl. by intros ->. Qed.

Lemma in_vars_neg s l : in_vars s (neg l) <-> in_vars s l.
Proof. unfold in_vars. by rewrite var_neg. Qed.

Lemma value_false s l : assigned s -> in_vars s l -> value l s = l_false <-> value (neg l) s = l_true.
Proof. intros Ha Hl. rewrite (as_neg _ Ha) by done. destruct (value l s); simpl; naive_solver. Qed.

Lemma trail_vars s l : assigned s -> l ∈ m_trail s -> in_vars s l.
Proof. intros Ha. rewrite (as_trail _ Ha). tauto. Qed.

Lemma trail_value s l : assigned s -> l ∈ m_trail s -> value l s = l_true.
Proof. intros Ha. rewrite (as_trail _ Ha). tauto. Qed.

Lemma trail_neg s l : assigned s -> l ∈ m_trail s -> neg l ∉ m_trail s.
Proof.
  intros Ha Hl Hn. pose proof (trail_value _ _ Ha Hl) as H1. pose proof (trail_value _ _ Ha Hn) as H2.
  rewrite (as_neg _ Ha), H1 in H2 by by apply trail_vars. done.
Qed.

(** No variable is on the trail twice. *)
Lemma trail_length s : assigned s -> length (m_trail s) <= num_vars s.
Proof.
  intros Ha. rewrite <- (length_map var), <- (length_seq (num_vars s) 0). apply submseteq_length, NoDup_submseteq.
  - pose proof (trail_neg s) as Hn. pose proof (as_nodup _ Ha) as Hd.
    assert (Hv : forall l l', l ∈ m_trail s -> l' ∈ m_trail s -> var l = var l' -> l = l').
    { intros l l' Hl Hl' E. destruct (same_var _ _ E) as [->| ->]; [done|]. by destruct (Hn l Ha Hl). }
    revert Hd Hv. generalize (m_trail s). intros t Hd Hv. induction Hd as [|l t Hl Hd IH]; [constructor|].
    simpl. constructor.
    + rewrite list_elem_of_In, in_map_iff. intros (l' & E & Hl'%list_elem_of_In). apply Hl.
      rewrite (Hv l l'); [done|set_solver..|done].
    + apply IH. intros x y Hx Hy. apply Hv; set_solver.
  - intros v. rewrite list_elem_of_In, in_map_iff. intros (l & <- & Hl%list_elem_of_In).
    apply list_elem_of_In, in_seq. pose proof (trail_vars _ _ Ha Hl). unfold in_vars in *. lia.
Qed.

(** ** Assigning a literal *)

(** The parts of the state an assignment leaves alone. *)
Record same_clauses (s s' : solver) : Prop := {
  sc_cls : m_cls s' = m_cls s;
  sc_watches : m_watches s' = m_watches s;
  sc_vars : num_vars s' = num_vars s;
  sc_qhead : m_qhead s' = m_qhead s;
  sc_lvl : m_scope_lvl s' = m_scope_lvl s;
  sc_user : m_user_scope_literals s' = m_user_scope_literals s;
  sc_scopes : m_scopes s' = m_scopes s;
  sc_reinit : m_clauses_to_reinit s' = m_clauses_to_reinit s;
}.

Lemma assign_core_same l j s : same_clauses s (assign_core l j s).
Proof. split; try done. unfold num_vars. simpl. by rewrite length_insert. Qed.

Lemma assign_core_value l j s x : sized s -> in_vars s l ->
  value x (assign_core l j s) = if decide (x = l) then l_true else if decide (x = neg l) then l_false else value x s.
Proof.
  intros Hs Hl. unfold value, assign_core. cbn [m_assignment set_trail set_phase set_justification set_level set_assignment].
  pose proof (index_lt s l Hs Hl) as H1. pose proof (index_lt s (neg l) Hs) as H2. rewrite in_vars_neg in H2. specialize (H2 Hl).
  destruct (decide (x = neg l)) as [->|Hn].
  - rewrite decide_False by apply neg_neq. apply list_lookup_total_insert_eq. by rewrite length_insert.
  - rewrite list_lookup_total_insert_ne by (intros E; by apply Hn, index_inj).
    destruct (decide (x = l)) as [->|Hx]; [by apply list_lookup_total_insert_eq|].
    apply list_lookup_total_insert_ne. intros E. by apply Hx, index_inj.
Qed.

Lemma assign_core_sized l j s : sized s -> sized (assign_core l j s).
Proof.
  intros [Hw Hs Hj]. pose proof (assign_core_same l j s) as Hc. split; rewrite (sc_vars _ _ Hc); [done|..];
    simpl; by rewrite !length_insert.
Qed.

Lemma assign_core_trail l j s : m_trail (assign_core l j s) = m_trail s ++ [l].
Proof. done. Qed.

Lemma assign_core_mono l j s x : sized s -> assigned s -> in_vars s l -> value l s = l_undef -> in_vars s x ->
  value x s <> l_undef -> value x (assign_core l j s) = value x s.
Proof.
  intros Hs Ha Hl Hu Hx Hv. rewrite assign_core_value by done.
  rewrite decide_False by congruence. destruct (decide (x = neg l)) as [->|]; [|done].
  rewrite (as_neg _ Ha), Hu in Hv by done; done.
Qed.

Lemma assign_core_assigned l j s : sized s -> assigned s -> in_vars s l -> value l s = l_undef ->
  assigned (assign_core l j s).
Proof.
  intros Hs Ha Hl Hu. pose proof (assign_core_same l j s) as Hc.
  assert (Hin : forall x, in_vars (assign_core l j s) x <-> in_vars s x) by (intros x; unfold in_vars; by rewrite (sc_vars _ _ Hc)).
  split.
  - intros x Hx%Hin. rewrite !assign_core_value by done.
    destruct (decide (x = l)) as [->|H1].
    { by rewrite decide_False, decide_True by (done || apply neg_neq). }
    destruct (decide (x = neg l)) as [->|H2].
    { by rewrite neg_involutive, decide_True. }
    rewrite !decide_False; [|by rewrite (inj_iff neg)|by rewrite neg_eq].
    by apply (as_neg _ Ha).
  - intros x. rewrite assign_core_trail, elem_of_app, list_elem_of_singleton, Hin, (as_trail _ Ha), assign_core_value by done.
    split.
    + intros [[Hx Hv]| ->]; [|by rewrite decide_True].
      split; [done|]. rewrite decide_False by congruence. rewrite decide_False; [done|]. intros ->.
      rewrite (as_neg _ Ha), Hu in Hv by done; done.
    + intros [Hx Hv]. destruct (decide (x = l)); [by right|]. left. by destruct (decide (x = neg l)).
  - rewrite assign_core_trail. apply NoDup_app. split_and!; [apply (as_nodup _ Ha)| |apply NoDup_singleton].
    intros x Hx ->%list_elem_of_singleton. apply (trail_value _ _ Ha) in Hx. congruence.
Qed.

(** A state with the same clauses whose trail has grown. *)
Record grown (s s' : solver) : Prop := {
  gr_same : same_clauses s s';
  gr_sized : sized s';
  gr_assigned : assigned s';
  gr_trail : m_trail s `prefix_of` m_trail s';
  gr_old x : x ∈ m_trail s -> lvl x s' = lvl x s /\ m_justification s' !!! var x = m_justification s !!! var x;
  gr_new p x : length (m_trail s) <= p -> m_trail s' !! p = Some x -> lvl x s' = Z.of_nat (m_scope_lvl s);
}.

Lemma assign_core_other l j s x : assigned s -> value l s = l_undef -> x ∈ m_trail s ->
  lvl x (assign_core l j s) = lvl x s /\ m_justification (assign_core l j s) !!! var x = m_justification s !!! var x.
Proof.
  intros Ha Hu Hx. pose proof (trail_value _ _ Ha Hx) as Hv. pose proof (trail_vars _ _ Ha Hx) as Hin.
  assert (Hne : var l <> var x).
  { intros E. destruct (same_var l x E) as [-> | ->]; [congruence|].
    rewrite in_vars_neg in Hin. rewrite (as_neg _ Ha), Hu in Hv by done. done. }
  unfold lvl. simpl. by rewrite !list_lookup_total_insert_ne.
Qed.

Lemma assign_core_lvl l j s : in_vars s l -> lvl l (assign_core l j s) = Z.of_nat (m_scope_lvl s).
Proof. intros Hl. unfold lvl. simpl. by apply list_lookup_total_insert_eq. Qed.

Lemma assign_core_grown l j s : sized s -> assigned s -> in_vars s l -> value l s = l_undef -> grown s (assign_core l j s).
Proof.
  intros Hs Ha Hl Hu.
  split; [apply assign_core_same|by apply assign_core_sized|by apply assign_core_assigned| |intros x; by apply assign_core_other|].
  - rewrite assign_core_trail. by apply prefix_app_r.
  - intros p x Hp. rewrite assign_core_trail, lookup_app_r by done. destruct (p - _) as [|n]; [|done].
    intros [= <-]. by apply assign_core_lvl.
Qed.

Lemma same_clauses_refl s : same_clauses s s.
Proof. by split. Qed.

(** Nothing is assigned, and no clause changes. *)
Lemma grown_still s s' : same_clauses s s' -> m_assignment s' = m_assignment s -> m_justification s' = m_justification s ->
  m_level s' = m_level s -> m_trail s' = m_trail s -> sized s -> assigned s -> grown s s'.
Proof.
  intros C Ev Ej El Et [Hw Hs Hj] [H1 H2 H3]. split; [exact C| | |by rewrite Et|intros x Hx; unfold lvl; by rewrite Ej, El|].
  - split; rewrite (sc_vars _ _ C), ?Ev, ?Ej, ?(sc_watches _ _ C); done.
  - assert (Hin : forall l, in_vars s' l <-> in_vars s l) by (intros l; unfold in_vars; by rewrite (sc_vars _ _ C)).
    split; unfold value in *; rewrite ?Et, ?Ev; [intros l Hl%Hin; by apply H1|intros l; by rewrite Hin|done].
  - intros p x Hp Hx. apply lookup_lt_Some in Hx. rewrite Et in Hx. lia.
Qed.

Lemma grown_refl s : sized s -> assigned s -> grown s s.
Proof. by apply grown_still. Qed.

Lemma set_conflict_grown c n s : sized s -> assigned s -> grown s (set_conflict c n s).
Proof.
  intros Hs Ha. unfold set_conflict. destruct (m_inconsistent s); [by apply grown_refl|]. by apply grown_still.
Qed.

Lemma assign_grown l j s : sized s -> assigned s -> in_vars s l -> grown s (assign l j s).
Proof.
  intros. unfold assign. destruct (value l s) eqn:E.
  - by apply set_conflict_grown.
  - by apply assign_core_grown.
  - by apply grown_refl.
Qed.

(** ** Growth keeps the invariants *)

Lemma explains_impl (Φ Φ' : assignment -> Prop) s b c j : (forall a, Φ' a -> Φ a) -> explains Φ s b c j -> explains Φ' s b c j.
Proof. intros H. destruct j; simpl; naive_solver. Qed.

Lemma reasons_impl (Φ Φ' : assignment -> Prop) s : (forall a, Φ' a -> Φ a) -> reasons Φ s -> reasons Φ' s.
Proof.
  intros H Hr p x Hp Hl. specialize (Hr p x Hp Hl). unfold reason in *.
  destruct (m_justification s !!! var x); [done|by eapply explains_impl..].
Qed.

Lemma refutes_impl (Φ Φ' : assignment -> Prop) s c n : (forall a, Φ' a -> Φ a) -> refutes Φ s c n -> refutes Φ' s c n.
Proof. intros H [H1 H2 H3]. split; [done|by eapply explains_impl|done]. Qed.

Lemma value_in_vars s l : sized s -> value l s <> l_undef -> in_vars s l.
Proof.
  intros Hs Hv. destruct (decide (in_vars s l)) as [|Hn]; [done|]. destruct Hv. unfold value.
  rewrite list_lookup_total_alt, lookup_ge_None_2; [done|]. rewrite (sz_assignment _ Hs), index_eta.
  unfold in_vars in Hn. lia.
Qed.

Lemma true_trail s l : sized s -> assigned s -> value l s = l_true <-> l ∈ m_trail s.
Proof.
  intros Hs Ha. rewrite (as_trail _ Ha). split; [|tauto]. intros E. split; [|done]. apply value_in_vars; congruence.
Qed.

Lemma false_trail s l : sized s -> assigned s -> value l s = l_false <-> neg l ∈ m_trail s.
Proof.
  intros Hs Ha. rewrite <- true_trail by done. split; intros E.
  - apply value_false; [done|apply value_in_vars; congruence|done].
  - apply value_false; [done|apply in_vars_neg, value_in_vars; congruence|done].
Qed.

Lemma grown_trans s1 s2 s3 : grown s1 s2 -> grown s2 s3 -> grown s1 s3.
Proof.
  intros [C1 S1 A1 T1 O1 N1] [C2 S2 A2 T2 O2 N2]. split; [|done..|by etrans| |].
  - destruct C1, C2. split; congruence.
  - intros x Hx. destruct (O1 x Hx) as [<- <-]. apply O2. destruct T1 as [k ->]. set_solver.
  - intros p x Hp Hx. rewrite <- (sc_lvl _ _ C1). destruct (decide (p < length (m_trail s2))) as [Hlt|Hge]; [|apply (N2 p); [lia|done]].
    assert (Hx2 : m_trail s2 !! p = Some x).
    { destruct T2 as [k Ek]. rewrite Ek, lookup_app_l in Hx by done. done. }
    rewrite (sc_lvl _ _ C1). rewrite <- (N1 p x Hp Hx2). by apply O2, (list_elem_of_lookup_2 _ p).
Qed.

Section Grown.
Context (s s' : solver) (Hs : sized s) (Ha : assigned s) (G : grown s s').

Lemma grown_vars l : in_vars s' l <-> in_vars s l.
Proof. unfold in_vars. by rewrite (sc_vars _ _ (gr_same _ _ G)). Qed.

Lemma grown_cls : m_cls s' = m_cls s.
Proof. apply G. Qed.

Lemma grown_lits off : lits_of off s' = lits_of off s.
Proof. unfold lits_of, get_clause. by rewrite grown_cls. Qed.

Lemma grown_wlists l : wlists s' l = wlists s l.
Proof. unfold wlists, get_wlist. by rewrite (sc_watches _ _ (gr_same _ _ G)). Qed.

Lemma grown_true l : value l s = l_true -> value l s' = l_true.
Proof.
  rewrite !true_trail by (done || apply G). intros Hl. destruct (gr_trail _ _ G) as [k ->]. set_solver.
Qed.

Lemma grown_false l : value l s = l_false -> value l s' = l_false.
Proof.
  rewrite !false_trail by (done || apply G). intros Hl. destruct (gr_trail _ _ G) as [k ->]. set_solver.
Qed.

Lemma grown_lvl l : value l s = l_true -> lvl l s' = lvl l s.
Proof. rewrite true_trail by done. intros Hl. by apply (gr_old _ _ G). Qed.

Lemma grown_settles l x : l ∈ m_trail s -> settles s l x -> settles s' l x.
Proof.
  intros Hl [Hv Hle]. split; [by apply grown_true|]. rewrite !grown_lvl; [done|by apply true_trail|done].
Qed.

Lemma grown_lookup p x : p < length (m_trail s) -> m_trail s' !! p = Some x -> m_trail s !! p = Some x.
Proof. destruct (gr_trail _ _ G) as [k ->]. intros Hp. by rewrite lookup_app_l. Qed.

Lemma grown_levels : levels s -> levels s'.
Proof.
  intros [Hr Hst Hh].
  assert (Hnew : forall p x, m_trail s' !! p = Some x ->
    p < length (m_trail s) /\ m_trail s !! p = Some x /\ lvl x s' = lvl x s
    \/ length (m_trail s) <= p /\ lvl x s' = Z.of_nat (m_scope_lvl s)).
  { intros p x Hx. destruct (decide (p < length (m_trail s))) as [Hlt|Hge].
    - pose proof (grown_lookup p x Hlt Hx) as Hx'. left. split_and!; [done|done|]. by apply (gr_old _ _ G), (list_elem_of_lookup_2 _ p).
    - right. split; [lia|]. apply (gr_new _ _ G p); [lia|done]. }
  pose proof (sc_lvl _ _ (gr_same _ _ G)) as El. split; rewrite ?El.
  - intros x Hx. apply list_elem_of_lookup in Hx as [p Hp]. destruct (Hnew p x Hp) as [(_ & Hx & ->)|[_ ->]]; [|lia].
    by apply Hr, (list_elem_of_lookup_2 _ p).
  - intros p q x y Hpq Hp Hq. destruct (Hnew p x Hp) as [(Hlp & Hx & ->)|[Hlp ->]], (Hnew q y Hq) as [(Hlq & Hy & ->)|[Hlq ->]].
    + by apply (Hst p q).
    + by apply Hr, (list_elem_of_lookup_2 _ p).
    + lia.
    + lia.
  - rewrite (sc_qhead _ _ (gr_same _ _ G)). intros p x Hq Hp. destruct (Hnew p x Hp) as [(_ & Hx & ->)|[_ ->]]; [|done]. by eapply Hh.
Qed.

Lemma grown_take p : p <= length (m_trail s) -> take p (m_trail s') = take p (m_trail s).
Proof. intros Hp. destruct (gr_trail _ _ G) as [k ->]. by rewrite take_app_le. Qed.

Lemma grown_linked W : linked W s -> linked W s'.
Proof.
  intros [H1 H2 H3 H4 H5]. split.
  - intros l w Hw. apply grown_vars. by eapply H1.
  - intros l w Hw. specialize (H2 l w Hw). destruct w; simpl in *; rewrite ?grown_vars, ?grown_cls, ?grown_lits; try done.
    destruct H2 as (off & ? & ?). exists off. by rewrite grown_lits.
  - done.
  - rewrite grown_cls. eapply Forall_impl; [exact H4|]. intros c [? ? Hv ? ?]. split; try done.
    eapply Forall_impl; [exact Hv|]. intros l. apply grown_vars.
  - intros off. rewrite grown_cls. unfold attached. rewrite grown_lits. apply H5.
Qed.

Lemma grown_good p l w : m_trail s !! p = Some l -> good s p l w -> good s' p l w.
Proof.
  intros Hp Hg. pose proof (list_elem_of_lookup_2 _ _ _ Hp) as Hl. pose proof (lookup_lt_Some _ _ _ Hp) as Hlt.
  destruct w; simpl in *; rewrite ?grown_take, ?grown_lits by lia.
  - by apply grown_settles.
  - destruct Hg as [H1 H2]. split; intros Hin; apply grown_settles; auto.
  - intros Hor. destruct (Hg Hor) as (x & Hx & Hv). exists x. split; [done|]. by apply grown_settles.
Qed.

Lemma grown_processed W q : q <= length (m_trail s) -> processed W s q -> processed W s' q.
Proof.
  intros Hq Hp p l w Hpq Hl Hw. apply grown_lookup in Hl; [|lia]. apply grown_good; [done|]. by apply Hp.
Qed.

Lemma grown_holds W a : holds W s' a <-> holds W s a.
Proof. unfold holds. by rewrite grown_cls. Qed.

Lemma grown_explains Φ b c j : explains Φ s b c j -> explains Φ s' b c j.
Proof. destruct j; simpl; unfold in_front; rewrite ?grown_cls, ?grown_lits; done. Qed.

(** The reasons of the literals that were there. *)
Lemma grown_reason Φ p x : m_trail s !! p = Some x -> reason Φ s p x -> reason Φ s' p x.
Proof.
  intros Hx. pose proof (list_elem_of_lookup_2 _ _ _ Hx) as Hin. pose proof (lookup_lt_Some _ _ _ Hx) as Hp.
  unfold reason. rewrite grown_take by lia. destruct (gr_old _ _ G x Hin) as [-> ->].
  destruct (m_justification s !!! var x) eqn:E; try apply grown_explains.
  intros H q y Hq Hy. apply grown_lookup in Hy; [|lia]. rewrite (proj1 (gr_old _ _ G y (list_elem_of_lookup_2 _ _ _ Hy))). by apply (H q).
Qed.

Lemma grown_reasons Φ : reasons Φ s -> (forall p x, length (m_trail s) <= p -> m_trail s' !! p = Some x ->
  (0 < lvl x s')%Z -> reason Φ s' p x) -> reasons Φ s'.
Proof.
  intros H Hn p x Hx Hl. destruct (decide (p < length (m_trail s))) as [Hlt|Hge]; [|apply Hn; [lia|done..]].
  pose proof (grown_lookup p x Hlt Hx) as Hx'. apply grown_reason; [done|]. apply H; [done|].
  by rewrite <- (proj1 (gr_old _ _ G x (list_elem_of_lookup_2 _ _ _ Hx'))).
Qed.

Lemma grown_still_refutes Φ c n : m_trail s' = m_trail s -> refutes Φ s c n -> refutes Φ s' c n.
Proof.
  intros Et [H1 H2 (y & Hy & Hl & H3)]. split; rewrite ?Et; [done|by apply grown_explains|].
  exists y. rewrite (sc_lvl _ _ (gr_same _ _ G)), (proj1 (gr_old _ _ G y Hy)). split_and!; [done..|].
  unfold reason_lits in *. destruct c; try done. by rewrite grown_lits.
Qed.
End Grown.

(** What speaks for a new literal: nothing is needed at the base level. *)
Definition supports (Φ : assignment -> Prop) (s : solver) (l : literal) (j : justification) : Prop :=
  m_scope_lvl s = 0 \/ explains Φ s (m_trail s) (Some l) j
  \/ j = J_NONE /\ forall y, y ∈ m_trail s -> (lvl y s < Z.of_nat (m_scope_lvl s))%Z.

Lemma assign_core_reasons Φ l j s : sized s -> assigned s -> in_vars s l -> value l s = l_undef ->
  supports Φ s l j -> reasons Φ s -> reasons Φ (assign_core l j s).
Proof.
  intros Hs Ha Hl Hu Hj Hr. pose proof (assign_core_grown l j s Hs Ha Hl Hu) as G.
  apply (grown_reasons s _ G); [done|]. intros p x Hp. rewrite assign_core_trail, lookup_app_r by done.
  destruct (p - _) as [|n] eqn:E; [|done]. assert (p = length (m_trail s)) as -> by lia. intros [= <-].
  rewrite assign_core_lvl by done. intros Hpos. unfold reason. rewrite assign_core_lvl by done.
  assert (Ej : m_justification (assign_core l j s) !!! var l = j).
  { unfold assign_core. cbv zeta. unfold at_base_lvl. destruct (Nat.eqb_spec (m_scope_lvl s) 0); [lia|].
    simpl. apply list_lookup_total_insert_eq. by rewrite (sz_justification _ Hs). }
  rewrite Ej, assign_core_trail, take_app_length. destruct Hj as [?|[He|[-> Hd]]]; [lia| |].
  - destruct j; [done|..]; by apply (grown_explains s _ G).
  - intros q y Hq. rewrite lookup_app_l by done. intros Hy.
    pose proof (list_elem_of_lookup_2 _ _ _ Hy) as Hin. rewrite (proj1 (assign_core_other l J_NONE s y Ha Hu Hin)). by apply Hd.
Qed.

Lemma linked_ext W W' s : (forall l w, w ∈ W l <-> w ∈ W' l) -> linked W s -> linked W' s.
Proof.
  intros E [H1 H2 H3 H4 H5]. split; [..|done|].
  - intros l w Hw%E. by eapply H1.
  - intros l w Hw%E. by apply H2.
  - intros l l2 b Hw%E. destruct (H3 _ _ _ Hw) as [b' Hb]. exists b'. by apply E.
  - intros off Hoff. specialize (H5 off Hoff). unfold attached in *. case_decide.
    + intros x y z Hp. destruct (H5 x y z Hp) as (l1 & l2 & Hw & Hl). exists l1, l2. split; [by apply E|done].
    + destruct H5 as [[b1 Hb1] [b2 Hb2]]. split; [exists b1|exists b2]; by apply E.
Qed.

Lemma processed_ext W W' s q : (forall l w, w ∈ W' l -> w ∈ W l) -> processed W s q -> processed W' s q.
Proof. intros E Hp p l w Hpq Hl Hw. apply (Hp p l w); auto. Qed.

Lemma holds_same_watches W W' s a : (forall l w, w ∈ W l <-> w ∈ W' l) -> holds W s a <-> holds W' s a.
Proof. intros E. unfold holds. by setoid_rewrite E. Qed.

(** ** Permuting a clause *)

Section Permuted.
Context (s s' : solver) (off : nat) (c' : clause).

(** The clause at [off] has its literals in another order. *)
Record permuted : Prop := {
  pe_off : off < length (m_cls s);
  pe_cls : m_cls s' = <[off := c']> (m_cls s);
  pe_lits : m_lits c' ≡ₚ lits_of off s;
  pe_there : m_removed c' = m_removed (get_clause off s);
  pe_size : 3 < length (lits_of off s);
  pe_assignment : m_assignment s' = m_assignment s;
  pe_trail : m_trail s' = m_trail s;
  pe_level : m_level s' = m_level s;
  pe_justification : m_justification s' = m_justification s;
  pe_scope : m_scope_lvl s' = m_scope_lvl s;
  pe_qhead : m_qhead s' = m_qhead s;
}.

Context (P : permuted) (W W' : watches).

Lemma permuted_lits_eq : lits_of off s' = m_lits c'.
Proof. unfold lits_of, get_clause. rewrite (pe_cls P). f_equal. apply list_lookup_total_insert_eq, P. Qed.

Lemma permuted_lits_ne o : o <> off -> lits_of o s' = lits_of o s.
Proof. intros Ho. unfold lits_of, get_clause. by rewrite (pe_cls P), list_lookup_total_insert_ne. Qed.

Lemma permuted_lits o : lits_of o s' ≡ₚ lits_of o s.
Proof.
  destruct (decide (o = off)) as [->|Ho]; [rewrite permuted_lits_eq; apply P|by rewrite permuted_lits_ne].
Qed.

Lemma permuted_length : length (m_cls s') = length (m_cls s).
Proof. by rewrite (pe_cls P), length_insert. Qed.

Lemma permuted_vars l : in_vars s' l <-> in_vars s l.
Proof. unfold in_vars, num_vars. by rewrite (pe_level P). Qed.

Lemma permuted_value l : value l s' = value l s.
Proof. unfold value. by rewrite (pe_assignment P). Qed.

Lemma permuted_sized : m_watches s' = m_watches s \/ length (m_watches s') = length (m_watches s) -> sized s -> sized s'.
Proof.
  intros Hw [H1 H2 H3]. assert (E : num_vars s' = num_vars s) by (unfold num_vars; by rewrite (pe_level P)).
  split; rewrite E, ?(pe_assignment P), ?(pe_justification P); [|done..]. destruct Hw as [-> | ->]; done.
Qed.

Lemma permuted_assigned : assigned s -> assigned s'.
Proof.
  intros [H1 H2 H3]. split; rewrite ?(pe_trail P); try done.
  - intros l. rewrite permuted_vars, !permuted_value. apply H1.
  - intros l. rewrite permuted_vars, permuted_value. apply H2.
Qed.

Lemma permuted_clauses : Forall (clause_ok s) (m_cls s) -> Forall (clause_ok s') (m_cls s').
Proof.
  intros Hc. assert (Hv : forall c, clause_ok s c -> clause_ok s' c).
  { intros c [? ? Hv ? ?]. split; try done. eapply Forall_impl; [exact Hv|]. intros l. apply permuted_vars. }
  rewrite (pe_cls P). apply Forall_insert; [by eapply Forall_impl|].
  destruct (lookup_lt_is_Some_2 _ _ (pe_off P)) as [c Hl].
  assert (Hok : clause_ok s' c) by (apply Hv; by eapply Forall_lookup_1).
  pose proof (pe_lits P) as Hp. pose proof (pe_there P) as Ht. unfold lits_of, get_clause in Hp, Ht.
  rewrite (list_lookup_total_correct _ _ _ Hl) in Hp, Ht. destruct Hok. split.
  - by rewrite Hp.
  - by rewrite Hp.
  - by rewrite Hp.
  - congruence.
  - intros x. rewrite Hp. by apply co_proper0.
Qed.

Lemma permuted_linked :
  (forall l w, (forall b, w <> CLAUSE b off) -> w ∈ W' l <-> w ∈ W l) ->
  (forall l b, CLAUSE b off ∈ W' l -> in_vars s l /\ b ∈ lits_of off s) ->
  (exists b, CLAUSE b off ∈ W' (neg (m_lits c' !!! 0))) -> (exists b, CLAUSE b off ∈ W' (neg (m_lits c' !!! 1))) ->
  linked W s -> linked W' s'.
Proof.
  intros Hsame Hnew Ha0 Ha1 [H1 H2 H3 H4 H5].
  assert (Hcase : forall w, (exists b, w = CLAUSE b off) \/ forall b, w <> CLAUSE b off).
  { intros [| |b o]; [by right..|]. destruct (decide (o = off)) as [->|]; [left; eauto|right; congruence]. }
  split.
  - intros l w Hw. rewrite permuted_vars. destruct (Hcase w) as [[b ->]|Hne]; [by apply (Hnew l b)|].
    apply Hsame in Hw; [|done]. by eapply H1.
  - intros l w Hw. destruct (Hcase w) as [[b ->]|Hne].
    + simpl. rewrite permuted_length, permuted_lits. split_and!; try apply P. by apply (Hnew l b).
    + apply Hsame in Hw; [|done]. specialize (H2 l w Hw). destruct w; simpl in *; rewrite ?permuted_vars, ?permuted_length, ?permuted_lits; try done.
      destruct H2 as (o & ? & ?). exists o. by rewrite permuted_lits.
  - intros l l2 b Hw. apply Hsame in Hw; [|done]. destruct (H3 _ _ _ Hw) as [b' Hb]. exists b'. by apply Hsame.
  - by apply permuted_clauses.
  - intros o. rewrite permuted_length. intros Ho. specialize (H5 o Ho). unfold attached in *.
    rewrite (Permutation_length (permuted_lits o)). case_decide as E.
    + intros x y z. rewrite permuted_lits. intros Hp. destruct (H5 x y z Hp) as (l1 & l2 & Hw & Hl). exists l1, l2.
      split; [by apply Hsame|done].
    + destruct (decide (o = off)) as [->|Hne]; [by rewrite permuted_lits_eq|]. rewrite permuted_lits_ne by done.
      destruct H5 as [[b1 Hb1] [b2 Hb2]]. split; [exists b1|exists b2]; (apply Hsame; [congruence|done]).
Qed.

Lemma permuted_holds a : (forall l w, (forall b, w <> CLAUSE b off) -> w ∈ W' l <-> w ∈ W l) -> holds W' s' a <-> holds W s a.
Proof.
  intros Hsame. unfold holds. rewrite (pe_cls P). f_equiv.
  - split; intros H l l2 b Hw; apply (H l l2 b); by apply Hsame.
  - destruct (lookup_lt_is_Some_2 _ _ (pe_off P)) as [c Hl].
    assert (Ec : clause_val a (m_lits c') = clause_val a (m_lits c)).
    { rewrite (pe_lits P). unfold lits_of, get_clause. by rewrite (list_lookup_total_correct _ _ _ Hl). }
    rewrite <- (list_insert_id (m_cls s) off c) at 2 by done. split; intros H; rewrite Forall_lookup in H |- *;
      intros i x Hx; (destruct (decide (i = off)) as [->|Hi];
        [rewrite list_lookup_insert_eq in Hx by apply P; injection Hx as <-|
         rewrite list_lookup_insert_ne in Hx by done; apply (H i); by rewrite list_lookup_insert_ne]).
    + rewrite <- Ec. apply (H off). apply list_lookup_insert_eq, P.
    + rewrite Ec. apply (H off). apply list_lookup_insert_eq, P.
Qed.

Lemma permuted_settles l x : settles s' l x <-> settles s l x.
Proof. unfold settles, lvl. by rewrite permuted_value, (pe_level P). Qed.

Lemma permuted_levels : levels s -> levels s'.
Proof.
  intros [H1 H2 H3]. unfold lvl in *. split; unfold lvl; rewrite ?(pe_trail P), ?(pe_level P), ?(pe_scope P), ?(pe_qhead P); done.
Qed.

Lemma permuted_reasons Φ : (forall x, x ∈ m_trail s -> in_front s off x -> in_front s' off x) -> reasons Φ s -> reasons Φ s'.
Proof.
  intros Hf Hr p x. rewrite (pe_trail P). unfold lvl. rewrite (pe_level P). intros Hp Hpos. specialize (Hr p x Hp Hpos).
  unfold reason in *. rewrite (pe_trail P), (pe_justification P). destruct (m_justification s !!! var x) as [| | |o] eqn:E; try done.
  - unfold lvl. by rewrite (pe_level P).
  - destruct Hr as (Ho & Hx & Hy). split_and!.
    + by rewrite permuted_length.
    + intros y [= <-]. specialize (Hx x eq_refl). destruct (decide (o = off)) as [->|Hne].
      * apply Hf; [by eapply list_elem_of_lookup_2|done].
      * unfold in_front. by rewrite permuted_lits_ne.
    + intros y. rewrite permuted_lits. apply Hy.
Qed.

Lemma permuted_good p l w : (forall b, w <> CLAUSE b off) -> good s p l w -> good s' p l w.
Proof.
  intros Hne Hg. destruct w as [| |b o]; simpl in *; rewrite ?(pe_trail P), ?permuted_settles; try done.
  rewrite permuted_lits_ne by (intros ->; by apply (Hne b)). setoid_rewrite permuted_settles. done.
Qed.

(** A clause with a true literal promises nothing more. *)
Lemma permuted_good_true p l b : (exists x, x ∈ lits_of off s /\ settles s l x) -> good s' p l (CLAUSE b off).
Proof. intros (x & Hx & Hv) _. exists x. by rewrite permuted_lits, permuted_settles. Qed.
End Permuted.
