(* ===== verification/SatPropagate.v ===== *)
(** * SatPropagate: unit propagation is sound, complete and ends

    One pass over the watches of a literal keeps the watch lists and the clauses
    linked, assigns only what the clauses imply, and leaves every watch it went
    over without a pending consequence. *)
From Stdlib Require Import ZArith Lia.
From stdpp Require Import base list sets.
From S2P Require Import Prelude SatTypes SatSolver SatInv.
Import solver.

(** ** Watch lists *)

(** The watch lists, with [wl] for the list of [l]. *)
Definition view (l : literal) (wl : list watched) (s : solver) : watches :=
  fun x => if decide (x = l) then wl else get_wlist x s.

Lemma view_eq l wl s : view l wl s l = wl.
Proof. unfold view. by rewrite decide_True. Qed.

Lemma view_ne l wl s x : x <> l -> view l wl s x = get_wlist x s.
Proof. intros H. unfold view. by rewrite decide_False. Qed.

Lemma view_same l s x : view l (get_wlist l s) s x = wlists s x.
Proof. unfold view. by case_decide; subst. Qed.

Lemma watch_index s x : sized s -> in_vars s x -> index x < length (m_watches s).
Proof. intros Hs Hx. rewrite (sz_watches _ Hs), <- (sz_assignment _ Hs). by apply index_lt. Qed.

Lemma get_set_wlist l wl s x : sized s -> in_vars s l ->
  get_wlist x (set_wlist l wl s) = if decide (x = l) then wl else get_wlist x s.
Proof.
  intros Hs Hl. unfold get_wlist, set_wlist. cbn [m_watches set_watches]. case_decide as E.
  - subst. apply list_lookup_total_insert_eq. by apply watch_index.
  - apply list_lookup_total_insert_ne. intros H. by apply E, index_inj.
Qed.

Lemma get_push_watch l w s x : sized s -> in_vars s l ->
  get_wlist x (push_watch l w s) = if decide (x = l) then get_wlist l s ++ [w] else get_wlist x s.
Proof. apply get_set_wlist. Qed.

(** ** What the trail implies *)

Lemma trail_true a s l : trail_holds s a -> sized s -> assigned s -> value l s = l_true -> lit_val a l = true.
Proof. intros Ht Hs Ha Hv. apply true_trail in Hv; [|done..]. unfold trail_holds in Ht. rewrite Forall_forall in Ht. by apply Ht. Qed.

Lemma trail_false a s l : trail_holds s a -> sized s -> assigned s -> value l s = l_false -> lit_val a l = false.
Proof.
  intros Ht Hs Ha Hv. apply false_trail in Hv; [|done..]. unfold trail_holds in Ht. rewrite Forall_forall in Ht.
  specialize (Ht _ Hv). rewrite lit_val_neg in Ht. by destruct (lit_val a l).
Qed.

(** A clause whose literals are false but for one makes that one true. *)
Lemma clause_unit a s l rest : trail_holds s a -> sized s -> assigned s ->
  Forall (fun x => value x s = l_false) rest -> clause_val a (l :: rest) = true -> lit_val a l = true.
Proof.
  intros Ht Hs Ha Hr. rewrite clause_val_cons. intros H. destruct (lit_val a l); [done|]. simpl in H.
  apply clause_val_true in H as (x & Hx & Hv). rewrite Forall_forall in Hr.
  rewrite (trail_false a s x) in Hv by auto. done.
Qed.

Lemma holds_lits W s a off : holds W s a -> off < length (m_cls s) -> clause_val a (lits_of off s) = true.
Proof.
  intros [_ H] Hoff. destruct (lookup_lt_is_Some_2 _ _ Hoff) as [c Hc]. unfold lits_of, get_clause.
  rewrite (list_lookup_total_correct _ _ _ Hc). exact (Forall_lookup_1 _ _ _ _ H Hc).
Qed.

(** ** The literals of a clause *)

Lemma find_non_false_some s lits : forall i j, find_non_false i lits s = Some j ->
  exists k x, j = i + k /\ lits !! k = Some x /\ value x s <> l_false.
Proof.
  induction lits as [|x lits IH]; intros i j; simpl; [done|]. case_decide as E.
  - intros H. destruct (IH _ _ H) as (k & y & -> & Hk & Hv). exists (S k), y. split; [lia|done].
  - intros [= <-]. exists 0, x. split; [lia|done].
Qed.

Lemma find_non_false_none s lits i : find_non_false i lits s = None -> Forall (fun x => value x s = l_false) lits.
Proof.
  revert i. induction lits as [|x lits IH]; intros i; simpl; [constructor|]. case_decide; [|done].
  intros H'. constructor; [done|by eapply IH].
Qed.

Lemma swap_lookup_0 c : 1 < length c -> swap 0 1 c !!! 0 = c !!! 1.
Proof. intros. destruct c as [|x [|y c]]; simpl in *; [lia..|done]. Qed.

Lemma swap_lookup_1 c : 1 < length c -> swap 0 1 c !!! 1 = c !!! 0.
Proof. intros. destruct c as [|x [|y c]]; simpl in *; [lia..|done]. Qed.

Lemma swap_01_perm c : 1 < length c -> swap 0 1 c ≡ₚ c.
Proof. intros. destruct c as [|x [|y c]]; simpl in *; [lia..|]. unfold swap. simpl. constructor. Qed.

(** A clause of more than three literals by its first two. *)
Lemma front (c : list literal) : 3 < length c -> c = c !!! 0 :: c !!! 1 :: drop 2 c.
Proof. intros. destruct c as [|x [|y c]]; simpl in *; [lia..|]. by rewrite drop_0. Qed.

Lemma front_in (c : list literal) : 3 < length c -> c !!! 0 ∈ c.
Proof. intros. rewrite (front c) at 2 by done. left. Qed.

(** The literals at 1 and [2 + k] exchanged. *)
Lemma exchange_perm (c : list literal) k x n : 3 < length c -> c !!! 1 = n -> c !! (2 + k) = Some x ->
  exists r, <[2 + k := n]> (<[1 := x]> c) = c !!! 0 :: x :: r /\ c !!! 0 :: x :: r ≡ₚ c.
Proof.
  intros Hlen H1 Hk. rewrite (front c) in Hk |- * by done. rewrite H1 in *. destruct c as [|c0 [|c1 c]]; simpl in *; [lia..|].
  rewrite drop_0 in *. exists (<[k := n]> c). split; [done|].
  pose proof (take_drop_middle _ _ _ Hk) as E. rewrite insert_take_drop by (by eapply lookup_lt_Some).
  rewrite <- E at 3. solve_Permutation.
Qed.

(** ** The state of a pass *)

Record frame (s s' : solver) : Prop := {
  fr_vars : num_vars s' = num_vars s;
  fr_qhead : m_qhead s' = m_qhead s;
  fr_lvl : m_scope_lvl s' = m_scope_lvl s;
  fr_user : m_user_scope_literals s' = m_user_scope_literals s;
  fr_scopes : m_scopes s' = m_scopes s;
  fr_reinit : m_clauses_to_reinit s' = m_clauses_to_reinit s;
}.

Lemma unmoved_trans s1 s2 s3 : frame s1 s2 -> frame s2 s3 -> frame s1 s3.
Proof. intros [] []. split; congruence. Qed.

Lemma same_clauses_frame s s' : same_clauses s s' -> frame s s'.
Proof. intros []. by split. Qed.

Section Pass.
(** The literal [l] at position [p0] of the trail is propagated; the pass began at
    [s0] with watch lists [W0]. *)
Context (s0 : solver) (W0 : watches) (l : literal) (p0 : nat) (Φ : assignment -> Prop) (HΦ : forall a, Φ a -> holds W0 s0 a).

Record pass (kept todo : list watched) (s : solver) : Prop := {
  pa_sized : sized s;
  pa_assigned : assigned s;
  pa_linked : linked (view l (kept ++ todo) s) s;
  pa_pos : m_trail s !! p0 = Some l;
  pa_proc : processed (view l (kept ++ todo) s) s p0;
  pa_kept : forall w, w ∈ kept -> good s p0 l w;
  pa_holds : forall a, holds (view l (kept ++ todo) s) s a <-> holds W0 s0 a;
  pa_trail : forall a, holds W0 s0 a -> trail_holds s0 a -> trail_holds s a;
  pa_prefix : m_trail s0 `prefix_of` m_trail s;
  pa_frame : frame s0 s;
  pa_consistent : m_inconsistent s = false;
  pa_levels : levels s;
  pa_current : lvl l s = Z.of_nat (m_scope_lvl s);
  pa_reasons : reasons Φ s;
  pa_old x : x ∈ m_trail s0 -> lvl x s = lvl x s0;
}.

(** The state after a conflict: no assignment satisfies clauses and trail. *)
Record stopped (wl : list watched) (s : solver) : Prop := {
  sp_sized : sized s;
  sp_assigned : assigned s;
  sp_linked : linked (view l wl s) s;
  sp_holds : forall a, holds (view l wl s) s a <-> holds W0 s0 a;
  sp_conflict : forall a, holds W0 s0 a -> trail_holds s0 a -> False;
  sp_prefix : m_trail s0 `prefix_of` m_trail s;
  sp_frame : frame s0 s;
  sp_inconsistent : m_inconsistent s = true;
  sp_levels : levels s;
  sp_reasons : reasons Φ s;
  sp_refutes : refutes Φ s (m_conflict s) (m_not_l s);
  sp_old x : x ∈ m_trail s0 -> lvl x s = lvl x s0;
  sp_pos : m_trail s !! p0 = Some l;
  sp_current : lvl l s = Z.of_nat (m_scope_lvl s);
  sp_proc : processed (view l wl s) s p0;
}.

Lemma pass_true kept todo s : pass kept todo s -> value l s = l_true.
Proof. intros P. eapply true_trail; [apply P..|]. eapply list_elem_of_lookup_2, P. Qed.

Lemma pass_in_trail kept todo s : pass kept todo s -> l ∈ m_trail s.
Proof. intros P. eapply list_elem_of_lookup_2, P. Qed.

Lemma pass_pos kept todo s : pass kept todo s -> p0 < length (m_trail s).
Proof. intros P. eapply lookup_lt_Some, P. Qed.

Lemma pass_in kept todo s w : pass kept todo s -> w ∈ kept ++ todo -> in_vars s l /\ watch_ok s l w.
Proof.
  intros P Hw. assert (Hv : w ∈ view l (kept ++ todo) s l) by by rewrite view_eq.
  split; [eapply li_vars|eapply li_watch]; try apply P; exact Hv.
Qed.

(** What is true now stays so as long as [l]. *)
Lemma pass_settles kept todo s x : pass kept todo s -> value x s = l_true -> settles s l x.
Proof.
  intros P Hv. split; [done|]. rewrite (pa_current _ _ _ P). apply (lv_range _ (pa_levels _ _ _ P)), true_trail; [apply P..|done].
Qed.

(** The list is split elsewhere. *)
Lemma pass_keep kept w todo s : pass kept (w :: todo) s -> good s p0 l w -> pass (kept ++ [w]) todo s.
Proof.
  intros P Hw. destruct P. split; rewrite <- ?app_assoc; simpl; try done.
  intros w'. rewrite elem_of_app, list_elem_of_singleton. intros [H| ->]; auto.
Qed.

Lemma view_grown wl s s' : grown s s' -> forall x w, w ∈ view l wl s x <-> w ∈ view l wl s' x.
Proof. intros G x w. unfold view. case_decide; [done|]. pose proof (grown_wlists s s' G x) as E. unfold wlists in E. by rewrite E. Qed.

(** The trail grows by consequences. *)
Lemma pass_grow kept todo s s' : pass kept todo s -> grown s s' -> m_inconsistent s' = false ->
  reasons Φ s' -> (forall a, holds W0 s0 a -> trail_holds s a -> trail_holds s' a) -> pass kept todo s'.
Proof.
  intros P G Hi Hr Hsem. pose proof (pass_true _ _ _ P) as Htl. pose proof (pass_pos _ _ _ P) as Hpos.
  pose proof (view_grown (kept ++ todo) s s' G) as Ew.
  destruct P. split; try apply G; try done.
  - eapply linked_ext; [exact Ew|]. by eapply grown_linked.
  - destruct (gr_trail _ _ G) as [k ->]. by rewrite lookup_app_l.
  - eapply processed_ext; [intros x w; apply Ew|]. eapply grown_processed; try done. lia.
  - intros w Hw. by eapply grown_good; [..|by apply pa_kept0].
  - intros a. rewrite <- pa_holds0, (holds_same_watches _ _ s' a (fun x w => iff_sym (Ew x w))). by apply grown_holds.
  - intros a Hh Ht. auto.
  - etrans; [done|apply G].
  - eapply unmoved_trans; [done|]. by apply same_clauses_frame, G.
  - by eapply grown_levels.
  - rewrite (sc_lvl _ _ (gr_same _ _ G)), <- pa_current0. by eapply grown_lvl.
  - intros x Hx. rewrite <- pa_old0 by done. apply (gr_old _ _ G). destruct pa_prefix0 as [k ->]. set_solver.
Qed.

(** A literal the clauses and the trail imply is assigned. *)
Lemma pass_assign kept todo s x j : pass kept todo s -> in_vars s x -> value x s = l_undef ->
  explains Φ s (m_trail s) (Some x) j ->
  (forall a, holds (view l (kept ++ todo) s) s a -> trail_holds s a -> lit_val a x = true) ->
  pass kept todo (assign_core x j s) /\ value x (assign_core x j s) = l_true
    /\ forall y, value y s = l_true -> value y (assign_core x j s) = l_true.
Proof.
  intros P Hx Hu Hj Hsem. assert (G : grown s (assign_core x j s)) by (apply assign_core_grown; try done; apply P).
  split_and!.
  - eapply pass_grow; try done; [apply P|apply assign_core_reasons; try done; try apply P; right; by left|].
    intros a Hh Ht. unfold trail_holds. rewrite assign_core_trail.
    apply Forall_app. split; [done|]. constructor; [|constructor]. apply Hsem; [by apply P|done].
  - rewrite assign_core_value by (done || apply P). by rewrite decide_True.
  - intros y. eapply grown_true; [..|exact G]; apply P.
Qed.

Lemma pass_conflict kept todo s c n : pass kept todo s -> refutes Φ s c n ->
  (forall a, holds (view l (kept ++ todo) s) s a -> trail_holds s a -> False) ->
  stopped (kept ++ todo) (set_conflict c n s).
Proof.
  intros P Hn Hc. assert (G : grown s (set_conflict c n s)) by (apply set_conflict_grown; apply P).
  assert (Et : m_trail (set_conflict c n s) = m_trail s) by (unfold set_conflict; by case_match).
  pose proof (view_grown (kept ++ todo) s _ G) as Ew. split; try apply G.
  - eapply linked_ext; [exact Ew|]. eapply grown_linked; [exact G|apply P].
  - intros a. rewrite <- (pa_holds _ _ _ P), (holds_same_watches _ _ _ a (fun x w => iff_sym (Ew x w))). by apply grown_holds.
  - intros a Ha Ht. eapply Hc; [by apply (pa_holds _ _ _ P)|by apply (pa_trail _ _ _ P)].
  - etrans; [apply P|apply G].
  - eapply unmoved_trans; [apply P|]. by apply same_clauses_frame, G.
  - unfold set_conflict. by rewrite (pa_consistent _ _ _ P).
  - eapply grown_levels; [done..|]; apply P.
  - eapply grown_reasons; [done|apply P|]. rewrite Et. intros p x Hp Hx%lookup_lt_Some. lia.
  - assert (Ec : m_conflict (set_conflict c n s) = c /\ m_not_l (set_conflict c n s) = n).
    { unfold set_conflict. by rewrite (pa_consistent _ _ _ P). }
    destruct Ec as [-> ->]. by eapply grown_still_refutes.
  - intros x Hx. rewrite <- (pa_old _ _ _ P) by done. apply (gr_old _ _ G). destruct (pa_prefix _ _ _ P) as [k ->]. set_solver.
  - rewrite Et. apply P.
  - rewrite (sc_lvl _ _ (gr_same _ _ G)), <- (pa_current _ _ _ P). eapply (grown_lvl s _); [apply P..|exact G|by eapply pass_true].
  - eapply processed_ext; [intros x w; apply Ew|]. eapply grown_processed; try exact G; try apply P. pose proof (pass_pos _ _ _ P). lia.
Qed.

(** ** One watch *)

Definition step_ok (kept : list watched) (w : watched) (todo : list watched) (r : outcome * solver) : Prop :=
  match r with
  | (Keep w', s) => pass (kept ++ [w']) todo s
  | (Moved, s) => pass kept todo s
  | (Conflict, s) => stopped (kept ++ w :: todo) s
  end.

Lemma binary_step kept l1 b todo s : pass kept (BINARY l1 b :: todo) s ->
  step_ok kept (BINARY l1 b) todo (propagate_watch (neg l) (BINARY l1 b) s).
Proof.
  intros P. assert (Hin : BINARY l1 b ∈ kept ++ BINARY l1 b :: todo) by set_solver.
  destruct (pass_in _ _ _ _ P Hin) as [Hl [H1 _]].
  assert (Himp : forall a, holds (view l (kept ++ BINARY l1 b :: todo) s) s a -> trail_holds s a -> lit_val a l1 = true).
  { intros a [Hb _] Ht. apply (Hb l l1 b); [by rewrite view_eq|].
    eapply trail_true; [done|apply P..|]. by eapply pass_true. }
  pose proof (pass_in_trail _ _ _ P) as Hlt.
  assert (Hj : explains Φ s (m_trail s) (Some l1) (J_BINARY (neg l))).
  { simpl. rewrite neg_involutive. split; [done|]. intros a [Hb _]%HΦ%(pa_holds _ _ _ P).
    specialize (Hb l l1 b). rewrite view_eq in Hb. rewrite !clause_val_cons, lit_val_neg.
    destruct (lit_val a l); [|apply orb_true_r]. by rewrite Hb. }
  simpl. destruct (value l1 s) eqn:E; simpl.
  - eapply pass_conflict; [done|split|].
    + intros x [= <-]. apply false_trail in E; [done|apply P..].
    + cbn [fmap option_fmap option_map]. by rewrite neg_involutive.
    + exists l. split_and!; [done|apply P|right; simpl; by left].
    + intros a Hh Ht. specialize (Himp a Hh Ht). rewrite (trail_false a s l1) in Himp by (done || apply P). done.
  - destruct (pass_assign _ _ _ l1 (J_BINARY (neg l)) P H1 E Hj Himp) as (P' & Hv & _). apply pass_keep; [done|]. by eapply pass_settles.
  - apply pass_keep; [done|]. by eapply pass_settles.
Qed.

Lemma ternary_step kept l1 l2 todo s : pass kept (TERNARY l1 l2 :: todo) s ->
  step_ok kept (TERNARY l1 l2) todo (propagate_watch (neg l) (TERNARY l1 l2) s).
Proof.
  intros P. assert (Hin : TERNARY l1 l2 ∈ kept ++ TERNARY l1 l2 :: todo) by set_solver.
  destruct (pass_in _ _ _ _ P Hin) as [Hl (off & Hoff & Hp)].
  pose proof (pass_true _ _ _ P) as Htrue. pose proof (pass_pos _ _ _ P) as Hpos.
  assert (Hcl : forall a, holds (view l (kept ++ TERNARY l1 l2 :: todo) s) s a -> clause_val a [neg l; l1; l2] = true).
  { intros a Hh. rewrite <- Hp. by eapply holds_lits. }
  assert (Hnl : value (neg l) s = l_false) by (rewrite (as_neg s) by (done || apply P); by rewrite Htrue).
  assert (Hv12 : in_vars s l1 /\ in_vars s l2).
  { pose proof (li_clause _ _ (pa_linked _ _ _ P)) as Hc. destruct (lookup_lt_is_Some_2 _ _ Hoff) as [c Hl'].
    pose proof (co_vars _ _ (Forall_lookup_1 _ _ _ _ Hc Hl')) as Hv. unfold lits_of, get_clause in Hp.
    rewrite (list_lookup_total_correct _ _ _ Hl') in Hp. rewrite Hp, !Forall_cons in Hv. tauto. }
  destruct Hv12 as [H1 H2].
  assert (Hunit : forall x y, [neg l; l1; l2] ≡ₚ [x; y; neg l] -> value y s = l_false ->
    forall a, holds (view l (kept ++ TERNARY l1 l2 :: todo) s) s a -> trail_holds s a -> lit_val a x = true).
  { intros x y Hxy Hy a Hh Ht. eapply (clause_unit a s x [y; neg l]); [done|apply P..| |].
    - by repeat constructor.
    - rewrite <- Hxy. by apply Hcl. }
  assert (Hcl0 : forall a, Φ a -> clause_val a [neg l; l1; l2] = true) by (intros a Hh%HΦ%(pa_holds _ _ _ P); by apply Hcl).
  pose proof (pass_in_trail _ _ _ P) as Hlt.
  assert (Hj : forall x y, [neg l; l1; l2] ≡ₚ [x; y; neg l] -> value y s = l_false ->
    explains Φ s (m_trail s) (Some x) (J_TERNARY y (neg l))).
  { intros x y Hxy Hy. simpl. rewrite neg_involutive. apply false_trail in Hy; [|apply P..]. split_and!; [done..|].
    intros a Hh. rewrite <- Hxy. by apply Hcl0. }
  pose proof (Hunit l2 l1 ltac:(solve_Permutation)) as U2. pose proof (Hunit l1 l2 ltac:(solve_Permutation)) as U1.
  assert (Hkeep : forall s', pass kept (TERNARY l1 l2 :: todo) s' ->
     (value l1 s' = l_false -> value l2 s' = l_true) -> (value l2 s' = l_false -> value l1 s' = l_true) ->
     pass (kept ++ [TERNARY l1 l2]) todo s').
  { intros s' P' Ha Hb. apply pass_keep; [done|].
    split; intros Hx%subseteq_take%false_trail; try apply P'; eapply pass_settles; eauto. }
  pose proof (Hj l2 l1 ltac:(solve_Permutation)) as J2. pose proof (Hj l1 l2 ltac:(solve_Permutation)) as J1.
  simpl. destruct (value l1 s) eqn:E1, (value l2 s) eqn:E2; simpl; try (apply Hkeep; [done|congruence..]).
  - eapply pass_conflict; [done|split|].
    + intros x [= <-]. apply false_trail in E2; [done|apply P..].
    + cbn [fmap option_fmap option_map]. rewrite neg_involutive. by apply J2.
    + exists l. split_and!; [done|apply P|right; simpl; set_solver].
    + intros a Hh Ht. specialize (U1 eq_refl a Hh Ht). rewrite (trail_false a s l1) in U1 by (done || apply P). done.
  - destruct (pass_assign _ _ _ l2 (J_TERNARY l1 (neg l)) P H2 E2 (J2 eq_refl) (U2 eq_refl)) as (P' & Hv & _). apply Hkeep; [done|congruence..].
  - destruct (pass_assign _ _ _ l1 (J_TERNARY l2 (neg l)) P H1 E1 (J1 eq_refl) (U1 eq_refl)) as (P' & Hv & _). apply Hkeep; [done|congruence..].
Qed.

(** ** A watch of a longer clause *)

(** The literals of a clause of the solver. *)
Lemma pass_clause kept todo s off : pass kept todo s -> off < length (m_cls s) ->
  NoDup (lits_of off s) /\ Forall (in_vars s) (lits_of off s) /\ m_removed (get_clause off s) = false.
Proof.
  intros P Hoff. destruct (lookup_lt_is_Some_2 _ _ Hoff) as [c Hc]. unfold lits_of, get_clause.
  rewrite (list_lookup_total_correct _ _ _ Hc). pose proof (Forall_lookup_1 _ _ _ _ (li_clause _ _ (pa_linked _ _ _ P)) Hc) as [].
  done.
Qed.

(** The clause is permuted, and the same two literals stay in front. *)
Lemma pass_permute kept todo s s' off c' : pass kept todo s -> permuted s s' off c' ->
  m_watches s' = m_watches s -> frame s s' -> m_inconsistent s' = m_inconsistent s ->
  (m_lits c' !!! 0 = lits_of off s !!! 0 /\ m_lits c' !!! 1 = lits_of off s !!! 1
   \/ m_lits c' !!! 0 = lits_of off s !!! 1 /\ m_lits c' !!! 1 = lits_of off s !!! 0) ->
  pass kept todo s'.
Proof.
  intros P Pe Hw Hf Hi Hc.
  assert (Ev : forall x, view l (kept ++ todo) s' x = view l (kept ++ todo) s x).
  { intros x. unfold view, get_wlist. by rewrite Hw. }
  assert (Hgood : forall p x w, good s p x w -> good s' p x w).
  { intros p x w Hg. destruct w as [| |b o]; [by eapply permuted_good..|].
    destruct (decide (o = off)) as [->|Hne]; [|eapply permuted_good; [done|congruence|done]].
    simpl in *. rewrite (permuted_lits_eq s s' off c' Pe). intros Hor. destruct Hg as (y & Hy & Hv); [|].
    { destruct Hc as [[<- <-]|[<- <-]]; tauto. }
    exists y. by rewrite (pe_lits _ _ _ _ Pe), (permuted_settles s s' off c' Pe). }
  assert (Hatt : (exists b, CLAUSE b off ∈ view l (kept ++ todo) s (neg (lits_of off s !!! 0)))
    /\ exists b, CLAUSE b off ∈ view l (kept ++ todo) s (neg (lits_of off s !!! 1))).
  { pose proof (li_attached _ _ (pa_linked _ _ _ P) off (pe_off _ _ _ _ Pe)) as Ha. unfold attached in Ha.
    rewrite decide_False in Ha by (pose proof (pe_size _ _ _ _ Pe); lia). done. }
  split.
  - eapply permuted_sized; [done|by left|apply P].
  - eapply permuted_assigned; [done|apply P].
  - eapply (permuted_linked s s' off c' Pe); [intros; by rewrite Ev| | | |apply P].
    + intros x b. rewrite Ev. intros Hx. split; [eapply li_vars; [apply P|done]|].
      pose proof (li_watch _ _ (pa_linked _ _ _ P) _ _ Hx) as (_ & ? & _). done.
    + rewrite Ev. destruct Hc as [[-> _]|[-> _]]; apply Hatt.
    + rewrite Ev. destruct Hc as [[_ ->]|[_ ->]]; apply Hatt.
  - rewrite (pe_trail _ _ _ _ Pe). apply P.
  - intros p x w Hp. rewrite (pe_trail _ _ _ _ Pe), Ev. intros Hx Hw'. apply Hgood. by apply (pa_proc _ _ _ P).
  - intros w Hw'. apply Hgood. by apply (pa_kept _ _ _ P).
  - intros a. rewrite <- (pa_holds _ _ _ P). eapply permuted_holds; [done|]. intros. by rewrite Ev.
  - intros a Hh Ht. unfold trail_holds. rewrite (pe_trail _ _ _ _ Pe). by apply (pa_trail _ _ _ P).
  - rewrite (pe_trail _ _ _ _ Pe). apply P.
  - eapply unmoved_trans; [apply P|done].
  - rewrite Hi. apply P.
  - eapply permuted_levels; [done|apply P].
  - unfold lvl. rewrite (pe_level _ _ _ _ Pe), (pe_scope _ _ _ _ Pe). apply P.
  - eapply permuted_reasons; [done| |apply P]. intros x _. unfold in_front. rewrite (permuted_lits_eq _ _ _ _ Pe).
    destruct Hc as [[-> ->]|[-> ->]]; tauto.
  - unfold lvl. rewrite (pe_level _ _ _ _ Pe). apply P.
Qed.

Lemma upd_clause_permuted s off f : off < length (m_cls s) -> 3 < length (lits_of off s) ->
  m_lits (f (get_clause off s)) ≡ₚ lits_of off s -> m_removed (f (get_clause off s)) = m_removed (get_clause off s) ->
  permuted s (upd_clause off f s) off (f (get_clause off s)).
Proof.
  intros Hoff Hlen Hp Hr. split; try done. unfold upd_clause. cbn [m_cls set_cls].
  destruct (lookup_lt_is_Some_2 _ _ Hoff) as [c Hc]. unfold get_clause. rewrite (list_lookup_total_correct _ _ _ Hc).
  apply list_eq. intros j. destruct (decide (j = off)) as [->|Hj].
  - by rewrite list_lookup_alter_eq, list_lookup_insert_eq, Hc by done.
  - by rewrite list_lookup_alter_ne, list_lookup_insert_ne by done.
Qed.

(** The lists after a watch of [l] has moved to that of [neg x]. *)
Lemma moved_view kept b c0 off todo s su x : (forall y, get_wlist y su = get_wlist y s) -> sized su -> in_vars su x -> neg x <> l ->
  let s' := push_watch (neg x) (CLAUSE c0 off) su in
  CLAUSE c0 off ∈ view l (kept ++ todo) s' (neg x)
  /\ (forall w, w ∈ kept -> w ∈ view l (kept ++ todo) s' l)
  /\ (forall y w, w ∈ view l (kept ++ todo) s' y ->
        w ∈ view l (kept ++ CLAUSE b off :: todo) s y \/ (y = neg x /\ w = CLAUSE c0 off))
  /\ (forall y w, w ∈ view l (kept ++ CLAUSE b off :: todo) s y ->
        w ∈ view l (kept ++ todo) s' y \/ (y = l /\ w = CLAUSE b off)).
Proof.
  intros Eg Hsz Hx Hnl. cbn zeta.
  assert (Ev : forall y, view l (kept ++ todo) (push_watch (neg x) (CLAUSE c0 off) su) y
     = if decide (y = l) then kept ++ todo else if decide (y = neg x) then get_wlist y s ++ [CLAUSE c0 off] else get_wlist y s).
  { intros y. unfold view. case_decide as E; [done|]. rewrite get_push_watch; [|done|by apply in_vars_neg].
    rewrite !Eg. case_decide as E'; [by subst|done]. }
  split_and!.
  - rewrite Ev, decide_False, decide_True by done. set_solver.
  - intros w Hw. rewrite Ev, decide_True by done. set_solver.
  - intros y w. rewrite Ev. unfold view. case_decide; [set_solver|]. case_decide; set_solver.
  - intros y w. rewrite Ev. unfold view. case_decide; [set_solver|]. case_decide; set_solver.
Qed.

(** A watch of [l] moves to the literal at position [2 + k]. *)
Lemma pass_move kept b off todo s k x : pass kept (CLAUSE b off :: todo) s -> off < length (m_cls s) ->
  3 < length (lits_of off s) -> lits_of off s !!! 1 = neg l -> lits_of off s !! (2 + k) = Some x -> value x s <> l_false ->
  value (lits_of off s !!! 0) s <> l_true ->
  pass kept todo (push_watch (neg x) (CLAUSE (lits_of off s !!! 0) off)
    (upd_clause off (set_lits (<[2 + k := neg l]> (<[1 := x]> (lits_of off s)))) s)).
Proof.
  intros P Hoff Hlen H1 Hx Hval H0. pose proof (pass_clause _ _ _ _ P Hoff) as (Hnd & Hv & _). set (c := lits_of off s) in *.
  destruct (exchange_perm c k x (neg l) Hlen H1 Hx) as (r & Ec & Hperm). rewrite Ec.
  set (su := upd_clause off (set_lits (c !!! 0 :: x :: r)) s). set (w' := CLAUSE (c !!! 0) off).
  set (s' := push_watch (neg x) w' su). set (c' := set_lits (c !!! 0 :: x :: r) (get_clause off s)).
  pose proof (upd_clause_permuted s off (set_lits (c !!! 0 :: x :: r)) Hoff Hlen Hperm eq_refl) as Pu. fold c' su in Pu.
  assert (Pe : permuted s s' off c') by (destruct Pu; by split).
  assert (Hxv : in_vars s x) by (rewrite Forall_forall in Hv; by eapply Hv, list_elem_of_lookup_2).
  assert (Htl : value l s = l_true) by (by eapply pass_true).
  assert (Hnl : neg x <> l).
  { intros E. apply Hval. rewrite <- (neg_involutive x), E. rewrite (as_neg s), Htl; [done|apply P|]. by rewrite <- E, in_vars_neg. }
  assert (H0l : neg (c !!! 0) <> l).
  { intros E. rewrite (front c) in Hnd by done. rewrite H1, <- E, neg_involutive in Hnd. inversion Hnd; set_solver. }
  destruct (moved_view kept b (c !!! 0) off todo s su x) as (Hnewin & Hkept & Hmem & Hmem'); try done.
  { apply (permuted_sized _ _ _ _ Pu); [by left|apply P]. }
  fold w' s' in Hnewin, Hkept, Hmem, Hmem'.
  assert (Hsame : forall y w, (forall b', w <> CLAUSE b' off) ->
     w ∈ view l (kept ++ todo) s' y <-> w ∈ view l (kept ++ CLAUSE b off :: todo) s y).
  { intros y w Hne. split; intros Hw; [apply Hmem in Hw as [|[_ ->]]|apply Hmem' in Hw as [|[_ ->]]]; try done;
      by destruct (Hne _ eq_refl). }
  assert (Hgood : forall p y w, w ∈ view l (kept ++ todo) s' y -> y ∈ m_trail s ->
     (w ∈ view l (kept ++ CLAUSE b off :: todo) s y -> good s p y w) -> good s' p y w).
  { intros p y w Hw Hy Hg. destruct (Hmem y w Hw) as [Hold|[-> ->]].
    - specialize (Hg Hold). destruct w as [| |b' o]; [by eapply permuted_good..|].
      destruct (decide (o = off)) as [->|Hne]; [|eapply permuted_good; [done|congruence|done]].
      intros Hor. rewrite (permuted_lits_eq _ _ _ _ Pe) in Hor. simpl in Hor. destruct Hor as [E|E].
      + apply (permuted_good_true _ _ _ _ Pe p y b'); [apply Hg; by left|].
        rewrite (permuted_lits_eq _ _ _ _ Pe). by left.
      + destruct Hval. rewrite E. apply false_trail; [apply P..|]. by rewrite neg_involutive.
    - destruct Hval. apply false_trail; [apply P..|done]. }
  pose proof (li_attached _ _ (pa_linked _ _ _ P) off Hoff) as Hatt. unfold attached in Hatt. fold c in Hatt.
  rewrite decide_False in Hatt by lia. destruct Hatt as [[b0 Hb0] _].
  split.
  - eapply permuted_sized; [exact Pe| |apply P]. right. unfold s', push_watch, set_wlist. cbn. by rewrite length_insert.
  - eapply permuted_assigned; [exact Pe|apply P].
  - eapply (permuted_linked _ _ _ _ Pe); [exact Hsame| | | |apply P].
    + intros y b' Hy. destruct (Hmem y _ Hy) as [Hold|[-> [= ->]]].
      * split; [eapply li_vars; [apply P|done]|]. by pose proof (li_watch _ _ (pa_linked _ _ _ P) _ _ Hold) as (_ & ? & _).
      * rewrite in_vars_neg. split; [done|]. by apply front_in.
    + exists b0. simpl. destruct (Hmem' _ _ Hb0) as [|[E _]]; done.
    + by exists (c !!! 0).
  - rewrite (pe_trail _ _ _ _ Pe). apply P.
  - intros p y w Hp. rewrite (pe_trail _ _ _ _ Pe). intros Hy Hw. apply Hgood; [done|by eapply list_elem_of_lookup_2|].
    by apply (pa_proc _ _ _ P).
  - intros w Hw. apply Hgood; [by apply Hkept|eapply list_elem_of_lookup_2, P|].
    intros _. by apply (pa_kept _ _ _ P).
  - intros a. rewrite <- (pa_holds _ _ _ P). by eapply permuted_holds.
  - intros a Hh Ht. unfold trail_holds. rewrite (pe_trail _ _ _ _ Pe). by apply (pa_trail _ _ _ P).
  - rewrite (pe_trail _ _ _ _ Pe). apply P.
  - eapply unmoved_trans; [apply P|]. by split.
  - apply P.
  - eapply permuted_levels; [done|apply P].
  - unfold lvl. rewrite (pe_level _ _ _ _ Pe), (pe_scope _ _ _ _ Pe). apply P.
  - eapply permuted_reasons; [done| |apply P]. intros y Hy. apply trail_value in Hy; [|apply P]. intros [E|E]; fold c in E.
    + by rewrite E in H0.
    + rewrite H1 in E. subst y. rewrite (as_neg s), Htl in Hy; [done|apply P|]. eapply trail_vars; [apply P|by eapply pass_in_trail].
  - unfold lvl. rewrite (pe_level _ _ _ _ Pe). apply P.
Qed.

(** The watch gets another blocked literal. *)
Lemma pass_reblock kept b b' off todo s : pass kept (CLAUSE b off :: todo) s -> off < length (m_cls s) ->
  b' ∈ lits_of off s -> (exists x, x ∈ lits_of off s /\ settles s l x) -> pass (kept ++ [CLAUSE b' off]) todo s.
Proof.
  intros P Hoff Hb Htrue. assert (Hin : CLAUSE b off ∈ kept ++ CLAUSE b off :: todo) by set_solver.
  destruct (pass_in _ _ _ _ P Hin) as [Hl (_ & _ & Hlen)].
  assert (Pe : permuted s s off (get_clause off s)).
  { split; try done. symmetry. apply list_insert_id. unfold get_clause. by apply list_lookup_lookup_total_lt. }
  assert (Hsame : forall y w, (forall c, w <> CLAUSE c off) ->
     w ∈ view l ((kept ++ [CLAUSE b' off]) ++ todo) s y <-> w ∈ view l (kept ++ CLAUSE b off :: todo) s y).
  { intros y w Hne. unfold view. case_decide; [|done]. rewrite <- app_assoc. set_solver. }
  assert (Hnew : forall y w, w ∈ view l ((kept ++ [CLAUSE b' off]) ++ todo) s y ->
     w ∈ view l (kept ++ CLAUSE b off :: todo) s y \/ (y = l /\ w = CLAUSE b' off)).
  { intros y w. unfold view. case_decide; [|by left]. rewrite <- app_assoc. set_solver. }
  assert (Hatt : forall y c, CLAUSE c off ∈ view l (kept ++ CLAUSE b off :: todo) s y ->
     exists c', CLAUSE c' off ∈ view l ((kept ++ [CLAUSE b' off]) ++ todo) s y).
  { intros y c Hy. unfold view in *. case_decide; [|by exists c]. exists b'. set_solver. }
  pose proof (li_attached _ _ (pa_linked _ _ _ P) off Hoff) as Ha. unfold attached in Ha.
  rewrite decide_False in Ha by lia. destruct Ha as [[b0 Hb0] [b1 Hb1]].
  split; try apply P.
  - eapply (permuted_linked _ _ _ _ Pe); [exact Hsame| | | |apply P].
    + intros y c Hy. apply Hnew in Hy as [Hy|[-> [= ->]]]; [|done].
      split; [eapply li_vars; [apply P|done]|]. by pose proof (li_watch _ _ (pa_linked _ _ _ P) _ _ Hy) as (_ & ? & _).
    + by eapply Hatt.
    + by eapply Hatt.
  - intros p y w Hp Hy Hw. apply Hnew in Hw as [Hw|[-> ->]]; [by apply (pa_proc _ _ _ P)|]. intros _. done.
  - intros w. rewrite elem_of_app, list_elem_of_singleton. intros [Hw| ->]; [by apply (pa_kept _ _ _ P)|]. intros _. done.
  - intros a. rewrite <- (pa_holds _ _ _ P). by eapply (permuted_holds _ _ _ _ Pe).
Qed.

(** After the swap the literal that became false is not the first. *)
Lemma pass_swap kept b off todo s : pass kept (CLAUSE b off :: todo) s -> off < length (m_cls s) -> 3 < length (lits_of off s) ->
  let s1 := if decide (m_lits (get_clause off s) !!! 0 = neg l)
            then upd_clause off (fun c => set_lits (swap 0 1 (m_lits c)) c) s else s in
  pass kept (CLAUSE b off :: todo) s1 /\ lits_of off s1 ≡ₚ lits_of off s /\ lits_of off s1 !!! 0 <> neg l /\ off < length (m_cls s1).
Proof.
  intros P Hoff Hlen. cbn zeta. pose proof (pass_clause _ _ _ _ P Hoff) as (Hnd & _ & _). case_decide as E; [|done].
  assert (Pe : permuted s (upd_clause off (fun c => set_lits (swap 0 1 (m_lits c)) c) s) off
      (set_lits (swap 0 1 (lits_of off s)) (get_clause off s))).
  { apply (upd_clause_permuted s off (fun c => set_lits (swap 0 1 (m_lits c)) c)); try done. apply swap_01_perm. lia. }
  split; [|split; [|split]].
  - eapply pass_permute; [exact P|exact Pe|done|by split|done|]. right. simpl.
    rewrite swap_lookup_0, swap_lookup_1 by lia. done.
  - by eapply permuted_lits.
  - rewrite (permuted_lits_eq _ _ _ _ Pe). simpl. rewrite swap_lookup_0 by lia. change (lits_of off s !!! 0 = neg l) in E.
    rewrite <- E. rewrite (front (lits_of off s)) in Hnd |- * by done. simpl. inversion Hnd as [|? ? Hn _]; subst. set_solver.
  - by rewrite (permuted_length _ _ _ _ Pe).
Qed.

Lemma nary_step kept b off todo s : pass kept (CLAUSE b off :: todo) s ->
  step_ok kept (CLAUSE b off) todo (propagate_nary (neg l) (CLAUSE b off) off s).
Proof.
  intros P. assert (Hin : CLAUSE b off ∈ kept ++ CLAUSE b off :: todo) by set_solver.
  destruct (pass_in _ _ _ _ P Hin) as [Hl (Hoff & Hb & Hlen)]. unfold propagate_nary.
  pose proof (pass_swap kept b off todo s P Hoff Hlen) as H1. cbn zeta in H1. set (s1 := if decide _ then _ else s) in *.
  clearbody s1. destruct H1 as (P1 & Hperm & H0 & Hoff1). clear P.
  pose proof (pass_clause _ _ _ _ P1 Hoff1) as (Hnd & Hv & Hr).
  assert (Hlen1 : 3 < length (lits_of off s1)) by by rewrite Hperm.
  cbv zeta. change (m_lits (get_clause off s1)) with (lits_of off s1). rewrite Hr.
  destruct (Nat.eqb_spec (length (lits_of off s1)) 1) as [|_]; [lia|]. simpl orb.
  case_bool_decide as E1; cbn [step_ok].
  { apply pass_keep; [done|]. intros [|]; done. }
  assert (Hl1 : lits_of off s1 !!! 1 = neg l) by (by destruct (decide (lits_of off s1 !!! 1 = neg l))).
  destruct (decide (value (lits_of off s1 !!! 0) s1 = l_true)) as [E2|E2]; cbn [step_ok].
  { apply (pass_reblock _ b); try done; [by apply front_in|]. exists (lits_of off s1 !!! 0).
    split; [by apply front_in|by eapply pass_settles]. }
  destruct (find_non_false 2 (drop 2 (lits_of off s1)) s1) as [i|] eqn:E3; cbn [step_ok].
  { destruct (find_non_false_some _ _ _ _ E3) as (k & x & -> & Hk & Hx). rewrite lookup_drop in Hk.
    rewrite (list_lookup_total_correct _ _ _ Hk). by eapply pass_move. }
  pose proof (upd_clause_permuted s1 off mark_used Hoff1 Hlen1 (reflexivity _) eq_refl) as Pe.
  assert (P2 : pass kept (CLAUSE b off :: todo) (upd_clause off mark_used s1)).
  { eapply pass_permute; [exact P1|exact Pe|done|by split|done|]. by left. }
  set (s2 := upd_clause off mark_used s1) in *. apply find_non_false_none in E3.
  destruct (pass_in _ _ _ _ P2 Hin) as [Hl2 _].
  assert (E2' : lits_of off s2 = lits_of off s1) by exact (permuted_lits_eq _ _ _ _ Pe).
  assert (Hrest : Forall (fun y => value y s2 = l_false) (neg l :: drop 2 (lits_of off s1))).
  { constructor; [|exact E3]. rewrite (as_neg s2); [|apply P2|exact Hl2]. by rewrite (pass_true _ _ _ P2). }
  assert (Hunit : forall a, holds (view l (kept ++ CLAUSE b off :: todo) s2) s2 a -> trail_holds s2 a ->
     lit_val a (lits_of off s1 !!! 0) = true).
  { intros a Hh Ht. eapply (clause_unit a s2); [done|apply P2..|exact Hrest|]. rewrite <- Hl1, <- front, <- E2' by done.
    eapply holds_lits; [done|]. by rewrite (permuted_length _ _ _ _ Pe). }
  pose proof (pass_in_trail _ _ _ P2) as Hlt.
  assert (Hoff2 : off < length (m_cls s2)) by by rewrite (permuted_length _ _ _ _ Pe).
  assert (Hex : forall y, y ∈ lits_of off s2 -> y = lits_of off s1 !!! 0 \/ neg y ∈ m_trail s2).
  { intros y. rewrite E2', (front (lits_of off s1)), Hl1 by done. rewrite elem_of_cons. intros [->|Hy]; [by left|right].
    rewrite Forall_forall in Hrest. specialize (Hrest y Hy). apply false_trail in Hrest; [done|apply P2..]. }
  destruct (decide (value (lits_of off s1 !!! 0) s2 = l_false)) as [E4|E4]; cbn [step_ok].
  - eapply pass_conflict; [done|split; [done| |]|].
    { split_and!; [done..|]. intros y Hy _. destruct (Hex y Hy) as [->|]; [|done]. apply false_trail in E4; [done|apply P2..]. }
    { exists l. split_and!; [done|apply P2|right]. simpl. rewrite E2', (front (lits_of off s1)), Hl1 by done. set_solver. }
    intros a Hh Ht. specialize (Hunit a Hh Ht).
    rewrite (trail_false a s2 _ Ht) in Hunit by (done || apply P2). done.
  - assert (Hv0 : in_vars s2 (lits_of off s1 !!! 0)).
    { rewrite Forall_forall in Hv. by apply (Hv (lits_of off s1 !!! 0)), front_in. }
    destruct (pass_assign _ _ _ _ (J_CLAUSE off) P2 Hv0) as (P3 & Ht & _); [| |exact Hunit|].
    { change (value (lits_of off s1 !!! 0) s2) with (value (lits_of off s1 !!! 0) s1) in *. by destruct (value _ s1). }
    { split_and!; [done| |].
      - intros x [= <-]. left. by rewrite E2'.
      - intros y Hy Hne. destruct (Hex y Hy) as [->|]; [|done]. done. }
    apply pass_keep; [done|]. intros _. exists (lits_of off s1 !!! 0). split; [|by eapply pass_settles].
    change (lits_of off (assign_core (lits_of off s1 !!! 0) (J_CLAUSE off) s2)) with (lits_of off s2).
    rewrite E2'. by apply front_in.
Qed.

Lemma pass_watch kept w todo s : pass kept (w :: todo) s -> step_ok kept w todo (propagate_watch (neg l) w s).
Proof.
  intros P. destruct w as [l1 b|l1 l2|b off]; [by apply binary_step|by apply ternary_step|].
  simpl. case_decide as E; [|by apply nary_step]. cbn [step_ok]. apply pass_keep; [done|]. intros _.
  exists b. split; [|by eapply pass_settles]. assert (Hin : CLAUSE b off ∈ kept ++ CLAUSE b off :: todo) by set_solver.
  by destruct (pass_in _ _ _ _ P Hin) as (_ & _ & ? & _).
Qed.

(** A pass over the list. *)
Lemma wlist_ok todo : forall kept s, pass kept todo s ->
  let '(ok, wl, s') := propagate_wlist (neg l) todo s in
  if ok : bool then pass (kept ++ wl) [] s' else stopped (kept ++ wl) s'.
Proof.
  induction todo as [|w todo IH]; intros kept s P; simpl; [by rewrite app_nil_r|].
  pose proof (pass_watch _ _ _ _ P) as Hstep. destruct (propagate_watch (neg l) w s) as [[w'| |] s']; cbn [step_ok] in Hstep.
  - specialize (IH _ _ Hstep). destruct (propagate_wlist (neg l) todo s') as [[ok wl] s'']. by rewrite <- app_assoc in IH.
  - by apply IH.
  - done.
Qed.
End Pass.

(** ** The whole propagation *)

(** The state [s'] says the same as [s], and its trail has grown by consequences. *)
Record follows (s s' : solver) : Prop := {
  fo_holds a : holds (wlists s') s' a <-> holds (wlists s) s a;
  fo_trail a : holds (wlists s) s a -> trail_holds s a -> trail_holds s' a;
  fo_prefix : m_trail s `prefix_of` m_trail s';
  fo_vars : num_vars s' = num_vars s;
  fo_lvl : m_scope_lvl s' = m_scope_lvl s;
  fo_user : m_user_scope_literals s' = m_user_scope_literals s;
  fo_scopes : m_scopes s' = m_scopes s;
  fo_reinit : m_clauses_to_reinit s' = m_clauses_to_reinit s;
  fo_old x : x ∈ m_trail s -> lvl x s' = lvl x s;
  fo_new p x : length (m_trail s) <= p -> m_trail s' !! p = Some x -> lvl x s' = Z.of_nat (m_scope_lvl s);
}.

Lemma no_new_literals (s : solver) p x : length (m_trail s) <= p -> m_trail s !! p <> Some x.
Proof. intros Hp Hx%lookup_lt_Some. lia. Qed.

Lemma follows_refl s : follows s s.
Proof. split; try done. by intros p x Hp Hx%no_new_literals. Qed.

(** Literals of a longer trail that were assigned in two stages. *)
Lemma new_trans s1 s2 s3 : m_trail s2 `prefix_of` m_trail s3 -> m_scope_lvl s2 = m_scope_lvl s1 ->
  (forall x, x ∈ m_trail s2 -> lvl x s3 = lvl x s2) ->
  (forall p x, length (m_trail s1) <= p -> m_trail s2 !! p = Some x -> lvl x s2 = Z.of_nat (m_scope_lvl s1)) ->
  (forall p x, length (m_trail s2) <= p -> m_trail s3 !! p = Some x -> lvl x s3 = Z.of_nat (m_scope_lvl s2)) ->
  forall p x, length (m_trail s1) <= p -> m_trail s3 !! p = Some x -> lvl x s3 = Z.of_nat (m_scope_lvl s1).
Proof.
  intros [k E] El Ho H1 H2 p x Hp Hx. destruct (decide (p < length (m_trail s2))) as [Hlt|Hge]; [|rewrite <- El; apply (H2 p); [lia|done]].
  rewrite E, lookup_app_l in Hx by done. rewrite (Ho x (list_elem_of_lookup_2 _ _ _ Hx)). by apply (H1 p).
Qed.

Lemma follows_trans s1 s2 s3 : follows s1 s2 -> follows s2 s3 -> follows s1 s3.
Proof.
  intros H1 H2. split; [|intros a Ha Ht; apply H2; [by apply H1|by apply H1]|etrans; [apply H1|apply H2]|..].
  1: intros a; by rewrite (fo_holds _ _ H2), (fo_holds _ _ H1).
  6: intros x Hx; rewrite <- (fo_old _ _ H1) by done; apply (fo_old _ _ H2); destruct (fo_prefix _ _ H1) as [k ->]; set_solver.
  6: apply (new_trans s1 s2 s3); [apply H2|apply H1|apply H2|apply H1|apply H2].
  all: destruct H1, H2; congruence.
Qed.

Lemma prefix_says s s' a : (holds (wlists s') s' a -> holds (wlists s) s a) -> m_trail s `prefix_of` m_trail s' ->
  (forall x, x ∈ m_trail s -> lvl x s' = lvl x s) -> says s' a -> says s a.
Proof.
  intros Hh [k E] Hl [H1 H2]. split; [by apply Hh|]. intros l Hin H0. apply H2; [rewrite E; set_solver|]. by rewrite Hl.
Qed.

(** What propagation leaves when it finds a conflict. *)
Record conflicting (s s' : solver) : Prop := {
  cf_sized : sized s';
  cf_assigned : assigned s';
  cf_linked : linked (wlists s') s';
  cf_inconsistent : m_inconsistent s' = true;
  cf_holds a : holds (wlists s') s' a <-> holds (wlists s) s a;
  cf_conflict a : holds (wlists s) s a -> trail_holds s a -> False;
  cf_prefix : m_trail s `prefix_of` m_trail s';
  cf_vars : num_vars s' = num_vars s;
  cf_lvl : m_scope_lvl s' = m_scope_lvl s;
  cf_user : m_user_scope_literals s' = m_user_scope_literals s;
  cf_scopes : m_scopes s' = m_scopes s;
  cf_reinit : m_clauses_to_reinit s' = m_clauses_to_reinit s;
  cf_levels : levels s';
  cf_reasons : reasons (says s') s';
  cf_refutes : refutes (says s') s' (m_conflict s') (m_not_l s');
  cf_old x : x ∈ m_trail s -> lvl x s' = lvl x s;
  cf_new p x : length (m_trail s) <= p -> m_trail s' !! p = Some x -> lvl x s' = Z.of_nat (m_scope_lvl s);
  cf_lower : lower_processed s';
}.

Lemma conflicting_after s1 s2 s3 : follows s1 s2 -> conflicting s2 s3 -> conflicting s1 s3.
Proof.
  intros F C. split; try apply C.
  - intros a. by rewrite (cf_holds _ _ C), (fo_holds _ _ F).
  - intros a Hh Ht. eapply (cf_conflict _ _ C); [by apply F|by apply F].
  - etrans; [apply F|apply C].
  - rewrite (cf_vars _ _ C). apply F.
  - rewrite (cf_lvl _ _ C). apply F.
  - rewrite (cf_user _ _ C). apply F.
  - rewrite (cf_scopes _ _ C). apply F.
  - rewrite (cf_reinit _ _ C). apply F.
  - intros x Hx. rewrite <- (fo_old _ _ F) by done. apply C. destruct (fo_prefix _ _ F) as [k ->]. set_solver.
  - apply (new_trans s1 s2 s3); [apply C|apply F|apply C|apply F|apply C].
Qed.

Lemma inv_grown s s' : inv s -> grown s s' ->
  (forall p x, length (m_trail s) <= p -> m_trail s' !! p = Some x -> (0 < lvl x s')%Z -> reason (says s) s' p x) -> inv s'.
Proof.
  intros [Hs Ha Hl Hq Hp Hv Hr] G Hn. pose proof (grown_wlists _ _ G) as Ew.
  assert (E : forall l w, w ∈ wlists s l <-> w ∈ wlists s' l) by (intros; by rewrite Ew).
  split; try apply G.
  - eapply linked_ext; [exact E|]. by eapply grown_linked.
  - rewrite (sc_qhead _ _ (gr_same _ _ G)). destruct (gr_trail _ _ G) as [k ->]. rewrite length_app. lia.
  - rewrite (sc_qhead _ _ (gr_same _ _ G)). eapply processed_ext; [intros l w; apply E|]. by eapply grown_processed.
  - by eapply grown_levels.
  - eapply reasons_impl; [|by eapply grown_reasons]. intros a. apply prefix_says; [|apply G|intros x; apply (gr_old _ _ G)].
    intros Ha'. apply (grown_holds _ _ G). by eapply holds_same_watches, Ha'.
Qed.

(** At the base level nothing needs a reason. *)
Lemma inv_grown_base s s' : at_base_lvl s = true -> inv s -> grown s s' -> inv s'.
Proof.
  intros Hb%Nat.eqb_eq I G. eapply inv_grown; [done..|]. intros p x Hp Hx. rewrite (gr_new _ _ G p x Hp Hx). lia.
Qed.

(** A literal that is supported is assigned. *)
Lemma assign_core_inv l j s : inv s -> in_vars s l -> value l s = l_undef -> supports (says s) s l j ->
  inv (assign_core l j s).
Proof.
  intros I Hl Hu Hj. pose proof (assign_core_grown l j s (inv_sized _ I) (inv_assigned _ I) Hl Hu) as G.
  pose proof (assign_core_reasons _ l j s (inv_sized _ I) (inv_assigned _ I) Hl Hu Hj (inv_reasons _ I)) as Hr.
  eapply inv_grown; [done..|]. intros p x _. apply Hr.
Qed.

(** A decision. *)
Lemma decide_inv l s : inv s -> in_vars s l -> value l s = l_undef ->
  (forall y, y ∈ m_trail s -> (lvl y s < Z.of_nat (m_scope_lvl s))%Z) -> inv (assign_core l J_NONE s).
Proof. intros I Hl Hu Hd. apply assign_core_inv; try done. right. by right. Qed.

(** The trail is as it was. *)
Lemma inv_still s s' : inv s -> grown s s' -> m_trail s' = m_trail s -> inv s'.
Proof. intros I G E. eapply inv_grown; [done..|]. rewrite E. intros p x Hp Hx%lookup_lt_Some. lia. Qed.

Lemma grown_follows_holds s s' a : inv s -> grown s s' -> holds (wlists s') s' a <-> holds (wlists s) s a.
Proof.
  intros I G. pose proof (grown_wlists _ _ G) as Ew. rewrite (holds_same_watches _ (wlists s) s' a) by (intros; by rewrite Ew). by apply grown_holds.
Qed.

Lemma grown_follows s s' : inv s -> grown s s' ->
  (forall a, holds (wlists s) s a -> trail_holds s a -> trail_holds s' a) -> follows s s'.
Proof.
  intros I G Ht. split; try apply G; [|done]. intros a. by apply grown_follows_holds.
Qed.

(** Putting the list of [l] back. *)
Section PutBack.
Context (s : solver) (l : literal) (wl : list watched) (Hs : sized s) (Hl : in_vars s l).

Lemma put_back_view x : wlists (set_wlist l wl s) x = view l wl s x.
Proof. unfold wlists, view. by rewrite get_set_wlist. Qed.

Lemma put_back_sized : sized (set_wlist l wl s).
Proof. destruct Hs as [H1 H2 H3]. split; [|done..]. simpl. by rewrite length_insert. Qed.

Lemma put_back_assigned : assigned s -> assigned (set_wlist l wl s).
Proof. intros [H1 H2 H3]. by split. Qed.

Lemma put_back_levels : levels s -> levels (set_wlist l wl s).
Proof. intros [H1 H2 H3]. by split. Qed.

Lemma put_back_linked : linked (view l wl s) s -> linked (wlists (set_wlist l wl s)) (set_wlist l wl s).
Proof.
  intros H. apply (linked_ext (view l wl s)); [intros; by rewrite put_back_view|]. destruct H as [H1 H2 H3 H4 H5].
  split; try done. eapply Forall_impl; [exact H4|]. by intros c [].
Qed.

Lemma put_back_holds a : holds (wlists (set_wlist l wl s)) (set_wlist l wl s) a <-> holds (view l wl s) s a.
Proof. refine (holds_same_watches _ _ s a _). intros. by rewrite put_back_view. Qed.
End PutBack.

Lemma literal_ok s : inv s -> m_inconsistent s = false -> m_qhead s < length (m_trail s) ->
  let '(ok, s') := propagate_literal (m_trail s !!! m_qhead s) (set_qhead (S (m_qhead s)) s) in
  if ok : bool then inv s' /\ m_inconsistent s' = false /\ m_qhead s' = S (m_qhead s) /\ follows s s'
  else conflicting s s'.
Proof.
  intros [Hs Ha Hl Hq Hp Hlv' Hr] Hi Hlt. set (l := m_trail s !!! m_qhead s). set (s0 := set_qhead (S (m_qhead s)) s).
  destruct (lookup_lt_is_Some_2 _ _ Hlt) as [x Hx].
  assert (Elx : m_trail s !! m_qhead s = Some l) by (unfold l; by rewrite (list_lookup_total_correct _ _ _ Hx)).
  assert (Hlv : in_vars s l) by (eapply trail_vars; [done|by eapply list_elem_of_lookup_2]).
  assert (P0 : pass s0 (wlists s0) l (m_qhead s) (says s) [] (get_wlist l s0) s0).
  { assert (Ev : forall y w, w ∈ wlists s y <-> w ∈ view l ([] ++ get_wlist l s0) s0 y) by (intros; by rewrite (view_same l s0)).
    pose proof (lv_head _ Hlv' _ _ (le_n _) Elx) as Hcur. destruct Hs, Ha, Hlv' as [R1 R2 R3]. split; try done.
    - eapply linked_ext; [exact Ev|]. destruct Hl as [? ? ? Hc ?]. split; try done.
      eapply Forall_impl; [exact Hc|]. by intros c [].
    - intros p y w Hpq Hy Hw. apply (Hp p y w Hpq Hy). by apply Ev.
    - intros w Hw. by apply elem_of_nil in Hw.
    - intros a. symmetry. by apply holds_same_watches.
    - split; [done..|]. intros p y Hpq. apply R3. simpl in Hpq. lia. }
  unfold propagate_literal. pose proof (wlist_ok s0 (wlists s0) l (m_qhead s) (says s) (fun a => @proj1 _ _) _ _ _ P0) as Hok.
  destruct (propagate_wlist (neg l) (get_wlist l s0) s0) as [[ok wl] s'].
  assert (Hin : forall s', frame s0 s' -> in_vars s' l) by (intros s1 F; unfold in_vars; by rewrite (fr_vars _ _ F)).
  assert (Hnew : forall s1, levels s1 -> m_trail s1 !! m_qhead s = Some l -> lvl l s1 = Z.of_nat (m_scope_lvl s1) ->
    m_scope_lvl s1 = m_scope_lvl s -> forall p x, length (m_trail s) <= p -> m_trail s1 !! p = Some x -> lvl x s1 = Z.of_nat (m_scope_lvl s)).
  { intros s1 Lv Hpos Hcur El p y Hlen Hy. pose proof (lv_sorted _ Lv (m_qhead s) p l y ltac:(lia) Hpos Hy).
    pose proof (lv_range _ Lv y (list_elem_of_lookup_2 _ _ _ Hy)). rewrite <- El. lia. }
  destruct ok; simpl in Hok.
  - destruct Hok as [Ss Sa Sl Sp Sproc Sk Sh St Spre Sf Si Slv Scur Sr So]. simpl in Sl, Sproc, Sh, Sk.
    rewrite app_nil_r in Sl, Sproc. specialize (Hin _ Sf).
    assert (Hh : forall a, holds (wlists (set_wlist l wl s')) (set_wlist l wl s') a <-> holds (wlists s) s a).
    { intros a. rewrite put_back_holds, <- (app_nil_r wl) by done. apply Sh. }
    assert (Eq : m_qhead s' = S (m_qhead s)) by apply Sf. split_and!; [|done|done|].
    + split; [by apply put_back_sized|by apply put_back_assigned|by apply put_back_linked| | |by apply put_back_levels|].
      * simpl. rewrite Eq. by eapply lookup_lt_Some.
      * simpl. rewrite Eq. intros p y w Hpq Hy Hw. rewrite put_back_view in Hw by done. change (good s' p y w).
        destruct (decide (p = m_qhead s)) as [->|Hne]; [|apply Sproc; [lia|done..]].
        change (m_trail s' !! m_qhead s = Some y) in Hy. rewrite Sp in Hy. injection Hy as <-. apply Sk. by rewrite view_eq in Hw.
      * eapply reasons_impl; [|exact Sr]. intros a. apply prefix_says; [|exact Spre|exact So]. by apply Hh.
    + split; [exact Hh|exact St|exact Spre|apply Sf..|exact So|by apply (Hnew s'); try apply Sf].
  - destruct Hok as [Ss Sa Sl Sh Sc Spre Sf Si Slv Sr Srf So Sp Scur Spr]. simpl in Sl, Sh, Spr. specialize (Hin _ Sf).
    assert (Hh : forall a, holds (wlists (set_wlist l wl s')) (set_wlist l wl s') a <-> holds (wlists s) s a).
    { intros a. rewrite put_back_holds by done. apply Sh. }
    split; [by apply put_back_sized|by apply put_back_assigned|by apply put_back_linked|done|exact Hh|exact Sc|exact Spre|apply Sf..| | | |exact So|by apply (Hnew s'); try apply Sf|].
    + by apply put_back_levels.
    + eapply reasons_impl; [|exact Sr]. intros a. apply prefix_says; [apply Hh|exact Spre|exact So].
    + eapply refutes_impl; [|destruct Srf; by split]. intros a. apply prefix_says; [apply Hh|exact Spre|exact So].
    + intros p y w Hy Hly Hw. rewrite put_back_view in Hw by done. change (good s' p y w). change (m_trail s' !! p = Some y) in Hy.
      change (lvl y s' < Z.of_nat (m_scope_lvl s'))%Z in Hly. apply Spr; [|done..].
      destruct (decide (p < m_qhead s)); [done|]. pose proof (lv_sorted _ Slv (m_qhead s) p l y ltac:(lia) Sp Hy). lia.
Qed.

(** No clause is false or about to be: one that is not true has two open literals. *)
Definition no_unit (s : solver) : Prop :=
  (forall l l2 b, BINARY l2 b ∈ get_wlist l s -> value l s = l_true -> value l2 s = l_true)
  /\ (forall c, c ∈ m_cls s -> (exists x, x ∈ m_lits c /\ value x s = l_true)
        \/ exists x y, x ∈ m_lits c /\ y ∈ m_lits c /\ x <> y /\ value x s = l_undef /\ value y s = l_undef).

(** Once everything is propagated a true literal has all its watches settled. *)
Lemma settled s l w : inv s -> m_qhead s = length (m_trail s) -> value l s = l_true -> w ∈ wlists s l ->
  exists p, m_trail s !! p = Some l /\ good s p l w.
Proof.
  intros [Hs Ha _ _ Hp] Hq Hv Hw. apply true_trail in Hv; [|done..]. apply list_elem_of_lookup in Hv as [p Hl].
  exists p. split; [done|]. apply Hp; [|done..]. rewrite Hq. by eapply lookup_lt_Some.
Qed.

Lemma ternary_settled s c x y z : inv s -> m_qhead s = length (m_trail s) -> attached (wlists s) s c ->
  lits_of c s ≡ₚ [x; y; z] -> value x s = l_false -> value y s = l_false -> value z s = l_true.
Proof.
  intros I Hq Hatt Hp Hx Hy. pose proof (inv_sized _ I) as Hs. pose proof (inv_assigned _ I) as Ha.
  unfold attached in Hatt. rewrite (Permutation_length Hp) in Hatt. simpl in Hatt.
  assert (Hone : forall a b p q, value a s = l_false -> lits_of c s ≡ₚ [a; b; z] ->
    m_trail s !! p = Some (neg a) -> m_trail s !! q = Some (neg b) -> q < p -> value z s = l_true).
  { intros a b p q Hva Hab Hpa Hqb Hlt. destruct (Hatt a b z Hab) as (l1 & l2 & Hw & Hl).
    assert (Hna : value (neg a) s = l_true) by (apply true_trail; [done..|by eapply list_elem_of_lookup_2]).
    destruct (settled s (neg a) _ I Hq Hna Hw) as (p' & Hp' & Hg).
    assert (p' = p) as -> by (eapply NoDup_lookup; [apply (as_nodup _ Ha)|exact Hp'|exact Hpa]).
    assert (Hin : neg b ∈ take p (m_trail s)) by (apply list_elem_of_lookup; exists q; by rewrite lookup_take_lt).
    destruct Hg as [H1 H2]. symmetry in Hl. apply Permutation_length_2_inv in Hl as [[= -> ->]|[= -> ->]]; [by destruct (H1 Hin)|by destruct (H2 Hin)]. }
  pose proof Hx as Hx'. pose proof Hy as Hy'.
  apply false_trail in Hx'; [|done..]. apply list_elem_of_lookup in Hx' as [p Hxp].
  apply false_trail in Hy'; [|done..]. apply list_elem_of_lookup in Hy' as [q Hyq].
  destruct (Nat.lt_trichotomy p q) as [Hlt|[->|Hlt]].
  - eapply (Hone y x q p); try done. rewrite Hp. by constructor.
  - assert (x = y) as ->.
    { apply (inj neg). congruence. }
    assert (Hnd : NoDup (lits_of c s)).
    { destruct (decide (c < length (m_cls s))) as [Hc|Hc].
      - destruct (lookup_lt_is_Some_2 _ _ Hc) as [cl Hcl]. unfold lits_of, get_clause. rewrite (list_lookup_total_correct _ _ _ Hcl).
        eapply co_nodup, (Forall_lookup_1 _ _ _ _ (li_clause _ _ (inv_linked _ I)) Hcl).
      - exfalso. unfold lits_of, get_clause in Hp. rewrite list_lookup_total_alt, lookup_ge_None_2 in Hp by lia.
        by apply Permutation_nil_l in Hp. }
    rewrite Hp in Hnd. inversion Hnd; set_solver.
  - by eapply (Hone x y p q).
Qed.

Lemma complete_no_unit s : inv s -> m_qhead s = length (m_trail s) -> no_unit s.
Proof.
  intros I Hq. pose proof (inv_sized _ I) as Hs. pose proof (inv_assigned _ I) as Ha. split.
  - intros l l2 b Hw Hv. by destruct (settled s l _ I Hq Hv Hw) as (p & _ & [? _]).
  - intros c Hc. apply list_elem_of_lookup in Hc as [off Hoff]. pose proof (lookup_lt_Some _ _ _ Hoff) as Hlt.
    pose proof (Forall_lookup_1 _ _ _ _ (li_clause _ _ (inv_linked _ I)) Hoff) as [Hsz Hnd Hv _].
    pose proof (li_attached _ _ (inv_linked _ I) off Hlt) as Hatt.
    assert (Ec : lits_of off s = m_lits c) by (unfold lits_of, get_clause; by rewrite (list_lookup_total_correct _ _ _ Hoff)).
    destruct (decide (Exists (fun x => value x s = l_true) (m_lits c))) as [He|Hn]; [left; by apply Exists_exists in He|].
    right. assert (Hnt : forall x, x ∈ m_lits c -> value x s <> l_true).
    { intros x Hx Hv'. apply Hn, Exists_exists. by exists x. }
    destruct (decide (length (m_lits c) = 3)) as [E3|E3].
    + destruct (m_lits c) as [|x [|y [|z [|]]]] eqn:El; try done. simpl in *.
      assert (Hp : lits_of off s ≡ₚ [x; y; z]) by by rewrite Ec.
      assert (Hp2 : lits_of off s ≡ₚ [x; z; y]) by (rewrite Hp; solve_Permutation).
      assert (Hp3 : lits_of off s ≡ₚ [y; z; x]) by (rewrite Hp; solve_Permutation).
      pose proof (ternary_settled s off x y z I Hq Hatt Hp) as T1. pose proof (ternary_settled s off x z y I Hq Hatt Hp2) as T2.
      pose proof (ternary_settled s off y z x I Hq Hatt Hp3) as T3.
      pose proof (Hnt x ltac:(set_solver)). pose proof (Hnt y ltac:(set_solver)). pose proof (Hnt z ltac:(set_solver)).
      rewrite !NoDup_cons in Hnd. destruct Hnd as (Hx & Hy & _).
      destruct (value x s) eqn:Ex, (value y s) eqn:Ey, (value z s) eqn:Ez; try done;
        try (by destruct T1); try (by destruct T2); try (by destruct T3);
        let t a b := (exists a, b; split_and!; [set_solver|set_solver|set_solver|done|done]) in first [t x y|t x z|t y z].
    + unfold attached in Hatt. rewrite Ec, decide_False in Hatt by done. destruct Hatt as [[b0 H0] [b1 H1]].
      assert (Hfront : m_lits c = m_lits c !!! 0 :: m_lits c !!! 1 :: drop 2 (m_lits c)) by (apply front; lia).
      assert (Hopen : forall i b, i < 2 -> m_lits c !!! i ∈ m_lits c -> CLAUSE b off ∈ wlists s (neg (m_lits c !!! i)) ->
        value (m_lits c !!! i) s = l_undef).
      { intros i b Hi Hin Hw. pose proof (Hnt _ Hin) as Hnt'. destruct (value (m_lits c !!! i) s) eqn:Ev; [|done..].
        assert (Hneg : value (neg (m_lits c !!! i)) s = l_true).
        { apply true_trail; [done..|]. by apply false_trail in Ev. }
        destruct (settled s _ _ I Hq Hneg Hw) as (p & _ & Hg). rewrite <- Ec in Hg. simpl in Hg.
        destruct Hg as (x & Hx & [Hvx _]); [|rewrite Ec in Hx; by destruct (Hnt x Hx)].
        rewrite neg_involutive. destruct i as [|[|]]; [by left|by right|lia]. }
      exists (m_lits c !!! 0), (m_lits c !!! 1).
      assert (Hin0 : m_lits c !!! 0 ∈ m_lits c) by (rewrite Hfront at 2; set_solver).
      assert (Hin1 : m_lits c !!! 1 ∈ m_lits c) by (rewrite Hfront at 2; set_solver).
      split_and!; try done; [|eapply Hopen; [lia|done..]|eapply Hopen; [lia|done..]].
      rewrite Hfront in Hnd. inversion Hnd; set_solver.
Qed.

Section Loop.
Context `{Env}.

Lemma checkpoint_ok s : inv s -> m_inconsistent s = false ->
  spec (checkpoint s) (fun s' => inv s' /\ follows s s' /\ m_inconsistent s' = false
    /\ m_qhead s' = m_qhead s /\ m_trail s' = m_trail s).
Proof.
  intros I Hi st. assert (Hn : forall n, inv (set_num_checkpoints n s) /\ follows s (set_num_checkpoints n s)).
  { intros n. assert (G : grown s (set_num_checkpoints n s)) by (apply grown_still; try done; apply I).
    split; [by eapply inv_still|]. by apply grown_follows. }
  unfold checkpoint. destruct (canceled _) eqn:Ec; [right; eauto|].
  destruct (S (m_num_checkpoints s) <? 10); [by split_and!; try apply Hn|].
  destruct (Z.ltb_spec max_memory (alloc_size (m_ticks st))); [left; eauto|]. by split_and!; try apply Hn.
Qed.

(** What [propagate] yields. *)
Definition propagated (s : solver) (r : bool * solver) : Prop :=
  let '(ok, s') := r in
  if ok then inv s' /\ m_inconsistent s' = false /\ follows s s' /\ m_qhead s' = length (m_trail s') /\ no_unit s'
  else conflicting s s'.

Lemma propagate_loop_ok fuel : forall s, inv s -> m_inconsistent s = false -> num_vars s - m_qhead s < fuel ->
  spec (propagate_loop fuel s) (propagated s).
Proof.
  induction fuel as [|fuel IH]; intros s I Hi Hf; [lia|]. simpl.
  pose proof (inv_qhead _ I) as Hq. destruct (Nat.ltb_spec (m_qhead s) (length (m_trail s))) as [Hlt|Hge].
  - pose proof (trail_length s (inv_assigned _ I)) as Hlen.
    eapply spec_bind; [by apply checkpoint_ok|]. intros s1 (I1 & F1 & Hi1 & Eq1 & Et1). rewrite Hi1.
    assert (Hlt1 : m_qhead s1 < length (m_trail s1)) by (by rewrite Eq1, Et1).
    pose proof (literal_ok s1 I1 Hi1 Hlt1) as Hstep.
    destruct (propagate_literal _ _) as [[|] s2].
    + destruct Hstep as (I2 & Hi2 & Eq2 & F2). assert (F : follows s s2) by by eapply follows_trans.
      eapply spec_mono; [apply IH; [done|done|rewrite (fo_vars _ _ F), Eq2, Eq1; lia]|].
      intros [[|] s3]; simpl; [|by apply conflicting_after].
      intros (I3 & Hi3 & F3 & Hq3 & Hn3). split_and!; try done. by eapply follows_trans.
    + apply spec_ret. simpl. by eapply conflicting_after.
  - apply spec_ret. assert (m_qhead s = length (m_trail s)) by lia.
    split_and!; [done..|apply follows_refl|done|by apply complete_no_unit].
Qed.

Lemma propagate_ok s : inv s -> m_inconsistent s = false -> spec (propagate s) (propagated s).
Proof. intros I Hi. unfold propagate, propagate_core. rewrite Hi. apply propagate_loop_ok; [done|done|lia]. Qed.
End Loop.
