(* ===== verification/SatClauses.v ===== *)
(** * SatClauses: what adding variables and clauses does

    At the base level a new clause is first simplified, and then stored so that
    the assignments that satisfy the solver are those that satisfied it before and
    satisfy the clause.  [SolverCore] is what the translator of goals needs from a
    solver; [sat::solver] provides it. *)
From Stdlib Require Import ZArith Lia.
From stdpp Require Import base list sets sorting.
From S2P Require Import Prelude SatTypes SatSolver SatInv SatPropagate.
Import solver.

(** ** Variables *)

Lemma lookup_total_snoc_default {A} `{Inhabited A} (l k : list A) i : Forall (fun x => x = inhabitant) k -> (l ++ k) !!! i = l !!! i.
Proof.
  intros Hk. rewrite !list_lookup_total_alt. destruct (decide (i < length l)) as [Hi|Hi]; [by rewrite lookup_app_l|].
  rewrite lookup_app_r, (lookup_ge_None_2 l) by lia. simpl. destruct (k !! (i - length l)) as [x|] eqn:E; [|done].
  simpl. by apply (Forall_lookup_1 _ _ _ _ Hk E).
Qed.

Section NewVar.
Context (ext dvar : bool) (s : solver) (I : inv s).
Local Abbreviation s' := (mk_var ext dvar s).2.

Lemma mk_var_num : num_vars s' = S (num_vars s).
Proof. unfold num_vars. simpl. rewrite length_app. simpl. lia. Qed.

Lemma mk_var_wlist l : get_wlist l s' = get_wlist l s.
Proof. unfold get_wlist. simpl. apply lookup_total_snoc_default. by repeat constructor. Qed.

Lemma mk_var_value l : value l s' = value l s.
Proof. unfold value. simpl. apply lookup_total_snoc_default. by repeat constructor. Qed.

Lemma mk_var_in_vars l : in_vars s l -> in_vars s' l.
Proof. unfold in_vars. rewrite mk_var_num. lia. Qed.

Lemma mk_var_lvl l : l ∈ m_trail s -> lvl l s' = lvl l s.
Proof. intros Hl. unfold lvl. simpl. apply lookup_total_app_l. by apply (trail_vars _ _ (inv_assigned _ I)). Qed.

Lemma mk_var_settles p l x : m_trail s !! p = Some l -> settles s l x -> settles s' l x.
Proof.
  intros Hl [Hv Hle]. unfold settles. rewrite mk_var_value, !mk_var_lvl; [done|by eapply list_elem_of_lookup_2|].
  apply true_trail; [apply I..|done].
Qed.

Lemma mk_var_reasons Φ : reasons Φ s -> reasons Φ s'.
Proof.
  intros Hr p x Hp. pose proof (list_elem_of_lookup_2 _ _ _ Hp) as Hin. rewrite mk_var_lvl by exact Hin. intros Hl.
  specialize (Hr p x Hp Hl). unfold reason in *.
  assert (E : m_justification s' !!! var x = m_justification s !!! var x) by (apply lookup_total_snoc_default; by repeat constructor).
  rewrite E. destruct (m_justification s !!! var x); [|exact Hr..]. intros q y Hq Hy.
  rewrite !mk_var_lvl by (done || by eapply list_elem_of_lookup_2). by apply (Hr q).
Qed.

Lemma mk_var_levels : levels s -> levels s'.
Proof.
  intros [H1 H2 H3]. assert (E : forall p x, m_trail s !! p = Some x -> lvl x s' = lvl x s).
  { intros p x Hp. by eapply mk_var_lvl, list_elem_of_lookup_2. }
  split.
  - intros l Hl. rewrite mk_var_lvl by done. by apply H1.
  - intros p q x y Hpq Hp Hq. rewrite (E p x), (E q y) by done. by apply (H2 p q).
  - intros p x Hp Hx. rewrite (E p x) by done. by apply (H3 p).
Qed.

Lemma mk_var_assigned : assigned s'.
Proof.
  pose proof (inv_sized _ I) as Hs. destruct (inv_assigned _ I) as [H1 H2 H3]. split; [| |done].
  - intros l Hl. rewrite !mk_var_value. destruct (decide (in_vars s l)) as [Hv|Hv]; [by apply H1|].
    assert (E : forall x, ~ in_vars s x -> value x s = l_undef).
    { intros x Hx. destruct (value x s) eqn:E; [|done|]; (destruct Hx; apply value_in_vars; [done|congruence]). }
    by rewrite (E l), (E (neg l)) by (by rewrite ?in_vars_neg).
  - intros l. change (l ∈ m_trail s <-> in_vars s' l /\ value l s' = l_true). rewrite mk_var_value, H2.
    split; intros [Hl Hv]; (split; [|done]); [by apply mk_var_in_vars|]. apply value_in_vars; [done|congruence].
Qed.

Lemma mk_var_inv : inv s'.
Proof.
  pose proof (inv_linked _ I) as [H1 H2 H3 H4 H5].
  assert (Hb : forall l w, w ∈ wlists s' l <-> w ∈ wlists s l) by (intros; unfold wlists; by rewrite mk_var_wlist).
  split; [|apply mk_var_assigned| |apply I| |apply mk_var_levels, I|].
  - destruct (inv_sized _ I) as [S1 S2 S3]. split; rewrite mk_var_num; simpl; rewrite length_app; simpl; lia.
  - split.
    + intros l w Hw%Hb. by eapply mk_var_in_vars, H1.
    + intros l w Hw%Hb. specialize (H2 l w Hw). destruct w; simpl in *; [|done..]. destruct H2. split; [by apply mk_var_in_vars|done].
    + intros l l2 b Hw%Hb. destruct (H3 l l2 b Hw) as [b' Hb']. exists b'. by apply Hb.
    + eapply Forall_impl; [exact H4|]. intros c [? ? Hv ? ?]. split; try done. eapply Forall_impl; [exact Hv|]. apply mk_var_in_vars.
    + intros off Hoff. specialize (H5 off Hoff). unfold attached in *. change (lits_of off s') with (lits_of off s). case_decide.
      * intros x y z Hp. destruct (H5 x y z Hp) as (l1 & l2 & Hw & Hl). exists l1, l2. split; [by apply Hb|done].
      * destruct H5 as [[b0 H0] [b1 H6]]. split; [exists b0|exists b1]; by apply Hb.
  - intros p l w Hp Hl Hw%Hb. pose proof (inv_processed _ I p l w Hp Hl Hw) as Hg.
    pose proof (mk_var_settles p l) as Hst. destruct w; simpl in *; [by apply Hst|naive_solver|].
    intros Hor. destruct (Hg Hor) as (x & Hx & Hv). exists x. auto.
  - eapply reasons_impl; [|apply mk_var_reasons, (inv_reasons _ I)]. intros a. apply prefix_says; [|done|apply mk_var_lvl].
    exact (proj1 (holds_same_watches (wlists s') (wlists s) s a Hb)).
Qed.

Lemma mk_var_models a : models s' a <-> models s a.
Proof.
  unfold models. change (m_inconsistent s') with (m_inconsistent s). change (trail_holds s' a) with (trail_holds s a).
  assert (E : holds (wlists s') s' a <-> holds (wlists s) s a); [|by rewrite E].
  apply (holds_same_watches (wlists s') (wlists s) s). intros l w. unfold wlists. by rewrite mk_var_wlist.
Qed.
End NewVar.

(** ** Simplification *)

Definition opt_list (o : option literal) : list literal := match o with Some l => [l] | None => [] end.

Lemma simplify_loop_value s a lits : sized s -> assigned s -> trail_holds s a -> forall prev,
  match simplify_loop true s prev lits with
  | None => clause_val a (opt_list prev ++ lits) = true
  | Some r => clause_val a (opt_list prev ++ r) = clause_val a (opt_list prev ++ lits)
  end.
Proof.
  intros Hs Ha Ht. induction lits as [|l lits IH]; intros prev; simpl; [done|].
  rewrite clause_val_app, clause_val_cons. destruct (value l s) eqn:E.
  - specialize (IH prev). rewrite (trail_false a s l) by done. simpl.
    destruct (simplify_loop true s prev lits); by rewrite ?clause_val_app in *.
  - case_decide as E1.
    { destruct prev as [p|]; [|done]. injection E1 as ->. simpl. rewrite clause_val_cons, lit_val_neg. by destruct (lit_val a p). }
    case_decide as E2.
    { specialize (IH prev). subst prev. simpl in *. destruct (simplify_loop true s (Some l) lits); rewrite !clause_val_cons in *;
        simpl in *; by destruct (lit_val a l). }
    specialize (IH (Some l)). destruct (simplify_loop true s (Some l) lits); simpl in *; rewrite !clause_val_cons in *.
    + by rewrite clause_val_app, clause_val_cons, IH.
    + rewrite IH. apply orb_true_r.
  - rewrite (trail_true a s l) by done. apply orb_true_r.
Qed.

(** What stays is open, in the clause, and in strictly increasing order; a literal
    and its negation are neighbours in that order. *)
Definition apart (p x : literal) : Prop := index p < index x /\ x <> neg p.

Lemma index_neg_le l : index (neg l) <= S (index l).
Proof. rewrite !index_eta, var_neg, sign_neg. destruct (sign l); simpl; lia. Qed.

Lemma apart_trans p l x : index p < index l -> apart l x -> apart p x.
Proof. intros H [H1 H2]. split; [lia|]. intros ->. pose proof (index_neg_le p). lia. Qed.

Lemma apart_proper r : StronglySorted apart r -> forall x, x ∈ r -> neg x ∉ r.
Proof.
  induction 1 as [|y r Hs IH Hy]; intros x; [by rewrite elem_of_nil|]. rewrite Forall_forall in Hy.
  rewrite !elem_of_cons. intros [->|Hx] [Hn|Hn].
  - by apply neg_neq in Hn.
  - by destruct (Hy _ Hn) as [_ ?].
  - destruct (Hy _ Hx) as [_ Hne]. apply Hne. by rewrite <- Hn, neg_involutive.
  - by apply (IH x).
Qed.

Lemma apart_nodup r : StronglySorted apart r -> NoDup r.
Proof.
  induction 1 as [|y r Hs IH Hy]; constructor; [|done]. intros Hin. rewrite Forall_forall in Hy. destruct (Hy y Hin). lia.
Qed.

Lemma simplify_loop_shape s lits : StronglySorted lit_le lits -> forall prev r,
  Forall (fun l => forall p, prev = Some p -> lit_le p l) lits -> simplify_loop true s prev lits = Some r ->
  Forall (fun l => l ∈ lits /\ value l s = l_undef /\ forall p, prev = Some p -> apart p l) r /\ StronglySorted apart r.
Proof.
  intros Hsort. induction Hsort as [|l lits Hsort IH Hl]; intros prev r Hp; simpl.
  { intros [= <-]. split; constructor. }
  apply Forall_cons in Hp as [Hpl Hp].
  assert (Hweak : forall prev r, Forall (fun x => x ∈ lits /\ value x s = l_undef /\ forall p, prev = Some p -> apart p x) r ->
     Forall (fun x => x ∈ l :: lits /\ value x s = l_undef /\ forall p, prev = Some p -> apart p x) r).
  { intros pr r0 Hr. eapply Forall_impl; [exact Hr|]. intros x (? & ?). split; [by right|done]. }
  destruct (value l s) eqn:E; [|case_decide as E1; [done|case_decide as E2]|done].
  - intros Hr. destruct (IH _ _ Hp Hr) as [H1 H2]. split; [by apply Hweak|done].
  - intros Hr. destruct (IH _ _ Hp Hr) as [H1 H2]. split; [by apply Hweak|done].
  - destruct (simplify_loop true s (Some l) lits) as [r'|] eqn:Er; [|done]. intros [= <-].
    assert (Hl' : Forall (fun x => forall p, Some l = Some p -> lit_le p x) lits).
    { eapply Forall_impl; [exact Hl|]. by intros x Hx p [= <-]. }
    destruct (IH _ _ Hl' Er) as [H1 H2].
    assert (Hpl' : forall p, prev = Some p -> apart p l).
    { intros p Hpp. specialize (Hpl p Hpp). unfold lit_le in Hpl. split; [|intros ->; by rewrite Hpp in E1].
      destruct (decide (index p = index l)) as [Ei|]; [|lia]. destruct E2. rewrite Hpp. f_equal. symmetry. by apply index_inj. }
    split; [constructor|constructor; [done|]].
    + split_and!; [by left|done|done].
    + eapply Forall_impl; [exact H1|]. intros x (Hx & Hv & Hlt). split_and!; [by right|done|].
      intros p Hpp. destruct (Hpl' p Hpp) as [? _]. by eapply apart_trans; [|apply Hlt].
    + eapply Forall_impl; [exact H1|]. intros x (_ & _ & Hlt). by apply Hlt.
Qed.

Global Instance lit_le_total : Total lit_le.
Proof. intros l l'. unfold lit_le. lia. Qed.
Global Instance lit_le_trans : Transitive lit_le.
Proof. intros l l' l''. unfold lit_le. lia. Qed.

Lemma simplify_ok s lits : inv s ->
  match simplify_clause_core true s lits with
  | None => forall a, trail_holds s a -> clause_val a lits = true
  | Some r => (forall a, trail_holds s a -> clause_val a r = clause_val a lits)
      /\ Forall (fun l => l ∈ lits /\ value l s = l_undef) r /\ NoDup r /\ forall x, x ∈ r -> neg x ∉ r
  end.
Proof.
  intros I. unfold simplify_clause_core. pose proof (merge_sort_Permutation lit_le lits) as Hp.
  pose proof (fun a Ht => simplify_loop_value s a (merge_sort lit_le lits) (inv_sized _ I) (inv_assigned _ I) Ht None) as Hv.
  destruct (simplify_loop true s None (merge_sort lit_le lits)) as [r|] eqn:E; simpl in Hv.
  - assert (Hn : Forall (fun l => forall p, None = Some p -> lit_le p l) (merge_sort lit_le lits)) by (by apply Forall_forall).
    destruct (simplify_loop_shape s _ (StronglySorted_merge_sort lit_le lits) None r Hn E) as [H1 H2].
    split_and!; [|eapply Forall_impl; [exact H1|]|by apply apart_nodup|by apply apart_proper].
    + intros a Ht. rewrite Hv by done. by rewrite Hp.
    + intros l (Hl & Hv' & _). by rewrite Hp in Hl.
  - intros a Ht. specialize (Hv a Ht). by rewrite Hp in Hv.
Qed.

(** ** Watches and clauses are added *)

(** [s'] has the clauses of [s] and [cs], and new watches, which either are not for
    a literal that has been propagated or keep their promise. *)
Section Added.
Context (s s' : solver) (cs : list clause).

Record added : Prop := {
  ad_cls : m_cls s' = m_cls s ++ cs;
  ad_value l : value l s' = value l s;
  ad_trail : m_trail s' = m_trail s;
  ad_level : m_level s' = m_level s;
  ad_justification : m_justification s' = m_justification s;
  ad_scope : m_scope_lvl s' = m_scope_lvl s;
  ad_qhead : m_qhead s' = m_qhead s;
  ad_sized : sized s';
  ad_old l w : w ∈ wlists s l -> w ∈ wlists s' l;
  ad_new l w : w ∈ wlists s' l -> w ∈ wlists s l
    \/ in_vars s l /\ (forall p, p < m_qhead s -> m_trail s !! p = Some l -> good s' p l w) /\ watch_ok s' l w
       /\ (forall l2 b, w = BINARY l2 b -> exists b', BINARY (neg l) b' ∈ wlists s' (neg l2));
  ad_clauses : Forall (clause_ok s') cs;
  ad_attached off : length (m_cls s) <= off < length (m_cls s) + length cs -> attached (wlists s') s' off;
}.

Context (A : added).

Lemma added_num : num_vars s' = num_vars s.
Proof. unfold num_vars. by rewrite (ad_level A). Qed.

Lemma added_in_vars l : in_vars s' l <-> in_vars s l.
Proof. unfold in_vars. by rewrite added_num. Qed.

Lemma added_settles l x : settles s' l x <-> settles s l x.
Proof. unfold settles, lvl. by rewrite (ad_value A), (ad_level A). Qed.

Lemma added_lits off : off < length (m_cls s) -> lits_of off s' = lits_of off s.
Proof. intros H. unfold lits_of, get_clause. by rewrite (ad_cls A), lookup_total_app_l. Qed.

Lemma added_assigned : assigned s -> assigned s'.
Proof.
  intros [A1 A2 A3]. split; rewrite ?(ad_trail A); [| |done].
  - intros l Hl%added_in_vars. rewrite !(ad_value A). by apply A1.
  - intros l. rewrite added_in_vars, (ad_value A). apply A2.
Qed.

Lemma added_linked : linked (wlists s) s -> linked (wlists s') s'.
Proof.
  intros [H1 H2 H3 H4 H5]. split.
  - intros l w Hw. apply added_in_vars. apply (ad_new A) in Hw as [Hw|[? _]]; [by eapply H1|done].
  - intros l w Hw. apply (ad_new A) in Hw as [Hw|(_ & _ & ? & _)]; [|done]. specialize (H2 l w Hw).
    destruct w; simpl in *; rewrite ?added_in_vars, ?(ad_cls A), ?length_app; [done| |].
    + destruct H2 as (off & Hoff & Hl). exists off. rewrite added_lits by done. split; [lia|done].
    + destruct H2 as (? & ? & ?). rewrite added_lits by done. split; [lia|done].
  - intros l l2 b Hw. apply (ad_new A) in Hw as [Hw|(_ & _ & _ & Hw)]; [|by eapply Hw].
    destruct (H3 l l2 b Hw) as [b' Hb]. exists b'. by apply A.
  - rewrite (ad_cls A). apply Forall_app. split; [|apply A]. eapply Forall_impl; [exact H4|]. intros c [? ? Hv ? ?].
    split; try done. eapply Forall_impl; [exact Hv|]. intros l. apply added_in_vars.
  - intros off. rewrite (ad_cls A), length_app. intros Hoff.
    destruct (decide (off < length (m_cls s))) as [Hlt|Hge]; [|apply A; lia].
    specialize (H5 off Hlt). unfold attached in *. rewrite added_lits by done. case_decide.
    + intros x y z Hxyz. destruct (H5 x y z Hxyz) as (l1 & l2 & Hw & Hl). exists l1, l2. split; [by apply A|done].
    + destruct H5 as [[b0 H0] [b1 H6]]. split; [exists b0|exists b1]; by apply A.
Qed.

Lemma added_processed : linked (wlists s) s -> processed (wlists s) s (m_qhead s) -> processed (wlists s') s' (m_qhead s').
Proof.
  intros Hk Hp. rewrite (ad_qhead A). intros p l w Hpq. rewrite (ad_trail A). intros Hl Hw.
  apply (ad_new A) in Hw as [Hw|(_ & Hn & _)]; [|by apply Hn].
  pose proof (Hp p l w Hpq Hl Hw) as Hg. pose proof (li_watch _ _ Hk l w Hw) as Hok.
  destruct w; simpl in *; rewrite ?(ad_trail A), ?added_settles; try done.
  rewrite added_lits by apply Hok. setoid_rewrite added_settles. done.
Qed.

Lemma added_levels : levels s -> levels s'.
Proof.
  intros [H1 H2 H3]. unfold lvl in *. split; unfold lvl; rewrite ?(ad_trail A), ?(ad_level A), ?(ad_scope A), ?(ad_qhead A); done.
Qed.

Lemma added_weaker a : holds (wlists s') s' a -> holds (wlists s) s a.
Proof.
  intros [H1 H2]. split; [intros l l2 b Hw; eapply H1; by apply A|]. rewrite (ad_cls A) in H2. by apply Forall_app in H2 as [? _].
Qed.

Lemma added_reason Φ p x : reason Φ s p x -> reason Φ s' p x.
Proof.
  intros Hr. unfold reason in *. rewrite (ad_justification A), (ad_trail A). destruct (m_justification s !!! var x) as [| | |off]; try done.
  - unfold lvl. by rewrite (ad_level A).
  - destruct Hr as (Hoff & Hf & Hy). simpl. unfold in_front. rewrite (ad_cls A), length_app, added_lits by done. split; [lia|done].
Qed.

Lemma added_reasons Φ : reasons Φ s -> reasons Φ s'.
Proof.
  intros Hr p x. rewrite (ad_trail A). unfold lvl. rewrite (ad_level A). intros Hp Hl. by apply added_reason, Hr.
Qed.

Lemma added_inv : inv s -> inv s'.
Proof.
  intros [Hs Ha Hl Hq Hp Hv Hr]. split; [apply A|by apply added_assigned|by apply added_linked| |by apply added_processed|by apply added_levels|].
  - by rewrite (ad_qhead A), (ad_trail A).
  - eapply reasons_impl; [|by apply added_reasons]. intros a. apply prefix_says; [apply added_weaker|by rewrite (ad_trail A)|].
    intros x _. unfold lvl. by rewrite (ad_level A).
Qed.

Lemma added_holds a : (forall l l2 b, BINARY l2 b ∈ wlists s' l -> BINARY l2 b ∈ wlists s l) ->
  holds (wlists s') s' a <-> holds (wlists s) s a /\ Forall (fun c => clause_val a (m_lits c) = true) cs.
Proof.
  intros Hn. unfold holds. rewrite (ad_cls A), Forall_app.
  assert (E : (forall l l2 b, BINARY l2 b ∈ wlists s' l -> lit_val a l = true -> lit_val a l2 = true)
    <-> (forall l l2 b, BINARY l2 b ∈ wlists s l -> lit_val a l = true -> lit_val a l2 = true)); [|tauto].
  split; intros Hb l l2 b Hw; eapply Hb; [by apply A|by apply Hn].
Qed.
End Added.

(** ** The clauses of each length, at the base level *)

(** What adding [c] achieves. *)
Definition adds (s : solver) (c : list literal) (s' : solver) : Prop :=
  inv s' /\ num_vars s' = num_vars s /\ m_scope_lvl s' = m_scope_lvl s /\ m_user_scope_literals s' = m_user_scope_literals s
  /\ m_scopes s' = m_scopes s /\ m_clauses_to_reinit s' = m_clauses_to_reinit s /\ forall a, models s' a <-> models s a /\ clause_val a c = true.

Lemma adds_unit s l j c : inv s -> at_base_lvl s = true -> in_vars s l -> value l s = l_undef ->
  (forall a, models s a -> (clause_val a c = true <-> lit_val a l = true)) -> adds s c (assign_core l j s).
Proof.
  intros I Hbase Hl Hu Hc. assert (G : grown s (assign_core l j s)) by (apply assign_core_grown; try done; apply I).
  split_and!; [by eapply inv_grown_base|apply G..|]. intros a.
  assert (E : models (assign_core l j s) a <-> models s a /\ lit_val a l = true).
  { unfold models. rewrite (grown_follows_holds s _ a I G). unfold trail_holds. rewrite assign_core_trail, Forall_app, Forall_singleton.
    change (m_inconsistent (assign_core l j s)) with (m_inconsistent s). tauto. }
  rewrite E. split; intros [Hm H]; (split; [done|]); by apply (Hc a Hm).
Qed.

(** *** Two literals *)

Lemma find_binary_watch_some wl l b : find_binary_watch wl l = Some b -> BINARY l b ∈ wl.
Proof.
  unfold find_binary_watch. intros H. apply head_Some_elem_of, list_elem_of_omap in H as (w & Hw & E).
  destruct w as [l' b'| |]; try done. case_decide; [|done]. congruence.
Qed.

Lemma find_binary_watch_is_some wl l b : BINARY l b ∈ wl -> is_Some (find_binary_watch wl l).
Proof.
  unfold find_binary_watch. intros H. apply head_is_Some. intros E.
  assert (Hin : b ∈ omap (fun w => match w with BINARY l' learned => if decide (l' = l) then Some learned else None | _ => None end) wl).
  { apply list_elem_of_omap. exists (BINARY l b). split; [done|]. by rewrite decide_True. }
  rewrite E in Hin. by apply elem_of_nil in Hin.
Qed.

(** The same watches up to the flag of the binary ones. *)
Definition reflagged (W W' : watches) : Prop := forall l w, w ∈ W l ->
  w ∈ W' l \/ exists l2 b b', w = BINARY l2 b /\ BINARY l2 b' ∈ W' l.

Lemma reflagged_binary W W' l l2 b : reflagged W W' -> BINARY l2 b ∈ W l -> exists b', BINARY l2 b' ∈ W' l.
Proof. intros R H. destruct (R _ _ H) as [?|(x & y & b' & [= <- <-] & ?)]; eauto. Qed.

Lemma set_binary_learned_elem wl l b w : w ∈ set_binary_learned wl l b -> w ∈ wl \/ exists b0, w = BINARY l b /\ BINARY l b0 ∈ wl.
Proof.
  induction wl as [|x wl IH]; simpl; [by left|].
  assert (Hcons : w ∈ x :: set_binary_learned wl l b -> w ∈ x :: wl \/ exists b0, w = BINARY l b /\ BINARY l b0 ∈ x :: wl).
  { intros [->|H]%elem_of_cons; [left; by left|]. destruct (IH H) as [|(b0 & -> & ?)]; [left; by right|].
    right. exists b0. split; [done|by right]. }
  destruct x as [l' b'| |]; [case_decide; [subst|]|..]; try exact Hcons.
  intros [->|H]%elem_of_cons; [|left; by right]. right. exists b'. split; [done|by left].
Qed.

Lemma elem_set_binary_learned wl l b w : w ∈ wl -> w ∈ set_binary_learned wl l b
  \/ exists b0, w = BINARY l b0 /\ BINARY l b ∈ set_binary_learned wl l b.
Proof.
  induction wl as [|x wl IH]; simpl; [by left|].
  assert (Hcons : w ∈ x :: wl -> w ∈ x :: set_binary_learned wl l b
     \/ exists b0, w = BINARY l b0 /\ BINARY l b ∈ x :: set_binary_learned wl l b).
  { intros [->|H]%elem_of_cons; [left; by left|]. destruct (IH H) as [|(b0 & -> & ?)]; [left; by right|].
    right. exists b0. split; [done|by right]. }
  destruct x as [l' b'| |]; [case_decide; [subst|]|..]; try exact Hcons.
  intros [->|H]%elem_of_cons; [|left; by right]. right. exists b'. split; [done|by left].
Qed.

Lemma set_flag_inv s l l2 b : inv s -> in_vars s l ->
  let s' := set_wlist l (set_binary_learned (get_wlist l s) l2 b) s in
  inv s' /\ (forall a, holds (wlists s') s' a <-> holds (wlists s) s a).
Proof.
  intros [Hs Ha [H1 H2 H3 H4 H5] Hq Hp Hv Hr] Hl s'. set (wl := set_binary_learned (get_wlist l s) l2 b) in *.
  assert (Ev : forall x, wlists s' x = if decide (x = l) then wl else wlists s x) by (intros x; by apply get_set_wlist).
  assert (R : reflagged (wlists s) (wlists s')).
  { intros x w Hw. rewrite Ev. case_decide; [subst x|by left].
    destruct (elem_set_binary_learned _ l2 b w Hw) as [|(b0 & -> & ?)]; [by left|right; eauto 6]. }
  assert (R' : reflagged (wlists s') (wlists s)).
  { intros x w Hw. rewrite Ev in Hw. case_decide; [subst x|by left].
    destruct (set_binary_learned_elem _ _ _ _ Hw) as [|(b0 & -> & ?)]; [by left|right; eauto 6]. }
  assert (Hnb : forall x w, (forall y c, w <> BINARY y c) -> w ∈ wlists s x -> w ∈ wlists s' x).
  { intros x w Hne Hw. destruct (R x w Hw) as [|(y & c & c' & -> & _)]; [done|]. by destruct (Hne y c). }
  assert (Hh : forall a, holds (wlists s') s' a <-> holds (wlists s) s a).
  { intros a. unfold holds. f_equiv; [|done]. split; intros H x y c Hw.
    - destruct (reflagged_binary _ _ _ _ _ R Hw) as [c' Hc]. by eapply H.
    - destruct (reflagged_binary _ _ _ _ _ R' Hw) as [c' Hc]. by eapply H. }
  split; [split; [by apply put_back_sized|by apply put_back_assigned| |done| |by apply put_back_levels|]|done].
  - split.
    + intros x w Hw. change (in_vars s x). destruct (R' x w Hw) as [|(y & c & c' & -> & Hc)]; by eapply H1.
    + intros x w Hw. destruct (R' x w Hw) as [Hw'|(y & c & c' & -> & Hc)]; [by specialize (H2 x w Hw')|by specialize (H2 x _ Hc)].
    + intros x y c Hw. destruct (reflagged_binary _ _ _ _ _ R' Hw) as [c' Hc]. destruct (H3 _ _ _ Hc) as [d Hd].
      by eapply reflagged_binary.
    + eapply Forall_impl; [exact H4|]. by intros c [].
    + intros off Hoff. specialize (H5 off Hoff). unfold attached in *. change (lits_of off s') with (lits_of off s). case_decide.
      * intros x y z Hxyz. destruct (H5 x y z Hxyz) as (l1 & l3 & Hw & Hl'). exists l1, l3. split; [by apply Hnb|done].
      * destruct H5 as [[b0 H0] [b1 H6]]. split; [exists b0|exists b1]; by apply Hnb.
  - intros p x w Hpq Hx Hw. change (good s p x w). destruct (R' x w Hw) as [Hw'|(y & c & c' & -> & Hc)]; [by apply Hp|].
    by pose proof (Hp p x _ Hpq Hx Hc).
  - eapply reasons_impl; [|exact Hr]. intros a. apply prefix_says; [apply Hh|done|done].
Qed.

Lemma set_flag_adds s l l2 b c : inv s -> in_vars s l -> (forall a, models s a -> clause_val a c = true) ->
  adds s c (set_wlist l (set_binary_learned (get_wlist l s) l2 b) s).
Proof.
  intros I Hl Hc. destruct (set_flag_inv s l l2 b I Hl) as [I' Hh]. split_and!; try done.
  intros a. unfold models. rewrite Hh. change (trail_holds (set_wlist l _ s) a) with (trail_holds s a). simpl.
  split; [|tauto]. intros Hm. split; [done|]. by apply Hc.
Qed.

Lemma adds_trans s1 s2 s3 c : adds s1 c s2 -> adds s2 c s3 -> adds s1 c s3.
Proof.
  intros (I1 & V1 & L1 & U1 & S1 & R1 & M1) (I2 & V2 & L2 & U2 & S2 & R2 & M2). split_and!; [done|congruence..|].
  intros a. rewrite M2, M1. tauto.
Qed.

(** A binary clause that is there is implied. *)
Lemma binary_implied s l1 l2 b a : models s a -> BINARY l2 b ∈ wlists s (neg l1) -> clause_val a [l1; l2] = true.
Proof.
  intros (_ & [Hb _] & _) Hw. specialize (Hb _ _ _ Hw). rewrite lit_val_neg in Hb. rewrite !clause_val_cons.
  destruct (lit_val a l1); [done|]. by rewrite Hb.
Qed.

(** Both watches of a new binary clause. *)
Definition store2 (l1 l2 : literal) (b : bool) (s : solver) : solver :=
  push_watch (neg l2) (BINARY l1 b) (push_watch (neg l1) (BINARY l2 b) s).

Section Store2.
Context (s : solver) (l1 l2 : literal) (b : bool) (Hs : sized s) (Ha : assigned s).
Context (H1 : in_vars s l1) (H2 : in_vars s l2) (Hne : l1 <> l2) (Hpr : l2 <> neg l1).
Local Abbreviation s' := (store2 l1 l2 b s).

Lemma store2_wlists x : wlists s' x = if decide (x = neg l2) then wlists s x ++ [BINARY l1 b]
     else if decide (x = neg l1) then wlists s x ++ [BINARY l2 b] else wlists s x.
Proof.
  assert (N1 : in_vars s (neg l1)) by by apply in_vars_neg. assert (N2 : in_vars s (neg l2)) by by apply in_vars_neg.
  unfold wlists, store2. rewrite get_push_watch by (done || by apply put_back_sized). rewrite !get_push_watch by done.
  case_decide as E; [subst x; rewrite decide_False by (intros E%(inj neg); done); done|]. by case_decide; subst.
Qed.

Lemma store2_watch1 : BINARY l2 b ∈ wlists s' (neg l1).
Proof.
  rewrite store2_wlists. rewrite decide_False by (intros E%(inj neg); done). rewrite decide_True by done. set_solver.
Qed.

Lemma store2_watch2 : BINARY l1 b ∈ wlists s' (neg l2).
Proof. rewrite store2_wlists, decide_True by done. set_solver. Qed.

Lemma store2_added :
  (forall p, p < m_qhead s -> m_trail s !! p = Some (neg l1) -> settles s (neg l1) l2) ->
  (forall p, p < m_qhead s -> m_trail s !! p = Some (neg l2) -> settles s (neg l2) l1) -> added s s' [].
Proof.
  intros R1 R2. split; try done.
  - by rewrite app_nil_r.
  - unfold store2. by repeat apply put_back_sized.
  - intros l w Hw. rewrite store2_wlists. repeat case_decide; set_solver.
  - intros l w Hw. rewrite store2_wlists in Hw. repeat case_decide; subst; [| |by left];
      (rewrite elem_of_app, list_elem_of_singleton in Hw; destruct Hw as [Hw| ->]; [by left|right]);
      (split_and!; [by apply in_vars_neg|done|simpl; split; [done|]|]).
    + intros E. by apply Hpr, neg_eq.
    + intros x c [= <- <-]. exists b. rewrite neg_involutive. apply store2_watch1.
    + done.
    + intros x c [= <- <-]. exists b. rewrite neg_involutive. apply store2_watch2.
  - simpl. lia.
Qed.

Lemma store2_holds a : holds (wlists s') s' a <-> holds (wlists s) s a /\ clause_val a [l1; l2] = true.
Proof.
  rewrite !clause_val_cons, orb_false_r. split.
  - intros [Hb Hc]. split; [split; [|done]|].
    + intros x y c Hw. eapply Hb. rewrite store2_wlists. repeat case_decide; set_solver.
    + specialize (Hb _ _ _ store2_watch1). rewrite lit_val_neg in Hb. destruct (lit_val a l1); [done|]. by apply Hb.
  - intros [[Hb Hc] Hcl]. split; [|done]. intros x y c. rewrite store2_wlists.
    repeat case_decide; subst; rewrite ?elem_of_app, ?list_elem_of_singleton.
    + intros [Hw|[= -> ->]]; [by eapply Hb|]. rewrite lit_val_neg. by destruct (lit_val a l2), (lit_val a l1).
    + intros [Hw|[= -> ->]]; [by eapply Hb|]. rewrite lit_val_neg. by destruct (lit_val a l2), (lit_val a l1).
    + by eapply Hb.
Qed.
End Store2.

(** The negation of an open literal is not on the trail. *)
Lemma undef_not_trail s l p : assigned s -> in_vars s l -> value l s = l_undef -> m_trail s !! p <> Some (neg l).
Proof.
  intros Ha Hl Hu Hp. apply list_elem_of_lookup_2, trail_value in Hp; [|done]. by rewrite (as_neg _ Ha), Hu in Hp by done.
Qed.

Lemma push_binary_adds s l1 l2 b : inv s -> in_vars s l1 -> in_vars s l2 -> l1 <> l2 -> l2 <> neg l1 ->
  value l1 s = l_undef -> value l2 s = l_undef -> adds s [l1; l2] (store2 l1 l2 b s).
Proof.
  intros I H1 H2 Hne Hpr U1 U2. pose proof (inv_sized _ I) as Hs. pose proof (inv_assigned _ I) as Ha.
  assert (A : added s (store2 l1 l2 b s) []).
  { apply store2_added; try done; intros p _ Hp; by apply undef_not_trail in Hp. }
  split_and!; [by eapply added_inv|done..|]. intros a. unfold models. rewrite store2_holds by done.
  change (m_inconsistent (store2 l1 l2 b s)) with (m_inconsistent s). change (trail_holds (store2 l1 l2 b s) a) with (trail_holds s a).
  tauto.
Qed.

Lemma mk_bin_clause_ok `{Env} s l1 l2 : inv s -> at_base_lvl s = true -> in_vars s l1 -> in_vars s l2 -> l1 <> l2 -> l2 <> neg l1 ->
  value l1 s = l_undef -> value l2 s = l_undef -> spec (mk_bin_clause l1 l2 false s) (adds s [l1; l2]).
Proof.
  intros I Hbase H1 H2 Hne Hpr U1 U2. unfold mk_bin_clause.
  assert (Himp : forall x y, is_Some (find_binary_watch (get_wlist (neg x) s) (neg y)) ->
    forall a, models s a -> (clause_val a [x; y] = true <-> lit_val a x = true)).
  { intros x y [b Hb%find_binary_watch_some] a Hm. pose proof (binary_implied _ _ _ _ a Hm Hb) as Hc.
    rewrite !clause_val_cons, lit_val_neg in *. simpl in *. by destruct (lit_val a x), (lit_val a y). }
  case_bool_decide as E1; simpl.
  { rewrite bool_decide_true by done. apply spec_ret, adds_unit; try done. by apply Himp. }
  case_bool_decide as E2; simpl.
  { rewrite bool_decide_true by done. apply spec_ret, adds_unit; try done. intros a Hm.
    rewrite (clause_val_perm a [l1; l2] [l2; l1]) by constructor. by apply Himp. }
  destruct (find_binary_watch (get_wlist (neg l1) s) l2) as [b|] eqn:E3.
  - apply find_binary_watch_some in E3. assert (Hc : forall a, models s a -> clause_val a [l1; l2] = true) by (intros a Hm; by eapply binary_implied).
    destruct b; simpl.
    + set (s1 := set_wlist (neg l1) _ s).
      assert (A1 : adds s [l1; l2] s1) by (apply set_flag_adds; [done|by apply in_vars_neg|done]).
      pose proof A1 as (I1 & V1 & L1 & U1' & S1 & R1 & M1).
      assert (Hin : exists b', BINARY l1 b' ∈ wlists s (neg l2)).
      { destruct (li_sym _ _ (inv_linked _ I) _ _ _ E3) as [b' Hb]. rewrite neg_involutive in Hb. by exists b'. }
      destruct Hin as [b' Hb'].
      assert (Ew : get_wlist (neg l2) s1 = get_wlist (neg l2) s).
      { unfold s1. rewrite get_set_wlist; [|apply I|by apply in_vars_neg]. rewrite decide_False; [done|]. by intros E%(inj neg). }
      rewrite Ew. destruct (find_binary_watch_is_some (get_wlist (neg l2) s) l1 b' Hb') as [c ->]. apply spec_ret.
      eapply adds_trans; [exact A1|]. rewrite <- Ew. apply set_flag_adds; [done| |].
      * unfold in_vars. rewrite V1. by apply in_vars_neg.
      * intros a Hm. apply Hc. by apply M1 in Hm as [? _].
    + apply spec_ret. split_and!; try done. intros a. split; [|tauto]. intros Hm. split; [done|by apply Hc].
  - unfold propagate_bin_clause. rewrite U1, U2. simpl. apply spec_ret. by apply push_binary_adds.
Qed.

(** *** Three literals and more *)

(** A new clause object and its watches. *)
Lemma added_adds s s' c : added s s' [c] -> inv s ->
  (forall l l2 b, BINARY l2 b ∈ wlists s' l -> BINARY l2 b ∈ wlists s l) ->
  m_user_scope_literals s' = m_user_scope_literals s -> m_inconsistent s' = m_inconsistent s ->
  m_scopes s' = m_scopes s -> m_clauses_to_reinit s' = m_clauses_to_reinit s -> adds s (m_lits c) s'.
Proof.
  intros A I Hb Hu Hi Hsc Hre. split_and!; [by eapply added_inv|by eapply added_num|apply A|done..|]. intros a. unfold models, trail_holds.
  rewrite (added_holds _ _ _ A a Hb), Hi, (ad_trail _ _ _ A), Forall_singleton. tauto.
Qed.

(** The list of all clauses does not matter. *)
Lemma adds_registered s c s' l : adds s c s' -> adds s c (set_clauses l s').
Proof.
  intros (I & H). assert (G : grown s' (set_clauses l s')) by (apply grown_still; try done; apply I).
  split; [by eapply inv_still|exact H].
Qed.

(** The clause at the new offset. *)
Lemma alloc_lits s (lits : list literal) b rest : lits_of (length (m_cls s))
  (set_cls (m_cls s ++ [mk_clause_obj lits false b false rest]) s) = lits.
Proof. unfold lits_of, get_clause. simpl. by rewrite list_lookup_total_middle. Qed.

Lemma mk_ternary_perm l1 l2 : exists x y, mk_ternary l1 l2 = TERNARY x y /\ [x; y] ≡ₚ [l1; l2].
Proof. unfold mk_ternary. case_match; [exists l2, l1; split; [done|constructor]|by exists l1, l2]. Qed.

(** A new clause of three literals, with its watches. *)
Definition store3 (x y z : literal) (b : bool) (s : solver) : solver :=
  push_watch (neg z) (mk_ternary x y) (push_watch (neg y) (mk_ternary x z) (push_watch (neg x) (mk_ternary y z)
    (set_cls (m_cls s ++ [mk_clause_obj [x; y; z] false b false false]) s))).

Section Store3.
Context (s : solver) (x y z : literal) (b : bool) (Hs : sized s) (Ha : assigned s).
Context (Hv : Forall (in_vars s) [x; y; z]) (Hnd : NoDup [x; y; z]) (Hpr : forall l, l ∈ [x; y; z] -> neg l ∉ [x; y; z]).
Local Abbreviation s' := (store3 x y z b s).
Local Abbreviation off := (length (m_cls s)).

Lemma store3_lits : lits_of off s' = [x; y; z].
Proof. apply alloc_lits. Qed.

Lemma store3_sized : sized s'.
Proof. unfold store3. repeat apply put_back_sized. destruct Hs. by split. Qed.

Lemma store3_wlists l : wlists s' l = if decide (l = neg z) then wlists s l ++ [mk_ternary x y]
    else if decide (l = neg y) then wlists s l ++ [mk_ternary x z] else if decide (l = neg x) then wlists s l ++ [mk_ternary y z]
    else wlists s l.
Proof.
  assert (Hyz : neg y <> neg z /\ neg x <> neg z /\ neg x <> neg y).
  { rewrite !NoDup_cons, !not_elem_of_cons in Hnd. destruct Hnd as ((? & ? & _) & (? & _) & _). by rewrite !(inj_iff neg). }
  destruct Hyz as (Hyz & Hxz & Hxy). rewrite !Forall_cons in Hv. destruct Hv as (Vx & Vy & Vz & _).
  set (s0 := set_cls (m_cls s ++ [mk_clause_obj [x; y; z] false b false false]) s).
  assert (S0 : sized s0) by (destruct Hs; by split).
  assert (Nx : in_vars s0 (neg x)) by by apply in_vars_neg. assert (Ny : in_vars s0 (neg y)) by by apply in_vars_neg.
  assert (Nz : in_vars s0 (neg z)) by by apply in_vars_neg.
  unfold store3, wlists. fold s0. rewrite get_push_watch by (done || by repeat apply put_back_sized).
  rewrite !(get_push_watch (neg y)) by (done || by apply put_back_sized). rewrite !(get_push_watch (neg x)) by done.
  repeat case_decide; subst; try done; congruence.
Qed.

Lemma store3_new l w : w ∈ wlists s' l -> w ∈ wlists s l \/ exists u v t, [t; u; v] ≡ₚ [x; y; z] /\ l = neg t /\ w = mk_ternary u v.
Proof.
  rewrite store3_wlists. repeat case_decide; subst; rewrite ?elem_of_app, ?list_elem_of_singleton; try (by left);
    (intros [Hw| ->]; [by left|right]);
    [exists x, y, z|exists x, z, y|exists y, z, x]; (split; [solve_Permutation|done]).
Qed.

Lemma store3_old l w : w ∈ wlists s l -> w ∈ wlists s' l.
Proof. intros Hw. rewrite store3_wlists. repeat case_decide; rewrite ?elem_of_app; auto. Qed.

Lemma store3_there t u v : [t; u; v] ≡ₚ [x; y; z] -> exists a b, TERNARY a b ∈ wlists s' (neg t) /\ [a; b] ≡ₚ [u; v].
Proof.
  assert (Hone : forall t u v, (t = x /\ [u; v] ≡ₚ [y; z] \/ t = y /\ [u; v] ≡ₚ [x; z] \/ t = z /\ [u; v] ≡ₚ [x; y]) ->
     exists a b, TERNARY a b ∈ wlists s' (neg t) /\ [a; b] ≡ₚ [u; v]).
  { pose proof Hnd as Hd. rewrite !NoDup_cons, !not_elem_of_cons in Hd. destruct Hd as ((? & ? & _) & (? & _) & _).
    intros t' u' v' [(-> & Huv)|[(-> & Huv)|(-> & Huv)]]; setoid_rewrite store3_wlists.
    - destruct (mk_ternary_perm y z) as (a & c & E & Hp). exists a, c. rewrite Huv. split; [|done].
      rewrite !decide_False, decide_True, E by (done || by rewrite (inj_iff neg)). apply elem_of_app. right. by left.
    - destruct (mk_ternary_perm x z) as (a & c & E & Hp). exists a, c. rewrite Huv. split; [|done].
      rewrite decide_False, decide_True, E by (done || by rewrite (inj_iff neg)). apply elem_of_app. right. by left.
    - destruct (mk_ternary_perm x y) as (a & c & E & Hp). exists a, c. rewrite Huv. split; [|done].
      rewrite decide_True, E by done. apply elem_of_app. right. by left. }
  intros Hp. apply Hone. assert (Hin : t ∈ [x; y; z]) by (rewrite <- Hp; by left).
  rewrite !elem_of_cons, elem_of_nil in Hin. destruct Hin as [->|[->|[->|[]]]]; [left|right; left|right; right]; (split; [done|]).
  - by apply Permutation_cons_inv in Hp.
  - apply (Permutation_cons_inv (l := [u; v]) (a := y)). rewrite Hp. solve_Permutation.
  - apply (Permutation_cons_inv (l := [u; v]) (a := z)). rewrite Hp. solve_Permutation.
Qed.

Lemma store3_added :
  (forall p t u v, [t; u; v] ≡ₚ [x; y; z] -> p < m_qhead s -> m_trail s !! p = Some (neg t) ->
     neg u ∈ take p (m_trail s) -> settles s (neg t) v) ->
  added s s' [mk_clause_obj [x; y; z] false b false false].
Proof.
  intros Hr. split; try done.
  - apply store3_sized.
  - apply store3_old.
  - intros l w Hw. destruct (store3_new l w Hw) as [|(u & v & t & Hp & -> & ->)]; [by left|right].
    assert (Ht : in_vars s t) by (eapply (proj1 (Forall_forall _ _) Hv); rewrite <- Hp; by left).
    destruct (mk_ternary_perm u v) as (a & c & -> & Hac). split_and!; [by apply in_vars_neg| | |done].
    + intros p Hpq Hpt. assert (Hp1 : [t; a; c] ≡ₚ [x; y; z]) by (by rewrite <- Hp, Hac).
      assert (Hp2 : [t; c; a] ≡ₚ [x; y; z]) by (rewrite <- Hp1; solve_Permutation).
      split; intros Hin; [exact (Hr p t a c Hp1 Hpq Hpt Hin)|exact (Hr p t c a Hp2 Hpq Hpt Hin)].
    + exists off. split; [simpl; rewrite length_app; simpl; lia|]. by rewrite store3_lits, neg_involutive, Hac.
  - constructor; [|constructor]. split; [simpl; lia|exact Hnd|exact Hv|done|exact Hpr].
  - intros o Ho. simpl in Ho. assert (o = off) as -> by lia. unfold attached. rewrite store3_lits.
    rewrite decide_True by done. intros t u v Hp. symmetry in Hp. by apply store3_there.
Qed.

Lemma store3_binary l l2 d : BINARY l2 d ∈ wlists s' l -> BINARY l2 d ∈ wlists s l.
Proof.
  intros Hw. destruct (store3_new _ _ Hw) as [|(u & v & t & _ & _ & E)]; [done|].
  destruct (mk_ternary_perm u v) as (? & ? & E' & _). congruence.
Qed.
End Store3.

Lemma mk_ter_clause_ok s x y z : inv s -> at_base_lvl s = true -> Forall (in_vars s) [x; y; z] ->
  Forall (fun l => value l s = l_undef) [x; y; z] -> NoDup [x; y; z] -> (forall l, l ∈ [x; y; z] -> neg l ∉ [x; y; z]) ->
  adds s [x; y; z] (mk_ter_clause [x; y; z] false s).
Proof.
  intros I Hbase Hv Hu Hnd Hpr. pose proof (inv_sized _ I) as Hs. set (off := length (m_cls s)). set (s3 := store3 x y z false s).
  assert (Es : mk_ter_clause [x; y; z] false s = set_clauses (m_clauses s3 ++ [off]) s3).
  { pose proof (alloc_lits s [x; y; z] false false) as Ec. unfold lits_of in Ec.
    unfold mk_ter_clause, alloc_clause, attach_ter_clause. rewrite Ec. simpl. change (at_base_lvl (push_watch (neg z) (mk_ternary x y) _)) with (at_base_lvl s). by rewrite Hbase. }
  rewrite Es. assert (A : added s s3 [mk_clause_obj [x; y; z] false false false false]).
  { apply store3_added; try done. intros p t u v Hp _ Hpt. exfalso. assert (Hin : t ∈ [x; y; z]) by (rewrite <- Hp; by left).
    rewrite Forall_forall in Hv, Hu. eapply (undef_not_trail s t p); [apply I|by apply Hv|by apply Hu|done]. }
  pose proof (added_adds s s3 _ A I (store3_binary s x y z false Hs Hv Hnd) eq_refl eq_refl eq_refl eq_refl) as Hadds.
  by apply adds_registered.
Qed.

(** A new clause of more literals, with its watches. *)
Definition storeN (lits : list literal) (b : bool) (s : solver) : solver :=
  let w := CLAUSE (lits !!! Nat.shiftr (length lits) 1) (length (m_cls s)) in
  push_watch (neg (lits !!! 1)) w (push_watch (neg (lits !!! 0)) w (set_cls (m_cls s ++ [mk_clause_obj lits false b false false]) s)).

Section StoreN.
Context (s : solver) (lits : list literal) (b : bool) (Hs : sized s) (Ha : assigned s) (Hlen : 3 < length lits).
Context (Hv : Forall (in_vars s) lits) (Hnd : NoDup lits) (Hpr : forall l, l ∈ lits -> neg l ∉ lits).
Local Abbreviation s' := (storeN lits b s).
Local Abbreviation off := (length (m_cls s)).
Local Abbreviation blk := (lits !!! Nat.shiftr (length lits) 1).

Lemma storeN_lits : lits_of off s' = lits.
Proof. apply alloc_lits. Qed.

Lemma storeN_blk : blk ∈ lits.
Proof.
  apply (list_elem_of_lookup_2 _ (Nat.shiftr (length lits) 1)), list_lookup_lookup_total_lt.
  rewrite Nat.shiftr_div_pow2. apply Nat.div_lt; simpl; lia.
Qed.

Lemma storeN_in i : i < 2 -> lits !!! i ∈ lits.
Proof. intros Hi. apply (list_elem_of_lookup_2 _ i), list_lookup_lookup_total_lt. lia. Qed.

Lemma storeN_vars i : i < 2 -> in_vars s (neg (lits !!! i)).
Proof. intros Hi. apply in_vars_neg. eapply (proj1 (Forall_forall _ _) Hv), storeN_in. lia. Qed.

Lemma storeN_ne : neg (lits !!! 1) <> neg (lits !!! 0).
Proof.
  rewrite (inj_iff neg). pose proof Hnd as Hnd'. rewrite (front lits Hlen) in Hnd'. apply NoDup_cons in Hnd' as [Hn _].
  intros E. apply Hn. rewrite E. left.
Qed.

Lemma storeN_wlists l : wlists s' l = if decide (l = neg (lits !!! 1)) then wlists s l ++ [CLAUSE blk off]
    else if decide (l = neg (lits !!! 0)) then wlists s l ++ [CLAUSE blk off] else wlists s l.
Proof.
  pose proof storeN_ne as Hne. set (s0 := set_cls (m_cls s ++ [mk_clause_obj lits false b false false]) s).
  assert (S0 : sized s0) by (destruct Hs; by split).
  assert (N0 : in_vars s0 (neg (lits !!! 0))) by (apply storeN_vars; lia).
  assert (N1 : in_vars s0 (neg (lits !!! 1))) by (apply storeN_vars; lia).
  unfold storeN, wlists. fold s0. rewrite get_push_watch by (done || by apply put_back_sized).
  rewrite !get_push_watch by done. repeat case_decide; try subst l; try done; congruence.
Qed.

Lemma storeN_new l w : w ∈ wlists s' l -> w ∈ wlists s l \/ (l = neg (lits !!! 0) \/ l = neg (lits !!! 1)) /\ w = CLAUSE blk off.
Proof.
  rewrite storeN_wlists. repeat case_decide; rewrite ?elem_of_app, ?list_elem_of_singleton; auto; intros [Hw| ->]; auto.
Qed.

Lemma storeN_added :
  (forall p i, p < m_qhead s -> i < 2 -> m_trail s !! p = Some (neg (lits !!! i)) -> exists x, x ∈ lits /\ settles s (neg (lits !!! i)) x) ->
  added s s' [mk_clause_obj lits false b false false].
Proof.
  intros Hr. split; try done.
  - unfold storeN. cbv zeta. repeat apply put_back_sized. destruct Hs. by split.
  - intros l w Hw. rewrite storeN_wlists. repeat case_decide; rewrite ?elem_of_app; auto.
  - intros l w Hw. destruct (storeN_new l w Hw) as [|[Hl ->]]; [by left|right].
    assert (Hi : exists i, i < 2 /\ l = neg (lits !!! i)) by (destruct Hl; [exists 0|exists 1]; split; (lia || done)).
    destruct Hi as (i & Hi & ->). split_and!; [by apply storeN_vars| |simpl; rewrite storeN_lits|done].
    + intros p Hp Hpt _. rewrite storeN_lits. by apply (Hr p i).
    + rewrite length_app. simpl. split_and!; [lia|exact storeN_blk|done].
  - constructor; [|constructor]. split; [simpl; lia|exact Hnd|exact Hv|done|exact Hpr].
  - intros o Ho. simpl in Ho. assert (o = off) as -> by lia. unfold attached. rewrite storeN_lits.
    rewrite decide_False by lia. split; exists blk; rewrite storeN_wlists; repeat case_decide; try congruence;
      apply elem_of_app; right; by left.
Qed.

Lemma storeN_binary l l2 d : BINARY l2 d ∈ wlists s' l -> BINARY l2 d ∈ wlists s l.
Proof. intros Hw. by destruct (storeN_new _ _ Hw) as [|[_ ?]]. Qed.
End StoreN.

Lemma mk_nary_clause_ok s lits : inv s -> at_base_lvl s = true -> 3 < length lits -> Forall (in_vars s) lits ->
  Forall (fun l => value l s = l_undef) lits -> NoDup lits -> (forall l, l ∈ lits -> neg l ∉ lits) ->
  adds s lits (mk_nary_clause lits false s).
Proof.
  intros I Hbase Hlen Hv Hu Hnd Hpr. pose proof (inv_sized _ I) as Hs. set (off := length (m_cls s)). set (s2 := storeN lits false s).
  assert (Es : mk_nary_clause lits false s = set_clauses (m_clauses s2 ++ [off]) s2).
  { pose proof (alloc_lits s lits false false) as Ec. unfold lits_of in Ec.
    unfold mk_nary_clause, alloc_clause, attach_nary_clause. cbv zeta.
    change (at_base_lvl (set_cls (m_cls s ++ [mk_clause_obj lits false false false false]) s)) with (at_base_lvl s).
    by rewrite Hbase, Ec. }
  rewrite Es. assert (A : added s s2 [mk_clause_obj lits false false false false]).
  { apply storeN_added; try done. intros p i _ Hi Hpt. exfalso. rewrite Forall_forall in Hv, Hu.
    assert (Hin : lits !!! i ∈ lits) by by apply storeN_in. eapply (undef_not_trail s _ p); [apply I|by apply Hv|by apply Hu|done]. }
  pose proof (added_adds s s2 _ A I (storeN_binary s lits false Hs Hlen Hv Hnd) eq_refl eq_refl eq_refl eq_refl) as Hadds.
  by apply adds_registered.
Qed.

(** ** Adding a clause *)

Lemma mk_clause_core_ok `{Env} s lits : inv s -> at_base_lvl s = true -> Forall (in_vars s) lits ->
  spec (mk_clause_core lits false s) (adds s lits).
Proof.
  intros I Hbase Hv. unfold mk_clause_core, simplify_clause. rewrite Hbase. pose proof (simplify_ok s lits I) as Hok.
  destruct (simplify_clause_core true s lits) as [r|].
  - destruct Hok as (Hval & Hr & Hnd & Hpr).
    assert (Hrv : Forall (in_vars s) r).
    { rewrite Forall_forall in Hv. eapply Forall_impl; [exact Hr|]. intros l [Hl _]. by apply Hv. }
    assert (Hru : Forall (fun l => value l s = l_undef) r) by (eapply Forall_impl; [exact Hr|]; by intros l []).
    assert (Hconv : forall s', adds s r s' -> adds s lits s').
    { intros s' (? & ? & ? & ? & ? & ? & Hm). split_and!; try done. intros a. rewrite Hm.
      split; intros [Hma Hc]; (split; [done|]); pose proof (Hval a (proj2 (proj2 Hma))); congruence. }
    clear Hr Hval. destruct r as [|l1 [|l2 [|l3 [|l4 r]]]].
    + apply spec_ret, Hconv. assert (G : grown s (set_conflict J_NONE None s)) by (apply set_conflict_grown; apply I).
      split_and!; [by eapply inv_grown_base|apply G..|]. intros a. unfold models, set_conflict.
      destruct (m_inconsistent s) eqn:E; simpl; rewrite ?E; unfold clause_val; simpl; naive_solver.
    + apply spec_ret, Hconv. apply Forall_cons in Hrv as [H1 _]. apply Forall_cons in Hru as [U1 _].
      unfold assign_unit, assign. rewrite U1. apply adds_unit; try done. intros a _.
      rewrite clause_val_cons. unfold clause_val. simpl. by rewrite orb_false_r.
    + rewrite !Forall_cons in Hrv. rewrite !Forall_cons in Hru. rewrite NoDup_cons, not_elem_of_cons in Hnd.
      assert (Hne : l2 <> neg l1) by (intros ->; apply (Hpr l1); set_solver).
      eapply spec_mono; [apply mk_bin_clause_ok; try done; tauto|exact Hconv].
    + apply spec_ret, Hconv. by apply mk_ter_clause_ok.
    + apply spec_ret, Hconv. apply mk_nary_clause_ok; try done. simpl. lia.
  - apply spec_ret. split_and!; try done. intros a. split; [|tauto]. intros Hm. split; [done|]. apply Hok, Hm.
Qed.

Lemma mk_clause_ok `{Env} s lits : inv s -> at_base_lvl s = true -> Forall (in_vars s) lits ->
  Forall (in_vars s) (m_user_scope_literals s) ->
  spec (mk_clause lits false s) (adds s (lits ++ m_user_scope_literals s)).
Proof.
  intros I Hbase Hv Hu. set (s0 := set_model_is_current false s).
  assert (I0 : inv s0) by (eapply inv_still; [done|apply grown_still; try done; apply I|done]).
  assert (Hconv : forall c s', adds s0 c s' -> adds s c s').
  { intros c s' (? & ? & ? & ? & ? & ? & Hm). by split_and!. }
  unfold mk_clause. fold s0. change (m_user_scope_literals s0) with (m_user_scope_literals s).
  destruct (m_user_scope_literals s) as [|u us] eqn:E.
  - rewrite app_nil_r. eapply spec_mono; [by apply mk_clause_core_ok|apply Hconv].
  - eapply spec_mono; [apply mk_clause_core_ok; [done|done|]|apply Hconv]. apply Forall_app. split; [exact Hv|exact Hu].
Qed.

Lemma new_solver_inv : inv new_solver.
Proof.
  assert (Hw : forall l w, w ∈ wlists new_solver l -> False).
  { intros l w. unfold wlists, get_wlist. simpl. rewrite list_lookup_total_alt, lookup_nil. simpl. by rewrite elem_of_nil. }
  split; [by split| | |done|intros p l w Hp; simpl in Hp; lia| |intros p x Hp; done].
  - split; [| |constructor].
    + intros l. unfold in_vars, num_vars. simpl. lia.
    + intros l. unfold in_vars, num_vars. simpl. rewrite elem_of_nil. lia.
  - split; [by intros l w Hl%Hw..|by intros l l2 b Hl%Hw|constructor|simpl; lia].
  - split; intros; try (by rewrite lookup_nil in *); simpl in *; set_solver.
Qed.

Lemma new_solver_models a : models new_solver a.
Proof.
  split_and!; [done| |constructor]. split; [|constructor]. intros l l2 b Hw.
  unfold wlists, get_wlist in Hw. simpl in Hw. rewrite list_lookup_total_alt, lookup_nil in Hw. by apply elem_of_nil in Hw.
Qed.

(** A new level is begun when everything has been propagated. *)
Lemma push_inv s : inv s -> m_qhead s = length (m_trail s) -> inv (push s).
Proof.
  intros [[] [] [? ? ? Hc ?] ? ? [Hr Hst Hh] Hre] Hq. split; [by split|by split| |done|done| |done].
  - split; try done. eapply Forall_impl; [exact Hc|]. intros c []. by split.
  - split; [|exact Hst|].
    + intros l Hl. specialize (Hr l Hl). unfold lvl in *. simpl. lia.
    + intros p x Hp Hx. apply lookup_lt_Some in Hx. simpl in Hp, Hx. lia.
Qed.

(** ** The interface *)

Lemma models_vars s a a' : inv s -> (forall v, v < num_vars s -> a v = a' v) -> models s a -> models s a'.
Proof.
  intros I Ha (Hi & [Hb Hc] & Ht). pose proof (inv_linked _ I) as [H1 H2 _ H4 _].
  assert (El : forall l, in_vars s l -> lit_val a' l = lit_val a l) by (intros l Hl; apply lit_val_ext; symmetry; by apply Ha).
  split_and!; [done|split|].
  - intros l l2 b Hw. rewrite (El l), (El l2); [by eapply Hb|by apply (H2 _ _ Hw)|by eapply H1].
  - apply Forall_forall. intros c Hin. rewrite Forall_forall in Hc, H4. rewrite <- (Hc c Hin). apply clause_val_ext.
    eapply Forall_impl; [apply (H4 c Hin)|]. intros l Hl. symmetry. by apply Ha.
  - unfold trail_holds in *. rewrite Forall_forall in Ht |- *. intros l Hl. rewrite El by (by apply trail_vars; [apply I|]). by apply Ht.
Qed.

Global Instance solver_SolverCoreOk `{Env} : SolverCoreOk solver.
Proof.
  refine {| usable_solver s := inv s /\ at_base_lvl s = true /\ m_user_scope_literals s = []
              /\ m_scopes s = [] /\ m_clauses_to_reinit s = [];
            vars := num_vars; sats := models |}.
  - intros ext s (I & Hb & Hu & Hs & Hr). pose proof (mk_var_num ext true s) as Hn. pose proof (mk_var_inv ext true s I) as I'.
    simpl. split_and!; try done. intros a. apply (mk_var_models ext true s).
  - intros c s (I & Hb & Hu & Hs & Hr) Hc. eapply spec_mono; [apply mk_clause_ok; [done|done|done|by rewrite Hu]|].
    rewrite Hu, app_nil_r. intros s' (I' & Hn & Hl & Hus & Hsc & Hre & Hm). split_and!; try done; [|congruence..].
    unfold at_base_lvl in *. by rewrite Hl.
  - intros v b s (I & Hb & Hu & Hs & Hr). split_and!; try done. eapply inv_still; [done|apply grown_still; try done; apply I|done].
  - intros s a a' (I & _) Ha Hm. by eapply models_vars.
Defined.
