(* ===== verification/SatAnalyze.v ===== *)
(** * SatAnalyze: the lemma of a conflict follows from the clauses

    The analysis of a conflict ends, with a lemma that follows from the clauses
    and the literals of the base level, that is false, and of which one literal
    is of the current level.  Minimizing it and subsumption leave it so. *)
From Stdlib Require Import ZArith Lia.
From stdpp Require Import base list sets.
From S2P Require Import Prelude SatTypes SatSolver SatConflict SatInv SatPropagate.
Import solver.

(** ** Marks *)

Lemma is_marked_insert w v b marks : v < length marks ->
  is_marked w (<[v := b]> marks) = if decide (w = v) then b else is_marked w marks.
Proof.
  intros Hv. unfold is_marked. case_decide as E; [subst; by rewrite list_lookup_insert_eq|by rewrite list_lookup_insert_ne by congruence].
Qed.

Lemma is_marked_none n v : is_marked v (replicate n false) = false.
Proof.
  unfold is_marked. destruct (replicate n false !! v) eqn:E; [|done]. by apply lookup_replicate in E as [-> _].
Qed.

(** ** A conflict *)

Record conflicted (s : solver) : Prop := {
  cd_sized : sized s;
  cd_assigned : assigned s;
  cd_linked : linked (wlists s) s;
  cd_levels : levels s;
  cd_reasons : reasons (says s) s;
  cd_refutes : refutes (says s) s (m_conflict s) (m_not_l s);
}.

Lemma conflicting_conflicted s s' : conflicting s s' -> conflicted s'.
Proof. intros []. by split. Qed.

(** Two different literals of a clause are at 0 and 1. *)
Lemma front2 (c : list literal) : 2 <= length c -> c = c !!! 0 :: c !!! 1 :: drop 2 c.
Proof. intros. destruct c as [|x [|y c]]; simpl in *; [lia..|]. by rewrite drop_0. Qed.

Lemma lits_ok W s off : linked W s -> off < length (m_cls s) -> 3 <= length (lits_of off s) /\ NoDup (lits_of off s)
  /\ Forall (in_vars s) (lits_of off s) /\ forall x, x ∈ lits_of off s -> neg x ∉ lits_of off s.
Proof.
  intros Hk Hoff. destruct (lookup_lt_is_Some_2 _ _ Hoff) as [c Hc]. unfold lits_of, get_clause.
  rewrite (list_lookup_total_correct _ _ _ Hc). pose proof (Forall_lookup_1 _ _ _ _ (li_clause _ _ Hk) Hc) as []. done.
Qed.

(** The antecedents of a clause are the negations of its literals but one. *)
Lemma clause_antecedents s off x : 2 <= length (lits_of off s) -> in_front s off x ->
  exists rest, antecedents (Some (is_literal x)) (J_CLAUSE off) s = neg <$> rest /\ lits_of off s ≡ₚ x :: rest.
Proof.
  intros Hlen Hf. pose proof (front2 _ Hlen) as E. unfold antecedents. change (m_lits (get_clause off s)) with (lits_of off s).
  unfold is_literal. case_bool_decide as E0.
  - exists (drop 1 (lits_of off s)). split; [done|]. rewrite E, E0 at 1. by rewrite E.
  - destruct Hf as [?|E1]; [done|]. exists (lits_of off s !!! 0 :: drop 2 (lits_of off s)). split; [done|].
    rewrite E, E1 at 1. constructor.
Qed.

(** What explains a literal or a conflict gives antecedents that force it. *)
Lemma explains_antecedents W (Φ : assignment -> Prop) s before c j : linked W s -> (forall a, Φ a -> holds W s a) -> explains Φ s before c j ->
  let A := antecedents (is_literal <$> c) j s in
  (forall y, y ∈ A -> y ∈ before)
  /\ (forall y, neg y ∈ reason_lits s j -> c <> Some (neg y) -> y ∈ A)
  /\ (forall a, Φ a -> Forall (fun y => lit_val a y = true) A -> match c with Some x => lit_val a x = true | None => False end).
Proof.
  intros Hk HΦ He. cbn zeta.
  assert (Hcl : forall a rest, clause_val a (option_list c ++ rest) = true -> Forall (fun y => lit_val a y = true) (neg <$> rest) ->
    match c with Some x => lit_val a x = true | None => False end).
  { intros a rest Hv Hr. rewrite clause_val_app in Hv. assert (Hf : clause_val a rest = false).
    { apply not_true_is_false. intros (y & Hy & Hl)%clause_val_true. rewrite Forall_fmap, Forall_forall in Hr.
      specialize (Hr y Hy). simpl in Hr. by rewrite lit_val_neg, Hl in Hr. }
    rewrite Hf, orb_false_r in Hv. destruct c as [x|]; [|done]. simpl in Hv. by rewrite clause_val_cons, orb_false_r in Hv. }
  assert (Hin : forall (rest : list literal) y, y ∈ neg <$> rest <-> neg y ∈ rest).
  { intros rest y. rewrite list_elem_of_fmap. split; [intros (z & -> & Hz); by rewrite neg_involutive|].
    intros Hy. exists (neg y). by rewrite neg_involutive. }
  destruct j as [|l|l1 l2|off]; [done|..].
  - destruct He as [Hb Hv]. change (antecedents _ _ s) with (neg <$> [l]). split_and!.
    + intros y Hy. apply list_elem_of_singleton in Hy as ->. done.
    + intros y Hy _. by apply Hin.
    + intros a Ha. by apply Hcl, Hv.
  - destruct He as (Hb1 & Hb2 & Hv). change (antecedents _ _ s) with (neg <$> [l1; l2]). split_and!.
    + intros y Hy. apply elem_of_cons in Hy as [->|Hy]; [done|]. by apply list_elem_of_singleton in Hy as ->.
    + intros y Hy _. by apply Hin.
    + intros a Ha. by apply Hcl, Hv.
  - destruct He as (Hoff & Hf & Hb). destruct (lits_ok _ _ _ Hk Hoff) as (Hlen & Hnd & _ & _).
    assert (E : exists rest, antecedents (is_literal <$> c) (J_CLAUSE off) s = neg <$> rest /\ lits_of off s ≡ₚ option_list c ++ rest).
    { destruct c as [x|]; [|by exists (lits_of off s)]. apply clause_antecedents; [lia|]. by apply Hf. }
    destruct E as (rest & -> & Hp). split_and!.
    + intros y Hy%Hin. rewrite <- (neg_involutive y). apply Hb; [rewrite Hp; set_solver|]. intros ->. rewrite Hp in Hnd.
      apply NoDup_cons in Hnd as [Hn _]. done.
    + intros y Hy Hne. apply Hin. simpl in Hy. rewrite Hp, elem_of_app in Hy. destruct Hy as [Hy|]; [|done].
      destruct c as [x|]; [|by apply elem_of_nil in Hy]. apply list_elem_of_singleton in Hy. by rewrite Hy in Hne.
    + intros a Ha. apply Hcl. rewrite <- Hp. eapply holds_lits; [by apply HΦ|done].
Qed.

(** ** The loop *)

Section Analysis.
Context (s : solver) (C : conflicted s) (above : 0 < m_scope_lvl s).
Local Abbreviation L := (Z.of_nat (m_scope_lvl s)).
Local Abbreviation T := (m_trail s).

Lemma trail_eq x y : x ∈ T -> y ∈ T -> var x = var y -> x = y.
Proof.
  intros Hx Hy E. destruct (same_var x y E) as [-> | ->]; [done|]. by destruct (trail_neg _ _ (cd_assigned _ C) Hx).
Qed.

Lemma lvl_neg l : lvl (neg l) s = lvl l s.
Proof. unfold lvl. by rewrite var_neg. Qed.

(** The literals that are marked: those of the current level are among the first
    [n], those of lower levels are negated in the lemma. *)
Record marked_state (n : nat) (a : analysis) : Prop := {
  ms_length : length (m_mark a) = num_vars s;
  ms_trail v : is_marked v (m_mark a) = true -> exists x, x ∈ T /\ var x = v /\ (0 < lvl x s)%Z /\ (lvl x s = L -> x ∈ take n T);
  ms_lemma l : l ∈ m_lemma a <-> neg l ∈ T /\ (lvl l s < L)%Z /\ is_marked (var l) (m_mark a) = true;
  ms_nodup : NoDup (m_lemma a);
  ms_num : exists cur, NoDup cur /\ (forall x, x ∈ cur <-> x ∈ T /\ lvl x s = L /\ is_marked (var x) (m_mark a) = true)
    /\ num_marks a = Z.of_nat (length cur);
}.

(** The assignment agrees with what is marked. *)
Definition marked_hold (a : analysis) (α : assignment) : Prop :=
  (forall x, x ∈ T -> lvl x s = L -> is_marked (var x) (m_mark a) = true -> lit_val α x = true)
  /\ (forall l, l ∈ m_lemma a -> lit_val α l = false).

(** A literal that is marked, or of the base level. *)
Definition seen (a : analysis) (x : literal) : Prop := lvl x s = 0%Z \/ is_marked (var x) (m_mark a) = true.

Lemma seen_true n a x α : marked_state n a -> x ∈ T -> seen a x -> says s α -> marked_hold a α -> lit_val α x = true.
Proof.
  intros M Hx [H0|Hm] [_ Hb] [H1 H2]; [by apply Hb|]. pose proof (lv_range _ (cd_levels _ C) x Hx) as Hr.
  destruct (decide (lvl x s = L)) as [E|E]; [by apply H1|].
  assert (Hl : neg x ∈ m_lemma a) by (apply (ms_lemma _ _ M); rewrite neg_involutive, var_neg, lvl_neg; split_and!; [done|lia|done]).
  specialize (H2 _ Hl). rewrite lit_val_neg in H2. by destruct (lit_val α x).
Qed.

(** More marks. *)
Record marks_grow (a a' : analysis) : Prop := {
  mg_mark v : is_marked v (m_mark a) = true -> is_marked v (m_mark a') = true;
  mg_hold α : marked_hold a' α -> marked_hold a α;
  mg_num : (num_marks a <= num_marks a')%Z;
}.

Lemma marks_grow_refl a : marks_grow a a.
Proof. by split. Qed.

Lemma marks_grow_trans a a' a'' : marks_grow a a' -> marks_grow a' a'' -> marks_grow a a''.
Proof. intros [] []. split; [auto..|lia]. Qed.

Lemma process_antecedent_ok n a x : marked_state n a -> x ∈ take n T ->
  let a' := process_antecedent L s x a in marked_state n a' /\ marks_grow a a' /\ seen a' x.
Proof.
  intros M Hx. pose proof (subseteq_take _ _ _ Hx) as Hin. pose proof (lv_range _ (cd_levels _ C) x Hin) as Hr.
  assert (Hv : var x < length (m_mark a)) by (rewrite (ms_length _ _ M); by apply (trail_vars _ _ (cd_assigned _ C))).
  unfold process_antecedent. cbv zeta. destruct (is_marked (var x) (m_mark a)) eqn:Em; simpl.
  { split_and!; [done|apply marks_grow_refl|by right]. }
  destruct (Z.ltb_spec 0 (lvl x s)); [|split_and!; [done|apply marks_grow_refl|left; lia]].
  assert (Hmk : forall w, is_marked w (<[var x := true]> (m_mark a)) = true <-> w = var x \/ is_marked w (m_mark a) = true).
  { intros w. rewrite is_marked_insert by done. case_decide; naive_solver. }
  assert (Hold : forall w, is_marked w (m_mark a) = true -> is_marked w (<[var x := true]> (m_mark a)) = true) by (intros w Hw; apply Hmk; by right).
  assert (Htr : forall v, is_marked v (<[var x := true]> (m_mark a)) = true ->
     exists y, y ∈ T /\ var y = v /\ (0 < lvl y s)%Z /\ (lvl y s = L -> y ∈ take n T)).
  { intros v [->|Hm]%Hmk; [|by apply (ms_trail _ _ M)]. by exists x. }
  destruct (Z.eqb_spec (lvl x s) L) as [E|E].
  - split_and!; [split| |right; apply Hmk; by left].
    + simpl. by rewrite length_insert, (ms_length _ _ M).
    + exact Htr.
    + intros l. simpl. rewrite (ms_lemma _ _ M), Hmk. split; [naive_solver|]. intros (H1 & H2 & [H3|H3]); [|done].
      exfalso. assert (lvl l s = lvl x s) by (unfold lvl; by rewrite H3). lia.
    + apply M.
    + destruct (ms_num _ _ M) as (cur & Hnd & Hc & Hn). exists (x :: cur). simpl. split_and!; [|intros y|lia].
      * constructor; [|done]. rewrite Hc. intros (_ & _ & ?). congruence.
      * rewrite elem_of_cons, Hc, Hmk. split; [naive_solver|]. intros (H1 & H2 & [H3|H3]); [|naive_solver].
        left. by apply trail_eq.
    + split; [exact Hold| |simpl; lia]. intros α [H1 H2]. split; [|exact H2]. intros y Hy Hl Hm. apply H1; [done..|by apply Hold].
  - assert (Hlt : (lvl x s < L)%Z) by lia. split_and!; [split| |right; apply Hmk; by left].
    + simpl. by rewrite length_insert, (ms_length _ _ M).
    + exact Htr.
    + intros l. simpl. rewrite elem_of_app, list_elem_of_singleton, (ms_lemma _ _ M), Hmk. split.
      * intros [(? & ? & ?)| ->]; [by auto|]. rewrite neg_involutive, var_neg, lvl_neg. auto.
      * intros (H1 & H2 & [H3|H3]); [right|by left]. apply neg_eq. apply trail_eq; [done..|by rewrite var_neg].
    + simpl. apply NoDup_app. split_and!; [apply M| |apply NoDup_singleton]. intros l Hl ->%list_elem_of_singleton.
      apply (ms_lemma _ _ M) in Hl as (_ & _ & Hl). rewrite var_neg in Hl. congruence.
    + destruct (ms_num _ _ M) as (cur & Hnd & Hc & Hn). exists cur. simpl. split_and!; [done|intros y|done].
      rewrite Hc, Hmk. split; [naive_solver|]. intros (H1 & H2 & [H3|H3]); [|done].
      exfalso. assert (lvl y s = lvl x s) by (unfold lvl; by rewrite H3). lia.
    + split; [exact Hold| |simpl; lia]. intros α [H1 H2]. split.
      * intros y Hy Hl Hm. apply H1; [done..|by apply Hold].
      * intros l Hl. apply H2. simpl. set_solver.
Qed.

Lemma process_antecedents_ok n A : forall a, marked_state n a -> (forall x, x ∈ A -> x ∈ take n T) ->
  let a' := process_antecedents L s A a in marked_state n a' /\ marks_grow a a' /\ forall x, x ∈ A -> seen a' x.
Proof.
  induction A as [|x A IH]; intros a M HA; cbn zeta.
  { split_and!; [done|apply marks_grow_refl|]. intros x Hx. by apply elem_of_nil in Hx. }
  simpl. destruct (process_antecedent_ok n a x M) as (M1 & G1 & S1); [apply HA; by left|].
  destruct (IH _ M1) as (M2 & G2 & S2); [intros y Hy; apply HA; by right|]. split_and!; [done|by eapply marks_grow_trans|].
  intros y [->|Hy]%elem_of_cons; [|by apply S2]. destruct S1 as [?|?]; [by left|right]. by apply G2.
Qed.

(** A marked literal of the current level is found, and it is of that level. *)
Lemma last_marked_some marks n : forall idx, last_marked n marks s = Some idx ->
  idx < n /\ is_marked (var (T !!! idx)) marks = true /\ forall p, idx < p < n -> is_marked (var (T !!! p)) marks = false.
Proof.
  induction n as [|n IH]; intros idx; simpl; [done|]. destruct (is_marked (var (T !!! n)) marks) eqn:E.
  - intros [= <-]. split_and!; [lia|done|lia].
  - intros H. destruct (IH _ H) as (? & ? & Hp). split_and!; [lia|done|]. intros p Hlt.
    destruct (decide (p = n)) as [->|]; [done|]. apply Hp. lia.
Qed.

Lemma last_marked_none marks n : last_marked n marks s = None -> forall p, p < n -> is_marked (var (T !!! p)) marks = false.
Proof.
  induction n as [|n IH]; simpl; [lia|]. destruct (is_marked (var (T !!! n)) marks) eqn:E; [done|].
  intros H p Hp. destruct (decide (p = n)) as [->|]; [done|]. apply IH; [done|lia].
Qed.

(** The state at the head of the loop; [c] and [j] are to be resolved next. *)
Record loop_state (n : nat) (c : option literal) (j : justification) (a : analysis) : Prop := {
  lp_marked : marked_state n a;
  lp_bound : n <= length T;
  lp_explains : explains (says s) s (take n T) c j;
  lp_implied α : says s α -> match c with Some x => lit_val α x = true | None => False end -> marked_hold a α -> False;
  lp_current : (0 < num_marks a)%Z
    \/ exists y, y ∈ antecedents (is_literal <$> c) j s /\ lvl y s = L;
}.

(** What the loop returns. *)
Record analyzed (x : literal) (rest : list literal) (marks : list bool) : Prop := {
  an_uip : x ∈ T /\ lvl x s = L;
  an_rest l : l ∈ rest <-> neg l ∈ T /\ (lvl l s < L)%Z /\ is_marked (var l) marks = true;
  an_nodup : NoDup rest;
  an_marks v : is_marked v marks = true -> exists l, l ∈ rest /\ var l = v /\ (0 < lvl l s)%Z;
  an_length : length marks = num_vars s;
  an_implied α : says s α -> lit_val α x = true -> Forall (fun l => lit_val α l = false) rest -> False;
}.

(** Unmarking the literal at [idx]. *)
Lemma unmark_state n a idx : marked_state n a -> n <= length T -> last_marked n (m_mark a) s = Some idx -> lvl (T !!! idx) s = L ->
  marked_state idx (mk_analysis (<[var (T !!! idx) := false]> (m_mark a)) (m_lemma a) (num_marks a - 1)).
Proof.
  intros M Hn Hlast Hlv. destruct (last_marked_some _ _ _ Hlast) as (Hlt & Hm & Hrest). set (x := T !!! idx) in *.
  assert (Hidx : T !! idx = Some x) by (apply list_lookup_lookup_total_lt; lia).
  assert (Hx : x ∈ T) by by eapply list_elem_of_lookup_2.
  assert (Hv : var x < length (m_mark a)) by (rewrite (ms_length _ _ M); by apply (trail_vars _ _ (cd_assigned _ C))).
  assert (Hmk : forall w, is_marked w (<[var x := false]> (m_mark a)) = true <-> w <> var x /\ is_marked w (m_mark a) = true).
  { intros w. rewrite is_marked_insert by done. case_decide; naive_solver. }
  split; simpl.
  - by rewrite length_insert, (ms_length _ _ M).
  - intros v [Hne Hv']%Hmk. destruct (ms_trail _ _ M v Hv') as (y & Hy & <- & Hpos & Hcur). exists y. split_and!; [done..|].
    intros Hl. specialize (Hcur Hl). apply list_elem_of_lookup in Hcur as [p Hp]. apply lookup_take_Some in Hp as [Hp Hpn].
    apply list_elem_of_lookup. exists p. apply lookup_take_Some. split; [done|].
    destruct (decide (p < idx)) as [|Hge]; [done|]. destruct (decide (p = idx)) as [->|Hne'].
    + rewrite Hidx in Hp. injection Hp as <-. done.
    + pose proof (Hrest p ltac:(lia)) as Hf. rewrite (list_lookup_total_correct _ _ _ Hp) in Hf. congruence.
  - intros l. rewrite (ms_lemma _ _ M), Hmk. split; [|naive_solver]. intros (H1 & H2 & H3). split_and!; [done..| |done].
    intros E. assert (lvl l s = lvl x s) by (unfold lvl; by rewrite E). lia.
  - apply M.
  - destruct (ms_num _ _ M) as (cur & Hnd & Hc & Hnum). assert (Hxc : x ∈ cur) by by apply Hc.
    apply elem_of_Permutation in Hxc as [cur' Hp]. exists cur'. rewrite Hp in Hnd. apply NoDup_cons in Hnd as [Hnx Hnd].
    split_and!; [done| |rewrite Hnum, Hp; simpl; lia]. intros y. rewrite Hmk. split.
    + intros Hy. assert (Hyc : y ∈ cur) by (rewrite Hp; by right). apply Hc in Hyc as (? & ? & ?). split_and!; try done.
      intros E. assert (y = x) as -> by by apply trail_eq. done.
    + intros (H1 & H2 & Hne & H3). assert (Hyc : y ∈ cur) by by apply Hc. rewrite Hp in Hyc.
      apply elem_of_cons in Hyc as [->|]; [|done]. done.
Qed.

(** A literal of the current level is marked. *)
Lemma marked_current n a : marked_state n a -> (0 < num_marks a)%Z ->
  exists x, x ∈ take n T /\ lvl x s = L /\ is_marked (var x) (m_mark a) = true.
Proof.
  intros M Hp. destruct (ms_num _ _ M) as (cur & _ & Hc & Hnum). destruct cur as [|y cur]; [simpl in Hnum; lia|].
  assert (Hy : y ∈ y :: cur) by by left. apply Hc in Hy as (Hy & Hl & Hm). exists y. split_and!; [|done..].
  destruct (ms_trail _ _ M _ Hm) as (z & Hz & Ez & _ & Hcz). assert (z = y) as -> by by apply trail_eq. by apply Hcz.
Qed.

(** The last one that is marked is of the current level. *)
Lemma last_current n a x : x ∈ take n T -> n <= length T -> lvl x s = L -> is_marked (var x) (m_mark a) = true ->
  exists idx, last_marked n (m_mark a) s = Some idx /\ idx < n /\ T !! idx = Some (T !!! idx) /\ lvl (T !!! idx) s = L.
Proof.
  intros Hx Hn Hxl Hxm. apply list_elem_of_lookup in Hx as [p Hp]. apply lookup_take_Some in Hp as [Hp Hpn].
  destruct (last_marked n (m_mark a) s) as [idx|] eqn:El.
  2: { pose proof (last_marked_none _ _ El p Hpn) as Hno. rewrite (list_lookup_total_correct _ _ _ Hp) in Hno. congruence. }
  destruct (last_marked_some _ _ _ El) as (Hlt & _ & Hrest). exists idx.
  assert (Hidx : T !! idx = Some (T !!! idx)) by (apply list_lookup_lookup_total_lt; lia). split_and!; [done..|].
  assert (Hpi : p <= idx).
  { destruct (decide (p <= idx)); [done|]. pose proof (Hrest p ltac:(lia)) as Hno.
    rewrite (list_lookup_total_correct _ _ _ Hp) in Hno. congruence. }
  pose proof (lv_sorted _ (cd_levels _ C) p idx x _ Hpi Hp Hidx).
  pose proof (lv_range _ (cd_levels _ C) _ (list_elem_of_lookup_2 _ _ _ Hidx)). lia.
Qed.

(** Without its mark the literal has to hold on its own. *)
Lemma unmark_hold n a u num α : marked_state n a -> u ∈ T -> lit_val α u = true ->
  marked_hold (mk_analysis (<[var u := false]> (m_mark a)) (m_lemma a) num) α -> marked_hold a α.
Proof.
  intros M Hu Ht [H1 H2]. split; [|exact H2]. intros y Hy Hl Hym.
  destruct (decide (y = u)) as [->|Hne]; [done|]. apply H1; [done..|]. simpl.
  rewrite is_marked_insert by (rewrite (ms_length _ _ M); by apply (trail_vars _ _ (cd_assigned _ C))).
  rewrite decide_False; [done|]. intros E. by apply Hne, trail_eq.
Qed.

(** It was the only one: the lemma is complete. *)
Lemma alone_analyzed n a u : marked_state n a -> num_marks a = 0%Z -> u ∈ T -> lvl u s = L ->
  (forall α, says s α -> lit_val α u = true -> marked_hold a α -> False) -> analyzed u (m_lemma a) (m_mark a).
Proof.
  intros M E0 Hu Hul Himp. destruct (ms_num _ _ M) as (cur & _ & Hc & Hnum).
  assert (cur = []) as -> by (rewrite E0 in Hnum; destruct cur; [done|simpl in Hnum; lia]).
  assert (Hnocur : forall y, y ∈ T -> lvl y s = L -> is_marked (var y) (m_mark a) = true -> False).
  { intros y Hy Hl Hym. by apply (elem_of_nil y), Hc. }
  split; try apply M; [done| |].
  - intros v Hvm. destruct (ms_trail _ _ M v Hvm) as (y & Hy & <- & Hpos & _). exists (neg y). rewrite var_neg, lvl_neg.
    split_and!; [|done..]. apply (ms_lemma _ _ M). rewrite neg_involutive, var_neg, lvl_neg. split_and!; [done| |done].
    pose proof (lv_range _ (cd_levels _ C) y Hy). destruct (decide (lvl y s = L)) as [El'|]; [|lia]. by destruct (Hnocur y).
  - intros α Hs Ht Hf'. apply (Himp α Hs Ht). split; [intros y Hy Hl Hym; by destruct (Hnocur y)|].
    intros l Hl. rewrite Forall_forall in Hf'. by apply Hf'.
Qed.

(** It was not: the literal is not the decision, so it has a reason. *)
Lemma not_alone_reason idx a u : marked_state idx a -> (0 < num_marks a)%Z -> T !! idx = Some u -> lvl u s = L ->
  explains (says s) s (take idx T) (Some u) (m_justification s !!! var u).
Proof.
  intros M Hpos Hidx Hul. pose proof (cd_reasons _ C idx u Hidx) as Hr. rewrite Hul in Hr. specialize (Hr ltac:(lia)). unfold reason in Hr.
  destruct (m_justification s !!! var u) as [|l|l1 l2|off] eqn:Ej; [|exact Hr..]. exfalso.
  destruct (marked_current idx a M Hpos) as (y & Hy & Hl & _). apply list_elem_of_lookup in Hy as [q Hq].
  apply lookup_take_Some in Hq as [Hq Hqi]. specialize (Hr q y Hqi Hq). lia.
Qed.

Lemma resolve_loop_ok fuel : forall n c j a, n < fuel -> loop_state n c j a ->
  exists x a', resolve_loop fuel L s n c j a = mret (x, a') /\ analyzed x (m_lemma a') (m_mark a').
Proof.
  induction fuel as [|fuel IH]; intros n c j a Hf E; [lia|]. destruct E as [M Hn He Himp Hcur]. simpl.
  destruct (explains_antecedents _ _ _ _ _ _ (cd_linked _ C) (fun α => @proj1 _ _) He) as (HA & _ & Hforce).
  destruct (process_antecedents_ok n _ a M HA) as (M1 & G1 & S1). set (A := antecedents _ j s) in *.
  set (a1 := process_antecedents L s A a) in *.
  assert (Hcur1 : exists x, x ∈ take n T /\ lvl x s = L /\ is_marked (var x) (m_mark a1) = true).
  { destruct Hcur as [Hp|(y & Hy & Hl)]; [apply (marked_current n a1 M1); pose proof (mg_num _ _ G1); lia|].
    exists y. split_and!; [by apply HA|done|]. destruct (S1 y Hy) as [?|?]; [lia|done]. }
  assert (Himp1 : forall α, says s α -> marked_hold a1 α -> False).
  { intros α Hs Hh. assert (HAt : Forall (fun y => lit_val α y = true) A).
    { apply Forall_forall. intros y Hy. eapply seen_true; [exact M1| |by apply S1|done|done]. eapply subseteq_take. by apply HA. }
    specialize (Hforce α Hs HAt). apply (Himp α Hs); [exact Hforce|by apply G1]. }
  destruct Hcur1 as (x & Hx & Hxl & Hxm). destruct (last_current n a1 x Hx Hn Hxl Hxm) as (idx & El & Hlt & Hidx & Hul). rewrite El.
  set (u := T !!! idx) in *. assert (Hu : u ∈ T) by by eapply list_elem_of_lookup_2.
  pose proof (unmark_state n a1 idx M1 Hn El Hul) as M2. fold u in M2. set (a2 := mk_analysis _ _ _) in *.
  assert (Himp2 : forall α, says s α -> lit_val α u = true -> marked_hold a2 α -> False).
  { intros α Hs Ht Hh. by apply (Himp1 α Hs), (unmark_hold n a1 u (num_marks a1 - 1) α). }
  change (num_marks a1 - 1 =? 0)%Z with (num_marks a2 =? 0)%Z. destruct (Z.eqb_spec (num_marks a2) 0) as [E0|E0].
  - exists u, a2. split; [done|]. by apply (alone_analyzed idx).
  - assert (Hpos : (0 < num_marks a2)%Z) by (destruct (ms_num _ _ M2) as (cur & _ & _ & Hnum); lia).
    apply IH; [lia|]. split; [exact M2|lia|by apply (not_alone_reason idx a2)|intros α Hs Ht; by apply Himp2|by left].
Qed.

Lemma no_marks : marked_state (length T) (mk_analysis (replicate (num_vars s) false) [] 0).
Proof.
  split; simpl.
  - apply length_replicate.
  - intros v. by rewrite is_marked_none.
  - intros l. rewrite is_marked_none, elem_of_nil. naive_solver.
  - constructor.
  - exists []. split_and!; [constructor| |done]. intros x. rewrite is_marked_none, elem_of_nil. naive_solver.
Qed.

(** A marked literal of the current level is counted. *)
Lemma num_marks_pos n a x : marked_state n a -> x ∈ T -> lvl x s = L -> is_marked (var x) (m_mark a) = true -> (0 < num_marks a)%Z.
Proof.
  intros M Hx Hl Hm. destruct (ms_num _ _ M) as (cur & _ & Hc & ->). assert (Hin : x ∈ cur) by by apply Hc.
  destruct cur; [by apply elem_of_nil in Hin|]. simpl. lia.
Qed.

Lemma skip_nothing : skip_literals_above_conflict_level L s = length T.
Proof.
  unfold skip_literals_above_conflict_level. destruct (length T) as [|n] eqn:E; [done|]. simpl.
  assert (Hn : T !! n = Some (T !!! n)) by (apply list_lookup_lookup_total_lt; lia).
  pose proof (lv_range _ (cd_levels _ C) _ (list_elem_of_lookup_2 _ _ _ Hn)). destruct (Z.ltb_spec L (lvl (T !!! n) s)); [lia|done].
Qed.

Lemma analyze_ok : exists x rest marks, analyze s = mret (neg x :: rest, marks) /\ analyzed x rest marks.
Proof.
  destruct (cd_refutes _ C) as [Htrue He (y & Hy & Hyl & Hcur)].
  unfold analyze. cbv zeta. unfold get_max_lvl. rewrite skip_nothing.
  set (a0 := match m_not_l s with Some l => _ | None => _ end).
  assert (E : loop_state (length T) (neg <$> m_not_l s) (m_conflict s) a0).
  { assert (M : marked_state (length T) a0 /\ forall x, m_not_l s = Some x -> seen a0 x).
    { unfold a0. destruct (m_not_l s) as [x|]; [|by split; [apply no_marks|]].
      destruct (process_antecedent_ok (length T) _ x no_marks) as (M & _ & S); [rewrite take_ge by done; by apply Htrue|].
      split; [done|]. by intros z [= <-]. }
    destruct M as [M S]. split; [exact M|done|by rewrite take_ge| |].
    - intros α Hs Hc Hh. destruct (m_not_l s) as [x|] eqn:Ex; [|done]. simpl in Hc. rewrite lit_val_neg in Hc.
      rewrite (seen_true _ _ x α M) in Hc; [done|by apply Htrue|by apply S|done..].
    - destruct Hcur as [Ex|Hin].
      + left. eapply num_marks_pos; [exact M|done..|]. destruct (S y Ex); [lia|done].
      + destruct (explains_antecedents _ _ _ _ _ _ (cd_linked _ C) (fun α => @proj1 _ _) He) as (_ & HA & _).
        destruct (decide (m_not_l s = Some y)) as [Ex|Ex].
        * left. eapply num_marks_pos; [exact M|done..|]. destruct (S y Ex); [lia|done].
        * right. exists y. split; [|done]. apply HA; [done|]. intros Eq. apply Ex. destruct (m_not_l s); [|done].
          simpl in Eq. f_equal. apply (inj neg). congruence. }
  destruct (resolve_loop_ok (S (length T)) (length T) _ _ _ ltac:(lia) E) as (x & a' & Er & Han). rewrite Er.
  by exists x, (m_lemma a'), (m_mark a').
Qed.

(** ** Minimization *)

(** Where the reason of a marked literal is marked as well. *)
Definition closed (marks : list bool) (x : literal) : Prop :=
  m_justification s !!! var x <> J_NONE
  /\ forall y, y ∈ antecedents (Some (is_literal x)) (m_justification s !!! var x) s -> lvl y s = 0%Z \/ is_marked (var y) marks = true.

(** What is marked is false in the lemma or follows from other marked literals. *)
Definition founded (K : list literal) (marks : list bool) : Prop :=
  forall x, x ∈ T -> is_marked (var x) marks = true -> (0 < lvl x s)%Z /\ (neg x ∈ K \/ closed marks x).

Lemma founded_true K marks α : founded K marks -> says s α -> (forall l, l ∈ K -> lit_val α l = false) ->
  forall x, x ∈ T -> is_marked (var x) marks = true -> lit_val α x = true.
Proof.
  intros F Hs HK.
  assert (H : forall n p x, p < n -> T !! p = Some x -> is_marked (var x) marks = true -> lit_val α x = true).
  { induction n as [|n IH]; intros p x Hp Hx Hm; [lia|]. pose proof (list_elem_of_lookup_2 _ _ _ Hx) as Hin.
    destruct (F x Hin Hm) as [Hpos [Hk|[Hj Hant]]].
    - specialize (HK _ Hk). rewrite lit_val_neg in HK. by destruct (lit_val α x).
    - pose proof (cd_reasons _ C p x Hx Hpos) as Hr. unfold reason in Hr.
      assert (He : explains (says s) s (take p T) (Some x) (m_justification s !!! var x)) by (revert Hr Hj; by destruct (m_justification s !!! var x)).
      destruct (explains_antecedents _ _ _ _ _ _ (cd_linked _ C) (fun α => @proj1 _ _) He) as (Hb & _ & Hf).
      apply (Hf α Hs). apply Forall_forall. intros y Hy. specialize (Hb y Hy). destruct (Hant y Hy) as [H0|Hmy].
      + apply Hs; [by eapply subseteq_take|done].
      + apply list_elem_of_lookup in Hb as [q Hq]. apply lookup_take_Some in Hq as [Hq Hqp]. eapply (IH q); [lia|done..]. }
  intros x Hx Hm. apply list_elem_of_lookup in Hx as [p Hp]. apply (H (S p) p); [lia|done..].
Qed.

(** The consequent is recognized by its variable. *)
Lemma has_var_antecedents l x p : T !! p = Some x -> (0 < lvl x s)%Z -> var l = var x ->
  antecedents (Some (has_var (var l))) (m_justification s !!! var l) s = antecedents (Some (is_literal x)) (m_justification s !!! var x) s
  /\ forall y, y ∈ antecedents (Some (has_var (var l))) (m_justification s !!! var l) s -> y ∈ T.
Proof.
  intros Hp Hpos Ev. rewrite Ev. pose proof (cd_reasons _ C p x Hp Hpos) as Hr. unfold reason in Hr.
  assert (E : antecedents (Some (has_var (var x))) (m_justification s !!! var x) s = antecedents (Some (is_literal x)) (m_justification s !!! var x) s).
  { destruct (m_justification s !!! var x) as [| | |off]; [done..|]. destruct Hr as (Hoff & Hf & _). specialize (Hf x eq_refl).
    destruct (lits_ok _ _ _ (cd_linked _ C) Hoff) as (Hlen & _ & _ & Hpr). unfold antecedents.
    change (m_lits (get_clause off s)) with (lits_of off s). set (c := lits_of off s) in *.
    assert (Hin : x ∈ c) by (rewrite (front2 c ltac:(lia)); destruct Hf as [<-|<-]; set_solver).
    assert (H0 : c !!! 0 ∈ c) by (rewrite (front2 c ltac:(lia)) at 2; set_solver).
    unfold has_var, is_literal. case_bool_decide as E0; [by rewrite E0, Nat.eqb_refl|].
    destruct (Nat.eqb_spec (var (c !!! 0)) (var x)) as [Ev'|]; [|done].
    destruct (same_var x (c !!! 0) (eq_sym Ev')) as [?|En]; [done|]. destruct (Hpr x Hin). by rewrite <- En. }
  split; [exact E|]. rewrite E. destruct (m_justification s !!! var x) as [| | |off] eqn:Ej.
  { intros y Hy. by apply elem_of_nil in Hy. }
  all: destruct (explains_antecedents _ _ _ _ _ _ (cd_linked _ C) (fun α => @proj1 _ _) Hr) as (Hb & _ & _);
    intros y Hy; eapply subseteq_take; by apply Hb.
Qed.

(** Since [m0] the variables [vs] have been marked. *)
Record visited (m0 : minimizer) (vs : list bool_var) (m : minimizer) : Prop := {
  vi_unmark : m_unmark m = m_unmark m0 ++ vs;
  vi_length : length (mm_mark m) = num_vars s;
  vi_nodup : NoDup vs;
  vi_fresh v : v ∈ vs -> v < num_vars s /\ is_marked v (mm_mark m0) = false;
  vi_mark v : is_marked v (mm_mark m) = true <-> is_marked v (mm_mark m0) = true \/ v ∈ vs;
}.

Lemma minimize_all_ok set m0 ls : forall vs m, visited m0 vs m -> (forall y, y ∈ ls -> y ∈ T) ->
  let '(ok, m') := process_all_for_minimization set s ls m in
  exists ys, visited m0 (vs ++ (var <$> ys)) m' /\ m_lemma_min_stack m' = reverse ys ++ m_lemma_min_stack m
    /\ (forall y, y ∈ ys -> y ∈ T /\ (0 < lvl y s)%Z)
    /\ (ok = true -> forall y, y ∈ ls -> lvl y s = 0%Z \/ is_marked (var y) (mm_mark m') = true).
Proof.
  induction ls as [|y ls IH]; intros vs m V Hls; simpl.
  { exists []. simpl. rewrite app_nil_r. split_and!; [done..|intros y Hy; by apply elem_of_nil in Hy|intros _ y Hy; by apply elem_of_nil in Hy]. }
  assert (Hy : y ∈ T) by (apply Hls; by left). assert (Hls' : forall z, z ∈ ls -> z ∈ T) by (intros z Hz; apply Hls; by right).
  pose proof (lv_range _ (cd_levels _ C) y Hy) as Hr. unfold process_antecedent_for_minimization. cbv zeta.
  assert (Hmono : forall vs' m1 m2, visited m0 vs m1 -> visited m0 (vs ++ vs') m2 -> forall v, is_marked v (mm_mark m1) = true -> is_marked v (mm_mark m2) = true).
  { intros vs' m1 m2 V1 V2 v. rewrite (vi_mark _ _ _ V1), (vi_mark _ _ _ V2). set_solver. }
  destruct (is_marked (var y) (mm_mark m)) eqn:Em; simpl.
  { specialize (IH vs m V Hls'). destruct (process_all_for_minimization set s ls m) as [ok m'].
    destruct IH as (ys & V' & Hst & Hys & Hok). exists ys. split_and!; try done. intros Ho z [->|Hz]%elem_of_cons; [right|by apply Hok].
    by eapply Hmono. }
  destruct (Z.ltb_spec 0 (lvl y s)) as [Hpos|Hneg].
  2: { specialize (IH vs m V Hls'). destruct (process_all_for_minimization set s ls m) as [ok m'].
    destruct IH as (ys & V' & Hst & Hys & Hok). exists ys. split_and!; try done. intros Ho z [->|Hz]%elem_of_cons; [left; lia|by apply Hok]. }
  destruct (may_contain (lvl y s) set).
  2: { exists []. simpl. rewrite app_nil_r. split_and!; [done..|intros z Hz; by apply elem_of_nil in Hz|done]. }
  assert (Hv : var y < num_vars s) by by apply (trail_vars _ _ (cd_assigned _ C)).
  set (m1 := mk_minimizer _ _ _). assert (V1 : visited m0 (vs ++ [var y]) m1).
  { destruct V as [V1 V2 V3 V4 V5]. assert (Hn : var y ∉ vs) by (intros Hin; assert (is_marked (var y) (mm_mark m) = true) by (apply V5; by right); congruence).
    split; simpl.
    - by rewrite V1, app_assoc.
    - by rewrite length_insert.
    - apply NoDup_app. split_and!; [done| |apply NoDup_singleton]. intros v Hv' ->%list_elem_of_singleton. done.
    - intros v [Hv'| ->%list_elem_of_singleton]%elem_of_app; [by apply V4|]. split; [done|].
      destruct (is_marked (var y) (mm_mark m0)) eqn:E0; [|done]. assert (is_marked (var y) (mm_mark m) = true) by (apply V5; by left). congruence.
    - intros v. rewrite is_marked_insert by (by rewrite V2). rewrite elem_of_app, list_elem_of_singleton.
      case_decide; [naive_solver|]. rewrite V5. naive_solver. }
  specialize (IH _ m1 V1 Hls'). destruct (process_all_for_minimization set s ls m1) as [ok m'].
  destruct IH as (ys & V' & Hst & Hys & Hok). exists (y :: ys). rewrite <- app_assoc in V'. split_and!.
  - exact V'.
  - rewrite Hst, reverse_cons, <- app_assoc. done.
  - intros z [->|Hz]%elem_of_cons; [done|by apply Hys].
  - intros Ho z [->|Hz]%elem_of_cons; [right|by apply Hok]. apply (vi_mark _ _ _ V'). right. set_solver.
Qed.

(** Unmarking restores the marks. *)
Lemma unmark_all vs : forall marks, (forall v, v ∈ vs -> v < length marks) ->
  length (foldl (fun marks v => <[v := false]> marks) marks vs) = length marks
  /\ forall w, is_marked w (foldl (fun marks v => <[v := false]> marks) marks vs) = true <-> is_marked w marks = true /\ w ∉ vs.
Proof.
  induction vs as [|v vs IH]; intros marks Hv; simpl; [split; [done|]; intros w; rewrite elem_of_nil; naive_solver|].
  destruct (IH (<[v := false]> marks)) as [H1 H2]. { intros w Hw. rewrite length_insert. apply Hv. by right. }
  split; [by rewrite H1, length_insert|]. intros w. rewrite H2, elem_of_cons, is_marked_insert by (apply Hv; by left).
  case_decide; naive_solver.
Qed.

Lemma reset_visited m0 vs m : visited m0 vs m -> let m' := reset_unmark (length (m_unmark m0)) m in
  m_unmark m' = m_unmark m0 /\ length (mm_mark m') = num_vars s /\ forall v, is_marked v (mm_mark m') = true <-> is_marked v (mm_mark m0) = true.
Proof.
  intros [V1 V2 V3 V4 V5]. cbn zeta. unfold reset_unmark. simpl. rewrite V1, take_app_length, drop_app_length.
  destruct (unmark_all vs (mm_mark m)) as [H1 H2]; [intros v Hv; rewrite V2; by apply V4|]. split_and!; [done|by rewrite H1|].
  intros v. rewrite H2, V5. split; [naive_solver|]. intros Hm. split; [by left|]. intros Hv. destruct (V4 v Hv). congruence.
Qed.

(** The walk through the reasons; what is on the stack is still to be looked at. *)
Record walking (K : list literal) (m0 : minimizer) (vs : list bool_var) (m : minimizer) : Prop := {
  wk_visited : visited m0 vs m;
  wk_stack l : l ∈ m_lemma_min_stack m -> exists x, x ∈ T /\ var x = var l /\ (0 < lvl x s)%Z;
  wk_founded x : x ∈ T -> is_marked (var x) (mm_mark m) = true ->
    (0 < lvl x s)%Z /\ (neg x ∈ K \/ closed (mm_mark m) x \/ exists l, l ∈ m_lemma_min_stack m /\ var l = var x);
  wk_trail v : is_marked v (mm_mark m) = true -> exists x, x ∈ T /\ var x = v;
}.

Lemma closed_mono marks marks' x : (forall v, is_marked v marks = true -> is_marked v marks' = true) -> closed marks x -> closed marks' x.
Proof. intros Hm [H1 H2]. split; [done|]. intros y Hy. destruct (H2 y Hy); [by left|right; by apply Hm]. Qed.

(** The literal on top is looked at: its antecedents [ys] that are new come onto the stack. *)
Lemma walking_step K m0 vs m l stack m2 ys : walking K m0 vs m -> m_lemma_min_stack m = l :: stack ->
  m_justification s !!! var l <> J_NONE -> visited m0 (vs ++ (var <$> ys)) m2 -> m_lemma_min_stack m2 = reverse ys ++ stack ->
  (forall y, y ∈ ys -> y ∈ T /\ (0 < lvl y s)%Z) ->
  (forall y, y ∈ antecedents (Some (has_var (var l))) (m_justification s !!! var l) s -> lvl y s = 0%Z \/ is_marked (var y) (mm_mark m2) = true) ->
  walking K m0 (vs ++ (var <$> ys)) m2.
Proof.
  intros Wk Est Hj V2 Hst Hys Hok. pose proof (wk_visited _ _ _ _ Wk) as V.
  assert (Hgrow : forall v, is_marked v (mm_mark m) = true -> is_marked v (mm_mark m2) = true).
  { intros v. rewrite (vi_mark _ _ _ V), (vi_mark _ _ _ V2). set_solver. }
  assert (Hold : forall v, is_marked v (mm_mark m2) = true -> is_marked v (mm_mark m) = true \/ exists y, y ∈ ys /\ var y = v).
  { intros v. rewrite (vi_mark _ _ _ V), (vi_mark _ _ _ V2), elem_of_app, list_elem_of_fmap. naive_solver. }
  split; [exact V2|..].
  - intros z. rewrite Hst, elem_of_app, elem_of_reverse. intros [Hz|Hz].
    + exists z. by split_and!; try apply Hys.
    + apply (wk_stack _ _ _ _ Wk). rewrite Est. by right.
  - intros z Hz Hzm. destruct (Hold _ Hzm) as [Hm|(y & Hy & Ey)].
    + destruct (wk_founded _ _ _ _ Wk z Hz Hm) as [Hpos Hcase]. split; [done|].
      destruct Hcase as [?|[?|(w & Hw & Ew)]]; [by left|right; left; by eapply closed_mono|].
      rewrite Est in Hw. apply elem_of_cons in Hw as [->|Hw].
      * right. left. apply list_elem_of_lookup in Hz as [p Hp]. destruct (has_var_antecedents l z p Hp Hpos Ew) as [Ea _].
        split; [by rewrite <- Ew|]. by rewrite <- Ea.
      * right. right. exists w. split; [rewrite Hst; set_solver|done].
    + assert (z = y) as -> by (apply trail_eq; [done|by apply Hys|done]). split; [by apply Hys|]. right. right. exists y.
      split; [|done]. rewrite Hst, elem_of_app, elem_of_reverse. by left.
  - intros v Hv. destruct (Hold _ Hv) as [Hm|(y & Hy & Ey)]; [by apply (wk_trail _ _ _ _ Wk)|]. exists y. split; [by apply Hys|done].
Qed.

(** The marks are those of [m0] again. *)
Definition restored (m0 m : minimizer) : Prop :=
  m_unmark m = m_unmark m0 /\ length (mm_mark m) = num_vars s /\ forall v, is_marked v (mm_mark m) = true <-> is_marked v (mm_mark m0) = true.

Lemma visited_bound m0 vs m : visited m0 vs m -> length vs <= num_vars s.
Proof.
  intros V. rewrite <- (length_seq (num_vars s) 0). apply submseteq_length, NoDup_submseteq; [apply V|].
  intros v Hv. apply elem_of_seq. destruct (vi_fresh _ _ _ V v Hv). lia.
Qed.

Lemma implied_loop_ok set K m0 fuel : forall vs m, walking K m0 vs m ->
  num_vars s + length (m_lemma_min_stack m) < fuel + length vs ->
  exists r m', implied_loop fuel set s (length (m_unmark m0)) m = mret (r, m')
    /\ if r : bool then exists vs', walking K m0 vs' m' /\ m_lemma_min_stack m' = [] else restored m0 m'.
Proof.
  induction fuel as [|fuel IH]; intros vs m Wk Hf.
  { pose proof (visited_bound _ _ _ (wk_visited _ _ _ _ Wk)). lia. }
  simpl. destruct (m_lemma_min_stack m) as [|l stack] eqn:Est.
  { exists true, m. split; [done|]. by exists vs. }
  destruct (wk_stack _ _ _ _ Wk l) as (x & Hx & Ev & Hpos); [rewrite Est; by left|].
  set (m1 := mk_minimizer (mm_mark m) (m_unmark m) stack).
  assert (V1 : visited m0 vs m1) by (destruct (wk_visited _ _ _ _ Wk); by split).
  apply list_elem_of_lookup in Hx as [p Hp]. destruct (has_var_antecedents l x p Hp Hpos (eq_sym Ev)) as [_ Hin].
  assert (Hlvl : lvl l s = lvl x s) by (unfold lvl; by rewrite Ev).
  pose proof (minimize_all_ok set m0 _ vs m1 V1 Hin) as Hall.
  pose proof (walking_step K m0 vs m l stack) as Hstep.
  destruct (m_justification s !!! var l) as [|l'|l1 l2|off] eqn:Ej.
  { destruct (Z.ltb_spec 0 (lvl l s)); [|lia]. exists false, (reset_unmark (length (m_unmark m0)) m1). split; [done|]. by eapply reset_visited. }
  all: destruct (process_all_for_minimization set s _ m1) as [[|] m2]; destruct Hall as (ys & V2 & Hst & Hys & Hok);
    [|exists false, (reset_unmark (length (m_unmark m0)) m2); split; [done|by eapply reset_visited]];
    (apply (IH (vs ++ (var <$> ys)));
      [apply Hstep; auto|rewrite Hst, !length_app, length_reverse, length_fmap; simpl in *; lia]).
Qed.

(** The lemma: [ks] stay, [lits] are still to be looked at. *)
Record minimizing (ks lits : list literal) (m : minimizer) : Prop := {
  mi_length : length (mm_mark m) = num_vars s;
  mi_founded : founded (ks ++ lits) (mm_mark m);
  mi_trail v : is_marked v (mm_mark m) = true -> exists x, x ∈ T /\ var x = v;
  mi_mark v : is_marked v (mm_mark m) = true <-> v ∈ var <$> ks ++ lits \/ v ∈ m_unmark m;
  mi_lits l : l ∈ ks ++ lits -> neg l ∈ T;
  mi_nodup : NoDup (var <$> ks ++ lits);
  mi_unmark v : v ∈ m_unmark m -> v ∉ var <$> ks ++ lits;
}.

Lemma minimizing_restored ks lits m m' : minimizing ks lits m -> restored m m' -> minimizing ks lits m'.
Proof.
  intros [M1 M2 M3 M4 M5 M6 M7] (Hu & Hl & Hm). split; try done.
  - intros x Hx Hxm%Hm. destruct (M2 x Hx Hxm) as [? [?|Hc]]; (split; [done|]); [by left|right]. eapply closed_mono, Hc. intros v. apply Hm.
  - intros v Hv%Hm. by apply M3.
  - intros v. by rewrite Hm, Hu.
  - intros v. rewrite Hu. apply M7.
Qed.

Lemma implied_by_marked_ok set ks l lits m : minimizing ks (l :: lits) m ->
  exists r m', implied_by_marked set s l m = mret (r, m')
    /\ (forall v, is_marked v (mm_mark m) = true -> is_marked v (mm_mark m') = true)
    /\ if r : bool then minimizing ks lits (mk_minimizer (mm_mark m') (m_unmark m' ++ [var l]) (m_lemma_min_stack m'))
       else minimizing (ks ++ [l]) lits m'.
Proof.
  intros M. pose proof M as [M1 M2 M3 M4 M5 M6 M7].
  assert (Hp : ks ++ l :: lits ≡ₚ l :: (ks ++ lits)) by (symmetry; apply Permutation_middle).
  assert (Hl : neg l ∈ T) by (apply M5; set_solver).
  assert (Hlm : is_marked (var l) (mm_mark m) = true).
  { apply M4. left. apply list_elem_of_fmap. exists l. split; [done|]. set_solver. }
  assert (Hpos : (0 < lvl l s)%Z).
  { destruct (M2 (neg l) Hl) as [Hpos _]; [by rewrite var_neg|]. by rewrite lvl_neg in Hpos. }
  assert (Wk : walking (ks ++ lits) m [] (mk_minimizer (mm_mark m) (m_unmark m) [l])).
  { split.
    - split; simpl; [by rewrite app_nil_r|done|constructor|intros v Hv; by apply elem_of_nil in Hv|]. intros v. rewrite elem_of_nil. tauto.
    - intros z Hz%list_elem_of_singleton. subst z. exists (neg l). by rewrite var_neg, lvl_neg.
    - intros x Hx Hxm. destruct (M2 x Hx Hxm) as [Hxp [Hk|Hc]]; (split; [done|]); [|by right; left].
      rewrite Hp in Hk. apply elem_of_cons in Hk as [Hk|Hk]; [|by left]. right. right. exists l. split; [by left|].
      by rewrite <- Hk, var_neg.
    - exact M3. }
  destruct (implied_loop_ok set (ks ++ lits) m (S (S (num_vars s))) [] _ Wk) as (r & m' & E & Hr); [simpl; lia|].
  exists r, m'. split; [exact E|]. destruct r.
  - destruct Hr as (vs & Wk' & Est). pose proof (wk_visited _ _ _ _ Wk') as V. split; [intros v Hv; apply (vi_mark _ _ _ V); by left|].
    rewrite Hp in M6. rewrite fmap_cons in M6. apply NoDup_cons in M6 as [Hnl Hnd].
    assert (Hin : forall v, v ∈ var <$> ks ++ l :: lits <-> v = var l \/ v ∈ var <$> ks ++ lits) by (intros v; rewrite Hp, fmap_cons, elem_of_cons; done).
    split; simpl.
    + apply V.
    + intros x Hx Hxm. destruct (wk_founded _ _ _ _ Wk' x Hx Hxm) as [? [?|[?|(w & Hw & _)]]]; [by auto..|].
      rewrite Est in Hw. by apply elem_of_nil in Hw.
    + apply Wk'.
    + intros v. rewrite (vi_mark _ _ _ V), M4, (vi_unmark _ _ _ V), !elem_of_app, list_elem_of_singleton, Hin. tauto.
    + intros z Hz. apply M5. rewrite Hp. by right.
    + exact Hnd.
    + intros v. rewrite (vi_unmark _ _ _ V), !elem_of_app, list_elem_of_singleton. intros [[Hv|Hv]| ->]; [|..|exact Hnl].
      * specialize (M7 v Hv). rewrite Hin in M7. tauto.
      * destruct (vi_fresh _ _ _ V v Hv) as [_ Hf]. intros Hk. assert (is_marked v (mm_mark m) = true); [|congruence].
        apply M4. left. apply Hin. by right.
  - split; [intros v; apply Hr|]. apply (minimizing_restored _ _ m); [|done]. destruct M. split; rewrite <- ?app_assoc; done.
Qed.

Lemma minimize_loop_ok set lits : forall ks m, minimizing ks lits m ->
  exists kept m', minimize_loop set s lits m = mret (kept, m') /\ kept `sublist_of` lits /\ minimizing (ks ++ kept) [] m'
    /\ forall v, is_marked v (mm_mark m) = true -> is_marked v (mm_mark m') = true.
Proof.
  induction lits as [|l lits IH]; intros ks m M; simpl.
  { exists [], m. rewrite app_nil_r. by split_and!. }
  destruct (implied_by_marked_ok set ks l lits m M) as (r & m1 & E & Hmono & Hr). rewrite E. destruct r.
  - destruct (IH _ _ Hr) as (kept & m' & E' & Hsub & M' & Hmono'). exists kept, m'. split_and!; [exact E'|by apply sublist_cons|done|].
    intros v Hv. by apply Hmono', Hmono.
  - destruct (IH _ _ Hr) as (kept & m' & E' & Hsub & M' & Hmono'). exists (l :: kept), m'. rewrite <- app_assoc in M'. split_and!.
    + change (mbind _ _) with (minimize_loop set s lits m1 ≫= fun '(kept, m) => mret (l :: kept, m)). by rewrite E'.
    + by apply sublist_skip.
    + exact M'.
    + intros v Hv. by apply Hmono', Hmono.
Qed.

Lemma minimize_lemma_ok x rest marks : analyzed x rest marks ->
  exists kept marks', minimize_lemma s (neg x :: rest) marks = mret (neg x :: kept, marks') /\ kept `sublist_of` rest /\ analyzed x kept marks'.
Proof.
  intros [A1 A2 A3 A4 A5 A6].
  assert (Hvar : forall l l', l ∈ rest -> l' ∈ rest -> var l = var l' -> l = l').
  { intros l l' Hl Hl' E. apply (inj neg), trail_eq; [by apply A2..|by rewrite !var_neg]. }
  assert (Hnd : NoDup (var <$> rest)).
  { clear A2 A4 A6. induction A3 as [|l rest Hl Hnd IH]; [constructor|]. rewrite fmap_cons. constructor.
    - rewrite list_elem_of_fmap. intros (l' & E & Hl'). apply Hl. rewrite (Hvar l l'); [done|by left|by right|done].
    - apply IH. intros z z' Hz Hz'. apply Hvar; by right. }
  assert (M : minimizing [] rest (mk_minimizer marks [] [])).
  { split; simpl; try done.
    - intros z Hz Hm. destruct (A4 _ Hm) as (l & Hl & El & Hpos).
      assert (El' : neg l = z) by (apply trail_eq; [by apply A2|done|by rewrite var_neg]). subst z.
      rewrite lvl_neg. split; [done|]. left. by rewrite neg_involutive.
    - intros v Hv. destruct (A4 v Hv) as (l & Hl & <- & _). exists (neg l). split; [by apply A2|apply var_neg].
    - intros v. rewrite elem_of_nil, list_elem_of_fmap. split.
      + intros Hv. destruct (A4 v Hv) as (l & Hl & <- & _). left. by exists l.
      + intros [(l & -> & Hl)|[]]. by apply A2.
    - intros l Hl. by apply A2.
    - intros v Hv. by apply elem_of_nil in Hv. }
  unfold minimize_lemma. cbv zeta. change (drop 1 (neg x :: rest)) with rest.
  destruct (minimize_loop_ok (updt_lemma_lvl_set s (neg x :: rest)) rest [] _ M) as (kept & m' & E & Hsub & M' & Hmono).
  rewrite E. simpl in M', Hmono. set (m2 := reset_unmark 0 m').
  exists kept, (mm_mark m2). split; [done|]. split; [done|]. destruct M' as [N1 N2 N3 N4 N5 N6 N7]. rewrite app_nil_r in *.
  destruct (unmark_all (m_unmark m') (mm_mark m')) as [Hlen Hmk].
  { intros v Hv. rewrite N1. destruct (N3 v) as (z & Hz & <-); [apply N4; by right|]. by apply (trail_vars _ _ (cd_assigned _ C)). }
  assert (Hm2 : forall v, is_marked v (mm_mark m2) = true <-> v ∈ var <$> kept).
  { intros v. unfold m2, reset_unmark. simpl. rewrite drop_0, Hmk, N4. split; [naive_solver|]. intros Hv. split; [by left|]. intros Hu. by apply (N7 v). }
  assert (Hin : forall l, l ∈ kept -> l ∈ rest) by (intros l Hl; by eapply elem_of_sublist).
  split; [exact A1|intros l| |intros v|unfold m2, reset_unmark; simpl; by rewrite drop_0, Hlen|].
  - rewrite Hm2, list_elem_of_fmap. split.
    + intros Hl. destruct (proj1 (A2 l) (Hin l Hl)) as (? & ? & _). split_and!; [done..|]. by exists l.
    + intros (Hl & _ & l' & El & Hl'). assert (l = l') as ->; [|done]. apply (inj neg), trail_eq; [done|by apply A2, Hin|by rewrite !var_neg].
  - by eapply sublist_NoDup.
  - rewrite Hm2, list_elem_of_fmap. intros (l & -> & Hl). exists l. split_and!; [done..|].
    destruct (N2 (neg l)) as [Hpos _]; [by apply N5|rewrite var_neg; apply N4; left; apply list_elem_of_fmap; by exists l|]. by rewrite lvl_neg in Hpos.
  - intros α Hs Hx Hf. apply (A6 α Hs Hx). apply Forall_forall. intros l Hl.
    assert (Ht : lit_val α (neg l) = true).
    { eapply (founded_true kept (mm_mark m')); [exact N2|done|by apply Forall_forall|by apply A2|].
      rewrite var_neg. apply Hmono. by apply A2. }
    rewrite lit_val_neg in Ht. by destruct (lit_val α l).
Qed.

(** ** The lemma *)

(** It follows from the clauses and the literals of the base level, it is false, and
    its first literal alone is of the current level. *)
Record is_lemma (x : literal) (rest : list literal) : Prop := {
  le_uip : x ∈ T /\ lvl x s = L;
  le_rest l : l ∈ rest -> neg l ∈ T /\ (0 < lvl l s < L)%Z;
  le_nodup : NoDup rest;
  le_implied α : says s α -> clause_val α (neg x :: rest) = true;
}.

Lemma analyzed_lemma x rest marks : analyzed x rest marks -> is_lemma x rest.
Proof.
  intros [A1 A2 A3 A4 A5 A6]. split; [done| |done|].
  - intros l Hl. apply A2 in Hl as (Hl & Hlt & Hm). destruct (A4 _ Hm) as (l' & Hl' & Ev & Hpos). split; [done|].
    assert (E : lvl l s = lvl l' s) by (unfold lvl; by rewrite Ev). lia.
  - intros α Hs. apply not_false_is_true. intros Hf. rewrite clause_val_cons, lit_val_neg in Hf.
    apply orb_false_elim in Hf as [Hx Hr]. apply (A6 α Hs); [by destruct (lit_val α x)|]. apply Forall_forall. intros l Hl.
    apply not_true_is_false. intros Ht. assert (clause_val α rest = true); [|congruence]. apply clause_val_true. by exists l.
Qed.

Lemma reset_marks_clear x rest marks : analyzed x rest marks -> forall v, is_marked v (reset_lemma_var_marks (neg x :: rest) marks) = false.
Proof.
  intros A v. unfold reset_lemma_var_marks. change (drop 1 (neg x :: rest)) with rest.
  assert (E : forall ls (ms : list bool), foldl (fun marks l => <[var l := false]> marks) ms ls = foldl (fun marks v => <[v := false]> marks) ms (var <$> ls)).
  { induction ls as [|l ls IH]; intros ms; [done|]. apply IH. }
  rewrite E. destruct (unmark_all (var <$> rest) marks) as [_ H].
  { intros w (l & -> & Hl)%list_elem_of_fmap. rewrite (an_length _ _ _ A), <- (var_neg l).
    apply (trail_vars _ _ (cd_assigned _ C)). by apply (an_rest _ _ _ A). }
  apply not_true_is_false. intros [Hm Hn]%H. destruct (an_marks _ _ _ A v Hm) as (l & Hl & <- & _). apply Hn, list_elem_of_fmap. by exists l.
Qed.

(** *** Subsumption *)

(** The marked literals are a clause that follows; the first stays. *)
Record subsuming (lemma : list literal) (l0 : literal) (marks : list bool) : Prop := {
  su_lemma l : is_marked_lit l marks = true -> l ∈ lemma;
  su_first : is_marked_lit l0 marks = true;
  su_implied α : says s α -> exists l, is_marked_lit l marks = true /\ lit_val α l = true;
}.

Lemma is_marked_lit_unmark l l' marks : is_marked_lit l (unmark_lit l' marks) = true <-> l <> l' /\ is_marked_lit l marks = true.
Proof.
  unfold is_marked_lit, unmark_lit. destruct (decide (l = l')) as [->|Hne].
  - destruct (decide (index l' < length marks)).
    + rewrite list_lookup_insert_eq by done. naive_solver.
    + rewrite lookup_ge_None_2 by (rewrite length_insert; lia). naive_solver.
  - rewrite list_lookup_insert_ne by (intros E; by apply Hne, index_inj). naive_solver.
Qed.

Lemma unmark_subsuming lemma l0 l marks : subsuming lemma l0 marks -> l <> l0 ->
  (forall α, says s α -> lit_val α l = true -> exists l', l' <> l /\ is_marked_lit l' marks = true /\ lit_val α l' = true) ->
  subsuming lemma l0 (unmark_lit l marks).
Proof.
  intros [S1 S2 S3] Hne Hother. split.
  - intros l' [_ Hl']%is_marked_lit_unmark. by apply S1.
  - apply is_marked_lit_unmark. by split.
  - intros α Hs. destruct (S3 α Hs) as (l' & Hm & Hv). destruct (decide (l' = l)) as [->|Hn].
    + destruct (Hother α Hs Hv) as (l'' & ? & ? & ?). exists l''. by rewrite is_marked_lit_unmark.
    + exists l'. by rewrite is_marked_lit_unmark.
Qed.

Lemma dyn_sub_watches_ok lemma l0 l wl : (forall w, w ∈ wl -> w ∈ get_wlist (neg l) s) -> forall marks,
  subsuming lemma l0 marks -> is_marked_lit l marks = true -> subsuming lemma l0 (dyn_sub_watches l0 wl marks).
Proof.
  induction wl as [|w wl IH]; intros Hw marks Su Hl; [done|].
  assert (Hin : w ∈ wlists s (neg l)) by (apply Hw; by left).
  assert (Hw' : forall w', w' ∈ wl -> w' ∈ get_wlist (neg l) s) by (intros w' H'; apply Hw; by right).
  specialize (IH Hw'). pose proof (li_watch _ _ (cd_linked _ C) _ _ Hin) as Hok.
  destruct w as [l2 b|l2 l3|]; simpl; [..|done].
  - destruct Hok as [_ Hne]. case_match eqn:E; [|by apply IH]. apply andb_prop in E as [E1 E2%bool_decide_eq_true].
    assert (Hll : l <> neg l2) by (intros ->; by rewrite neg_involutive in Hne). apply IH; [|by apply is_marked_lit_unmark].
    apply unmark_subsuming; [done|congruence|]. intros α Hs Hv. exists l. split_and!; [done..|].
    destruct Hs as [[Hb _] _]. specialize (Hb _ _ _ Hin). rewrite lit_val_neg in Hb, Hv.
    destruct (lit_val α l); [done|]. by rewrite Hb in Hv.
  - destruct Hok as (off & Hoff & Hp). rewrite neg_involutive in Hp. destruct (lits_ok _ _ _ (cd_linked _ C) Hoff) as (_ & _ & _ & Hpr).
    assert (Hcl : forall α, says s α -> clause_val α [l; l2; l3] = true).
    { intros α [Hh _]. rewrite <- Hp. by eapply holds_lits. }
    assert (Hstep : forall u v, [l; l2; l3] ≡ₚ [l; u; v] -> is_marked_lit u marks = true -> l0 <> neg v ->
      subsuming lemma l0 (dyn_sub_watches l0 wl (unmark_lit (neg v) marks))).
    { intros u v Huv Hu Hn. assert (Hin' : forall z, z ∈ [l; u; v] -> neg z ∉ [l; u; v]) by (intros z; rewrite <- Huv, <- Hp; apply Hpr).
      assert (Hlv : l <> neg v) by (intros ->; apply (Hin' v); set_solver).
      assert (Huv' : u <> neg v) by (intros ->; apply (Hin' v); set_solver).
      apply IH; [|by apply is_marked_lit_unmark]. apply unmark_subsuming; [done|congruence|]. intros α Hs Hv.
      specialize (Hcl α Hs). rewrite Huv, !clause_val_cons in Hcl. rewrite lit_val_neg in Hv.
      destruct (lit_val α l) eqn:El; [by exists l|]. destruct (lit_val α u) eqn:Eu; [by exists u|].
      destruct (lit_val α v); done. }
    case_match eqn:E1; [|case_match eqn:E2; [|by apply IH]].
    + apply andb_prop in E1 as [[E1 _]%andb_prop E3%bool_decide_eq_true]. by apply (Hstep l2 l3).
    + apply andb_prop in E2 as [[_ E2]%andb_prop E3%bool_decide_eq_true]. apply (Hstep l3 l2); [solve_Permutation|done..].
Qed.

Lemma marked_lits_of lemma : Forall (in_vars s) lemma -> forall l,
  is_marked_lit l (foldl (fun marks l => <[index l := true]> marks) (replicate (2 * num_vars s) false) lemma) = true <-> l ∈ lemma.
Proof.
  intros Hv.
  assert (H : forall marks, length marks = 2 * num_vars s -> forall l,
    is_marked_lit l (foldl (fun marks l => <[index l := true]> marks) marks lemma) = true <-> l ∈ lemma \/ is_marked_lit l marks = true).
  { induction Hv as [|x lemma Hx _ IH]; intros marks Hlen l; simpl; [rewrite elem_of_nil; tauto|].
    rewrite IH by by rewrite length_insert. rewrite elem_of_cons.
    assert (Hi : index x < length marks) by (rewrite Hlen, <- (sz_assignment _ (cd_sized _ C)); apply index_lt; [apply C|done]).
    assert (E : is_marked_lit l (<[index x := true]> marks) = true <-> l = x \/ is_marked_lit l marks = true).
    { unfold is_marked_lit. destruct (decide (l = x)) as [->|Hne].
      - rewrite list_lookup_insert_eq by done. naive_solver.
      - rewrite list_lookup_insert_ne by (intros E; by apply Hne, index_inj). naive_solver. }
    rewrite E. tauto. }
  intros l. rewrite H by apply length_replicate. split; [|by left]. intros [|Hm]; [done|]. unfold is_marked_lit in Hm.
  destruct (replicate _ false !! index l) eqn:E; [|done]. apply lookup_replicate in E as [-> _]. done.
Qed.

Lemma dyn_sub_res_ok x rest : is_lemma x rest -> exists rest', dyn_sub_res s (neg x :: rest) = neg x :: rest' /\ is_lemma x rest'.
Proof.
  intros Hle. pose proof Hle as [[Hx Hxl] Hr Hnd Himp]. unfold dyn_sub_res. cbv zeta. change ((neg x :: rest) !!! 0) with (neg x).
  assert (Hv : Forall (in_vars s) (neg x :: rest)).
  { constructor; [apply in_vars_neg; by apply (trail_vars _ _ (cd_assigned _ C))|]. apply Forall_forall. intros l Hl.
    apply in_vars_neg, (trail_vars _ _ (cd_assigned _ C)). by apply Hr. }
  pose proof (marked_lits_of _ Hv) as Hmk. set (marks0 := foldl _ (replicate _ _) _) in *.
  assert (S0 : subsuming (neg x :: rest) (neg x) marks0).
  { split; [by intros l ?%Hmk|apply Hmk; by left|]. intros α Hs. specialize (Himp α Hs).
    apply clause_val_true in Himp as (l & Hl & Hlv). exists l. split; [by apply Hmk|done]. }
  set (marks := foldl _ marks0 _).
  assert (Su : subsuming (neg x :: rest) (neg x) marks).
  { unfold marks. clearbody marks0. clear Hmk marks. revert marks0 S0. generalize (neg x :: rest) at 3 as ls.
    induction ls as [|l ls IH]; intros marks0 S0; [done|]. simpl. apply IH. destruct (is_marked_lit l marks0) eqn:E; [|done].
    by apply (dyn_sub_watches_ok _ _ l). }
  destruct Su as [S1 S2 S3]. exists (filter (fun l => is_marked_lit l marks = true) rest).
  rewrite filter_cons_True by done. split; [done|]. split; [done| |by apply NoDup_filter|].
  - intros l [_ Hl]%list_elem_of_filter. by apply Hr.
  - intros α Hs. destruct (S3 α Hs) as (l & Hm & Hl). apply clause_val_true. exists l. split; [|done].
    specialize (S1 l Hm). apply elem_of_cons in S1 as [->|Hin]; [by left|right]. by apply list_elem_of_filter.
Qed.

(** ** Learning *)

(** The level of the lemma without its first literal. *)
Definition backjump_level (rest : list literal) : Z := foldl (fun m l => Z.max m (lvl l s)) 0%Z rest.

Lemma backjump_level_spec rest x : is_lemma x rest -> (0 <= backjump_level rest < L)%Z
  /\ (forall l, l ∈ rest -> (lvl l s <= backjump_level rest)%Z) /\ (rest <> [] -> exists l, l ∈ rest /\ lvl l s = backjump_level rest).
Proof.
  intros [_ Hr _ _]. unfold backjump_level.
  assert (H : forall m, (0 <= m < L)%Z -> let m' := foldl (fun m l => Z.max m (lvl l s)) m rest in
    (m <= m' < L)%Z /\ (forall l, l ∈ rest -> (lvl l s <= m')%Z) /\ (m' = m \/ exists l, l ∈ rest /\ lvl l s = m')).
  { induction rest as [|l rest IH]; intros m Hm; simpl; [split_and!; [lia..|intros l Hl; by apply elem_of_nil in Hl|by left]|].
    destruct (Hr l) as [_ Hl]; [by left|]. destruct (IH (fun z Hz => Hr z (list_elem_of_further _ _ _ Hz)) (Z.max m (lvl l s)) ltac:(lia)) as (H1 & H2 & H3).
    cbn zeta in *. split_and!; [lia..| |].
    - intros z [->|Hz]%elem_of_cons; [lia|by apply H2].
    - destruct H3 as [H3|(z & Hz & Ez)]; [|right; exists z; split; [by right|done]].
      destruct (Z.max_spec m (lvl l s)) as [[_ E]|[_ E]]; [right; exists l; split; [by left|lia]|left; lia]. }
  destruct (H 0%Z ltac:(lia)) as (H1 & H2 & H3). split_and!; [lia..|done|]. intros Hne. destruct H3 as [H3|?]; [|done].
  destruct rest as [|l rest]; [done|]. exists l. split; [by left|]. specialize (H2 l ltac:(by left)). destruct (Hr l) as [_ ?]; [by left|]. lia.
Qed.

Lemma mret_bind {A B} (a : A) (f : A -> M B) : mret a ≫= f = f a.
Proof. done. Qed.

Lemma learn_lemma_ok mini dyn x rest marks : analyzed x rest marks ->
  exists rest' marks', learn_lemma mini dyn s (neg x :: rest) marks = mret (neg x :: rest', backjump_level rest', marks')
    /\ is_lemma x rest' /\ forall v, is_marked v marks' = false.
Proof.
  intros A. unfold learn_lemma.
  assert (Hmin : exists kept marks', (if mini then minimize_lemma s (neg x :: rest) marks else mret (neg x :: rest, marks)) = mret (neg x :: kept, marks')
     /\ analyzed x kept marks').
  { destruct mini; [|by exists rest, marks]. destruct (minimize_lemma_ok x rest marks A) as (kept & marks' & E & _ & A'). by exists kept, marks'. }
  destruct Hmin as (kept & marks' & E & A').
  rewrite E. pose proof (analyzed_lemma _ _ _ A') as Hle. pose proof (reset_marks_clear _ _ _ A') as Hclear.
  set (marks'' := reset_lemma_var_marks (neg x :: kept) marks') in *. destruct (mini && dyn) eqn:Ed.
  - destruct (dyn_sub_res_ok x kept Hle) as (rest' & Er & Hle'). exists rest', marks''. split_and!; [|done..]. rewrite mret_bind. simpl. by rewrite Er.
  - exists kept, marks''. split_and!; [|done..]. by rewrite mret_bind.
Qed.
End Analysis.
