(* ===== verification/SatBackjump.v ===== *)
(** * SatBackjump: leaving levels and learning the lemma

    [pop] leads back to a state of the search; at the level it goes back to, the
    lemma makes its first literal true, and adding it keeps the invariant and the
    models. *)
From Stdlib Require Import ZArith Lia.
From stdpp Require Import base list sets.
From S2P Require Import Prelude SatTypes SatSolver SatConflict SatInv SatPropagate SatClauses SatAnalyze.
Import solver.

(** ** Scopes *)

(** The scope [k] begins where the literals of the levels above [k] begin. *)
Record scopes_ok (s : solver) : Prop := {
  so_length : length (m_scopes s) = m_scope_lvl s;
  so_lim k sc : m_scopes s !! k = Some sc -> m_trail_lim sc <= length (m_trail s) /\ m_clauses_to_reinit_lim sc = 0;
  so_level k sc p x : m_scopes s !! k = Some sc -> m_trail s !! p = Some x -> p < m_trail_lim sc <-> (lvl x s <= Z.of_nat k)%Z;
}.

(** What the search keeps beside the invariant. *)
Record frame_ok (s : solver) : Prop := {
  fk_user : m_user_scope_literals s = [];
  fk_reinit : m_clauses_to_reinit s = [];
  fk_scopes : scopes_ok s;
}.

(** A state without a conflict, and one with a conflict. *)
Record searching (s : solver) : Prop := {
  sr_inv : inv s;
  sr_consistent : m_inconsistent s = false;
  sr_frame : frame_ok s;
}.

Record stuck (s : solver) : Prop := {
  sk_conflicted : conflicted s;
  sk_lower : lower_processed s;
  sk_inconsistent : m_inconsistent s = true;
  sk_frame : frame_ok s;
}.

Lemma inv_lower s : inv s -> lower_processed s.
Proof.
  intros I p l w Hp Hl Hw. apply (inv_processed _ I); [|done..].
  destruct (decide (p < m_qhead s)); [done|]. pose proof (lv_head _ (inv_levels _ I) p l ltac:(lia) Hp). lia.
Qed.

(** Literals of the current level are assigned. *)
Lemma frame_ok_later s s' : frame_ok s -> m_user_scope_literals s' = m_user_scope_literals s -> m_clauses_to_reinit s' = m_clauses_to_reinit s ->
  m_scopes s' = m_scopes s -> m_scope_lvl s' = m_scope_lvl s -> m_trail s `prefix_of` m_trail s' ->
  (forall x, x ∈ m_trail s -> lvl x s' = lvl x s) ->
  (forall p x, length (m_trail s) <= p -> m_trail s' !! p = Some x -> lvl x s' = Z.of_nat (m_scope_lvl s)) -> frame_ok s'.
Proof.
  intros [Fu Fr [F1 F2 F3]] Eu Er Es El Hpre Ho Hn. split; [congruence..|]. split; rewrite Es.
  - congruence.
  - intros k sc Hk. destruct (F2 k sc Hk) as [H1 H2]. split; [|done]. apply prefix_length in Hpre. lia.
  - intros k sc p x Hk Hp. destruct (F2 k sc Hk) as [H1 _]. destruct (decide (p < length (m_trail s))) as [Hlt|Hge].
    + destruct Hpre as [t E]. rewrite E, lookup_app_l in Hp by done. rewrite (Ho x (list_elem_of_lookup_2 _ _ _ Hp)). by apply F3.
    + rewrite (Hn p x ltac:(lia) Hp). apply lookup_lt_Some in Hk. lia.
Qed.

(** ** Unassigning *)

Lemma unassign_value s old : sized s -> assigned s -> forall x,
  value x (unassign_vars old s) = if decide (x ∈ drop old (m_trail s) \/ neg x ∈ drop old (m_trail s)) then l_undef else value x s.
Proof.
  intros Hs Ha x. unfold unassign_vars. set (f := fun (l : literal) (s : solver) => _).
  assert (H : forall ls, Forall (in_vars s) ls ->
    length (m_assignment (foldr f s ls)) = length (m_assignment s)
    /\ value x (foldr f s ls) = if decide (x ∈ ls \/ neg x ∈ ls) then l_undef else value x s).
  { intros ls Hls. induction Hls as [|l ls Hl Hls [IHl IHv]]; [by rewrite decide_False by set_solver|]. simpl.
    split; [by rewrite !length_insert|]. unfold value in *. simpl.
    assert (Hi : index l < length (m_assignment s)) by by apply index_lt.
    assert (Hn : index (neg l) < length (m_assignment s)) by (apply index_lt; [done|by apply in_vars_neg]).
    destruct (decide (x = neg l)) as [->|Hne].
    { rewrite list_lookup_total_insert_eq by (by rewrite length_insert, IHl). rewrite decide_True; [done|]. rewrite neg_involutive. set_solver. }
    rewrite list_lookup_total_insert_ne by (intros E; by apply Hne, index_inj).
    destruct (decide (x = l)) as [->|Hne'].
    { rewrite list_lookup_total_insert_eq by by rewrite IHl. rewrite decide_True; [done|]. set_solver. }
    rewrite list_lookup_total_insert_ne by (intros E; by apply Hne', index_inj). rewrite IHv.
    apply decide_ext. rewrite !elem_of_cons. assert (neg x <> l) by (intros <-; by rewrite neg_involutive in Hne). naive_solver. }
  change (value x (set_qhead old (set_trail (take old (m_trail s)) (foldr f s (drop old (m_trail s)))))) with (value x (foldr f s (drop old (m_trail s)))).
  apply H. apply Forall_forall. intros l Hl. apply (trail_vars _ _ Ha). by eapply subseteq_drop.
Qed.

(** Everything else stays. *)
Record same_rest (s s' : solver) : Prop := {
  rs_cls : m_cls s' = m_cls s;
  rs_watches : m_watches s' = m_watches s;
  rs_justification : m_justification s' = m_justification s;
  rs_level : m_level s' = m_level s;
  rs_scope : m_scope_lvl s' = m_scope_lvl s;
  rs_user : m_user_scope_literals s' = m_user_scope_literals s;
  rs_reinit : m_clauses_to_reinit s' = m_clauses_to_reinit s;
  rs_scopes : m_scopes s' = m_scopes s;
  rs_inconsistent : m_inconsistent s' = m_inconsistent s;
  rs_length : length (m_assignment s') = length (m_assignment s);
}.

Lemma unassign_rest s old : same_rest s (unassign_vars old s) /\ m_trail (unassign_vars old s) = take old (m_trail s)
  /\ m_qhead (unassign_vars old s) = old.
Proof.
  unfold unassign_vars. set (f := fun (l : literal) (s : solver) => _).
  assert (H : forall ls, same_rest s (foldr f s ls) /\ m_trail (foldr f s ls) = m_trail s).
  { induction ls as [|l ls [[] IH2]]; [by split|]. split; [|exact IH2]. split; try done. simpl. by rewrite !length_insert. }
  destruct (H (drop old (m_trail s))) as [[] E]. split; [by split|]. split; [|done].
  transitivity (take old (m_trail (foldr f s (drop old (m_trail s))))); [done|by rewrite E].
Qed.

(** ** Going back to level [k] *)

Section Pop.
Context (s : solver) (k : nat) (Hs : sized s) (Ha : assigned s) (Hk : linked (wlists s) s) (Hv : levels s).
Context (Hr : reasons (says s) s) (Hlow : lower_processed s) (F : frame_ok s) (below : k < m_scope_lvl s).
Local Abbreviation sc := (m_scopes s !!! k).
Local Abbreviation lim := (m_trail_lim sc).
Local Abbreviation s' := (pop (m_scope_lvl s - k) s).

Lemma pop_scope : m_scopes s !! k = Some sc.
Proof. apply list_lookup_lookup_total_lt. by rewrite (so_length _ (fk_scopes _ F)). Qed.

Lemma pop_eq : s' = set_clauses_to_reinit [] (set_scopes (take k (m_scopes s)) (set_scope_lvl k (unassign_vars lim (set_inconsistent false s)))).
Proof.
  destruct (so_lim _ (fk_scopes _ F) k sc pop_scope) as [_ H0]. unfold pop.
  destruct (Nat.eqb_spec (m_scope_lvl s - k) 0); [lia|]. replace (m_scope_lvl s - (m_scope_lvl s - k)) with k by lia.
  destruct (unassign_rest (set_inconsistent false s) lim) as [R _].
  unfold reinit_clauses. cbv zeta. rewrite H0, (rs_scopes _ _ R). cbn [m_clauses_to_reinit set_scopes set_scope_lvl]. rewrite (rs_reinit _ _ R).
  change (m_clauses_to_reinit (set_inconsistent false s)) with (m_clauses_to_reinit s). by rewrite (fk_reinit _ F).
Qed.

(** The parts of the new state. *)
Lemma pop_frame : m_cls s' = m_cls s /\ m_watches s' = m_watches s /\ m_justification s' = m_justification s /\ m_level s' = m_level s
  /\ m_scope_lvl s' = k /\ m_user_scope_literals s' = [] /\ m_clauses_to_reinit s' = [] /\ m_scopes s' = take k (m_scopes s)
  /\ m_inconsistent s' = false /\ length (m_assignment s') = length (m_assignment s) /\ m_trail s' = take lim (m_trail s) /\ m_qhead s' = lim.
Proof.
  rewrite pop_eq. destruct (unassign_rest (set_inconsistent false s) lim) as ([] & Et & Eq).
  rewrite <- (fk_user _ F). split_and!; assumption || reflexivity.
Qed.

Lemma pop_trail p x : m_trail s' !! p = Some x <-> m_trail s !! p = Some x /\ (lvl x s <= Z.of_nat k)%Z.
Proof.
  destruct pop_frame as (_ & _ & _ & _ & _ & _ & _ & _ & _ & _ & -> & _). rewrite lookup_take_Some.
  split; intros [Hp Hl]; (split; [done|]); by apply (so_level _ (fk_scopes _ F) k sc p x pop_scope Hp).
Qed.

Lemma pop_trail_in x : x ∈ m_trail s' <-> x ∈ m_trail s /\ (lvl x s <= Z.of_nat k)%Z.
Proof. rewrite !list_elem_of_lookup. setoid_rewrite pop_trail. naive_solver. Qed.

Lemma pop_lvl x : lvl x s' = lvl x s.
Proof. unfold lvl. destruct pop_frame as (_ & _ & _ & -> & _). done. Qed.

Lemma pop_wlists : wlists s' = wlists s.
Proof. unfold wlists, get_wlist. by destruct pop_frame as (_ & -> & _). Qed.

Lemma pop_lits off : lits_of off s' = lits_of off s.
Proof. unfold lits_of, get_clause. by destruct pop_frame as (-> & _). Qed.

Lemma pop_in_vars x : in_vars s' x <-> in_vars s x.
Proof. unfold in_vars, num_vars. by destruct pop_frame as (_ & _ & _ & -> & _). Qed.

Lemma pop_value x : value x s' = if (Z.of_nat k <? lvl x s)%Z then l_undef else value x s.
Proof.
  rewrite pop_eq. change (value x (set_clauses_to_reinit _ _)) with (value x (unassign_vars lim (set_inconsistent false s))).
  rewrite unassign_value by (destruct Hs, Ha; by split). change (m_trail (set_inconsistent false s)) with (m_trail s).
  change (value x (set_inconsistent false s)) with (value x s).
  assert (H : forall y, y ∈ drop lim (m_trail s) <-> y ∈ m_trail s /\ (Z.of_nat k < lvl y s)%Z).
  { intros y. rewrite !list_elem_of_lookup. pose proof (so_level _ (fk_scopes _ F) k sc) as Hl. split.
    - intros [p Hp]. rewrite lookup_drop in Hp. split; [by eexists|]. specialize (Hl _ y pop_scope Hp). lia.
    - intros [[p Hp] Hlt]. specialize (Hl _ y pop_scope Hp). exists (p - lim). rewrite lookup_drop.
      rewrite <- Hp. f_equal. lia. }
  assert (Hlx : lvl (neg x) s = lvl x s) by apply lvl_neg.
  case_decide as Hd.
  - assert (Z.of_nat k < lvl x s)%Z as Hlt%Z.ltb_lt by (rewrite !H, Hlx in Hd; tauto). by rewrite Hlt.
  - destruct (Z.ltb_spec (Z.of_nat k) (lvl x s)) as [Hlt|]; [|done]. rewrite !H, Hlx in Hd.
    destruct (value x s) eqn:E; [|done|].
    + apply false_trail in E; [|done..]. destruct Hd. by right.
    + apply true_trail in E; [|done..]. destruct Hd. by left.
Qed.

Lemma pop_sized : sized s'.
Proof.
  destruct pop_frame as (_ & E2 & E3 & E4 & _ & _ & _ & _ & _ & E10 & _). destruct Hs as [H1 H2 H3].
  split; unfold num_vars in *; by rewrite E4, ?E2, ?E3, ?E10.
Qed.

Lemma pop_assigned : assigned s'.
Proof.
  split.
  - intros l Hl%pop_in_vars. rewrite !pop_value, (lvl_neg s l). case_match; [done|]. by apply Ha.
  - intros l. rewrite pop_trail_in, pop_in_vars, pop_value, (as_trail _ Ha). split.
    + intros [[Hl Hv'] Hle]. split; [done|]. by destruct (Z.ltb_spec (Z.of_nat k) (lvl l s)); [lia|].
    + intros [Hl Hv']. destruct (Z.ltb_spec (Z.of_nat k) (lvl l s)); [done|]. by split_and!.
  - destruct pop_frame as (_ & _ & _ & _ & _ & _ & _ & _ & _ & _ & -> & _). eapply sublist_NoDup; [apply Ha|apply sublist_take].
Qed.

Lemma pop_levels : levels s'.
Proof.
  destruct pop_frame as (_ & _ & _ & _ & El & _ & _ & _ & _ & _ & Et & Eq). split; rewrite ?El.
  - intros l [Hl Hle]%pop_trail_in. rewrite pop_lvl. pose proof (lv_range _ Hv l Hl). lia.
  - intros p q x y Hpq [Hp _]%pop_trail [Hq _]%pop_trail. rewrite !pop_lvl. by apply (lv_sorted _ Hv p q).
  - rewrite Eq, Et. intros p x Hp Hx%lookup_take_Some. lia.
Qed.

Lemma pop_linked : linked (wlists s') s'.
Proof.
  rewrite pop_wlists. destruct pop_frame as (Ec & _). destruct Hk as [H1 H2 H3 H4 H5]. split.
  - intros l w Hw. apply pop_in_vars. by eapply H1.
  - intros l w Hw. specialize (H2 l w Hw). destruct w; simpl in *; rewrite ?pop_in_vars, ?Ec, ?pop_lits; try done.
    destruct H2 as (off & ? & ?). exists off. by rewrite pop_lits.
  - exact H3.
  - rewrite Ec. eapply Forall_impl; [exact H4|]. intros c [? ? Hc ? ?]. split; try done. eapply Forall_impl; [exact Hc|]. intros l. apply pop_in_vars.
  - intros off. rewrite Ec. unfold attached. rewrite pop_lits. apply H5.
Qed.

(** What a literal that stays settles stays true with it. *)
Lemma pop_settles l x : l ∈ m_trail s' -> settles s l x -> settles s' l x.
Proof.
  intros [Hl Hle]%pop_trail_in [Hx Hxl]. split; [|by rewrite !pop_lvl]. rewrite pop_value.
  by destruct (Z.ltb_spec (Z.of_nat k) (lvl x s)); [lia|].
Qed.

Lemma pop_take p x : m_trail s' !! p = Some x -> take p (m_trail s') = take p (m_trail s).
Proof.
  destruct pop_frame as (_ & _ & _ & _ & _ & _ & _ & _ & _ & _ & -> & _). intros [_ Hp]%lookup_take_Some. rewrite take_take. f_equal. lia.
Qed.

Lemma pop_processed : processed (wlists s') s' (m_qhead s').
Proof.
  intros p l w _ Hp Hw. rewrite pop_wlists in Hw. pose proof Hp as [Hp' Hle]%pop_trail.
  assert (Hg : good s p l w) by (apply Hlow; [done|lia|done]).
  pose proof (list_elem_of_lookup_2 _ _ _ Hp) as Hin. destruct w; simpl in *; rewrite ?(pop_take p l Hp), ?pop_lits.
  - by apply pop_settles.
  - destruct Hg as [H1 H2]. split; intros Hn; apply pop_settles; auto.
  - intros Hor. destruct (Hg Hor) as (x & Hx & Hst). exists x. split; [done|]. by apply pop_settles.
Qed.

Lemma pop_says a : says s' a <-> says s a.
Proof.
  unfold says, holds, base_holds. rewrite pop_wlists. destruct pop_frame as (-> & _). f_equiv.
  split; intros H l Hl; [rewrite <- pop_lvl|rewrite pop_lvl]; intros H0.
  - apply H; [|done]. apply pop_trail_in. split; [done|]. rewrite <- pop_lvl. lia.
  - apply pop_trail_in in Hl as [Hl _]. by apply H.
Qed.

Lemma pop_reasons : reasons (says s') s'.
Proof.
  apply (reasons_impl (says s)); [intros a; apply pop_says|]. intros p x Hp. rewrite pop_lvl. intros Hl.
  pose proof Hp as [Hp' _]%pop_trail. specialize (Hr p x Hp' Hl). unfold reason in *. rewrite (pop_take p x Hp).
  destruct pop_frame as (Ec & _ & -> & _). destruct (m_justification s !!! var x) as [| | |off]; [|done..|].
  - intros q y Hq [Hy _]%pop_trail. rewrite !pop_lvl. by apply (Hr q).
  - simpl in *. unfold in_front in *. by rewrite Ec, pop_lits.
Qed.

Lemma pop_inv : inv s'.
Proof.
  split; [apply pop_sized|apply pop_assigned|apply pop_linked| |apply pop_processed|apply pop_levels|apply pop_reasons].
  destruct pop_frame as (_ & _ & _ & _ & _ & _ & _ & _ & _ & _ & -> & ->). rewrite length_take.
  destruct (so_lim _ (fk_scopes _ F) k sc pop_scope). lia.
Qed.

Lemma pop_scopes_ok : scopes_ok s'.
Proof.
  destruct pop_frame as (_ & _ & _ & _ & El & _ & _ & Es & _ & _ & Et & _). destruct (fk_scopes _ F) as [F1 F2 F3].
  split; rewrite ?Es, ?El.
  - rewrite length_take. lia.
  - intros j d Hj. apply lookup_take_Some in Hj as [Hj Hlt]. destruct (F2 j d Hj) as [H1 H2]. split; [|done].
    rewrite Et, length_take. apply Nat.min_glb; [|done]. destruct (F2 k sc pop_scope) as [H3 _].
    destruct (decide (m_trail_lim d <= lim)) as [|Hgt]; [done|exfalso].
    destruct (lookup_lt_is_Some_2 (m_trail s) lim ltac:(lia)) as [x Hx].
    pose proof (F3 k sc lim x pop_scope Hx). pose proof (F3 j d lim x Hj Hx). lia.
  - intros j d p x Hj [Hp _]%pop_trail. rewrite pop_lvl. apply lookup_take_Some in Hj as [Hj _]. by apply F3.
Qed.

Lemma pop_searching : searching s'.
Proof.
  destruct pop_frame as (_ & _ & _ & _ & _ & Eu & Er & _ & Ei & _). split; [apply pop_inv|exact Ei|split; [done|done|apply pop_scopes_ok]].
Qed.
End Pop.

(** ** The second watch of a lemma *)

Lemma swap_lits_perm i j (c : list literal) : i < length c -> j < length c -> swap i j c ≡ₚ c.
Proof.
  intros Hi Hj. unfold swap. apply Permutation_inj. split; [by rewrite !length_insert|].
  exists (fun k => if decide (k = j) then i else if decide (k = i) then j else k). split.
  - intros k k'. repeat case_decide; congruence.
  - intros k. case_decide as E1; [subst; rewrite list_lookup_insert_eq by (by rewrite length_insert); by rewrite list_lookup_lookup_total_lt|].
    rewrite list_lookup_insert_ne by done. case_decide as E2; [subst; rewrite list_lookup_insert_eq by done; by rewrite list_lookup_lookup_total_lt|].
    by rewrite list_lookup_insert_ne.
Qed.

Lemma swap_front i (c : list literal) : 1 <= i < length c -> swap 1 i c !!! 0 = c !!! 0 /\ swap 1 i c !!! 1 = c !!! i.
Proof.
  intros Hi. unfold swap. split.
  - by rewrite !list_lookup_total_insert_ne by lia.
  - destruct (decide (i = 1)) as [->|Hne]; [by rewrite list_lookup_total_insert_eq by (rewrite length_insert; lia)|].
    rewrite list_lookup_total_insert_ne by done. apply list_lookup_total_insert_eq. lia.
Qed.

(** It is one of greatest level. *)
Lemma select_learned_watch_lit_ok c s : 2 <= length c -> let i := select_learned_watch_lit c s in
  1 <= i < length c /\ forall k, 1 <= k < length c -> (lvl (c !!! k) s <= lvl (c !!! i) s)%Z.
Proof.
  intros Hlen. cbn zeta. unfold select_learned_watch_lit.
  set (body := fun (i : nat) (max_false_idx : option nat) => _).
  assert (H : match pure_for 1 (length c) body None with
    | Some i => 1 <= i < length c /\ forall k, 1 <= k < length c -> (lvl (c !!! k) s <= lvl (c !!! i) s)%Z
    | None => length c <= 1 end).
  { apply (pure_for_inv (fun n o => match o with
      | Some i => 1 <= i < n /\ forall k, 1 <= k < n -> (lvl (c !!! k) s <= lvl (c !!! i) s)%Z | None => n <= 1 end)); [lia|lia|].
    intros k o Hk Ho. unfold body. destruct o as [i|].
    - destruct Ho as [Hi Hmax]. destruct (Z.ltb_spec (lvl (c !!! i) s) (lvl (c !!! k) s)); (split; [lia|]); intros k' Hk';
        (destruct (decide (k' = k)) as [->|]; [lia|]); specialize (Hmax k' ltac:(lia)); lia.
    - split; [lia|]. intros k' Hk'. replace k' with k by lia. lia. }
  destruct (pure_for 1 (length c) body None) as [i|]; [exact H|lia].
Qed.

(** ** Adding the lemma *)

Lemma assign_core_justification l j s : sized s -> in_vars s l -> at_base_lvl s = false -> m_justification (assign_core l j s) !!! var l = j.
Proof.
  intros Hs Hl Hb. unfold assign_core. cbv zeta. rewrite Hb. simpl. apply list_lookup_total_insert_eq. by rewrite (sz_justification _ Hs).
Qed.

Lemma inv_learned s l : inv s -> inv (set_learned l s).
Proof. intros I. eapply inv_still; [done|apply grown_still; try done; apply I|done]. Qed.

(** The first literal is open, the others are false, one of them since this level. *)
Record learnable (s : solver) (l1 : literal) (rest : list literal) : Prop := {
  la_vars : in_vars s l1;
  la_done : m_qhead s = length (m_trail s);
  la_open : value l1 s = l_undef;
  la_false l : l ∈ rest -> neg l ∈ m_trail s;
  la_nodup : NoDup rest;
  la_implied a : says s a -> clause_val a (l1 :: rest) = true;
  la_base : rest = [] -> m_scope_lvl s = 0;
  la_level : rest <> [] -> 0 < m_scope_lvl s /\ exists l, l ∈ rest /\ lvl l s = Z.of_nat (m_scope_lvl s);
}.

(** The lemma is learned: its first literal is assigned, and nothing else is said. *)
Record learns (s : solver) (l1 : literal) (s' : solver) : Prop := {
  ln_searching : searching s';
  ln_says a : says s' a <-> says s a;
  ln_trail : m_trail s' = m_trail s ++ [l1];
  ln_level : m_scope_lvl s' = m_scope_lvl s;
  ln_vars : num_vars s' = num_vars s;
  ln_old x : x ∈ m_trail s -> lvl x s' = lvl x s;
  ln_new : lvl l1 s' = Z.of_nat (m_scope_lvl s);
}.

Lemma short_or_long {A} (l : list A) : l = [] \/ (exists a, l = [a]) \/ (exists a b, l = [a; b]) \/ 3 <= length l.
Proof. destruct l as [|a [|b [|c l]]]; simpl; eauto 6 with lia. Qed.

Lemma mk_clause_core_long `{Env} l1 rest s : 3 <= length rest ->
  mk_clause_core (l1 :: rest) true s = mret (mk_nary_clause (l1 :: rest) true s).
Proof. destruct rest as [|? [|? [|]]]; simpl; [lia..|done]. Qed.

Section Learn.
Context (s : solver) (l1 : literal) (rest : list literal) (S : searching s) (K : learnable s l1 rest).
Local Abbreviation I := (sr_inv _ S).
Local Abbreviation Hs := (inv_sized _ (sr_inv _ S)).
Local Abbreviation Ha := (inv_assigned _ (sr_inv _ S)).

Lemma learn_vars : Forall (in_vars s) (l1 :: rest).
Proof.
  constructor; [apply K|]. apply Forall_forall. intros l Hl. apply in_vars_neg, (trail_vars _ _ Ha). by apply (la_false _ _ _ K).
Qed.

Lemma learn_value l : l ∈ rest -> value l s = l_false.
Proof. intros Hl. apply false_trail; [apply I..|]. by apply (la_false _ _ _ K). Qed.

Lemma learn_nodup : NoDup (l1 :: rest).
Proof.
  constructor; [|apply K]. intros Hl. apply learn_value in Hl. by rewrite (la_open _ _ _ K) in Hl.
Qed.

Lemma learn_proper l : l ∈ l1 :: rest -> neg l ∉ l1 :: rest.
Proof.
  assert (Hopen : forall x, x ∈ rest -> x <> neg l1 /\ neg x <> l1).
  { intros x Hx. pose proof (learn_value x Hx) as Hv. assert (Hne : x <> neg l1).
    { intros ->. rewrite (as_neg _ Ha), (la_open _ _ _ K) in Hv by apply K. done. }
    split; [done|]. intros E. by apply Hne, neg_eq. }
  rewrite !elem_of_cons. intros [->|Hl] [Hn|Hn].
  - by apply neg_neq in Hn.
  - by destruct (Hopen _ Hn).
  - by destruct (Hopen l Hl).
  - apply learn_value in Hl, Hn. rewrite (as_neg _ Ha), Hl in Hn; [done|]. apply value_in_vars; [apply I|congruence].
Qed.

(** The state in which the first literal has been assigned. *)
Local Abbreviation s1 j := (assign_core l1 j s).

Lemma learn_grown j : grown s (s1 j).
Proof. apply assign_core_grown; try apply K; apply I. Qed.

Lemma learn_true j : value l1 (s1 j) = l_true.
Proof. rewrite assign_core_value by (apply K || apply I). by rewrite decide_True. Qed.

Lemma learn_lvl j : lvl l1 (s1 j) = Z.of_nat (m_scope_lvl s).
Proof. apply assign_core_lvl, K. Qed.

(** Its negation is not on the trail. *)
Lemma learn_not_neg j p : m_trail (s1 j) !! p <> Some (neg l1).
Proof.
  intros Hp. apply list_elem_of_lookup_2, trail_value in Hp; [|apply (gr_assigned _ _ (learn_grown j))].
  rewrite (as_neg _ (gr_assigned _ _ (learn_grown j))), learn_true in Hp; [done|].
  apply (grown_vars _ _ (learn_grown j)), K.
Qed.

(** It settles the literals of this level. *)
Lemma learn_settles j l : l ∈ m_trail s -> lvl l s = Z.of_nat (m_scope_lvl s) -> settles (s1 j) l l1.
Proof.
  intros Hl Hlv. split; [apply learn_true|]. rewrite learn_lvl, (proj1 (gr_old _ _ (learn_grown j) l Hl)). lia.
Qed.

(** Of two false literals of the lemma, one before the other on the trail, ... the
    only false literal above the others is of this level. *)
Lemma learn_last_level l p : l ∈ rest -> m_trail s !! p = Some (neg l) ->
  (forall l', l' ∈ rest -> l' = l \/ neg l' ∈ take p (m_trail s)) -> lvl (neg l) s = Z.of_nat (m_scope_lvl s).
Proof.
  intros Hl Hp Hrest. destruct (la_level _ _ _ K) as (_ & m & Hm & Em); [intros ->; by apply elem_of_nil in Hl|].
  pose proof (lv_range _ (inv_levels _ I) (neg l) (la_false _ _ _ K l Hl)) as Hr. destruct (Hrest m Hm) as [->|Hin]; [by rewrite lvl_neg|].
  apply list_elem_of_lookup in Hin as [q Hq]. apply lookup_take_Some in Hq as [Hq Hlt].
  pose proof (lv_sorted _ (inv_levels _ I) q p _ _ ltac:(lia) Hq Hp) as Hle. rewrite !lvl_neg in *. lia.
Qed.

Lemma learn_above : rest <> [] -> at_base_lvl s = false.
Proof. intros Hne. destruct (la_level _ _ _ K Hne) as [H _]. apply Nat.eqb_neq. lia. Qed.

Lemma learn_prefix j : m_trail (s1 j) = m_trail s ++ [l1].
Proof. done. Qed.

(** What is left to show for a state with the literal and the clause. *)
Lemma learns_intro s' : inv s' -> m_inconsistent s' = false -> m_trail s' = m_trail s ++ [l1] -> m_level s' = m_level (s1 J_NONE) ->
  m_scope_lvl s' = m_scope_lvl s -> m_user_scope_literals s' = m_user_scope_literals s ->
  m_clauses_to_reinit s' = m_clauses_to_reinit s -> m_scopes s' = m_scopes s -> rest <> [] ->
  (forall a, holds (wlists s) s a -> clause_val a (l1 :: rest) = true -> holds (wlists s') s' a) ->
  (forall a, holds (wlists s') s' a -> holds (wlists s) s a) -> learns s l1 s'.
Proof.
  intros I' Hi Et El Es Eu Er Esc Hne H1 H2. pose proof (learn_grown J_NONE) as G.
  assert (Elv : forall x, lvl x s' = lvl x (s1 J_NONE)) by (intros x; unfold lvl; by rewrite El).
  split; [split; [done..|]|intros a|done|done| |intros x Hx; rewrite Elv; by apply (gr_old _ _ G)|by rewrite Elv, learn_lvl].
  - eapply frame_ok_later; [apply S|done..| | |].
    + rewrite Et. by apply prefix_app_r.
    + intros x Hx. rewrite Elv. by apply (gr_old _ _ G).
    + intros p x Hp Hx. rewrite Elv. apply (gr_new _ _ G p); [done|]. by rewrite learn_prefix, <- Et.
  - split; intros [Hh Hb].
    + split; [by apply H2|]. intros l Hl H0. apply Hb; [rewrite Et; set_solver|]. rewrite Elv. by rewrite (proj1 (gr_old _ _ G l Hl)).
    + split; [apply H1; [done|]; by apply (la_implied _ _ _ K)|]. intros l Hl. rewrite Elv. rewrite Et in Hl.
      apply elem_of_app in Hl as [Hl|Hl]; [rewrite (proj1 (gr_old _ _ G l Hl)); by apply Hb|]. apply list_elem_of_singleton in Hl as ->.
      rewrite learn_lvl. destruct (la_level _ _ _ K Hne) as [Hpos _]. lia.
  - unfold num_vars. rewrite El. apply (sc_vars _ _ (gr_same _ _ G)).
Qed.

(** The same for a state that stores the clause. *)
Lemma learns_added j s' cs : added (s1 j) s' cs -> inv s' -> m_inconsistent s' = m_inconsistent s ->
  m_user_scope_literals s' = m_user_scope_literals s -> m_clauses_to_reinit s' = m_clauses_to_reinit s -> m_scopes s' = m_scopes s ->
  rest <> [] -> (forall a, holds (wlists s') s' a <-> holds (wlists s) s a /\ clause_val a (l1 :: rest) = true) -> learns s l1 s'.
Proof.
  intros A I' Ei Eu Er Es Hne Hh. apply learns_intro; try done.
  - rewrite Ei. apply S.
  - by rewrite (ad_trail _ _ _ A).
  - by rewrite (ad_level _ _ _ A).
  - by rewrite (ad_scope _ _ _ A).
  - intros a Ha' Hc. by apply Hh.
  - intros a Ha'. by apply Hh.
Qed.

(** The list of learned clauses does not matter. *)
Lemma learns_registered s' l : learns s l1 s' -> learns s l1 (set_learned l s').
Proof.
  intros [[I' Hi [Hu Hr [F1 F2 F3]]] H2 H3 H4 H5 H6 H7]. split; try done. split; [by apply inv_learned|done|]. by split.
Qed.

(** *** One literal *)

Lemma learn_unit : rest = [] -> learns s l1 (assign_unit l1 s).
Proof.
  intros Er. pose proof (la_base _ _ _ K Er) as H0. unfold assign_unit, assign. rewrite (la_open _ _ _ K). pose proof (learn_grown J_NONE) as G.
  assert (Hbase : at_base_lvl s = true) by (by apply Nat.eqb_eq).
  split; [split; [|apply S|]|intros a|done|done|apply G|intros x Hx; by apply (gr_old _ _ G)|apply learn_lvl].
  - by eapply inv_grown_base; [exact Hbase|apply I|].
  - eapply frame_ok_later; [apply S|done..|by apply prefix_app_r|intros x Hx; by apply (gr_old _ _ G)|apply (gr_new _ _ G)].
  - pose proof (grown_follows_holds s _ a I G) as Hh. split.
    + apply prefix_says; [by apply Hh|apply G|intros x Hx; by apply (gr_old _ _ G)].
    + intros Hsa. pose proof (la_implied _ _ _ K a Hsa) as Hc. rewrite Er, clause_val_cons in Hc. unfold clause_val in Hc. simpl in Hc.
      rewrite orb_false_r in Hc. destruct Hsa as [Hha Hb]. split; [by apply Hh|]. intros l. rewrite learn_prefix, elem_of_app.
      intros [Hl|Hl]; [rewrite (proj1 (gr_old _ _ G l Hl)); by apply Hb|]. by apply list_elem_of_singleton in Hl as ->.
Qed.

(** *** Two literals *)

(** The lemma, as a reason for its first literal. *)
Lemma learn_supports l2 : rest = [l2] -> supports (says s) s l1 (J_BINARY l2).
Proof.
  intros Er. right. left. simpl. split; [apply (la_false _ _ _ K); rewrite Er; by left|]. intros a Hsa. rewrite <- Er. by apply (la_implied _ _ _ K).
Qed.

Lemma learn_binary l2 : rest = [l2] -> exists s', mk_bin_clause l1 l2 true s = mret s' /\ learns s l1 s'.
Proof.
  intros Er. assert (H2 : l2 ∈ rest) by (rewrite Er; by left). assert (Hne : rest <> []) by by rewrite Er.
  pose proof (learn_value l2 H2) as V2. pose proof (la_open _ _ _ K) as V1. pose proof (learn_grown (J_BINARY l2)) as G.
  assert (I1 : inv (s1 (J_BINARY l2))) by (apply assign_core_inv; [apply I|apply K..|by apply learn_supports]).
  unfold mk_bin_clause. rewrite V1, V2. rewrite !(bool_decide_false (l_false = l_undef)), andb_false_r by done. rewrite (bool_decide_true (l_undef = l_undef)), andb_true_r by done.
  case_bool_decide as E1.
  { eexists. split; [done|]. apply learns_intro; try done. apply S. }
  destruct (find_binary_watch (get_wlist (neg l1) s) l2) as [b|] eqn:E3.
  { exfalso. apply find_binary_watch_some in E3. destruct (li_sym _ _ (inv_linked _ I) _ _ _ E3) as [b' Hb]. rewrite neg_involutive in Hb.
    pose proof (la_false _ _ _ K l2 H2) as Ht. apply list_elem_of_lookup in Ht as [p Hp].
    pose proof (lookup_lt_Some _ _ _ Hp) as Hlt. rewrite <- (la_done _ _ _ K) in Hlt.
    destruct (inv_processed _ I p _ _ Hlt Hp Hb) as [Hv _]. congruence. }
  unfold propagate_bin_clause. rewrite V2. unfold assign. rewrite V1. cbn [andb negb].
  change (at_base_lvl (s1 (J_BINARY l2))) with (at_base_lvl s). rewrite (learn_above Hne).
  exists (store2 l1 l2 true (s1 (J_BINARY l2))). split; [done|].
  pose proof learn_nodup as Hnd. rewrite Er in Hnd. apply NoDup_cons in Hnd as [[Hn12 _]%not_elem_of_cons _].
  assert (Hpr : l2 <> neg l1).
  { intros E. apply (learn_proper l1); [by left|]. rewrite Er, <- E. set_solver. }
  pose proof learn_vars as Hv. rewrite Er, !Forall_cons in Hv. destruct Hv as (W1 & W2 & _).
  apply (grown_vars _ _ G) in W1, W2. pose proof (inv_sized _ I1) as Hs1. pose proof (inv_assigned _ I1) as Ha1.
  assert (A : added (s1 (J_BINARY l2)) (store2 l1 l2 true (s1 (J_BINARY l2))) []).
  { apply store2_added; try done.
    - intros p _ Hp. by destruct (learn_not_neg _ _ Hp).
    - intros p Hq Hp. apply learn_settles; [by apply (la_false _ _ _ K)|].
      apply (grown_lookup _ _ G) in Hp; [|pose proof (inv_qhead _ I); simpl in Hq; lia].
      apply (learn_last_level l2 p); [done..|]. intros l'. rewrite Er. intros Hl'. left. by apply list_elem_of_singleton in Hl'. }
  assert (Hh : forall a, holds (wlists (store2 l1 l2 true (s1 (J_BINARY l2)))) (store2 l1 l2 true (s1 (J_BINARY l2))) a
     <-> holds (wlists s) s a /\ clause_val a [l1; l2] = true).
  { intros a. rewrite store2_holds by done.
    by rewrite (grown_follows_holds s _ a I G). }
  eapply learns_added; [exact A|by eapply added_inv|exact eq_refl..|done|]. by rewrite Er.
Qed.

(** *** Three literals *)

Lemma assign_core_store3 l j x y z b t : store3 x y z b (assign_core l j t) = assign_core l j (store3 x y z b t).
Proof. done. Qed.

Lemma learn_ternary l2 l3 : rest = [l2; l3] -> learns s l1 (mk_ter_clause [l1; l2; l3] true s).
Proof.
  intros Er. assert (H2 : l2 ∈ rest) by (rewrite Er; set_solver). assert (H3 : l3 ∈ rest) by (rewrite Er; set_solver).
  assert (Hne : rest <> []) by by rewrite Er.
  pose proof (learn_value l2 H2) as V2. pose proof (learn_value l3 H3) as V3. pose proof (la_open _ _ _ K) as V1.
  set (j := J_TERNARY l2 l3). pose proof (learn_grown j) as G.
  assert (Hj : supports (says s) s l1 j).
  { right. left. simpl. split_and!; [by apply (la_false _ _ _ K)..|]. intros a Hsa. rewrite <- Er. by apply (la_implied _ _ _ K). }
  assert (I1 : inv (s1 j)) by (apply assign_core_inv; [apply I|apply K..|done]).
  pose proof learn_vars as Hv. pose proof learn_nodup as Hnd. pose proof learn_proper as Hpr. rewrite Er in Hv, Hnd, Hpr.
  set (s3 := store3 l1 l2 l3 true (s1 j)). set (off := length (m_cls s)).
  assert (Es : mk_ter_clause [l1; l2; l3] true s = set_learned (m_learned s3 ++ [off]) s3).
  { unfold s3. rewrite assign_core_store3. set (s0 := store3 l1 l2 l3 true s).
    assert (E0 : forall x, value x s0 = value x s) by done.
    pose proof (alloc_lits s [l1; l2; l3] true false) as Ec. unfold lits_of in Ec.
    unfold mk_ter_clause, alloc_clause, attach_ter_clause. rewrite Ec. cbn [lookup_total list_lookup_total].
    change (push_watch (neg l3) (mk_ternary l1 l2) _) with s0. change (at_base_lvl s0) with (at_base_lvl s). rewrite (learn_above Hne).
    rewrite !E0, V2, V3. rewrite !bool_decide_true by done. cbn [andb]. unfold assign. rewrite E0, V1. done. }
  rewrite Es. assert (A : added (s1 j) s3 [mk_clause_obj [l1; l2; l3] false true false false]).
  { apply store3_added; try apply I1; try done.
    { eapply Forall_impl; [exact Hv|]. intros l. apply (grown_vars _ _ G). }
    intros p t u v Hp Hq Hpt Hu. assert (Hqs : p < length (m_trail s)) by (pose proof (inv_qhead _ I); simpl in Hq; lia).
    assert (Hnt : t <> l1) by (intros ->; by destruct (learn_not_neg _ _ Hpt)).
    assert (Hnu : u <> l1).
    { intros ->. apply list_elem_of_lookup in Hu as [q Hu]. apply lookup_take_Some in Hu as [Hu _]. by destruct (learn_not_neg _ _ Hu). }
    apply (grown_lookup _ _ G) in Hpt; [|done]. rewrite (grown_take _ _ G) in Hu by lia.
    assert (Hin : forall l, l ∈ [t; u; v] <-> l ∈ [l1; l2; l3]) by (intros l; by rewrite Hp).
    assert (v = l1) as ->.
    { assert (H1 : l1 ∈ [t; u; v]) by (apply Hin; by left). rewrite !elem_of_cons, elem_of_nil in H1. naive_solver. }
    assert (Ht : t ∈ rest).
    { rewrite Er. assert (H1 : t ∈ [l1; l2; l3]) by (apply Hin; by left). apply elem_of_cons in H1 as [?|?]; done. }
    apply learn_settles; [by apply (la_false _ _ _ K)|]. apply (learn_last_level t p); [done..|]. intros l' Hl'.
    assert (H1 : l' ∈ [t; u; l1]) by (apply Hin; rewrite Er in Hl'; by right).
    rewrite !elem_of_cons, elem_of_nil in H1. destruct H1 as [?|[->|[->|[]]]]; [by left|by right|].
    pose proof learn_nodup as Hd. apply NoDup_cons in Hd as [Hd _]. done. }
  apply learns_registered.
  assert (Hh : forall a, holds (wlists s3) s3 a <-> holds (wlists s) s a /\ clause_val a [l1; l2; l3] = true).
  { intros a. rewrite (added_holds _ _ _ A a), Forall_singleton, (grown_follows_holds s _ a I G); [done|].
    apply store3_binary; [apply I1|eapply Forall_impl; [exact Hv|]; intros l; apply (grown_vars _ _ G)|done]. }
  eapply learns_added; [exact A|by eapply added_inv|exact eq_refl..|done|]. by rewrite Er.
Qed.

(** *** More literals *)

(** The new clause is changed. *)
Lemma upd_clause_last f (t : solver) c : upd_clause (length (m_cls t)) f (set_cls (m_cls t ++ [c]) t) = set_cls (m_cls t ++ [f c]) t.
Proof.
  unfold upd_clause. change (m_cls (set_cls (m_cls t ++ [c]) t)) with (m_cls t ++ [c]).
  rewrite <- (Nat.add_0_r (length (m_cls t))), alter_app_r. done.
Qed.

Lemma get_clause_last (t : solver) c : get_clause (length (m_cls t)) (set_cls (m_cls t ++ [c]) t) = c.
Proof. unfold get_clause. simpl. by rewrite list_lookup_total_middle. Qed.

Lemma assign_core_storeN l j lits b t : storeN lits b (assign_core l j t) = assign_core l j (storeN lits b t).
Proof. done. Qed.

Lemma learn_some : 3 <= length rest -> rest <> [].
Proof. intros Hlen E. rewrite E in Hlen. simpl in Hlen. lia. Qed.

(** The literals in the order in which they are stored. *)
Definition learned_lits : list literal := swap 1 (select_learned_watch_lit (l1 :: rest) s) (l1 :: rest).

Lemma learned_lits_ok : 3 <= length rest -> learned_lits ≡ₚ l1 :: rest /\ learned_lits !!! 0 = l1
  /\ learned_lits !!! 1 ∈ rest /\ lvl (learned_lits !!! 1) s = Z.of_nat (m_scope_lvl s).
Proof.
  intros Hlen. destruct (select_learned_watch_lit_ok (l1 :: rest) s) as [Hi Hmax]; [simpl; lia|].
  unfold learned_lits. set (i := select_learned_watch_lit _ _) in *. destruct (swap_front i (l1 :: rest) Hi) as [-> ->].
  split; [apply swap_lits_perm; simpl in *; lia|]. split; [done|].
  assert (Hin : (l1 :: rest) !!! i ∈ rest).
  { destruct i as [|i]; [lia|]. simpl in *. apply (list_elem_of_lookup_2 _ i), list_lookup_lookup_total_lt. lia. }
  split; [exact Hin|]. destruct (la_level _ _ _ K) as (_ & m & Hm & Em); [by apply learn_some|].
  pose proof (lv_range _ (inv_levels _ I) _ (la_false _ _ _ K _ Hin)) as Hr. rewrite lvl_neg in Hr.
  apply list_elem_of_lookup in Hm as [q Hq]. specialize (Hmax (Datatypes.S q)). pose proof (lookup_lt_Some _ _ _ Hq).
  rewrite (list_lookup_total_correct (l1 :: rest) (Datatypes.S q) m Hq) in Hmax. specialize (Hmax ltac:(simpl in *; lia)). lia.
Qed.

Lemma learn_nary_eq : 3 <= length rest -> let s' := storeN learned_lits true (s1 (J_CLAUSE (length (m_cls s)))) in
  mk_nary_clause (l1 :: rest) true s = set_learned (m_learned s' ++ [length (m_cls s)]) s'.
Proof.
  intros Hlen. destruct (learned_lits_ok Hlen) as (Hp & H0 & H1 & _). pose proof (learn_some Hlen) as Hne.
  cbv zeta. set (c := mk_clause_obj (l1 :: rest) false true false false). set (c' := mk_clause_obj learned_lits false true false false).
  set (s0 := set_cls (m_cls s ++ [c]) s). set (t0 := set_cls (m_cls s ++ [c']) s).
  assert (Eu : upd_clause (length (m_cls s)) (fun c => set_lits (swap 1 (select_learned_watch_lit (l1 :: rest) s0) (m_lits c)) c) s0 = t0).
  { unfold s0. rewrite upd_clause_last. done. }
  assert (Ec : get_clause (length (m_cls s)) s0 = c) by apply get_clause_last.
  assert (Ec' : get_clause (length (m_cls s)) t0 = c') by apply get_clause_last.
  assert (V1 : value (learned_lits !!! 0) t0 = l_undef) by (rewrite H0; apply K).
  assert (V2 : value (learned_lits !!! 1) t0 = l_false) by exact (learn_value _ H1).
  set (s1' := assign_core l1 (J_CLAUSE (length (m_cls s))) t0).
  assert (E1 : assign (learned_lits !!! 0) (J_CLAUSE (length (m_cls s))) t0 = s1').
  { unfold assign. by rewrite V1, H0. }
  assert (Ec1 : get_clause (length (m_cls s)) s1' = c') by exact Ec'.
  unfold mk_nary_clause, alloc_clause, attach_nary_clause. cbv zeta. fold c s0. change (at_base_lvl s0) with (at_base_lvl s).
  rewrite (learn_above Hne), Ec. change (is_learned c) with true. change (m_lits c) with (l1 :: rest). cbv iota beta.
  rewrite Eu, Ec'. change (m_lits c') with learned_lits. rewrite V1, V2, E1, Ec1. change (m_lits c') with learned_lits.
  cbn [andb negb]. done.
Qed.

(** The clause is stored with its first literal assigned; it explains the literal. *)
Lemma learned_inv j s' cs : added (s1 j) s' cs -> at_base_lvl s = false -> explains (says s) s' (m_trail s) (Some l1) j -> inv s'.
Proof.
  intros A Hb He. pose proof (learn_grown j) as G. pose proof I as [Is Ia Il Iq Ip Iv Ir].
  assert (Hl1 : linked (wlists (s1 j)) (s1 j)) by (eapply linked_ext; [|by eapply (grown_linked _ _ G)]; done).
  assert (Hp1 : processed (wlists (s1 j)) (s1 j) (m_qhead s)).
  { eapply processed_ext; [|eapply (grown_processed _ _ Is Ia G); [exact Iq|exact Ip]]. done. }
  split.
  - apply A.
  - eapply added_assigned; [exact A|apply G].
  - by eapply added_linked.
  - rewrite (ad_qhead _ _ _ A), (ad_trail _ _ _ A), learn_prefix, length_app. simpl. lia.
  - by eapply added_processed.
  - eapply added_levels; [exact A|]. by eapply (grown_levels _ _ G).
  - apply (reasons_impl (says s)).
    { intros a. apply prefix_says.
      - intros Hh. apply (added_weaker _ _ _ A) in Hh. by apply (grown_follows_holds s _ a I G).
      - rewrite (ad_trail _ _ _ A). apply G.
      - intros x Hx. unfold lvl. rewrite (ad_level _ _ _ A). by apply (gr_old _ _ G). }
    intros p x. rewrite (ad_trail _ _ _ A). unfold lvl at 1. rewrite (ad_level _ _ _ A). intros Hp Hpos.
    destruct (decide (p < length (m_trail s))) as [Hlt|Hge].
    + apply (added_reason _ _ _ A). pose proof (grown_lookup _ _ G p x Hlt Hp) as Hx.
      apply (grown_reason _ _ G); [done|]. apply Ir; [done|].
      by rewrite <- (proj1 (gr_old _ _ G x (list_elem_of_lookup_2 _ _ _ Hx))).
    + rewrite learn_prefix, lookup_app_r in Hp by lia. destruct (p - _) as [|n] eqn:En; [|done]. injection Hp as <-.
      assert (p = length (m_trail s)) as -> by lia. unfold reason.
      rewrite (ad_justification _ _ _ A), (ad_trail _ _ _ A), learn_prefix, take_app_length.
      rewrite (assign_core_justification _ _ _ Is (la_vars _ _ _ K) Hb). by destruct j.
Qed.

Lemma learn_nary : 3 <= length rest -> learns s l1 (mk_nary_clause (l1 :: rest) true s).
Proof.
  intros Hlen. destruct (learned_lits_ok Hlen) as (Hp & H0 & H1 & Hlv). pose proof (learn_some Hlen) as Hne.
  rewrite learn_nary_eq by done. apply learns_registered. set (j := J_CLAUSE (length (m_cls s))). pose proof (learn_grown j) as G.
  assert (Hv : Forall (in_vars (s1 j)) learned_lits).
  { rewrite Hp. eapply Forall_impl; [exact learn_vars|]. intros l. apply (grown_vars _ _ G). }
  assert (Hnd : NoDup learned_lits) by (rewrite Hp; apply learn_nodup).
  assert (Hpr : forall l, l ∈ learned_lits -> neg l ∉ learned_lits) by (intros l; rewrite Hp; apply learn_proper).
  assert (Hl3 : 3 < length learned_lits) by (rewrite Hp; simpl; lia).
  assert (A : added (s1 j) (storeN learned_lits true (s1 j)) [mk_clause_obj learned_lits false true false false]).
  { apply storeN_added; try done; [apply G|]. intros p i Hq Hi Hpt. exists l1. split; [rewrite Hp; by left|].
    assert (i = 0 \/ i = 1) as [->| ->] by lia.
    - rewrite H0 in Hpt. by destruct (learn_not_neg _ _ Hpt).
    - apply learn_settles; [by apply (la_false _ _ _ K)|]. by rewrite lvl_neg. }
  pose proof (storeN_lits (s1 j) learned_lits true) as El.
  assert (Hh : forall a, holds (wlists (storeN learned_lits true (s1 j))) (storeN learned_lits true (s1 j)) a
     <-> holds (wlists s) s a /\ clause_val a (l1 :: rest) = true).
  { intros a. rewrite (added_holds _ _ _ A a), Forall_singleton, (grown_follows_holds s _ a I G); [cbn [m_lits]; by rewrite Hp|].
    apply storeN_binary; [apply G|done..]. }
  eapply learns_added; [exact A| |exact eq_refl..|done|exact Hh].
  apply (learned_inv _ _ _ A); [by apply learn_above|]. split_and!.
  - change (m_cls (storeN learned_lits true (s1 j))) with (m_cls s ++ [mk_clause_obj learned_lits false true false false]).
    rewrite length_app. simpl. lia.
  - intros x [= <-]. left. change (length (m_cls s)) with (length (m_cls (s1 j))). by rewrite El.
  - intros y. change (length (m_cls s)) with (length (m_cls (s1 j))). rewrite El, Hp. intros [->|Hy]%elem_of_cons Hne'; [done|].
    by apply (la_false _ _ _ K).
Qed.

(** *** Every length *)

Lemma learn_ok `{Env} : exists s', mk_clause_core (l1 :: rest) true s = mret s' /\ learns s l1 s'.
Proof.
  destruct (short_or_long rest) as [E|[[l2 E]|[(l2 & l3 & E)|Hlen]]].
  - exists (assign_unit l1 s). split; [by rewrite E|exact (learn_unit E)].
  - destruct (learn_binary l2 E) as (s' & Es & L). exists s'. split; [by rewrite E|done].
  - exists (mk_ter_clause [l1; l2; l3] true s). split; [by rewrite E|exact (learn_ternary l2 l3 E)].
  - exists (mk_nary_clause (l1 :: rest) true s). split; [by apply mk_clause_core_long|exact (learn_nary Hlen)].
Qed.
End Learn.
