(* ===== verification/Goal.v ===== *)
(** * Goal: the list of formulas a tactic works on

    [goal] of [tactic/goal.cpp], without proofs and unsatisfiable cores: the
    formulas, and whether one of them is [false].  An asserted conjunction is
    split into its conjuncts. *)
From Stdlib Require Import ZArith Lia.
From stdpp Require Import base list.
From S2P Require Import Prelude Ast AstFacts TermFacts.

Module goal.

Record goal := mk_goal {
  m_forms : list expr;
  m_inconsistent : bool;
}.

Definition push_back (f : expr) (g : goal) : goal :=
  if m.is_true f then g
  else if m.is_false f then mk_goal [m.mk_false] true
  else mk_goal (m_forms g ++ [f]) (m_inconsistent g).

(** The nodes of a term. *)
Fixpoint nodes (t : expr) : nat := let 'App _ args := t in S (sum_list_with nodes args).

(** The loop of [quick_process] over the stack [todo] of formulas and
    polarities, with its top first; [None] when [fuel] runs out. *)
Fixpoint quick_loop (fuel : nat) (todo : list (expr * bool)) (save_first : bool) (f : expr) (g : goal)
    : option (bool * expr * goal) :=
  match todo with
  | [] => Some (save_first, f, g)
  | (curr, pol) :: todo =>
      match fuel with
      | O => None
      | S fuel' =>
          if m_inconsistent g then Some (save_first, f, g)
          else
            match (if pol then m.is_and curr else None), (if pol then None else m.is_or curr), m.is_not curr with
            | Some args, _, _ => quick_loop fuel' (map (fun a => (a, true)) args ++ todo) save_first f g
            | _, Some args, _ => quick_loop fuel' (map (fun a => (a, false)) args ++ todo) save_first f g
            | _, _, Some a => quick_loop fuel' ((a, negb pol) :: todo) save_first f g
            | _, _, _ =>
                let curr := if pol then curr else m.mk_not curr in
                if save_first then quick_loop fuel' todo false curr g
                else quick_loop fuel' todo false f (push_back curr g)
            end
      end
  end.

(** Whether there is anything to split. *)
Definition splits (f : expr) : bool :=
  match m.is_and f, m.is_not f with
  | Some _, _ => true
  | None, Some a => match m.is_or a with Some _ => true | None => false end
  | None, None => false
  end.

(** The conjuncts of [f] are added to the goal; with [save_first] the first is
    returned instead. *)
Definition quick_process (save_first : bool) (f : expr) (g : goal) : option (expr * goal) :=
  if splits f then
    '(_, f, g) ← quick_loop (nodes f) [(f, true)] save_first f g;
    Some (f, g)
  else Some (f, if save_first then g else push_back f g).

Definition assert_expr (f : expr) (g : goal) : option goal :=
  if m_inconsistent g then Some g
  else '(_, g) ← quick_process false f g; Some g.

Definition update (i : nat) (f : expr) (g : goal) : option goal :=
  if m_inconsistent g then Some g
  else
    '(fr, g) ← quick_process true f g;
    Some (if m_inconsistent g then g
          else if m.is_false fr then push_back f g
          else mk_goal (<[i := fr]> (m_forms g)) (m_inconsistent g)).

Definition reset (g : goal) : goal := mk_goal [] false.

(** The loop of [elim_redundancies]: the formulas that stay, [None] when an atom
    occurs with both signs.  [neg_lits] and [pos_lits] are the marks. *)
Fixpoint elim_loop (neg_lits pos_lits : list expr) (fs : list expr) : option (list expr) :=
  match fs with
  | [] => Some []
  | f :: fs =>
      if m.is_true f then elim_loop neg_lits pos_lits fs
      else match m.is_not f with
      | Some atom =>
          if decide (atom ∈ neg_lits) then elim_loop neg_lits pos_lits fs
          else if decide (atom ∈ pos_lits) then None
          else cons f <$> elim_loop (atom :: neg_lits) pos_lits fs
      | None =>
          if decide (f ∈ pos_lits) then elim_loop neg_lits pos_lits fs
          else if decide (f ∈ neg_lits) then None
          else cons f <$> elim_loop neg_lits (f :: pos_lits) fs
      end
  end.

Definition elim_redundancies (g : goal) : goal :=
  if m_inconsistent g then g
  else match elim_loop [] [] (m_forms g) with
  | Some fs => mk_goal fs (m_inconsistent g)
  | None => push_back m.mk_false g
  end.
End goal.
Import goal.

(** ** Meaning *)

(** The conjunction of formulas. *)
Definition conj (fs : list expr) (I : interp) : bool := forallb (bval I) fs.

Lemma conj_app fs fs' I : conj (fs ++ fs') I = conj fs I && conj fs' I.
Proof. apply forallb_app. Qed.

(** What is left to split, each formula with its polarity. *)
Definition todo_holds (todo : list (expr * bool)) (I : interp) : bool :=
  forallb (fun p => Bool.eqb (bval I p.1) p.2) todo.

Definition todo_nodes (todo : list (expr * bool)) : nat := sum_list_with (fun p => nodes p.1) todo.

Lemma todo_true args todo I :
  todo_holds (map (fun a => (a, true)) args ++ todo) I = conj args I && todo_holds todo I.
Proof.
  unfold todo_holds, conj. rewrite forallb_app. f_equal. induction args as [|a args IH]; simpl; [done|].
  rewrite IH. by destruct (bval I a).
Qed.

Lemma todo_false args todo I :
  todo_holds (map (fun a => (a, false)) args ++ todo) I = negb (existsb (bval I) args) && todo_holds todo I.
Proof.
  unfold todo_holds. rewrite forallb_app. f_equal. induction args as [|a args IH]; simpl; [done|].
  rewrite IH. by destruct (bval I a).
Qed.

Lemma todo_nodes_map args b todo :
  todo_nodes (map (fun a => (a, b)) args ++ todo) = (sum_list_with nodes args + todo_nodes todo)%nat.
Proof.
  unfold todo_nodes. rewrite sum_list_with_app. f_equal. induction args as [|a args IH]; simpl; [done|]. by rewrite IH.
Qed.

(** The outcome of splitting [phi] into pieces: the goal is inconsistent and
    [phi] is false, or pieces were appended. *)
Definition split_ok (phi : interp -> bool) (g g' : goal) (saved : interp -> bool) : Prop :=
  m_inconsistent g' = true /\ m_forms g' = [m.mk_false] /\ (forall I, phi I = false)
  \/ m_inconsistent g' = false
     /\ exists pieces, m_forms g' = m_forms g ++ pieces /\ forall I, phi I = saved I && conj pieces I.

Lemma split_ok_ext phi phi' g g' saved : (forall I, phi I = phi' I) -> split_ok phi g g' saved -> split_ok phi' g g' saved.
Proof.
  intros E [(? & ? & Hf)|(? & ps & ? & Hp)]; [left|right].
  - split_and!; try done. intros I. by rewrite <- E.
  - split; [done|]. exists ps. split; [done|]. intros I. by rewrite <- E.
Qed.

Lemma push_back_ok f g : m_inconsistent g = false -> split_ok (fun I => bval I f) g (push_back f g) (fun _ => true).
Proof.
  intros Hg. unfold push_back. destruct (m.is_true f) eqn:E1; recog.
  { right. split; [done|]. exists []. by rewrite app_nil_r. }
  destruct (m.is_false f) eqn:E2; recog; [by left|].
  right. split; [done|]. exists [f]. split; [done|]. intros I. simpl. by rewrite andb_true_r.
Qed.

(** Appending after appending. *)
Lemma split_ok_trans phi psi g g1 g2 saved :
  split_ok phi g g1 (fun _ => true) ->
  (m_inconsistent g1 = true -> g2 = g1) ->
  (m_inconsistent g1 = false -> split_ok psi g1 g2 saved) ->
  split_ok (fun I => phi I && psi I) g g2 saved.
Proof.
  intros H1 Hi H2. destruct H1 as [(E1 & F1 & Z1)|(E1 & ps & F1 & P1)].
  - rewrite (Hi E1). left. split_and!; try done. intros I. by rewrite Z1.
  - destruct (H2 E1) as [(E2 & F2 & Z2)|(E2 & qs & F2 & P2)].
    + left. split_and!; try done. intros I. by rewrite Z2, andb_false_r.
    + right. split; [done|]. exists (ps ++ qs). split; [by rewrite F2, F1, app_assoc|].
      intros I. rewrite P1, P2, conj_app. by destruct (saved I), (conj ps I).
Qed.

Lemma nodes_pos t : (0 < nodes t)%nat.
Proof. destruct t. simpl. lia. Qed.

Lemma todo_nodes_cons c b todo : todo_nodes ((c, b) :: todo) = (nodes c + todo_nodes todo)%nat.
Proof. done. Qed.

(** Once the goal is inconsistent the loop stops. *)
Lemma quick_loop_stop fuel todo sf f g : m_inconsistent g = true -> (todo_nodes todo <= fuel)%nat ->
  quick_loop fuel todo sf f g = Some (sf, f, g).
Proof.
  intros Hi Hf. destruct todo as [|[c b] todo], fuel; simpl; rewrite ?Hi; try done.
  rewrite todo_nodes_cons in Hf. pose proof (nodes_pos c). lia.
Qed.

Definition saved_by (sf sf' : bool) (f' : expr) (I : interp) : bool := if sf && negb sf' then bval I f' else true.

(** The loop ends, and splits what is on the stack. *)
Lemma quick_loop_ok fuel : forall todo sf f g, (todo_nodes todo <= fuel)%nat -> m_inconsistent g = false ->
  exists sf' f' g', quick_loop fuel todo sf f g = Some (sf', f', g')
    /\ split_ok (todo_holds todo) g g' (saved_by sf sf' f')
    /\ (sf = sf' -> f' = f) /\ (sf = false -> sf' = false).
Proof.
  induction fuel as [|fuel IH]; intros todo sf f g Hfuel Hg; destruct todo as [|[curr pol] todo].
  1, 3: exists sf, f, g; simpl; (split; [done|]); split; [|done]; right; (split; [done|]); exists [];
    rewrite app_nil_r; (split; [done|]); intros I; unfold saved_by; by destruct sf.
  { rewrite todo_nodes_cons in Hfuel. pose proof (nodes_pos curr). lia. }
  rewrite todo_nodes_cons in Hfuel. cbn [quick_loop]. rewrite Hg.
  assert (Hleaf : exists sf' f' g',
    (if sf then quick_loop fuel todo false (if pol then curr else m.mk_not curr) g
     else quick_loop fuel todo false f (push_back (if pol then curr else m.mk_not curr) g)) = Some (sf', f', g')
    /\ split_ok (todo_holds ((curr, pol) :: todo)) g g' (saved_by sf sf' f')
    /\ (sf = sf' -> f' = f) /\ (sf = false -> sf' = false)).
  { set (c := if pol then curr else m.mk_not curr).
    assert (Hc : forall I, bval I c && todo_holds todo I = todo_holds ((curr, pol) :: todo) I).
    { intros I. change (todo_holds ((curr, pol) :: todo) I) with (Bool.eqb (bval I curr) pol && todo_holds todo I).
      f_equal. unfold c. destruct pol; [by destruct (bval I curr)|]. rewrite bval_not. by destruct (bval I curr). }
    pose proof (nodes_pos curr) as Hpos. destruct sf.
    - destruct (IH todo false c g) as (sf' & f' & g' & E & Hs & Hf & Hsf); [lia|done|].
      pose proof (Hsf eq_refl) as ->. rewrite (Hf eq_refl) in *. exists false, c, g'. split; [done|]. split; [|done].
      eapply split_ok_ext; [exact Hc|]. destruct Hs as [(? & ? & Z)|(? & ps & ? & P)]; [left|right].
      + split_and!; try done. intros I. by rewrite Z, andb_false_r.
      + split; [done|]. exists ps. split; [done|]. intros I. by rewrite P.
    - pose proof (push_back_ok c g Hg) as Hp. destruct (m_inconsistent (push_back c g)) eqn:Hi.
      + exists false, f, (push_back c g). rewrite quick_loop_stop by (done || lia). split; [done|]. split; [|done].
        eapply split_ok_ext; [exact Hc|]. eapply split_ok_trans; [exact Hp|done|congruence].
      + destruct (IH todo false f (push_back c g)) as (sf' & f' & g' & E & Hs & Hf & Hsf); [lia|done|].
        exists sf', f', g'. split; [done|]. split; [|done].
        eapply split_ok_ext; [exact Hc|]. eapply split_ok_trans; [exact Hp|congruence|]. intros _. exact Hs. }
  assert (Hgo : forall todo', (todo_nodes todo' <= fuel)%nat ->
    (forall I, todo_holds todo' I = todo_holds ((curr, pol) :: todo) I) ->
    exists sf' f' g', quick_loop fuel todo' sf f g = Some (sf', f', g')
      /\ split_ok (todo_holds ((curr, pol) :: todo)) g g' (saved_by sf sf' f')
      /\ (sf = sf' -> f' = f) /\ (sf = false -> sf' = false)).
  { intros todo' Hn Hh. destruct (IH todo' sf f g Hn Hg) as (sf' & f' & g' & E & Hs & Hf). exists sf', f', g'.
    split; [done|]. split; [|done]. by eapply split_ok_ext. }
  destruct (if pol then m.is_and curr else None) as [args|] eqn:E1.
  { destruct pol; [|done]. recog. apply Hgo.
    - rewrite todo_nodes_map. simpl in Hfuel. lia.
    - intros I. rewrite todo_true. unfold todo_holds at 2. cbn [forallb fst snd]. rewrite bval_and.
      by destruct (forallb (bval I) args) eqn:Ea; unfold conj; rewrite Ea. }
  destruct (if pol then None else m.is_or curr) as [args|] eqn:E2.
  { destruct pol; [done|]. recog. apply Hgo.
    - rewrite todo_nodes_map. simpl in Hfuel. lia.
    - intros I. rewrite todo_false. unfold todo_holds at 2. cbn [forallb fst snd]. rewrite bval_or.
      by destruct (existsb (bval I) args). }
  destruct (m.is_not curr) as [a|] eqn:E3; [|exact Hleaf]. recog. apply Hgo.
  - rewrite todo_nodes_cons. simpl in Hfuel. lia.
  - intros I. unfold todo_holds. cbn [forallb fst snd]. rewrite bval_not. by destruct (bval I a), pol.
Qed.

Lemma quick_process_ok sf f g : m_inconsistent g = false ->
  exists f' g', quick_process sf f g = Some (f', g')
    /\ split_ok (fun I => bval I f) g g' (fun I => if sf then bval I f' else true).
Proof.
  intros Hg. unfold quick_process. destruct (splits f).
  - destruct (quick_loop_ok (nodes f) [(f, true)] sf f g) as (sf' & f' & g' & -> & Hs & Hf & Hsf); [|done|].
    { rewrite todo_nodes_cons. unfold todo_nodes. simpl. lia. }
    exists f', g'. split; [done|].
    assert (Hone : forall I, todo_holds [(f, true)] I = bval I f).
    { intros I. unfold todo_holds. simpl. by destruct (bval I f). }
    destruct Hs as [(? & ? & Z)|(? & ps & ? & P)]; [left|right].
    + split_and!; try done. intros I. by rewrite <- Hone.
    + split; [done|]. exists ps. split; [done|]. intros I. rewrite <- Hone, P. unfold saved_by.
      destruct sf; [|done]. destruct sf'; [|done]. rewrite (Hf eq_refl). rewrite <- Hone, P. by destruct (conj ps I).
  - destruct sf.
    + exists f, g. split; [done|]. right. split; [done|]. exists []. rewrite app_nil_r. split; [done|].
      intros I. by rewrite andb_true_r.
    + exists f, (push_back f g). split; [done|]. by apply push_back_ok.
Qed.

(** [update] puts a formula in the place of another, its further conjuncts at
    the end.  When the first conjunct is [false] the formula is appended and the
    one it was to replace stays. *)
Lemma update_ok i f g : m_inconsistent g = false -> (i < length (m_forms g))%nat ->
  exists g', update i f g = Some g'
    /\ (m_inconsistent g' = true /\ m_forms g' = [m.mk_false] /\ (forall I, bval I f = false)
        \/ m_inconsistent g' = false
           /\ ((exists fr ps, m_forms g' = <[i := fr]> (m_forms g) ++ ps
                 /\ forall I, bval I f = bval I fr && conj ps I)
               \/ (exists ps, m_forms g' = m_forms g ++ ps /\ forall I, bval I f = false /\ conj ps I = false))).
Proof.
  intros Hg Hi. unfold update. rewrite Hg. destruct (quick_process_ok true f g Hg) as (fr & g' & -> & Hs).
  simpl. destruct Hs as [(E1 & F1 & Z1)|(E1 & ps & F1 & P1)]; rewrite E1; [by exists g'; auto|].
  destruct (m.is_false fr) eqn:Efr; recog.
  - assert (Hf : forall I, bval I f = false) by (intros I; by rewrite P1).
    exists (push_back f g'). split; [done|].
    destruct (push_back_ok f g' E1) as [(E2 & F2 & Z2)|(E2 & qs & F2 & P2)]; [by left|].
    right. split; [done|]. right. exists (ps ++ qs). split; [by rewrite F2, F1, app_assoc|].
    intros I. split; [done|]. specialize (P2 I). simpl in P2. rewrite conj_app, <- P2, Hf. apply andb_false_r.
  - eexists. split; [done|]. right. split; [done|]. left. exists fr, ps. split; [|done].
    simpl. by rewrite F1, insert_app_l.
Qed.

(** The formulas stay Boolean. *)
Lemma push_back_bool f g : boolx f -> Forall boolx (m_forms g) -> Forall boolx (m_forms (push_back f g)).
Proof.
  intros Hf Hg. unfold push_back. destruct (m.is_true f); [done|].
  destruct (m.is_false f); simpl; [repeat constructor; apply boolx_false|]. apply Forall_app. by repeat constructor.
Qed.

Lemma quick_loop_bool fuel : forall todo sf f g sf' f' g', Forall (fun p => boolx p.1) todo -> boolx f ->
  Forall boolx (m_forms g) -> quick_loop fuel todo sf f g = Some (sf', f', g') -> boolx f' /\ Forall boolx (m_forms g').
Proof.
  induction fuel as [|fuel IH]; intros [|[curr pol] todo] sf f g sf' f' g' Ht Hf Hg; simpl; try done; try (by intros [= <- <- <-]).
  apply Forall_cons in Ht as [Hc Ht]. simpl in Hc. destruct (m_inconsistent g); [by intros [= <- <- <-]|].
  assert (Hmap : forall args b, Forall boolx args -> Forall (fun p : expr * bool => boolx p.1) (map (fun a => (a, b)) args ++ todo)).
  { intros args b Ha. apply Forall_app. split; [|done]. by apply Forall_map. }
  destruct (if pol then m.is_and curr else None) as [args|] eqn:E1.
  { destruct pol; [|done]. recog. apply IH; [|done..]. by apply Hmap, boolx_and. }
  destruct (if pol then None else m.is_or curr) as [args|] eqn:E2.
  { destruct pol; [done|]. recog. apply IH; [|done..]. by apply Hmap, boolx_or. }
  destruct (m.is_not curr) as [a|] eqn:E3; [recog; apply IH; [constructor; [by apply boolx_not|done]|done..]|].
  assert (Hb : boolx (if pol then curr else m.mk_not curr)) by (destruct pol; [done|by apply boolx_not]).
  destruct sf; apply IH; try done. by apply push_back_bool.
Qed.

Lemma update_bool i f g g' : boolx f -> Forall boolx (m_forms g) -> update i f g = Some g' -> Forall boolx (m_forms g').
Proof.
  intros Hf Hg. unfold update. destruct (m_inconsistent g); [by intros [= <-]|].
  destruct (quick_process true f g) as [[fr g1]|] eqn:E; [|done].
  assert (H : boolx fr /\ Forall boolx (m_forms g1)).
  { unfold quick_process in E. destruct (splits f); [|by injection E as <- <-].
    destruct (quick_loop _ _ _ _ _) as [[[sf' f'] g2]|] eqn:El; [|done]. injection E as <- <-.
    eapply quick_loop_bool; [|exact Hf|exact Hg|exact El]. by repeat constructor. }
  destruct H as [Hfr Hg1]. simpl. intros [= <-]. destruct (m_inconsistent g1); [done|]. destruct (m.is_false fr).
  - by apply push_back_bool.
  - by apply Forall_insert.
Qed.

(** What is marked has been met, so that it holds where the formulas do. *)
Lemma elim_loop_ok I fs : forall neg_lits pos_lits,
  (forall a, a ∈ neg_lits -> bval I a = false) -> (forall a, a ∈ pos_lits -> bval I a = true) ->
  match elim_loop neg_lits pos_lits fs with
  | Some fs' => conj fs' I = conj fs I
  | None => conj fs I = false
  end.
Proof.
  induction fs as [|f fs IH]; intros neg_lits pos_lits Hn Hp; [done|]. cbn [elim_loop].
  change (conj (f :: fs) I) with (bval I f && conj fs I).
  assert (Hskip : bval I f = true -> match elim_loop neg_lits pos_lits fs with
    | Some fs' => conj fs' I = bval I f && conj fs I | None => bval I f && conj fs I = false end).
  { intros ->. specialize (IH _ _ Hn Hp). by destruct (elim_loop _ _ _). }
  assert (Hkeep : forall ns ps, (bval I f = true -> (forall a, a ∈ ns -> bval I a = false) /\ (forall a, a ∈ ps -> bval I a = true)) ->
    match cons f <$> elim_loop ns ps fs with
    | Some fs' => conj fs' I = bval I f && conj fs I | None => bval I f && conj fs I = false end).
  { intros ns ps H. destruct (bval I f) eqn:Ef.
    - destruct (H eq_refl) as [H1 H2]. specialize (IH ns ps H1 H2). destruct (elim_loop ns ps fs); [|done].
      simpl. by rewrite Ef.
    - destruct (elim_loop ns ps fs); [|done]. simpl. by rewrite Ef. }
  destruct (m.is_true f) eqn:Et; recog; [by apply Hskip|].
  destruct (m.is_not f) as [atom|] eqn:En; recog.
  - rewrite bval_not in *. destruct (decide (atom ∈ neg_lits)) as [Hin|_]; [apply Hskip; by rewrite Hn|].
    destruct (decide (atom ∈ pos_lits)) as [Hin|_]; [by rewrite Hp|].
    apply Hkeep. intros Ha. split; [|done]. intros a [->|Hin]%elem_of_cons; [by apply negb_true_iff|by apply Hn].
  - destruct (decide (f ∈ pos_lits)) as [Hin|_]; [apply Hskip; by apply Hp|].
    destruct (decide (f ∈ neg_lits)) as [Hin|_]; [by rewrite Hn|].
    apply Hkeep. intros Ha. split; [done|]. intros a [->|Hin]%elem_of_cons; [done|by apply Hp].
Qed.

Lemma elim_redundancies_ok I g : conj (m_forms (elim_redundancies g)) I = conj (m_forms g) I.
Proof.
  unfold elim_redundancies. destruct (m_inconsistent g); [done|].
  pose proof (elim_loop_ok I (m_forms g) [] []) as H. destruct (elim_loop [] [] (m_forms g)) as [fs|].
  - apply H; intros a Ha; by apply elem_of_nil in Ha.
  - symmetry. apply H; intros a Ha; by apply elem_of_nil in Ha.
Qed.
