(* ===== verification/SimplifyTactic.v ===== *)
(** * SimplifyTactic: simplifying a goal

    [simplify_tactic::imp::operator()] of [tactic/core/simplify_tactic.cpp],
    without proofs: every formula of the goal is rewritten by [th_rewriter] in
    turn, and redundant formulas are removed at the end. *)
From Stdlib Require Import ZArith Lia.
From stdpp Require Import base list.
From S2P Require Import Prelude Ast AstFacts TermFacts BoolRewriter BvRewriter ActCache Rewriter RewriterSound.
From S2P Require Import PolyRewriterSound ThRewriter ThRewriterSound Goal.
Import rewriter_tpl goal th_rewriter.

Module simplify_tactic.
Section Tactic.
Context `{Env} (cfg : th_rewriter_cfg) (lt : expr -> expr -> bool) (get_id : expr -> Z) (get_ref_count : expr -> nat).
Context (std_sort : (expr -> expr -> bool) -> list expr -> list expr) {C : Type} `{Cache C}.
Variable ref_count : machine state C -> expr -> nat.
Variables retries fuel : nat.

#[local] Instance rewriter_config : rewriter_tpl.Config state := th_rewriter.Config cfg lt get_id get_ref_count std_sort.

(** One formula; [break] is to do nothing in the iterations that are left. *)
Definition process_form (idx : nat) (x : machine state C * goal) : M (machine state C * goal) :=
  let '(rw, g) := x in
  if m_inconsistent g then mret x
  else
    '(new_curr, rw) ← main_loop ref_count retries fuel (m_forms g !!! idx) rw;
    match update idx new_curr g with
    | Some g => mret (rw, g)
    | None => throw ExDiverge
    end.

Definition run (rw : machine state C) (g : goal) : M (goal * machine state C) :=
  if m_inconsistent g then mret (g, rw)
  else
    '(rw, g) ← for_range 0 (length (m_forms g)) process_form (rw, g);
    mret (elim_redundancies g, rw).
End Tactic.
End simplify_tactic.

Section Correct.
Context `{Env} (cfg : th_rewriter_cfg) (lt : expr -> expr -> bool) (get_id : expr -> Z) (get_ref_count : expr -> nat).
Context (std_sort : (expr -> expr -> bool) -> list expr -> list expr) {C : Type} `{CacheOk C}.
Hypothesis sort_perm : forall r l, std_sort r l ≡ₚ l.
Hypothesis safe : safe_options (m_bv_rw cfg).
Variable ref_count : machine state C -> expr -> nat.
Variables retries fuel : nat.

#[local] Instance cfg_inst : rewriter_tpl.Config state := simplify_tactic.rewriter_config cfg lt get_id get_ref_count std_sort.
#[local] Instance cfg_ok_inst : ConfigOk state := th_config_ok cfg lt get_id get_ref_count std_sort sort_perm safe.

(** The exceptions of a run. *)
Definition gives_up (e : exn) : Prop := e = ExSomBlowup \/ e = ExMaxSteps \/ e = ExDiverge.

Variable F : list expr.
Hypothesis HF : Forall boolx F.

(** After [i] formulas: the goal still means what it meant, and the formulas from
    the [i]-th on are as they were. *)
Definition simplified (i : nat) (x : machine state C * goal) : Prop :=
  let '(rw, g) := x in
  ready rw
  /\ (smul_free (m_cfg rw) = true -> forall I, conj (m_forms g) I = conj F I)
  /\ (m_inconsistent g = false ->
        (length F <= length (m_forms g))%nat /\ forall j, (i <= j < length F)%nat -> m_forms g !! j = F !! j).

(** A formula replaced by an equivalent one, whose conjuncts may go to the end. *)
Lemma update_conj i f r g : m_inconsistent g = false -> m_forms g !! i = Some f ->
  exists g', update i r g = Some g'
    /\ (m_inconsistent g' = false -> (length (m_forms g) <= length (m_forms g'))%nat
          /\ forall j, j <> i -> (j < length (m_forms g))%nat -> m_forms g' !! j = m_forms g !! j)
    /\ forall I, bval I r = bval I f -> conj (m_forms g') I = conj (m_forms g) I.
Proof.
  intros Hi Hf. pose proof (lookup_lt_Some _ _ _ Hf) as Hlt.
  assert (Hsplit : forall I, conj (m_forms g) I = conj (take i (m_forms g)) I && bval I f && conj (drop (S i) (m_forms g)) I).
  { intros I. rewrite <- (take_drop_middle _ i f Hf) at 1. rewrite conj_app. cbn. by rewrite andb_assoc. }
  destruct (update_ok i r g Hi Hlt) as (g' & E & Hg'). exists g'. split; [done|].
  destruct Hg' as [(Hi' & -> & Hz)|(Hi' & [(fr & ps & -> & Hps)|(ps & -> & Hz)])].
  - split; [congruence|]. intros I Hr. rewrite Hsplit, <- Hr, Hz. by rewrite andb_false_r.
  - split.
    + intros _. rewrite length_app, length_insert. split; [lia|]. intros j Hj Hl.
      rewrite lookup_app_l by (by rewrite length_insert). by apply list_lookup_insert_ne.
    + intros I Hr. rewrite conj_app, Hsplit, <- Hr, Hps, insert_take_drop, conj_app by done. simpl.
      by destruct (conj (take i _) I), (bval I fr), (conj ps I), (conj (drop _ _) I).
  - split.
    + intros _. rewrite length_app. split; [lia|]. intros j _ Hl. by apply lookup_app_l.
    + intros I Hr. destruct (Hz I) as [Hr' Hp]. rewrite conj_app, Hp, Hsplit, <- Hr, Hr'. by rewrite !andb_false_r.
Qed.

Lemma simplify_form_ok i x :
  (i < length F)%nat -> simplified i x ->
  spec_exn gives_up (simplify_tactic.process_form cfg lt get_id get_ref_count std_sort ref_count retries fuel i x) (simplified (S i)).
Proof.
  destruct x as [rw g]. intros Hi (Hr & Hc & Hg). unfold simplify_tactic.process_form.
  destruct (m_inconsistent g) eqn:Ei; [apply spec_exn_ret; split_and!; [done|done|congruence]|].
  destruct (Hg eq_refl) as [Hl Hs]. destruct (lookup_lt_is_Some_2 F i Hi) as [f Hf].
  assert (Hgf : m_forms g !! i = Some f) by (by rewrite Hs by lia). rewrite (list_lookup_total_correct _ _ _ Hgf).
  assert (Hb : boolx f) by (by eapply Forall_lookup_1). 
  eapply spec_exn_bind.
  - eapply spec_exn_mono; [apply (main_loop_spec ref_count (CfgOk := cfg_ok_inst) retries fuel f rw Hr)| |intros ? HQ; exact HQ].
    + apply good_all; [done|]. by exists BOOL_SORT.
    + intros e. unfold raises, gives_up. simpl. unfold blowup. tauto.
  - intros [r rw'] (He & Hr' & Ha & _). destruct (update_conj i f r g Ei Hgf) as (g' & -> & Hsame & Hconj).
    apply spec_exn_ret. split; [done|]. split.
    + intros Hfree I. rewrite <- Hc by (by apply He). apply Hconj. unfold bval. f_equal. by apply (Ha BOOL_SORT Hb).
    + intros Hi'. destruct (Hsame Hi') as [Hl' Hj]. split; [lia|]. intros j Hjl. rewrite Hj by lia. apply Hs. lia.
Qed.

Lemma simplify_run_ok rw g :
  ready rw -> m_forms g = F ->
  spec_exn gives_up (simplify_tactic.run cfg lt get_id get_ref_count std_sort ref_count retries fuel rw g) (fun '(g', rw') =>
    ready rw' /\ (smul_free (m_cfg rw') = true -> forall I, conj (m_forms g') I = conj F I)).
Proof.
  intros Hr Hf. unfold simplify_tactic.run. destruct (m_inconsistent g); [apply spec_exn_ret; by rewrite Hf|].
  eapply spec_exn_bind.
  - apply (spec_exn_for _ simplified); [lia| |].
    + split; [done|]. rewrite Hf. by split.
    + intros i x [_ Hi] Hx. rewrite Hf in Hi. by apply simplify_form_ok.
  - intros [rw' g'] (Hr' & Hc & _). apply spec_exn_ret. split; [done|]. intros Hfree I.
    rewrite elim_redundancies_ok. by apply Hc.
Qed.
End Correct.
