(* ===== verification/BlasterModel.v ===== *)
(** * BlasterModel: from models of the blasted goal to models of the goal

    [bit_blaster_model_converter<true>] of
    [tactic/bv/bit_blaster_model_converter.cpp].  A model gives constants
    values, which are terms, and functions tables; a constant it leaves out is
    [false] or zero.  The vectors of the converter list the entries of the map
    in some order. *)
From Stdlib Require Import ZArith Lia.
From stdpp Require Import base list fin_maps fin_sets gmap.
From S2P Require Import Prelude Bits UBits Ast AstFacts TermFacts BvTerms Gates Blast BlastFacts.
From S2P Require Import BlastRewriter BlastRewriterFacts BlastRewriterState BlasterRun.
Import blaster_rewriter_cfg.

(** ** Models *)

Record model := mk_model {
  m_interp : gmap decl expr;                                   (* constants *)
  m_finterp : nat -> list sort -> sort -> list value -> value; (* functions *)
}.

Definition get_const_interp (d : decl) (md : model) : option expr := m_interp md !! d.

Definition register_decl (d : decl) (v : expr) (md : model) : model :=
  mk_model (<[d := v]> (m_interp md)) (m_finterp md).

Module bit_blaster_model_converter.

Record converter := mk_converter {
  m_vars : list decl;
  m_bits : list expr;
  m_newbits : list decl;
}.

Definition of_map (const2bits : gmap decl expr) (newbits : list decl) : converter :=
  mk_converter (map_to_list const2bits).*1 (map_to_list const2bits).*2 newbits.

(** [to_app(bit)->get_decl()], of a constant. *)
Definition get_decl (bit : expr) : option decl :=
  match bit with App (OP_UNINTERP f [] s) [] => Some (f, s) | _ => None end.

Definition args_of (bs : expr) : list expr := let 'App _ args := bs in args.

Definition collect_bits (mc : converter) : gset decl :=
  list_to_set (omap get_decl (concat (map args_of (m_bits mc)))).

Definition copy_non_bits (bits : gset decl) (old_model : model) : model :=
  mk_model (filter (fun x => x.1 ∉ bits) (m_interp old_model)) (m_finterp old_model).

(** The value of a vector, from its last bit down to the first. *)
Definition bits_value (old_model : model) (bits : list expr) : Z :=
  foldr (fun bit val =>
    let bit_val := d ← get_decl bit; get_const_interp d old_model in
    (val * 2 + match bit_val with
               | Some b => if m.is_true b then 1 else 0
               | None => 0
               end)%Z) 0%Z bits.

Definition mk_bvs (mc : converter) (old_model new_model : model) : model :=
  pure_for 0 (length (m_bits mc)) (fun i new_model =>
    let v := m_vars mc !!! i in
    match get_const_interp v old_model with
    | Some new_val => register_decl v new_val new_model
    | None =>
        let bs := args_of (m_bits mc !!! i) in
        register_decl v (mk_numeral (bits_value old_model bs) (length bs)) new_model
    end) new_model.

(** [operator()(model_ref & md)] *)
Definition convert (mc : converter) (md : model) : model :=
  mk_bvs mc md (copy_non_bits (collect_bits mc) md).

(** [operator()(expr_ref & fml)]: the definitions of the constants are added to
    the formula, once. *)
Definition expand (mc : converter) (fml : expr) : expr * converter :=
  match m_vars mc with
  | [] => (fml, mc)
  | _ =>
      (m.mk_and (fml :: zip_with (fun v bs => m.mk_eq (decl_const v) bs) (m_vars mc) (m_bits mc)),
       mk_converter [] [] (m_newbits mc))
  end.

Definition mk_bit_blaster_model_converter (const2bits : gmap decl expr) (newbits : list decl) : option converter :=
  if decide (const2bits = ∅) then None else Some (of_map const2bits newbits).
End bit_blaster_model_converter.
Import bit_blaster_model_converter.

(** ** Meaning *)

Definition default_value (s : sort) : value :=
  match s with BOOL_SORT => VBool false | BV_SORT n => VBV n 0 | USORT i => VU i 0 end.

(** The interpretation of a model; the values are closed terms. *)
Definition meaning (md : model) : interp := fun f dom rng vs =>
  match dom with
  | [] => match get_const_interp (f, rng) md with
          | Some v => eval (fun _ _ s _ => default_value s) v
          | None => default_value rng
          end
  | _ => m_finterp md f dom rng vs
  end.

(** The values of Boolean constants are [true] and [false]. *)
Definition model_ok (md : model) : Prop :=
  forall (d : decl) v, m_interp md !! d = Some v -> d.2 = BOOL_SORT -> v = m.mk_true \/ v = m.mk_false.

Lemma meaning_const md (d : decl) vs :
  meaning md d.1 [] d.2 vs
  = match get_const_interp d md with
    | Some v => eval (fun _ _ s _ => default_value s) v
    | None => default_value d.2
    end.
Proof. by destruct d. Qed.

Lemma meaning_bool md (d : decl) : model_ok md -> d.2 = BOOL_SORT ->
  bval (meaning md) (decl_const d)
  = match get_const_interp d md with Some v => m.is_true v | None => false end.
Proof.
  intros Hm Hd. unfold bval, decl_const, Ast.mk_const. rewrite eval_uninterp. simpl map. rewrite meaning_const, Hd.
  destruct (get_const_interp d md) as [v|] eqn:E; [|reflexivity].
  destruct (Hm d v E Hd) as [-> | ->]; reflexivity.
Qed.

(** The converter spells the bits. *)
Lemma bits_value_spec md (ds : list decl) : model_ok md -> Forall (fun d : decl => d.2 = BOOL_SORT) ds ->
  bits_value md (map decl_const ds) = uval (meaning md) (length ds) (map decl_const ds).
Proof.
  intros Hm Hds. induction Hds as [|d ds Hd _ IH]; [done|]. cbn [map length].
  assert (E : uval (meaning md) (S (length ds)) (decl_const d :: map decl_const ds)
            = (Z.b2z (bval (meaning md) (decl_const d)) + 2 * uval (meaning md) (length ds) (map decl_const ds))%Z).
  { unfold uval. rewrite ubits_low. reflexivity. }
  rewrite E, <- IH, (meaning_bool md d Hm Hd). unfold bits_value at 1. cbn [foldr]. fold (bits_value md (map decl_const ds)).
  replace (get_decl (decl_const d)) with (Some d) by (by destruct d). cbn. unfold get_const_interp.
  destruct (m_interp md !! d) as [b|]; [destruct (m.is_true b)|]; simpl; lia.
Qed.

(** ** The entries of the converted model *)

Section Convert.
Variable s : state.
Variable md : model.
Variable nb : list decl.
Hypothesis Hw : wf s.
Hypothesis Hm : model_ok md.

Abbreviation mc := (of_map (m_const2bits s) nb).

Lemma entry_bits (f : decl) r : m_const2bits s !! f = Some r ->
  exists ds, r = mk_mkbv (map decl_const ds) /\ Forall (fun d : decl => d.2 = BOOL_SORT) ds
    /\ f.2 = BV_SORT (length ds) /\ (0 < length ds)%nat /\ Forall (fun d => d ∈ blaster_rewriter_cfg.m_newbits s) ds.
Proof.
  destruct Hw as [gs W]. intros Hr. destruct (wf_entry gs s f r W Hr) as (i & ds & _ & Hd & -> & n & Hf & Hn & <-).
  exists ds. assert (Hin : Forall (fun d => d ∈ blaster_rewriter_cfg.m_newbits s) ds).
  { apply Forall_forall. intros d Hd'. rewrite (wf_newbits _ _ W). apply elem_of_concat. exists ds.
    split; [by eapply list_elem_of_lookup_2|done]. }
  split_and!; try done. eapply Forall_impl; [exact Hin|]. intros d Hd'.
  by apply (proj1 (Forall_forall _ _) (wf_fresh _ _ W) d).
Qed.

(** What is not copied is a new bit. *)
Lemma collect_bits_new d : d ∈ collect_bits mc -> d ∈ blaster_rewriter_cfg.m_newbits s.
Proof.
  unfold collect_bits. rewrite elem_of_list_to_set, list_elem_of_omap. intros (bit & Hbit & Hd).
  apply elem_of_concat in Hbit as (l & Hl & Hbit). apply list_elem_of_fmap in Hl as (bs & -> & Hbs).
  cbn [m_bits of_map] in Hbs. apply list_elem_of_fmap in Hbs as ([f r] & -> & Hfr).
  apply elem_of_map_to_list in Hfr. destruct (entry_bits f r Hfr) as (ds & -> & _ & _ & _ & Hin). simpl in Hbit.
  apply list_elem_of_fmap in Hbit as (d' & -> & Hd'). destruct d' as [x y]. injection Hd as <-.
  by apply (proj1 (Forall_forall _ _) Hin).
Qed.

Definition value_of (f : decl) (r : expr) : expr :=
  match get_const_interp f md with
  | Some v => v
  | None => mk_numeral (bits_value md (args_of r)) (length (args_of r))
  end.

Lemma mk_bvs_lookup base x :
  m_interp (mk_bvs mc md base) !! x
  = match m_const2bits s !! x with Some r => Some (value_of x r) | None => m_interp base !! x end.
Proof.
  unfold mk_bvs. cbn [m_bits m_vars of_map]. set (l := map_to_list (m_const2bits s)).
  pose proof (pure_for_inv (fun i md' => forall x, m_interp md' !! x
      = match list_to_map (M := gmap decl expr) (take i l) !! x with
        | Some r => Some (value_of x r) | None => m_interp base !! x end) 0 (length l.*2)
    (fun i new_model =>
      let v := l.*1 !!! i in
      match get_const_interp v md with
      | Some new_val => register_decl v new_val new_model
      | None =>
          let bs := args_of (l.*2 !!! i) in
          register_decl v (mk_numeral (bits_value md bs) (length bs)) new_model
      end) base) as P.
  rewrite P; [|lia|done|].
  - rewrite length_fmap, take_ge by done. unfold l. by rewrite list_to_map_to_list.
  - intros i md' Hi HP y. rewrite length_fmap in Hi.
    destruct (lookup_lt_is_Some_2 l i) as [[v r] Hv]; [lia|].
    assert (E1 : l.*1 !!! i = v) by (apply list_lookup_total_correct; by rewrite list_lookup_fmap, Hv).
    assert (E2 : l.*2 !!! i = r) by (apply list_lookup_total_correct; by rewrite list_lookup_fmap, Hv).
    cbv zeta. rewrite E1, E2, (take_S_r _ _ _ Hv), list_to_map_snoc.
    2: { intros Hin. apply list_elem_of_fmap in Hin as ([v' r'] & Ev & Hin). simpl in Ev. subst v'.
         apply list_elem_of_lookup in Hin as [j Hj]. apply lookup_take_Some in Hj as [Hj Hji].
         pose proof (NoDup_fst_map_to_list (m_const2bits s)) as Hnd. fold l in Hnd.
         assert (j = i); [|lia]. eapply (NoDup_lookup _ j i v Hnd); by rewrite list_lookup_fmap, ?Hj, ?Hv. }
    assert (Hreg : forall w, w = value_of v r ->
      m_interp (register_decl v w md') !! y
      = match <[v := r]> (list_to_map (M := gmap decl expr) (take i l)) !! y with
        | Some r0 => Some (value_of y r0) | None => m_interp base !! y end).
    { intros w ->. simpl. destruct (decide (v = y)) as [->|Hne]; [by rewrite !lookup_insert_eq|].
      by rewrite !lookup_insert_ne by done. }
    destruct (get_const_interp v md) eqn:E; apply Hreg; unfold value_of; by rewrite E.
Qed.

(** The converted model, on the constants that keep their names. *)
Lemma convert_lookup x : x ∉ blaster_rewriter_cfg.m_newbits s ->
  m_interp (convert mc md) !! x
  = match m_const2bits s !! x with Some r => Some (value_of x r) | None => m_interp md !! x end.
Proof.
  intros Hx. unfold convert. rewrite mk_bvs_lookup. destruct (m_const2bits s !! x); [done|]. simpl.
  assert (Hb : x ∉ collect_bits mc) by (intros Hb; by apply Hx, collect_bits_new).
  destruct (m_interp md !! x) as [v|] eqn:E; [by apply map_lookup_filter_Some_2|].
  apply map_lookup_filter_None_2. by left.
Qed.

Lemma mk_bvs_finterp base : m_finterp (mk_bvs mc md base) = m_finterp base.
Proof.
  unfold mk_bvs. apply (pure_for_inv (fun _ md' => m_finterp md' = m_finterp base)); [lia|done|].
  intros i md' _ <-. by destruct (get_const_interp _ _).
Qed.

Definition const_bits (d : decl) : option expr := m_const2bits s !! d.

(** An interpretation with the constants read off their bits. *)
Definition read_bits (I : interp) : interp := fun f dom rng vs =>
  match dom, const_bits (f, rng) with
  | [], Some r => eval I r
  | _, _ => I f dom rng vs
  end.

Lemma read_bits_same I : same_but_bv (read_bits I) I.
Proof.
  intros f dom rng vs Hd. unfold read_bits. destruct dom; [|done].
  destruct (const_bits (f, rng)) as [r|] eqn:E; [|done].
  destruct (entry_bits _ _ E) as (ds & _ & _ & Hs & _). by destruct (Hd eq_refl (length ds)).
Qed.

Lemma read_bits_consistent I : consistent (read_bits I) s.
Proof.
  intros f r Hr. rewrite (blind_entry s f r Hw Hr _ _ (read_bits_same I)).
  unfold decl_const, Ast.mk_const. rewrite eval_uninterp. unfold read_bits. destruct f as [f srt]. cbn [fst snd].
  change (const_bits (f, srt) = Some r) in Hr. rewrite Hr. pose proof (eval_sort I r _ (wf_entry_sort _ _ _ Hw Hr)) as Hs. simpl in Hs.
  destruct (entry_bits _ _ Hr) as (ds & _ & _ & Hb & _). simpl in Hb. subst srt.
  apply has_sort_bv in Hs as (z & -> & Hz). simpl. by rewrite Z.mod_small.
Qed.

(** The converted model is [read_bits] on the old names. *)
Lemma convert_meaning f dom rng vs : (f, rng) ∉ blaster_rewriter_cfg.m_newbits s ->
  (forall x, is_Some (m_const2bits s !! x) -> m_interp md !! x = None) ->
  meaning (convert mc md) f dom rng vs = read_bits (meaning md) f dom rng vs.
Proof.
  intros Hf Hun. unfold meaning at 1, read_bits. destruct dom as [|d dom].
  - unfold get_const_interp at 1. rewrite convert_lookup by done. fold (const_bits (f, rng)). destruct (const_bits (f, rng)) as [r|] eqn:E; [|done].
    unfold value_of, get_const_interp. rewrite Hun by done.
    destruct (entry_bits _ _ E) as (ds & -> & Hds & Hs & Hn & _). simpl in Hs. subst rng.
    cbn [args_of mk_mkbv]. rewrite length_map.
    assert (Hb : bits (map decl_const ds)).
    { apply Forall_map. eapply Forall_impl; [exact Hds|]. intros d. apply decl_const_boolx. }
    assert (Hx : bvx (length ds) (mk_mkbv (map decl_const ds))) by (apply mkbv_sort; [done|by rewrite length_map|done]).
    rewrite (bvx_val _ _ _ Hx), mkbv_vn, length_map, (bits_value_spec md ds Hm Hds).
    unfold mk_numeral. change (VBV (length ds) (uval (meaning md) (length ds) (map decl_const ds) mod pow2 (length ds))
      = VBV (length ds) (uval (meaning md) (length ds) (map decl_const ds))).
    f_equal. apply Z.mod_small, ubits_bounds.
  - unfold convert. by rewrite mk_bvs_finterp.
Qed.

End Convert.

(** Adding the definitions restricts a formula to the consistent interpretations. *)
Lemma expand_meaning s nb I fml :
  bval I (expand (of_map (m_const2bits s) nb) fml).1 = true <-> bval I fml = true /\ consistent I s.
Proof.
  assert (Hall : forallb (bval I) (zip_with (fun v bs => m.mk_eq (decl_const v) bs)
      (bit_blaster_model_converter.m_vars (of_map (m_const2bits s) nb))
      (bit_blaster_model_converter.m_bits (of_map (m_const2bits s) nb))) = true <-> consistent I s).
  { cbn [bit_blaster_model_converter.m_vars bit_blaster_model_converter.m_bits of_map].
    unfold consistent.
    setoid_rewrite <- elem_of_map_to_list. induction (map_to_list (m_const2bits s)) as [|[f r] l IH]; simpl; [set_solver|].
    rewrite andb_true_iff, IH, bval_eq, bool_decide_eq_true. set_solver. }
  unfold expand. destruct (bit_blaster_model_converter.m_vars (of_map (m_const2bits s) nb)) as [|v vs] eqn:E; cbn [fst].
  - rewrite <- Hall. simpl. naive_solver.
  - rewrite bval_and. cbn [forallb]. by rewrite andb_true_iff, Hall.
Qed.
