(* ===== verification/BitBlasterTactic.v ===== *)
(** * BitBlasterTactic: bit-blasting a goal

    [bit_blaster_tactic::imp::operator()] of
    [tactic/bv/bit_blaster_tactic.cpp], without proofs: every formula of the goal
    is rewritten in turn, and a model converter is made from the bits of the
    constants that got them. *)
From Stdlib Require Import ZArith Lia.
From stdpp Require Import base list fin_maps gmap.
From S2P Require Import Prelude Bits UBits Ast AstFacts TermFacts BvTerms Gates Blast BlastFacts BoolRewriter.
From S2P Require Import ActCache Rewriter RewriterSound Goal.
From S2P Require Import BlastRewriter BlastRewriterFacts BlastRewriterState BlasterRun BlasterModel.
Import rewriter_tpl goal bit_blaster_model_converter blaster_rewriter_cfg.

Module bit_blaster_tactic.
Section Tactic.
Context `{Env} {G : Gates} (m_use_wtm m_use_bcm : bool) (cfg : params) {C : Type} `{Cache C}.
Variable ref_count : machine state C -> expr -> nat.
Variables retries fuel : nat.

#[local] Instance rewriter_config : Config state := bit_blaster_rewriter.Config m_use_wtm m_use_bcm cfg.

(** One formula; [break] is to do nothing in the iterations that are left. *)
Definition process_form (idx : nat) (x : machine state C * goal * bool) : M (machine state C * goal * bool) :=
  let '(rw, g, change) := x in
  if m_inconsistent g then mret x
  else
    let curr := m_forms g !!! idx in
    '(new_curr, rw) ← main_loop ref_count retries fuel curr rw;
    if decide (curr = new_curr) then mret (rw, g, change)
    else
      match update idx new_curr g with
      | Some g => mret (rw, g, true)
      | None => throw ExDiverge
      end.

Definition run (models_enabled : bool) (num_asts : Z) (rw : machine state C) (g : goal)
    : M (goal * option converter * machine state C) :=
  let rw := with_cfg (start_rewrite (m_cfg rw)) rw in
  '(rw, g, change) ← for_range 0 (length (m_forms g)) process_form (rw, g, false);
  let mc :=
    if (change : bool) && models_enabled then
      let '(const2bits, newbits) := end_rewrite (m_cfg rw) ∅ [] in
      mk_bit_blaster_model_converter const2bits newbits
    else None in
  mret (g, mc, cleanup num_asts rw).
End Tactic.
End bit_blaster_tactic.

(** ** Old names *)

(** Every symbol has a name below [k]. *)
Definition name_below (k : nat) (o : op) : Prop :=
  match o with OP_UNINTERP f _ _ => (f < k)%nat | _ => True end.

Lemma good_weaken (P Q : op -> Prop) t : (forall o, P o -> Q o) -> good P t -> good Q t.
Proof.
  intros HPQ. induction t as [o args IH] using expr_rect'. intros Hg. inversion Hg as [? ? Ho Ha Hs]; subst.
  constructor; [auto| |done]. clear -IH Ha. induction IH; inversion Ha; subst; constructor; auto.
Qed.

Lemma eval_below k I I' t : good (name_below k) t ->
  (forall f dom rng vs, (f < k)%nat -> I f dom rng vs = I' f dom rng vs) -> eval I t = eval I' t.
Proof.
  intros Hg HI. induction t as [o args IH] using expr_rect'. inversion Hg as [? ? Ho Ha _]; subst.
  assert (E : map (eval I) args = map (eval I') args).
  { clear -IH Ha. induction IH; simpl; [done|]. inversion Ha; subst. f_equal; auto. }
  destruct (op_uninterp_dec o) as [[[[f dom] rng] ->]|Hn].
  - rewrite !eval_uninterp, E. f_equal. by apply HI.
  - by rewrite !eval_app, E by done.
Qed.

(** ** The loop *)

Section Correct.
Context `{Env} (G : Gates) {OK : GatesOk G} (m_use_wtm m_use_bcm : bool) (cfg : params).
Context {C : Type} `{CacheOk C}.
Variable k : nat.

#[local] Existing Instance the_config.
#[local] Existing Instance the_config_ok.
#[local] Existing Instance the_config_one_shot.
#[local] Instance cfg_inst : Config state := bit_blaster_tactic.rewriter_config m_use_wtm m_use_bcm cfg.
#[local] Instance cfg_ok_inst : ConfigOk state := the_config_ok G m_use_wtm m_use_bcm cfg k.
#[local] Instance cfg_one_shot_inst : OneShot state := the_config_one_shot G m_use_wtm m_use_bcm cfg.

Variable ref_count : machine state C -> expr -> nat.
Variables retries fuel : nat.
Hypothesis Hretries : (0 < retries)%nat.

Abbreviation process_form := (bit_blaster_tactic.process_form m_use_wtm m_use_bcm cfg ref_count retries fuel).
Abbreviation run := (bit_blaster_tactic.run m_use_wtm m_use_bcm cfg ref_count retries fuel).

(** A formula the rewriter accepts, over names below [k]. *)
Definition accepted (f : expr) : Prop :=
  boolx f /\ good (fun o => unsupported cfg o = false /\ name_below k o) f /\ (weight f <= fuel)%nat.

Definition blind_formula (P : interp -> bool) : Prop := forall I I', same_but_bv I I' -> P I = P I'.

Variable F : list expr.
Hypothesis HF : Forall accepted F.
Variable s0 : state.

(** After [i] formulas [P] holds of them in every consistent interpretation; the
    goal is [P] and the other formulas, or was found to be false. *)
Definition done_forms (i : nat) (g : goal) : list expr := take i (m_forms g) ++ drop (length F) (m_forms g).

Definition goal_inv (i : nat) (s : state) (g : goal) (change : bool) : Prop :=
  exists P, blind_formula P
    /\ (forall I, consistent I s -> P I = conj (take i F) I)
    /\ if m_inconsistent g then m_forms g = [m.mk_false] /\ (forall I, P I = false) /\ change = true
       else (length F <= length (m_forms g))%nat
            /\ (forall j, (i <= j < length F)%nat -> m_forms g !! j = F !! j)
            /\ ((forall I, P I = conj (done_forms i g) I)
                \/ (forall I, P I = false /\ conj (drop (length F) (m_forms g)) I = false))
            /\ (change = false -> m_forms g = F).

Definition loop_inv (i : nat) (x : machine state C * goal * bool) : Prop :=
  let '(rw, g, change) := x in
  ready rw /\ ext s0 (m_cfg rw) /\ Forall boolx (m_forms g) /\ goal_inv i (m_cfg rw) g change.

Lemma take_conj i f I : F !! i = Some f -> conj (take (S i) F) I = conj (take i F) I && bval I f.
Proof. intros Hf. rewrite (take_S_r _ _ _ Hf), conj_app. simpl. by rewrite andb_true_r. Qed.

(** The goal's part of one iteration. *)
Lemma goal_step i s s' g change f r :
  F !! i = Some f -> goal_inv i s g change -> m_inconsistent g = false ->
  ext s s' -> blind r -> (forall I, consistent I s' -> bval I r = bval I f) ->
  if decide (f = r) then goal_inv (S i) s' g change
  else exists g', update i r g = Some g' /\ goal_inv (S i) s' g' true.
Proof.
  intros Hf (P & HP & Hc & Hg) Hi He Hbl Hr. rewrite Hi in Hg. destruct Hg as (Hlen & Hsame & Hd & Hch).
  pose proof (lookup_lt_Some _ _ _ Hf) as Hlt.
  assert (HP' : blind_formula (fun I => P I && bval I r)).
  { intros I I' HI. rewrite (HP I I' HI). unfold bval. by rewrite (Hbl I I' HI). }
  assert (Hc' : forall I, consistent I s' -> P I && bval I r = conj (take (S i) F) I).
  { intros I HI. rewrite (take_conj i f) by done. rewrite Hc, Hr; [done|done|].
    apply (consistent_keeps I s s'); [apply He|done]. }
  (* a formula put at position i, and others at the end *)
  assert (Hput : forall fr ps fs, fs = <[i := fr]> (m_forms g) ++ ps -> (forall I, bval I r = bval I fr && conj ps I) ->
    (length F <= length fs)%nat /\ (forall j, (S i <= j < length F)%nat -> fs !! j = F !! j)
    /\ ((forall I, P I && bval I r = conj (take (S i) fs ++ drop (length F) fs) I)
        \/ (forall I, P I && bval I r = false /\ conj (drop (length F) fs) I = false))).
  { intros fr ps fs -> Hps.
    assert (Hdrop : drop (length F) (<[i := fr]> (m_forms g) ++ ps) = drop (length F) (m_forms g) ++ ps).
    { rewrite drop_app_le by (rewrite length_insert; lia). by rewrite drop_insert_lt by lia. }
    rewrite Hdrop. split; [rewrite length_app, length_insert; lia|]. split.
    - intros j Hj. rewrite lookup_app_l by (rewrite length_insert; lia).
      rewrite list_lookup_insert_ne by lia. apply Hsame. lia.
    - destruct Hd as [Hd|Hd]; [left|right]; intros I.
      + rewrite take_app_le by (rewrite length_insert; lia).
        rewrite (take_S_r _ i fr) by (apply list_lookup_insert_eq; lia). rewrite take_insert_ge by lia.
        rewrite Hd, Hps. unfold done_forms. rewrite !conj_app. simpl.
        by destruct (conj (take i (m_forms g)) I), (conj (drop (length F) (m_forms g)) I), (bval I fr), (conj ps I).
      + destruct (Hd I) as [-> Hz]. rewrite conj_app, Hz. done. }
  destruct (decide (f = r)) as [->|Hne].
  - exists (fun I => P I && bval I r). split; [done|]. split; [done|]. rewrite Hi.
    destruct (Hput r [] (m_forms g)) as (? & ? & ?); [|by intros I; rewrite andb_true_r|by split_and!].
    rewrite app_nil_r, list_insert_id; [done|]. rewrite Hsame by lia. done.
  - destruct (update_ok i r g Hi ltac:(lia)) as (g' & Eu & Hg'). exists g'. split; [done|].
    exists (fun I => P I && bval I r). split; [done|]. split; [done|].
    destruct Hg' as [(Hi' & Hf' & Hz)|(Hi' & [(fr & ps & Hf' & Hps)|(ps & Hf' & Hz)])]; rewrite Hi'.
    + split; [done|]. split; [|done]. intros I. by rewrite Hz, andb_false_r.
    + destruct (Hput fr ps (m_forms g') Hf' Hps) as (? & ? & ?). by split_and!.
    + rewrite Hf'. split; [rewrite length_app; lia|]. split; [|split; [|done]].
      * intros j Hj. rewrite lookup_app_l by lia. apply Hsame. lia.
      * right. intros I. destruct (Hz I) as [-> Hps]. rewrite drop_app_le, conj_app, Hps by lia.
        by rewrite !andb_false_r.
Qed.

Lemma process_form_ok i x : (i < length F)%nat -> loop_inv i x ->
  spec_exn (blaster_raises cfg) (process_form i x) (loop_inv (S i)).
Proof.
  intros Hlt. destruct x as [[rw g] change]. intros (Hr & He & Hbg & Hg). unfold bit_blaster_tactic.process_form.
  destruct (lookup_lt_is_Some_2 F i Hlt) as [f Hf].
  destruct (m_inconsistent g) eqn:Hi.
  - apply spec_exn_ret. split; [done|]. split; [done|]. split; [done|]. destruct Hg as (P & HP & Hc & Hg). rewrite Hi in Hg.
    destruct Hg as (Hfs & Hz & Hch). exists P. split; [done|]. split; [|by rewrite Hi].
    intros I HI. rewrite (take_conj i f) by done. by rewrite <- Hc, Hz.
  - assert (Hcur : m_forms g !!! i = f).
    { destruct Hg as (P & _ & _ & Hg). rewrite Hi in Hg. destruct Hg as (_ & Hs & _).
      apply list_lookup_total_correct. by rewrite Hs by lia. }
    rewrite Hcur. pose proof (proj1 (Forall_forall _ _) HF f (list_elem_of_lookup_2 _ _ _ Hf)) as (Hb & Hgood & Hw).
    eapply spec_exn_bind.
    { apply (main_loop_total (CfgOk := cfg_ok_inst) ref_count retries fuel f rw Hretries Hw Hr).
      eapply good_weaken; [|exact Hgood]. by intros o [? _]. }
    intros [r rw'] (He' & Hr' & [Ha Hbl]). cbn [fst snd] in *.
    destruct (Ha _ Hb) as [Hbr Hv].
    pose proof (goal_step i (m_cfg rw) (m_cfg rw') g change f r Hf Hg Hi He' Hbl) as Hstep.
    assert (Hrf : forall I, consistent I (m_cfg rw') -> bval I r = bval I f).
    { intros I HI. unfold bval. by rewrite Hv. }
    specialize (Hstep Hrf). destruct (decide (f = r)).
    + apply spec_exn_ret. split; [done|]. split; [by transitivity (m_cfg rw)|done].
    + destruct Hstep as (g' & Eu & Hg'). rewrite Eu. apply spec_exn_ret. split; [done|]. split; [by transitivity (m_cfg rw)|].
      split; [by eapply update_bool|done].
Qed.

Lemma conj_below I I' : (forall f dom rng vs, (f < k)%nat -> I f dom rng vs = I' f dom rng vs) -> conj F I = conj F I'.
Proof.
  intros HI. unfold conj. clear s0. induction HF as [|f fs (_ & Hg & _) Hfs IH]; [done|]. simpl. rewrite (IH Hfs). f_equal.
  unfold bval. erewrite eval_below; [done| |exact HI]. eapply good_weaken; [|exact Hg]. by intros o [_ ?].
Qed.

(** At the end the goal is the original one in every consistent interpretation,
    and does not depend on the bit-vector constants. *)
Lemma goal_final s g change : goal_inv (length F) s g change ->
  blind_formula (conj (m_forms g)) /\ forall I, consistent I s -> conj (m_forms g) I = conj F I.
Proof.
  intros (P & HP & Hc & Hg). assert (E : forall I, conj (m_forms g) I = P I).
  { intros I. destruct (m_inconsistent g).
    - by destruct Hg as (-> & -> & _).
    - destruct Hg as (_ & _ & [Hd|Hd] & _).
      + rewrite Hd. unfold done_forms. by rewrite take_drop.
      + destruct (Hd I) as [-> Hz]. rewrite <- (take_drop (length F) (m_forms g)), conj_app, Hz. apply andb_false_r. }
  split; [intros I I' HI; rewrite !E; by apply HP|]. intros I HI. by rewrite E, Hc, firstn_all.
Qed.

Lemma goal_unchanged s g i : goal_inv i s g false -> m_forms g = F.
Proof. intros (P & _ & _ & Hg). destruct (m_inconsistent g); [by destruct Hg as (_ & _ & ?)|by apply Hg]. Qed.

Lemma loop_ok' rw g : m_forms g = F -> m_inconsistent g = false -> ready rw -> ext s0 (m_cfg rw) ->
  spec_exn (blaster_raises cfg) (for_range 0 (length (m_forms g)) process_form (rw, g, false)) (loop_inv (length F)).
Proof.
  intros Hf Hi Hr He. rewrite Hf. apply (spec_exn_for _ loop_inv); [lia| |].
  - split; [done|]. split; [done|]. split.
    { rewrite Hf. eapply Forall_impl; [exact HF|]. by intros f []. }
    exists (fun _ => true). split; [done|]. split; [done|]. rewrite Hi, Hf.
    split; [done|]. split; [done|]. split; [|done]. left. intros I. unfold done_forms. by rewrite Hf, drop_all.
  - intros i y Hlt Hy. apply process_form_ok; [lia|done].
Qed.

(** ** The contract *)

(** A rewriter between two goals. *)
Definition usable (rw : machine state C) : Prop :=
  blaster_inv k (m_cfg rw) /\ m_frame_stack rw = [] /\ m_result_stack rw = []
  /\ forall t r, ~ cache_maps (m_cache rw) t r.

Lemma new_usable n : usable (new_rewriter n (init k)).
Proof.
  split; [|split_and!; try done; intros t r; apply maps_new]. split; [apply init_wf|]. split; [done|constructor].
Qed.

(** The names of new bits are not below [k]. *)
Lemma not_new s f rng : fresh_from k s -> (f < k)%nat -> (f, rng) ∉ m_newbits s.
Proof.
  intros [_ Hb] Hf Hin. pose proof (proj1 (Forall_forall _ _) Hb _ Hin) as Hle. simpl in Hle. lia.
Qed.

(** What a run makes of the formulas [F]: equisatisfiable ones, with the same
    meaning but for the values of the constants and of their bits. *)
Definition equisatisfiable (s : state) (g' : goal) : Prop :=
  (forall I, conj F I = true ->
     exists I', conj (m_forms g') I' = true
       /\ forall (d : decl) dom vs, d ∉ m_newbits s -> I' d.1 dom d.2 vs = I d.1 dom d.2 vs)
  /\ (forall I, conj (m_forms g') I = true ->
     exists I', conj F I' = true /\ same_but_bv I' I).

Definition converts (s : state) (g' : goal) (mc : option converter) : Prop :=
  forall md, model_ok md -> (forall x, is_Some (m_const2bits s !! x) -> get_const_interp x md = None) ->
    conj (m_forms g') (meaning md) = true ->
    conj F (meaning (match mc with Some mc => convert mc md | None => md end)) = true.

Lemma final_equisatisfiable s g change : blaster_inv k s -> goal_inv (length F) s g change -> equisatisfiable s g.
Proof.
  intros [Hw Hfr] Hg. destruct (goal_final s g change Hg) as [Hbl Hc]. split; intros I HI.
  - destruct (extension s I Hw) as (I' & Hcons & Hsame). exists I'. split; [|done]. rewrite Hc by done.
    rewrite <- HI. apply conj_below. intros f dom rng vs Hf. apply (Hsame (f, rng)). by apply not_new.
  - exists (read_bits s I). split; [|by apply read_bits_same].
    rewrite <- Hc by by apply read_bits_consistent. rewrite <- HI. by apply Hbl, read_bits_same.
Qed.

Lemma final_converts s g change : blaster_inv k s -> goal_inv (length F) s g change -> m_keypos s = 0%nat ->
  converts s g (if change then
                  let '(const2bits, newbits) := end_rewrite s ∅ [] in mk_bit_blaster_model_converter const2bits newbits
                else None).
Proof.
  intros [Hw Hfr] Hg Hpos md Hm Hun HI. destruct change.
  2: { by rewrite <- (goal_unchanged s g _ Hg). }
  destruct (goal_final s g true Hg) as [Hbl Hc].
  assert (Hread : conj F (read_bits s (meaning md)) = true).
  { rewrite <- Hc by by apply read_bits_consistent. rewrite <- HI. by apply Hbl, read_bits_same. }
  assert (Hend : (end_rewrite s ∅ []).1 = m_const2bits s).
  { rewrite end_rewrite_ok by done. destruct Hw as [gs W]. simpl.
    by rewrite Hpos, !drop_0, (right_id_L ∅ (∪)), <- (wf_map _ _ W). }
  destruct (end_rewrite s ∅ []) as [c2b nb]. simpl in Hend. subst c2b. unfold mk_bit_blaster_model_converter.
  case_decide as He.
  - rewrite <- Hread. apply conj_below. intros f dom rng vs _. unfold read_bits, const_bits. destruct dom; [|done].
    by rewrite He, lookup_empty.
  - rewrite <- Hread. apply conj_below. intros f dom rng vs Hf. apply convert_meaning; try done. by apply not_new.
Qed.

Lemma run_ok models_enabled n rw g :
  m_forms g = F -> m_inconsistent g = false -> usable rw -> s0 = start_rewrite (m_cfg rw) ->
  spec_exn (blaster_raises cfg) (run models_enabled n rw g) (fun '(g', mc, rw') =>
    usable rw' /\ Forall boolx (m_forms g') /\ equisatisfiable (m_cfg rw') g'
    /\ (models_enabled = true -> m_keys (m_cfg rw) = [] -> converts (m_cfg rw') g' mc)).
Proof.
  intros Hf Hi ((Hw & Hfr) & Hfs & Hrs & Hca) Hs0. unfold bit_blaster_tactic.run. cbv zeta.
  set (rw0 := with_cfg (start_rewrite (m_cfg rw)) rw).
  assert (Hr0 : ready rw0).
  { split; [split; [by apply start_wf|done]|]. split; [|done]. intros t r Hm. by apply Hca in Hm. }
  eapply spec_exn_bind; [apply (loop_ok' rw0 g Hf Hi Hr0); rewrite Hs0; reflexivity|].
  intros [[rw1 g1] change] (Hr1 & He1 & Hb1 & Hg1). apply (spec_exn_ret _ (_, _, _)).
  destruct Hr1 as (Hinv & _). split; [|split; [done|split]].
  - split; [done|]. split; [done|]. split; [done|]. intros t r. apply maps_new.
  - by eapply final_equisatisfiable.
  - intros -> Hk. rewrite andb_true_r. cbn [cleanup m_cfg]. apply final_converts; [done|done|].
    destruct He1 as (_ & _ & ->). rewrite Hs0. simpl. by rewrite Hk.
Qed.
End Correct.
