(* ===== verification/Goal2Sat.v ===== *)
(** * Goal2Sat: a goal is handed to a SAT solver

    [goal2sat] of [sat/tactic/goal2sat.cpp], the map from atoms to variables
    ([sat/tactic/atom2bool_var.cpp], [ast/expr2var.cpp]), and the part of
    [sat/tactic/sat_tactic.cpp] that makes a model of the goal from one of the
    solver.  The formulas have no dependencies (unsatisfiable cores are off), and
    there are no pseudo-Boolean terms and no [xor_solver], for which the code
    uses the extension of the solver. *)
From Stdlib Require Import ZArith Lia.
From stdpp Require Import base list fin_maps gmap.
From S2P Require Import Prelude Ast AstFacts TermFacts SatTypes Goal BlastRewriter BlasterModel.
Import goal.

(** ** Atoms *)

Definition is_uninterp_const (t : expr) : bool :=
  match t with App (OP_UNINTERP _ _ _) [] => true | _ => false end.

Module atom2bool_var.

Record mapping := mk_mapping {
  m_mapping : list (expr * bool_var);
  m_interpreted_vars : bool;
}.

Definition empty : mapping := mk_mapping [] false.

(** The position [m_id2map] gives a term. *)
Definition id2map (n : expr) (m : mapping) : option nat := fst <$> list_find (fun kv => kv.1 = n) (m_mapping m).

Definition to_bool_var (n : expr) (m : mapping) : option bool_var :=
  idx ← id2map n m; snd <$> m_mapping m !! idx.

Definition insert (n : expr) (v : bool_var) (m : mapping) : mapping :=
  let interpreted := m_interpreted_vars m || negb (is_uninterp_const n) in
  match id2map n m with
  | None => mk_mapping (m_mapping m ++ [(n, v)]) interpreted
  | Some idx => mk_mapping (<[idx := (n, v)]> (m_mapping m)) interpreted
  end.

(** The uninterpreted constants of a term, as a set. *)
Fixpoint consts_of (t : expr) : list expr :=
  match t with
  | App (OP_UNINTERP _ _ _) [] => [t]
  | App _ args => concat (map consts_of args)
  end.

(** The Boolean constants that also occur below other than Boolean operators, and
    those of atoms; the marks of the code avoid repeated work only. *)
Fixpoint collect_boolean_interface (t : expr) : list expr :=
  if is_uninterp_const t then []
  else match t with
  | App o (_ :: _ as args) =>
      match m.family_of o with
      | m.basic_family =>
          match o with
          | OP_OR | OP_NOT => concat (map collect_boolean_interface args)
          | OP_EQ | OP_ITE =>
              if m.is_bool (args !!! 1) then concat (map collect_boolean_interface args) else []
          | _ => []
          end
      | _ => consts_of t
      end
  | _ => consts_of t
  end.
End atom2bool_var.
Import atom2bool_var.

(** ** The translation *)

Module goal2sat.

Record frame := mk_frame {
  m_t : expr;
  m_root : bool;
  m_sign : bool;
  m_idx : nat;
}.

Section Translate.
Context `{Env} {T : Type} `{SolverCore T}.
Context (m_ite_extra m_default_external m_is_lemma : bool).

(** Frames with the top first; results with the top last. *)
Record imp := mk_imp {
  m_frame_stack : list frame;
  m_result_stack : list literal;
  m_cache : list (expr * literal);
  m_interface_vars : list expr;
  m_solver : T;
  m_map : mapping;
  m_true : option literal;
  m_interpreted_atoms : list expr;
}.

Definition set_frames (x : list frame) (st : imp) : imp :=
  mk_imp x (m_result_stack st) (m_cache st) (m_interface_vars st) (m_solver st) (m_map st) (m_true st) (m_interpreted_atoms st).
Definition set_results (x : list literal) (st : imp) : imp :=
  mk_imp (m_frame_stack st) x (m_cache st) (m_interface_vars st) (m_solver st) (m_map st) (m_true st) (m_interpreted_atoms st).
Definition cache_insert (t : expr) (l : literal) (st : imp) : imp :=
  mk_imp (m_frame_stack st) (m_result_stack st) ((t, l) :: m_cache st) (m_interface_vars st) (m_solver st) (m_map st) (m_true st)
    (m_interpreted_atoms st).
Definition set_solver (x : T) (st : imp) : imp :=
  mk_imp (m_frame_stack st) (m_result_stack st) (m_cache st) (m_interface_vars st) x (m_map st) (m_true st) (m_interpreted_atoms st).
Definition set_map (x : mapping) (st : imp) : imp :=
  mk_imp (m_frame_stack st) (m_result_stack st) (m_cache st) (m_interface_vars st) (m_solver st) x (m_true st) (m_interpreted_atoms st).
Definition set_true (x : option literal) (st : imp) : imp :=
  mk_imp (m_frame_stack st) (m_result_stack st) (m_cache st) (m_interface_vars st) (m_solver st) (m_map st) x (m_interpreted_atoms st).
Definition set_atoms (x : list expr) (st : imp) : imp :=
  mk_imp (m_frame_stack st) (m_result_stack st) (m_cache st) (m_interface_vars st) (m_solver st) (m_map st) (m_true st) x.

Definition push_frame (t : expr) (root sign : bool) (st : imp) : imp :=
  set_frames (mk_frame t root sign 0 :: m_frame_stack st) st.
Definition push_result (l : literal) (st : imp) : imp := set_results (m_result_stack st ++ [l]) st.

(** A unit is never redundant; the others are in the mode of lemmas. *)
Definition mk_unit (l : literal) (st : imp) : M imp :=
  s ← add_clause [l] false (m_solver st); mret (set_solver s st).
Definition mk_clause (lits : list literal) (st : imp) : M imp :=
  s ← add_clause lits m_is_lemma (m_solver st); mret (set_solver s st).

(** Loops that add clauses. *)
Fixpoint mk_units (lits : list literal) (st : imp) : M imp :=
  match lits with [] => mret st | l :: lits => st ← mk_unit l st; mk_units lits st end.
Fixpoint mk_clauses (cs : list (list literal)) (st : imp) : M imp :=
  match cs with [] => mret st | c :: cs => st ← mk_clause c st; mk_clauses cs st end.

Definition new_var (ext : bool) (st : imp) : bool_var * imp :=
  let '(v, s) := add_var ext (m_solver st) in (v, set_solver s st).

Definition mk_true (st : imp) : M (literal * imp) :=
  match m_true st with
  | Some l => mret (l, st)
  | None =>
      let '(v, st) := new_var false st in
      let l := mk_literal v false in
      st ← mk_unit l (set_true (Some l) st);
      mret (l, st)
  end.

(** The result of a term: asserted at the root, pushed otherwise. *)
Definition deliver (l : literal) (root : bool) (st : imp) : M imp :=
  if root then mk_unit l st else mret (push_result l st).

Definition convert_atom (t : expr) (root sign : bool) (st : imp) : M imp :=
  '(l, st) ←
    (match to_bool_var t (m_map st) with
     | None =>
         if m.is_true t then '(l, st) ← mk_true st; mret (if sign then neg l else l, st)
         else if m.is_false t then '(l, st) ← mk_true st; mret (if sign then l else neg l, st)
         else
           let ext := m_default_external || negb (is_uninterp_const t) || bool_decide (t ∈ m_interface_vars st) in
           let '(v, st) := new_var ext st in
           let st := set_map (insert t v (m_map st)) st in
           let st := if ext && negb (is_uninterp_const t) then set_atoms (m_interpreted_atoms st ++ [t]) st else st in
           mret (mk_literal v sign, st)
     | Some v => mret (mk_literal v sign, set_solver (set_eliminated v false (m_solver st)) st)
     end : M (literal * imp));
  deliver l root st.

Definition cache_find (t : expr) (st : imp) : option literal := snd <$> (snd <$> list_find (fun kv => kv.1 = t) (m_cache st)).

Definition process_cached (t : expr) (root sign : bool) (st : imp) : M (bool * imp) :=
  match cache_find t st with
  | Some l => st ← deliver (if sign then neg l else l) root st; mret (true, st)
  | None => mret (false, st)
  end.

Definition arg (t : expr) (i : nat) : expr := let 'App _ args := t in args !!! i.
Definition args_of (t : expr) : list expr := let 'App _ args := t in args.

(** Whether the term has been dealt with; otherwise there is a frame for it. *)
Definition visit (t : expr) (root sign : bool) (st : imp) : M (bool * imp) :=
  '(cached, st) ← process_cached t root sign st;
  if cached : bool then mret (true, st)
  else
    let atom : M (bool * imp) := st ← convert_atom t root sign st; mret (true, st) in
    let expand : M (bool * imp) := mret (false, push_frame t root sign st) in
    let 'App o _ := t in
    match m.family_of o with
    | m.basic_family =>
        match o with
        | OP_NOT | OP_OR | OP_AND => expand
        | OP_ITE | OP_EQ => if m.is_bool (arg t 1) then expand else atom
        | OP_XOR | OP_IMPLIES | OP_DISTINCT => throw ExUnsupported
        | _ => atom
        end
    | _ => atom
    end.

(** ** The operators *)

Definition convert_or (t : expr) (root sign : bool) (st : imp) : M imp :=
  let num := length (args_of t) in
  let rs := m_result_stack st in
  if root then
    st ← (if sign then mk_units (map neg (take num rs)) st else mk_clause rs st);
    mret (set_results [] st)
  else
    let '(k, st) := new_var false st in
    let l := mk_literal k false in
    let st := cache_insert t l st in
    let lits := drop (length rs - num) rs in
    st ← mk_clauses (map (fun x => [neg x; l]) lits) st;
    st ← mk_clause (lits ++ [neg l]) st;
    mret (push_result (if sign then neg l else l) (set_results (take (length rs - num) rs) st)).

Definition convert_and (t : expr) (root sign : bool) (st : imp) : M imp :=
  let num := length (args_of t) in
  let rs := m_result_stack st in
  if root then
    st ← (if sign then mk_clause (map neg (take num rs) ++ drop num rs) st else mk_units (take num rs) st);
    mret (set_results [] st)
  else
    let '(k, st) := new_var false st in
    let l := mk_literal k false in
    let st := cache_insert t l st in
    let lits := drop (length rs - num) rs in
    st ← mk_clauses (map (fun x => [neg l; x]) lits) st;
    st ← mk_clause (map neg lits ++ [l]) st;
    mret (push_result (if sign then neg l else l) (set_results (take (length rs - num) rs) st)).

Definition convert_ite (n : expr) (root sign : bool) (st : imp) : M imp :=
  let rs := m_result_stack st in
  let sz := length rs in
  let c := rs !!! (sz - 3) in
  let t := rs !!! (sz - 2) in
  let e := rs !!! (sz - 1) in
  if root then
    st ← mk_clauses (if sign then [[neg c; neg t]; [c; neg e]] else [[neg c; t]; [c; e]]) st;
    mret (set_results [] st)
  else
    let '(k, st) := new_var false st in
    let l := mk_literal k false in
    let st := cache_insert n l st in
    st ← mk_clauses ([[neg l; neg c; t]; [neg l; c; e]; [l; neg c; neg t]; [l; c; neg e]]
      ++ if m_ite_extra then [[neg t; neg e; l]; [t; e; neg l]] else []) st;
    mret (push_result (if sign then neg l else l) (set_results (take (sz - 3) rs) st)).

Definition convert_iff2 (t : expr) (root sign : bool) (st : imp) : M imp :=
  let rs := m_result_stack st in
  let sz := length rs in
  let l1 := rs !!! (sz - 1) in
  let l2 := rs !!! (sz - 2) in
  if root then
    st ← mk_clauses (if sign then [[l1; l2]; [neg l1; neg l2]] else [[l1; neg l2]; [neg l1; l2]]) st;
    mret (set_results [] st)
  else
    let '(k, st) := new_var false st in
    let l := mk_literal k false in
    let st := cache_insert t l st in
    st ← mk_clauses [[neg l; l1; neg l2]; [neg l; neg l1; l2]; [l; l1; l2]; [l; neg l1; neg l2]] st;
    mret (push_result (if sign then neg l else l) (set_results (take (sz - 2) rs) st)).

(** Without [xor_solver] an equivalence has two arguments. *)
Definition convert (t : expr) (root sign : bool) (st : imp) : M imp :=
  let 'App o _ := t in
  match o with
  | OP_OR => convert_or t root sign st
  | OP_AND => convert_and t root sign st
  | OP_ITE => convert_ite t root sign st
  | OP_EQ => convert_iff2 t root sign st
  | _ => throw ExVerify
  end.

(** ** The traversal *)

(** [cooperate], the cancellation flag and the bound on memory. *)
Definition check_limits : M unit := fun st =>
  if canceled (m_ticks st) then Throw ExCanceled
  else if (max_memory <? alloc_size (m_ticks st))%Z then Throw ExMaxMemory
  else Ok tt (mk_st (m_local_ctx_cost st) (S (m_ticks st))).

(** [fr.m_idx++] *)
Definition next_arg (st : imp) : imp :=
  match m_frame_stack st with
  | fr :: frs => set_frames (mk_frame (m_t fr) (m_root fr) (m_sign fr) (S (m_idx fr)) :: frs) st
  | [] => st
  end.

(** The arguments that are left; [false] when one of them needs a frame first. *)
Fixpoint visit_args (args : list expr) (st : imp) : M (bool * imp) :=
  match args with
  | [] => mret (true, st)
  | a :: args =>
      '(done, st) ← visit a false false (next_arg st);
      if done : bool then visit_args args st else mret (false, st)
  end.

Definition pop_frame (st : imp) : imp := set_frames (tail (m_frame_stack st)) st.

Fixpoint process_loop (fuel : nat) (st : imp) : M imp :=
  match m_frame_stack st with
  | [] => mret st
  | fr :: _ =>
      match fuel with
      | O => throw ExDiverge
      | S fuel =>
          _ ← check_limits;
          let t := m_t fr in
          '(cached, st) ← (if m_idx fr =? 0 then process_cached t (m_root fr) (m_sign fr) st else mret (false, st));
          if cached : bool then process_loop fuel (pop_frame st)
          else match m.is_not t with
          | Some a =>
              '(_, st) ← visit a (m_root fr) (negb (m_sign fr)) (pop_frame st);
              process_loop fuel st
          | None =>
              '(done, st) ← visit_args (drop (m_idx fr) (args_of t)) st;
              if done : bool then
                st ← convert t (m_root fr) (m_sign fr) st;
                process_loop fuel (pop_frame st)
              else process_loop fuel st
          end
      end
  end.

(** Every node is visited once for each path to it at most, and each visit takes
    two rounds of the loop at most. *)
Definition process (n : expr) (st : imp) : M imp :=
  '(done, st) ← visit n true false st;
  if done : bool then mret st else process_loop (2 * nodes n) st.

Fixpoint process_all (fs : list expr) (st : imp) : M imp :=
  match fs with [] => mret st | f :: fs => st ← process f st; process_all fs st end.

(** [operator()(goal const & g)] *)
Definition translate (g : goal) (st : imp) : M imp :=
  process_all (m_forms g) (mk_imp (m_frame_stack st) (m_result_stack st) (m_cache st)
    (concat (map collect_boolean_interface (m_forms g))) (m_solver st) (m_map st) (m_true st) (m_interpreted_atoms st)).

(** [goal2sat::operator()]: a fresh translator on the given solver and map. *)
Definition run (g : goal) (s : T) (map : mapping) : M imp := translate g (mk_imp [] [] [] [] s map None []).
End Translate.

(** [has_unsupported_bool] *)
Fixpoint has_unsupported_bool (t : expr) : bool :=
  let 'App o args := t in
  match o with OP_XOR | OP_IMPLIES | OP_DISTINCT => true | _ => existsb has_unsupported_bool args end.
End goal2sat.

(** ** Models *)

Module sat_tactic.

Definition empty_model : model := BlasterModel.mk_model ∅ (fun _ _ rng _ => default_value rng).

(** The values of the atoms in a model [ll_m] of the solver. *)
Definition register_model (map : mapping) (ll_m : list lbool) (md : model) : model :=
  foldl (fun md kv =>
    match bit_blaster_model_converter.get_decl kv.1 with
    | None => md
    | Some d =>
        match value_at_var kv.2 ll_m with
        | l_true => register_decl d m.mk_true md
        | l_false => register_decl d m.mk_false md
        | l_undef => md
        end
    end) md (m_mapping map).
End sat_tactic.
