(* ===== verification/Goal2SatSound.v ===== *)
(** * Goal2SatSound: the clauses mean what the goal means

    [step F st st']: the translation added clauses that hold, for values of the
    new variables, exactly where the formula [F] does.  Every literal on the
    stack of results and in the cache has the value of its term.  The proofs are
    against the interface [SolverCore]. *)
From Stdlib Require Import ZArith Lia.
From stdpp Require Import base list fin_maps gmap.
From S2P Require Import Prelude Ast AstFacts TermFacts SatTypes Goal BlastRewriter BlasterModel Goal2Sat.
Import goal atom2bool_var goal2sat.

(** ** Clauses of the connectives *)

Definition all_true (a : assignment) (cs : list (list literal)) : Prop := Forall (fun c => clause_val a c = true) cs.

Lemma all_true_app a cs cs' : all_true a (cs ++ cs') <-> all_true a cs /\ all_true a cs'.
Proof. apply Forall_app. Qed.

Lemma all_true_cons a c cs : all_true a (c :: cs) <-> clause_val a c = true /\ all_true a cs.
Proof. unfold all_true. by rewrite Forall_cons. Qed.

Lemma all_true_nil a : all_true a [] <-> True.
Proof. by split; intros; [|constructor]. Qed.

Lemma clause_val_nil a : clause_val a [] = false.
Proof. done. Qed.

Lemma all_true_forallb a cs : all_true a cs <-> forallb (clause_val a) cs = true.
Proof.
  induction cs as [|c cs IH]; simpl; [by rewrite all_true_nil|]. by rewrite all_true_cons, IH, andb_true_iff.
Qed.

(** Finitely many truth values decide a statement about a few literals. *)
Ltac by_truth_table :=
  rewrite all_true_forallb; cbn [forallb app map]; rewrite ?clause_val_cons, ?clause_val_nil, ?lit_val_neg;
  repeat match goal with
  | |- context [lit_val ?a ?l] => let x := fresh in set (x := lit_val a l); clearbody x
  end;
  repeat match goal with x : bool |- _ => destruct x; try (vm_compute; by split) end.

Lemma or_clauses a l rs : all_true a (map (fun x => [neg x; l]) rs ++ [rs ++ [neg l]]) <-> lit_val a l = existsb (lit_val a) rs.
Proof.
  rewrite all_true_app, all_true_cons, all_true_nil, clause_val_app, clause_val_cons, clause_val_nil, lit_val_neg.
  change (clause_val a rs) with (existsb (lit_val a) rs).
  assert (E : all_true a (map (fun x => [neg x; l]) rs) <-> (existsb (lit_val a) rs = true -> lit_val a l = true)).
  { induction rs as [|x rs IH]; simpl; [by rewrite all_true_nil|]. rewrite all_true_cons, IH, !clause_val_cons, clause_val_nil, lit_val_neg.
    destruct (lit_val a x), (existsb (lit_val a) rs), (lit_val a l); simpl; naive_solver. }
  rewrite E. destruct (existsb (lit_val a) rs), (lit_val a l); simpl; naive_solver.
Qed.

Lemma existsb_neg a rs : existsb (lit_val a) (map neg rs) = negb (forallb (lit_val a) rs).
Proof. induction rs as [|x rs IH]; simpl; [done|]. by rewrite lit_val_neg, IH, negb_andb. Qed.

Lemma and_clauses a l rs : all_true a (map (fun x => [neg l; x]) rs ++ [map neg rs ++ [l]]) <-> lit_val a l = forallb (lit_val a) rs.
Proof.
  rewrite all_true_app, all_true_cons, all_true_nil, clause_val_app, clause_val_cons, clause_val_nil.
  change (clause_val a (map neg rs)) with (existsb (lit_val a) (map neg rs)). rewrite existsb_neg.
  assert (E : all_true a (map (fun x => [neg l; x]) rs) <-> (lit_val a l = true -> forallb (lit_val a) rs = true)).
  { induction rs as [|x rs IH]; simpl; [by rewrite all_true_nil|]. rewrite all_true_cons, IH, !clause_val_cons, clause_val_nil, lit_val_neg.
    destruct (lit_val a x), (forallb (lit_val a) rs), (lit_val a l); simpl; naive_solver. }
  rewrite E. destruct (forallb (lit_val a) rs), (lit_val a l); simpl; naive_solver.
Qed.

Lemma units_true a rs : all_true a (map (fun l => [l]) rs) <-> forallb (lit_val a) rs = true.
Proof.
  induction rs as [|x rs IH]; simpl; [by rewrite all_true_nil|]. rewrite all_true_cons, IH, clause_val_cons, clause_val_nil.
  by rewrite orb_false_r, andb_true_iff.
Qed.

Lemma units_neg_true a rs : all_true a (map (fun l => [l]) (map neg rs)) <-> existsb (lit_val a) rs = false.
Proof.
  rewrite units_true. induction rs as [|x rs IH]; simpl; [done|]. rewrite lit_val_neg, andb_true_iff, IH.
  destruct (lit_val a x); simpl; naive_solver.
Qed.

(** ** States *)

Definition agree (I : interp) (a : assignment) (m : mapping) : Prop := Forall (fun kv => a kv.2 = bval I kv.1) (m_mapping m).

Definition signed (sign : bool) (t : expr) (I : interp) : bool := xorb sign (bval I t).

Section Sound.
Context `{Env} {T : Type} `{SolverCore T} `{!SolverCoreOk T}.
Context (ite_extra default_external : bool).
Local Abbreviation imp := (goal2sat.imp (T := T)).
Local Abbreviation nvars st := (vars (m_solver st)) (only parsing).

(** The literal [l] has the value [P]. *)
Definition means (st : imp) (P : interp -> bool) (l : literal) : Prop :=
  var l < nvars st /\ forall I a, sats (m_solver st) a -> agree I a (m_map st) -> lit_val a l = P I.

Record good (st : imp) : Prop := {
  gd_usable : usable_solver (m_solver st);
  gd_map : Forall (fun kv => kv.2 < nvars st) (m_mapping (m_map st));
  gd_keys : NoDup (m_mapping (m_map st)).*1;
  gd_atoms : Forall (fun kv => boolx kv.1 /\ (m_interpreted_vars (m_map st) = false -> is_uninterp_const kv.1 = true)) (m_mapping (m_map st));
  gd_true l : m_true st = Some l -> means st (fun _ => true) l;
  gd_cache : Forall (fun kv => means st (fun I => bval I kv.1) kv.2) (m_cache st);
}.

Record step (F : interp -> bool) (st st' : imp) : Prop := {
  st_vars : nvars st <= nvars st';
  st_sound I a : sats (m_solver st') a -> agree I a (m_map st') ->
    sats (m_solver st) a /\ agree I a (m_map st) /\ F I = true;
  st_complete I a : sats (m_solver st) a -> agree I a (m_map st) -> F I = true ->
    exists a', (forall v, v < nvars st -> a' v = a v) /\ sats (m_solver st') a' /\ agree I a' (m_map st');
}.

Definition always : interp -> bool := fun _ => true.

Lemma step_refl st : step always st st.
Proof. split; [done|by intros|]. intros I a Hs Ha _. by exists a. Qed.

Lemma step_trans F G st1 st2 st3 : step F st1 st2 -> step G st2 st3 -> step (fun I => F I && G I) st1 st3.
Proof.
  intros [V1 S1 C1] [V2 S2 C2]. split; [lia| |].
  - intros I a Hs Ha. destruct (S2 I a Hs Ha) as (Hs2 & Ha2 & HG). destruct (S1 I a Hs2 Ha2) as (? & ? & HF). by rewrite HF, HG.
  - intros I a Hs Ha HF. apply andb_true_iff in HF as [HF HG]. destruct (C1 I a Hs Ha HF) as (a1 & E1 & Hs1 & Ha1).
    destruct (C2 I a1 Hs1 Ha1 HG) as (a2 & E2 & ? & ?). exists a2. split; [|done]. intros v Hv. rewrite E2 by lia. by apply E1.
Qed.

Lemma step_ext F G st st' : (forall I, F I = G I) -> step F st st' -> step G st st'.
Proof.
  intros E [V S C]. split; [done| |].
  - intros I a Hs Ha. rewrite <- E. by apply S.
  - intros I a Hs Ha. rewrite <- E. by apply C.
Qed.

Lemma always_then G st1 st2 st3 : step always st1 st2 -> step G st2 st3 -> step G st1 st3.
Proof. intros S1 S2. eapply step_ext; [|by eapply step_trans]. done. Qed.

Lemma then_always F st1 st2 st3 : step F st1 st2 -> step always st2 st3 -> step F st1 st3.
Proof. intros S1 S2. eapply step_ext; [|by eapply step_trans]. intros I. apply andb_true_r. Qed.

Lemma means_step F st st' P l : step F st st' -> means st P l -> means st' P l.
Proof. intros [V S _] [Hv Hm]. split; [lia|]. intros I a Hs Ha. apply Hm; by destruct (S I a Hs Ha) as (? & ? & _). Qed.

Lemma means_ext st P Q l : (forall I, P I = Q I) -> means st P l -> means st Q l.
Proof. intros E [Hv Hm]. split; [done|]. intros I a Hs Ha. rewrite <- E. by apply Hm. Qed.

Lemma means_neg st P l : means st P l -> means st (fun I => negb (P I)) (neg l).
Proof. intros [Hv Hm]. split; [by rewrite var_neg|]. intros I a Hs Ha. by rewrite lit_val_neg, (Hm I a Hs Ha). Qed.

Lemma means_sign st t (sign : bool) l : means st (fun I => bval I t) l -> means st (signed sign t) (if sign then neg l else l).
Proof.
  destruct sign; [intros Hm%means_neg|intros Hm]; eapply means_ext; [|exact Hm| |exact Hm]; intros I; unfold signed; by destruct (bval I t).
Qed.

(** Parts of the state that the meaning does not depend on. *)
Lemma good_core st st' : m_solver st' = m_solver st -> m_map st' = m_map st -> m_true st' = m_true st ->
  m_cache st' = m_cache st -> good st -> good st'.
Proof.
  intros Es Em Et Ec [H1 H2 H3 Hat H4 H5]. split; rewrite ?Es, ?Em, ?Et, ?Ec; try done.
  - intros l Hl. unfold means. rewrite Es, Em. by apply H4.
  - eapply Forall_impl; [exact H5|]. intros kv Hm. unfold means. by rewrite Es, Em.
Qed.

Lemma step_core F st st' st'' : m_solver st'' = m_solver st' -> m_map st'' = m_map st' -> step F st st' -> step F st st''.
Proof. intros Es Em [V S C]. split; rewrite ?Es, ?Em; done. Qed.

Lemma means_core st st' P l : m_solver st' = m_solver st -> m_map st' = m_map st -> means st P l -> means st' P l.
Proof. intros Es Em. unfold means. by rewrite Es, Em. Qed.

(** ** Clauses are added *)

Definition added_to (st : imp) (cs : list (list literal)) (st' : imp) : Prop :=
  exists s', st' = set_solver s' st /\ usable_solver s' /\ vars s' = nvars st
    /\ forall a, sats s' a <-> sats (m_solver st) a /\ all_true a cs.

Definition in_range (st : imp) (c : list literal) : Prop := Forall (fun l => var l < nvars st) c.

Lemma added_trans st1 st2 st3 cs cs' : added_to st1 cs st2 -> added_to st2 cs' st3 -> added_to st1 (cs ++ cs') st3.
Proof.
  intros (s2 & -> & U2 & V2 & M2) (s3 & -> & U3 & V3 & M3). exists s3. simpl in *. split_and!; [done..|congruence|].
  intros a. rewrite M3, M2, all_true_app. tauto.
Qed.

Lemma added_usable st cs st' : added_to st cs st' -> usable_solver (m_solver st') /\ nvars st' = nvars st.
Proof. intros (s & -> & ? & ? & _). done. Qed.

Lemma mk_clause_added st c : usable_solver (m_solver st) -> in_range st c ->
  spec (mk_clause false c st) (added_to st [c]).
Proof.
  intros Hu Hc. eapply spec_bind; [by apply add_clause_spec|]. intros s' (U & V & M). apply spec_ret.
  exists s'. split_and!; try done. intros a. rewrite M, all_true_cons, all_true_nil. tauto.
Qed.

Lemma mk_clauses_added cs : forall st, usable_solver (m_solver st) -> Forall (in_range st) cs ->
  spec (mk_clauses false cs st) (added_to st cs).
Proof.
  induction cs as [|c cs IH]; intros st Hu Hc; simpl.
  - apply spec_ret. exists (m_solver st). split_and!; try done; [by destruct st|]. intros a. rewrite all_true_nil. tauto.
  - apply Forall_cons in Hc as [Hc Hcs]. eapply spec_bind; [by apply mk_clause_added|]. intros st1 A.
    destruct (added_usable _ _ _ A) as [U1 V1]. eapply spec_mono; [apply IH; [done|]|].
    + eapply Forall_impl; [exact Hcs|]. intros x. unfold in_range. by rewrite V1.
    + intros st2 A2. by apply (added_trans _ _ _ _ _ A A2).
Qed.

Lemma mk_unit_added st l : usable_solver (m_solver st) -> var l < nvars st -> spec (mk_unit l st) (added_to st [[l]]).
Proof. intros Hu Hl. apply mk_clause_added; [done|]. by repeat constructor. Qed.

Lemma mk_units_added ls : forall st, usable_solver (m_solver st) -> in_range st ls ->
  spec (mk_units ls st) (added_to st (map (fun l => [l]) ls)).
Proof.
  induction ls as [|l ls IH]; intros st Hu Hl; simpl.
  - apply spec_ret. exists (m_solver st). split_and!; try done; [by destruct st|]. intros a. rewrite all_true_nil. tauto.
  - apply Forall_cons in Hl as [Hl Hls]. eapply spec_bind; [by apply mk_unit_added|]. intros st1 A.
    destruct (added_usable _ _ _ A) as [U1 V1]. eapply spec_mono; [apply IH; [done|]|].
    + eapply Forall_impl; [exact Hls|]. intros x. by rewrite V1.
    + intros st2 A2. by apply (added_trans _ _ _ _ _ A A2).
Qed.

(** The clauses assert a formula. *)
Lemma assert_step F st cs st' : good st -> added_to st cs st' ->
  (forall I a, sats (m_solver st) a -> agree I a (m_map st) -> all_true a cs <-> F I = true) ->
  good st' /\ step F st st'.
Proof.
  intros Hg (s' & -> & U & V & Ms) HF.
  assert (S : step F st (set_solver s' st)).
  { split; simpl; [lia| |].
    - intros I a [Hs Hc]%Ms Ha. split_and!; [done..|]. by apply (HF I a).
    - intros I a Hs Ha HI. exists a. split_and!; [done| |done]. apply Ms. split; [done|]. by apply (HF I a). }
  split; [|done]. destruct Hg as [G1 G2 G3 Gat G4 G5]. split; simpl; try done.
  - eapply Forall_impl; [exact G2|]. simpl. intros kv ?. by rewrite V.
  - intros l Hl. apply (means_step _ _ _ _ _ S). by apply G4.
  - eapply Forall_impl; [exact G5|]. intros kv. by apply (means_step _ _ _ _ _ S).
Qed.

(** A new variable stands for a formula. *)
Lemma fresh_step P st st' : usable_solver (m_solver st) -> Forall (fun kv => kv.2 < nvars st) (m_mapping (m_map st)) ->
  nvars st' = S (nvars st) ->
  (forall I a, sats (m_solver st') a /\ agree I a (m_map st')
     <-> sats (m_solver st) a /\ agree I a (m_map st) /\ a (nvars st) = P I) ->
  step always st st' /\ means st' P (mk_literal (nvars st) false).
Proof.
  intros Hu Hm Hv Hd. split; [split|split].
  - lia.
  - intros I a Hs Ha. assert (D : sats (m_solver st) a /\ agree I a (m_map st) /\ a (nvars st) = P I) by (apply Hd; done).
    by destruct D as (? & ? & _).
  - intros I a Hs Ha _. exists (assign_var a (nvars st) (P I)).
    assert (E : forall v, v < nvars st -> assign_var a (nvars st) (P I) v = a v) by (intros v ?; apply assign_var_ne; lia).
    split; [done|]. apply Hd. split_and!.
    + eapply sats_vars; [done| |exact Hs]. intros v ?. by rewrite E.
    + apply Forall_forall. intros kv Hkv. rewrite E by by apply (proj1 (Forall_forall _ _) Hm).
      by apply (proj1 (Forall_forall _ _) Ha).
    + apply assign_var_eq.
  - rewrite var_mk. lia.
  - intros I a Hs Ha. rewrite lit_val_mk. by apply (Hd I a).
Qed.

Lemma new_var_ok ext st : usable_solver (m_solver st) ->
  exists s1, new_var ext st = (nvars st, set_solver s1 st) /\ usable_solver s1 /\ vars s1 = S (nvars st)
    /\ forall a, sats s1 a <-> sats (m_solver st) a.
Proof.
  intros Hu. pose proof (add_var_spec ext (m_solver st) Hu) as A. unfold new_var.
  destruct (add_var ext (m_solver st)) as [v s1]. destruct A as (-> & V & U & Ms). by exists s1.
Qed.

(** ... and is kept in the cache. *)
Lemma define_step ext st s1 t cs st' : good st -> new_var ext st = (nvars st, set_solver s1 st) ->
  let l := mk_literal (nvars st) false in
  added_to (cache_insert t l (set_solver s1 st)) cs st' ->
  (forall I a, sats (m_solver st) a -> agree I a (m_map st) -> all_true a cs <-> lit_val a l = bval I t) ->
  good st' /\ step always st st' /\ means st' (fun I => bval I t) l.
Proof.
  intros Hg Hn l (s' & -> & U & V & Ms) Hc. simpl in *. pose proof (gd_usable _ Hg) as Hu.
  destruct (new_var_ok ext st Hu) as (s1' & Hn' & U1 & V1 & M1). rewrite Hn in Hn'. injection Hn' as E.
  replace s1' with s1 in * by congruence.
  destruct (fresh_step (fun I => bval I t) st (set_solver s' (cache_insert t l (set_solver s1 st)))) as [S Mn]; simpl.
  { done. } { apply Hg. } { congruence. }
  { intros I a. rewrite Ms, M1. rewrite <- (xorb_false_l (a _)), <- (lit_val_mk a (nvars st) false). fold l.
    split; [intros ((? & ?) & ?)|intros (? & ? & ?)]; split_and!; try done; by apply (Hc I a). }
  split_and!; [|done|done]. destruct Hg as [G1 G2 G3 Gat G4 G5]. split; simpl; try done.
  - eapply Forall_impl; [exact G2|]. simpl. intros kv ?. rewrite V, V1. lia.
  - intros l' Hl. apply (means_step _ _ _ _ _ S). by apply G4.
  - constructor; [exact Mn|]. eapply Forall_impl; [exact G5|]. intros kv. by apply (means_step _ _ _ _ _ S).
Qed.

(** ** Results *)

(** The result of a term whose value is [P]: asserted at the root, on the stack otherwise. *)
Record delivered (st : imp) (root : bool) (P : interp -> bool) (rs : list literal) (frs : list frame) (st' : imp) : Prop := {
  dl_good : good st';
  dl_frames : m_frame_stack st' = frs;
  dl_step : step (fun I => implb root (P I)) st st';
  dl_result : if root then m_result_stack st' = rs else exists l, m_result_stack st' = rs ++ [l] /\ means st' P l;
}.

Lemma delivered_ext st root P Q rs frs st' : (forall I, P I = Q I) -> delivered st root P rs frs st' -> delivered st root Q rs frs st'.
Proof.
  intros E [D1 D2 D3 D4]. split; [done|done| |].
  - eapply step_ext; [|exact D3]. intros I. simpl. by rewrite E.
  - destruct root; [done|]. destruct D4 as (l & ? & Hm). exists l. split; [done|]. by eapply means_ext.
Qed.

Lemma delivered_after st st1 root P rs frs st' : step always st st1 -> delivered st1 root P rs frs st' -> delivered st root P rs frs st'.
Proof. intros S [D1 D2 D3 D4]. split; [done|done| |done]. by eapply always_then. Qed.

Lemma deliver_ok l root P st : good st -> means st P l ->
  spec (deliver l root st) (delivered st root P (m_result_stack st) (m_frame_stack st)).
Proof.
  intros Hg [Hv Hm]. unfold deliver. destruct root.
  - eapply spec_mono; [apply mk_unit_added; [apply Hg|done]|]. intros st' A.
    destruct (assert_step P _ _ _ Hg A) as [G S].
    { intros I a Hs Ha. rewrite all_true_cons, all_true_nil, clause_val_cons, clause_val_nil, (Hm I a Hs Ha), orb_false_r. tauto. }
    destruct A as (s' & -> & _). by split.
  - apply spec_ret. split; try done.
    + by apply (good_core st).
    + apply (step_core _ st st); [done|done|]; eapply step_ext; [|apply step_refl]; done.
    + exists l. split; [done|]. by apply (means_core st).
Qed.

Lemma mk_true_ok st : good st -> spec (mk_true st) (fun '(l, st') => good st' /\ step always st st' /\ means st' always l
  /\ m_result_stack st' = m_result_stack st /\ m_frame_stack st' = m_frame_stack st).
Proof.
  intros Hg. unfold mk_true. destruct (m_true st) as [l|] eqn:Et.
  { apply spec_ret. split_and!; try done; [apply step_refl|by apply Hg]. }
  destruct (new_var_ok false st (gd_usable _ Hg)) as (s1 & -> & U1 & V1 & M1).
  eapply spec_bind; [apply mk_unit_added; simpl; [done|rewrite var_mk; lia]|].
  intros st' (s' & -> & U & V & Ms). apply spec_ret. simpl in *.
  destruct (fresh_step always st (set_solver s' (set_true (Some (mk_literal (nvars st) false)) (set_solver s1 st)))) as [S Mn]; simpl.
  { apply Hg. } { apply Hg. } { lia. }
  { intros I a. rewrite Ms, M1, all_true_cons, all_true_nil, clause_val_cons, clause_val_nil, lit_val_mk, xorb_false_l, orb_false_r.
    unfold always. tauto. }
  split_and!; [|done..]. destruct Hg as [G1 G2 G3 Gat G4 G5]. split; simpl; try done.
  - eapply Forall_impl; [exact G2|]. simpl. intros kv ?. lia.
  - by intros l [= <-].
  - eapply Forall_impl; [exact G5|]. intros kv. by apply (means_step _ _ _ _ _ S).
Qed.

(** ** Atoms *)

Lemma to_bool_var_Some t m v : to_bool_var t m = Some v -> (t, v) ∈ m_mapping m.
Proof.
  unfold to_bool_var, id2map. destruct (list_find _ _) as [[i [t' v']]|] eqn:E; [|done]. apply list_find_Some in E as (Hi & Et & _).
  simpl in *. rewrite Hi. simpl. intros [= <-]. subst. by eapply list_elem_of_lookup_2.
Qed.

Lemma to_bool_var_None t m : to_bool_var t m = None -> id2map t m = None /\ t ∉ (m_mapping m).*1.
Proof.
  unfold to_bool_var, id2map. destruct (list_find _ _) as [[i [t' v']]|] eqn:E; simpl.
  - apply list_find_Some in E as (Hi & _). by rewrite Hi.
  - intros _. split; [done|]. apply list_find_None in E. intros (kv & -> & Hkv)%list_elem_of_fmap.
    by apply (proj1 (Forall_forall _ _) E _ Hkv).
Qed.

Lemma atom_step t ext st st' : good st -> boolx t -> to_bool_var t (m_map st) = None ->
  m_map st' = insert t (nvars st) (m_map st) -> m_solver st' = (add_var ext (m_solver st)).2 ->
  m_true st' = m_true st -> m_cache st' = m_cache st ->
  good st' /\ step always st st' /\ means st' (fun I => bval I t) (mk_literal (nvars st) false).
Proof.
  intros Hg Hb [Hi Ht]%to_bool_var_None Em Es Etr Ec.
  pose proof (add_var_spec ext (m_solver st) (gd_usable _ Hg)) as A. destruct (add_var ext (m_solver st)) as [v s1].
  simpl in Es. destruct A as (-> & V & U & Ms). unfold insert in Em. rewrite Hi in Em.
  destruct (fresh_step (fun I => bval I t) st st') as [S Mn].
  { apply Hg. } { apply Hg. } { by rewrite Es. }
  { intros I a. rewrite Es, Ms. unfold agree. rewrite Em. simpl. rewrite Forall_app, Forall_singleton. tauto. }
  split_and!; [|done|done]. destruct Hg as [G1 G2 G3 Gat G4 G5]. split.
  - by rewrite Es.
  - rewrite Em, Es, V. simpl. apply Forall_app. split; [|repeat constructor; simpl; lia].
    eapply Forall_impl; [exact G2|]. simpl. intros; lia.
  - rewrite Em. simpl. rewrite fmap_app. apply NoDup_app. split_and!; [done| |apply NoDup_singleton].
    intros x Hx Hx'%list_elem_of_singleton. by subst.
  - rewrite Em. simpl. apply Forall_app. split; [|repeat constructor; [done|]].
    + eapply Forall_impl; [exact Gat|]. intros kv [? Hu]. split; [done|]. intros [Hn _]%orb_false_iff. by apply Hu.
    + intros [_ Hn]%orb_false_iff. by apply negb_false_iff in Hn.
  - rewrite Etr. intros l Hl. apply (means_step _ _ _ _ _ S). by apply G4.
  - rewrite Ec. eapply Forall_impl; [exact G5|]. intros kv. by apply (means_step _ _ _ _ _ S).
Qed.

Lemma convert_atom_ok t root sign st : good st -> boolx t ->
  spec (convert_atom default_external t root sign st)
    (delivered st root (signed sign t) (m_result_stack st) (m_frame_stack st)).
Proof.
  intros Hg Hb. unfold convert_atom.
  eapply spec_bind with (P := fun '(l, st') => good st' /\ step always st st' /\ means st' (signed sign t) l
    /\ m_result_stack st' = m_result_stack st /\ m_frame_stack st' = m_frame_stack st).
  2:{ intros [l st1] (G & S & Mn & <- & <-). eapply spec_mono; [by apply deliver_ok|]. intros st'. by apply delivered_after. }
  assert (Hsign : forall v (st' : imp), means st' (fun I => bval I t) (mk_literal v false) ->
    means st' (signed sign t) (mk_literal v sign)).
  { intros v st' Mn%(means_sign _ _ sign). destruct sign; [by rewrite neg_mk in Mn|done]. }
  destruct (to_bool_var t (m_map st)) as [v|] eqn:Ev.
  - apply spec_ret. destruct (set_eliminated_spec v false (m_solver st) (gd_usable _ Hg)) as (U & V & Ms).
    destruct (assert_step always st [] (set_solver (set_eliminated v false (m_solver st)) st)) as [G S]; [done| |intros I a _ _; by rewrite all_true_nil|].
    { eexists. split_and!; [done..|]. intros a. rewrite Ms, all_true_nil. tauto. }
    split_and!; [done|done| |done|done]. apply Hsign. apply to_bool_var_Some in Ev.
    pose proof (proj1 (Forall_forall _ _) (gd_map _ G) _ Ev) as Hv. split; [by rewrite var_mk|]. intros I a _ Ha.
    rewrite lit_val_mk. apply (proj1 (Forall_forall _ _) Ha _ Ev).
  - destruct (m.is_true t) eqn:Et; [|destruct (m.is_false t) eqn:Ef]; recog.
    1,2: eapply spec_bind; [by apply mk_true_ok|]; intros [l st'] (G & S & Mn & ? & ?); apply spec_ret;
      split_and!; [done|done| |done|done]; destruct sign;
      first [eapply means_ext; [|exact Mn]; by intros I|eapply means_ext; [|exact (means_neg _ _ _ Mn)]; by intros I].
    set (ext := default_external || _ || _). destruct (new_var_ok ext st (gd_usable _ Hg)) as (s1 & E & _). rewrite E. apply spec_ret.
    unfold new_var in E. destruct (add_var ext (m_solver st)) as [v s1'] eqn:Ea. injection E as -> E. 
    destruct (atom_step t ext st (if ext && negb (is_uninterp_const t)
      then set_atoms (m_interpreted_atoms st ++ [t]) (set_map (insert t (nvars st) (m_map st)) (set_solver s1 st))
      else set_map (insert t (nvars st) (m_map st)) (set_solver s1 st))) as (G & S & Mn).
    1-7: destruct (ext && negb (is_uninterp_const t)); subst; rewrite ?Ea; done.
    split_and!; [done|done|by apply Hsign|by destruct (ext && negb (is_uninterp_const t))..].
Qed.

Lemma process_cached_ok t root sign st : good st -> spec (process_cached t root sign st) (fun '(done, st') =>
  if done : bool then delivered st root (signed sign t) (m_result_stack st) (m_frame_stack st) st' else st' = st).
Proof.
  intros Hg. unfold process_cached, cache_find. destruct (list_find _ _) as [[i [t' l]]|] eqn:E; [|by apply spec_ret].
  apply list_find_Some in E as (Hi & Et & _). simpl in Et. subst t'.
  pose proof (Forall_lookup_1 _ _ _ _ (gd_cache _ Hg) Hi) as Mn. simpl in *.
  eapply spec_bind; [by apply deliver_ok, means_sign|]. intros st' D. by apply spec_ret.
Qed.

(** The terms that get a frame. *)
Inductive expandable : expr -> Prop :=
| exp_not a : boolx a -> expandable (m.mk_not a)
| exp_or args : Forall boolx args -> expandable (m.mk_or args)
| exp_and args : Forall boolx args -> expandable (m.mk_and args)
| exp_ite c t e : boolx c -> boolx t -> boolx e -> expandable (m.mk_ite c t e)
| exp_eq a b : boolx a -> boolx b -> expandable (m.mk_eq a b).

Lemma expandable_args t : expandable t -> Forall boolx (args_of t).
Proof. destruct 1; simpl; [|done|done|..]; by repeat constructor. Qed.

Lemma expandable_neg args : boolx (App OP_NOT args) -> expandable (App OP_NOT args).
Proof.
  intros Hb. unfold boolx in Hb. rewrite get_sort_app in Hb. destruct (get_sorts args) as [ss|] eqn:E; [|done].
  apply get_sorts_Forall2 in E. destruct E as [|a s l ss Ha [|? ? ? ? ? ?]]; [done| |]; destruct s; try done. by constructor.
Qed.

Lemma expandable_eq args : boolx (App OP_EQ args) -> boolx (args !!! 1) -> expandable (App OP_EQ args).
Proof.
  intros Hb Hi. unfold boolx in Hb. rewrite get_sort_app in Hb. destruct (get_sorts args) as [ss|] eqn:E; [|done].
  apply get_sorts_Forall2 in E. destruct E as [|a s l ss Ha [|b s' l' ss' Hb' [|]]]; try done. simpl in *.
  destruct (decide (s = s')) as [->|]; [|done]. unfold boolx in Hi. rewrite Hb' in Hi. injection Hi as ->. by constructor.
Qed.

Lemma expandable_ite args : boolx (App OP_ITE args) -> expandable (App OP_ITE args).
Proof.
  intros Hb. unfold boolx in Hb. rewrite get_sort_app in Hb. destruct (get_sorts args) as [ss|] eqn:E; [|done].
  apply get_sorts_Forall2 in E. destruct E as [|c s l ss Hc E]; [done|]. destruct s; try done.
  destruct E as [|a s l' ss' Ha E]; [done|]. destruct E as [|b s' l'' ss'' Hb' [|]]; try done.
  - simpl in Hb. destruct (decide (s = s')); [|done]. subst s'. injection Hb as ->. by constructor.
Qed.

(** Formulas, and the reason for which one may be refused. *)
Section Formula.
Variable unsupported : Prop.

Definition formula (t : expr) : Prop := boolx t /\ (has_unsupported_bool t = true -> unsupported).
Definition refuses (e : exn) : Prop := e = ExUnsupported /\ unsupported.

Lemma formula_args o args : has_unsupported_bool (App o args) = existsb has_unsupported_bool args ->
  formula (App o args) -> Forall boolx args -> Forall formula args.
Proof.
  intros E [_ Hu] Hb. rewrite E in Hu. apply Forall_forall. intros a Ha. split; [by apply (proj1 (Forall_forall _ _) Hb)|].
  intros Ha'. apply Hu. apply existsb_exists. exists a. split; [by apply list_elem_of_In|done].
Qed.

Lemma expandable_formulas t : expandable t -> formula t -> Forall formula (args_of t).
Proof. intros He Hf. pose proof (expandable_args t He) as Hb. destruct He; (eapply formula_args; [|exact Hf|exact Hb]); done. Qed.

Definition visited (t : expr) (root sign : bool) (st : imp) (r : bool * imp) : Prop :=
  let '(done, st') := r in
  if done then delivered st root (signed sign t) (m_result_stack st) (m_frame_stack st) st'
  else st' = push_frame t root sign st /\ expandable t.

Lemma visit_visited t root sign st : good st -> formula t ->
  spec_exn refuses (visit default_external t root sign st) (visited t root sign st).
Proof.
  intros Hg [Hb Hu]. unfold visit. eapply spec_exn_bind; [by apply spec_exn_of, process_cached_ok|].
  intros [[] st1]; [intros D; by apply spec_exn_ret|intros ->].
  assert (Atom : spec_exn refuses (st' ← convert_atom default_external t root sign st; mret (true, st')) (visited t root sign st)).
  { eapply spec_exn_bind; [by apply spec_exn_of, convert_atom_ok|]. intros st' D. by apply spec_exn_ret. }
  destruct t as [o args]. destruct o; try exact Atom; simpl.
  - case_match eqn:Hi; recog; [|exact Atom]. apply spec_exn_ret. split; [done|]. by apply expandable_eq.
  - apply spec_exn_throw. split; [done|]. by apply Hu.
  - case_match eqn:Hi; recog; [|exact Atom]. apply spec_exn_ret. split; [done|]. by apply expandable_ite.
  - apply spec_exn_ret. split; [done|]. constructor. by apply boolx_and.
  - apply spec_exn_ret. split; [done|]. constructor. by apply boolx_or.
  - apply spec_exn_throw. split; [done|]. by apply Hu.
  - apply spec_exn_ret. split; [done|]. by apply expandable_neg.
  - apply spec_exn_throw. split; [done|]. by apply Hu.
Qed.

(** ** The operators *)

(** The literals stand for the terms. *)
Definition mean (st : imp) (args : list expr) (rs : list literal) : Prop :=
  Forall2 (fun t l => means st (fun I => bval I t) l) args rs.

Lemma mean_step F st st' args rs : step F st st' -> mean st args rs -> mean st' args rs.
Proof. intros S Hm. eapply Forall2_impl; [exact Hm|]. intros t l. by apply (means_step _ _ _ _ _ S). Qed.

Lemma mean_core st st' args rs : m_solver st' = m_solver st -> m_map st' = m_map st -> mean st args rs -> mean st' args rs.
Proof. intros Es Em Hm. eapply Forall2_impl; [exact Hm|]. intros t l. by apply means_core. Qed.

Lemma mean_range st args rs : mean st args rs -> in_range st rs.
Proof. intros M. induction M as [|t l args rs [Hl _] _ IH]; by constructor. Qed.

Lemma in_range_mono st st' c : nvars st <= nvars st' -> in_range st c -> in_range st' c.
Proof. intros Hv Hc. eapply Forall_impl; [exact Hc|]. intros l. simpl. lia. Qed.

Lemma in_range_neg st c : in_range st c -> in_range st (map neg c).
Proof. intros Hc. apply Forall_map. eapply Forall_impl; [exact Hc|]. intros l Hl. unfold compose. by rewrite var_neg. Qed.

Lemma mean_vals st args rs I a : mean st args rs -> sats (m_solver st) a -> agree I a (m_map st) ->
  map (lit_val a) rs = map (bval I) args.
Proof. intros M Hs Ha. induction M as [|t l args rs [_ Hm] _ IH]; simpl; [done|]. by rewrite IH, (Hm I a Hs Ha). Qed.

Lemma existsb_map {A B} (f : B -> bool) (g : A -> B) l : existsb f (map g l) = existsb (fun x => f (g x)) l.
Proof. induction l as [|x l IH]; simpl; [done|]. by rewrite IH. Qed.

Lemma forallb_map {A B} (f : B -> bool) (g : A -> B) l : forallb f (map g l) = forallb (fun x => f (g x)) l.
Proof. induction l as [|x l IH]; simpl; [done|]. by rewrite IH. Qed.

Lemma mean_existsb st args rs I a : mean st args rs -> sats (m_solver st) a -> agree I a (m_map st) ->
  existsb (lit_val a) rs = existsb (bval I) args.
Proof. intros M Hs Ha. rewrite <- (existsb_map id (lit_val a)), (mean_vals _ _ _ _ _ M Hs Ha). by rewrite existsb_map. Qed.

Lemma mean_forallb st args rs I a : mean st args rs -> sats (m_solver st) a -> agree I a (m_map st) ->
  forallb (lit_val a) rs = forallb (bval I) args.
Proof. intros M Hs Ha. rewrite <- (forallb_map id (lit_val a)), (mean_vals _ _ _ _ _ M Hs Ha). by rewrite forallb_map. Qed.

Lemma asserted st P cs st' : good st -> added_to st cs st' ->
  (forall I a, sats (m_solver st) a -> agree I a (m_map st) -> all_true a cs <-> P I = true) ->
  delivered st true P [] (m_frame_stack st) (set_results [] st').
Proof.
  intros Hg A HP. destruct (assert_step P _ _ _ Hg A HP) as [G S]. destruct A as (s' & -> & _).
  split; [by apply (good_core (set_solver s' st))|done| |done]. by apply (step_core _ st (set_solver s' st)).
Qed.

Lemma defined st s1 t (sign : bool) cs rs st' : good st -> new_var false st = (nvars st, set_solver s1 st) ->
  let l := mk_literal (nvars st) false in
  added_to (cache_insert t l (set_solver s1 st)) cs st' ->
  (forall I a, sats (m_solver st) a -> agree I a (m_map st) -> all_true a cs <-> lit_val a l = bval I t) ->
  delivered st false (signed sign t) rs (m_frame_stack st) (push_result (if sign then neg l else l) (set_results rs st')).
Proof.
  intros Hg Hn l A Hc. destruct (define_step _ _ _ _ _ _ Hg Hn A Hc) as (G & S & Mn).
  assert (Hf : m_frame_stack st' = m_frame_stack st) by (by destruct A as (s' & -> & _)).
  split; [by apply (good_core st')|done|by apply (step_core _ st st')|].
  eexists. split; [done|]. by apply (means_core st'), means_sign.
Qed.

(** What a conversion of [t] does when the results end with those of the arguments. *)
Definition converts (t : expr) (m : bool -> bool -> imp -> M imp) : Prop := forall root sign st rs0 rs,
  good st -> m_result_stack st = rs0 ++ rs -> mean st (args_of t) rs -> (root = true -> rs0 = []) ->
  spec (m root sign st) (delivered st root (signed sign t) rs0 (m_frame_stack st)).

Lemma take_results (rs0 rs : list literal) n : length rs = n -> take (length (rs0 ++ rs) - n) (rs0 ++ rs) = rs0.
Proof. intros Hn. rewrite length_app, <- Hn. apply take_app_length'. lia. Qed.

Lemma drop_results (rs0 rs : list literal) n : length rs = n -> drop (length (rs0 ++ rs) - n) (rs0 ++ rs) = rs.
Proof. intros Hn. rewrite length_app, <- Hn. apply drop_app_length'. lia. Qed.

Lemma last_results (rs0 rs : list literal) n i : length rs = n -> 0 < i <= n ->
  (rs0 ++ rs) !!! (length (rs0 ++ rs) - i) = rs !!! (n - i).
Proof. intros Hn Hi. rewrite length_app, lookup_total_app_r by lia. f_equal. lia. Qed.

(** The first steps of the branch below the root. *)
Lemma new_result st : good st -> exists s1, new_var false st = (nvars st, set_solver s1 st)
  /\ forall t l c, usable_solver (m_solver (cache_insert t l (set_solver s1 st)))
    /\ (in_range st c -> in_range (cache_insert t l (set_solver s1 st)) c)
    /\ var (mk_literal (nvars st) false) < nvars (cache_insert t l (set_solver s1 st)).
Proof.
  intros Hg. destruct (new_var_ok false st (gd_usable _ Hg)) as (s1 & E & U & V & _). exists s1. split; [done|].
  intros t l c. split_and!; [done| |].
  - apply in_range_mono. simpl. lia.
  - simpl. rewrite var_mk. lia.
Qed.

(** Clauses over a few literals. *)
Ltac range_clauses := repeat (constructor; simpl; rewrite ?var_neg; try assumption; try lia).

Lemma convert_or_ok args : converts (m.mk_or args) (convert_or false (m.mk_or args)).
Proof.
  intros root sign st rs0 rs Hg Er Hm Hr. pose proof (Forall2_length _ _ _ Hm) as Hl. pose proof (mean_range _ _ _ Hm) as Hrg.
  simpl in Hl, Hm. unfold convert_or. rewrite Er. simpl args_of. destruct root.
  - rewrite (Hr eq_refl) in *. simpl app. rewrite firstn_all2 by lia.
    eapply spec_bind with (P := added_to st (if sign then map (fun l => [l]) (map neg rs) else [rs])).
    { destruct sign; [apply mk_units_added|apply mk_clause_added]; try done; [apply Hg|by apply in_range_neg|apply Hg]. }
    intros st' A. apply spec_ret. eapply asserted; [done..|]. intros I a Hs Ha. unfold signed. rewrite bval_or, <- (mean_existsb _ _ _ _ _ Hm Hs Ha).
    destruct sign; [rewrite units_neg_true; by destruct (existsb _ _)|]. rewrite all_true_cons, all_true_nil.
    change (clause_val a rs) with (existsb (lit_val a) rs). rewrite xorb_false_l. tauto.
  - destruct (new_result st Hg) as (s1 & E & Hn). rewrite E, take_results, drop_results by done.
    set (l := mk_literal (nvars st) false). destruct (Hn (m.mk_or args) l rs) as (U & R & Rl). specialize (R Hrg).
    eapply spec_bind; [apply mk_clauses_added; [done|]|].
    { apply Forall_map, Forall_forall. intros x Hx. constructor; [|by range_clauses]. rewrite var_neg. by apply (proj1 (Forall_forall _ _) R). }
    intros st1 A. destruct (added_usable _ _ _ A) as [U1 V1].
    eapply spec_bind; [apply mk_clause_added; [done|]|].
    { apply (in_range_mono (cache_insert (m.mk_or args) l (set_solver s1 st))); [by rewrite V1|]. apply Forall_app. split; [done|].
      constructor; [|done]. by rewrite var_neg. }
    intros st2 A2. apply spec_ret. eapply defined; [done|done|by eapply added_trans|]. intros I a Hs Ha.
    by rewrite or_clauses, (mean_existsb _ _ _ _ _ Hm Hs Ha), bval_or.
Qed.

Lemma convert_and_ok args : converts (m.mk_and args) (convert_and false (m.mk_and args)).
Proof.
  intros root sign st rs0 rs Hg Er Hm Hr. pose proof (Forall2_length _ _ _ Hm) as Hl. pose proof (mean_range _ _ _ Hm) as Hrg.
  simpl in Hl, Hm. unfold convert_and. rewrite Er. simpl args_of. destruct root.
  - rewrite (Hr eq_refl) in *. simpl app. rewrite firstn_all2, drop_ge, app_nil_r by lia.
    eapply spec_bind with (P := added_to st (if sign then [map neg rs] else map (fun l => [l]) rs)).
    { destruct sign; [apply mk_clause_added|apply mk_units_added]; try done; [apply Hg|by apply in_range_neg|apply Hg]. }
    intros st' A. apply spec_ret. eapply asserted; [done..|]. intros I a Hs Ha. unfold signed. rewrite bval_and, <- (mean_forallb _ _ _ _ _ Hm Hs Ha).
    destruct sign; [|by rewrite units_true, xorb_false_l]. rewrite all_true_cons, all_true_nil.
    change (clause_val a (map neg rs)) with (existsb (lit_val a) (map neg rs)). rewrite existsb_neg. destruct (forallb _ rs); simpl; tauto.
  - destruct (new_result st Hg) as (s1 & E & Hn). rewrite E, take_results, drop_results by done.
    set (l := mk_literal (nvars st) false). destruct (Hn (m.mk_and args) l rs) as (U & R & Rl). specialize (R Hrg).
    eapply spec_bind; [apply mk_clauses_added; [done|]|].
    { apply Forall_map, Forall_forall. intros x Hx. range_clauses. by apply (proj1 (Forall_forall _ _) R). }
    intros st1 A. destruct (added_usable _ _ _ A) as [U1 V1].
    eapply spec_bind; [apply mk_clause_added; [done|]|].
    { apply (in_range_mono (cache_insert (m.mk_and args) l (set_solver s1 st))); [by rewrite V1|]. apply Forall_app.
      split; [by apply in_range_neg|by constructor]. }
    intros st2 A2. apply spec_ret. eapply defined; [done|done|by eapply added_trans|]. intros I a Hs Ha.
    by rewrite and_clauses, (mean_forallb _ _ _ _ _ Hm Hs Ha), bval_and.
Qed.


#[local] Arguments mk_clauses : simpl never.

Lemma convert_ite_ok c t e : converts (m.mk_ite c t e) (convert_ite ite_extra false (m.mk_ite c t e)).
Proof.
  intros root sign st rs0 rs Hg Er Hm Hr. pose proof (Forall2_length _ _ _ Hm) as Hl. pose proof (mean_range _ _ _ Hm) as Hrg.
  simpl in Hl, Hm. unfold convert_ite. rewrite Er, !(last_results _ _ 3), take_results by (done || lia).
  destruct rs as [|x [|y [|z [|]]]]; try done. cbn.
  assert (V : forall I a, sats (m_solver st) a -> agree I a (m_map st) ->
    bval I (m.mk_ite c t e) = if lit_val a x then lit_val a y else lit_val a z).
  { intros I a Hs Ha. pose proof (mean_vals _ _ _ _ _ Hm Hs Ha) as [= -> -> ->]. apply bval_ite. }
  destruct root.
  - rewrite (Hr eq_refl) in *. eapply spec_bind; [apply mk_clauses_added; [apply Hg|]|].
    { repeat apply Forall_cons in Hrg as [? Hrg]. destruct sign; range_clauses. }
    intros st' A. apply spec_ret. eapply asserted; [done..|]. intros I a Hs Ha. unfold signed. rewrite (V I a Hs Ha).
    destruct sign; by_truth_table.
  - destruct (new_result st Hg) as (s1 & E & Hn). rewrite E.
    set (l := mk_literal (nvars st) false). destruct (Hn (m.mk_ite c t e) l [x; y; z]) as (U & R & Rl).
    eapply spec_bind; [apply mk_clauses_added; [done|]|].
    { specialize (R Hrg). repeat apply Forall_cons in R as [? R]. destruct ite_extra; simpl in *; range_clauses. }
    intros st1 A. apply spec_ret. eapply defined; [done..|]. intros I a Hs Ha. rewrite (V I a Hs Ha). fold l.
    destruct ite_extra; by_truth_table.
Qed.

Lemma convert_iff2_ok t u : boolx t -> boolx u -> converts (m.mk_eq t u) (convert_iff2 false (m.mk_eq t u)).
Proof.
  intros Ht Hu root sign st rs0 rs Hg Er Hm Hr. pose proof (Forall2_length _ _ _ Hm) as Hl. pose proof (mean_range _ _ _ Hm) as Hrg.
  simpl in Hl, Hm. unfold convert_iff2. rewrite Er, !(last_results _ _ 2), take_results by (done || lia).
  destruct rs as [|x [|y [|]]]; try done. cbn.
  assert (V : forall I a, sats (m_solver st) a -> agree I a (m_map st) ->
    bval I (m.mk_eq t u) = eqb (lit_val a x) (lit_val a y)).
  { intros I a Hs Ha. pose proof (mean_vals _ _ _ _ _ Hm Hs Ha) as [= -> ->]. by apply bval_eq_bool. }
  destruct root.
  - rewrite (Hr eq_refl) in *. eapply spec_bind; [apply mk_clauses_added; [apply Hg|]|].
    { repeat apply Forall_cons in Hrg as [? Hrg]. destruct sign; range_clauses. }
    intros st' A. apply spec_ret. eapply asserted; [done..|]. intros I a Hs Ha. unfold signed. rewrite (V I a Hs Ha).
    destruct sign; by_truth_table.
  - destruct (new_result st Hg) as (s1 & E & Hn). rewrite E.
    set (l := mk_literal (nvars st) false). destruct (Hn (m.mk_eq t u) l [x; y]) as (U & R & Rl).
    eapply spec_bind; [apply mk_clauses_added; [done|]|].
    { specialize (R Hrg). repeat apply Forall_cons in R as [? R]. simpl in *. range_clauses. }
    intros st1 A. apply spec_ret. eapply defined; [done..|]. intros I a Hs Ha. rewrite (V I a Hs Ha). fold l. by_truth_table.
Qed.

Lemma convert_ok t : expandable t -> m.is_not t = None -> converts t (convert ite_extra false t).
Proof.
  destruct 1; intros Hn; [done|apply convert_or_ok|apply convert_and_ok|apply convert_ite_ok|by apply convert_iff2_ok].
Qed.

(** ** The traversal *)

Lemma check_limits_ok : spec check_limits (fun _ => True).
Proof.
  intros s. unfold check_limits. destruct (canceled (m_ticks s)) eqn:E1; [right; eauto|].
  destruct (Z.ltb_spec max_memory (alloc_size (m_ticks s))); [left; eauto|done].
Qed.

Local Abbreviation loop := (process_loop ite_extra default_external false).

(** The frame of [t] on top, at argument [k]; the results of [pre] are above [rs0]. *)
Record at_arg (st0 : imp) (t : expr) (root sign : bool) (frs : list frame) (rs0 : list literal)
    (k : nat) (pre : list expr) (st : imp) : Prop := {
  aa_good : good st;
  aa_frames : m_frame_stack st = mk_frame t root sign k :: frs;
  aa_results : exists rs, m_result_stack st = rs0 ++ rs /\ mean st pre rs;
  aa_step : step always st0 st;
}.

Section Frame.
Context (st0 : imp) (t : expr) (root sign : bool) (frs : list frame) (rs0 : list literal).
Local Abbreviation at_arg := (at_arg st0 t root sign frs rs0).

(** The result of the next argument is on the stack. *)
Lemma at_arg_delivered k pre a st frs' st' : at_arg k pre st ->
  delivered st false (signed false a) (m_result_stack st) frs' st' -> frs' = mk_frame t root sign k :: frs ->
  at_arg k (pre ++ [a]) st'.
Proof.
  intros [G F (rs & Er & Hm) S] [D1 D2 D3 (l & El & Ml)] ->. split; [done|done| |by eapply then_always].
  exists (rs ++ [l]). split; [by rewrite El, Er, app_assoc|]. apply Forall2_app; [by eapply mean_step|].
  constructor; [|constructor]. eapply means_ext; [|exact Ml]. intros I. apply xorb_false_l.
Qed.

Lemma visit_args_ok rest : forall pre st, at_arg (length pre) pre st -> Forall formula rest ->
  spec_exn refuses (visit_args default_external rest st) (fun '(done, st') =>
    if done : bool then at_arg (length (pre ++ rest)) (pre ++ rest) st'
    else exists args1 a args2 st1, rest = args1 ++ a :: args2 /\ st' = push_frame a false false st1 /\ expandable a
      /\ at_arg (S (length (pre ++ args1))) (pre ++ args1) st1).
Proof.
  induction rest as [|a rest IH]; intros pre st A Hf; simpl.
  { apply spec_exn_ret. by rewrite app_nil_r. }
  apply Forall_cons in Hf as [Ha Hf].
  assert (Hn : at_arg (S (length pre)) pre (next_arg st)).
  { destruct A as [G F R S]. unfold next_arg. rewrite F. split; [by apply (good_core st)|done|done|by apply (step_core _ _ st)]. }
  eapply spec_exn_bind; [apply visit_visited; [apply Hn|done]|]. intros [[] st1] V; simpl in V.
  - assert (A1 : at_arg (length (pre ++ [a])) (pre ++ [a]) st1).
    { rewrite length_app, Nat.add_1_r. eapply at_arg_delivered; [exact Hn|exact V|apply Hn]. }
    eapply spec_exn_mono; [by apply IH|done|]. intros [[] st2]; [by rewrite <- !app_assoc|].
    intros (args1 & b & args2 & st3 & -> & -> & Hb & A3). exists (a :: args1), b, args2, st3.
    rewrite <- !app_assoc in A3. by split_and!.
  - destruct V as [-> He]. apply spec_exn_ret. exists [], a, rest, (next_arg st). by rewrite app_nil_r.
Qed.
End Frame.

Lemma delivered_pop (st : imp) P rs fr frs root st' : delivered st root P rs (fr :: frs) st' -> delivered st root P rs frs (pop_frame st').
Proof.
  intros [G F S R]. split; [by apply (good_core st')| |by apply (step_core _ _ st')|].
  - unfold pop_frame. simpl. by rewrite F.
  - destruct root; [done|]. destruct R as (l & ? & ?). exists l. split; [done|]. by apply (means_core st').
Qed.

Lemma pop_push t root sign (st : imp) : pop_frame (push_frame t root sign st) = st.
Proof. by destruct st. Qed.

(** With [fuel] for each path below [t], its frame is dealt with and the loop goes on. *)
Definition resolves (t : expr) : Prop := forall root sign st (Q : imp -> Prop) fuel,
  good st -> (root = true -> m_result_stack st = []) -> expandable t -> formula t -> 2 * nodes t - 1 <= fuel ->
  (forall st' fuel', fuel <= fuel' + (2 * nodes t - 1) ->
     delivered st root (signed sign t) (m_result_stack st) (m_frame_stack st) st' -> spec_exn refuses (loop fuel' st') Q) ->
  spec_exn refuses (loop fuel (push_frame t root sign st)) Q.

(** The rounds of a frame that is not for a negation. *)
Lemma rounds_ok st0 t root sign frs rs0 (Q : imp -> Prop) n : m.is_not t = None -> expandable t ->
  (root = true -> rs0 = []) ->
  forall pre rest st fuel, length rest < n -> args_of t = pre ++ rest -> Forall resolves rest -> Forall formula rest ->
  at_arg st0 t root sign frs rs0 (length pre) pre st -> S (2 * sum_list_with nodes rest) <= fuel ->
  (forall st' fuel', fuel <= fuel' + S (2 * sum_list_with nodes rest) ->
     delivered st0 root (signed sign t) rs0 frs st' -> spec_exn refuses (loop fuel' st') Q) ->
  spec_exn refuses (loop fuel st) Q.
Proof.
  intros Hnot He Hr. induction n as [|n IH]; intros pre rest st fuel Hn Ea Hres Hf A Hfuel HQ; [lia|].
  pose proof A as [G F (rs & Er & Hm) S]. destruct fuel as [|fuel]; [lia|]. simpl. rewrite F.
  eapply spec_exn_bind; [apply spec_exn_of, check_limits_ok|]. intros _ _. cbn [m_idx m_t m_root m_sign].
  eapply spec_exn_bind with (P := fun '(cached, st') =>
    if cached : bool then delivered st root (signed sign t) rs0 (m_frame_stack st) st' else st' = st).
  { destruct (Nat.eqb_spec (length pre) 0) as [E|]; [|by apply spec_exn_ret].
    eapply spec_exn_mono; [by apply spec_exn_of, process_cached_ok|done|]. intros [[] st']; [|done].
    destruct pre; [|done]. inversion Hm; subst. by rewrite Er, app_nil_r. }
  intros [[] st1].
  { intros D%(delivered_after _ _ _ _ _ _ _ S). rewrite F in D. apply HQ; [lia|]. by eapply delivered_pop. }
  intros ->. rewrite Hnot, Ea, drop_app_length.
  eapply spec_exn_bind; [by eapply visit_args_ok|]. intros [[] st1].
  - rewrite <- Ea. intros [G1 F1 (rs1 & Er1 & Hm1) S1].
    eapply spec_exn_bind; [by apply spec_exn_of, (convert_ok t He Hnot root sign st1 rs0 rs1)|].
    intros st2 D%(delivered_after _ _ _ _ _ _ _ S1). rewrite F1 in D. apply HQ; [lia|]. by eapply delivered_pop.
  - intros (args1 & a & args2 & st2 & -> & -> & Hea & A2). apply Forall_app in Hres as [_ [Ha Hres]%Forall_cons].
    apply Forall_app in Hf as [_ [Hfa Hf]%Forall_cons]. rewrite sum_list_with_app in *. simpl in *. pose proof (nodes_pos a).
    apply Ha; try done; [apply A2|lia|]. intros st3 fuel' Hfuel' D.
    apply (IH ((pre ++ args1) ++ [a]) args2 st3).
    + rewrite length_app in Hn. simpl in Hn. lia.
    + by rewrite <- !app_assoc.
    + done.
    + done.
    + rewrite (length_app _ [a]), Nat.add_1_r. eapply at_arg_delivered; [exact A2|exact D|apply A2].
    + lia.
    + intros st4 fuel4 ?. apply HQ. lia.
Qed.

(** After a visit. *)
Lemma visited_loop t root sign st (Q : imp -> Prop) fuel r : resolves t -> good st -> (root = true -> m_result_stack st = []) ->
  formula t -> 2 * nodes t - 1 <= fuel -> visited t root sign st r ->
  (forall st' fuel', fuel <= fuel' + (2 * nodes t - 1) ->
     delivered st root (signed sign t) (m_result_stack st) (m_frame_stack st) st' -> spec_exn refuses (loop fuel' st') Q) ->
  spec_exn refuses (loop fuel r.2) Q.
Proof.
  intros Ht Hg Hr Hf Hfuel V HQ. destruct r as [[] st1]; simpl in *; [apply HQ; [lia|done]|]. destruct V as [-> He]. by apply Ht.
Qed.

Lemma resolves_all t : resolves t.
Proof.
  induction t as [o args IH] using expr_rect'. intros root sign st Q fuel Hg Hr He Hf Hfuel HQ.
  pose proof (expandable_formulas _ He Hf) as Hfs. simpl in *. destruct (m.is_not (App o args)) as [a|] eqn:Hn.
  - recog. injection Hn as -> ->. apply Forall_cons in IH as [IH _]. apply Forall_cons in Hfs as [Hfs _]. simpl in *. pose proof (nodes_pos a).
    destruct fuel as [|fuel]; [lia|]. simpl.
    eapply spec_exn_bind; [apply spec_exn_of, check_limits_ok|]. intros _ _.
    eapply spec_exn_bind.
    { apply spec_exn_of, process_cached_ok. by apply (good_core st). }
    intros [[] st1].
    + intros D. apply HQ; [lia|]. apply (delivered_pop _ _ _ (mk_frame (App OP_NOT [a]) root sign 0)).
      eapply delivered_after; [|exact D]. by apply (step_core _ _ st), step_refl.
    + intros ->. rewrite pop_push. eapply spec_exn_bind; [by apply visit_visited|]. intros r V.
      destruct r as [d st1].
      eapply (visited_loop a root (negb sign) st Q fuel (d, st1)); try done; [lia|].
      intros st2 fuel' ? D. apply HQ; [lia|]. eapply delivered_ext; [|exact D]. intros I. unfold signed.
      change (App OP_NOT [a]) with (m.mk_not a). rewrite bval_not. by destruct sign, (bval I a).
  - eapply (rounds_ok st (App o args) root sign (m_frame_stack st) (m_result_stack st) Q (S (length args)) Hn He Hr []); try done; [lia|..].
    + split; try done; [by apply (good_core st)| |by apply (step_core _ _ st), step_refl]. exists []. split; [by rewrite app_nil_r|constructor].
    + lia.
    + intros st' fuel' ?. apply HQ. lia.
Qed.

(** ** The whole goal *)

(** Between formulas the stacks are empty. *)
Definition idle (st : imp) : Prop := good st /\ m_frame_stack st = [] /\ m_result_stack st = [].

Lemma process_ok n st : idle st -> formula n ->
  spec_exn refuses (process ite_extra default_external false n st) (fun st' => idle st' /\ step (fun I => bval I n) st st').
Proof.
  intros (Hg & Hfr & Hrs) Hf. unfold process. eapply spec_exn_bind; [by apply visit_visited|]. intros [d st1] V.
  assert (HQ : forall st' fuel', delivered st true (signed false n) (m_result_stack st) (m_frame_stack st) st' ->
    spec_exn refuses (loop fuel' st') (fun st' => idle st' /\ step (fun I => bval I n) st st')).
  { intros st' fuel' [G F S R]. rewrite Hfr in F. destruct fuel'; simpl; rewrite F; apply spec_exn_ret; (split;
      [by rewrite Hrs in R|eapply step_ext; [|exact S]; intros I; apply xorb_false_l]). }
  pose proof (visited_loop n true false st _ (2 * nodes n) (d, st1) (resolves_all n) Hg (fun _ => Hrs) Hf ltac:(lia) V
    (fun st' fuel' _ => HQ st' fuel')) as E. destruct d; [|exact E]. simpl in *. destruct V as [V1 V2 V3 V4].
  apply spec_exn_ret. split; [by rewrite Hfr in V2; rewrite Hrs in V4|].
  eapply step_ext; [|exact V3]. intros I. apply xorb_false_l.
Qed.

Lemma process_all_ok fs : forall st, idle st -> Forall formula fs ->
  spec_exn refuses (process_all ite_extra default_external false fs st) (fun st' => idle st' /\ step (conj fs) st st').
Proof.
  induction fs as [|f fs IH]; intros st Hi Hf; simpl; [apply spec_exn_ret; split; [done|apply step_refl]|].
  apply Forall_cons in Hf as [Hf Hfs]. eapply spec_exn_bind; [by apply process_ok|]. intros st1 [Hi1 S1].
  eapply spec_exn_mono; [by apply IH|done|]. intros st2 [Hi2 S2]. split; [done|]. by eapply step_trans.
Qed.
End Formula.

(** A translation into a solver that may hold clauses already. *)
Definition fresh_imp (s : T) (map : mapping) : imp := mk_imp [] [] [] [] s map None [].

Lemma translate_ok unsupported g st : idle st -> Forall (formula unsupported) (m_forms g) ->
  spec_exn (refuses unsupported) (translate ite_extra default_external false g st)
    (fun st' => idle st' /\ step (conj (m_forms g)) st st').
Proof.
  intros (Hg & Hfr & Hrs) Hf. unfold translate. set (st1 := mk_imp _ _ _ _ _ _ _ _).
  eapply spec_exn_mono; [apply process_all_ok; [|done]|done|].
  - split_and!; [by apply (good_core st)|done|done].
  - intros st' [Hi S]. split; [done|]. eapply always_then; [|exact S]. by apply (step_core _ _ st), step_refl.
Qed.

Lemma run_steps unsupported g s map : usable_solver s -> Forall (fun kv => kv.2 < vars s) (m_mapping map) ->
  NoDup (m_mapping map).*1 ->
  Forall (fun kv => boolx kv.1 /\ (m_interpreted_vars map = false -> is_uninterp_const kv.1 = true)) (m_mapping map) ->
  Forall (formula unsupported) (m_forms g) ->
  spec_exn (refuses unsupported) (run ite_extra default_external false g s map)
    (fun st' => idle st' /\ step (conj (m_forms g)) (fresh_imp s map) st').
Proof. intros Hu Hm Hk Ha Hf. apply translate_ok; [|done]. by split_and!; [constructor|..]. Qed.
End Sound.

(** ** Models *)

Import blaster_rewriter_cfg bit_blaster_model_converter sat_tactic.

(** The assignment of a model of the solver; what has no value is false. *)
Definition model_assignment (ll_m : list lbool) : assignment := fun v => bool_decide (value_at_var v ll_m = l_true).

Lemma uninterp_const_decl t : boolx t -> is_uninterp_const t = true -> exists f, t = decl_const (f, BOOL_SORT).
Proof.
  intros Hb Hu. destruct t as [[] []]; try done. unfold boolx in Hb. rewrite get_sort_app in Hb. simpl in Hb.
  case_decide as Hd; [|done]. destruct Hd as [-> _]. injection Hb as ->. by eexists.
Qed.

Definition const_value (b : lbool) : option expr :=
  match b with l_true => Some m.mk_true | l_false => Some m.mk_false | l_undef => None end.

Lemma register_other d ll_m kvs : forall md, decl_const d ∉ kvs.*1 ->
  Forall (fun kv => exists f : decl, kv.1 = decl_const f) kvs ->
  get_const_interp d (register_model (mk_mapping kvs false) ll_m md) = get_const_interp d md.
Proof.
  unfold register_model. cbn [m_mapping]. induction kvs as [|[n v] kvs IH]; intros md Hn Hk; simpl; [done|].
  apply Forall_cons in Hk as [[f Ef] Hk]. simpl in *. apply not_elem_of_cons in Hn as [Hn1 Hn]. rewrite IH by done. subst n.
  assert (Hdf : f <> d) by (intros ->; done). replace (get_decl (decl_const f)) with (Some f) by (by destruct f).
  unfold get_const_interp, register_decl. case_match; simpl; by rewrite ?lookup_insert_ne.
Qed.

Lemma register_lookup d v ll_m kvs : forall md, get_const_interp d md = None -> NoDup kvs.*1 ->
  Forall (fun kv => exists f : decl, kv.1 = decl_const f) kvs -> (decl_const d, v) ∈ kvs ->
  get_const_interp d (register_model (mk_mapping kvs false) ll_m md) = const_value (value_at_var v ll_m).
Proof.
  unfold register_model. cbn [m_mapping]. induction kvs as [|[n w] kvs IH]; intros md Hmd Hnd Hk Hin; [by apply elem_of_nil in Hin|].
  apply Forall_cons in Hk as [[f Ef] Hk]. apply NoDup_cons in Hnd as [Hnd1 Hnd]. simpl in *. subst n.
  replace (get_decl (decl_const f)) with (Some f) by (by destruct f).
  apply elem_of_cons in Hin as [[Ed ->]%pair_equal_spec|Hin].
  - assert (f = d) as ->. { destruct f, d. by injection Ed as -> ->. }
    pose proof (register_other d ll_m kvs) as R. unfold register_model in R. cbn [m_mapping] in R. rewrite R by done.
    unfold get_const_interp, register_decl. destruct (value_at_var w ll_m); simpl; [by rewrite lookup_insert_eq|done|by rewrite lookup_insert_eq].
  - apply IH; try done. assert (Hdf : f <> d). { intros ->. apply Hnd1. by apply (list_elem_of_fmap_2 fst _ _ Hin). }
    unfold get_const_interp, register_decl in *. case_match; simpl; by rewrite ?lookup_insert_ne.
Qed.

Lemma register_model_ok ll_m kvs : forall md, model_ok md -> model_ok (register_model (mk_mapping kvs false) ll_m md).
Proof.
  unfold register_model. cbn [m_mapping]. induction kvs as [|[n w] kvs IH]; intros md Hmd; simpl; [done|]. apply IH.
  destruct (get_decl n) as [f|]; [|done]. unfold register_decl.
  case_match; [|done|]; intros d v; simpl; (destruct (decide (f = d)) as [->|]; [|rewrite lookup_insert_ne by done; apply Hmd]);
    rewrite lookup_insert_eq; intros [= <-]; auto.
Qed.

Section ModelOf.
Context `{Env} {T : Type} `{SolverCore T} `{!SolverCoreOk T}.

(** The values of the atoms agree with those of the variables. *)
Lemma register_agree (st : imp (T := T)) ll_m : good st -> m_interpreted_vars (m_map st) = false ->
  agree (meaning (register_model (m_map st) ll_m empty_model)) (model_assignment ll_m) (m_map st).
Proof.
  intros Hg Hi. destruct (m_map st) as [kvs i] eqn:Em. simpl in Hi. subst i. apply Forall_forall. intros [n v] Hin. simpl in *.
  assert (Hk : Forall (fun kv => exists f, kv.1 = decl_const (f, BOOL_SORT)) kvs).
  { pose proof (gd_atoms _ Hg) as Ha. rewrite Em in Ha. eapply Forall_impl; [exact Ha|]. intros kv [Hb Hu].
    apply uninterp_const_decl; [done|]. by apply Hu. }
  destruct (proj1 (Forall_forall _ _) Hk _ Hin) as [f Ef]. simpl in Ef. subst n.
  rewrite meaning_bool; [|apply register_model_ok; intros d x; simpl; by rewrite lookup_empty|done].
  pose proof (gd_keys _ Hg) as Hnd. rewrite Em in Hnd.
  rewrite (register_lookup _ v); [|done|done| |done].
  - unfold model_assignment. by destruct (value_at_var v ll_m).
  - eapply Forall_impl; [exact Hk|]. intros kv [g ->]. eauto.
Qed.

(** Only Boolean constants get a value. *)
Lemma register_open (st : imp (T := T)) ll_m d : good st -> m_interpreted_vars (m_map st) = false -> d.2 <> BOOL_SORT ->
  get_const_interp d (register_model (m_map st) ll_m empty_model) = None.
Proof.
  intros Hg Hi Hd. pose proof (gd_atoms _ Hg) as Ha. destruct (m_map st) as [kvs i]. simpl in *. subst i.
  assert (Hk : Forall (fun kv => exists f, kv.1 = decl_const (f, BOOL_SORT)) kvs).
  { eapply Forall_impl; [exact Ha|]. intros kv [Hb Hu]. apply uninterp_const_decl; [done|]. by apply Hu. }
  rewrite register_other; [done| |].
  - intros (kv & E & Hkv)%list_elem_of_fmap. destruct (proj1 (Forall_forall _ _) Hk _ Hkv) as [f Ef]. rewrite Ef in E.
    destruct d as [f' s']. injection E as -> ->. done.
  - eapply Forall_impl; [exact Hk|]. intros kv [f ->]. eauto.
Qed.
End ModelOf.
