(* ===== verification/Mpn.v ===== *)
(** * Mpn: multi-precision naturals

    [mpn_manager] of [util/mpn.cpp].  A number is an array of 32-bit digits,
    the least significant first.  An array is the list of its cells; a pointer
    into it is the array with an offset.  Reading or writing outside of an
    array is the fault [out_of_bounds], so a run that ends in [Val] is safe.
    Arithmetic on [mpn_digit] is modulo [2^32], on [mpn_double_digit] modulo
    [2^64].  The nested lock and the traces are left out. *)
From Stdlib Require Import ZArith Lia.
From stdpp Require Import base list.
From S2P Require Import Prelude.

Local Open Scope Z_scope.

(** ** Runs that may fault *)

Inductive fault :=
| out_of_bounds        (* an access outside of its array *)
| unreachable          (* UNREACHABLE() *)
| diverged.            (* the fuel of a loop ran out *)

Inductive run (A : Type) :=
| Val (a : A)
| Fault (e : fault).
Arguments Val {A} a.
Arguments Fault {A} e.

Global Instance run_ret : MRet run := fun A a => Val a.

Global Instance run_bind : MBind run := fun A B k m =>
  match m with Val a => k a | Fault e => Fault e end.

Definition read (l : list Z) (i : nat) : run Z :=
  match l !! i with Some x => Val x | None => Fault out_of_bounds end.

Definition write (l : list Z) (i : nat) (x : Z) : run (list Z) :=
  if (i <? length l)%nat then Val (<[i := x]> l) else Fault out_of_bounds.

(** [for (j = i; j < i + n; j++) a = f(j, a)]. *)
Fixpoint up {A} (n i : nat) (f : nat -> A -> run A) (a : A) : run A :=
  match n with
  | O => Val a
  | S n' => a ← f i a; up n' (S i) f a
  end.

(** [for (j = n-1; j != (size_t)-1; j--) a = f(j, a)]. *)
Fixpoint down {A} (n : nat) (f : nat -> A -> run A) (a : A) : run A :=
  match n with
  | O => Val a
  | S j => a ← f j a; down j f a
  end.

Module mpn.

(** ** Digits *)

Definition DIGIT_BITS : Z := 32.
Definition BASE : Z := 2 ^ 32.
Definition MASK_FIRST : Z := 2 ^ 31.

(** Conversions to [mpn_digit] and [mpn_double_digit]. *)
Definition w32 (x : Z) : Z := x mod 2 ^ 32.
Definition w64 (x : Z) : Z := x mod 2 ^ 64.

Definition FIRST_BITS (n x : Z) : Z := Z.shiftr x (DIGIT_BITS - n).
Definition LAST_BITS (n x : Z) : Z := Z.shiftr (w32 (Z.shiftl x (DIGIT_BITS - n))) (DIGIT_BITS - n).

(** The argument of an operation: a pointer into an array of its own, or the
    destination itself. *)
Inductive source :=
| Buf (l : list Z) (off : nat)
| Dest.

(** [(j < lng) ? a[j] : zero], where the destination is [c] from [off]. *)
Definition digit_at (a : source) (lng : nat) (c : list Z) (off j : nat) : run Z :=
  if (j <? lng)%nat then
    match a with
    | Buf l o => read l (o + j)
    | Dest => read c (off + j)
    end
  else Val 0.

(** ** Comparison *)

Fixpoint compare_loop (j : nat) (a : list Z) (lnga : nat) (b : list Z) (lngb : nat) : run Z :=
  match j with
  | O => Val 0
  | S j =>
      u_j ← digit_at (Buf a 0) lnga [] 0 j;
      v_j ← digit_at (Buf b 0) lngb [] 0 j;
      if v_j <? u_j then Val 1
      else if u_j <? v_j then Val (-1)
      else compare_loop j a lnga b lngb
  end.

Definition compare (a : list Z) (lnga : nat) (b : list Z) (lngb : nat) : run Z :=
  compare_loop (Nat.max lnga lngb) a lnga b lngb.

(** ** Addition and subtraction *)

(** [for (os = n; os > 1 && c[os-1] == 0; ) os--]. *)
Fixpoint trim (os : nat) (c : list Z) (off : nat) : run nat :=
  match os with
  | S (S _ as os') =>
      x ← read c (off + os');
      if x =? 0 then trim os' c off else Val os
  | _ => Val os
  end.

(** The destination and the number of digits stored in [*plngc]. *)
Definition add (a : source) (lnga : nat) (b : source) (lngb : nat) (c : list Z) (off : nat)
    : run (list Z * nat) :=
  let len := Nat.max lnga lngb in
  '(c, k) ← up len 0 (fun j '(c, k) =>
      u_j ← digit_at a lnga c off j;
      v_j ← digit_at b lngb c off j;
      let r := w32 (u_j + v_j) in
      let c1 := r <? u_j in
      let c_j := w32 (r + k) in
      c ← write c (off + j) c_j;
      let c2 := c_j <? r in
      Val (c, Z.b2z (c1 || c2)))
    (c, 0);
  c ← write c (off + len) k;
  os ← trim (len + 1) c off;
  Val (c, os).

(** The destination and [*pborrow]. *)
Definition sub (a : source) (lnga : nat) (b : source) (lngb : nat) (c : list Z) (off : nat)
    : run (list Z * Z) :=
  let len := Nat.max lnga lngb in
  up len 0 (fun j '(c, k) =>
      u_j ← digit_at a lnga c off j;
      v_j ← digit_at b lngb c off j;
      let r := w32 (u_j - v_j) in
      let c1 := u_j <? r in
      let c_j := w32 (r - k) in
      c ← write c (off + j) c_j;
      let c2 := r <? c_j in
      Val (c, Z.b2z (c1 || c2)))
    (c, 0).

(** ** Multiplication *)

(** The row of [v_j]. *)
Definition mul_row (a : list Z) (lnga : nat) (v_j : Z) (j : nat) (c : list Z) : run (list Z) :=
  '(c, k) ← up lnga 0 (fun i '(c, k) =>
      u_i ← read a i;
      c_ij ← read c (i + j);
      let t := w64 (w64 (w64 (u_i * v_j) + c_ij) + k) in
      c ← write c (i + j) (w32 t);
      Val (c, Z.shiftr t DIGIT_BITS))
    (c, 0);
  write c (j + lnga) k.

Definition mul (a : list Z) (lnga : nat) (b : list Z) (lngb : nat) (c : list Z) : run (list Z) :=
  c ← up lnga 0 (fun i c => write c i 0) c;
  up lngb 0 (fun j c =>
      v_j ← read b j;
      if v_j =? 0 then write c (j + lnga) 0 else mul_row a lnga v_j j c) c.

(** ** Division *)

(** [sbuffer::resize]: new cells hold zero. *)
Definition resize (l : list Z) (n : nat) : list Z := take n l ++ replicate (n - length l) 0.

(** [while (((top << d) & MASK_FIRST) == 0) d++]. *)
Fixpoint leading_zeros (fuel : nat) (top d : Z) : run Z :=
  match fuel with
  | O => Fault diverged
  | S fuel' =>
      if Z.land (w32 (Z.shiftl top d)) MASK_FIRST =? 0 then leading_zeros fuel' top (d + 1)
      else Val d
  end.

Definition copy (n : nat) (src dst : list Z) : run (list Z) :=
  up n 0 (fun i dst => x ← read src i; write dst i x) dst.

(** [dst[i] = (src[i] << d) | FIRST_BITS(d, src[i-1])] for the indices below
    [n], the highest first, and [dst[0] = src[0] << d]. *)
Definition shift_left (d : Z) (n : nat) (src dst : list Z) : run (list Z) :=
  dst ← down (n - 1) (fun i dst =>
      x ← read src (S i);
      y ← read src i;
      write dst (S i) (Z.lor (w32 (Z.shiftl x d)) (FIRST_BITS d y))) dst;
  x ← read src 0;
  write dst 0 (w32 (Z.shiftl x d)).

(** [d], [n_numer] and [n_denom]. *)
Definition div_normalize (numer : list Z) (lnum : nat) (denom : list Z) (lden : nat)
    (n_numer n_denom : list Z) : run (Z * list Z * list Z) :=
  d ← (if (0 <? lden)%nat then top ← read denom (lden - 1); leading_zeros 32 top 0 else Val 0);
  let n_numer := resize n_numer (lnum + 1) in
  let n_denom := resize n_denom lden in
  if d =? 0 then
    n_numer ← write n_numer lnum 0;
    n_numer ← copy lnum numer n_numer;
    n_denom ← copy lden denom n_denom;
    Val (d, n_numer, n_denom)
  else if negb (lnum =? 0)%nat then
    x ← read numer (lnum - 1);
    n_numer ← write n_numer lnum (FIRST_BITS d x);
    n_numer ← shift_left d lnum numer n_numer;
    n_denom ← shift_left d lden denom n_denom;
    Val (d, n_numer, n_denom)
  else Val (0, n_numer, n_denom).

Definition div_unnormalize (numer denom : list Z) (d : Z) (rem : list Z) : run (list Z) :=
  if d =? 0 then copy (length denom) numer rem
  else
    rem ← up (length denom - 1) 0 (fun i rem =>
        x ← read numer i;
        y ← read numer (S i);
        write rem i (Z.lor (Z.shiftr x d) (w32 (Z.shiftl (LAST_BITS d y) (DIGIT_BITS - d))))) rem;
    x ← read numer (length denom - 1);
    write rem (length denom - 1) (Z.shiftr x d).

(** [numer] and [quot]. *)
Definition div_1 (numer : list Z) (denom : Z) (quot : list Z) : run (list Z * list Z) :=
  down (length numer - 1) (fun j '(numer, quot) =>     (* j is the code's j - 1 *)
      x ← read numer (S j);
      y ← read numer j;
      let temp := Z.lor (w64 (Z.shiftl x DIGIT_BITS)) y in
      let q_hat := temp / denom in
      if BASE <=? q_hat then Fault unreachable else
      let ms := w64 (temp - w64 (q_hat * denom)) in
      let borrow := temp <? ms in
      numer ← write numer j (w32 ms);
      numer ← write numer (S j) (w32 (Z.shiftr ms DIGIT_BITS));
      quot ← write quot j (w32 q_hat);
      if borrow then
        q ← read quot j;
        quot ← write quot j (w32 (q - 1));
        n ← read numer j;
        numer ← write numer (S j) (w32 (n + denom));
        Val (numer, quot)
      else Val (numer, quot))
    (numer, quot).

(** The loop of [goto recheck]; [i] is [j + n]. *)
Fixpoint recheck (fuel : nat) (numer denom : list Z) (i n : nat) (q_hat r_hat : Z) : run Z :=
  too_big ← (if BASE <=? q_hat then Val true
             else
               v ← read denom (n - 2);
               u ← read numer (i - 2);
               Val (w64 (w64 (Z.shiftl r_hat DIGIT_BITS) + u) <? w64 (q_hat * v)));
  if (too_big : bool) then
    let q_hat := w64 (q_hat - 1) in
    v ← read denom (n - 1);
    let r_hat := w64 (r_hat + v) in
    if r_hat <? BASE then
      match fuel with
      | O => Fault diverged
      | S fuel' => recheck fuel' numer denom i n q_hat r_hat
      end
    else Val q_hat
  else Val q_hat.

(** [numer], [quot], [ms] and [ab]. *)
Definition div_step (denom : list Z) (n j : nat) (numer quot ms ab : list Z)
    : run (list Z * list Z * list Z * list Z) :=
  x ← read numer (j + n);
  y ← read numer (j + n - 1);
  let temp := Z.lor (w64 (Z.shiftl x DIGIT_BITS)) y in
  v ← read denom (n - 1);
  q_hat ← recheck 3 numer denom (j + n) n (temp / v) (temp mod v);
  let q_hat_small := w32 q_hat in
  ms ← mul [q_hat_small] 1 denom n ms;
  '(numer, borrow) ← sub Dest (n + 1) (Buf ms 0) (n + 1) numer j;
  quot ← write quot j q_hat_small;
  if negb (borrow =? 0) then
    q ← read quot j;
    quot ← write quot j (w32 (q - 1));
    let ab := resize ab (n + 2) in
    '(ab, _) ← add (Buf denom 0) n (Buf numer j) (n + 1) ab 0;
    numer ← up (n + 1) 0 (fun i numer => x ← read ab i; write numer (j + i) x) numer;
    Val (numer, quot, ms, ab)
  else Val (numer, quot, ms, ab).

Definition div_n (numer denom quot ms ab : list Z) : run (list Z * list Z * list Z * list Z) :=
  let m := (length numer - length denom)%nat in
  let n := length denom in
  let ms := resize ms (n + 1) in
  down m (fun j '(numer, quot, ms, ab) => div_step denom n j numer quot ms ab)
    (numer, quot, ms, ab).

(** The buffers the manager keeps between calls. *)
Record mpn_manager := mk_manager { u : list Z; v : list Z; t_ms : list Z; t_ab : list Z }.

(** [rem[i] = (i < lnum) ? numer[i] : 0] for [i < lden]. *)
Definition copy_rem (numer : list Z) (lnum lden : nat) (rem : list Z) : run (list Z) :=
  up lden 0 (fun i rem => x ← digit_at (Buf numer 0) lnum [] 0 i; write rem i x) rem.

(** The result, [quot] and [rem]. *)
Definition div (numer : list Z) (lnum : nat) (denom : list Z) (lden : nat) (quot rem : list Z)
    (s : mpn_manager) : run (bool * list Z * list Z * mpn_manager) :=
  if (lnum <? lden)%nat then
    let count := Z.to_nat (w64 (Z.of_nat lnum - Z.of_nat lden + 1)) in
    quot ← up count 0 (fun i quot => write quot i 0) quot;
    rem ← copy_rem numer lnum lden rem;
    Val (false, quot, rem, s)
  else
    all_zero ← up lden 0 (fun i all_zero =>
      if (all_zero : bool) then x ← read denom i; Val (x =? 0) else Val false) true;
    if (all_zero : bool) then Fault unreachable else
    x ← read numer (lnum - 1);
    y ← read denom (lden - 1);
    if (lnum =? 1)%nat && (lden =? 1)%nat then
      quot ← write quot 0 (x / y);
      rem ← write rem 0 (x mod y);
      Val (false, quot, rem, s)
    else if (lnum =? lden)%nat && (x <? y) then
      quot ← write quot 0 0;
      rem ← copy_rem numer lnum lden rem;
      Val (false, quot, rem, s)
    else
      '(d, un, vn) ← div_normalize numer lnum denom lden (u s) (v s);
      '(un, quot, ms, ab) ←
        (if (lden =? 1)%nat then
           v_0 ← read vn 0;
           '(un, quot) ← div_1 un v_0 quot;
           Val (un, quot, t_ms s, t_ab s)
         else div_n un vn quot (t_ms s) (t_ab s));
      rem ← div_unnormalize un vn d rem;
      Val (true, quot, rem, mk_manager un vn ms ab).

(** ** Decimal output *)

(** The digits of a machine word, as [snprintf("%u")] prints them. *)
Fixpoint print_word (fuel : nat) (x : Z) (out : list Z) : list Z :=
  match fuel with
  | O => out
  | S fuel' =>
      let out := 48 + x mod 10 :: out in
      if x / 10 =? 0 then out else print_word fuel' (x / 10) out
  end.

(** [snprintf(buf, lbuf, "%u", x)]: truncated to the buffer, and terminated. *)
Definition snprintf_u (buf : list Z) (lbuf : nat) (x : Z) : run (list Z) :=
  let text := take (lbuf - 1) (print_word 10 x []) ++ [0] in
  if (lbuf =? 0)%nat then Val buf
  else if (length text <=? length buf)%nat then Val (text ++ drop (length text) buf)
  else Fault out_of_bounds.

(** [while (!temp.empty() && temp.back() == 0) temp.pop_back()]. *)
Fixpoint pop_zeros (n : nat) (temp : list Z) : list Z :=
  match n with
  | O => temp
  | S n' =>
      match last temp with
      | Some x => if x =? 0 then pop_zeros n' (take (length temp - 1) temp) else temp
      | None => temp
      end
  end.

(** The loop of the remainders by ten; [buf] and the number of characters. *)
Fixpoint remainders (fuel : nat) (temp t_numer t_denom : list Z) (j : nat) (buf : list Z)
    : run (list Z * nat) :=
  let finished := match temp with [] => true | [x] => x =? 0 | _ => false end in
  if finished then Val (buf, j)
  else
    match fuel with
    | O => Fault diverged
    | S fuel' =>
        '(d, t_numer, t_denom) ← div_normalize temp (length temp) [10] 1 t_numer t_denom;
        x ← read t_denom 0;
        '(t_numer, temp) ← div_1 t_numer x temp;
        rem ← div_unnormalize t_numer t_denom d [0];
        r ← read rem 0;
        buf ← write buf j (48 + r);
        remainders fuel' (pop_zeros (length temp) temp) t_numer t_denom (S j) buf
    end.

(** [for (i = 0; i < mid; i++) swap(buf[i], buf[j-i])]. *)
Definition reverse (j : nat) (buf : list Z) : run (list Z) :=
  let mid := (j / 2 + (if (j mod 2 =? 0)%nat then 0 else 1))%nat in
  up mid 0 (fun i buf =>
    x ← read buf i;
    y ← read buf (j - i);
    buf ← write buf i y;
    write buf (j - i) x) buf.

Definition to_string (a : list Z) (lng : nat) (buf : list Z) (lbuf : nat) : run (list Z) :=
  if (lng =? 1)%nat then x ← read a 0; snprintf_u buf lbuf x
  else
    temp ← copy lng a (replicate lng 0);
    '(buf, j) ← remainders (10 * lng) temp (replicate (lng + 1) 0) [0] 0 buf;
    buf ← write buf j 0;
    match j with
    | O => Fault out_of_bounds          (* j-- wraps around *)
    | S j => reverse j buf
    end.

End mpn.
