(* ===== verification/MpnFacts.v ===== *)
(** * MpnFacts: values of digit arrays, comparison, addition, subtraction and
    multiplication

    [num l off n] is the number the [n] cells of [l] from [off] spell.  Each
    operation of [mpn_manager] is safe on large enough arrays and computes the
    number it should. *)
From Stdlib Require Import ZArith Lia.
From stdpp Require Import base list.
From S2P Require Import Prelude Mpn.
Import mpn.

Local Open Scope Z_scope.

(** ** Safe runs *)

Definition safe {A} (m : run A) (Q : A -> Prop) : Prop :=
  match m with Val a => Q a | Fault _ => False end.

Lemma safe_bind {A B} (m : run A) (k : A -> run B) (P : A -> Prop) (Q : B -> Prop) :
  safe m P -> (forall a, P a -> safe (k a) Q) -> safe (m ≫= k) Q.
Proof. destruct m; simpl; [|done]. auto. Qed.

Lemma safe_mono {A} (m : run A) (P Q : A -> Prop) : safe m P -> (forall a, P a -> Q a) -> safe m Q.
Proof. destruct m; simpl; [|done]. auto. Qed.

Lemma safe_up {A} (I : nat -> A -> Prop) n i (f : nat -> A -> run A) a :
  I i a -> (forall j b, (i <= j < i + n)%nat -> I j b -> safe (f j b) (I (S j))) ->
  safe (up n i f a) (I (i + n)%nat).
Proof.
  revert i a. induction n as [|n IH]; intros i a H0 Hf; simpl.
  { by rewrite Nat.add_0_r. }
  eapply safe_bind; [apply Hf; [lia|done]|]. intros b Hb.
  replace (i + S n)%nat with (S i + n)%nat by lia. apply IH; [done|]. intros. apply Hf; [lia|done].
Qed.

Lemma safe_up0 {A} (I : nat -> A -> Prop) n (f : nat -> A -> run A) a :
  I O a -> (forall j b, (j < n)%nat -> I j b -> safe (f j b) (I (S j))) -> safe (up n 0 f a) (I n).
Proof. intros H0 Hf. apply (safe_up I n 0); [done|]. intros. apply Hf; [lia|done]. Qed.

Lemma safe_down {A} (I : nat -> A -> Prop) n (f : nat -> A -> run A) a :
  I n a -> (forall j b, (j < n)%nat -> I (S j) b -> safe (f j b) (I j)) -> safe (down n f a) (I O).
Proof.
  revert a. induction n as [|n IH]; intros a H0 Hf; simpl; [done|].
  eapply safe_bind; [apply Hf; [lia|done]|]. intros b Hb. apply IH; [done|]. auto with lia.
Qed.

(** ** Cells *)

Definition cell (l : list Z) (i : nat) : Z := default 0 (l !! i).

Definition digits (l : list Z) : Prop := Forall (fun x => 0 <= x < BASE) l.

Lemma BASE_eq : BASE = 4294967296.
Proof. reflexivity. Qed.

Lemma cell_insert l i x : (i < length l)%nat -> cell (<[i := x]> l) i = x.
Proof. intros. unfold cell. by rewrite list_lookup_insert_eq. Qed.

Lemma cell_insert_ne l i j x : i <> j -> cell (<[i := x]> l) j = cell l j.
Proof. intros. unfold cell. by rewrite list_lookup_insert_ne. Qed.

Lemma digits_cell l i : digits l -> 0 <= cell l i < BASE.
Proof.
  intros Hl. unfold cell. destruct (l !! i) eqn:Hi; simpl; [|rewrite BASE_eq; lia].
  by apply (Forall_lookup_1 _ _ _ _ Hl Hi).
Qed.

Lemma digits_insert l i x : digits l -> 0 <= x < BASE -> digits (<[i := x]> l).
Proof. intros. by apply Forall_insert. Qed.

Lemma safe_read l i (Q : Z -> Prop) : (i < length l)%nat -> Q (cell l i) -> safe (read l i) Q.
Proof.
  intros Hi. unfold read, cell. destruct (l !! i) eqn:E; simpl; [done|].
  apply lookup_ge_None in E. lia.
Qed.

Lemma safe_write l i x (Q : list Z -> Prop) :
  (i < length l)%nat -> Q (<[i := x]> l) -> safe (write l i x) Q.
Proof. intros Hi HQ. unfold write. by rewrite (proj2 (Nat.ltb_lt _ _) Hi). Qed.

(** Read or write, then go on. *)
Lemma safe_read_then {A} l i (k : Z -> run A) Q :
  (i < length l)%nat -> safe (k (cell l i)) Q -> safe (read l i ≫= k) Q.
Proof. intros. eapply safe_bind; [by apply (safe_read _ _ (eq (cell l i)))|]. by intros ? <-. Qed.

Lemma safe_write_then {A} l i x (k : list Z -> run A) Q :
  (i < length l)%nat -> safe (k (<[i := x]> l)) Q -> safe (write l i x ≫= k) Q.
Proof. intros. eapply safe_bind; [by apply (safe_write _ _ _ (eq (<[i := x]> l)))|]. by intros ? <-. Qed.

(** ** Powers of the base and sums of digits *)

Definition bpow (n : nat) : Z := BASE ^ Z.of_nat n.

Lemma bpow_0 : bpow 0 = 1.
Proof. reflexivity. Qed.

Lemma bpow_S n : bpow (S n) = BASE * bpow n.
Proof. unfold bpow. rewrite Nat2Z.inj_succ, Z.pow_succ_r by lia. done. Qed.

Lemma bpow_pos n : 0 < bpow n.
Proof. unfold bpow. apply Z.pow_pos_nonneg; [rewrite BASE_eq|]; lia. Qed.

Lemma bpow_add m n : bpow (m + n) = bpow m * bpow n.
Proof. unfold bpow. rewrite Nat2Z.inj_add, Z.pow_add_r by lia. done. Qed.

Fixpoint nsum (n : nat) (f : nat -> Z) : Z :=
  match n with O => 0 | S n => nsum n f + f n * bpow n end.

Definition num (l : list Z) (off n : nat) : Z := nsum n (fun i => cell l (off + i)).

Lemma nsum_ext n f g : (forall i, (i < n)%nat -> f i = g i) -> nsum n f = nsum n g.
Proof. induction n as [|n IH]; simpl; [done|]. intros H. rewrite H, IH by auto with lia. done. Qed.

Lemma nsum_bounds n f : (forall i, (i < n)%nat -> 0 <= f i < BASE) -> 0 <= nsum n f < bpow n.
Proof.
  induction n as [|n IH]; simpl; intros H; [rewrite bpow_0; lia|].
  rewrite bpow_S. specialize (IH ltac:(auto with lia)). specialize (H n ltac:(lia)).
  pose proof (bpow_pos n). nia.
Qed.

Lemma nsum_zero n f : (forall i, (i < n)%nat -> f i = 0) -> nsum n f = 0.
Proof. induction n as [|n IH]; simpl; intros H; [done|]. rewrite IH, H by auto with lia. lia. Qed.

Lemma nsum_split m n f : nsum (m + n) f = nsum m f + bpow m * nsum n (fun i => f (m + i)%nat).
Proof.
  induction n as [|n IH]; simpl; [rewrite Nat.add_0_r; lia|].
  rewrite Nat.add_succ_r. simpl. rewrite IH, bpow_add. lia.
Qed.

Lemma nsum_low n f : nsum (S n) f = f O + BASE * nsum n (fun i => f (S i)).
Proof. rewrite (nsum_split 1 n). simpl. rewrite bpow_0, bpow_S, bpow_0. simpl. lia. Qed.

Lemma nsum_mul n f k : nsum n (fun i => f i * k) = nsum n f * k.
Proof. induction n as [|n IH]; simpl; [done|]. rewrite IH. lia. Qed.

Lemma num_S l off n : num l off (S n) = num l off n + cell l (off + n) * bpow n.
Proof. reflexivity. Qed.

Lemma num_0 l off : num l off 0 = 0.
Proof. reflexivity. Qed.

Lemma num_low l off n : num l off (S n) = cell l off + BASE * num l (S off) n.
Proof.
  unfold num. rewrite nsum_low, Nat.add_0_r. do 2 f_equal. apply nsum_ext. intros. f_equal. lia.
Qed.

Lemma num_split l off m n : num l off (m + n) = num l off m + bpow m * num l (off + m) n.
Proof.
  unfold num. rewrite nsum_split. do 2 f_equal. apply nsum_ext. intros. f_equal. lia.
Qed.

Lemma num_bounds l off n : digits l -> 0 <= num l off n < bpow n.
Proof. intros. apply nsum_bounds. intros. by apply digits_cell. Qed.

Lemma num_ext l l' off off' n :
  (forall i, (i < n)%nat -> cell l (off + i) = cell l' (off' + i)) -> num l off n = num l' off' n.
Proof. apply nsum_ext. Qed.

Lemma num_insert_out l off n i x : (i < off \/ off + n <= i)%nat -> num (<[i := x]> l) off n = num l off n.
Proof. intros. apply num_ext. intros. apply cell_insert_ne. lia. Qed.

Lemma num_insert l off n i x : (off + i < length l)%nat -> (i < n)%nat ->
  num (<[(off + i)%nat := x]> l) off n = num l off n + (x - cell l (off + i)) * bpow i.
Proof.
  intros Hl. induction n as [|n IH]; intros Hi; [lia|]. rewrite !num_S.
  destruct (decide (i = n)) as [->|].
  - rewrite num_insert_out, cell_insert by lia. lia.
  - rewrite IH, cell_insert_ne by lia. lia.
Qed.

(** The cells outside of [off, off + n) are left alone. *)
Definition frame (off n : nat) (l l' : list Z) : Prop :=
  length l' = length l /\ forall i, (i < off \/ off + n <= i)%nat -> cell l' i = cell l i.

Lemma frame_refl off n l : frame off n l l.
Proof. done. Qed.

Lemma frame_insert off n i x l l' : frame off n l l' -> (off <= i < off + n)%nat ->
  frame off n l (<[i := x]> l').
Proof.
  intros [Hlen Hf] Hi. split; [by rewrite length_insert|].
  intros j Hj. rewrite cell_insert_ne by lia. auto.
Qed.

Lemma frame_mono off n off' n' l l' : frame off n l l' -> (off' <= off)%nat -> (off + n <= off' + n')%nat ->
  frame off' n' l l'.
Proof. intros [Hlen Hf] H1 H2. split; [done|]. intros. apply Hf. lia. Qed.

Lemma frame_trans off n l1 l2 l3 : frame off n l1 l2 -> frame off n l2 l3 -> frame off n l1 l3.
Proof. intros [H1 H2] [H3 H4]. split; [congruence|]. intros. rewrite H4, H2 by done. done. Qed.

Lemma frame_num off n l l' off' n' : frame off n l l' -> (off' + n' <= off \/ off + n <= off')%nat ->
  num l' off' n' = num l off' n'.
Proof. intros [_ Hf] H. apply num_ext. intros. apply Hf. lia. Qed.

(** ** Machine arithmetic *)

Lemma w32_bounds x : 0 <= w32 x < BASE.
Proof. by apply Z.mod_pos_bound. Qed.

Lemma w32_small x : 0 <= x < BASE -> w32 x = x.
Proof. apply Z.mod_small. Qed.

Lemma w64_small x : 0 <= x < BASE * BASE -> w64 x = x.
Proof. intros. apply Z.mod_small. change (2 ^ 64) with (BASE * BASE). done. Qed.

Lemma b2z_01 b : 0 <= Z.b2z b <= 1.
Proof. destruct b; simpl; lia. Qed.

(** One column of the addition: the two comparisons recover the carry. *)
Lemma add_column x y k : 0 <= x < BASE -> 0 <= y < BASE -> 0 <= k <= 1 ->
  let r := w32 (x + y) in let z := w32 (r + k) in
  z + BASE * Z.b2z ((r <? x) || (z <? r)) = x + y + k.
Proof.
  intros Hx Hy Hk r z. pose proof BASE_eq as HB.
  assert (Hr : r = x + y \/ r = x + y - BASE /\ BASE <= x + y).
  { destruct (Z_lt_le_dec (x + y) BASE); [left; apply w32_small; lia|right]. split; [|done].
    unfold r, w32. change (2 ^ 32) with BASE. symmetry. apply (Z.mod_unique_pos _ _ 1); lia. }
  assert (Hr0 : 0 <= r < BASE) by apply w32_bounds.
  assert (Hz : z = r + k \/ z = r + k - BASE /\ BASE <= r + k).
  { destruct (Z_lt_le_dec (r + k) BASE); [left; apply w32_small; lia|right]. split; [|done].
    unfold z, w32. change (2 ^ 32) with BASE. symmetry. apply (Z.mod_unique_pos _ _ 1); lia. }
  clearbody r z. destruct (Z.ltb_spec r x), (Z.ltb_spec z r); simpl; lia.
Qed.

Lemma sub_column x y k : 0 <= x < BASE -> 0 <= y < BASE -> 0 <= k <= 1 ->
  let r := w32 (x - y) in let z := w32 (r - k) in
  z - BASE * Z.b2z ((x <? r) || (r <? z)) = x - y - k.
Proof.
  intros Hx Hy Hk r z. pose proof BASE_eq as HB.
  assert (Hr : r = x - y \/ r = x - y + BASE /\ x < y).
  { destruct (Z_lt_le_dec x y); [right|left; apply w32_small; lia]. split; [|done].
    unfold r, w32. change (2 ^ 32) with BASE. symmetry. apply (Z.mod_unique_pos _ _ (-1)); lia. }
  assert (Hr0 : 0 <= r < BASE) by apply w32_bounds.
  assert (Hz : z = r - k \/ z = r - k + BASE /\ r < k).
  { destruct (Z_lt_le_dec r k); [right|left; apply w32_small; lia]. split; [|done].
    unfold z, w32. change (2 ^ 32) with BASE. symmetry. apply (Z.mod_unique_pos _ _ (-1)); lia. }
  clearbody r z. destruct (Z.ltb_spec x r), (Z.ltb_spec r z); simpl; lia.
Qed.

(** ** Arguments *)

(** The digit [digit_at] reads, in the array as it was on entry. *)
Definition src_digit (a : source) (lng : nat) (c : list Z) (off i : nat) : Z :=
  if (i <? lng)%nat then match a with Buf l o => cell l (o + i) | Dest => cell c (off + i) end else 0.

Definition src_num (a : source) (lng : nat) (c : list Z) (off n : nat) : Z :=
  nsum n (src_digit a lng c off).

Definition src_ok (a : source) (lng : nat) (c : list Z) (off : nat) : Prop :=
  match a with
  | Buf l o => digits l /\ (o + lng <= length l)%nat
  | Dest => digits c /\ (off + lng <= length c)%nat
  end.

Lemma src_digit_bounds a lng c off i : src_ok a lng c off -> 0 <= src_digit a lng c off i < BASE.
Proof.
  unfold src_digit. destruct (i <? lng)%nat; [|rewrite BASE_eq; lia].
  destruct a; intros [H _]; by apply digits_cell.
Qed.

Lemma src_num_bounds a lng c off n : src_ok a lng c off -> 0 <= src_num a lng c off n < bpow n.
Proof. intros. apply nsum_bounds. intros. by apply src_digit_bounds. Qed.

Lemma src_num_ge a lng c off n : (lng <= n)%nat -> src_num a lng c off n = src_num a lng c off lng.
Proof.
  intros. unfold src_num. replace n with (lng + (n - lng))%nat at 1 by lia. rewrite nsum_split.
  rewrite (nsum_zero (n - lng)); [lia|]. intros i _. unfold src_digit.
  by rewrite (proj2 (Nat.ltb_ge _ _)) by lia.
Qed.

Lemma src_num_buf l o lng c off : src_num (Buf l o) lng c off lng = num l o lng.
Proof. apply nsum_ext. intros i Hi. unfold src_digit. by rewrite (proj2 (Nat.ltb_lt _ _) Hi). Qed.

Lemma src_num_dest lng c off : src_num Dest lng c off lng = num c off lng.
Proof. apply nsum_ext. intros i Hi. unfold src_digit. by rewrite (proj2 (Nat.ltb_lt _ _) Hi). Qed.

(** A destination written below [off + j] still yields the digit [j]. *)
Lemma safe_digit_at {A} a lng c c' off j (k : Z -> run A) Q :
  src_ok a lng c off -> length c' = length c ->
  (forall i, (off + j <= i)%nat -> cell c' i = cell c i) ->
  safe (k (src_digit a lng c off j)) Q -> safe (digit_at a lng c' off j ≫= k) Q.
Proof.
  intros Ha Hlen Hc Hk. unfold digit_at, src_digit in *.
  destruct (Nat.ltb_spec j lng); [|done].
  destruct a as [l o|]; destruct Ha as [_ Ha]; apply safe_read_then; try lia; [done|].
  by rewrite Hc by lia.
Qed.

(** ** Comparison *)

Lemma compare_loop_ok a lnga b lngb n :
  src_ok (Buf a 0) lnga [] 0 -> src_ok (Buf b 0) lngb [] 0 ->
  safe (compare_loop n a lnga b lngb)
    (fun r => r = Z.sgn (src_num (Buf a 0) lnga [] 0 n - src_num (Buf b 0) lngb [] 0 n)).
Proof.
  intros Ha Hb. induction n as [|n IH]; simpl; [done|].
  apply (safe_digit_at _ _ []); [done..|]. apply (safe_digit_at _ _ []); [done..|].
  unfold src_num in *. simpl.
  pose proof (src_num_bounds _ _ _ _ n Ha) as HA. pose proof (src_num_bounds _ _ _ _ n Hb) as HB.
  unfold src_num in *. set (x := src_digit (Buf a 0) lnga [] 0 n) in *.
  set (y := src_digit (Buf b 0) lngb [] 0 n) in *. pose proof (bpow_pos n).
  destruct (Z.ltb_spec y x); simpl; [symmetry; apply Z.sgn_pos_iff; nia|].
  destruct (Z.ltb_spec x y); simpl; [symmetry; apply Z.sgn_neg_iff; nia|].
  eapply safe_mono; [exact IH|]. intros r ->. replace y with x by lia. f_equal. lia.
Qed.

Lemma buf_ok l lng c off : digits l -> (lng <= length l)%nat -> src_ok (Buf l 0) lng c off.
Proof. done. Qed.

Lemma compare_ok a lnga b lngb :
  digits a -> (lnga <= length a)%nat -> digits b -> (lngb <= length b)%nat ->
  safe (compare a lnga b lngb) (fun r => r = Z.sgn (num a 0 lnga - num b 0 lngb)).
Proof.
  intros. eapply safe_mono; [apply compare_loop_ok; by apply buf_ok|]. intros r ->.
  by rewrite !(src_num_ge _ _ _ _ (Nat.max lnga lngb)), !src_num_buf by lia.
Qed.

(** ** Addition and subtraction

    Both loops keep the same invariant, up to the sign of the carry. *)

Section Columns.
Context (a : source) (lnga : nat) (b : source) (lngb : nat) (c : list Z) (off : nat).
Context (Ha : src_ok a lnga c off) (Hb : src_ok b lngb c off) (Hc : digits c).

(** [sgn] is 1 for the addition and -1 for the subtraction. *)
Definition columns (sgn : Z) (j : nat) : list Z * Z -> Prop := fun '(c', k) =>
  digits c' /\ frame off j c c' /\ 0 <= k <= 1
  /\ num c' off j + sgn * k * bpow j
     = src_num a lnga c off j + sgn * src_num b lngb c off j.

Lemma columns_start sgn : columns sgn 0 (c, 0).
Proof. unfold columns. split_and!; [done|done|lia..|]. unfold src_num. simpl. rewrite num_0. lia. Qed.

Lemma columns_step sgn j c' k z k' :
  (off + j < length c)%nat -> columns sgn j (c', k) -> 0 <= z < BASE -> 0 <= k' <= 1 ->
  z + sgn * BASE * k' = src_digit a lnga c off j + sgn * (src_digit b lngb c off j + k) ->
  columns sgn (S j) (<[(off + j)%nat := z]> c', k').
Proof.
  intros Hj (Hd & Hf & Hk & Hn) Hz Hk' Heq. unfold columns. split_and!; try lia.
  - by apply digits_insert.
  - apply frame_insert; [|lia]. eapply frame_mono; [exact Hf|lia|lia].
  - rewrite num_S, num_insert_out by lia. rewrite cell_insert by (destruct Hf; lia).
    unfold src_num in *. simpl. rewrite bpow_S. pose proof (bpow_pos j). nia.
Qed.

Lemma columns_read {A} sgn j c' k (f : Z -> Z -> run A) Q :
  columns sgn j (c', k) ->
  safe (f (src_digit a lnga c off j) (src_digit b lngb c off j)) Q ->
  safe (u_j ← digit_at a lnga c' off j; v_j ← digit_at b lngb c' off j; f u_j v_j) Q.
Proof.
  intros (Hd & [Hlen Hf] & _) HQ.
  apply (safe_digit_at _ _ c); [done|done|auto with lia|].
  apply (safe_digit_at _ _ c); [done|done|auto with lia|done].
Qed.
End Columns.

Lemma trim_ok n c off : (off + n <= length c)%nat ->
  safe (trim n c off) (fun os =>
    (os <= n)%nat /\ (0 < n -> 0 < os)%nat /\ num c off os = num c off n
    /\ ((1 < os)%nat -> cell c (off + (os - 1)) <> 0)).
Proof.
  induction n as [|[|n] IH]; intros Hn; [simpl; split_and!; auto with lia..|].
  change (trim (S (S n)) c off) with
    (x ← read c (off + S n); if x =? 0 then trim (S n) c off else Val (S (S n))).
  apply safe_read_then; [lia|]. destruct (Z.eqb_spec (cell c (off + S n)) 0) as [E|E].
  - eapply safe_mono; [apply IH; lia|]. intros os (H1 & H2 & H3 & H4).
    split_and!; [lia|lia| |done]. rewrite H3, (num_S _ _ (S n)), E. lia.
  - simpl. split_and!; [lia|lia|done|]. intros _. exact E.
Qed.

(** The sum, of one digit more than the longer argument, and the number of
    digits without leading zeros; the arguments may be the destination. *)
Lemma add_ok a lnga b lngb c off :
  src_ok a lnga c off -> src_ok b lngb c off -> digits c ->
  (off + Nat.max lnga lngb < length c)%nat ->
  safe (add a lnga b lngb c off) (fun '(c', os) =>
    let n := S (Nat.max lnga lngb) in
    digits c' /\ frame off n c c'
    /\ num c' off n = src_num a lnga c off lnga + src_num b lngb c off lngb
    /\ (0 < os <= n)%nat /\ num c' off os = num c' off n
    /\ ((1 < os)%nat -> cell c' (off + (os - 1)) <> 0)).
Proof.
  intros Ha Hb Hc Hlen. unfold add. set (len := Nat.max lnga lngb) in *.
  eapply safe_bind.
  - apply (safe_up0 (columns a lnga b lngb c off 1)); [by apply columns_start|].
    intros j [c' k] Hj HI. apply (columns_read a lnga b lngb c off Ha Hb 1 j c' k); [done|].
    pose proof HI as (_ & [Hl _] & Hk & _).
    apply safe_write_then; [lia|]. simpl.
    apply (columns_step a lnga b lngb c off 1 j c' k); [lia|done|apply w32_bounds|apply b2z_01|].
    pose proof (add_column _ _ k (src_digit_bounds a lnga c off j Ha)
      (src_digit_bounds b lngb c off j Hb) Hk) as E. cbv zeta in E. lia.
  - intros [c' k] (Hd & Hf & Hk & Hn). pose proof Hf as [Hl _].
    apply safe_write_then; [lia|]. eapply safe_bind.
    { apply (trim_ok (len + 1)). rewrite length_insert. lia. }
    intros os (H1 & H2 & H3 & H4). simpl. replace (len + 1)%nat with (S len) in * by lia.
    split_and!; try lia; try done.
    + apply digits_insert; [done|]. rewrite BASE_eq. lia.
    + apply frame_insert; [|lia]. eapply frame_mono; [exact Hf|lia|lia].
    + rewrite num_S, num_insert_out, cell_insert by lia.
      rewrite (src_num_ge a lnga c off len), (src_num_ge b lngb c off len) in Hn by lia. lia.
Qed.

(** The difference modulo the length of the longer argument, and the borrow. *)
Lemma sub_ok a lnga b lngb c off :
  src_ok a lnga c off -> src_ok b lngb c off -> digits c ->
  (off + Nat.max lnga lngb <= length c)%nat ->
  safe (sub a lnga b lngb c off) (fun '(c', k) =>
    let n := Nat.max lnga lngb in
    digits c' /\ frame off n c c' /\ 0 <= k <= 1
    /\ num c' off n - k * bpow n = src_num a lnga c off lnga - src_num b lngb c off lngb).
Proof.
  intros Ha Hb Hc Hlen. unfold sub. set (len := Nat.max lnga lngb) in *.
  eapply safe_mono.
  - apply (safe_up0 (columns a lnga b lngb c off (-1))); [by apply columns_start|].
    intros j [c' k] Hj HI. apply (columns_read a lnga b lngb c off Ha Hb (-1) j c' k); [done|].
    pose proof HI as (_ & [Hl _] & Hk & _).
    apply safe_write_then; [lia|]. simpl.
    apply (columns_step a lnga b lngb c off (-1) j c' k); [lia|done|apply w32_bounds|apply b2z_01|].
    pose proof (sub_column _ _ k (src_digit_bounds a lnga c off j Ha)
      (src_digit_bounds b lngb c off j Hb) Hk) as E. cbv zeta in E. lia.
  - intros [c' k] (Hd & Hf & Hk & Hn). split_and!; try lia; try done.
    rewrite (src_num_ge a lnga c off len), (src_num_ge b lngb c off len) in Hn by lia. lia.
Qed.

(** ** Multiplication *)

Lemma double_digit x y z k : 0 <= x < BASE -> 0 <= y < BASE -> 0 <= z < BASE -> 0 <= k < BASE ->
  w64 (w64 (w64 (x * y) + z) + k) = x * y + z + k /\ 0 <= x * y + z + k < BASE * BASE.
Proof.
  intros. assert (0 <= x * y <= (BASE - 1) * (BASE - 1)) by nia.
  rewrite (w64_small (x * y)), (w64_small (x * y + z)), w64_small by lia. lia.
Qed.

Lemma mul_row_ok a lnga v j c :
  digits a -> (lnga <= length a)%nat -> digits c -> (lnga + j < length c)%nat -> 0 <= v < BASE ->
  safe (mul_row a lnga v j c) (fun c' =>
    digits c' /\ frame 0 (S (lnga + j)) c c'
    /\ num c' 0 (S (lnga + j)) = num c 0 (lnga + j) + num a 0 lnga * v * bpow j).
Proof.
  intros Ha Hla Hc Hlc Hv. unfold mul_row. eapply safe_bind.
  - apply (safe_up0 (fun i '(c', k) => digits c' /\ frame 0 (lnga + j) c c' /\ 0 <= k < BASE
      /\ num c' 0 (lnga + j) + k * bpow (i + j)
         = num c 0 (lnga + j) + num a 0 i * v * bpow j)).
    { split_and!; [done|done|lia|rewrite BASE_eq; lia|]. rewrite num_0. lia. }
    intros i [c' k] Hi (Hd & Hf & Hk & Hn). pose proof Hf as [Hl _].
    apply safe_read_then; [lia|]. apply safe_read_then; [lia|].
    apply safe_write_then; [lia|]. simpl.
    set (u := cell a i). set (x := cell c' (i + j)).
    destruct (double_digit u v x k) as [-> Ht]; try done; try by apply digits_cell.
    set (t := u * v + x + k) in *. unfold DIGIT_BITS. rewrite Z.shiftr_div_pow2 by lia.
    change (2 ^ 32) with BASE. pose proof BASE_eq as HB.
    pose proof (Z.div_mod t BASE ltac:(lia)) as Hdm. pose proof (Z.mod_pos_bound t BASE ltac:(lia)).
    split_and!.
    + apply digits_insert; [done|apply w32_bounds].
    + apply frame_insert; [done|lia].
    + apply Z.div_pos; lia.
    + apply Z.div_lt_upper_bound; lia.
    + pose proof (num_insert c' 0 (lnga + j) (i + j) (w32 t)) as E. simpl in E.
      rewrite E by lia. fold x. change (w32 t) with (t mod BASE).
      rewrite num_S, bpow_S, (bpow_add i j) in *. simpl (0 + i)%nat. fold u. nia.
  - intros [c' k] (Hd & Hf & Hk & Hn). pose proof Hf as [Hl _].
    apply safe_write; [lia|]. rewrite (Nat.add_comm j lnga). split_and!.
    + by apply digits_insert.
    + apply frame_insert; [|lia]. eapply frame_mono; [exact Hf|lia|lia].
    + rewrite num_S, num_insert_out, cell_insert by lia. lia.
Qed.

Lemma mul_ok a lnga b lngb c :
  digits a -> (lnga <= length a)%nat -> digits b -> (lngb <= length b)%nat ->
  digits c -> (lnga + lngb <= length c)%nat ->
  safe (mul a lnga b lngb c) (fun c' =>
    digits c' /\ frame 0 (lnga + lngb) c c'
    /\ num c' 0 (lnga + lngb) = num a 0 lnga * num b 0 lngb).
Proof.
  intros Ha Hla Hb Hlb Hc Hlc. unfold mul. eapply safe_bind.
  - apply (safe_up0 (fun i c' => digits c' /\ frame 0 lnga c c' /\ num c' 0 i = 0)); [done|].
    intros i c' Hi (Hd & Hf & Hn). pose proof Hf as [Hl _]. apply safe_write; [lia|]. split_and!.
    + apply digits_insert; [done|]. rewrite BASE_eq. lia.
    + apply frame_insert; [done|lia].
    + rewrite num_S, num_insert_out, cell_insert by lia. lia.
  - intros c0 (Hd0 & Hf0 & Hn0).
    apply (safe_up0 (fun j c' => digits c' /\ frame 0 (lnga + lngb) c c'
      /\ num c' 0 (lnga + j) = num a 0 lnga * num b 0 j)).
    { rewrite Nat.add_0_r, Hn0, num_0. split_and!; [done| |lia].
      eapply frame_mono; [exact Hf0|lia|lia]. }
    intros j c' Hj (Hd & Hf & Hn). pose proof Hf as [Hl _].
    apply safe_read_then; [lia|]. rewrite Nat.add_succ_r, num_S. simpl (0 + j)%nat.
    destruct (Z.eqb_spec (cell b j) 0) as [E|E].
    + apply safe_write; [lia|]. rewrite (Nat.add_comm j lnga). split_and!.
      * apply digits_insert; [done|]. rewrite BASE_eq. lia.
      * apply frame_insert; [done|lia].
      * rewrite num_S, num_insert_out, cell_insert by lia. lia.
    + eapply safe_mono; [apply mul_row_ok; try done; [lia|by apply digits_cell]|].
      intros c2 (Hd2 & Hf2 & Hn2). split_and!; [done| |].
      * eapply frame_trans; [exact Hf|]. eapply frame_mono; [exact Hf2|lia|lia].
      * rewrite Hn2, Hn. lia.
Qed.
