(* ===== verification/MpnDiv.v ===== *)
(** * MpnDiv: long division

    Normalization shifts both operands by the leading zeros of the divisor;
    [div_1] divides by one digit, [div_n] is Knuth's algorithm D, whose
    estimate [recheck] makes is at most one too large; the remainder is shifted
    back. *)
From Stdlib Require Import ZArith Lia.
From stdpp Require Import base list.
From S2P Require Import Prelude Bits Mpn MpnFacts.
Import mpn.

Local Open Scope Z_scope.

(** ** Shifts of digits *)

Lemma half_base : BASE = 2 * MASK_FIRST.
Proof. reflexivity. Qed.

(** The two halves of a digit shifted by [d]. *)
Lemma shift_halves d x : 0 <= d < 32 -> 0 <= x < BASE ->
  w32 (Z.shiftl x d) = (x * 2 ^ d) mod BASE /\ FIRST_BITS d x = x * 2 ^ d / BASE.
Proof.
  intros Hd Hx. unfold FIRST_BITS, DIGIT_BITS. rewrite Z.shiftl_mul_pow2, Z.shiftr_div_pow2 by lia.
  split; [done|]. change BASE with (2 ^ 32). replace 32 with (d + (32 - d)) at 2 by lia.
  rewrite Z.pow_add_r, (Z.mul_comm x) by lia. by rewrite Z.div_mul_cancel_l by lia.
Qed.

Lemma mod_shifted x d : 0 <= d <= 32 -> (x * 2 ^ d) mod BASE mod 2 ^ d = 0.
Proof.
  intros Hd. change BASE with (2 ^ 32). replace 32 with (d + (32 - d)) by lia.
  rewrite Z.pow_add_r by lia. rewrite (Z.mul_comm x), Zmult_mod_distr_l, Z.mul_comm. apply Z_mod_mult.
Qed.

(** The two digits of a double digit. *)
Lemma double_word x y : 0 <= x < BASE -> 0 <= y < BASE ->
  Z.lor (w64 (Z.shiftl x DIGIT_BITS)) y = x * BASE + y.
Proof.
  intros Hx Hy. unfold DIGIT_BITS. rewrite Z.shiftl_mul_pow2 by lia. change (2 ^ 32) with BASE.
  rewrite w64_small by nia. apply (lor_add _ _ 32); [lia|done|]. apply Z_mod_mult.
Qed.

(** One digit of the left shift: the bits of its lower neighbour come in. *)
Lemma shl_digit d x y : 0 <= d < 32 -> 0 <= x < BASE -> 0 <= y < BASE ->
  Z.lor (w32 (Z.shiftl x d)) (FIRST_BITS d y) = (x * 2 ^ d) mod BASE + y * 2 ^ d / BASE
  /\ 0 <= (x * 2 ^ d) mod BASE + y * 2 ^ d / BASE < BASE.
Proof.
  intros Hd Hx Hy. destruct (shift_halves d x Hd Hx) as [-> _], (shift_halves d y Hd Hy) as [_ ->].
  assert (0 < 2 ^ d) by (apply Z.pow_pos_nonneg; lia).
  assert (Hy' : 0 <= y * 2 ^ d / BASE < 2 ^ d).
  { split; [apply Z.div_pos; [nia|rewrite BASE_eq; lia]|].
    apply Z.div_lt_upper_bound; [rewrite BASE_eq; lia|nia]. }
  split; [apply (lor_add _ _ d); [lia|done|apply mod_shifted; lia]|].
  pose proof (mod_shifted x d ltac:(lia)) as Hm.
  pose proof (Z.mod_pos_bound (x * 2 ^ d) BASE ltac:(rewrite BASE_eq; lia)) as Hb.
  set (a := (x * 2 ^ d) mod BASE) in *.
  assert (a <= BASE - 2 ^ d); [|lia].
  change BASE with (2 ^ 32) in *. replace 32 with (d + (32 - d)) in * by lia.
  rewrite Z.pow_add_r in * by lia. apply Z.mod_divide in Hm as [q Hq]; [|lia].
  assert (q < 2 ^ (32 - d)) by nia. nia.
Qed.

(** One digit of the right shift. *)
Lemma shr_digit d x y : 0 < d < 32 -> 0 <= x < BASE -> 0 <= y < BASE ->
  Z.lor (Z.shiftr x d) (w32 (Z.shiftl (LAST_BITS d y) (DIGIT_BITS - d)))
  = x / 2 ^ d + y mod 2 ^ d * 2 ^ (32 - d)
  /\ 0 <= x / 2 ^ d + y mod 2 ^ d * 2 ^ (32 - d) < BASE.
Proof.
  intros Hd Hx Hy. unfold LAST_BITS, DIGIT_BITS.
  assert (HB : BASE = 2 ^ d * 2 ^ (32 - d)) by (rewrite <- Z.pow_add_r by lia; unfold BASE; f_equal; lia).
  assert (0 < 2 ^ d) by (apply Z.pow_pos_nonneg; lia).
  assert (0 < 2 ^ (32 - d)) by (apply Z.pow_pos_nonneg; lia).
  rewrite !Z.shiftl_mul_pow2, !Z.shiftr_div_pow2 by lia. unfold w32. change (2 ^ 32) with BASE.
  replace ((y * 2 ^ (32 - d)) mod BASE / 2 ^ (32 - d)) with (y mod 2 ^ d).
  2:{ rewrite HB, Zmult_mod_distr_r. by rewrite Z.div_mul by lia. }
  pose proof (Z.mod_pos_bound y (2 ^ d) ltac:(lia)).
  assert (0 <= x / 2 ^ d < 2 ^ (32 - d)).
  { split; [apply Z.div_pos; lia|]. apply Z.div_lt_upper_bound; lia. }
  rewrite Z.mod_small by nia. split; [|nia].
  rewrite Z.lor_comm, (lor_add _ _ (32 - d)); [lia|lia|done|]. apply Z_mod_mult.
Qed.

(** ** Buffers *)

Lemma length_resize l n : length (resize l n) = n.
Proof. unfold resize. rewrite length_app, length_take, length_replicate. lia. Qed.

Lemma digits_resize l n : digits l -> digits (resize l n).
Proof.
  intros. apply Forall_app. split; [by apply Forall_take|]. apply Forall_replicate. rewrite BASE_eq. lia.
Qed.

(** [dst] takes the first [n] cells of [src]. *)
Lemma copy_ok n src dst : digits src -> digits dst -> (n <= length src)%nat -> (n <= length dst)%nat ->
  safe (copy n src dst) (fun dst' =>
    digits dst' /\ frame 0 n dst dst' /\ forall i, (i < n)%nat -> cell dst' i = cell src i).
Proof.
  intros Hs Hd Hls Hld.
  apply (safe_up0 (fun j dst' => digits dst' /\ frame 0 n dst dst'
    /\ forall i, (i < j)%nat -> cell dst' i = cell src i)); [split_and!; [done|done|lia]|].
  intros j dst' Hj (Hd' & Hf & Hc). pose proof Hf as [Hl _].
  apply safe_read_then; [lia|]. apply safe_write; [lia|]. split_and!.
  - apply digits_insert; [done|by apply digits_cell].
  - apply frame_insert; [done|lia].
  - intros i Hi. destruct (decide (i = j)) as [->|]; [apply cell_insert; lia|].
    rewrite cell_insert_ne by lia. apply Hc. lia.
Qed.

(** ** Normalization *)

Lemma leading_zeros_ok fuel top d : 0 <= d -> Z.of_nat fuel + d = 32 ->
  0 < top -> top * 2 ^ d < BASE ->
  safe (leading_zeros fuel top d) (fun d' => 0 <= d' < 32 /\ MASK_FIRST <= top * 2 ^ d' < BASE).
Proof.
  revert d. induction fuel as [|fuel IH]; intros d Hd Hf Ht Hlt; simpl.
  { replace d with 32 in Hlt by lia. unfold BASE in Hlt. lia. }
  rewrite Z.shiftl_mul_pow2 by lia.
  assert (0 < 2 ^ d) by (apply Z.pow_pos_nonneg; lia).
  rewrite w32_small by nia. set (x := top * 2 ^ d) in *.
  assert (Hx : Z.land x MASK_FIRST = Z.b2z (Z.testbit x 31) * MASK_FIRST).
  { change MASK_FIRST with (2 ^ 31). apply Z.bits_inj'. intros i Hi.
    rewrite Z.land_spec, Z.pow2_bits_eqb by lia. destruct (Z.eqb_spec 31 i) as [<-|].
    - rewrite andb_true_r. by destruct (Z.testbit x 31).
    - rewrite andb_false_r. destruct (Z.testbit x 31); cbn [Z.b2z]; [|by rewrite Z.mul_0_l, Z.bits_0].
      by rewrite Z.mul_1_l, Z.pow2_bits_false. }
  assert (Hb : Z.testbit x 31 = (MASK_FIRST <=? x)).
  { rewrite Z.testbit_eqb by lia. change (2 ^ 31) with MASK_FIRST. pose proof half_base.
    destruct (Z.leb_spec MASK_FIRST x).
    - replace (x / MASK_FIRST) with 1; [done|]. apply (Z.div_unique _ _ _ (x - MASK_FIRST)); lia.
    - rewrite Z.div_small by nia. done. }
  rewrite Hx, Hb. destruct (Z.leb_spec MASK_FIRST x) as [Hle|Hgt]; simpl.
  - split; [lia|done].
  - apply IH; try lia. rewrite Z.pow_add_r by lia. pose proof half_base. change (2 ^ 1) with 2. lia.
Qed.

(** The digits of the shifted array telescope. *)
Lemma nsum_shift n d (x : nat -> Z) :
  nsum (S n) (fun i => (x i * 2 ^ d) mod BASE + match i with O => 0 | S j => x j * 2 ^ d / BASE end)
  + bpow (S n) * (x n * 2 ^ d / BASE) = nsum (S n) x * 2 ^ d.
Proof.
  assert (HB : BASE <> 0) by done. induction n as [|n IH].
  - simpl. rewrite bpow_S, bpow_0. pose proof (Z.div_mod (x O * 2 ^ d) BASE HB). lia.
  - remember (S n) as m eqn:Hm. simpl nsum. rewrite Hm at 3. simpl.
    pose proof (Z.div_mod (x m * 2 ^ d) BASE HB). rewrite (bpow_S m). pose proof (bpow_pos m). nia.
Qed.

Lemma shift_left_ok d n src dst : 0 <= d < 32 -> (0 < n)%nat ->
  digits src -> digits dst -> (n <= length src)%nat -> (n <= length dst)%nat ->
  safe (shift_left d n src dst) (fun dst' =>
    digits dst' /\ frame 0 n dst dst'
    /\ num dst' 0 n + bpow n * FIRST_BITS d (cell src (n - 1)) = num src 0 n * 2 ^ d).
Proof.
  intros Hd Hn Hs Hdst Hls Hld. destruct n as [|n]; [lia|]. unfold shift_left.
  replace (S n - 1)%nat with n by lia.
  set (shifted i := (cell src i * 2 ^ d) mod BASE
    + match i with O => 0 | S j => cell src j * 2 ^ d / BASE end).
  eapply safe_bind.
  - apply (safe_down (fun j dst' => digits dst' /\ frame 0 (S n) dst dst'
      /\ forall i, (j < i <= n)%nat -> cell dst' i = shifted i)); [split_and!; [done|done|lia]|].
    intros j dst' Hj (Hd' & Hf & Hc). pose proof Hf as [Hl _].
    apply safe_read_then; [lia|]. apply safe_read_then; [lia|]. apply safe_write; [lia|].
    destruct (shl_digit d (cell src (S j)) (cell src j)) as [-> Hb]; [lia|by apply digits_cell..|].
    split_and!; [by apply digits_insert|apply frame_insert; [done|lia]|].
    intros i Hi. destruct (decide (i = S j)) as [->|]; [rewrite cell_insert by lia; done|].
    rewrite cell_insert_ne by lia. apply Hc. lia.
  - intros dst' (Hd' & Hf & Hc). pose proof Hf as [Hl _].
    apply safe_read_then; [lia|]. apply safe_write; [lia|].
    destruct (shift_halves d (cell src 0) Hd (digits_cell _ _ Hs)) as [-> _].
    destruct (shift_halves d (cell src n) Hd (digits_cell _ _ Hs)) as [_ ->].
    split_and!.
    + apply digits_insert; [done|]. by apply Z.mod_pos_bound.
    + apply frame_insert; [done|lia].
    + change (num src 0 (S n)) with (nsum (S n) (cell src)). rewrite <- nsum_shift. f_equal. apply nsum_ext.
      intros i Hi. simpl. destruct i as [|i]; [rewrite cell_insert by lia; lia|].
      rewrite cell_insert_ne by lia. apply Hc. lia.
Qed.

Lemma div_normalize_ok numer lnum denom lden n_numer n_denom :
  digits numer -> digits denom -> digits n_numer -> digits n_denom ->
  (0 < lden <= lnum)%nat -> (lnum <= length numer)%nat -> (lden <= length denom)%nat ->
  0 < cell denom (lden - 1) ->
  safe (div_normalize numer lnum denom lden n_numer n_denom) (fun '(d, un, vn) =>
    0 <= d < 32 /\ digits un /\ digits vn /\ length un = S lnum /\ length vn = lden
    /\ num un 0 (S lnum) = num numer 0 lnum * 2 ^ d
    /\ num vn 0 lden = num denom 0 lden * 2 ^ d
    /\ MASK_FIRST <= cell vn (lden - 1)
    /\ cell un lnum < MASK_FIRST).
Proof.
  intros Hn Hd Hun Hvn Hl Hln Hld Htop. unfold div_normalize.
  rewrite (proj2 (Nat.ltb_lt 0 lden)) by lia. eapply safe_bind.
  { apply safe_read_then; [lia|]. apply leading_zeros_ok; [lia|done|done|].
    pose proof (digits_cell denom (lden - 1) Hd). lia. }
  intros d (Hd32 & Hnorm).
  pose proof (digits_resize n_numer (lnum + 1) Hun) as Hun'.
  pose proof (digits_resize n_denom lden Hvn) as Hvn'.
  pose proof (length_resize n_numer (lnum + 1)) as Hlun.
  pose proof (length_resize n_denom lden) as Hlvn.
  set (un0 := resize n_numer (lnum + 1)) in *. set (vn0 := resize n_denom lden) in *.
  pose proof half_base as HB.
  destruct (Z.eqb_spec d 0) as [->|Hd0].
  - apply safe_write_then; [lia|]. eapply safe_bind.
    { apply (copy_ok lnum numer); [done| |done|rewrite length_insert; lia].
      apply digits_insert; [done|]. rewrite BASE_eq. lia. }
    intros un (Hdu & [Hlu Hfu] & Hcu). eapply safe_bind; [apply (copy_ok lden denom); done || lia|].
    intros vn (Hdv & [Hlv Hfv] & Hcv). rewrite length_insert in Hlu. simpl.
    assert (Etop : cell un lnum = 0) by (rewrite Hfu by lia; apply cell_insert; lia).
    rewrite !Z.mul_1_r, num_S. simpl (0 + lnum)%nat. rewrite Etop. split_and!; try done; try lia.
    + rewrite (num_ext un numer 0 0 lnum) by exact Hcu. lia.
    + by apply num_ext.
    + rewrite Hcv by lia. change (2 ^ 0) with 1 in Hnorm. lia.
  - rewrite (proj2 (Nat.eqb_neq lnum 0)) by lia. simpl negb. cbv iota.
    apply safe_read_then; [lia|]. apply safe_write_then; [lia|].
    assert (Hfb : 0 <= FIRST_BITS d (cell numer (lnum - 1)) < MASK_FIRST).
    { unfold FIRST_BITS, DIGIT_BITS. rewrite Z.shiftr_div_pow2 by lia.
      pose proof (digits_cell numer (lnum - 1) Hn).
      assert (0 < 2 ^ (32 - d)) by (apply Z.pow_pos_nonneg; lia).
      split; [apply Z.div_pos; lia|]. apply Z.div_lt_upper_bound; [done|].
      assert (2 ^ 1 <= 2 ^ (32 - d)) by (apply Z.pow_le_mono_r; lia). nia. }
    eapply safe_bind.
    { apply (shift_left_ok d lnum numer); [done|lia|done| |done|rewrite length_insert; lia].
      apply digits_insert; [done|]. lia. }
    intros un (Hdu & [Hlu Hfu] & Hnu). rewrite length_insert in Hlu.
    eapply safe_bind; [apply (shift_left_ok d lden denom); done || lia|].
    intros vn (Hdv & [Hlv Hfv] & Hnv). simpl.
    assert (Etop : cell un lnum = FIRST_BITS d (cell numer (lnum - 1)))
      by (rewrite Hfu by lia; apply cell_insert; lia).
    assert (Hz : FIRST_BITS d (cell denom (lden - 1)) = 0).
    { destruct (shift_halves d (cell denom (lden - 1)) Hd32 (digits_cell _ _ Hd)) as [_ ->].
      apply Z.div_small. lia. }
    rewrite Hz, Z.mul_0_r, Z.add_0_r in Hnv. split_and!; try done; try lia.
    + rewrite num_S. simpl (0 + lnum)%nat. rewrite Etop. lia.
    + (* the top digit of the divisor *)
      destruct lden as [|m]; [lia|]. replace (S m - 1)%nat with m in * by lia.
      rewrite num_S in Hnv. rewrite (num_S denom) in Hnv. simpl (0 + m)%nat in Hnv.
      pose proof (num_bounds vn 0 m Hdv). pose proof (num_bounds denom 0 m Hd).
      pose proof (bpow_pos m). assert (0 < 2 ^ d) by (apply Z.pow_pos_nonneg; lia).
      destruct (Z_lt_le_dec (cell vn m) MASK_FIRST); [|done].
      assert ((cell vn m + 1) * bpow m <= cell denom m * 2 ^ d * bpow m) by nia. nia.
Qed.

(** ** Shifting the remainder back *)

Lemma nsum_unshift n d (x : nat -> Z) : 0 < d < 32 ->
  nsum n (fun i => x i / 2 ^ d + x (S i) mod 2 ^ d * 2 ^ (32 - d)) * 2 ^ d
  = nsum n x + x n mod 2 ^ d * bpow n - x O mod 2 ^ d.
Proof.
  intros Hd. assert (HB : BASE = 2 ^ d * 2 ^ (32 - d)) by (rewrite <- Z.pow_add_r by lia; unfold BASE; f_equal; lia).
  assert (0 < 2 ^ d) by (apply Z.pow_pos_nonneg; lia).
  induction n as [|n IH]; simpl; [rewrite bpow_0; lia|].
  rewrite Z.mul_add_distr_r, IH, bpow_S, HB. pose proof (Z.div_mod (x n) (2 ^ d) ltac:(lia)). nia.
Qed.

Lemma div_unnormalize_ok numer denom d rem r :
  digits numer -> digits rem -> 0 <= d < 32 -> (0 < length denom)%nat ->
  (length denom <= length numer)%nat -> (length denom <= length rem)%nat ->
  num numer 0 (length denom) = r * 2 ^ d ->
  safe (div_unnormalize numer denom d rem) (fun rem' =>
    digits rem' /\ frame 0 (length denom) rem rem' /\ num rem' 0 (length denom) = r).
Proof.
  intros Hn Hr Hd Hlen Hln Hlr Hnum. unfold div_unnormalize. set (n := length denom) in *.
  destruct (Z.eqb_spec d 0) as [->|Hd0].
  { eapply safe_mono; [by apply copy_ok|]. intros rem' (Hd' & Hf & Hc). split_and!; [done|done|].
    rewrite (num_ext rem' numer 0 0 n) by exact Hc. rewrite Hnum, Z.mul_1_r. done. }
  set (unshifted i := cell numer i / 2 ^ d + cell numer (S i) mod 2 ^ d * 2 ^ (32 - d)).
  assert (0 < 2 ^ d) by (apply Z.pow_pos_nonneg; lia).
  eapply safe_bind.
  - apply (safe_up0 (fun j rem' => digits rem' /\ frame 0 n rem rem'
      /\ forall i, (i < j)%nat -> cell rem' i = unshifted i)); [split_and!; [done|done|lia]|].
    intros j rem' Hj (Hd' & Hf & Hc). pose proof Hf as [Hl _].
    apply safe_read_then; [lia|]. apply safe_read_then; [lia|]. apply safe_write; [lia|].
    destruct (shr_digit d (cell numer j) (cell numer (S j))) as [-> Hb]; [lia|by apply digits_cell..|].
    split_and!; [by apply digits_insert|apply frame_insert; [done|lia]|].
    intros i Hi. destruct (decide (i = j)) as [->|]; [rewrite cell_insert by lia; done|].
    rewrite cell_insert_ne by lia. apply Hc. lia.
  - intros rem' (Hd' & Hf & Hc). pose proof Hf as [Hl _].
    apply safe_read_then; [lia|]. apply safe_write; [lia|].
    rewrite Z.shiftr_div_pow2 by lia. pose proof (digits_cell numer (n - 1) Hn) as Hx.
    assert (Hq : 0 <= cell numer (n - 1) / 2 ^ d < BASE).
    { split; [apply Z.div_pos; lia|]. apply Z.div_lt_upper_bound; nia. }
    split_and!; [by apply digits_insert|apply frame_insert; [done|lia]|].
    destruct n as [|m] eqn:Em; [lia|]. replace (S m - 1)%nat with m in * by lia.
    rewrite num_S, num_insert_out, cell_insert by lia.
    rewrite num_S in Hnum. simpl (0 + m)%nat in Hnum.
    assert (E : num rem' 0 m = nsum m unshifted) by (apply nsum_ext; auto).
    rewrite E. pose proof (nsum_unshift m d (cell numer) ltac:(lia)) as Hs. fold unshifted in Hs.
    change (nsum m (cell numer)) with (num numer 0 m) in Hs.
    pose proof (Z.div_mod (cell numer m) (2 ^ d) ltac:(lia)) as Hdm.
    pose proof (Z.mod_pos_bound (cell numer 0) (2 ^ d) ltac:(lia)) as Hm0.
    assert (Hmul : (nsum m unshifted + cell numer m / 2 ^ d * bpow m) * 2 ^ d
      = r * 2 ^ d - cell numer 0 mod 2 ^ d) by nia.
    revert Hmul Hm0. simpl (0 + m)%nat. generalize (cell numer 0 mod 2 ^ d) (nsum m unshifted + cell numer m / 2 ^ d * bpow m).
    intros r0 q Hmul Hr0. destruct (Z.lt_trichotomy q r) as [|[|]]; [nia|done|nia].
Qed.

(** ** Division by one digit *)

Lemma div_1_step x y v : 0 <= x < v -> 0 <= y < BASE -> v < BASE ->
  let temp := x * BASE + y in
  (BASE <=? temp / v) = false /\ w64 (temp - w64 (temp / v * v)) = temp mod v
  /\ 0 <= temp / v < BASE /\ 0 <= temp mod v < v.
Proof.
  intros Hx Hy Hv temp.
  pose proof (Z.div_mod temp v ltac:(lia)) as Hdm. pose proof (Z.mod_pos_bound temp v ltac:(lia)) as Hm.
  assert (Hq : 0 <= temp / v < BASE).
  { unfold temp. split; [apply Z.div_pos; nia|]. apply Z.div_lt_upper_bound; nia. }
  assert (0 <= temp / v * v <= temp) by nia. assert (temp < BASE * BASE) by (unfold temp; nia).
  rewrite (w64_small (temp / v * v)) by lia. rewrite w64_small by lia.
  split_and!; try lia.
Qed.

(** The quotient digits, and the remainder in the lowest digit. *)
Lemma div_1_ok numer v quot m :
  digits numer -> digits quot -> length numer = S m -> (m <= length quot)%nat ->
  0 < v < BASE -> cell numer m < v ->
  safe (div_1 numer v quot) (fun '(numer', quot') =>
    digits numer' /\ digits quot' /\ length numer' = S m /\ frame 0 m quot quot'
    /\ num numer 0 (S m) = num quot' 0 m * v + cell numer' 0 /\ cell numer' 0 < v).
Proof.
  intros Hn Hq Hln Hlq Hv Htop. unfold div_1. replace (length numer - 1)%nat with m by lia.
  pose proof BASE_eq as HB.
  eapply safe_mono.
  - apply (safe_down (fun j '(numer', quot') => digits numer' /\ digits quot'
      /\ length numer' = S m /\ frame 0 m quot quot' /\ cell numer' j < v
      /\ (forall i, (i < j)%nat -> cell numer' i = cell numer i)
      /\ num numer j (S m - j) = num quot' j (m - j) * v + cell numer' j)).
    { split_and!; try done. replace (S m - m)%nat with 1%nat by lia. rewrite Nat.sub_diag, num_low, !num_0. lia. }
    intros j [numer' quot'] Hj (Hn' & Hq' & Hln' & Hfq & Hlt & Hlow & Hnum). pose proof Hfq as [Hlq' _].
    apply safe_read_then; [lia|]. apply safe_read_then; [lia|].
    pose proof (digits_cell numer' (S j) Hn') as Hx. pose proof (digits_cell numer' j Hn') as Hy.
    rewrite double_word by done. set (x := cell numer' (S j)) in *. set (y := cell numer' j) in *.
    destruct (div_1_step x y v) as (-> & -> & Hqb & Hrb); [lia|done|lia|].
    set (t := x * BASE + y) in *. pose proof (Z.div_mod t v ltac:(lia)) as Hdm.
    rewrite (w32_small (t mod v)), (w32_small (t / v)) by lia.
    apply safe_write_then; [lia|]. apply safe_write_then; [rewrite length_insert; lia|].
    apply safe_write_then; [lia|].
    assert (t mod v <= t) by (apply Z.mod_le; [unfold t; nia|lia]).
    rewrite (proj2 (Z.ltb_ge _ _)) by lia. simpl.
    rewrite cell_insert_ne, cell_insert by lia.
    assert (Hh : w32 (Z.shiftr (t mod v) DIGIT_BITS) = 0).
    { unfold DIGIT_BITS. rewrite Z.shiftr_div_pow2 by lia. change (2 ^ 32) with BASE.
      by rewrite Z.div_small by lia. }
    rewrite Hh. split_and!.
    + apply digits_insert; [|lia]. apply digits_insert; [done|lia].
    + by apply digits_insert.
    + by rewrite !length_insert.
    + apply frame_insert; [done|lia].
    + lia.
    + intros i Hi. rewrite !cell_insert_ne by lia. apply Hlow. lia.
    + replace (S m - j)%nat with (S (S m - S j)) by lia. replace (m - j)%nat with (S (m - S j)) by lia.
      rewrite !num_low, Hnum, cell_insert, num_insert_out by lia.
      assert (cell numer j = y) as -> by (symmetry; apply Hlow; lia). fold x. unfold t in Hdm at 1. lia.
  - intros [numer' quot'] (Hn' & Hq' & Hln' & Hfq & Hlt & _ & Hnum). rewrite !Nat.sub_0_r in Hnum.
    split_and!; done.
Qed.

(** ** The estimate of a quotient digit *)

(** [u] and [v] are known by their two leading digits and the rest:
    [v = (v1 * BASE + v2) * p + vl], [u = (x * BASE + u0) * p + ul]. *)
Section Estimate.
Context (x v1 v2 u0 p ul vl : Z).
Context (Hv2 : 0 <= v2 < BASE) (Hu0 : 0 <= u0 < BASE) (Hul : 0 <= ul < p) (Hvl : 0 <= vl < p).
Context (Hv1 : MASK_FIRST <= v1 < BASE).

Let v := (v1 * BASE + v2) * p + vl.
Let u := (x * BASE + u0) * p + ul.

(** An estimate the test rejects is above the digit. *)
Lemma estimate_high q r : q * v1 + r = x -> 0 <= q -> r * BASE + u0 < q * v2 -> u < q * v.
Proof.
  intros Hx Hq Ht. unfold u, v.
  assert ((x * BASE + u0 + 1) * p <= q * (v1 * BASE + v2) * p) by nia. nia.
Qed.

(** One it accepts is at most one too large. *)
Lemma estimate_low q r : q * v1 + r = x -> 0 <= q < BASE -> q * v2 <= r * BASE + u0 -> q * v < u + v.
Proof.
  intros Hx Hq Ht. unfold u, v. pose proof half_base.
  assert (q * (v1 * BASE + v2) * p <= (x * BASE + u0) * p) by nia.
  assert (q * vl <= (BASE - 1) * p) by nia.
  assert (BASE * p <= v1 * BASE * p) by nia. nia.
Qed.
End Estimate.

Lemma leading_pos a b p c : 0 < a -> 0 <= b -> 0 < p -> 0 <= c -> 0 < (a * BASE + b) * p + c.
Proof. intros. pose proof BASE_eq. assert (0 < a * BASE + b) by lia. nia. Qed.

(** [recheck] ends within its fuel, with the digit or its successor. *)
Lemma recheck_ok fuel numer denom i n q_hat r_hat p ul vl :
  digits numer -> digits denom -> (2 <= n <= length denom)%nat -> (2 <= i < length numer)%nat ->
  let v1 := cell denom (n - 1) in let v2 := cell denom (n - 2) in let u0 := cell numer (i - 2) in
  let x := q_hat * v1 + r_hat in
  let v := (v1 * BASE + v2) * p + vl in let u := (x * BASE + u0) * p + ul in
  MASK_FIRST <= v1 -> 0 <= ul < p -> 0 <= vl < p ->
  0 <= r_hat < BASE -> 0 <= q_hat < BASE + BASE -> x < v1 * BASE + BASE -> u < v * BASE ->
  BASE <= Z.of_nat fuel * v1 + r_hat -> u / v <= q_hat ->
  safe (recheck fuel numer denom i n q_hat r_hat) (fun q =>
    0 <= q < BASE /\ (q = u / v \/ q = u / v + 1)).
Proof.
  intros Hn Hd Hln Hi. cbv zeta. revert q_hat r_hat.
  pose proof (digits_cell denom (n - 1) Hd) as Hv1b. pose proof (digits_cell denom (n - 2) Hd) as Hv2b.
  pose proof (digits_cell numer (i - 2) Hn) as Hu0b.
  set (v1 := cell denom (n - 1)) in *. set (v2 := cell denom (n - 2)) in *.
  set (u0 := cell numer (i - 2)) in *. pose proof half_base as HBm. pose proof BASE_eq as HB.
  induction fuel as [|fuel IH]; intros q r Hv1 Hul Hvl Hr Hq Hx Hu Hfuel Hge; [lia|].
  set (x := q * v1 + r) in *. set (v := (v1 * BASE + v2) * p + vl) in *.
  set (u := (x * BASE + u0) * p + ul) in *.
  assert (HBB : BASE * BASE = 18446744073709551616) by reflexivity.
  assert (Hv : 0 < v) by (apply leading_pos; lia).
  assert (Hu0 : 0 <= u) by (unfold u, x; nia).
  pose proof (Z.div_mod u v ltac:(lia)) as Hdm. pose proof (Z.mod_pos_bound u v Hv) as Hm.
  assert (HQ : 0 <= u / v < BASE) by (split; [apply Z.div_pos; lia|apply Z.div_lt_upper_bound; lia]).
  (* an accepted estimate *)
  assert (Hexit : forall q' r', q' * v1 + r' = x -> 0 <= q' < BASE -> q' * v2 <= r' * BASE + u0 ->
    u / v <= q' -> 0 <= q' < BASE /\ (q' = u / v \/ q' = u / v + 1)).
  { intros q' r' Hx' Hq' Ht Hge'. split; [done|].
    pose proof (estimate_low x v1 v2 u0 p ul vl Hv2b Hu0b Hul Hvl (conj Hv1 (proj2 Hv1b)) q' r' Hx' Hq' Ht) as E.
    fold v u in E. assert (q' < u / v + 2) by (apply (Z.mul_lt_mono_pos_l v); lia). lia. }
  (* a rejected one *)
  assert (Hreject : u / v < q -> safe
      (let q_hat := w64 (q - 1) in
       v0 ← read denom (n - 1);
       let r_hat := w64 (r + v0) in
       if r_hat <? BASE then recheck fuel numer denom i n q_hat r_hat else Val q_hat)
      (fun q => 0 <= q < BASE /\ (q = u / v \/ q = u / v + 1))).
  { intros Hlt. cbv zeta. apply safe_read_then; [lia|]. fold v1.
    rewrite (w64_small (q - 1)), (w64_small (r + v1)) by lia.
    assert (Hx' : (q - 1) * v1 + (r + v1) = x) by (unfold x; lia).
    destruct (Z.ltb_spec (r + v1) BASE) as [Hlt'|Hge'].
    - pose proof (IH (q - 1) (r + v1)) as IH'. rewrite Hx' in IH'.
      fold v u in IH'. apply IH'; try lia; done.
    - assert (Hq1 : q - 1 < BASE) by (apply (Z.mul_lt_mono_pos_r v1); lia).
      apply (Hexit (q - 1) (r + v1)); [done|lia| |lia].
      pose proof (Z.mul_le_mono_nonneg (q - 1) BASE v2 BASE ltac:(lia) ltac:(lia) ltac:(lia) ltac:(lia)).
      pose proof (Z.mul_le_mono_nonneg_r BASE (r + v1) BASE ltac:(lia) ltac:(lia)). lia. }
  simpl. destruct (Z.leb_spec BASE q) as [Hbig|Hsmall].
  - apply Hreject. lia.
  - simpl. eapply safe_bind; [|intros b Hb; exact Hb].
    apply safe_read_then; [lia|]. apply safe_read_then; [lia|]. fold v2 u0. simpl.
    unfold DIGIT_BITS. rewrite Z.shiftl_mul_pow2 by lia. change (2 ^ 32) with BASE.
    pose proof (Z.mul_le_mono_nonneg q (BASE - 1) v2 (BASE - 1) ltac:(lia) ltac:(lia) ltac:(lia) ltac:(lia)).
    pose proof (Z.mul_nonneg_nonneg q v2 ltac:(lia) ltac:(lia)).
    pose proof (Z.mul_le_mono_nonneg_r r (BASE - 1) BASE ltac:(lia) ltac:(lia)).
    rewrite (w64_small (q * v2)), (w64_small (r * BASE)), w64_small by lia.
    destruct (Z.ltb_spec (r * BASE + u0) (q * v2)) as [Ht|Ht].
    + apply Hreject. pose proof (estimate_high x v1 v2 u0 p ul vl Hul Hvl q r eq_refl ltac:(lia) Ht) as E.
      fold v u in E. apply Z.div_lt_upper_bound; lia.
    + simpl. apply (Hexit q r); done || lia.
Qed.

(** ** One step of the long division *)

(** A number by its three leading digits, by its two. *)
Lemma num_top3 l off n : (2 <= n)%nat ->
  num l off (S n) = ((cell l (off + n) * BASE + cell l (off + n - 1)) * BASE
    + cell l (off + n - 2)) * bpow (n - 2) + num l off (n - 2).
Proof.
  intros. destruct n as [|[|n]]; try lia. rewrite !num_S, !bpow_S.
  replace (off + S (S n) - 1)%nat with (off + S n)%nat by lia.
  replace (off + S (S n) - 2)%nat with (off + n)%nat by lia. simpl. rewrite Nat.sub_0_r. lia.
Qed.

Lemma num_top2 l n : (2 <= n)%nat ->
  num l 0 n = (cell l (n - 1) * BASE + cell l (n - 2)) * bpow (n - 2) + num l 0 (n - 2).
Proof.
  intros. destruct n as [|[|n]]; try lia. rewrite !num_S, !bpow_S.
  replace (S (S n) - 1)%nat with (S n) by lia. replace (S (S n) - 2)%nat with n by lia. simpl. lia.
Qed.

(** The leading digit bounds a number. *)
Lemma num_top_bound l off n : digits l -> cell l (off + n) * bpow n <= num l off (S n) < (cell l (off + n) + 1) * bpow n.
Proof. intros Hl. rewrite num_S. pose proof (num_bounds l off n Hl). lia. Qed.

(** The leading digit of a number below [v * BASE] is at most that of [v]. *)
Lemma leading_le numer denom off m : digits numer -> digits denom ->
  num numer off (S (S m)) < num denom 0 (S m) * BASE -> cell numer (off + S m) <= cell denom m.
Proof.
  intros Hn Hd Hlt. pose proof (num_top_bound numer off (S m) Hn) as [Bu _].
  pose proof (num_top_bound denom 0 m Hd) as [_ Bv]. simpl (0 + m)%nat in Bv.
  pose proof BASE_eq as HB. pose proof (bpow_pos m). rewrite bpow_S in Bu.
  apply Z.lt_succ_r, (Z.mul_lt_mono_pos_r (BASE * bpow m)); [lia|].
  apply (Z.mul_lt_mono_pos_r BASE) in Bv; lia.
Qed.

(** The digit [recheck] is asked for. *)
Lemma quotient_digit_ok numer denom n i : digits numer -> digits denom ->
  (2 <= n)%nat -> length denom = n -> (n <= i < length numer)%nat ->
  MASK_FIRST <= cell denom (n - 1) ->
  let u := num numer (i - n) (S n) in let v := num denom 0 n in
  u < v * BASE ->
  let temp := cell numer i * BASE + cell numer (i - 1) in
  safe (recheck 3 numer denom i n (temp / cell denom (n - 1)) (temp mod cell denom (n - 1)))
    (fun q => 0 <= q < BASE /\ (q = u / v \/ q = u / v + 1)).
Proof.
  intros Hn Hd Hn2 Hld Hi Htop u v Hlt temp. pose proof half_base as HB.
  pose proof BASE_eq as HBv.
  pose proof (digits_cell denom (n - 1) Hd) as Hv1. pose proof (digits_cell numer i Hn) as Hu2.
  pose proof (digits_cell numer (i - 1) Hn) as Hu1.
  set (v1 := cell denom (n - 1)) in *.
  pose proof (Z.div_mod temp v1 ltac:(lia)) as Hdm.
  pose proof (Z.mod_pos_bound temp v1 ltac:(lia)) as Hm.
  assert (Eu : u = ((temp / v1 * v1 + temp mod v1) * BASE + cell numer (i - 2)) * bpow (n - 2)
    + num numer (i - n) (n - 2)).
  { unfold u. rewrite num_top3 by lia. replace (i - n + n)%nat with i by lia. fold temp.
    rewrite Hdm at 1. lia. }
  assert (Ev : v = (v1 * BASE + cell denom (n - 2)) * bpow (n - 2) + num denom 0 (n - 2))
    by (by apply num_top2).
  (* the leading digit of u is at most that of v *)
  assert (Hx : cell numer i <= v1).
  { destruct n as [|m]; [lia|]. pose proof (leading_le numer denom (i - S m) m Hn Hd Hlt) as E.
    replace (i - S m + S m)%nat with i in E by lia. unfold v1. by replace (S m - 1)%nat with m by lia. }
  assert (Hq : temp / v1 < BASE + BASE).
  { apply Z.div_lt_upper_bound; [lia|]. unfold temp. nia. }
  assert (Hge : u / v <= temp / v1).
  { (* the estimate from the two leading digits is never too small *)
    assert (Hv : 0 < v).
    { rewrite Ev. pose proof (num_bounds denom 0 (n - 2) Hd). pose proof (bpow_pos (n - 2)).
      pose proof (digits_cell denom (n - 2) Hd). apply leading_pos; lia. }
    apply Z.lt_succ_r, Z.div_lt_upper_bound; [done|].
    rewrite Eu, Ev. pose proof (num_bounds numer (i - n) (n - 2) Hn).
    pose proof (num_bounds denom 0 (n - 2) Hd). pose proof (bpow_pos (n - 2)).
    pose proof (digits_cell denom (n - 2) Hd). pose proof (digits_cell numer (i - 2) Hn).
    assert (0 <= temp / v1) by (apply Z.div_pos; unfold temp; lia).
    assert (temp / v1 * v1 + temp mod v1 + 1 <= Z.succ (temp / v1) * v1) by lia.
    set (q := temp / v1) in *. set (r := temp mod v1) in *.
    set (a := q * v1 + r) in *. set (b := Z.succ q * v1) in *.
    apply Z.lt_le_trans with ((a + 1) * BASE * bpow (n - 2)); [nia|].
    apply Z.le_trans with (b * BASE * bpow (n - 2)).
    - apply Z.mul_le_mono_nonneg_r; [lia|]. apply Z.mul_le_mono_nonneg_r; lia.
    - unfold b. assert (0 <= Z.succ q * (cell denom (n - 2) * bpow (n - 2) + num denom 0 (n - 2))).
      { apply Z.mul_nonneg_nonneg; [lia|]. nia. }
      lia. }
  rewrite Eu, Ev in Hlt, Hge. rewrite Eu, Ev.
  apply recheck_ok; try done; try lia.
  - apply num_bounds; done.
  - apply num_bounds; done.
  - split; [apply Z.div_pos; unfold temp|]; lia.
Qed.

(** A difference that may be one multiple of [v] below zero. *)
Lemma residue_split u v q t k P : 0 < v -> 0 <= u -> v <= P -> 0 <= t < P -> 0 <= k <= 1 ->
  q = u / v \/ q = u / v + 1 -> t - k * P = u - q * v ->
  (k = 0 /\ q = u / v /\ t = u mod v) \/ (k = 1 /\ q = u / v + 1 /\ v + t = u mod v + P).
Proof.
  intros Hv Hu HP Ht Hk Hq He. pose proof (Z.div_mod u v ltac:(lia)) as Hdm.
  pose proof (Z.mod_pos_bound u v Hv). assert (k = 0 \/ k = 1) as [->| ->] by lia.
  - left. destruct Hq as [->| ->]; lia.
  - right. destruct Hq as [->| ->]; lia.
Qed.

(** The residual [u] of [n + 1] digits becomes [u mod v], and [quot[j]] is
    [u / v]; [borrow] tells the case where the estimate was too large. *)
Lemma div_step_ok denom n j numer quot ms ab :
  digits numer -> digits denom -> digits quot -> digits ms -> digits ab ->
  (2 <= n)%nat -> length denom = n -> (j + n < length numer)%nat -> (j < length quot)%nat ->
  length ms = S n -> MASK_FIRST <= cell denom (n - 1) ->
  let u := num numer j (S n) in let v := num denom 0 n in
  u < v * BASE ->
  safe (div_step denom n j numer quot ms ab) (fun '(numer', quot', ms', ab') =>
    digits numer' /\ digits quot' /\ digits ms' /\ digits ab' /\ length ms' = S n
    /\ frame j (S n) numer numer' /\ num numer' j (S n) = u mod v
    /\ frame j 1 quot quot' /\ cell quot' j = u / v).
Proof.
  intros Hn Hd Hq Hms Hab Hn2 Hld Hj Hjq Hlms Htop u v Hlt. unfold div_step.
  pose proof half_base as HBm. pose proof BASE_eq as HB.
  assert (Hv : 0 < v).
  { unfold v. rewrite num_top2 by done. pose proof (num_bounds denom 0 (n - 2) Hd).
    pose proof (digits_cell denom (n - 2) Hd). apply leading_pos; [lia|lia|apply bpow_pos|lia]. }
  apply safe_read_then; [lia|]. apply safe_read_then; [lia|].
  rewrite double_word by (by apply digits_cell).
  apply safe_read_then; [lia|]. eapply safe_bind.
  { apply (quotient_digit_ok numer denom n (j + n)); try done; try lia.
    by replace (j + n - n)%nat with j by lia. }
  intros q_hat [Hqb Hqv]. replace (j + n - n)%nat with j in Hqv by lia. fold u v in Hqv.
  rewrite w32_small by done. eapply safe_bind.
  { apply (mul_ok [q_hat] 1 denom n ms); try done; try (simpl; lia). by apply Forall_singleton. }
  intros ms' (Hms' & [Hlms' _] & Emul). fold v in Emul.
  assert (Eq1 : num [q_hat] 0 1 = q_hat) by (unfold num, cell; simpl; rewrite bpow_0; lia).
  rewrite Eq1 in Emul. eapply safe_bind.
  { apply (sub_ok Dest (n + 1) (Buf ms' 0) (n + 1) numer j);
      [split; [done|lia]|split; [done|lia]|done|lia]. }
  intros [numer1 borrow] (Hn1 & Hf1 & Hk & Esub).
  replace (Nat.max (n + 1) (n + 1)) with (S n) in * by lia.
  rewrite src_num_dest, src_num_buf in Esub. replace (n + 1)%nat with (S n) in * by lia.
  change (1 + n)%nat with (S n) in Emul. rewrite Emul in Esub. fold u in Esub.
  pose proof (num_bounds numer j (S n) Hn) as [Hu0 _]. fold u in Hu0.
  assert (HvP : v < bpow n) by (by apply num_bounds).
  assert (HP : bpow n < bpow (S n)) by (rewrite bpow_S; pose proof (bpow_pos n); lia).
  destruct (residue_split u v q_hat _ borrow (bpow (S n)) Hv Hu0 ltac:(lia) (num_bounds numer1 j (S n) Hn1)
    Hk Hqv Esub) as [(-> & Hq' & E)|(-> & Hq' & E)].
  all: pose proof (Z.div_pos u v Hu0 Hv) as Hqnn.
  all: pose proof Hf1 as [Hl1 _]; apply safe_write_then; [lia|]; simpl negb; cbv iota.
  - simpl. split_and!; try done; try lia.
    + by apply digits_insert.
    + apply frame_insert; [done|lia].
    + rewrite cell_insert by lia. done.
  - apply safe_read_then; [rewrite length_insert; lia|]. rewrite cell_insert by lia.
    rewrite w32_small by lia. apply safe_write_then; [rewrite length_insert; lia|]. rewrite list_insert_insert_eq.
    eapply safe_bind.
    { apply (add_ok (Buf denom 0) n (Buf numer1 j) (S n) (resize ab (n + 2)) 0).
      - split; [done|lia].
      - split; [done|lia].
      - by apply digits_resize.
      - rewrite length_resize. lia. }
    intros [ab' os] (Hab' & [Hlab _] & Eadd & _). rewrite length_resize in Hlab.
    replace (Nat.max n (S n)) with (S n) in * by lia.
    rewrite !src_num_buf in Eadd. fold v in Eadd.
    assert (Elow : num ab' 0 (S n) = u mod v).
    { rewrite (num_S ab' 0 (S n)) in Eadd. pose proof (num_bounds ab' 0 (S n) Hab').
      pose proof (Z.mod_pos_bound u v Hv). assert (cell ab' (0 + S n) = 1) by nia. nia. }
    eapply safe_bind.
    { apply (safe_up0 (fun i numer2 => digits numer2 /\ frame j (S n) numer numer2
        /\ forall k, (k < i)%nat -> cell numer2 (j + k) = cell ab' (0 + k)));
        [split_and!; [done|done|lia]|].
      intros i numer2 Hi (Hd2 & Hf2 & Hc). pose proof Hf2 as [Hl2 _].
      apply safe_read_then; [lia|]. apply safe_write; [lia|]. split_and!.
      - apply digits_insert; [done|by apply digits_cell].
      - apply frame_insert; [done|lia].
      - intros k Hk'. destruct (decide (k = i)) as [->|]; [apply cell_insert; lia|].
        rewrite cell_insert_ne by lia. apply Hc. lia. }
    intros numer2 (Hd2 & Hf2 & Hc). simpl. split_and!; try done; try lia.
    + apply digits_insert; [done|lia].
    + rewrite (num_ext numer2 ab' j 0 (S n)) by done. done.
    + apply frame_insert; [done|lia].
    + rewrite cell_insert by lia. lia.
Qed.

(** ** The long division *)

Lemma drop_top l off n x : digits l -> num l off (S n) = x -> x < bpow n -> num l off n = x.
Proof.
  intros Hl <- Hx. rewrite num_S in *. pose proof (num_bounds l off n Hl).
  pose proof (digits_cell l (off + n) Hl). pose proof (bpow_pos n).
  assert (cell l (off + n) = 0) by nia. nia.
Qed.

Lemma div_n_ok numer denom quot ms ab m n :
  digits numer -> digits denom -> digits quot -> digits ms -> digits ab ->
  (2 <= n)%nat -> length denom = n -> length numer = (m + n)%nat -> (m <= length quot)%nat ->
  MASK_FIRST <= cell denom (n - 1) -> num numer m n < num denom 0 n ->
  safe (div_n numer denom quot ms ab) (fun '(numer', quot', ms', ab') =>
    digits numer' /\ digits quot' /\ digits ms' /\ digits ab'
    /\ length numer' = length numer /\ frame 0 m quot quot'
    /\ num numer 0 (m + n) = num quot' 0 m * num denom 0 n + num numer' 0 n
    /\ num numer' 0 n < num denom 0 n).
Proof.
  intros Hn Hd Hq Hms Hab Hn2 Hld Hln Hlq Htop Hlt. unfold div_n. rewrite Hld, Hln.
  replace (m + n - n)%nat with m by lia. set (v := num denom 0 n) in *.
  eapply safe_mono.
  - apply (safe_down (fun j '(numer', quot', ms', ab') =>
      digits numer' /\ digits quot' /\ digits ms' /\ digits ab' /\ length ms' = S n
      /\ length numer' = length numer /\ frame 0 m quot quot'
      /\ (forall i, (i < j)%nat -> cell numer' i = cell numer i)
      /\ num numer j (m + n - j) = num quot' j (m - j) * v + num numer' j n
      /\ num numer' j n < v)).
    { replace (m + n - m)%nat with n by lia. rewrite Nat.sub_diag, (num_0 quot), length_resize.
      split_and!; try done; try lia. by apply digits_resize. }
    intros j [[[numer' quot'] ms'] ab'] Hj
      (Hn' & Hq' & Hms' & Hab' & Hlms & Hln' & Hfq & Hlow & Hnum & HR). pose proof Hfq as [Hlq' _].
    assert (Hu : num numer' j (S n) < v * BASE).
    { rewrite num_low. pose proof (digits_cell numer' j Hn'). nia. }
    eapply safe_mono; [apply div_step_ok; done || lia|].
    intros [[[numer2 quot2] ms2] ab2] (Hn2' & Hq2 & Hms2 & Hab2 & Hlms2 & [Hl2 Hc2] & Er & [Hlq2 Hcq2] & Eq).
    fold v in Er, Eq. set (u := num numer' j (S n)) in *.
    assert (Hv : 0 < v).
    { pose proof half_base. unfold v. rewrite num_top2 by done. pose proof (num_bounds denom 0 (n - 2) Hd).
      pose proof (digits_cell denom (n - 2) Hd). pose proof (bpow_pos (n - 2)). apply leading_pos; lia || done. }
    pose proof (Z.mod_pos_bound u v Hv). pose proof (Z.div_mod u v ltac:(lia)) as Hdm.
    assert (HvP : v < bpow n) by (by apply num_bounds).
    apply drop_top in Er; [|done|lia]. rewrite Er.
    split_and!; try done; try lia.
    + split; [lia|]. intros i Hi. rewrite Hcq2 by lia. apply Hfq. lia.
    + intros i Hi. rewrite Hc2 by lia. apply Hlow. lia.
    + replace (m + n - j)%nat with (S (m + n - S j)) by lia.
      replace (m - j)%nat with (S (m - S j)) by lia. rewrite !num_low, Hnum, Eq.
      rewrite (num_ext quot2 quot' (S j) (S j)) by (intros; apply Hcq2; lia).
      unfold u in Hdm at 1. rewrite num_low, Hlow in Hdm by lia. lia.
  - intros [[[numer' quot'] ms'] ab'] (? & ? & ? & ? & _ & ? & ? & _ & Hnum & ?).
    rewrite !Nat.sub_0_r in Hnum. split_and!; done || lia.
Qed.

(** The result of a division: the lowest digits of [quot] and [rem]. *)
Definition divides (numer : list Z) (lnum : nat) (denom : list Z) (lden : nat)
    (quot rem quot' rem' : list Z) : Prop :=
  let n := num numer 0 lnum in let d := num denom 0 lden in
  frame 0 (lnum - lden + 1) quot quot' /\ frame 0 lden rem rem'
  /\ num quot' 0 (lnum - lden + 1) = n / d /\ num rem' 0 lden = n mod d.

Definition manager_ok (s : mpn_manager) : Prop :=
  digits (u s) /\ digits (v s) /\ digits (t_ms s) /\ digits (t_ab s).

Lemma all_zero_ok denom n : digits denom -> (0 < n <= length denom)%nat -> 0 < cell denom (n - 1) ->
  safe (up n 0 (fun i all_zero =>
      if (all_zero : bool) then x ← read denom i; Val (x =? 0) else Val false) true)
    (fun b => b = false).
Proof.
  intros Hd Hn Htop. eapply safe_mono.
  - apply (safe_up0 (fun j b => b = true -> forall i, (i < j)%nat -> cell denom i = 0)); [lia|].
    intros j [] Hj HI; [|done]. apply safe_read_then; [lia|]. simpl. intros E%Z.eqb_eq i Hi.
    destruct (decide (i = j)) as [->|]; [done|]. apply HI; [done|lia].
  - intros [] HI; [|done]. specialize (HI eq_refl (n - 1)%nat ltac:(lia)). lia.
Qed.

Lemma copy_rem_ok numer lnum lden rem : digits numer -> digits rem ->
  lnum = lden -> (lnum <= length numer)%nat -> (lden <= length rem)%nat ->
  safe (copy_rem numer lnum lden rem) (fun rem' =>
    digits rem' /\ frame 0 lden rem rem' /\ num rem' 0 lden = num numer 0 lden).
Proof.
  intros Hn Hr -> Hln Hlr. eapply safe_mono.
  - apply (safe_up0 (fun j rem' => digits rem' /\ frame 0 lden rem rem'
      /\ forall i, (i < j)%nat -> cell rem' i = cell numer i)); [split_and!; [done|done|lia]|].
    intros j rem' Hj (Hd' & Hf & Hc). pose proof Hf as [Hl _].
    apply (safe_digit_at _ _ []); [by split|done|done|]. unfold src_digit.
    rewrite (proj2 (Nat.ltb_lt j lden)) by lia. simpl. apply safe_write; [lia|]. split_and!.
    + apply digits_insert; [done|by apply digits_cell].
    + apply frame_insert; [done|lia].
    + intros i Hi. destruct (decide (i = j)) as [->|]; [apply cell_insert; lia|].
      rewrite cell_insert_ne by lia. apply Hc. lia.
  - intros rem' (? & ? & Hc). split_and!; [done|done|]. by apply num_ext.
Qed.

(** A number whose leading digit is not zero. *)
Lemma num_leading l n : digits l -> (0 < n)%nat -> 0 < cell l (n - 1) -> 0 < num l 0 n.
Proof.
  intros Hl Hn Ht. destruct n as [|m]; [lia|]. replace (S m - 1)%nat with m in Ht by lia.
  pose proof (num_top_bound l 0 m Hl). simpl (0 + m)%nat in *. pose proof (bpow_pos m). nia.
Qed.

(** The two paths that normalize. *)
Lemma div_long_ok un vn quot ms ab m n :
  digits un -> digits vn -> digits quot -> digits ms -> digits ab ->
  (0 < n)%nat -> length vn = n -> length un = (m + n)%nat -> (m <= length quot)%nat ->
  MASK_FIRST <= cell vn (n - 1) -> num un m n < num vn 0 n ->
  safe (if (n =? 1)%nat then
          v_0 ← read vn 0; '(un, quot) ← div_1 un v_0 quot; Val (un, quot, ms, ab)
        else div_n un vn quot ms ab)
    (fun '(un', quot', ms', ab') =>
      digits un' /\ digits quot' /\ digits ms' /\ digits ab' /\ length un' = length un
      /\ frame 0 m quot quot' /\ num un' 0 n < num vn 0 n
      /\ num un 0 (m + n) = num quot' 0 m * num vn 0 n + num un' 0 n).
Proof.
  intros Hun Hvn Hq Hms Hab Hn Hlv Hlu Hlq Htop Hlt.
  destruct (Nat.eqb_spec n 1) as [->|].
  - pose proof half_base as HB. pose proof BASE_eq as HBv. apply safe_read_then; [lia|].
    simpl (1 - 1)%nat in Htop.
    assert (E1 : forall l, num l 0 1 = cell l 0) by (intros; rewrite num_low, num_0; lia).
    rewrite E1, num_low, num_0, Z.mul_0_r, Z.add_0_r in Hlt.
    pose proof (digits_cell vn 0 Hvn). eapply safe_bind.
    { apply (div_1_ok un (cell vn 0) quot m); try done; lia. }
    intros [un' quot'] (? & ? & ? & ? & E & ?). simpl. rewrite !E1, Nat.add_1_r, E.
    split_and!; done || lia.
  - eapply safe_mono; [apply (div_n_ok un vn quot ms ab m n); done || lia|].
    intros [[[un' quot'] ms'] ab'] (? & ? & ? & ? & ? & ? & ? & ?). done.
Qed.

(** [div] is safe and exact whatever the buffers of the manager hold. *)
Lemma div_ok numer lnum denom lden quot rem s :
  digits numer -> digits denom -> digits quot -> digits rem -> manager_ok s ->
  (0 < lden <= lnum)%nat -> (lnum <= length numer)%nat -> (lden <= length denom)%nat ->
  (lnum - lden + 1 <= length quot)%nat -> (lden <= length rem)%nat ->
  0 < cell denom (lden - 1) ->
  safe (div numer lnum denom lden quot rem s) (fun '(_, quot', rem', s') =>
    manager_ok s' /\ digits quot' /\ digits rem'
    /\ divides numer lnum denom lden quot rem quot' rem').
Proof.
  intros Hn Hd Hq Hr Hs Hl Hln Hld Hlq Hlr Htop. unfold div, divides.
  rewrite (proj2 (Nat.ltb_ge _ _)) by lia.
  eapply safe_bind; [apply all_zero_ok; done || lia|]. intros b ->.
  apply safe_read_then; [lia|]. apply safe_read_then; [lia|].
  pose proof (num_leading denom lden Hd ltac:(lia) Htop) as HD.
  pose proof (digits_cell numer (lnum - 1) Hn) as Hx. pose proof BASE_eq as HB.
  destruct (Nat.eqb_spec lnum 1) as [->|Hl1].
  { assert (lden = 1%nat) as -> by lia. simpl. simpl in Htop, Hx.
    pose proof (Z.div_mod (cell numer 0) (cell denom 0) ltac:(lia)).
    pose proof (Z.mod_pos_bound (cell numer 0) (cell denom 0) Htop).
    pose proof (digits_cell denom 0 Hd).
    assert (0 <= cell numer 0 / cell denom 0 <= cell numer 0).
    { split; [apply Z.div_pos; lia|]. apply Z.div_le_upper_bound; nia. }
    apply safe_write_then; [lia|]. apply safe_write_then; [lia|]. simpl.
    assert (E1 : forall l, num l 0 1 = cell l 0) by (intros; rewrite num_low, num_0; lia).
    rewrite !E1, !cell_insert by lia. split_and!; try done.
    all: try (apply digits_insert; [done|lia]). all: apply frame_insert; [done|lia]. }
  simpl andb. cbv iota. destruct (_ && _) eqn:Eshort.
  - (* the quotient is zero *)
    apply andb_true_iff in Eshort as [->%Nat.eqb_eq Hlt%Z.ltb_lt].
    apply safe_write_then; [lia|]. eapply safe_bind; [apply copy_rem_ok; done || lia|].
    intros rem' (? & ? & E). replace (lden - lden + 1)%nat with 1%nat by lia. simpl.
    destruct lden as [|m]; [lia|]. replace (S m - 1)%nat with m in * by lia.
    pose proof (num_top_bound numer 0 m Hn) as [_ B1]. pose proof (num_top_bound denom 0 m Hd) as [B2 _].
    simpl (0 + m)%nat in *. pose proof (bpow_pos m). pose proof (num_bounds numer 0 (S m) Hn).
    assert (num numer 0 (S m) < num denom 0 (S m)) by nia.
    rewrite E, Z.div_small, Z.mod_small by lia. split_and!; try done.
    + apply digits_insert; [done|lia].
    + apply frame_insert; [done|lia].
    + rewrite num_low, num_0, cell_insert by lia. lia.
  - destruct Hs as (Hsu & Hsv & Hsm & Hsa). eapply safe_bind.
    { apply div_normalize_ok; done || lia. }
    intros [[d un] vn] (Hd32 & Hun & Hvn & Hlu & Hlv & Enum & Eden & Hnorm & Htopu).
    assert (0 < 2 ^ d) by (apply Z.pow_pos_nonneg; lia).
    eapply safe_bind.
    { apply (div_long_ok un vn quot (t_ms s) (t_ab s) (lnum - lden + 1) lden); try done; try lia.
      destruct lden as [|m]; [lia|]. replace (S m - 1)%nat with m in * by lia.
      pose proof (num_top_bound un (lnum - S m + 1) m Hun) as [_ B1].
      pose proof (num_top_bound vn 0 m Hvn) as [B2 _]. simpl (0 + m)%nat in *.
      replace (lnum - S m + 1 + m)%nat with lnum in B1 by lia. pose proof (bpow_pos m). nia. }
    intros [[[un' quot'] ms'] ab'] (Hun' & Hq' & Hms' & Hab' & Hlu' & Hfq & HR & Eq).
    replace (lnum - lden + 1 + lden)%nat with (S lnum) in Eq by lia. rewrite Enum, Eden in Eq.
    rewrite Eden in HR. set (n := num numer 0 lnum) in *. set (dd := num denom 0 lden) in *.
    set (q := num quot' 0 (lnum - lden + 1)) in *. pose proof (num_bounds un' 0 lden Hun') as [HR0 _].
    assert (Er : num un' 0 lden = (n - q * dd) * 2 ^ d) by lia.
    assert (Hrb : 0 <= n - q * dd < dd) by (rewrite Er in HR, HR0; nia).
    eapply safe_bind; [apply (div_unnormalize_ok un' vn d rem (n - q * dd)); rewrite ?Hlv; done || lia|].
    intros rem' (Hr' & Hfr & Erem). rewrite Hlv in *. simpl. split_and!; try done.
    + by apply (Z.div_unique_pos n dd q (n - q * dd)); [|lia].
    + rewrite Erem. by apply (Z.mod_unique_pos n dd q); [|lia].
Qed.
