(* ===== verification/MpnString.v ===== *)
(** * MpnString: decimal output

    [to_string] divides by ten until nothing is left, then reverses the
    characters; a number of one digit goes through [snprintf].  The text is
    the canonical decimal numeral of the value. *)
From Stdlib Require Import ZArith Lia.
From stdpp Require Import base list.
From S2P Require Import Prelude Mpn MpnFacts MpnDiv.
Import mpn.

Local Open Scope Z_scope.

(** ** Numerals *)

(** The value of a decimal numeral, read from the left. *)
Definition add_char (n c : Z) : Z := 10 * n + (c - 48).
Definition decimal_value (text : list Z) : Z := fold_left add_char text 0.

Definition is_char (c : Z) : Prop := 48 <= c <= 57.

(** Decimal characters, without a leading zero. *)
Definition canonical (text : list Z) : Prop :=
  Forall is_char text /\ text <> [] /\ (head text = Some 48 -> text = [48]).

(** ** One machine word *)

Lemma digit_char x : is_char (48 + x mod 10).
Proof. unfold is_char. pose proof (Z.mod_pos_bound x 10). lia. Qed.

Lemma print_word_value fuel x out : 0 <= x < 10 ^ Z.of_nat (S fuel) ->
  fold_left add_char (print_word (S fuel) x out) 0 = fold_left add_char out x.
Proof.
  revert x out. induction fuel as [|fuel IH]; intros x out Hx.
  - simpl. rewrite Z.div_small, Z.mod_small by (simpl in Hx; lia). simpl.
    f_equal. unfold add_char. lia.
  - rewrite Nat2Z.inj_succ, Z.pow_succ_r in Hx by lia.
    pose proof (Z.div_mod x 10 ltac:(lia)). pose proof (Z.mod_pos_bound x 10).
    change (print_word (S (S fuel)) x out) with
      (if x / 10 =? 0 then 48 + x mod 10 :: out else print_word (S fuel) (x / 10) (48 + x mod 10 :: out)).
    destruct (Z.eqb_spec (x / 10) 0).
    + simpl. f_equal. unfold add_char. lia.
    + rewrite IH by lia. simpl. f_equal. unfold add_char. lia.
Qed.

Lemma print_word_chars fuel x out : Forall is_char out -> Forall is_char (print_word fuel x out).
Proof.
  revert x out. induction fuel as [|fuel IH]; intros x out Ho; simpl; [done|].
  assert (Forall is_char (48 + x mod 10 :: out)) by (constructor; [apply digit_char|done]).
  destruct (_ =? _); auto.
Qed.

Lemma print_word_length fuel x out : (length (print_word fuel x out) <= fuel + length out)%nat.
Proof.
  revert x out. induction fuel as [|fuel IH]; intros x out; simpl; [lia|].
  destruct (_ =? _); simpl; [lia|]. etrans; [apply IH|]. simpl. lia.
Qed.

Lemma print_word_head fuel x out : 0 < x < 10 ^ Z.of_nat fuel ->
  exists c t, print_word fuel x out = c :: t /\ c <> 48.
Proof.
  revert x out. induction fuel as [|fuel IH]; intros x out Hx; [simpl in Hx; lia|].
  rewrite Nat2Z.inj_succ, Z.pow_succ_r in Hx by lia. simpl.
  pose proof (Z.div_mod x 10 ltac:(lia)). pose proof (Z.mod_pos_bound x 10).
  destruct (Z.eqb_spec (x / 10) 0); [|apply IH; lia]. eexists _, _. split; [done|]. lia.
Qed.

Lemma print_word_ok x : 0 <= x < BASE ->
  canonical (print_word 10 x []) /\ decimal_value (print_word 10 x []) = x
  /\ (length (print_word 10 x []) <= 10)%nat.
Proof.
  intros Hx. pose proof BASE_eq as HB.
  assert (H10 : 10 ^ Z.of_nat 10 = 10000000000) by reflexivity. split_and!.
  - split; [by apply print_word_chars|]. destruct (decide (x = 0)) as [->|]; [done|].
    destruct (print_word_head 10 x []) as (c & t & -> & Hc); [lia|]. split; [done|]. by intros [= ->].
  - apply (print_word_value 9). lia.
  - pose proof (print_word_length 10 x []). simpl in *. lia.
Qed.

(** The buffer holds [text], terminated. *)
Definition holds_text (text buf' buf : list Z) : Prop :=
  length buf' = length buf /\ exists rest, buf' = text ++ 0 :: rest.

Lemma snprintf_u_ok buf x : 0 <= x < BASE -> (10 < length buf)%nat ->
  safe (snprintf_u buf (length buf) x) (fun buf' => exists text,
    canonical text /\ decimal_value text = x /\ holds_text text buf' buf).
Proof.
  intros Hx Hl. pose proof (print_word_ok x Hx) as Hp. unfold snprintf_u. revert Hp.
  generalize (print_word 10 x []). intros text (Hc & Hv & Hlen). rewrite take_ge by lia. rewrite (proj2 (Nat.eqb_neq _ 0)) by lia.
  rewrite (proj2 (Nat.leb_le _ _)) by (rewrite length_app; simpl; lia).
  exists text. split_and!; [done|done|]. split.
  - rewrite !length_app, length_drop. simpl length. lia.
  - eexists. by rewrite <- app_assoc.
Qed.

(** ** Sums of characters *)

Fixpoint dsum (n : nat) (s : nat -> Z) : Z :=
  match n with O => 0 | S n => dsum n s + s n * 10 ^ Z.of_nat n end.

Lemma dsum_ext n f g : (forall i, (i < n)%nat -> f i = g i) -> dsum n f = dsum n g.
Proof. induction n as [|n IH]; simpl; [done|]. intros H. rewrite H, IH by auto with lia. done. Qed.

Lemma dsum_low n s : dsum (S n) s = s O + 10 * dsum n (fun i => s (S i)).
Proof.
  induction n as [|n IH]; [simpl; lia|]. change (dsum (S (S n)) s) with (dsum (S n) s + s (S n) * 10 ^ Z.of_nat (S n)).
  rewrite IH. rewrite Nat2Z.inj_succ, Z.pow_succ_r by lia. simpl. lia.
Qed.

(** The cells [0, n) of [l], read from the left. *)
Lemma decimal_value_take l n s : (n <= length l)%nat ->
  (forall i, (i < n)%nat -> cell l i - 48 = s (n - 1 - i)%nat) ->
  decimal_value (take n l) = dsum n s.
Proof.
  intros Hn Hs. cut (forall k, (k <= n)%nat -> decimal_value (take k l) = dsum k (fun i => s (n - k + i)%nat)).
  { intros H. rewrite (H n) by done. apply dsum_ext. intros. f_equal. lia. }
  induction k as [|k IH]; intros Hk; [done|].
  destruct (lookup_lt_is_Some_2 l k ltac:(lia)) as [c Hc].
  rewrite (take_S_r _ _ c) by done. unfold decimal_value in *. rewrite fold_left_app, IH by lia. simpl fold_left.
  unfold add_char. rewrite dsum_low. specialize (Hs k ltac:(lia)).
  unfold cell in Hs. rewrite Hc in Hs. simpl in Hs. rewrite Hs.
  rewrite Nat.add_0_r. replace (n - 1 - k)%nat with (n - S k)%nat by lia.
  rewrite (dsum_ext k (fun i => s (n - S k + S i)%nat) (fun i => s (n - k + i)%nat)); [lia|].
  intros. f_equal. lia.
Qed.

(** ** Reversal *)

Lemma reverse_ok j buf : (j < length buf)%nat ->
  safe (reverse j buf) (fun buf' => length buf' = length buf
    /\ (forall i, (i <= j)%nat -> cell buf' i = cell buf (j - i))
    /\ (forall i, (j < i)%nat -> cell buf' i = cell buf i)).
Proof.
  intros Hj. unfold reverse.
  set (mid := (j / 2 + (if (j mod 2 =? 0)%nat then 0 else 1))%nat).
  assert (Hmid : (j <= 2 * mid <= j + 1)%nat).
  { unfold mid. pose proof (Nat.div_mod_eq j 2). pose proof (Nat.mod_upper_bound j 2 ltac:(lia)).
    destruct (Nat.eqb_spec (j mod 2) 0); lia. }
  eapply safe_mono.
  - apply (safe_up0 (fun k b => length b = length buf
      /\ (forall i, (i <= j)%nat -> cell b i
            = if decide (i < k \/ j - k < i)%nat then cell buf (j - i) else cell buf i)
      /\ (forall i, (j < i)%nat -> cell b i = cell buf i))).
    { split_and!; [done| |done]. intros i Hi. rewrite decide_False by lia. done. }
    intros k b Hk (Hl & Hc & Ho).
    apply safe_read_then; [lia|]. apply safe_read_then; [lia|]. apply safe_write_then; [lia|].
    apply safe_write; [rewrite length_insert; lia|]. split_and!.
    + by rewrite !length_insert.
    + intros i Hi. rewrite !Hc by lia. rewrite !decide_False by lia.
      destruct (decide (i = j - k)%nat) as [->|].
      { rewrite cell_insert by (rewrite length_insert; lia). rewrite decide_True by lia. f_equal. lia. }
      rewrite cell_insert_ne by lia. destruct (decide (i = k)) as [->|].
      { rewrite cell_insert by lia. by rewrite decide_True by lia. }
      rewrite cell_insert_ne, Hc by lia. destruct (decide (i < k \/ j - k < i)%nat).
      * by rewrite decide_True by lia.
      * by rewrite decide_False by lia.
    + intros i Hi. rewrite !cell_insert_ne by lia. by apply Ho.
  - intros b (Hl & Hc & Ho). split_and!; [done| |done]. intros i Hi. rewrite Hc by done.
    destruct (decide _); [done|]. f_equal. lia.
Qed.

(** ** The loop of the remainders *)

Definition trimmed (temp : list Z) : Prop := temp = [] \/ cell temp (length temp - 1) <> 0.

Lemma num_take l off n k : (off + n <= k)%nat -> num (take k l) off n = num l off n.
Proof. intros. apply num_ext. intros. unfold cell. by rewrite lookup_take_lt by lia. Qed.

Lemma pop_zeros_ok n temp : digits temp -> (length temp <= n)%nat ->
  digits (pop_zeros n temp) /\ (length (pop_zeros n temp) <= length temp)%nat
  /\ num (pop_zeros n temp) 0 (length (pop_zeros n temp)) = num temp 0 (length temp)
  /\ trimmed (pop_zeros n temp).
Proof.
  revert temp. induction n as [|n IH]; intros temp Hd Hl; simpl.
  { destruct temp; [|simpl in Hl; lia]. split_and!; [done|done|done|by left]. }
  destruct (last temp) as [x|] eqn:E.
  - apply last_Some in E as [t ->]. rewrite length_app in *. simpl in Hl |- *.
    replace (length t + 1 - 1)%nat with (length t) by lia.
    assert (Ex : cell (t ++ [x]) (length t) = x) by (unfold cell; by rewrite list_lookup_middle).
    destruct (Z.eqb_spec x 0) as [->|Hx].
    + rewrite take_app_length. apply Forall_app in Hd as [Hd _].
      destruct (IH t Hd ltac:(lia)) as (H1 & H2 & H3 & H4). split_and!; [done|lia| |done].
      rewrite H3, Nat.add_1_r, num_S. simpl (0 + _)%nat. rewrite Ex, Z.mul_0_l, Z.add_0_r.
      apply num_ext. intros i Hi. unfold cell. by rewrite lookup_app_l by lia.
    + split_and!; [done|rewrite length_app; simpl; lia|rewrite length_app; done|].
      right. rewrite length_app. simpl. by replace (length t + 1 - 1)%nat with (length t) by lia; rewrite Ex.
  - apply last_None in E as ->. split_and!; [done|done|done|by left].
Qed.

Lemma trimmed_zero temp : digits temp -> trimmed temp -> num temp 0 (length temp) = 0 -> temp = [].
Proof.
  intros Hd [->|Ht] Hn; [done|]. destruct temp as [|x t]; [done|]. exfalso.
  pose proof (digits_cell (x :: t) (length (x :: t) - 1) Hd).
  pose proof (num_leading (x :: t) (length (x :: t)) Hd ltac:(simpl; lia) ltac:(lia)). lia.
Qed.

(** One division by ten: the quotient in [temp], the remainder as a character. *)
Lemma remainder_step temp t_numer t_denom :
  digits temp -> digits t_numer -> digits t_denom -> (0 < length temp)%nat ->
  let n := num temp 0 (length temp) in
  safe ('(d, t_numer, t_denom) ← div_normalize temp (length temp) [10] 1 t_numer t_denom;
        x ← read t_denom 0;
        '(t_numer, temp) ← div_1 t_numer x temp;
        rem ← div_unnormalize t_numer t_denom d [0];
        r ← read rem 0;
        Val (temp, t_numer, t_denom, r))
    (fun '(temp', t_numer', t_denom', r) =>
      digits temp' /\ digits t_numer' /\ digits t_denom' /\ length temp' = length temp
      /\ num temp' 0 (length temp) = n / 10 /\ r = n mod 10).
Proof.
  intros Hd Hn Hdn Hl n. pose proof half_base as HBm. pose proof BASE_eq as HB.
  assert (D10 : digits [10]) by (apply Forall_singleton; lia).
  eapply safe_bind; [apply (div_normalize_ok temp (length temp) [10] 1 t_numer t_denom); done || (simpl; lia)|].
  intros [[d un] vn] (Hd32 & Hun & Hvn & Hlu & Hlv & Eu & Ev & Hnorm & Htop). fold n in Eu.
  assert (E1 : forall l, num l 0 1 = cell l 0) by (intros; rewrite num_low, num_0; lia).
  rewrite !E1 in Ev. change (cell [10] 0) with 10 in Ev. simpl (1 - 1)%nat in Hnorm.
  pose proof (digits_cell vn 0 Hvn). assert (0 < 2 ^ d) by (apply Z.pow_pos_nonneg; lia).
  apply safe_read_then; [lia|]. eapply safe_bind.
  { apply (div_1_ok un (cell vn 0) temp (length temp)); try done; lia. }
  intros [un' temp'] (Hun' & Ht' & Hlu' & [Hlt' _] & Eq & Hr). rewrite Eu, Ev in Eq. rewrite Ev in Hr.
  set (q := num temp' 0 (length temp)) in *. pose proof (digits_cell un' 0 Hun').
  assert (Er : cell un' 0 = (n - q * 10) * 2 ^ d) by lia.
  assert (Hrb : 0 <= n - q * 10 < 10) by nia.
  eapply safe_bind.
  { apply (div_unnormalize_ok un' vn d [0] (n - q * 10)); rewrite ?Hlv, ?E1; try done; try (simpl; lia).
    apply Forall_singleton. lia. }
  intros rem (Hrem & [Hlr _] & Erem). rewrite Hlv, E1 in Erem. simpl in Hlr.
  apply safe_read_then; [lia|]. simpl. split_and!; try done.
  - by apply (Z.div_unique_pos n 10 q (n - q * 10)); [|lia].
  - rewrite Erem. by apply (Z.mod_unique_pos n 10 q); [|lia].
Qed.

(** The characters written so far, the least significant first, and what is
    left to print. *)
Definition printed (n0 : Z) (buf0 buf temp : list Z) (j : nat) : Prop :=
  digits temp /\ length buf = length buf0
  /\ (forall i, (i < j)%nat -> is_char (cell buf i))
  /\ n0 = dsum j (fun i => cell buf i - 48) + num temp 0 (length temp) * 10 ^ Z.of_nat j
  /\ (j = O \/ trimmed temp)
  /\ (j = O \/ num temp 0 (length temp) <> 0 \/ cell buf (j - 1) <> 48 \/ j = 1%nat).

Lemma printed_step n0 buf0 buf temp temp' j :
  printed n0 buf0 buf temp j -> digits temp' -> trimmed temp' ->
  (j < length buf)%nat -> (j = O \/ 0 < num temp 0 (length temp)) ->
  num temp' 0 (length temp') = num temp 0 (length temp) / 10 ->
  printed n0 buf0 (<[j := 48 + num temp 0 (length temp) mod 10]> buf) temp' (S j).
Proof.
  intros (Hd & Hl & Hc & Hn & _ & _) Hd' Ht' Hj Hpos Hq.
  set (m := num temp 0 (length temp)) in *.
  pose proof (Z.div_mod m 10 ltac:(lia)) as Hdm. pose proof (Z.mod_pos_bound m 10 ltac:(lia)).
  split_and!; [done|by rewrite length_insert| | |by right|].
  - intros i Hi. destruct (decide (i = j)) as [->|].
    + rewrite cell_insert by done. apply digit_char.
    + rewrite cell_insert_ne by lia. apply Hc. lia.
  - rewrite Hq. simpl dsum. rewrite cell_insert by done.
    rewrite (dsum_ext j _ (fun i => cell buf i - 48)).
    2:{ intros i Hi. by rewrite cell_insert_ne by lia. }
    rewrite Nat2Z.inj_succ, Z.pow_succ_r by lia. rewrite Hn. set (w := 10 ^ Z.of_nat j).
    rewrite Hdm at 1. lia.
  - right. replace (S j - 1)%nat with j by lia. rewrite cell_insert by done. rewrite Hq.
    destruct (decide (m / 10 = 0)) as [E|]; [right|by left].
    destruct Hpos as [->|]; [by right|left]. lia.
Qed.

Lemma remainders_ok fuel n0 buf0 temp t_numer t_denom j buf :
  printed n0 buf0 buf temp j -> digits t_numer -> digits t_denom ->
  num temp 0 (length temp) < 10 ^ Z.of_nat fuel -> (j = O -> 2 <= length temp /\ 0 < fuel)%nat ->
  (j + fuel <= length buf)%nat ->
  safe (remainders fuel temp t_numer t_denom j buf) (fun '(buf', k) =>
    length buf' = length buf0 /\ (0 < k <= j + fuel)%nat
    /\ (forall i, (i < k)%nat -> is_char (cell buf' i))
    /\ n0 = dsum k (fun i => cell buf' i - 48)
    /\ (cell buf' (k - 1) <> 48 \/ k = 1%nat)).
Proof.
  revert temp t_numer t_denom j buf.
  induction fuel as [|fuel IH]; intros temp t_numer t_denom j buf HI Hn Hdn Hlt Hj Hb.
  all: pose proof HI as (Hd & Hl & Hc & Hn0 & Htrim & Hlead).
  all: assert (Hend : temp = [] -> safe (Val (buf, j)) (fun '(buf', k) =>
    length buf' = length buf0 /\ (0 < k <= j + 0)%nat /\ (forall i, (i < k)%nat -> is_char (cell buf' i))
    /\ n0 = dsum k (fun i => cell buf' i - 48) /\ (cell buf' (k - 1) <> 48 \/ k = 1%nat)))
    by (intros ->; simpl in Hj; simpl; rewrite num_0 in Hn0, Hlead; split_and!;
        [done|destruct j; [specialize (Hj eq_refl)|]; lia|lia|done|lia|];
        destruct Hlead as [->|[?|[?|?]]]; [specialize (Hj eq_refl); lia|done|by left|by right]).
  all: assert (Hfin : match temp with [] => true | [x] => x =? 0 | _ => false end = true -> temp = [])
    by (destruct temp as [|x [|]]; [done| |done]; intros ->%Z.eqb_eq;
        destruct Htrim as [->|[|E]]; [specialize (Hj eq_refl); simpl in Hj; lia|done|done]).
  - simpl. destruct (match temp with [] => true | [x] => x =? 0 | _ => false end) eqn:E.
    { by apply Hend, Hfin. }
    pose proof (num_bounds temp 0 (length temp) Hd). simpl in Hlt.
    destruct Htrim as [->|Ht]; [specialize (Hj eq_refl); lia|].
    apply trimmed_zero in Ht; [|done|lia]. subst temp. done.
  - simpl. destruct (match temp with [] => true | [x] => x =? 0 | _ => false end) eqn:E.
    { eapply safe_mono; [by apply Hend, Hfin|]. intros [buf' k] (? & ? & ? & ? & ?). split_and!; done || lia. }
    assert (Hne : (0 < length temp)%nat) by (destruct temp; [done|simpl; lia]).
    set (m := num temp 0 (length temp)) in *.
    pose proof (remainder_step temp t_numer t_denom Hd Hn Hdn Hne) as Hstep. cbv zeta in Hstep. fold m in Hstep.
    destruct (div_normalize temp (length temp) [10] 1 t_numer t_denom) as [[[d un] vn]|]; [|done].
    simpl in Hstep |- *. destruct (read vn 0) as [x|]; [|done]. simpl in Hstep |- *.
    destruct (div_1 un x temp) as [[un' temp']|]; [|done]. simpl in Hstep |- *.
    destruct (div_unnormalize un' vn d [0]) as [rem|]; [|done]. simpl in Hstep |- *.
    destruct (read rem 0) as [r|]; [|done]. simpl in Hstep |- *.
    destruct Hstep as (Ht' & Hun' & Hvn & Hlt' & Hq & ->). rewrite <- Hlt' in Hq.
    apply safe_write_then; [lia|].
    destruct (pop_zeros_ok (length temp') temp' Ht' ltac:(lia)) as (P1 & P2 & P3 & P4).
    pose proof (num_bounds temp 0 (length temp) Hd) as [Hm0 _]. fold m in Hm0.
    eapply safe_mono.
    + apply IH; try done; try lia.
      * apply printed_step; try done; [lia| |by rewrite P3, Hq].
        destruct Htrim as [?|Ht]; [by left|right]. fold m.
        destruct (decide (m = 0)) as [Em|]; [|lia]. apply trimmed_zero in Ht; [|done|done]. by subst temp.
      * rewrite P3, Hq. rewrite Nat2Z.inj_succ, Z.pow_succ_r in Hlt by lia.
        apply Z.div_lt_upper_bound; lia.
      * rewrite length_insert. lia.
    + intros [buf' k] (? & ? & ? & ? & ?). split_and!; done || lia.
Qed.

(** [10] characters for each digit, and the terminator, are enough. *)
Lemma bpow_decimal n : bpow n <= 10 ^ Z.of_nat (10 * n).
Proof.
  unfold bpow. rewrite Nat2Z.inj_mul, Z.pow_mul_r by lia. apply Z.pow_le_mono_l.
  rewrite BASE_eq. change (10 ^ Z.of_nat 10) with 10000000000. lia.
Qed.

Lemma take_cell_split l n : (n < length l)%nat -> l = take n l ++ cell l n :: drop (S n) l.
Proof.
  intros Hn. destruct (lookup_lt_is_Some_2 l n Hn) as [c Hc]. unfold cell. rewrite Hc. simpl.
  symmetry. by apply take_drop_middle.
Qed.

Lemma to_string_ok a lng buf : digits a -> (0 < lng <= length a)%nat -> (10 * lng < length buf)%nat ->
  safe (to_string a lng buf (length buf)) (fun buf' => exists text,
    canonical text /\ decimal_value text = num a 0 lng /\ holds_text text buf' buf).
Proof.
  intros Ha Hl Hb. unfold to_string. destruct (Nat.eqb_spec lng 1) as [->|].
  { apply safe_read_then; [lia|]. rewrite num_low, num_0.
    replace (cell a 0 + BASE * 0) with (cell a 0) by lia.
    apply snprintf_u_ok; [by apply digits_cell|lia]. }
  assert (Hz : forall k, digits (replicate k 0)).
  { intros. apply Forall_replicate. rewrite BASE_eq. lia. }
  eapply safe_bind; [apply (copy_ok lng a (replicate lng 0)); rewrite ?length_replicate; done || lia|].
  intros temp (Hd & [Hlt _] & Hc). rewrite length_replicate in Hlt.
  assert (En : num temp 0 (length temp) = num a 0 lng) by (rewrite Hlt; by apply num_ext).
  eapply safe_bind.
  { apply (remainders_ok (10 * lng) (num a 0 lng) buf); try done; try lia.
    - split_and!; [done|done|lia| |by left|by left]. simpl. lia.
    - by apply (Hz 1%nat).
    - rewrite En. pose proof (num_bounds a 0 lng Ha). pose proof (bpow_decimal lng). lia. }
  intros [b k] (Hlb & Hk & Hch & Hn & Hlead). apply safe_write_then; [lia|].
  destruct k as [|k]; [lia|]. eapply safe_mono; [apply reverse_ok; rewrite length_insert; lia|].
  intros b' (Hlb' & Hrev & Hkeep). rewrite length_insert in Hlb'.
  assert (Hcell : forall i, (i < S k)%nat -> cell b' i = cell b (k - i)).
  { intros i Hi. rewrite Hrev by lia. apply cell_insert_ne. lia. }
  exists (take (S k) b'). split_and!.
  - split; [|split].
    + apply Forall_lookup_2. intros i c Hi. apply lookup_take_Some in Hi as [Hi Hik].
      replace c with (cell b' i) by (unfold cell; by rewrite Hi). rewrite Hcell by done. apply Hch. lia.
    + destruct b'; [simpl in Hlb'; lia|done].
    + destruct b' as [|c b'']; [done|]. simpl. intros [= ->].
      replace (S k - 1)%nat with k in Hlead by lia. specialize (Hcell O ltac:(lia)).
      rewrite Nat.sub_0_r in Hcell. change (cell (48 :: b'') 0) with 48 in Hcell.
      destruct Hlead as [?|[= ->]]; [congruence|done].
  - rewrite Hn. apply decimal_value_take; [lia|]. intros i Hi. rewrite Hcell by done.
    do 2 f_equal. lia.
  - split; [lia|]. exists (drop (S (S k)) b').
    rewrite (take_cell_split b' (S k)) at 1 by lia. do 2 f_equal. rewrite Hkeep by lia. apply cell_insert. lia.
Qed.
