(* ===== verification/Examples.v ===== *)
(** * Examples: concrete environments, gates and terms

    The inputs at which the instances of the theorems are taken. *)
From Stdlib Require Import ZArith Lia.
From stdpp Require Import base list.
From S2P Require Import Prelude Bits Ast AstFacts TermFacts Gates Blast BlastFacts BoolRewriter BlasterCfg.

(** An environment that never interrupts. *)
Definition calm : Env := {| alloc_size := fun _ => 0%Z; canceled := fun _ => false; max_memory := 0%Z |}.

Lemma calm_quiet : @quiet calm.
Proof. intros t. split; [simpl; lia|reflexivity]. Qed.

(** A configuration that exercises every optional rule. *)
Definition all_rules : bool_rewriter := {|
  m_flat := true; m_local_ctx := true; m_elim_and := true; m_blast_distinct := true;
  m_blast_distinct_threshold := 100; m_ite_extra_rules := true;
  m_local_ctx_limit := 1000; m_elim_ite := true |}.

Definition p : expr := mk_const 0 BOOL_SORT.
Definition q : expr := mk_const 1 BOOL_SORT.
Definition x8 : expr := mk_const 2 (BV_SORT 8).
Definition y8 : expr := mk_const 3 (BV_SORT 8).

(** The gates of [blaster_cfg], and those of [bit_blaster_cfg] with the ternary
    gates enabled. *)
Definition gates : Gates := blaster_cfg.gates blaster_cfg.blaster.
Definition ext_gates : Gates := bit_blaster_cfg.gates default_params true (fun _ => 0%nat).

Lemma gates_promise : @GatesOk calm gates.
Proof. apply blaster_cfg.gates_ok. Qed.

Lemma ext_gates_promise : @GatesOk calm ext_gates.
Proof. apply bit_blaster_cfg.gates_ok. Qed.

(** [n] Boolean constants, and the bits of a number. *)
Definition vars (k n : nat) : list expr := map (fun i => mk_const i BOOL_SORT) (seq k n).
Definition num (v : Z) (n : nat) : list expr := const_bits v 0 n.

Lemma vars_bits k n : bits (vars k n).
Proof. apply Forall_map, Forall_true. done. Qed.

Lemma num_bits v n : bits (num v n).
Proof. apply Forall_map, Forall_true. intros. apply const_bit_boolx. Qed.
