(* ===== verification/MpnProps.v ===== *)
(** * MpnProps: properties of the multi-precision naturals *)
From Stdlib Require Import ZArith Lia.
From stdpp Require Import base list.
From S2P Require Import Prelude Mpn MpnFacts MpnDiv MpnString.
Import mpn.

Local Open Scope Z_scope.

Lemma safe_val {A} (m : run A) Q : safe m Q -> exists a, m = Val a /\ Q a.
Proof. destruct m; simpl; [eauto|done]. Qed.

Lemma overrun n i quot : (i <= length quot < i + n)%nat ->
  up n i (fun i quot => write quot i 0) quot = Fault out_of_bounds.
Proof.
  revert i quot. induction n as [|n IH]; intros i quot Hn; [lia|]. cbn [up].
  assert (E : write quot i 0 = if (i <? length quot)%nat then Val (<[i := 0]> quot) else Fault out_of_bounds)
    by done. rewrite E. destruct (Nat.ltb_spec i (length quot)); [|done].
  apply IH. rewrite length_insert. lia.
Qed.

(** C20.  Long division is exact and memory-safe: for a divisor without a leading
    zero digit, and arrays of the sizes the callers allocate, [div] returns,
    the low digits of [quot] and [rem] are quotient and remainder, the rest of
    both arrays is untouched, whatever the buffers of the manager held. *)
Theorem div_exact numer lnum denom lden quot rem s :
  digits numer -> digits denom -> digits quot -> digits rem -> manager_ok s ->
  (0 < lden <= lnum)%nat -> (lnum <= length numer)%nat -> (lden <= length denom)%nat ->
  (lnum - lden + 1 <= length quot)%nat -> (lden <= length rem)%nat ->
  0 < cell denom (lden - 1) ->
  exists r quot' rem' s', div numer lnum denom lden quot rem s = Val (r, quot', rem', s')
    /\ manager_ok s' /\ digits quot' /\ digits rem'
    /\ divides numer lnum denom lden quot rem quot' rem'.
Proof.
  intros. edestruct (safe_val _ _ (div_ok numer lnum denom lden quot rem s ltac:(done) ltac:(done)
    ltac:(done) ltac:(done) ltac:(done) ltac:(done) ltac:(done) ltac:(done) ltac:(done) ltac:(done)
    ltac:(done))) as ([[[r quot'] rem'] s'] & E & HQ). by eexists _, _, _, _.
Qed.

Ltac concrete_digits := repeat (apply Forall_cons; split; [by split|]); apply Forall_nil; done.

Lemma div_exact_witness :
  let numer := [5; 7; 4294967295; 12] in let denom := [9; 2147483648; 3] in
  let s := mk_manager [1; 2] [] [] [4294967295] in
  exists r quot' rem' s', div numer 4 denom 3 [0; 0; 8] [0; 0; 0] s = Val (r, quot', rem', s')
    /\ manager_ok s' /\ digits quot' /\ digits rem' /\ divides numer 4 denom 3 [0; 0; 8] [0; 0; 0] quot' rem'.
Proof.
  intros numer denom s. apply (div_exact numer 4 denom 3 [0; 0; 8] [0; 0; 0] s); try (simpl; lia); try done.
  all: try concrete_digits. repeat split; simpl; concrete_digits.
Defined.

(** C35.  A numerator shorter than the divisor by two digits or more is not
    handled: the bound of the loop that clears the quotient wraps around, and
    the loop runs past the end of any array.  The callers test the lengths
    before. *)
Theorem div_short_overruns numer lnum denom lden quot rem s :
  (lnum + 1 < lden)%nat -> Z.of_nat lden < 2 ^ 63 -> Z.of_nat (length quot) < 2 ^ 63 ->
  div numer lnum denom lden quot rem s = Fault out_of_bounds.
Proof.
  intros Hl Hd Hq. unfold div. rewrite (proj2 (Nat.ltb_lt _ _)) by lia.
  rewrite overrun; [done|].
  assert (Z.of_nat (length quot) < w64 (Z.of_nat lnum - Z.of_nat lden + 1)); [|lia].
  unfold w64. rewrite <- (Z_mod_plus_full _ 1), Z.mod_small; lia.
Qed.

Lemma div_short_overruns_witness :
  div [7] 1 [1; 2; 3] 3 [0; 0; 0] [0; 0; 0] (mk_manager [] [] [] []) = Fault out_of_bounds.
Proof. apply div_short_overruns; [lia|done|done]. Defined.

(** C34.  Addition, subtraction and multiplication are exact, also when the
    destination of the first two is one of the arguments: the sum has one digit
    more than the longer argument and its reported size has no leading zero;
    the difference is exact up to the borrow; the carries never overflow a
    machine word. *)
Theorem add_sub_mul_exact a lnga b lngb c off :
  src_ok a lnga c off -> src_ok b lngb c off -> digits c -> (off + Nat.max lnga lngb < length c)%nat ->
  let n := Nat.max lnga lngb in
  let va := src_num a lnga c off lnga in let vb := src_num b lngb c off lngb in
  (exists c' os, add a lnga b lngb c off = Val (c', os)
     /\ frame off (S n) c c' /\ num c' off (S n) = va + vb
     /\ num c' off os = va + vb /\ ((1 < os)%nat -> cell c' (off + (os - 1)) <> 0))
  /\ (exists c' k, sub a lnga b lngb c off = Val (c', k)
     /\ frame off n c c' /\ 0 <= k <= 1 /\ num c' off n - k * bpow n = va - vb)
  /\ (forall x y z, digits x -> digits y -> digits z -> (length x + length y <= length z)%nat ->
     exists z', mul x (length x) y (length y) z = Val z' /\ frame 0 (length x + length y) z z'
       /\ num z' 0 (length x + length y) = num x 0 (length x) * num y 0 (length y)).
Proof.
  intros Ha Hb Hc Hl n va vb. split; [|split].
  - destruct (safe_val _ _ (add_ok a lnga b lngb c off Ha Hb Hc Hl)) as ([c' os] & E & H).
    exists c', os. split_and!; [done|apply H|apply H| |apply H].
    destruct H as (_ & _ & E1 & _ & E2 & _). unfold va, vb. congruence.
  - destruct (safe_val _ _ (sub_ok a lnga b lngb c off Ha Hb Hc ltac:(lia))) as ([c' k] & E & H).
    exists c', k. split_and!; [done|apply H..].
  - intros x y z Hx Hy Hz Hlz.
    destruct (safe_val _ _ (mul_ok x (length x) y (length y) z Hx ltac:(lia) Hy ltac:(lia) Hz ltac:(lia)))
      as (z' & E & H). exists z'. split_and!; [done|apply H..].
Qed.

Lemma add_sub_mul_exact_witness :
  let c := [4294967295; 4294967295; 7] in
  (exists c' os, add Dest 2 (Buf [1] 0) 1 c 0 = Val (c', os)
     /\ frame 0 3 c c' /\ num c' 0 3 = 18446744073709551616 /\ num c' 0 os = 18446744073709551616
     /\ ((1 < os)%nat -> cell c' (0 + (os - 1)) <> 0)).
Proof. intros c. apply (add_sub_mul_exact Dest 2 (Buf [1] 0) 1 c 0); try (split; [concrete_digits|simpl; lia]); [concrete_digits|simpl; lia]. Defined.

(** [compare] orders the values, whatever the numbers of digits. *)
Theorem compare_sign a lnga b lngb :
  digits a -> (lnga <= length a)%nat -> digits b -> (lngb <= length b)%nat ->
  compare a lnga b lngb = Val (Z.sgn (num a 0 lnga - num b 0 lngb)).
Proof.
  intros. destruct (safe_val _ _ (compare_ok a lnga b lngb ltac:(done) ltac:(done) ltac:(done) ltac:(done)))
    as (r & -> & ->). done.
Qed.

Lemma compare_sign_witness : compare [5; 0; 0] 3 [4; 1] 2 = Val (-1).
Proof. apply (compare_sign [5; 0; 0] 3 [4; 1] 2); [concrete_digits|done|concrete_digits|done]. Defined.

(** C33.  [to_string] writes the canonical decimal numeral of the number, and a
    terminator, and never past the buffer, when that has room for ten
    characters for each digit and one more; its two loops terminate. *)
Theorem to_string_canonical a lng buf :
  digits a -> (0 < lng <= length a)%nat -> (10 * lng < length buf)%nat ->
  exists buf' text, to_string a lng buf (length buf) = Val buf'
    /\ canonical text /\ decimal_value text = num a 0 lng /\ holds_text text buf' buf.
Proof.
  intros Ha Hl Hb. destruct (safe_val _ _ (to_string_ok a lng buf Ha Hl Hb)) as (buf' & E & text & H).
  by exists buf', text.
Qed.

Lemma to_string_canonical_witness : exists buf' text,
  to_string [0; 0; 1] 3 (replicate 33 7) 33 = Val buf'
  /\ canonical text /\ decimal_value text = 18446744073709551616 /\ holds_text text buf' (replicate 33 7).
Proof. apply (to_string_canonical [0; 0; 1] 3 (replicate 33 7)); [concrete_digits|simpl; lia|simpl; lia]. Defined.
