(* ===== verification/ActCacheProps.v ===== *)
(** * ActCacheProps: properties of the cache of the rewriters

    [lossy_run] is the abstract specification: a map that may drop an entry
    nobody looked up when another one is stored. *)
From Stdlib Require Import ZArith Lia.
From stdpp Require Import base list.
From S2P Require Import Prelude Ast ActCache.
Import m act_cache.

(** ** Client sessions *)

Inductive cmd := CFind (k : expr) (o : nat) | CInsert (k : expr) (o : nat) (v : expr) | CReset.

Definition exec (x : cmd) (c : act_cache) : option expr * act_cache :=
  match x with
  | CFind k o => find k o c
  | CInsert k o v => (None, insert k o v c)
  | CReset => (None, reset c)
  end.

Fixpoint session (xs : list cmd) (c : act_cache) : list (option expr) * act_cache :=
  match xs with
  | [] => ([], c)
  | x :: xs' => let '(r, c') := exec x c in let '(rs, c'') := session xs' c' in (r :: rs, c'')
  end.

(** Every insertion of the session leaves the values already looked up alone. *)
Fixpoint stable (xs : list cmd) (c : act_cache) : Prop :=
  match xs with
  | [] => True
  | x :: xs' =>
      match x with CInsert k o v => fresh_value k o v c | _ => True end /\ stable xs' (exec x c).2
  end.

(** ** The abstract map *)

Definition lossy : Type := key -> option tagged.

Definition lossy_find (e : key) (m : lossy) (r : option expr) (m' : lossy) : Prop :=
  r = fst <$> m e
  /\ forall e', m' e' = if decide (e = e') then (fun v => (fst v, true)) <$> m e else m e'.

(** At most one entry goes, and it was not looked up. *)
Definition drops (m m' : lossy) : Prop :=
  (forall e, m' e = m e)
  \/ exists lost v, m lost = Some (v, false) /\ forall e, m' e = if decide (lost = e) then None else m e.

Definition lossy_insert (e : key) (v : expr) (m m' : lossy) : Prop :=
  exists d, drops m d
    /\ forall e', m' e' = if decide (e = e')
                          then Some (v, match d e with
                                        | Some (w, tag) => if decide (w = v) then tag else false
                                        | None => false
                                        end)
                          else d e'.

Inductive lossy_run : lossy -> list cmd -> list (option expr) -> lossy -> Prop :=
| run_nil m : lossy_run m [] [] m
| run_find m k o r m' xs rs m'' :
    lossy_find (k, o) m r m' -> lossy_run m' xs rs m'' -> lossy_run m (CFind k o :: xs) (r :: rs) m''
| run_insert m k o v m' xs rs m'' :
    lossy_insert (k, o) v m m' -> lossy_run m' xs rs m'' ->
    lossy_run m (CInsert k o v :: xs) (None :: rs) m''
| run_reset m m' xs rs m'' :
    (forall e, m' e = None) -> lossy_run m' xs rs m'' -> lossy_run m (CReset :: xs) (None :: rs) m''.

(** The entries of a cache, as an abstract map. *)
Definition view (c : act_cache) : lossy := fun e => find_core e (m_table c).

Lemma find_view k o c : lossy_find (k, o) (view c) (find k o c).1 (view (find k o c).2).
Proof.
  split; [apply find_result|]. intros e. unfold view, find.
  destruct (find_core (k, o) (m_table c)) as [[v []]|] eqn:E; cbn [snd m_table];
    rewrite ?find_core_store; destruct (decide _) as [<-|]; by rewrite ?E.
Qed.

Lemma del_loop_view n c : drops (view c) (view (del_loop n c)).
Proof.
  revert c. induction n as [|n IH]; intros c; [by left|]. cbn [del_loop].
  set (c' := mk_cache (m_table c) (m_queue c) (S (m_qhead c)) (m_unused c) (m_max_unused c)).
  destruct (find_core (m_queue c !!! m_qhead c) (m_table c)) as [[w []]|] eqn:E; [apply (IH c')| |apply (IH c')].
  right. exists (m_queue c !!! m_qhead c), w. split; [done|]. intros e. apply find_core_erase.
Qed.

Lemma del_unused_view c : drops (view c) (view (del_unused c)).
Proof.
  pose proof (del_loop_view (length (m_queue c) - m_qhead c) c) as H. unfold del_unused, view in *.
  destruct (_ =? _)%nat; [exact H|]. destruct (_ <? _)%Z; [|exact H].
  unfold compress_queue. destruct (pure_for _ _ _ _). exact H.
Qed.

Lemma insert_view k o v c : lossy_insert (k, o) v (view c) (view (insert k o v c)).
Proof.
  unfold insert. set (c1 := if (m_max_unused c <=? m_unused c)%Z then del_unused c else c).
  exists (view c1). split.
  { unfold c1. destruct (_ <=? _)%Z; [apply del_unused_view|by left]. }
  clearbody c1. intros e. unfold view.
  destruct (find_core (k, o) (m_table c1)) as [[w tag]|] eqn:E.
  - destruct (decide (w = v)) as [->|]; cbn [m_table]; rewrite ?find_core_store;
      destruct (decide _) as [<-|]; by rewrite ?E.
  - cbn [m_table]. rewrite find_core_store. by destruct (decide _) as [<-|].
Qed.

(** C23.  The cache implements a lossy map: in every session, from every state,
    lookups answer as an abstract map would that may drop, when an entry is
    stored, at most one entry that was never looked up. *)
Theorem act_cache_refines xs c :
  lossy_run (view c) xs (session xs c).1 (view (session xs c).2).
Proof.
  revert c. induction xs as [|x xs IH]; intros c; [constructor|]. simpl.
  specialize (IH (exec x c).2). destruct (exec x c) as [r c'] eqn:E. simpl in IH.
  destruct (session xs c') as [rs c'']. simpl in *.
  destruct x; simpl in E; inversion E; subst; clear E.
  - eapply run_find; [|exact IH]. pose proof (find_view k o c) as F. by destruct (find k o c); simplify_eq.
  - eapply run_insert; [apply insert_view|exact IH].
  - by eapply run_reset; [|exact IH].
Qed.

(** C24.  In a session that never replaces a value already looked up, the counter
    [m_unused] counts the unused entries exactly and never exceeds
    [m_max_unused], every unused entry is in the active part of the queue, once,
    and no key of the queue is missing from the table. *)
Theorem act_cache_bookkeeping xs n :
  (n < 2 ^ 32)%Z -> stable xs (init n) ->
  wf (session xs (init n)).2.
Proof.
  intros Hn. generalize (empty_cache_wf n Hn). generalize (init n) as c.
  induction xs as [|x xs IH]; intros c Hw Hs; [done|]. simpl. destruct Hs as [Hx Hs].
  assert (H : wf (exec x c).2).
  { destruct x; simpl; [by apply find_wf|by apply insert_wf|by apply reset_wf]. }
  specialize (IH (exec x c).2 H Hs). destruct (exec x c) as [r c']. simpl in *. by destruct (session xs c').
Qed.

Definition cmds_ex : list cmd :=
  [CInsert mk_true 0 mk_true; CInsert mk_false 0 mk_true; CFind mk_true 0; CInsert mk_false 0 mk_false; CReset].

Lemma act_cache_bookkeeping_witness : wf (session cmds_ex (init 3)).2.
Proof. apply (act_cache_bookkeeping cmds_ex 3); [lia|]. repeat split; simpl; intros v' H; discriminate H. Defined.

(** A used entry that gets another value becomes unused again without being
    counted: after one insertion, one lookup, another value and another lookup,
    the counter has wrapped around and holds 2^32-1. *)
Theorem act_cache_counter_wraps k o v v' n :
  v <> v' ->
  m_unused (session [CInsert k o v; CFind k o; CInsert k o v'; CFind k o] (init n)).2 = (2 ^ 32 - 1)%Z.
Proof.
  intros Hv. assert (Hn : exists b, m_max_unused (init n) = b /\ (0 < b)%Z /\ init n = mk_cache [] [] 0 0 b).
  { eexists. split; [done|]. split; [|done]. simpl. unfold MIN_MAX_UNUSED. destruct (Z.ltb_spec n 1024); lia. }
  destruct Hn as (b & _ & Hb & ->). set (e := (k, o)). cbn [session exec].
  assert (E1 : insert k o v (mk_cache [] [] 0 0 b) = mk_cache [(e, (v, false))] [e] 0 1 b).
  { unfold insert. simpl. by rewrite (proj2 (Z.leb_gt _ _)) by lia. }
  assert (St : forall x y : tagged, store e x [(e, y)] = [(e, x)]).
  { intros x y. unfold store. simpl. by rewrite decide_True. }
  assert (E2 : find k o (mk_cache [(e, (v, false))] [e] 0 1 b) = (Some v, mk_cache [(e, (v, true))] [e] 0 0 b)).
  { unfold find. cbn [m_table find_core]. fold e. rewrite decide_True by done. cbn. by rewrite St. }
  assert (E3 : insert k o v' (mk_cache [(e, (v, true))] [e] 0 0 b) = mk_cache [(e, (v', false))] [e] 0 0 b).
  { unfold insert. cbn [m_table m_unused m_max_unused find_core]. fold e.
    rewrite (proj2 (Z.leb_gt _ _)) by lia. cbn [m_table find_core].
    rewrite decide_True, decide_False by done. cbn. by rewrite St. }
  assert (E4 : find k o (mk_cache [(e, (v', false))] [e] 0 0 b)
             = (Some v', mk_cache [(e, (v', true))] [e] 0 (2 ^ 32 - 1) b)).
  { unfold find. cbn [m_table find_core]. fold e. rewrite decide_True by done. cbn. by rewrite St. }
  rewrite E1, E2. cbn [fst snd]. by rewrite E3, E4.
Qed.

Lemma act_cache_counter_wraps_witness :
  m_unused (session [CInsert mk_true 0 mk_true; CFind mk_true 0; CInsert mk_true 0 mk_false; CFind mk_true 0]
              (init 3)).2 = 4294967295%Z.
Proof. apply (act_cache_counter_wraps mk_true 0 mk_true mk_false 3). discriminate. Defined.
