(* ===== verification/AstProps.v ===== *)
(** * AstProps: what terms promise

    Type soundness of terms and soundness of the disequality of values. *)
From Stdlib Require Import ZArith Lia.
From stdpp Require Import base list.
From S2P Require Import Prelude Bits Ast AstFacts TermFacts Examples.

(** Type soundness: a term that [mk_func_decl] accepts has, under every
    interpretation, a value of its sort; a bit vector stays below [2^n]. *)
Theorem eval_has_sort I e s : get_sort e = Some s -> has_sort (eval I e) s.
Proof. apply eval_sort. Qed.

Lemma eval_has_sort_witness :
  get_sort (App OP_CONCAT [x8; App (OP_EXTRACT 6 3) [App OP_BMUL [x8; y8]]]) = Some (BV_SORT 12)
  /\ forall I, has_sort (eval I (App OP_CONCAT [x8; App (OP_EXTRACT 6 3) [App OP_BMUL [x8; y8]]])) (BV_SORT 12).
Proof. split; [reflexivity|]. intros I. apply eval_has_sort. reflexivity. Defined.

(** [ast_manager::are_distinct] is sound: terms it reports distinct differ
    under every interpretation, also those of the form [k + t] and [k' + t]. *)
Theorem are_distinct_correct a b s I :
  get_sort a = Some s -> get_sort b = Some s -> m.are_distinct a b = true ->
  eval I a <> eval I b.
Proof. apply are_distinct_sound. Qed.

Lemma are_distinct_correct_witness :
  m.are_distinct (App OP_BADD [mk_numeral 3 8; x8]) x8 = true
  /\ forall I, eval I (App OP_BADD [mk_numeral 3 8; x8]) <> eval I x8.
Proof.
  split; [reflexivity|]. intros I.
  apply (are_distinct_correct _ _ (BV_SORT 8)); [reflexivity|reflexivity|reflexivity].
Defined.
