(* ===== verification/BlastProps.v ===== *)
(** * BlastProps: what the circuits compute

    The theorems of [bit_blaster_tpl] over any gates that keep their promise,
    of the two configurations, and instances of each on concrete inputs.  The
    value of a vector is its unsigned reading [uval]; the operators are those
    of SMT-LIB ([Bits]). *)
From Stdlib Require Import ZArith Lia.
From stdpp Require Import base list.
From S2P Require Import Prelude Bits UBits Ast AstFacts TermFacts Gates Blast BlastFacts BlastAdd.
From S2P Require Import BlastSigned BlastMul BlastShift BoolRewriter.
From S2P Require Import BlasterCfg Examples.

Local Open Scope Z_scope.

(** The hypotheses of an instance. *)
Ltac at_instance :=
  first [exact gates_promise | exact ext_gates_promise | apply vars_bits | apply num_bits
        | reflexivity | lia | vm_compute; reflexivity].

(** C18.  [mk_multiplier] multiplies modulo [2^sz] on every path: minus one,
    two numerals, Booth recoding, the array and the Wallace tree. *)
Theorem mk_multiplier_correct `{Env} (G : Gates) (OK : GatesOk G) wtm bcm sz a b :
  (0 < sz)%nat -> bits a -> bits b ->
  total (mk_multiplier wtm bcm sz a b)
    (makes_num sz (fun I => (uval I sz a * uval I sz b) mod pow2 sz)).
Proof. intros. by apply spec_total, mk_multiplier_ok. Qed.

Lemma mk_multiplier_correct_witness :
  @total calm _ (@mk_multiplier calm gates true true 5 (vars 0 5) (vars 5 5))
    (makes_num 5 (fun I => (uval I 5 (vars 0 5) * uval I 5 (vars 5 5)) mod 32)).
Proof. apply (@mk_multiplier_correct calm gates); at_instance. Defined.

(** C19.  The restoring divider yields quotient and remainder, with all ones and
    the dividend for a zero divisor. *)
Theorem mk_udiv_urem_correct `{Env} (G : Gates) (OK : GatesOk G) sz a b :
  (0 < sz)%nat -> bits a -> bits b ->
  total (mk_udiv_urem sz a b) (fun r =>
    makes_num sz (fun I => if uval I sz b =? 0 then pow2 sz - 1 else uval I sz a / uval I sz b) r.1
    /\ makes_num sz (fun I => if uval I sz b =? 0 then uval I sz a else uval I sz a mod uval I sz b) r.2).
Proof. intros. by apply spec_total, mk_udiv_urem_ok. Qed.

Lemma mk_udiv_urem_correct_witness :
  @total calm _ (@mk_udiv_urem calm gates 4 (vars 0 4) (vars 4 4)) (fun r =>
    makes_num 4 (fun I => if uval I 4 (vars 4 4) =? 0 then 15 else uval I 4 (vars 0 4) / uval I 4 (vars 4 4)) r.1
    /\ makes_num 4 (fun I => if uval I 4 (vars 4 4) =? 0 then uval I 4 (vars 0 4)
                             else uval I 4 (vars 0 4) mod uval I 4 (vars 4 4)) r.2).
Proof. apply (@mk_udiv_urem_correct calm gates); at_instance. Defined.

(** C21.  The tests for overflow of a multiplication are exact: the signed ones are
    true exactly when the product of the signed values is below [2^(sz-1)],
    respectively not below [-2^(sz-1)], the unsigned one exactly when the product
    is below [2^sz]. *)
Theorem mul_no_overflow_exact `{Env} (G : Gates) (OK : GatesOk G) wtm bcm sz a b :
  (0 < sz)%nat -> bits a -> bits b ->
  (forall is_overflow, total (mk_smul_no_overflow_core wtm bcm sz a b is_overflow) (fun r => same_bool r (fun I =>
     if is_overflow then sval I sz a * sval I sz b <? pow2 (sz - 1)
     else - pow2 (sz - 1) <=? sval I sz a * sval I sz b))) /\
  total (mk_umul_no_overflow wtm bcm sz a b)
    (fun r => same_bool r (fun I => uval I sz a * uval I sz b <? pow2 sz)).
Proof.
  intros. split; [intros is_overflow; by apply spec_total, (mk_smul_core_ok G)|by apply spec_total, mk_umul_no_overflow_ok].
Qed.

Lemma mul_no_overflow_exact_witness :
  @total calm _ (@mk_smul_no_overflow_core calm ext_gates false true 4 (vars 0 4) (vars 4 4) false)
    (fun r => same_bool r (fun I => - 8 <=? sval I 4 (vars 0 4) * sval I 4 (vars 4 4)))
  /\ @total calm _ (@mk_umul_no_overflow calm ext_gates false true 4 (vars 0 4) (vars 4 4))
    (fun r => same_bool r (fun I => uval I 4 (vars 0 4) * uval I 4 (vars 4 4) <? 16)).
Proof.
  destruct (@mul_no_overflow_exact calm ext_gates ext_gates_promise false true 4 (vars 0 4) (vars 4 4)) as [Hs Hu]; [at_instance..|].
  split; [apply (Hs false)|apply Hu].
Defined.

(** C30.  Signed division truncates towards zero, on each of the five paths the
    sign bits select (a zero divisor gives [-1] or [1], and the least number
    divided by [-1] wraps around); the signed remainder has the sign of the
    dividend, also on the path for a divisor whose magnitude is a constant power
    of two; the signed modulo has the sign of the divisor and is zero when the
    remainder is. *)
Theorem signed_division_correct `{Env} (G : Gates) (OK : GatesOk G) sz a b :
  (0 < sz)%nat -> length a = sz -> length b = sz -> bits a -> bits b ->
  total (mk_sdiv sz a b) (makes_num sz (fun I =>
    (if uval I sz b =? 0 then (if 0 <=? sval I sz a then -1 else 1)
     else Z.quot (sval I sz a) (sval I sz b)) mod pow2 sz)) /\
  total (mk_srem sz a b) (makes_num sz (fun I =>
    (if uval I sz b =? 0 then sval I sz a else Z.rem (sval I sz a) (sval I sz b)) mod pow2 sz)) /\
  total (mk_smod sz a b) (makes_num sz (fun I =>
    (if uval I sz b =? 0 then sval I sz a else (sval I sz a) mod (sval I sz b)) mod pow2 sz)).
Proof.
  intros. split_and!; apply spec_total; [by apply mk_sdiv_ok|by apply mk_srem_ok|by apply mk_smod_ok].
Qed.

Lemma signed_division_correct_witness :
  let a := vars 0 4 in let b := num 12 4 in
  @total calm _ (@mk_sdiv calm gates 4 a b) (makes_num 4 (fun I =>
    (if uval I 4 b =? 0 then (if 0 <=? sval I 4 a then -1 else 1) else Z.quot (sval I 4 a) (sval I 4 b)) mod 16))
  /\ @total calm _ (@mk_srem calm gates 4 a b) (makes_num 4 (fun I =>
    (if uval I 4 b =? 0 then sval I 4 a else Z.rem (sval I 4 a) (sval I 4 b)) mod 16))
  /\ @total calm _ (@mk_smod calm gates 4 a b) (makes_num 4 (fun I =>
    (if uval I 4 b =? 0 then sval I 4 a else (sval I 4 a) mod (sval I 4 b)) mod 16)).
Proof. intros a b. apply (@signed_division_correct calm gates gates_promise 4 a b); at_instance. Defined.

(** C37.  The logical shifts multiply, respectively divide, by a power of two, and
    the arithmetic shift divides the signed value, rounding down; amounts of the
    width or more leave zero or the sign.  The barrel shifter agrees with the path
    for a constant amount, also for widths that are not a power of two. *)
Theorem shifts_correct `{Env} (G : Gates) (OK : GatesOk G) sz a b :
  (0 < sz)%nat -> bits a -> bits b ->
  total (mk_shl sz a b) (makes_num sz (fun I => bv_shl sz (uval I sz a) (uval I sz b)))
  /\ total (mk_lshr sz a b) (makes_num sz (fun I => bv_lshr sz (uval I sz a) (uval I sz b)))
  /\ total (mk_ashr sz a b) (makes_num sz (fun I => bv_ashr sz (uval I sz a) (uval I sz b))).
Proof. intros. split_and!; apply spec_total; [by apply mk_shl_ok|by apply mk_lshr_ok|by apply mk_ashr_ok]. Qed.

Lemma shifts_correct_witness :
  let a := vars 0 6 in let b := vars 6 6 in
  @total calm _ (@mk_shl calm gates 6 a b) (makes_num 6 (fun I => bv_shl 6 (uval I 6 a) (uval I 6 b)))
  /\ @total calm _ (@mk_lshr calm gates 6 a b) (makes_num 6 (fun I => bv_lshr 6 (uval I 6 a) (uval I 6 b)))
  /\ @total calm _ (@mk_ashr calm gates 6 a b) (makes_num 6 (fun I => bv_ashr 6 (uval I 6 a) (uval I 6 b))).
Proof. intros a b. apply (@shifts_correct calm gates); at_instance. Defined.

(** Rotations by a variable amount rotate by the amount modulo the width,
    in both directions. *)
Theorem mk_ext_rotate_correct `{Env} (G : Gates) (OK : GatesOk G) Left sz a b :
  (0 < sz)%nat -> bits a -> bits b ->
  total (mk_ext_rotate_left_right Left sz a b) (makes_num sz (fun I =>
    let k := Z.to_nat (uval I sz b) in
    if Left then bv_rotl sz (uval I sz a) k else bv_rotr sz (uval I sz a) k)).
Proof. intros. by apply spec_total, (mk_ext_rotate_left_right_ok G). Qed.

Lemma mk_ext_rotate_correct_witness :
  @total calm _ (@mk_ext_rotate_left_right calm gates false 5 (vars 0 5) (vars 5 5))
    (makes_num 5 (fun I => bv_rotr 5 (uval I 5 (vars 0 5)) (Z.to_nat (uval I 5 (vars 5 5))))).
Proof. apply (@mk_ext_rotate_correct calm gates gates_promise false); at_instance. Defined.

(** The ternary gates of [bit_blaster_cfg] are the exclusive or and the
    majority of their arguments, with and without the extended gates and
    whatever order the node ids put the arguments in. *)
Theorem bit_blaster_gates_correct `{Env} (rw : bool_rewriter) ext get_id a b c :
  boolx a -> boolx b -> boolx c ->
  total (bit_blaster_cfg.mk_xor3 rw ext get_id a b c)
    (fun r => same_bool r (fun I => xorb (xorb (bval I a) (bval I b)) (bval I c)))
  /\ total (bit_blaster_cfg.mk_carry rw ext get_id a b c)
    (fun r => same_bool r (fun I => maj (bval I a) (bval I b) (bval I c))).
Proof.
  intros. split; apply spec_total; [by apply bit_blaster_cfg.mk_xor3_ok|by apply bit_blaster_cfg.mk_carry_ok].
Qed.

Lemma bit_blaster_gates_correct_witness :
  @total calm _ (bit_blaster_cfg.mk_xor3 all_rules true (fun _ => 0%nat) p (m.mk_not p) q)
    (fun r => same_bool r (fun I => xorb (xorb (bval I p) (bval I (m.mk_not p))) (bval I q)))
  /\ @total calm _ (bit_blaster_cfg.mk_carry all_rules true (fun _ => 0%nat) p (m.mk_not p) q)
    (fun r => same_bool r (fun I => maj (bval I p) (bval I (m.mk_not p)) (bval I q))).
Proof. apply (@bit_blaster_gates_correct calm); reflexivity. Defined.

(** The subtracter: the difference modulo [2^sz], and a carry out that
    tells whether it did not borrow. *)
Theorem mk_subtracter_correct `{Env} (G : Gates) (OK : GatesOk G) sz a b :
  bits a -> bits b ->
  total (mk_subtracter sz a b) (fun r =>
    makes_num sz (fun I => (uval I sz a - uval I sz b) mod pow2 sz) r.1
    /\ same_bool r.2 (fun I => uval I sz b <=? uval I sz a)).
Proof. intros. by apply spec_total, mk_subtracter_ok. Qed.

Lemma mk_subtracter_correct_witness :
  @total calm _ (@mk_subtracter ext_gates 7 (vars 0 7) (num 77 7)) (fun r =>
    makes_num 7 (fun I => (uval I 7 (vars 0 7) - uval I 7 (num 77 7)) mod 128) r.1
    /\ same_bool r.2 (fun I => uval I 7 (num 77 7) <=? uval I 7 (vars 0 7))).
Proof. apply (@mk_subtracter_correct calm ext_gates); at_instance. Defined.

(** The ripple-carry adder and the negation, modulo [2^sz]; the carry of
    the last position is not built. *)
Theorem mk_adder_neg_correct `{Env} (G : Gates) (OK : GatesOk G) sz a b :
  bits a -> bits b ->
  total (mk_adder sz a b) (makes_num sz (fun I => (uval I sz a + uval I sz b) mod pow2 sz))
  /\ total (mk_neg sz a) (makes_num sz (fun I => (- uval I sz a) mod pow2 sz)).
Proof. intros. split; apply spec_total; [by apply mk_adder_ok|by apply mk_neg_ok]. Qed.

Lemma mk_adder_neg_correct_witness :
  @total calm _ (@mk_adder gates 8 (vars 0 8) (vars 8 8))
    (makes_num 8 (fun I => (uval I 8 (vars 0 8) + uval I 8 (vars 8 8)) mod 256))
  /\ @total calm _ (@mk_neg gates 8 (vars 0 8))
    (makes_num 8 (fun I => (- uval I 8 (vars 0 8)) mod 256)).
Proof. apply (@mk_adder_neg_correct calm gates); at_instance. Defined.

(** The comparison template compares the unsigned values, or the signed
    ones with the roles of the sign bits exchanged. *)
Theorem mk_le_correct `{Env} (G : Gates) (OK : GatesOk G) (Signed : bool) sz a b :
  (0 < sz)%nat -> bits a -> bits b ->
  total (mk_le Signed sz a b) (fun r => same_bool r (fun I =>
    if Signed then sval I sz a <=? sval I sz b else uval I sz a <=? uval I sz b)).
Proof.
  intros. apply spec_total. destruct Signed; [by apply (mk_sle_ok G)|by apply (mk_ule_ok G)].
Qed.

Lemma mk_le_correct_witness :
  @total calm _ (@mk_le gates true 1 (vars 0 1) (vars 1 1)) (fun r => same_bool r (fun I =>
    sval I 1 (vars 0 1) <=? sval I 1 (vars 1 1))).
Proof. apply (@mk_le_correct calm gates gates_promise true); at_instance. Defined.

(** Booth recoding: when [mk_const_multiplier] accepts a numeral it
    yields the product, and it accepts every numeral when enabled. *)
Theorem mk_const_multiplier_correct `{Env} (G : Gates) (OK : GatesOk G) bcm sz a b k :
  bits a -> bits b -> is_numeral_bits sz a = Some k ->
  total (mk_const_multiplier bcm sz a b) (fun r =>
    match r with
    | Some out => bcm = true /\ makes_num sz (fun I => (k * uval I sz b) mod pow2 sz) out
    | None => bcm = false
    end).
Proof. intros Ba Bb Hk. by apply spec_total, mk_const_multiplier_total. Qed.

Lemma mk_const_multiplier_correct_witness :
  is_numeral_bits 6 (num 27 6) = Some 27
  /\ @total calm _ (@mk_const_multiplier gates true 6 (num 27 6) (vars 0 6)) (fun r =>
    match r with
    | Some out => true = true /\ makes_num 6 (fun I => (27 * uval I 6 (vars 0 6)) mod 64) out
    | None => true = false
    end).
Proof. split; [reflexivity|]. apply (@mk_const_multiplier_correct calm gates gates_promise true); at_instance. Defined.

(** The Wallace tree and the array multiplier are equivalent: whatever
    vectors they return, the two agree under every interpretation.  The loop of
    the tree, [while (pps.size() != 2)], ends. *)
Theorem wallace_array_agree `{Env} (G : Gates) (OK : GatesOk G) sz a b :
  quiet -> (0 < sz)%nat -> bits a -> bits b -> forall s1 s2,
  exists w s1' r s2', mk_wallace_multiplier sz a b s1 = Ok w s1' /\ mk_array_multiplier sz a b s2 = Ok r s2'
    /\ length w = sz /\ length r = sz /\ forall I, uval I sz w = uval I sz r.
Proof.
  intros Hq Hsz Ba Bb s1 s2.
  destruct (spec_returns _ _ Hq (mk_wallace_multiplier_ok G sz a b Hsz Ba Bb) s1) as (w & s1' & Ew & Lw & _ & Vw).
  destruct (spec_returns _ _ Hq (mk_array_multiplier_ok G sz a b Hsz Ba Bb) s2) as (r & s2' & Er & Lr & _ & Vr).
  exists w, s1', r, s2'. repeat (split; [done|]). intros I. by rewrite Vw, Vr.
Qed.

Lemma wallace_array_agree_witness : let s0 := mk_st 0 0 in
  exists w s1 r s2, @mk_wallace_multiplier calm gates 6 (vars 0 6) (vars 6 6) s0 = Ok w s1
    /\ @mk_array_multiplier calm gates 6 (vars 0 6) (vars 6 6) s0 = Ok r s2
    /\ length w = 6%nat /\ length r = 6%nat /\ forall I, uval I 6 w = uval I 6 r.
Proof. apply (@wallace_array_agree calm gates gates_promise); first [exact calm_quiet | at_instance]. Defined.

(** The case split of a multiplication by cases is right, its [VERIFY]s
    hold and its recursion ends, but its caller always answers false: the
    vector it may have filled is discarded. *)
Theorem case_multiplier_discarded `{Env} sz a b :
  bits a -> bits b ->
  total (mk_const_case_multiplier sz a b) (fun r =>
    r.1 = false /\ (r.2 = [] \/ makes_num sz (fun I => (uval I sz a * uval I sz b) mod pow2 sz) r.2)).
Proof. intros. by apply spec_total, mk_const_case_multiplier_ok. Qed.

Lemma case_multiplier_discarded_witness :
  (exists out s1, mk_const_case_multiplier 3 (num 3 3) (vars 0 3) (mk_st 0 0) = Ok (false, out) s1
     /\ length out = 3%nat)
  /\ @total calm _ (mk_const_case_multiplier 3 (num 3 3) (vars 0 3)) (fun r =>
    r.1 = false
    /\ (r.2 = [] \/ makes_num 3 (fun I => (uval I 3 (num 3 3) * uval I 3 (vars 0 3)) mod 8) r.2)).
Proof.
  split; [vm_compute; eexists _, _; split; reflexivity|].
  apply (@case_multiplier_discarded calm); at_instance.
Defined.

(** [mk_eqs] decodes: the output of index [i] is true exactly when the
    input is the number [i]. *)
Theorem mk_eqs_one_hot `{Env} (G : Gates) (OK : GatesOk G) sz a :
  bits a -> total (mk_eqs sz a) (makes sz (fun I i => uval I sz a =? Z.of_nat i)).
Proof. intros. by apply spec_total, mk_eqs_ok. Qed.

Lemma mk_eqs_one_hot_witness :
  @total calm _ (@mk_eqs gates 5 (vars 0 5)) (makes 5 (fun I i => uval I 5 (vars 0 5) =? Z.of_nat i)).
Proof. apply (@mk_eqs_one_hot calm gates); at_instance. Defined.

(** [num2bits] and [is_numeral] are inverse: the bits of a number, built
    32 at a time, read back as the number modulo [2^sz]. *)
Theorem num2bits_roundtrip v sz : 0 <= v ->
  length (num2bits v sz) = sz /\ is_numeral_bits sz (num2bits v sz) = Some (v mod pow2 sz).
Proof. apply num2bits_numeral. Qed.

Lemma num2bits_roundtrip_witness : 0 <= 987654321987654321
  /\ length (num2bits 987654321987654321 70) = 70%nat
  /\ is_numeral_bits 70 (num2bits 987654321987654321 70) = Some (987654321987654321 mod pow2 70).
Proof. split; [lia|]. apply (num2bits_roundtrip 987654321987654321 70). lia. Defined.

(** The four-way template computes the signed quotient and remainder
    whatever sign bits are constant. *)
Theorem mk_sdiv_srem_smod_correct `{Env} (G : Gates) (OK : GatesOk G) sz a b :
  (0 < sz)%nat -> bits a -> bits b ->
  total (mk_sdiv_srem_smod SDIV sz a b) (makes_num sz (fun I => bv_sdiv sz (uval I sz a) (uval I sz b)))
  /\ total (mk_sdiv_srem_smod SREM sz a b) (makes_num sz (fun I => bv_srem sz (uval I sz a) (uval I sz b))).
Proof.
  intros Hsz Ba Bb. split; apply spec_total;
    [by apply (mk_sdiv_srem_smod_ok G sz Hsz SDIV)|by apply (mk_sdiv_srem_smod_ok G sz Hsz SREM)].
Qed.

Lemma mk_sdiv_srem_smod_correct_witness :
  @total calm _ (@mk_sdiv_srem_smod calm gates SDIV 3 (vars 0 3) (num 6 3))
    (makes_num 3 (fun I => bv_sdiv 3 (uval I 3 (vars 0 3)) (uval I 3 (num 6 3))))
  /\ @total calm _ (@mk_sdiv_srem_smod calm gates SREM 3 (vars 0 3) (num 6 3))
    (makes_num 3 (fun I => bv_srem 3 (uval I 3 (vars 0 3)) (uval I 3 (num 6 3)))).
Proof. apply (@mk_sdiv_srem_smod_correct calm gates); at_instance. Defined.

(** For the signed modulo the same template is wrong: with two bits,
    [-1 smod 1] is 0 and [mk_smod] says so, but the template adds the divisor
    to the zero remainder and yields 1. *)
Theorem smod_template_wrong :
  bv_smod 2 3 1 = 0
  /\ (exists s, @mk_smod calm gates 2 (num 3 2) (num 1 2) (mk_st 0 0) = Ok (num 0 2) s)
  /\ (exists s, @mk_sdiv_srem_smod calm gates SMOD 2 (num 3 2) (num 1 2) (mk_st 0 0) = Ok (num 1 2) s).
Proof. split; [reflexivity|]. split; eexists; vm_compute; reflexivity. Qed.
