(* ===== verification/RewriterProps.v ===== *)
(** * RewriterProps: what the bit-blasting rewriter promises

    The theorems of [blaster_rewriter_cfg] with the gates of [blaster_cfg], as
    [bit_blaster_rewriter.cpp] instantiates it, and instances of each. *)
From Stdlib Require Import ZArith Lia.
From stdpp Require Import base list fin_maps gmap relations.
From S2P Require Import Prelude Bits UBits Ast AstFacts TermFacts BvTerms Gates Blast BlastFacts.
From S2P Require Import BoolRewriter BlasterCfg BlastRewriter BlastRewriterFacts.
From S2P Require Import BlastRewriterState Examples.
Import blaster_rewriter_cfg.

Local Open Scope Z_scope.

(** The default parameters, and those with every option on. *)
Definition default_cfg : params := {| m_blast_mul := true; m_blast_add := true; m_blast_full := false;
  m_max_steps := 2 ^ 32 - 1 |}.
Definition full_cfg : params := {| m_blast_mul := true; m_blast_add := true; m_blast_full := true;
  m_max_steps := 2 ^ 32 - 1 |}.

(** A state with one constant of 8 bits. *)
Definition x_decl : decl := (2%nat, BV_SORT 8).
Definition y_decl : decl := (3%nat, BV_SORT 8).
Definition with_x : state := (mk_const x_decl (init 100)).2.

Lemma with_x_wf : wf with_x.
Proof. apply (mk_const_wf x_decl 8); [apply init_wf|reflexivity|lia]. Qed.

(** C17.  [reduce_app] is sound: under every configuration, on every supported
    operator, it returns [BR_FAILED] or a term of the same sort that has the
    value of the application under every interpretation in which each constant
    has the value its bits spell.  The state stays well formed and keeps the
    bits of the constants it had. *)
Theorem reduce_app_sound `{Env} wtm bcm cfg o args srt s :
  wf s -> get_sort (App o args) = Some srt -> unsupported cfg o = false ->
  total (reduce_app (G := gates) wtm bcm cfg o args s) (fun '(r, s') =>
    wf s' /\ keeps s s'
    /\ forall e, r = Some e -> get_sort e = Some srt
         /\ forall I, consistent I s' -> eval I e = eval I (App o args)).
Proof.
  intros Hw Hs Hu. apply spec_total. apply (reduce_app_ok gates (OK := blaster_cfg.gates_ok _)); done.
Qed.

Lemma reduce_app_sound_witness :
  let t := App OP_BMUL [x8; y8; mk_numeral 5 8] in
  @total calm _ (@reduce_app calm gates false false default_cfg OP_BMUL [x8; y8; mk_numeral 5 8] with_x)
    (fun '(r, s') =>
      wf s' /\ keeps with_x s'
      /\ forall e, r = Some e -> get_sort e = Some (BV_SORT 8)
           /\ forall I, consistent I s' -> eval I e = eval I t).
Proof. apply (@reduce_app_sound calm); [exact with_x_wf|reflexivity|reflexivity]. Defined.

(** An operator that must be simplified away first is refused, whatever
    its arguments: the run ends with the exception of [throw_unsupported]. *)
Theorem reduce_app_refuses `{Env} wtm bcm cfg o args s st0 :
  m.family_of o = m.bv_family -> unsupported cfg o = true ->
  reduce_app (G := gates) wtm bcm cfg o args s st0 = Throw ExUnsupported.
Proof. apply reduce_app_unsupported. Qed.

Lemma reduce_app_refuses_witness : unsupported default_cfg OP_BUDIV = true
  /\ @reduce_app calm gates false false default_cfg OP_BUDIV [x8; y8] with_x (mk_st 0 0) = Throw ExUnsupported.
Proof. split; [reflexivity|]. apply (@reduce_app_refuses calm); reflexivity. Defined.

(** C31.  [pop] undoes a scope: after any steps since [push], further pushes and
    pops inside the scope included, popping back restores the map, the keys, the
    values, the new bits and the limits. *)
Theorem pop_restores s s2 :
  wf s -> rtc (step_above (S (get_num_scopes s))) (push s) s2 ->
  same_scope (pop (get_num_scopes s2 - get_num_scopes s) s2) s.
Proof. apply pop_restores_ok. Qed.

Lemma pop_restores_witness :
  let s2 := push (mk_const y_decl (push with_x)).2 in
  same_scope (pop (get_num_scopes s2 - get_num_scopes with_x) s2) with_x.
Proof.
  cbv zeta. apply (pop_restores with_x).
  - exact with_x_wf.
  - eapply rtc_l; [split; [apply (step_const y_decl 8); [reflexivity|lia]|vm_compute; lia]|].
    eapply rtc_l; [split; [apply step_push|vm_compute; lia]|]. apply rtc_refl.
Defined.

(** The invariant of every reachable state: the map is the keys with their
    values, each value is [mkbv] of as many new bits as the key's width, and no
    bit is used twice. *)
Theorem reachable_wf fresh s : rtc step (init fresh) s ->
  m_const2bits s = list_to_map (zip (m_keys s) (m_values s))
  /\ NoDup (m_keys s) /\ NoDup (m_newbits s)
  /\ exists groups, m_newbits s = concat groups
       /\ m_values s = map (fun ds => mk_mkbv (map decl_const ds)) groups
       /\ Forall2 (fun f ds => f.2 = BV_SORT (length ds)) (m_keys s) groups.
Proof.
  intros Hr. destruct (steps_wf _ _ Hr (init_wf fresh)) as [gs W].
  split; [apply W|]. split; [apply W|]. split; [apply W|]. exists gs.
  split; [apply W|]. split; [apply W|]. eapply Forall2_impl; [apply W|].
  by intros f ds (n & Hf & _ & <-).
Qed.

Lemma reachable_wf_witness :
  let s := (mk_const y_decl (push with_x)).2 in
  m_const2bits s = list_to_map (zip (m_keys s) (m_values s))
  /\ NoDup (m_keys s) /\ NoDup (m_newbits s)
  /\ exists groups, m_newbits s = concat groups
       /\ m_values s = map (fun ds => mk_mkbv (map decl_const ds)) groups
       /\ Forall2 (fun f ds => f.2 = BV_SORT (length ds)) (m_keys s) groups.
Proof.
  cbv zeta. apply (reachable_wf 100).
  eapply rtc_l; [apply (step_const x_decl 8); [reflexivity|lia]|].
  eapply rtc_l; [apply step_push|].
  eapply rtc_l; [apply (step_const y_decl 8); [reflexivity|lia]|]. apply rtc_refl.
Defined.

(** C32.  Giving constants their bits loses no interpretation.  Take a state a run has
    reached, an interpretation in which the constants so far have the values of
    their bits, any further operations and then [mk_const]: the constant is recorded
    with the term that is returned, and the interpretation can be changed on the
    bits made on the way alone so that every recorded constant, the new one
    included, has the value of its bits. *)
Theorem bits_conservative fresh s s1 (f : decl) n (I : interp) :
  rtc step (init fresh) s -> consistent I s -> rtc step s s1 -> f.2 = BV_SORT n -> (0 < n)%nat ->
  let '(r, s') := mk_const f s1 in
  m_const2bits s' !! f = Some r
  /\ exists I', consistent I' s' /\ eval I' r = eval I (decl_const f)
    /\ forall (d : decl) dom vs, ~ made s s' d -> I' d.1 dom d.2 vs = I d.1 dom d.2 vs.
Proof.
  intros H0 HI H1 Hf Hn. pose proof (steps_wf _ _ H0 (init_wf fresh)) as Hw. pose proof (mk_const_lookup f n s1 Hf) as Hl.
  assert (H2 : rtc step s (mk_const f s1).2) by (eapply rtc_r; [exact H1|by apply (step_const f n)]).
  destruct (steps_extension _ _ I H2 Hw HI) as (_ & I' & HI' & Hsame). destruct (mk_const f s1) as [r s'].
  split; [exact Hl|]. exists I'. split; [exact HI'|]. split; [|exact Hsame]. rewrite <- (HI' f r Hl). apply decl_const_eval.
  apply Hsame. intros [Hb _]. congruence.
Qed.

(** The bits of [x_decl] stay; those of [y_decl], after a scope that was left, are new. *)
Lemma bits_conservative_witness : let I : interp := fun f dom rng vs => if decide (rng = BOOL_SORT) then VBool true else VBV 8 255 in
  let s1 := pop 1 (mk_const y_decl (push with_x)).2 in
  let '(r, s') := mk_const y_decl s1 in
  m_const2bits s' !! y_decl = Some r
  /\ exists I', consistent I' s' /\ eval I' r = eval I (decl_const y_decl)
    /\ forall (d : decl) dom vs, ~ made with_x s' d -> I' d.1 dom d.2 vs = I d.1 dom d.2 vs.
Proof.
  cbv zeta. apply (bits_conservative 100 with_x _ y_decl 8).
  - eapply rtc_l; [apply (step_const x_decl 8); [reflexivity|lia]|]. apply rtc_refl.
  - intros f r Hr. assert (E : m_const2bits with_x = {[x_decl := (mk_const x_decl (init 100)).1]}) by (vm_compute; reflexivity).
    rewrite E in Hr. apply lookup_singleton_Some in Hr as [<- <-]. vm_compute. reflexivity.
  - eapply rtc_l; [apply step_push|]. eapply rtc_l; [apply (step_const y_decl 8); [reflexivity|lia]|].
    eapply rtc_l; [apply (step_pop 1); vm_compute; constructor|]. apply rtc_refl.
  - reflexivity.
  - lia.
Defined.

(** [end_rewrite] reports exactly the entries made since [start_rewrite],
    over those the caller's map had, and all the new bits. *)
Theorem end_rewrite_entries s c2b nb :
  wf s ->
  end_rewrite s c2b nb
  = (list_to_map (zip (drop (m_keypos s) (m_keys s)) (drop (m_keypos s) (m_values s))) ∪ c2b,
     nb ++ m_newbits s).
Proof. apply end_rewrite_ok. Qed.

Lemma end_rewrite_entries_witness : let s := (mk_const y_decl (start_rewrite with_x)).2 in
  end_rewrite s ∅ [] = (list_to_map (zip (drop 1 (m_keys s)) (drop 1 (m_values s))) ∪ ∅, [] ++ m_newbits s).
Proof.
  cbv zeta. apply (end_rewrite_entries (mk_const y_decl (start_rewrite with_x)).2).
  apply (mk_const_wf y_decl 8); [apply start_wf, with_x_wf|reflexivity|lia].
Defined.

(** [mk_const] gives a constant its bits once: the term is a vector of
    the constant's sort, a second call returns it without changing the state,
    and the entries of other constants stay. *)
Theorem mk_const_once (f : decl) n s :
  wf s -> f.2 = BV_SORT n -> (0 < n)%nat ->
  let '(r, s') := mk_const f s in
  get_sort r = Some (BV_SORT n) /\ mk_const f s' = (r, s') /\ keeps s s'
  /\ length (m_newbits s') = (length (m_newbits s) + if m_const2bits s !! f is Some _ then 0 else n)%nat.
Proof.
  intros Hw Hf Hn. pose proof (mk_const_wf f n s Hw Hf Hn) as Hw'.
  pose proof (mk_const_lookup f n s Hf) as Hl. pose proof (mk_const_keeps f n s Hf) as Hk.
  assert (Hb : length (m_newbits (mk_const f s).2)
             = (length (m_newbits s) + if m_const2bits s !! f is Some _ then 0 else n)%nat).
  { rewrite (mk_const_eq f n s Hf). destruct (m_const2bits s !! f); simpl; [lia|].
    unfold fresh_group. by rewrite length_app, length_map, length_seq. }
  destruct (mk_const f s) as [r s']. simpl in *. split; [|split; [|split; [done|done]]].
  - rewrite (wf_entry_sort s' f r Hw' Hl). by rewrite Hf.
  - rewrite (mk_const_eq f n s' Hf). by rewrite Hl.
Qed.

Lemma mk_const_once_witness :
  let '(r, s') := mk_const y_decl with_x in
  get_sort r = Some (BV_SORT 8) /\ mk_const y_decl s' = (r, s') /\ keeps with_x s'
  /\ length (m_newbits s') = (length (m_newbits with_x) + if m_const2bits with_x !! y_decl is Some _ then 0 else 8)%nat.
Proof. apply (mk_const_once y_decl 8 with_x); [exact with_x_wf|reflexivity|lia]. Defined.
