(* ===== verification/TraversalProps.v ===== *)
(** * TraversalProps: properties of the traversal of the rewriters *)
From Stdlib Require Import ZArith Lia.
From stdpp Require Import base list fin_maps gmap.
From S2P Require Import Prelude Bits UBits Ast AstFacts TermFacts BvTerms Gates Blast BlastFacts BoolRewriter BlasterCfg.
From S2P Require Import ActCache Rewriter RewriterSound BoolRewriterStar.
From S2P Require Import BlastRewriter BlastRewriterFacts BlastRewriterState BlasterRun Examples RewriterProps.
Import rewriter_tpl.

(** Every term is shared, so that every result is cached. *)
Definition shared {S C} (rw : machine S C) (t : expr) : nat := 2%nat.

(** C11.  The traversal is sound for every configuration that keeps its promises,
    for every cache and whatever terms are shared: each result has the sort of
    the term and its value in every interpretation the final state of the
    configuration admits, the machine is ready for the next term, and no access
    to its stacks is out of range.  Rewrites that are asked for again without end
    are the only way not to return. *)
Theorem main_loop_sound {S C} `{CfgOk : ConfigOk S} `{CacheOk C} ref_count retries fuel t (rw : machine S C) :
  ready rw -> good ok_op t ->
  spec_exn (fun e => raises e \/ e = ExDiverge) (main_loop ref_count retries fuel t rw) (fun '(r, rw') =>
    ext (m_cfg rw) (m_cfg rw') /\ ready rw' /\ agrees (models (m_cfg rw')) t r).
Proof.
  intros Hr Hg. eapply spec_exn_mono; [by apply main_loop_spec|done|]. intros [r rw'] (He & Hr' & Ha & _).
  by split_and!.
Qed.

Definition nested : expr := m.mk_and [p; m.mk_and [q; m.mk_eq x8 x8]; m.mk_ite m.mk_true q p].

Lemma main_loop_sound_witness :
  let cfg := star_config_ok (H := calm) all_rules in
  let rw := @new_rewriter unit act_cache.act_cache act_cache_Cache 10 tt in
  @spec_exn calm _ (fun e => raises (ConfigOk := cfg) e \/ e = ExDiverge)
    (@main_loop unit _ (star_config all_rules) act_cache_Cache calm shared 5 100 nested rw)
    (fun '(r, rw') => ext (ConfigOk := cfg) (m_cfg rw) (m_cfg rw') /\ ready (CfgOk := cfg) rw'
       /\ agrees (models (ConfigOk := cfg) (m_cfg rw')) nested r).
Proof.
  cbv zeta. apply (main_loop_sound (CfgOk := star_config_ok (H := calm) all_rules)).
  - by apply (new_rewriter_ready (CfgOk := star_config_ok (H := calm) all_rules)).
  - apply good_all; [done|]. by exists BOOL_SORT.
Defined.

(** What that run returns: the nested conjunction is flattened. *)
Example nested_run :
  match @main_loop unit _ (star_config all_rules) act_cache_Cache calm (fun _ _ => 1%nat) 5 100 nested
          (new_rewriter 10 tt) (mk_st 0 0) with
  | Ok (r, rw') _ => Some (r, m_num_steps rw')
  | Throw _ => None
  end = Some (m.mk_not (m.mk_or [m.mk_not p; m.mk_not q]), 7%Z).
Proof. vm_compute. reflexivity. Qed.

(** C16.  A configuration that asks for no further rewriting makes the traversal
    return, in at most [weight t] steps: nothing but the configuration's own
    exceptions and the environment interrupts it. *)
Theorem one_shot_returns {S C} `{CfgOk : ConfigOk S} `{!OneShot S} `{CacheOk C} ref_count retries fuel t
    (rw : machine S C) :
  (0 < retries)%nat -> (weight t <= fuel)%nat -> ready rw -> good ok_op t ->
  spec_exn raises (main_loop ref_count retries fuel t rw) (fun '(r, rw') =>
    ready rw' /\ agrees (models (m_cfg rw')) t r /\ out r).
Proof.
  intros Hn Hw Hr Hg. eapply spec_exn_mono; [by apply main_loop_total|done|]. intros [r rw'] (_ & Hr' & Ha & Ho).
  by split_and!.
Qed.

Definition sum_goal : expr := m.mk_eq (App OP_BADD [x8; App OP_BADD [x8; y8]]) (mk_numeral 4 8).

Lemma one_shot_returns_witness :
  let cfg := the_config_ok (H := calm) gates (OK := gates_promise) false false default_cfg 100 in
  let rw := @new_rewriter _ act_cache.act_cache act_cache_Cache 10 (init 100) in
  @spec_exn calm _ (raises (ConfigOk := cfg))
    (@main_loop _ _ (the_config (H := calm) gates false false default_cfg) act_cache_Cache calm shared 1 100 sum_goal rw)
    (fun '(r, rw') => ready (CfgOk := cfg) rw' /\ agrees (models (ConfigOk := cfg) (m_cfg rw')) sum_goal r
       /\ out (ConfigOk := cfg) r).
Proof.
  cbv zeta. apply (one_shot_returns (CfgOk := the_config_ok (H := calm) gates (OK := gates_promise) false false default_cfg 100)
    (OneShot0 := the_config_one_shot (H := calm) gates false false default_cfg)).
  - lia.
  - vm_compute. lia.
  - apply (new_rewriter_ready (CfgOk := the_config_ok (H := calm) gates (OK := gates_promise) false false default_cfg 100)).
    split; [apply init_wf|]. split; [done|constructor].
  - repeat (constructor; try reflexivity); by eexists.
Defined.

(** ** A rewrite that is lost *)

(** A configuration that rewrites the constant [p] to [(not q)], and asks for
    the result to be rewritten. *)
Definition renaming : Config unit := {|
  cache_results := true; cache_all_results := false; flat_assoc := fun _ => false;
  max_frames_exceeded := fun _ => false; max_steps_exceeded := fun _ => mret false;
  pre_visit := fun _ => true; get_subst := fun _ => None; get_macro := fun _ => None;
  reduce_app := fun o args s =>
    mret (if decide (App o args = p) then Some (BR_REWRITE1, m.mk_not q) else None, s);
|}.

Definition rename (t : expr) : option expr :=
  match @main_loop unit _ renaming act_cache_Cache calm shared 5 100 t (new_rewriter 10 tt) (mk_st 0 0) with
  | Ok (r, _) _ => Some r
  | Throw _ => None
  end.

(** A constant that is rewritten to an application is replaced when it is the
    whole term, but not below an application: the frame of the new application
    ends without telling its parent that an argument changed, and the parent is
    reused as it was. *)
Theorem constant_rewrite_lost :
  rename p = Some (m.mk_not q)
  /\ rename (m.mk_and [p; p]) = Some (m.mk_and [p; p]).
Proof. split; vm_compute; reflexivity. Qed.
