(* ===== verification/TacticProps.v ===== *)
(** * TacticProps: properties of bit-blasting a goal *)
From Stdlib Require Import ZArith Lia.
From stdpp Require Import base list fin_maps gmap.
From S2P Require Import Prelude Bits UBits Ast AstFacts TermFacts BvTerms Gates Blast BlastFacts BoolRewriter BlasterCfg.
From S2P Require Import ActCache Rewriter RewriterSound Goal.
From S2P Require Import BlastRewriter BlastRewriterFacts BlastRewriterState BlasterRun BlasterModel BitBlasterTactic.
From S2P Require Import Examples RewriterProps TraversalProps.
Import rewriter_tpl goal bit_blaster_model_converter blaster_rewriter_cfg.

Section Tactic.
Context `{Env} (m_use_wtm m_use_bcm : bool) (cfg : params) {C : Type} `{CacheOk C}.
Variable k : nat.
Variable ref_count : machine state C -> expr -> nat.
Variables retries fuel : nat.

Definition run := bit_blaster_tactic.run (G := gates) m_use_wtm m_use_bcm cfg ref_count retries fuel.

(** A goal the tactic accepts. *)
Definition acceptable (g : goal) : Prop := Forall (accepted cfg k fuel) (m_forms g) /\ m_inconsistent g = false.

(** C8.  The goal the tactic leaves is satisfiable exactly when the goal it got is:
    a model of either gives one of the other that differs on the bit-vector
    constants and on their new bits only. *)
Theorem bit_blast_equisatisfiable models_enabled n rw g :
  (0 < retries)%nat -> acceptable g -> usable k rw ->
  spec_exn (blaster_raises cfg) (run models_enabled n rw g) (fun '(g', _, rw') =>
    usable k rw'
    /\ (forall I, conj (m_forms g) I = true ->
          exists I', conj (m_forms g') I' = true
            /\ forall (d : decl) dom vs, d ∉ m_newbits (m_cfg rw') -> I' d.1 dom d.2 vs = I d.1 dom d.2 vs)
    /\ (forall I, conj (m_forms g') I = true -> exists I', conj (m_forms g) I' = true /\ same_but_bv I' I)).
Proof.
  intros Hn [Hg Hi] Hu. eapply spec_exn_mono; [by eapply (run_ok gates)|done|].
  intros [[g' mc] rw'] (Hu' & _ & [H1' H2'] & _). by split_and!.
Qed.

(** C7.  The model converter the tactic makes is right: whenever a model satisfies
    the goal the tactic left, and leaves the original bit-vector constants open,
    the converted model satisfies the original goal. *)
Theorem bit_blast_model_conversion n rw g :
  (0 < retries)%nat -> acceptable g -> usable k rw -> m_keys (m_cfg rw) = [] ->
  spec_exn (blaster_raises cfg) (run true n rw g) (fun '(g', mc, rw') =>
    forall md, model_ok md ->
      (forall x, is_Some (m_const2bits (m_cfg rw') !! x) -> get_const_interp x md = None) ->
      conj (m_forms g') (meaning md) = true ->
      conj (m_forms g) (meaning (match mc with Some mc => convert mc md | None => md end)) = true).
Proof.
  intros Hn [Hg Hi] Hu Hk. eapply spec_exn_mono; [by eapply (run_ok gates)|done|].
  intros [[g' mc] rw'] (_ & _ & _ & Hc). by apply Hc.
Qed.

(** C22.  Without a step bound, in an environment that does not interrupt it, the
    tactic returns. *)
Theorem bit_blast_returns models_enabled n rw g s :
  (0 < retries)%nat -> acceptable g -> usable k rw -> (2 ^ 32 - 1 <= m_max_steps cfg)%Z -> quiet ->
  exists g' mc rw' s', run models_enabled n rw g s = Ok (g', mc, rw') s' /\ usable k rw'.
Proof.
  intros Hn [Hg Hi] Hu Hs Hq.
  assert (Hspec : spec (run models_enabled n rw g) (fun '(_, _, rw') => usable k rw')).
  { apply spec_exn_none. eapply spec_exn_mono; [by eapply (run_ok gates)| |].
    - intros e [_ He]. lia.
    - by intros [[g' mc] rw'] (? & _). }
  destruct (spec_returns _ _ Hq Hspec s) as ([[g' mc] rw'] & s' & E & Hu'). by exists g', mc, rw', s'.
Qed.
End Tactic.

(** ** A goal *)

Definition goal_ex : goal := mk_goal [sum_goal; m.mk_or [App OP_ULEQ [x8; mk_numeral 3 8]; p]] false.

Definition rw_ex : machine state act_cache.act_cache := new_rewriter 10 (init 100).

Lemma rw_ex_usable : usable 100 rw_ex.
Proof. apply new_usable. Qed.

Lemma goal_ex_acceptable : acceptable default_cfg 100 100 goal_ex.
Proof.
  split; [|done]. repeat constructor; try done; try (by eexists); try (vm_compute; lia).
Qed.

Lemma bit_blast_equisatisfiable_witness :
  @spec_exn calm _ (blaster_raises default_cfg)
    (run (H := calm) false false default_cfg shared 1 100 true 10 rw_ex goal_ex) (fun '(g', _, rw') =>
    usable 100 rw'
    /\ (forall I, conj (m_forms goal_ex) I = true ->
          exists I', conj (m_forms g') I' = true
            /\ forall (d : decl) dom vs, d ∉ m_newbits (m_cfg rw') -> I' d.1 dom d.2 vs = I d.1 dom d.2 vs)
    /\ (forall I, conj (m_forms g') I = true -> exists I', conj (m_forms goal_ex) I' = true /\ same_but_bv I' I)).
Proof. apply (bit_blast_equisatisfiable (H := calm)); [lia|exact goal_ex_acceptable|exact rw_ex_usable]. Defined.

Lemma bit_blast_model_conversion_witness :
  @spec_exn calm _ (blaster_raises default_cfg)
    (run (H := calm) false false default_cfg shared 1 100 true 10 rw_ex goal_ex) (fun '(g', mc, rw') =>
    forall md, model_ok md ->
      (forall x, is_Some (m_const2bits (m_cfg rw') !! x) -> get_const_interp x md = None) ->
      conj (m_forms g') (meaning md) = true ->
      conj (m_forms goal_ex) (meaning (match mc with Some mc => convert mc md | None => md end)) = true).
Proof.
  apply (bit_blast_model_conversion (H := calm) false false default_cfg 100);
    [lia|exact goal_ex_acceptable|exact rw_ex_usable|reflexivity].
Defined.

Lemma bit_blast_returns_witness :
  exists g' mc rw' s', run (H := calm) false false default_cfg shared 1 100 true 10 rw_ex goal_ex (mk_st 0 0)
    = Ok (g', mc, rw') s' /\ usable 100 rw'.
Proof.
  apply (bit_blast_returns (H := calm) false false default_cfg 100);
    [lia|exact goal_ex_acceptable|exact rw_ex_usable|simpl; lia|exact calm_quiet].
Defined.

(** ** Goals *)

(** Adding a formula to a goal splits it without changing the conjunction: the
    loop ends, and the goal becomes [false] only when the conjunction is. *)
Theorem assert_expr_correct f g :
  m_inconsistent g = false ->
  exists g', assert_expr f g = Some g'
    /\ (forall I, conj (m_forms g') I = conj (m_forms g) I && bval I f)
    /\ (m_inconsistent g' = true -> m_forms g' = [m.mk_false]).
Proof.
  intros Hg. unfold assert_expr. rewrite Hg. destruct (quick_process_ok false f g Hg) as (f' & g' & -> & Hs).
  exists g'. split; [done|]. destruct Hs as [(E & F & Z)|(E & ps & F & P)]; rewrite F; split; try done; [| |congruence].
  - intros I. rewrite Z, andb_false_r. done.
  - intros I. rewrite conj_app, P. done.
Qed.

Lemma assert_expr_correct_witness :
  let f := m.mk_and [p; m.mk_not (m.mk_or [m.mk_not q; m.mk_not (m.mk_and [p; q])])] in
  exists g', assert_expr f goal_ex = Some g'
    /\ (forall I, conj (m_forms g') I = conj (m_forms goal_ex) I && bval I f)
    /\ (m_inconsistent g' = true -> m_forms g' = [m.mk_false]).
Proof. cbv zeta. apply assert_expr_correct. reflexivity. Defined.

(** Replacing a formula by a conjunction that starts with [false] does not make
    the goal inconsistent: the formula to be replaced stays in its place, and the
    conjunction is appended unsplit. *)
Theorem update_misses_false i a g :
  m_inconsistent g = false -> (i < length (m_forms g))%nat ->
  m.is_true a = false -> m.is_false a = false -> m.is_and a = None -> m.is_not a = None ->
  update i (m.mk_and [m.mk_false; a]) g
  = Some (mk_goal (m_forms g ++ [a; m.mk_and [m.mk_false; a]]) false).
Proof.
  intros Hg Hi Ht Hf Ha Hn. unfold update. rewrite Hg. unfold quick_process. change (splits (m.mk_and [m.mk_false; a])) with true.
  assert (E : nodes (m.mk_and [m.mk_false; a]) = S (S (nodes a))) by (unfold m.mk_and; simpl; lia). cbv iota. rewrite E.
  pose proof (nodes_pos a). destruct (nodes a) as [|n] eqn:En; [lia|].
  assert (Hp : push_back a g = mk_goal (m_forms g ++ [a]) false) by (unfold push_back; by rewrite Ht, Hf, Hg).
  assert (Hnil : forall sf f g, quick_loop n [] sf f g = Some (sf, f, g)) by (intros; by destruct n).
  cbn [quick_loop]. rewrite Hg. cbn. rewrite Ha, Hn, Hp, Hnil. cbn. unfold push_back. cbn. by rewrite <- app_assoc.
Qed.

Lemma update_misses_false_witness :
  update 0 (m.mk_and [m.mk_false; p]) goal_ex
  = Some (mk_goal (m_forms goal_ex ++ [p; m.mk_and [m.mk_false; p]]) false).
Proof. apply update_misses_false; try reflexivity. simpl. lia. Defined.

(** The formula the converter expands to is the formula and the definitions of
    the constants by their bits: it holds in the consistent interpretations in
    which the formula holds. *)
Theorem expand_defines s nb I fml :
  bval I (expand (of_map (m_const2bits s) nb) fml).1 = true <-> bval I fml = true /\ consistent I s.
Proof. apply expand_meaning. Qed.
