(* ===== verification/BoolRewriterProps.v ===== *)
(** * BoolRewriterProps: what the Boolean simplifier promises

    The theorems of [ast/rewriter/bool_rewriter.cpp], each with an instance on
    concrete terms. *)
From Stdlib Require Import ZArith Lia.
From stdpp Require Import base list.
From S2P Require Import Prelude Bits Ast AstFacts TermFacts.
From S2P Require Import BoolRewriter BoolRewriterSound BoolRewriterOr BoolRewriterApp Examples.

(** C29.  [bool_rewriter::mk_app] is sound under every configuration: whatever
    rules fire, the result has the sort and, under every interpretation, the
    value of the application it replaces; no loop runs out of fuel. *)
Theorem mk_app_sound `{Env} (rw : bool_rewriter) o args s :
  get_sort (App o args) = Some s ->
  spec (mk_app rw o args)
    (fun r => get_sort r = Some s /\ forall I, eval I r = eval I (App o args)).
Proof. apply mk_app_ok. Qed.

Lemma mk_app_sound_witness :
  get_sort (App OP_OR [p; m.mk_not (m.mk_or [p; q])]) = Some BOOL_SORT /\
  @spec calm _ (mk_app all_rules OP_OR [p; m.mk_not (m.mk_or [p; q])])
    (fun r => get_sort r = Some BOOL_SORT /\
       forall I, eval I r = eval I (App OP_OR [p; m.mk_not (m.mk_or [p; q])])).
Proof. split; [reflexivity|]. apply (@mk_app_sound calm). reflexivity. Defined.

(** [mk_app] terminates: when neither memory nor cancellation interrupts
    it, it returns a term, the local-context loop included. *)
Theorem mk_app_returns `{Env} (rw : bool_rewriter) o args s (st0 : st) :
  quiet -> get_sort (App o args) = Some s ->
  exists r st1, mk_app rw o args st0 = Ok r st1 /\ get_sort r = Some s.
Proof.
  intros Hq Hs. destruct (spec_returns _ _ Hq (mk_app_ok rw o args s Hs) st0) as (r & st1 & E & Hr & _).
  eauto.
Qed.

Lemma mk_app_returns_witness :
  exists r st1, mk_app all_rules OP_AND [p; m.mk_not q; p] (mk_st 0 0) = Ok r st1
                /\ get_sort r = Some BOOL_SORT.
Proof. apply (@mk_app_returns calm all_rules OP_AND _ BOOL_SORT _ calm_quiet). reflexivity. Defined.

(** C38.  The local-context simplifier of disjunctions is sound and its
    [while (true)] loop terminates: each pair of traversals that asks for
    another one has made the disjuncts strictly smaller. *)
Theorem local_ctx_simp_sound `{Env} (rw : bool_rewriter) args :
  Forall boolx args ->
  spec (local_ctx_simp rw args) (fun o =>
    match o with
    | Some r => boolx r /\ forall I, bval I r = existsb (bval I) args
    | None => True
    end).
Proof. apply local_ctx_simp_ok. Qed.

Lemma local_ctx_simp_sound_witness :
  @spec calm _ (local_ctx_simp all_rules [p; m.mk_ite p q p]) (fun o =>
    match o with
    | Some r => boolx r /\ forall I, bval I r = existsb (bval I) [p; m.mk_ite p q p]
    | None => True
    end).
Proof. apply (@local_ctx_simp_sound calm). repeat constructor. Defined.

(** The mutual recursion of [mk_not] and [mk_eq] terminates: the fuel the
    model gives it is enough, so [mk_not] satisfies the recursion equation of
    the code. *)
Theorem mk_not_equation (rw : bool_rewriter) t :
  boolx t ->
  mk_not rw t = match mk_not_core rw t with Some (_, r) => r | None => m.mk_not t end
  /\ weight (mk_not rw t) <= 1 + weight t.
Proof. intros Ht. split; [by apply mk_not_unfold|by apply mk_not_weight]. Qed.

Lemma mk_not_equation_witness :
  mk_not all_rules (m.mk_eq (m.mk_eq p q) q)
  = match mk_not_core all_rules (m.mk_eq (m.mk_eq p q) q) with
    | Some (_, r) => r
    | None => m.mk_not (m.mk_eq (m.mk_eq p q) q)
    end
  /\ weight (mk_not all_rules (m.mk_eq (m.mk_eq p q) q)) <= 1 + weight (m.mk_eq (m.mk_eq p q) q).
Proof. apply mk_not_equation. reflexivity. Defined.

(** [try_ite_value] on an if-then-else whose branches are values always
    finds a rule (the [VERIFY]s around its recursive calls hold), and the
    result means the equality it replaces. *)
Theorem try_ite_value_total c t e val s :
  boolx c -> value_of t s -> value_of e s -> value_of val s ->
  exists st r, try_ite_value (m.mk_ite c t e) val = Some (st, r)
    /\ boolx r /\ forall I, bval I r = bval I (m.mk_eq (m.mk_ite c t e) val).
Proof.
  intros Bc Ht He Hv. destruct (try_ite_value_values c t e val s Ht He Hv) as (st & r & E).
  exists st, r. split; [done|]. eapply try_ite_value_sound; [|apply Hv|exact E].
  apply get_sort_ite. split; [done|]. split; [apply Ht|apply He].
Qed.

Lemma try_ite_value_total_witness :
  exists st r, try_ite_value (m.mk_ite p (mk_numeral 3 8) (mk_numeral 5 8)) (mk_numeral 5 8) = Some (st, r)
    /\ boolx r /\ forall I, bval I r
       = bval I (m.mk_eq (m.mk_ite p (mk_numeral 3 8) (mk_numeral 5 8)) (mk_numeral 5 8)).
Proof. apply (try_ite_value_total _ _ _ _ (BV_SORT 8)); repeat split. Defined.
