(* ===== verification/BvRewriterProps.v ===== *)
(** * BvRewriterProps: what the bit-vector simplifier promises

    The theorems of [ast/rewriter/bv_rewriter.cpp], each with an instance on
    concrete terms. *)
From Stdlib Require Import ZArith Lia.
From stdpp Require Import base list.
From S2P Require Import Prelude Bits Mpz Ast BvUtil AstFacts TermFacts BvTerms BoolRewriter BvRewriter BvBitwise.
From S2P Require Import BvRewriterBits BvRewriterCmp BvBitwiseSound Examples.
Import bv_rewriter.

Local Open Scope Z_scope.

(** Every option of the simplifier on, with the limits of its defaults. *)
Definition all_options : params := {|
  m_hi_div0 := true; m_elim_sign_ext := true; m_mul2concat := true; m_bit2bool := true; m_blast_eq_value := true;
  m_mkbv2num := true; m_ite2id := true; m_split_concat_eq := true; m_udiv2mul := false; m_bvnot2arith := true;
  m_bv_sort_ac := true; m_trailing := true; m_extract_prop := true; m_bvnot_simpl := true; m_le_extra := true;
  m_urem_simpl := true; m_flat := true; m_som := false; m_som_blowup := 10; m_sort_sums := true;
  m_hoist_mul := false; m_hoist_cmul := true; m_ast_order := true |}.

(** A comparison for the sort, and insertion sort. *)
Definition by_args (a b : expr) : bool := let 'App _ l := a in let 'App _ k := b in (length l <? length k)%nat.

Fixpoint insert_by (lt : expr -> expr -> bool) (a : expr) (l : list expr) : list expr :=
  match l with [] => [a] | b :: l => if lt a b then a :: b :: l else b :: insert_by lt a l end.

Definition insertion_sort (lt : expr -> expr -> bool) (l : list expr) : list expr := foldr (insert_by lt) [] l.

Lemma insert_by_perm lt a l : insert_by lt a l ≡ₚ a :: l.
Proof. induction l as [|b l IH]; simpl; [done|]. destruct (lt a b); [done|]. rewrite IH. constructor. Qed.

Lemma insertion_sort_perm lt l : insertion_sort lt l ≡ₚ l.
Proof. induction l as [|a l IH]; simpl; [done|]. by rewrite insert_by_perm, IH. Qed.

(** ** Comparison *)

(** The rules of [mk_leq_core] are sound for signed and unsigned comparison
    under every setting of the options: comparison with the bounds of the range,
    of sums that differ in a numeral, of concatenations with numerals in front or a
    common beginning or end, of a remainder, and with known high zero bits. *)
Theorem mk_leq_core_sound (cfg : params) (is_signed : bool) n a b st r :
  get_sort a = Some (BV_SORT n) -> get_sort b = Some (BV_SORT n) ->
  mk_leq_core cfg is_signed a b = Some (st, r) ->
  get_sort r = Some BOOL_SORT /\
  forall I, bval I r = (if is_signed then bv_sle n (vn I a) (vn I b) else bv_ule (vn I a) (vn I b)).
Proof.
  intros Ha Hb H. destruct (mk_leq_core_ok cfg n is_signed a b st r Ha Hb H) as [Br Vr]. split; [done|].
  intros I. rewrite Vr. by destruct is_signed.
Qed.

Definition sum (c : Z) : expr := App OP_BADD [mk_numeral c 8; x8].

Lemma mk_leq_core_sound_witness :
  mk_leq_core all_options false (sum 3) (sum 2)
    = Some (BR_REWRITE2, m.mk_eq x8 (mk_numeral 253 8)) /\
  forall I, bval I (m.mk_eq x8 (mk_numeral 253 8)) = bv_ule (vn I (sum 3)) (vn I (sum 2)).
Proof.
  split; [vm_compute; reflexivity|].
  apply (mk_leq_core_sound all_options false 8 (sum 3) (sum 2) BR_REWRITE2 (m.mk_eq x8 (mk_numeral 253 8)));
    vm_compute; reflexivity.
Defined.

(** ** Bitwise operators *)

(** C25.  The rules for disjunction and exclusive or are sound under every setting of
    the options and every order of the arguments: flattening, repeated and
    complementary arguments, numerals as masks, concatenations without common
    bits. *)
Theorem bitwise_rules_sound (cfg : params) lt std_sort args st r :
  (forall l, std_sort lt l ≡ₚ l) ->
  (bitwise.mk_bv_or cfg lt std_sort args = Some (st, r) -> App OP_BOR args ~> r) /\
  (bitwise.mk_bv_xor cfg lt std_sort args = Some (st, r) -> App OP_BXOR args ~> r).
Proof. intros H. split; [by apply mk_bv_or_ok|by apply mk_bv_xor_ok]. Qed.

Definition masked : list expr := [x8; mk_numeral 240 8].

Lemma bitwise_rules_sound_witness :
  App OP_BOR masked ~> App OP_CONCAT [mk_numeral 15 4; App (OP_EXTRACT 3 0) [x8]] /\
  App OP_BXOR masked ~> App OP_CONCAT [App (OP_EXTRACT 7 4) [App OP_BNOT [x8]]; App (OP_EXTRACT 3 0) [x8]].
Proof.
  split.
  - apply (bitwise_rules_sound all_options by_args insertion_sort masked BR_REWRITE2); [apply insertion_sort_perm|].
    vm_compute. reflexivity.
  - apply (bitwise_rules_sound all_options by_args insertion_sort masked BR_REWRITE3); [apply insertion_sort_perm|].
    vm_compute. reflexivity.
Defined.

(** The bitwise operations of [mpz_manager], which take unbounded naturals apart
    into 64-bit words, are those of the integers, and their loops end. *)
Theorem bitwise_words_exact (a b : Z) (sz : nat) :
  0 <= a -> 0 <= b ->
  mpz.bitwise_or a b = Z.lor a b /\ mpz.bitwise_and a b = Z.land a b /\ mpz.bitwise_xor a b = Z.lxor a b
  /\ (a < pow2 sz -> mpz.bitwise_not sz a = pow2 sz - 1 - a).
Proof.
  intros Ha Hb. split_and!; [by apply bitwise_or_spec|by apply bitwise_and_spec|by apply bitwise_xor_spec|].
  intros Hs. by apply bitwise_not_spec.
Qed.

Lemma bitwise_words_exact_witness :
  0 <= 2 ^ 70 + 5 /\ mpz.bitwise_or (2 ^ 70 + 5) (2 ^ 64 + 2) = 2 ^ 70 + 2 ^ 64 + 7
  /\ mpz.bitwise_not 71 (2 ^ 70 + 5) = 2 ^ 70 - 6.
Proof.
  split; [lia|].
  pose proof (bitwise_words_exact (2 ^ 70 + 5) (2 ^ 64 + 2) 71 ltac:(lia) ltac:(lia)) as (Ho & _ & _ & Hn).
  rewrite Ho, Hn by (vm_compute; reflexivity). split; vm_compute; reflexivity.
Defined.

(** ** A test that reads signed numerals as unsigned *)

(** [mk_bvsmul_no_overflow] compares the product of its numerals, read as
    unsigned numbers, with the signed bound, and takes 1 for harmless at every
    width.  On -1 and -1 it is wrong at every width: beyond one bit it rewrites
    the test to false although the product is 1, and at one bit to true although
    the product, 1, is not a signed number of one bit. *)
Theorem smul_no_overflow_wrong n I :
  (0 < n)%nat ->
  exists r, mk_bvsmul_no_overflow (mk_numeral (-1) n) (mk_numeral (-1) n) = Some (BR_DONE, r)
  /\ bval I r = negb (bval I (App OP_BSMUL_NO_OVFL [mk_numeral (-1) n; mk_numeral (-1) n])).
Proof.
  intros Hn. destruct (smul_test_unsigned n I Hn) as [-> ->]. eexists. split; [done|].
  rewrite negb_involutive. by destruct (n =? 1)%nat.
Qed.

Lemma smul_no_overflow_wrong_witness :
  (0 < 8)%nat /\
  exists r, mk_bvsmul_no_overflow (mk_numeral 255 8) (mk_numeral 255 8) = Some (BR_DONE, r)
  /\ bval (fun _ _ _ _ => VBool true) r = false /\ bval (fun _ _ _ _ => VBool true) (App OP_BSMUL_NO_OVFL [mk_numeral 255 8; mk_numeral 255 8]) = true.
Proof.
  split; [lia|]. destruct (smul_no_overflow_wrong 8 (fun _ _ _ _ => VBool true) ltac:(lia)) as (r & E & V).
  exists r. split; [exact E|]. rewrite V. split; vm_compute; reflexivity.
Defined.
