(* ===== verification/BvEqProps.v ===== *)
(** * BvEqProps: what the rules for equations, sums and products promise

    The theorems of [bv_rewriter::mk_eq_core], [poly_rewriter_def.h] and
    [bv_trailing.cpp], each with an instance on concrete terms. *)
From Stdlib Require Import ZArith Lia.
From stdpp Require Import base list.
From S2P Require Import Prelude Bits UBits Ast BvUtil AstFacts TermFacts BvTerms BoolRewriter.
From S2P Require Import BvRewriter PolyRewriter BvApp BvTrailing BvEq BvRewriterBits BvRewriterCmp PolyRewriterSound PolyRewriterAdd.
From S2P Require Import BvTrailingSound BvArithSound BvEqSound Examples BvRewriterProps.
Import bv_rewriter poly_rewriter.

Local Open Scope Z_scope.

Definition ids (e : expr) : Z := match e with App (OP_UNINTERP k _ _) _ => Z.of_nat k | _ => 0 end.

(** ** Equations *)

(** C26.  [mk_eq_core] replaces an equation of bit vectors by a Boolean term that is
    true exactly when the sides are equal, for every order of the terms, every
    sorting function, and a cache of trailing zeros whose entries are right, which
    they stay.  All settings of the options are allowed but two: with [urem_simpl] no
    remainder on a side may have a zero divisor, and with [trailing] the sides may be
    sums, products and concatenations only whose parts are not compound again;
    without these conditions the rules are wrong. *)
Theorem mk_eq_core_sound (cfg : params) lt get_id std_sort n lhs rhs c r c' :
  (forall r l, std_sort r l ≡ₚ l) ->
  get_sort lhs = Some (BV_SORT n) -> get_sort rhs = Some (BV_SORT n) -> cache_ok c ->
  m_urem_simpl cfg = false \/ (divisor_ok lhs && divisor_ok rhs = true) ->
  m_trailing cfg = false \/ (plain lhs && plain rhs = true) ->
  eq.mk_eq_core cfg lt get_id std_sort lhs rhs c = Some (r, c') ->
  cache_ok c' /\
  match r with
  | Some (_, e) => get_sort e = Some BOOL_SORT /\ forall I, bval I e = (vn I lhs =? vn I rhs)
  | None => True
  end.
Proof. intros Hs Hl Hr Hc Hu Ht H. exact (bv_eq_core_ok cfg lt get_id std_sort Hs n lhs rhs c r c' Hl Hr Hc Hu Ht H). Qed.

Definition mul_add (c d : Z) (x : expr) : expr := App OP_BADD [mk_numeral d 8; App OP_BMUL [mk_numeral c 8; x]].

Lemma mk_eq_core_sound_witness :
  let r := m.mk_eq (App OP_BADD [mk_numeral 2 6; bv_util.mk_extract 5 0 x8])
                   (App OP_BMUL [mk_numeral 3 6; bv_util.mk_extract 5 0 y8]) in
  (exists c, eq.mk_eq_core all_options by_args ids insertion_sort (mul_add 4 8 x8) (App OP_BMUL [mk_numeral 12 8; y8]) []
             = Some (Some (BR_REWRITE2, r), c) /\ cache_ok c) /\
  get_sort r = Some BOOL_SORT /\
  forall I, bval I r = (vn I (mul_add 4 8 x8) =? vn I (App OP_BMUL [mk_numeral 12 8; y8])).
Proof.
  intros r. assert (H : forall c, eq.mk_eq_core all_options by_args ids insertion_sort
      (mul_add 4 8 x8) (App OP_BMUL [mk_numeral 12 8; y8]) [] = Some (Some (BR_REWRITE2, r), c) ->
      cache_ok c /\ get_sort r = Some BOOL_SORT /\
      forall I, bval I r = (vn I (mul_add 4 8 x8) =? vn I (App OP_BMUL [mk_numeral 12 8; y8]))).
  { intros c. apply (mk_eq_core_sound all_options by_args ids insertion_sort 8);
      [apply insertion_sort_perm|reflexivity|reflexivity|constructor|right; reflexivity|right; reflexivity]. }
  destruct (eq.mk_eq_core all_options by_args ids insertion_sort (mul_add 4 8 x8) (App OP_BMUL [mk_numeral 12 8; y8]) [])
    as [[[[st e]|] c]|] eqn:E; vm_compute in E; try discriminate E.
  injection E as <- <- <-. destruct (H _ eq_refl) as [Hc Hr]. split; [|exact Hr]. eexists. split; [reflexivity|exact Hc].
Defined.

Lemma urem_zero_holds n x : bvx n x -> holds n (fun I => vn I x) (App OP_BUREM [x; mk_numeral 0 n]).
Proof.
  intros Hx. pose proof (bvx_pos n x Hx) as Hn.
  eapply holds_ext; [apply (holds_op2 OP_BUREM n _ _ x (mk_numeral 0 n) (holds_refl n x Hx) (holds_num n 0 Hn))|].
  intros I. simpl. by rewrite Z.mod_0_l by (pose proof (pow2_pos n); lia).
Qed.

(** [urem_eq] is wrong for a zero divisor, which the operator admits: with the
    option for remainders, and trailing zeros left alone, [mk_eq_core] makes
    [(= (bvurem x 0) v)] false although it says that [x] is [v]. *)
Theorem urem_zero_wrong (cfg : params) lt get_id std_sort n x v c I :
  (1 < n)%nat -> bvx n x -> 0 <= v < pow2 n -> m_urem_simpl cfg = true -> m_trailing cfg = false ->
  let lhs := App OP_BUREM [x; mk_numeral 0 n] in
  let rhs := mk_numeral v n in
  eq.mk_eq_core cfg lt get_id std_sort lhs rhs c = Some (Some (BR_DONE, m.mk_false), c)
  /\ (vn I lhs =? vn I rhs) = (vn I x =? v).
Proof.
  intros Hn Hx Hv Hu Ht lhs rhs. destruct (urem_zero_holds n x Hx) as [Bl Vl].
  assert (Hr : rhs = App (OP_BV_NUM v n) []) by (unfold rhs, mk_numeral, mk_num_decl; by rewrite Z.mod_small).
  split.
  - assert (Hb : mk_bit2bool_eq lhs rhs = None).
    { unfold mk_bit2bool_eq. rewrite (get_bv_size_eq n lhs Bl). by destruct n as [|[|?]]; [lia|lia|]. }
    unfold eq.mk_eq_core. rewrite decide_False by (rewrite Hr; done). change (is_num lhs) with false. cbn [andb].
    rewrite Hb, Ht. cbn [mbind option_bind]. rewrite Hr. unfold eq.eq_rules. rewrite Hu.
    replace (if m_blast_eq_value cfg then _ else None) with (@None (br_status * expr)).
    + cbn. unfold lhs, mk_numeral, mk_num_decl. rewrite Z.mod_0_l by (pose proof (pow2_pos n); lia). simpl.
      rewrite (proj2 (Z.leb_le 0 v)) by lia. by destruct (m_bit2bool cfg).
    + unfold eq.mk_blast_eq_value. rewrite (get_bv_size_eq n lhs Bl). destruct (m_blast_eq_value cfg); [|done].
      by destruct (n =? 1)%nat.
  - rewrite Vl. unfold rhs. by rewrite (proj2 (holds_num n v ltac:(lia))), Z.mod_small.
Qed.

Lemma urem_zero_wrong_witness :
  let cfg := {| m_hi_div0 := false; m_elim_sign_ext := true; m_mul2concat := false; m_bit2bool := true; m_blast_eq_value := false;
    m_mkbv2num := false; m_ite2id := false; m_split_concat_eq := false; m_udiv2mul := false; m_bvnot2arith := false;
    m_bv_sort_ac := false; m_trailing := false; m_extract_prop := false; m_bvnot_simpl := false; m_le_extra := false;
    m_urem_simpl := true; m_flat := true; m_som := false; m_som_blowup := 10; m_sort_sums := false;
    m_hoist_mul := false; m_hoist_cmul := false; m_ast_order := false |} in
  let lhs := App OP_BUREM [x8; mk_numeral 0 8] in
  (1 < 8)%nat /\ eq.mk_eq_core cfg by_args ids insertion_sort lhs (mk_numeral 7 8) [] = Some (Some (BR_DONE, m.mk_false), [])
  /\ (vn (fun _ _ _ _ => VBV 8 7) lhs =? vn (fun _ _ _ _ => VBV 8 7) (mk_numeral 7 8)) = true.
Proof.
  intros cfg lhs. split; [lia|].
  destruct (urem_zero_wrong cfg by_args ids insertion_sort 8 x8 7 [] (fun _ _ _ _ => VBV 8 7)) as [H1 H2];
    [lia|reflexivity|vm_compute; split; [discriminate|reflexivity]|reflexivity|reflexivity|].
  split; [exact H1|]. etransitivity; [exact H2|]. vm_compute. reflexivity.
Defined.

(** ** Sums and products *)

(** C27.  The rules for sums and products compute the sum and the product modulo the
    power of two of the width, under every setting of the options (flattening,
    sums of monomials, hoisting, orders), every numbering of terms and every
    sort.  Every loop ends; the one exception a product can raise, besides those
    of the environment, is the bound on the sum of monomials. *)
Theorem sums_products_sound `{Env} (cfg : params) lt get_id std_sort n args :
  (forall r l, std_sort r l ≡ₚ l) -> (0 < n)%nat -> Forall (bvx n) args ->
  (forall st r, mk_add_core cfg lt get_id std_sort n args = Some (st, r) ->
     bvx n r /\ forall I, vn I r = sumz (map (vn I) args) mod pow2 n) /\
  spec_exn (fun e => e = ExSomBlowup) (mk_mul_core cfg lt get_id std_sort n args)
    (fun res => forall st r, res = Some (st, r) -> bvx n r /\ forall I, vn I r = prodz (map (vn I) args) mod pow2 n).
Proof.
  intros Hs Hn Ha. assert (Hden : forall F e, den n F e -> bvx n e /\ forall I, vn I e = F I mod pow2 n).
  { intros F e [B V]. split; [done|]. intros I. by rewrite <- (V I), Z.mod_small by (by apply vn_bounds). }
  split.
  - intros st r E. apply Hden. pose proof (mk_add_core_ok cfg lt get_id std_sort Hs n Hn args Ha) as Hr. by rewrite E in Hr.
  - eapply spec_exn_mono; [by apply (mk_mul_core_ok cfg lt get_id std_sort Hs n Hn args Ha)|done|].
    intros res Hr st r ->. by apply Hden.
Qed.

Definition summands : list expr := [mul_add 3 8 x8; y8; x8].
Definition factors : list expr := [x8; mk_numeral 3 8; App OP_BMUL [y8; mk_numeral 86 8]].

Lemma sums_products_sound_witness :
  let sum := App OP_BADD [mk_numeral 8 8; y8; App OP_BMUL [mk_numeral 4 8; x8]] in
  let product := App OP_BMUL [mk_numeral 2 8; App OP_BMUL [x8; y8]] in
  (mk_add_core all_options by_args ids insertion_sort 8 summands = Some (BR_DONE, sum)
   /\ forall I, vn I sum = sumz (map (vn I) summands) mod pow2 8) /\
  forall s, mk_mul_core all_options by_args ids insertion_sort 8 factors s = Ok (Some (BR_DONE, product)) s
   /\ forall I, vn I product = prodz (map (vn I) factors) mod pow2 8.
Proof.
  intros sum product.
  assert (Hs : Forall (bvx 8) summands) by (repeat constructor).
  assert (Hf : Forall (bvx 8) factors) by (repeat constructor).
  split.
  - assert (E : mk_add_core all_options by_args ids insertion_sort 8 summands = Some (BR_DONE, sum)) by (vm_compute; reflexivity).
    split; [exact E|].
    destruct (@sums_products_sound calm all_options by_args ids insertion_sort 8 summands insertion_sort_perm ltac:(lia) Hs) as [H _].
    apply (H _ _ E).
  - intros s. assert (E : mk_mul_core all_options by_args ids insertion_sort 8 factors s = Ok (Some (BR_DONE, product)) s)
      by (vm_compute; reflexivity).
    split; [exact E|].
    destruct (@sums_products_sound calm all_options by_args ids insertion_sort 8 factors insertion_sort_perm ltac:(lia) Hf) as [_ H].
    specialize (H s). rewrite E in H. apply (H _ _ eq_refl).
Defined.

(** C28.  [cancel_monomials] keeps the difference of the two sides modulo the power of
    two, so that an equation of the results says what the equation of the
    arguments says, with the monomials moved to the left or not. *)
Theorem cancel_monomials_equivalent (cfg : params) lt get_id std_sort n lhs rhs move l r :
  (forall r l, std_sort r l ≡ₚ l) -> (0 < n)%nat -> bvx n lhs -> bvx n rhs ->
  cancel_monomials cfg lt get_id std_sort n lhs rhs move = Some (l, r) ->
  bvx n l /\ bvx n r /\
  forall I, (vn I l - vn I r) mod pow2 n = (vn I lhs - vn I rhs) mod pow2 n /\ (vn I l = vn I r <-> vn I lhs = vn I rhs).
Proof.
  intros Hs Hn Hl Hr E. destruct (cancel_monomials_ok cfg lt get_id std_sort Hs n Hn lhs rhs move l r Hl Hr E) as (Bl & Br & V).
  split; [done|]. split; [done|]. intros I. split; [apply V|by eapply cancel_monomials_iff].
Qed.

Lemma cancel_monomials_equivalent_witness :
  let lhs := mul_add 3 8 x8 in let rhs := App OP_BADD [App OP_BMUL [mk_numeral 3 8; x8]; y8] in
  cancel_monomials all_options by_args ids insertion_sort 8 lhs rhs false = Some (mk_numeral 8 8, y8)
  /\ forall I, vn I (mk_numeral 8 8) = vn I y8 <-> vn I lhs = vn I rhs.
Proof.
  intros lhs rhs.
  assert (E : cancel_monomials all_options by_args ids insertion_sort 8 lhs rhs false = Some (mk_numeral 8 8, y8))
    by (vm_compute; reflexivity).
  split; [exact E|].
  destruct (cancel_monomials_equivalent all_options by_args ids insertion_sort 8 lhs rhs false (mk_numeral 8 8) y8
    insertion_sort_perm ltac:(lia) eq_refl eq_refl E) as (_ & _ & H).
  intros I. apply H.
Defined.

(** C40.  [mult_inverse] finds the inverse modulo the power of two of every odd
    number, and of no even one: its loop, Euclid's extended algorithm, ends within the
    bits of both numbers. *)
Theorem mult_inverse_exact n k :
  0 <= n < pow2 k ->
  match bv_util.mult_inverse n k with
  | Some x => n mod 2 = 1 /\ (x * n) mod pow2 k = 1 mod pow2 k
  | None => n mod 2 = 0
  end.
Proof. apply mult_inverse_total. Qed.

Lemma mult_inverse_exact_witness :
  0 <= 171 < pow2 8 /\ bv_util.mult_inverse 171 8 = Some 3.
Proof.
  assert (H : 0 <= 171 < pow2 8) by (vm_compute; split; [discriminate|reflexivity]).
  split; [exact H|]. pose proof (mult_inverse_exact 171 8 H) as E. vm_compute in E |- *.
  destruct E as [_ E]. reflexivity.
Defined.

(** ** Trailing zeros *)

(** C39.  [count_trailing] with its cache computes what the analysis without a cache
    does, from every cache of such results, and the number of trailing zeros of
    the term lies within the bounds it returns, under every interpretation. *)
Theorem count_trailing_refines d n e c :
  bvx n e -> cache_ok c ->
  let '(b, c') := bv_trailing.count_trailing d e c in
  cache_ok c' /\ b = trailing d e /\ (b.1 <= b.2 <= n)%nat /\
  forall I, (pow2 b.1 | vn I e) /\ ((b.2 < n)%nat -> ~ (pow2 (S b.2) | vn I e)).
Proof.
  intros He Hc. pose proof (count_trailing_ok d e c Hc) as [E Hc']. destruct (bv_trailing.count_trailing d e c) as [b c'].
  simpl in E, Hc'. subst b. split; [done|]. split; [done|].
  split; [by destruct (trailing_ok d n e (fun _ _ _ _ => VBool false) He) as (? & ? & _)|].
  intros I. by destruct (trailing_ok d n e I He) as (_ & _ & ?).
Qed.

Lemma count_trailing_refines_witness :
  let e := mul_add 4 8 x8 in
  (bvx 8 e /\ cache_ok []) /\ fst (bv_trailing.count_trailing 5 e []) = (2%nat, 8%nat) /\ forall I, (4 | vn I e).
Proof.
  intros e. assert (H : bvx 8 e /\ cache_ok []) by (split; [reflexivity|constructor]). split; [exact H|].
  pose proof (count_trailing_refines 5 8 e [] (proj1 H) (proj2 H)) as R.
  vm_compute bv_trailing.count_trailing in R. destruct R as (_ & _ & _ & R).
  split; [vm_compute; reflexivity|]. intros I. apply (proj1 (R I)).
Defined.

Definition w2 : expr := mk_const 4 (BV_SORT 2).
Definition w4 : expr := mk_const 5 (BV_SORT 4).
Definition z8 : expr := mk_const 6 (BV_SORT 8).

(** A product within a concatenation, and a concatenation within one within a product. *)
Definition inner_product : expr := App OP_CONCAT [w2; App OP_BMUL [mk_numeral 4 4; w4]; mk_numeral 0 2].
Definition inner_concat : expr :=
  App OP_BMUL [App OP_CONCAT [mk_numeral 1 2; App OP_CONCAT [w2; mk_numeral 0 2]; mk_numeral 0 2]; y8].

(** Without the condition on the parts of concatenations [eq_remove_trailing]
    goes wrong, since [remove_trailing_concat] passes on the number of zeros
    asked for and not what is left of it, and takes an argument nothing was
    removed from for one that is gone.  On one equation of eight bits a [VERIFY]
    fails; another is replaced by an equation that holds where it does not. *)
Theorem remove_trailing_concat_wrong :
  get_sort inner_product = Some (BV_SORT 8) /\ get_sort inner_concat = Some (BV_SORT 8) /\
  bv_trailing.eq_remove_trailing inner_product (App OP_BMUL [mk_numeral 8 8; z8]) [] = None /\
  let rhs := App OP_BMUL [mk_numeral 16 8; z8] in
  exists r c I, bv_trailing.eq_remove_trailing inner_concat rhs [] = Some (Some (BR_REWRITE2, r), c)
    /\ bval I r = true /\ vn I inner_concat <> vn I rhs.
Proof.
  split_and!; [reflexivity|reflexivity|vm_compute; reflexivity|].
  exists (m.mk_eq (bv_util.mk_extract 3 0 y8) (bv_util.mk_extract 3 0 z8)). eexists.
  exists (fun f _ _ _ => match f with 4%nat => VBV 2 1 | _ => VBV 8 1 end).
  split; [vm_compute; reflexivity|]. split; [vm_compute; reflexivity|]. vm_compute. discriminate.
Qed.
