(* ===== verification/ThRewriterProps.v ===== *)
(** * ThRewriterProps: what the simplifier promises

    The theorems of [th_rewriter], which joins the Boolean and the bit-vector
    rewriter, and of [bv_rewriter::mk_app_core], with instances on concrete
    terms. *)
From Stdlib Require Import ZArith Lia.
From stdpp Require Import base list.
From S2P Require Import Prelude Bits Ast BvUtil AstFacts TermFacts BvTerms BoolRewriter BvRewriter BvApp PolyRewriterSound BvArithSound.
From S2P Require Import ActCache Rewriter RewriterSound ThRewriter ThRewriterSound Goal SimplifyTactic Examples BvRewriterProps BvEqProps.
Import rewriter_tpl th_rewriter.

Local Open Scope Z_scope.

(** ** The bit-vector simplifier *)

(** C13.  [bv_rewriter::mk_app_core], the dispatch for the bit-vector operators
    (equations and if-then-else are rewritten elsewhere): where a rule fires on a
    well-sorted application it yields a term of the same sort and, under every
    interpretation, the same value.  This holds for every order of the arguments and
    every setting of the options, with three exceptions: the option [udiv2mul] must
    be off, as division is not multiplication by an inverse; the test for signed
    overflow of a product is left out, as its rule is wrong; and with the option
    [mul2concat] a product must be flattened and have two arguments or more.  No rule
    runs out of fuel; the only exception raised gives a product of sums up for its
    size. *)
Theorem bv_mk_app_core_sound `{Env} (cfg : bv_rewriter.params) lt get_id get_ref_count std_sort o args s :
  (forall r l, std_sort r l ≡ₚ l) ->
  get_sort (App o args) = Some s -> bv_rewriter.m_udiv2mul cfg = false -> o <> OP_BSMUL_NO_OVFL ->
  (o = OP_BMUL -> bv_rewriter.m_mul2concat cfg = false \/ (bv_rewriter.m_flat cfg = true /\ (2 <= length args)%nat)) ->
  spec_exn (fun e => e = ExSomBlowup) (bv_app.mk_app_core cfg lt get_id get_ref_count std_sort o args) (fun res =>
    forall st r, res = Some (st, r) -> get_sort r = Some s /\ forall I, eval I r = eval I (App o args)).
Proof.
  intros Hp Hs Hd Ho Hm. eapply spec_exn_mono;
    [by apply (mk_app_core_keeps cfg lt get_id get_ref_count std_sort Hp o args s)|done|].
  intros res Hr st r ->. by apply Hr.
Qed.

Lemma bv_mk_app_core_sound_witness :
  let args := [mk_numeral 2 8; App OP_BMUL [mk_numeral 2 8; x8]] in
  let r := App OP_CONCAT [bv_util.mk_extract 5 0 x8; mk_numeral 0 2] in
  bv_app.mk_app_core all_options by_args ids (fun _ => 1%nat) insertion_sort OP_BMUL args (mk_st 0 0)
    = Ok (Some (BR_REWRITE2, r)) (mk_st 0 0)
  /\ get_sort r = Some (BV_SORT 8) /\ forall I, eval I r = eval I (App OP_BMUL args).
Proof.
  intros args r.
  pose proof (@bv_mk_app_core_sound calm all_options by_args ids (fun _ => 1%nat) insertion_sort OP_BMUL args (BV_SORT 8)
    insertion_sort_perm eq_refl eq_refl ltac:(discriminate) ltac:(right; split; [reflexivity|simpl; lia]) (mk_st 0 0)) as H.
  assert (E : bv_app.mk_app_core all_options by_args ids (fun _ => 1%nat) insertion_sort OP_BMUL args (mk_st 0 0)
    = Ok (Some (BR_REWRITE2, r)) (mk_st 0 0)) by (vm_compute; reflexivity).
  rewrite E in H. split; [exact E|]. apply (H _ _ eq_refl).
Defined.

(** ** The simplifier on whole terms *)

(** C12.  [th_rewriter] is sound on whole terms: on a fresh machine, with any cache of
    results and whatever terms are shared, a traversal that returns yields a term of the
    same sort and, unless it met the test for signed overflow of a multiplication, of
    the same value under every interpretation.  The options are free but for those
    whose rules are wrong, for multiplication by inverses, concatenations,
    remainders and trailing zeros.  The stacks are never accessed out of range; a
    traversal may be given up for the bounds on steps and on the size of sums, or go on
    for ever where rules undo one another. *)
Theorem th_rewriter_sound `{Env} {C} `{CacheOk C} (cfg : th_rewriter_cfg) lt get_id get_ref_count std_sort
    ref_count retries fuel n t s :
  (forall r l, std_sort r l ≡ₚ l) -> safe_options (m_bv_rw cfg) -> get_sort t = Some s ->
  spec_exn (fun e => e = ExSomBlowup \/ e = ExMaxSteps \/ e = ExDiverge)
    (@main_loop state C (Config cfg lt get_id get_ref_count std_sort) _ _ ref_count retries fuel t (new_rewriter n (mk_state [] true)))
    (fun '(r, rw) => get_sort r = Some s /\ (smul_free (m_cfg rw) = true -> forall I, eval I r = eval I t)).
Proof.
  intros Hp Hsafe Hs.
  set (c := Config cfg lt get_id get_ref_count std_sort).
  pose (ok := th_config_ok cfg lt get_id get_ref_count std_sort Hp Hsafe).
  eapply (spec_exn_mono (fun e => raises (ConfigOk := ok) e \/ e = ExDiverge));
    [apply (main_loop_spec (CfgOk := ok))| |].
  - apply (new_rewriter_ready (CfgOk := ok)). constructor.
  - apply good_all; [done|]. by exists s.
  - intros e. unfold raises. simpl. unfold blowup. tauto.
  - intros [r rw] (_ & _ & Ha & _). destruct (Ha s Hs) as [Hr V]. split; [exact Hr|]. intros Hf I. by apply V.
Qed.

Definition plain_options : bv_rewriter.params := {|
  bv_rewriter.m_hi_div0 := true; bv_rewriter.m_elim_sign_ext := true; bv_rewriter.m_mul2concat := false;
  bv_rewriter.m_bit2bool := true; bv_rewriter.m_blast_eq_value := true; bv_rewriter.m_mkbv2num := true;
  bv_rewriter.m_ite2id := true; bv_rewriter.m_split_concat_eq := true; bv_rewriter.m_udiv2mul := false;
  bv_rewriter.m_bvnot2arith := true; bv_rewriter.m_bv_sort_ac := true; bv_rewriter.m_trailing := false;
  bv_rewriter.m_extract_prop := true; bv_rewriter.m_bvnot_simpl := true; bv_rewriter.m_le_extra := true;
  bv_rewriter.m_urem_simpl := false; bv_rewriter.m_flat := true; bv_rewriter.m_som := false;
  bv_rewriter.m_som_blowup := 10; bv_rewriter.m_sort_sums := true; bv_rewriter.m_hoist_mul := false;
  bv_rewriter.m_hoist_cmul := false; bv_rewriter.m_ast_order := true |}.

Definition simplifier : th_rewriter_cfg := {|
  m_b_rw := all_rules; m_bv_rw := plain_options; m_max_steps := 2 ^ 32 - 1; m_pull_cheap_ite := true; m_flat := true;
  m_cache_all := false; m_push_ite_arith := false; m_push_ite_bv := true |}.

(** [x + 3 = (if p then 3 + x else 5 + x)], which is [p]. *)
Definition query : expr :=
  m.mk_eq (App OP_BADD [x8; mk_numeral 3 8])
    (m.mk_ite p (App OP_BADD [mk_numeral 3 8; x8]) (App OP_BADD [mk_numeral 5 8; x8])).

Definition once {S C} (rw : machine S C) (t : expr) : nat := 1%nat.

Lemma th_rewriter_sound_witness :
  let c := @Config calm simplifier by_args ids (fun _ => 1%nat) insertion_sort in
  get_sort query = Some BOOL_SORT
  /\ (match @main_loop state _ c act_cache_Cache calm once 5 100 query (new_rewriter 10 (mk_state [] true)) (mk_st 0 0) with
      | Ok (r, rw) _ => r = p /\ smul_free (m_cfg rw) = true
      | Throw _ => False
      end)
  /\ forall I, eval I p = eval I query.
Proof.
  intros c. split; [reflexivity|].
  assert (E : match @main_loop state _ c act_cache_Cache calm once 5 100 query (new_rewriter 10 (mk_state [] true)) (mk_st 0 0) with
    | Ok (r, rw) _ => r = p /\ smul_free (m_cfg rw) = true
    | Throw _ => False
    end) by (vm_compute; split; reflexivity).
  split; [exact E|].
  pose proof (@th_rewriter_sound calm act_cache.act_cache act_cache_Cache _ simplifier by_args ids (fun _ => 1%nat) insertion_sort
    once 5 100 10 query BOOL_SORT insertion_sort_perm ltac:(repeat split) eq_refl (mk_st 0 0)) as H.
  change (Config simplifier by_args ids (fun _ => 1%nat) insertion_sort) with c in H.
  destruct (main_loop once 5 100 query _ _) as [[r rw] st|e]; [|contradiction].
  destruct E as [-> Hf]. apply H, Hf.
Defined.

(** ** The simplifier on goals *)

(** C14.  [simplify_tactic], on a goal of Boolean formulas with the four options
    [udiv2mul], [mul2concat], [urem_simpl] and [trailing] of the bit-vector rules off,
    as they are by default, leaves an equivalent goal: under every interpretation
    the conjunctions of the formulas have the same truth value, unless the traversal
    met a test for signed overflow.  Formulas that are [false], conjunctions that are
    split, and the removal of redundant and of opposed formulas at the end are
    included.  It may instead end with an exception: a product of sums that is too
    large, the bound on steps, or the end of its fuel. *)
Theorem simplify_goal_equivalent `{Env} {C} `{CacheOk C} (cfg : th_rewriter_cfg) lt get_id get_ref_count std_sort
    ref_count retries fuel n g :
  (forall r l, std_sort r l ≡ₚ l) -> safe_options (m_bv_rw cfg) -> Forall boolx (goal.m_forms g) ->
  spec_exn (fun e => e = ExSomBlowup \/ e = ExMaxSteps \/ e = ExDiverge)
    (simplify_tactic.run cfg lt get_id get_ref_count std_sort (C := C) ref_count retries fuel (new_rewriter n (mk_state [] true)) g)
    (fun '(g', rw) => smul_free (m_cfg rw) = true -> forall I, conj (goal.m_forms g') I = conj (goal.m_forms g) I).
Proof.
  intros Hp Hsafe Hg.
  eapply spec_exn_mono; [apply (simplify_run_ok cfg lt get_id get_ref_count std_sort Hp Hsafe ref_count retries fuel _ Hg)| |].
  - apply (new_rewriter_ready (CfgOk := th_config_ok cfg lt get_id get_ref_count std_sort Hp Hsafe)). constructor.
  - done.
  - done.
  - intros [g' rw] [_ H']. exact H'.
Qed.

(** A goal whose first formula is [p] in disguise, and whose last is its negation. *)
Definition opposed : goal.goal := goal.mk_goal [query; m.mk_eq x8 (App OP_BNOT [App OP_BNOT [x8]]); m.mk_not p] false.

Lemma simplify_goal_equivalent_witness :
  Forall boolx (goal.m_forms opposed)
  /\ (match simplify_tactic.run (H := calm) simplifier by_args ids (fun _ => 1%nat) insertion_sort once 5 100
              (new_rewriter 10 (mk_state [] true)) opposed (mk_st 0 0) with
      | Ok (g', rw) _ => g' = goal.mk_goal [m.mk_false] true /\ smul_free (m_cfg rw) = true
      | Throw _ => False
      end)
  /\ forall I, conj (goal.m_forms opposed) I = false.
Proof.
  assert (Hg : Forall boolx (goal.m_forms opposed)) by (repeat constructor).
  assert (E : match simplify_tactic.run (H := calm) simplifier by_args ids (fun _ => 1%nat) insertion_sort once 5 100
              (new_rewriter 10 (mk_state [] true)) opposed (mk_st 0 0) with
      | Ok (g', rw) _ => g' = goal.mk_goal [m.mk_false] true /\ smul_free (m_cfg rw) = true
      | Throw _ => False
      end) by (vm_compute; split; reflexivity).
  split; [exact Hg|]. split; [exact E|]. intros I.
  pose proof (@simplify_goal_equivalent calm act_cache.act_cache act_cache_Cache _ simplifier by_args ids (fun _ => 1%nat) insertion_sort
    once 5 100 10 opposed insertion_sort_perm ltac:(repeat split) Hg (mk_st 0 0)) as H.
  destruct (simplify_tactic.run _ _ _ _ _ _ _ _ _ opposed _) as [[g' rw] st|e]; [|contradiction].
  destruct E as [-> Hf]. symmetry. exact (H Hf I).
Defined.
