(* ===== verification/SatProps.v ===== *)
(** * SatProps: properties of the SAT solver and of goals handed to it *)
From Stdlib Require Import ZArith Lia.
From stdpp Require Import base list fin_maps gmap.
From S2P Require Import Prelude Bits UBits Ast AstFacts TermFacts BvTerms Gates Blast BlastFacts BoolRewriter BlasterCfg.
From S2P Require Import ActCache Rewriter RewriterSound Goal BlastRewriter BlastRewriterFacts.
From S2P Require Import BlastRewriterState BlasterRun BlasterModel BitBlasterTactic.
From S2P Require Import Examples RewriterProps TraversalProps TacticProps.
From S2P Require Import SatTypes SatSolver SatInv SatPropagate SatClauses Goal2Sat Goal2SatSound.
Import rewriter_tpl blaster_rewriter_cfg.
Import solver goal atom2bool_var goal2sat sat_tactic bit_blaster_model_converter.

(** ** Clauses *)

(** A set of clauses over the first [n] variables, in a new solver. *)
Fixpoint add_clauses (cs : list (list literal)) (s : solver) : M solver :=
  match cs with [] => mret s | c :: cs => s ← solver.mk_clause c false s; add_clauses cs s end.

Definition cnf (n : nat) (cs : list (list literal)) : M solver :=
  add_clauses cs (Nat.iter n (fun s => (mk_var false true s).2) new_solver).

Section Solver.
Context `{Env}.

Lemma cnf_ok n cs : Forall (Forall (fun l => var l < n)) cs ->
  spec (cnf n cs) (fun s => inv s /\ num_vars s = n
    /\ forall a, models s a <-> Forall (fun c => clause_val a c = true) cs).
Proof.
  intros Hc. unfold cnf.
  assert (Hn : forall k, let s := Nat.iter k (fun s => (mk_var false true s).2) new_solver in
    usable_solver s /\ num_vars s = k /\ forall a, models s a).
  { induction k as [|k IH]; cbn zeta in *.
    - split; [split; [apply new_solver_inv|done]|]. split; [done|apply new_solver_models].
    - destruct IH as ((I & Hb & Hu & Hs & Hr) & Hk & Hm). simpl. set (s := Nat.iter k _ _) in *.
      split; [split; [by apply mk_var_inv|done]|]. split; [rewrite <- Hk; apply (mk_var_num false true s)|].
      intros a. apply (mk_var_models false true s a). apply Hm. }
  specialize (Hn n). cbn zeta in Hn. revert Hn. generalize (Nat.iter n (fun s => (mk_var false true s).2) new_solver).
  intros s (Hu & Hs & Hm).
  enough (E : spec (add_clauses cs s) (fun s' => inv s' /\ num_vars s' = n
    /\ forall a, models s' a <-> models s a /\ Forall (fun c => clause_val a c = true) cs)).
  { eapply spec_mono; [exact E|]. intros s' (? & ? & Hm'). split_and!; try done. intros a. rewrite Hm'. naive_solver. }
  clear Hm. revert s Hu Hs. induction Hc as [|c cs Hc _ IH]; intros s Hu Hs; simpl.
  - apply spec_ret. split_and!; [apply Hu|done|]. intros a. rewrite Forall_nil. tauto.
  - eapply spec_bind; [apply (add_clause_spec c s Hu); eapply Forall_impl; [exact Hc|]; simpl; intros; lia|].
    intros s1 (U1 & V1 & M1). eapply spec_mono; [apply IH; [done|simpl in V1; lia]|]. intros s2 (I2 & V2 & M2).
    split_and!; try done. intros a. rewrite M2, Forall_cons. specialize (M1 a). simpl in M1. tauto.
Qed.

(** The assignments that satisfy a new solver to which clauses were added are those
    that satisfy the clauses. *)
Theorem cnf_models n cs : Forall (Forall (fun l => var l < n)) cs ->
  total (cnf n cs) (fun s => inv s /\ num_vars s = n
    /\ forall a, models s a <-> Forall (fun c => clause_val a c = true) cs).
Proof. intros Hc. by apply spec_total, cnf_ok. Qed.

(** C15.  Adding a clause restricts the models to those of the clause, or of it and the
    literals of the user's scopes; the invariant is kept. *)
Theorem mk_clause_correct s c : inv s -> at_base_lvl s = true -> Forall (in_vars s) c ->
  Forall (in_vars s) (m_user_scope_literals s) ->
  total (solver.mk_clause c false s) (fun s' => inv s' /\ num_vars s' = num_vars s
    /\ forall a, models s' a <-> models s a /\ clause_val a (c ++ m_user_scope_literals s) = true).
Proof.
  intros I Hb Hc Hu. apply spec_total. eapply spec_mono; [by apply mk_clause_ok|].
  intros s' (I' & Hn & _ & _ & _ & _ & Hm). by split_and!.
Qed.

(** C9.  Unit propagation, at any level: it ends; it reports a conflict only when no
    assignment satisfies the clauses and the literals on the trail; otherwise the
    trail grows by consequences, and no clause is left that is false or unit. *)
Theorem propagate_correct s : inv s -> SatSolver.m_inconsistent s = false ->
  total (propagate s) (fun '(ok, s') =>
    if ok then inv s' /\ m_trail s `prefix_of` m_trail s' /\ (forall a, models s' a <-> models s a) /\ no_unit s'
    else SatSolver.m_inconsistent s' = true /\ forall a, ~ models s a).
Proof.
  intros I Hi. apply spec_total. eapply spec_mono; [by apply propagate_ok|]. intros [[|] s']; simpl.
  - intros (I' & Hi' & F & Hq & Hn). split_and!; [done|by apply F| |done]. intros a. unfold models.
    rewrite (fo_holds _ _ F), Hi, Hi'. split; intros (_ & Hh & Ht); split_and!; try done.
    + unfold trail_holds in *. destruct (fo_prefix _ _ F) as [k Ek]. rewrite Ek in Ht. by apply Forall_app in Ht as [? _].
    + by apply (fo_trail _ _ F).
  - intros C. split; [apply C|]. intros a (_ & Hh & Ht). by apply (cf_conflict _ _ C a).
Qed.
End Solver.

(** ** A solver at work *)

(** [x0 | x1], [~x0 | x2 | x3], [~x1 | ~x2], [~x0 | ~x1 | ~x2 | ~x3] *)
Definition lit_ex (v : nat) (b : bool) : literal := mk_literal v b.
Definition clauses_ex : list (list literal) :=
  [[lit_ex 0 false; lit_ex 1 false]; [lit_ex 0 true; lit_ex 2 false; lit_ex 3 false]; [lit_ex 1 true; lit_ex 2 true];
   [lit_ex 0 true; lit_ex 1 true; lit_ex 2 true; lit_ex 3 true]].

Definition solver_ex : solver :=
  match cnf 4 clauses_ex (mk_st 0 0) with Ok s _ => s | Throw _ => new_solver end.

(** At level 1, with [x1] decided. *)
Definition decided_ex : solver := assign_core (lit_ex 1 false) J_NONE (push solver_ex).

Lemma clauses_ex_vars : Forall (Forall (fun l => var l < 4)) clauses_ex.
Proof. repeat constructor. Qed.

Lemma solver_ex_inv : inv solver_ex.
Proof.
  pose proof (cnf_ok (H := calm) 4 clauses_ex clauses_ex_vars (mk_st 0 0)) as E. unfold solver_ex.
  destruct (cnf 4 clauses_ex (mk_st 0 0)); [apply E|apply new_solver_inv].
Qed.

Lemma decided_ex_inv : inv decided_ex.
Proof.
  apply decide_inv; [apply push_inv; [exact solver_ex_inv|reflexivity]|vm_compute; lia|reflexivity|].
  intros y Hy. by apply elem_of_nil in Hy.
Qed.

Lemma cnf_models_witness :
  @total calm _ (cnf 4 clauses_ex) (fun s => inv s /\ num_vars s = 4
    /\ forall a, models s a <-> Forall (fun c => clause_val a c = true) clauses_ex).
Proof. apply (cnf_models (H := calm)). exact clauses_ex_vars. Defined.

Lemma mk_clause_correct_witness :
  @total calm _ (solver.mk_clause [lit_ex 3 true; lit_ex 0 false; lit_ex 3 true] false solver_ex)
    (fun s' => inv s' /\ num_vars s' = num_vars solver_ex
      /\ forall a, models s' a <-> models solver_ex a
           /\ clause_val a ([lit_ex 3 true; lit_ex 0 false; lit_ex 3 true] ++ m_user_scope_literals solver_ex) = true).
Proof.
  apply (mk_clause_correct (H := calm)); [exact solver_ex_inv|reflexivity| |constructor].
  repeat constructor; vm_compute; lia.
Defined.

Lemma propagate_correct_witness :
  @total calm _ (propagate (H := calm) decided_ex) (fun '(ok, s') =>
    if ok then inv s' /\ m_trail decided_ex `prefix_of` m_trail s' /\ (forall a, models s' a <-> models decided_ex a) /\ no_unit s'
    else SatSolver.m_inconsistent s' = true /\ forall a, ~ models decided_ex a).
Proof. apply (propagate_correct (H := calm)); [exact decided_ex_inv|reflexivity]. Defined.

Example propagate_ex : match propagate (H := calm) decided_ex (mk_st 0 0) with
  | Ok (ok, s) _ => ok = true /\ m_trail s = [lit_ex 1 false; lit_ex 2 true] | Throw _ => False end.
Proof. vm_compute. done. Qed.

(** [mk_bin_clause] and a clause with one literal negated: of [x0 | ~x1] and
    [x0 | x1] the literal [x0] follows.  It is assigned at the current level, and
    the clause is not kept, so that it is lost when the level is left. *)
Definition bin_ex : solver :=
  match cnf 2 [[lit_ex 0 false; lit_ex 1 true]] (mk_st 0 0) with Ok s _ => s | Throw _ => new_solver end.

Theorem mk_bin_clause_forgets :
  exists s s', mk_bin_clause (lit_ex 0 false) (lit_ex 1 false) false (push bin_ex) (mk_st 0 0) = Ok s s'
    /\ m_trail s = [lit_ex 0 false] /\ m_level s !! 0 = Some 1%Z
    /\ m_watches (unassign_vars 0 s) = m_watches bin_ex /\ m_trail (unassign_vars 0 s) = [].
Proof. eexists _, _. split; [vm_compute; reflexivity|]. by vm_compute. Qed.

(** ** Goals *)

Section Goals.
Context `{Env} {T : Type} `{SolverCore T} `{!SolverCoreOk T}.
Context (ite_extra default_external : bool).

Definition unsupported_in (g : goal) : Prop := exists f, f ∈ m_forms g /\ has_unsupported_bool f = true.

Local Abbreviation run g s := (goal2sat.run ite_extra default_external false g s empty).
Local Abbreviation clauses st := (sats (m_solver st)).

Lemma run_spec g s : usable_solver s -> Forall boolx (m_forms g) ->
  spec_exn (refuses (unsupported_in g)) (run g s) (fun st => idle st /\ Goal2SatSound.step (conj (m_forms g)) (fresh_imp s empty) st).
Proof.
  intros Hu Hg. apply run_steps; [done|constructor|constructor|constructor|]. apply Forall_forall. intros f Hf.
  split; [by apply (proj1 (Forall_forall _ _) Hg)|]. intros ?. by exists f.
Qed.

(** C10.  A goal is turned into clauses that are satisfiable exactly where it is: an
    assignment that satisfies them and agrees with an interpretation on the atoms
    makes the goal true in it, and where the goal is true the values of the old
    variables extend to such an assignment.  Only a connective that is not
    supported stops the translation. *)
Theorem goal2sat_correct g s : usable_solver s -> Forall boolx (m_forms g) ->
  spec_exn (refuses (unsupported_in g)) (run g s) (fun st =>
    m_frame_stack st = [] /\ m_result_stack st = [] /\ usable_solver (m_solver st)
    /\ (forall I a, clauses st a -> agree I a (m_map st) -> sats s a /\ conj (m_forms g) I = true)
    /\ (forall I a, sats s a -> conj (m_forms g) I = true ->
          exists a', (forall v, v < SatTypes.vars s -> a' v = a v) /\ clauses st a' /\ agree I a' (m_map st))).
Proof.
  intros Hu Hg. eapply spec_exn_mono; [by apply run_spec|done|]. intros st [(G & F & R) S]. split_and!; [done|done|apply G| |].
  - intros I a Hs Ha. by destruct (st_sound _ _ _ S I a Hs Ha) as (? & _ & ?).
  - intros I a Hs HI. apply (st_complete _ _ _ S I a Hs); [constructor|done].
Qed.

(** When the atoms are constants, a model of the solver is one of the goal. *)
Theorem sat_model_correct g s : usable_solver s -> Forall boolx (m_forms g) ->
  spec_exn (refuses (unsupported_in g)) (run g s) (fun st =>
    m_interpreted_vars (m_map st) = false ->
    forall ll_m, clauses st (model_assignment ll_m) ->
      let md := register_model (m_map st) ll_m empty_model in
      model_ok md /\ conj (m_forms g) (meaning md) = true).
Proof.
  intros Hu Hg. eapply spec_exn_mono; [by apply run_spec|done|]. intros st [(G & F & R) S] Hi ll_m Hs. cbn zeta. split.
  - destruct (m_map st) as [kvs i] eqn:Em. simpl in Hi. subst i. apply register_model_ok. intros d v. simpl. by rewrite lookup_empty.
  - by apply (st_sound _ _ _ S _ (model_assignment ll_m)); [|apply register_agree].
Qed.
End Goals.

(** ** A goal of Boolean formulas *)

Definition bool_goal : goal :=
  mk_goal [m.mk_or [m.mk_and [p; q]; m.mk_not (m.mk_eq p q)]; m.mk_not (m.mk_and [m.mk_ite q p q; m.mk_true])] false.

Lemma new_solver_usable : usable_solver (SolverCoreOk := solver_SolverCoreOk (H := calm)) new_solver.
Proof. split; [apply new_solver_inv|done]. Qed.

Lemma bool_goal_boolx : Forall boolx (m_forms bool_goal).
Proof. repeat constructor. Qed.

Lemma goal2sat_correct_witness :
  @spec_exn calm _ (refuses (unsupported_in bool_goal)) (goal2sat.run (H := calm) (T := solver) true false false bool_goal new_solver empty)
    (fun st => m_frame_stack st = [] /\ m_result_stack st = [] /\ usable_solver (SolverCoreOk := solver_SolverCoreOk (H := calm)) (m_solver st)
    /\ (forall I a, models (m_solver st) a -> agree I a (m_map st) -> models new_solver a /\ conj (m_forms bool_goal) I = true)
    /\ (forall I a, models new_solver a -> conj (m_forms bool_goal) I = true ->
          exists a', (forall v, v < num_vars new_solver -> a' v = a v) /\ models (m_solver st) a' /\ agree I a' (m_map st))).
Proof. exact (goal2sat_correct (H := calm) (T := solver) (SolverCoreOk0 := solver_SolverCoreOk (H := calm)) true false bool_goal new_solver new_solver_usable bool_goal_boolx). Defined.

Lemma sat_model_correct_witness :
  @spec_exn calm _ (refuses (unsupported_in bool_goal)) (goal2sat.run (H := calm) (T := solver) true false false bool_goal new_solver empty)
    (fun st => m_interpreted_vars (m_map st) = false ->
      forall ll_m, models (m_solver st) (model_assignment ll_m) ->
        let md := register_model (m_map st) ll_m empty_model in
        model_ok md /\ conj (m_forms bool_goal) (meaning md) = true).
Proof. exact (sat_model_correct (H := calm) (T := solver) (SolverCoreOk0 := solver_SolverCoreOk (H := calm)) true false bool_goal new_solver new_solver_usable bool_goal_boolx). Defined.

(** The atoms are the two constants. *)
Example bool_goal_atoms :
  match goal2sat.run (H := calm) (T := solver) true false false bool_goal new_solver empty (mk_st 0 0) with
  | Ok st _ => m_map st = mk_mapping [(p, 0); (q, 1)] false /\ num_vars (m_solver st) = 6
  | Throw _ => False end.
Proof. vm_compute. done. Qed.

(** The arguments of a conjunction are not searched for constants that also occur
    below other operators. *)
Theorem interface_misses_and args : collect_boolean_interface (m.mk_and args) = [].
Proof. by destruct args. Qed.

Example interface_finds_or : let t := App (OP_UNINTERP 7 [BOOL_SORT] BOOL_SORT) [p] in
  collect_boolean_interface (m.mk_or [p; t]) = [p].
Proof. reflexivity. Qed.

(** ** From bit-vectors to clauses *)

Section Pipeline.
Context `{Env} (m_use_wtm m_use_bcm : bool) (cfg : params) {C : Type} `{CacheOk C}.
Context {T : Type} `{SolverCore T} `{!SolverCoreOk T} (ite_extra default_external : bool).
Variable k : nat.
Variable ref_count : machine state C -> expr -> nat.
Variables retries fuel : nat.

(** Bit-blasting, and the translation to clauses. *)
Definition pipeline (n : Z) (rw : machine state C) (g : goal) (s : T) : M (option converter * imp (T := T)) :=
  '(g', mc, _) ← TacticProps.run m_use_wtm m_use_bcm cfg ref_count retries fuel true n rw g;
  st ← goal2sat.run ite_extra default_external false g' s empty;
  mret (mc, st).

(** The solver is left as the search needs it; models lead to models, both ways. *)
Lemma pipeline_ok n rw g s : (0 < retries)%nat -> acceptable cfg k fuel g -> BitBlasterTactic.usable k rw ->
  m_keys (m_cfg rw) = [] -> usable_solver s ->
  spec_exn (fun e => blaster_raises cfg e \/ e = ExUnsupported) (pipeline n rw g s) (fun '(mc, st) =>
    usable_solver (m_solver st)
    /\ (forall I a, conj (m_forms g) I = true -> sats s a -> exists a', sats (m_solver st) a')
    /\ (m_interpreted_vars (m_map st) = false -> forall ll_m, sats (m_solver st) (model_assignment ll_m) ->
          let md := register_model (m_map st) ll_m empty_model in
          conj (m_forms g) (meaning (match mc with Some mc => convert mc md | None => md end)) = true)).
Proof.
  intros Hn [Hg Hi] Hu Hk Hs. eapply spec_exn_bind.
  { eapply spec_exn_mono; [by eapply (BitBlasterTactic.run_ok gates)|by left|done]. }
  intros [[g' mc] rw'] (Hu' & Hb & [Heq _] & Hc). specialize (Hc eq_refl Hk).
  eapply spec_exn_bind; [eapply spec_exn_mono; [by apply run_spec| |done]|].
  { intros e [-> _]. by right. }
  intros st [(G & F & R) S]. apply spec_exn_ret. split_and!; [apply G|..].
  - intros I a HI Ha. destruct (Heq I HI) as (I' & HI' & _). destruct (st_complete _ _ _ S I' a Ha) as (a' & _ & ? & _); [constructor|done|by exists a'].
  - intros Hint ll_m Hm. cbn zeta. apply Hc.
    + destruct (m_map st) as [kvs i] eqn:Em. simpl in Hint. subst i. apply register_model_ok. intros d v. simpl. by rewrite lookup_empty.
    + intros x [r Hx]. apply register_open; [done|done|]. destruct Hu' as [[Hw _] _].
      destruct (entry_bits _ Hw x r Hx) as (ds & _ & _ & -> & _). done.
    + by apply (st_sound _ _ _ S _ (model_assignment ll_m)); [|apply register_agree].
Qed.

(** C6.  A goal over bit-vectors and the clauses it is turned into: where the goal has a
    model the clauses have one, and the converted model of the clauses satisfies the
    goal. *)
Theorem pipeline_correct n rw g s : (0 < retries)%nat -> acceptable cfg k fuel g -> BitBlasterTactic.usable k rw ->
  m_keys (m_cfg rw) = [] -> usable_solver s ->
  spec_exn (fun e => blaster_raises cfg e \/ e = ExUnsupported) (pipeline n rw g s) (fun '(mc, st) =>
    (forall I a, conj (m_forms g) I = true -> sats s a -> exists a', sats (m_solver st) a')
    /\ (m_interpreted_vars (m_map st) = false -> forall ll_m, sats (m_solver st) (model_assignment ll_m) ->
          let md := register_model (m_map st) ll_m empty_model in
          conj (m_forms g) (meaning (match mc with Some mc => convert mc md | None => md end)) = true)).
Proof.
  intros. eapply spec_exn_mono; [by apply pipeline_ok|done|]. by intros [mc st] [_ ?].
Qed.
End Pipeline.

Lemma pipeline_correct_witness :
  @spec_exn calm _ (fun e => blaster_raises default_cfg e \/ e = ExUnsupported)
    (pipeline (H := calm) (T := solver) false false default_cfg true false shared 1 100 10 rw_ex goal_ex new_solver)
    (fun '(mc, st) =>
      (forall I a, conj (m_forms goal_ex) I = true -> models new_solver a -> exists a', models (m_solver st) a')
      /\ (m_interpreted_vars (m_map st) = false -> forall ll_m, models (m_solver st) (model_assignment ll_m) ->
            let md := register_model (m_map st) ll_m empty_model in
            conj (m_forms goal_ex) (meaning (match mc with Some mc => convert mc md | None => md end)) = true)).
Proof.
  exact (pipeline_correct (H := calm) (T := solver) (SolverCoreOk0 := solver_SolverCoreOk (H := calm))
    false false default_cfg true false 100 shared 1 100 10 rw_ex goal_ex new_solver
    (le_n 1) goal_ex_acceptable rw_ex_usable eq_refl new_solver_usable).
Defined.

(** For that goal the run ends, and every atom is a constant. *)
Example pipeline_ex :
  match pipeline (H := calm) (T := solver) false false default_cfg true false shared 1 100 10 rw_ex goal_ex new_solver (mk_st 0 0) with
  | Ok (_, st) _ => m_interpreted_vars (m_map st) = false /\ length (m_mapping (m_map st)) = 17
  | Throw _ => False end.
Proof. vm_compute. done. Qed.
