(* ===== verification/SatSearch.v ===== *)
(** * SatSearch: the search

    The steps of [bounded_search] ([sat/sat_solver.cpp]): propagation, conflicts,
    decisions and restarts, in any order and with any choice of variables and
    phases.  Whatever the search does, its state stands for the clauses it started
    from; conflicts are resolved, and the answers are right. *)
From Stdlib Require Import ZArith Lia.
From stdpp Require Import base list sets relations gmap.
From S2P Require Import Prelude Bits UBits Ast AstFacts TermFacts BvTerms Gates Blast BlastFacts BoolRewriter BlasterCfg.
From S2P Require Import ActCache Rewriter RewriterSound Goal BlastRewriter BlastRewriterFacts.
From S2P Require Import BlastRewriterState BlasterRun BlasterModel BitBlasterTactic.
From S2P Require Import Examples RewriterProps TraversalProps TacticProps.
From S2P Require Import SatTypes SatSolver SatConflict SatInv SatPropagate SatClauses SatAnalyze SatBackjump.
From S2P Require Import Goal2Sat Goal2SatSound SatProps.
Import solver.

(** ** What a state of the search stands for *)

Lemma base_trail s a : levels s -> m_scope_lvl s = 0 -> base_holds s a <-> trail_holds s a.
Proof.
  intros Lv H0. unfold base_holds, trail_holds. rewrite Forall_forall. split; intros H l Hl; [|auto].
  apply H; [done|]. pose proof (lv_range _ Lv l Hl). lia.
Qed.

(** A longer trail says the same: the literals of the base level follow from the others. *)
Lemma says_longer s s' a : (holds (wlists s') s' a <-> holds (wlists s) s a) -> m_trail s `prefix_of` m_trail s' ->
  (forall x, x ∈ m_trail s -> lvl x s' = lvl x s) ->
  (forall p x, length (m_trail s) <= p -> m_trail s' !! p = Some x -> lvl x s' = Z.of_nat (m_scope_lvl s)) ->
  levels s -> (m_scope_lvl s = 0 -> holds (wlists s) s a -> trail_holds s a -> trail_holds s' a) -> says s' a <-> says s a.
Proof.
  intros Hh Hp Ho Hn Lv H0. split; [by apply prefix_says; [apply Hh|..]|]. intros [H1 H2]. split; [by apply Hh|].
  intros l Hl El. destruct (decide (m_scope_lvl s = 0)) as [E|E].
  - assert (Ht : trail_holds s' a) by (apply H0; [done..|by apply base_trail]). by apply (proj1 (Forall_forall _ _) Ht).
  - apply list_elem_of_lookup in Hl as [p Hl]. destruct (decide (p < length (m_trail s))) as [Hlt|Hge].
    + destruct Hp as [k Ek]. rewrite Ek, lookup_app_l in Hl by done. apply list_elem_of_lookup_2 in Hl. rewrite Ho in El by done. by apply H2.
    + rewrite (Hn p l) in El by (done || lia). lia.
Qed.

Lemma follows_says s s' a : levels s -> follows s s' -> says s' a <-> says s a.
Proof. intros Lv F. apply says_longer; try apply F; [done|]. intros _. apply F. Qed.

Lemma conflicting_says s s' a : levels s -> conflicting s s' -> says s' a <-> says s a.
Proof. intros Lv C. apply says_longer; try apply C; [done|]. intros _ H1 H2. by destruct (cf_conflict _ _ C a). Qed.

(** A conflict of the base level. *)
Lemma conflicted_base s a : conflicted s -> m_scope_lvl s = 0 -> ~ says s a.
Proof.
  intros C H0 Hs. destruct (cd_refutes _ C) as [Ht He _].
  destruct (explains_antecedents _ _ _ _ _ _ (cd_linked _ C) (fun α => @proj1 _ _) He) as (HA & _ & Hf).
  assert (Hall : forall y, y ∈ m_trail s -> lit_val a y = true).
  { intros y Hy. apply Hs; [done|]. pose proof (lv_range _ (cd_levels _ C) y Hy). lia. }
  specialize (Hf a Hs). assert (HF : Forall (fun y => lit_val a y = true) (antecedents (is_literal <$> (neg <$> m_not_l s)) (m_conflict s) s)).
  { apply Forall_forall. intros y Hy. by apply Hall, HA. }
  specialize (Hf HF). destruct (m_not_l s) as [n|]; simpl in Hf; [|done]. rewrite lit_val_neg, (Hall n (Ht n eq_refl)) in Hf. done.
Qed.

(** ** The levels along the trail *)

Definition levels_of (s : solver) : list nat := (fun x => Z.to_nat (lvl x s)) <$> m_trail s.

Lemma levels_of_grow s s' t : m_trail s' = m_trail s ++ t -> (forall x, x ∈ m_trail s -> lvl x s' = lvl x s) ->
  levels_of s' = levels_of s ++ ((fun x => Z.to_nat (lvl x s')) <$> t).
Proof.
  intros E Ho. unfold levels_of. rewrite E, fmap_app. f_equal. apply list_fmap_ext. intros i x Hx. simpl.
  by rewrite (Ho x (list_elem_of_lookup_2 _ _ _ Hx)).
Qed.

(** Going back to level [k] cuts the trail where the levels exceed [k]. *)
Lemma pop_levels_of s k : frame_ok s -> k < m_scope_lvl s -> exists j,
  levels_of (pop (m_scope_lvl s - k) s) = take j (levels_of s)
  /\ Forall (fun l => l <= k) (take j (levels_of s)) /\ Forall (fun l => k < l) (drop j (levels_of s)).
Proof.
  intros F Hk. exists (m_trail_lim (m_scopes s !!! k)). pose proof (pop_frame s k F Hk) as (_ & _ & _ & _ & _ & _ & _ & _ & _ & _ & Et & _).
  pose proof (so_level _ (fk_scopes _ F) k (m_scopes s !!! k)) as Hl. pose proof (pop_scope s k F Hk) as Hsc. unfold levels_of. split_and!.
  - rewrite Et, <- fmap_take. apply list_fmap_ext. intros i x _. simpl. by rewrite (pop_lvl s k F Hk).
  - rewrite <- fmap_take, Forall_fmap. apply Forall_lookup. intros p x [Hp Hlt]%lookup_take_Some. simpl. apply (Hl p x Hsc Hp) in Hlt. lia.
  - rewrite <- fmap_drop, Forall_fmap. apply Forall_lookup. intros p x Hp. rewrite lookup_drop in Hp. simpl.
    specialize (Hl _ x Hsc Hp). lia.
Qed.

(** Every level has a literal, so that there are no more of them than variables. *)
Definition all_levels (s : solver) : Prop := forall k, 1 <= k <= m_scope_lvl s -> k ∈ levels_of s.

Lemma all_levels_bound s : assigned s -> all_levels s -> m_scope_lvl s <= length (levels_of s) <= num_vars s.
Proof.
  intros Ha Hall. split; [|unfold levels_of; rewrite length_fmap; by apply trail_length].
  rewrite <- (length_seq (m_scope_lvl s) 1). apply submseteq_length, NoDup_submseteq; [apply NoDup_seq|].
  intros k Hk%elem_of_seq. apply Hall. lia.
Qed.

(** ** Conflicts *)

(** Phases do not matter. *)
Lemma stuck_phase ph s : stuck s -> stuck (set_phase ph s).
Proof.
  intros [[[H1 H2 H3] [A1 A2 A3] [L1 L2 L3 L4 L5] [V1 V2 V3] Hr [R1 R2 R3]] Hl Hi [Fu Fr [F1 F2 F3]]].
  split; [|exact Hl|exact Hi|by split; [..|split]]. split; [by split..| | |exact Hr|by split].
  - split; try done. eapply Forall_impl; [exact L4|]. intros c [? ? ? ? ?]. by split.
  - by split.
Qed.

Section Conflict.
Context (s : solver) (K : stuck s) (above : 0 < m_scope_lvl s).
Local Abbreviation C := (sk_conflicted _ K).
Local Abbreviation F := (sk_frame _ K).

(** After going back the lemma has one open literal. *)
Lemma lemma_learnable x rest k : is_lemma s x rest -> k = Z.to_nat (backjump_level s rest) ->
  let s' := pop (m_scope_lvl s - k) s in searching s' /\ learnable s' (neg x) rest /\ (forall a, says s' a <-> says s a)
    /\ m_scope_lvl s' = k /\ k < m_scope_lvl s /\ num_vars s' = num_vars s /\ m_user_scope_literals s' = [].
Proof.
  intros Le Ek. destruct (backjump_level_spec s above rest x Le) as (Hlv & Hmax & Hex).
  assert (Hk : k < m_scope_lvl s) by lia. pose proof C as [C1 C2 C3 C4 C5 _]. pose proof (sk_lower _ K) as Hlow. cbn zeta.
  pose proof (pop_frame s k F Hk) as (_ & _ & _ & El & Esc & Eu & _ & _ & _ & _ & Et & Eq).
  assert (Hrest : forall l, l ∈ rest -> neg l ∈ m_trail (pop (m_scope_lvl s - k) s)).
  { intros l Hl. apply (pop_trail_in s k F Hk). split; [by apply (le_rest _ _ _ Le)|]. rewrite lvl_neg. specialize (Hmax l Hl). lia. }
  destruct (le_uip _ _ _ Le) as [Hx Hxl]. split_and!; [exact (pop_searching s k C1 C2 C3 C4 C5 Hlow F Hk)| |exact (pop_says s k F Hk)|done|done|unfold num_vars; by rewrite El|done]. split.
  - apply (pop_in_vars s k F Hk), in_vars_neg. by apply (trail_vars _ _ C2).
  - rewrite Eq, Et, length_take. destruct (so_lim _ (fk_scopes _ F) k _ (pop_scope s k F Hk)). lia.
  - rewrite (pop_value s k C1 C2 F Hk), lvl_neg, Hxl. by destruct (Z.ltb_spec (Z.of_nat k) (Z.of_nat (m_scope_lvl s))); [|lia].
  - exact Hrest.
  - apply Le.
  - intros a Ha%(pop_says s k F Hk). by apply (le_implied _ _ _ Le).
  - intros ->. rewrite Esc, Ek. done.
  - intros Hne. rewrite Esc. destruct (Hex Hne) as (l & Hl & E). destruct (le_rest _ _ _ Le l Hl) as [_ Hpos].
    split; [lia|]. exists l. split; [done|]. rewrite (pop_lvl s k F Hk). lia.
Qed.
End Conflict.

(** ** A measure that grows

    A literal counts more the lower its level: one more at a level outweighs all
    that can be above it. *)

Definition weight (n : nat) (ls : list nat) : nat := sum_list_with (fun l => (n + 1) ^ (n - l)) ls.

Lemma weight_app n ls ls' : weight n (ls ++ ls') = weight n ls + weight n ls'.
Proof. apply sum_list_with_app. Qed.

Lemma weight_le n b ls : Forall (fun l => (n + 1) ^ (n - l) <= b) ls -> weight n ls <= length ls * b.
Proof. unfold weight. induction 1; simpl; lia. Qed.

Lemma pow_pos n k : 0 < (n + 1) ^ k.
Proof. apply Nat.neq_0_lt_0, Nat.pow_nonzero. lia. Qed.

Lemma weight_single n l : weight n [l] = (n + 1) ^ (n - l).
Proof. unfold weight. simpl. lia. Qed.

Lemma weight_above n k ls : k < n -> length ls <= n -> Forall (fun l => k < l) ls -> weight n ls < weight n [k].
Proof.
  intros Hk Hlen Hls. rewrite weight_single. replace (n - k) with (S (n - S k)) by lia. rewrite Nat.pow_succ_r'.
  assert (H : weight n ls <= length ls * (n + 1) ^ (n - S k)).
  { apply weight_le. eapply Forall_impl; [exact Hls|]. intros l Hl. simpl in Hl. apply Nat.pow_le_mono_r; lia. }
  pose proof (pow_pos n (n - S k)). nia.
Qed.

Definition rank (n : nat) (s : solver) : nat :=
  3 * weight n (levels_of s) + if m_inconsistent s then 2 else if m_qhead s =? length (m_trail s) then 1 else 0.

Lemma rank_bound n s : length (levels_of s) <= n -> rank n s <= 3 * (n * (n + 1) ^ n) + 2.
Proof.
  intros Hlen. assert (H : weight n (levels_of s) <= length (levels_of s) * (n + 1) ^ n).
  { apply weight_le, Forall_forall. intros l _. apply Nat.pow_le_mono_r; lia. }
  unfold rank. pose proof (Nat.mul_le_mono_r _ _ ((n + 1) ^ n) Hlen). destruct (m_inconsistent s), (m_qhead s =? length (m_trail s)); lia.
Qed.

(** What a round of conflict resolution leads to. *)
Record resolved (s s' : solver) : Prop := {
  re_searching : searching s';
  re_says a : says s' a <-> says s a;
  re_vars : num_vars s' = num_vars s;
  re_lvl : m_scope_lvl s' < m_scope_lvl s;
  re_uip : exists x, x ∈ m_trail s /\ lvl x s = Z.of_nat (m_scope_lvl s) /\ neg x ∈ m_trail s';
  re_levels : exists j, levels_of s' = take j (levels_of s) ++ [m_scope_lvl s']
    /\ Forall (fun l => l <= m_scope_lvl s') (take j (levels_of s)) /\ Forall (fun l => m_scope_lvl s' < l) (drop j (levels_of s));
}.

Section Search.
Context `{Env} (m_minimize_lemmas m_dyn_sub_res : bool).
Local Abbreviation resolve_core := (resolve_conflict_core m_minimize_lemmas m_dyn_sub_res).
Local Abbreviation resolve := (resolve_conflict m_minimize_lemmas m_dyn_sub_res).

Lemma pop_reinit_pure n s : m_user_scope_literals (pop n s) = [] -> pop_reinit n s = mret (pop n s).
Proof. intros E. unfold pop_reinit, reinit_assumptions, tracking_assumptions. by rewrite E. Qed.

Lemma resolve_core_ok s : stuck s -> 0 < m_scope_lvl s -> exists s', resolve_core s = mret (true, s') /\ resolved s s'.
Proof.
  intros K0 above. unfold resolve_conflict_core, get_max_lvl, tracking_assumptions. rewrite (fk_user _ (sk_frame _ K0)), andb_false_r.
  destruct (Z.eqb_spec (Z.of_nat (m_scope_lvl s)) 0); [lia|]. unfold forget_phase_of_vars. set (ph := foldl _ _ _).
  pose proof (stuck_phase ph s K0) as K. change (m_scope_lvl s) with (m_scope_lvl (set_phase ph s)) in above.
  assert (Hsays : forall a, says (set_phase ph s) a <-> says s a) by done.
  assert (Hlvl : m_scope_lvl (set_phase ph s) = m_scope_lvl s) by done.
  assert (Htr : m_trail (set_phase ph s) = m_trail s /\ forall x, lvl x (set_phase ph s) = lvl x s) by done.
  assert (Hn : num_vars (set_phase ph s) = num_vars s) by done.
  cbv zeta. generalize dependent (set_phase ph s). intros t above K Hsays Hlvl [Htr Htl] Hn. clear ph.
  destruct (analyze_ok t (sk_conflicted _ K) above) as (x & rest & marks & Ea & A). rewrite Ea, mret_bind. cbv beta iota.
  unfold learn_lemma_and_backjump.
  destruct (learn_lemma_ok t (sk_conflicted _ K) above m_minimize_lemmas m_dyn_sub_res x rest marks A) as (rest' & marks' & El & Le & _).
  rewrite El, mret_bind. cbv beta iota. set (k := Z.to_nat (backjump_level t rest')).
  destruct (lemma_learnable t K above x rest' k Le eq_refl) as (S & L & Hs & Hk & Hlt & Hv & Hu).
  rewrite pop_reinit_pure, mret_bind by exact Hu. destruct (learn_ok _ _ _ S L) as (s' & Em & Ln). rewrite Em, mret_bind.
  exists s'. split; [done|]. split.
  - apply Ln.
  - intros a. by rewrite (ln_says _ _ _ Ln), Hs.
  - by rewrite (ln_vars _ _ _ Ln), Hv.
  - rewrite (ln_level _ _ _ Ln). lia.
  - exists x. rewrite <- Htr, <- Htl, <- Hlvl. destruct (le_uip _ _ _ Le) as [? ?]. split_and!; [done..|].
    rewrite (ln_trail _ _ _ Ln). apply elem_of_app. right. by left.
  - assert (Els : levels_of s = levels_of t).
    { unfold levels_of. rewrite Htr. apply list_fmap_ext. intros i y _. simpl. by rewrite Htl. }
    rewrite Els, (ln_level _ _ _ Ln), Hk. destruct (pop_levels_of t k (sk_frame _ K) Hlt) as (j & Ej & Hle & Hgt).
    exists j. split_and!; [|done..]. rewrite (levels_of_grow _ _ _ (ln_trail _ _ _ Ln) (ln_old _ _ _ Ln)), Ej. f_equal. simpl.
    by rewrite (ln_new _ _ _ Ln), Hk, Nat2Z.id.
Qed.

Lemma resolve_core_base s : stuck s -> m_scope_lvl s = 0 -> resolve_core s = mret (false, s).
Proof.
  intros K E. unfold resolve_conflict_core, get_max_lvl, tracking_assumptions. by rewrite (fk_user _ (sk_frame _ K)), E.
Qed.

(** One round is enough. *)
Lemma resolve_ok s : stuck s ->
  exists b s', resolve s = mret (b, s') /\ if b : bool then resolved s s' else s' = s /\ forall a, ~ says s a.
Proof.
  intros K. unfold resolve_conflict. destruct (Nat.eq_dec (m_scope_lvl s) 0) as [E|E].
  - exists false, s. split; [|split; [done|]].
    + simpl. by rewrite resolve_core_base.
    + intros a. by apply conflicted_base; [apply K|].
  - destruct (resolve_core_ok s K) as (s' & Es & R); [lia|]. exists true, s'. split; [|done].
    cbn [resolve_conflict_loop]. rewrite Es, mret_bind. cbv beta iota. by rewrite (sr_consistent _ (re_searching _ _ R)).
Qed.

(** ** The steps of the search *)

Inductive search_step : solver -> solver -> Prop :=
| step_propagate s st ok s' st' :
    m_inconsistent s = false -> propagate s st = Ok (ok, s') st' -> search_step s s'
| step_resolve s st s' st' :
    m_inconsistent s = true -> resolve s st = Ok (true, s') st' -> search_step s s'
| step_decide s next phase :
    m_inconsistent s = false -> m_qhead s = length (m_trail s) -> next < num_vars s -> value (mk_literal next false) s = l_undef ->
    search_step s (decide_var next phase s)
| step_restart s n st s' st' :
    m_inconsistent s = false -> n <= m_scope_lvl s -> pop_reinit n s st = Ok s' st' -> search_step s s'.

(** The state the search starts from, and the states it goes through. *)
Record startable (s0 : solver) : Prop := {
  rd_inv : inv s0;
  rd_base : at_base_lvl s0 = true;
  rd_consistent : m_inconsistent s0 = false;
  rd_user : m_user_scope_literals s0 = [];
  rd_scopes : m_scopes s0 = [];
  rd_reinit : m_clauses_to_reinit s0 = [];
}.

Record search_ok (s0 s : solver) : Prop := {
  sh_state : if m_inconsistent s then stuck s else searching s;
  sh_vars : num_vars s = num_vars s0;
  sh_says a : says s a <-> models s0 a;
  sh_levels : all_levels s;
}.

Lemma startable_ok s0 : startable s0 -> search_ok s0 s0.
Proof.
  intros [I Hb%Nat.eqb_eq Hi Hu Hs Hr]. split; [|done| |].
  - rewrite Hi. split; [done..|]. split; [done..|]. split; rewrite ?Hs, ?Hb; done.
  - intros a. unfold says, models. rewrite base_trail; [|apply I|done]. naive_solver.
  - intros k Hk. lia.
Qed.

Lemma searching_propagate s st ok s' st' : searching s -> propagate s st = Ok (ok, s') st' ->
  (if m_inconsistent s' then stuck s' else searching s') /\ num_vars s' = num_vars s /\ (forall a, says s' a <-> says s a).
Proof.
  intros [I Hi F] E. pose proof (propagate_ok s I Hi st) as P. rewrite E in P. pose proof (inv_levels _ I) as Lv. destruct ok; simpl in P.
  - destruct P as (I' & Hi' & Fo & _). rewrite Hi'. split_and!; [|apply Fo|intros a; by apply follows_says].
    split; [done..|]. eapply frame_ok_later; [exact F|apply Fo..].
  - pose proof P as C. rewrite (cf_inconsistent _ _ P). split_and!; [|apply P|intros a; by apply conflicting_says].
    split; [by eapply conflicting_conflicted|apply P|apply P|]. eapply frame_ok_later; [exact F|apply P..].
Qed.

Lemma searching_restart s n : searching s -> n <= m_scope_lvl s ->
  searching (pop n s) /\ num_vars (pop n s) = num_vars s /\ (forall a, says (pop n s) a <-> says s a) /\ m_user_scope_literals (pop n s) = [].
Proof.
  intros S Hn. destruct (Nat.eq_dec n 0) as [->|Hne]; [split_and!; [done..|apply S]|]. pose proof S as [I _ F].
  set (k := m_scope_lvl s - n). replace n with (m_scope_lvl s - k) by lia. assert (Hk : k < m_scope_lvl s) by lia.
  pose proof (pop_frame s k F Hk) as (_ & _ & _ & El & _ & Eu & _).
  split_and!; [|unfold num_vars; by rewrite El|exact (pop_says s k F Hk)|exact Eu].
  apply pop_searching; [apply I..|by apply inv_lower|done|done].
Qed.

Lemma push_frame s : levels s -> frame_ok s -> frame_ok (push s).
Proof.
  intros Lv [Fu Fr [F1 F2 F3]]. split; [done..|]. split.
  - simpl. rewrite length_app, F1. simpl. lia.
  - intros k sc Hk%lookup_app_Some. destruct Hk as [Hk|[_ Hk]]; [by apply (F2 k)|].
    apply list_lookup_singleton_Some in Hk as [_ <-]. simpl. by rewrite Fr.
  - intros k sc p x Hk%lookup_app_Some Hp. change (m_trail s !! p = Some x) in Hp. change (lvl x (push s)) with (lvl x s).
    destruct Hk as [Hk|[Hge Hk]]; [by apply (F3 k)|]. apply list_lookup_singleton_Some in Hk as [E <-]. simpl.
    pose proof (lookup_lt_Some _ _ _ Hp). pose proof (lv_range _ Lv x (list_elem_of_lookup_2 _ _ _ Hp)). lia.
Qed.

(** A decision assigns an open literal. *)
Lemma decide_open s next phase : inv s -> next < num_vars s -> value (mk_literal next false) s = l_undef ->
  let l := mk_literal next (negb phase) in in_vars s l /\ value l s = l_undef /\ decide_var next phase s = assign_core l J_NONE (push s).
Proof.
  intros I Hn Hv. cbn zeta. set (l := mk_literal next (negb phase)).
  assert (Hl : in_vars s l) by (unfold in_vars, l; by rewrite var_mk).
  assert (Hu : value l s = l_undef).
  { destruct (same_var (mk_literal next false) l) as [E|E]; [unfold l; by rewrite !var_mk|by rewrite E|].
    rewrite E, (as_neg _ (inv_assigned _ I)), Hv; [done|]. unfold in_vars. by rewrite var_mk. }
  split_and!; [done..|]. unfold decide_var, assign_unit, assign. fold l. change (value l (push s)) with (value l s). by rewrite Hu.
Qed.

Lemma searching_decide s next phase : searching s -> m_qhead s = length (m_trail s) -> next < num_vars s ->
  value (mk_literal next false) s = l_undef ->
  searching (decide_var next phase s) /\ num_vars (decide_var next phase s) = num_vars s
  /\ (forall a, says (decide_var next phase s) a <-> says s a).
Proof.
  intros [I Hi F] Hq Hn Hv. destruct (decide_open s next phase I Hn Hv) as (Hl & Hu & Ed). set (l := mk_literal next (negb phase)) in *.
  pose proof (push_inv s I Hq) as It. pose proof (push_frame s (inv_levels _ I) F) as Ft.
  pose proof (assign_core_grown l J_NONE (push s) (inv_sized _ It) (inv_assigned _ It) Hl Hu) as G.
  assert (Id : inv (assign_core l J_NONE (push s))).
  { apply decide_inv; [done..|]. intros y Hy. change (m_trail (push s)) with (m_trail s) in Hy.
    pose proof (lv_range _ (inv_levels _ I) y Hy). change (lvl y (push s)) with (lvl y s). simpl. lia. }
  rewrite Ed. split_and!; [split; [exact Id|exact Hi|]|exact (sc_vars _ _ (gr_same _ _ G))|].
  - destruct (gr_same _ _ G). eapply frame_ok_later; [exact Ft|assumption..|apply G| |apply G]. intros x Hx. by apply (gr_old _ _ G).
  - intros a. transitivity (says (push s) a); [|done]. apply says_longer; [by apply grown_follows_holds|apply G| |apply G|apply It|done].
    intros x Hx. by apply (gr_old _ _ G).
Qed.

(** *** Levels *)

Lemma propagate_levels s st ok s' st' : searching s -> propagate s st = Ok (ok, s') st' ->
  m_scope_lvl s' = m_scope_lvl s /\ (exists t, levels_of s' = levels_of s ++ t)
  /\ if ok : bool then m_inconsistent s' = false /\ m_qhead s' = length (m_trail s') else m_inconsistent s' = true.
Proof.
  intros [I Hi F] E. pose proof (propagate_ok s I Hi st) as P. rewrite E in P. destruct ok; simpl in P.
  - destruct P as (_ & Hi' & Fo & Hq & _). destruct (fo_prefix _ _ Fo) as [t Et].
    split_and!; [apply Fo|by eexists; apply levels_of_grow; [exact Et|apply Fo]|done|done].
  - destruct (cf_prefix _ _ P) as [t Et]. split_and!; [apply P|by eexists; apply levels_of_grow; [exact Et|apply P]|apply P].
Qed.

Lemma decide_levels s next phase : searching s -> next < num_vars s -> value (mk_literal next false) s = l_undef ->
  m_scope_lvl (decide_var next phase s) = S (m_scope_lvl s)
  /\ levels_of (decide_var next phase s) = levels_of s ++ [S (m_scope_lvl s)]
  /\ m_inconsistent (decide_var next phase s) = false
  /\ m_qhead (decide_var next phase s) = m_qhead s /\ length (m_trail (decide_var next phase s)) = S (length (m_trail s)).
Proof.
  intros [I Hi F] Hn Hv. destruct (decide_open s next phase I Hn Hv) as (Hl & Hu & ->).
  set (l := mk_literal next (negb phase)) in *. split_and!; [done| |exact Hi|done|].
  - rewrite (levels_of_grow s _ [l]); [|done|].
    + f_equal. cbn [fmap list_fmap]. rewrite assign_core_lvl by done. by rewrite Nat2Z.id.
    + intros x Hx. by apply (assign_core_other l J_NONE (push s) x); [destruct (inv_assigned _ I); split|..].
  - rewrite assign_core_trail, length_app. simpl. change (m_trail (push s)) with (m_trail s). lia.
Qed.

Lemma all_levels_grow s s' t : levels_of s' = levels_of s ++ t -> (forall k, m_scope_lvl s < k <= m_scope_lvl s' -> k ∈ t) ->
  all_levels s -> all_levels s'.
Proof.
  intros E Ht Hall k Hk. rewrite E, elem_of_app. destruct (decide (k <= m_scope_lvl s)); [left; apply Hall; lia|right; apply Ht; lia].
Qed.

Lemma all_levels_cut s s' j t : levels_of s' = take j (levels_of s) ++ t -> m_scope_lvl s' <= m_scope_lvl s ->
  Forall (fun l => m_scope_lvl s' < l) (drop j (levels_of s)) -> all_levels s -> all_levels s'.
Proof.
  intros E Hle Hgt Hall k Hk. rewrite E, elem_of_app. left. assert (Hin : k ∈ levels_of s) by (apply Hall; lia).
  rewrite <- (take_drop j (levels_of s)), elem_of_app in Hin. destruct Hin as [|Hin]; [done|].
  rewrite Forall_forall in Hgt. specialize (Hgt k Hin). lia.
Qed.

Lemma search_step_ok s0 s s' : search_ok s0 s -> search_step s s' -> search_ok s0 s'.
Proof.
  intros [Hst Hn Hs Hall] St.
  destruct St as [s st ok s' st' Hi E|s st s' st' Hi E|s next phase Hi Hq Hv Hu|s n st s' st' Hi Hle E]; rewrite Hi in Hst.
  - destruct (searching_propagate _ _ _ _ _ Hst E) as (H1 & H2 & H3). destruct (propagate_levels _ _ _ _ _ Hst E) as (Es & [t Et] & _).
    split; [done|congruence|intros a; by rewrite H3|]. eapply all_levels_grow; [exact Et|intros; lia|done].
  - destruct (resolve_ok s Hst) as (b & s1 & Er & R). rewrite Er in E. injection E as -> -> _.
    destruct R as [R1 R2 R3 R4 _ (j & Ej & _ & Hgt)]. split; [by rewrite (sr_consistent _ R1)|congruence|intros a; by rewrite R2|].
    eapply all_levels_cut; [exact Ej|lia|done..].
  - destruct (searching_decide s next phase Hst Hq Hv Hu) as (H1 & H2 & H3). destruct (decide_levels s next phase Hst Hv Hu) as (Es & Et & _).
    split; [by rewrite (sr_consistent _ H1)|congruence|intros a; by rewrite H3|].
    eapply all_levels_grow; [exact Et| |done]. intros k Hk. apply list_elem_of_singleton. lia.
  - destruct (searching_restart s n Hst Hle) as (H1 & H2 & H3 & H4). rewrite pop_reinit_pure in E by exact H4. injection E as <- _.
    split; [by rewrite (sr_consistent _ H1)|congruence|intros a; by rewrite H3|]. destruct (Nat.eq_dec n 0) as [->|Hne]; [done|].
    pose proof (sr_frame _ Hst) as F. set (k := m_scope_lvl s - n). replace n with (m_scope_lvl s - k) by lia.
    assert (Hk : k < m_scope_lvl s) by lia. destruct (pop_levels_of s k F Hk) as (j & Ej & _ & Hgt).
    pose proof (pop_frame s k F Hk) as (_ & _ & _ & _ & Esc & _).
    apply (all_levels_cut s _ j []); [by rewrite app_nil_r| |by rewrite Esc|done]. rewrite Esc. lia.
Qed.

Definition reaches : solver -> solver -> Prop := rtc search_step.

Lemma reaches_ok s0 s : startable s0 -> reaches s0 s -> search_ok s0 s.
Proof.
  intros R Hr. pose proof (startable_ok s0 R) as H0. revert Hr H0. generalize s0 at 1 3. intros s1 Hr.
  induction Hr as [|s1 s2 s3 St _ IH]; [done|]. intros H1. apply IH. by eapply search_step_ok.
Qed.

(** *** Steps that make progress

    The steps between two restarts: there is something to propagate, a conflict to
    resolve, or everything is propagated and a variable is open. *)
Inductive advance : solver -> solver -> Prop :=
| advance_propagate s st ok s' st' :
    m_inconsistent s = false -> m_qhead s < length (m_trail s) -> propagate s st = Ok (ok, s') st' -> advance s s'
| advance_resolve s st s' st' :
    m_inconsistent s = true -> resolve s st = Ok (true, s') st' -> advance s s'
| advance_decide s next phase :
    m_inconsistent s = false -> m_qhead s = length (m_trail s) -> next < num_vars s -> value (mk_literal next false) s = l_undef ->
    advance s (decide_var next phase s).

(** The search is at its end. *)
Definition answered (s : solver) : Prop :=
  if m_inconsistent s then forall st, resolve s st = Ok (false, s) st
  else m_qhead s = length (m_trail s) /\ forall v, v < num_vars s -> value (mk_literal v false) s <> l_undef.

Lemma advance_step s s' : advance s s' -> search_step s s'.
Proof. intros []; [by eapply step_propagate|by eapply step_resolve|by apply step_decide]. Qed.

Lemma search_ok_bound s0 s : search_ok s0 s -> m_scope_lvl s <= length (levels_of s) <= num_vars s.
Proof.
  intros [Hst _ _ Hall]. apply all_levels_bound; [|done]. destruct (m_inconsistent s); [apply (sk_conflicted _ Hst)|apply (sr_inv _ Hst)].
Qed.

Lemma advance_rank s0 s s' : search_ok s0 s -> advance s s' -> rank (num_vars s0) s < rank (num_vars s0) s'.
Proof.
  intros Ok Ad. destruct (search_ok_bound _ _ Ok) as [Hlvl Hlen]. destruct Ok as [Hst Hn _ _]. rewrite Hn in Hlen. unfold rank.
  destruct Ad as [s st ok s' st' Hi Hq E|s st s' st' Hi E|s next phase Hi Hq Hv Hu]; rewrite Hi in *.
  - destruct (propagate_levels _ _ _ _ _ Hst E) as (_ & [t ->] & Hok). rewrite weight_app.
    destruct (Nat.eqb_spec (m_qhead s) (length (m_trail s))); [lia|]. destruct ok; [destruct Hok as [-> ->]; rewrite Nat.eqb_refl|rewrite Hok]; lia.
  - destruct (resolve_ok s Hst) as (b & s1 & Er & R). rewrite Er in E. injection E as -> -> _.
    destruct R as [R1 _ _ R4 _ (j & -> & _ & Hgt)]. rewrite (sr_consistent _ R1), weight_app.
    pose proof (f_equal (weight (num_vars s0)) (take_drop j (levels_of s))) as Hw. rewrite weight_app in Hw.
    pose proof (weight_above (num_vars s0) (m_scope_lvl s') (drop j (levels_of s)) ltac:(lia) ltac:(rewrite length_drop; lia) Hgt).
    destruct (m_qhead s' =? length (m_trail s')); lia.
  - destruct (decide_levels s next phase Hst Hv Hu) as (_ & -> & -> & -> & ->). rewrite weight_app, weight_single, Hq, Nat.eqb_refl.
    pose proof (pow_pos (num_vars s0) (num_vars s0 - S (m_scope_lvl s))). destruct (m_qhead s =? Datatypes.S (length (m_trail s))); lia.
Qed.

Lemma advances_rank s0 m s s' : search_ok s0 s -> nsteps advance m s s' -> search_ok s0 s' /\ rank (num_vars s0) s + m <= rank (num_vars s0) s'.
Proof.
  intros Ok Hm. revert Ok. induction Hm as [s|m s s1 s' Ad _ IH]; intros Ok; [split; [done|lia]|].
  pose proof (advance_rank _ _ _ Ok Ad). destruct IH as [? ?]; [by eapply search_step_ok, advance_step|]. split; [done|lia].
Qed.

(** What has no answer yet can go on. *)
Lemma search_progress s0 s : quiet -> search_ok s0 s -> answered s \/ exists s', advance s s'.
Proof.
  intros Hq [Hst _ _ _]. unfold answered. destruct (m_inconsistent s) eqn:Hi.
  - destruct (resolve_ok s Hst) as ([|] & s' & E & R); [right|left].
    + exists s'. apply (advance_resolve s (mk_st 0 0) s' (mk_st 0 0) Hi). by rewrite E.
    + intros st. destruct R as [-> _]. by rewrite E.
  - destruct (decide (m_qhead s = length (m_trail s))) as [Eq|Ne].
    + destruct (decide (Forall (fun v => value (mk_literal v false) s <> l_undef) (seq 0 (num_vars s)))) as [Ha|Hn].
      * left. split; [done|]. intros v Hv. rewrite Forall_forall in Ha. apply Ha, elem_of_seq. lia.
      * right. apply not_Forall_Exists in Hn; [|apply _]. apply Exists_exists in Hn as (v & Hv%elem_of_seq & Hu).
        exists (decide_var v false s). apply advance_decide; [done..|lia|]. by apply dec_stable.
    + right. destruct (spec_returns _ _ Hq (propagate_ok s (sr_inv _ Hst) Hi) (mk_st 0 0)) as ([ok s'] & st' & E & _).
      exists s'. eapply advance_propagate; [done| |exact E]. pose proof (inv_qhead _ (sr_inv _ Hst)). lia.
Qed.

(** ** The answers *)

(** Every variable is there and has a value. *)
Definition all_assigned (s : solver) : Prop :=
  forall v, v < num_vars s -> m_eliminated s !! v = Some false /\ value (mk_literal v false) s <> l_undef.

(** The model has the values of the state. *)
Lemma mk_model_value s l : in_vars s l -> assigned s -> all_assigned s ->
  value l s <> l_undef /\ lit_val (model_assignment (mk_model s)) l = bool_decide (value l s = l_true).
Proof.
  intros Hl Ha Hall. destruct (Hall _ Hl) as [He Hv].
  assert (Em : value_at_var (var l) (mk_model s) = value (mk_literal (var l) false) s).
  { unfold value_at_var, mk_model. rewrite list_lookup_total_alt, list_lookup_imap, He. done. }
  assert (Ev : value l s = if sign l then lbool_neg (value (mk_literal (var l) false) s) else value (mk_literal (var l) false) s).
  { rewrite (literal_eta l) at 1. destruct (sign l); [|done]. rewrite <- (neg_mk _ false), (as_neg _ Ha); [done|]. unfold in_vars. by rewrite var_mk. }
  unfold lit_val, model_assignment. rewrite Em, Ev. by destruct (sign l), (value (mk_literal (var l) false) s).
Qed.

Lemma complete_model s : searching s -> m_qhead s = length (m_trail s) -> all_assigned s -> says s (model_assignment (mk_model s)).
Proof.
  intros [I _ _] Hq Hall. destruct (complete_no_unit s I Hq) as [Hb Hc]. pose proof (inv_linked _ I) as Lk.
  assert (Ht : forall l, in_vars s l -> lit_val (model_assignment (mk_model s)) l = true <-> value l s = l_true).
  { intros l Hl. destruct (mk_model_value s l Hl (inv_assigned _ I) Hall) as [_ ->]. apply bool_decide_eq_true. }
  split; [split|].
  - intros l l2 b Hw Hl. pose proof (li_vars _ _ Lk _ _ Hw) as Hv. destruct (li_watch _ _ Lk _ _ Hw) as [Hv2 _].
    apply Ht; [done|]. apply (Hb l l2 b Hw). by apply Ht.
  - apply Forall_forall. intros c Hin. pose proof (proj1 (Forall_forall _ _) (li_clause _ _ Lk) c Hin) as [_ _ Hvs _ _].
    rewrite Forall_forall in Hvs. apply clause_val_true. destruct (Hc c Hin) as [(x & Hx & Hv)|(x & y & Hx & _ & _ & Hu & _)].
    + exists x. split; [done|]. apply Ht; auto.
    + by destruct (mk_model_value s x (Hvs x Hx) (inv_assigned _ I) Hall) as [? _].
  - intros l Hl _. apply Ht; [by apply (trail_vars _ _ (inv_assigned _ I))|]. by apply (trail_value _ _ (inv_assigned _ I)).
Qed.

(** C4.  Whatever the search does, in any order and with any decisions and restarts,
    what its clauses and its literals of the base level say is what the clauses it
    started from say; without a conflict the invariant holds. *)
Theorem search_keeps_models s0 s : startable s0 -> reaches s0 s ->
  num_vars s = num_vars s0 /\ (m_inconsistent s = false -> inv s) /\ forall a, says s a <-> models s0 a.
Proof.
  intros R Hr. destruct (reaches_ok s0 s R Hr) as [Hst Hn Hs _]. split_and!; [done| |done]. intros Hi. rewrite Hi in Hst. apply Hst.
Qed.

(** C2.  Conflict resolution ends.  At the base level it reports that the clauses have no
    model; above it, it goes back at least one level, to a state that satisfies the
    invariant and has learned something that all the models satisfy. *)
Theorem resolve_conflict_correct s0 s st : startable s0 -> reaches s0 s -> m_inconsistent s = true ->
  exists b s', resolve s st = Ok (b, s') st
    /\ if b : bool
       then m_scope_lvl s' < m_scope_lvl s /\ inv s' /\ m_inconsistent s' = false /\ num_vars s' = num_vars s0
            /\ (exists x, x ∈ m_trail s /\ lvl x s = Z.of_nat (m_scope_lvl s) /\ neg x ∈ m_trail s')
            /\ forall a, says s' a <-> models s0 a
       else forall a, ~ models s0 a.
Proof.
  intros R Hr Hi. destruct (reaches_ok s0 s R Hr) as [Hst Hn Hs _]. rewrite Hi in Hst.
  destruct (resolve_ok s Hst) as (b & s' & E & Hb). exists b, s'. split; [by rewrite E|]. destruct b.
  - destruct Hb as [[I Hi' _] R2 R3 R4 R5 _]. split_and!; [done..|congruence|done|]. intros a. by rewrite R2.
  - destruct Hb as [_ Hno]. intros a Ha. by apply (Hno a), Hs.
Qed.

(** C3.  The lemma of a conflict: its first literal negates one of the current level, the
    others are false at lower levels, the greatest of which it goes back to; it
    follows from the clauses, and no variable stays marked. *)
Theorem learn_lemma_correct s0 s st : startable s0 -> reaches s0 s -> m_inconsistent s = true -> 0 < m_scope_lvl s ->
  exists x rest k marks,
    ('(lemma, marks) ← analyze s; learn_lemma m_minimize_lemmas m_dyn_sub_res s lemma marks) st = Ok (neg x :: rest, k, marks) st
    /\ x ∈ m_trail s /\ lvl x s = Z.of_nat (m_scope_lvl s)
    /\ (forall l, l ∈ rest -> neg l ∈ m_trail s /\ (0 < lvl l s <= k)%Z) /\ NoDup rest
    /\ (0 <= k < Z.of_nat (m_scope_lvl s))%Z /\ (rest <> [] -> exists l, l ∈ rest /\ lvl l s = k)
    /\ (forall a, models s0 a -> clause_val a (neg x :: rest) = true)
    /\ forall v, is_marked v marks = false.
Proof.
  intros R Hr Hi above. destruct (reaches_ok s0 s R Hr) as [Hst Hn Hs _]. rewrite Hi in Hst. pose proof (sk_conflicted _ Hst) as C.
  destruct (analyze_ok s C above) as (x & rest & marks & Ea & A).
  destruct (learn_lemma_ok s C above m_minimize_lemmas m_dyn_sub_res x rest marks A) as (rest' & marks' & El & Le & Hm).
  exists x, rest', (backjump_level s rest'), marks'. destruct (backjump_level_spec s above rest' x Le) as (H1 & H2 & H3).
  destruct (le_uip _ _ _ Le) as [? ?]. split_and!; [by rewrite Ea, mret_bind, El|done|done| |apply Le|lia..|done| |done].
  - intros l Hl. destruct (le_rest _ _ _ Le l Hl) as [? ?]. split; [done|]. specialize (H2 l Hl). lia.
  - intros a Ha. by apply (le_implied _ _ _ Le), Hs.
Qed.

(** C5.  When everything is propagated and every variable has a value, the model that is
    made satisfies what the search was given. *)
Theorem mk_model_correct s0 s : startable s0 -> reaches s0 s -> m_inconsistent s = false -> m_qhead s = length (m_trail s) ->
  all_assigned s -> models s0 (model_assignment (mk_model s)).
Proof.
  intros R Hr Hi Hq Hall. destruct (reaches_ok s0 s R Hr) as [Hst Hn Hs _]. rewrite Hi in Hst.
  apply Hs. by apply complete_model.
Qed.
(** C36.  Between two restarts the search ends with an answer, whatever it decides.  From
    any state the search reaches, runs of its other steps (propagating where
    something is left to propagate, resolving conflicts, deciding open variables once
    all is propagated) have a length bounded by the number of variables; and in an
    environment that does not interrupt it such a run stops only where the search has
    its answer: a conflict that cannot be resolved, or a value for every variable. *)
Theorem search_terminates s0 s : startable s0 -> reaches s0 s ->
  (forall m s', nsteps advance m s s' -> m <= 3 * (num_vars s0 * (num_vars s0 + 1) ^ num_vars s0) + 2)
  /\ (quiet -> forall s', rtc advance s s' -> answered s' \/ exists s'', advance s' s'').
Proof.
  intros R Hr. pose proof (reaches_ok s0 s R Hr) as Ok. split.
  - intros m s' Hm. destruct (advances_rank s0 m s s' Ok Hm) as [Ok' Hle]. destruct (search_ok_bound _ _ Ok') as [_ Hlen].
    rewrite (sh_vars _ _ Ok') in Hlen. pose proof (rank_bound (num_vars s0) s' Hlen). lia.
  - intros Hq s' [m Hm]%rtc_nsteps. destruct (advances_rank s0 m s s' Ok Hm) as [Ok' _]. by apply (search_progress s0).
Qed.
End Search.

(** ** From bit-vectors to an answer *)

Import rewriter_tpl blaster_rewriter_cfg.
Import solver goal atom2bool_var goal2sat sat_tactic bit_blaster_model_converter.

Section Decide.
Context `{Env} (m_minimize_lemmas m_dyn_sub_res : bool).
Context (m_use_wtm m_use_bcm : bool) (cfg : params) {C : Type} `{CacheOk C} (ite_extra default_external : bool).
Variable k : nat.
Variable ref_count : machine state C -> expr -> nat.
Variables retries fuel : nat.

Lemma usable_startable (s : solver) : usable_solver s -> SatSolver.m_inconsistent s = false -> startable s.
Proof. intros (I & Hb & Hu & Hs & Hr) Hi. by split. Qed.

(** C1.  Bit-blasting, the translation to clauses and the search, on a goal over
    bit-vectors.  An answer of the search is right: if it ends in a state without a
    conflict in which everything has a value, the model it makes, read back, satisfies
    the goal; if it ends in a conflict that cannot be resolved, or adding the clauses
    found one already, nothing does. *)
Theorem bit_vector_search_correct n rw g : (0 < retries)%nat -> acceptable cfg k fuel g -> BitBlasterTactic.usable k rw ->
  m_keys (m_cfg rw) = [] ->
  spec_exn (fun e => blaster_raises cfg e \/ e = ExUnsupported)
    (pipeline (T := solver) m_use_wtm m_use_bcm cfg ite_extra default_external ref_count retries fuel n rw g new_solver) (fun '(mc, st) =>
    (SatSolver.m_inconsistent (m_solver st) = true -> forall I, conj (m_forms g) I = false)
    /\ (SatSolver.m_inconsistent (m_solver st) = false -> forall s, reaches m_minimize_lemmas m_dyn_sub_res (m_solver st) s ->
      (SatSolver.m_inconsistent s = true -> forall ts s' ts', resolve_conflict m_minimize_lemmas m_dyn_sub_res s ts = Ok (false, s') ts' ->
         forall I, conj (m_forms g) I = false)
      /\ (SatSolver.m_inconsistent s = false -> m_qhead s = length (m_trail s) -> all_assigned s -> m_interpreted_vars (m_map st) = false ->
         let md := register_model (m_map st) (mk_model s) empty_model in
         conj (m_forms g) (meaning (match mc with Some mc => convert mc md | None => md end)) = true))).
Proof.
  intros Hn Hg Hu Hk. assert (Hnew : usable_solver new_solver) by (split; [apply new_solver_inv|done]).
  assert (Hall : forall a, models new_solver a) by (intros a; by apply new_solver_models).
  eapply spec_exn_mono; [by eapply (pipeline_ok _ _ _ _ _ k)|done|]. intros [mc st] (Us & Hsat & Hmodel).
  assert (Hno : (forall a, ~ models (m_solver st) a) -> forall I, conj (m_forms g) I = false).
  { intros Hn' I. apply not_true_is_false. intros HI. destruct (Hsat I (fun _ => false) HI (Hall _)) as [a Ha]. by apply (Hn' a). }
  split; [intros Hi; apply Hno; intros a [Hi' _]; change (SatSolver.m_inconsistent (m_solver st) = false) in Hi'; congruence|].
  intros Hi s Hr. pose proof (usable_startable _ Us Hi) as R. destruct (reaches_ok _ _ _ _ R Hr) as [Hst _ Hs _]. split; intros Hi'; rewrite Hi' in Hst.
  - intros ts s' ts' E. apply Hno. destruct (resolve_ok m_minimize_lemmas m_dyn_sub_res s Hst) as (b & s1 & Er & Hb). rewrite Er in E.
    injection E as -> _ _. destruct Hb as [_ Hb]. intros a Ha. by apply (Hb a), Hs.
  - intros Hq Ha Hint. apply Hmodel; [done|]. apply Hs. by apply complete_model.
Qed.
End Decide.

(** ** Two searches *)

Lemma cnf_startable n cs s : Forall (Forall (fun l => var l < n)) cs -> SatSolver.m_inconsistent s = false -> m_user_scope_literals s = [] ->
  m_scopes s = [] -> m_clauses_to_reinit s = [] -> at_base_lvl s = true ->
  (exists st', cnf n cs (mk_st 0 0) = Ok s st') -> startable s.
Proof.
  intros Hcs ? ? ? ? ? [st' E]. pose proof (cnf_ok (H := calm) n cs Hcs (mk_st 0 0)) as I. rewrite E in I. split; [apply I|done..].
Qed.

(** All the clauses over [x0], [x1] and [x2]. *)
Definition eight : list (list literal) :=
  a ← [false; true]; b ← [false; true]; c ← [false; true]; [[lit_ex 0 a; lit_ex 1 b; lit_ex 2 c]].

Definition eight_ex : solver :=
  match cnf 3 eight (mk_st 0 0) with Ok s _ => s | Throw _ => new_solver end.

Definition after_propagate (s : solver) : solver :=
  match propagate (H := calm) s (mk_st 0 0) with Ok (_, s') _ => s' | Throw _ => s end.

(** [x0] and [x1] are decided false: [x2] is both. *)
Definition conflict_ex : solver := after_propagate (decide_var 1 false (after_propagate (decide_var 0 false eight_ex))).

(** [x1] and [x0] are decided true, after which the others follow. *)
Definition complete_ex : solver := after_propagate (decide_var 0 true (after_propagate (decide_var 1 true solver_ex))).

Lemma eight_ex_startable : startable eight_ex.
Proof.
  apply (cnf_startable 3 eight); [vm_compute; repeat constructor|reflexivity..|]. eexists. vm_compute. reflexivity.
Qed.

Lemma solver_ex_startable : startable solver_ex.
Proof. apply (cnf_startable 4 clauses_ex); [exact clauses_ex_vars|reflexivity..|]. eexists. vm_compute. reflexivity. Qed.

(** A decision and what follows. *)
Lemma reaches_decide mini dyn s0 s v b : reaches (H := calm) mini dyn s0 s -> SatSolver.m_inconsistent s = false ->
  m_qhead s = length (m_trail s) -> v < num_vars s -> value (mk_literal v false) s = l_undef ->
  (exists ok s' st', propagate (H := calm) (decide_var v b s) (mk_st 0 0) = Ok (ok, s') st') ->
  SatSolver.m_inconsistent (decide_var v b s) = false ->
  reaches (H := calm) mini dyn s0 (after_propagate (decide_var v b s)).
Proof.
  intros Hr Hi Hq Hv Hu (ok & s' & st' & E) Hi'. eapply rtc_r; [eapply rtc_r; [exact Hr|by apply step_decide]|].
  unfold after_propagate. rewrite E. by eapply (step_propagate (H := calm)).
Qed.

Lemma conflict_ex_reached : reaches (H := calm) true true eight_ex conflict_ex.
Proof.
  apply reaches_decide; [|reflexivity|reflexivity|vm_compute; lia|reflexivity|eexists _, _, _; vm_compute; reflexivity|reflexivity].
  apply reaches_decide; [|reflexivity|reflexivity|vm_compute; lia|reflexivity|eexists _, _, _; vm_compute; reflexivity|reflexivity].
  apply rtc_refl.
Qed.

Lemma complete_ex_reached : reaches (H := calm) true true solver_ex complete_ex.
Proof.
  apply reaches_decide; [|reflexivity|reflexivity|vm_compute; lia|reflexivity|eexists _, _, _; vm_compute; reflexivity|reflexivity].
  apply reaches_decide; [|reflexivity|reflexivity|vm_compute; lia|reflexivity|eexists _, _, _; vm_compute; reflexivity|reflexivity].
  apply rtc_refl.
Qed.

Lemma complete_ex_assigned : all_assigned complete_ex.
Proof.
  intros v Hv. assert (v < 4) by exact Hv. destruct v as [|[|[|[|]]]]; [vm_compute; done..|lia].
Qed.

Lemma search_keeps_models_witness :
  num_vars conflict_ex = num_vars eight_ex /\ (SatSolver.m_inconsistent conflict_ex = false -> inv conflict_ex)
  /\ forall a, says conflict_ex a <-> models eight_ex a.
Proof. exact (search_keeps_models (H := calm) true true eight_ex conflict_ex eight_ex_startable conflict_ex_reached). Defined.

Lemma resolve_conflict_correct_witness :
  exists b s', resolve_conflict (H := calm) true true conflict_ex (mk_st 0 0) = Ok (b, s') (mk_st 0 0)
    /\ if b : bool
       then m_scope_lvl s' < m_scope_lvl conflict_ex /\ inv s' /\ SatSolver.m_inconsistent s' = false /\ num_vars s' = num_vars eight_ex
            /\ (exists x, x ∈ m_trail conflict_ex /\ lvl x conflict_ex = Z.of_nat (m_scope_lvl conflict_ex) /\ neg x ∈ m_trail s')
            /\ forall a, says s' a <-> models eight_ex a
       else forall a, ~ models eight_ex a.
Proof.
  exact (resolve_conflict_correct (H := calm) true true eight_ex conflict_ex (mk_st 0 0) eight_ex_startable conflict_ex_reached eq_refl).
Defined.

Lemma learn_lemma_correct_witness :
  exists x rest k marks,
    ('(lemma, marks) ← analyze conflict_ex; learn_lemma true true conflict_ex lemma marks) (mk_st 0 0)
      = Ok (neg x :: rest, k, marks) (mk_st 0 0)
    /\ x ∈ m_trail conflict_ex /\ lvl x conflict_ex = Z.of_nat (m_scope_lvl conflict_ex)
    /\ (forall l, l ∈ rest -> neg l ∈ m_trail conflict_ex /\ (0 < lvl l conflict_ex <= k)%Z) /\ NoDup rest
    /\ (0 <= k < Z.of_nat (m_scope_lvl conflict_ex))%Z /\ (rest <> [] -> exists l, l ∈ rest /\ lvl l conflict_ex = k)
    /\ (forall a, models eight_ex a -> clause_val a (neg x :: rest) = true)
    /\ forall v, is_marked v marks = false.
Proof.
  exact (learn_lemma_correct (H := calm) true true eight_ex conflict_ex (mk_st 0 0) eight_ex_startable conflict_ex_reached eq_refl (Nat.lt_0_succ 1)).
Defined.

Lemma mk_model_correct_witness : models solver_ex (model_assignment (mk_model complete_ex)).
Proof.
  exact (mk_model_correct (H := calm) true true solver_ex complete_ex solver_ex_startable complete_ex_reached eq_refl eq_refl complete_ex_assigned).
Defined.

Lemma search_terminates_witness :
  (forall m s', nsteps (advance (H := calm) true true) m conflict_ex s' ->
     m <= 3 * (num_vars eight_ex * (num_vars eight_ex + 1) ^ num_vars eight_ex) + 2)
  /\ (quiet (H := calm) -> forall s', rtc (advance (H := calm) true true) conflict_ex s' ->
       answered (H := calm) true true s' \/ exists s'', advance (H := calm) true true s' s'').
Proof. exact (search_terminates (H := calm) true true eight_ex conflict_ex eight_ex_startable conflict_ex_reached). Defined.

Lemma bit_vector_search_correct_witness :
  @spec_exn calm _ (fun e => blaster_raises default_cfg e \/ e = ExUnsupported)
    (pipeline (H := calm) (T := solver) false false default_cfg true false shared 1 100 10 rw_ex goal_ex new_solver)
    (fun '(mc, st) =>
      (SatSolver.m_inconsistent (m_solver st) = true -> forall I, conj (m_forms goal_ex) I = false)
      /\ (SatSolver.m_inconsistent (m_solver st) = false -> forall s, reaches (H := calm) true true (m_solver st) s ->
        (SatSolver.m_inconsistent s = true -> forall ts s' ts', resolve_conflict (H := calm) true true s ts = Ok (false, s') ts' ->
           forall I, conj (m_forms goal_ex) I = false)
        /\ (SatSolver.m_inconsistent s = false -> m_qhead s = length (m_trail s) -> all_assigned s -> m_interpreted_vars (m_map st) = false ->
           let md := register_model (m_map st) (mk_model s) empty_model in
           conj (m_forms goal_ex) (meaning (match mc with Some mc => convert mc md | None => md end)) = true))).
Proof.
  exact (bit_vector_search_correct (H := calm) true true false false default_cfg true false 100 shared 1 100 10 rw_ex goal_ex
    (le_n 1) goal_ex_acceptable rw_ex_usable eq_refl).
Defined.

(** The lemma and the first literal it makes true; and a whole search, which decides the
    first variable without a value. *)
Example conflict_ex_lemma :
  match resolve_conflict (H := calm) true true conflict_ex (mk_st 0 0) with
  | Ok (b, s) _ => b = true /\ m_scope_lvl s = 1 /\ m_trail s = [lit_ex 0 true; lit_ex 1 false] | Throw _ => False end.
Proof. vm_compute. done. Qed.

Fixpoint first_search (fuel : nat) (s : solver) : M (option bool) :=
  match fuel with
  | O => mret None
  | S fuel =>
      '(ok, s) ← propagate (H := calm) s;
      if ok : bool then
        match filter (fun v => value (mk_literal v false) s = l_undef) (seq 0 (num_vars s)) with
        | [] => mret (Some true)
        | v :: _ => first_search fuel (decide_var v false s)
        end
      else
        '(b, s) ← resolve_conflict (H := calm) true true s;
        if b : bool then first_search fuel s else mret (Some false)
  end.

Example eight_unsat :
  match first_search 20 eight_ex (mk_st 0 0) with Ok r _ => r = Some false | Throw _ => False end.
Proof. vm_compute. reflexivity. Qed.

(** For the goal of the witness the search ends with a model. *)
Example goal_ex_sat :
  match pipeline (H := calm) (T := solver) false false default_cfg true false shared 1 100 10 rw_ex goal_ex new_solver (mk_st 0 0) with
  | Ok (_, st) _ => match first_search 100 (m_solver st) (mk_st 0 0) with Ok r _ => r = Some true | Throw _ => False end
  | Throw _ => False end.
Proof. vm_compute. reflexivity. Qed.
